(* ===== verification/_CoqProject ===== *)
-Q . S2P
Prelude.v
RustStr.v
Json.v
RequestTypes.v
Scan.v
Parser.v
ParserFacts.v
Dispatch.v
RequestLimits.v
EdgeOntology.v
Conflict.v
Plan.v
Ident.v
Rounding.v
Float.v
Score.v
UnitScore.v
Weights.v
Distance.v
Fusion.v
FusionFacts.v
WeightedFacts.v
Archive.v
Merge.v
MergeEntity.v
MergeEdge.v
ThreeWay.v
Wire.v
WireCodec.v
WireFacts.v
WireDecode.v
WireGate.v
LionVec.v
LionRights.v
LionRevocation.v
LionRevocationFacts.v
LionMemory.v
LionWorkflow.v
LionWorkflowRun.v
LionState.v
LionStep.v
LionStepFacts.v
LionKernelFacts.v
LionSafety.v
CapabilityManager.v
CapabilitySpec.v
CapabilityFacts.v
DurableTypes.v
DurableCodec.v
DurableCodecLaws.v
DurablePermission.v
DurablePermissionFacts.v
DurableRights.v
DurableEnvelope.v
DurableIssue.v
DurableDelegate.v
DurableExamples.v
Records.v
ChangeOps.v
InvertFacts.v
InvertProof.v
Reinvert.v
Ndjson.v
QueryAst.v
Gql.v
QuerySql.v
SqlText.v
SqlAlike.v
SqlSafety.v
SqlClauses.v
QueryPage.v
Sparql.v
Fold.v
Anchor.v
Selector.v
SelectorTree.v
SelectorCategory.v
SelectorFacts.v
SelectorRun.v
Objective.v
