(* ===== verification/Prelude.v ===== *)
(** * khive: a verification development of the knowledge-graph runtime

    khive (Rust, src/crates/) stores a typed knowledge graph of entities, notes, events
    and edges, and serves it to agents: a request language, a query language compiled to
    SQL, ranked retrieval, staged change-sets and three-way merges of exported archives, a
    wire protocol, and a capability kernel with durable, sealed grants. This development
    models the parts of it that compute: parsers, codecs, compilers, merges, numeric
    ranking and the authority machinery. The storage, the transports and the processes
    around them are not modelled.

    ** Conventions

    Prelude (this file) and RustStr hold what the parts share: [result] for [Result],
    sorted association lists ([bm_*]) for [BTreeMap], orders, saturating integers, and
    [str] and [[u8]] as byte sequences. A [HashMap] is a finite map, its iteration order
    a parameter wherever the code iterates over one. Integers are [Z] or [N] with the
    checks, wraps and saturations of their width written out. Floats are the [SpecFloat]
    numbers of the standard library (Rounding, Float), with every operation and cast of
    the source. An operation on [&mut self] returns the new state. Where the code can
    panic, and where recursion is not structural, a definition returns an [option] (or
    [outcome]): [None] is a panic or exhausted fuel, and a theorem shows that it does not
    occur. Definitions keep the names of the source; methods carry the name of their
    type where the bare name is taken.

    ** Parts, and where they are in the source

    - Requests (khive-request). Json is serde_json's [Value] with the paths of [$prev]
      (parser/path.rs);
      RequestTypes is types.rs, Scan, Parser and Dispatch three files of parser/
      (scan.rs, parser_impl.rs, dispatch.rs), Conflict is conflict.rs, Plan is plan.rs
      and atomic.rs, which both call the parser. ParserFacts carries the invariant of the
      parser's runs; RequestLimits the nesting bound of accepted requests.
    - Shared types (khive-types). EdgeOntology is edge.rs and edge_rules.rs, Ident is
      namespace.rs and id.rs, Records is timestamp.rs, header.rs, entity.rs and note.rs.
    - Scores and fusion (khive-score, khive-fusion). Score is the fixed-point score that
      every ranking uses; UnitScore, Weights and Distance are the other modules of the
      crate. Fusion is khive-fusion, with FusionFacts and WeightedFacts about it.
    - Merges (khive-merge, portability.rs of khive-runtime). Archive holds the records,
      Merge the algorithms; MergeEntity and MergeEdge show what the two merges decide per
      identifier and per key, ThreeWay what the whole merge, its strategies, the
      fast-forward check and the search for a common ancestor guarantee.
    - Change-sets (khive-changeset). ChangeOps holds the operations, their inversion and
      the comparison with live records; InvertFacts and InvertProof specify how an
      operation lands on the records; Reinvert and Ndjson are about inverting twice and
      about the line format.
    - Wire protocol (khive-wire-protocol). Wire holds the data, WireCodec the codec,
      WireFacts encoding and WireDecode decoding (and a concrete serializer), WireGate
      the handshakes of both sides.
    - Capability kernel (khive-lion-core). LionVec holds the sorted vectors and the data
      of types/, LionRights rights and levels, LionRevocation the capability table,
      LionMemory pages and resources, LionWorkflow workflows, LionState the global state
      and the interface of kernel.rs, LionStep the step in its pure and in-place forms.
      LionRevocationFacts, LionWorkflowRun, LionStepFacts, LionKernelFacts and LionSafety
      prove; a part calls those named before it.
    - Capabilities over the kernel (khive-capability). CapabilityManager is the manager
      that mints, composes, validates and revokes grants in a kernel; CapabilitySpec is
      what it promises, a forest of grants without a kernel; CapabilityFacts the
      simulation. The Durable files are durable/: DurableTypes and DurableCodec the records and
      their canonical bytes, DurablePermission the contract catalog and the rights,
      DurableEnvelope the keys, sealing, verification and issuance through a scratch
      kernel; DurableCodecLaws, DurablePermissionFacts, DurableRights, DurableIssue and
      DurableDelegate prove; DurableExamples has the concrete records.
    - Queries (khive-query, and operations/edge_query.rs of khive-runtime). QueryAst is
      the tree, the validation and the cursor both parsers use; Gql and Sparql the
      parsers; QuerySql the compiler. SqlText, SqlAlike and SqlSafety read the text of a
      statement as tokens, SqlClauses as words outside parentheses. QueryPage cuts and
      follows pages, and states what the compiler promises.
    - Folds (khive-fold). Fold holds the folds and their compositions, Anchor the graph
      of anchors, Selector the budget selector (with SelectorTree, SelectorCategory,
      SelectorFacts and SelectorRun about it), Objective the objectives, their
      selections and the pipeline that scores candidates for the selector.

    ** What the theorems show

    A theorem whose comment starts with C and a number is one of the main properties.

    - Refinement: the capability manager answers as a forest of grants does
      (CapabilityFacts); entity and edge merges make the abstract three-way choice
      (MergeEntity, MergeEdge); the indexed selector selects what the scanning reference
      selects (SelectorRun); selections by vector and by heap are the front of the
      sorted candidates (Objective).
    - Authority: what is checked descends from a mint (CapabilityFacts); what is
      delegated is confined to its parent, over whole histories of issuance, and
      verification and issuance succeed exactly when their conditions hold (the Durable files);
      a host call is mediated, steps are isolated, revocation is complete, and the states
      of a kernel stay well-formed (the Lion files).
    - Encodings: round trips and exact answers of the wire codec (WireFacts, WireDecode),
      of the durable codec (DurableCodecLaws) and of NDJSON (Ndjson); agreement of the
      two handshake gates under every interleaving (WireGate).
    - Languages: accepted requests are well-formed (Dispatch); literals do not reach the
      text of a statement and every table keeps to its namespaces (QueryPage); no
      conjunct of a SPARQL text is dropped (Sparql); the parsers answer for every text.
    - Data: an inverse lands and restores (InvertProof, Reinvert); a clean merge is
      consistent (ThreeWay); fused rankings, pages and conflict maps are what their
      specifications say (FusionFacts, WeightedFacts, QueryPage, Conflict).
    - Findings, where the code departs from its own documentation, are recorded beside
      the definitions they are about, as examples or theorems: LionSafety
      ([execute_forms_diverge]), WireDecode ([code_token_escape]), QueryPage
      ([mid_path_event]), Anchor ([missing_node_between]).

    ** Fuel and bounds

    The request parser runs with fuel from the length of its text (ParserFacts shows it
    is enough), GQL and SPARQL loops with one unit per character and one more (every
    iteration consumes one), the traversals of the capability table and of the anchor
    graph with one unit per edge and two more (a node is queued once), the selector with
    what bounds its stale heap entries (SelectorFacts). The search for a common ancestor
    has the number of snapshots as fuel. Elsewhere recursion is structural. The fuel of
    the pure revocation of the kernel is the source's own argument.

    ** Parameters

    What is not under src/ is a parameter: serde_json's reading and printing ([Externals],
    the serializers of Wire, Ndjson), UUID texts, [exp], [ln], [pow] and [sqrt] of the C
    library, the iteration order of hash maps, HMAC-SHA256 and BLAKE3, Unicode tables,
    chrono's times. What a theorem needs of one is a class of laws that states documented
    behaviour, and its witness instantiates it.

    ** Not modelled

    SQLite and the stores over it, the asynchronous runtime, servers, command lines and
    transports, the domain packs, the approximate indexes, the learning rules and the
    external policy engine: I/O, concurrency of the host, randomised or SIMD code. The
    meaning of a compiled statement is SQLite's; theorems are about its text. Of the
    query compiler the namespace theorem is about paths of fixed length. Serde adapters
    and [Display] texts are modelled where other code depends on them. *)

From Stdlib Require Import String Ascii ZArith.
From stdpp Require Import base tactics list strings gmap sorting.
#[global] Set Warnings "-clear-no-such-hyp,-register-all".

Declare Scope khive_scope.
Delimit Scope khive_scope with khive.

(** ** Fallible code *)

(** Rust's [Result<A, E>]. *)
Inductive result (A E : Type) : Type :=
| Ok (a : A)
| Err (e : E).
Arguments Ok {A E} a.
Arguments Err {A E} e.

(** The outcome of a recursive routine run with fuel: [OutOfFuel] is an
    artefact of the model; every component proves that its entry points never
    return it. *)
Inductive outcome (A E : Type) : Type :=
| Done (a : A)
| Fail (e : E)
| OutOfFuel.
Arguments Done {A E} a.
Arguments Fail {A E} e.
Arguments OutOfFuel {A E}.

Definition res_bind {A B E} (m : result A E) (k : A → result B E) : result B E :=
  match m with Ok a => k a | Err e => Err e end.

Definition res_map {A B E} (f : A → B) (m : result A E) : result B E :=
  match m with Ok a => Ok (f a) | Err e => Err e end.

Definition ok_or {A E} (o : option A) (e : E) : result A E :=
  match o with Some a => Ok a | None => Err e end.

Notation "'let?' x ':=' m 'in' k" := (res_bind m (λ x, k))
  (at level 10, x pattern, m at level 100, k at level 200) : khive_scope.
Notation "'check?' m 'in' k" := (res_bind m (λ _ : unit, k))
  (at level 10, m at level 100, k at level 200) : khive_scope.

Open Scope khive_scope.

Lemma res_bind_Ok {A B E} (m : result A E) (k : A → result B E) b :
  res_bind m k = Ok b ↔ ∃ a, m = Ok a ∧ k a = Ok b.
Proof. destruct m; simpl; naive_solver. Qed.

Lemma res_bind_Err {A B E} (m : result A E) (k : A → result B E) e :
  res_bind m k = Err e ↔ m = Err e ∨ ∃ a, m = Ok a ∧ k a = Err e.
Proof. destruct m; simpl; naive_solver. Qed.

(** Invert a successful chain of binds in a hypothesis. *)
Ltac inv_res H :=
  repeat match type of H with
  | res_bind _ _ = Ok _ =>
      let a := fresh "a" in let Ha := fresh "Ha" in
      apply res_bind_Ok in H as (a & Ha & H)
  end.

(** Split every [match] of the goal, or of a hypothesis. *)
Ltac split_goal := repeat (case_match || case_decide); simplify_eq/=.

(** ** Loops of the source over a slice *)

(** [for x in l { f(x)? }] *)
Fixpoint try_each {A E} (f : A → result unit E) (l : list A) : result unit E :=
  match l with
  | [] => Ok ()
  | x :: l' => check? f x in try_each f l'
  end.

(** [for x in l { out.push(f(x)?) }] *)
Fixpoint try_map {A B E} (f : A → result B E) (l : list A) : result (list B) E :=
  match l with
  | [] => Ok []
  | x :: l' => let? y := f x in let? ys := try_map f l' in Ok (y :: ys)
  end.

Lemma try_each_Ok {A E} (f : A → result unit E) l :
  try_each f l = Ok () ↔ Forall (λ x, f x = Ok ()) l.
Proof.
  induction l as [|x l IH]; simpl; [by split; [constructor|]|].
  rewrite Forall_cons, <-IH, res_bind_Ok. split; [by intros ([] & ? & ?)|].
  intros [??]. by exists ().
Qed.

Lemma try_each_Err {A E} (f : A → result unit E) l e :
  try_each f l = Err e → ∃ x, x ∈ l ∧ f x = Err e.
Proof.
  induction l as [|x l IH]; simpl; [done|].
  intros [H|([] & _ & H)]%res_bind_Err; [exists x; set_solver|].
  destruct (IH H) as (y & ? & ?). exists y; set_solver.
Qed.

Lemma try_map_Forall2 {A B E} (f : A → result B E) l k :
  try_map f l = Ok k → Forall2 (λ x y, f x = Ok y) l k.
Proof.
  revert k. induction l as [|x l IH]; intros k H; simpl in H; inv_res H.
  - simplify_eq. constructor.
  - simplify_eq. constructor; auto.
Qed.

(** Pair every element with its position, as [iter().enumerate()] does. *)
Definition enumerate {A} (l : list A) : list (nat * A) := zip (seq 0 (length l)) l.

Lemma enumerate_lookup {A} (l : list A) i :
  enumerate l !! i = (λ x, (i, x)) <$> l !! i.
Proof.
  unfold enumerate. destruct (l !! i) as [x|] eqn:Hx; simpl.
  - apply lookup_zip_Some. split; [|done].
    apply lookup_seq. split; [done|]. by eapply lookup_lt_Some.
  - apply lookup_ge_None. apply lookup_ge_None in Hx.
    rewrite length_zip_with, length_seq. lia.
Qed.

Lemma enumerate_elem_of {A} (l : list A) i x :
  (i, x) ∈ enumerate l ↔ l !! i = Some x.
Proof.
  rewrite list_elem_of_lookup. setoid_rewrite enumerate_lookup. split.
  - intros (j & Hj). apply fmap_Some in Hj as (y & ? & ?). by simplify_eq.
  - intros Hi. exists i. by rewrite Hi.
Qed.

Lemma elem_of_concat {A} (x : A) ls : x ∈ concat ls ↔ ∃ l, x ∈ l ∧ l ∈ ls.
Proof.
  rewrite list_elem_of_In, in_concat. setoid_rewrite list_elem_of_In. naive_solver.
Qed.

Lemma NoDup_fmap_inj {A B} (f : A → B) l x y :
  NoDup (f <$> l) → x ∈ l → y ∈ l → f x = f y → x = y.
Proof.
  intros Hd [i Hi]%list_elem_of_lookup [j Hj]%list_elem_of_lookup Hxy.
  assert (i = j) as ->; [|congruence].
  apply (NoDup_lookup _ i j (f x) Hd); rewrite list_lookup_fmap; [by rewrite Hi|by rewrite Hj, Hxy].
Qed.

(** ** Rust's [Ord]: a total order given by a three-way comparison *)

Class Ord (T : Type) := cmp : T → T → comparison.

Class OrdLaws (T : Type) `{Ord T} := {
  cmp_refl (a : T) : cmp a a = Eq;
  cmp_eq (a b : T) : cmp a b = Eq → a = b;
  cmp_flip (a b : T) : cmp b a = CompOpp (cmp a b);
  cmp_trans (a b c : T) : cmp a b = Lt → cmp b c = Lt → cmp a c = Lt
}.

(** [Ordering::then]: the first decisive comparison wins. *)
Definition then_cmp (a b : comparison) : comparison :=
  match a with Eq => b | _ => a end.

#[export] Instance nat_Ord : Ord nat := Nat.compare.
#[export] Instance Z_Ord : Ord Z := Z.compare.
#[export] Instance N_Ord : Ord N := N.compare.
#[export] Instance ascii_Ord : Ord ascii := λ a b, (N_of_ascii a ?= N_of_ascii b)%N.

(** [str] is ordered bytewise. *)
Fixpoint string_cmp (a b : string) : comparison :=
  match a, b with
  | String x a', String y b' => then_cmp (cmp x y) (string_cmp a' b')
  | String _ _, EmptyString => Gt
  | EmptyString, String _ _ => Lt
  | EmptyString, EmptyString => Eq
  end.
#[export] Instance string_Ord : Ord string := string_cmp.
#[export] Instance prod_Ord {A B} `{Ord A, Ord B} : Ord (A * B) :=
  λ x y, then_cmp (cmp x.1 y.1) (cmp x.2 y.2).

#[export] Instance nat_OrdLaws : OrdLaws nat.
Proof.
  split; unfold cmp, nat_Ord; intros.
  - apply Nat.compare_refl.
  - by apply Nat.compare_eq_iff.
  - apply Nat.compare_antisym.
  - rewrite Nat.compare_lt_iff in *. lia.
Qed.
#[export] Instance Z_OrdLaws : OrdLaws Z.
Proof.
  split; unfold cmp, Z_Ord; intros.
  - apply Z.compare_refl.
  - by apply Z.compare_eq_iff.
  - apply Z.compare_antisym.
  - rewrite Z.compare_lt_iff in *. lia.
Qed.
#[export] Instance N_OrdLaws : OrdLaws N.
Proof.
  split; unfold cmp, N_Ord; intros.
  - apply N.compare_refl.
  - by apply N.compare_eq_iff.
  - apply N.compare_antisym.
  - rewrite N.compare_lt_iff in *. lia.
Qed.
#[export] Instance ascii_OrdLaws : OrdLaws ascii.
Proof.
  split; unfold cmp, ascii_Ord; intros.
  - apply N.compare_refl.
  - apply N.compare_eq_iff in H.
    by rewrite <-(ascii_N_embedding a), <-(ascii_N_embedding b), H.
  - apply N.compare_antisym.
  - rewrite N.compare_lt_iff in *. lia.
Qed.

Section then_cmp_laws.
Context {A B : Type} `{OrdLaws A, OrdLaws B}.

Lemma then_cmp_flip (a a' : A) (b b' : B) :
  then_cmp (cmp a' a) (cmp b' b) = CompOpp (then_cmp (cmp a a') (cmp b b')).
Proof. rewrite (cmp_flip a a'), (cmp_flip b b'). by destruct (cmp a a'). Qed.

Lemma then_cmp_trans (a1 a2 a3 : A) (b1 b2 b3 : B) :
  then_cmp (cmp a1 a2) (cmp b1 b2) = Lt →
  then_cmp (cmp a2 a3) (cmp b2 b3) = Lt →
  then_cmp (cmp a1 a3) (cmp b1 b3) = Lt.
Proof.
  unfold then_cmp. intros H12 H23.
  destruct (cmp a1 a2) eqn:E12; try done.
  - apply cmp_eq in E12 as ->. destruct (cmp a2 a3) eqn:E23; try done.
    eauto using cmp_trans.
  - destruct (cmp a2 a3) eqn:E23; try done.
    + apply cmp_eq in E23 as <-. by rewrite E12.
    + by rewrite (cmp_trans _ _ _ E12 E23).
Qed.
End then_cmp_laws.

#[export] Instance prod_OrdLaws {A B} `{OrdLaws A, OrdLaws B} : OrdLaws (A * B).
Proof.
  split; unfold cmp, prod_Ord.
  - intros [a b]. simpl. by rewrite !cmp_refl.
  - intros [a b] [a' b']. simpl. unfold then_cmp.
    destruct (cmp a a') eqn:E; try done. intros E'.
    by apply cmp_eq in E as ->; apply cmp_eq in E' as ->.
  - intros. apply then_cmp_flip.
  - intros. by eapply (then_cmp_trans a.1 b.1 c.1 a.2 b.2 c.2).
Qed.

Lemma string_cmp_cons x y a b :
  cmp (String x a) (String y b) = then_cmp (cmp x y) (cmp a b).
Proof. done. Qed.

#[export] Instance string_OrdLaws : OrdLaws string.
Proof.
  split.
  - induction a as [|x a IH]; [done|]. by rewrite string_cmp_cons, cmp_refl.
  - induction a as [|x a IH]; intros [|y b]; try done.
    rewrite string_cmp_cons. unfold then_cmp. destruct (cmp x y) eqn:E; try done.
    apply cmp_eq in E as ->. intros ->%IH. done.
  - induction a as [|x a IH]; intros [|y b]; try done.
    rewrite !string_cmp_cons, (cmp_flip x y), (IH b). by destruct (cmp x y).
  - induction a as [|x a IH]; intros [|y b] [|z c]; try done.
    rewrite !string_cmp_cons. unfold then_cmp.
    destruct (cmp x y) eqn:Exy; try done.
    + apply cmp_eq in Exy as ->. destruct (cmp y z); try done. by apply IH.
    + destruct (cmp y z) eqn:Eyz; try done.
      * apply cmp_eq in Eyz as <-. by rewrite Exy.
      * by rewrite (cmp_trans _ _ _ Exy Eyz).
Qed.

Section ord_facts.
Context {T : Type} `{OrdLaws T}.

Definition cmp_lt (a b : T) : Prop := cmp a b = Lt.

Lemma cmp_lt_irrefl a : ¬ cmp_lt a a.
Proof. unfold cmp_lt. by rewrite cmp_refl. Qed.

Lemma cmp_Gt_Lt a b : cmp a b = Gt ↔ cmp b a = Lt.
Proof. rewrite (cmp_flip a b). by destruct (cmp a b). Qed.

Lemma cmp_Eq_iff a b : cmp a b = Eq ↔ a = b.
Proof. split; [apply cmp_eq|]. intros ->. apply cmp_refl. Qed.

Lemma cmp_sorted_NoDup l : StronglySorted cmp_lt l → NoDup l.
Proof.
  induction 1 as [|x l Hl IH Hx]; [constructor|]. constructor; [|done].
  rewrite Forall_forall in Hx. intros Hin. by apply (cmp_lt_irrefl x), Hx.
Qed.

#[export] Instance cmp_lt_Transitive : Transitive cmp_lt.
Proof. intros a b c. apply cmp_trans. Qed.
End ord_facts.

(** ** [slice::sort_by]: a stable sort by a comparator *)

Section sorting.
Context {T : Type} (f : T → T → comparison).

Fixpoint insert_by (x : T) (l : list T) : list T :=
  match l with
  | [] => [x]
  | y :: l' => match f x y with
               | Gt => y :: insert_by x l'
               | _ => x :: y :: l'
               end
  end.

Definition sort_by (l : list T) : list T := foldr insert_by [] l.

Definition le_by (a b : T) : Prop := f a b ≠ Gt.

(** A comparator that the standard library accepts: a total preorder. *)
Class Comparator := {
  comparator_flip a b : f b a = CompOpp (f a b);
  comparator_trans a b c : le_by a b → le_by b c → le_by a c
}.

Lemma insert_by_Permutation x l : insert_by x l ≡ₚ x :: l.
Proof.
  induction l as [|y l IH]; simpl; [done|].
  destruct (f x y); [done|done|]. rewrite IH. apply Permutation_swap.
Qed.

Lemma sort_by_Permutation l : sort_by l ≡ₚ l.
Proof.
  induction l as [|x l IH]; simpl; [done|].
  by rewrite insert_by_Permutation, IH.
Qed.

Lemma sort_by_length l : length (sort_by l) = length l.
Proof. by rewrite sort_by_Permutation. Qed.

Lemma elem_of_sort_by x l : x ∈ sort_by l ↔ x ∈ l.
Proof. by rewrite sort_by_Permutation. Qed.

Context `{!Comparator}.

Lemma insert_by_sorted x l :
  StronglySorted le_by l → StronglySorted le_by (insert_by x l).
Proof.
  induction 1 as [|y l Hl IH Hy]; simpl; [by repeat constructor|].
  assert (Hxy : le_by x y → StronglySorted le_by (x :: y :: l)).
  { intros Hle. constructor; [by constructor|]. constructor; [done|].
    eapply Forall_impl; [apply Hy|]. intros z. by apply comparator_trans. }
  destruct (f x y) eqn:E; [apply Hxy; unfold le_by; congruence..|].
  constructor; [done|]. apply Forall_forall. intros z.
  rewrite insert_by_Permutation, elem_of_cons. rewrite Forall_forall in Hy.
  intros [->|]; [|auto]. unfold le_by. rewrite (comparator_flip x y), E. done.
Qed.

Lemma sort_by_sorted l : StronglySorted le_by (sort_by l).
Proof. induction l; simpl; [constructor|auto using insert_by_sorted]. Qed.

(** When the comparator separates the elements, the sorted list does not
    depend on the order in which they were supplied. *)
Lemma sort_by_unique l k :
  l ≡ₚ k → (∀ a b, a ∈ l → b ∈ l → f a b = Eq → a = b) →
  sort_by l = sort_by k.
Proof.
  intros Hlk Hsep.
  apply (StronglySorted_unique_strong le_by); auto using sort_by_sorted.
  - intros a b Ha Hb. rewrite elem_of_sort_by in Ha.
    rewrite elem_of_sort_by, <-Hlk in Hb. unfold le_by.
    intros Hab Hba. apply Hsep; [done..|].
    rewrite (comparator_flip a b) in Hba. by destruct (f a b).
  - by rewrite !sort_by_Permutation.
Qed.
End sorting.

#[export] Instance cmp_Comparator {T} `{OrdLaws T} : Comparator (@cmp T _).
Proof.
  split; [apply cmp_flip|]. unfold le_by. intros a b c Hab Hbc.
  destruct (cmp a b) eqn:E1; [apply cmp_eq in E1 as ->; done| |done].
  destruct (cmp b c) eqn:E2; [apply cmp_eq in E2 as <-; by rewrite E1| |done].
  by rewrite (cmp_trans _ _ _ E1 E2).
Qed.

(** *** Building comparators *)

Lemma comparator_lt_trans {T} (f : T → T → comparison) `{!Comparator f} a b c :
  f a b = Lt → le_by f b c → f a c = Lt.
Proof.
  intros Hab Hbc. assert (le_by f a c) as Hac.
  { apply (comparator_trans f) with b; [|done]. unfold le_by. by rewrite Hab. }
  unfold le_by in *. destruct (f a c) eqn:E; [|done|done]. exfalso.
  assert (le_by f b a) as Hba; [|unfold le_by in Hba; by rewrite (comparator_flip f a b), Hab in Hba].
  apply (comparator_trans f) with c; [done|].
  unfold le_by. by rewrite (comparator_flip f a c), E.
Qed.

Lemma comparator_le_lt_trans {T} (f : T → T → comparison) `{!Comparator f} a b c :
  le_by f a b → f b c = Lt → f a c = Lt.
Proof.
  intros Hab Hbc. destruct (f a c) eqn:E; [|done|]; exfalso.
  - assert (f b a = Lt) as Hba.
    { apply (comparator_lt_trans f) with c; [done|]. unfold le_by.
      by rewrite (comparator_flip f a c), E. }
    unfold le_by in Hab. by rewrite (comparator_flip f b a), Hba in Hab.
  - assert (f c a = Lt) as Hca by (by rewrite (comparator_flip f a c), E).
    assert (f b a = Lt) as Hba.
    { apply (comparator_lt_trans f) with c; [done|]. unfold le_by. by rewrite Hca. }
    unfold le_by in Hab. by rewrite (comparator_flip f b a), Hba in Hab.
Qed.

(** Lexicographic comparison. *)
Lemma then_cmp_Comparator {T} (f g : T → T → comparison)
    `{!Comparator f, !Comparator g} : Comparator (λ a b, then_cmp (f a b) (g a b)).
Proof.
  split.
  - intros a b. rewrite (comparator_flip f a b), (comparator_flip g a b). by destruct (f a b).
  - intros a b c. unfold le_by, then_cmp. intros Hab Hbc.
    destruct (f a b) eqn:E1; [|by rewrite (comparator_lt_trans f a b c E1)
      by (unfold le_by; by destruct (f b c))|done].
    assert (le_by f a b) as Lab by (unfold le_by; by rewrite E1).
    destruct (f b c) eqn:E2; [|by rewrite (comparator_le_lt_trans f a b c Lab E2)|done].
    assert (f a c = Eq) as ->; [|by apply (comparator_trans g) with b].
    assert (le_by f b c) as Lbc by (unfold le_by; by rewrite E2).
    pose proof (comparator_trans f a b c Lab Lbc) as Lac.
    assert (le_by f c b) as Lcb by (unfold le_by; by rewrite (comparator_flip f b c), E2).
    assert (le_by f b a) as Lba by (unfold le_by; by rewrite (comparator_flip f a b), E1).
    pose proof (comparator_trans f c b a Lcb Lba) as Lca. unfold le_by in Lac, Lca.
    rewrite (comparator_flip f a c) in Lca. by destruct (f a c).
Qed.

(** Comparison by a key. *)
Lemma key_Comparator {T U} (k : T → U) (f : U → U → comparison) `{!Comparator f} :
  Comparator (λ a b, f (k a) (k b)).
Proof.
  split; [intros; apply (comparator_flip f)|].
  intros a b c. unfold le_by. apply (comparator_trans f).
Qed.

(** Descending comparison. *)
Lemma reverse_Comparator {T} (f : T → T → comparison) `{!Comparator f} :
  Comparator (λ a b, f b a).
Proof.
  split; [intros; apply (comparator_flip f)|].
  intros a b c. unfold le_by. intros H1 H2. by apply (comparator_trans f) with b.
Qed.

(** ** [BTreeMap] and [BTreeSet] as sorted lists *)

Section btree.
Context {K V : Type} `{OrdLaws K}.

Abbreviation bmap := (list (K * V)).

Fixpoint bm_get (k : K) (m : bmap) : option V :=
  match m with
  | [] => None
  | (k', v) :: m' => match cmp k k' with
                     | Lt => None
                     | Eq => Some v
                     | Gt => bm_get k m'
                     end
  end.

Fixpoint bm_insert (k : K) (v : V) (m : bmap) : bmap :=
  match m with
  | [] => [(k, v)]
  | (k', v') :: m' => match cmp k k' with
                      | Lt => (k, v) :: (k', v') :: m'
                      | Eq => (k, v) :: m'
                      | Gt => (k', v') :: bm_insert k v m'
                      end
  end.

Definition bm_contains (k : K) (m : bmap) : bool :=
  match bm_get k m with Some _ => true | None => false end.

(** [collect()] of an iterator of pairs: later pairs overwrite earlier ones. *)
Definition bm_of_list (l : list (K * V)) : bmap :=
  foldl (λ m kv, bm_insert kv.1 kv.2 m) [] l.

Definition bm_wf (m : bmap) : Prop := StronglySorted cmp_lt m.*1.

Lemma bm_wf_nil : bm_wf [].
Proof. constructor. Qed.

Lemma bm_wf_cons k v m :
  bm_wf ((k, v) :: m) ↔ Forall (cmp_lt k) m.*1 ∧ bm_wf m.
Proof. unfold bm_wf. simpl. rewrite StronglySorted_cons. naive_solver. Qed.

Lemma bm_insert_keys k v m x : x ∈ (bm_insert k v m).*1 ↔ x = k ∨ x ∈ m.*1.
Proof.
  induction m as [|[k' v'] m IH]; simpl; [set_solver|].
  destruct (cmp k k') eqn:E; simpl.
  - apply cmp_eq in E as ->. set_solver.
  - set_solver.
  - rewrite elem_of_cons, IH. set_solver.
Qed.

Lemma bm_insert_wf k v m : bm_wf m → bm_wf (bm_insert k v m).
Proof.
  induction m as [|[k' v'] m IH]; simpl; [by repeat constructor|].
  rewrite bm_wf_cons. intros [Hk Hm]. destruct (cmp k k') eqn:E.
  - apply cmp_eq in E as ->. by apply bm_wf_cons.
  - apply bm_wf_cons. split; [|by apply bm_wf_cons].
    simpl. constructor; [done|]. eapply Forall_impl; [apply Hk|].
    intros x. by apply cmp_trans.
  - apply bm_wf_cons. split; [|by apply IH]. apply Forall_forall. intros x.
    rewrite bm_insert_keys. rewrite Forall_forall in Hk.
    intros [->|]; [|auto]. by apply cmp_Gt_Lt.
Qed.

Lemma bm_insert_Forall (P : K * V → Prop) k v m :
  P (k, v) → Forall P m → Forall P (bm_insert k v m).
Proof.
  intros Hkv. induction 1 as [|[k' v'] m Hx Hm IH]; simpl; [auto|].
  destruct (cmp k k'); auto.
Qed.

Lemma bm_get_insert_eq k v m : bm_get k (bm_insert k v m) = Some v.
Proof.
  induction m as [|[k' v'] m IH]; simpl; [by rewrite cmp_refl|].
  destruct (cmp k k') eqn:E; simpl; [by rewrite cmp_refl..|by rewrite E].
Qed.

Lemma bm_get_below k m : Forall (cmp_lt k) m.*1 → bm_get k m = None.
Proof. destruct m as [|[k' v'] m]; simpl; [done|]. by intros [-> ?]%Forall_cons. Qed.

Lemma bm_get_insert_ne k k' v m :
  bm_wf m → k ≠ k' → bm_get k (bm_insert k' v m) = bm_get k m.
Proof.
  intros Hm Hne. induction m as [|[k1 v1] m IH]; simpl.
  - destruct (cmp k k') eqn:E; try done. by apply cmp_eq in E.
  - apply bm_wf_cons in Hm as [Hk Hm]. destruct (cmp k' k1) eqn:E1; simpl.
    + apply cmp_eq in E1 as ->. destruct (cmp k k1) eqn:E; try done.
      by apply cmp_eq in E.
    + destruct (cmp k k') eqn:E; [by apply cmp_eq in E| |done].
      by rewrite (cmp_trans _ _ _ E E1).
    + destruct (cmp k k1); auto.
Qed.

Lemma elem_of_bm_get k v m : bm_wf m → (k, v) ∈ m ↔ bm_get k m = Some v.
Proof.
  induction m as [|[k' v'] m IH]; simpl; [set_solver|].
  rewrite bm_wf_cons. intros [Hk Hm]. specialize (IH Hm).
  rewrite elem_of_cons. destruct (cmp k k') eqn:E.
  - apply cmp_eq in E as ->. rewrite IH, bm_get_below by done. naive_solver.
  - assert (bm_get k m = None) as Hn.
    { apply bm_get_below. eapply Forall_impl; [apply Hk|]. intros x. by apply cmp_trans. }
    rewrite IH, Hn. split; [|done]. intros [[=]|]; [|done]. subst.
    by rewrite cmp_refl in E.
  - rewrite IH. split; [|auto]. intros [[=]|]; [|done]. subst.
    by rewrite cmp_refl in E.
Qed.

Lemma bm_get_Some_key k v m : bm_get k m = Some v → k ∈ m.*1.
Proof.
  induction m as [|[k' v'] m IH]; simpl; [done|].
  destruct (cmp k k') eqn:E; [|done|]; intros; rewrite elem_of_cons; auto.
  left. by apply cmp_eq.
Qed.

Lemma bm_contains_key k m : bm_wf m → bm_contains k m = true ↔ k ∈ m.*1.
Proof.
  intros Hm. unfold bm_contains. split.
  - destruct (bm_get k m) eqn:E; [|done]. intros _. by eapply bm_get_Some_key.
  - rewrite list_elem_of_fmap. intros ([k' v] & -> & Hin).
    apply elem_of_bm_get in Hin; [|done]. simpl. by rewrite Hin.
Qed.

Lemma bm_of_list_wf l : bm_wf (bm_of_list l).
Proof.
  unfold bm_of_list. assert (bm_wf ([] : bmap)) as Hm by constructor.
  revert Hm. generalize ([] : bmap).
  induction l as [|[k v] l IH]; simpl; intros m Hm; [done|].
  apply IH. by apply bm_insert_wf.
Qed.

(** Two maps with the same lookups are the same tree contents. *)
Lemma bm_ext m1 m2 :
  bm_wf m1 → bm_wf m2 → (∀ k, bm_get k m1 = bm_get k m2) → m1 = m2.
Proof.
  revert m2. induction m1 as [|[k1 v1] m1 IH]; intros [|[k2 v2] m2] W1 W2 Hg.
  - done.
  - specialize (Hg k2). simpl in Hg. by rewrite cmp_refl in Hg.
  - specialize (Hg k1). simpl in Hg. by rewrite cmp_refl in Hg.
  - apply bm_wf_cons in W1 as [L1 W1], W2 as [L2 W2].
    assert (k1 = k2 ∧ v1 = v2) as [-> ->].
    { pose proof (Hg k1) as G1. pose proof (Hg k2) as G2. simpl in G1, G2.
      rewrite cmp_refl in G1, G2. rewrite (cmp_flip k1 k2) in G2.
      destruct (cmp k1 k2) eqn:E; simpl in *; [|done..].
      apply cmp_eq in E as ->. naive_solver. }
    f_equal. apply IH; [done..|]. intros k. specialize (Hg k). simpl in Hg.
    destruct (cmp k k2) eqn:E; [|by rewrite !bm_get_below by
      (eapply Forall_impl; [eassumption|]; intros x; by apply cmp_trans)|done].
    apply cmp_eq in E as ->. by rewrite !bm_get_below.
Qed.
End btree.

Arguments bm_wf {K V _} m.

Create HintDb khive.
#[export] Hint Resolve bm_wf_nil bm_insert_wf bm_of_list_wf : khive.

(** [BTreeSet<T>]: its elements in increasing order. *)
Section bset.
Context {T : Type} `{OrdLaws T}.

Fixpoint bs_insert (x : T) (s : list T) : list T :=
  match s with
  | [] => [x]
  | y :: s' => match cmp x y with
               | Lt => x :: y :: s'
               | Eq => y :: s'
               | Gt => y :: bs_insert x s'
               end
  end.

Definition bs_extend (l s : list T) : list T := foldl (λ s x, bs_insert x s) s l.

Lemma elem_of_bs_insert x y s : y ∈ bs_insert x s ↔ y = x ∨ y ∈ s.
Proof.
  induction s as [|z s IH]; simpl; [set_solver|].
  destruct (cmp x z) eqn:E; [apply cmp_eq in E as ->; set_solver|set_solver|].
  rewrite elem_of_cons, IH. set_solver.
Qed.

Lemma elem_of_bs_extend l s y : y ∈ bs_extend l s ↔ y ∈ l ∨ y ∈ s.
Proof.
  unfold bs_extend. revert s. induction l as [|x l IH]; intros s; simpl; [set_solver|].
  rewrite IH, elem_of_bs_insert. set_solver.
Qed.

Lemma bs_insert_sorted x s :
  StronglySorted cmp_lt s → StronglySorted cmp_lt (bs_insert x s).
Proof.
  induction 1 as [|y s Hs IH Hy]; simpl; [by repeat constructor|].
  destruct (cmp x y) eqn:E; [by constructor| |].
  - constructor; [by constructor|]. constructor; [done|].
    eapply Forall_impl; [apply Hy|]. intros z. by apply cmp_trans.
  - constructor; [done|]. apply Forall_forall. intros z.
    rewrite elem_of_bs_insert. rewrite Forall_forall in Hy.
    intros [->|]; [|auto]. by apply cmp_Gt_Lt.
Qed.

Lemma bs_extend_sorted l s :
  StronglySorted cmp_lt s → StronglySorted cmp_lt (bs_extend l s).
Proof.
  unfold bs_extend. revert s.
  induction l as [|x l IH]; simpl; auto using bs_insert_sorted.
Qed.

Lemma bs_unique s1 s2 :
  StronglySorted cmp_lt s1 → StronglySorted cmp_lt s2 →
  (∀ x, x ∈ s1 ↔ x ∈ s2) → s1 = s2.
Proof.
  intros H1 H2 Hin. apply (StronglySorted_unique_strong cmp_lt); try done.
  - intros a b _ _ Hab Hba. unfold cmp_lt in *.
    by rewrite (cmp_flip a b), Hab in Hba.
  - apply NoDup_Permutation; [by apply cmp_sorted_NoDup..|done].
Qed.
End bset.

#[export] Hint Resolve bs_insert_sorted bs_extend_sorted : khive.
