(* ===== verification/RustStr.v ===== *)
(** Rust's [str] and [[u8]] as byte sequences, with the standard-library
    routines the modelled crates call: classification of bytes, splitting a
    [str] into its [char]s, [trim], [strip_prefix], [find], integer parsing and
    the [Display]/[Debug] forms that reach an error message. *)

From Stdlib Require Import String Ascii ZArith.
From stdpp Require Import base tactics list strings gmap pretty.
From S2P Require Import Prelude.

Abbreviation bytes := (list ascii).

Definition to_bytes : string → bytes := list_ascii_of_string.
Definition of_bytes : bytes → string := string_of_list_ascii.

Lemma of_to_bytes s : of_bytes (to_bytes s) = s.
Proof. apply string_of_list_ascii_of_string. Qed.
Lemma to_of_bytes b : to_bytes (of_bytes b) = b.
Proof. apply list_ascii_of_string_of_list_ascii. Qed.

Lemma to_bytes_app s t : to_bytes (s +:+ t) = to_bytes s ++ to_bytes t.
Proof. induction s as [|c s IH]; simpl; [done|]. by f_equal. Qed.

Lemma to_bytes_inj s t : to_bytes s = to_bytes t → s = t.
Proof. intros H. by rewrite <-(of_to_bytes s), <-(of_to_bytes t), H. Qed.

Definition str_len (s : string) : nat := length (to_bytes s).

Definition byte (c : ascii) : Z := Z.of_N (N_of_ascii c).

Lemma byte_range c : (0 ≤ byte c < 256)%Z.
Proof.
  unfold byte. pose proof (N_ascii_bounded c) as Hc. lia.
Qed.

Lemma byte_inj a b : byte a = byte b → a = b.
Proof.
  unfold byte. intros H%N2Z.inj.
  by rewrite <-(ascii_N_embedding a), <-(ascii_N_embedding b), H.
Qed.

(** ** Classification of ASCII characters *)

Definition in_range (lo hi : Z) (c : ascii) : bool := ((lo <=? byte c) && (byte c <=? hi))%Z.

Definition is_ascii_digit : ascii → bool := in_range 48 57.
Definition is_ascii_uppercase : ascii → bool := in_range 65 90.
Definition is_ascii_lowercase : ascii → bool := in_range 97 122.
Definition is_ascii_alphabetic (c : ascii) : bool := is_ascii_uppercase c || is_ascii_lowercase c.
Definition is_ascii_alphanumeric (c : ascii) : bool := is_ascii_alphabetic c || is_ascii_digit c.
(** U+0020, tab, line feed, form feed, carriage return. *)
Definition is_ascii_whitespace (c : ascii) : bool :=
  bool_decide (byte c ∈ [32; 9; 10; 12; 13]%Z).
Definition is_ascii_control (c : ascii) : bool := (byte c <? 32)%Z.

Definition to_ascii_lowercase (c : ascii) : ascii :=
  if is_ascii_uppercase c then ascii_of_N (Z.to_N (byte c + 32)) else c.

(** [char::to_digit(16)] on an ASCII character. *)
Definition hex_digit (c : ascii) : option Z :=
  if is_ascii_digit c then Some (byte c - 48)%Z
  else if in_range 97 102 c then Some (byte c - 87)%Z
  else if in_range 65 70 c then Some (byte c - 55)%Z
  else None.

Lemma hex_digit_range c d : hex_digit c = Some d → (0 ≤ d < 16)%Z.
Proof.
  unfold hex_digit, is_ascii_digit, in_range. repeat case_match; intros; simplify_eq; lia.
Qed.

(** ** A [str] as a sequence of [char]s *)

Definition is_continuation (c : ascii) : bool := in_range 128 191 c.

(** The UTF-8 sequences of the characters, in order: a continuation byte
    belongs to the character that precedes it. *)
Fixpoint chars (l : bytes) : list bytes :=
  match l with
  | [] => []
  | b :: l' =>
      match l' with
      | c :: _ => if is_continuation c
                  then match chars l' with
                       | g :: gs => (b :: g) :: gs
                       | [] => [[b]]
                       end
                  else [b] :: chars l'
      | [] => [[b]]
      end
  end.

Lemma concat_chars l : concat (chars l) = l.
Proof.
  induction l as [|b l IH]; [done|]. destruct l as [|c l]; [done|].
  change (chars (b :: c :: l)) with
    (if is_continuation c then match chars (c :: l) with
       | g :: gs => (b :: g) :: gs | [] => [[b]] end else [b] :: chars (c :: l)).
  destruct (is_continuation c); [|simpl; simpl in IH; by rewrite IH].
  destruct (chars (c :: l)) as [|g gs]; [done|]. simpl in *. by rewrite IH.
Qed.

Lemma chars_nonempty l : Forall (λ g, g ≠ []) (chars l).
Proof.
  induction l as [|b l IH]; [constructor|]. destruct l as [|c l]; [by repeat constructor|].
  change (chars (b :: c :: l)) with
    (if is_continuation c then match chars (c :: l) with
       | g :: gs => (b :: g) :: gs | [] => [[b]] end else [b] :: chars (c :: l)).
  destruct (is_continuation c); [|by constructor].
  destruct (chars (c :: l)) as [|g gs]; [by repeat constructor|].
  apply Forall_cons in IH as [_ IH]. by constructor.
Qed.

(** A byte sequence is ASCII when every byte is below 128. *)
Definition is_ascii (l : bytes) : bool := forallb (λ c, byte c <? 128)%Z l.

Lemma chars_ascii l : is_ascii l = true → chars l = (λ c, [c]) <$> l.
Proof.
  induction l as [|b l IH]; [done|]. unfold is_ascii. simpl.
  intros [_ Hl]%andb_true_iff. specialize (IH Hl).
  destruct l as [|c l]; [done|].
  replace (is_continuation c) with false.
  - by rewrite IH.
  - simpl in Hl. unfold is_continuation, in_range. lia.
Qed.

Definition code_point (g : bytes) : Z :=
  match byte <$> g with
  | [a] => a
  | [a; b] => ((a - 192) * 64 + (b - 128))%Z
  | [a; b; c] => ((a - 224) * 4096 + (b - 128) * 64 + (c - 128))%Z
  | [a; b; c; d] => ((a - 240) * 262144 + (b - 128) * 4096 + (c - 128) * 64 + (d - 128))%Z
  | _ => (-1)%Z
  end.

(** Unicode [White_Space], the property [char::is_whitespace] tests. *)
Definition is_whitespace (g : bytes) : bool :=
  let c := code_point g in
  ((9 <=? c) && (c <=? 13) || (8192 <=? c) && (c <=? 8202)
   || bool_decide (c ∈ [32; 133; 160; 5760; 8232; 8233; 8239; 8287; 12288]))%Z.

Fixpoint drop_while {A} (f : A → bool) (l : list A) : list A :=
  match l with
  | [] => []
  | x :: l' => if f x then drop_while f l' else l
  end.

Definition trim_chars (l : list bytes) : list bytes :=
  rev (drop_while is_whitespace (rev (drop_while is_whitespace l))).

(** [str::trim] *)
Definition trim (l : bytes) : bytes := concat (trim_chars (chars l)).

(** ** Searching and slicing *)

Fixpoint find_byte (f : ascii → bool) (l : bytes) : option nat :=
  match l with
  | [] => None
  | c :: l' => if f c then Some 0 else S <$> find_byte f l'
  end.

Lemma find_byte_Some f l i :
  find_byte f l = Some i → i < length l ∧ (∃ c, l !! i = Some c ∧ f c = true) ∧
    Forall (λ c, f c = false) (take i l).
Proof.
  revert i. induction l as [|c l IH]; intros i; simpl; [done|].
  destruct (f c) eqn:E; [intros [= <-]; split_and!; [lia|eauto|constructor]|].
  intros (j & Hj & ->)%fmap_Some. destruct (IH j Hj) as (? & (d & ? & ?) & ?).
  split_and!; [lia|eauto|by constructor].
Qed.

Lemma find_byte_None f l : find_byte f l = None → Forall (λ c, f c = false) l.
Proof.
  induction l as [|c l IH]; simpl; [constructor|].
  destruct (f c) eqn:E; [done|]. intros H%fmap_None. constructor; auto.
Qed.

Definition eqb_byte (a b : ascii) : bool := Ascii.eqb a b.

Lemma eqb_byte_true a b : eqb_byte a b = true ↔ a = b.
Proof. apply Ascii.eqb_eq. Qed.
Lemma eqb_byte_false a b : eqb_byte a b = false ↔ a ≠ b.
Proof. apply Ascii.eqb_neq. Qed.
Lemma eqb_byte_refl a : eqb_byte a a = true.
Proof. by apply eqb_byte_true. Qed.
#[global] Arguments eqb_byte : simpl never.

Definition starts_with_byte (c : ascii) (l : bytes) : bool :=
  match l with d :: _ => eqb_byte c d | [] => false end.

Fixpoint strip_prefix (p l : bytes) : option bytes :=
  match p, l with
  | [], _ => Some l
  | c :: p', d :: l' => if eqb_byte c d then strip_prefix p' l' else None
  | _ :: _, [] => None
  end.

Lemma strip_prefix_Some p l r : strip_prefix p l = Some r ↔ l = p ++ r.
Proof.
  revert l. induction p as [|c p IH]; intros [|d l]; simpl; try naive_solver.
  unfold eqb_byte. destruct (Ascii.eqb_spec c d) as [->|]; [|naive_solver].
  rewrite IH. naive_solver.
Qed.

(** [str::split(':')] and the like: pieces between occurrences of a byte. *)
Fixpoint split_on (c : ascii) (l : bytes) : list bytes :=
  match l with
  | [] => [[]]
  | d :: l' => if eqb_byte c d then [] :: split_on c l'
               else match split_on c l' with
                    | g :: gs => (d :: g) :: gs
                    | [] => [[d]]
                    end
  end.

(** ** Integers in text *)

Definition usize_max : Z := (2 ^ 64 - 1)%Z.

Definition parse_digits (l : bytes) : option Z :=
  foldl (λ acc c, n ← acc; if is_ascii_digit c
                           then Some (n * 10 + (byte c - 48))%Z else None) (Some 0%Z) l.

(** [str::parse::<usize>]: an optional ['+'], at least one digit, no overflow. *)
Definition parse_usize (l : bytes) : option Z :=
  let digits := match l with
                | "+"%char :: rest => rest
                | _ => l
                end in
  match digits with
  | [] => None
  | _ => n ← parse_digits digits;
         if (n <=? usize_max)%Z then Some n else None
  end.

Definition fmt_nat (n : nat) : string := pretty n.
Definition fmt_Z (n : Z) : string := pretty n.

Definition hex_upper (n : Z) : ascii :=
  if (n <? 10)%Z then ascii_of_N (Z.to_N (n + 48)) else ascii_of_N (Z.to_N (n + 55)).

(** The two-byte range of [{:04X}] and [{:x}] used for control characters. *)
Definition fmt_04X (n : Z) : string :=
  of_bytes ["0"; "0"; hex_upper (n / 16); hex_upper (n mod 16)]%char%list.

Definition hex_lower (n : Z) : ascii :=
  if (n <? 10)%Z then ascii_of_N (Z.to_N (n + 48)) else ascii_of_N (Z.to_N (n + 87)).

(** The double quote and the backslash, as one-character strings. *)
Definition dq : string := String (ascii_of_N 34) EmptyString.
Definition backslash : string := String (ascii_of_N 92) EmptyString.
Definition dq_char : ascii := ascii_of_N 34.
Definition bs_char : ascii := ascii_of_N 92.

(** [{:?}] of a control character below U+0020. *)
Definition debug_control (n : Z) : string :=
  match n with
  | 0%Z => "'" +:+ backslash +:+ "0'"
  | 9%Z => "'" +:+ backslash +:+ "t'"
  | 10%Z => "'" +:+ backslash +:+ "n'"
  | 13%Z => "'" +:+ backslash +:+ "r'"
  | _ => "'" +:+ backslash +:+ "u{" +:+
         of_bytes (if (n <? 16)%Z then [hex_lower n]
                   else [hex_lower (n / 16); hex_lower (n mod 16)])%list +:+ "}'"
  end.

(** [{:?}] of a string of printable ASCII without quotes or backslashes. *)
Definition debug_plain (s : string) : string := dq +:+ s +:+ dq.

Definition is_empty (s : string) : bool :=
  match s with EmptyString => true | _ => false end.

Example parse_usize_plus : parse_usize (to_bytes "+17") = Some 17%Z.
Proof. reflexivity. Qed.
Example parse_usize_over : parse_usize (to_bytes "18446744073709551616") = None.
Proof. reflexivity. Qed.
Example trim_example : of_bytes (trim (to_bytes "  a b ")) = "a b"%string.
Proof. vm_compute. reflexivity. Qed.
