(* ===== verification/Json.v ===== *)
(** [serde_json::Value] as the crates see it: the data type, its accessors,
    its nesting depth, and the class of the serde_json and formatting routines
    the source calls and that are not part of the repository; and the paths of
    [$prev] references (khive-request/src/parser/path.rs). *)

From Stdlib Require Import String Ascii ZArith SpecFloat.
From stdpp Require Import base tactics list strings gmap pretty.
From S2P Require Import Prelude RustStr.

(** serde_json's documented number representations: an unsigned or a negative
    64-bit integer, or a finite binary64. *)
Inductive Number : Type :=
| PosInt (z : Z)
| NegInt (z : Z)
| Float (f : spec_float).

Inductive Value : Type :=
| VNull
| VBool (b : bool)
| VNumber (n : Number)
| VString (s : string)
| VArray (items : list Value)
| VObject (fields : list (string * Value)).

(** Induction through the elements of arrays and objects. *)
Section Value_ind'.
Variable P : Value → Prop.
Hypothesis Hnull : P VNull.
Hypothesis Hbool : ∀ b, P (VBool b).
Hypothesis Hnum : ∀ n, P (VNumber n).
Hypothesis Hstr : ∀ s, P (VString s).
Hypothesis Harr : ∀ l, Forall P l → P (VArray l).
Hypothesis Hobj : ∀ m, Forall (λ kv, P kv.2) m → P (VObject m).

Fixpoint Value_ind' (v : Value) : P v :=
  match v with
  | VNull => Hnull
  | VBool b => Hbool b
  | VNumber n => Hnum n
  | VString s => Hstr s
  | VArray l => Harr l ((fix go l : Forall P l :=
      match l with
      | [] => Forall_nil_2 P
      | x :: l' => Forall_cons_2 P x l' (Value_ind' x) (go l')
      end) l)
  | VObject m => Hobj m ((fix go m : Forall (λ kv, P kv.2) m :=
      match m with
      | [] => Forall_nil_2 _
      | kv :: m' => Forall_cons_2 _ kv m' (Value_ind' kv.2) (go m')
      end) m)
  end.
End Value_ind'.

#[export] Instance spec_float_eq_dec : EqDecision spec_float.
Proof. solve_decision. Defined.
#[export] Instance Number_eq_dec : EqDecision Number.
Proof. solve_decision. Defined.

#[export] Instance Value_eq_dec : EqDecision Value.
Proof.
  refine (fix go (x y : Value) : {x = y} + {x ≠ y} :=
    let Hdec : EqDecision Value := go in
    match x, y with
    | VNull, VNull => left _
    | VBool a, VBool b => cast_if (decide (a = b))
    | VNumber a, VNumber b => cast_if (decide (a = b))
    | VString a, VString b => cast_if (decide (a = b))
    | VArray a, VArray b => cast_if (decide (a = b))
    | VObject a, VObject b => cast_if (decide (a = b))
    | _, _ => right _
    end); clear Hdec go; abstract congruence.
Defined.

Definition as_str (v : Value) : option string :=
  match v with VString s => Some s | _ => None end.
Definition as_array (v : Value) : option (list Value) :=
  match v with VArray l => Some l | _ => None end.
Definition as_object (v : Value) : option (list (string * Value)) :=
  match v with VObject m => Some m | _ => None end.

(** [Value::get] with a string index: the member of an object. *)
Definition value_get (key : string) (v : Value) : option Value :=
  m ← as_object v; bm_get key m.

(** Container nesting: scalars have depth 0. *)
Fixpoint value_depth (v : Value) : nat :=
  match v with
  | VArray l => S (max_list_with value_depth l)
  | VObject m => S (max_list_with (λ kv, value_depth kv.2) m)
  | _ => 0
  end.

Fixpoint value_size (v : Value) : nat :=
  match v with
  | VArray l => S (sum_list_with value_size l)
  | VObject m => S (sum_list_with (λ kv, value_size kv.2) m)
  | _ => 1
  end.

(** Objects list their members in key order, as a [BTreeMap] does. *)
Inductive value_wf : Value → Prop :=
| wf_null : value_wf VNull
| wf_bool b : value_wf (VBool b)
| wf_number n : value_wf (VNumber n)
| wf_string s : value_wf (VString s)
| wf_array l : Forall value_wf l → value_wf (VArray l)
| wf_object m : bm_wf m → Forall (λ kv, value_wf kv.2) m → value_wf (VObject m).

(** khive-types/src/json_type.rs *)
Definition json_type_name (value : Value) : string :=
  match value with
  | VNull => "null"
  | VBool _ => "boolean"
  | VNumber _ => "number"
  | VString _ => "string"
  | VArray _ => "array"
  | VObject _ => "object"
  end.

(** A [serde_json::Error]: its position and its [Display] text. *)
Record serde_error : Type := SerdeError {
  se_line : nat;
  se_column : nat;
  se_display : string
}.

(** Routines outside the repository. [from_str] parses a JSON text to a
    [Value]; [from_str_string] parses one to a [String]; [value_display] is
    the compact JSON text of a value; [debug_escapes] says which non-ASCII
    characters the standard [Debug] form of a [str] writes as an escape. *)
Class Externals := {
  from_str : string → result Value serde_error;
  from_str_string : string → result string serde_error;
  value_display : Value → string;
  debug_escapes : bytes → bool
}.

(** [{:x}] of a code point. *)
Fixpoint hex_digits (fuel : nat) (n : Z) (acc : bytes) : bytes :=
  match fuel with
  | 0 => acc
  | S f => let acc' := hex_lower (n mod 16) :: acc in
           if (n <? 16)%Z then acc' else hex_digits f (n / 16) acc'
  end.

(** [Debug] of one character inside a [str] literal. *)
Definition debug_char `{Externals} (g : bytes) : bytes :=
  match g with
  | [c] =>
      if eqb_byte c dq_char || eqb_byte c bs_char then [bs_char; c]
      else if (byte c =? 0)%Z then [bs_char; "0"%char]
      else if (byte c =? 9)%Z then [bs_char; "t"%char]
      else if (byte c =? 10)%Z then [bs_char; "n"%char]
      else if (byte c =? 13)%Z then [bs_char; "r"%char]
      else if (byte c <? 32)%Z || (byte c =? 127)%Z
      then [bs_char; "u"; "{"]%char ++ hex_digits 8 (byte c) [] ++ ["}"%char]
      else [c]
  | _ => if debug_escapes g
         then [bs_char; "u"; "{"]%char ++ hex_digits 8 (code_point g) [] ++ ["}"%char]
         else g
  end.

(** [{:?}] of a [str]. *)
Definition str_debug `{Externals} (s : string) : string :=
  dq +:+ of_bytes (concat (debug_char <$> chars (to_bytes s))) +:+ dq.

(** The UTF-8 bytes of a code point. *)
Definition encode_char (c : Z) : bytes :=
  let b n := ascii_of_N (Z.to_N n) in
  (if c <? 128 then [b c]
   else if c <? 2048 then [b (192 + c / 64); b (128 + c mod 64)]
   else if c <? 65536
   then [b (224 + c / 4096); b (128 + c / 64 mod 64); b (128 + c mod 64)]
   else [b (240 + c / 262144); b (128 + c / 4096 mod 64); b (128 + c / 64 mod 64);
         b (128 + c mod 64)])%Z.

(** [{:?}] of a [char]: single quotes, so the escaped quote is the single one. *)
Definition char_debug `{Externals} (c : Z) : string :=
  "'" +:+ of_bytes (if (c =? 34)%Z then [dq_char]
                    else if (c =? 39)%Z then [bs_char; "'"%char]
                    else debug_char (encode_char c)) +:+ "'".

Lemma max_list_with_le {A} (f : A → nat) l n :
  max_list_with f l ≤ n ↔ Forall (λ x, f x ≤ n) l.
Proof.
  induction l as [|x l IH]; simpl; [split; [constructor|lia]|].
  rewrite Forall_cons, <-IH. lia.
Qed.

Lemma sum_list_with_elem {A} (f : A → nat) l x : x ∈ l → f x ≤ sum_list_with f l.
Proof. induction 1; simpl; lia. Qed.

(** khive-request/src/parser/path.rs: the segments of a [$prev] path and their
    application to a JSON value. *)

(** One object-field or array-index segment. *)
Inductive PathSegment : Type :=
| Field (key : string)
| Index (idx : Z)
| Malformed (raw : string).

#[export] Instance PathSegment_eq_dec : EqDecision PathSegment.
Proof. solve_decision. Defined.

Definition is_path_sep (c : ascii) : bool := eqb_byte c "."%char || eqb_byte c "["%char.

(** [remaining.strip_prefix('.').unwrap_or(remaining)] *)
Definition skip_dot (remaining : bytes) : bytes :=
  match remaining with
  | "."%char :: rest => rest
  | _ => remaining
  end.

(** The [while !remaining.is_empty()] loop of [split_path]. *)
Fixpoint split_path_loop (fuel : nat) (remaining : bytes) : option (list PathSegment) :=
  match remaining, fuel with
  | [], _ => Some []
  | _, 0 => None
  | _, S f =>
      match strip_prefix ["["%char] remaining with
      | Some rest =>
          match find_byte (eqb_byte "]"%char) rest with
          | Some close =>
              match parse_usize (take close rest) with
              | Some idx =>
                  segments ← split_path_loop f (skip_dot (drop (S close) rest));
                  Some (Index idx :: segments)
              | None => Some [Malformed (of_bytes remaining)]
              end
          | None => Some [Malformed (of_bytes remaining)]
          end
      | None =>
          let end_ := default (length remaining) (find_byte is_path_sep remaining) in
          let field := take end_ remaining in
          segments ← split_path_loop f (skip_dot (drop end_ remaining));
          Some (match field with
                | [] => segments
                | _ => Field (of_bytes field) :: segments
                end)
      end
  end.

Definition split_path (path : string) : list PathSegment :=
  default [] (split_path_loop (length (to_bytes path)) (to_bytes path)).

(** Applies one field lookup or array index, [None] on mismatch. *)
Definition apply_path_segment (cur : Value) (seg : PathSegment) : option Value :=
  match seg with
  | Field key => value_get key cur
  | Index idx => arr ← as_array cur; arr !! Z.to_nat idx
  | Malformed _ => None
  end.

(** ** The loop always ends *)

Lemma skip_dot_length r : length (skip_dot r) ≤ length r.
Proof. destruct r as [|[[] [] [] [] [] [] [] []] r]; simpl; lia. Qed.

Lemma skip_dot_progress r :
  r ≠ [] → (∃ c, head r = Some c ∧ c = "."%char) → length (skip_dot r) < length r.
Proof. intros ? (c & Hc & ->). destruct r; simplify_eq/=. lia. Qed.

Lemma split_path_loop_Some fuel r :
  length r ≤ fuel → is_Some (split_path_loop fuel r).
Proof.
  revert r. induction fuel as [|f IH]; intros r Hr.
  { destruct r; simpl in *; [eauto|lia]. }
  destruct r as [|c r]; [simpl; eauto|]. cbn [split_path_loop].
  destruct (strip_prefix ["["%char] (c :: r)) as [rest|] eqn:Hs.
  - apply strip_prefix_Some in Hs as [= -> ->].
    destruct (find_byte _ rest) as [close|] eqn:Hf; [|eauto].
    destruct (parse_usize _) as [idx|]; [|eauto].
    destruct (IH (skip_dot (drop (S close) rest))) as [segs ->]; [|simpl; eauto].
    pose proof (skip_dot_length (drop (S close) rest)) as Hd.
    rewrite length_drop in Hd. simpl in Hr. lia.
  - set (e := default _ _). destruct (IH (skip_dot (drop e (c :: r)))) as [segs ->];
      [|simpl; eauto].
    pose proof (skip_dot_length (drop e (c :: r))) as Hd.
    rewrite length_drop in Hd. simpl in Hd, Hr.
    destruct e as [|e'] eqn:He; [|lia]. subst e. simpl.
    destruct (find_byte is_path_sep (c :: r)) as [i|] eqn:Hf; simplify_eq/=.
    destruct (is_path_sep c) eqn:Hc; [|by destruct (find_byte _ r)].
    apply orb_true_iff in Hc as [Hc|Hc]; apply eqb_byte_true in Hc; subst c;
      [simpl; lia|done].
Qed.

(** ** Canonical paths

    [parse_prev_ref] of the DSL parser builds a path by joining field names and
    bracketed digit runs with dots; [split_path] recovers exactly those
    segments. *)

Inductive path_part : Type :=
| PartField (key : string)
| PartIndex (digits : string).

Definition part_text (p : path_part) : bytes :=
  match p with
  | PartField key => to_bytes key
  | PartIndex digits => ["["%char] ++ to_bytes digits ++ ["]"%char]
  end.

Fixpoint join_parts (ps : list path_part) : bytes :=
  match ps with
  | [] => []
  | p :: ps' => part_text p ++ match ps' with
                               | [] => []
                               | _ => "."%char :: join_parts ps'
                               end
  end.

(** The segment a part stands for, when it is well formed. *)
Definition part_segment (p : path_part) : option PathSegment :=
  match p with
  | PartField key =>
      if bool_decide (key ≠ "") && forallb (λ c, negb (is_path_sep c)) (to_bytes key)
      then Some (Field key) else None
  | PartIndex digits =>
      if forallb is_ascii_digit (to_bytes digits)
      then Index <$> parse_usize (to_bytes digits) else None
  end.

Lemma find_byte_app_l f l r :
  Forall (λ c, f c = false) l → find_byte f (l ++ r) = (λ n, length l + n) <$> find_byte f r.
Proof.
  induction 1 as [|c l Hc Hl IH]; simpl; [by destruct (find_byte f r)|].
  rewrite Hc, IH. by destruct (find_byte f r).
Qed.

Lemma digits_no_bracket l :
  forallb is_ascii_digit l = true → Forall (λ c, eqb_byte "]" c = false) l.
Proof.
  induction l as [|c l IH]; simpl; [constructor|].
  intros [Hc Hl]%andb_true_iff. constructor; [|auto].
  apply eqb_byte_false. intros <-. discriminate Hc.
Qed.

(** What follows the first part of a canonical path. *)
Definition join_tail (ps : list path_part) : bytes :=
  match ps with [] => [] | _ => "."%char :: join_parts ps end.

Lemma join_parts_cons p ps : join_parts (p :: ps) = part_text p ++ join_tail ps.
Proof. by destruct ps. Qed.

Lemma skip_dot_join_tail ps : skip_dot (join_tail ps) = join_parts ps.
Proof. by destruct ps. Qed.

Lemma split_part_field fuel key ps :
  key ≠ "" → forallb (λ c, negb (is_path_sep c)) (to_bytes key) = true →
  split_path_loop (S fuel) (join_parts (PartField key :: ps)) =
    segs ← split_path_loop fuel (join_parts ps); Some (Field key :: segs).
Proof.
  intros Hne Hsep. rewrite join_parts_cons. simpl part_text.
  assert (Forall (λ c, is_path_sep c = false) (to_bytes key)) as Hf.
  { clear Hne. induction (to_bytes key) as [|c l IH]; [constructor|].
    simpl in Hsep. apply andb_true_iff in Hsep as [Hc Hl].
    constructor; [by apply negb_true_iff in Hc|auto]. }
  destruct (to_bytes key) as [|c l] eqn:Hk.
  { destruct key; [done|discriminate Hk]. }
  cbn [app split_path_loop].
  destruct (strip_prefix ["["%char] (c :: l ++ join_tail ps)) as [rest|] eqn:Hs.
  { apply strip_prefix_Some in Hs as [= -> _].
    apply Forall_cons in Hf as [Hf _]. discriminate Hf. }
  change (c :: l ++ join_tail ps) with ((c :: l) ++ join_tail ps).
  rewrite (find_byte_app_l _ _ _ Hf).
  set (e := default _ _).
  assert (e = length (c :: l)) as ->.
  { subst e. destruct ps; simpl; [by rewrite app_nil_r|]. by rewrite Nat.add_0_r. }
  rewrite take_app_length, drop_app_length, skip_dot_join_tail.
  replace (of_bytes (c :: l)) with key; [done|]. by rewrite <-Hk, of_to_bytes.
Qed.

Lemma split_part_index fuel digits idx ps :
  forallb is_ascii_digit (to_bytes digits) = true →
  parse_usize (to_bytes digits) = Some idx →
  split_path_loop (S fuel) (join_parts (PartIndex digits :: ps)) =
    segs ← split_path_loop fuel (join_parts ps); Some (Index idx :: segs).
Proof.
  intros Hd Hp. rewrite join_parts_cons. simpl part_text.
  cbn [app split_path_loop strip_prefix].
  rewrite eqb_byte_refl, <-app_assoc. cbn [app].
  rewrite (find_byte_app_l _ _ _ (digits_no_bracket _ Hd)). simpl find_byte.
  cbn [fmap option_fmap option_map]. rewrite Nat.add_0_r, take_app_length, Hp.
  rewrite drop_app_ge by lia.
  replace (S (length (to_bytes digits)) - length (to_bytes digits)) with 1 by lia.
  simpl drop. by rewrite drop_0, skip_dot_join_tail.
Qed.

Lemma part_text_nonempty p s : part_segment p = Some s → 1 ≤ length (part_text p).
Proof. destruct p as [[|]|]; simpl; [done| |]; intros; lia. Qed.

Lemma split_path_loop_join fuel ps segs :
  mapM part_segment ps = Some segs → length ps ≤ fuel →
  split_path_loop fuel (join_parts ps) = Some segs.
Proof.
  intros H%mapM_Some. revert fuel. induction H as [|p s ps segs Hp _ IH]; intros fuel Hl.
  { by destruct fuel. }
  destruct fuel as [|fuel]; simpl in Hl; [lia|].
  destruct p as [key|digits]; simpl in Hp.
  - destruct (bool_decide (key ≠ "")) eqn:Hk; [|done].
    destruct (forallb _ _) eqn:Hs; simpl in Hp; simplify_eq.
    rewrite split_part_field, IH; [done|lia|by apply bool_decide_eq_true in Hk|done].
  - destruct (forallb _ _) eqn:Hd; [|done].
    apply fmap_Some in Hp as (idx & Hidx & ->).
    rewrite (split_part_index _ _ idx), IH; [done|lia|done|done].
Qed.

Lemma join_parts_length ps segs :
  mapM part_segment ps = Some segs → length ps ≤ length (join_parts ps).
Proof.
  intros H%mapM_Some. induction H as [|p s ps segs Hp _ IH]; [done|].
  rewrite join_parts_cons, length_app. apply part_text_nonempty in Hp.
  destruct ps; simpl in *; lia.
Qed.

(** A path joined from field names and bracketed digit runs, the way the
    parser builds it, splits back into exactly those segments. *)
Theorem split_path_join ps segs :
  mapM part_segment ps = Some segs → split_path (of_bytes (join_parts ps)) = segs.
Proof.
  intros H. unfold split_path. rewrite to_of_bytes.
  rewrite (split_path_loop_join _ ps segs); [done..|by eapply join_parts_length].
Qed.

Theorem split_path_join_witness :
  split_path "user.[12].name" = [Field "user"; Index 12; Field "name"].
Proof.
  apply (split_path_join [PartField "user"; PartIndex "12"; PartField "name"]%string
           [Field "user"; Index 12; Field "name"]%string).
  reflexivity.
Defined.
