(* ===== verification/RequestTypes.v ===== *)
(** khive-request/src/types.rs: the limits, argument values and their [$prev]
    resolution, the explanation of a failed resolution, parsed operations and
    requests, and the error taxonomy with its [Display] texts. *)

From Stdlib Require Import String Ascii ZArith.
From stdpp Require Import base tactics list strings gmap pretty.
From S2P Require Import Prelude RustStr Json.

Definition MAX_OPS : nat := 100.
Definition MAX_OPS_INPUT_LEN : Z := (1024 * 1024)%Z.
Definition NESTING_DEPTH_LIMIT : nat := 64.

(** khive-types/src/pack.rs *)
Definition RESERVED_ENVELOPE_ARGS : list string := ["presentation"; "presentation_per_op"].

(** ** The iterative nesting check *)

(** The [while let Some((v, depth)) = stack.pop()] loop; the head of the list
    is the top of the stack, so [extend] reverses what it pushes. *)
Fixpoint nesting_loop (fuel : nat) (stack : list (Value * nat)) (max_depth : nat) : option bool :=
  match stack, fuel with
  | [], _ => Some true
  | _, 0 => None
  | (v, depth) :: stack', S f =>
      match v with
      | VArray items =>
          let next_depth := depth + 1 in
          if max_depth <? next_depth then Some false
          else nesting_loop f (rev_append ((λ item, (item, next_depth)) <$> items) stack') max_depth
      | VObject map =>
          let next_depth := depth + 1 in
          if max_depth <? next_depth then Some false
          else nesting_loop f
                 (rev_append ((λ kv, (kv.2, next_depth)) <$> map) stack') max_depth
      | _ => nesting_loop f stack' max_depth
      end
  end.

Definition value_nesting_within_limit (value : Value) (max_depth : nat) : bool :=
  default false (nesting_loop (value_size value) [(value, 0)] max_depth).

(** ** Execution mode and argument values *)

Inductive ExecutionMode : Type := Single | Parallel | Chain.

#[export] Instance ExecutionMode_eq_dec : EqDecision ExecutionMode.
Proof. solve_decision. Defined.

Inductive ArgValue : Type :=
| AValue (v : Value)
| APrevRef (path : string)
| AArray (elements : list ArgValue)
| AObject (pairs : list (string * ArgValue)).

Section ArgValue_ind'.
Variable P : ArgValue → Prop.
Hypothesis Hval : ∀ v, P (AValue v).
Hypothesis Href : ∀ p, P (APrevRef p).
Hypothesis Harr : ∀ l, Forall P l → P (AArray l).
Hypothesis Hobj : ∀ m, Forall (λ kv, P kv.2) m → P (AObject m).

Fixpoint ArgValue_ind' (a : ArgValue) : P a :=
  match a with
  | AValue v => Hval v
  | APrevRef p => Href p
  | AArray l => Harr l ((fix go l : Forall P l :=
      match l with
      | [] => Forall_nil_2 P
      | x :: l' => Forall_cons_2 P x l' (ArgValue_ind' x) (go l')
      end) l)
  | AObject m => Hobj m ((fix go m : Forall (λ kv, P kv.2) m :=
      match m with
      | [] => Forall_nil_2 _
      | kv :: m' => Forall_cons_2 _ kv m' (ArgValue_ind' kv.2) (go m')
      end) m)
  end.
End ArgValue_ind'.

Definition as_value (a : ArgValue) : option Value :=
  match a with AValue v => Some v | _ => None end.

Definition is_prev_ref (a : ArgValue) : bool :=
  match a with APrevRef _ => true | _ => false end.

Definition resolve_prev (a : ArgValue) (prev_result : Value) : option Value :=
  match a with
  | APrevRef path =>
      if is_empty path then Some prev_result
      else foldl (λ cur seg, c ← cur; apply_path_segment c seg)
             (Some prev_result) (split_path path)
  | _ => None
  end.

Fixpoint resolve_all (a : ArgValue) (prev_result : Value) : option Value :=
  match a with
  | AValue v => Some v
  | APrevRef _ => resolve_prev a prev_result
  | AArray elements =>
      out ← (fix go l := match l with
                         | [] => Some []
                         | el :: l' => v ← resolve_all el prev_result;
                                       vs ← go l'; Some (v :: vs)
                         end) elements;
      Some (VArray out)
  | AObject pairs =>
      (fix go l map := match l with
                       | [] => Some (VObject map)
                       | (key, val) :: l' => v ← resolve_all val prev_result;
                                             go l' (bm_insert key v map)
                       end) pairs []
  end.

(** ** Why a reference does not resolve *)

Inductive PrevFailure : Type :=
| NotFound (arg_path prev_path resolved_prefix missing : string) (available : list string)
| WrongType (arg_path prev_path resolved_prefix segment expected found : string)
| Unsupported (arg_path prev_path segment : string).

(** [.replace(".[", "[")] *)
Fixpoint replace_dot_bracket (l : bytes) : bytes :=
  match l with
  | "."%char :: (("["%char :: l') as l0) => "["%char :: replace_dot_bracket l'
  | c :: l' => c :: replace_dot_bracket l'
  | [] => []
  end.

Definition render_prev_path (path : string) : string :=
  of_bytes (replace_dot_bracket (to_bytes ("$prev." +:+ path))).

Definition prev_path_prefix (resolved_prefix : string) : string :=
  if is_empty resolved_prefix then "$prev" else render_prev_path resolved_prefix.

(** The loop over the segments of a reference's path. *)
Fixpoint find_failure_walk (arg_path path : string) (cur : Value) (resolved_prefix : string)
    (segs : list PathSegment) : option PrevFailure :=
  match segs with
  | [] => None
  | Field key :: segs' =>
      match cur with
      | VObject map =>
          match bm_get key map with
          | Some v =>
              let dotted := if is_empty resolved_prefix then resolved_prefix
                            else resolved_prefix +:+ "." in
              find_failure_walk arg_path path v (dotted +:+ key) segs'
          | None => Some (NotFound arg_path (render_prev_path path)
                            (prev_path_prefix resolved_prefix) key (sort_by cmp map.*1))
          end
      | other => Some (WrongType arg_path (render_prev_path path)
                         (prev_path_prefix resolved_prefix) key "object" (json_type_name other))
      end
  | Index idx :: segs' =>
      let seg_text := "[" +:+ fmt_Z idx +:+ "]" in
      match cur with
      | VArray arr =>
          match arr !! Z.to_nat idx with
          | Some v => find_failure_walk arg_path path v (resolved_prefix +:+ seg_text) segs'
          | None => Some (NotFound arg_path (render_prev_path path)
                            (prev_path_prefix resolved_prefix) seg_text
                            ["array has " +:+ fmt_nat (length arr) +:+ " element(s)"])
          end
      | other => Some (WrongType arg_path (render_prev_path path)
                         (prev_path_prefix resolved_prefix) seg_text "array"
                         (json_type_name other))
      end
  | Malformed raw :: _ => Some (Unsupported arg_path (render_prev_path path) raw)
  end.

Fixpoint find_prev_failure_at (a : ArgValue) (arg_path : string) (prev_result : Value)
    : option PrevFailure :=
  match a with
  | AValue _ => None
  | APrevRef path =>
      if is_empty path then None
      else find_failure_walk arg_path path prev_result "" (split_path path)
  | AArray elements =>
      (fix go i l := match l with
                     | [] => None
                     | el :: l' =>
                         match find_prev_failure_at el
                                 (arg_path +:+ "[" +:+ fmt_nat i +:+ "]") prev_result with
                         | Some f => Some f
                         | None => go (S i) l'
                         end
                     end) 0 elements
  | AObject pairs =>
      (fix go l := match l with
                   | [] => None
                   | (k, v) :: l' =>
                       let sub := if is_empty arg_path then k else arg_path +:+ "." +:+ k in
                       match find_prev_failure_at v sub prev_result with
                       | Some f => Some f
                       | None => go l'
                       end
                   end) pairs
  end.

Definition find_prev_failure (a : ArgValue) (prev_result : Value) : option PrevFailure :=
  find_prev_failure_at a "" prev_result.

(** ** Parsed operations and requests *)

Record ParsedOp : Type := mkOp { tool : string; args : list (string * ArgValue) }.

(** A [Range<usize>]. *)
Record range : Type := mkRange { r_start : nat; r_end : nat }.

Record ParsedRequest : Type := mkRequest {
  ops : list ParsedOp;
  mode : ExecutionMode;
  ranges : list range
}.

(** One already-decoded JSON operation; its argument map is a
    [serde_json::Map]. *)
Record TypedJsonOp : Type := mkTyped { tj_tool : string; tj_args : list (string * Value) }.

(** ** Errors *)

(** A [char] is its code point. *)
Inductive DslError : Type :=
| Empty
| TooManyOps (count max : nat)
| InputTooLarge (len max : Z)
| NestingTooDeep (pos depth max : nat)
| UnexpectedChar (pos : nat) (found : Z) (expected : string)
| UnexpectedEof (expected : string)
| InvalidIdentifier (pos : nat)
| DuplicateArg (name : string)
| InvalidValue (pos : nat) (error : string)
| InvalidJson (error : string)
| UnclosedString (start : nat)
| UnclosedCall (start : nat)
| UnclosedBracket (kind : Z)
| PrevRefOutsideChain (pos : nat)
| PrevRefInJsonForm (arg_name : string)
| MixedSeparators
| EmptyBatch
| UnsupportedVerbNesting (pos : nat)
| WriteKeyConflict (id first_op second_op : string) (conflict_ops : list nat)
| ReservedEnvelopeArg (arg_name verb : string)
| TrailingComma (pos : nat).

Section display.
Context `{Externals}.

Definition arg_ref (arg_path : string) : string :=
  if is_empty arg_path then "" else " (at " +:+ arg_path +:+ ")".

(** [impl fmt::Display for PrevFailure] *)
Definition PrevFailure_fmt (self : PrevFailure) : string :=
  match self with
  | NotFound arg_path prev_path resolved_prefix missing available =>
      prev_path +:+ arg_ref arg_path +:+ ": " +:+ resolved_prefix +:+ " has no "
      +:+ str_debug missing +:+ ". Available top-level fields: ["
      +:+ String.concat ", " available +:+ "]"
  | WrongType arg_path prev_path resolved_prefix segment expected found =>
      prev_path +:+ arg_ref arg_path +:+ ": " +:+ resolved_prefix +:+ " is a " +:+ found
      +:+ ", not an " +:+ expected +:+ ", so " +:+ str_debug segment
      +:+ " cannot be applied to it"
  | Unsupported arg_path prev_path segment =>
      prev_path +:+ arg_ref arg_path +:+ ": " +:+ str_debug segment
      +:+ " is not a supported $prev path segment; array indices must be a plain "
      +:+ "non-negative integer, e.g. $prev.items[0]"
  end.

Definition at_byte (pos : nat) : string := "at byte " +:+ fmt_nat pos +:+ ": ".

(** [impl fmt::Display for DslError] *)
Definition DslError_fmt (self : DslError) : string :=
  match self with
  | Empty => "request is empty"
  | TooManyOps count max =>
      "batch has " +:+ fmt_nat count +:+ " ops; max is " +:+ fmt_nat max
  | InputTooLarge len max =>
      "ops input is " +:+ fmt_Z len +:+ " bytes; max is " +:+ fmt_Z max +:+ " bytes"
  | NestingTooDeep pos depth max =>
      at_byte pos +:+ "container nesting depth " +:+ fmt_nat depth +:+ " exceeds max "
      +:+ fmt_nat max
  | UnexpectedChar pos found expected =>
      at_byte pos +:+ "expected " +:+ expected +:+ ", found " +:+ char_debug found
  | UnexpectedEof expected => "unexpected end of input; expected " +:+ expected
  | InvalidIdentifier pos =>
      at_byte pos +:+ "invalid identifier (expected [A-Za-z_][A-Za-z0-9_]*)"
  | DuplicateArg name => "duplicate argument " +:+ str_debug name
  | InvalidValue pos error => at_byte pos +:+ "invalid value: " +:+ error
  | InvalidJson error => "invalid JSON form: " +:+ error
  | UnclosedString start =>
      "unterminated string literal starting at byte " +:+ fmt_nat start
  | UnclosedCall start =>
      "unclosed call starting at byte " +:+ fmt_nat start +:+ "; expected ')'"
  | UnclosedBracket kind =>
      "unclosed bracket: " +:+ char_debug kind +:+ " has no matching close"
  | PrevRefOutsideChain pos =>
      at_byte pos +:+ "$prev reference is only valid in chain (|) mode; "
      +:+ "use function-call form with '|' to chain ops"
  | PrevRefInJsonForm arg_name =>
      "argument " +:+ str_debug arg_name +:+ ": $prev substitution requires the "
      +:+ "function-call DSL with the chain (|) operator; JSON form does not support chains. "
      +:+ "Use: verb1(...) | verb2(" +:+ arg_name +:+ "=$prev.id)"
  | MixedSeparators =>
      "cannot mix ',' (parallel) and '|' (chain) separators outside `[...]`; "
      +:+ "to run chains in parallel, wrap every unit in one bracketed batch, "
      +:+ "for example `[a() | b(arg=$prev.id), c()]`"
  | EmptyBatch => "empty batch not allowed; provide at least one op"
  | UnsupportedVerbNesting pos =>
      at_byte pos +:+ "only single-level dotted verb names are supported "
      +:+ "(e.g. brain.state); use a shorter name or register a pack alias"
  | WriteKeyConflict id first_op second_op _ =>
      "write-key conflict: id " +:+ str_debug id +:+ " is targeted by both "
      +:+ str_debug first_op +:+ " and " +:+ str_debug second_op
      +:+ " in the same batch; split into separate requests"
  | ReservedEnvelopeArg arg_name verb =>
      "argument " +:+ str_debug arg_name +:+ " in verb " +:+ str_debug verb
      +:+ " is reserved for the request envelope; pass it at the envelope level, "
      +:+ "not inside verb args"
  | TrailingComma pos =>
      at_byte pos +:+ "trailing comma before ']' — a batch cannot end with an empty "
      +:+ "element; remove the comma or add another op after it"
  end.
End display.

(** ** The nesting check decides the depth bound *)

Section nesting.
Context (max_depth : nat).

(** What the walk still has to establish of an entry of its stack. *)
Definition entry_ok (p : Value * nat) : Prop :=
  value_depth p.1 = 0 ∨ p.2 + value_depth p.1 ≤ max_depth.

Definition stack_size (stack : list (Value * nat)) : nat :=
  sum_list_with (λ p, value_size p.1) stack.

Lemma value_size_pos v : 1 ≤ value_size v.
Proof. destruct v; simpl; lia. Qed.

Lemma stack_size_push {A} (f : A → Value) k (items : list A) stack :
  stack_size (rev_append ((λ x, (f x, k)) <$> items) stack) =
    sum_list_with (λ x, value_size (f x)) items + stack_size stack.
Proof.
  revert stack. induction items as [|x items IH]; intros stack; simpl; [done|].
  rewrite IH. simpl. unfold stack_size. simpl. lia.
Qed.

Lemma entries_push {A} (f : A → Value) k (items : list A) stack :
  Forall entry_ok (rev_append ((λ x, (f x, k)) <$> items) stack) ↔
    Forall (λ x, entry_ok (f x, k)) items ∧ Forall entry_ok stack.
Proof.
  by rewrite rev_append_rev, <-Permutation_rev, Forall_app, Forall_fmap.
Qed.

Lemma entry_container {A} (f : A → Value) (items : list A) depth v :
  value_depth v = S (max_list_with (λ x, value_depth (f x)) items) →
  depth + 1 ≤ max_depth →
  Forall (λ x, entry_ok (f x, depth + 1)) items ↔ entry_ok (v, depth).
Proof.
  intros Hv Hd. unfold entry_ok. simpl. rewrite Hv.
  rewrite <-(Nat.add_1_l (max_list_with _ _)).
  transitivity (max_list_with (λ x, value_depth (f x)) items ≤ max_depth - (depth + 1));
    [rewrite max_list_with_le; apply Forall_proper; [intros x; simpl; lia|done]|lia].
Qed.

Lemma nesting_loop_spec fuel stack :
  stack_size stack ≤ fuel →
  ∃ b, nesting_loop fuel stack max_depth = Some b ∧ (b = true ↔ Forall entry_ok stack).
Proof.
  revert stack. induction fuel as [|fuel IH]; intros [|[v depth] stack] Hf;
    try (exists true; split; [done|]; by split; [constructor|]).
  { unfold stack_size in Hf. simpl in Hf. pose proof (value_size_pos v). lia. }
  unfold stack_size in Hf. simpl in Hf. fold (stack_size stack) in Hf.
  assert (Hscalar : value_depth v = 0 → 1 ≤ value_size v → ∃ b,
    nesting_loop fuel stack max_depth = Some b ∧
      (b = true ↔ Forall entry_ok ((v, depth) :: stack))).
  { intros Hv Hsz. destruct (IH stack) as (b & -> & Hb); [lia|]. exists b. split; [done|].
    rewrite Hb, Forall_cons. unfold entry_ok at 2. simpl. tauto. }
  assert (Hcont : ∀ {A} (f : A → Value) (items : list A),
    value_depth v = S (max_list_with (λ x, value_depth (f x)) items) →
    value_size v = S (sum_list_with (λ x, value_size (f x)) items) → ∃ b,
    (if max_depth <? depth + 1 then Some false else
       nesting_loop fuel (rev_append ((λ x, (f x, depth + 1)) <$> items) stack) max_depth)
      = Some b ∧ (b = true ↔ Forall entry_ok ((v, depth) :: stack))).
  { intros A f items Hv Hsz. destruct (Nat.ltb_spec max_depth (depth + 1)) as [Hlt|Hle].
    - exists false. split; [done|]. split; [done|].
      rewrite Forall_cons. unfold entry_ok at 1. simpl. lia.
    - destruct (IH (rev_append ((λ x, (f x, depth + 1)) <$> items) stack)) as (b & -> & Hb).
      { rewrite stack_size_push. lia. }
      exists b. split; [done|].
      by rewrite Hb, entries_push, Forall_cons, (entry_container f items depth v). }
  destruct v; simpl nesting_loop; try by apply Hscalar.
  - by apply (Hcont _ id).
  - by apply (Hcont _ snd).
Qed.
End nesting.

(** The iterative walk accepts a value exactly when no array or object of
    it lies deeper than the limit. *)
Theorem value_nesting_within_limit_spec value max_depth :
  value_nesting_within_limit value max_depth = true ↔ value_depth value ≤ max_depth.
Proof.
  unfold value_nesting_within_limit.
  destruct (nesting_loop_spec max_depth (value_size value) [(value, 0)]) as (b & -> & Hb).
  { unfold stack_size. simpl. lia. }
  simpl. rewrite Hb, Forall_singleton. unfold entry_ok. simpl. lia.
Qed.

(** ** The failure finder agrees with the resolver *)

Definition resolve_path (cur : Value) (segs : list PathSegment) : option Value :=
  foldl (λ cur seg, c ← cur; apply_path_segment c seg) (Some cur) segs.

Lemma resolve_path_cons cur seg segs :
  resolve_path cur (seg :: segs) = v ← apply_path_segment cur seg; resolve_path v segs.
Proof.
  unfold resolve_path. simpl. destruct (apply_path_segment cur seg); simpl; [done|].
  by induction segs.
Qed.

Lemma find_failure_walk_None arg_path path cur prefix segs :
  find_failure_walk arg_path path cur prefix segs = None ↔ is_Some (resolve_path cur segs).
Proof.
  revert cur prefix. induction segs as [|seg segs IH]; intros cur prefix.
  { split; [by exists cur|done]. }
  rewrite resolve_path_cons. pose proof (is_Some_None (A := Value)) as HN.
  destruct seg as [key|idx|raw]; simpl; [| |by split].
  - destruct cur as [| | | | |map]; simpl; try by split.
    unfold value_get. simpl. destruct (bm_get key map); simpl; [apply IH|by split].
  - destruct cur as [| | | |arr|]; simpl; try by split.
    destruct (arr !! Z.to_nat idx); simpl; [apply IH|by split].
Qed.

Lemma resolve_array elements prev :
  resolve_all (AArray elements) prev =
    VArray <$> mapM (λ el, resolve_all el prev) elements.
Proof.
  simpl. match goal with |- mbind _ ?m = fmap _ ?m' => assert (m = m') as ->;
    [|by destruct m'] end.
  induction elements as [|el l IH]; simpl; [done|].
  destruct (resolve_all el prev); simpl; [|done]. by rewrite IH.
Qed.

Lemma resolve_object pairs prev :
  resolve_all (AObject pairs) prev =
    (λ vs, VObject (bm_of_list (zip pairs.*1 vs))) <$>
      mapM (λ kv, resolve_all kv.2 prev) pairs.
Proof.
  simpl. unfold bm_of_list. generalize (@nil (string * Value)).
  induction pairs as [|[k a] l IH]; intros map; simpl; [done|].
  destruct (resolve_all a prev) as [v|]; simpl; [|done]. rewrite IH.
  by destruct (mapM _ l).
Qed.

Lemma mapM_is_Some {A B} (f : A → option B) l :
  is_Some (mapM f l) ↔ Forall (λ x, is_Some (f x)) l.
Proof.
  split; [|apply mapM_is_Some_2]. apply mapM_is_Some_1.
Qed.

Lemma find_prev_failure_at_None a arg_path prev :
  find_prev_failure_at a arg_path prev = None ↔ is_Some (resolve_all a prev).
Proof.
  revert arg_path. induction a as [v|p|l IH|m IH] using ArgValue_ind'; intros arg_path.
  - simpl. split; [by eexists|done].
  - simpl. destruct (is_empty p); [split; [by eexists|done]|].
    apply find_failure_walk_None.
  - rewrite resolve_array, fmap_is_Some, mapM_is_Some. simpl. generalize 0.
    induction IH as [|el l Hel _ IHl]; intros i; [split; [constructor|done]|].
    rewrite Forall_cons, <-(IHl (S i)), <-(Hel (arg_path +:+ "[" +:+ fmt_nat i +:+ "]")).
    destruct (find_prev_failure_at el _ prev); naive_solver.
  - rewrite resolve_object, fmap_is_Some, mapM_is_Some. simpl.
    induction IH as [|[k el] l Hel _ IHl]; [split; [constructor|done]|].
    rewrite Forall_cons, <-IHl. simpl in Hel |- *.
    rewrite <-(Hel (if is_empty arg_path then k else arg_path +:+ "." +:+ k)).
    destruct (find_prev_failure_at el _ prev); naive_solver.
Qed.

(** The failure finder is silent exactly when [resolve_all] yields a value,
    as its documentation promises. *)
Theorem find_prev_failure_agrees a prev_result :
  find_prev_failure a prev_result = None ↔ is_Some (resolve_all a prev_result).
Proof. apply find_prev_failure_at_None. Qed.

(** ** What resolution can build *)

(** Container depth of the literal part of an argument. *)
Fixpoint arg_depth (a : ArgValue) : nat :=
  match a with
  | AValue v => value_depth v
  | APrevRef _ => 0
  | AArray l => S (max_list_with arg_depth l)
  | AObject m => S (max_list_with (λ kv, arg_depth kv.2) m)
  end.

Lemma max_list_with_elem {A} (f : A → nat) l x : x ∈ l → f x ≤ max_list_with f l.
Proof.
  intros Hx. pose proof (proj1 (max_list_with_le f l _) (le_n _)) as H.
  rewrite Forall_forall in H. auto.
Qed.

Lemma bm_get_elem {K V} `{OrdLaws K} (k : K) (v : V) m : bm_get k m = Some v → (k, v) ∈ m.
Proof.
  induction m as [|[k' v'] m IH]; simpl; [done|].
  destruct (cmp k k') eqn:E; [|done|]; intros; rewrite elem_of_cons; auto.
  left. apply cmp_eq in E. by simplify_eq.
Qed.

Lemma apply_path_segment_depth v seg v' :
  apply_path_segment v seg = Some v' → value_depth v' < value_depth v.
Proof.
  destruct seg as [key|idx|]; simpl; [| |done].
  - destruct v as [| | | | |map]; simpl; try done. intros H%bm_get_elem.
    apply (max_list_with_elem (λ kv, value_depth kv.2)) in H. simpl in H. lia.
  - destruct v as [| | | |arr|]; simpl; try done. intros H%list_elem_of_lookup_2.
    apply (max_list_with_elem value_depth) in H. lia.
Qed.

Lemma resolve_path_depth segs v v' :
  resolve_path v segs = Some v' → value_depth v' ≤ value_depth v.
Proof.
  revert v. induction segs as [|seg segs IH]; intros v; [by intros [= ->]|].
  rewrite resolve_path_cons. intros (w & Hw & H)%bind_Some.
  apply IH in H. apply apply_path_segment_depth in Hw. lia.
Qed.

Lemma bm_of_list_elem {K V} `{OrdLaws K} (l : list (K * V)) kv :
  kv ∈ bm_of_list l → kv ∈ l.
Proof.
  unfold bm_of_list. cut (∀ m, kv ∈ foldl (λ m kv, bm_insert kv.1 kv.2 m) m l →
    kv ∈ m ∨ kv ∈ l); [intros Hc Hin; destruct (Hc _ Hin); [set_solver|done]|].
  assert (Hins : ∀ k v (m : list (K * V)), kv ∈ bm_insert k v m → kv = (k, v) ∨ kv ∈ m).
  { intros k v m. induction m as [|[k' v'] m IH]; simpl; [set_solver|].
    destruct (cmp k k'); set_solver. }
  induction l as [|[k v] l IH]; intros m; simpl; [auto|].
  intros [[->|]%Hins|]%IH; set_solver.
Qed.

(** Resolving an argument nests containers no deeper than its literal part
    and the previous result together. *)
Theorem resolve_all_depth a prev_result v :
  resolve_all a prev_result = Some v → value_depth v ≤ arg_depth a + value_depth prev_result.
Proof.
  revert v. induction a as [w|p|l IH|m IH] using ArgValue_ind'; intros v.
  - intros [= ->]. simpl. lia.
  - simpl. destruct (is_empty p); [intros [= ->]; lia|]. apply resolve_path_depth.
  - rewrite resolve_array. intros (vs & Hvs & ->)%fmap_Some. simpl. apply le_n_S.
    apply max_list_with_le. apply mapM_Some in Hvs. apply Forall_forall. intros w Hw.
    apply list_elem_of_lookup in Hw as [i Hi].
    destruct (Forall2_lookup_r _ _ _ _ _ Hvs Hi) as (el & Hel & Hr).
    rewrite Forall_lookup in IH. specialize (IH _ _ Hel _ Hr).
    apply list_elem_of_lookup_2, (max_list_with_elem arg_depth) in Hel. lia.
  - rewrite resolve_object. intros (vs & Hvs & ->)%fmap_Some. simpl. apply le_n_S.
    apply max_list_with_le. apply mapM_Some in Hvs. apply Forall_forall. intros [k w] Hw.
    apply bm_of_list_elem, list_elem_of_lookup in Hw as [i Hi].
    apply lookup_zip_Some in Hi as [_ Hi].
    destruct (Forall2_lookup_r _ _ _ _ _ Hvs Hi) as (el & Hel & Hr).
    rewrite Forall_lookup in IH. specialize (IH _ _ Hel _ Hr).
    apply list_elem_of_lookup_2, (max_list_with_elem (λ kv, arg_depth kv.2)) in Hel.
    simpl in *. lia.
Qed.

Theorem resolve_all_depth_witness :
  resolve_all (AArray [AValue VNull; APrevRef "ids[0]"])
    (VObject [("ids", VArray [VString "x"])]%string) = Some (VArray [VNull; VString "x"]) ∧
  value_depth (VArray [VNull; VString "x"]) ≤ 1 + 2.
Proof.
  split; [reflexivity|].
  apply (resolve_all_depth (AArray [AValue VNull; APrevRef "ids[0]"])
           (VObject [("ids", VArray [VString "x"])]%string)). reflexivity.
Defined.
