(* ===== verification/Scan.v ===== *)
(** khive-request/src/parser/scan.rs: string scanning, the rewriting of raw
    control bytes, [$prev] detection and the JSON nesting bound. *)

From Stdlib Require Import String Ascii ZArith.
From stdpp Require Import base tactics list strings gmap pretty.
From S2P Require Import Prelude RustStr Json RequestTypes.

(** ** Strings *)

(** The [while i < src.len()] loop of [scan_string_end], on the bytes from [i]. *)
Fixpoint scan_string_loop (rest : bytes) (i : nat) : option nat :=
  match rest with
  | [] => None
  | c :: rest' =>
      if eqb_byte c bs_char then
        match rest' with
        | _ :: rest'' => scan_string_loop rest'' (i + 2)
        | [] => None
        end
      else if eqb_byte c dq_char then Some (i + 1)
      else scan_string_loop rest' (i + 1)
  end.

Definition scan_string_end (src : bytes) (start : nat) : result nat DslError :=
  ok_or (scan_string_loop (drop (start + 1) src) (start + 1)) (UnclosedString start).

(** ** Normalisation of quoted strings *)

Record ControlByteHit : Type := mkHit {
  normalized_pos : nat;
  raw_pos : nat;
  hit_byte : ascii;
  preceded_by_backslash : bool
}.

Record NormalizedQuotedString : Type := mkNormalized {
  norm_text : bytes;
  first_control_byte : option ControlByteHit
}.

Definition owned_quoted_prefix (raw : bytes) (pos : nat) : bytes := take pos raw.

(** The mutable locals of the loop. *)
Record norm_state : Type := mkNorm {
  ns_out : option bytes;
  ns_first : option ControlByteHit;
  ns_hex_slots : nat;
  ns_hex_acc : Z;
  ns_hex_valid : bool;
  ns_after_high : bool
}.

Definition norm_init : norm_state := mkNorm None None 0 0 true false.

(** [if let Some(out) = out.as_mut() { out.push(c) }] *)
Definition push_if (out : option bytes) (g : bytes) : option bytes := (λ o, o ++ g) <$> out.

(** [c as u32 < 0x20]: such a character is a single byte. *)
Definition is_control_char (g : bytes) : bool :=
  match g with [c] => is_ascii_control c | _ => false end.

(** [c as u8] of a control character. *)
Definition char_byte (g : bytes) : ascii := default zero (head g).

Definition is_char (c : ascii) (g : bytes) : bool := bool_decide (g = [c]).

Definition LF : ascii := ascii_of_N 10.
Definition CR : ascii := ascii_of_N 13.
Definition TAB : ascii := ascii_of_N 9.

(** [char::to_digit(16)] *)
Definition char_hex (g : bytes) : option Z :=
  match g with [c] => hex_digit c | _ => None end.

(** One of the four slots that follow [\u]. *)
Definition norm_hex_slot (raw : bytes) (pos : nat) (g : bytes) (st : norm_state) : norm_state :=
  let slots := ns_hex_slots st - 1 in
  let acc := match char_hex g with
             | Some d => Z.lor (Z.shiftl (ns_hex_acc st) 4) d
             | None => ns_hex_acc st
             end in
  let valid := match char_hex g with Some _ => ns_hex_valid st | None => false end in
  let out0 := if is_control_char g && bool_decide (ns_out st = None)
              then Some (owned_quoted_prefix raw pos) else ns_out st in
  mkNorm (push_if out0 g) (ns_first st) slots acc valid
    (if slots =? 0 then valid && (55296 <=? acc)%Z && (acc <=? 56319)%Z
     else ns_after_high st).

(** The character after a backslash, when it is not [u]. *)
Definition norm_pair (raw : bytes) (next_pos : nat) (next : bytes)
    (prev_was_high_surrogate : bool) (out : option bytes) (first : option ControlByteHit)
    : option bytes * option ControlByteHit :=
  let '(out1, first1) :=
    if is_control_char next && negb prev_was_high_surrogate && bool_decide (first = None)
    then let o := default (owned_quoted_prefix raw next_pos) out in
         (Some o, Some (mkHit (length o) next_pos (char_byte next) true))
    else (out, first) in
  let out2 := if is_control_char next && bool_decide (out1 = None)
              then Some (owned_quoted_prefix raw next_pos) else out1 in
  (push_if out2 next, first1).

(** A character outside escapes. *)
Definition norm_plain (raw : bytes) (pos : nat) (g : bytes)
    (out : option bytes) (first : option ControlByteHit)
    : option bytes * option ControlByteHit :=
  if is_char LF g || is_char CR g || is_char TAB g then
    let o := default (owned_quoted_prefix raw pos) out in
    (Some (o ++ bs_char :: (if is_char LF g then ["n"%char]
                            else if is_char CR g then ["r"%char] else ["t"%char])), first)
  else if is_control_char g then
    let o := default (owned_quoted_prefix raw pos) out in
    let first' := if bool_decide (first = None)
                  then Some (mkHit (length o) pos (char_byte g) false) else first in
    (Some (o ++ g), first')
  else (push_if out g, first).

Fixpoint normalize_loop (raw : bytes) (pos : nat) (cs : list bytes) (st : norm_state)
    : norm_state :=
  match cs with
  | [] => st
  | g :: cs' =>
      let pos' := pos + length g in
      if 0 <? ns_hex_slots st then normalize_loop raw pos' cs' (norm_hex_slot raw pos g st)
      else
        let prev_was_high_surrogate := ns_after_high st in
        if is_char bs_char g then
          let out := push_if (ns_out st) g in
          match cs' with
          | [] => mkNorm out (ns_first st) 0 (ns_hex_acc st) (ns_hex_valid st) false
          | next :: cs'' =>
              let pos'' := pos' + length next in
              if is_char "u"%char next then
                normalize_loop raw pos'' cs''
                  (mkNorm (push_if out next) (ns_first st) 4 0 true false)
              else
                let '(out', first') :=
                  norm_pair raw pos' next prev_was_high_surrogate out (ns_first st) in
                normalize_loop raw pos'' cs''
                  (mkNorm out' first' 0 (ns_hex_acc st) (ns_hex_valid st) false)
          end
        else
          let '(out', first') := norm_plain raw pos g (ns_out st) (ns_first st) in
          normalize_loop raw pos' cs'
            (mkNorm out' first' 0 (ns_hex_acc st) (ns_hex_valid st) false)
  end.

Definition normalize_quoted_string (raw : bytes) : NormalizedQuotedString :=
  let st := normalize_loop raw 0 (chars raw) norm_init in
  mkNormalized (default raw (ns_out st)) (ns_first st).

(** ** Labels and [$prev] detection *)

Definition char_label (c : ascii) : string :=
  match c with
  | "("%char => "'('"
  | ")"%char => "')'"
  | "["%char => "'['"
  | "]"%char => "']'"
  | "="%char => "'='"
  | ","%char => "','"
  | _ => "expected char"
  end.

Definition str_starts_with (p s : string) : bool :=
  match strip_prefix (to_bytes p) (to_bytes s) with Some _ => true | None => false end.

Definition is_prev_ref_string (s : string) : bool :=
  String.eqb s "$prev" || str_starts_with "$prev." s || str_starts_with "$prev[" s.

Fixpoint json_value_contains_prev_ref_at (v : Value) (depth : nat) : bool :=
  if NESTING_DEPTH_LIMIT <? depth then true
  else match v with
       | VString s => is_prev_ref_string s
       | VArray arr => existsb (λ e, json_value_contains_prev_ref_at e (depth + 1)) arr
       | VObject map => existsb (λ kv, json_value_contains_prev_ref_at kv.2 (depth + 1)) map
       | _ => false
       end.

Definition json_value_contains_prev_ref (v : Value) : bool :=
  json_value_contains_prev_ref_at v 0.

(** ** The JSON nesting bound *)

(** The scan loop; [rest] is the input from byte [i]. *)
Fixpoint nesting_scan (fuel : nat) (input rest : bytes) (i depth : nat) : outcome unit DslError :=
  match rest, fuel with
  | [], _ => Done ()
  | _, 0 => OutOfFuel
  | c :: rest', S f =>
      if eqb_byte c dq_char then
        match scan_string_end input i with
        | Ok j => nesting_scan f input (drop j input) j depth
        | Err e => Fail e
        end
      else if eqb_byte c "["%char || eqb_byte c "{"%char then
        if NESTING_DEPTH_LIMIT <? depth + 1
        then Fail (NestingTooDeep i (depth + 1) NESTING_DEPTH_LIMIT)
        else nesting_scan f input rest' (i + 1) (depth + 1)
      else if eqb_byte c "]"%char || eqb_byte c "}"%char
      then nesting_scan f input rest' (i + 1) (depth - 1)
      else nesting_scan f input rest' (i + 1) depth
  end.

Definition check_json_nesting_depth (input : bytes) : outcome unit DslError :=
  nesting_scan (length input) input input 0 0.

Fixpoint arg_value_has_prev_ref (av : ArgValue) : bool :=
  match av with
  | APrevRef _ => true
  | AArray els => existsb arg_value_has_prev_ref els
  | AObject pairs => existsb (λ kv, arg_value_has_prev_ref kv.2) pairs
  | AValue _ => false
  end.

Definition find_prev_ref_pos (op : ParsedOp) : option nat :=
  if existsb (λ kv, arg_value_has_prev_ref kv.2) (args op) then Some 0 else None.

(** ** The lazy copy of [normalize_quoted_string] *)

(** What the loop is meant to compute, without the lazily allocated copy: raw
    newlines, carriage returns and tabs become escapes unless they follow a
    backslash or fill one of the four slots of a [\u] escape. *)
Fixpoint normalize_ref (cs : list bytes) (slots : nat) : list bytes :=
  match cs with
  | [] => []
  | g :: cs' =>
      match slots with
      | S slots' => g :: normalize_ref cs' slots'
      | 0 =>
          if is_char bs_char g then
            match cs' with
            | [] => [g]
            | next :: cs'' => g :: next :: normalize_ref cs'' (if is_char "u"%char next then 4 else 0)
            end
          else (if is_char LF g then [bs_char; "n"%char]
                else if is_char CR g then [bs_char; "r"%char]
                else if is_char TAB g then [bs_char; "t"%char]
                else g) :: normalize_ref cs' 0
      end
  end.

Section normalize.
Context (raw : bytes).

(** The text built so far, whether or not it has been copied yet. *)
Definition emitted (pos : nat) (out : option bytes) : bytes := default (take pos raw) out.

Definition hit_ok (text : bytes) (first : option ControlByteHit) : Prop :=
  match first with
  | None => True
  | Some h =>
      is_ascii_control (hit_byte h) = true ∧
      text !! normalized_pos h = Some (hit_byte h) ∧
      raw !! raw_pos h = Some (hit_byte h) ∧
      (preceded_by_backslash h = true → raw_pos h ≠ 0 ∧ raw !! (raw_pos h - 1) = Some bs_char)
  end.

Lemma hit_ok_app text more first : hit_ok text first → hit_ok (text ++ more) first.
Proof.
  destruct first as [h|]; simpl; [|done]. intros (? & ? & ? & ?).
  split_and!; auto. by apply lookup_app_l_Some.
Qed.

(** [g] stands at byte [pos] of the span. *)
Definition char_at (pos : nat) (g : bytes) : Prop := take (length g) (drop pos raw) = g.

Lemma emitted_push pos g out :
  char_at pos g → emitted (pos + length g) (push_if out g) = emitted pos out ++ g.
Proof.
  intros Hg. destruct out as [o|]; simpl; [done|]. unfold emitted. simpl.
  rewrite <-Hg at 2. by rewrite take_take_drop.
Qed.

Lemma emitted_pair pos next ph out first :
  char_at pos next → pos ≠ 0 → raw !! (pos - 1) = Some bs_char →
  hit_ok (emitted pos out) first →
  let '(out', first') := norm_pair raw pos next ph out first in
  emitted (pos + length next) out' = emitted pos out ++ next ∧
  hit_ok (emitted pos out ++ next) first'.
Proof.
  intros Hn Hp Hb Hh. unfold norm_pair.
  destruct (is_control_char next) eqn:Hc; simpl.
  2:{ split; [by apply emitted_push|by apply hit_ok_app]. }
  destruct (negb ph && bool_decide (first = None)) eqn:Hd; simpl.
  - split; [by destruct out|]. change (default _ out) with (emitted pos out).
    destruct next as [|c [|]]; try done. simpl. split_and!; auto.
    + by apply list_lookup_middle.
    + unfold char_at in Hn. simpl in Hn. apply (f_equal head) in Hn.
      rewrite <-(Nat.add_0_r pos), <-lookup_drop. by destruct (drop pos raw).
  - split; [|by apply hit_ok_app]. destruct out as [o|]; simpl; [done|].
    done.
Qed.

Lemma emitted_hex_slot pos g st :
  char_at pos g →
  emitted (pos + length g) (ns_out (norm_hex_slot raw pos g st)) = emitted pos (ns_out st) ++ g.
Proof.
  intros Hg. simpl. rewrite (emitted_push pos g _ Hg). f_equal.
  destruct (ns_out st); simpl; [by rewrite andb_false_r|].
  by destruct (is_control_char g && _).
Qed.

Lemma head_char_at pos c g : char_at pos (c :: g) → raw !! pos = Some c.
Proof.
  unfold char_at. intros Hc. simpl in Hc. rewrite <-(Nat.add_0_r pos), <-lookup_drop.
  destruct (drop pos raw); simplify_eq/=. done.
Qed.

Definition plain_text (g : bytes) : bytes :=
  if is_char LF g then [bs_char; "n"%char]
  else if is_char CR g then [bs_char; "r"%char]
  else if is_char TAB g then [bs_char; "t"%char]
  else g.

Lemma emitted_plain pos g out first :
  char_at pos g → hit_ok (emitted pos out) first →
  let '(out', first') := norm_plain raw pos g out first in
  emitted (pos + length g) out' = emitted pos out ++ plain_text g ∧
  hit_ok (emitted pos out ++ plain_text g) first'.
Proof.
  intros Hg Hh. unfold norm_plain, plain_text.
  destruct (is_char LF g), (is_char CR g), (is_char TAB g); simpl;
    try (split; [done|by apply hit_ok_app]).
  destruct (is_control_char g) eqn:Hc.
  2:{ split; [by apply emitted_push|by apply hit_ok_app]. }
  split; [done|]. case_bool_decide as Hf; [|by apply hit_ok_app].
  destruct g as [|c [|]]; try done. simpl. split_and!; [done| | |done].
  - change (default _ out) with (emitted pos out). by apply list_lookup_middle.
  - by apply (head_char_at _ _ []).
Qed.

Lemma char_at_head pos g cs : drop pos raw = g ++ concat cs → char_at pos g.
Proof. unfold char_at. intros ->. by rewrite take_app_length. Qed.

Lemma drop_step pos g cs : drop pos raw = g ++ concat cs → drop (pos + length g) raw = concat cs.
Proof. intros H. rewrite <-drop_drop, H. by rewrite drop_app_length. Qed.

Lemma emitted_end pos out : drop pos raw = [] → default raw out = emitted pos out.
Proof.
  intros H. destruct out; [done|]. simpl. unfold emitted. simpl.
  rewrite <-(take_drop pos raw) at 1. by rewrite H, app_nil_r.
Qed.

Lemma normalize_loop_spec n cs pos st :
  length cs ≤ n → Forall (λ g, g ≠ []) cs → drop pos raw = concat cs →
  hit_ok (emitted pos (ns_out st)) (ns_first st) →
  let st' := normalize_loop raw pos cs st in
  default raw (ns_out st') =
    emitted pos (ns_out st) ++ concat (normalize_ref cs (ns_hex_slots st)) ∧
  hit_ok (default raw (ns_out st')) (ns_first st').
Proof.
  revert cs pos st. induction n as [|n IH]; intros [|g cs] pos st Hn Hne Hraw Hh;
    simpl in Hn; try lia; try (cbn; rewrite app_nil_r, (emitted_end pos _ Hraw); done).
  apply Forall_cons in Hne as [Hg Hne]. cbn [concat] in Hraw.
  pose proof (char_at_head _ _ _ Hraw) as Hat. apply drop_step in Hraw as Hraw'.
  cbn [normalize_loop normalize_ref].
  destruct (ns_hex_slots st) as [|slots] eqn:Hs;
    [change (0 <? 0) with false|change (0 <? S slots) with true]; cbv iota.
  2:{ destruct (IH cs (pos + length g) (norm_hex_slot raw pos g st)) as [H1 H2];
        [lia|done|done| |].
      - rewrite emitted_hex_slot by done. by apply hit_ok_app.
      - rewrite emitted_hex_slot in H1 by done. cbv zeta. split; [|done].
        rewrite H1, <-app_assoc. simpl. rewrite Hs. simpl. by rewrite Nat.sub_0_r. }
  destruct (is_char bs_char g) eqn:Hb.
  - apply bool_decide_eq_true in Hb as ->. destruct cs as [|next cs].
    { simpl. rewrite (emitted_end (pos + 1)) by done.
      rewrite (emitted_push pos [bs_char]) by done. rewrite ?app_nil_r.
      split; [done|by apply hit_ok_app]. }
    apply Forall_cons in Hne as [Hnext Hne]. cbn [concat] in Hraw'.
    pose proof (char_at_head _ _ _ Hraw') as Hat'. apply drop_step in Hraw' as Hraw''.
    pose proof (emitted_push pos [bs_char] (ns_out st) Hat) as Hout.
    change (length [bs_char]) with 1 in *. simpl in Hn.
    destruct (is_char "u" next) eqn:Hu.
    + edestruct (IH cs (pos + 1 + length next)) as [H1 H2];
        [lia|done|done| |cbv zeta; split; [|exact H2]].
      * cbn [ns_out ns_first]. rewrite emitted_push, Hout by done.
        by apply hit_ok_app, hit_ok_app.
      * rewrite H1. cbn [ns_out ns_hex_slots concat]. rewrite emitted_push, Hout by done.
        by rewrite <-!app_assoc.
    + pose proof (emitted_pair (pos + 1) next (ns_after_high st)
        (push_if (ns_out st) [bs_char]) (ns_first st) Hat') as Hp. rewrite Hout in Hp.
      destruct (norm_pair raw (pos + 1) next _ _ _) as [out' first'] eqn:Hpair.
      destruct Hp as [Hp1 Hp2]; [lia| |by apply hit_ok_app|].
      { rewrite Nat.add_sub. by apply (head_char_at _ _ []). }
      edestruct (IH cs (pos + 1 + length next)) as [H1 H2];
        [lia|done|done| |cbv zeta; split; [|exact H2]].
      * cbn [ns_out ns_first]. by rewrite Hp1.
      * rewrite H1. cbn [ns_out ns_hex_slots concat]. rewrite Hp1. by rewrite <-!app_assoc.
  - pose proof (emitted_plain pos g (ns_out st) (ns_first st) Hat Hh) as Hp.
    destruct (norm_plain raw pos g _ _) as [out' first'] eqn:Hplain.
    destruct Hp as [Hp1 Hp2].
    edestruct (IH cs (pos + length g)) as [H1 H2];
      [lia|done|done| |cbv zeta; split; [|exact H2]].
    + cbn [ns_out ns_first]. by rewrite Hp1.
    + rewrite H1. cbn [ns_out ns_hex_slots concat]. rewrite Hp1. by rewrite <-!app_assoc.
Qed.
End normalize.

(** The lazily copied text of [normalize_quoted_string] is the rewriting
    of raw newlines, carriage returns and tabs outside escapes, and the
    recorded control byte stands at both recorded offsets, after a backslash
    when the flag says so. *)
Theorem normalize_quoted_string_spec raw :
  norm_text (normalize_quoted_string raw) = concat (normalize_ref (chars raw) 0) ∧
  hit_ok raw (norm_text (normalize_quoted_string raw))
    (first_control_byte (normalize_quoted_string raw)).
Proof.
  destruct (normalize_loop_spec raw (length (chars raw)) (chars raw) 0 norm_init) as [H1 H2];
    [done|apply chars_nonempty|by rewrite concat_chars|done|].
  unfold normalize_quoted_string. cbn [norm_text first_control_byte]. split; [|done].
  by rewrite H1.
Qed.

Example normalize_newline :
  of_bytes (norm_text (normalize_quoted_string (dq_char :: "a"%char :: LF :: [dq_char]))) =
  dq +:+ "a" +:+ backslash +:+ "n" +:+ dq.
Proof. reflexivity. Qed.

(** ** The scan of a JSON text *)

Lemma scan_string_loop_bounds rest i j :
  scan_string_loop rest i = Some j → i < j ≤ i + length rest.
Proof.
  remember (length rest) as n eqn:Hn. revert rest i Hn.
  induction n as [n IH] using (well_founded_induction lt_wf). intros rest i ->.
  destruct rest as [|c rest]; simpl; [done|].
  destruct (eqb_byte c bs_char).
  - destruct rest as [|d rest]; [done|]. intros H.
    apply (IH (length rest)) in H; simpl; [lia|lia|done].
  - destruct (eqb_byte c dq_char); [intros [= <-]; lia|]. intros H.
    apply (IH (length rest)) in H; simpl; [lia|lia|done].
Qed.

Lemma scan_string_end_bounds src start j :
  scan_string_end src start = Ok j → start + 1 < j ≤ length src.
Proof.
  unfold scan_string_end. destruct (scan_string_loop _ _) as [k|] eqn:E; [|done].
  intros [= ->]. pose proof E as E'. apply scan_string_loop_bounds in E as [H1 H2].
  rewrite length_drop in H2. destruct (decide (start + 1 ≤ length src)); [lia|].
  rewrite drop_ge in E' by lia. done.
Qed.

(** [scan_string_end] fails with the start it was given, and no other way. *)
Lemma scan_string_end_Err src start e :
  scan_string_end src start = Err e → e = UnclosedString start.
Proof. unfold scan_string_end. destruct (scan_string_loop _ _); simpl; congruence. Qed.

Lemma nesting_scan_total fuel input rest i depth :
  rest = drop i input → length rest ≤ fuel → nesting_scan fuel input rest i depth ≠ OutOfFuel.
Proof.
  revert rest i depth. induction fuel as [|f IH]; intros rest i depth Hr Hf.
  { by destruct rest; simpl in *; [|lia]. }
  destruct rest as [|c rest]; [done|]. simpl in Hf.
  assert (Hnext : rest = drop (i + 1) input) by by rewrite <-drop_drop, <-Hr.
  cbn [nesting_scan]. destruct (eqb_byte c dq_char).
  - destruct (scan_string_end input i) as [j|] eqn:Hj; [|done].
    apply scan_string_end_bounds in Hj. apply IH; [done|].
    pose proof (f_equal length Hr) as Hl. simpl in Hl. rewrite !length_drop in *. lia.
  - repeat case_match; try done; apply IH; auto; lia.
Qed.

(** The scan returns a verdict on every input. *)
Lemma check_json_nesting_depth_total input : check_json_nesting_depth input ≠ OutOfFuel.
Proof. by apply nesting_scan_total. Qed.

(** The body of a string literal: escapes are pairs. *)
Inductive string_body : bytes → Prop :=
| body_nil : string_body []
| body_char c s : c ≠ dq_char → c ≠ bs_char → string_body s → string_body (c :: s)
| body_escape c s : string_body s → string_body (bs_char :: c :: s).

Definition is_bracket (c : ascii) : bool :=
  eqb_byte c "["%char || eqb_byte c "{"%char || eqb_byte c "]"%char || eqb_byte c "}"%char.

(** [json_text t d]: [t] is a JSON text up to the spelling of scalars and
    separators, and its containers nest [d] deep. *)
Inductive json_text : bytes → nat → Prop :=
| jt_plain t : Forall (λ c, c ≠ dq_char ∧ is_bracket c = false) t → json_text t 0
| jt_string s : string_body s → json_text (dq_char :: s ++ [dq_char]) 0
| jt_seq t1 d1 t2 d2 : json_text t1 d1 → json_text t2 d2 → json_text (t1 ++ t2) (d1 `max` d2)
| jt_array t d : json_text t d → json_text ("["%char :: t ++ ["]"%char]) (S d)
| jt_object t d : json_text t d → json_text ("{"%char :: t ++ ["}"%char]) (S d).

Lemma scan_string_body s rest i :
  string_body s → scan_string_loop (s ++ dq_char :: rest) i = Some (i + length s + 1).
Proof.
  intros Hs. revert i. induction Hs as [|c s Hdq Hbs Hs IH|c s Hs IH]; intros i.
  - simpl. f_equal. lia.
  - cbn [app scan_string_loop]. rewrite (proj2 (eqb_byte_false _ _) Hbs),
      (proj2 (eqb_byte_false _ _) Hdq), IH. simpl. f_equal. lia.
  - cbn [app scan_string_loop]. rewrite eqb_byte_refl, IH. simpl. f_equal. lia.
Qed.

Lemma scan_string_end_body pre s rest :
  string_body s →
  scan_string_end (pre ++ dq_char :: s ++ dq_char :: rest) (length pre) =
    Ok (length pre + length s + 2).
Proof.
  intros Hs. unfold scan_string_end.
  replace (drop (length pre + 1) _) with (s ++ dq_char :: rest).
  - rewrite (scan_string_body _ _ _ Hs). simpl. f_equal. lia.
  - rewrite <-drop_drop, drop_app_length. done.
Qed.

(** What the scan does with a text that starts at depth [k]. *)
Definition scan_step (pre t rest : bytes) (fuel k d : nat) : Prop :=
  let input := pre ++ t ++ rest in
  let now := nesting_scan fuel input (t ++ rest) (length pre) k in
  if decide (k + d ≤ NESTING_DEPTH_LIMIT)
  then ∃ fuel', length rest ≤ fuel' ∧
         now = nesting_scan fuel' input rest (length (pre ++ t)) k
  else ∃ pos, now = Fail (NestingTooDeep pos (S NESTING_DEPTH_LIMIT) NESTING_DEPTH_LIMIT).

Lemma scan_step_plain t :
  Forall (λ c, c ≠ dq_char ∧ is_bracket c = false) t →
  ∀ pre rest fuel k, length (t ++ rest) ≤ fuel → k ≤ NESTING_DEPTH_LIMIT →
  scan_step pre t rest fuel k 0.
Proof.
  intros Ht pre rest fuel k Hf Hk. unfold scan_step. rewrite decide_True by lia.
  revert pre fuel Hf. induction Ht as [|c t [Hdq Hbr] Ht IH]; intros pre fuel Hf.
  { exists fuel. by rewrite app_nil_r. }
  destruct fuel as [|fuel]; simpl in Hf; [lia|].
  destruct (IH (pre ++ [c]) fuel) as (f' & Hf' & IHe); [lia|].
  exists f'. split; [done|]. rewrite <-!app_assoc in IHe. simpl in IHe.
  cbn [app]. rewrite <-IHe, length_app. simpl length. cbn [app nesting_scan].
  unfold is_bracket in Hbr. rewrite !orb_false_iff in Hbr. destruct Hbr as [[[-> ->] ->] ->].
  by rewrite (proj2 (eqb_byte_false _ _) Hdq).
Qed.

Lemma scan_step_string s pre rest fuel k :
  string_body s → length ((dq_char :: s ++ [dq_char]) ++ rest) ≤ fuel →
  k ≤ NESTING_DEPTH_LIMIT → scan_step pre (dq_char :: s ++ [dq_char]) rest fuel k 0.
Proof.
  intros Hs Hf Hk. unfold scan_step. rewrite decide_True by lia.
  destruct fuel as [|fuel]; simpl in Hf; [lia|]. exists fuel. rewrite !length_app in Hf.
  split; [simpl in Hf; lia|].
  cbn [app nesting_scan]. rewrite eqb_byte_refl. rewrite <-app_assoc. cbn [app].
  rewrite (scan_string_end_body pre s rest Hs).
  replace (length (pre ++ dq_char :: s ++ [dq_char])) with (length pre + length s + 2)
    by (rewrite !length_app; simpl; rewrite length_app; simpl; lia).
  f_equal. replace (length pre + length s + 2) with (length pre + (1 + (length s + 1))) by lia.
  by rewrite <-!drop_drop, !drop_app_length, skipn_cons, drop_0, drop_app_length.
Qed.

Lemma nesting_scan_open o f input r i k :
  o = "["%char ∨ o = "{"%char → k ≤ NESTING_DEPTH_LIMIT →
  nesting_scan (S f) input (o :: r) i k =
    if decide (k = NESTING_DEPTH_LIMIT)
    then Fail (NestingTooDeep i (S NESTING_DEPTH_LIMIT) NESTING_DEPTH_LIMIT)
    else nesting_scan f input r (i + 1) (k + 1).
Proof.
  intros Ho Hk. cbn [nesting_scan].
  replace (eqb_byte o dq_char) with false by (destruct Ho as [->| ->]; done).
  replace (eqb_byte o "["%char || eqb_byte o "{"%char) with true
    by (destruct Ho as [->| ->]; done).
  destruct (Nat.ltb_spec NESTING_DEPTH_LIMIT (k + 1)); case_decide; try lia; [|done].
  by subst; rewrite Nat.add_1_r.
Qed.

Lemma nesting_scan_close c f input r i k :
  c = "]"%char ∨ c = "}"%char →
  nesting_scan (S f) input (c :: r) i (k + 1) = nesting_scan f input r (i + 1) k.
Proof.
  intros Hc. cbn [nesting_scan]. rewrite Nat.add_sub. by destruct Hc as [->| ->].
Qed.

Lemma scan_step_seq pre t1 d1 t2 d2 rest fuel k :
  k ≤ NESTING_DEPTH_LIMIT →
  scan_step pre t1 (t2 ++ rest) fuel k d1 →
  (∀ fuel', length (t2 ++ rest) ≤ fuel' → scan_step (pre ++ t1) t2 rest fuel' k d2) →
  scan_step pre (t1 ++ t2) rest fuel k (d1 `max` d2).
Proof.
  intros Hk H1 H2. unfold scan_step in *. rewrite <-!app_assoc in *.
  destruct (decide (k + d1 ≤ _)) as [Hd1|Hd1].
  - destruct H1 as (f1 & Hf1 & ->). specialize (H2 f1 Hf1).
    repeat setoid_rewrite <-app_assoc in H2.
    destruct (decide (k + d2 ≤ _)); [rewrite decide_True by lia|rewrite decide_False by lia];
      exact H2.
  - destruct H1 as (pos & ->). rewrite decide_False by lia. by exists pos.
Qed.

Lemma scan_step_bracket o c pre t d rest fuel k :
  (o = "["%char ∧ c = "]"%char) ∨ (o = "{"%char ∧ c = "}"%char) →
  k ≤ NESTING_DEPTH_LIMIT → length ((o :: t ++ [c]) ++ rest) ≤ fuel →
  (∀ fuel', length (t ++ c :: rest) ≤ fuel' → k + 1 ≤ NESTING_DEPTH_LIMIT →
    scan_step (pre ++ [o]) t (c :: rest) fuel' (k + 1) d) →
  scan_step pre (o :: t ++ [c]) rest fuel k (S d).
Proof.
  intros Hoc Hk Hf IH. unfold scan_step. cbn [app] in *. rewrite <-app_assoc in *. cbn [app] in *.
  destruct fuel as [|fuel]; simpl in Hf; [lia|].
  rewrite nesting_scan_open by naive_solver. case_decide as Hkd; case_decide as Hn; try lia.
  - specialize (IH fuel ltac:(lia) ltac:(lia)). unfold scan_step in IH.
    rewrite decide_True in IH by lia. rewrite <-app_assoc in IH. cbn [app] in IH.
    destruct IH as (f' & Hf' & IH). rewrite length_app in IH. cbn [length] in IH.
    rewrite IH. destruct f' as [|f']; simpl in Hf'; [lia|]. exists f'. split; [lia|].
    rewrite nesting_scan_close by naive_solver. f_equal.
    rewrite !length_app. simpl. rewrite length_app. simpl. lia.
  - by exists (length pre).
  - specialize (IH fuel ltac:(lia) ltac:(lia)). unfold scan_step in IH.
    rewrite decide_False in IH by lia. destruct IH as (pos & IH). exists pos.
    rewrite <-app_assoc in IH. cbn [app] in IH. by rewrite length_app in IH.
Qed.

Lemma json_text_scan t d :
  json_text t d → ∀ pre rest fuel k, length (t ++ rest) ≤ fuel → k ≤ NESTING_DEPTH_LIMIT →
  scan_step pre t rest fuel k d.
Proof.
  induction 1 as [t Ht|s Hs|t1 d1 t2 d2 H1 IH1 H2 IH2|t d Ht IH|t d Ht IH];
    intros pre rest fuel k Hf Hk.
  - by apply scan_step_plain.
  - by apply scan_step_string.
  - apply scan_step_seq; [done| |].
    + apply IH1; [|done]. by rewrite app_assoc.
    + intros f' Hf'. by apply IH2.
  - apply scan_step_bracket; auto.
  - apply scan_step_bracket; auto.
Qed.

(** The scan that guards the native recursion of the JSON parser accepts a
    JSON text exactly when its containers nest no deeper than the limit;
    brackets inside string literals do not count. *)
Theorem check_json_nesting_depth_spec t d :
  json_text t d →
  check_json_nesting_depth t = Done () ↔ d ≤ NESTING_DEPTH_LIMIT.
Proof.
  intros H. pose proof (json_text_scan t d H [] [] (length t) 0) as Hs.
  unfold scan_step in Hs. rewrite app_nil_r in Hs. simpl in Hs.
  specialize (Hs ltac:(done) ltac:(unfold NESTING_DEPTH_LIMIT; lia)).
  unfold check_json_nesting_depth. case_decide as Hd.
  - destruct Hs as (f' & _ & ->). by destruct f'.
  - destruct Hs as (pos & ->). done.
Qed.

Theorem check_json_nesting_depth_spec_witness :
  check_json_nesting_depth (to_bytes "[{},7]") = Done () ∧ 2 ≤ NESTING_DEPTH_LIMIT.
Proof.
  assert (2 ≤ NESTING_DEPTH_LIMIT) as Hle by (unfold NESTING_DEPTH_LIMIT; lia).
  split; [|exact Hle].
  refine (proj2 (check_json_nesting_depth_spec (to_bytes "[{},7]") 2 _) Hle).
  apply (jt_array (to_bytes "{},7") 1).
  apply (jt_seq (to_bytes "{}") 1 (to_bytes ",7") 0).
  - apply (jt_object [] 0), jt_plain. constructor.
  - apply jt_plain. repeat constructor; done.
Defined.

(** ** [$prev] in JSON values *)

(** The string leaves of a value. *)
Fixpoint value_strings (v : Value) : list string :=
  match v with
  | VString s => [s]
  | VArray l => concat (map value_strings l)
  | VObject m => concat (map (λ kv, value_strings kv.2) m)
  | _ => []
  end.

Lemma existsb_false {A} (f : A → bool) l : existsb f l = false ↔ Forall (λ x, f x = false) l.
Proof.
  induction l as [|x l IH]; simpl; [by split; [constructor|]|].
  by rewrite orb_false_iff, Forall_cons, IH.
Qed.

Lemma Forall_concat_map {A B} (P : B → Prop) (f : A → list B) l :
  Forall P (concat (map f l)) ↔ Forall (λ x, Forall P (f x)) l.
Proof.
  induction l as [|x l IH]; simpl; [split; constructor|].
  by rewrite Forall_app, Forall_cons, IH.
Qed.

Lemma contains_prev_ref_at v depth :
  json_value_contains_prev_ref_at v depth = false →
  Forall (λ s, is_prev_ref_string s = false) (value_strings v) ∧
  (depth + value_depth v ≤ S NESTING_DEPTH_LIMIT)%nat.
Proof.
  revert depth. induction v as [|b|n|s|l IH|m IH] using Value_ind'; intros depth;
    cbn [json_value_contains_prev_ref_at value_strings value_depth];
    destruct (Nat.ltb_spec NESTING_DEPTH_LIMIT depth); try done;
    try (intros; split; [by repeat constructor|lia]).
  - rewrite existsb_false. intros Hl. rewrite Forall_concat_map. split.
    + eapply Forall_impl; [apply (proj2 (Forall_and _ _) (conj IH Hl))|].
      intros v [Hv1 Hv2]. by eapply Hv1.
    + destruct l as [|x l]; [simpl; lia|]. cut (max_list_with value_depth (x :: l) ≤ NESTING_DEPTH_LIMIT - depth); [lia|].
      apply max_list_with_le. eapply Forall_impl; [apply (proj2 (Forall_and _ _) (conj IH Hl))|].
      intros v [Hv1 Hv2]. apply Hv1 in Hv2. lia.
  - rewrite existsb_false. intros Hl. rewrite Forall_concat_map. split.
    + eapply Forall_impl; [apply (proj2 (Forall_and _ _) (conj IH Hl))|].
      intros v [Hv1 Hv2]. by eapply Hv1.
    + destruct m as [|x l]; [simpl; lia|].
      cut (max_list_with (λ kv, value_depth kv.2) (x :: l) ≤ NESTING_DEPTH_LIMIT - depth); [lia|].
      apply max_list_with_le. eapply Forall_impl; [apply (proj2 (Forall_and _ _) (conj IH Hl))|].
      intros v [Hv1 Hv2]. apply Hv1 in Hv2. lia.
Qed.

Lemma contains_prev_ref_complete v depth :
  Forall (λ s, is_prev_ref_string s = false) (value_strings v) →
  (depth + value_depth v ≤ NESTING_DEPTH_LIMIT)%nat →
  json_value_contains_prev_ref_at v depth = false.
Proof.
  revert depth. induction v as [|b|n|s|l IH|m IH] using Value_ind'; intros depth;
    cbn [json_value_contains_prev_ref_at value_strings value_depth];
    intros Hs Hd; destruct (Nat.ltb_spec NESTING_DEPTH_LIMIT depth); try lia; try done.
  - exact (Forall_inv Hs).
  - apply existsb_false. rewrite Forall_concat_map in Hs.
    assert (Hm : max_list_with value_depth l ≤ NESTING_DEPTH_LIMIT - (depth + 1)) by lia.
    rewrite max_list_with_le in Hm.
    eapply Forall_impl; [apply (proj2 (Forall_and _ _) (conj IH (proj2 (Forall_and _ _) (conj Hs Hm))))|].
    intros v (Hv & ? & ?). apply Hv; [done|lia].
  - apply existsb_false. rewrite Forall_concat_map in Hs.
    assert (Hm : max_list_with (λ kv, value_depth kv.2) m ≤ NESTING_DEPTH_LIMIT - (depth + 1)) by lia.
    rewrite max_list_with_le in Hm.
    eapply Forall_impl; [apply (proj2 (Forall_and _ _) (conj IH (proj2 (Forall_and _ _) (conj Hs Hm))))|].
    intros [k v] (Hv & ? & ?). apply Hv; [done|simpl in *; lia].
Qed.

(** A value the detector clears holds no [$prev] string anywhere, and on
    values within the nesting limit it clears every such value. *)
Theorem json_value_contains_prev_ref_spec v :
  (json_value_contains_prev_ref v = false →
     Forall (λ s, is_prev_ref_string s = false) (value_strings v)) ∧
  (value_depth v ≤ NESTING_DEPTH_LIMIT →
     Forall (λ s, is_prev_ref_string s = false) (value_strings v) →
     json_value_contains_prev_ref v = false).
Proof.
  split; intros H; [by eapply contains_prev_ref_at|].
  intros Hs. by apply contains_prev_ref_complete.
Qed.

Theorem json_value_contains_prev_ref_spec_witness :
  json_value_contains_prev_ref (VArray [VString "$prevx"; VNull]) = false.
Proof.
  apply (proj2 (json_value_contains_prev_ref_spec (VArray [VString "$prevx"; VNull]))).
  - vm_compute. lia.
  - repeat constructor.
Defined.
