(* ===== verification/Parser.v ===== *)
(** khive-request/src/parser/parser_impl.rs: the recursive-descent parser of
    the function-call form. A parser method is a function from the cursor to a
    result and the moved cursor; on an error the cursor is dropped, since no
    caller resumes after one. *)

From Stdlib Require Import String Ascii ZArith.
From stdpp Require Import base tactics list strings gmap pretty.
From S2P Require Import Prelude RustStr Json RequestTypes Scan.

(** [Parser<'a>] *)
Record Parser : Type := mkParser { src : bytes; pos : nat; depth : nat }.

Definition PM (A : Type) : Type := Parser → outcome (A * Parser) DslError.

#[export] Instance PM_ret : MRet PM := λ A a p, Done (a, p).
#[export] Instance PM_bind : MBind PM := λ A B k m p,
  match m p with
  | Done (a, p') => k a p'
  | Fail e => Fail e
  | OutOfFuel => OutOfFuel
  end.

Definition fail {A} (e : DslError) : PM A := λ _, Fail e.
Definition out_of_fuel {A} : PM A := λ _, OutOfFuel.
Definition gets {A} (f : Parser → A) : PM A := λ p, Done (f p, p).
Definition set_pos (n : nat) : PM unit := λ p, Done ((), mkParser (src p) n (depth p)).
Definition lift {A} (m : result A DslError) : PM A := λ p,
  match m with Ok a => Done (a, p) | Err e => Fail e end.

Definition new (s : bytes) : Parser := mkParser s 0 0.

(** The bytes not yet consumed. *)
Definition rest (p : Parser) : bytes := drop (pos p) (src p).

Definition slice (s : bytes) (start stop : nat) : bytes := take (stop - start) (drop start s).

(** ** The cursor *)

Definition enter_container : PM unit := λ p,
  let d := depth p + 1 in
  if NESTING_DEPTH_LIMIT <? d then Fail (NestingTooDeep (pos p) d NESTING_DEPTH_LIMIT)
  else Done ((), mkParser (src p) (pos p) d).

(** [self.depth -= 1] *)
Definition leave_container : PM unit := λ p, Done ((), mkParser (src p) (pos p) (depth p - 1)).

Definition eof (p : Parser) : bool := length (src p) <=? pos p.

Definition peek (p : Parser) : option ascii := src p !! pos p.

Definition peek_is (c : ascii) (p : Parser) : bool :=
  match peek p with Some d => eqb_byte d c | None => false end.

Definition advance (n : nat) : PM unit := λ p,
  Done ((), mkParser (src p) ((pos p + n) `min` length (src p)) (depth p)).

Fixpoint count_while (f : ascii → bool) (l : bytes) : nat :=
  match l with
  | c :: l' => if f c then S (count_while f l') else 0
  | [] => 0
  end.

(** [while let Some(c) = self.peek() { if f(c) { self.advance(1) } else { break } }] *)
Definition advance_while (f : ascii → bool) : PM unit := λ p,
  Done ((), mkParser (src p) (pos p + count_while f (rest p)) (depth p)).

Definition skip_ws : PM unit := advance_while is_ascii_whitespace.

Definition expect_char (want : ascii) : PM unit :=
  skip_ws;;
  c ← gets peek; here ← gets pos;
  match c with
  | Some c => if eqb_byte c want then advance 1
              else fail (UnexpectedChar here (byte c) (char_label want))
  | None => fail (UnexpectedEof (char_label want))
  end.

Definition is_ident_start (c : ascii) : bool := is_ascii_alphabetic c || eqb_byte c "_"%char.
Definition is_ident_char (c : ascii) : bool := is_ascii_alphanumeric c || eqb_byte c "_"%char.

Definition parse_identifier : PM string :=
  skip_ws;;
  start ← gets pos; c ← gets peek;
  if match c with Some c => is_ident_start c | None => false end then
    advance_while is_ident_char;;
    stop ← gets pos; s ← gets src;
    mret (of_bytes (slice s start stop))
  else fail (InvalidIdentifier start).

(** ** [$prev] references *)

(** [self.parse_identifier().map_err(|_| e)] *)
Definition map_err {A} (m : PM A) (e : DslError) : PM A := λ p,
  match m p with Fail _ => Fail e | r => r end.

Definition path_push (path seg : string) : string :=
  (if is_empty path then path else path +:+ ".") +:+ seg.

(** The [loop] over [.field] and [[digits]] suffixes. *)
Fixpoint prev_path_loop (fuel : nat) (path : string) : PM string :=
  match fuel with
  | 0 => out_of_fuel
  | S f =>
      c ← gets peek;
      match c with
      | Some "."%char =>
          advance 1;;
          segment ← parse_identifier;
          prev_path_loop f (path_push path segment)
      | Some "["%char =>
          advance 1;;
          idx_start ← gets pos;
          advance_while is_ascii_digit;;
          idx_end ← gets pos; s ← gets src;
          let idx_str := of_bytes (slice s idx_start idx_end) in
          if is_empty idx_str
          then fail (InvalidValue idx_start "expected non-negative integer inside '[...]'")
          else
            c ← gets peek; here ← gets pos;
            match c with
            | Some "]"%char =>
                advance 1;;
                prev_path_loop f (path_push path ("[" +:+ idx_str +:+ "]"))
            | Some c => fail (UnexpectedChar here (byte c) "']'")
            | None => fail (UnexpectedEof "']'")
            end
      | _ => mret path
      end
  end.

Definition parse_prev_ref : PM ArgValue :=
  start ← gets pos;
  advance 1;;
  ident ← map_err parse_identifier
            (InvalidValue start "expected '$prev' — '$' must be followed by 'prev'");
  if String.eqb ident "prev" then
    r ← gets rest;
    path ← prev_path_loop (S (length r)) "";
    mret (APrevRef path)
  else fail (InvalidValue start ("expected '$prev', found '$" +:+ ident +:+ "'")).

(** Validates the brackets of a quoted reference. *)
Fixpoint quoted_path_loop (fuel : nat) (l : bytes) : option bool :=
  match l, fuel with
  | [], _ => Some true
  | _, 0 => None
  | "["%char :: l', S f =>
      let n := count_while is_ascii_digit l' in
      match drop n l' with
      | "]"%char :: l'' => if n =? 0 then Some false else quoted_path_loop f l''
      | _ => Some false
      end
  | "]"%char :: _, S _ => Some false
  | _ :: l', S f => quoted_path_loop f l'
  end.

Definition quoted_prev_path_is_valid (path : bytes) : bool :=
  default false (quoted_path_loop (length path) path).

Definition string_as_prev_ref (s : string) : option ArgValue :=
  let l := to_bytes s in
  let escaped := match strip_prefix [bs_char] l with
                 | Some r => if is_prev_ref_string (of_bytes r)
                             then Some (AValue (VString (of_bytes r))) else None
                 | None => None
                 end in
  match escaped with
  | Some a => Some a
  | None =>
      if String.eqb s "$prev" then Some (APrevRef "")
      else match strip_prefix (to_bytes "$prev.") l with
      | Some r =>
          if negb (bool_decide (r = [])) && quoted_prev_path_is_valid r
          then Some (APrevRef (of_bytes r)) else None
      | None =>
          match strip_prefix (to_bytes "$prev[") l with
          | Some after_bracket =>
              match find_byte (eqb_byte "]"%char) after_bracket with
              | Some close =>
                  let index_str := take close after_bracket in
                  if negb (bool_decide (index_str = [])) && forallb is_ascii_digit index_str then
                    let tail := drop (close + 1) after_bracket in
                    if quoted_prev_path_is_valid tail
                    then Some (APrevRef (of_bytes ("["%char :: index_str ++ "]"%char :: tail)))
                    else None
                  else None
              | None => None
              end
          | None => None
          end
      end
  end.

(** ** The end of a scalar value *)

(** The [while i < self.src.len()] loop; [l] is the source from byte [i]. *)
Fixpoint scan_value_loop (fuel : nat) (s l : bytes) (i : nat) (paren brack brace : nat)
    : outcome nat DslError :=
  match l, fuel with
  | [], _ =>
      if 0 <? brack then Fail (UnclosedBracket (byte "["%char))
      else if 0 <? brace then Fail (UnclosedBracket (byte "{"%char))
      else Done i
  | _, 0 => OutOfFuel
  | c :: l', S f =>
      let continue := scan_value_loop f s l' (i + 1) in
      if eqb_byte c dq_char then
        match scan_string_end s i with
        | Ok j => scan_value_loop f s (drop j s) j paren brack brace
        | Err e => Fail e
        end
      else if eqb_byte c "["%char then continue paren (brack + 1) brace
      else if eqb_byte c "]"%char then
        if brack =? 0 then Done i else continue paren (brack - 1) brace
      else if eqb_byte c "{"%char then continue paren brack (brace + 1)
      else if eqb_byte c "}"%char then
        if brace =? 0 then
          if (paren =? 0) && (brack =? 0) then Done i
          else Fail (UnclosedBracket (byte "{"%char))
        else continue paren brack (brace - 1)
      else if eqb_byte c "("%char then continue (paren + 1) brack brace
      else if eqb_byte c ")"%char then
        if (paren =? 0) && (brack =? 0) && (brace =? 0) then Done i
        else if paren =? 0 then Fail (UnclosedBracket (byte "("%char))
        else continue (paren - 1) brack brace
      else if eqb_byte c ","%char && (paren =? 0) && (brack =? 0) && (brace =? 0) then Done i
      else continue paren brack brace
  end.

Definition scan_value_end : PM nat := λ p,
  match scan_value_loop (length (rest p)) (src p) (rest p) (pos p) 0 0 0 with
  | Done i => Done (i, p)
  | Fail e => Fail e
  | OutOfFuel => OutOfFuel
  end.

(** ** Error texts *)

(** The text before the first occurrence of [pat]. *)
Fixpoint before_pat (pat l : bytes) : bytes :=
  match strip_prefix pat l with
  | Some _ => []
  | None => match l with
            | [] => []
            | c :: l' => c :: before_pat pat l'
            end
  end.

Definition strip_serde_position (msg : string) : string :=
  of_bytes (before_pat (to_bytes " at line ") (to_bytes msg)).

(** The index of the [n]-th newline, counting from 1. *)
Fixpoint nth_newline (n : nat) (l : bytes) (i seen : nat) : option nat :=
  match l with
  | [] => None
  | b :: l' =>
      if eqb_byte b LF
      then if S seen =? n then Some i else nth_newline n l' (S i) (S seen)
      else nth_newline n l' (S i) seen
  end.

Definition serde_error_byte_offset (e : serde_error) (text : bytes) : option nat :=
  if se_line e <=? 1
  then match se_column e with 0 => None | S c => Some c end
  else i ← nth_newline (se_line e - 1) text 0 0; Some (i + se_column e).

Definition is_bareword_identifier (s : bytes) : bool :=
  match s with
  | c :: s' => is_ident_start c && forallb is_ident_char s'
  | [] => false
  end.

Section with_externals.
Context `{Externals}.

Definition bareword_hint_message (bareword : string) (hint : option string) : string :=
  str_debug bareword +:+ " is a bareword, not a valid value; string values must be "
  +:+ "double-quoted — did you mean "
  +:+ match hint with Some name => name +:+ "=" | None => "" end
  +:+ str_debug bareword +:+ "?".

Definition describe_quoted_string_parse_error (e : serde_error)
    (normalized : NormalizedQuotedString) : string :=
  let base := strip_serde_position (se_display e) in
  match serde_error_byte_offset e (norm_text normalized) with
  | None => base
  | Some offset =>
      match first_control_byte normalized with
      | None => base
      | Some hit =>
          if negb (normalized_pos hit =? offset) then base
          else if negb (preceded_by_backslash hit)
                  && negb (str_starts_with "control character" base) then base
          else
            let idx := raw_pos hit - 1 in
            let c := byte (hit_byte hit) in
            base +:+ " — byte " +:+ fmt_nat idx +:+ " of the value is " +:+ char_debug c
            +:+ " (U+" +:+ fmt_04X c +:+ "). DSL string escapes follow JSON: \n, \t, \"
            +:+ dq +:+ ", \\ (raw newline/CR/tab are also accepted literally; other "
            +:+ "control bytes must be escaped)."
      end
  end.

Definition decode_quoted_json_string (raw : bytes) (here : nat) : result string DslError :=
  let normalized := normalize_quoted_string raw in
  match from_str_string (of_bytes (norm_text normalized)) with
  | Ok s => Ok s
  | Err e => Err (InvalidValue here (describe_quoted_string_parse_error e normalized))
  end.

Definition decode_quoted_json_key (raw : bytes) (here : nat) : result string DslError :=
  match from_str_string (of_bytes raw) with
  | Ok s => Ok s
  | Err e => Err (InvalidValue here (strip_serde_position (se_display e)))
  end.

(** ** Values *)

(** The value a trimmed slice denotes. *)
Definition decode_value (trimmed : bytes) (hint : option string) (start : nat)
    : result Value DslError :=
  if starts_with_byte dq_char trimmed then
    let? s := decode_quoted_json_string trimmed start in Ok (VString s)
  else
    match from_str (of_bytes trimmed) with
    | Ok v => Ok v
    | Err e =>
        Err (InvalidValue start
               (if is_bareword_identifier trimmed
                then bareword_hint_message (of_bytes trimmed) hint
                else strip_serde_position (se_display e)))
    end.

Definition parse_value (hint : option string) : PM Value :=
  skip_ws;;
  start ← gets pos;
  end_ ← scan_value_end;
  s ← gets src;
  value ← lift (decode_value (trim (slice s start end_)) hint start);
  set_pos end_;;
  mret value.

(** [self.depth -= 1] runs after the body, on success and on failure; the
    cursor of a failure is dropped. *)
Definition in_container {A} (body : PM A) : PM A :=
  enter_container;; r ← body; leave_container;; mret r.

(** Arrays and objects without references fold to a JSON value. *)
Definition all_values (l : list ArgValue) : option (list Value) := mapM as_value l.

Definition fold_array (elements : list ArgValue) : ArgValue :=
  match all_values elements with
  | Some vals => AValue (VArray vals)
  | None => AArray elements
  end.

Definition fold_object (pairs : list (string * ArgValue)) : ArgValue :=
  match all_values pairs.*2 with
  | Some vals => AValue (VObject (bm_of_list (zip pairs.*1 vals)))
  | None => AObject pairs
  end.

Definition parse_key : PM string :=
  c ← gets peek; start ← gets pos; s ← gets src;
  match c with
  | Some c =>
      if eqb_byte c dq_char then
        end_ ← lift (scan_string_end s start);
        key ← lift (decode_quoted_json_key (slice s start end_) start);
        set_pos end_;;
        mret key
      else fail (UnexpectedChar start (byte c) "quoted string key")
  | None => fail (UnexpectedEof "object key")
  end.

Definition parse_scalar_arg (hint : option string) : PM ArgValue :=
  v ← parse_value hint;
  mret (match v with
        | VString s => default (AValue v) (string_as_prev_ref s)
        | _ => AValue v
        end).

(** After an element: a comma continues the loop, [close] ends it. *)
Definition separator (close : ascii) (expected eof_expected : string) : PM bool :=
  skip_ws;;
  c ← gets peek; here ← gets pos;
  match c with
  | Some c =>
      if eqb_byte c ","%char then advance 1;; mret true
      else if eqb_byte c close then advance 1;; mret false
      else fail (UnexpectedChar here (byte c) expected)
  | None => fail (UnexpectedEof eof_expected)
  end.

Fixpoint arg_value_loop (fuel : nat) (hint : option string) : PM ArgValue :=
  match fuel with
  | 0 => out_of_fuel
  | S f =>
      skip_ws;;
      c ← gets peek;
      match c with
      | Some "$"%char => parse_prev_ref
      | Some "["%char =>
          in_container (
            advance 1;; skip_ws;;
            done ← gets (peek_is "]"%char);
            if done : bool then advance 1;; mret (AValue (VArray []))
            else elements ← array_loop f []; mret (fold_array elements))
      | Some "{"%char =>
          in_container (
            advance 1;; skip_ws;;
            done ← gets (peek_is "}"%char);
            if done : bool then advance 1;; mret (AValue (VObject []))
            else pairs ← object_loop f []; mret (fold_object pairs))
      | _ => parse_scalar_arg hint
      end
  end
with array_loop (fuel : nat) (elements : list ArgValue) : PM (list ArgValue) :=
  match fuel with
  | 0 => out_of_fuel
  | S f =>
      skip_ws;;
      elem ← arg_value_loop f None;
      more ← separator "]"%char "',' or ']'" "']'";
      if more : bool then array_loop f (elements ++ [elem])
      else mret (elements ++ [elem])
  end
with object_loop (fuel : nat) (pairs : list (string * ArgValue))
    : PM (list (string * ArgValue)) :=
  match fuel with
  | 0 => out_of_fuel
  | S f =>
      skip_ws;;
      key ← parse_key;
      skip_ws;;
      expect_char ":"%char;;
      skip_ws;;
      val ← arg_value_loop f (Some key);
      more ← separator "}"%char "',' or '}'" "'}'";
      if more : bool then object_loop f (pairs ++ [(key, val)])
      else mret (pairs ++ [(key, val)])
  end.

Definition parse_arg_value_with_hint (hint : option string) : PM ArgValue :=
  r ← gets rest; arg_value_loop (2 * length r + 1) hint.

(** ** Operations *)

(** The argument loop of [parse_op]. *)
Fixpoint args_loop (fuel : nat) (tool : string) (call_start : nat)
    (args : list (string * ArgValue)) : PM ParsedOp :=
  match fuel with
  | 0 => out_of_fuel
  | S f =>
      name ← parse_identifier;
      expect_char "="%char;;
      skip_ws;;
      arg_val ← parse_arg_value_with_hint (Some name);
      if bm_contains name args then fail (DuplicateArg name)
      else
        let args' := bm_insert name arg_val args in
        skip_ws;;
        c ← gets peek; here ← gets pos;
        match c with
        | Some c =>
            if eqb_byte c ","%char then
              advance 1;; skip_ws;; args_loop f tool call_start args'
            else if eqb_byte c ")"%char then advance 1;; mret (mkOp tool args')
            else fail (UnexpectedChar here (byte c) "',' or ')'")
        | None => fail (UnclosedCall call_start)
        end
  end.

(** [verb] or [pack.verb]. *)
Definition parse_tool : PM string :=
  tool ← parse_identifier;
  dot ← gets (peek_is "."%char);
  if dot : bool then
    advance 1;;
    sub ← parse_identifier;
    dot2 ← gets (peek_is "."%char); here ← gets pos;
    if dot2 : bool then fail (UnsupportedVerbNesting here)
    else mret (tool +:+ "." +:+ sub)
  else mret tool.

Definition parse_op : PM ParsedOp :=
  tool ← parse_tool;
  skip_ws;;
  call_start ← gets pos;
  expect_char "("%char;;
  skip_ws;;
  done ← gets (peek_is ")"%char); at_end ← gets eof;
  if done : bool then advance 1;; mret (mkOp tool [])
  else if at_end : bool then fail (UnclosedCall call_start)
  else r ← gets rest; args_loop (S (length r)) tool call_start [].
End with_externals.
