(* ===== verification/ParserFacts.v ===== *)
(** What a run of the parser guarantees: it ends with the fuel it is given, the
    cursor only moves forward and stays inside the source, the container depth
    is restored, and the argument it returns nests no deeper than the limit. *)

From Stdlib Require Import String Ascii ZArith.
From stdpp Require Import base tactics list strings gmap pretty.
From S2P Require Import Prelude RustStr Json RequestTypes Scan Parser.

(** ** Weakest preconditions of parser methods *)

(** [wp m Q p]: from [p] the method ends, and if it succeeds [Q] holds of its
    result and of the cursor it leaves. *)
Definition wp {A} (m : PM A) (Q : A → Parser → Prop) (p : Parser) : Prop :=
  match m p with
  | Done (a, p') => Q a p'
  | Fail _ => True
  | OutOfFuel => False
  end.

Section wp_rules.
Context {A B : Type}.

Lemma wp_bind (m : PM A) (k : A → PM B) Q p :
  wp m (λ a p', wp (k a) Q p') p → wp (m ≫= k) Q p.
Proof. unfold wp, mbind, PM_bind. by destruct (m p) as [[a p']| |]. Qed.

Lemma wp_mono (m : PM A) Q R p :
  wp m Q p → (∀ a p', Q a p' → R a p') → wp m R p.
Proof. unfold wp. destruct (m p) as [[a p']| |]; auto. Qed.

Lemma wp_ret (a : A) Q p : Q a p → wp (mret a) Q p.
Proof. done. Qed.

Lemma wp_fail e (Q : A → Parser → Prop) p : wp (fail e) Q p.
Proof. done. Qed.

Lemma wp_gets (f : Parser → A) Q p : Q (f p) p → wp (gets f) Q p.
Proof. done. Qed.

Lemma wp_lift (m : result A DslError) Q p : (∀ a, m = Ok a → Q a p) → wp (lift m) Q p.
Proof. unfold wp, lift. destruct m; auto. Qed.

Lemma wp_map_err (m : PM A) e Q p : wp m Q p → wp (map_err m e) Q p.
Proof. unfold wp, map_err. by destruct (m p) as [[a p']| |]. Qed.

(** A run that succeeds satisfies its postcondition. *)
Lemma wp_Done (m : PM A) Q p a p' : wp m Q p → m p = Done (a, p') → Q a p'.
Proof. unfold wp. intros H E. by rewrite E in H. Qed.

Lemma wp_total (m : PM A) Q p : wp m Q p → m p ≠ OutOfFuel.
Proof. unfold wp. by destruct (m p). Qed.
End wp_rules.

(** The cursor lies inside the source. *)
Definition cursor_wf (p : Parser) : Prop := pos p ≤ length (src p).

(** [p'] is a later cursor over the same source at the same depth. *)
Definition moves (p p' : Parser) : Prop :=
  src p' = src p ∧ pos p ≤ pos p' ≤ length (src p) ∧ depth p' = depth p.

Definition remaining (p : Parser) : nat := length (src p) - pos p.

Lemma rest_length p : length (rest p) = remaining p.
Proof. unfold rest. by rewrite length_drop. Qed.

#[export] Instance moves_Transitive : Transitive moves.
Proof. intros p q r (? & ? & ?) (E & ? & ?). unfold moves. rewrite E in *. intuition (auto; lia || congruence). Qed.

Lemma moves_refl p : cursor_wf p → moves p p.
Proof. unfold moves, cursor_wf. auto. Qed.

Lemma moves_wf p p' : moves p p' → cursor_wf p'.
Proof. unfold moves, cursor_wf. intros (-> & ? & _). lia. Qed.

Lemma moves_remaining p p' : moves p p' → remaining p' ≤ remaining p.
Proof. unfold moves, remaining. intros (-> & ? & _). lia. Qed.

#[export] Hint Resolve moves_refl moves_wf : khive.

(** Chain the moves in the context. *)
Ltac solve_moves :=
  match goal with
  | H : moves ?p ?q |- moves ?p ?q => exact H
  | H : moves ?p ?q |- moves ?p _ => etransitivity; [exact H|]; solve_moves
  end.

(** ** The cursor operations *)

Lemma count_while_le f l : count_while f l ≤ length l.
Proof. induction l as [|c l IH]; simpl; [done|]. destruct (f c); lia. Qed.

Lemma count_while_stop f l c : l !! count_while f l = Some c → f c = false.
Proof.
  induction l as [|d l IH]; simpl; [done|].
  destruct (f d) eqn:E; simpl; [auto|]. by intros [= <-].
Qed.

Lemma wp_advance_while f p (Q : unit → Parser → Prop) :
  cursor_wf p →
  (∀ p', moves p p' → (∀ c, peek p' = Some c → f c = false) →
    p' = mkParser (src p) (pos p + count_while f (rest p)) (depth p) → Q () p') →
  wp (advance_while f) Q p.
Proof.
  intros Hp HQ. unfold wp, advance_while. apply HQ; [| |done].
  - unfold moves. simpl. pose proof (count_while_le f (rest p)) as H.
    rewrite rest_length in H. unfold remaining, cursor_wf in *. split_and!; auto; lia.
  - unfold peek. simpl. intros c Hc. apply (count_while_stop f (rest p)).
    unfold rest. by rewrite lookup_drop.
Qed.

Lemma wp_skip_ws p (Q : unit → Parser → Prop) :
  cursor_wf p →
  (∀ p', moves p p' → (∀ c, peek p' = Some c → is_ascii_whitespace c = false) → Q () p') →
  wp skip_ws Q p.
Proof. intros Hp HQ. apply wp_advance_while; auto. Qed.

(** Consuming the byte under the cursor. *)
Lemma wp_advance_1 p c (Q : unit → Parser → Prop) :
  peek p = Some c →
  (∀ p', moves p p' → pos p' = S (pos p) → Q () p') → wp (advance 1) Q p.
Proof.
  unfold peek. intros Hc HQ. apply lookup_lt_Some in Hc. unfold wp, advance.
  apply HQ; unfold moves; simpl; rewrite Nat.min_l by lia; auto with lia.
Qed.

Lemma peek_is_Some c p : peek_is c p = true → peek p = Some c.
Proof. unfold peek_is. destruct (peek p); [|done]. by intros ->%eqb_byte_true. Qed.

Ltac wp_auto :=
  repeat match goal with
  | |- wp (mbind _ _) _ _ => apply wp_bind
  | |- wp (mret _) _ _ => apply wp_ret
  | |- wp (gets _) _ _ => apply wp_gets
  | |- wp (fail _) _ _ => apply wp_fail
  end.

Lemma wp_expect_char want p (Q : unit → Parser → Prop) :
  cursor_wf p →
  (∀ p', moves p p' → pos p < pos p' → Q () p') → wp (expect_char want) Q p.
Proof.
  intros Hp HQ. unfold expect_char. wp_auto. apply wp_skip_ws; [done|]. intros p1 M1 _. wp_auto.
  destruct (peek p1) as [c|] eqn:Hc; [|apply wp_fail].
  destruct (eqb_byte c want); [|apply wp_fail].
  apply (wp_advance_1 p1 c); [done|]. intros p2 M2 E2.
  destruct M1 as (?&?&?). apply HQ; [|lia]. etransitivity; [|exact M2]. done.
Qed.

Lemma ident_start_char c : is_ident_start c = true → is_ident_char c = true.
Proof.
  unfold is_ident_start, is_ident_char, is_ascii_alphanumeric.
  destruct (is_ascii_alphabetic c); simpl; [done|]. intros ->. by rewrite orb_true_r.
Qed.

(** An identifier of the DSL. *)
Definition is_identifier (s : string) : Prop :=
  s ≠ "" ∧ Forall (λ c, is_ident_char c = true) (to_bytes s).

Lemma take_count_while f l : Forall (λ c, f c = true) (take (count_while f l) l).
Proof.
  induction l as [|c l IH]; simpl; [constructor|].
  destruct (f c) eqn:E; simpl; [by constructor|constructor].
Qed.

Lemma slice_take p n : slice (src p) (pos p) (pos p + n) = take n (rest p).
Proof. unfold slice, rest. by rewrite Nat.add_comm, Nat.add_sub. Qed.

Lemma wp_parse_identifier p (Q : string → Parser → Prop) :
  cursor_wf p →
  (∀ s p', moves p p' → pos p < pos p' → is_identifier s → Q s p') →
  wp parse_identifier Q p.
Proof.
  intros Hp HQ. unfold parse_identifier. wp_auto.
  apply wp_skip_ws; [done|]. intros p1 M1 _. wp_auto.
  destruct (peek p1) as [c|] eqn:Hc; [|apply wp_fail].
  destruct (is_ident_start c) eqn:Hs; [|apply wp_fail]. wp_auto.
  apply wp_advance_while; [eauto with khive|]. intros p2 M2 _ E2. wp_auto.
  assert (1 ≤ count_while is_ident_char (rest p1)) as Hn.
  { unfold peek in Hc. unfold rest. rewrite <-(Nat.add_0_r (pos p1)), <-lookup_drop in Hc.
    destruct (drop (pos p1) (src p1)); simplify_eq/=. rewrite ident_start_char by done. lia. }
  assert (src p2 = src p1) as -> by by destruct M2.
  assert (pos p2 = pos p1 + count_while is_ident_char (rest p1)) as Hpos by by subst p2.
  destruct M1 as (?&?&?) eqn:EM.
  apply HQ; [solve_moves|lia|]. rewrite Hpos, slice_take.
  pose proof (count_while_le is_ident_char (rest p1)) as Hle.
  split; [|by rewrite to_of_bytes; apply take_count_while].
  intros Hnil. apply (f_equal to_bytes), (f_equal length) in Hnil.
  rewrite to_of_bytes, length_take in Hnil. simpl in Hnil. lia.
Qed.

(** ** [$prev] references *)

(** A part of a bare reference: a field name or a run of digits. *)
Definition part_ok (q : path_part) : Prop :=
  match q with
  | PartField key => is_identifier key
  | PartIndex digits => digits ≠ "" ∧ Forall (λ c, is_ascii_digit c = true) (to_bytes digits)
  end.

(** The paths [parse_prev_ref] can build. *)
Definition ref_path (path : string) : Prop :=
  ∃ ps, Forall part_ok ps ∧ path = of_bytes (join_parts ps).

Lemma part_ok_nonempty q : part_ok q → part_text q ≠ [].
Proof.
  destruct q as [key|digits]; simpl; [|done]. intros [Hne _] H. apply Hne.
  by apply (to_bytes_inj key "").
Qed.

Lemma join_parts_snoc ps q :
  join_parts (ps ++ [q]) =
    join_parts ps ++ (match ps with [] => [] | _ => ["."%char] end) ++ part_text q.
Proof.
  induction ps as [|p ps IH]; [by simpl; rewrite app_nil_r|].
  change ((p :: ps) ++ [q]) with (p :: (ps ++ [q])). rewrite !join_parts_cons, <-app_assoc. f_equal.
  destruct ps as [|p' ps]; [simpl; by rewrite app_nil_r|].
  change (join_tail ((p' :: ps) ++ [q])) with ("."%char :: join_parts ((p' :: ps) ++ [q])).
  by rewrite IH.
Qed.

Lemma of_bytes_app a b : of_bytes (a ++ b) = of_bytes a +:+ of_bytes b.
Proof. apply to_bytes_inj. by rewrite to_bytes_app, !to_of_bytes. Qed.

Lemma ref_path_push path q :
  ref_path path → part_ok q → ref_path (path_push path (of_bytes (part_text q))).
Proof.
  intros (ps & Hps & ->) Hq. exists (ps ++ [q]).
  split; [by apply Forall_app; auto|]. rewrite join_parts_snoc. unfold path_push.
  destruct ps as [|p ps]; [done|].
  replace (is_empty (of_bytes (join_parts (p :: ps)))) with false.
  - rewrite !of_bytes_app. apply to_bytes_inj. by rewrite !to_bytes_app, <-app_assoc.
  - apply Forall_cons in Hps as [Hp _]. apply part_ok_nonempty in Hp.
    rewrite join_parts_cons. by destruct (part_text p).
Qed.

Lemma take_while_text f p n :
  n = count_while f (rest p) →
  Forall (λ c, f c = true) (to_bytes (of_bytes (slice (src p) (pos p) (pos p + n)))).
Proof. intros ->. rewrite slice_take, to_of_bytes. apply take_count_while. Qed.

Lemma wp_prev_path_loop fuel path p (Q : string → Parser → Prop) :
  cursor_wf p → remaining p < fuel → ref_path path →
  (∀ path' p', moves p p' → ref_path path' → Q path' p') →
  wp (prev_path_loop fuel path) Q p.
Proof.
  revert path p. induction fuel as [|fuel IH]; intros path p Hp Hf Hpath HQ; [lia|].
  cbn [prev_path_loop]. wp_auto.
  assert (Hstop : wp (mret path : PM string) Q p) by (apply wp_ret; auto with khive).
  destruct (peek p) as [c|] eqn:Hc; [|exact Hstop].
  assert (Hadv : ∀ q, moves p q → pos p < pos q → remaining q < fuel).
  { intros q (E & ? & _) ?. unfold remaining in *. rewrite E. lia. }
  destruct (decide (c = "."%char)) as [->|Hd]; [|destruct (decide (c = "["%char)) as [->|Hb]].
  - apply wp_bind, (wp_advance_1 p "."); [done|]. intros p1 M1 E1.
    apply wp_bind, wp_parse_identifier; [eauto with khive|]. intros seg p2 M2 L2 Hseg.
    assert (moves p p2) as M by solve_moves.
    apply IH; [eauto with khive|apply Hadv; [done|lia]| |].
    + rewrite <-(of_to_bytes seg). by apply (ref_path_push path (PartField seg)).
    + intros path' p3 M3. apply HQ. solve_moves.
  - apply wp_bind, (wp_advance_1 p "["); [done|]. intros p1 M1 E1. wp_auto.
    apply wp_advance_while; [eauto with khive|]. intros p2 M2 _ E2. wp_auto.
    assert (src p2 = src p1) as Esrc by by destruct M2.
    assert (pos p2 = pos p1 + count_while is_ascii_digit (rest p1)) as Epos by by subst p2.
    rewrite Esrc, Epos. set (idx := of_bytes _).
    assert (Forall (λ c, is_ascii_digit c = true) (to_bytes idx)) as Hidx
      by by apply take_while_text.
    destruct (is_empty idx) eqn:He; [apply wp_fail|]. wp_auto.
    destruct (peek p2) as [d|] eqn:Hc2; [|apply wp_fail].
    destruct (decide (d = "]"%char)) as [->|Hd2].
    + apply wp_bind, (wp_advance_1 p2 "]"); [done|]. intros p3 M3 E3.
      assert (moves p p3) as M by solve_moves.
      apply IH; [eauto with khive|apply Hadv; [done|lia]| |].
      * replace ("[" +:+ idx +:+ "]") with (of_bytes (part_text (PartIndex idx)));
          [apply ref_path_push; [done|]; split; [by intros ->|done]|].
        simpl part_text. apply to_bytes_inj. rewrite to_of_bytes. by rewrite !to_bytes_app.
      * intros path' p4 M4. apply HQ. solve_moves.
    + destruct d as [[] [] [] [] [] [] [] []]; done.
  - destruct c as [[] [] [] [] [] [] [] []]; try exact Hstop; done.
Qed.

Lemma wp_parse_prev_ref p (Q : ArgValue → Parser → Prop) :
  peek p = Some "$"%char →
  (∀ path p', moves p p' → pos p < pos p' → ref_path path → Q (APrevRef path) p') →
  wp parse_prev_ref Q p.
Proof.
  intros Hc HQ. unfold parse_prev_ref. wp_auto. apply (wp_advance_1 p "$"); [done|].
  intros p1 M1 E1. apply wp_bind, wp_map_err, wp_parse_identifier; [eauto with khive|].
  intros s p2 M2 L2 _. destruct (String.eqb s "prev"); [|apply wp_fail]. wp_auto.
  apply wp_prev_path_loop; [eauto with khive|rewrite rest_length; lia| |].
  { exists []. split; [constructor|done]. }
  intros path p3 M3 Hpath. apply wp_ret, HQ; [|destruct M3 as (_&?&_); lia|done].
  solve_moves.
Qed.

(** ** Scalars *)

Lemma scan_value_loop_total fuel s l i a b c :
  l = drop i s → i ≤ length s → length l ≤ fuel →
  match scan_value_loop fuel s l i a b c with
  | Done j => i ≤ j ≤ length s
  | Fail _ => True
  | OutOfFuel => False
  end.
Proof.
  revert l i a b c. induction fuel as [|f IH]; intros l i a b c Hl Hi Hf;
    destruct l as [|x l]; simpl in Hf; try lia;
    try (simpl; destruct (0 <? b), (0 <? c); simpl; auto; fail).
  pose proof (f_equal length Hl) as Hlen. simpl in Hlen. rewrite length_drop in Hlen.
  assert (Hnext : ∀ a b c, match scan_value_loop f s l (i + 1) a b c with
    | Done j => i ≤ j ≤ length s | Fail _ => True | OutOfFuel => False end).
  { intros a' b' c'. specialize (IH l (i + 1) a' b' c').
    destruct (scan_value_loop f s l (i + 1) a' b' c'); [|done|].
    - cut (i + 1 ≤ a0 ≤ length s); [lia|]. apply IH; [|lia..]. by rewrite <-drop_drop, <-Hl.
    - apply IH; [|lia..]. by rewrite <-drop_drop, <-Hl. }
  cbn [scan_value_loop]. destruct (eqb_byte x dq_char).
  - destruct (scan_string_end s i) as [j|] eqn:Hj; [|done].
    apply scan_string_end_bounds in Hj. specialize (IH (drop j s) j a b c eq_refl).
    rewrite length_drop in IH. specialize (IH ltac:(lia) ltac:(lia)).
    destruct (scan_value_loop f s (drop j s) j a b c); [lia|done|done].
  - repeat match goal with |- context [if ?b then _ else _] => destruct b end;
      solve [apply Hnext | simpl; lia | done].
Qed.

Lemma wp_scan_value_end p (Q : nat → Parser → Prop) :
  cursor_wf p → (∀ i, pos p ≤ i ≤ length (src p) → Q i p) → wp scan_value_end Q p.
Proof.
  intros Hp HQ. unfold wp, scan_value_end.
  pose proof (scan_value_loop_total (length (rest p)) (src p) (rest p) (pos p) 0 0 0
    eq_refl Hp (le_n _)) as H.
  destruct (scan_value_loop _ _ _ _ _ _ _); auto.
Qed.

Section with_externals.
Context `{Externals}.

(** [v] is decoded from a value slice of [s] that starts at a byte which
    opens neither a reference nor a container. *)
Definition scalar_at (s : bytes) (v : Value) : Prop :=
  ∃ start stop hint,
    (∀ c, s !! start = Some c →
       (c ∉ ["$"; "["; "{"]%char) ∧ is_ascii_whitespace c = false) ∧
    decode_value (trim (slice s start stop)) hint start = Ok v.

(** The arguments a run can return when [n] more containers may be opened. *)
Inductive arg_shape (s : bytes) : nat → ArgValue → Prop :=
| sh_scalar n v : scalar_at s v → arg_shape s n (AValue v)
| sh_literal n r : arg_shape s n (AValue (VString r))
| sh_ref n path : arg_shape s n (APrevRef path)
| sh_array n els : Forall (arg_shape s n) els → arg_shape s (S n) (fold_array els)
| sh_object n pairs :
    Forall (λ kv, arg_shape s n kv.2) pairs → arg_shape s (S n) (fold_object pairs).

Definition room (p : Parser) : nat := NESTING_DEPTH_LIMIT - depth p.

Lemma moves_room p p' : moves p p' → room p' = room p ∧ src p' = src p.
Proof. unfold moves, room. by intros (-> & _ & ->). Qed.

Lemma wp_parse_value hint p (Q : Value → Parser → Prop) :
  cursor_wf p → (∀ c, peek p = Some c → (c ∉ ["$"; "["; "{"]%char) ∧ is_ascii_whitespace c = false) →
  (∀ v p', moves p p' → scalar_at (src p) v → Q v p') → wp (parse_value hint) Q p.
Proof.
  intros Hp Hc HQ. unfold parse_value. wp_auto. apply wp_advance_while; [done|].
  intros p1 M1 Hws E1. wp_auto.
  assert (p1 = p) as ->.
  { subst p1. destruct p as [s n d]. f_equal. simpl.
    cut (count_while is_ascii_whitespace (drop n s) = 0); [unfold rest; simpl; lia|].
    unfold peek in Hc. simpl in Hc. destruct (drop n s) as [|c l] eqn:E; [done|]. simpl.
    destruct (Hc c) as [_ ->]; [|done].
    by rewrite <-(Nat.add_0_r n), <-lookup_drop, E. }
  apply wp_scan_value_end; [done|]. intros stop Hstop. wp_auto. apply wp_lift.
  intros v Hv. wp_auto. unfold wp at 1, set_pos. simpl. apply HQ.
  - unfold moves, cursor_wf in *. simpl. auto with lia.
  - exists (pos p), stop, hint. auto.
Qed.

Lemma string_as_prev_ref_shape s r n a :
  string_as_prev_ref r = Some a → arg_shape s n a.
Proof.
  unfold string_as_prev_ref. intros Ha.
  repeat (case_match; simplify_eq/=); first [apply sh_literal | apply sh_ref].
Qed.

Lemma wp_parse_scalar_arg hint p (Q : ArgValue → Parser → Prop) :
  cursor_wf p → (∀ c, peek p = Some c → (c ∉ ["$"; "["; "{"]%char) ∧ is_ascii_whitespace c = false) →
  (∀ a p', moves p p' → arg_shape (src p) (room p) a → Q a p') →
  wp (parse_scalar_arg hint) Q p.
Proof.
  intros Hp Hc HQ. unfold parse_scalar_arg. apply wp_bind, wp_parse_value; [done..|].
  intros v p' M Hv. apply wp_ret, HQ; [done|].
  destruct v; try by constructor.
  destruct (string_as_prev_ref s) as [a|] eqn:Ha; simpl; [|by constructor].
  by eapply string_as_prev_ref_shape.
Qed.

Lemma wp_separator close e1 e2 p (Q : bool → Parser → Prop) :
  cursor_wf p → (∀ b p', moves p p' → pos p < pos p' → Q b p') →
  wp (separator close e1 e2) Q p.
Proof.
  intros Hp HQ. unfold separator. wp_auto. apply wp_skip_ws; [done|].
  intros p1 M1 _. wp_auto. destruct (peek p1) as [c|] eqn:Hc; [|apply wp_fail].
  assert (∀ b, wp (advance 1;; mret b) Q p1) as Hadv.
  { intros b. apply wp_bind, (wp_advance_1 p1 c); [done|]. intros p2 M2 E2.
    apply wp_ret, HQ; [solve_moves|destruct M1 as (_&?&_); lia]. }
  destruct (eqb_byte c ","); [apply Hadv|].
  destruct (eqb_byte c close); [apply Hadv|apply wp_fail].
Qed.

Lemma wp_parse_key p (Q : string → Parser → Prop) :
  cursor_wf p → (∀ k p', moves p p' → pos p < pos p' → Q k p') → wp parse_key Q p.
Proof.
  intros Hp HQ. unfold parse_key. wp_auto.
  destruct (peek p) as [c|] eqn:Hc; [|apply wp_fail].
  destruct (eqb_byte c dq_char); [|apply wp_fail]. wp_auto.
  apply wp_lift. intros stop Hstop. apply scan_string_end_bounds in Hstop. wp_auto.
  apply wp_lift. intros k _. wp_auto. unfold wp at 1, set_pos. simpl.
  apply HQ; unfold moves; simpl; [|lia]. split_and!; [done|lia|lia|done].
Qed.

Lemma wp_in_container {A} (body : PM A) p (Q : A → Parser → Prop) :
  cursor_wf p →
  (∀ p1, src p1 = src p → pos p1 = pos p → depth p1 = S (depth p) → room p = S (room p1) →
     wp body (λ a p', moves p1 p' ∧ Q a (mkParser (src p') (pos p') (depth p))) p1) →
  wp (in_container body) Q p.
Proof.
  intros Hp Hb. unfold in_container. apply wp_bind. unfold wp at 1, enter_container.
  destruct (Nat.ltb_spec NESTING_DEPTH_LIMIT (depth p + 1)) as [|Hd]; [done|].
  apply wp_bind. eapply wp_mono; [apply Hb; unfold room; simpl; auto; lia|].
  intros a p' [(_ & _ & Hdep) HQ]. apply wp_bind. unfold wp at 1, leave_container. simpl.
  rewrite Hdep. simpl. by rewrite Nat.add_sub.
Qed.

(** The three mutually recursive methods, with enough fuel. *)
Definition arg_ok (fuel : nat) : Prop :=
  ∀ hint p, cursor_wf p → 2 * remaining p + 1 ≤ fuel →
    wp (arg_value_loop fuel hint)
      (λ a p', moves p p' ∧ arg_shape (src p) (room p) a) p.

Definition array_ok (fuel : nat) : Prop :=
  ∀ els p, cursor_wf p → 2 * remaining p + 2 ≤ fuel →
    Forall (arg_shape (src p) (room p)) els →
    wp (array_loop fuel els)
      (λ els' p', moves p p' ∧ Forall (arg_shape (src p) (room p)) els') p.

Definition object_ok (fuel : nat) : Prop :=
  ∀ pairs p, cursor_wf p → 2 * remaining p + 2 ≤ fuel →
    Forall (λ kv, arg_shape (src p) (room p) kv.2) pairs →
    wp (object_loop fuel pairs)
      (λ pairs' p', moves p p' ∧ Forall (λ kv, arg_shape (src p) (room p) kv.2) pairs') p.

Lemma shape_moves p p' n a :
  moves p p' → arg_shape (src p') (room p') a → n = room p → arg_shape (src p) n a.
Proof. intros [<- <-]%moves_room. by intros ? ->. Qed.

Lemma remaining_lt p p' : moves p p' → pos p < pos p' → remaining p' < remaining p.
Proof. unfold moves, remaining. intros (-> & ? & _) ?. lia. Qed.

Lemma array_step fuel : arg_ok fuel → array_ok fuel → array_ok (S fuel).
Proof.
  intros IHa IHl els p Hp Hf Hels. cbn [array_loop].
  apply wp_bind, wp_skip_ws; [done|]. intros p1 M1 _.
  apply moves_remaining in M1 as R1. apply wp_bind.
  eapply wp_mono; [apply IHa; [eauto with khive|lia]|]. intros a p2 [M2 Ha].
  apply moves_remaining in M2 as R2.
  apply wp_bind, wp_separator; [eauto with khive|]. intros more p3 M3 L3.
  assert (moves p p3) as M by solve_moves.
  apply (remaining_lt _ _ M3) in L3.
  assert (Forall (arg_shape (src p) (room p)) (els ++ [a])) as Hels'.
  { apply Forall_app. split; [done|]. apply Forall_singleton. by eapply (shape_moves p p1). }
  destruct (moves_room _ _ M) as [Er Es].
  destruct more; [|by apply wp_ret].
  eapply wp_mono; [apply IHl; [eauto with khive|lia|by rewrite Er, Es]|].
  rewrite Er, Es. intros els' p4 [M4 H4]. split; [solve_moves|done].
Qed.

Lemma object_step fuel : arg_ok fuel → object_ok fuel → object_ok (S fuel).
Proof.
  intros IHa IHl pairs p Hp Hf Hps. cbn [object_loop].
  apply wp_bind, wp_skip_ws; [done|]. intros p1 M1 _.
  apply wp_bind, wp_parse_key; [eauto with khive|]. intros key p2 M2 L2.
  apply wp_bind, wp_skip_ws; [eauto with khive|]. intros p3 M3 _.
  apply wp_bind, wp_expect_char; [eauto with khive|]. intros p4 M4 L4.
  apply wp_bind, wp_skip_ws; [eauto with khive|]. intros p5 M5 _.
  assert (moves p p5) as M by solve_moves.
  apply moves_remaining in M as R. apply wp_bind.
  eapply wp_mono; [apply IHa; [eauto with khive|lia]|]. intros a p6 [M6 Ha].
  apply moves_remaining in M6 as R6.
  apply wp_bind, wp_separator; [eauto with khive|]. intros more p7 M7 L7.
  assert (moves p p7) as M' by solve_moves.
  apply (remaining_lt _ _ M7) in L7.
  assert (Forall (λ kv, arg_shape (src p) (room p) kv.2) (pairs ++ [(key, a)])) as Hps'.
  { apply Forall_app. split; [done|]. apply Forall_singleton. by eapply (shape_moves p p5). }
  destruct (moves_room _ _ M') as [Er Es].
  destruct more; [|by apply wp_ret].
  eapply wp_mono; [apply IHl; [eauto with khive|lia|by rewrite Er, Es]|].
  rewrite Er, Es. intros ps' p8 [M8 H8]. split; [solve_moves|done].
Qed.

(** A container: its opening bracket, then either the closing one or a loop. *)
Lemma wp_container {A} (close : ascii) (empty : ArgValue) (loop : PM (list A))
    (fold : list A → ArgValue) (P : Parser → A → Prop) p c :
  peek p = Some c →
  (∀ p1, src p1 = src p → room p = S (room p1) → arg_shape (src p) (room p) empty) →
  (∀ p1 p2, src p1 = src p → pos p1 = pos p → depth p1 = S (depth p) →
     room p = S (room p1) → moves p1 p2 → pos p < pos p2 →
     wp loop (λ l p', moves p2 p' ∧ Forall (P p2) l) p2) →
  (∀ p1 l, src p1 = src p → room p = S (room p1) → Forall (P p1) l →
     arg_shape (src p) (room p) (fold l)) →
  wp (in_container (
        advance 1;; skip_ws;;
        done ← gets (peek_is close);
        if done : bool then advance 1;; mret empty
        else l ← loop; mret (fold l)))
     (λ a p', moves p p' ∧ arg_shape (src p) (room p) a) p.
Proof.
  intros Hc Hempty Hloop Hfold.
  assert (cursor_wf p) as Hp.
  { unfold peek in Hc. apply lookup_lt_Some in Hc. unfold cursor_wf. lia. }
  assert (Hend : ∀ p1 p', src p1 = src p → pos p1 = pos p → moves p1 p' →
    moves p (mkParser (src p') (pos p') (depth p))).
  { intros p1 p' Es Ep (E & HE & _). rewrite Ep, Es in *. unfold moves. simpl. auto. }
  apply wp_in_container; [done|]. intros p1 Es Ep Ed Er.
  apply wp_bind, (wp_advance_1 p1 c); [by unfold peek; rewrite Es, Ep|]. intros p2 M2 E2.
  apply wp_bind, wp_skip_ws; [eauto with khive|]. intros p3 M3 _. wp_auto.
  assert (moves p1 p3) as M13 by solve_moves.
  destruct (peek_is close p3) eqn:Hclose.
  - apply peek_is_Some in Hclose. apply wp_bind, (wp_advance_1 p3 close); [done|].
    intros p4 M4 _. apply wp_ret. assert (moves p1 p4) by solve_moves.
    split; [done|]. split; [by apply (Hend p1)|]. by apply (Hempty p1).
  - apply wp_bind. eapply wp_mono.
    { apply (Hloop p1 p3); auto. destruct M3 as (_ & ? & _). lia. }
    intros l p4 [M4 Hl]. apply wp_ret. assert (moves p1 p4) by solve_moves.
    split; [done|]. split; [by apply (Hend p1)|].
    destruct (moves_room _ _ M13) as [Er3 Es3]. apply (Hfold p3 l); [congruence|lia|done].
Qed.

Lemma empty_array_shape s n : arg_shape s (S n) (AValue (VArray [])).
Proof. by apply (sh_array s n []). Qed.
Lemma empty_object_shape s n : arg_shape s (S n) (AValue (VObject [])).
Proof. by apply (sh_object s n []). Qed.

Lemma arg_step fuel : array_ok fuel → object_ok fuel → arg_ok (S fuel).
Proof.
  intros IHarr IHobj hint p Hp Hf. cbn [arg_value_loop].
  apply wp_bind, wp_skip_ws; [done|]. intros p1 M1 Hws. wp_auto.
  destruct (moves_room _ _ M1) as [Er Es]. apply moves_remaining in M1 as R1.
  rewrite <-Er, <-Es.
  eapply (wp_mono _ (λ a p', moves p1 p' ∧ arg_shape (src p1) (room p1) a));
    [|intros a p' [M2 ?]; split; [solve_moves|done]].
  assert (Hlt : ∀ q1 q2, src q1 = src p1 → pos q1 = pos p1 → moves q1 q2 →
    pos p1 < pos q2 → 2 * remaining q2 + 2 ≤ fuel).
  { intros q1 q2 E1 E2 (E3 & ? & _) ?. unfold remaining in *. rewrite E3, E1 in *. lia. }
  assert (Hscalar : (∀ c, peek p1 = Some c → c ∉ ["$"; "["; "{"]%char) →
    wp (parse_scalar_arg hint) (λ a p', moves p1 p' ∧ arg_shape (src p1) (room p1) a) p1).
  { intros Hne. apply wp_parse_scalar_arg; [eauto with khive| |auto].
    intros c Hc. split; [by apply Hne|by apply Hws]. }
  destruct (peek p1) as [c|] eqn:Hc; [|by apply Hscalar].
  destruct (decide (c = "$"%char)) as [->|Hd].
  { apply wp_parse_prev_ref; [done|]. intros. split; [done|constructor]. }
  destruct (decide (c = "["%char)) as [->|Hb].
  { apply (wp_container _ _ _ _ (λ q, arg_shape (src q) (room q)) _ "["); [done| | |].
    - intros q _ ->. apply empty_array_shape.
    - intros q1 q2 E1 E2 E3 E4 M L. apply IHarr; [eauto with khive|by eapply Hlt|done].
    - intros q l Eq -> Hl. rewrite Eq in Hl. by constructor. }
  destruct (decide (c = "{"%char)) as [->|Hbr].
  { apply (wp_container _ _ _ _ (λ q kv, arg_shape (src q) (room q) kv.2) _ "{"); [done| | |].
    - intros q _ ->. apply empty_object_shape.
    - intros q1 q2 E1 E2 E3 E4 M L. apply IHobj; [eauto with khive|by eapply Hlt|done].
    - intros q l Eq -> Hl. rewrite Eq in Hl. by constructor. }
  assert (wp (parse_scalar_arg hint)
    (λ a p', moves p1 p' ∧ arg_shape (src p1) (room p1) a) p1) as Hs.
  { apply Hscalar. intros c' [= <-]. set_solver. }
  destruct c as [[] [] [] [] [] [] [] []]; first [exact Hs|done].
Qed.

Lemma loops_ok fuel : arg_ok fuel ∧ array_ok fuel ∧ object_ok fuel.
Proof.
  induction fuel as [|fuel (IHa & IHl & IHo)].
  { unfold arg_ok, array_ok, object_ok. split_and!; intros; lia. }
  auto using arg_step, array_step, object_step.
Qed.

Lemma wp_parse_arg_value hint p :
  cursor_wf p →
  wp (parse_arg_value_with_hint hint)
    (λ a p', moves p p' ∧ arg_shape (src p) (room p) a) p.
Proof.
  intros Hp. unfold parse_arg_value_with_hint. wp_auto.
  apply loops_ok; [done|]. by rewrite rest_length.
Qed.

(** ** Operations *)

(** The argument list the loop has collected so far. *)
Definition args_ok (p : Parser) (l : list (string * ArgValue)) : Prop :=
  bm_wf l ∧ Forall (λ kv, is_identifier kv.1 ∧ arg_shape (src p) (room p) kv.2) l.

Lemma args_ok_insert p name a l :
  args_ok p l → is_identifier name → arg_shape (src p) (room p) a →
  args_ok p (bm_insert name a l).
Proof.
  intros [Hwf Hl] Hn Ha. split; [by apply bm_insert_wf|].
  by apply bm_insert_Forall.
Qed.

Lemma args_ok_moves p p' l : moves p p' → args_ok p l ↔ args_ok p' l.
Proof. intros [Er Es]%moves_room. unfold args_ok. by rewrite Er, Es. Qed.

Lemma wp_args_loop fuel tool start l p :
  cursor_wf p → remaining p < fuel → args_ok p l →
  wp (args_loop fuel tool start l)
    (λ op p', moves p p' ∧ Parser.pos p < pos p' ∧
       RequestTypes.tool op = tool ∧ args_ok p (args op)) p.
Proof.
  revert l p. induction fuel as [|fuel IH]; intros l p Hp Hf Hl; [lia|].
  cbn [args_loop]. apply wp_bind, wp_parse_identifier; [done|]. intros name p1 M1 L1 Hname.
  apply wp_bind, wp_expect_char; [eauto with khive|]. intros p2 M2 L2.
  apply wp_bind, wp_skip_ws; [eauto with khive|]. intros p3 M3 _.
  assert (moves p p3) as M by solve_moves.
  apply wp_bind. eapply wp_mono; [apply wp_parse_arg_value; eauto with khive|].
  intros a p4 [M4 Ha]. destruct (bm_contains name l); [apply wp_fail|].
  apply wp_bind, wp_skip_ws; [eauto with khive|]. intros p5 M5 _. wp_auto.
  assert (args_ok p (bm_insert name a l)) as Hl'.
  { apply args_ok_insert; [done..|]. by eapply shape_moves. }
  assert (moves p p5) as M' by solve_moves.
  assert (pos p < pos p5) as L5.
  { destruct M2 as (_&?&_), M3 as (_&?&_), M4 as (_&?&_), M5 as (_&?&_). lia. }
  destruct (peek p5) as [c|] eqn:Hc; [|apply wp_fail].
  destruct (eqb_byte c ","); [|destruct (eqb_byte c ")"); [|apply wp_fail]].
  - apply wp_bind, (wp_advance_1 p5 c); [done|]. intros p6 M6 E6.
    apply wp_bind, wp_skip_ws; [eauto with khive|]. intros p7 M7 _.
    assert (moves p p7) as M'' by solve_moves.
    assert (pos p < pos p7) as L7 by (destruct M7 as (_&?&_); lia).
    eapply wp_mono.
    { apply IH; [eauto with khive| |by apply (args_ok_moves p p7)].
      pose proof (remaining_lt _ _ M'' L7). lia. }
    intros op p8 (M8 & L8 & Ht & Ho). split_and!; [solve_moves|lia|done|].
    by apply (args_ok_moves p p7).
  - apply wp_bind, (wp_advance_1 p5 c); [done|]. intros p6 M6 E6. apply wp_ret.
    split_and!; [solve_moves|lia|done|done].
Qed.

(** [verb] or [pack.verb]. *)
Definition is_tool_name (s : string) : Prop :=
  is_identifier s ∨ ∃ a b, is_identifier a ∧ is_identifier b ∧ s = a +:+ "." +:+ b.

Lemma wp_parse_tool p (Q : string → Parser → Prop) :
  cursor_wf p → (∀ s p', moves p p' → pos p < pos p' → is_tool_name s → Q s p') →
  wp parse_tool Q p.
Proof.
  intros Hp HQ. unfold parse_tool.
  apply wp_bind, wp_parse_identifier; [done|]. intros a p1 M1 L1 Ha. wp_auto.
  destruct (peek_is "." p1) eqn:Hdot; [|apply wp_ret, HQ; [done..|by left]].
  apply peek_is_Some in Hdot.
  apply wp_bind, (wp_advance_1 p1 "."); [done|]. intros p2 M2 E2.
  apply wp_bind, wp_parse_identifier; [eauto with khive|]. intros b p3 M3 L3 Hb. wp_auto.
  destruct (peek_is "." p3); [apply wp_fail|]. apply wp_ret, HQ; [|lia|right; eauto].
  solve_moves.
Qed.

(** What [parse_op] guarantees of an operation read from [s]. *)
Definition op_ok (p : Parser) (op : ParsedOp) : Prop :=
  is_tool_name (tool op) ∧ args_ok p (args op).

Lemma op_ok_moves p p' op : moves p p' → op_ok p op ↔ op_ok p' op.
Proof. intros M. unfold op_ok. by rewrite (args_ok_moves _ _ _ M). Qed.

Lemma wp_parse_op p :
  cursor_wf p →
  wp parse_op (λ op p', moves p p' ∧ pos p < pos p' ∧ op_ok p op) p.
Proof.
  intros Hp. unfold parse_op. apply wp_bind, wp_parse_tool; [done|]. intros t p1 M1 L1 Ht.
  apply wp_bind, wp_skip_ws; [eauto with khive|]. intros p2 M2 _. wp_auto.
  apply wp_expect_char; [eauto with khive|]. intros p3 M3 L3.
  apply wp_bind, wp_skip_ws; [eauto with khive|]. intros p4 M4 _. wp_auto.
  assert (moves p p4) as M by solve_moves.
  assert (pos p < pos p4) as L by (destruct M2 as (_&?&_), M4 as (_&?&_); lia).
  destruct (peek_is ")" p4) eqn:Hclose.
  - apply peek_is_Some in Hclose. apply wp_bind, (wp_advance_1 p4 ")"); [done|].
    intros p5 M5 E5. apply wp_ret. split_and!; [solve_moves|lia|].
    split; [done|]. split; [apply bm_wf_nil|constructor].
  - destruct (eof p4); [apply wp_fail|]. wp_auto. eapply wp_mono.
    { apply wp_args_loop; [eauto with khive|by rewrite rest_length; lia|].
      split; [apply bm_wf_nil|constructor]. }
    intros op p5 (M5 & L5 & Htool & Ho).
    split_and!; [solve_moves|lia|split; [by rewrite Htool|by apply (args_ok_moves p p4)]].
Qed.
End with_externals.

#[export] Hint Constructors arg_shape : khive.
