(* ===== verification/Dispatch.v ===== *)
(** khive-request/src/parser/dispatch.rs: routing of a request to the
    function-call, batch, chain and JSON forms, and the typed JSON batch. *)

From Stdlib Require Import String Ascii ZArith.
From stdpp Require Import base tactics list strings gmap pretty.
From S2P Require Import Prelude RustStr Json RequestTypes Scan Parser ParserFacts.

Definition of_result {A E} (m : result A E) : outcome A E :=
  match m with Ok a => Done a | Err e => Fail e end.

(** Run a parser method and drop the cursor. *)
Definition run {A} (m : PM A) (p : Parser) : outcome A DslError :=
  match m p with
  | Done (a, _) => Done a
  | Fail e => Fail e
  | OutOfFuel => OutOfFuel
  end.

(** [reject_reserved_args] *)
Definition reject_reserved_args (op : ParsedOp) : result unit DslError :=
  try_each (λ reserved,
    if bm_contains reserved (args op) then Err (ReservedEnvelopeArg reserved (tool op)) else Ok ())
    RESERVED_ENVELOPE_ARGS.

(** [(0..n).map(|i| i..i + 1).collect()] *)
Definition unit_ranges (n : nat) : list range := (λ i, mkRange i (i + 1)) <$> seq 0 n.

Section with_externals.
Context `{Externals}.

(** ** Chains *)

(** The [while p.peek() == Some('|')] loop of [parse_chain_tail]. *)
Fixpoint chain_loop (fuel : nat) (ops : list ParsedOp) : PM (list ParsedOp) :=
  match fuel with
  | 0 => out_of_fuel
  | S f =>
      bar ← gets (peek_is "|"%char);
      if bar : bool then
        if MAX_OPS <=? length ops then fail (TooManyOps (length ops + 1) MAX_OPS)
        else
          advance 1;; skip_ws;;
          op ← parse_op;
          lift (reject_reserved_args op);;
          skip_ws;;
          chain_loop f (ops ++ [op])
      else mret ops
  end.

(** A trailing byte that is not the end of input. *)
Definition unexpected (expected : string) : PM ParsedRequest :=
  c ← gets peek; here ← gets pos;
  fail (UnexpectedChar here (byte (default zero c)) expected).

Definition parse_chain_tail (first_op : ParsedOp) : PM ParsedRequest :=
  lift (reject_reserved_args first_op);;
  r ← gets rest;
  ops ← chain_loop (S (length r)) [first_op];
  at_end ← gets eof; comma ← gets (peek_is ","%char);
  if negb at_end then
    if comma : bool then fail MixedSeparators else unexpected "'|' or end of input"
  else mret (mkRequest ops Chain [mkRange 0 (length ops)]).

(** ** Bracketed batches *)

(** The later leaves of one unit. *)
Fixpoint unit_loop (fuel : nat) (ops : list ParsedOp) : PM (list ParsedOp) :=
  match fuel with
  | 0 => out_of_fuel
  | S f =>
      bar ← gets (peek_is "|"%char);
      if bar : bool then
        if MAX_OPS <=? length ops then fail (TooManyOps (length ops + 1) MAX_OPS)
        else
          advance 1;; skip_ws;;
          leaf ← parse_op;
          skip_ws;;
          unit_loop f (ops ++ [leaf])
      else mret ops
  end.

(** The [loop] over the units of a batch. *)
Fixpoint batch_loop (fuel : nat) (ops : list ParsedOp) (ranges : list range)
    : PM (list ParsedOp * list range) :=
  match fuel with
  | 0 => out_of_fuel
  | S f =>
      let unit_start := length ops in
      if MAX_OPS <=? length ops then fail (TooManyOps (length ops + 1) MAX_OPS)
      else
        first_leaf ← parse_op;
        skip_ws;;
        r ← gets rest;
        ops' ← unit_loop (S (length r)) (ops ++ [first_leaf]);
        let ranges' := ranges ++ [mkRange unit_start (length ops')] in
        c ← gets peek; here ← gets pos;
        match c with
        | Some c =>
            if eqb_byte c ","%char then
              advance 1;; skip_ws;;
              trailing ← gets (peek_is "]"%char);
              if trailing : bool then fail (TrailingComma here)
              else batch_loop f ops' ranges'
            else if eqb_byte c "]"%char then advance 1;; mret (ops', ranges')
            else fail (UnexpectedChar here (byte c) "',' or ']'")
        | None => fail (UnexpectedEof "']'")
        end
  end.

(** No unit starts with a reference. *)
Definition check_first_leaves (ops : list ParsedOp) (ranges : list range)
    : result unit DslError :=
  try_each (λ r,
    match ops !! r_start r with
    | Some op => match find_prev_ref_pos op with
                 | Some pos => Err (PrevRefOutsideChain pos)
                 | None => Ok ()
                 end
    | None => Ok ()
    end) ranges.

Definition parse_fn_batch : PM ParsedRequest :=
  expect_char "["%char;;
  skip_ws;;
  empty ← gets (peek_is "]"%char);
  if empty : bool then fail EmptyBatch
  else
    r ← gets rest;
    ops_ranges ← batch_loop (S (length r)) [] [];
    skip_ws;;
    at_end ← gets eof;
    if negb at_end then unexpected "end of input"
    else
      lift (check_first_leaves ops_ranges.1 ops_ranges.2);;
      lift (try_each reject_reserved_args ops_ranges.1);;
      mret (mkRequest ops_ranges.1 Parallel ops_ranges.2).

(** ** The JSON form *)

(** [for (k, v) in args_map { … }] *)
Fixpoint json_args (l : list (string * Value)) (args : list (string * ArgValue))
    : result (list (string * ArgValue)) DslError :=
  match l with
  | [] => Ok args
  | (k, v) :: l' =>
      if json_value_contains_prev_ref v then Err (PrevRefInJsonForm k)
      else json_args l' (bm_insert k (AValue v) args)
  end.

Definition json_entry (entry : Value) : result ParsedOp DslError :=
  let? obj := ok_or (as_object entry) (InvalidJson "each batch entry must be an object") in
  check? match List.find (λ key, negb (String.eqb key "tool") && negb (String.eqb key "args"))
                 obj.*1 with
         | Some unknown =>
             Err (InvalidJson ("unknown JSON operation field " +:+ str_debug unknown
                               +:+ "; expected tool or args"))
         | None => Ok ()
         end in
  let? tool := ok_or (v ← bm_get "tool"%string obj; as_str v)
                 (InvalidJson ("each entry needs a " +:+ dq +:+ "tool" +:+ dq +:+ " string")) in
  let? args_map :=
    match default (VObject []) (bm_get "args"%string obj) with
    | VObject m => Ok m
    | other => Err (InvalidJson (dq +:+ "args" +:+ dq +:+ " must be an object, got "
                                 +:+ value_display other))
    end in
  let? args := json_args args_map [] in
  let op := mkOp tool args in
  check? reject_reserved_args op in
  Ok op.

Definition json_requests (v : Value) : result (list Value * bool) DslError :=
  match v with
  | VArray arr => Ok (arr, false)
  | VObject _ => Ok ([v], true)
  | other => Err (InvalidJson ("expected object or array of objects, got "
                               +:+ value_display other))
  end.

Definition json_form (input : string) : result ParsedRequest DslError :=
  let? v := match from_str input with
            | Ok v => Ok v
            | Err e => Err (InvalidJson (se_display e))
            end in
  let? (arr, is_single) := json_requests v in
  if bool_decide (arr = []) && negb is_single then Err EmptyBatch
  else if MAX_OPS <? length arr then Err (TooManyOps (length arr) MAX_OPS)
  else
    let? ops := try_map json_entry arr in
    Ok (mkRequest ops (if is_single then Single else Parallel)
          (if is_single : bool then [mkRange 0 1] else unit_ranges (length ops))).

Definition parse_json_form (input : bytes) : outcome ParsedRequest DslError :=
  match check_json_nesting_depth input with
  | Done _ => of_result (json_form (of_bytes input))
  | Fail e => Fail e
  | OutOfFuel => OutOfFuel
  end.

(** ** Routing *)

Definition is_json_space (b : ascii) : bool :=
  eqb_byte b " "%char || eqb_byte b TAB || eqb_byte b LF || eqb_byte b CR.

Definition looks_like_json (trimmed : bytes) : bool :=
  starts_with_byte "{"%char trimmed
  || (starts_with_byte "["%char trimmed
      && match List.find (λ b, negb (is_json_space b)) (drop 1 trimmed) with
         | Some b => eqb_byte b "{"%char
         | None => false
         end).

(** The single-operation and chain forms. *)
Definition parse_single_or_chain : PM ParsedRequest :=
  first_op ← parse_op;
  skip_ws;;
  at_end ← gets eof; bar ← gets (peek_is "|"%char); comma ← gets (peek_is ","%char);
  if at_end : bool then
    match find_prev_ref_pos first_op with
    | Some pos => fail (PrevRefOutsideChain pos)
    | None => lift (reject_reserved_args first_op);;
              mret (mkRequest [first_op] Single [mkRange 0 1])
    end
  else if bar : bool then parse_chain_tail first_op
  else if comma : bool then fail MixedSeparators
  else unexpected "'|' or end of input".

Definition parse_request (input : string) : outcome ParsedRequest DslError :=
  let trimmed := trim (to_bytes input) in
  if bool_decide (trimmed = []) then Fail Empty
  else if (MAX_OPS_INPUT_LEN <? Z.of_nat (length trimmed))%Z
  then Fail (InputTooLarge (Z.of_nat (length trimmed)) MAX_OPS_INPUT_LEN)
  else if looks_like_json trimmed then parse_json_form trimmed
  else if starts_with_byte "["%char trimmed then run parse_fn_batch (new trimmed)
  else run parse_single_or_chain (new trimmed).
End with_externals.

(** ** Typed JSON batches *)

Definition typed_op (t : TypedJsonOp) : result ParsedOp DslError :=
  let args_value := VObject (tj_args t) in
  check? (if negb (value_nesting_within_limit args_value (NESTING_DEPTH_LIMIT - 2))
          then Err (NestingTooDeep 0 (NESTING_DEPTH_LIMIT + 1) NESTING_DEPTH_LIMIT)
          else Ok ()) in
  let? args := json_args (tj_args t) [] in
  let op := mkOp (tj_tool t) args in
  check? reject_reserved_args op in
  Ok op.

Definition parse_typed_json_batch (ops : list TypedJsonOp) : result ParsedRequest DslError :=
  if bool_decide (ops = []) then Err EmptyBatch
  else if MAX_OPS <? length ops then Err (TooManyOps (length ops) MAX_OPS)
  else let? parsed_ops := try_map typed_op ops in
       Ok (mkRequest parsed_ops Parallel (unit_ranges (length ops))).

(** The contract of [parse_request]: it always returns a verdict, and a request
    it accepts is well formed. *)

(** ** Well-formed requests *)

(** Nonempty ranges, in order, with no gaps, from [start] to [stop]. *)
Fixpoint partition (start : nat) (rs : list range) (stop : nat) : Prop :=
  match rs with
  | [] => start = stop
  | r :: rs' => r_start r = start ∧ start < r_end r ∧ partition (r_end r) rs' stop
  end.

Definition op_wf (op : ParsedOp) : Prop :=
  bm_wf (args op) ∧ Forall (λ name, name ∉ (args op).*1) RESERVED_ENVELOPE_ARGS.

(** The first leaf of every unit holds no reference. *)
Definition first_leaves_ok (req : ParsedRequest) : Prop :=
  ∀ r, r ∈ ranges req → ∃ op, ops req !! r_start r = Some op ∧ find_prev_ref_pos op = None.

(** The documented shape of [ParsedRequest]. *)
Definition request_wf (req : ParsedRequest) : Prop :=
  1 ≤ length (ops req) ≤ MAX_OPS ∧
  partition 0 (ranges req) (length (ops req)) ∧
  Forall op_wf (ops req) ∧
  match mode req with
  | Single => length (ops req) = 1 ∧ first_leaves_ok req
  | Parallel => first_leaves_ok req
  | Chain => length (ranges req) = 1
  end.

Lemma partition_snoc start rs mid r :
  partition start rs mid → r_start r = mid → mid < r_end r →
  partition start (rs ++ [r]) (r_end r).
Proof.
  revert start. induction rs as [|r' rs IH]; intros start; simpl.
  - intros <- <-. auto.
  - intros (? & ? & ?) ??. auto.
Qed.

Lemma partition_unit_ranges n : partition 0 (unit_ranges n) n.
Proof.
  unfold unit_ranges. cut (∀ k, partition k ((λ i, mkRange i (i + 1)) <$> seq k n) (k + n)).
  { intros Hc. apply (Hc 0). }
  induction n as [|n IH]; intros k; simpl; [lia|]. split_and!; [done|lia|].
  specialize (IH (S k)). rewrite Nat.add_1_r. by rewrite <-Nat.add_succ_comm.
Qed.

Lemma partition_start_lt start rs stop r :
  partition start rs stop → r ∈ rs → r_start r < stop.
Proof.
  revert start. induction rs as [|r' rs IH]; intros start; simpl; [set_solver|].
  intros (<- & Hlt & Hp) [->|Hin]%elem_of_cons; [|by eapply IH].
  clear IH. revert r' Hlt Hp. induction rs as [|r2 rs IH]; intros r' Hlt Hp; simpl in Hp; [lia|].
  destruct Hp as (Hs & Hlt2 & Hp). specialize (IH r2). rewrite Hs in IH.
  specialize (IH Hlt2 Hp). lia.
Qed.

(** ** Reserved arguments *)

Lemma reject_reserved_args_Ok op :
  bm_wf (args op) → reject_reserved_args op = Ok () ↔ op_wf op.
Proof.
  intros Hwf. unfold reject_reserved_args, op_wf. rewrite try_each_Ok.
  split; [intros HF; split; [done|]|intros [_ HF]];
    (eapply Forall_impl; [exact HF|]); intros name Hn; simpl in *.
  - rewrite <-bm_contains_key by done. by destruct (bm_contains name (args op)).
  - rewrite <-bm_contains_key in Hn by done. by destruct (bm_contains name (args op)).
Qed.

Section with_externals.
Context `{Externals}.

Lemma op_ok_wf p op : op_ok p op → reject_reserved_args op = Ok () → op_wf op.
Proof. intros [_ [Hwf _]]. by apply reject_reserved_args_Ok. Qed.

(** ** Chains *)

Definition ops_inv (p : Parser) (l : list ParsedOp) : Prop :=
  length l ≤ MAX_OPS ∧ Forall (op_ok p) l.

Lemma ops_inv_snoc p l op :
  ops_inv p l → length l < MAX_OPS → op_ok p op → ops_inv p (l ++ [op]).
Proof.
  intros [? ?] ??. split; [rewrite length_app; simpl; lia|].
  apply Forall_app. auto.
Qed.

Lemma ops_moves p p' l : moves p p' → Forall (op_ok p) l ↔ Forall (op_ok p') l.
Proof. intros M. apply Forall_proper; [|done]. intros op. by apply op_ok_moves. Qed.

Lemma wp_chain_loop fuel l p0 p :
  moves p0 p → remaining p < fuel → ops_inv p0 l → Forall op_wf l →
  wp (chain_loop fuel l)
    (λ l' p', moves p0 p' ∧ ops_inv p0 l' ∧ Forall op_wf l' ∧ length l ≤ length l') p.
Proof.
  revert l p. induction fuel as [|fuel IH]; intros l p M Hf Hl Hw; [lia|].
  cbn [chain_loop]. wp_auto. destruct (peek_is "|" p) eqn:Hbar; [|by apply wp_ret].
  apply peek_is_Some in Hbar. destruct (Nat.leb_spec MAX_OPS (length l)); [apply wp_fail|].
  apply wp_bind, (wp_advance_1 p "|"); [done|]. intros p1 M1 E1.
  apply wp_bind, wp_skip_ws; [eauto with khive|]. intros p2 M2 _.
  apply wp_bind. eapply wp_mono; [apply wp_parse_op; eauto with khive|].
  intros op p3 (M3 & L3 & Hop). wp_auto. apply wp_lift. intros [] Hres.
  apply wp_bind, wp_skip_ws; [eauto with khive|]. intros p4 M4 _.
  assert (moves p0 p2) as M02 by solve_moves.
  apply (op_ok_moves p0 p2) in Hop; [|done].
  assert (moves p0 p4) as M04 by solve_moves.
  assert (pos p < pos p4) as L by (destruct M2 as (_&?&_), M4 as (_&?&_); lia).
  eapply wp_mono.
  { apply IH; [done| |by apply ops_inv_snoc|apply Forall_app; split; [done|]].
    - assert (moves p p4) as M'
    by solve_moves.
      pose proof (remaining_lt _ _ M' L). lia.
    - apply Forall_singleton. by eapply op_ok_wf. }
  intros l' p' (? & ? & ? & Hlen). rewrite length_app in Hlen. auto with lia.
Qed.

Lemma wp_unexpected e p (Q : ParsedRequest → Parser → Prop) : wp (unexpected e) Q p.
Proof. unfold unexpected. wp_auto. Qed.

Lemma wp_parse_chain_tail op p0 p :
  moves p0 p → op_ok p0 op →
  wp (parse_chain_tail op)
    (λ req _, request_wf req ∧ Forall (op_ok p0) (ops req)) p.
Proof.
  intros M Hop. unfold parse_chain_tail. wp_auto. apply wp_lift. intros [] Hres. wp_auto.
  eapply wp_mono.
  { apply wp_chain_loop; [done|rewrite rest_length; lia| |].
    - split; [simpl; unfold MAX_OPS; lia|by apply Forall_singleton].
    - apply Forall_singleton. by eapply op_ok_wf. }
  intros l p' (M' & [Hlen Hops] & Hw & Hone). wp_auto.
  destruct (negb (eof p')).
  { destruct (peek_is "," p'); [apply wp_fail|apply wp_unexpected]. }
  apply wp_ret. simpl in Hone. split; [|done]. split_and!; simpl; auto with lia.
Qed.

(** ** Batches *)

Lemma wp_unit_loop fuel l p0 p :
  moves p0 p → remaining p < fuel → ops_inv p0 l →
  wp (unit_loop fuel l)
    (λ l' p', moves p p' ∧ ops_inv p0 l' ∧ length l ≤ length l') p.
Proof.
  revert l p. induction fuel as [|fuel IH]; intros l p M Hf Hl; [lia|].
  cbn [unit_loop]. wp_auto.
  destruct (peek_is "|" p) eqn:Hbar; [|apply wp_ret; eauto with khive].
  apply peek_is_Some in Hbar. destruct (Nat.leb_spec MAX_OPS (length l)); [apply wp_fail|].
  apply wp_bind, (wp_advance_1 p "|"); [done|]. intros p1 M1 E1.
  apply wp_bind, wp_skip_ws; [eauto with khive|]. intros p2 M2 _.
  apply wp_bind. eapply wp_mono; [apply wp_parse_op; eauto with khive|].
  intros op p3 (M3 & L3 & Hop).
  apply wp_bind, wp_skip_ws; [eauto with khive|]. intros p4 M4 _.
  assert (moves p0 p2) as M02 by solve_moves.
  apply (op_ok_moves p0 p2) in Hop; [|done].
  assert (moves p p4) as M'
    by solve_moves.
  assert (pos p < pos p4) as L by (destruct M2 as (_&?&_), M4 as (_&?&_); lia).
  eapply wp_mono.
  { apply IH; [solve_moves| |by apply ops_inv_snoc].
    pose proof (remaining_lt _ _ M' L). lia. }
  intros l' p' (? & ? & Hlen). rewrite length_app in Hlen.
  split_and!; [solve_moves|done|lia].
Qed.

Lemma wp_batch_loop fuel l rs p0 p :
  moves p0 p → remaining p < fuel → ops_inv p0 l → partition 0 rs (length l) →
  wp (batch_loop fuel l rs)
    (λ r p', moves p0 p' ∧ ops_inv p0 r.1 ∧ partition 0 r.2 (length r.1) ∧ 1 ≤ length r.1) p.
Proof.
  revert l rs p. induction fuel as [|fuel IH]; intros l rs p M Hf Hl Hp; [lia|].
  cbn [batch_loop]. destruct (Nat.leb_spec MAX_OPS (length l)); [apply wp_fail|].
  apply wp_bind. eapply wp_mono; [apply wp_parse_op; eauto with khive|].
  intros op p1 (M1 & L1 & Hop). apply (op_ok_moves p0 p) in Hop; [|done].
  apply wp_bind, wp_skip_ws; [eauto with khive|]. intros p2 M2 _. wp_auto.
  assert (moves p0 p2) as M02 by solve_moves.
  eapply wp_mono.
  { apply wp_unit_loop; [exact M02|rewrite rest_length; lia|by apply ops_inv_snoc]. }
  intros l' p3 (M3 & Hl' & Hlen). rewrite length_app in Hlen. simpl in Hlen. wp_auto.
  assert (partition 0 (rs ++ [mkRange (length l) (length l')]) (length l')) as Hp'.
  { apply (partition_snoc 0 rs (length l) (mkRange _ _)); simpl; auto with lia. }
  assert (moves p0 p3) as M03 by solve_moves.
  assert (moves p p3) as Mp3 by solve_moves.
  destruct (peek p3) as [c|] eqn:Hc; [|apply wp_fail].
  destruct (eqb_byte c ","); [|destruct (eqb_byte c "]"); [|apply wp_fail]].
  - apply wp_bind, (wp_advance_1 p3 c); [done|]. intros p4 M4 E4.
    apply wp_bind, wp_skip_ws; [eauto with khive|]. intros p5 M5 _. wp_auto.
    destruct (peek_is "]" p5); [apply wp_fail|].
    assert (moves p3 p5) as M35 by solve_moves.
    assert (moves p p5) as M' by solve_moves.
    apply IH; [solve_moves| |done|done].
    assert (pos p < pos p5) as L
      by (destruct Mp3 as (_&?&_), M5 as (_&?&_); lia).
    pose proof (remaining_lt _ _ M' L). lia.
  - apply wp_bind, (wp_advance_1 p3 c); [done|]. intros p4 M4 _. apply wp_ret. simpl.
    split; [solve_moves|]. split; [done|]. split; [done|lia].
Qed.

Lemma check_first_leaves_Ok l rs :
  partition 0 rs (length l) → check_first_leaves l rs = Ok () →
  ∀ r, r ∈ rs → ∃ op, l !! r_start r = Some op ∧ find_prev_ref_pos op = None.
Proof.
  intros Hp Hc r Hr. unfold check_first_leaves in Hc.
  rewrite try_each_Ok, Forall_forall in Hc. specialize (Hc r Hr). simpl in Hc.
  destruct (lookup_lt_is_Some_2 l (r_start r)) as [op Hop].
  { by eapply partition_start_lt. }
  rewrite Hop in Hc. exists op. split; [done|]. by destruct (find_prev_ref_pos op).
Qed.

Lemma try_each_reserved p0 l :
  Forall (op_ok p0) l → try_each reject_reserved_args l = Ok () → Forall op_wf l.
Proof.
  intros Hops Hr%try_each_Ok. eapply Forall_impl.
  - exact (proj2 (Forall_and _ _) (conj Hops Hr)).
  - intros op [Hop Hres]. by eapply op_ok_wf.
Qed.

Lemma wp_parse_fn_batch p :
  cursor_wf p →
  wp parse_fn_batch (λ req _, request_wf req ∧ Forall (op_ok p) (ops req)) p.
Proof.
  intros Hp. unfold parse_fn_batch.
  apply wp_bind, wp_expect_char; [done|]. intros p1 M1 _.
  apply wp_bind, wp_skip_ws; [eauto with khive|]. intros p2 M2 _. wp_auto.
  destruct (peek_is "]" p2); [apply wp_fail|]. wp_auto.
  assert (moves p p2) as M by solve_moves.
  eapply wp_mono.
  { apply (wp_batch_loop _ _ _ p); [done|rewrite rest_length; lia| |done].
    split; [simpl; lia|constructor]. }
  intros [l rs] p3 (M3 & [Hlen Hops] & Hpart & Hone). simpl in *.
  apply wp_bind, wp_skip_ws; [eauto with khive|]. intros p4 M4 _. wp_auto.
  destruct (negb (eof p4)); [apply wp_unexpected|].
  apply wp_bind, wp_lift. intros [] Hfirst. apply wp_bind, wp_lift. intros [] Hres.
  apply wp_ret. split; [|done]. split_and!; simpl; auto.
  - by eapply try_each_reserved.
  - intros r Hr. by eapply check_first_leaves_Ok.
Qed.

Lemma wp_parse_single_or_chain p :
  cursor_wf p →
  wp parse_single_or_chain (λ req _, request_wf req ∧ Forall (op_ok p) (ops req)) p.
Proof.
  intros Hp. unfold parse_single_or_chain.
  apply wp_bind. eapply wp_mono; [by apply wp_parse_op|]. intros op p1 (M1 & _ & Hop).
  apply wp_bind, wp_skip_ws; [eauto with khive|]. intros p2 M2 _. wp_auto.
  destruct (eof p2).
  - destruct (find_prev_ref_pos op) eqn:Hfind; [apply wp_fail|].
    apply wp_bind, wp_lift. intros [] Hres. apply wp_ret.
    split; [|by apply Forall_singleton]. split_and!; simpl; auto; [unfold MAX_OPS; lia| |].
    + apply Forall_singleton. by eapply op_ok_wf.
    + split; [done|]. intros r ->%list_elem_of_singleton. by exists op.
  - destruct (peek_is "|" p2); [apply wp_parse_chain_tail; [solve_moves|done]|].
    destruct (peek_is "," p2); [apply wp_fail|apply wp_unexpected].
Qed.
End with_externals.

(** ** The JSON forms *)

Lemma try_map_elem {A B E} (f : A → result B E) l k y :
  try_map f l = Ok k → y ∈ k → ∃ x, x ∈ l ∧ f x = Ok y.
Proof.
  intros HF%try_map_Forall2 Hy. apply list_elem_of_lookup in Hy as [i Hi].
  destruct (Forall2_lookup_r _ _ _ _ _ HF Hi) as (x & Hx & ?).
  exists x. split; [by eapply list_elem_of_lookup_2|done].
Qed.

Lemma try_map_length {A B E} (f : A → result B E) l k : try_map f l = Ok k → length k = length l.
Proof. intros HF%try_map_Forall2. symmetry. by eapply Forall2_length. Qed.

(** A JSON argument: a plain value that the reference detector cleared. *)
Definition json_arg_ok (kv : string * ArgValue) : Prop :=
  ∃ v, kv.2 = AValue v ∧ json_value_contains_prev_ref v = false.

Lemma json_args_Ok l acc args :
  json_args l acc = Ok args →
  bm_wf acc → Forall json_arg_ok acc →
  bm_wf args ∧ Forall json_arg_ok args.
Proof.
  revert acc. induction l as [|[k v] l IH]; intros acc; simpl; [by intros [= ->]|].
  destruct (json_value_contains_prev_ref v) eqn:Hc; [done|]. intros Hj Hwf Hacc.
  apply (IH _ Hj); [by apply bm_insert_wf|].
  apply bm_insert_Forall; [|done]. by exists v.
Qed.

Lemma json_arg_no_ref l :
  Forall json_arg_ok l → existsb (λ kv, arg_value_has_prev_ref kv.2) l = false.
Proof.
  intros Hl. apply existsb_false. eapply Forall_impl; [exact Hl|].
  by intros kv (v & -> & _).
Qed.

(** What both JSON forms establish of an operation. *)
Definition json_op_ok (op : ParsedOp) : Prop :=
  op_wf op ∧ find_prev_ref_pos op = None ∧ Forall json_arg_ok (args op).

Lemma json_op_intro t l args :
  json_args l [] = Ok args → reject_reserved_args (mkOp t args) = Ok () →
  json_op_ok (mkOp t args).
Proof.
  intros Hj Hr. destruct (json_args_Ok _ _ _ Hj) as [Hwf Hargs]; [constructor..|].
  split; [by apply reject_reserved_args_Ok|].
  split; [|done]. unfold find_prev_ref_pos. simpl. by rewrite json_arg_no_ref.
Qed.

Lemma json_request_wf ops :
  1 ≤ length ops ≤ MAX_OPS → Forall json_op_ok ops →
  request_wf (mkRequest ops Parallel (unit_ranges (length ops))).
Proof.
  intros Hlen Hops. split_and!; simpl; try lia.
  - apply partition_unit_ranges.
  - eapply Forall_impl; [exact Hops|]. by intros op [? _].
  - intros r Hr. simpl in *. unfold unit_ranges in Hr.
    apply list_elem_of_fmap in Hr as (i & -> & [_ Hi]%elem_of_seq). simpl.
    destruct (lookup_lt_is_Some_2 ops i) as [op Hop]; [lia|]. exists op. split; [done|].
    apply (Forall_lookup_1 _ _ _ _ Hops) in Hop. apply Hop.
Qed.

Section json_form.
Context `{Externals}.

Lemma json_entry_Ok entry op : json_entry entry = Ok op → json_op_ok op.
Proof.
  unfold json_entry. intros He. inv_res He. simplify_eq.
  by eapply json_op_intro; [eassumption|]; destruct a4.
Qed.

Lemma json_form_wf input req : json_form input = Ok req → request_wf req ∧ Forall json_op_ok (ops req).
Proof.
  unfold json_form. intros Hj. inv_res Hj. destruct a0 as [arr is_single].
  case_bool_decide as Hne; [destruct is_single; simpl in Hj|simpl in Hj];
    try done; (destruct (Nat.ltb_spec MAX_OPS (length arr)); [done|]); inv_res Hj.
  all: assert (Forall json_op_ok a0) as Hops by
    (apply Forall_forall; intros op Hop; destruct (try_map_elem _ _ _ _ Ha1 Hop) as (? & _ & ?);
     by eapply json_entry_Ok).
  - subst arr. by destruct a; simplify_eq/=.
  - pose proof (try_map_length _ _ _ Ha1) as Hlen.
    assert (1 ≤ length arr) by (destruct arr; simpl; [done|lia]).
    destruct is_single.
    + assert (length arr = 1) as Hone by by destruct a; simplify_eq/=.
      destruct a0 as [|op [|]]; simpl in *; try lia. simplify_eq. split; [|done].
      apply Forall_singleton in Hops as (Hop & Hf & _).
      split; [simpl; unfold MAX_OPS; lia|]. split; [simpl; auto|].
      split; [by apply Forall_singleton|]. split; [done|]. intros r ->%list_elem_of_singleton. by exists op.
    + simplify_eq. split; [|done]. apply json_request_wf; [lia|done].
Qed.
End json_form.

(** ** The contract of [parse_request] *)

Section parse_request.
Context `{Externals}.

(** The operations of the function-call forms come from [parse_op], those of
    the JSON form from [json_entry]. *)
Definition fn_form (input : string) : Prop :=
  looks_like_json (trim (to_bytes input)) = false.

Lemma run_wp {A} (m : PM A) (Q : A → Parser → Prop) p :
  wp m Q p → match run m p with
             | Done a => ∃ p', Q a p'
             | Fail _ => True
             | OutOfFuel => False
             end.
Proof. unfold wp, run. destruct (m p) as [[a p']| |]; eauto. Qed.

Lemma new_wf l : cursor_wf (new l).
Proof. unfold cursor_wf. simpl. lia. Qed.

Lemma parse_request_cases input :
  match parse_request input with
  | Done req =>
      request_wf req ∧
      (fn_form input → Forall (op_ok (new (trim (to_bytes input)))) (ops req)) ∧
      (¬ fn_form input →
         check_json_nesting_depth (trim (to_bytes input)) = Done () ∧
         json_form (of_bytes (trim (to_bytes input))) = Ok req)
  | Fail _ => True
  | OutOfFuel => False
  end.
Proof.
  unfold parse_request, fn_form. set (t := trim (to_bytes input)).
  destruct (bool_decide (t = [])); [done|]. destruct (MAX_OPS_INPUT_LEN <? _)%Z; [done|].
  destruct (looks_like_json t).
  - unfold parse_json_form. pose proof (check_json_nesting_depth_total t).
    destruct (check_json_nesting_depth t) as [[]| |]; [|done|done].
    destruct (json_form (of_bytes t)) as [req|] eqn:Hj; simpl; [|done].
    split; [by eapply json_form_wf|]. by split.
  - destruct (starts_with_byte "[" t).
    + pose proof (run_wp _ _ _ (wp_parse_fn_batch (new t) (new_wf t))) as Hw.
      destruct (run parse_fn_batch (new t)); [|done|done].
      destruct Hw as (p' & Hwf & Hops). split; [done|]. by split.
    + pose proof (run_wp _ _ _ (wp_parse_single_or_chain (new t) (new_wf t))) as Hw.
      destruct (run parse_single_or_chain (new t)); [|done|done].
      destruct Hw as (p' & Hwf & Hops). split; [done|]. by split.
Qed.
End parse_request.

(** C23: parsing always returns a request or an error: no input exhausts the
    recursion bounds of the model, whatever the JSON library answers. *)
Theorem parse_request_total `{Externals} input : parse_request input ≠ OutOfFuel.
Proof. pose proof (parse_request_cases input). by destruct (parse_request input). Qed.

(** C3: an accepted request has between one and [MAX_OPS] operations, ranges
    that partition them in source order, sorted and duplicate-free arguments
    without envelope-only names, and, outside chain mode, no reference in the
    first operation of a unit. *)
Theorem parse_request_wf `{Externals} input req :
  parse_request input = Done req → request_wf req.
Proof. intros Hp. pose proof (parse_request_cases input) as Hc. rewrite Hp in Hc. apply Hc. Qed.
