(* ===== verification/RequestLimits.v ===== *)
(** The nesting limit of accepted requests, under the documented behaviour of
    the JSON library, and the one spelling of a value that escapes it. *)

From Stdlib Require Import String Ascii ZArith.
From stdpp Require Import base tactics list strings gmap pretty.
From S2P Require Import Prelude RustStr Json RequestTypes Scan Parser ParserFacts Dispatch.

(** What the crate relies on of [serde_json::from_str]: a text that denotes an
    array or object starts, after whitespace, with its bracket; and the text of
    a value nests at least as deep as the value. *)
Class JsonLaws `{Externals} : Prop := {
  from_str_bracket s v :
    from_str s = Ok v → value_depth v ≠ 0 →
    ∃ ws c l, to_bytes s = ws ++ c :: l ∧ forallb is_json_space ws = true ∧
      (c = "["%char ∨ c = "{"%char);
  from_str_text s v :
    from_str s = Ok v → ∃ d, json_text (to_bytes s) d ∧ value_depth v ≤ d
}.

(** ** Folding keeps the depth *)

Lemma fold_array_depth els :
  arg_depth (fold_array els) = S (max_list_with arg_depth els).
Proof.
  unfold fold_array, all_values. destruct (mapM as_value els) as [vals|] eqn:E; [|done].
  simpl. f_equal. apply mapM_Some in E.
  induction E as [|a v els vals Ha _ IH]; simpl; [done|].
  rewrite IH. by destruct a; simplify_eq/=.
Qed.

Lemma fold_object_depth pairs :
  arg_depth (fold_object pairs) ≤ S (max_list_with (λ kv, arg_depth kv.2) pairs).
Proof.
  unfold fold_object, all_values. destruct (mapM as_value pairs.*2) as [vals|] eqn:E; [|done].
  simpl. apply le_n_S, max_list_with_le, Forall_forall. intros [k v] Hin. simpl.
  apply bm_of_list_elem, list_elem_of_lookup in Hin as [i Hi].
  apply lookup_zip_Some in Hi as [_ Hi]. apply mapM_Some in E.
  destruct (Forall2_lookup_r _ _ _ _ _ E Hi) as (a & Ha & Hav).
  rewrite list_lookup_fmap in Ha. apply fmap_Some in Ha as (kv & Hkv & ->).
  apply list_elem_of_lookup_2, (max_list_with_elem (λ kv, arg_depth kv.2)) in Hkv.
  destruct kv as [k' []]; simplify_eq/=. done.
Qed.

(** ** Scalars of a plain source *)

(** A source whose only whitespace is ASCII whitespace. *)
Definition VT : ascii := ascii_of_N 11.

Definition plain_source (s : bytes) : Prop :=
  Forall (λ c, (byte c < 128)%Z ∧ c ≠ VT) s.

Lemma drop_while_snoc {A} (f : A → bool) l x :
  f x = false → drop_while f (l ++ [x]) = drop_while f l ++ [x].
Proof.
  intros Hx. induction l as [|y l IH]; simpl; [by rewrite Hx|]. by destruct (f y).
Qed.

Lemma plain_whitespace c :
  (byte c < 128)%Z → c ≠ VT → is_ascii_whitespace c = false → is_whitespace [c] = false.
Proof.
  intros Hlt Hvt Hws. unfold is_ascii_whitespace in Hws. apply bool_decide_eq_false in Hws.
  assert (byte c ≠ 11)%Z as H11.
  { intros E. apply Hvt, byte_inj. by rewrite E. }
  unfold is_whitespace, code_point. simpl.
  rewrite bool_decide_eq_false_2 by (rewrite !elem_of_cons, elem_of_nil in *; lia).
  rewrite !elem_of_cons, elem_of_nil in Hws. lia.
Qed.

Lemma trim_head c l :
  plain_source (c :: l) → is_ascii_whitespace c = false → ∃ l', trim (c :: l) = c :: l'.
Proof.
  intros Hp Hc. apply Forall_cons in Hp as Hp'. destruct Hp' as [[Hlt Hvt] _].
  unfold trim, trim_chars.
  rewrite chars_ascii.
  2:{ unfold is_ascii. apply forallb_forall. intros d Hd.
      unfold plain_source in Hp. rewrite Forall_forall in Hp.
      apply list_elem_of_In, Hp in Hd as [Hd _]. by apply Z.ltb_lt. }
  rewrite fmap_cons. cbn [drop_while].
  rewrite (plain_whitespace c) by done. cbn [rev].
  rewrite drop_while_snoc by by apply plain_whitespace.
  rewrite rev_app_distr. simpl. eauto.
Qed.

Lemma plain_slice s start stop : plain_source s → plain_source (slice s start stop).
Proof. intros Hp. unfold slice, plain_source. by apply Forall_take, Forall_drop. Qed.

Lemma slice_head s start stop :
  slice s start stop = [] ∨
  ∃ c l, slice s start stop = c :: l ∧ s !! start = Some c.
Proof.
  unfold slice. destruct (stop - start) as [|n]; [by left|].
  destruct (drop start s) as [|c l] eqn:E; [by left|]. right. exists c, (take n l).
  split; [done|]. by rewrite <-(Nat.add_0_r start), <-lookup_drop, E.
Qed.

Section limits.
Context `{JsonLaws}.

Lemma scalar_depth s v : plain_source s → scalar_at s v → value_depth v = 0.
Proof.
  intros Hp (start & stop & hint & Hhead & Hdec).
  unfold decode_value in Hdec. destruct (starts_with_byte _ _).
  { inv_res Hdec. by simplify_eq. }
  destruct (from_str _) as [w|] eqn:Hw; simplify_eq/=.
  destruct (decide (value_depth v = 0)) as [|Hd]; [done|].
  destruct (from_str_bracket _ _ Hw Hd) as (ws & c & l & Htext & Hws & Hc).
  rewrite to_of_bytes in Htext.
  destruct (slice_head s start stop) as [E|(c' & l' & E & Hs)].
  { rewrite E in Htext. by destruct ws. }
  destruct (Hhead _ Hs) as [Hne Hsp].
  destruct (trim_head c' l') as [l'' Htrim]; [by rewrite <-E; apply plain_slice|done|].
  rewrite E, Htrim in Htext. exfalso. destruct ws as [|w ws]; simplify_eq/=.
  - destruct Hc as [->| ->]; set_solver.
  - apply andb_true_iff in Hws as [Hws _]. unfold is_json_space in Hws.
    rewrite !orb_true_iff, !eqb_byte_true in Hws.
    by destruct Hws as [[[->| ->]| ->]| ->].
Qed.

Lemma shape_depth s n a : plain_source s → arg_shape s n a → arg_depth a ≤ n.
Proof.
  intros Hp. revert n a. fix IH 3. intros n a [n' v Hv|n' r|n' path|n' els Hels|n' ps Hps].
  - simpl. rewrite (scalar_depth s v) by done. lia.
  - simpl. lia.
  - simpl. lia.
  - rewrite fold_array_depth. apply le_n_S, max_list_with_le.
    induction Hels; constructor; [by apply IH|done].
  - etransitivity; [apply fold_object_depth|]. apply le_n_S, max_list_with_le.
    induction Hps; constructor; [by apply IH|done].
Qed.

Definition op_depth_le (n : nat) (op : ParsedOp) : Prop :=
  Forall (λ kv, arg_depth kv.2 ≤ n) (args op).

Lemma json_args_depth l acc args n :
  json_args l acc = Ok args →
  Forall (λ kv, value_depth kv.2 ≤ n) l → Forall (λ kv, arg_depth kv.2 ≤ n) acc →
  Forall (λ kv, arg_depth kv.2 ≤ n) args.
Proof.
  revert acc. induction l as [|[k v] l IH]; intros acc; simpl; [by intros [= ->]|].
  destruct (json_value_contains_prev_ref v); [done|].
  intros Hj [Hv Hl]%Forall_cons Hacc. apply (IH _ Hj Hl).
  by apply bm_insert_Forall.
Qed.

Lemma object_fields_depth m n :
  value_depth (VObject m) ≤ n → Forall (λ kv, value_depth kv.2 ≤ n) m.
Proof.
  simpl. intros Hn. apply max_list_with_le. lia.
Qed.

Lemma json_entry_depth entry op n :
  json_entry entry = Ok op → value_depth entry ≤ n → op_depth_le n op.
Proof.
  unfold json_entry. intros He Hn. inv_res He. simplify_eq. unfold op_depth_le. simpl.
  eapply json_args_depth; [eassumption| |constructor].
  destruct entry as [| | | | |obj]; simplify_eq/=.
  match goal with H : context [bm_get "args"%string _] |- _ => rename H into Hargs end.
  destruct (bm_get "args"%string _) as [v|] eqn:Hget; simplify_eq/=; [|constructor].
  destruct v as [| | | | |m]; simplify_eq/=. apply object_fields_depth.
  apply bm_get_elem, (max_list_with_elem (λ kv, value_depth kv.2)) in Hget.
  simpl in Hget. simpl. lia.
Qed.

Lemma json_form_depth input req n :
  json_form input = Ok req →
  (∀ v, from_str input = Ok v → value_depth v ≤ n) →
  Forall (op_depth_le n) (ops req).
Proof.
  unfold json_form. intros Hj Hn. inv_res Hj. destruct a0 as [arr is_single].
  destruct (from_str input) as [v|]; simplify_eq/=. specialize (Hn _ eq_refl).
  destruct (bool_decide (arr = []) && negb is_single); [done|].
  destruct (MAX_OPS <? length arr); [done|]. inv_res Hj. simplify_eq. simpl.
  apply Forall_forall. intros op Hop.
  match goal with Hm : try_map _ _ = Ok _ |- _ =>
    destruct (try_map_elem _ _ _ _ Hm Hop) as (entry & Hin & He) end.
  apply (json_entry_depth entry); [done|].
  match goal with Hv : json_requests ?v = Ok _ |- _ => destruct v end; simplify_eq/=.
  - apply (max_list_with_elem value_depth) in Hin. lia.
  - apply list_elem_of_singleton in Hin as ->. done.
Qed.
End limits.

(** The arguments of an accepted request nest at most [NESTING_DEPTH_LIMIT]
    containers: always for the JSON form, and for the function-call form when
    the source holds no whitespace besides ASCII whitespace. *)
Theorem parse_request_nesting `{JsonLaws} input req :
  parse_request input = Done req →
  (fn_form input → plain_source (trim (to_bytes input))) →
  Forall (op_depth_le NESTING_DEPTH_LIMIT) (ops req).
Proof.
  intros Hp Hplain. pose proof (parse_request_cases input) as Hc. rewrite Hp in Hc.
  destruct Hc as (_ & Hfn & Hjson). destruct (decide (fn_form input)) as [Hf|Hf].
  - specialize (Hfn Hf). specialize (Hplain Hf). eapply Forall_impl; [exact Hfn|].
    intros op [_ [_ Hargs]]. eapply Forall_impl; [exact Hargs|]. intros kv [_ Hkv].
    apply shape_depth in Hkv; [|done]. done.
  - destruct (Hjson Hf) as [Hcheck Hform]. apply (json_form_depth _ _ _ Hform).
    intros v Hv. destruct (from_str_text _ _ Hv) as (d & Ht & Hd).
    rewrite to_of_bytes in Ht. apply (check_json_nesting_depth_spec _ _ Ht) in Hcheck. lia.
Qed.

(** ** A small JSON library

    It reads [null], nested one-element arrays and plain strings: enough to run
    the parser on concrete requests. *)
Module SmallJson.

Fixpoint nest (n : nat) : Value :=
  match n with 0 => VArray [] | S n' => VArray [nest n'] end.

Fixpoint nest_text (n : nat) : bytes :=
  match n with
  | 0 => ["["; "]"]%char
  | S n' => "["%char :: nest_text n' ++ ["]"%char]
  end.

Definition count_open (l : bytes) : nat := count_while (eqb_byte "["%char) l.

Definition syntax_error : serde_error := SerdeError 1 1 "expected value at line 1 column 1".

Definition read (s : string) : result Value serde_error :=
  if String.eqb s "null" then Ok VNull
  else let n := count_open (to_bytes s) - 1 in
       if bool_decide (to_bytes s = nest_text n) then Ok (nest n) else Err syntax_error.

(** The contents of a string literal without escapes. *)
Definition read_string (s : string) : result string serde_error :=
  match to_bytes s with
  | c :: l => if eqb_byte c dq_char && bool_decide (last l = Some dq_char)
                 && forallb (λ c, negb (is_ascii_control c)) l
              then Ok (of_bytes (take (length l - 1) l)) else Err syntax_error
  | [] => Err syntax_error
  end.

#[export] Instance externals : Externals := {
  from_str := read;
  from_str_string := read_string;
  value_display _ := "value";
  debug_escapes _ := false
}.

Lemma nest_depth n : value_depth (nest n) = S n.
Proof. induction n as [|n IH]; [done|]. simpl in *. by rewrite IH. Qed.

Lemma nest_json_text n : json_text (nest_text n) (S n).
Proof.
  induction n as [|n IH].
  - apply (jt_array []), jt_plain. constructor.
  - by apply jt_array.
Qed.

Lemma nest_text_head n : ∃ l, nest_text n = "["%char :: l.
Proof. destruct n; simpl; eauto. Qed.

Lemma read_cases s v :
  read s = Ok v → v = VNull ∧ s = "null"%string ∨ ∃ n, v = nest n ∧ to_bytes s = nest_text n.
Proof.
  unfold read. destruct (String.eqb_spec s "null"); [intros [= <-]; auto|].
  case_bool_decide; [|done]. intros [= <-]. eauto.
Qed.

#[export] Instance laws : JsonLaws.
Proof.
  split; intros s v [[-> ->]|(n & -> & Hs)]%read_cases.
  - done.
  - intros _. destruct (nest_text_head n) as [l Hl]. exists [], "["%char, l.
    rewrite Hs, Hl. auto.
  - exists 0. split; [|done]. apply jt_plain. repeat constructor; done.
  - exists (S n). rewrite Hs, nest_depth. split; [apply nest_json_text|done].
Qed.
End SmallJson.

Theorem parse_request_wf_witness :
  ∃ req, parse_request (H := SmallJson.externals) "[put(id=null), get() | del(id=$prev.id)]"
           = Done req ∧ length (ops req) = 3 ∧ request_wf req.
Proof.
  eexists. split; [vm_compute; reflexivity|]. split; [reflexivity|].
  apply (parse_request_wf (H := SmallJson.externals)
           "[put(id=null), get() | del(id=$prev.id)]").
  vm_compute. reflexivity.
Defined.

Theorem parse_request_nesting_witness :
  ∃ req, parse_request (H := SmallJson.externals) "f(x=[null, [[]]])" = Done req ∧
         Forall (op_depth_le NESTING_DEPTH_LIMIT) (ops req).
Proof.
  eexists. split; [vm_compute; reflexivity|].
  apply (parse_request_nesting (H := SmallJson.externals) (H0 := SmallJson.laws) "f(x=[null, [[]]])").
  - vm_compute. reflexivity.
  - intros _. vm_compute. repeat constructor; discriminate.
Defined.

(** ** A spelling that escapes the limit *)

(** [f(x=<VT>[[…]])]: the byte before the value is whitespace to [str::trim]
    but not to [skip_ws]. *)
Definition bypass_request : string :=
  of_bytes (to_bytes "f(x=" ++ [VT] ++ SmallJson.nest_text 64 ++ to_bytes ")").

(** The function-call form accepts a value nested deeper than
    [NESTING_DEPTH_LIMIT] when a vertical tab precedes it, since the value is
    then read as a scalar and handed to the JSON library whole; without that
    byte the same value is refused. *)
Theorem nesting_limit_escape :
  (∃ req op, parse_request (H := SmallJson.externals) bypass_request = Done req ∧
     op ∈ ops req ∧ ¬ op_depth_le NESTING_DEPTH_LIMIT op) ∧
  parse_request (H := SmallJson.externals)
    (of_bytes (to_bytes "f(x=" ++ SmallJson.nest_text 64 ++ to_bytes ")")) =
    Fail (NestingTooDeep 68 65 64).
Proof.
  split; [|vm_compute; reflexivity].
  do 2 eexists. split; [vm_compute; reflexivity|]. split; [left|].
  unfold op_depth_le. intros Hd%Forall_inv. revert Hd. vm_compute. lia.
Qed.

(** ** Typed JSON batches *)

(** What [parse_typed_json_batch] accepts of one operation. *)
Definition typed_acceptable (t : TypedJsonOp) : Prop :=
  value_depth (VObject (tj_args t)) ≤ NESTING_DEPTH_LIMIT - 2 ∧
  Forall (λ kv, Forall (λ s, is_prev_ref_string s = false) (value_strings kv.2)) (tj_args t) ∧
  Forall (λ name, name ∉ (tj_args t).*1) RESERVED_ENVELOPE_ARGS.

Lemma bm_of_sorted {K V} `{OrdLaws K} (l acc : list (K * V)) :
  bm_wf (acc ++ l) → foldl (λ m kv, bm_insert kv.1 kv.2 m) acc l = acc ++ l.
Proof.
  revert acc. induction l as [|[k v] l IH]; intros acc Hwf; simpl; [by rewrite app_nil_r|].
  assert (bm_insert k v acc = acc ++ [(k, v)]) as ->.
  2:{ rewrite IH; [by rewrite <-app_assoc|by rewrite <-app_assoc]. }
  clear IH. induction acc as [|[k' v'] acc IH]; [done|]. simpl in Hwf |- *.
  apply bm_wf_cons in Hwf as [Hk Hwf].
  rewrite Forall_forall in Hk. assert (cmp k' k = Lt) as Hlt.
  { apply Hk. rewrite fmap_app, elem_of_app. right. left. }
  apply cmp_Gt_Lt in Hlt. rewrite Hlt. by rewrite IH.
Qed.

Lemma json_args_spec l acc args :
  json_args l acc = Ok args ↔
    Forall (λ kv, json_value_contains_prev_ref kv.2 = false) l ∧
    args = foldl (λ m kv, bm_insert kv.1 kv.2 m) acc (prod_map id AValue <$> l).
Proof.
  revert acc. induction l as [|[k v] l IH]; intros acc; simpl.
  { split; [intros [= ->]; split; [constructor|done]|by intros [_ ->]]. }
  rewrite Forall_cons. simpl. destruct (json_value_contains_prev_ref v).
  - split; [done|]. by intros [[? _] _].
  - rewrite IH. naive_solver.
Qed.

Lemma args_values_wf l : bm_wf l → bm_wf (prod_map id AValue <$> l).
Proof.
  unfold bm_wf. rewrite <-list_fmap_compose.
  by replace (fst ∘ prod_map id AValue <$> l) with l.*1.
Qed.

Lemma typed_op_spec t op :
  bm_wf (tj_args t) →
  typed_op t = Ok op ↔
    typed_acceptable t ∧ op = mkOp (tj_tool t) (prod_map id AValue <$> tj_args t).
Proof.
  intros Hwf. unfold typed_op, typed_acceptable.
  set (v := VObject (tj_args t)). set (d := NESTING_DEPTH_LIMIT - 2).
  pose proof (value_nesting_within_limit_spec v d) as Hd.
  destruct (value_nesting_within_limit v d); simpl.
  2:{ split; [done|]. intros [[Hle _] _]. by apply Hd in Hle. }
  assert (Hdepth : value_depth v ≤ d) by by apply Hd.
  pose proof (bm_of_sorted (prod_map id AValue <$> tj_args t) [] (args_values_wf _ Hwf)) as Hfold.
  assert (Hkeys : (prod_map id AValue <$> tj_args t).*1 = (tj_args t).*1)
    by by rewrite <-list_fmap_compose.
  assert (Hprev : Forall (λ kv, json_value_contains_prev_ref kv.2 = false) (tj_args t) ↔
    Forall (λ kv, Forall (λ s, is_prev_ref_string s = false) (value_strings kv.2)) (tj_args t)).
  { rewrite !Forall_forall. split; intros HF kv Hkv; specialize (HF kv Hkv).
    - by apply (proj1 (json_value_contains_prev_ref_spec kv.2)).
    - apply (proj2 (json_value_contains_prev_ref_spec kv.2)); [|done].
      apply (max_list_with_elem (λ kv, value_depth kv.2)) in Hkv.
      change (value_depth v) with (S (max_list_with (λ kv, value_depth kv.2) (tj_args t)))
        in Hdepth. unfold d, NESTING_DEPTH_LIMIT in *. lia. }
  rewrite res_bind_Ok. setoid_rewrite json_args_spec.
  split.
  - intros (args & [Hp ->] & Hr). rewrite Hfold in Hr. inv_res Hr. simplify_eq.
    destruct a. apply reject_reserved_args_Ok in Ha; [|by apply args_values_wf].
    destruct Ha as [_ Hres]. simpl in Hres. rewrite Hkeys in Hres. naive_solver.
  - intros ((_ & Hs & Hres) & ->). exists (prod_map id AValue <$> tj_args t).
    rewrite Hfold. split; [naive_solver|]. apply res_bind_Ok. exists (). split; [|done].
    apply reject_reserved_args_Ok; [by apply args_values_wf|].
    split; [by apply args_values_wf|]. simpl. by rewrite Hkeys.
Qed.

Lemma try_map_spec {A B E} (f : A → result B E) (P : A → Prop) (g : A → B) l k :
  (∀ x y, x ∈ l → f x = Ok y ↔ P x ∧ y = g x) →
  try_map f l = Ok k ↔ Forall P l ∧ k = g <$> l.
Proof.
  revert k. induction l as [|x l IH]; intros k Hf; simpl.
  { split; [intros [= <-]; split; [constructor|done]|by intros [_ ->]]. }
  rewrite Forall_cons, res_bind_Ok. setoid_rewrite res_bind_Ok. setoid_rewrite Hf; [|left].
  setoid_rewrite IH; [|intros; apply Hf; by right]. split.
  - intros (y & [Hx ->] & ys & [Hl ->] & [= <-]). auto.
  - intros [[Hx Hl] ->]. naive_solver.
Qed.

(** A typed batch is accepted exactly when it has one to [MAX_OPS]
    operations, each within the nesting bound, without [$prev] strings and
    without envelope-only names; the request then carries the same tools and
    arguments, one unit per operation. *)
Theorem parse_typed_json_batch_spec batch req :
  Forall (λ t, bm_wf (tj_args t)) batch →
  parse_typed_json_batch batch = Ok req ↔
    1 ≤ length batch ≤ MAX_OPS ∧ Forall typed_acceptable batch ∧
    req = mkRequest ((λ t, mkOp (tj_tool t) (prod_map id AValue <$> tj_args t)) <$> batch)
            Parallel (unit_ranges (length batch)).
Proof.
  intros Hwf. unfold parse_typed_json_batch. case_bool_decide as Hne.
  { subst. simpl. split; [done|lia]. }
  assert (1 ≤ length batch) by (destruct batch; simpl; [done|lia]).
  destruct (Nat.ltb_spec MAX_OPS (length batch)); [split; [done|lia]|].
  rewrite res_bind_Ok. rewrite Forall_forall in Hwf.
  setoid_rewrite (try_map_spec typed_op typed_acceptable
    (λ t, mkOp (tj_tool t) (prod_map id AValue <$> tj_args t)) batch _
    (λ t op Ht, typed_op_spec t op (Hwf t Ht))).
  split.
  - intros (ops & [? ->] & [= <-]). auto.
  - intros (_ & ? & ->). eauto.
Qed.

Theorem parse_typed_json_batch_spec_witness :
  ∃ req, parse_typed_json_batch [mkTyped "get" [("id", VNull)]%string] = Ok req ∧
         length (ops req) = 1.
Proof.
  eexists. split.
  - apply (parse_typed_json_batch_spec [mkTyped "get" [("id", VNull)]%string]).
    + repeat constructor.
    + split; [vm_compute; lia|]. split; [|reflexivity]. constructor; [|constructor].
      split; [vm_compute; lia|]. split; [repeat constructor|].
      repeat constructor; intros Hin; apply list_elem_of_singleton in Hin; discriminate.
  - reflexivity.
Defined.
