(* ===== verification/EdgeOntology.v ===== *)
(** khive-types/src/edge.rs and edge_rules.rs: the closed set of edge relations,
    their names, the canonical order of endpoints, and the base endpoint
    allowlist; with the variant error of error.rs. *)

From Stdlib Require Import String Ascii ZArith.
From stdpp Require Import base tactics list strings gmap.
From S2P Require Import Prelude RustStr Json.

(** ** [UnknownVariant] *)

Record UnknownVariant : Type := mkUnknown {
  uv_domain : string;
  uv_value : string;
  uv_valid : list string
}.

(** [impl fmt::Display for UnknownVariant] *)
Definition UnknownVariant_fmt `{Externals} (e : UnknownVariant) : string :=
  "unknown " +:+ uv_domain e +:+ ": " +:+ str_debug (uv_value e) +:+ ". Valid: "
  +:+ String.concat " | " (uv_valid e).

(** ** Relations *)

Inductive EdgeCategory : Type :=
| Structure | Derivation | Provenance | Temporal | Dependency | Implementation
| Lateral | Annotation | Epistemic | Ownership.

Inductive EdgeRelation : Type :=
| Contains | PartOf | InstanceOf | LinksTo | LocatedIn
| Extends | VariantOf | IntroducedBy | Supersedes
| DerivedFrom
| Precedes
| DependsOn | Enables
| Implements
| CompetesWith | ComposedWith
| Annotates
| Supports | Refutes
| Owns.

#[export] Instance EdgeCategory_eq_dec : EqDecision EdgeCategory.
Proof. solve_decision. Defined.
#[export] Instance EdgeRelation_eq_dec : EqDecision EdgeRelation.
Proof. solve_decision. Defined.

Definition ALL : list EdgeRelation :=
  [Contains; PartOf; InstanceOf; LinksTo; LocatedIn; Extends; VariantOf; IntroducedBy;
   Supersedes; DerivedFrom; Precedes; DependsOn; Enables; Implements; CompetesWith;
   ComposedWith; Annotates; Supports; Refutes; Owns].

Definition VALID_NAMES : list string :=
  ["contains"; "part_of"; "instance_of"; "links_to"; "located_in"; "extends"; "variant_of";
   "introduced_by"; "supersedes"; "derived_from"; "precedes"; "depends_on"; "enables";
   "implements"; "competes_with"; "composed_with"; "annotates"; "supports"; "refutes"; "owns"].

Definition is_symmetric (r : EdgeRelation) : bool :=
  match r with CompetesWith | ComposedWith => true | _ => false end.

Definition canonical_endpoints {T} `{Ord T} (r : EdgeRelation) (source target : T) : T * T :=
  if is_symmetric r && match cmp target source with Lt => true | _ => false end
  then (target, source) else (source, target).

Definition category (r : EdgeRelation) : EdgeCategory :=
  match r with
  | Contains | PartOf | InstanceOf | LinksTo | LocatedIn => Structure
  | Extends | VariantOf | IntroducedBy | Supersedes => Derivation
  | DerivedFrom => Provenance
  | Precedes => Temporal
  | DependsOn | Enables => Dependency
  | Implements => Implementation
  | CompetesWith | ComposedWith => Lateral
  | Annotates => Annotation
  | Supports | Refutes => Epistemic
  | Owns => Ownership
  end.

Definition as_str (r : EdgeRelation) : string :=
  match r with
  | Contains => "contains"
  | PartOf => "part_of"
  | InstanceOf => "instance_of"
  | LinksTo => "links_to"
  | LocatedIn => "located_in"
  | Extends => "extends"
  | VariantOf => "variant_of"
  | IntroducedBy => "introduced_by"
  | Supersedes => "supersedes"
  | DerivedFrom => "derived_from"
  | Precedes => "precedes"
  | DependsOn => "depends_on"
  | Enables => "enables"
  | Implements => "implements"
  | CompetesWith => "competes_with"
  | ComposedWith => "composed_with"
  | Annotates => "annotates"
  | Supports => "supports"
  | Refutes => "refutes"
  | Owns => "owns"
  end.

(** The characters [from_str] keeps: hyphens become underscores, letters are
    lowered, anything else is refused. *)
Definition normalise_char (c : ascii) : option ascii :=
  if eqb_byte c "-"%char || eqb_byte c "_"%char then Some "_"%char
  else if is_ascii_alphanumeric c then Some (to_ascii_lowercase c)
  else None.

Definition normalise (s : string) : option string :=
  of_bytes <$> mapM normalise_char (to_bytes s).

(** The arms of the [match normalised.as_str()]. *)
Definition name_arms : list (list string * EdgeRelation) :=
  [(["contains"], Contains); (["part_of"; "partof"], PartOf);
   (["instance_of"; "instanceof"], InstanceOf); (["links_to"; "linksto"], LinksTo);
   (["located_in"; "locatedin"], LocatedIn); (["extends"], Extends);
   (["variant_of"; "variantof"], VariantOf); (["introduced_by"; "introducedby"], IntroducedBy);
   (["supersedes"], Supersedes); (["derived_from"; "derivedfrom"], DerivedFrom);
   (["precedes"], Precedes); (["depends_on"; "dependson"], DependsOn); (["enables"], Enables);
   (["implements"], Implements); (["competes_with"; "competeswith"], CompetesWith);
   (["composed_with"; "composedwith"], ComposedWith); (["annotates"], Annotates);
   (["supports"], Supports); (["refutes"], Refutes); (["owns"], Owns)]%string.

Definition from_str (s : string) : result EdgeRelation UnknownVariant :=
  let unknown := mkUnknown "edge_relation" s VALID_NAMES in
  match normalise s with
  | None => Err unknown
  | Some n =>
      match List.find (λ arm, existsb (String.eqb n) arm.1) name_arms with
      | Some arm => Ok arm.2
      | None => Err unknown
      end
  end.

(** ** Endpoint rules *)

Inductive EndpointKind : Type :=
| NoteOfKind (k : string)
| EntityOfKind (k : string)
| EntityOfType (kind entity_type : string).

Definition endpoint_matches (spec : EndpointKind) (substrate kind : string)
    (entity_type : option string) : bool :=
  match spec with
  | EntityOfKind k => String.eqb substrate "entity" && String.eqb k kind
  | NoteOfKind k => String.eqb substrate "note" && String.eqb k kind
  | EntityOfType k t =>
      String.eqb substrate "entity" && String.eqb k kind
      && bool_decide (entity_type = Some t)
  end.

Definition BASE_ENTITY_ENDPOINT_RULES : list (string * EdgeRelation * string) :=
  [("concept", Contains, "concept"); ("project", Contains, "project");
   ("project", Contains, "artifact"); ("org", Contains, "project");
   ("org", Contains, "service"); ("concept", PartOf, "concept"); ("project", PartOf, "project");
   ("project", PartOf, "org"); ("*", InstanceOf, "concept"); ("service", InstanceOf, "project");
   ("document", LinksTo, "document"); ("concept", LocatedIn, "concept");
   ("org", LocatedIn, "concept"); ("person", Owns, "org"); ("org", Owns, "org");
   ("concept", Extends, "concept"); ("concept", VariantOf, "concept");
   ("artifact", VariantOf, "artifact"); ("concept", IntroducedBy, "document");
   ("concept", IntroducedBy, "person"); ("artifact", IntroducedBy, "document");
   ("project", IntroducedBy, "document"); ("service", IntroducedBy, "document");
   ("document", IntroducedBy, "person"); ("document", IntroducedBy, "org");
   ("concept", IntroducedBy, "org"); ("artifact", DerivedFrom, "dataset");
   ("artifact", DerivedFrom, "document"); ("artifact", DerivedFrom, "project");
   ("artifact", DerivedFrom, "artifact"); ("document", DerivedFrom, "document");
   ("document", Precedes, "document"); ("dataset", Precedes, "dataset");
   ("artifact", Precedes, "artifact"); ("service", Precedes, "service");
   ("project", Precedes, "project"); ("project", DependsOn, "project");
   ("service", DependsOn, "project"); ("service", DependsOn, "service");
   ("service", DependsOn, "artifact"); ("service", DependsOn, "dataset");
   ("artifact", DependsOn, "project"); ("artifact", DependsOn, "service");
   ("document", DependsOn, "document"); ("concept", Enables, "concept");
   ("service", Enables, "concept"); ("dataset", Enables, "concept");
   ("project", Implements, "concept"); ("service", Implements, "concept");
   ("artifact", Implements, "concept"); ("concept", CompetesWith, "concept");
   ("project", CompetesWith, "project"); ("service", CompetesWith, "service");
   ("org", CompetesWith, "org"); ("concept", ComposedWith, "concept");
   ("project", ComposedWith, "project"); ("concept", Supersedes, "concept");
   ("document", Supersedes, "document"); ("artifact", Supersedes, "artifact");
   ("service", Supersedes, "service"); ("dataset", Supersedes, "dataset");
   ("concept", Supports, "concept"); ("document", Supports, "concept");
   ("dataset", Supports, "concept"); ("artifact", Supports, "concept");
   ("concept", Refutes, "concept"); ("document", Refutes, "concept");
   ("dataset", Refutes, "concept"); ("artifact", Refutes, "concept")]%string.

Definition base_entity_rule_allows (src_kind : string) (relation : EdgeRelation)
    (tgt_kind : string) : bool :=
  existsb (λ '(src, rel, tgt),
    bool_decide (rel = relation) && (String.eqb src "*" || String.eqb src src_kind)
    && String.eqb tgt tgt_kind) BASE_ENTITY_ENDPOINT_RULES.

(** ** Names *)

(** The name without its separators. *)
Definition squash (s : string) : string :=
  of_bytes (filter (λ c, c ≠ "_"%char) (to_bytes s)).

(** The names [from_str] takes for a relation: the canonical one and its
    squashed form. *)
Definition names_of (r : EdgeRelation) : list string :=
  if decide (squash (as_str r) = as_str r) then [as_str r] else [as_str r; squash (as_str r)].

Lemma name_arms_ALL : name_arms = (λ r, (names_of r, r)) <$> ALL.
Proof. vm_compute. reflexivity. Qed.

Lemma elem_of_ALL r : r ∈ ALL.
Proof. apply (proj1 (bool_decide_eq_true (r ∈ ALL))). by destruct r. Qed.

Lemma elem_of_names_of n r : n ∈ names_of r ↔ n = as_str r ∨ n = squash (as_str r).
Proof.
  unfold names_of. case_decide as E.
  - rewrite list_elem_of_singleton, E. tauto.
  - rewrite !elem_of_cons, elem_of_nil. tauto.
Qed.

Lemma names_of_disjoint n r r' : n ∈ names_of r → n ∈ names_of r' → r = r'.
Proof.
  intros Hr Hr'. apply dec_stable. intros Hne.
  assert (forallb (λ r, forallb (λ r', bool_decide (r = r') ||
    forallb (λ n, negb (bool_decide (n ∈ names_of r'))) (names_of r)) ALL) ALL = true) as Hall
    by (vm_compute; reflexivity).
  rewrite forallb_forall in Hall. specialize (Hall r (proj1 (list_elem_of_In _ _) (elem_of_ALL r))).
  rewrite forallb_forall in Hall. specialize (Hall r' (proj1 (list_elem_of_In _ _) (elem_of_ALL r'))).
  rewrite bool_decide_eq_false_2 in Hall by done. simpl in Hall.
  rewrite forallb_forall in Hall. specialize (Hall n (proj1 (list_elem_of_In _ _) Hr)).
  by rewrite bool_decide_eq_true_2 in Hall.
Qed.

Lemma existsb_eqb n l : existsb (String.eqb n) l = true ↔ n ∈ l.
Proof.
  rewrite existsb_exists. setoid_rewrite String.eqb_eq. setoid_rewrite <-list_elem_of_In.
  naive_solver.
Qed.

(** A relation name is accepted exactly when, with hyphens read as
    underscores and letters lowered, it is the canonical name of the relation or
    that name without its separators. *)
Theorem edge_from_str_spec s r :
  from_str s = Ok r ↔ ∃ n, normalise s = Some n ∧ (n = as_str r ∨ n = squash (as_str r)).
Proof.
  unfold from_str. destruct (normalise s) as [n|]; [|naive_solver].
  setoid_rewrite <-elem_of_names_of.
  assert (Hfind : ∀ arm, List.find (λ arm, existsb (String.eqb n) arm.1) name_arms = Some arm →
    n ∈ names_of arm.2).
  { intros arm [Hin Hn%existsb_eqb]%List.find_some.
    rewrite name_arms_ALL in Hin. apply list_elem_of_In, list_elem_of_fmap in Hin as (r' & -> & _).
    done. }
  destruct (List.find _ name_arms) as [arm|] eqn:E.
  - specialize (Hfind arm eq_refl). split; [intros [= <-]; eauto|].
    intros (n' & [= <-] & Hn). f_equal. by eapply names_of_disjoint.
  - split; [done|]. intros (n' & [= <-] & Hn). exfalso.
    assert ((names_of r, r) ∈ name_arms) as Hin.
    { rewrite name_arms_ALL. apply list_elem_of_fmap. exists r. split; [done|apply elem_of_ALL]. }
    apply list_elem_of_In in Hin. apply (List.find_none _ _ E) in Hin. simpl in Hin.
    apply existsb_eqb in Hn. congruence.
Qed.

Lemma normalise_as_str r : normalise (as_str r) = Some (as_str r).
Proof. by destruct r. Qed.

(** The wire name of every relation parses back to it. *)
Theorem edge_name_roundtrip r : from_str (as_str r) = Ok r.
Proof. apply edge_from_str_spec. exists (as_str r). split; [apply normalise_as_str|auto]. Qed.

Lemma valid_names_ALL : VALID_NAMES = as_str <$> ALL ∧ NoDup ALL.
Proof. split; [reflexivity|]. apply (proj1 (bool_decide_eq_true (NoDup ALL))). vm_compute. reflexivity. Qed.

(** ** Canonical endpoints *)

Section canonical.
Context {T : Type} `{OrdLaws T}.

Lemma canonical_endpoints_swap r (a b : T) :
  is_symmetric r = true → canonical_endpoints r a b = canonical_endpoints r b a.
Proof.
  unfold canonical_endpoints. intros ->. simpl. rewrite (cmp_flip a b).
  destruct (cmp a b) eqn:E; simpl; [|done..]. by apply cmp_eq in E as ->.
Qed.

Lemma canonical_endpoints_directed r (a b : T) :
  is_symmetric r = false → canonical_endpoints r a b = (a, b).
Proof. unfold canonical_endpoints. by intros ->. Qed.

Lemma canonical_endpoints_cases r (a b : T) :
  canonical_endpoints r a b = (a, b) ∨
  is_symmetric r = true ∧ canonical_endpoints r a b = (b, a) ∧ cmp b a = Lt.
Proof.
  unfold canonical_endpoints. destruct (is_symmetric r); simpl; [|auto].
  destruct (cmp b a); auto.
Qed.

Lemma canonical_endpoints_idemp r (a b : T) :
  let p := canonical_endpoints r a b in canonical_endpoints r p.1 p.2 = p.
Proof.
  destruct (canonical_endpoints_cases r a b) as [E|(Hs & E & Hlt)]; rewrite E; simpl;
    [exact E|].
  unfold canonical_endpoints. by rewrite Hs, (cmp_flip b a), Hlt.
Qed.
End canonical.

(** Two spellings of an edge have the same stored endpoints exactly when
    they are the same edge: equal endpoints, or swapped ones under a symmetric
    relation. *)
Theorem canonical_endpoints_spec {T} `{OrdLaws T} r (a b c d : T) :
  canonical_endpoints r a b = canonical_endpoints r c d ↔
    (a = c ∧ b = d) ∨ (is_symmetric r = true ∧ a = d ∧ b = c).
Proof.
  split.
  - destruct (canonical_endpoints_cases r a b) as [->|(? & -> & ?)],
      (canonical_endpoints_cases r c d) as [->|(? & -> & ?)]; intros [= -> ->]; auto.
  - intros [[-> ->]|(? & -> & ->)]; [done|]. by apply canonical_endpoints_swap.
Qed.

Theorem canonical_endpoints_spec_witness :
  canonical_endpoints CompetesWith 2 1 = canonical_endpoints CompetesWith 1 2.
Proof.
  apply (canonical_endpoints_spec (T := nat) CompetesWith 2 1 1 2).
  right. split; [reflexivity|]. split; reflexivity.
Defined.

(** ** The allowlist *)

Lemma base_rules_swap :
  forallb (λ '(src, rel, tgt),
    negb (is_symmetric rel) || String.eqb src tgt) BASE_ENTITY_ENDPOINT_RULES = true.
Proof. vm_compute. reflexivity. Qed.

(** Storing a symmetric edge with its endpoints swapped never changes
    whether the base allowlist permits it. *)
Theorem base_entity_rule_symmetric r src tgt :
  is_symmetric r = true →
  base_entity_rule_allows src r tgt = base_entity_rule_allows tgt r src.
Proof.
  intros Hr. cut (∀ src tgt, base_entity_rule_allows src r tgt = true →
    base_entity_rule_allows tgt r src = true).
  { intros Hc. apply eq_iff_eq_true. split; apply Hc. }
  clear src tgt. intros src tgt. unfold base_entity_rule_allows. rewrite !existsb_exists.
  intros ([[s rel] t] & Hin & Hmatch). exists (s, rel, t). split; [done|].
  pose proof base_rules_swap as Hsw. rewrite forallb_forall in Hsw. specialize (Hsw _ Hin).
  rewrite !andb_true_iff, bool_decide_eq_true in Hmatch.
  destruct Hmatch as [[-> Hsrc] ->%String.eqb_eq]. simpl in Hsw. rewrite Hr in Hsw.
  simpl in Hsw. apply String.eqb_eq in Hsw as ->.
  rewrite bool_decide_eq_true_2 by done. simpl. rewrite String.eqb_refl, orb_true_r. simpl.
  apply orb_true_iff in Hsrc as [Hsrc|Hsrc]; [|done].
  apply String.eqb_eq in Hsrc as ->. exfalso. revert Hin. vm_compute. naive_solver.
Qed.

Theorem base_entity_rule_symmetric_witness :
  base_entity_rule_allows "concept" ComposedWith "service" =
  base_entity_rule_allows "service" ComposedWith "concept".
Proof. apply (base_entity_rule_symmetric ComposedWith). reflexivity. Defined.
