(* ===== verification/Conflict.v ===== *)
(** khive-request/src/conflict.rs: statically known write keys, their direct
    conflicts inside a flat batch, and the conflicts between the units of a batch
    of chains. *)

From Stdlib Require Import String Ascii ZArith.
From stdpp Require Import base tactics list strings gmap pretty sorting.
From S2P Require Import Prelude RustStr Json RequestTypes Dispatch EdgeOntology.

(** ** Write keys *)

(** [Some(ArgValue::Value(Value::String(s)))] of an argument. *)
Definition str_arg (a : option ArgValue) : option string :=
  match a with Some (AValue (VString s)) => Some s | _ => None end.

(** [push_link_key]: the natural key of an edge. *)
Definition link_key (source target relation : string) : string :=
  let parsed := match from_str relation with Ok r => Some r | Err _ => None end in
  let relation_key := match parsed with Some r => as_str r | None => relation end in
  let '(source_key, target_key) :=
    match parsed with Some r => canonical_endpoints r source target | None => (source, target) end in
  "edge-natural:" +:+ source_key +:+ ":" +:+ target_key +:+ ":" +:+ relation_key.

(** [op.args.get(canonical).or_else(|| op.args.get(alias))] *)
Definition link_arg (op : ParsedOp) (canonical alias : string) : option ArgValue :=
  match bm_get canonical (args op) with
  | Some a => Some a
  | None => bm_get alias (args op)
  end.

(** The key of one entry of a bulk [links] array. *)
Definition bulk_link_key (link : Value) : option string :=
  obj ← as_object link;
  s ← (v ← bm_get "source_id"%string obj; Json.as_str v);
  t ← (v ← bm_get "target_id"%string obj; Json.as_str v);
  r ← (v ← bm_get "relation"%string obj; Json.as_str v);
  Some (link_key s t r).

Definition entity_key (s : string) : string := "entity:" +:+ s.

Definition opt_list {A} (o : option A) : list A := match o with Some x => [x] | None => [] end.

Definition write_keys_for_op_pub (op : ParsedOp) : list string :=
  if String.eqb (tool op) "update" || String.eqb (tool op) "delete" then
    opt_list (entity_key <$> str_arg (bm_get "id"%string (args op)))
  else if String.eqb (tool op) "merge" then
    match bm_get "dry_run"%string (args op) with
    | Some (AValue (VBool true)) => []
    | _ => concat (map (λ name, opt_list (entity_key <$> str_arg (bm_get name (args op))))
                     ["into_id"; "from_id"]%string)
    end
  else if String.eqb (tool op) "link" then
    opt_list (s ← str_arg (link_arg op "source_id" "source");
              t ← str_arg (link_arg op "target_id" "target");
              r ← str_arg (link_arg op "relation" "kind");
              Some (link_key s t r))
    ++ match bm_get "links"%string (args op) with
       | Some (AValue (VArray links)) => concat (map (λ link, opt_list (bulk_link_key link)) links)
       | _ => []
       end
  else [].

(** ** Participants *)

(** [claims.entry(key).or_default().push(index)] *)
Definition push_claim (index : nat) (claims : gmap string (list nat)) (key : string)
    : gmap string (list nat) :=
  <[key := default [] (claims !! key) ++ [index]]> claims.

Definition key_claims (ops : list ParsedOp) : gmap string (list nat) :=
  foldl (λ claims iop, foldl (push_claim iop.1) claims (write_keys_for_op_pub iop.2))
    ∅ (enumerate ops).

(** [keys] lists the claims in the arbitrary order of the hash map. *)
Definition participants_for_keys (count : nat) (keys : list (list nat)) : list (list nat) :=
  foldl (λ participants claims,
    let claims := bs_extend claims [] in
    foldl (λ participants index, alter (bs_extend claims) index participants)
      participants claims)
    (replicate count []) keys.

Definition write_key_conflict_ops (ops : list ParsedOp) : list (list nat) :=
  participants_for_keys (length ops)
    (filter (λ claims, 1 < length claims) (map_to_list (key_claims ops)).*2).

(** [for leaf in range { unit_of[leaf] = unit }] for every unit. *)
Definition unit_of_leaf (count : nat) (ranges : list range) : list nat :=
  foldl (λ unit_of ur,
    foldl (λ unit_of leaf, <[leaf := ur.1]> unit_of) unit_of
      (seq (r_start ur.2) (r_end ur.2 - r_start ur.2)))
    (replicate count 0) (enumerate ranges).

Definition spans_units (unit_of : list nat) (claims : list nat) : bool :=
  existsb (λ leaf, negb (bool_decide
    (unit_of !! leaf = (c ← head claims; unit_of !! c)))) claims.

Definition unit_write_key_conflict_ops (ops : list ParsedOp) (ranges : list range)
    : list (list nat) :=
  let unit_of := unit_of_leaf (length ops) ranges in
  participants_for_keys (length ops)
    (filter (λ claims, spans_units unit_of claims = true) (map_to_list (key_claims ops)).*2).

(** ** Cross-unit conflicts *)

Record UnitKeyConflict : Type := mkConflict {
  c_key : string;
  c_leaf : nat;
  c_other_unit : nat;
  c_other_leaf : nat
}.

#[export] Instance UnitKeyConflict_eq_dec : EqDecision UnitKeyConflict.
Proof. solve_decision. Defined.

(** The first leaf of a unit that claims each key. *)
Definition unit_keys (ops : list ParsedOp) (r : range) : gmap string nat :=
  foldl (λ keys leaf,
    foldl (λ keys key, match keys !! key with
                       | Some _ => keys
                       | None => <[key := leaf]> keys
                       end) keys
      (match ops !! leaf with Some op => write_keys_for_op_pub op | None => [] end))
    ∅ (seq (r_start r) (r_end r - r_start r)).

Record claim_state : Type := mkClaims {
  first_claim : gmap string (nat * nat);
  conflicts : gmap nat (list UnitKeyConflict)
}.

(** [conflicts.entry(unit).or_default().push(c)] *)
Definition push_conflict (unit : nat) (c : UnitKeyConflict)
    (m : gmap nat (list UnitKeyConflict)) : gmap nat (list UnitKeyConflict) :=
  <[unit := default [] (m !! unit) ++ [c]]> m.

Definition claim_step (unit_index : nat) (st : claim_state) (kl : string * nat) : claim_state :=
  let '(key, leaf) := kl in
  match first_claim st !! key with
  | Some (other_unit, other_leaf) =>
      if bool_decide (other_unit ≠ unit_index) then
        mkClaims (first_claim st)
          (push_conflict other_unit (mkConflict key other_leaf unit_index leaf)
             (push_conflict unit_index (mkConflict key leaf other_unit other_leaf)
                (conflicts st)))
      else st
  | None => mkClaims (<[key := (unit_index, leaf)]> (first_claim st)) (conflicts st)
  end.

(** [entries.sort_by_key(|c| (c.leaf, c.other_leaf))] *)
Definition conflict_cmp (a b : UnitKeyConflict) : comparison :=
  cmp (c_leaf a, c_other_leaf a) (c_leaf b, c_other_leaf b).

(** [Vec::dedup]: consecutive equal entries collapse. *)
Fixpoint dedup (l : list UnitKeyConflict) : list UnitKeyConflict :=
  match l with
  | [] => []
  | x :: l' => match l' with
               | y :: _ => if decide (x = y) then dedup l' else x :: dedup l'
               | [] => [x]
               end
  end.

(** [order] is the iteration order of a unit's hash map. *)
Definition unit_write_key_conflicts_with (order : gmap string nat → list (string * nat))
    (ops : list ParsedOp) (ranges : list range) : gmap nat (list UnitKeyConflict) :=
  let per_unit_keys := unit_keys ops <$> ranges in
  let st := foldl (λ st uk, foldl (claim_step uk.1) st (order uk.2))
              (mkClaims ∅ ∅) (enumerate per_unit_keys) in
  (λ entries, dedup (sort_by conflict_cmp entries)) <$> conflicts st.

Definition unit_write_key_conflicts (ops : list ParsedOp) (ranges : list range)
    : gmap nat (list UnitKeyConflict) :=
  unit_write_key_conflicts_with map_to_list ops ranges.

(** What the write-conflict analysis reports: exactly the leaves that share a
    statically known key, symmetrically and independently of hash-map order. *)

(** Leaf [i] statically claims [key]. *)
Definition claims_key (ops : list ParsedOp) (i : nat) (key : string) : Prop :=
  ∃ op, ops !! i = Some op ∧ key ∈ write_keys_for_op_pub op.

(** Every claim of [key], in order, a leaf once per occurrence. *)
Definition occurrences (ops : list ParsedOp) (key : string) : list nat :=
  concat ((λ iop, (λ _, iop.1) <$> filter (λ k, k = key) (write_keys_for_op_pub iop.2))
    <$> enumerate ops).

(** ** Claims *)

Definition claims_at (m : gmap string (list nat)) (key : string) : list nat :=
  default [] (m !! key).

Lemma push_claims_at i ks m key :
  claims_at (foldl (push_claim i) m ks) key =
    claims_at m key ++ ((λ _, i) <$> filter (λ k, k = key) ks).
Proof.
  revert m. induction ks as [|k ks IH]; intros m; simpl; [by rewrite app_nil_r|].
  rewrite IH, filter_cons. unfold push_claim, claims_at. case_decide as E.
  - subst. rewrite lookup_insert_eq. simpl. by rewrite <-app_assoc.
  - by rewrite lookup_insert_ne.
Qed.

Lemma key_claims_at ops key : claims_at (key_claims ops) key = occurrences ops key.
Proof.
  unfold key_claims, occurrences.
  cut (∀ l m, claims_at (foldl (λ claims iop, foldl (push_claim iop.1) claims
      (write_keys_for_op_pub iop.2)) m l) key =
    claims_at m key ++ concat ((λ iop : nat * ParsedOp, (λ _, iop.1) <$>
      filter (λ k, k = key) (write_keys_for_op_pub iop.2)) <$> l)).
  { intros ->. done. }
  induction l as [|iop l IH]; intros m; simpl; [by rewrite app_nil_r|].
  by rewrite IH, push_claims_at, <-app_assoc.
Qed.

Lemma key_claims_nonempty ops key : key_claims ops !! key ≠ Some [].
Proof.
  unfold key_claims.
  assert (Hpush : ∀ i ks m, (∀ key, m !! key ≠ Some []) →
    ∀ key, foldl (push_claim i) m ks !! key ≠ Some []).
  { intros i. induction ks as [|k ks IH]; intros m Hm key'; simpl; [apply Hm|].
    apply IH. intros key2. unfold push_claim. destruct (decide (k = key2)) as [->|].
    - rewrite lookup_insert_eq. by destruct (default [] _).
    - by rewrite lookup_insert_ne. }
  cut (∀ l m, (∀ key, m !! key ≠ Some []) → ∀ key,
    foldl (λ claims (iop : nat * ParsedOp), foldl (push_claim iop.1) claims
      (write_keys_for_op_pub iop.2)) m l !! key ≠ Some []).
  { intros Hc. apply Hc. intros key'. by rewrite lookup_empty. }
  induction l as [|iop l IH]; intros m Hm key'; simpl; [apply Hm|]. apply IH. by apply Hpush.
Qed.

Lemma elem_of_occurrences ops key i : i ∈ occurrences ops key ↔ claims_key ops i key.
Proof.
  unfold occurrences, claims_key. rewrite elem_of_concat. split.
  - intros (l & Hi & Hl). apply list_elem_of_fmap in Hl as ([j op] & -> & Hj).
    apply enumerate_elem_of in Hj. apply list_elem_of_fmap in Hi as (k & -> & Hk).
    apply list_elem_of_filter in Hk as [-> Hk]. eauto.
  - intros (op & Hop & Hkey). eexists. split; [|apply list_elem_of_fmap; exists (i, op);
      split; [reflexivity|by apply enumerate_elem_of]].
    simpl. apply list_elem_of_fmap. exists key. split; [done|].
    by apply list_elem_of_filter.
Qed.

(** The values of the claim map are the nonempty lists of occurrences. *)
Lemma elem_of_claim_values ops cl :
  cl ∈ (map_to_list (key_claims ops)).*2 ↔ cl ≠ [] ∧ ∃ key, cl = occurrences ops key.
Proof.
  rewrite list_elem_of_fmap. split.
  - intros ([key cl'] & -> & Hin). apply elem_of_map_to_list in Hin. simpl.
    pose proof (key_claims_nonempty ops key) as Hne. rewrite Hin in Hne.
    split; [congruence|]. exists key. rewrite <-key_claims_at. unfold claims_at. by rewrite Hin.
  - intros (Hne & key & ->). rewrite <-key_claims_at in *. unfold claims_at in *.
    destruct (key_claims ops !! key) as [cl|] eqn:E; [|done].
    exists (key, cl). split; [done|]. by apply elem_of_map_to_list.
Qed.

(** ** Participants *)

Lemma alter_all_lookup claims l (ps : list (list nat)) i :
  NoDup l →
  foldl (λ ps index, alter (bs_extend claims) index ps) ps l !! i =
    (if decide (i ∈ l) then bs_extend claims else id) <$> ps !! i.
Proof.
  intros Hl. revert ps. induction Hl as [|j l Hj Hl IH]; intros ps; simpl.
  - by destruct (ps !! i).
  - rewrite IH. destruct (decide (i = j)) as [->|Hij].
    + rewrite list_lookup_alter_eq, (decide_False (P := j ∈ l)) by done.
      rewrite (decide_True (P := j ∈ j :: l)) by set_solver. by destruct (ps !! j).
    + rewrite list_lookup_alter_ne by done. f_equal.
      destruct (decide (i ∈ l)); [rewrite decide_True by set_solver|
        rewrite decide_False by set_solver]; done.
Qed.

(** Entry [i] is sorted and holds the members of the claims that involve [i]. *)
Definition participants_ok (keys : list (list nat)) (i : nat) (js : list nat) : Prop :=
  StronglySorted cmp_lt js ∧ ∀ j, j ∈ js ↔ ∃ cl, cl ∈ keys ∧ i ∈ cl ∧ j ∈ cl.

Lemma participants_for_keys_spec count keys :
  length (participants_for_keys count keys) = count ∧
  ∀ i js, participants_for_keys count keys !! i = Some js → participants_ok keys i js.
Proof.
  unfold participants_for_keys.
  cut (∀ ks done_keys ps, length ps = count →
    (∀ i js, ps !! i = Some js → participants_ok done_keys i js) →
    let ps' := foldl (λ participants claims,
      let claims := bs_extend claims [] in
      foldl (λ participants index, alter (bs_extend claims) index participants)
        participants claims) ps ks in
    length ps' = count ∧ ∀ i js, ps' !! i = Some js → participants_ok (done_keys ++ ks) i js).
  { intros Hc. apply (Hc keys []); [by rewrite length_replicate|].
    intros i js [-> _]%lookup_replicate. split; [constructor|]. set_solver. }
  induction ks as [|cl ks IH]; intros dk ps Hlen Hok; simpl; [by rewrite app_nil_r|].
  rewrite (cons_middle cl dk ks), app_assoc. apply IH.
  - rewrite <-Hlen. clear. generalize (bs_extend cl []) at 2. intros l. revert ps.
    induction l as [|j l IHl]; intros ps; simpl; [done|]. rewrite IHl. apply length_alter.
  - intros i js. rewrite alter_all_lookup
      by (apply cmp_sorted_NoDup, bs_extend_sorted; constructor).
    assert (Hcl : ∀ j, j ∈ bs_extend cl [] ↔ j ∈ cl).
    { intros j. rewrite elem_of_bs_extend. set_solver. }
    intros (js0 & Hjs0 & ->)%fmap_Some. apply Hok in Hjs0 as [Hs Hj]. split.
    + case_decide; [by apply bs_extend_sorted|done].
    + intros j. case_decide as Hi; rewrite Hcl in Hi.
      * rewrite elem_of_bs_extend, Hcl, Hj. set_solver.
      * unfold id. rewrite Hj. set_solver.
Qed.

(** The result does not depend on the order in which claims are visited. *)
Lemma participants_for_keys_perm count keys keys' :
  keys ≡ₚ keys' → participants_for_keys count keys = participants_for_keys count keys'.
Proof.
  intros Hp. destruct (participants_for_keys_spec count keys) as [L1 H1].
  destruct (participants_for_keys_spec count keys') as [L2 H2].
  apply list_eq. intros i. destruct (participants_for_keys count keys !! i) as [js|] eqn:E1.
  - destruct (lookup_lt_is_Some_2 (participants_for_keys count keys') i) as [js' E2].
    { rewrite L2, <-L1. by eapply lookup_lt_Some. }
    rewrite E2. f_equal. destruct (H1 _ _ E1) as [S1 M1], (H2 _ _ E2) as [S2 M2].
    apply bs_unique; [done..|]. intros j. rewrite M1, M2. by setoid_rewrite Hp.
  - apply lookup_ge_None in E1. symmetry. apply lookup_ge_None. lia.
Qed.

(** In a flat batch, operation [i] is listed with exactly the operations
    that share one of its write keys, when that key is claimed at least twice;
    each list is sorted and duplicate-free. *)
Theorem write_key_conflict_ops_spec ops i js :
  write_key_conflict_ops ops !! i = Some js →
  StronglySorted cmp_lt js ∧
  ∀ j, j ∈ js ↔ ∃ key, claims_key ops i key ∧ claims_key ops j key ∧
                       1 < length (occurrences ops key).
Proof.
  intros Hi. apply participants_for_keys_spec in Hi as [Hs Hj]. split; [done|].
  intros j. rewrite Hj. setoid_rewrite list_elem_of_filter. setoid_rewrite elem_of_claim_values.
  setoid_rewrite <-elem_of_occurrences. split.
  - intros (cl & (Hlen & _ & key & ->) & ? & ?). eauto.
  - intros (key & ? & ? & ?). exists (occurrences ops key). split_and!; eauto.
    intros E. rewrite E in *. set_solver.
Qed.

Definition merge_op (a b : string) : ParsedOp :=
  mkOp "merge" [("from_id", AValue (VString a)); ("into_id", AValue (VString b))]%string.

Theorem write_key_conflict_ops_spec_witness :
  write_key_conflict_ops [merge_op "a" "b"; merge_op "c" "d"; merge_op "b" "e"] !! 2 = Some [0; 2] ∧
  StronglySorted (@cmp_lt nat _) [0; 2].
Proof.
  split; [vm_compute; reflexivity|].
  apply (write_key_conflict_ops_spec [merge_op "a" "b"; merge_op "c" "d"; merge_op "b" "e"] 2).
  vm_compute. reflexivity.
Defined.

(** ** Units *)

Definition in_range (r : range) (leaf : nat) : Prop := r_start r ≤ leaf < r_end r.

(** Leaf [leaf] belongs to unit [u]. *)
Definition in_unit (ranges : list range) (u leaf : nat) : Prop :=
  ∃ r, ranges !! u = Some r ∧ in_range r leaf.

Lemma partition_bounds start rs stop u r :
  partition start rs stop → rs !! u = Some r → start ≤ r_start r < r_end r ∧ r_end r ≤ stop.
Proof.
  revert start u. induction rs as [|r' rs IH]; intros start u; [done|].
  intros (Hs & Hlt & Hp). assert (Hle : r_end r' ≤ stop).
  { clear -Hp. revert Hp. generalize (r_end r'). induction rs as [|r2 rs IH]; simpl; intros n.
    - intros ->. done.
    - intros (? & ? & ?%IH). lia. }
  destruct u as [|u]; simpl; [intros [= ->]; lia|]. intros Hu.
  destruct (IH _ _ Hp Hu). lia.
Qed.

(** The units of a partition are disjoint and cover every leaf. *)
Lemma partition_disjoint start rs stop u u' leaf :
  partition start rs stop → in_unit rs u leaf → in_unit rs u' leaf → u = u'.
Proof.
  revert start u u'. induction rs as [|r rs IH]; intros start u u' Hp (a & Ha & Hla) (b & Hb & Hlb);
    [done|]. destruct Hp as (Hs & Hlt & Hp).
  destruct u as [|u], u' as [|u']; simpl in *; simplify_eq; [done| | |].
  - pose proof (partition_bounds _ _ _ _ _ Hp Hb). unfold in_range in *. lia.
  - pose proof (partition_bounds _ _ _ _ _ Hp Ha). unfold in_range in *. lia.
  - f_equal. by apply (IH _ _ _ Hp); [exists a|exists b].
Qed.

Lemma partition_cover start rs stop leaf :
  partition start rs stop → start ≤ leaf < stop → ∃ u, in_unit rs u leaf.
Proof.
  revert start. induction rs as [|r rs IH]; intros start; simpl; [lia|].
  intros (Hs & Hlt & Hp) Hleaf. destruct (decide (leaf < r_end r)) as [Hl|Hl].
  - exists 0, r. split; [done|]. unfold in_range. lia.
  - destruct (IH _ Hp) as (u & r' & ? & ?); [lia|]. exists (S u), r'. done.
Qed.

Lemma insert_range_lookup (u s n leaf : nat) (acc : list nat) :
  leaf < length acc →
  foldl (λ unit_of leaf, <[leaf := u]> unit_of) acc (seq s n) !! leaf =
    if decide (s ≤ leaf < s + n) then Some u else acc !! leaf.
Proof.
  revert s acc. induction n as [|n IH]; intros s acc Hl; cbn [seq foldl].
  { by rewrite decide_False by lia. }
  rewrite IH by by rewrite length_insert.
  destruct (decide (s = leaf)) as [->|Hne].
  - rewrite list_lookup_insert_eq by done. rewrite (decide_True (P := leaf ≤ leaf < _)) by lia.
    by case_decide.
  - rewrite list_lookup_insert_ne by done.
    repeat case_decide; done || lia.
Qed.

Lemma unit_of_leaf_spec ops_len ranges leaf u :
  partition 0 ranges ops_len → leaf < ops_len →
  unit_of_leaf ops_len ranges !! leaf = Some u ↔ in_unit ranges u leaf.
Proof.
  intros Hp Hleaf.
  assert (Hgen : ∀ (urs : list (nat * range)) acc, leaf < length acc →
    let res := foldl (λ unit_of ur,
      foldl (λ unit_of leaf, <[leaf := ur.1]> unit_of) unit_of
        (seq (r_start ur.2) (r_end ur.2 - r_start ur.2))) acc urs in
    (∃ ur, ur ∈ urs ∧ in_range ur.2 leaf ∧ res !! leaf = Some ur.1) ∨
    ((∀ ur, ur ∈ urs → ¬ in_range ur.2 leaf) ∧ res !! leaf = acc !! leaf)).
  { clear. induction urs as [|[u r] urs IH]; intros acc Hl; simpl; [right; set_solver|].
    assert (Hlen : ∀ l (acc : list nat),
      length (foldl (λ unit_of leaf, <[leaf := u]> unit_of) acc l) = length acc).
    { clear. induction l as [|x l IHl]; intros acc; simpl; [done|].
      by rewrite IHl, length_insert. }
    destruct (IH (foldl (λ unit_of leaf, <[leaf := u]> unit_of) acc
      (seq (r_start r) (r_end r - r_start r)))) as [(ur & ? & ? & ?)|[Hno Hres]];
      [by rewrite Hlen|left; exists ur; set_solver|].
    rewrite insert_range_lookup in Hres by done. case_decide as Hd.
    - left. exists (u, r). split_and!; [left|unfold in_range; simpl; lia|done].
    - right. split; [|done]. intros ur [->|Hin]%elem_of_cons; [|by apply Hno].
      unfold in_range. simpl. lia. }
  destruct (Hgen (enumerate ranges) (replicate ops_len 0)) as [([u' r] & Hin & Hr & Hres)|[Hno _]];
    [by rewrite length_replicate| |].
  - apply enumerate_elem_of in Hin. unfold unit_of_leaf. rewrite Hres. simpl. split.
    + intros [= <-]. by exists r.
    + intros Hu. f_equal. eapply partition_disjoint; [done| |done]. by exists r.
  - exfalso. destruct (partition_cover _ _ _ leaf Hp) as (u' & r & Hu & Hr); [lia|].
    apply (Hno (u', r)); [by apply enumerate_elem_of|done].
Qed.

Lemma claims_key_lt ops i key : claims_key ops i key → i < length ops.
Proof. intros (op & Hop & _). by eapply lookup_lt_Some. Qed.

Lemma spans_units_spec ops ranges key :
  partition 0 ranges (length ops) →
  spans_units (unit_of_leaf (length ops) ranges) (occurrences ops key) = true ↔
    ∃ a b u v, claims_key ops a key ∧ claims_key ops b key ∧
               in_unit ranges u a ∧ in_unit ranges v b ∧ u ≠ v.
Proof.
  intros Hp. unfold spans_units. rewrite existsb_exists.
  assert (Hunit : ∀ i, i ∈ occurrences ops key → ∃ u,
    unit_of_leaf (length ops) ranges !! i = Some u ∧ in_unit ranges u i).
  { intros i Hi%elem_of_occurrences%claims_key_lt.
    destruct (partition_cover _ _ _ i Hp) as (u & Hu); [lia|].
    exists u. split; [by apply unit_of_leaf_spec|done]. }
  destruct (occurrences ops key) as [|h l] eqn:E; simpl head; simpl mbind.
  { split; [by intros (? & [] & _)|]. intros (a & _ & _ & _ & Ha%elem_of_occurrences & _).
    rewrite E in Ha. set_solver. }
  destruct (Hunit h ltac:(left)) as (uh & Hh & Hinh). rewrite Hh. split.
  - intros (i & Hi%list_elem_of_In & Hne). destruct (Hunit i Hi) as (ui & Hui & Hini).
    rewrite Hui, negb_true_iff, bool_decide_eq_false in Hne.
    exists i, h, ui, uh. rewrite <-!elem_of_occurrences, E. split_and!; [done|left|done|done|congruence].
  - intros (a & b & u & v & Ha%elem_of_occurrences & Hb%elem_of_occurrences & Hu & Hv & Huv).
    rewrite E in Ha, Hb. destruct (decide (u = uh)) as [->|Hne].
    + exists b. split; [by apply list_elem_of_In|]. rewrite negb_true_iff, bool_decide_eq_false.
      destruct (Hunit b Hb) as (ub & -> & Hub). intros [= ->]. apply Huv.
      by eapply partition_disjoint.
    + exists a. split; [by apply list_elem_of_In|]. rewrite negb_true_iff, bool_decide_eq_false.
      destruct (Hunit a Ha) as (ua & -> & Hua). intros [= ->]. apply Hne.
      by eapply partition_disjoint.
Qed.

(** In a batch of chains, leaf [i] is listed with exactly the leaves that
    share a key with it, for keys claimed in two different units; a key repeated
    within one unit is never reported. *)
Theorem unit_write_key_conflict_ops_spec ops ranges i js :
  partition 0 ranges (length ops) →
  unit_write_key_conflict_ops ops ranges !! i = Some js →
  StronglySorted cmp_lt js ∧
  ∀ j, j ∈ js ↔ ∃ key, claims_key ops i key ∧ claims_key ops j key ∧
    ∃ a b u v, claims_key ops a key ∧ claims_key ops b key ∧
               in_unit ranges u a ∧ in_unit ranges v b ∧ u ≠ v.
Proof.
  intros Hp Hi. apply participants_for_keys_spec in Hi as [Hs Hj]. split; [done|].
  intros j. rewrite Hj. setoid_rewrite list_elem_of_filter. setoid_rewrite elem_of_claim_values.
  split.
  - intros (cl & (Hsp & _ & key & ->) & Hci & Hcj). exists key.
    rewrite <-!elem_of_occurrences. split_and!; [done..|]. by apply spans_units_spec.
  - intros (key & Hci & Hcj & Hsp). exists (occurrences ops key).
    rewrite !elem_of_occurrences. split_and!; [by apply spans_units_spec| |eauto|done|done].
    apply elem_of_occurrences in Hci. intros E. rewrite E in Hci. set_solver.
Qed.

Theorem unit_write_key_conflict_ops_spec_witness :
  unit_write_key_conflict_ops [merge_op "a" "b"; merge_op "a" "b"; merge_op "c" "d"]
    [mkRange 0 2; mkRange 2 3] !! 0 = Some [] ∧ StronglySorted (@cmp_lt nat _) [].
Proof.
  split; [vm_compute; reflexivity|].
  apply (unit_write_key_conflict_ops_spec
    [merge_op "a" "b"; merge_op "a" "b"; merge_op "c" "d"] [mkRange 0 2; mkRange 2 3] 0).
  - vm_compute. auto with lia.
  - vm_compute. reflexivity.
Defined.

(** The cross-unit conflict map of a batch of chains: sound, symmetric and
    complete for every iteration order of the hash maps involved. *)

(** ** The first claim of each key inside a unit *)

Lemma unit_keys_inner ks leaf (m : gmap string nat) key :
  foldl (λ keys key, match keys !! key with
                     | Some _ => keys
                     | None => <[key := leaf]> keys
                     end) m ks !! key =
    match m !! key with
    | Some l => Some l
    | None => if decide (key ∈ ks) then Some leaf else None
    end.
Proof.
  revert m. induction ks as [|k ks IH]; intros m; cbn [foldl].
  { by destruct (m !! key). }
  rewrite IH. destruct (decide (k = key)) as [->|Hne].
  - destruct (m !! key) as [l|] eqn:E; [by rewrite E|].
    rewrite lookup_insert_eq, decide_True by left. done.
  - assert (match m !! k with Some _ => m | None => <[k:=leaf]> m end !! key = m !! key) as ->.
    { destruct (m !! k); [done|]. by rewrite lookup_insert_ne. }
    destruct (m !! key); [done|]. apply decide_ext. set_solver.
Qed.

Definition keys_at (ops : list ParsedOp) (leaf : nat) : list string :=
  match ops !! leaf with Some op => write_keys_for_op_pub op | None => [] end.

Lemma elem_of_keys_at ops leaf key : key ∈ keys_at ops leaf ↔ claims_key ops leaf key.
Proof. unfold keys_at, claims_key. destruct (ops !! leaf); set_solver. Qed.

Lemma unit_keys_spec ops r key :
  match unit_keys ops r !! key with
  | Some leaf => in_range r leaf ∧ claims_key ops leaf key
  | None => ∀ leaf, in_range r leaf → ¬ claims_key ops leaf key
  end.
Proof.
  unfold unit_keys. set (step := λ (keys : gmap string nat) leaf, foldl _ keys _).
  assert (Hgen : ∀ l m,
    match foldl step m l !! key with
    | Some leaf => m !! key = Some leaf ∨ (leaf ∈ l ∧ claims_key ops leaf key)
    | None => m !! key = None ∧ ∀ leaf, leaf ∈ l → ¬ claims_key ops leaf key
    end).
  { induction l as [|x l IH]; intros m; cbn [foldl].
    { destruct (m !! key); [auto|]. split; [done|set_solver]. }
    assert (Hx : step m x !! key = match m !! key with
      | Some leaf => Some leaf
      | None => if decide (key ∈ keys_at ops x) then Some x else None end).
    { subst step. simpl. by rewrite unit_keys_inner. }
    specialize (IH (step m x)). rewrite Hx in IH.
    destruct (foldl step (step m x) l !! key) as [leaf|].
    - destruct (m !! key); [set_solver|]. case_decide as Hk; [|set_solver].
      apply elem_of_keys_at in Hk. set_solver.
    - destruct (m !! key); [naive_solver|]. case_decide as Hk; [naive_solver|].
      rewrite elem_of_keys_at in Hk. set_solver. }
  specialize (Hgen (seq (r_start r) (r_end r - r_start r)) ∅).
  destruct (foldl _ _ _ !! key) as [leaf|].
  - destruct Hgen as [Hc|[Hin Hc]]; [by rewrite lookup_empty in Hc|]. split; [|done].
    apply elem_of_seq in Hin. unfold in_range. lia.
  - intros leaf Hr. apply Hgen. apply elem_of_seq. unfold in_range in Hr. lia.
Qed.

(** ** The scan over the claims of all units *)

Definition entries (m : gmap nat (list UnitKeyConflict)) (u : nat) : list UnitKeyConflict :=
  default [] (m !! u).

Lemma entries_push_conflict u c m v :
  entries (push_conflict u c m) v = entries m v ++ (if decide (u = v) then [c] else []).
Proof.
  unfold entries, push_conflict. case_decide as E.
  - subst. by rewrite lookup_insert_eq.
  - by rewrite lookup_insert_ne, app_nil_r.
Qed.

(** A claim [(u, (key, leaf))]: unit [u] claims [key], first at [leaf]. *)
Abbreviation claim := (nat * (string * nat))%type.

Definition mirror (u : nat) (c : UnitKeyConflict) : UnitKeyConflict :=
  mkConflict (c_key c) (c_other_leaf c) u (c_leaf c).

Record claims_inv (T : list claim) (st : claim_state) : Prop := {
  inv_first key u l : first_claim st !! key = Some (u, l) → (u, (key, l)) ∈ T;
  inv_seen key u l : (u, (key, l)) ∈ T → is_Some (first_claim st !! key);
  inv_entry u c : c ∈ entries (conflicts st) u →
    c_other_unit c ≠ u ∧ (u, (c_key c, c_leaf c)) ∈ T ∧
    (c_other_unit c, (c_key c, c_other_leaf c)) ∈ T ∧
    mirror u c ∈ entries (conflicts st) (c_other_unit c);
  inv_report key u l v l' : (u, (key, l)) ∈ T → first_claim st !! key = Some (v, l') → v ≠ u →
    mkConflict key l v l' ∈ entries (conflicts st) u ∧
    mkConflict key l' u l ∈ entries (conflicts st) v
}.

Lemma claims_inv_step T st u key l :
  claims_inv T st → claims_inv (T ++ [(u, (key, l))]) (claim_step u st (key, l)).
Proof.
  intros [Hfirst Hseen Hentry Hreport]. unfold claim_step.
  destruct (first_claim st !! key) as [[v l']|] eqn:Ef.
  - destruct (decide (v = u)) as [->|Hne].
    + rewrite bool_decide_eq_false_2 by naive_solver. split.
      * intros. apply elem_of_app. left. eauto.
      * intros k w m [?|[= -> -> ->]%list_elem_of_singleton]%elem_of_app; [eauto|by rewrite Ef].
      * intros w c Hc. destruct (Hentry w c Hc) as (? & ? & ? & ?). set_solver.
      * intros k w m x m' [?|[= -> -> ->]%list_elem_of_singleton]%elem_of_app Hk Hx; [eauto|].
        rewrite Ef in Hk. by simplify_eq.
    + rewrite bool_decide_eq_true_2 by done. split; cbn [first_claim conflicts].
      * intros. apply elem_of_app. left. eauto.
      * intros k w m [?|[= -> -> ->]%list_elem_of_singleton]%elem_of_app; [eauto|by rewrite Ef].
      * intros w c. rewrite !entries_push_conflict.
        assert (In_l : (u, (key, l)) ∈ T ++ [(u, (key, l))]) by set_solver.
        assert (In_l' : (v, (key, l')) ∈ T ++ [(u, (key, l))]).
        { apply elem_of_app. left. by apply Hfirst. }
        rewrite !elem_of_app. intros [[Hc|Hc]|Hc].
        -- destruct (Hentry w c Hc) as (? & ? & ? & ?). set_solver.
        -- case_decide; [|set_solver]. subst w. apply list_elem_of_singleton in Hc as ->.
           simpl. unfold mirror. simpl. rewrite (decide_True (P := v = v)) by done. set_solver.
        -- case_decide; [|set_solver]. subst w. apply list_elem_of_singleton in Hc as ->.
           simpl. unfold mirror. simpl. rewrite (decide_True (P := u = u)) by done.
           rewrite elem_of_app in In_l, In_l'. split_and!; [done|done|done|].
           left. right. set_solver.
      * intros k w m x m' [Hin|[= -> -> ->]%list_elem_of_singleton]%elem_of_app Hk Hx.
        -- destruct (Hreport k w m x m' Hin Hk Hx) as [? ?]. rewrite !entries_push_conflict. set_solver.
        -- rewrite Ef in Hk. simplify_eq. rewrite !entries_push_conflict.
           rewrite !(decide_True (P := u = u)), !(decide_True (P := x = x)) by done. set_solver.
  - split; cbn [first_claim conflicts].
    + intros k w m. destruct (decide (key = k)) as [->|]; [|rewrite lookup_insert_ne by done].
      * rewrite lookup_insert_eq. intros [= -> ->]. set_solver.
      * intros. apply elem_of_app. eauto.
    + intros k w m Hin. destruct (decide (key = k)) as [->|Hk];
        [by rewrite lookup_insert_eq|rewrite lookup_insert_ne by done].
      apply elem_of_app in Hin as [?|Hin]; [eauto|]. set_solver.
    + intros w c Hc. destruct (Hentry w c Hc) as (? & ? & ? & ?). set_solver.
    + intros k w m x m' Hin. destruct (decide (key = k)) as [->|Hk].
      * rewrite lookup_insert_eq. intros [= <- <-] Hx.
        apply elem_of_app in Hin as [Hin|Hin]; [|set_solver].
        apply Hseen in Hin. rewrite Ef in Hin. by destruct Hin.
      * rewrite lookup_insert_ne by done. apply elem_of_app in Hin as [?|Hin]; [by apply Hreport|].
        set_solver.
Qed.

Lemma claims_inv_fold T0 st (T : list claim) :
  claims_inv T0 st →
  claims_inv (T0 ++ T) (foldl (λ st c, claim_step c.1 st c.2) st T).
Proof.
  revert T0 st. induction T as [|[u [key l]] T IH]; intros T0 st Hinv; simpl.
  - by rewrite app_nil_r.
  - rewrite cons_middle, app_assoc. apply IH. by apply claims_inv_step.
Qed.

Lemma claims_inv_init : claims_inv [] (mkClaims ∅ ∅).
Proof.
  split; cbn [first_claim conflicts]; intros *; try (by rewrite lookup_empty); try set_solver.
Qed.

Lemma elem_of_dedup c l : c ∈ dedup l ↔ c ∈ l.
Proof.
  induction l as [|x l IH]; [done|]. destruct l as [|y l]; [done|].
  change (dedup (x :: y :: l)) with
    (if decide (x = y) then dedup (y :: l) else x :: dedup (y :: l)).
  case_decide as E; [subst; rewrite IH; set_solver|].
  rewrite !(elem_of_cons _ c x), IH. set_solver.
Qed.

Section report.
Context (ops : list ParsedOp) (ranges : list range).
Context (order : gmap string nat → list (string * nat)).
Context (Horder : ∀ m, order m ≡ₚ map_to_list m).
Context (Hpart : partition 0 ranges (length ops)).

Definition all_claims : list claim :=
  concat ((λ uk, (λ kl, (uk.1, kl)) <$> order uk.2) <$> enumerate (unit_keys ops <$> ranges)).

Lemma elem_of_all_claims u key l :
  (u, (key, l)) ∈ all_claims ↔ ∃ r, ranges !! u = Some r ∧ unit_keys ops r !! key = Some l.
Proof using Horder.
  unfold all_claims. rewrite elem_of_concat. split.
  - intros (cl & Hin & Hcl). apply list_elem_of_fmap in Hcl as ([v m] & -> & Hm).
    apply list_elem_of_fmap in Hin as ([k l'] & [= -> -> ->] & Hkl). simpl in *.
    apply enumerate_elem_of in Hm. rewrite list_lookup_fmap in Hm.
    apply fmap_Some in Hm as (r & Hr & ->). rewrite Horder in Hkl.
    apply elem_of_map_to_list in Hkl. eauto.
  - intros (r & Hr & Hl). exists ((λ kl, (u, kl)) <$> order (unit_keys ops r)). split.
    + apply list_elem_of_fmap. exists (key, l). split; [done|]. rewrite Horder.
      by apply elem_of_map_to_list.
    + apply list_elem_of_fmap. exists (u, unit_keys ops r). split; [done|].
      apply enumerate_elem_of. by rewrite list_lookup_fmap, Hr.
Qed.

Definition final_state : claim_state :=
  foldl (λ st c, claim_step c.1 st c.2) (mkClaims ∅ ∅) all_claims.

Lemma conflicts_final u :
  ∀ c, c ∈ entries (unit_write_key_conflicts_with order ops ranges) u ↔
       c ∈ entries (conflicts final_state) u.
Proof using Type.
  intros c. unfold unit_write_key_conflicts_with, final_state, all_claims.
  assert (Hfold : ∀ l st,
    foldl (λ st uk, foldl (claim_step uk.1) st (order uk.2)) st l =
    foldl (λ st (c : claim), claim_step c.1 st c.2) st
      (concat ((λ uk, (λ kl, (uk.1, kl)) <$> order uk.2) <$> l))).
  { induction l as [|[v m] l IH]; intros st; simpl; [done|].
    rewrite IH, foldl_app. f_equal. generalize (order m). intros o. clear.
    revert st. induction o as [|kl o IHo]; intros st; simpl; [done|]. apply IHo. }
  rewrite Hfold. set (st := foldl _ _ _). unfold entries. rewrite lookup_fmap.
  destruct (conflicts st !! u) as [l|]; simpl; [|done].
  by rewrite elem_of_dedup, elem_of_sort_by.
Qed.

Lemma final_inv : claims_inv all_claims final_state.
Proof using Type. apply (claims_inv_fold [] _ all_claims), claims_inv_init. Qed.

(** Unit [u] claims [key] at one of its leaves. *)
Definition unit_claims (u : nat) (key : string) : Prop :=
  ∃ leaf, in_unit ranges u leaf ∧ claims_key ops leaf key.

Lemma claim_sound u key l :
  (u, (key, l)) ∈ all_claims → in_unit ranges u l ∧ claims_key ops l key.
Proof using Horder.
  intros (r & Hr & Hl)%elem_of_all_claims. pose proof (unit_keys_spec ops r key) as Hs.
  rewrite Hl in Hs. destruct Hs as [Hin Hk]. split; [by exists r|done].
Qed.

Lemma claim_complete u key : unit_claims u key → ∃ l, (u, (key, l)) ∈ all_claims.
Proof using Horder.
  intros (leaf & (r & Hr & Hin) & Hk). pose proof (unit_keys_spec ops r key) as Hs.
  destruct (unit_keys ops r !! key) as [l|] eqn:E; [|by destruct (Hs leaf)].
  exists l. apply elem_of_all_claims. eauto.
Qed.
End report.

(** C38: whatever order the hash maps are iterated in, an entry filed under a
    unit names a key claimed by one of its leaves and by a leaf of a different
    unit, the other unit carries the mirrored entry, and a unit has an entry
    exactly when it shares a key with another unit. *)
Theorem unit_write_key_conflicts_spec order ops ranges :
  (∀ m, order m ≡ₚ map_to_list m) →
  let report := entries (unit_write_key_conflicts_with order ops ranges) in
  (∀ u c, c ∈ report u →
     c_other_unit c ≠ u ∧
     in_unit ranges u (c_leaf c) ∧ claims_key ops (c_leaf c) (c_key c) ∧
     in_unit ranges (c_other_unit c) (c_other_leaf c) ∧
     claims_key ops (c_other_leaf c) (c_key c) ∧
     mirror u c ∈ report (c_other_unit c)) ∧
  (∀ u, (∃ c, c ∈ report u) ↔
     ∃ key v, v ≠ u ∧ unit_claims ops ranges u key ∧ unit_claims ops ranges v key).
Proof.
  intros Horder report. destruct (final_inv ops ranges order) as [Hfirst Hseen Hentry Hreport].
  assert (Hsound : ∀ u c, c ∈ report u → c_other_unit c ≠ u ∧
     in_unit ranges u (c_leaf c) ∧ claims_key ops (c_leaf c) (c_key c) ∧
     in_unit ranges (c_other_unit c) (c_other_leaf c) ∧
     claims_key ops (c_other_leaf c) (c_key c) ∧ mirror u c ∈ report (c_other_unit c)).
  { intros u c Hc%conflicts_final. destruct (Hentry u c Hc) as (Hne & H1 & H2 & Hm).
    apply claim_sound in H1, H2; [|done..]. unfold report. rewrite conflicts_final. naive_solver. }
  split; [exact Hsound|]. intros u. split.
  - intros (c & Hc). destruct (Hsound u c Hc) as (? & ? & ? & ? & ? & _).
    exists (c_key c), (c_other_unit c). split; [done|]. split; eexists; eauto.
  - intros (key & v & Hne & Hu & Hv).
    apply (claim_complete ops ranges order Horder) in Hu as [l Hu], Hv as [l' Hv].
    destruct (Hseen _ _ _ Hu) as [[w m] Hw]. destruct (decide (w = u)) as [->|Hwu].
    + destruct (Hreport _ _ _ _ _ Hv Hw) as [_ Hin]; [done|].
      eexists. by apply conflicts_final.
    + destruct (Hreport _ _ _ _ _ Hu Hw) as [Hin _]; [done|].
      eexists. by apply conflicts_final.
Qed.

Theorem unit_write_key_conflicts_spec_witness :
  let ops := [merge_op "a" "b"; merge_op "b" "c"] in
  let ranges := [mkRange 0 1; mkRange 1 2] in
  entries (unit_write_key_conflicts ops ranges) 0 = [mkConflict "entity:b" 0 1 1] ∧
  entries (unit_write_key_conflicts ops ranges) 1 = [mkConflict "entity:b" 1 0 0] ∧
  (∀ u, (∃ c, c ∈ entries (unit_write_key_conflicts ops ranges) u) ↔
     ∃ key v, v ≠ u ∧ unit_claims ops ranges u key ∧ unit_claims ops ranges v key).
Proof.
  intros ops ranges. split; [vm_compute; reflexivity|]. split; [vm_compute; reflexivity|].
  apply (unit_write_key_conflicts_spec map_to_list ops ranges). intros m. reflexivity.
Defined.

(** ** Equivalent edges claim one key *)

(** The write key of an edge does not depend on the spelling of its
    relation, nor, for a symmetric relation, on the order of its endpoints. *)
Theorem link_key_canonical s t r1 r2 r :
  from_str r1 = Ok r → from_str r2 = Ok r →
  link_key s t r1 = link_key s t r2 ∧
  (is_symmetric r = true → link_key s t r1 = link_key t s r2).
Proof.
  intros H1 H2. unfold link_key. rewrite H1, H2. split; [done|].
  intros Hr. by rewrite (canonical_endpoints_swap r s t Hr).
Qed.

Theorem link_key_canonical_witness :
  link_key "x" "y" "Competes-With" = link_key "y" "x" "competeswith".
Proof.
  apply (link_key_canonical "x" "y" "Competes-With" "competeswith" CompetesWith);
    vm_compute; reflexivity.
Defined.

(** Two iteration orders can list the entries of one unit differently: the sort
    key leaves entries for distinct keys of the same pair of leaves tied. *)
Example unit_conflict_order_dependent :
  let ops := [merge_op "a" "b"; merge_op "a" "b"] in
  let ranges := [mkRange 0 1; mkRange 1 2] in
  entries (unit_write_key_conflicts_with map_to_list ops ranges) 0 ≠
  entries (unit_write_key_conflicts_with (λ m, rev (map_to_list m)) ops ranges) 0.
Proof. intros ops ranges. vm_compute. discriminate. Qed.
