(* ===== verification/Plan.v ===== *)
(** khive-request/src/plan.rs and atomic.rs, with the admissibility lists of
    khive-types/src/pack.rs: the description of a request without dispatch, and
    the static atomic preflight. *)

From Stdlib Require Import String Ascii ZArith.
From stdpp Require Import base tactics list strings gmap pretty.
From S2P Require Import Prelude RustStr Json RequestTypes Scan Parser ParserFacts Dispatch EdgeOntology Conflict RequestLimits.

(** ** Plans *)

Definition json_nat (n : nat) : Value := VNumber (PosInt (Z.of_nat n)).

(** [json!({ … })] *)
Definition json_object (l : list (string * Value)) : Value := VObject (bm_of_list l).

Definition prev_literal (path : string) : string :=
  let literal_path := of_bytes (replace_dot_bracket (to_bytes path)) in
  if is_empty path || starts_with_byte "["%char (to_bytes path)
  then "$prev" +:+ literal_path else "$prev." +:+ literal_path.

(** The literal JSON of an argument, with the reference paths met on the way. *)
Fixpoint literal_arg (arg : ArgValue) (prev_refs : list string) : Value * list string :=
  match arg with
  | AValue value => (value, prev_refs)
  | APrevRef path => (VString (prev_literal path), prev_refs ++ [path])
  | AArray items =>
      let '(vs, refs) :=
        (fix go l refs := match l with
                          | [] => ([], refs)
                          | item :: l' => let '(v, refs1) := literal_arg item refs in
                                          let '(vs, refs2) := go l' refs1 in (v :: vs, refs2)
                          end) items prev_refs in
      (VArray vs, refs)
  | AObject pairs =>
      let '(vs, refs) :=
        (fix go l refs := match l with
                          | [] => ([], refs)
                          | (name, a) :: l' => let '(v, refs1) := literal_arg a refs in
                                               let '(vs, refs2) := go l' refs1 in
                                               ((name, v) :: vs, refs2)
                          end) pairs prev_refs in
      (VObject (bm_of_list vs), refs)
  end.

Fixpoint literal_args (l : list (string * ArgValue)) (refs : list string)
    : list (string * Value) * list string :=
  match l with
  | [] => ([], refs)
  | (name, arg) :: l' =>
      let '(v, refs1) := literal_arg arg refs in
      let '(vs, refs2) := literal_args l' refs1 in ((name, v) :: vs, refs2)
  end.

Definition unit_index_of (ranges : list range) : list nat :=
  concat ((λ ur, (λ _, ur.1) <$> seq (r_start ur.2) (r_end ur.2 - r_start ur.2))
    <$> enumerate ranges).

Definition mode_name (m : ExecutionMode) : string :=
  match m with Single => "single" | Parallel => "parallel" | Chain => "chain" end.

Definition plan_stage (catalog : list (string * string)) (units : list nat)
    (index : nat) (op : ParsedOp) : Value :=
  let '(args, prev_refs) := literal_args (args op) [] in
  let pack := bm_get (tool op) catalog in
  json_object [
    ("index", json_nat index);
    ("verb", VString (tool op));
    ("pack", match pack with Some p => VString p | None => VNull end);
    ("known", VBool (match pack with Some _ => true | None => false end));
    ("args", VObject (bm_of_list args));
    ("prev_refs", VArray (VString <$> prev_refs));
    ("unit_index", match units !! index with Some u => json_nat u | None => VNull end)]%string.

Definition limits : Value :=
  json_object [("max_ops", json_nat MAX_OPS); ("max_depth", json_nat NESTING_DEPTH_LIMIT);
               ("max_input_len", VNumber (PosInt MAX_OPS_INPUT_LEN))]%string.

Definition plan_of_request (request : ParsedRequest) (catalog : list (string * string)) : Value :=
  let units := unit_index_of (ranges request) in
  let stages := (λ iop, plan_stage catalog units iop.1 iop.2) <$> enumerate (ops request) in
  json_object [
    ("parsed", VBool true);
    ("mode", VString (mode_name (mode request)));
    ("stage_count", json_nat (length stages));
    ("stages", VArray stages);
    ("units", VArray ((λ r, json_object [("start", json_nat (r_start r));
                                         ("end", json_nat (r_end r))]) <$> ranges request));
    ("limits", limits)]%string.

(** [None] only if the parser ran out of fuel. *)
Definition plan_request `{Externals} (ops : string) (catalog : list (string * string))
    : option Value :=
  match parse_request ops with
  | Done request => Some (plan_of_request request catalog)
  | Fail error => Some (json_object [("parsed", VBool false);
                                     ("error", VString (DslError_fmt error));
                                     ("limits", limits)]%string)
  | OutOfFuel => None
  end.

(** ** Atomic admissibility *)

Definition ATOMIC_ADMISSIBLE_VERBS : list string :=
  ["update"; "delete"; "link"; "merge"; "gtd.transition"; "gtd.complete"; "propose"; "review";
   "withdraw"].
Definition ATOMIC_EMBEDDING_BEARING_VERBS : list string :=
  ["create"; "memory.remember"; "gtd.assign"; "comm.send"; "comm.reply"; "comm.ingest"].
Definition ATOMIC_KNOWN_UNIMPLEMENTED_VERBS : list string :=
  ["propose"; "review"; "withdraw"; "merge"].
Definition ATOMIC_READ_VERBS : list string :=
  ["search"; "recall"; "query"; "traverse"; "list"; "get"; "neighbors"; "context"; "stats";
   "verbs"].

Inductive AtomicRejectionReason : Type :=
| EmbeddingBearing | Read | Unlisted | KnownUnimplemented.

#[export] Instance AtomicRejectionReason_eq_dec : EqDecision AtomicRejectionReason.
Proof. solve_decision. Defined.

Definition contains (l : list string) (s : string) : bool := existsb (String.eqb s) l.

Definition atomic_admissibility (verb_name : string) : option AtomicRejectionReason :=
  if contains ATOMIC_KNOWN_UNIMPLEMENTED_VERBS verb_name then Some KnownUnimplemented
  else if contains ATOMIC_ADMISSIBLE_VERBS verb_name then None
  else if contains ATOMIC_EMBEDDING_BEARING_VERBS verb_name then Some EmbeddingBearing
  else if contains ATOMIC_READ_VERBS verb_name then Some Read
  else Some Unlisted.

Record AtomicRejection : Type := mkRejection {
  rj_op_index : nat;
  rj_tool : string;
  rj_reason : AtomicRejectionReason
}.

(** [impl Display for AtomicRejection] *)
Definition AtomicRejection_fmt `{Externals} (self : AtomicRejection) : string :=
  let why :=
    match rj_reason self with
    | EmbeddingBearing => "embedding-bearing verbs are not yet atomic-eligible"
    | Read => "read verbs have no write plan to apply"
    | Unlisted => "not on the v1 atomic-admissible verb list"
    | KnownUnimplemented =>
        if String.eqb (rj_tool self) "merge" then
          "merge is not yet supported under --atomic (admissible per ADR-099 D3, but "
          +:+ "full-parity field-folding/index-cleanup/edge-conflict-resolution is deferred "
          +:+ "this slice); use the non-atomic merge verb instead"
        else
          "admissible per ADR-099 D3 but has no --atomic prepare/apply seam implemented "
          +:+ "in this slice yet; use the non-atomic " +:+ str_debug (rj_tool self)
          +:+ " verb instead"
    end in
  "op " +:+ fmt_nat (rj_op_index self) +:+ " (`" +:+ rj_tool self
  +:+ "`) is not atomic-admissible: " +:+ why +:+ ". Admissible verbs: "
  +:+ String.concat ", " ATOMIC_ADMISSIBLE_VERBS.

Definition check_atomic_admissible (ops : list ParsedOp) : list AtomicRejection :=
  omap (λ iop, mkRejection iop.1 (tool iop.2) <$> atomic_admissibility (tool iop.2))
    (enumerate ops).

(** ** Facts *)

Lemma seq_const_lookup (u s n i : nat) :
  ((λ _, u) <$> seq s n) !! i = if decide (i < n) then Some u else None.
Proof.
  rewrite list_lookup_fmap. case_decide.
  - by rewrite (proj2 (lookup_seq s n i (s + i))) by lia.
  - by rewrite lookup_seq_ge by lia.
Qed.

Lemma unit_index_gen start rs stop base leaf u :
  partition start rs stop → start ≤ leaf < stop →
  concat ((λ ur, (λ _, ur.1) <$> seq (r_start ur.2) (r_end ur.2 - r_start ur.2))
    <$> zip (seq base (length rs)) rs) !! (leaf - start) = Some (base + u) ↔ in_unit rs u leaf.
Proof.
  revert start base u. induction rs as [|r rs IH]; intros start base u; [simpl; lia|].
  intros (Hs & Hlt & Hp) Hleaf.
  change (zip (seq base (length (r :: rs))) (r :: rs)) with
    ((base, r) :: zip (seq (S base) (length rs)) rs).
  rewrite fmap_cons. cbn [concat fst snd].
  assert (Hlen : length ((λ _ : nat, base) <$> seq (r_start r) (r_end r - r_start r)) =
    r_end r - start) by (rewrite length_fmap, length_seq; lia).
  destruct (decide (leaf < r_end r)) as [Hin|Hin].
  - rewrite lookup_app_l by lia. rewrite seq_const_lookup, decide_True by lia. split.
    + intros [= Hu]. assert (u = 0) as -> by lia. exists r. split; [done|]. unfold in_range. lia.
    + intros (r' & Hr' & Hl). destruct u as [|u]; [by rewrite Nat.add_0_r|]. simpl in Hr'.
      pose proof (partition_bounds _ _ _ _ _ Hp Hr'). unfold in_range in Hl. lia.
  - rewrite lookup_app_r by lia. rewrite Hlen.
    replace (leaf - start - (r_end r - start)) with (leaf - r_end r) by lia.
    destruct u as [|u].
    + split.
      * intros H. exfalso.
        destruct (partition_cover _ _ _ leaf Hp) as (v & Hv); [lia|].
        apply (IH (r_end r) (S base) v Hp) in Hv; [|lia]. rewrite Hv in H.
        injection H as H. lia.
      * intros (r' & [= <-] & Hl). unfold in_range in Hl. lia.
    + replace (base + S u) with (S base + u) by lia. rewrite (IH _ _ _ Hp) by lia.
      unfold in_unit. simpl. done.
Qed.

Lemma unit_index_of_spec rs n leaf u :
  partition 0 rs n → leaf < n → unit_index_of rs !! leaf = Some u ↔ in_unit rs u leaf.
Proof.
  intros Hp Hl. pose proof (unit_index_gen 0 rs n 0 leaf u Hp) as H.
  rewrite Nat.sub_0_r in H. apply H. lia.
Qed.

(** A plan is produced for every input; for an accepted request it has one
    stage per operation, and the stage of operation [i] carries the index of the
    unit whose range holds [i]. *)
Theorem plan_request_stages `{Externals} input catalog req :
  parse_request input = Done req →
  ∃ stages, plan_request input catalog = Some (plan_of_request req catalog) ∧
    value_get "stages" (plan_of_request req catalog) = Some (VArray stages) ∧
    length stages = length (ops req) ∧
    ∀ i stage, stages !! i = Some stage →
      ∃ u, value_get "unit_index" stage = Some (json_nat u) ∧ in_unit (ranges req) u i.
Proof.
  intros Hp. apply parse_request_wf in Hp as Hwf. destruct Hwf as (_ & Hpart & _).
  eexists. split; [unfold plan_request; by rewrite Hp|]. split; [reflexivity|].
  split; [by rewrite length_fmap; unfold enumerate; rewrite length_zip_with, length_seq, Nat.min_id|].
  intros i stage Hi. rewrite list_lookup_fmap, enumerate_lookup in Hi.
  destruct (ops req !! i) as [op|] eqn:Hop; simplify_eq/=.
  apply lookup_lt_Some in Hop. destruct (partition_cover _ _ _ i Hpart) as (u & Hu); [lia|].
  exists u. split; [|done]. unfold plan_stage.
  rewrite (proj2 (unit_index_of_spec _ _ _ _ Hpart Hop) Hu).
  by destruct (literal_args (args op) []) as [l refs].
Qed.

Theorem plan_request_stages_witness :
  ∃ stages,
    value_get "stages" (plan_of_request (mkRequest [mkOp "get" []; mkOp "list" []] Parallel
      [mkRange 0 1; mkRange 1 2]) []) = Some (VArray stages) ∧ length stages = 2.
Proof.
  destruct (plan_request_stages (H := SmallJson.externals) "[get(), list()]" []
    (mkRequest [mkOp "get" []; mkOp "list" []] Parallel [mkRange 0 1; mkRange 1 2]))
    as (stages & _ & Hs & Hl & _); [vm_compute; reflexivity|].
  exists stages. split; [exact Hs|exact Hl].
Defined.

(** The verbs that pass the preflight. *)
Definition admissible_verbs : list string :=
  ["update"; "delete"; "link"; "gtd.transition"; "gtd.complete"].

Lemma contains_spec l s : contains l s = true ↔ s ∈ l.
Proof. apply existsb_eqb. Qed.

Lemma atomic_admissibility_None verb :
  atomic_admissibility verb = None ↔ verb ∈ admissible_verbs.
Proof.
  unfold atomic_admissibility.
  destruct (contains ATOMIC_KNOWN_UNIMPLEMENTED_VERBS verb) eqn:Hk.
  { split; [done|]. apply contains_spec in Hk. unfold admissible_verbs.
    unfold ATOMIC_KNOWN_UNIMPLEMENTED_VERBS in Hk.
    rewrite !elem_of_cons, elem_of_nil in *. naive_solver. }
  destruct (contains ATOMIC_ADMISSIBLE_VERBS verb) eqn:Ha.
  - split; [|done]. intros _. apply contains_spec in Ha.
    assert (verb ∉ ATOMIC_KNOWN_UNIMPLEMENTED_VERBS) as Hn.
    { intros H%contains_spec. congruence. }
    unfold ATOMIC_ADMISSIBLE_VERBS, ATOMIC_KNOWN_UNIMPLEMENTED_VERBS, admissible_verbs in *.
    rewrite !elem_of_cons, elem_of_nil in *. naive_solver.
  - assert (verb ∉ ATOMIC_ADMISSIBLE_VERBS) as Hn.
    { intros H%contains_spec. congruence. }
    split; [repeat case_match; done|]. intros H. exfalso. apply Hn.
    unfold ATOMIC_ADMISSIBLE_VERBS, admissible_verbs in *.
    rewrite !elem_of_cons, elem_of_nil in *. naive_solver.
Qed.

Lemma check_atomic_lookup ops rj :
  rj ∈ check_atomic_admissible ops ↔
    ∃ op, ops !! rj_op_index rj = Some op ∧ rj_tool rj = tool op ∧
          atomic_admissibility (tool op) = Some (rj_reason rj).
Proof.
  unfold check_atomic_admissible. rewrite list_elem_of_omap. split.
  - intros ([i op] & Hin & Heq). apply enumerate_elem_of in Hin. simpl in Heq.
    apply fmap_Some in Heq as (reason & Hr & ->). simpl. eauto.
  - intros (op & Hop & Ht & Hr). exists (rj_op_index rj, op).
    split; [by apply enumerate_elem_of|]. simpl. rewrite Hr. simpl. rewrite <-Ht. by destruct rj.
Qed.

(** The atomic preflight rejects by default: it passes a request exactly
    when every tool is one of the five admissible verbs, and names every other
    operation at its position. *)
Theorem check_atomic_admissible_spec ops :
  (check_atomic_admissible ops = [] ↔ Forall (λ op, tool op ∈ admissible_verbs) ops) ∧
  ∀ i op, ops !! i = Some op → tool op ∉ admissible_verbs →
    ∃ reason, mkRejection i (tool op) reason ∈ check_atomic_admissible ops.
Proof.
  assert (Hrej : ∀ i op, ops !! i = Some op → tool op ∉ admissible_verbs →
    ∃ reason, mkRejection i (tool op) reason ∈ check_atomic_admissible ops).
  { intros i op Hop Hn. destruct (atomic_admissibility (tool op)) as [reason|] eqn:E.
    - exists reason. apply check_atomic_lookup. simpl. eauto.
    - by apply atomic_admissibility_None in E. }
  split; [|exact Hrej]. rewrite Forall_lookup. split.
  - intros Hnil i op Hop. apply dec_stable. intros Hn.
    destruct (Hrej i op Hop Hn) as [reason Hin]. rewrite Hnil in Hin. set_solver.
  - intros Hall. destruct (check_atomic_admissible ops) as [|rj l] eqn:E; [done|].
    assert (rj ∈ check_atomic_admissible ops) as Hin by (rewrite E; left).
    apply check_atomic_lookup in Hin as (op & Hop & _ & Hr).
    apply Hall, atomic_admissibility_None in Hop. congruence.
Qed.
