(* ===== verification/Ident.v ===== *)
(** khive-types/src/namespace.rs and id.rs: validated namespaces with their
    segment-prefix order, and 128-bit identifiers with their text forms. *)

From Stdlib Require Import String Ascii ZArith.
From stdpp Require Import base tactics list strings gmap pretty.
From S2P Require Import Prelude RustStr Json.

(** ** Namespaces *)

Inductive NamespaceError : Type :=
| NsEmpty
| NsTooLong (max : nat)
| NsInvalidCharacter (ch : Z)
| NsEmptySegment
| NsTrailingSeparator.

(** [impl fmt::Display for NamespaceError] *)
Definition NamespaceError_fmt `{Externals} (self : NamespaceError) : string :=
  match self with
  | NsEmpty => "namespace must not be empty"
  | NsTooLong max => "namespace exceeds " +:+ fmt_nat max +:+ " characters"
  | NsInvalidCharacter ch => "namespace contains invalid character " +:+ char_debug ch
  | NsEmptySegment => "namespace must not contain empty path segments"
  | NsTrailingSeparator => "namespace must not end with ':'"
  end.

Definition MAX_LEN : nat := 256.

(** [ch.is_ascii_alphanumeric() || ch == '-' || ch == '_' || ch == '.'] *)
Definition namespace_char (g : bytes) : bool :=
  match g with
  | [c] => is_ascii_alphanumeric c || eqb_byte c "-"%char || eqb_byte c "_"%char
           || eqb_byte c "."%char
  | _ => false
  end.

Definition validate_segment (segment : bytes) : result unit NamespaceError :=
  match segment with
  | [] => Err NsEmptySegment
  | _ => try_each (λ ch, if negb (namespace_char ch) then Err (NsInvalidCharacter (code_point ch))
                         else Ok ()) (chars segment)
  end.

Definition validate_namespace (value : string) : result unit NamespaceError :=
  let l := to_bytes value in
  if is_empty value then Err NsEmpty
  else if MAX_LEN <? length l then Err (NsTooLong MAX_LEN)
  else if bool_decide (last l = Some ":"%char) then Err NsTrailingSeparator
  else try_each validate_segment (split_on ":"%char l).

Definition Namespace : Type := string.

Definition LOCAL : Namespace := "local".

Definition Namespace_parse (value : string) : result Namespace NamespaceError :=
  check? validate_namespace value in Ok value.

Definition has_segment_prefix (child parent : Namespace) : bool :=
  let c := to_bytes child in
  let p := to_bytes parent in
  (length p <? length c)
  && (match strip_prefix p c with Some _ => true | None => false end)
  && bool_decide (c !! length p = Some ":"%char).

(** ** Identifiers *)

(** [Id128([u8; 16])]: sixteen bytes. *)
Definition Id128 : Type := bytes.

Definition id_wf (b : Id128) : Prop := length b = 16.

Definition NIL : Id128 := replicate 16 zero.

Definition is_nil (b : Id128) : bool := forallb (λ c, byte c =? 0)%Z b.

(** [u8 as ascii] *)
Definition u8 (n : Z) : ascii := ascii_of_N (Z.to_N n).

(** [u128::to_be_bytes], [n] bytes of it. *)
Fixpoint be_bytes (n : nat) (v : Z) : bytes :=
  match n with
  | 0 => []
  | S n' => be_bytes n' (v / 256) ++ [u8 (v mod 256)]
  end.

Definition from_u128 (v : Z) : Id128 := be_bytes 16 v.

(** [u128::from_be_bytes] *)
Definition to_u128 (b : Id128) : Z := foldl (λ acc c, acc * 256 + byte c)%Z 0%Z b.

Definition is_lowercase_hex (value : string) : bool :=
  forallb (λ c, is_ascii_digit c || in_range 97 102 c) (to_bytes value).

Definition HEX_CHARS : bytes := to_bytes "0123456789abcdef".

Definition hex_at (n : Z) : ascii := default zero (HEX_CHARS !! Z.to_nat n).

(** The two characters of a byte. *)
Definition hex_pair (c : ascii) : bytes :=
  [hex_at (Z.shiftr (byte c) 4); hex_at (Z.land (byte c) 15)].

Definition groups : list (nat * nat) := [(0, 4); (4, 6); (6, 8); (8, 10); (10, 16)].

(** [impl fmt::Display for Id128] *)
Definition Id128_fmt (b : Id128) : string :=
  of_bytes (foldl (λ buf ig,
    let '(gi, (start, stop)) := ig in
    (if 0 <? gi then buf ++ ["-"%char] else buf)
    ++ concat (hex_pair <$> take (stop - start) (drop start b))) [] (enumerate groups)).

Inductive ParseIdError : Type := InvalidLength | InvalidHex.

#[export] Instance ParseIdError_eq_dec : EqDecision ParseIdError.
Proof. solve_decision. Defined.

(** [impl fmt::Display for ParseIdError] *)
Definition ParseIdError_fmt (self : ParseIdError) : string :=
  match self with
  | InvalidLength => "expected UUID: 32 hex chars or 36 with hyphens"
  | InvalidHex => "invalid hex character in UUID"
  end.

Definition hex_val (c : ascii) : option Z :=
  if in_range 48 57 c then Some (byte c - 48)%Z
  else if in_range 97 102 c then Some (byte c - 97 + 10)%Z
  else if in_range 65 70 c then Some (byte c - 65 + 10)%Z
  else None.

Definition byte_at (l : bytes) (i : nat) : ascii := default zero (l !! i).

(** One iteration of the loop of [parse_hex_bytes]. *)
Definition parse_hex_pair (hex : bytes) (i : nat) : result ascii ParseIdError :=
  let? hi := ok_or (hex_val (byte_at hex (i * 2))) InvalidHex in
  let? lo := ok_or (hex_val (byte_at hex (i * 2 + 1))) InvalidHex in
  Ok (u8 (Z.lor (Z.shiftl hi 4) lo)).

Definition parse_hex_bytes (hex : bytes) : result Id128 ParseIdError :=
  if negb (length hex =? 32) then Err InvalidLength
  else try_map (parse_hex_pair hex) (seq 0 16).

(** [b[start..stop]] *)
Definition sub (b : bytes) (start stop : nat) : bytes := take (stop - start) (drop start b).

Definition Id128_from_str (s : string) : result Id128 ParseIdError :=
  let b := to_bytes s in
  if length b =? 32 then parse_hex_bytes b
  else if length b =? 36 then
    if negb (eqb_byte (byte_at b 8) "-"%char) || negb (eqb_byte (byte_at b 13) "-"%char)
       || negb (eqb_byte (byte_at b 18) "-"%char) || negb (eqb_byte (byte_at b 23) "-"%char)
    then Err InvalidHex
    else parse_hex_bytes (sub b 0 8 ++ sub b 9 13 ++ sub b 14 18 ++ sub b 19 23 ++ sub b 24 36)
  else Err InvalidLength.

(** ** Splitting at a separator *)

(** Segments joined by a separator. *)
Fixpoint join_with (c : ascii) (segs : list bytes) : bytes :=
  match segs with
  | [] => []
  | [s] => s
  | s :: segs' => s ++ c :: join_with c segs'
  end.

Lemma split_on_cons c l : ∃ g gs, split_on c l = g :: gs.
Proof.
  induction l as [|d l (g & gs & IH)]; simpl; [eauto|].
  destruct (eqb_byte c d); [eauto|]. rewrite IH. eauto.
Qed.

Lemma join_split_on c l : join_with c (split_on c l) = l.
Proof.
  induction l as [|d l IH]; [done|]. simpl.
  destruct (split_on_cons c l) as (g & gs & E).
  destruct (eqb_byte c d) eqn:Ec.
  - apply eqb_byte_true in Ec as ->. rewrite E in *. simpl in *. by rewrite IH.
  - rewrite E in *. destruct gs; simpl in *; by rewrite IH.
Qed.

Lemma split_on_join c segs :
  segs ≠ [] → Forall (Forall (λ d, d ≠ c)) segs → split_on c (join_with c segs) = segs.
Proof.
  assert (Hseg : ∀ s l, Forall (λ d, d ≠ c) s → split_on c (s ++ l) =
    match split_on c l with g :: gs => (s ++ g) :: gs | [] => [s] end).
  { induction s as [|d s IH]; intros l Hs; simpl.
    - destruct (split_on_cons c l) as (g & gs & ->). done.
    - apply Forall_cons in Hs as [Hd Hs]. rewrite (proj2 (eqb_byte_false c d)) by done.
      rewrite IH by done. destruct (split_on_cons c l) as (g & gs & ->). done. }
  intros Hne HF. induction HF as [|s segs Hs HF IH]; [done|]. destruct segs as [|s2 segs].
  - simpl. rewrite <-(app_nil_r s) at 1. rewrite Hseg by done. simpl. by rewrite app_nil_r.
  - change (join_with c (s :: s2 :: segs)) with (s ++ c :: join_with c (s2 :: segs)).
    rewrite Hseg by done. cbn [split_on]. rewrite eqb_byte_refl, IH by done. by rewrite app_nil_r.
Qed.

Lemma split_on_no_sep c l : Forall (Forall (λ d, d ≠ c)) (split_on c l).
Proof.
  induction l as [|d l IH]; simpl; [by repeat constructor|].
  destruct (eqb_byte c d) eqn:E; [by constructor|]. apply eqb_byte_false in E.
  destruct (split_on_cons c l) as (g & gs & Hg). rewrite Hg in *.
  apply Forall_cons in IH as [??]. by repeat constructor.
Qed.

Lemma split_on_app c l r : split_on c (l ++ c :: r) = split_on c l ++ split_on c r.
Proof.
  induction l as [|d l IH]; simpl; [by rewrite eqb_byte_refl|].
  destruct (eqb_byte c d); [by rewrite IH|]. rewrite IH.
  destruct (split_on_cons c l) as (g & gs & ->). done.
Qed.

Lemma join_with_app c segs1 segs2 :
  segs1 ≠ [] → segs2 ≠ [] →
  join_with c (segs1 ++ segs2) = join_with c segs1 ++ c :: join_with c segs2.
Proof.
  intros H1 H2. induction segs1 as [|s segs1 IH]; [done|]. destruct segs1 as [|s' segs1].
  - by destruct segs2.
  - simpl app in *. change (join_with c (s :: s' :: ?l)) with (s ++ c :: join_with c (s' :: l)).
    rewrite IH by done. by rewrite <-app_assoc.
Qed.

(** ** The namespace grammar *)

(** A segment of a namespace. *)
Definition ns_segment (s : bytes) : Prop :=
  s ≠ [] ∧ Forall (λ c, namespace_char [c] = true) s.

Lemma chars_ascii_iff (P : bytes → bool) l :
  (∀ g, P g = true → ∃ c, g = [c]) → Forall (λ g, P g = true) (chars l) →
  chars l = (λ c, [c]) <$> l.
Proof.
  intros HP HF. rewrite <-(concat_chars l) at 2. induction HF as [|g gs Hg _ IH]; [done|].
  destruct (HP g Hg) as [c ->]. cbn [concat app]. rewrite fmap_cons. by f_equal.
Qed.

Lemma namespace_char_ascii c : namespace_char [c] = true → (byte c <? 128)%Z = true.
Proof. destruct c as [[] [] [] [] [] [] [] []]; vm_compute; congruence. Qed.

Lemma validate_segment_Ok s : validate_segment s = Ok () ↔ ns_segment s.
Proof.
  unfold validate_segment, ns_segment. destruct s as [|c s]; [split; [done|by intros []]|].
  set (l := c :: s). rewrite try_each_Ok. split.
  - intros HF. split; [done|].
    assert (Forall (λ g, namespace_char g = true) (chars l)) as HF'.
    { eapply Forall_impl; [exact HF|]. intros g Hg. simpl in Hg. by destruct (namespace_char g). }
    rewrite (chars_ascii_iff namespace_char) in HF'; [by rewrite Forall_fmap in HF'| |done].
    intros [|c' [|]]; simpl; try done. eauto.
  - intros [_ HF]. rewrite chars_ascii.
    + rewrite Forall_fmap. eapply Forall_impl; [exact HF|]. intros d Hd. simpl. simpl in Hd.
      by rewrite Hd.
    + apply forallb_forall. intros d Hd%list_elem_of_In. rewrite Forall_forall in HF.
      by apply namespace_char_ascii, HF.
Qed.

Lemma last_join_with c segs s :
  segs ≠ [] → last segs = Some s → s ≠ [] → last (join_with c segs) = last s.
Proof.
  intros _. induction segs as [|s1 segs IH]; [done|]. destruct segs as [|s2 segs].
  - simpl. by intros [= ->].
  - intros Hl Hs. change (join_with c (s1 :: s2 :: segs)) with (s1 ++ c :: join_with c (s2 :: segs)).
    change (last (s2 :: segs) = Some s) in Hl. specialize (IH Hl Hs).
    rewrite last_app, last_cons, IH. destruct (last s) eqn:Es; [done|].
    by apply last_None in Es.
Qed.

(** A namespace is accepted exactly when it is at most 256 bytes of one or
    more nonempty segments of allowed characters joined by colons; it is stored
    unchanged. *)
Theorem Namespace_parse_spec value ns :
  Namespace_parse value = Ok ns ↔
    ns = value ∧ str_len value ≤ MAX_LEN ∧
    ∃ segs, segs ≠ [] ∧ Forall ns_segment segs ∧ to_bytes value = join_with ":" segs.
Proof.
  unfold Namespace_parse, validate_namespace, str_len. rewrite res_bind_Ok. split.
  - intros ([] & Hv & [= ->]). destruct (is_empty ns); [done|].
    destruct (Nat.ltb_spec MAX_LEN (length (to_bytes ns))); [done|].
    case_bool_decide; [done|]. apply try_each_Ok in Hv.
    split_and!; [done|lia|]. exists (split_on ":" (to_bytes ns)). split_and!.
    + destruct (split_on_cons ":" (to_bytes ns)) as (g & gs & ->). done.
    + eapply Forall_impl; [exact Hv|]. intros s. apply validate_segment_Ok.
    + by rewrite join_split_on.
  - intros (-> & Hlen & segs & Hne & HF & Hval). exists (). split; [|done].
    assert (Forall (Forall (λ d, d ≠ ":"%char)) segs) as Hsep.
    { eapply Forall_impl; [exact HF|]. intros s [_ Hs]. eapply Forall_impl; [exact Hs|].
      by intros d Hd ->. }
    destruct (last segs) as [s|] eqn:Hlast; [|by apply last_None in Hlast].
    assert (ns_segment s) as [Hs Hchars].
    { rewrite Forall_forall in HF. apply HF. apply last_Some in Hlast as [? ->]. set_solver. }
    assert (Hl : last (to_bytes value) = last s) by (rewrite Hval; by apply last_join_with).
    destruct (last s) as [d|] eqn:Hd; [|by apply last_None in Hd].
    destruct value as [|c value]; [by destruct s|]. simpl is_empty. cbv iota.
    destruct (Nat.ltb_spec MAX_LEN (length (to_bytes (String c value)))); [lia|].
    rewrite bool_decide_eq_false_2.
    + rewrite Hval, split_on_join by done. apply try_each_Ok.
      eapply Forall_impl; [exact HF|]. intros t. apply validate_segment_Ok.
    + rewrite Hl. intros [= ->]. apply last_Some in Hd as [s' ->].
      apply Forall_app in Hchars as [_ Hc]. by apply Forall_inv in Hc.
Qed.

(** One namespace is a descendant of another exactly when the parent's
    segments are a proper prefix of the child's. *)
Theorem has_segment_prefix_spec child parent :
  has_segment_prefix child parent = true ↔
    ∃ tail, tail ≠ [] ∧
      split_on ":" (to_bytes child) = split_on ":" (to_bytes parent) ++ tail.
Proof.
  unfold has_segment_prefix. rewrite !andb_true_iff, bool_decide_eq_true, Nat.ltb_lt. split.
  - intros [[_ Hp] Hc]. destruct (strip_prefix _ _) as [r|] eqn:E; [|done].
    apply strip_prefix_Some in E. rewrite E in Hc.
    rewrite lookup_app_r, Nat.sub_diag in Hc by done. destruct r as [|d r]; simplify_eq/=.
    exists (split_on ":" r). rewrite E, split_on_app. split; [|done].
    destruct (split_on_cons ":" r) as (g & gs & ->). done.
  - intros (tail & Hne & Hs).
    assert (to_bytes child = to_bytes parent ++ ":"%char :: join_with ":" tail) as E.
    { rewrite <-(join_split_on ":" (to_bytes child)), Hs, join_with_app, join_split_on; [done| |done].
      destruct (split_on_cons ":" (to_bytes parent)) as (g & gs & ->). done. }
    rewrite E, length_app. simpl. split_and!; [lia| |by rewrite lookup_app_r, Nat.sub_diag].
    destruct (strip_prefix _ _) eqn:Es; [done|].
    rewrite (proj2 (strip_prefix_Some _ _ (":"%char :: join_with ":" tail)) eq_refl) in Es. done.
Qed.

(** ** Identifier text *)

Lemma hex_val_pair c :
  hex_val (hex_at (Z.shiftr (byte c) 4)) = Some (Z.shiftr (byte c) 4) ∧
  hex_val (hex_at (Z.land (byte c) 15)) = Some (Z.land (byte c) 15) ∧
  u8 (Z.lor (Z.shiftl (Z.shiftr (byte c) 4) 4) (Z.land (byte c) 15)) = c.
Proof. by destruct c as [[] [] [] [] [] [] [] []]. Qed.

Lemma parse_hex_pair_Ok hex i c :
  byte_at hex (i * 2) = hex_at (Z.shiftr (byte c) 4) →
  byte_at hex (i * 2 + 1) = hex_at (Z.land (byte c) 15) →
  parse_hex_pair hex i = Ok c.
Proof.
  intros H1 H2. unfold parse_hex_pair. rewrite H1, H2.
  destruct (hex_val_pair c) as (-> & -> & E). cbn [ok_or res_bind]. by rewrite E.
Qed.

Lemma Forall2_try_map {A B E} (f : A → result B E) l k :
  Forall2 (λ x y, f x = Ok y) l k → try_map f l = Ok k.
Proof.
  induction 1 as [|x y l k Hx _ IH]; simpl; [done|]. by rewrite Hx; simpl; rewrite IH.
Qed.

Lemma parse_hex_bytes_pairs b :
  id_wf b → parse_hex_bytes (concat (hex_pair <$> b)) = Ok b.
Proof.
  unfold id_wf. intros Hb. unfold parse_hex_bytes.
  do 16 (destruct b as [|? b]; [done|]). destruct b; [|done].
  match goal with |- (if negb ?t then _ else _) = _ => change t with true end. cbn [negb].
  apply Forall2_try_map. cbn [seq].
  repeat (constructor; [by apply parse_hex_pair_Ok|]). constructor.
Qed.

(** The hyphenated text of an identifier, and its 32-digit form, parse back
    to it. *)
Theorem Id128_roundtrip b :
  id_wf b →
  Id128_from_str (Id128_fmt b) = Ok b ∧
  Id128_from_str (of_bytes (concat (hex_pair <$> b))) = Ok b.
Proof.
  intros Hb. pose proof (parse_hex_bytes_pairs b Hb) as Hp. unfold Id128_from_str, Id128_fmt.
  rewrite !to_of_bytes. unfold id_wf in Hb.
  do 16 (destruct b as [|? b]; [done|]). destruct b; [|done]. split; exact Hp.
Qed.

Theorem Id128_roundtrip_witness :
  Id128_fmt (from_u128 255) = "00000000-0000-0000-0000-0000000000ff" ∧
  Id128_from_str "00000000-0000-0000-0000-0000000000ff" = Ok (from_u128 255).
Proof.
  split; [vm_compute; reflexivity|].
  apply (Id128_roundtrip (from_u128 255)). reflexivity.
Defined.

Lemma be_bytes_length n v : length (be_bytes n v) = n.
Proof. revert v. induction n as [|n IH]; intros v; simpl; [done|]. rewrite length_app, IH. simpl. lia. Qed.

Lemma byte_u8 n : (0 ≤ n < 256)%Z → byte (u8 n) = n.
Proof.
  intros Hn. unfold byte, u8. rewrite N_ascii_embedding by lia. lia.
Qed.

Lemma u8_byte c : u8 (byte c) = c.
Proof. unfold u8, byte. rewrite N2Z.id. apply ascii_N_embedding. Qed.

Lemma to_be_bytes n v : (0 ≤ v < 256 ^ Z.of_nat n)%Z → to_u128 (be_bytes n v) = v.
Proof.
  revert v. induction n as [|n IH]; intros v Hv; simpl.
  { change (256 ^ Z.of_nat 0)%Z with 1%Z in Hv. unfold to_u128. simpl. lia. }
  unfold to_u128 in *. rewrite foldl_snoc, IH.
  - rewrite byte_u8 by (apply Z.mod_pos_bound; lia). clear IH Hv. pose proof (Z.div_mod v 256). lia.
  - rewrite Nat2Z.inj_succ, Z.pow_succ_r in Hv by lia.
    split; [apply Z.div_pos; lia|]. apply Z.div_lt_upper_bound; lia.
Qed.

Lemma be_to_bytes b : be_bytes (length b) (to_u128 b) = b ∧ (0 ≤ to_u128 b)%Z.
Proof.
  induction b as [|c b [IH Hpos]] using rev_ind; [done|].
  unfold to_u128 in *. rewrite foldl_snoc, length_app. simpl length. rewrite Nat.add_1_r.
  pose proof (byte_range c) as Hc. set (v := foldl _ _ _) in *. cbn [be_bytes]. split; [|lia].
  rewrite Z.add_comm, Z.div_add, Z.mod_add, Z.div_small, Z.mod_small, Z.add_0_l, IH by lia.
  by rewrite u8_byte.
Qed.

(** Identifiers and 128-bit integers correspond one to one, in big-endian
    order. *)
Theorem Id128_u128_roundtrip :
  (∀ v, (0 ≤ v < 2 ^ 128)%Z → id_wf (from_u128 v) ∧ to_u128 (from_u128 v) = v) ∧
  (∀ b, id_wf b → from_u128 (to_u128 b) = b).
Proof.
  split.
  - intros v Hv. split; [apply be_bytes_length|]. by apply to_be_bytes.
  - intros b Hb. unfold from_u128. rewrite <-Hb. apply be_to_bytes.
Qed.

Lemma is_nil_spec b : id_wf b → is_nil b = true ↔ b = NIL.
Proof.
  intros Hb. split; [|by intros ->]. unfold is_nil, NIL. rewrite <-Hb. clear Hb.
  induction b as [|c b IH]; [done|]. simpl. intros [Hc Hrest]%andb_true_iff.
  rewrite <-IH by done. f_equal. apply byte_inj. by apply Z.eqb_eq in Hc as ->.
Qed.
