(* ===== verification/Rounding.v ===== *)
(** IEEE 754 binary floating point, on the specification of the standard
    library ([SpecFloat]): the exact value of a float as a rational, and the
    proof that the rounding of [SpecFloat] returns a nearest float.  The theory
    is generic in the format (precision and largest exponent). *)

From Stdlib Require Import ZArith QArith Qpower Qround Lqa Lia.
From stdpp Require Import base tactics numbers.
From Stdlib Require Import SpecFloat.
From S2P Require Import Prelude.
Open Scope Z_scope.

(** ** Powers of two *)

Definition bpow (e : Z) : Q := Qpower 2 e.

Lemma bpow_pos e : (0 < bpow e)%Q.
Proof. by apply Qpower_0_lt. Qed.

Lemma bpow_add e f : (bpow (e + f) == bpow e * bpow f)%Q.
Proof. by apply Qpower_plus. Qed.

Lemma bpow_inject e : 0 ≤ e → (bpow e == inject_Z (2 ^ e))%Q.
Proof. intros He. unfold bpow. by rewrite Zpower_Qpower. Qed.

Lemma bpow_1 : (bpow 1 == 2)%Q.
Proof. done. Qed.

Lemma bpow_succ e : (bpow (e + 1) == 2 * bpow e)%Q.
Proof. rewrite bpow_add, bpow_1. ring. Qed.

Lemma bpow_le e f : e ≤ f → (bpow e <= bpow f)%Q.
Proof. intros. by apply Qpower_le_compat_l. Qed.

Lemma bpow_lt e f : e < f → (bpow e < bpow f)%Q.
Proof. intros. by apply Qpower_lt_compat_l. Qed.

(** [m * 2^e] *)
Definition fl (m e : Z) : Q := inject_Z m * bpow e.

Lemma fl_shift m e k : 0 ≤ k → (fl (m * 2 ^ k) e == fl m (e + k))%Q.
Proof. intros Hk. unfold fl. rewrite inject_Z_mult, bpow_add, (bpow_inject k) by done. ring. Qed.

Lemma fl_0 e : (fl 0 e == 0)%Q.
Proof. apply Qmult_0_l. Qed.

Lemma fl_le m m' e : m ≤ m' → (fl m e <= fl m' e)%Q.
Proof.
  intros Hm. unfold fl. apply Qmult_le_compat_r; [by rewrite <-Zle_Qle|].
  apply Qlt_le_weak, bpow_pos.
Qed.

Lemma fl_step m m' e : m < m' → (fl m e + bpow e <= fl m' e)%Q.
Proof.
  intros Hm. eapply Qle_trans; [|apply (fl_le (m + 1)); lia].
  unfold fl. rewrite inject_Z_plus, Qmult_plus_distr_l. change (inject_Z 1) with 1%Q. lra.
Qed.

Lemma fl_lt m m' e : m < m' → (fl m e < fl m' e)%Q.
Proof. intros Hm. unfold fl. apply Qmult_lt_compat_r; [apply bpow_pos|by rewrite <-Zlt_Qlt]. Qed.

(** ** The number of digits *)

Lemma digits_bounds p : 2 ^ (Zpos (digits2_pos p) - 1) ≤ Zpos p < 2 ^ Zpos (digits2_pos p).
Proof.
  induction p as [p IH|p IH|]; simpl digits2_pos; [..|done];
    rewrite ?Pos2Z.inj_succ; unfold Z.succ; rewrite Z.add_simpl_r;
    rewrite Z.pow_add_r by lia; change (2 ^ 1) with 2;
    assert (2 ^ Zpos (digits2_pos p) = 2 * 2 ^ (Zpos (digits2_pos p) - 1)) as E
      by (rewrite <-Z.pow_succ_r by lia; f_equal; lia); lia.
Qed.

Lemma digits_le p k : 0 ≤ k → Zpos p < 2 ^ k → Zpos (digits2_pos p) ≤ k.
Proof.
  intros Hk Hp. destruct (Z.le_gt_cases (Zpos (digits2_pos p)) k) as [|Hgt]; [done|].
  pose proof (digits_bounds p). assert (2 ^ k ≤ 2 ^ (Zpos (digits2_pos p) - 1)); [|lia].
  apply Z.pow_le_mono_r; lia.
Qed.

Lemma digits_ge p k : 2 ^ k ≤ Zpos p → k < Zpos (digits2_pos p).
Proof.
  intros Hp. destruct (Z.le_gt_cases (Zpos (digits2_pos p)) k) as [Hle|]; [|done].
  pose proof (digits_bounds p). assert (2 ^ Zpos (digits2_pos p) ≤ 2 ^ k); [|lia].
  apply Z.pow_le_mono_r; lia.
Qed.

Lemma digits_unique p d : 2 ^ (d - 1) ≤ Zpos p < 2 ^ d → 0 ≤ d → Zpos (digits2_pos p) = d.
Proof.
  intros [H1 H2] Hd. apply digits_ge in H1. apply digits_le in H2; lia.
Qed.

(** ** Locations *)

(** Where a rational lies relative to an integer below it. *)
Definition located (m : Z) (l : location) (y : Q) : Prop :=
  let v := inject_Z m in
  match l with
  | loc_Exact => y == v
  | loc_Inexact Lt => v < y /\ y < v + (1 # 2)
  | loc_Inexact Eq => y == v + (1 # 2)
  | loc_Inexact Gt => v + (1 # 2) < y /\ y < v + 1
  end%Q.

Lemma located_bounds m l y :
  located m l y → (inject_Z m <= y)%Q ∧ (y < inject_Z m + 1)%Q.
Proof. unfold located. destruct l as [|[]]; intros; split; lra. Qed.

Lemma located_Proper m l y y' : (y == y')%Q → located m l y → located m l y'.
Proof. unfold located. intros E. destruct l as [|[]]; rewrite E; done. Qed.

Lemma inject_xO p : (inject_Z (Zpos (xO p)) == 2 * inject_Z (Zpos p))%Q.
Proof. rewrite Pos2Z.inj_xO, inject_Z_mult. ring. Qed.

Lemma inject_xI p : (inject_Z (Zpos (xI p)) == 2 * inject_Z (Zpos p) + 1)%Q.
Proof. rewrite Pos2Z.inj_xI, inject_Z_plus, inject_Z_mult. ring. Qed.

Lemma shr_1_located mrs y :
  0 ≤ shr_m mrs → located (shr_m mrs) (loc_of_shr_record mrs) y →
  located (shr_m (shr_1 mrs)) (loc_of_shr_record (shr_1 mrs)) (y / 2) ∧
  shr_m (shr_1 mrs) = shr_m mrs / 2.
Proof.
  destruct mrs as [m r s]. simpl. intros Hm Hy.
  assert (Hy2 : (y / 2 == y * (1 # 2))%Q) by (field; lra).
  assert (Hdiv : shr_m (shr_1 (Build_shr_record m r s)) = m / 2).
  { destruct m as [|[p|p|]|]; [done| | |done|lia]; simpl.
    - rewrite Pos2Z.inj_xI. by apply Z.div_unique with 1; [lia|].
    - rewrite Pos2Z.inj_xO. apply Z.div_unique with 0; lia. }
  split; [|exact Hdiv]. clear Hdiv.
  destruct m as [|[p|p|]|]; [..|lia];
    destruct r, s; simpl in *; unfold located in *;
    rewrite ?inject_xO, ?inject_xI in Hy; change (inject_Z 0) with 0%Q in *;
    change (inject_Z 1) with 1%Q in *; rewrite ?Hy2; try (split; lra); lra.
Qed.

Lemma iter_pos_iter {A} (f : A → A) n x : iter_pos f n x = Pos.iter f x n.
Proof.
  revert x. induction n as [n IH|n IH|]; intros x; simpl; [..|done]; rewrite ?IH, ?IH; [|done].
  by rewrite <-!Pos.iter_swap.
Qed.

Lemma shr_located mrs e n y :
  0 ≤ n → 0 ≤ shr_m mrs → located (shr_m mrs) (loc_of_shr_record mrs) y →
  let '(mrs', e') := shr mrs e n in
  located (shr_m mrs') (loc_of_shr_record mrs') (y * bpow (- n)) ∧
  shr_m mrs' = shr_m mrs / 2 ^ n ∧ e' = e + n.
Proof.
  intros Hn Hm Hy. unfold shr. destruct n as [|n|]; [| |lia].
  { split; [|by rewrite Z.div_1_r, Z.add_0_r].
    eapply located_Proper; [|exact Hy]. change (bpow (- 0)) with 1%Q. ring. }
  rewrite iter_pos_iter. cut (
    located (shr_m (Pos.iter shr_1 mrs n)) (loc_of_shr_record (Pos.iter shr_1 mrs n))
      (y * bpow (- Zpos n)) ∧ shr_m (Pos.iter shr_1 mrs n) = shr_m mrs / 2 ^ Zpos n);
    [by intros []|].
  clear Hn e. induction n as [|n [IH1 IH2]] using Pos.peano_ind.
  - simpl Pos.iter. destruct (shr_1_located mrs y Hm Hy) as [H1 H2]. by split.
  - rewrite Pos.iter_succ, Pos2Z.inj_succ. destruct (shr_1_located _ _ ltac:(
      rewrite IH2; apply Z.div_pos; lia) IH1) as [H1 H2]. split.
    + eapply located_Proper; [|exact H1].
      replace (- Z.succ (Zpos n)) with (- Zpos n + - (1)) by lia. rewrite bpow_add.
      change (bpow (- (1))) with (1 # 2)%Q. field.
    + rewrite H2, IH2, Z.div_div by lia. f_equal. rewrite Z.pow_succ_r by lia. lia.
Qed.

(** Rounding to an integer: nearest, ties to even. *)
Lemma round_nearest_even_spec m l y :
  located m l y →
  (inject_Z (round_nearest_even m l) - (1 # 2) <= y)%Q ∧
  (y <= inject_Z (round_nearest_even m l) + (1 # 2))%Q ∧
  (round_nearest_even m l = m ∨ round_nearest_even m l = m + 1).
Proof.
  unfold located. intros Hy.
  destruct l as [|[]]; simpl; [..|]; try (destruct (Z.even m)); rewrite ?inject_Z_plus;
    change (inject_Z 1) with 1%Q; (split; [lra|split; [lra|auto]]).
Qed.

(** ** Rounding to a format *)

(** A format: its precision and the exponent of its infinities. *)
Class Format := { prec : Z; emax : Z; prec_bound : 1 < prec; emax_bound : prec < emax }.

Section rounding.
Context `{Format}.

Notation fexp := (fexp prec emax).
Notation emin := (emin prec emax).

Lemma fexp_emin e : emin ≤ fexp e.
Proof. unfold SpecFloat.fexp. lia. Qed.

(** The floats with an unbounded exponent range. *)
Definition rep (m e : Z) : Prop := m = 0 ∨ ∃ p, m = Zpos p ∧ fexp (Zpos (digits2_pos p) + e) = e.

(** [r] is a value of the format (of unbounded exponent) nearest to [x]. *)
Definition nearest (r x : Q) : Prop :=
  ∀ m e s, rep m e → let b := fl (cond_Zopp s m) e in
    ((b < r -> b + r <= 2 * x) /\ (r < b -> 2 * x <= b + r))%Q.

(** The result of rounding the nonnegative magnitude [M * 2^E]. *)
Definition pack (s : bool) (M E : Z) : spec_float :=
  match M with
  | Zpos p => if E <=? emax - prec then S754_finite s p E else S754_infinity s
  | _ => S754_zero s
  end.

Lemma rep_emin m e : rep m e → m = 0 ∨ emin ≤ e.
Proof. intros [->|(p & -> & <-)]; [by left|right; apply fexp_emin]. Qed.

Lemma rep_nonneg m e : rep m e → 0 ≤ m.
Proof. intros [->|(p & -> & _)]; lia. Qed.

Lemma rep_lt m e : rep m e → m < 2 ^ prec.
Proof.
  pose proof prec_bound. intros [->|(p & -> & E)]; [by apply Z.pow_pos_nonneg; lia|].
  unfold SpecFloat.fexp in E. pose proof (digits_bounds p).
  assert (2 ^ Zpos (digits2_pos p) ≤ 2 ^ prec); [|lia]. apply Z.pow_le_mono_r; lia.
Qed.

(** The exponent of the rounding and the digits it keeps. *)
Lemma fexp_kept p e :
  e ≤ fexp (Zpos (digits2_pos p) + e) →
  let n := fexp (Zpos (digits2_pos p) + e) - e in
  Zpos p / 2 ^ n < 2 ^ prec ∧
  (e + n = emin ∨ 2 ^ (prec - 1) * 2 ^ n ≤ Zpos p).
Proof.
  pose proof prec_bound. intros He n. pose proof (digits_bounds p) as [D1 D2].
  assert (0 ≤ n) by lia. split.
  - apply Z.div_lt_upper_bound; [lia|]. rewrite <-Z.pow_add_r by lia.
    eapply Z.lt_le_trans; [exact D2|]. apply Z.pow_le_mono_r; [lia|].
    unfold n, SpecFloat.fexp. lia.
  - unfold n, SpecFloat.fexp in *.
    destruct (Z.le_gt_cases (Zpos (digits2_pos p) + e - prec) emin) as [|Hgt]; [left; lia|right].
    rewrite Z.max_l in * by lia. rewrite <-Z.pow_add_r by lia.
    eapply Z.le_trans; [|exact D1]. apply Z.pow_le_mono_r; lia.
Qed.

(** Renormalising a rounded significand: only a carry shifts it, and exactly. *)
Lemma renormalise N e' :
  0 ≤ N ≤ 2 ^ prec → emin ≤ e' → (e' = emin ∨ 2 ^ (prec - 1) ≤ N) →
  ∃ M E, rep M E ∧ (fl M E == fl N e')%Q ∧
    let '(mrs, e'') := shr_fexp prec emax N e' loc_Exact in
    shr_m mrs = M ∧ (M = 0 ∨ e'' = E).
Proof.
  pose proof prec_bound as Hp. intros HN He Hbig. unfold shr_fexp.
  change (shr_record_of_loc N loc_Exact) with (Build_shr_record N false false).
  destruct N as [|p|]; [| |lia].
  { exists 0, e'. split; [by left|]. split; [done|].
    pose proof (shr_located (Build_shr_record 0 false false) e'
      (Z.max 0 (fexp (Zdigits2 0 + e') - e')) 0 ltac:(lia) ltac:(done) ltac:(done)) as Hs.
    destruct (Z.le_gt_cases (fexp (Zdigits2 0 + e') - e') 0) as [Hle|Hgt].
    - unfold shr. destruct (fexp (Zdigits2 0 + e') - e') eqn:E; [|lia|]; by split; [|left].
    - rewrite Z.max_r in Hs by lia. destruct (shr _ _ _) as [mrs e'']. destruct Hs as (_ & -> & _).
      split; [done|by left]. }
  pose proof (digits_bounds p) as [D1 D2]. simpl Zdigits2.
  destruct (Z.eq_dec (Zpos p) (2 ^ prec)) as [Hcarry|Hne].
  - assert (Zpos (digits2_pos p) = prec + 1) as Hd.
    { apply digits_unique; [|lia]. rewrite Hcarry, Z.add_simpl_r. split; [lia|].
      apply Z.pow_lt_mono_r; lia. }
    assert (fexp (Zpos (digits2_pos p) + e') - e' = 1) as ->
      by (unfold SpecFloat.fexp; rewrite Hd; lia).
    assert (Zpos p = 2 ^ (prec - 1) * 2) as Hhalf.
    { rewrite Hcarry, Z.mul_comm, <-Z.pow_succ_r by lia. f_equal. lia. }
    destruct (2 ^ (prec - 1)) as [|q|] eqn:EM; [lia| |lia].
    exists (Zpos q), (e' + 1). split; [|split].
    + right. exists q. split; [done|]. rewrite (digits_unique q prec).
      * unfold SpecFloat.fexp. lia.
      * rewrite EM. split; [done|]. rewrite <-EM. apply Z.pow_lt_mono_r; lia.
      * lia.
    + rewrite Hhalf. symmetry. apply (fl_shift (Zpos q) e' 1). done.
    + cbn. split; [|by right]. destruct p; simpl; lia.
  - assert (fexp (Zpos (digits2_pos p) + e') = e') as E.
    { assert (Zpos (digits2_pos p) ≤ prec) by (apply digits_le; lia).
      unfold SpecFloat.fexp. destruct Hbig as [->|Hbig]; [lia|].
      apply (digits_ge p (prec - 1)) in Hbig. lia. }
    exists (Zpos p), e'. split; [right; eauto|]. split; [done|].
    rewrite E, Z.sub_diag. simpl. auto.
Qed.

Lemma fl_grid m e e' : e' ≤ e → (fl m e == fl (m * 2 ^ (e - e')) e')%Q.
Proof. intros He. rewrite fl_shift by lia. by replace (e' + (e - e')) with e by lia. Qed.

Lemma fl_opp m e : (fl (- m) e == - fl m e)%Q.
Proof. unfold fl. rewrite inject_Z_opp. ring. Qed.

Lemma fl_nonneg m e : 0 ≤ m → (0 <= fl m e)%Q.
Proof.
  intros Hm. unfold fl. apply Qmult_le_0_compat; [|apply Qlt_le_weak, bpow_pos].
  change 0%Q with (inject_Z 0). by rewrite <-Zle_Qle.
Qed.

(** Rounding on the grid of exponent [e'] is nearest when every finer float is
    far below. *)
Lemma grid_nearest N e' x :
  (fl N e' - (1 # 2) * bpow e' <= x)%Q → (x <= fl N e' + (1 # 2) * bpow e')%Q →
  (e' = emin ∨ (fl (2 ^ (prec - 1)) e' <= x)%Q) →
  nearest (fl N e') x.
Proof.
  pose proof prec_bound as Hp. intros H1 H2 Hbig m e s Hrep b.
  assert (Hgrid : ∀ k, (fl k e' == b)%Q →
    ((b < fl N e' -> b + fl N e' <= 2 * x) /\ (fl N e' < b -> 2 * x <= b + fl N e'))%Q).
  { intros k Hk. pose proof (bpow_pos e'). destruct (Z.lt_trichotomy k N) as [Hlt|[->|Hlt]].
    - pose proof (fl_step k N e' Hlt). split; lra.
    - split; lra.
    - pose proof (fl_step N k e' Hlt). split; lra. }
  destruct (Z.le_gt_cases e' e) as [Hle|Hlt].
  { apply (Hgrid (cond_Zopp s m * 2 ^ (e - e'))). symmetry. by apply fl_grid. }
  destruct (rep_emin m e Hrep) as [->|Hmin].
  { apply (Hgrid 0). unfold b. destruct s; by rewrite !fl_0. }
  destruct Hbig as [->|Ht]; [lia|]. set (t := fl (2 ^ (prec - 1)) e') in *.
  assert (Hb : (b < t)%Q).
  { pose proof (rep_lt m e Hrep) as Hm. pose proof (rep_nonneg m e Hrep) as Hm0.
    assert (fl m e < t)%Q as Hmt.
    { eapply Qlt_le_trans; [by apply (fl_lt _ (2 ^ prec))|]. unfold t.
      replace prec with (prec - 1 + 1) at 1 by lia. rewrite Z.pow_add_r, (fl_shift _ _ 1) by lia.
      unfold fl. rewrite !(Qmult_comm (inject_Z _)). apply Qmult_le_compat_r.
      - apply bpow_le. lia.
      - change 0%Q with (inject_Z 0). rewrite <-Zle_Qle. apply Z.pow_nonneg. lia. }
    unfold b. destruct s; simpl; [|done]. rewrite fl_opp. pose proof (fl_nonneg m e Hm0).
    lra. }
  pose proof (bpow_pos e'). destruct (Z.lt_trichotomy (2 ^ (prec - 1)) N) as [Hlt'|[E|Hlt']].
  - pose proof (fl_step _ _ e' Hlt') as Hst. fold t in Hst. split; lra.
  - assert (fl N e' == t)%Q by (by rewrite <-E). split; lra.
  - pose proof (fl_step _ _ e' Hlt') as Hst. fold t in Hst. split; lra.
Qed.

(** The rounding of [SpecFloat] is to nearest. *)
Lemma binary_round_aux_spec s m e l x :
  0 ≤ m → located m l (x * bpow (- e)) → e ≤ fexp (Zdigits2 m + e) →
  ∃ M E, rep M E ∧ nearest (fl M E) x ∧ binary_round_aux prec emax s m e l = pack s M E.
Proof.
  pose proof prec_bound as Hp. intros Hm Hloc He. unfold binary_round_aux, shr_fexp at 1.
  set (n := fexp (Zdigits2 m + e) - e) in *.
  assert (Hn0 : 0 ≤ n) by (unfold n; lia).
  pose proof (shr_located (shr_record_of_loc m l) e n (x * bpow (- e)) Hn0) as Hs.
  assert (Hr : shr_m (shr_record_of_loc m l) = m ∧ loc_of_shr_record (shr_record_of_loc m l) = l)
    by (destruct l as [|[]]; done).
  destruct Hr as [Hr1 Hr2]. rewrite Hr1, Hr2 in Hs. specialize (Hs Hm Hloc).
  destruct (shr _ _ _) as [mrs' e']. destruct Hs as (Hloc' & Hm' & ->).
  set (l' := loc_of_shr_record mrs') in *. set (m' := shr_m mrs') in *.
  assert (Hkept : m' < 2 ^ prec ∧ (e + n = emin ∨ 2 ^ (prec - 1) ≤ m')).
  { destruct m as [|p|]; [| |lia].
    - rewrite Z.div_0_l in Hm' by (apply Z.pow_nonzero; lia).
      split; [rewrite Hm'; apply Z.pow_pos_nonneg; lia|]. left.
      unfold n, SpecFloat.fexp in *. simpl in *. lia.
    - pose proof (fexp_kept p e He) as [K1 K2]. fold n in K1, K2. rewrite Hm'.
      split; [done|]. destruct K2 as [|K2]; [by left|right].
      apply Z.div_le_lower_bound; [apply Z.pow_pos_nonneg; lia|]. change (2 ^ n) with (2 ^ (fexp (Z.pos (digits2_pos p) + e) - e)). lia. }
  destruct Hkept as [K1 K2].
  destruct (round_nearest_even_spec _ _ _ Hloc') as (R1 & R2 & R3).
  set (N := round_nearest_even m' l') in *.
  assert (0 ≤ m') by (rewrite Hm'; apply Z.div_pos; [done|apply Z.pow_pos_nonneg; lia]).
  destruct (renormalise N (e + n)) as (M & E & HME & HfM & Hshr);
    [lia|unfold n; rewrite Z.add_comm, Z.sub_add; apply fexp_emin|lia|].
  destruct (shr_fexp prec emax N (e + n) loc_Exact) as [mrs'' e''].
  destruct Hshr as (-> & HE). exists M, E. split; [done|]. split.
  - assert (Hx : (x * bpow (- e) * bpow (- n) * bpow (e + n) == x)%Q).
    { rewrite <-!Qmult_assoc, <-!bpow_add. replace (- e + (- n + (e + n))) with 0 by lia.
      change (bpow 0) with 1%Q. ring. }
    assert (Hn : nearest (fl N (e + n)) x).
    { pose proof (bpow_pos (e + n)) as Hpos. apply grid_nearest.
      - rewrite <-Hx. unfold fl. apply (Qmult_le_compat_r _ _ (bpow (e + n))) in R1; [|lra]. lra.
      - rewrite <-Hx. unfold fl. apply (Qmult_le_compat_r _ _ (bpow (e + n))) in R2; lra.
      - destruct K2 as [|K2]; [by left|right]. rewrite <-Hx. unfold fl.
        apply Qmult_le_compat_r; [|lra]. apply located_bounds in Hloc' as [Hlo _].
        eapply Qle_trans; [|exact Hlo]. by rewrite <-Zle_Qle. }
    intros mb eb sb Hb. specialize (Hn mb eb sb Hb). cbv zeta in *. rewrite HfM. exact Hn.
  - unfold pack. destruct M as [|p|]; [done| |by apply rep_nonneg in HME].
    destruct HE as [HE|HE]; by rewrite ?HE.
Qed.
End rounding.
