(* ===== verification/Float.v ===== *)
(** The Rust floating-point types: their operations, comparisons and
    conversions on [SpecFloat] values, with what each operation computes in
    terms of exact rational values.  [f64] and [f32] are two instances of one
    format class. *)

From Stdlib Require Import ZArith QArith Qpower Qround Lqa Lia SpecFloat.
From stdpp Require Import base tactics numbers.
From S2P Require Import Prelude Rounding.

Open Scope Z_scope.

#[local] Ltac Zify.zify_post_hook ::= idtac.

Definition F64 : Format.
Proof. by refine {| prec := 53; emax := 1024 |}. Defined.

Definition F32 : Format.
Proof. by refine {| prec := 24; emax := 128 |}. Defined.

Definition float : Type := spec_float.
Definition f64 : Type := float.
Definition f32 : Type := float.

(** ** Values and classes *)

(** The exact value of a finite float. *)
Definition fval (x : float) : Q :=
  match x with
  | S754_finite s m e => fl (cond_Zopp s (Zpos m)) e
  | _ => 0
  end.

Definition is_nan (x : float) : bool := match x with S754_nan => true | _ => false end.

Definition is_infinite (x : float) : bool :=
  match x with S754_infinity _ => true | _ => false end.

Definition is_finite (x : float) : bool := negb (is_nan x) && negb (is_infinite x).

(** The sign bit; that of a NaN is not modelled and is never inspected. *)
Definition sign_bit (x : float) : bool :=
  match x with
  | S754_zero s | S754_infinity s | S754_finite s _ _ => s
  | S754_nan => false
  end.

Definition is_sign_positive (x : float) : bool := negb (sign_bit x).

(** ** Comparisons *)

(** [PartialOrd]: no order with a NaN, and the two zeros are equal. *)
Definition fcmp (x y : float) : option comparison :=
  match x, y with
  | S754_nan, _ | _, S754_nan => None
  | S754_infinity s, S754_infinity s' =>
      Some (if s then if s' then Eq else Lt else if s' then Gt else Eq)
  | S754_infinity s, _ => Some (if s then Lt else Gt)
  | _, S754_infinity s => Some (if s then Gt else Lt)
  | _, _ => Some (fval x ?= fval y)%Q
  end.

Definition flt (x y : float) : bool := match fcmp x y with Some Lt => true | _ => false end.
Definition fle (x y : float) : bool := match fcmp x y with Some (Lt | Eq) => true | _ => false end.
Definition feq (x y : float) : bool := match fcmp x y with Some Eq => true | _ => false end.

(** [f64::total_cmp] between values that are not NaN: by value, then the
    negative zero first. *)
Definition total_cmp (x y : float) : comparison :=
  then_cmp (default Eq (fcmp x y))
    (match sign_bit x, sign_bit y with true, false => Lt | false, true => Gt | _, _ => Eq end).

(** [f64::max] and [f64::min]: the other operand when one is NaN.  Which of two
    equal operands is returned (zeros of both signs) is left open by Rust; the
    model keeps the receiver. *)
Definition fmax (x y : float) : float :=
  if is_nan x then y else if flt x y then y else x.
Definition fmin (x y : float) : float :=
  if is_nan x then y else if flt y x then y else x.

(** [f64::clamp]; the callers supply ordered bounds, for which it does not panic. *)
Definition fclamp (x lo hi : float) : float :=
  let x := if flt x lo then lo else x in
  if flt hi x then hi else x.

(** ** Arithmetic *)

Section arithmetic.
Context {F : Format}.

Definition fadd : float → float → float := SFadd prec emax.
Definition fsub : float → float → float := SFsub prec emax.
Definition fmul : float → float → float := SFmul prec emax.
Definition fdiv : float → float → float := SFdiv prec emax.
Definition fsqrt : float → float := SFsqrt prec emax.
Definition fneg : float → float := SFopp.
Definition fabs : float → float := SFabs.

(** An integer [as f64]. *)
Definition of_Z (n : Z) : float := binary_normalize prec emax n 0 false.

(** A float of another format [as] this one. *)
Definition fcast (x : float) : float :=
  match x with
  | S754_finite s m e => binary_round prec emax s m e
  | _ => x
  end.
End arithmetic.

(** The integer nearest to a rational, halves away from zero. *)
Definition Qround_away (q : Q) : Z :=
  if Qle_bool 0 q then Qfloor (q + (1 # 2)) else - Qfloor (- q + (1 # 2)).

(** [f64::round] *)
Definition fround `{Format} (x : float) : float :=
  match x with
  | S754_finite s _ _ =>
      match Qround_away (fval x) with
      | 0 => S754_zero s
      | n => of_Z n
      end
  | _ => x
  end.

Definition Qtrunc (q : Q) : Z := Z.quot (Qnum q) (Zpos (Qden q)).

Definition clampZ (lo hi n : Z) : Z := Z.max lo (Z.min hi n).

(** A float [as] an integer type of the given bounds: saturating, NaN to zero. *)
Definition to_Z (lo hi : Z) (x : float) : Z :=
  match x with
  | S754_nan => 0
  | S754_infinity s => if s then lo else hi
  | S754_zero _ => 0
  | S754_finite _ _ _ => clampZ lo hi (Qtrunc (fval x))
  end.

(** The members of a format. *)
Definition valid `{Format} (x : float) : Prop := valid_binary prec emax x = true.

#[export] Instance valid_dec `{Format} x : Decision (valid x).
Proof. unfold valid. solve_decision. Defined.

(** Proofs reason about the operations through their rounding lemmas. *)
#[global] Arguments fadd {_} _ _ : simpl never.
#[global] Arguments fsub {_} _ _ : simpl never.
#[global] Arguments fmul {_} _ _ : simpl never.
#[global] Arguments fdiv {_} _ _ : simpl never.
#[global] Arguments of_Z {_} _ : simpl never.
#[global] Arguments fle _ _ : simpl never.
#[global] Arguments flt _ _ : simpl never.
#[global] Arguments feq _ _ : simpl never.
#[global] Arguments fclamp _ _ _ : simpl never.
#[global] Arguments fround {_} _ : simpl never.

(** What the float operations compute: every operation returns the rounding to
    nearest of the exact result, from which monotonicity, exactness and bounds
    follow. *)

Open Scope Z_scope.

(** ** Comparing finite values *)

Lemma is_finite_cases x :
  is_finite x = true ↔ (∃ s, x = S754_zero s) ∨ (∃ s m e, x = S754_finite s m e).
Proof. destruct x; split; naive_solver. Qed.

Lemma fcmp_finite x y :
  is_finite x = true → is_finite y = true → fcmp x y = Some (fval x ?= fval y)%Q.
Proof. by destruct x, y. Qed.

Lemma fle_val x y :
  is_finite x = true → is_finite y = true → fle x y = true ↔ (fval x <= fval y)%Q.
Proof.
  intros Hx Hy. unfold fle. rewrite fcmp_finite, Qle_alt by done.
  by destruct (fval x ?= fval y)%Q.
Qed.

Lemma flt_val x y :
  is_finite x = true → is_finite y = true → flt x y = true ↔ (fval x < fval y)%Q.
Proof.
  intros Hx Hy. unfold flt. rewrite fcmp_finite, Qlt_alt by done.
  by destruct (fval x ?= fval y)%Q.
Qed.

Lemma feq_val x y :
  is_finite x = true → is_finite y = true → feq x y = true ↔ (fval x == fval y)%Q.
Proof.
  intros Hx Hy. unfold feq. rewrite fcmp_finite, Qeq_alt by done.
  by destruct (fval x ?= fval y)%Q.
Qed.

Lemma fle_refl x : is_nan x = false → fle x x = true.
Proof.
  destruct x as [|[]| |s m e]; [done..|]. intros _. apply fle_val; [done..|apply Qle_refl].
Qed.

Lemma fle_trans x y z : fle x y = true → fle y z = true → fle x z = true.
Proof.
  destruct (is_finite x) eqn:Hx, (is_finite y) eqn:Hy, (is_finite z) eqn:Hz;
    try (rewrite !fle_val by done; apply Qle_trans);
    destruct x as [|[]| |], y as [|[]| |], z as [|[]| |]; done.
Qed.

Lemma flt_fle x y : flt x y = true → fle x y = true.
Proof. unfold flt, fle. by destruct (fcmp x y) as [[]|]. Qed.

Lemma fle_not_nan x y : fle x y = true → is_nan x = false ∧ is_nan y = false.
Proof. by destruct x as [|[]| |], y as [|[]| |]. Qed.

Lemma fle_total x y : is_nan x = false → is_nan y = false → flt x y = false → fle y x = true.
Proof.
  destruct (is_finite x) eqn:Hx, (is_finite y) eqn:Hy;
    try (intros _ _; rewrite fle_val by done; intros Hlt; apply Qnot_lt_le;
         rewrite <-flt_val by done; congruence);
    destruct x as [|[]| |], y as [|[]| |]; done.
Qed.

Lemma fclamp_bounds x lo hi :
  is_nan x = false → fle lo hi = true →
  fle lo (fclamp x lo hi) = true ∧ fle (fclamp x lo hi) hi = true.
Proof.
  intros Hx Hb. destruct (fle_not_nan _ _ Hb) as [Hl Hh]. unfold fclamp.
  destruct (flt x lo) eqn:E1.
  - destruct (flt hi lo) eqn:E2; split; eauto using fle_refl.
  - destruct (flt hi x) eqn:E2; [split; eauto using fle_refl|].
    split; eauto using fle_total.
Qed.

Lemma fle_not_flt a b : fle a b = true → flt b a = false.
Proof.
  intros Hab. destruct (flt b a) eqn:E; [|done]. exfalso.
  destruct (is_finite a) eqn:Ha, (is_finite b) eqn:Hb;
    [|by destruct a as [|[]| |], b as [|[]| |]..].
  rewrite fle_val in Hab by done. rewrite flt_val in E by done. lra.
Qed.

Lemma fclamp_id x lo hi : fle lo x = true → fle x hi = true → fclamp x lo hi = x.
Proof.
  intros H1 H2. unfold fclamp.
  by rewrite (fle_not_flt lo x), (fle_not_flt x hi).
Qed.

(** ** Rounding of signed values *)

Section facts.
Context {F : Format}.

Notation fexp := (SpecFloat.fexp prec emax).
Notation emin := (SpecFloat.emin prec emax).

(** [r] is the rounding of the exact value [x]. *)
Definition rnd (x : Q) (r : float) : Prop :=
  ∃ s M E, rep M E ∧ nearest (fl (cond_Zopp s M) E) x ∧ r = pack s M E.

Lemma emin_neg : emin < 0.
Proof. pose proof prec_bound. pose proof emax_bound. unfold SpecFloat.emin. lia. Qed.

Lemma nearest_opp r x : nearest r x → nearest (- r) (- x).
Proof.
  intros Hn m e s Hrep. specialize (Hn m e (negb s) Hrep). cbv zeta in *.
  assert (E : (fl (cond_Zopp (negb s) m) e == - fl (cond_Zopp s m) e)%Q).
  { destruct s; simpl; rewrite fl_opp; [ring|done]. }
  rewrite E in Hn. destruct Hn as [H1 H2]. split; intros Hlt; [clear H1|clear H2]; lra.
Qed.

Lemma nearest_Proper r r' x x' : (r == r')%Q → (x == x')%Q → nearest r x → nearest r' x'.
Proof.
  intros Er Ex Hn m e s Hrep. specialize (Hn m e s Hrep). cbv zeta in *. rewrite <-Er, <-Ex.
  exact Hn.
Qed.

Lemma rnd_Proper x x' r : (x == x')%Q → rnd x r → rnd x' r.
Proof.
  intros Ex (s & M & E & H1 & H2 & H3). exists s, M, E. split_and!; [done| |done].
  by eapply nearest_Proper.
Qed.

(** The rounding of a magnitude, with its sign. *)
Lemma rnd_aux (s : bool) m e l x :
  0 ≤ m → located m l (x * bpow (- e)) → e ≤ fexp (Zdigits2 m + e) →
  rnd (if s then - x else x) (binary_round_aux prec emax s m e l).
Proof.
  intros Hm Hl He. destruct (binary_round_aux_spec s m e l x Hm Hl He) as (M & E & H1 & H2 & H3).
  exists s, M, E. split_and!; [done| |done]. destruct s; [|done]. simpl.
  eapply nearest_Proper; [symmetry; apply fl_opp|done|]. by apply nearest_opp.
Qed.

(** Values of a packed float. *)
Lemma pack_finite s M E :
  rep M E → is_finite (pack s M E) = true → (fval (pack s M E) == fl (cond_Zopp s M) E)%Q.
Proof.
  intros Hrep. unfold pack. destruct M as [|p|]; [| |by apply rep_nonneg in Hrep].
  - intros _. destruct s; simpl; by rewrite fl_0.
  - by destruct (E <=? emax - prec).
Qed.

Lemma pack_infinite s M E :
  rep M E → is_finite (pack s M E) = false →
  pack s M E = S754_infinity s ∧ (bpow emax <= fl M E)%Q.
Proof.
  pose proof prec_bound. pose proof emax_bound. intros Hrep. unfold pack.
  destruct M as [|p|]; [done| |by apply rep_nonneg in Hrep].
  destruct (Z.leb_spec E (emax - prec)) as [|Hgt]; [done|]. intros _. split; [done|].
  destruct Hrep as [|(p' & [= <-] & E')]; [done|].
  assert (prec ≤ Zpos (digits2_pos p)) as Hd.
  { unfold SpecFloat.fexp, SpecFloat.emin in E'. lia. }
  pose proof (digits_bounds p) as [D _].
  eapply Qle_trans; [|apply fl_le, D]. unfold fl. rewrite <-bpow_inject by lia.
  rewrite <-bpow_add. apply bpow_le. lia.
Qed.

Lemma pack_not_nan s M E : rep M E → is_nan (pack s M E) = false.
Proof.
  intros Hrep. unfold pack. destruct M; [done|by destruct (_ <=? _)|by apply rep_nonneg in Hrep].
Qed.

Lemma pack_valid s M E : rep M E → valid (pack s M E).
Proof.
  intros Hrep. unfold pack, valid. destruct M as [|p|]; [done| |by apply rep_nonneg in Hrep].
  destruct (Z.leb_spec E (emax - prec)); [|done]. simpl. unfold bounded, canonical_mantissa.
  destruct Hrep as [|(p' & [= <-] & E')]; [done|]. rewrite E', Z.eqb_refl. simpl.
  by apply Z.leb_le.
Qed.

Lemma valid_rep s m e : valid (S754_finite s m e) → rep (Zpos m) e ∧ e ≤ emax - prec.
Proof.
  unfold valid. simpl. unfold bounded, canonical_mantissa. rewrite andb_true_iff.
  intros [H1%Z.eqb_eq H2%Z.leb_le]. split; [right; eauto|done].
Qed.

Lemma finite_bound M E : rep M E → is_finite (pack false M E) = true → (fl M E < bpow emax)%Q.
Proof.
  pose proof prec_bound. pose proof emax_bound. intros Hrep Hf.
  assert (M = 0 ∨ E ≤ emax - prec) as [->|HE].
  { unfold pack in Hf. destruct M as [|p|]; [by left| |by apply rep_nonneg in Hrep].
    destruct (Z.leb_spec E (emax - prec)); [by right|done]. }
  - rewrite fl_0. apply bpow_pos.
  - eapply Qlt_le_trans; [by apply (fl_lt _ (2 ^ prec)), rep_lt in Hrep || (apply fl_lt; by eapply rep_lt)|].
    unfold fl. rewrite <-bpow_inject by lia. rewrite <-bpow_add. apply bpow_le. lia.
Qed.

Lemma pack_sign_finite s M E : is_finite (pack s M E) = is_finite (pack false M E).
Proof. unfold pack. destruct M; [done|by destruct (_ <=? _)|done]. Qed.

Lemma pack_fle s M E s' M' E' :
  rep M E → rep M' E' → (fl (cond_Zopp s M) E <= fl (cond_Zopp s' M') E')%Q →
  fle (pack s M E) (pack s' M' E') = true.
Proof.
  intros H1 H2 Hle. pose proof (fl_nonneg M E (rep_nonneg _ _ H1)) as P1.
  pose proof (fl_nonneg M' E' (rep_nonneg _ _ H2)) as P2. pose proof (bpow_pos emax) as Pm.
  destruct (is_finite (pack s M E)) eqn:F1, (is_finite (pack s' M' E')) eqn:F2.
  - rewrite fle_val, !pack_finite by done. exact Hle.
  - destruct (pack_infinite _ _ _ H2 F2) as [E2 B2]. rewrite E2. destruct s'; simpl in Hle.
    + exfalso. rewrite fl_opp in Hle. rewrite pack_sign_finite in F1.
      pose proof (finite_bound _ _ H1 F1). destruct s; simpl in Hle; rewrite ?fl_opp in Hle; lra.
    + by destruct (pack s M E) as [|[]| |].
  - destruct (pack_infinite _ _ _ H1 F1) as [E1 B1]. rewrite E1. destruct s; simpl in Hle.
    + by destruct (pack s' M' E') as [|[]| |].
    + exfalso. rewrite pack_sign_finite in F2. pose proof (finite_bound _ _ H2 F2).
      destruct s'; simpl in Hle; rewrite ?fl_opp in Hle; lra.
  - destruct (pack_infinite _ _ _ H1 F1) as [E1 B1]. destruct (pack_infinite _ _ _ H2 F2) as [E2 B2].
    rewrite E1, E2. destruct s, s'; simpl in Hle; rewrite ?fl_opp in Hle; try done. exfalso. lra.
Qed.

(** ** What a rounding satisfies *)

Lemma rnd_valid x r : rnd x r → valid r ∧ is_nan r = false.
Proof. intros (s & M & E & H1 & _ & ->). split; [by apply pack_valid|by apply pack_not_nan]. Qed.

Lemma rnd_mono x y r r' : (x < y)%Q → rnd x r → rnd y r' → fle r r' = true.
Proof.
  intros Hxy (s & M & E & H1 & N1 & ->) (s' & M' & E' & H2 & N2 & ->).
  apply pack_fle; [done..|]. apply Qnot_lt_le. intros Hlt.
  destruct (N1 M' E' s' H2) as [L1 _]. destruct (N2 M E s H1) as [_ L2].
  specialize (L1 Hlt). specialize (L2 Hlt). lra.
Qed.

(** A rounding does not cross a float. *)
Lemma rnd_le_rep x r s M E :
  rnd x r → rep M E → (x <= fl (cond_Zopp s M) E)%Q → fle r (pack s M E) = true.
Proof.
  intros (s' & M' & E' & H1 & N1 & ->) Hrep Hx. apply pack_fle; [done..|].
  apply Qnot_lt_le. intros Hlt. destruct (N1 M E s Hrep) as [L _]. specialize (L Hlt). lra.
Qed.

Lemma rnd_ge_rep x r s M E :
  rnd x r → rep M E → (fl (cond_Zopp s M) E <= x)%Q → fle (pack s M E) r = true.
Proof.
  intros (s' & M' & E' & H1 & N1 & ->) Hrep Hx. apply pack_fle; [done..|].
  apply Qnot_lt_le. intros Hlt. destruct (N1 M E s Hrep) as [_ L]. specialize (L Hlt). lra.
Qed.

(** A finite member is the packing of its parts. *)
Lemma finite_pack b :
  valid b → is_finite b = true →
  ∃ s M E, rep M E ∧ b = pack s M E ∧ (fval b == fl (cond_Zopp s M) E)%Q.
Proof.
  intros Hv Hf. apply is_finite_cases in Hf as [[s ->]|(s & m & e & ->)].
  - exists s, 0, 0. split; [by left|]. split; [done|]. simpl. destruct s; simpl; by rewrite fl_0.
  - apply valid_rep in Hv as [Hrep He]. exists s, (Zpos m), e. split; [done|].
    split; [|done]. simpl. by rewrite (proj2 (Z.leb_le _ _) He).
Qed.

Lemma rnd_le x r b :
  rnd x r → valid b → is_finite b = true → (x <= fval b)%Q → fle r b = true.
Proof.
  intros Hr Hv Hf Hx. destruct (finite_pack b Hv Hf) as (s & M & E & Hrep & Eb & Ev).
  rewrite Eb. eapply rnd_le_rep; [done..|]. by rewrite <-Ev.
Qed.

Lemma rnd_ge x r b :
  rnd x r → valid b → is_finite b = true → (fval b <= x)%Q → fle b r = true.
Proof.
  intros Hr Hv Hf Hx. destruct (finite_pack b Hv Hf) as (s & M & E & Hrep & Eb & Ev).
  rewrite Eb. eapply rnd_ge_rep; [done..|]. by rewrite <-Ev.
Qed.

Lemma rnd_finite x r b b' :
  rnd x r → valid b → is_finite b = true → valid b' → is_finite b' = true →
  (fval b <= x)%Q → (x <= fval b')%Q →
  is_finite r = true ∧ (fval b <= fval r)%Q ∧ (fval r <= fval b')%Q.
Proof.
  intros Hr Hv Hf Hv' Hf' H1 H2.
  pose proof (rnd_ge _ _ _ Hr Hv Hf H1) as G1. pose proof (rnd_le _ _ _ Hr Hv' Hf' H2) as G2.
  assert (is_finite r = true) as Hfr.
  { by destruct b as [|[]| |], b' as [|[]| |], r as [|[]| |]. }
  split; [done|]. rewrite fle_val in G1, G2 by done. done.
Qed.

(** The rounding of a representable value is exact. *)
Lemma rnd_exact x r s M E :
  rnd x r → rep M E → (x == fl (cond_Zopp s M) E)%Q →
  (is_finite r = true ∧ (fval r == x)%Q) ∨
  ((0 < x)%Q ∧ r = S754_infinity false ∧ (bpow emax <= x)%Q) ∨
  ((x < 0)%Q ∧ r = S754_infinity true ∧ (x <= - bpow emax)%Q).
Proof.
  intros (s' & M' & E' & H1 & N1 & ->) Hrep Hx.
  assert (Eq : (fl (cond_Zopp s' M') E' == x)%Q).
  { destruct (N1 M E s Hrep) as [L1 L2]. rewrite <-Hx in L1, L2.
    destruct (Q_dec x (fl (cond_Zopp s' M') E')) as [[Hlt|Hlt]|He].
    - specialize (L1 Hlt). lra.
    - specialize (L2 Hlt). lra.
    - by symmetry. }
  destruct (is_finite (pack s' M' E')) eqn:Hf.
  - left. split; [done|]. by rewrite pack_finite.
  - right. destruct (pack_infinite _ _ _ H1 Hf) as [-> Hb]. pose proof (bpow_pos emax).
    destruct s'; simpl in Eq; rewrite ?fl_opp in Eq; [right|left]; split_and!; try done; lra.
Qed.

(** ** The operations *)

(** Every integer of at most [prec] digits, scaled up, is a float value. *)
Lemma rep_scale s p e :
  Zpos (digits2_pos p) ≤ prec → emin ≤ e →
  ∃ M E, rep M E ∧ (fl (cond_Zopp s M) E == fl (cond_Zopp s (Zpos p)) e)%Q.
Proof.
  intros Hd He. set (E := fexp (Zpos (digits2_pos p) + e)).
  assert (HE : E ≤ e) by (unfold E, SpecFloat.fexp; lia).
  pose proof (Z.pow_pos_nonneg 2 (e - E) ltac:(lia) ltac:(lia)) as Hpow.
  destruct (Zpos p * 2 ^ (e - E)) as [|q|] eqn:Eq; [lia| |lia].
  assert (Hdq : Zpos (digits2_pos q) = Zpos (digits2_pos p) + (e - E)).
  { pose proof (digits_bounds p) as [D1 D2]. apply digits_unique; [|lia]. rewrite <-Eq.
    replace (Zpos (digits2_pos p) + (e - E) - 1) with (Zpos (digits2_pos p) - 1 + (e - E)) by lia.
    rewrite !Z.pow_add_r by lia. split; [apply Z.mul_le_mono_nonneg_r|apply Z.mul_lt_mono_pos_r]; lia. }
  exists (Zpos q), E. split.
  - right. exists q. split; [done|]. rewrite Hdq.
    replace (Zpos (digits2_pos p) + (e - E) + E) with (Zpos (digits2_pos p) + e) by lia. done.
  - rewrite <-Eq. assert (fl (Zpos p) e == fl (Zpos p * 2 ^ (e - E)) E)%Q as Es.
    { rewrite fl_shift by lia. by replace (E + (e - E)) with e by lia. }
    destruct s; simpl; [|by symmetry]. by rewrite !fl_opp, Es.
Qed.

Lemma rnd_zero s : rnd 0 (S754_zero s).
Proof.
  exists s, 0, 0. split_and!; [by left| |done]. intros m e s' Hrep. cbv zeta.
  assert (E : (fl (cond_Zopp s 0) 0 == 0)%Q) by (destruct s; apply fl_0).
  rewrite E. split; lra.
Qed.

Lemma rnd_self x : valid x → is_finite x = true → rnd (fval x) x.
Proof.
  intros Hv Hf. destruct (finite_pack x Hv Hf) as (s & M & E & Hrep & Ex & Ev).
  exists s, M, E. split_and!; [done| |done]. intros m e s' _. cbv zeta. rewrite Ev.
  split; lra.
Qed.

Lemma fl_cancel m e : (fl m e * bpow (- e) == inject_Z m)%Q.
Proof.
  unfold fl. rewrite <-Qmult_assoc, <-bpow_add, Z.add_opp_diag_r. change (bpow 0) with 1%Q. ring.
Qed.

Lemma fl_mul m e m' e' : (fl m e * fl m' e' == fl (m * m') (e + e'))%Q.
Proof. unfold fl. rewrite inject_Z_mult, bpow_add. ring. Qed.

(** An exact magnitude whose exponent is at most the canonical one. *)
Lemma rnd_aux_exact (s : bool) p e :
  e ≤ fexp (Zpos (digits2_pos p) + e) →
  rnd (fl (cond_Zopp s (Zpos p)) e) (binary_round_aux prec emax s (Zpos p) e loc_Exact).
Proof.
  intros He. pose proof (rnd_aux s (Zpos p) e loc_Exact (fl (Zpos p) e) ltac:(lia)
    (fl_cancel _ _) He) as Hr.
  eapply rnd_Proper; [|exact Hr]. destruct s; simpl; [|done]. symmetry. apply fl_opp.
Qed.

Lemma shl_align_spec p e e' :
  e' ≤ e → Zpos (fst (shl_align p e e')) = Zpos p * 2 ^ (e - e') ∧ snd (shl_align p e e') = e'.
Proof.
  intros He. unfold shl_align. destruct (e' - e) as [|d|d] eqn:E; [|lia|].
  - simpl. replace (e - e') with 0 by lia. rewrite Z.pow_0_r. lia.
  - simpl. split; [|done]. replace (e - e') with (Zpos d) by lia. clear.
    induction d as [|d IH] using Pos.peano_ind.
    + change (Pos.iter xO p 1) with (xO p). rewrite Pos2Z.inj_xO, Z.pow_1_r. lia.
    + rewrite Pos.iter_succ, Pos2Z.inj_xO, Pos2Z.inj_succ, IH, Z.pow_succ_r by lia. ring.
Qed.

Lemma binary_round_rnd s p e :
  rnd (fl (cond_Zopp s (Zpos p)) e) (binary_round prec emax s p e).
Proof.
  unfold binary_round. set (e' := fexp (Zpos (digits2_pos p) + e)).
  destruct (Z.le_gt_cases e' e) as [Hle|Hgt].
  - destruct (shl_align_spec p e e' Hle) as [H1 H2].
    destruct (shl_align p e e') as [q f]. simpl in H1, H2. subst f.
    assert (Hd : Zpos (digits2_pos q) = Zpos (digits2_pos p) + (e - e')).
    { pose proof (digits_bounds p) as [D1 D2].
      pose proof (Z.pow_pos_nonneg 2 (e - e') ltac:(lia) ltac:(lia)).
      apply digits_unique; [|lia]. rewrite H1.
      replace (Zpos (digits2_pos p) + (e - e') - 1) with (Zpos (digits2_pos p) - 1 + (e - e')) by lia.
      rewrite !Z.pow_add_r by lia. split; [apply Z.mul_le_mono_nonneg_r|apply Z.mul_lt_mono_pos_r]; lia. }
    eapply rnd_Proper; [|apply rnd_aux_exact].
    + assert (fl (Zpos p) e == fl (Zpos q) e')%Q as Es by (rewrite H1; by apply fl_grid).
      destruct s; simpl; [|by symmetry]. by rewrite !fl_opp, Es.
    + rewrite Hd. replace (Zpos (digits2_pos p) + (e - e') + e') with (Zpos (digits2_pos p) + e) by lia.
      done.
  - unfold shl_align. destruct (e' - e) as [|d|d] eqn:E; [lia| |lia].
    apply rnd_aux_exact. fold e'. lia.
Qed.

Lemma binary_normalize_rnd m e s : rnd (fl m e) (binary_normalize prec emax m e s).
Proof.
  destruct m as [|p|p]; simpl.
  - eapply rnd_Proper; [symmetry; apply fl_0|apply rnd_zero].
  - apply (binary_round_rnd false).
  - apply (binary_round_rnd true).
Qed.

Lemma of_Z_rnd n : rnd (inject_Z n) (of_Z n).
Proof.
  eapply rnd_Proper; [|apply binary_normalize_rnd]. unfold fl. change (bpow 0) with 1%Q. ring.
Qed.

(** Scaled integers of at most [prec] bits are float values. *)
Lemma int_rep n k :
  Z.abs n ≤ 2 ^ prec → emin ≤ k →
  ∃ s M E, rep M E ∧ (inject_Z n * bpow k == fl (cond_Zopp s M) E)%Q.
Proof.
  pose proof prec_bound as Hp. intros Hn Hk.
  assert (Hs : ∀ (s : bool) p, Zpos p ≤ 2 ^ prec →
    ∃ s' M E, rep M E ∧ (inject_Z (cond_Zopp s (Zpos p)) * bpow k == fl (cond_Zopp s' M) E)%Q).
  { intros s p Hpp. destruct (Z.eq_dec (Zpos p) (2 ^ prec)) as [Eq|Hne].
    - assert (Hemin : emin ≤ prec + k) by lia.
      destruct (rep_scale s 1 (prec + k) ltac:(simpl; lia) Hemin)
        as (M & E & Hr & Es). exists s, M, E. split; [done|]. rewrite Es, Eq.
      destruct s; simpl; unfold fl; rewrite bpow_add, (bpow_inject prec) by lia;
        rewrite ?inject_Z_opp; ring.
    - assert (Zpos (digits2_pos p) ≤ prec) as Hd by (apply digits_le; lia).
      destruct (rep_scale s p k Hd Hk) as (M & E & Hr & Es). exists s, M, E. by split. }
  destruct n as [|p|p]; [|by apply (Hs false); lia|by apply (Hs true); lia].
  exists false, 0, 0. split; [by left|]. simpl. by rewrite fl_0.
Qed.

(** Integers of at most [prec] bits convert exactly. *)
Lemma of_Z_exact n :
  Z.abs n ≤ 2 ^ prec → is_finite (of_Z n) = true ∧ (fval (of_Z n) == inject_Z n)%Q.
Proof.
  pose proof prec_bound as Hp. pose proof emax_bound as He. intros Hn.
  assert (Hemin : emin ≤ 0) by (pose proof emin_neg; lia).
  destruct (int_rep n 0 Hn Hemin) as (s & M & E & Hrep & Hx).
  change (bpow 0) with 1%Q in Hx. rewrite Qmult_1_r in Hx.
  assert (Hlt : (inject_Z (Z.abs n) < bpow emax)%Q).
  { eapply Qle_lt_trans; [rewrite Zle_Qle in Hn; exact Hn|]. rewrite <-bpow_inject by lia.
    by apply bpow_lt. }
  destruct (rnd_exact _ _ _ _ _ (of_Z_rnd n) Hrep Hx) as [|[(_ & _ & Hb)|(_ & _ & Hb)]]; [done|..];
    exfalso.
  - assert (inject_Z n <= inject_Z (Z.abs n))%Q by (rewrite <-Zle_Qle; lia). lra.
  - assert (inject_Z (- n) <= inject_Z (Z.abs n))%Q as Hn' by (rewrite <-Zle_Qle; lia).
    rewrite inject_Z_opp in Hn'. lra.
Qed.

(** A float is determined by its nonzero value. *)
Lemma valid_unique x y :
  valid x → valid y → is_finite x = true → is_finite y = true →
  (fval x == fval y)%Q → ¬ (fval x == 0)%Q → x = y.
Proof.
  intros Vx Vy Fx Fy Hxy Hnz.
  destruct x as [sx| | |sx mx ex]; [by destruct Hnz|done|done|].
  destruct y as [sy| | |sy my ey]; [by rewrite Hxy in Hnz; destruct Hnz|done|done|].
  cbn [fval] in Hxy. pose proof (bpow_pos ex) as Px.
  assert (Hp : ∀ m e, (0 < fl (Zpos m) e)%Q).
  { intros m e. rewrite <-(fl_0 e). by apply fl_lt. }
  assert (sx = sy) as <-.
  { pose proof (Hp mx ex). pose proof (Hp my ey).
    destruct sx, sy; cbn [cond_Zopp] in Hxy; rewrite ?fl_opp in Hxy; try done; exfalso; lra. }
  assert (Hv : (fl (Zpos mx) ex == fl (Zpos my) ey)%Q).
  { destruct sx; cbn [cond_Zopp] in Hxy; [|done]. rewrite !fl_opp in Hxy. lra. }
  assert (Hmag : ∀ m e m' e', (fl (Zpos m) e == fl (Zpos m') e')%Q →
    Zpos (digits2_pos m) + e ≤ Zpos (digits2_pos m') + e').
  { intros m e m' e' E. apply Z.le_ngt. intros Hlt.
    assert (fl (Zpos m') e' < fl (Zpos m) e)%Q as Hl; [|lra].
    apply Qlt_le_trans with (bpow (Zpos (digits2_pos m') + e')).
    - pose proof (digits_bounds m') as [_ D]. rewrite bpow_add, bpow_inject by lia. by apply fl_lt.
    - apply Qle_trans with (bpow (Zpos (digits2_pos m) - 1 + e)); [apply bpow_le; lia|].
      pose proof (digits_bounds m) as [D _]. rewrite bpow_add, bpow_inject by lia. by apply fl_le. }
  assert (Zpos (digits2_pos mx) + ex = Zpos (digits2_pos my) + ey) as Hd.
  { pose proof (Hmag _ _ _ _ Hv). symmetry in Hv. pose proof (Hmag _ _ _ _ Hv). lia. }
  assert (He : ex = ey).
  { apply valid_rep in Vx as [[|(p & [= <-] & E1)] _]; [done|].
    apply valid_rep in Vy as [[|(p & [= <-] & E2)] _]; [done|]. rewrite <-E1, <-E2. by f_equal. }
  subst ey. assert (Zpos mx = Zpos my) as [= <-]; [|done].
  apply inject_Z_injective. apply Qmult_inj_r with (bpow ex); [lra|exact Hv].
Qed.

Lemma of_Z_valid n : valid (of_Z n).
Proof. apply (rnd_valid _ _ (of_Z_rnd n)). Qed.

Lemma fval_nonzero s m e : ¬ (fval (S754_finite s m e) == 0)%Q.
Proof.
  simpl. unfold fl. intros E%Qmult_integral. destruct E as [E|E].
  - by destruct s.
  - pose proof (bpow_pos e). lra.
Qed.

Lemma valid_fexp s m e : valid (S754_finite s m e) → fexp (Zpos (digits2_pos m) + e) = e.
Proof. intros [[|(p & [= <-] & E)] _]%valid_rep; done. Qed.

Lemma cond_Zopp_mul a b p q :
  cond_Zopp (xorb a b) (Zpos (p * q)) = cond_Zopp a (Zpos p) * cond_Zopp b (Zpos q).
Proof. destruct a, b; simpl; lia. Qed.

Lemma digits_mul_ge p q : Zpos (digits2_pos p) ≤ Zpos (digits2_pos (p * q)).
Proof.
  pose proof (digits_bounds p) as [D _].
  assert (Zpos (digits2_pos p) - 1 < Zpos (digits2_pos (p * q))); [|lia].
  apply digits_ge. eapply Z.le_trans; [exact D|]. rewrite Pos2Z.inj_mul. nia.
Qed.

Lemma fmul_rnd x y :
  valid x → valid y → is_finite x = true → is_finite y = true →
  rnd (fval x * fval y) (fmul x y).
Proof.
  intros Vx Vy Fx Fy. unfold fmul.
  destruct x as [sx| | |sx mx ex], y as [sy| | |sy my ey]; try done; simpl SFmul;
    try (eapply rnd_Proper; [|apply rnd_zero]; simpl; ring).
  pose proof (valid_fexp _ _ _ Vx) as Ex. pose proof (valid_fexp _ _ _ Vy) as Ey.
  eapply rnd_Proper; [|apply rnd_aux_exact].
  - simpl fval. by rewrite fl_mul, cond_Zopp_mul.
  - pose proof (digits_mul_ge mx my). pose proof (digits_mul_ge my mx) as Hd.
    rewrite Pos.mul_comm in Hd. pose proof emin_neg. unfold SpecFloat.fexp in *. lia.
Qed.

(** A float operand of an addition, aligned to a common exponent. *)
Lemma aligned s p e e' :
  e' ≤ e → (fl (cond_Zopp s (Zpos (fst (shl_align p e e')))) e' == fl (cond_Zopp s (Zpos p)) e)%Q.
Proof.
  intros He. destruct (shl_align_spec p e e' He) as [-> _].
  assert (fl (Zpos p * 2 ^ (e - e')) e' == fl (Zpos p) e)%Q as E by (symmetry; by apply fl_grid).
  destruct s; simpl; [|done]. by rewrite !fl_opp, E.
Qed.

Lemma fl_plus a b e : (fl (a + b) e == fl a e + fl b e)%Q.
Proof. unfold fl. rewrite inject_Z_plus. ring. Qed.

Lemma fl_minus a b e : (fl (a - b) e == fl a e - fl b e)%Q.
Proof. unfold Z.sub. rewrite fl_plus, fl_opp. ring. Qed.

Lemma fadd_rnd x y :
  valid x → valid y → is_finite x = true → is_finite y = true →
  rnd (fval x + fval y) (fadd x y).
Proof.
  intros Vx Vy Fx Fy. unfold fadd.
  destruct x as [sx| | |sx mx ex], y as [sy| | |sy my ey]; try done; simpl SFadd.
  - eapply rnd_Proper; [|destruct sx, sy; apply rnd_zero]. simpl. ring.
  - eapply rnd_Proper; [|by apply rnd_self]. simpl. ring.
  - eapply rnd_Proper; [|by apply rnd_self]. simpl. ring.
  - eapply rnd_Proper; [|apply binary_normalize_rnd].
    rewrite fl_plus, !aligned by lia. done.
Qed.

Lemma fneg_valid x : valid x → valid (fneg x).
Proof. by destruct x. Qed.

Lemma fval_fneg x : (fval (fneg x) == - fval x)%Q.
Proof. destruct x as [| | |[] m e]; simpl; try done; rewrite <-fl_opp; done. Qed.

Lemma fsub_rnd x y :
  valid x → valid y → is_finite x = true → is_finite y = true →
  rnd (fval x - fval y) (fsub x y).
Proof.
  intros Vx Vy Fx Fy. unfold fsub.
  destruct x as [sx| | |sx mx ex], y as [sy| | |sy my ey]; try done; simpl SFsub.
  - eapply rnd_Proper; [|destruct sx, sy; apply rnd_zero]. simpl. ring.
  - eapply rnd_Proper; [|apply (rnd_self (fneg (S754_finite sy my ey))); [by apply fneg_valid|done]].
    rewrite fval_fneg. simpl. ring.
  - eapply rnd_Proper; [|by apply rnd_self]. simpl. ring.
  - eapply rnd_Proper; [|apply binary_normalize_rnd].
    rewrite fl_minus, !aligned by lia. done.
Qed.

(** The location of a quotient by its remainder. *)
Lemma new_location_spec d q r :
  0 < d → 0 ≤ r < d → located q (new_location d r) (inject_Z (d * q + r) / inject_Z d).
Proof.
  intros Hd Hr. assert (Hpos : (0 < inject_Z d)%Q) by (change 0%Q with (inject_Z 0); by rewrite <-Zlt_Qlt).
  assert (Hy : (inject_Z (d * q + r) / inject_Z d == inject_Z q + inject_Z r / inject_Z d)%Q).
  { rewrite inject_Z_plus, inject_Z_mult. field. lra. }
  set (t := (inject_Z r / inject_Z d)%Q) in *.
  assert (Ht : (t * inject_Z d == inject_Z r)%Q) by (unfold t; field; lra).
  assert (Hlt : ∀ a b : Z, a * r < b * d → (inject_Z a * t < inject_Z b)%Q).
  { intros a b Hab. apply Qmult_lt_r with (inject_Z d); [done|]. rewrite <-Qmult_assoc, Ht.
    rewrite <-!inject_Z_mult, <-Zlt_Qlt. done. }
  assert (Hgt : ∀ a b : Z, b * d < a * r → (inject_Z b < inject_Z a * t)%Q).
  { intros a b Hab. apply Qmult_lt_r with (inject_Z d); [done|]. rewrite <-Qmult_assoc, Ht.
    rewrite <-!inject_Z_mult, <-Zlt_Qlt. done. }
  pose proof (Hlt 1 1 ltac:(lia)) as H1. change (inject_Z 1) with 1%Q in H1.
  assert (Hup : r = 0 → (t == 0)%Q) by (intros ->; unfold t; change (inject_Z 0) with 0%Q; field; lra).
  assert (Hlo : r ≠ 0 → (0 < t)%Q).
  { intros Hne. pose proof (Hgt 1 0 ltac:(lia)) as Hg. change (inject_Z 1) with 1%Q in Hg.
    change (inject_Z 0) with 0%Q in Hg. lra. }
  assert (Heven : ∀ l, match l with
    | loc_Exact => r = 0
    | loc_Inexact Lt => r ≠ 0 ∧ 2 * r < d
    | loc_Inexact Eq => 2 * r = d
    | loc_Inexact Gt => d < 2 * r end → located q l (inject_Z (d * q + r) / inject_Z d)).
  { intros l Hl. eapply located_Proper; [symmetry; exact Hy|]. unfold located.
    destruct l as [|[]].
    - rewrite (Hup Hl). ring.
    - assert (t == 1 # 2)%Q as ->; [|done].
      apply Qmult_inj_r with (inject_Z d); [lra|]. rewrite Ht, <-Hl, inject_Z_mult.
      change (inject_Z 2) with 2%Q. ring.
    - destruct Hl as [Hne Hl]. specialize (Hlo Hne). pose proof (Hlt 2 1 ltac:(lia)) as H2.
      change (inject_Z 2) with 2%Q in H2. change (inject_Z 1) with 1%Q in H2. split; lra.
    - pose proof (Hgt 2 1 ltac:(lia)) as H2.
      change (inject_Z 2) with 2%Q in H2. change (inject_Z 1) with 1%Q in H2. split; lra. }
  apply Heven. unfold new_location, new_location_even, new_location_odd.
  destruct (Z.even d) eqn:Ev; destruct (Z.eqb_spec r 0); try done.
  - destruct (Z.compare_spec (2 * r) d); lia.
  - assert (2 * r ≠ d).
    { intros <-. rewrite Z.even_mul in Ev. done. }
    destruct (Z.compare_spec (2 * r + 1) d); lia.
Qed.

Lemma digits_quotient a b q r s :
  0 ≤ s → Zpos a * 2 ^ s = Zpos b * q + r → 0 ≤ r < Zpos b →
  Zpos (digits2_pos a) + s - Zpos (digits2_pos b) ≤ Zdigits2 q ∧ 0 ≤ q.
Proof.
  intros Hs Heq Hr. pose proof (Z.pow_pos_nonneg 2 s ltac:(lia) Hs) as Hpow.
  assert (0 ≤ q) as Hq by nia. split; [|done].
  pose proof (digits_bounds a) as [A1 _]. pose proof (digits_bounds b) as [_ B2].
  set (da := Zpos (digits2_pos a)) in *. set (db := Zpos (digits2_pos b)) in *.
  destruct (Z.le_gt_cases (da + s - db) 0) as [Hle|Hgt].
  { destruct q as [|p|]; simpl; [done|lia|lia]. }
  assert (H1 : 2 ^ (da + s - db - 1) < q + 1).
  { apply Z.mul_lt_mono_pos_l with (2 ^ db); [apply Z.pow_pos_nonneg; lia|].
    rewrite <-Z.pow_add_r by lia. replace (db + (da + s - db - 1)) with (da - 1 + s) by lia.
    rewrite Z.pow_add_r by lia. eapply Z.le_lt_trans;
      [apply Z.mul_le_mono_nonneg_r; [lia|exact A1]|]. rewrite Heq. nia. }
  destruct q as [|p|]; simpl; [|pose proof (digits_ge p (da + s - db - 1)); lia|lia].
  pose proof (Z.pow_pos_nonneg 2 (da + s - db - 1) ltac:(lia) ltac:(lia)). lia.
Qed.

Lemma fexp_mono a b : a ≤ b → fexp a ≤ fexp b.
Proof. unfold SpecFloat.fexp. lia. Qed.

Lemma fdiv_rnd x y :
  valid x → valid y → is_finite x = true → is_finite y = true → ¬ (fval y == 0)%Q →
  rnd (fval x / fval y) (fdiv x y).
Proof.
  intros Vx Vy Fx Fy Hy. unfold fdiv.
  destruct y as [sy| | |sy my ey]; [by destruct Hy|done|done|].
  destruct x as [sx| | |sx mx ex]; [|done|done|].
  { eapply rnd_Proper; [|simpl; apply rnd_zero]. change (fval (S754_zero sx)) with 0%Q.
    field. exact Hy. }
  unfold SFdiv, SFdiv_core_binary.
  set (e' := Z.min _ (ex - ey)). set (s := ex - ey - e').
  assert (Hs : 0 ≤ s) by (unfold s, e'; lia).
  replace (match s with Z0 => Zpos mx | Zpos _ => Z.shiftl (Zpos mx) s | Zneg _ => 0 end)
    with (Zpos mx * 2 ^ s).
  2:{ destruct s as [|p|]; [by rewrite Z.mul_1_r|by rewrite Z.shiftl_mul_pow2|lia]. }
  pose proof (Z_div_mod (Zpos mx * 2 ^ s) (Zpos my) ltac:(lia)) as Hdiv.
  destruct (Z.div_eucl _ _) as [q r]. destruct Hdiv as [Heq Hr].
  destruct (digits_quotient mx my q r s Hs Heq Hr) as [Hd Hq].
  assert (Hloc : located q (new_location (Zpos my) r)
    (inject_Z (Zpos mx) / inject_Z (Zpos my) * bpow (ex - ey) * bpow (- e'))%Q).
  { eapply located_Proper; [|apply new_location_spec; [lia|exact Hr]]. rewrite <-Heq.
    rewrite inject_Z_mult, <-Qmult_assoc, <-bpow_add, <-bpow_inject by done.
    replace (ex - ey + - e') with s by (unfold s; lia). field.
    intros E. change 0%Q with (inject_Z 0) in E. by apply inject_Z_injective in E. }
  pose proof (rnd_aux (xorb sx sy) q e' _ _ Hq Hloc) as Hrnd.
  eapply rnd_Proper; [|apply Hrnd].
  - simpl fval. unfold fl. assert (bpow (ex - ey) == bpow ex / bpow ey)%Q as Hb.
    { apply Qmult_inj_r with (bpow ey); [pose proof (bpow_pos ey); lra|].
      rewrite <-bpow_add. replace (ex - ey + ey) with ex by lia. field.
      pose proof (bpow_pos ey). lra. }
    assert (Hm : ¬ (inject_Z (Zpos my) == 0)%Q).
    { intros E. change 0%Q with (inject_Z 0) in E. by apply inject_Z_injective in E. }
    pose proof (bpow_pos ey).
    destruct sx, sy; cbn [xorb cond_Zopp]; rewrite Hb, ?inject_Z_opp; field; split; try lra;
      intros E; apply Hm; lra.
  - eapply Z.le_trans; [|apply (fexp_mono (Zpos (digits2_pos mx) + s - Zpos (digits2_pos my) + e'));
      lia].
    replace (Zpos (digits2_pos mx) + s - Zpos (digits2_pos my) + e')
      with (Zpos (digits2_pos mx) + ex - (Zpos (digits2_pos my) + ey)) by (unfold s; lia).
    unfold e'. simpl Zdigits2. lia.
Qed.

(** ** Rounding to an integer *)

Lemma inject_Z_0 : inject_Z 0 = 0%Q.
Proof. done. Qed.

Lemma Qround_away_comp q q' : (q == q')%Q → Qround_away q = Qround_away q'.
Proof.
  intros E. unfold Qround_away. assert (Qle_bool 0 q = Qle_bool 0 q') as ->.
  { apply eq_true_iff_eq. by rewrite !Qle_bool_iff, E. }
  destruct (Qle_bool 0 q'); [|f_equal]; apply Qfloor_comp; by rewrite E.
Qed.

Lemma Qround_away_inject n : Qround_away (inject_Z n) = n.
Proof.
  assert (Hf : ∀ k, Qfloor (inject_Z k + (1 # 2)) = k).
  { intros k. pose proof (Qfloor_le (inject_Z k + (1 # 2))) as H1.
    pose proof (Qlt_floor (inject_Z k + (1 # 2))) as H2. set (f := Qfloor _) in *.
    assert (inject_Z f < inject_Z (k + 1))%Q as H3.
    { rewrite inject_Z_plus. change (inject_Z 1) with 1%Q. lra. }
    assert (inject_Z k < inject_Z (f + 1))%Q as H4 by lra.
    rewrite <-Zlt_Qlt in H3, H4. lia. }
  unfold Qround_away. destruct (Qle_bool 0 (inject_Z n)); [apply Hf|].
  rewrite <-inject_Z_opp, Hf. lia.
Qed.

Lemma Qle_bool_false x y : Qle_bool x y = false → (y < x)%Q.
Proof. intros E. apply Qnot_le_lt. intros Hle%Qle_bool_iff. congruence. Qed.

Lemma Qround_away_sign q :
  ((0 <= q)%Q → 0 ≤ Qround_away q) ∧ ((q <= 0)%Q → Qround_away q ≤ 0).
Proof.
  assert (Hpos : ∀ p, (0 <= p)%Q → 0 ≤ Qfloor (p + (1 # 2))).
  { intros p Hp. change 0 with (Qfloor (inject_Z 0)). apply Qfloor_resp_le. rewrite inject_Z_0. lra. }
  unfold Qround_away. destruct (Qle_bool 0 q) eqn:E.
  - apply Qle_bool_iff in E. split; [by auto|]. intros Hq.
    assert (q == 0)%Q as Hz by lra. assert (Qfloor (q + (1 # 2)) = 0) as ->; [|done].
    by rewrite (Qfloor_comp _ (1 # 2)) by lra.
  - apply Qle_bool_false in E. split; intros; [lra|].
    pose proof (Hpos (- q)%Q ltac:(lra)). lia.
Qed.

Lemma Qround_away_mono p q : (p <= q)%Q → Qround_away p ≤ Qround_away q.
Proof.
  intros Hpq. destruct (Qround_away_sign p) as [P1 P2]. destruct (Qround_away_sign q) as [Q1 Q2].
  unfold Qround_away in *. destruct (Qle_bool 0 p) eqn:Ep, (Qle_bool 0 q) eqn:Eq.
  - apply Qfloor_resp_le. lra.
  - apply Qle_bool_iff in Ep. apply Qle_bool_false in Eq. lra.
  - apply Qle_bool_iff in Eq. apply Qle_bool_false in Ep. specialize (P2 ltac:(lra)).
    specialize (Q1 ltac:(lra)). lia.
  - assert (Qfloor (- q + (1 # 2)) ≤ Qfloor (- p + (1 # 2))); [apply Qfloor_resp_le; lra|lia].
Qed.

(** Rounding to an integer is exact: every float of magnitude at least
    [2^prec] is an integer, and smaller integers are floats. *)
Lemma fround_exact x :
  is_finite x = true → valid x →
  is_finite (fround x) = true ∧ (fval (fround x) == inject_Z (Qround_away (fval x)))%Q.
Proof.
  pose proof prec_bound as Hp. intros Hf Hv. destruct x as [s| | |s m e]; try done.
  assert (Hgoal : is_finite (of_Z (Qround_away (fval (S754_finite s m e)))) = true ∧
    (fval (of_Z (Qround_away (fval (S754_finite s m e)))) ==
     inject_Z (Qround_away (fval (S754_finite s m e))))%Q).
  { pose proof (finite_pack _ Hv Hf) as (s' & M & E & Hrep & Ex & Ev).
    destruct (Z.le_gt_cases 0 e) as [He|He].
    - assert (Hint : (fval (S754_finite s m e) == inject_Z (cond_Zopp s (Zpos m) * 2 ^ e))%Q).
      { simpl. unfold fl. by rewrite bpow_inject, inject_Z_mult. }
      rewrite (Qround_away_comp _ _ Hint), Qround_away_inject.
      set (n := cond_Zopp s (Zpos m) * 2 ^ e) in *.
      rewrite Hint in Ev.
      destruct (rnd_exact _ _ _ _ _ (of_Z_rnd n) Hrep Ev) as [?|[(_ & _ & Hb)|(_ & _ & Hb)]];
        [done|exfalso..]; rewrite Ex, pack_sign_finite in Hf;
        pose proof (finite_bound _ _ Hrep Hf); pose proof (fl_nonneg M E (rep_nonneg _ _ Hrep));
        pose proof (bpow_pos emax); rewrite Ev in Hb; destruct s'; simpl in Hb;
        rewrite ?fl_opp in Hb; lra.
    - apply of_Z_exact. apply valid_rep in Hv as [Hr _]. apply rep_lt in Hr.
      assert (Hu : (fl (Zpos m) e <= inject_Z (2 ^ prec))%Q).
      { eapply Qle_trans; [apply (fl_le _ (2 ^ prec)); lia|]. unfold fl.
        rewrite <-(Qmult_1_r (inject_Z (2 ^ prec))) at 2. rewrite !(Qmult_comm (inject_Z _)).
        apply Qmult_le_compat_r.
        - change 1%Q with (bpow 0). apply bpow_le. lia.
        - rewrite <-inject_Z_0, <-Zle_Qle. apply Z.pow_nonneg. lia. }
      pose proof (fl_nonneg (Zpos m) e ltac:(lia)) as Hnn.
      assert (Hb : (inject_Z (- 2 ^ prec) <= fval (S754_finite s m e) <= inject_Z (2 ^ prec))%Q).
      { rewrite inject_Z_opp. destruct s; simpl; rewrite ?fl_opp; lra. }
      destruct Hb as [Hb1%Qround_away_mono Hb2%Qround_away_mono].
      rewrite Qround_away_inject in Hb1, Hb2. lia. }
  unfold fround. destruct (Qround_away _) eqn:E; [by rewrite inject_Z_0|exact Hgoal..].
Qed.

Lemma Qtrunc_inject n q : (q == inject_Z n)%Q → Qtrunc q = n.
Proof.
  unfold Qtrunc, Qeq. simpl. rewrite Z.mul_1_r. intros ->. apply Z.quot_mul. done.
Qed.
(** ** Closure *)

Lemma fmul_valid x y : valid x → valid y → valid (fmul x y).
Proof.
  intros Vx Vy. destruct (is_finite x) eqn:Fx, (is_finite y) eqn:Fy.
  - by apply (rnd_valid _ _ (fmul_rnd x y Vx Vy Fx Fy)).
  - by destruct x, y.
  - by destruct x, y.
  - by destruct x, y.
Qed.

Lemma fadd_valid x y : valid x → valid y → valid (fadd x y).
Proof.
  intros Vx Vy. destruct (is_finite x) eqn:Fx, (is_finite y) eqn:Fy.
  - by apply (rnd_valid _ _ (fadd_rnd x y Vx Vy Fx Fy)).
  - by destruct x, y.
  - by destruct x, y.
  - by destruct x as [|[]| |], y as [|[]| |].
Qed.

Lemma fsub_valid x y : valid x → valid y → valid (fsub x y).
Proof.
  intros Vx Vy. destruct (is_finite x) eqn:Fx, (is_finite y) eqn:Fy.
  - by apply (rnd_valid _ _ (fsub_rnd x y Vx Vy Fx Fy)).
  - by destruct x, y.
  - by destruct x, y.
  - by destruct x as [|[]| |], y as [|[]| |].
Qed.

Lemma fdiv_valid x y : valid x → valid y → valid (fdiv x y).
Proof.
  intros Vx Vy. destruct (is_finite x) eqn:Fx, (is_finite y) eqn:Fy.
  - destruct (Qeq_dec (fval y) 0) as [Hz|Hnz].
    + apply is_finite_cases in Fy as [[s ->]|(s & m & e & ->)].
      * by destruct x.
      * by destruct (fval_nonzero s m e).
    + by apply (rnd_valid _ _ (fdiv_rnd x y Vx Vy Fx Fy Hnz)).
  - by destruct x, y.
  - by destruct x, y.
  - by destruct x, y.
Qed.

(** ** Nonnegative operands, infinity included *)

Lemma of_Z_0 : of_Z 0 = S754_zero false.
Proof. done. Qed.

Lemma of_Z_1 : is_finite (of_Z 1) = true ∧ (fval (of_Z 1) == 1)%Q.
Proof.
  apply (of_Z_exact 1). pose proof prec_bound. change (Z.abs 1) with (2 ^ 0).
  apply Z.pow_le_mono_r; lia.
Qed.

Definition nonneg (x : float) : Prop := valid x ∧ fle (S754_zero false) x = true.

Lemma nonneg_cases x :
  nonneg x ↔ valid x ∧ (x = S754_infinity false ∨ (is_finite x = true ∧ (0 <= fval x)%Q)).
Proof.
  unfold nonneg. split; intros [V H]; (split; [done|]).
  - destruct (is_finite x) eqn:Fx.
    + right. split; [done|]. by apply (fle_val (S754_zero false) x) in H.
    + left. by destruct x as [|[]| |].
  - destruct H as [->|[Fx H]]; [done|]. by apply fle_val.
Qed.

Lemma nonneg_zero s : nonneg (S754_zero s).
Proof. by split. Qed.

Lemma rnd_nonneg x r : rnd x r → (0 <= x)%Q → nonneg r.
Proof.
  intros Hr Hx. split; [by apply (rnd_valid _ _ Hr)|].
  by apply (rnd_ge _ _ (S754_zero false) Hr).
Qed.

Lemma fmul_nonneg x y :
  nonneg x → nonneg y → is_finite x = true → is_finite y = true → nonneg (fmul x y).
Proof.
  intros [Vx Hx]%nonneg_cases [Vy Hy]%nonneg_cases Fx Fy.
  destruct Hx as [->|[_ Hx]]; [done|]. destruct Hy as [->|[_ Hy]]; [done|].
  eapply rnd_nonneg; [by apply fmul_rnd|]. by apply Qmult_le_0_compat.
Qed.

Lemma fdiv_nonneg x y :
  nonneg x → nonneg y → is_finite x = true → (0 < fval y)%Q → nonneg (fdiv x y).
Proof.
  intros [Vx Hx]%nonneg_cases [Vy Hy]%nonneg_cases Fx Py.
  destruct Hx as [->|[_ Hx]]; [done|]. destruct Hy as [->|[Fy _]]; [done|].
  eapply rnd_nonneg; [apply fdiv_rnd; [done..|lra]|]. apply Qle_shift_div_l; lra.
Qed.

Lemma fadd_ge x y :
  nonneg x → nonneg y → fle x (fadd x y) = true ∧ fle y (fadd x y) = true.
Proof.
  intros [Vx Hx]%nonneg_cases [Vy Hy]%nonneg_cases.
  destruct Hx as [->|[Fx Hx]], Hy as [->|[Fy Hy]]; [done| | |].
  - by destruct y as [|[]| |].
  - by destruct x as [|[]| |].
  - pose proof (fadd_rnd x y Vx Vy Fx Fy) as Hr.
    split; eapply rnd_ge; try done; lra.
Qed.

Lemma fadd_nonneg x y : nonneg x → nonneg y → nonneg (fadd x y).
Proof.
  intros Hx Hy. split; [by apply fadd_valid; [apply Hx|apply Hy]|].
  eapply fle_trans; [apply Hx|]. by apply fadd_ge.
Qed.

(** A nonnegative finite value divided by at least one does not grow. *)
Lemma fdiv_shrink x d :
  nonneg x → is_finite x = true → valid d → fle (of_Z 1) d = true →
  nonneg (fdiv x d) ∧ fle (fdiv x d) x = true.
Proof.
  intros Hx Fx Vd Hd. destruct of_Z_1 as [F1 V1].
  assert (Nx : (0 <= fval x)%Q).
  { apply nonneg_cases in Hx as [_ [->|[_ ?]]]; done. }
  destruct Hx as [Vx _].
  destruct (is_finite d) eqn:Fd.
  - rewrite fle_val, V1 in Hd by done.
    assert (Hr : rnd (fval x / fval d) (fdiv x d)) by (apply fdiv_rnd; [done..|lra]).
    split; [eapply rnd_nonneg; [exact Hr|]; apply Qle_shift_div_l; lra|].
    eapply rnd_le; [exact Hr|done|done|]. apply Qle_shift_div_r; [lra|]. nra.
  - assert (d = S754_infinity false) as -> by (destruct d as [|[]| |], (of_Z 1) as [|[]| |]; done).
    destruct x; try done; (split; [apply nonneg_zero|by apply fle_val]).
Qed.
(** ** Monotone operations *)

(** Equal values: the same float, or zeros of either sign. *)
Lemma same_value a b :
  valid a → valid b → is_finite a = true → is_finite b = true → (fval a == fval b)%Q →
  a = b ∨ ∃ s s', a = S754_zero s ∧ b = S754_zero s'.
Proof.
  intros Va Vb Fa Fb E. destruct (Qeq_dec (fval a) 0) as [Hz|Hnz]; [right|by left; apply valid_unique].
  assert (Hzero : ∀ x, is_finite x = true → (fval x == 0)%Q → ∃ s, x = S754_zero s).
  { intros x Fx Hx. apply is_finite_cases in Fx as [[s ->]|(s & m & e & ->)]; [eauto|].
    by destruct (fval_nonzero s m e). }
  destruct (Hzero a Fa Hz) as [s ->]. rewrite Hz in E. symmetry in E.
  destruct (Hzero b Fb E) as [s' ->]. eauto.
Qed.

(** Rounding a strictly increasing function of the operand is monotone. *)
Lemma monotone_op (f : float → float) (g : Q → Q) a b :
  (∀ x, valid x → is_finite x = true → rnd (g (fval x)) (f x)) →
  (∀ s s', fle (f (S754_zero s)) (f (S754_zero s')) = true) →
  (∀ p q, p < q → g p < g q)%Q →
  valid a → valid b → is_finite a = true → is_finite b = true →
  fle a b = true → fle (f a) (f b) = true.
Proof.
  intros Hr Hz Hg Va Vb Fa Fb Hle. rewrite fle_val in Hle by done.
  destruct (Qle_lt_or_eq _ _ Hle) as [Hlt|Heq].
  - eapply rnd_mono; [by apply Hg|by apply Hr..].
  - destruct (same_value a b Va Vb Fa Fb Heq) as [->|(s & s' & -> & ->)]; [|by apply Hz].
    apply fle_refl. by apply (rnd_valid _ _ (Hr b Vb Fb)).
Qed.

Lemma fle_zeros s s' : fle (S754_zero s) (S754_zero s') = true.
Proof. done. Qed.

Lemma fsub_mono_l a b c :
  valid a → valid b → valid c → is_finite a = true → is_finite b = true → is_finite c = true →
  fle a b = true → fle (fsub a c) (fsub b c) = true.
Proof.
  intros Va Vb Vc Fa Fb Fc. apply (monotone_op (λ x, fsub x c) (λ x, x - fval c)%Q); try done.
  - intros x Vx Fx. by apply fsub_rnd.
  - intros s s'. unfold fsub. destruct c as [[]| | |[] m e]; try done;
      [by destruct s, s'..| |]; simpl; apply fle_refl; done.
  - intros p q Hpq. lra.
Qed.

Lemma fdiv_mono_l a b c :
  valid a → valid b → valid c → is_finite a = true → is_finite b = true → is_finite c = true →
  (0 < fval c)%Q → fle a b = true → fle (fdiv a c) (fdiv b c) = true.
Proof.
  intros Va Vb Vc Fa Fb Fc Hc. apply (monotone_op (λ x, fdiv x c) (λ x, x / fval c)%Q); try done.
  - intros x Vx Fx. apply fdiv_rnd; try done. lra.
  - intros s s'. destruct c; try done; simpl in Hc; lra.
  - intros p q Hpq. apply Qmult_lt_r; [|done]. by apply Qinv_lt_0_compat.
Qed.

Lemma rnd_zero_val x r : rnd x r → (x == 0)%Q → is_finite r = true ∧ (fval r == 0)%Q.
Proof.
  intros Hr Hx. pose proof (rnd_Proper _ _ _ Hx Hr) as Hr'.
  destruct (rnd_exact _ _ false 0 0 Hr' ltac:(by left) ltac:(by rewrite fl_0))
    as [?|[(? & _)|(? & _)]]; [done|lra..].
Qed.

Lemma fmul_mono_l a b c :
  valid a → valid b → valid c → is_finite a = true → is_finite b = true → is_finite c = true →
  (0 <= fval c)%Q → fle a b = true → fle (fmul a c) (fmul b c) = true.
Proof.
  intros Va Vb Vc Fa Fb Fc Hc Hab. destruct (Qle_lt_or_eq _ _ Hc) as [Hpos|Hz].
  - revert Hab. apply (monotone_op (λ x, fmul x c) (λ x, x * fval c)%Q); try done.
    + intros x Vx Fx. by apply fmul_rnd.
    + intros s s'. by destruct c.
    + intros p q Hpq. by apply Qmult_lt_r.
  - destruct (rnd_zero_val _ _ (fmul_rnd a c Va Vc Fa Fc)) as [F1 E1]; [rewrite <-Hz; ring|].
    destruct (rnd_zero_val _ _ (fmul_rnd b c Vb Vc Fb Fc)) as [F2 E2]; [rewrite <-Hz; ring|].
    apply fle_val; [done..|]. rewrite E1, E2. apply Qle_refl.
Qed.

Lemma fadd_mono_r a b c :
  valid a → valid b → valid c → is_finite a = true → is_finite b = true → is_finite c = true →
  fle a b = true → fle (fadd c a) (fadd c b) = true.
Proof.
  intros Va Vb Vc Fa Fb Fc. apply (monotone_op (fadd c) (λ x, fval c + x)%Q); try done.
  - intros x Vx Fx. by apply fadd_rnd.
  - intros s s'. unfold fadd. destruct c as [[]| | |[] m e]; try done;
      [by destruct s, s'..| |]; simpl; apply fle_refl; done.
  - intros p q Hpq. lra.
Qed.

Lemma antitone_op (f : float → float) (g : Q → Q) a b :
  (∀ x, valid x → is_finite x = true → rnd (g (fval x)) (f x)) →
  (∀ s s', fle (f (S754_zero s)) (f (S754_zero s')) = true) →
  (∀ p q, p < q → g q < g p)%Q →
  valid a → valid b → is_finite a = true → is_finite b = true →
  fle a b = true → fle (f b) (f a) = true.
Proof.
  intros Hr Hz Hg Va Vb Fa Fb Hle. rewrite fle_val in Hle by done.
  destruct (Qle_lt_or_eq _ _ Hle) as [Hlt|Heq].
  - eapply rnd_mono; [by apply Hg|by apply Hr..].
  - destruct (same_value a b Va Vb Fa Fb Heq) as [->|(s & s' & -> & ->)]; [|by apply Hz].
    apply fle_refl. by apply (rnd_valid _ _ (Hr b Vb Fb)).
Qed.

Lemma fsub_anti_r a b c :
  valid a → valid b → valid c → is_finite a = true → is_finite b = true → is_finite c = true →
  fle a b = true → fle (fsub c b) (fsub c a) = true.
Proof.
  intros Va Vb Vc Fa Fb Fc. apply (antitone_op (fsub c) (λ x, fval c - x)%Q); try done.
  - intros x Vx Fx. by apply fsub_rnd.
  - intros s s'. unfold fsub. destruct c as [[]| | |[] m e]; try done;
      [by destruct s, s'..| |]; simpl; apply fle_refl; done.
  - intros p q Hpq. lra.
Qed.

(** A quotient by a larger positive divisor is smaller. *)
Lemma fdiv_anti_r a b c :
  valid a → valid b → valid c → is_finite a = true → is_finite b = true → is_finite c = true →
  (0 < fval c)%Q → (0 < fval a)%Q → fle a b = true → fle (fdiv c b) (fdiv c a) = true.
Proof.
  intros Va Vb Vc Fa Fb Fc Hc Ha Hab. rewrite fle_val in Hab by done.
  destruct (Qle_lt_or_eq _ _ Hab) as [Hlt|Heq].
  - eapply rnd_mono; [|apply fdiv_rnd; try done; lra|apply fdiv_rnd; try done; lra].
    apply Qmult_lt_l; [done|].
    apply Qmult_lt_r with (fval a * fval b)%Q; [apply Qmult_lt_0_compat; lra|].
    assert (E1 : (/ fval b * (fval a * fval b) == fval a)%Q) by (field; lra).
    assert (E2 : (/ fval a * (fval a * fval b) == fval b)%Q) by (field; lra).
    rewrite E1, E2. done.
  - assert (a = b) as -> by (apply valid_unique; try done; lra). apply fle_refl.
    by apply (rnd_valid _ _ (fdiv_rnd c b Vc Vb Fc Fb ltac:(lra))).
Qed.

Lemma fclamp_mono a b lo hi :
  fle lo hi = true → fle a b = true → fle (fclamp a lo hi) (fclamp b lo hi) = true.
Proof.
  intros Hb Hab. destruct (fle_not_nan _ _ Hab) as [Na Nb]. destruct (fle_not_nan _ _ Hb) as [Nl Nh].
  destruct (fclamp_bounds a lo hi Na Hb) as [A1 A2]. destruct (fclamp_bounds b lo hi Nb Hb) as [B1 B2].
  destruct (flt b lo) eqn:E1.
  - assert (fclamp a lo hi = lo) as ->; [|done]. unfold fclamp.
    assert (flt a lo = true) as ->.
    { destruct (flt a lo) eqn:E; [done|]. exfalso. apply (fle_total a lo) in E; [|done..].
      pose proof (fle_trans _ _ _ E Hab) as Hlb. by rewrite (fle_not_flt _ _ Hlb) in E1. }
    by rewrite (fle_not_flt _ _ Hb).
  - destruct (flt hi b) eqn:E2.
    + assert (fclamp b lo hi = hi) as ->; [|done]. unfold fclamp. by rewrite E1, E2.
    + assert (fclamp b lo hi = b) as -> by (unfold fclamp; by rewrite E1, E2).
      unfold fclamp. destruct (flt a lo) eqn:E3.
      * rewrite (fle_not_flt _ _ Hb). by apply fle_total.
      * destruct (flt hi a) eqn:E4; [|done]. exfalso. apply (fle_total hi b) in E2; [|done..].
        pose proof (fle_trans _ _ _ Hab E2) as Hah. by rewrite (fle_not_flt _ _ Hah) in E4.
Qed.

(** A conversion between formats rounds the value. *)
Lemma fcast_rnd x : is_finite x = true → rnd (fval x) (fcast x).
Proof. destruct x as [s| | |s m e]; try done; intros _; [apply rnd_zero|]. apply binary_round_rnd. Qed.

Lemma fcast_valid x : valid (fcast x).
Proof. destruct (is_finite x) eqn:Hf; [by apply (rnd_valid _ _ (fcast_rnd x Hf))|]. by destruct x. Qed.
End facts.
