(* ===== verification/Score.v ===== *)
(** khive-score/src/score.rs, ops.rs, comparator.rs and the fixed-point band of
    band.rs: fixed-point scores at scale 2^32 on 64-bit integers, their
    conversions from and to floats, their saturating arithmetic, aggregations
    and orders. *)

From Stdlib Require Import ZArith QArith Qpower Qround Lqa Lia String Ascii SpecFloat.
From stdpp Require Import base tactics list numbers strings sorting sets.
From S2P Require Import Prelude RustStr Ident Rounding Float.

Open Scope Z_scope.

#[local] Existing Instance F64.

(** ** Machine integers *)

Definition I64_MAX : Z := 2 ^ 63 - 1.
Definition I64_MIN : Z := - 2 ^ 63.
Definition USIZE_MAX : Z := 2 ^ 64 - 1.

Definition i64 (n : Z) : Prop := I64_MIN ≤ n ≤ I64_MAX.

(** [raw as i64] of a float. *)
Definition as_i64 : f64 → Z := to_Z I64_MIN I64_MAX.

(** [i64::saturating_div] *)
Definition saturating_div (a b : Z) : Z := Z.min I64_MAX (Z.quot a b).

(** [usize::checked_add] *)
Definition checked_add_usize (a b : Z) : option Z :=
  if a + b <=? USIZE_MAX then Some (a + b) else None.

(** ** [DeterministicScore] *)

(** [DeterministicScore(i64)] *)
Definition DeterministicScore : Type := Z.

Definition SCALE : f64 := of_Z (2 ^ 32).
Definition MAX : DeterministicScore := I64_MAX.
Definition MIN : DeterministicScore := I64_MIN.
Definition NEG_INF : DeterministicScore := I64_MIN + 1.
Definition ZERO : DeterministicScore := 0.

(** The runtime values: everything but the reserved sentinel. *)
Definition reachable (s : DeterministicScore) : Prop := NEG_INF ≤ s ≤ MAX.

Definition from_raw (raw : Z) : DeterministicScore := raw.

Definition from_raw_saturating (raw : Z) : DeterministicScore :=
  if raw =? I64_MIN then NEG_INF else raw.

Definition from_raw_checked (raw : Z) : option DeterministicScore :=
  if raw =? I64_MIN then None else Some raw.

Definition from_arithmetic_raw (raw : Z) : DeterministicScore :=
  if MAX <=? raw then MAX else if raw <=? NEG_INF then NEG_INF else raw.

Definition from_rounded_arithmetic (raw : f64) : DeterministicScore :=
  if is_nan raw then ZERO
  else if is_sign_positive raw && negb (is_finite raw) then MAX
  else if negb (is_finite raw) then NEG_INF
  else if fle (of_Z MAX) raw then MAX
  else if fle raw (of_Z NEG_INF) then NEG_INF
  else as_i64 raw.

Definition from_f64 (val : f64) : DeterministicScore :=
  if is_nan val then ZERO
  else if is_infinite val then (if is_sign_positive val then MAX else NEG_INF)
  else from_rounded_arithmetic (fround (fmul val SCALE)).

Definition from_f32 (val : f32) : DeterministicScore := from_f64 (fcast val).

Definition to_f64 (self : DeterministicScore) : f64 :=
  if self =? MAX then S754_infinity false
  else if self =? NEG_INF then S754_infinity true
  else fdiv (of_Z self) SCALE.

Definition score_is_infinite (self : DeterministicScore) : bool := (self =? MAX) || (self =? NEG_INF).

(** [impl Ord for DeterministicScore] *)
#[export] Instance DeterministicScore_Ord : Ord DeterministicScore := Z.compare.

#[export] Instance DeterministicScore_OrdLaws : OrdLaws DeterministicScore.
Proof. exact Z_OrdLaws. Qed.

Definition score_add (self rhs : DeterministicScore) : DeterministicScore :=
  from_arithmetic_raw (self + rhs).

Definition score_sub (self rhs : DeterministicScore) : DeterministicScore :=
  from_arithmetic_raw (self - rhs).

(** The [i128] product of two [i64] never saturates. *)
Definition score_mul (self : DeterministicScore) (rhs : Z) : DeterministicScore :=
  from_arithmetic_raw (self * rhs).

Definition score_mul_f64 (self : DeterministicScore) (rhs : f64) : DeterministicScore :=
  if is_nan rhs then ZERO
  else from_rounded_arithmetic (fround (fmul (of_Z self) rhs)).

Definition score_div (self : DeterministicScore) (rhs : Z) : DeterministicScore :=
  if rhs =? 0 then (if self =? 0 then ZERO else if 0 <? self then MAX else NEG_INF)
  else from_arithmetic_raw (saturating_div self rhs).

(** ** Aggregations *)

Inductive ScoreError : Type :=
| LengthMismatch (expected_desc : string) (first_len second_len : nat)
| NonFiniteWeight (index : nat)
| NonFiniteDistance
| InvalidDistanceRange (metric_name : string) (dist_bits : Z)
| UnsupportedMetric.

(** [{:08x}] of a [u32] *)
Definition hex08 (n : Z) : string :=
  of_bytes ((λ i, hex_at (Z.land (Z.shiftr n (4 * Z.of_nat (7 - i))) 15)) <$> seq 0 8).

(** [impl fmt::Display for ScoreError] *)
Definition ScoreError_fmt (self : ScoreError) : string :=
  match self with
  | LengthMismatch expected_desc first_len second_len =>
      expected_desc +:+ ": first has " +:+ fmt_nat first_len +:+ " elements, second has "
      +:+ fmt_nat second_len
  | NonFiniteWeight index => "weight at index " +:+ fmt_nat index +:+ " must be finite"
  | NonFiniteDistance => "distance must be finite (not NaN or infinity)"
  | InvalidDistanceRange metric_name dist_bits =>
      "distance value (bits=0x" +:+ hex08 dist_bits +:+ ") is out of valid range for metric "
      +:+ metric_name
  | UnsupportedMetric => "unsupported distance metric"
  end.

(** [Iterator::sum] over [i128] *)
Definition sumZ (l : list Z) : Z := foldl Z.add 0 l.

(** [i128::clamp] to the runtime range. *)
Definition clamp_score (n : Z) : DeterministicScore := clampZ NEG_INF MAX n.

Definition sum_scores (scores : list DeterministicScore) : DeterministicScore :=
  match scores with
  | [] => ZERO
  | _ => from_raw (clamp_score (sumZ scores))
  end.

Definition avg_scores (scores : list DeterministicScore) : DeterministicScore :=
  match scores with
  | [] => ZERO
  | _ => from_raw (clamp_score (Z.quot (sumZ scores) (Z.of_nat (length scores))))
  end.

Definition SATURATION_THRESHOLD : Z := Z.quot (I64_MAX * 9) 10.

Definition avg_scores_checked (scores : list DeterministicScore) : DeterministicScore * bool :=
  match scores with
  | [] => (ZERO, false)
  | _ =>
      let mean := Z.quot (sumZ scores) (Z.of_nat (length scores)) in
      let abs_mass := sumZ (Z.abs <$> scores) in
      let near_saturation :=
        (SATURATION_THRESHOLD <? abs_mass) || (SATURATION_THRESHOLD <? Z.abs mean) in
      (from_raw (clamp_score mean), near_saturation)
  end.

(** [Iterator::max] and [Iterator::min] *)
Definition max_score (scores : list DeterministicScore) : DeterministicScore :=
  match scores with [] => NEG_INF | s :: l => foldl Z.max s l end.

Definition min_score (scores : list DeterministicScore) : DeterministicScore :=
  match scores with [] => MAX | s :: l => foldl Z.min s l end.

Definition rrf_score (rank k : Z) : DeterministicScore :=
  match checked_add_usize k rank with
  | None => ZERO
  | Some denominator =>
      if denominator =? 0 then ZERO else from_f64 (fdiv (of_Z 1) (of_Z denominator))
  end.

(** The rank is a [NonZeroUsize]. *)
Definition rrf_score_one_based (rank k : Z) : DeterministicScore :=
  match checked_add_usize k rank with
  | None => ZERO
  | Some denominator => from_f64 (fdiv (of_Z 1) (of_Z denominator))
  end.

Definition rrf_score_zero_based (index k : Z) : DeterministicScore :=
  match checked_add_usize index 1 with
  | None => ZERO
  | Some rank => if rank =? 0 then ZERO else rrf_score_one_based rank k
  end.

Definition SCALE_RAW : Z := 4294967296.

(** The loop of [weighted_sum]. *)
Fixpoint weighted_acc (acc : Z) (index : nat) (l : list (DeterministicScore * f64)) :
    result Z ScoreError :=
  match l with
  | [] => Ok acc
  | (score, weight) :: l' =>
      if negb (is_finite weight) then Err (NonFiniteWeight index)
      else weighted_acc (acc + Z.quot (score * from_f64 weight) SCALE_RAW) (S index) l'
  end.

Definition weighted_sum (scores : list DeterministicScore) (weights : list f64) :
    result DeterministicScore ScoreError :=
  if negb (length scores =? length weights)%nat then
    Err (LengthMismatch "scores and weights must have same length" (length scores) (length weights))
  else
    let? acc := weighted_acc 0 0 (zip scores weights) in
    Ok (from_raw (clamp_score acc)).

(** ** Orders *)

Record Ranked (T : Type) : Type := { score : DeterministicScore; id : T }.
Arguments score {T} _.
Arguments id {T} _.

(** [impl Ord for Ranked<T>] *)
Definition Ranked_cmp {T} `{Ord T} (self other : Ranked T) : comparison :=
  then_cmp (cmp (score self) (score other)) (cmp (id other) (id self)).

Definition cmp_desc_then_id {T} `{Ord T} (a_score : DeterministicScore) (a_id : T)
    (b_score : DeterministicScore) (b_id : T) : comparison :=
  then_cmp (cmp b_score a_score) (cmp a_id b_id).

Definition cmp_desc_then_id_f64 {T} `{Ord T} (a_score : f64) (a_id : T) (b_score : f64) (b_id : T) :
    comparison :=
  then_cmp
    (match is_nan a_score, is_nan b_score with
     | true, true => Eq
     | true, false => Gt
     | false, true => Lt
     | false, false => total_cmp b_score a_score
     end) (cmp a_id b_id).

Definition cmp_desc_then_id_f32 {T} `{Ord T} (a_score : f32) (a_id : T) (b_score : f32) (b_id : T) :
    comparison :=
  cmp_desc_then_id_f64 (fcast a_score) a_id (fcast b_score) b_id.

Definition cmp_asc_then_id {T} `{Ord T} (a_score : DeterministicScore) (a_id : T)
    (b_score : DeterministicScore) (b_id : T) : comparison :=
  then_cmp (cmp a_score b_score) (cmp a_id b_id).

(** ** The fixed-point band *)

Definition min_max_band_fixed (scores : list DeterministicScore) : list DeterministicScore :=
  match scores with
  | [] => []
  | s :: l =>
      let min := foldl Z.min s l in
      let max := foldl Z.max s l in
      let span := max - min in
      if span <=? 0 then replicate (length scores) (from_raw SCALE_RAW)
      else
        (λ score, let numerator := (score - min) * SCALE_RAW in
                  from_raw (clampZ 0 I64_MAX (Z.quot numerator span))) <$> scores
  end.

(** Properties of the fixed-point scores of [Score]: conversions, the reachable
    range, aggregations, reciprocal ranks and orders. *)

Open Scope Z_scope.

#[local] Existing Instance F64.

(** ** Conversions *)

Lemma clampZ_bounds lo hi n : lo ≤ hi → lo ≤ clampZ lo hi n ≤ hi.
Proof. unfold clampZ. lia. Qed.

Lemma clampZ_mono lo hi n m : n ≤ m → clampZ lo hi n ≤ clampZ lo hi m.
Proof. unfold clampZ. lia. Qed.

Lemma clampZ_id lo hi n : lo ≤ n ≤ hi → clampZ lo hi n = n.
Proof. unfold clampZ. lia. Qed.

Lemma fval_const n q : Qeq_bool (fval (of_Z n)) q = true → (fval (of_Z n) == q)%Q.
Proof. apply Qeq_bool_eq. Qed.

Lemma fval_SCALE : (fval SCALE == inject_Z (2 ^ 32))%Q.
Proof. by apply fval_const. Qed.

Lemma fval_1 : (fval (of_Z 1) == 1)%Q.
Proof. by apply fval_const. Qed.

Lemma fval_MAX : (fval (of_Z MAX) == inject_Z (2 ^ 63))%Q.
Proof. by apply fval_const. Qed.

Lemma fval_NEG_INF : (fval (of_Z NEG_INF) == inject_Z (- 2 ^ 63))%Q.
Proof. by apply fval_const. Qed.

Lemma Qtrunc_bound q n : (inject_Z (- n) < q)%Q → (q < inject_Z n)%Q → - n < Qtrunc q < n.
Proof.
  unfold Qlt, Qtrunc. simpl. rewrite !Z.mul_1_r. set (a := Qnum q). set (d := Zpos (Qden q)).
  intros H1 H2. assert (Hd : 0 < d) by done. clearbody a d. assert (Hne : d ≠ 0) by lia.
  pose proof (Z.quot_rem' a d) as Hq. pose proof (Z.rem_bound_abs a d Hne) as Hb.
  set (k := Z.quot a d) in *. set (r := Z.rem a d) in *.
  destruct (Z.le_gt_cases 0 a) as [Ha|Ha].
  - pose proof (Z.rem_nonneg a d Hne Ha : 0 ≤ r) as Hr.
    assert (0 < n) by nia. assert (0 ≤ k) by nia. assert (k < n); [|lia].
    apply (Z.mul_lt_mono_pos_r d); lia.
  - assert (Ha' : a ≤ 0) by lia. pose proof (Z.rem_nonpos a d Hne Ha' : r ≤ 0) as Hr.
    assert (0 < n) by nia. assert (k < 1) by nia. assert (- n < k); [|lia].
    apply (Z.mul_lt_mono_pos_r d); lia.
Qed.

Lemma MAX_ge_NEG_INF : NEG_INF ≤ MAX.
Proof. done. Qed.

Lemma from_rounded_arithmetic_reachable z : reachable (from_rounded_arithmetic z).
Proof.
  unfold reachable, from_rounded_arithmetic.
  destruct (is_nan z) eqn:Hn; [done|].
  destruct (is_finite z) eqn:Hf; [|by destruct (is_sign_positive z)].
  rewrite andb_false_r. cbn [negb].
  destruct (fle (of_Z MAX) z) eqn:E1; [done|]. destruct (fle z (of_Z NEG_INF)) eqn:E2; [done|].
  apply is_finite_cases in Hf as [[s ->]|(s & m & e & ->)]; [done|].
  unfold as_i64, to_Z. set (q := fval _) in *.
  assert (Hlt : - 2 ^ 63 < Qtrunc q < 2 ^ 63).
  { apply Qtrunc_bound.
    - apply Qnot_le_lt. rewrite <-fval_NEG_INF. unfold q. rewrite <-fle_val by done. congruence.
    - apply Qnot_le_lt. rewrite <-fval_MAX. unfold q. rewrite <-fle_val by done. congruence. }
  rewrite clampZ_id; unfold I64_MIN, I64_MAX, NEG_INF, MAX, I64_MIN, I64_MAX in *; lia.
Qed.

(** A float holding an integer converts to the clamped integer. *)
Lemma from_rounded_arithmetic_exact z n :
  is_finite z = true → (fval z == inject_Z n)%Q → from_rounded_arithmetic z = clamp_score n.
Proof.
  intros Hf Hz. unfold from_rounded_arithmetic.
  assert (is_nan z = false) as -> by (by destruct z). rewrite Hf, andb_false_r. cbn [negb].
  assert (H1 : fle (of_Z MAX) z = true ↔ 2 ^ 63 ≤ n).
  { rewrite fle_val by done. by rewrite fval_MAX, Hz, <-Zle_Qle. }
  assert (H2 : fle z (of_Z NEG_INF) = true ↔ n ≤ - 2 ^ 63).
  { rewrite fle_val by done. by rewrite fval_NEG_INF, Hz, <-Zle_Qle. }
  unfold clamp_score, clampZ, MAX, NEG_INF, I64_MAX, I64_MIN in *.
  destruct (fle (of_Z (2 ^ 63 - 1)) z); [lia|].
  destruct (fle z (of_Z (- 2 ^ 63 + 1))); [lia|].
  assert (¬ 2 ^ 63 ≤ n) by (by intros ?%H1). assert (¬ n ≤ - 2 ^ 63) by (by intros ?%H2).
  apply is_finite_cases in Hf as [[s ->]|(s & m & e & ->)].
  - assert (n = 0) as -> by (by apply inject_Z_injective; symmetry). done.
  - unfold as_i64, to_Z. rewrite (Qtrunc_inject n) by done.
    rewrite clampZ_id; unfold I64_MIN, I64_MAX; lia.
Qed.

(** Scaling by 2^32 is exact, short of overflow. *)
Lemma fmul_SCALE x :
  valid x → is_finite x = true →
  let v := (fval x * inject_Z (2 ^ 32))%Q in
  (is_finite (fmul x SCALE) = true ∧ valid (fmul x SCALE) ∧ (fval (fmul x SCALE) == v)%Q) ∨
  ((inject_Z (2 ^ 1024) <= v)%Q ∧ fmul x SCALE = S754_infinity false) ∨
  ((v <= inject_Z (- 2 ^ 1024))%Q ∧ fmul x SCALE = S754_infinity true).
Proof.
  intros Hv Hf v. pose proof (fmul_rnd x SCALE Hv (of_Z_valid _) Hf eq_refl) as Hr.
  assert (Hr' : rnd v (fmul x SCALE)) by (eapply rnd_Proper; [|exact Hr]; by rewrite fval_SCALE).
  destruct (finite_pack x Hv Hf) as (s & M & E & Hrep & Ex & Ev).
  assert (Hvs : ∃ M' E', rep M' E' ∧ (v == fl (cond_Zopp s M') E')%Q).
  { assert (v == fl (cond_Zopp s M) (E + 32))%Q as Hve.
    { unfold v. rewrite Ev. change (inject_Z (2 ^ 32)) with (bpow 32). unfold fl.
      rewrite bpow_add. ring. }
    destruct Hrep as [->|(p & -> & HE)].
    - exists 0, 0. split; [by left|]. rewrite Hve. destruct s; by rewrite !fl_0.
    - destruct (rep_scale s p (E + 32)) as (M' & E' & Hrep' & Hs').
      + assert (rep (Zpos p) E) as Hlt%rep_lt by (right; eauto). apply digits_le; [done|exact Hlt].
      + pose proof (fexp_emin (Zpos (digits2_pos p) + E)). lia.
      + exists M', E'. split; [done|]. by rewrite Hve. }
  destruct Hvs as (M' & E' & Hrep' & Hve).
  destruct (rnd_exact _ _ _ _ _ Hr' Hrep' Hve) as [[H1 H2]|[(_ & H1 & H2)|(_ & H1 & H2)]].
  - left. split; [done|]. split; [by apply (rnd_valid _ _ Hr')|done].
  - right. left. by split.
  - right. right. split; [|done]. eapply Qle_trans; [exact H2|]. by rewrite inject_Z_opp.
Qed.

Lemma from_f64_finite x :
  is_finite x = true → from_f64 x = from_rounded_arithmetic (fround (fmul x SCALE)).
Proof. by destruct x. Qed.

Lemma from_f64_spec_aux x :
  valid x → is_finite x = true →
  from_f64 x = clampZ NEG_INF MAX (Qround_away (fval x * inject_Z (2 ^ 32))).
Proof.
  intros Hv Hf. rewrite from_f64_finite by done.
  destruct (fmul_SCALE x Hv Hf) as [(Hf' & Hv' & Ev)|[[Hbig ->]|[Hbig ->]]].
  - destruct (fround_exact _ Hf' Hv') as [R1 R2].
    rewrite (from_rounded_arithmetic_exact _ _ R1 R2). unfold clamp_score. f_equal.
    by apply Qround_away_comp.
  - apply Qround_away_mono in Hbig. rewrite Qround_away_inject in Hbig.
    set (n := Qround_away _) in *.
    change (MAX = clampZ NEG_INF MAX n).
    assert (MAX ≤ 2 ^ 1024) by done. pose proof MAX_ge_NEG_INF. unfold clampZ. lia.
  - apply Qround_away_mono in Hbig. rewrite Qround_away_inject in Hbig.
    set (n := Qround_away _) in *.
    change (NEG_INF = clampZ NEG_INF MAX n).
    assert (- 2 ^ 1024 ≤ NEG_INF) by done. pose proof MAX_ge_NEG_INF. unfold clampZ. lia.
Qed.

(** A finite float converts to its value times 2^32, rounded half away from
    zero and clamped to the runtime range; nothing else is lost. *)
Theorem from_f64_spec x :
  valid x → is_finite x = true →
  from_f64 x = clampZ NEG_INF MAX (Qround_away (fval x * inject_Z (2 ^ 32))).
Proof. apply from_f64_spec_aux. Qed.

Theorem from_f64_spec_witness :
  from_f64 (fdiv (of_Z 1) (of_Z 3)) = 1431655765 ∧
  from_f64 (of_Z (- 2 ^ 40)) = NEG_INF.
Proof.
  split.
  - rewrite (from_f64_spec (fdiv (of_Z 1) (of_Z 3))); vm_compute; reflexivity.
  - vm_compute. reflexivity.
Defined.

Lemma from_f64_reachable x : reachable (from_f64 x).
Proof.
  unfold from_f64. destruct (is_nan x); [done|].
  destruct (is_infinite x); [by destruct (is_sign_positive x)|].
  apply from_rounded_arithmetic_reachable.
Qed.

Lemma from_f64_le x y :
  valid x → valid y → fle x y = true → from_f64 x ≤ from_f64 y.
Proof.
  intros Vx Vy Hle. destruct (fle_not_nan _ _ Hle) as [Nx Ny].
  pose proof (from_f64_reachable x) as Rx. pose proof (from_f64_reachable y) as Ry.
  unfold reachable in *.
  destruct (is_finite x) eqn:Fx, (is_finite y) eqn:Fy.
  - rewrite !from_f64_spec_aux by done. apply clampZ_mono, Qround_away_mono.
    apply Qmult_le_compat_r; [by apply fle_val|done].
  - destruct y as [|[]| |]; try done; [by destruct x as [|[]| |]|].
    change (from_f64 (S754_infinity false)) with MAX. lia.
  - destruct x as [|[]| |]; try done; [|by destruct y as [|[]| |]].
    change (from_f64 (S754_infinity true)) with NEG_INF. lia.
  - by destruct x as [|[]| |], y as [|[]| |].
Qed.

(** The conversion keeps the order of floats: a greater or equal float,
    infinities included, never gets a smaller score. *)
Theorem from_f64_mono x y :
  valid x → valid y → fle x y = true → from_f64 x ≤ from_f64 y.
Proof. apply from_f64_le. Qed.

Theorem from_f64_mono_witness :
  fle (of_Z (-1)) (fdiv (of_Z 1) (of_Z 7)) = true ∧
  from_f64 (of_Z (-1)) ≤ from_f64 (fdiv (of_Z 1) (of_Z 7)).
Proof.
  split; [vm_compute; reflexivity|].
  apply (from_f64_mono (of_Z (-1)) (fdiv (of_Z 1) (of_Z 7))); vm_compute; reflexivity.
Defined.

Lemma to_f64_exact s :
  Z.abs s ≤ 2 ^ 53 → s ≠ MAX → s ≠ NEG_INF →
  valid (to_f64 s) ∧ is_finite (to_f64 s) = true ∧
  (fval (to_f64 s) * inject_Z (2 ^ 32) == inject_Z s)%Q.
Proof.
  intros Hs H1 H2. unfold to_f64.
  rewrite (proj2 (Z.eqb_neq _ _) H1), (proj2 (Z.eqb_neq _ _) H2).
  destruct (of_Z_exact (F:=F64) s Hs) as [Fs Es].
  assert (Hnz : ¬ (fval SCALE == 0)%Q) by (rewrite fval_SCALE; done).
  pose proof (fdiv_rnd (of_Z s) SCALE (of_Z_valid s) (of_Z_valid _) Fs eq_refl Hnz) as Hr.
  destruct (int_rep (F:=F64) s (-32) Hs ltac:(done)) as (sg & M & E & Hrep & Ev).
  assert (Hx : (fval (of_Z s) / fval SCALE == inject_Z s * bpow (-32))%Q).
  { rewrite Es, fval_SCALE. change (bpow (-32)) with (1 # 4294967296)%Q.
    change (inject_Z (2 ^ 32)) with (4294967296 # 1)%Q. field. }
  pose proof (rnd_Proper _ _ _ Hx Hr) as Hr'.
  assert (Hb : (- bpow 1024 < inject_Z s * bpow (-32) < bpow 1024)%Q).
  { change (bpow (-32)) with (1 # 4294967296)%Q.
    assert (inject_Z (- 2 ^ 53) <= inject_Z s <= inject_Z (2 ^ 53))%Q as [B1 B2]
      by (rewrite <-!Zle_Qle; lia).
    assert (inject_Z (2 ^ 53) < bpow 1024)%Q by done.
    assert (- bpow 1024 < inject_Z (- 2 ^ 53))%Q by done. set (b := bpow 1024) in *. clearbody b.
    split; lra. }
  destruct (rnd_exact _ _ _ _ _ Hr' Hrep Ev) as [[G1 G2]|[(_ & _ & G)|(_ & _ & G)]].
  - split; [by apply (rnd_valid _ _ Hr)|]. split; [done|]. rewrite G2.
    change (bpow (-32)) with (1 # 4294967296)%Q.
    change (inject_Z (2 ^ 32)) with (4294967296 # 1)%Q. field.
  - exfalso. change emax with 1024 in G. destruct Hb. by apply (Qlt_not_le _ _ H0).
  - exfalso. change emax with 1024 in G. destruct Hb. by apply (Qlt_not_le _ _ H).
Qed.

Lemma score_f64_roundtrip_aux s : Z.abs s ≤ 2 ^ 53 → from_f64 (to_f64 s) = s.
Proof.
  intros Hs. assert (Hmax : s ≠ MAX) by (unfold MAX, I64_MAX; lia).
  assert (Hninf : s ≠ NEG_INF) by (unfold NEG_INF, I64_MIN; lia).
  destruct (to_f64_exact s Hs Hmax Hninf) as (V & Ff & E). rewrite from_f64_spec_aux by done.
  rewrite (Qround_away_comp _ _ E), Qround_away_inject. apply clampZ_id.
  unfold NEG_INF, MAX, I64_MAX, I64_MIN. lia.
Qed.

(** A score whose magnitude fits the 53 bits of an [f64], and both infinite
    scores, survive the conversion to [f64] and back. *)
Theorem score_f64_roundtrip s :
  Z.abs s ≤ 2 ^ 53 ∨ score_is_infinite s = true → from_f64 (to_f64 s) = s.
Proof.
  intros [Hs|Hs]; [by apply score_f64_roundtrip_aux|].
  unfold score_is_infinite in Hs. apply orb_true_iff in Hs as [Hs|Hs];
    by apply Z.eqb_eq in Hs as ->.
Qed.

Theorem score_f64_roundtrip_witness :
  from_f64 (to_f64 (2 ^ 53)) = 2 ^ 53 ∧ from_f64 (to_f64 (2 ^ 53 + 1)) ≠ 2 ^ 53 + 1.
Proof.
  split; [apply (score_f64_roundtrip (2 ^ 53)); left; vm_compute; discriminate|].
  vm_compute. discriminate.
Defined.

(** ** The reachable range *)

Lemma from_arithmetic_raw_clamp n : from_arithmetic_raw n = clamp_score n.
Proof.
  unfold from_arithmetic_raw, clamp_score, clampZ. pose proof MAX_ge_NEG_INF.
  destruct (Z.leb_spec MAX n); [lia|]. destruct (Z.leb_spec n NEG_INF); lia.
Qed.

Lemma clamp_score_reachable n : reachable (clamp_score n).
Proof. apply clampZ_bounds. done. Qed.

Lemma from_arithmetic_raw_reachable n : reachable (from_arithmetic_raw n).
Proof. rewrite from_arithmetic_raw_clamp. apply clamp_score_reachable. Qed.

Lemma foldl_max_spec l s : Forall (λ t, t ≤ foldl Z.max s l) (s :: l) ∧ foldl Z.max s l ∈ s :: l.
Proof.
  revert s. induction l as [|t l IH]; intros s; simpl; [split; [by repeat constructor|set_solver]|].
  destruct (IH (Z.max s t)) as [H1 H2]. apply Forall_cons in H1 as [H1 H1'].
  split; [repeat constructor; [lia|lia|done]|].
  apply elem_of_cons in H2 as [H2|H2]; [|set_solver]. rewrite H2.
  destruct (Z.max_spec s t) as [[_ ->]|[_ ->]]; set_solver.
Qed.

Lemma foldl_min_spec l s : Forall (λ t, foldl Z.min s l ≤ t) (s :: l) ∧ foldl Z.min s l ∈ s :: l.
Proof.
  revert s. induction l as [|t l IH]; intros s; simpl; [split; [by repeat constructor|set_solver]|].
  destruct (IH (Z.min s t)) as [H1 H2]. apply Forall_cons in H1 as [H1 H1'].
  split; [repeat constructor; [lia|lia|done]|].
  apply elem_of_cons in H2 as [H2|H2]; [|set_solver]. rewrite H2.
  destruct (Z.min_spec s t) as [[_ ->]|[_ ->]]; set_solver.
Qed.

Lemma weighted_acc_Err acc i l e :
  weighted_acc acc i l = Err e ↔
  ∃ j, e = NonFiniteWeight (i + j) ∧ (∃ p, l !! j = Some p ∧ is_finite p.2 = false) ∧
       ∀ k p, (k < j)%nat → l !! k = Some p → is_finite p.2 = true.
Proof.
  revert acc i. induction l as [|[s w] l IH]; intros acc i; simpl.
  { split; [done|]. by intros (j & _ & (p & ? & _) & _). }
  destruct (is_finite w) eqn:Hw; simpl.
  - rewrite IH. split.
    + intros (j & -> & (p & Hp & Hf) & Hlt). exists (S j). split; [f_equal; lia|].
      split; [by exists p|]. intros [|k] q Hk Hq; simplify_eq/=; [done|]. eapply Hlt; [|done]. lia.
    + intros ([|j] & -> & (p & Hp & Hf) & Hlt); simplify_eq/=; [congruence|].
      exists j. split; [f_equal; lia|]. split; [by exists p|]. intros k q Hk Hq.
      apply (Hlt (S k) q); [lia|done].
  - split.
    + intros [= <-]. exists 0%nat. split; [f_equal; lia|]. split; [by exists (s, w)|]. lia.
    + intros ([|j] & -> & (p & Hp & Hf) & Hlt); [f_equal; f_equal; lia|].
      specialize (Hlt 0%nat (s, w) ltac:(lia) eq_refl). simpl in Hlt. congruence.
Qed.

(** No operation and no conversion produces the reserved sentinel [MIN]: all
    results lie between [NEG_INF] and [MAX], whatever [i64] values and floats
    they are given. *)
Theorem score_ops_reachable (a b n : Z) (x : f64) (l : list DeterministicScore) (w : list f64)
    (rank k : Z) :
  reachable (from_f64 x) ∧ reachable (score_add a b) ∧ reachable (score_sub a b) ∧
  reachable (score_mul a n) ∧ reachable (score_mul_f64 a x) ∧ reachable (score_div a n) ∧
  reachable (sum_scores l) ∧ reachable (avg_scores l) ∧ reachable (avg_scores_checked l).1 ∧
  (∀ s, weighted_sum l w = Ok s → reachable s) ∧
  reachable (rrf_score rank k) ∧ reachable (rrf_score_zero_based rank k) ∧
  (i64 n → reachable (from_raw_saturating n)) ∧
  (∀ s, i64 n → from_raw_checked n = Some s → reachable s).
Proof.
  assert (Z0 : reachable ZERO) by done.
  assert (Hone : ∀ r, reachable (rrf_score_one_based r k)).
  { intros r. unfold rrf_score_one_based.
    destruct (checked_add_usize k r); [apply from_f64_reachable|done]. }
  split_and!; try apply from_arithmetic_raw_reachable.
  - apply from_f64_reachable.
  - unfold score_mul_f64. destruct (is_nan x); [done|]. apply from_rounded_arithmetic_reachable.
  - unfold score_div. destruct (n =? 0); [|apply from_arithmetic_raw_reachable].
    destruct (a =? 0); [done|]. by destruct (0 <? a).
  - destruct l; [done|]. apply clamp_score_reachable.
  - destruct l; [done|]. apply clamp_score_reachable.
  - destruct l; [done|]. apply clamp_score_reachable.
  - intros s. unfold weighted_sum. destruct (negb _); [done|].
    intros (acc & _ & [= <-])%res_bind_Ok. apply clamp_score_reachable.
  - unfold rrf_score. destruct (checked_add_usize k rank) as [d|]; [|done].
    destruct (d =? 0); [done|]. apply from_f64_reachable.
  - unfold rrf_score_zero_based. destruct (checked_add_usize rank 1) as [r|]; [|done].
    destruct (r =? 0); [done|]. apply Hone.
  - unfold i64, reachable, from_raw_saturating, NEG_INF, MAX. intros Hn.
    destruct (Z.eqb_spec n I64_MIN); [done|lia].
  - unfold i64, reachable, from_raw_checked, NEG_INF, MAX. intros s Hn.
    destruct (Z.eqb_spec n I64_MIN); [done|]. intros [= <-]. lia.
Qed.

(** ** Aggregations *)

Lemma sumZ_foldr l : sumZ l = foldr Z.add 0 l.
Proof.
  unfold sumZ. cut (∀ a, foldl Z.add a l = a + foldr Z.add 0 l); [intros ->; lia|].
  induction l as [|x l IH]; intros a; simpl; [lia|]. rewrite IH. lia.
Qed.

Lemma sumZ_cons x l : sumZ (x :: l) = x + sumZ l.
Proof. by rewrite !sumZ_foldr. Qed.

Lemma sumZ_perm l l' : l ≡ₚ l' → sumZ l = sumZ l'.
Proof. rewrite !sumZ_foldr. induction 1; simpl; lia. Qed.

Lemma max_score_perm l l' : l ≡ₚ l' → max_score l = max_score l'.
Proof.
  intros Hp. destruct l as [|s l], l' as [|s' l'];
    [done|by apply Permutation_nil_cons in Hp|by symmetry in Hp; apply Permutation_nil_cons in Hp|].
  destruct (foldl_max_spec l s) as [H1 H2]. destruct (foldl_max_spec l' s') as [H1' H2'].
  rewrite Forall_forall in H1, H1'. simpl. apply Z.le_antisymm.
  - apply H1'. by rewrite <-Hp.
  - apply H1. by rewrite Hp.
Qed.

Lemma min_score_perm l l' : l ≡ₚ l' → min_score l = min_score l'.
Proof.
  intros Hp. destruct l as [|s l], l' as [|s' l'];
    [done|by apply Permutation_nil_cons in Hp|by symmetry in Hp; apply Permutation_nil_cons in Hp|].
  destruct (foldl_min_spec l s) as [H1 H2]. destruct (foldl_min_spec l' s') as [H1' H2'].
  rewrite Forall_forall in H1, H1'. simpl. apply Z.le_antisymm.
  - apply H1. by rewrite Hp.
  - apply H1'. by rewrite <-Hp.
Qed.

Lemma sum_scores_eq l : sum_scores l = clamp_score (sumZ l).
Proof. by destruct l. Qed.

(** Sums, means, their saturation flag, maxima and minima do not depend on
    the order of the scores; a sum is the exact sum clamped once. *)
Theorem aggregations_order_independent l l' :
  l ≡ₚ l' →
  sum_scores l = clampZ NEG_INF MAX (foldr Z.add 0 l) ∧
  sum_scores l = sum_scores l' ∧ avg_scores l = avg_scores l' ∧
  avg_scores_checked l = avg_scores_checked l' ∧
  max_score l = max_score l' ∧ min_score l = min_score l'.
Proof.
  intros Hp. split; [by rewrite sum_scores_eq, sumZ_foldr|].
  rewrite !sum_scores_eq, (sumZ_perm _ _ Hp), (max_score_perm _ _ Hp), (min_score_perm _ _ Hp).
  destruct l as [|s l], l' as [|s' l'];
    [done|by apply Permutation_nil_cons in Hp|by symmetry in Hp; apply Permutation_nil_cons in Hp|].
  assert (Ha : sumZ (Z.abs <$> s :: l) = sumZ (Z.abs <$> s' :: l'))
    by (apply sumZ_perm; by rewrite Hp).
  unfold avg_scores, avg_scores_checked.
  by rewrite (sumZ_perm _ _ Hp), (Permutation_length Hp), Ha.
Qed.

Theorem aggregations_order_independent_witness :
  sum_scores [MAX; MAX; -5] = MAX ∧ score_add (score_add MAX MAX) (-5) ≠ sum_scores [MAX; MAX; -5].
Proof.
  assert (Hp : [MAX; MAX; -5] ≡ₚ [-5; MAX; MAX]) by (apply (Permutation_app_comm [MAX; MAX] [-5])).
  destruct (aggregations_order_independent [MAX; MAX; -5] [-5; MAX; MAX] Hp) as (E & _).
  split; [rewrite E; reflexivity|]. vm_compute. discriminate.
Defined.

Lemma sumZ_bounds l lo hi :
  Forall (λ s, lo ≤ s ≤ hi) l →
  lo * Z.of_nat (length l) ≤ sumZ l ≤ hi * Z.of_nat (length l).
Proof.
  induction 1 as [|s l [H1 H2] _ IH]; [change (sumZ []) with 0; simpl; lia|]. rewrite sumZ_cons.
  simpl length. rewrite Nat2Z.inj_succ. lia.
Qed.

Lemma quot_bounds a n lo hi : 0 < n → lo * n ≤ a ≤ hi * n → lo ≤ Z.quot a n ≤ hi.
Proof.
  intros Hn [H1 H2]. split.
  - rewrite <-(Z.quot_mul lo n) by lia. by apply Z.quot_le_mono.
  - rewrite <-(Z.quot_mul hi n) by lia. by apply Z.quot_le_mono.
Qed.

Lemma score_range l : l ≠ [] → Forall (λ s, min_score l ≤ s ≤ max_score l) l ∧
  min_score l ∈ l ∧ max_score l ∈ l.
Proof.
  destruct l as [|s l]; [done|]. intros _.
  destruct (foldl_max_spec l s) as [H1 H2]. destruct (foldl_min_spec l s) as [H1' H2'].
  split; [|done]. rewrite Forall_forall in *. intros t Ht. split; [by apply H1'|by apply H1].
Qed.

(** A mean lies between the least and the greatest score; when the checked
    mean reports no saturation the sum of the scores is exact. *)
Theorem avg_scores_between l :
  l ≠ [] → Forall reachable l →
  min_score l ≤ avg_scores l ≤ max_score l ∧
  (avg_scores_checked l).1 = avg_scores l ∧
  ((avg_scores_checked l).2 = false → sum_scores l = foldr Z.add 0 l).
Proof.
  intros Hne Hr. destruct (score_range l Hne) as (Hb & Hmin & Hmax).
  rewrite Forall_forall in Hr. pose proof (Hr _ Hmin) as Rmin. pose proof (Hr _ Hmax) as Rmax.
  destruct l as [|s l]; [done|]. set (k := s :: l) in *.
  assert (Hlen : 0 < Z.of_nat (length k)) by (simpl; lia).
  pose proof (quot_bounds _ _ _ _ Hlen (sumZ_bounds _ _ _ Hb)) as Hq. unfold reachable in *.
  assert (Hclamp : avg_scores k = Z.quot (sumZ k) (Z.of_nat (length k))).
  { unfold k, avg_scores. fold k. apply clampZ_id. lia. }
  split; [by rewrite Hclamp|]. split; [done|].
  unfold k, avg_scores_checked. fold k. simpl snd. rewrite orb_false_iff. intros [Hm%Z.ltb_ge _].
  assert (Habs : Z.abs (sumZ k) ≤ sumZ (Z.abs <$> k)).
  { clear. induction k as [|t k IH]; [done|]. rewrite fmap_cons, !sumZ_cons. lia. }
  rewrite sum_scores_eq, <-sumZ_foldr. apply clampZ_id.
  assert (SATURATION_THRESHOLD ≤ MAX) by done.
  assert (NEG_INF ≤ - SATURATION_THRESHOLD) by done.
  change (sumZ (Z.abs <$> k) ≤ SATURATION_THRESHOLD) in Hm. lia.
Qed.

Theorem avg_scores_between_witness :
  min_score [7; -2; 0] ≤ avg_scores [7; -2; 0] ≤ max_score [7; -2; 0] ∧
  avg_scores [7; -2; 0] = 1.
Proof.
  split; [|reflexivity]. apply (avg_scores_between [7; -2; 0]); [done|].
  repeat constructor; done.
Defined.

(** ** Reciprocal ranks *)

Lemma of_Z_mono n m : n ≤ m → fle (of_Z n) (of_Z m) = true.
Proof.
  intros Hnm. destruct (Z.eq_dec n m) as [->|].
  - apply fle_refl. apply (rnd_valid _ _ (of_Z_rnd m)).
  - apply (rnd_mono (inject_Z n) (inject_Z m)); [rewrite <-Zlt_Qlt; lia|apply of_Z_rnd..].
Qed.

Lemma of_Z_denominator d :
  1 ≤ d ≤ 2 ^ 64 → is_finite (of_Z d) = true ∧ (1 <= fval (of_Z d))%Q.
Proof.
  intros [H1%of_Z_mono H2%of_Z_mono].
  assert (is_finite (of_Z d) = true) as Hf.
  { destruct (of_Z d) as [|[]| |] eqn:E; try done; vm_compute in H1, H2; done. }
  split; [done|]. rewrite fle_val, fval_1 in H1 by done. exact H1.
Qed.

Definition reciprocal (d : Z) : DeterministicScore := from_f64 (fdiv (of_Z 1) (of_Z d)).

Lemma reciprocal_rnd d :
  1 ≤ d ≤ 2 ^ 64 → rnd (1 / fval (of_Z d)) (fdiv (of_Z 1) (of_Z d)).
Proof.
  intros Hd. destruct (of_Z_denominator d Hd) as [Hf Hv].
  eapply rnd_Proper; [|apply (fdiv_rnd (of_Z 1) (of_Z d)); [done|apply of_Z_valid|done|done|lra]].
  by rewrite fval_1.
Qed.

Lemma Qinv_bounds v : (1 <= v)%Q → (0 <= 1 / v)%Q ∧ (1 / v <= 1)%Q.
Proof.
  intros Hv. split; [apply Qle_shift_div_l; lra|apply Qle_shift_div_r; lra].
Qed.

Lemma reciprocal_bounds d : 1 ≤ d ≤ 2 ^ 64 → 0 ≤ reciprocal d ≤ 2 ^ 32.
Proof.
  intros Hd. pose proof (reciprocal_rnd d Hd) as Hr. destruct (of_Z_denominator d Hd) as [_ Hv].
  destruct (Qinv_bounds _ Hv) as [B1 B2]. rewrite <-fval_1 in B2 at 2. unfold reciprocal.
  pose proof (rnd_ge _ _ (of_Z 0) Hr eq_refl eq_refl B1) as G1.
  pose proof (rnd_le _ _ (of_Z 1) Hr eq_refl eq_refl B2) as G2.
  destruct (rnd_valid _ _ Hr) as [V _].
  apply from_f64_le in G1; [|done..]. apply from_f64_le in G2; [|done..].
  split; [exact G1|exact G2].
Qed.

Lemma reciprocal_antitone d d' : 1 ≤ d ≤ d' → d' ≤ 2 ^ 64 → reciprocal d' ≤ reciprocal d.
Proof.
  intros Hd Hd'. assert (B : 1 ≤ d ≤ 2 ^ 64) by lia. assert (B' : 1 ≤ d' ≤ 2 ^ 64) by lia.
  destruct (of_Z_denominator d B) as [F1 V1]. destruct (of_Z_denominator d' B') as [F2 V2].
  assert (Hle : fle (of_Z d) (of_Z d') = true) by (apply of_Z_mono; lia).
  rewrite fle_val in Hle by done.
  pose proof (reciprocal_rnd d B) as R1. pose proof (reciprocal_rnd d' B') as R2. unfold reciprocal.
  destruct (Qle_lt_or_eq _ _ Hle) as [Hlt|Heq].
  - apply from_f64_le; [by apply (rnd_valid _ _ R2)|by apply (rnd_valid _ _ R1)|].
    eapply rnd_mono; [|exact R2|exact R1].
    apply Qlt_shift_div_l; [lra|]. apply Qmult_lt_r with (fval (of_Z d')); [lra|].
    assert (E : (1 / fval (of_Z d') * fval (of_Z d) * fval (of_Z d') == fval (of_Z d))%Q)
      by (field; lra).
    rewrite E. lra.
  - assert (of_Z d = of_Z d') as ->; [|done].
    apply valid_unique; [apply of_Z_valid..|done|done|done|lra].
Qed.

Lemma rrf_score_reciprocal r c :
  0 < c + r →
  rrf_score r c = if c + r <=? USIZE_MAX then reciprocal (c + r) else ZERO.
Proof.
  intros Hrc. unfold rrf_score, checked_add_usize.
  destruct (c + r <=? USIZE_MAX); [|done]. by destruct (Z.eqb_spec (c + r) 0); [lia|].
Qed.

Lemma rrf_score_bounds r c : 0 < c + r → 0 ≤ rrf_score r c ≤ 2 ^ 32.
Proof.
  intros Hrc. rewrite rrf_score_reciprocal by done. unfold USIZE_MAX, ZERO.
  destruct (Z.leb_spec (c + r) (2 ^ 64 - 1)); [apply reciprocal_bounds|]; lia.
Qed.

(** A reciprocal-rank score is a fraction of one, and a worse rank or a
    larger smoothing constant never scores higher, overflowing sums included. *)
Theorem rrf_score_antitone rank rank' k k' :
  0 ≤ rank ≤ rank' → 0 ≤ k ≤ k' → 0 < k + rank →
  0 ≤ rrf_score rank' k' ≤ rrf_score rank k ∧ rrf_score rank k ≤ 2 ^ 32.
Proof.
  intros Hr Hk Hpos. pose proof (rrf_score_bounds rank k Hpos).
  pose proof (rrf_score_bounds rank' k' ltac:(lia)).
  split; [|lia]. split; [lia|]. rewrite !rrf_score_reciprocal by lia. unfold USIZE_MAX, ZERO in *.
  destruct (Z.leb_spec (k' + rank') (2 ^ 64 - 1)) as [H1|H1].
  - rewrite (proj2 (Z.leb_le (k + rank) (2 ^ 64 - 1))) by lia. apply reciprocal_antitone; lia.
  - destruct (Z.leb_spec (k + rank) (2 ^ 64 - 1)) as [H2|H2]; [|lia].
    pose proof (reciprocal_bounds (k + rank) ltac:(lia)). lia.
Qed.

Theorem rrf_score_antitone_witness :
  rrf_score 1 60 = 70409300 ∧ 0 ≤ rrf_score 2 60 ≤ rrf_score 1 60 ∧ rrf_score 1 60 ≤ 2 ^ 32.
Proof.
  split; [vm_compute; reflexivity|]. apply (rrf_score_antitone 1 2 60 60); lia.
Defined.

(** ** Weighted sums *)

(** The contribution of one score: an exact product, truncated once. *)
Definition weighted_term (p : DeterministicScore * f64) : Z :=
  Z.quot (p.1 * from_f64 p.2) SCALE_RAW.

Lemma weighted_acc_Ok acc i l r :
  weighted_acc acc i l = Ok r ↔
  Forall (λ p, is_finite p.2 = true) l ∧ r = acc + sumZ (weighted_term <$> l).
Proof.
  revert acc i. induction l as [|[s w] l IH]; intros acc i; simpl.
  { change (sumZ []) with 0. split; [intros [= <-]; split; [done|lia]|].
    intros [_ ->]. f_equal. lia. }
  rewrite Forall_cons. simpl. destruct (is_finite w); simpl; [|naive_solver].
  rewrite IH. change (list_fmap _ _ ?f ?l) with (f <$> l). rewrite sumZ_cons.
  unfold weighted_term at 2. simpl. split; intros H; (split; [naive_solver|]); destruct H; lia.
Qed.

(** A weighted sum refuses slices of different lengths and the first weight
    that is not finite; otherwise it is the clamped sum of the truncated
    fixed-point products. *)
Theorem weighted_sum_spec scores weights :
  weighted_sum scores weights =
    if negb (length scores =? length weights)%nat
    then Err (LengthMismatch "scores and weights must have same length"
                (length scores) (length weights))
    else match list_find (λ w : f64, is_finite w = false) weights with
         | Some (i, _) => Err (NonFiniteWeight i)
         | None => Ok (clampZ NEG_INF MAX (sumZ (weighted_term <$> zip scores weights)))
         end.
Proof.
  unfold weighted_sum. destruct (Nat.eqb_spec (length scores) (length weights)) as [Hl|]; [|done].
  simpl negb. cbv iota.
  assert (Hsnd : ∀ j w, weights !! j = Some w → ∃ s, zip scores weights !! j = Some (s, w)).
  { intros j w Hj. destruct (lookup_lt_is_Some_2 scores j) as [s Hs].
    { rewrite Hl. by eapply lookup_lt_Some. }
    exists s. by apply lookup_zip_Some. }
  destruct (list_find (λ w : f64, is_finite w = false) weights) as [[i w]|] eqn:Hfind.
  - apply (list_find_Some (λ w : f64, is_finite w = false)) in Hfind as (Hi & Hw & Hlt).
    assert (weighted_acc 0 0 (zip scores weights) = Err (NonFiniteWeight i)) as ->; [|done].
    apply weighted_acc_Err. exists i. split; [done|]. destruct (Hsnd i w Hi) as [s Hs].
    split; [by exists (s, w)|]. intros k p Hk Hp. destruct p as [s' w'].
    apply lookup_zip_Some in Hp as [_ Hp]. apply not_false_iff_true. eapply Hlt; eauto.
  - apply (list_find_None (λ w : f64, is_finite w = false)) in Hfind.
    assert (weighted_acc 0 0 (zip scores weights) =
      Ok (0 + sumZ (weighted_term <$> zip scores weights))) as ->; [|done].
    apply weighted_acc_Ok. split; [|done]. apply Forall_forall. intros [s w] Hin.
    apply elem_of_zip_r in Hin. rewrite Forall_forall in Hfind.
    by apply not_false_iff_true, Hfind.
Qed.

(** ** Orders *)

Section orders.
Context {T : Type} `{OrdLaws T}.

Lemma Qcompare_Comparator : Comparator Qcompare.
Proof.
  split.
  - intros a b. symmetry. apply Qcompare_antisym.
  - intros a b c. unfold le_by. intros H1 H2. rewrite <-Qle_alt in *. by eapply Qle_trans.
Qed.

(** The keys by which [total_cmp] orders: the infinities outside, values, signs. *)
Definition class_key (x : f64) : Z :=
  match x with S754_infinity s => if s then -1 else 1 | _ => 0 end.
Definition nan_key (x : f64) : Z := if is_nan x then 1 else 0.
Definition sign_key (x : f64) : Z := if sign_bit x then 0 else 1.

Definition key_cmp (x y : f64) : comparison :=
  then_cmp (cmp (nan_key x) (nan_key y))
    (then_cmp (cmp (class_key y) (class_key x))
      (then_cmp (fval y ?= fval x)%Q (cmp (sign_key y) (sign_key x)))).

#[export] Instance key_cmp_Comparator : Comparator key_cmp.
Proof.
  unfold key_cmp. apply then_cmp_Comparator; [apply (key_Comparator nan_key cmp)|].
  apply then_cmp_Comparator; [eapply @reverse_Comparator, (key_Comparator class_key cmp)|].
  apply then_cmp_Comparator; [|eapply @reverse_Comparator, (key_Comparator sign_key cmp)].
  eapply @reverse_Comparator, @key_Comparator, Qcompare_Comparator.
Qed.

Lemma cmp_desc_f64_key (a b : f64) (i j : T) :
  cmp_desc_then_id_f64 a i b j = then_cmp (key_cmp a b) (cmp i j).
Proof.
  unfold cmp_desc_then_id_f64, key_cmp. f_equal.
  destruct a as [[]|[]| |[] m e], b as [[]|[]| |[] m' e']; try reflexivity;
    unfold total_cmp; cbn [is_nan nan_key class_key sign_key sign_bit fcmp default cmp then_cmp
      Z_Ord Z.compare]; try reflexivity; by destruct (_ ?= _)%Q.
Qed.

Lemma key_cmp_Eq (a b : f64) :
  valid a → valid b → key_cmp a b = Eq ↔ a = b.
Proof.
  intros Va Vb. split; [|intros ->].
  - unfold key_cmp, then_cmp. intros Heq.
    destruct (cmp (nan_key a) (nan_key b)) eqn:E1; try done. apply cmp_eq in E1.
    destruct (cmp (class_key b) (class_key a)) eqn:E2; try done. apply cmp_eq in E2.
    destruct (fval b ?= fval a)%Q eqn:E3; try done. apply cmp_eq in Heq. apply Qeq_alt in E3.
    destruct (is_finite a) eqn:Fa, (is_finite b) eqn:Fb.
    + destruct (Qeq_dec (fval a) 0) as [Ez|Hnz].
      * assert (Hzero : ∀ x, is_finite x = true → (fval x == 0)%Q → ∃ s, x = S754_zero s).
        { intros x Fx Hx. apply is_finite_cases in Fx as [[s ->]|(s & m & e & ->)]; [eauto|].
          by destruct (fval_nonzero s m e). }
        destruct (Hzero a Fa Ez) as [s ->]. rewrite Ez in E3.
        destruct (Hzero b Fb E3) as [s' ->]. by destruct s, s'.
      * apply valid_unique; try done; by symmetry.
    + by destruct a as [|[]| |], b as [|[]| |].
    + by destruct a as [|[]| |], b as [|[]| |].
    + by destruct a as [|[]| |], b as [|[]| |].
  - unfold key_cmp. by rewrite !cmp_refl, (proj1 (Qeq_alt (fval b) (fval b)) (Qeq_refl _)).
Qed.

(** Raw scores are ordered by a total preorder that separates distinct
    entries: higher scores first, every NaN last, ties by identifier. *)
Theorem cmp_desc_then_id_f64_spec :
  Comparator (λ p q : f64 * T, cmp_desc_then_id_f64 p.1 p.2 q.1 q.2) ∧
  ∀ (a b : f64) (i j : T), valid a → valid b →
    (cmp_desc_then_id_f64 a i b j = Eq ↔ a = b ∧ i = j) ∧
    (is_nan a = false → is_nan b = true → cmp_desc_then_id_f64 a i b j = Lt) ∧
    (flt b a = true → cmp_desc_then_id_f64 a i b j = Lt).
Proof.
  split.
  - eassert (Comparator (λ p q : f64 * T, then_cmp (key_cmp p.1 q.1) (cmp p.2 q.2))) as [H1 H2].
    { apply then_cmp_Comparator; [apply (key_Comparator fst), _|apply (key_Comparator snd), _]. }
    split.
    + intros p q. rewrite !cmp_desc_f64_key. apply (H1 p q).
    + intros p q r. unfold le_by in *. rewrite !cmp_desc_f64_key. apply (H2 p q r).
  - intros a b i j Va Vb. split; [|split].
    + rewrite cmp_desc_f64_key. unfold then_cmp. rewrite <-(key_cmp_Eq a b) by done.
      rewrite <-(cmp_Eq_iff i j). destruct (key_cmp a b); naive_solver.
    + intros Ha Hb. unfold cmp_desc_then_id_f64. by rewrite Ha, Hb.
    + unfold cmp_desc_then_id_f64, total_cmp, flt. intros Hlt.
      destruct (fcmp b a) as [[]|] eqn:E; try done.
      assert (is_nan a = false ∧ is_nan b = false) as [-> ->] by
        (by destruct a as [|[]| |], b as [|[]| |]). done.
Qed.

#[export] Instance cmp_desc_Comparator :
  Comparator (λ p q : T * DeterministicScore, cmp_desc_then_id p.2 p.1 q.2 q.1).
Proof.
  unfold cmp_desc_then_id. apply then_cmp_Comparator.
  - eapply @reverse_Comparator, (key_Comparator snd cmp).
  - apply (key_Comparator fst cmp).
Qed.

(** Among fixed-point scores the three orders agree: ascending, descending
    and heap order are total, separate distinct entries, and rank the higher
    score first with the lower identifier winning ties. *)
Theorem score_orders_agree (a b : DeterministicScore) (i j : T) :
  (cmp_desc_then_id a i b j = Eq ↔ a = b ∧ i = j) ∧
  (cmp_desc_then_id a i b j = Lt ↔ b < a ∨ a = b ∧ cmp i j = Lt) ∧
  cmp_desc_then_id b j a i = CompOpp (cmp_desc_then_id a i b j) ∧
  Ranked_cmp {| score := a; id := i |} {| score := b; id := j |} =
    CompOpp (cmp_desc_then_id a i b j) ∧
  cmp_asc_then_id a i b j = (if a =? b then cmp_desc_then_id a i b j
                             else CompOpp (cmp_desc_then_id a i b j)).
Proof.
  unfold cmp_desc_then_id, Ranked_cmp, cmp_asc_then_id, then_cmp. simpl.
  rewrite (cmp_flip i j). change (@cmp DeterministicScore _) with Z.compare.
  pose proof (cmp_Eq_iff i j) as Heq. rewrite (Z.compare_antisym a b).
  destruct (Z.compare_spec a b) as [->|Hlt|Hlt]; simpl.
  - rewrite Z.eqb_refl. destruct (cmp i j); simpl; split_and!; naive_solver lia.
  - rewrite (proj2 (Z.eqb_neq a b)) by lia. split_and!; naive_solver lia.
  - rewrite (proj2 (Z.eqb_neq a b)) by lia. split_and!; naive_solver lia.
Qed.
End orders.

(** ** The fixed-point band *)

(** The fixed band keeps the number and the order of the scores and maps
    them into [0, 1], the least to zero and the greatest to one (all to one when
    they are equal). *)
Theorem min_max_band_fixed_spec l i j s t :
  Forall i64 l → l !! i = Some s → l !! j = Some t →
  length (min_max_band_fixed l) = length l ∧
  ∃ a b, min_max_band_fixed l !! i = Some a ∧ min_max_band_fixed l !! j = Some b ∧
    0 ≤ a ≤ 2 ^ 32 ∧ (s ≤ t → a ≤ b) ∧
    (t = max_score l → b = 2 ^ 32) ∧ (s = min_score l → min_score l < max_score l → a = 0).
Proof.
  intros Hi64 Hi Hj. assert (Hne : l ≠ []) by (by intros ->).
  destruct (score_range l Hne) as (Hb & Hmin & Hmax). rewrite Forall_forall in Hb, Hi64.
  pose proof (Hb s (list_elem_of_lookup_2 _ _ _ Hi)) as Bs.
  pose proof (Hb t (list_elem_of_lookup_2 _ _ _ Hj)) as Bt.
  pose proof (Hi64 _ Hmin) as Imin. pose proof (Hi64 _ Hmax) as Imax.
  destruct l as [|x l]; [done|]. unfold min_max_band_fixed.
  change (foldl Z.min x l) with (min_score (x :: l)). change (foldl Z.max x l) with (max_score (x :: l)).
  set (k := x :: l) in *. set (lo := min_score k) in *. set (hi := max_score k) in *.
  clearbody k lo hi. destruct (Z.leb_spec (hi - lo) 0) as [Hspan|Hspan].
  - rewrite length_replicate. split; [done|]. exists SCALE_RAW, SCALE_RAW.
    rewrite !lookup_replicate_2 by (by eapply lookup_lt_Some). unfold SCALE_RAW. split_and!; try done; lia.
  - rewrite length_fmap. split; [done|]. rewrite !list_lookup_fmap, Hi, Hj.
    eexists _, _. split; [done|]. split; [done|]. cbv beta zeta. unfold from_raw.
    assert (Hq : ∀ u, lo ≤ u ≤ hi → 0 ≤ Z.quot ((u - lo) * SCALE_RAW) (hi - lo) ≤ 2 ^ 32).
    { intros u Hu. apply quot_bounds; [lia|]. unfold SCALE_RAW. nia. }
    pose proof (Hq s Bs) as Qs. pose proof (Hq t Bt) as Qt.
    assert (HI : 2 ^ 32 ≤ I64_MAX) by done. rewrite !clampZ_id by lia.
    split; [by apply Hq|]. split; [|split].
    + intros Hst. apply Z.quot_le_mono; [lia|]. unfold SCALE_RAW. nia.
    + intros ->. rewrite Z.mul_comm, Z.quot_mul by lia. done.
    + intros -> _. rewrite Z.sub_diag. simpl. apply Z.quot_0_l. lia.
Qed.

Theorem min_max_band_fixed_spec_witness :
  min_max_band_fixed [I64_MIN; 0; I64_MAX] = [0; 2147483648; 2 ^ 32] ∧
  length (min_max_band_fixed [I64_MIN; 0; I64_MAX]) = 3%nat.
Proof.
  split; [vm_compute; reflexivity|].
  apply (min_max_band_fixed_spec [I64_MIN; 0; I64_MAX] 0 1 I64_MIN 0); [|done|done].
  repeat constructor; done.
Defined.

Theorem cmp_desc_then_id_f64_spec_witness :
  cmp_desc_then_id_f64 (of_Z 1) 7%nat (S754_zero true) 3%nat = Lt ∧
  cmp_desc_then_id_f64 (of_Z 1) 7%nat S754_nan 3%nat = Lt.
Proof.
  destruct (cmp_desc_then_id_f64_spec (T:=nat)) as [_ Hs].
  split; [vm_compute; reflexivity|].
  destruct (Hs (of_Z 1) S754_nan 7%nat 3%nat (of_Z_valid 1) eq_refl) as (_ & Hnan & _).
  by apply Hnan.
Defined.

Theorem score_orders_agree_witness :
  cmp_desc_then_id 5 1%nat 5 2%nat = Lt ∧
  Ranked_cmp {| score := 5; id := 1%nat |} {| score := 5; id := 2%nat |} = Gt.
Proof.
  destruct (score_orders_agree 5 5 1%nat 2%nat) as (_ & Hlt & _ & Hr & _).
  assert (E : cmp_desc_then_id 5 1%nat 5 2%nat = Lt) by reflexivity.
  split; [exact E|]. rewrite Hr, E. reflexivity.
Defined.
