(* ===== verification/UnitScore.v ===== *)
(** khive-score/src/arithmetic_error.rs, unit_score.rs and decay.rs: checked
    unit-interval scores, the scalar helpers in both precisions, and scalar decay
    with its validated parameters. *)

From Stdlib Require Import ZArith QArith Qpower Qround Lqa Lia String SpecFloat.
From stdpp Require Import base tactics list numbers strings.
From S2P Require Import Prelude RustStr Rounding Float Score.

Open Scope Z_scope.

(** ** [ArithmeticError] *)

Inductive ArithmeticError : Type :=
| NonFinite (parameter : string)
| OutOfRange (parameter : string)
| Overflow (operation : string)
| InvalidBounds
| EmptyWeights
| NoPositiveWeight
| DuplicateKey.

(** [impl fmt::Display for ArithmeticError] *)
Definition ArithmeticError_fmt (self : ArithmeticError) : string :=
  match self with
  | NonFinite parameter => parameter +:+ " must be finite"
  | OutOfRange parameter => parameter +:+ " is outside its valid range"
  | Overflow operation => operation +:+ " produced a nonfinite intermediate"
  | InvalidBounds => "lower bound exceeds upper bound"
  | EmptyWeights => "weight sequence must not be empty"
  | NoPositiveWeight => "weight sequence needs a positive weight"
  | DuplicateKey => "declared feature keys must be unique"
  end.

(** ** Scalar helpers, in either precision *)

Section scalar_helpers.
Context {F : Format}.

(** The loop over named parameters. *)
Definition require_all_finite (l : list (string * float)) : result unit ArithmeticError :=
  try_each (λ pv, if negb (is_finite pv.2) then Err (NonFinite pv.1) else Ok ()) l.

(** A checked intermediate. *)
Definition checked (value : float) (operation : string) : result float ArithmeticError :=
  if negb (is_finite value) then Err (Overflow operation) else Ok value.

Definition boost_factor (weight x : float) : result float ArithmeticError :=
  check? require_all_finite [("weight", weight); ("x", x)] in
  let? product := checked (fmul weight x) "boost product" in
  checked (fadd (of_Z 1) product) "boost sum".

Definition half : float := fdiv (of_Z 1) (of_Z 2).

Definition affine_clamped (mean weight lo hi : float) : result float ArithmeticError :=
  check? require_all_finite [("mean", mean); ("weight", weight); ("lo", lo); ("hi", hi)] in
  if flt hi lo then Err InvalidBounds
  else
    let? centered := checked (fsub mean half) "affine subtraction" in
    let? product := checked (fmul weight centered) "affine product" in
    let? result := checked (fadd (of_Z 1) product) "affine sum" in
    Ok (fclamp result lo hi).
End scalar_helpers.

#[local] Existing Instance F64.

(** ** [UnitScore] *)

(** [UnitScore(f64)] *)
Definition UnitScore : Type := f64.

Definition one : f64 := of_Z 1.
Definition zero64 : f64 := of_Z 0.

Definition UNIT_ZERO : UnitScore := zero64.
Definition UNIT_ONE : UnitScore := one.

Definition unit_wf (u : UnitScore) : Prop := valid u ∧ fle zero64 u = true ∧ fle u one = true.

(** [(lo..=hi).contains(&value)] *)
Definition contains (lo hi value : f64) : bool := fle lo value && fle value hi.

Definition UnitScore_try_new (value : f64) : result UnitScore ArithmeticError :=
  if negb (is_finite value) then Err (NonFinite "value")
  else if negb (contains zero64 one value) then Err (OutOfRange "value")
  else Ok value.

Definition from_fraction_or_percent (value : f64) : result UnitScore ArithmeticError :=
  if negb (is_finite value) then Err (NonFinite "value")
  else if negb (contains zero64 (of_Z 100) value) then Err (OutOfRange "value")
  else UnitScore_try_new (if fle value one then value else fdiv value (of_Z 100)).

Definition clamp01 (value : f64) : result UnitScore ArithmeticError :=
  if negb (is_finite value) then Err (NonFinite "value")
  else Ok (fclamp value zero64 one).

Definition UnitScore_boost (self : UnitScore) (weight x : f64) : result UnitScore ArithmeticError :=
  let? factor := boost_factor weight x in
  let result := fmul self factor in
  if negb (is_finite result) then Err (Overflow "unit boost") else clamp01 result.

Definition score_of_unit (value : UnitScore) : DeterministicScore := from_f64 value.

Definition unit_of_score (value : DeterministicScore) : result UnitScore ArithmeticError :=
  if negb ((0 <=? value) && (value <=? 4294967296)) then Err (OutOfRange "score")
  else UnitScore_try_new (to_f64 value).

(** ** Decay *)

(** The elementary functions of the platform's mathematical library. *)
Class Libm := { exp : f64 → f64; powf : f64 → f64 → f64 }.

(** What decay relies on: a nonpositive exponent gives a factor in [0, 1]. *)
Class LibmLaws `{Libm} := {
  exp_unit x : valid x → fle x zero64 = true → unit_wf (exp x);
  powf2_unit x : valid x → fle x zero64 = true → unit_wf (powf (of_Z 2) x)
}.

(** [HalfLife(f64)] *)
Definition HalfLife : Type := f64.

Definition require_finite (value : f64) (parameter : string) : result unit ArithmeticError :=
  if is_finite value then Ok () else Err (NonFinite parameter).

Definition HalfLife_try_new (value : f64) : result HalfLife ArithmeticError :=
  check? require_finite value "half_life" in
  if fle value zero64 then Err (OutOfRange "half_life") else Ok value.

(** [DecayParameter(DecayParameterKind)] *)
Inductive DecayParameter : Type :=
| Rate (rate : f64)
| HalfLifeOf (half_life : HalfLife).

Definition try_from_rate (rate : f64) : result DecayParameter ArithmeticError :=
  check? require_finite rate "rate" in
  if flt rate zero64 then Err (OutOfRange "rate") else Ok (Rate rate).

Inductive Decay : Type :=
| Exponential (p : DecayParameter)
| Hyperbolic (p : DecayParameter)
| PowerLaw (half_life : HalfLife)
| NoDecay.

Definition exponential (rate : f64) : result Decay ArithmeticError :=
  let? p := try_from_rate rate in Ok (Exponential p).

Definition hyperbolic (rate : f64) : result Decay ArithmeticError :=
  let? p := try_from_rate rate in Ok (Hyperbolic p).

Section decay.
Context `{Libm}.

Definition Decay_apply (self : Decay) (value elapsed : f64) : result f64 ArithmeticError :=
  check? require_finite value "value" in
  check? require_finite elapsed "elapsed" in
  if fle elapsed zero64 || feq value zero64 then Ok value
  else Ok (match self with
    | Exponential (Rate rate) =>
        if feq rate zero64 then value else fmul value (exp (fmul (fneg rate) elapsed))
    | Exponential (HalfLifeOf half_life) =>
        fmul value (powf (of_Z 2) (fdiv (fneg elapsed) half_life))
    | Hyperbolic (Rate rate) =>
        if feq rate zero64 then value else fdiv value (fadd one (fmul rate elapsed))
    | Hyperbolic (HalfLifeOf half_life) =>
        fdiv value (fadd one (fdiv elapsed half_life))
    | PowerLaw h =>
        let numerator := fmul value h in
        let denominator := fadd h elapsed in
        if is_finite numerator && is_finite denominator then fdiv numerator denominator
        else fdiv value (fadd one (fdiv elapsed h))
    | NoDecay => value
    end).

Definition Decay_factor (self : Decay) (elapsed : f64) : result f64 ArithmeticError :=
  check? require_finite elapsed "elapsed" in
  if fle elapsed zero64 then Ok one
  else Ok (match self with
    | Exponential (Rate rate) => exp (fmul (fneg rate) elapsed)
    | Exponential (HalfLifeOf half_life) => powf (of_Z 2) (fdiv (fneg elapsed) half_life)
    | Hyperbolic (Rate rate) => fdiv one (fadd one (fmul rate elapsed))
    | Hyperbolic (HalfLifeOf half_life) => fdiv one (fadd one (fdiv elapsed half_life))
    | PowerLaw h =>
        let denominator := fadd h elapsed in
        if is_finite denominator then fdiv h denominator
        else fdiv one (fadd one (fdiv elapsed h))
    | NoDecay => one
    end).

Definition apply_unit (self : Decay) (value : UnitScore) (elapsed : f64) :
    result UnitScore ArithmeticError :=
  let? r := Decay_apply self value elapsed in UnitScore_try_new r.
End decay.

(** Validated parameters. *)
Definition half_life_wf (h : HalfLife) : Prop :=
  valid h ∧ is_finite h = true ∧ flt zero64 h = true.

Definition parameter_wf (p : DecayParameter) : Prop :=
  match p with
  | Rate rate => valid rate ∧ is_finite rate = true ∧ fle zero64 rate = true
  | HalfLifeOf h => half_life_wf h
  end.

Definition decay_wf (d : Decay) : Prop :=
  match d with
  | Exponential p | Hyperbolic p => parameter_wf p
  | PowerLaw h => half_life_wf h
  | NoDecay => True
  end.

(** ** Unit scores *)

Lemma one_fval : (fval one == 1)%Q.
Proof. apply fval_1. Qed.

Lemma unit_finite u : unit_wf u → is_finite u = true.
Proof. intros (_ & H1 & H2). by destruct u as [|[]| |]. Qed.

Lemma unit_wf_iff u :
  unit_wf u ↔ valid u ∧ is_finite u = true ∧ (0 <= fval u)%Q ∧ (fval u <= 1)%Q.
Proof.
  split.
  - intros Hu. pose proof (unit_finite u Hu) as Hf. destruct Hu as (V & H1 & H2).
    rewrite fle_val in H1, H2 by done. rewrite one_fval in H2. by split_and!.
  - intros (V & Hf & H1 & H2). split_and!; [done|by apply fle_val|].
    apply fle_val; [done..|]. by rewrite one_fval.
Qed.

Lemma unit_nonneg u : unit_wf u → nonneg u.
Proof. intros (V & H & _). by split. Qed.

Lemma unit_one : unit_wf one.
Proof. by apply unit_wf_iff. Qed.

Lemma UnitScore_try_new_Ok v u : UnitScore_try_new v = Ok u ↔ u = v ∧ is_finite v = true ∧
  fle zero64 v = true ∧ fle v one = true.
Proof.
  unfold UnitScore_try_new, contains. destruct (is_finite v); simpl; [|naive_solver].
  destruct (fle zero64 v), (fle v one); simpl; naive_solver.
Qed.

Lemma UnitScore_try_new_wf u : unit_wf u → UnitScore_try_new u = Ok u.
Proof.
  intros Hu. apply UnitScore_try_new_Ok. split_and!; [done|by apply unit_finite|apply Hu..].
Qed.

Lemma clamp01_Ok v u : valid v → clamp01 v = Ok u → unit_wf u.
Proof.
  intros V. unfold clamp01. destruct (is_finite v) eqn:Hf; [|done]. intros [= <-].
  destruct (fclamp_bounds v zero64 one) as [H1 H2]; [by destruct v|done|].
  split_and!; [|done..]. unfold fclamp. destruct (flt v zero64), (flt one _); done.
Qed.

Lemma percent_unit v :
  valid v → fle zero64 v = true → fle v (of_Z 100) = true → unit_wf (fdiv v (of_Z 100)).
Proof.
  intros V H1 H2. assert (Hf : is_finite v = true) by (by destruct v as [|[]| |]).
  assert (E100 : (fval (of_Z 100) == inject_Z 100)%Q) by (by apply fval_const).
  rewrite fle_val in H1, H2 by done. change (fval zero64) with 0%Q in H1.
  rewrite E100 in H2. change (inject_Z 100) with (100 # 1)%Q in *.
  assert (Hr : rnd (fval v / fval (of_Z 100)) (fdiv v (of_Z 100))).
  { apply fdiv_rnd; [done|apply of_Z_valid|done|done|]. rewrite E100. done. }
  assert (Hb : (0 <= fval v / fval (of_Z 100) <= 1)%Q).
  { rewrite E100. split; [apply Qle_shift_div_l|apply Qle_shift_div_r]; lra. }
  split_and!; [by apply (rnd_valid _ _ Hr)| |].
  - apply (rnd_ge _ _ zero64 Hr); [done..|apply Hb].
  - apply (rnd_le _ _ one Hr); [done..|]. rewrite one_fval. apply Hb.
Qed.

(** Every constructor of a unit score returns a value of the unit interval;
    a fraction or percentage is accepted exactly when it lies in [0, 100], and
    the checked constructor exactly on [0, 1], unchanged. *)
Theorem unit_constructors_wf v w x u0 :
  valid v → valid w → valid x → unit_wf u0 →
  (∀ u, UnitScore_try_new v = Ok u ↔ u = v ∧ unit_wf v) ∧
  ((∃ u, from_fraction_or_percent v = Ok u) ↔ fle zero64 v = true ∧ fle v (of_Z 100) = true) ∧
  (∀ u, from_fraction_or_percent v = Ok u → unit_wf u) ∧
  (∀ u, clamp01 v = Ok u → unit_wf u) ∧
  (∀ u, UnitScore_boost u0 w x = Ok u → unit_wf u).
Proof.
  intros Vv Vw Vx Hu0.
  assert (Hnew : ∀ u, UnitScore_try_new v = Ok u ↔ u = v ∧ unit_wf v).
  { intros u. rewrite UnitScore_try_new_Ok. split.
    - intros (-> & _ & H1 & H2). done.
    - intros [-> Hu]. split_and!; [done|by apply unit_finite|apply Hu..]. }
  assert (Hpct : ∀ u, from_fraction_or_percent v = Ok u ↔
    fle zero64 v = true ∧ fle v (of_Z 100) = true ∧
    u = (if fle v one then v else fdiv v (of_Z 100))).
  { intros u. unfold from_fraction_or_percent, contains.
    destruct (is_finite v) eqn:Hf; cbn [negb].
    2:{ split; [done|]. intros (H1 & H2 & _). by destruct v as [|[]| |]. }
    destruct (fle zero64 v) eqn:H1, (fle v (of_Z 100)) eqn:H2; cbn [andb negb];
      [|split; [discriminate|intros (? & ? & _); discriminate]..].
    assert (Hu : unit_wf (if fle v one then v else fdiv v (of_Z 100))).
    { destruct (fle v one) eqn:H3; [done|]. by apply percent_unit. }
    destruct (fle v one); rewrite (UnitScore_try_new_wf _ Hu);
      (split; [by intros [= <-]|by intros (_ & _ & ->)]). }
  split_and!.
  - exact Hnew.
  - split; [intros [u (H1 & H2 & _)%Hpct]; by split|]. intros [H1 H2]. eexists. by apply Hpct.
  - intros u (H1 & H2 & ->)%Hpct. destruct (fle v one) eqn:H3; [done|]. by apply percent_unit.
  - intros u. by apply clamp01_Ok.
  - intros u. unfold UnitScore_boost. intros (factor & Hfac & Hu)%res_bind_Ok.
    destruct (is_finite _); [|done]. simpl in Hu. eapply clamp01_Ok; [|exact Hu].
    apply fmul_valid; [apply Hu0|]. unfold boost_factor, checked in Hfac.
    apply res_bind_Ok in Hfac as ([] & _ & Hfac). apply res_bind_Ok in Hfac as (p & Hp & Hfac).
    destruct (is_finite (fmul w x)); [|done]. simpl in Hp. injection Hp as <-.
    destruct (is_finite (fadd _ _)); [|done]. simpl in Hfac. injection Hfac as <-.
    apply fadd_valid; [apply of_Z_valid|by apply fmul_valid].
Qed.

Theorem unit_constructors_wf_witness :
  from_fraction_or_percent (of_Z 75) = Ok (fdiv (of_Z 3) (of_Z 4)) ∧
  unit_wf (fdiv (of_Z 3) (of_Z 4)).
Proof.
  assert (E : from_fraction_or_percent (of_Z 75) = Ok (fdiv (of_Z 3) (of_Z 4)))
    by (vm_compute; reflexivity).
  destruct (unit_constructors_wf (of_Z 75) one one one (of_Z_valid _) (of_Z_valid _)
    (of_Z_valid _) unit_one) as (_ & _ & Hpct & _).
  split; [exact E|]. by apply Hpct.
Defined.

(** Fixed-point scores between zero and one correspond exactly to unit
    scores: the conversion to a unit score succeeds on just those, and converting
    back gives the score; unit scores convert into that range. *)
Theorem unit_score_roundtrip :
  (∀ s, i64 s → (∃ u, unit_of_score s = Ok u) ↔ 0 ≤ s ≤ 2 ^ 32) ∧
  (∀ s u, unit_of_score s = Ok u → unit_wf u ∧ score_of_unit u = s) ∧
  (∀ u, unit_wf u → 0 ≤ score_of_unit u ≤ 2 ^ 32).
Proof.
  assert (Hconv : ∀ s, 0 ≤ s ≤ 2 ^ 32 → unit_of_score s = Ok (to_f64 s) ∧ unit_wf (to_f64 s) ∧
    score_of_unit (to_f64 s) = s).
  { intros s Hs. assert (Hm : s ≠ MAX) by (unfold MAX, I64_MAX; lia).
    assert (Hn : s ≠ NEG_INF) by (unfold NEG_INF, I64_MIN; lia).
    destruct (to_f64_exact s ltac:(lia) Hm Hn) as (V & Ff & E).
    change (inject_Z (2 ^ 32)) with (4294967296 # 1)%Q in E.
    assert (Hu : unit_wf (to_f64 s)).
    { assert (inject_Z 0 <= inject_Z s <= inject_Z (2 ^ 32))%Q as [H1 H2] by (by rewrite <-!Zle_Qle).
      change (inject_Z 0) with 0%Q in H1. change (inject_Z (2 ^ 32)) with (4294967296 # 1)%Q in H2.
      apply unit_wf_iff. split_and!; try done; lra. }
    split_and!; [|done|apply score_f64_roundtrip_aux; lia].
    unfold unit_of_score. rewrite (proj2 (Z.leb_le 0 s)), (proj2 (Z.leb_le s 4294967296)) by lia.
    by apply UnitScore_try_new_wf. }
  assert (Hrange : ∀ s u, unit_of_score s = Ok u → 0 ≤ s ≤ 2 ^ 32).
  { intros s u. unfold unit_of_score.
    destruct (Z.leb_spec 0 s), (Z.leb_spec s 4294967296); simpl; done. }
  split_and!.
  - intros s _. split; [intros [u Hu]; by eapply Hrange|]. intros Hs.
    destruct (Hconv s Hs) as [E _]. eauto.
  - intros s u Hu. pose proof (Hrange s u Hu) as Hs. destruct (Hconv s Hs) as (E & Hw & Hb).
    rewrite E in Hu. injection Hu as <-. by split.
  - intros u (V & H1 & H2). apply from_f64_le in H1; [|done..].
    apply from_f64_le in H2; [|done..]. split; [exact H1|exact H2].
Qed.

(** ** Affine clamping *)

(** An accepted affine adjustment lies within its bounds, in either
    precision; it is refused exactly when an input is not finite, the bounds are
    crossed, or an intermediate overflows. *)
Theorem affine_clamped_spec {F : Format} (mean weight lo hi : float) :
  (∀ r, affine_clamped mean weight lo hi = Ok r → fle lo r = true ∧ fle r hi = true) ∧
  ((∃ r, affine_clamped mean weight lo hi = Ok r) ↔
    Forall (λ v, is_finite v = true)
      [mean; weight; lo; hi; fsub mean half; fmul weight (fsub mean half);
       fadd (of_Z 1) (fmul weight (fsub mean half))] ∧ fle lo hi = true).
Proof.
  unfold affine_clamped, require_all_finite, checked. simpl.
  rewrite !Forall_cons.
  destruct (is_finite mean) eqn:F1; simpl; [|naive_solver].
  destruct (is_finite weight) eqn:F2; simpl; [|naive_solver].
  destruct (is_finite lo) eqn:F3; simpl; [|naive_solver].
  destruct (is_finite hi) eqn:F4; simpl; [|naive_solver].
  assert (Hb : flt hi lo = negb (fle lo hi)).
  { apply eq_true_iff_eq. rewrite negb_true_iff, <-not_true_iff_false, flt_val, fle_val by done.
    split; [apply Qlt_not_le|apply Qnot_le_lt]. }
  rewrite Hb. destruct (fle lo hi) eqn:Hle; simpl; [|naive_solver].
  destruct (is_finite (fsub mean half)) eqn:F5; simpl; [|naive_solver].
  destruct (is_finite (fmul weight (fsub mean half))) eqn:F6; simpl; [|naive_solver].
  set (r := fadd _ _). destruct (is_finite r) eqn:F7; simpl; [|naive_solver].
  split; [|split; [intros _; by repeat constructor|eauto]].
  intros ? [= <-]. apply fclamp_bounds; [by destruct r|done].
Qed.

Theorem affine_clamped_spec_witness :
  affine_clamped (of_Z 3) (of_Z 2) zero64 (of_Z 2) = Ok (of_Z 2) ∧
  fle zero64 (of_Z 2) = true ∧ fle (of_Z 2) (of_Z 2) = true.
Proof.
  assert (E : affine_clamped (of_Z 3) (of_Z 2) zero64 (of_Z 2) = Ok (of_Z 2))
    by (vm_compute; reflexivity).
  split; [exact E|].
  destruct (affine_clamped_spec (of_Z 3) (of_Z 2) zero64 (of_Z 2)) as [Hb _]. by apply Hb.
Defined.

(** ** Decay *)

Lemma try_from_rate_wf rate p :
  valid rate → try_from_rate rate = Ok p → parameter_wf p.
Proof.
  intros V. unfold try_from_rate, require_finite. destruct (is_finite rate) eqn:Hf; [|done].
  cbn [res_bind]. destruct (flt rate zero64) eqn:Hlt; [done|]. intros [= <-]. split_and!; [done..|].
  by apply fle_total; [destruct rate| |].
Qed.

Lemma HalfLife_try_new_wf v h : valid v → HalfLife_try_new v = Ok h → half_life_wf h.
Proof.
  intros V. unfold HalfLife_try_new, require_finite. destruct (is_finite v) eqn:Hf; [|done].
  cbn [res_bind]. destruct (fle v zero64) eqn:Hle; [done|]. intros [= <-]. split_and!; [done..|].
  apply flt_val; [done..|]. apply Qnot_le_lt. rewrite <-fle_val by done. congruence.
Qed.

Lemma fmul_unit u v : unit_wf u → unit_wf v → unit_wf (fmul u v) ∧ fle (fmul u v) u = true.
Proof.
  intros Hu Hv. apply unit_wf_iff in Hu as (Vu & Fu & U0 & U1).
  apply unit_wf_iff in Hv as (Vv & Fv & V0 & V1).
  pose proof (fmul_rnd u v Vu Vv Fu Fv) as Hr.
  assert (Hle : fle (fmul u v) u = true) by (apply (rnd_le _ _ u Hr); [done..|nra]).
  split; [|done]. split_and!; [by apply fmul_valid| |].
  - apply (rnd_ge _ _ zero64 Hr); [done..|]. by apply Qmult_le_0_compat.
  - eapply fle_trans; [exact Hle|]. apply fle_val; [done..|]. by rewrite one_fval.
Qed.

Lemma fdiv_unit u d :
  unit_wf u → valid d → fle one d = true → unit_wf (fdiv u d) ∧ fle (fdiv u d) u = true.
Proof.
  intros Hu Vd Hd. pose proof (unit_finite u Hu) as Fu.
  destruct (fdiv_shrink u d (unit_nonneg u Hu) Fu Vd Hd) as [Hn Hle].
  split; [|done]. split_and!; [apply Hn..|]. eapply fle_trans; [exact Hle|apply Hu].
Qed.

(** A quotient of positive finite floats by a larger one. *)
Lemma fdiv_ratio_unit a b :
  nonneg a → is_finite a = true → valid b → is_finite b = true → (0 < fval b)%Q →
  (fval a <= fval b)%Q → unit_wf (fdiv a b).
Proof.
  intros Ha Fa Vb Fb Pb Hab. apply nonneg_cases in Ha as [Va [->|[_ Ha]]]; [done|].
  assert (Hr : rnd (fval a / fval b) (fdiv a b)) by (apply fdiv_rnd; [done..|lra]).
  split_and!; [by apply (rnd_valid _ _ Hr)| |].
  - apply (rnd_ge _ _ zero64 Hr); [done..|]. change (fval zero64) with 0%Q.
    apply Qle_shift_div_l; lra.
  - apply (rnd_le _ _ one Hr); [done..|]. rewrite one_fval. apply Qle_shift_div_r; lra.
Qed.

Section decay_facts.
Context `{LibmLaws}.

Lemma positive_elapsed elapsed :
  valid elapsed → is_finite elapsed = true → fle elapsed zero64 = false →
  nonneg elapsed ∧ (0 < fval elapsed)%Q.
Proof.
  intros V Hf Hle. assert (Hpos : (0 < fval elapsed)%Q).
  { apply Qnot_le_lt. change 0%Q with (fval zero64). rewrite <-fle_val by done. congruence. }
  split; [|done]. split; [done|]. apply fle_val; [done..|]. by apply Qlt_le_weak.
Qed.

Lemma rate_exponent rate elapsed :
  parameter_wf (Rate rate) → nonneg elapsed → is_finite elapsed = true →
  unit_wf (exp (fmul (fneg rate) elapsed)).
Proof.
  intros (Vr & Fr & Hr) Hn Fe. apply nonneg_cases in Hn as [Ve [->|[_ He]]]; [done|].
  rewrite fle_val in Hr by done. change (fval zero64) with 0%Q in Hr.
  assert (Fn : is_finite (fneg rate) = true) by (by destruct rate).
  pose proof (fmul_rnd (fneg rate) elapsed (fneg_valid _ Vr) Ve Fn Fe) as Hm.
  apply exp_unit; [by apply (rnd_valid _ _ Hm)|].
  apply (rnd_le _ _ zero64 Hm); [done..|]. rewrite fval_fneg. change (fval zero64) with 0%Q. nra.
Qed.

Lemma half_life_exponent h elapsed :
  half_life_wf h → nonneg elapsed → is_finite elapsed = true →
  unit_wf (powf (of_Z 2) (fdiv (fneg elapsed) h)).
Proof.
  intros (Vh & Fh & Hh) Hn Fe. apply nonneg_cases in Hn as [Ve [->|[_ He]]]; [done|].
  rewrite flt_val in Hh by done. change (fval zero64) with 0%Q in Hh.
  assert (Fn : is_finite (fneg elapsed) = true) by (by destruct elapsed).
  assert (Hd : rnd (fval (fneg elapsed) / fval h) (fdiv (fneg elapsed) h)).
  { apply fdiv_rnd; [by apply fneg_valid|done..|lra]. }
  apply powf2_unit; [by apply (rnd_valid _ _ Hd)|].
  apply (rnd_le _ _ zero64 Hd); [done..|]. rewrite fval_fneg. change (fval zero64) with 0%Q.
  apply Qle_shift_div_r; lra.
Qed.

(** Every denominator of the rational decays is at least one. *)
Lemma one_plus_ge y : nonneg y → valid (fadd one y) ∧ fle one (fadd one y) = true.
Proof.
  intros Hy. split; [apply fadd_valid; [done|apply Hy]|].
  by apply (fadd_ge one y (unit_nonneg _ unit_one)).
Qed.

Lemma rate_denominator rate elapsed :
  parameter_wf (Rate rate) → nonneg elapsed → is_finite elapsed = true →
  valid (fadd one (fmul rate elapsed)) ∧ fle one (fadd one (fmul rate elapsed)) = true.
Proof. intros (Vr & Fr & Hr) Hn Fe. by apply one_plus_ge, fmul_nonneg. Qed.

Lemma half_life_denominator h elapsed :
  half_life_wf h → nonneg elapsed → is_finite elapsed = true →
  valid (fadd one (fdiv elapsed h)) ∧ fle one (fadd one (fdiv elapsed h)) = true.
Proof.
  intros (Vh & Fh & Hh) Hn Fe. pose proof (flt_fle _ _ Hh) as Hle.
  rewrite flt_val in Hh by done. by apply one_plus_ge, fdiv_nonneg.
Qed.

Lemma half_life_sum h elapsed :
  half_life_wf h → nonneg elapsed → nonneg h ∧ nonneg (fadd h elapsed) ∧ fle h (fadd h elapsed) = true.
Proof.
  intros (Vh & Fh & Hh) Hn. assert (Nh : nonneg h) by (split; [done|by apply flt_fle]).
  split_and!; [done|by apply fadd_nonneg|by apply fadd_ge].
Qed.

Lemma half_life_pos h : half_life_wf h → (0 < fval h)%Q.
Proof. intros (Vh & Fh & Hh). by rewrite flt_val in Hh. Qed.

Lemma Decay_factor_unit d elapsed :
  decay_wf d → valid elapsed → is_finite elapsed = true →
  ∃ f, Decay_factor d elapsed = Ok f ∧ unit_wf f.
Proof.
  intros Hd Ve Fe. unfold Decay_factor, require_finite. rewrite Fe. cbn [res_bind].
  destruct (fle elapsed zero64) eqn:He; [eexists; split; [done|apply unit_one]|].
  destruct (positive_elapsed elapsed Ve Fe He) as [Ne Pe].
  eexists. split; [done|]. destruct d as [[rate|h]|[rate|h]|h|]; simpl in Hd.
  - by apply rate_exponent.
  - by apply half_life_exponent.
  - by apply fdiv_unit; [apply unit_one|apply rate_denominator..].
  - by apply fdiv_unit; [apply unit_one|apply half_life_denominator..].
  - destruct (half_life_sum h elapsed Hd Ne) as (Nh & Ns & Hs). pose proof (half_life_pos h Hd).
    destruct (is_finite (fadd h elapsed)) eqn:Fs.
    + rewrite fle_val in Hs by (done || apply Hd). apply fdiv_ratio_unit; [done|apply Hd|apply Ns|done| |done].
      lra.
    + by apply fdiv_unit; [apply unit_one|apply half_life_denominator..].
  - apply unit_one.
Qed.

Lemma Decay_apply_unit d value elapsed :
  decay_wf d → unit_wf value → valid elapsed → is_finite elapsed = true →
  ∃ r, Decay_apply d value elapsed = Ok r ∧ unit_wf r ∧
       match d with PowerLaw _ => True | _ => fle r value = true end.
Proof.
  intros Hd Hu Ve Fe. pose proof (unit_finite value Hu) as Fu.
  assert (Hrefl : fle value value = true) by (apply fle_refl; by destruct value).
  unfold Decay_apply, require_finite. rewrite Fe, Fu. cbn [res_bind].
  destruct (fle elapsed zero64) eqn:He; cbn [orb];
    [eexists; split_and!; [done|done|by destruct d]|].
  destruct (feq value zero64); [eexists; split_and!; [done|done|by destruct d]|].
  destruct (positive_elapsed elapsed Ve Fe He) as [Ne Pe].
  eexists. split; [done|]. destruct d as [[rate|h]|[rate|h]|h|]; simpl in Hd.
  - destruct (feq rate zero64); [done|]. by apply fmul_unit, rate_exponent.
  - by apply fmul_unit, half_life_exponent.
  - destruct (feq rate zero64); [done|]. by apply fdiv_unit; [|apply rate_denominator..].
  - by apply fdiv_unit; [|apply half_life_denominator..].
  - split; [|done]. destruct (half_life_sum h elapsed Hd Ne) as (Nh & Ns & Hs).
    pose proof (half_life_pos h Hd) as Ph. destruct Hd as (Vh & Fh & Hh).
    destruct (is_finite (fmul value h)) eqn:Fn, (is_finite (fadd h elapsed)) eqn:Fs; cbn [andb];
      try (by apply fdiv_unit; [|apply half_life_denominator..]).
    rewrite fle_val in Hs by done.
    assert (Hm : fle (fmul value h) h = true).
    { pose proof Hu as Hu'. apply unit_wf_iff in Hu' as (Vu & _ & U0 & U1).
      pose proof (fmul_rnd value h Vu Vh Fu Fh) as Hr. apply (rnd_le _ _ h Hr); [done..|nra]. }
    rewrite fle_val in Hm by done. apply fdiv_ratio_unit; [|done|apply Ns|done|lra|lra].
    apply fmul_nonneg; [by apply unit_nonneg|done..].
  - done.
Qed.

(** With validated parameters decay maps unit scores to unit scores for
    every finite elapsed time, overflowing intermediates included, never raises
    a score (power law aside, where rounding may), and its factor is a unit
    score. *)
Theorem decay_unit d value elapsed :
  decay_wf d → unit_wf value → valid elapsed → is_finite elapsed = true →
  (∃ f, Decay_factor d elapsed = Ok f ∧ unit_wf f) ∧
  ∃ r, apply_unit d value elapsed = Ok r ∧ unit_wf r ∧
       match d with PowerLaw _ => True | _ => fle r value = true end.
Proof.
  intros Hd Hu Ve Fe. split; [by apply Decay_factor_unit|].
  destruct (Decay_apply_unit d value elapsed Hd Hu Ve Fe) as (r & Hr & Hw & Hle).
  exists r. unfold apply_unit. rewrite Hr. cbn [res_bind]. rewrite UnitScore_try_new_wf by done. done.
Qed.
End decay_facts.

(** A library whose functions are constant satisfies the laws. *)
#[local] Instance const_libm : Libm := {| exp := λ _, one; powf := λ _ _, half |}.

#[local] Instance const_libm_laws : LibmLaws.
Proof.
  split; intros; simpl; apply unit_wf_iff; (split_and!; [vm_compute; reflexivity..| |]);
    vm_compute; discriminate.
Qed.

Theorem decay_unit_witness :
  decay_wf (PowerLaw (of_Z 30)) ∧
  apply_unit (PowerLaw (of_Z 30)) one (of_Z 30) = Ok half ∧
  ∃ r, apply_unit (PowerLaw (of_Z 30)) one (of_Z 30) = Ok r ∧ unit_wf r ∧ True.
Proof.
  assert (Hd : decay_wf (PowerLaw (of_Z 30))) by (split_and!; vm_compute; reflexivity).
  split; [exact Hd|]. split; [vm_compute; reflexivity|].
  apply (decay_unit (PowerLaw (of_Z 30)) one (of_Z 30) Hd unit_one); vm_compute; reflexivity.
Defined.

(** khive-score/src/band.rs: min-max normalisation of floating-point scores into
    a band, in either precision (the fixed-point band is in [Score]). *)

Open Scope Z_scope.

Inductive DegenerateSpan : Type := Ceiling | UpperEndpoint | ClampMaximum.

Section band.
Context {F : Format}.

Definition fzero : float := of_Z 0.
Definition fone : float := of_Z 1.

(** The closure applied to each score. *)
Definition band_score (min span floor range score : float) : result float ArithmeticError :=
  let? difference := checked (fsub score min) "band difference" in
  let? quotient := checked (fdiv difference span) "band division" in
  let percentile := fclamp quotient fzero fone in
  let? scaled := checked (fmul percentile range) "band product" in
  checked (fadd floor scaled) "band sum".

(** The value of every score of a degenerate span. *)
Definition degenerate_value (degenerate : DegenerateSpan) (floor ceiling range max : float) :
    result float ArithmeticError :=
  match degenerate with
  | Ceiling => Ok ceiling
  | UpperEndpoint => checked (fadd floor range) "band upper endpoint"
  | ClampMaximum => Ok (fclamp max floor ceiling)
  end.

(** The body of [float_band!], for both float types. *)
Definition min_max_band (scores : list float) (floor ceiling tolerance : float)
    (degenerate : DegenerateSpan) : result (list float) ArithmeticError :=
  check? require_all_finite [("floor", floor); ("ceiling", ceiling); ("tolerance", tolerance)] in
  if flt ceiling floor then Err InvalidBounds
  else if flt tolerance fzero then Err (OutOfRange "tolerance")
  else match scores with
  | [] => Ok []
  | _ =>
      if existsb (λ score, negb (is_finite score)) scores then Err (NonFinite "scores")
      else
        let min := foldl fmin (S754_infinity false) scores in
        let max := foldl fmax (S754_infinity true) scores in
        let? span := checked (fsub max min) "band span" in
        let? range := checked (fsub ceiling floor) "band range" in
        if fle span tolerance then
          let? value := degenerate_value degenerate floor ceiling range max in
          Ok (replicate (length scores) value)
        else try_map (band_score min span floor range) scores
  end.

(** ** The extremes of the scores *)

Lemma checked_Ok v op r : checked v op = Ok r ↔ r = v ∧ is_finite v = true.
Proof. unfold checked. destruct (is_finite v); simpl; naive_solver. Qed.

Lemma checked_finite v op : is_finite v = true → checked v op = Ok v.
Proof. intros Hv. by apply checked_Ok. Qed.

(** A number: not NaN. *)
Definition number (x : float) : Prop := valid x ∧ is_nan x = false.

Lemma foldl_fmin_spec l acc :
  number acc → Forall number l →
  number (foldl fmin acc l) ∧ (foldl fmin acc l = acc ∨ foldl fmin acc l ∈ l) ∧
  fle (foldl fmin acc l) acc = true ∧ Forall (λ s, fle (foldl fmin acc l) s = true) l.
Proof.
  intros Ha Hl. revert acc Ha. induction Hl as [|x l Hx Hl IH]; intros acc Ha; simpl.
  { split; [done|]. split; [by left|]. split; [by apply fle_refl, Ha|done]. }
  assert (Hm : fmin acc x = if flt x acc then x else acc).
  { unfold fmin. by rewrite (proj2 Ha). }
  assert (Hnum : number (fmin acc x)) by (rewrite Hm; by destruct (flt x acc)).
  destruct (IH (fmin acc x) Hnum) as (I1 & I2 & I3 & I4).
  assert (Hle : fle (fmin acc x) acc = true ∧ fle (fmin acc x) x = true).
  { rewrite Hm. destruct (flt x acc) eqn:E.
    - split; [by apply flt_fle|by apply fle_refl, Hx].
    - split; [by apply fle_refl, Ha|by apply fle_total; [apply Hx|apply Ha|]]. }
  destruct Hle as [L1 L2]. split; [done|]. split; [|split].
  - rewrite elem_of_cons. destruct I2 as [I2|I2]; [|by right; right].
    rewrite I2, Hm. destruct (flt x acc); [by right; left|by left].
  - by eapply fle_trans.
  - constructor; [by eapply fle_trans|done].
Qed.

Lemma foldl_fmax_spec l acc :
  number acc → Forall number l →
  number (foldl fmax acc l) ∧ (foldl fmax acc l = acc ∨ foldl fmax acc l ∈ l) ∧
  fle acc (foldl fmax acc l) = true ∧ Forall (λ s, fle s (foldl fmax acc l) = true) l.
Proof.
  intros Ha Hl. revert acc Ha. induction Hl as [|x l Hx Hl IH]; intros acc Ha; simpl.
  { split; [done|]. split; [by left|]. split; [by apply fle_refl, Ha|done]. }
  assert (Hm : fmax acc x = if flt acc x then x else acc).
  { unfold fmax. by rewrite (proj2 Ha). }
  assert (Hnum : number (fmax acc x)) by (rewrite Hm; by destruct (flt acc x)).
  destruct (IH (fmax acc x) Hnum) as (I1 & I2 & I3 & I4).
  assert (Hle : fle acc (fmax acc x) = true ∧ fle x (fmax acc x) = true).
  { rewrite Hm. destruct (flt acc x) eqn:E.
    - split; [by apply flt_fle|by apply fle_refl, Hx].
    - split; [by apply fle_refl, Ha|by apply fle_total; [apply Ha|apply Hx|]]. }
  destruct Hle as [L1 L2]. split; [done|]. split; [|split].
  - rewrite elem_of_cons. destruct I2 as [I2|I2]; [|by right; right].
    rewrite I2, Hm. destruct (flt acc x); [by right; left|by left].
  - by eapply fle_trans.
  - constructor; [by eapply fle_trans|done].
Qed.

(** The extremes of a nonempty list of finite scores are among them. *)
Lemma extremes_spec l :
  l ≠ [] → Forall (λ s, valid s ∧ is_finite s = true) l →
  let min := foldl fmin (S754_infinity false) l in
  let max := foldl fmax (S754_infinity true) l in
  (min ∈ l ∧ Forall (λ s, fle min s = true) l) ∧ (max ∈ l ∧ Forall (λ s, fle s max = true) l).
Proof.
  intros Hne Hl. assert (Hnum : Forall number l).
  { eapply Forall_impl; [exact Hl|]. intros s [V Hf]. split; [done|by destruct s]. }
  destruct (foldl_fmin_spec l (S754_infinity false) ltac:(done) Hnum) as (_ & M1 & _ & M2).
  destruct (foldl_fmax_spec l (S754_infinity true) ltac:(done) Hnum) as (_ & N1 & _ & N2).
  destruct l as [|x l]; [done|]. apply Forall_cons in Hl as [[_ Hx] _].
  apply Forall_cons in M2 as [M2 M2']. apply Forall_cons in N2 as [N2 N2'].
  split; (split; [|by constructor]).
  - destruct M1 as [M1|]; [|done]. rewrite M1 in M2. by destruct x as [|[]| |].
  - destruct N1 as [N1|]; [|done]. rewrite N1 in N2. by destruct x as [|[]| |].
Qed.
(** ** The band *)

Lemma fone_val : is_finite fone = true ∧ (fval fone == 1)%Q.
Proof. apply of_Z_1. Qed.

Lemma fzero_fle_fone : fle fzero fone = true.
Proof. destruct fone_val as [Ff Ev]. apply fle_val; [done..|]. by rewrite Ev. Qed.

(** One score: its value lies between the floor and the upper endpoint. *)
Section one_score.
Context (min span floor range : float).
Context (Vm : valid min) (Vs : valid span) (Vf : valid floor) (Vr : valid range).
Context (Fm : is_finite min = true) (Fs : is_finite span = true).
Context (Ff : is_finite floor = true) (Fr : is_finite range = true).
Context (Ps : (0 < fval span)%Q) (Pr : (0 <= fval range)%Q).

Definition percentile (s : float) : float := fclamp (fdiv (fsub s min) span) fzero fone.
Definition band_value (s : float) : float := fadd floor (fmul (percentile s) range).

Lemma band_score_Ok s r :
  band_score min span floor range s = Ok r →
  is_finite (fsub s min) = true ∧ is_finite (fdiv (fsub s min) span) = true ∧
  is_finite (fmul (percentile s) range) = true ∧ is_finite r = true ∧ r = band_value s.
Proof.
  unfold band_score. intros (d & [-> Hd]%checked_Ok & H1)%res_bind_Ok.
  apply res_bind_Ok in H1 as (q & [-> Hq]%checked_Ok & H1).
  apply res_bind_Ok in H1 as (p & [-> Hp]%checked_Ok & H1). apply checked_Ok in H1 as [-> Hr].
  done.
Qed.

Lemma percentile_spec s :
  valid s → is_finite (fdiv (fsub s min) span) = true →
  valid (percentile s) ∧ is_finite (percentile s) = true ∧
  fle fzero (percentile s) = true ∧ fle (percentile s) fone = true.
Proof.
  intros V Hq. assert (Vq : valid (fdiv (fsub s min) span)) by (by apply fdiv_valid, Vs; apply fsub_valid).
  destruct (fclamp_bounds (fdiv (fsub s min) span) fzero fone) as [H1 H2];
    [by destruct (fdiv _ _)|apply fzero_fle_fone|].
  destruct fone_val as [F1 _]. unfold percentile, fclamp in *.
  destruct (flt _ fzero); destruct (flt fone _); split_and!; try done; apply of_Z_valid.
Qed.

Lemma band_value_range s r :
  valid s → band_score min span floor range s = Ok r →
  fle floor r = true ∧ fle r (fadd floor range) = true.
Proof.
  intros V Hr. apply band_score_Ok in Hr as (Hd & Hq & Hp & Hr & ->).
  destruct (percentile_spec s V Hq) as (Vp & Fp & P0 & P1). unfold band_value in *.
  assert (Vp' : valid (fmul (percentile s) range)) by (by apply fmul_valid).
  pose proof (fmul_rnd (percentile s) range Vp Vr Fp Fr) as Hrnd.
  rewrite fle_val in P0, P1 by (done || apply fone_val). rewrite (proj2 fone_val) in P1.
  change (fval fzero) with 0%Q in P0.
  assert (N0 : fle fzero (fmul (percentile s) range) = true).
  { apply (rnd_ge _ _ fzero Hrnd); [done..|]. change (fval fzero) with 0%Q. nra. }
  assert (N1 : fle (fmul (percentile s) range) range = true).
  { apply (rnd_le _ _ range Hrnd); [done..|]. nra. }
  split.
  - apply (rnd_ge _ _ floor (fadd_rnd _ _ Vf Vp' Ff Hp)); [done..|].
    rewrite fle_val in N0 by done. change (fval fzero) with 0%Q in N0. lra.
  - by apply fadd_mono_r.
Qed.

Lemma band_value_mono s t a b :
  valid s → valid t → is_finite s = true → is_finite t = true → fle s t = true →
  band_score min span floor range s = Ok a → band_score min span floor range t = Ok b →
  fle a b = true.
Proof.
  intros V V' Fs' Ft Hst Ha Hb. apply band_score_Ok in Ha as (A1 & A2 & A3 & A4 & ->).
  apply band_score_Ok in Hb as (B1 & B2 & B3 & B4 & ->).
  assert (Vd : ∀ u, valid u → valid (fsub u min)) by (intros; by apply fsub_valid).
  destruct (percentile_spec s V A2) as (Va & Fa & _). destruct (percentile_spec t V' B2) as (Vb & Fb & _).
  unfold band_value. apply fadd_mono_r; try done; try (by apply fmul_valid).
  apply fmul_mono_l; try done. unfold percentile. apply fclamp_mono; [apply fzero_fle_fone|].
  apply fdiv_mono_l; try done; try (by apply Vd). by apply fsub_mono_l.
Qed.

(** The least score maps to the floor, the greatest to the upper endpoint. *)
Lemma band_value_min s r :
  valid s → is_finite s = true → (fval s == fval min)%Q →
  band_score min span floor range s = Ok r → (fval r == fval floor)%Q.
Proof.
  intros V Fs' Hs Hr. apply band_score_Ok in Hr as (Hd & Hq & Hp & Hfin & ->).
  destruct (rnd_zero_val _ _ (fsub_rnd s min V Vm Fs' Fm)) as [_ D0]; [lra|].
  assert (Vd : valid (fsub s min)) by (by apply fsub_valid).
  destruct (rnd_zero_val _ _ (fdiv_rnd _ _ Vd Vs Hd Fs ltac:(lra))) as [_ Q0].
  { rewrite D0. unfold Qdiv. ring. }
  destruct (percentile_spec s V Hq) as (Vp & Fp & _).
  assert (P0 : (fval (percentile s) == 0)%Q).
  { unfold percentile, fclamp. rewrite <-Q0. destruct (flt _ fzero) eqn:E.
    - apply flt_val in E; [|done..]. change (fval fzero) with 0%Q in E. lra.
    - destruct (flt fone _) eqn:E2; [|done]. apply flt_val in E2; [|apply fone_val|done].
      rewrite (proj2 fone_val) in E2. lra. }
  assert (Vp' : valid (fmul (percentile s) range)) by (by apply fmul_valid).
  destruct (rnd_zero_val _ _ (fmul_rnd _ _ Vp Vr Fp Fr)) as [_ M0]; [rewrite P0; ring|].
  pose proof (fadd_rnd floor _ Vf Vp' Ff Hp) as Hrnd.
  destruct (rnd_finite _ _ floor floor Hrnd) as (_ & L1 & L2); try done; [lra..|].
  unfold band_value. lra.
Qed.

Lemma band_value_max s r :
  valid s → is_finite s = true → fsub s min = span →
  band_score min span floor range s = Ok r → (fval r == fval (fadd floor range))%Q.
Proof.
  intros V Fs' Hs Hr. apply band_score_Ok in Hr as (Hd & Hq & Hp & Hfin & ->).
  destruct fone_val as [F1 V1].
  pose proof (fdiv_rnd span span Vs Vs Fs Fs ltac:(lra)) as Hrd. rewrite <-Hs in Hrd at 3.
  assert (Ed : (fval span / fval span == 1)%Q) by (field; lra).
  destruct (rnd_finite _ _ fone fone Hrd) as (_ & L1 & L2); try done;
    [apply of_Z_valid..|rewrite V1, Ed; lra|rewrite V1, Ed; lra|].
  destruct (percentile_spec s V Hq) as (Vp & Fp & P0 & P1).
  assert (E1 : (fval (percentile s) == 1)%Q).
  { unfold percentile. rewrite fclamp_id; [lra|apply fle_val; [done..|]|apply fle_val; [done..|]].
    - change (fval fzero) with 0%Q. lra.
    - lra. }
  pose proof (fmul_rnd _ _ Vp Vr Fp Fr) as Hm.
  destruct (rnd_finite _ _ range range Hm) as (_ & M1 & M2); try done; [nra..|].
  assert (Vp' : valid (fmul (percentile s) range)) by (by apply fmul_valid).
  assert (fle (band_value s) (fadd floor range) = true ∧ fle (fadd floor range) (band_value s) = true)
    as [G1 G2].
  { unfold band_value. split; apply fadd_mono_r; try done; apply fle_val; try done; lra. }
  unfold band_value in *.
  assert (Ft : is_finite (fadd floor range) = true).
  { destruct (fadd floor (fmul (percentile s) range)) as [|[]| |], (fadd floor range) as [|[]| |]; done. }
  rewrite fle_val in G1, G2 by done. lra.
Qed.
End one_score.
End band.

Section band_facts.
Context {F : Format}.

Lemma try_map_lookup {A B E} (f : A → result B E) l k i x :
  try_map f l = Ok k → l !! i = Some x → ∃ y, k !! i = Some y ∧ f x = Ok y.
Proof.
  intros Hk Hi. apply try_map_Forall2 in Hk. by eapply Forall2_lookup_l in Hk as (y & ? & ?); eauto.
Qed.

Lemma existsb_not_finite l :
  existsb (λ s, negb (is_finite s)) l = false → Forall (λ s, is_finite s = true) l.
Proof.
  induction l as [|s l IH]; [done|]. simpl. rewrite orb_false_iff, negb_false_iff.
  intros [Hs Hl]. constructor; auto.
Qed.

(** What an accepted, nonempty band computes. *)
Lemma min_max_band_inv scores floor ceiling tolerance d out :
  scores ≠ [] → min_max_band scores floor ceiling tolerance d = Ok out →
  let min := foldl fmin (S754_infinity false) scores in
  let max := foldl fmax (S754_infinity true) scores in
  let span := fsub max min in
  let range := fsub ceiling floor in
  is_finite floor = true ∧ is_finite ceiling = true ∧ is_finite tolerance = true ∧
  fle floor ceiling = true ∧ fle fzero tolerance = true ∧
  Forall (λ s, is_finite s = true) scores ∧ is_finite span = true ∧ is_finite range = true ∧
  if fle span tolerance
  then ∃ v, degenerate_value d floor ceiling range max = Ok v ∧ out = replicate (length scores) v
  else try_map (band_score min span floor range) scores = Ok out.
Proof.
  intros Hne. unfold min_max_band, require_all_finite. cbn [try_each fst snd].
  destruct (is_finite floor) eqn:F1; [|done]. destruct (is_finite ceiling) eqn:F2; [|done].
  destruct (is_finite tolerance) eqn:F3; [|done]. cbn [negb res_bind].
  destruct (flt ceiling floor) eqn:E1; [done|]. destruct (flt tolerance fzero) eqn:E2; [done|].
  apply fle_total in E1; [|by destruct ceiling|by destruct floor].
  apply fle_total in E2; [|by destruct tolerance|done].
  destruct scores as [|s l] eqn:Es; [done|]. rewrite <-Es. clear Es s l Hne.
  destruct (existsb _ scores) eqn:E3; [done|]. apply existsb_not_finite in E3.
  intros (sp & [-> F4]%checked_Ok & H1)%res_bind_Ok.
  apply res_bind_Ok in H1 as (ra & [-> F5]%checked_Ok & H1). cbv zeta.
  do 8 (split; [done|]).
  match goal with |- if ?c then _ else _ => destruct c; [|exact H1] end.
  apply res_bind_Ok in H1 as (v & Hv & [= <-]). eauto.
Qed.

Lemma fsub_same a b c :
  valid a → valid b → is_finite a = true → is_finite b = true → is_finite c = true →
  (fval a == fval b)%Q → ¬ (fval a == fval c)%Q → fsub a c = fsub b c.
Proof.
  intros Va Vb Fa Fb Fc Hab Hac.
  destruct (same_value a b Va Vb Fa Fb Hab) as [->|(s & s' & -> & ->)]; [done|].
  destruct c as [| | |sc m e]; try done.
Qed.

(** An accepted float band keeps the number of scores.  A span within the
    tolerance gives one value to all; otherwise every result lies between the
    floor and the upper endpoint, higher scores never get lower results, and the
    least and greatest scores get exactly the endpoints. *)
Theorem min_max_band_spec scores floor ceiling tolerance d out :
  Forall valid scores → valid floor → valid ceiling → valid tolerance →
  min_max_band scores floor ceiling tolerance d = Ok out →
  let top := fadd floor (fsub ceiling floor) in
  length out = length scores ∧
  ((∃ v, out = replicate (length scores) v) ∨
   ∀ i j s t a b, scores !! i = Some s → scores !! j = Some t →
     out !! i = Some a → out !! j = Some b →
     fle floor a = true ∧ fle a top = true ∧ (fle s t = true → fle a b = true) ∧
     (Forall (λ u, fle s u = true) scores → (fval a == fval floor)%Q) ∧
     (Forall (λ u, fle u s = true) scores → (fval a == fval top)%Q)).
Proof.
  intros Vs Vf Vc Vt Hout top. destruct (decide (scores = [])) as [->|Hne].
  { unfold min_max_band in Hout. apply res_bind_Ok in Hout as ([] & _ & Hout).
    destruct (flt _ _); [done|]. destruct (flt _ _); [done|]. injection Hout as <-.
    split; [done|]. left. by exists floor. }
  destruct (min_max_band_inv _ _ _ _ _ _ Hne Hout) as (F1 & F2 & F3 & L1 & L2 & Hf & F4 & F5 & H1).
  cbv zeta in *. set (min := foldl fmin _ scores) in *. set (max := foldl fmax _ scores) in *.
  revert H1. destruct (fle (fsub max min) tolerance) eqn:Hspan; intros H1.
  { destruct H1 as (v & _ & ->). rewrite length_replicate. split; [done|]. left. by exists v. }
  assert (Hboth : Forall (λ s, valid s ∧ is_finite s = true) scores) by (by apply Forall_and).
  destruct (extremes_spec scores Hne Hboth) as [[M1 M2] [N1 N2]]. fold min in M1, M2. fold max in N1, N2.
  rewrite Forall_forall in Hboth. destruct (Hboth _ M1) as [Vmin Fmin]. destruct (Hboth _ N1) as [Vmax Fmax].
  assert (Vspan : valid (fsub max min)) by (by apply fsub_valid).
  assert (Vrange : valid (fsub ceiling floor)) by (by apply fsub_valid).
  assert (Pspan : (0 < fval (fsub max min))%Q).
  { apply Qle_lt_trans with (fval tolerance).
    - apply (fle_val fzero tolerance); done.
    - apply Qnot_le_lt. rewrite <-fle_val by done. congruence. }
  assert (Prange : (0 <= fval (fsub ceiling floor))%Q).
  { rewrite fle_val in L1 by done.
    pose proof (rnd_nonneg _ _ (fsub_rnd ceiling floor Vc Vf F2 F1)) as Hn.
    destruct (proj1 (nonneg_cases _) (Hn ltac:(lra))) as [_ [E|[_ ?]]]; [by rewrite E in F5|done]. }
  split; [apply try_map_Forall2, Forall2_length in H1; done|]. right.
  intros i j s t a b Hi Hj Ha Hb.
  destruct (try_map_lookup _ _ _ _ _ H1 Hi) as (a' & Ha' & Ra). assert (a' = a) as -> by congruence.
  destruct (try_map_lookup _ _ _ _ _ H1 Hj) as (b' & Hb' & Rb). assert (b' = b) as -> by congruence.
  destruct (Hboth s (list_elem_of_lookup_2 _ _ _ Hi)) as [V1 Fs1].
  destruct (Hboth t (list_elem_of_lookup_2 _ _ _ Hj)) as [V2 Fs2].
  destruct (band_value_range min (fsub max min) floor (fsub ceiling floor)) with s a as [B1 B2]; try done.
  assert (Hin : s ∈ scores) by (by eapply list_elem_of_lookup_2).
  rewrite Forall_forall in M2, N2. split_and!; [done|done| | |].
  - intros Hst. by eapply (band_value_mono min (fsub max min) floor (fsub ceiling floor)) with s t.
  - rewrite Forall_forall. intros Hleast.
    eapply (band_value_min min (fsub max min) floor (fsub ceiling floor)) with s; try done.
    pose proof (Hleast _ M1) as G1. pose proof (M2 _ Hin) as G2.
    rewrite fle_val in G1, G2 by done. lra.
  - rewrite Forall_forall. intros Hgreatest.
    eapply (band_value_max min (fsub max min) floor (fsub ceiling floor)) with s; try done.
    pose proof (Hgreatest _ N1) as G1. pose proof (N2 _ Hin) as G2. pose proof (M2 _ N1) as G3.
    rewrite fle_val in G1, G2, G3 by done. apply fsub_same; try done; [lra|].
    intros E. destruct (rnd_zero_val _ _ (fsub_rnd max min Vmax Vmin Fmax Fmin)) as [_ Hz]; lra.
Qed.
End band_facts.

#[local] Existing Instance F32.

Theorem min_max_band_spec_witness :
  min_max_band [of_Z 9; of_Z 1; of_Z 5] (of_Z (-2)) (of_Z 2) (of_Z 0) Ceiling =
    Ok [of_Z 2; of_Z (-2); of_Z 0] ∧
  length [of_Z 2; of_Z (-2); of_Z 0] = 3%nat.
Proof.
  assert (E : min_max_band [of_Z 9; of_Z 1; of_Z 5] (of_Z (-2)) (of_Z 2) (of_Z 0) Ceiling =
    Ok [of_Z 2; of_Z (-2); of_Z 0]) by (vm_compute; reflexivity).
  split; [exact E|].
  apply (min_max_band_spec [of_Z 9; of_Z 1; of_Z 5] (of_Z (-2)) (of_Z 2) (of_Z 0) Ceiling
    [of_Z 2; of_Z (-2); of_Z 0]); [|vm_compute; reflexivity..|exact E].
  repeat constructor; vm_compute; reflexivity.
Defined.
