(* ===== verification/Weights.v ===== *)
(** khive-score/src/weights.rs: validated ordered weights and their normalised
    view, and keyed weighted means. *)

From Stdlib Require Import ZArith QArith Qpower Qround Lqa Lia String.
From stdpp Require Import base tactics list numbers strings gmap.
From Stdlib Require Import SpecFloat.
From S2P Require Import Prelude Rounding Float Score UnitScore.
Open Scope Z_scope.

#[local] Existing Instance F64.

(** ** Ordered weights *)

Definition validate_weight (weight : f64) : result unit ArithmeticError :=
  if negb (is_finite weight) then Err (NonFinite "weight")
  else if flt weight zero64 then Err (OutOfRange "weight")
  else Ok ().

(** [ValidatedWeights { raw }] *)
Definition ValidatedWeights : Type := list f64.

Definition ValidatedWeights_try_new (weights : list f64) : result ValidatedWeights ArithmeticError :=
  match weights with
  | [] => Err EmptyWeights
  | _ =>
      check? try_each validate_weight weights in
      if negb (existsb (λ weight, flt zero64 weight) weights) then Err NoPositiveWeight
      else Ok weights
  end.

Definition normalized (raw : ValidatedWeights) : list f64 :=
  let maximum := foldl fmax zero64 raw in
  let scaled_sum := foldl (λ acc weight, fadd acc (fdiv weight maximum)) zero64 raw in
  (λ weight, fdiv (fdiv weight maximum) scaled_sum) <$> raw.

(** ** Scaled means *)

Section scaled_mean.
Context {E : Type} (validate : f64 → result unit E).

(** The first pass: the greatest weight and the greatest active feature. *)
Fixpoint find_scales (scale feature_scale : f64) (l : list (f64 * f64)) : result (f64 * f64) E :=
  match l with
  | [] => Ok (scale, feature_scale)
  | (weight, value) :: l' =>
      let active := negb (feq weight zero64) in
      check? (if active then validate value else Ok ()) in
      find_scales (fmax scale weight)
        (if active then fmax feature_scale (fabs value) else feature_scale) l'
  end.

(** The second pass, accumulating numerator and weight sum. *)
Definition accumulate (scale feature_scale : f64) (acc : f64 * f64) (p : f64 * f64) : f64 * f64 :=
  let '(numerator, weight_sum) := acc in
  let '(weight, feature_value) := p in
  if feq weight zero64 then (numerator, weight_sum)
  else
    let normalized_weight := fdiv weight scale in
    (fadd numerator (fmul normalized_weight (fdiv feature_value feature_scale)),
     if flt zero64 normalized_weight then fadd weight_sum normalized_weight else weight_sum).

Definition scaled_weighted_mean_with (weighted_features : list (f64 * f64)) : result f64 E :=
  let? scales := find_scales zero64 one weighted_features in
  let '(scale, feature_scale) := scales in
  if feq scale zero64 then Ok zero64
  else
    let '(numerator, weight_sum) :=
      foldl (accumulate scale feature_scale) (zero64, zero64) weighted_features in
    Ok (fmul (fclamp (fdiv numerator weight_sum) (fneg one) one) feature_scale).
End scaled_mean.

Definition scaled_weighted_mean (weighted_features : list (f64 * f64)) : f64 :=
  match scaled_weighted_mean_with (E := Empty_set) (λ _, Ok ()) weighted_features with
  | Ok mean => mean
  | Err never => match never with end
  end.

(** ** Keyed weights *)

Section named.
Context {K : Type} `{Countable K}.

(** [NamedWeights { weights }] *)
Definition NamedWeights : Type := gmap K f64.

(** The values are visited in some order of the map. *)
Definition NamedWeights_try_new (weights : gmap K f64) : result NamedWeights ArithmeticError :=
  check? try_each validate_weight ((map_to_list weights).*2) in Ok weights.

(** The loop that inserts every key in [declared]. *)
Fixpoint declare_keys (declared : gset K) (features : list (K * f64)) : result unit ArithmeticError :=
  match features with
  | [] => Ok ()
  | (key, _) :: features' =>
      if decide (key ∈ declared) then Err DuplicateKey
      else declare_keys ({[key]} ∪ declared) features'
  end.

(** The weight of a key: missing keys weigh nothing. *)
Definition weight_of (self : NamedWeights) (key : K) : f64 := default zero64 (self !! key).

Definition validate_feature (value : f64) : result unit ArithmeticError :=
  if negb (is_finite value) then Err (NonFinite "feature") else Ok ().

Definition weighted_mean (self : NamedWeights) (features : list (K * f64)) :
    result f64 ArithmeticError :=
  check? declare_keys ∅ features in
  scaled_weighted_mean_with validate_feature ((λ kv, (weight_of self kv.1, kv.2)) <$> features).
End named.

Arguments NamedWeights K {_ _}.

(** ** Normalised weights *)

Definition weight_wf (w : f64) : Prop := nonneg w ∧ is_finite w = true.

Lemma validate_weight_Ok w : valid w → validate_weight w = Ok () ↔ weight_wf w.
Proof.
  intros V. unfold validate_weight, weight_wf, nonneg. destruct (is_finite w) eqn:Hf; cbn [negb].
  - destruct (flt w zero64) eqn:Hlt; split; try done.
    + intros [[_ Hle%fle_not_flt] _]. change (flt w zero64 = false) in Hle. congruence.
    + intros _. split; [|done]. split; [done|]. by apply fle_total; [destruct w| |].
  - by split; [|intros []].
Qed.

(** A sum of nonnegative terms dominates its start and every term. *)
Lemma foldl_fadd_ge {A} (t : A → f64) l acc :
  nonneg acc → Forall (λ x, nonneg (t x)) l →
  let s := foldl (λ a x, fadd a (t x)) acc l in
  nonneg s ∧ fle acc s = true ∧ Forall (λ x, fle (t x) s = true) l.
Proof.
  intros Ha Hl. revert acc Ha. induction Hl as [|x l Hx Hl IH]; intros acc Ha; simpl.
  { split; [done|]. split; [|done]. apply fle_refl.
    destruct Ha as [_ Ha]. by apply fle_not_nan in Ha as [_ ?]. }
  destruct (IH (fadd acc (t x))) as (I1 & I2 & I3); [by apply fadd_nonneg|].
  destruct (fadd_ge acc (t x) Ha Hx) as [G1 G2].
  split; [done|]. split; [by eapply fle_trans|]. constructor; [by eapply fle_trans|done].
Qed.

(** Weights are accepted exactly when they are nonempty, finite,
    nonnegative and not all zero; their normalised view then has the same
    length, lies in the unit interval and keeps their order, however large the
    sum of the raw weights. *)
Theorem ValidatedWeights_spec l :
  Forall valid l →
  ((∃ w, ValidatedWeights_try_new l = Ok w) ↔
    l ≠ [] ∧ Forall weight_wf l ∧ Exists (λ x, flt zero64 x = true) l) ∧
  ∀ w, ValidatedWeights_try_new l = Ok w → w = l ∧ length (normalized w) = length l ∧
    ∀ i j a b, l !! i = Some a → l !! j = Some b → ∃ x y,
      normalized w !! i = Some x ∧ normalized w !! j = Some y ∧ unit_wf x ∧
      (fle a b = true → fle x y = true).
Proof.
  intros Hv.
  assert (Hok : ∀ w, ValidatedWeights_try_new l = Ok w ↔
    w = l ∧ l ≠ [] ∧ Forall weight_wf l ∧ Exists (λ x, flt zero64 x = true) l).
  { intros w. unfold ValidatedWeights_try_new. destruct l as [|x l'] eqn:El; [naive_solver|].
    rewrite <-El in *. assert (Hne : l ≠ []) by (by rewrite El). clear El x l'.
    assert (Hw : Forall weight_wf l ↔ try_each validate_weight l = Ok ()).
    { rewrite try_each_Ok. rewrite !Forall_forall in *. split; intros H x Hx;
        by apply (validate_weight_Ok x (Hv x Hx)), H. }
    assert (He : existsb (λ x, flt zero64 x) l = true ↔ Exists (λ x, flt zero64 x = true) l).
    { rewrite existsb_exists, Exists_exists. by setoid_rewrite list_elem_of_In. }
    rewrite res_bind_Ok, Hw, <-He. destruct (existsb _ l); cbn [negb]; split.
    - intros ([] & H1 & [= <-]). by split_and!.
    - intros (-> & _ & H1 & _). by exists ().
    - by intros ([] & _ & ?).
    - by intros (_ & _ & _ & ?). }
  split; [setoid_rewrite Hok; naive_solver|]. intros w Hw. apply Hok in Hw as (-> & Hne & Hwf & Hpos).
  split; [done|]. unfold normalized. cbv zeta. set (m := foldl fmax zero64 l).
  set (s := foldl (λ acc weight : float, fadd acc (fdiv weight m)) zero64 l). rewrite length_fmap. split; [done|].
  assert (Hnum : Forall number l).
  { eapply Forall_impl; [exact Hwf|]. intros x [[V _] Hf]. split; [done|by destruct x]. }
  destruct (foldl_fmax_spec l zero64 ltac:(done) Hnum) as (Nm & Hm & Hm0 & Hmax). fold m in Nm, Hm, Hm0, Hmax.
  rewrite Forall_forall in Hwf, Hmax.
  assert (Hmin : m ∈ l ∧ (0 < fval m)%Q).
  { apply Exists_exists in Hpos as (x & Hx & Hlt). destruct (Hwf x Hx) as [_ Fx].
    rewrite flt_val in Hlt by done. change (fval zero64) with 0%Q in Hlt.
    pose proof (Hmax x Hx) as Hxm. destruct Hm as [Hm|Hm].
    - exfalso. rewrite Hm, fle_val in Hxm by done. change (fval zero64) with 0%Q in Hxm. lra.
    - split; [done|]. destruct (Hwf m Hm) as [_ Fm]. rewrite fle_val in Hxm by done. lra. }
  destruct Hmin as [Hin Pm]. destruct (Hwf m Hin) as [Hnm Fm].
  assert (Hq : ∀ x, x ∈ l → unit_wf (fdiv x m)).
  { intros x Hx. destruct (Hwf x Hx) as [Nx Fx]. pose proof (Hmax x Hx) as Hle.
    rewrite fle_val in Hle by done. apply fdiv_ratio_unit; try done. apply Hnm. }
  assert (Hs : valid s ∧ fle one s = true).
  { destruct (foldl_fadd_ge (λ x, fdiv x m) l zero64) as (S1 & _ & S3); [by apply (nonneg_zero false)| |].
    - apply Forall_forall. intros x Hx. by apply unit_nonneg, Hq.
    - fold s in S1, S3. split; [apply S1|]. rewrite Forall_forall in S3.
      eapply fle_trans; [|apply (S3 m Hin)].
      assert (Hr : rnd (fval m / fval m) (fdiv m m)) by (apply fdiv_rnd; try done; [apply Hnm..|lra]).
      apply (rnd_ge _ _ one Hr); [done..|]. rewrite one_fval. apply Qle_shift_div_l; lra. }
  destruct Hs as [Vs Hs]. clearbody s.
  intros i j a b Ha Hb. rewrite !list_lookup_fmap, Ha, Hb. simpl.
  pose proof (list_elem_of_lookup_2 _ _ _ Ha) as Ia. pose proof (list_elem_of_lookup_2 _ _ _ Hb) as Ib.
  eexists _, _. split; [done|]. split; [done|]. split; [by apply fdiv_unit; [apply Hq|..]|].
  intros Hab. destruct (Hq a Ia) as (Va & Ha'), (Hq b Ib) as (Vb & Hb').
  assert (Hd : fle (fdiv a m) (fdiv b m) = true).
  { apply fdiv_mono_l; try done; [apply (Hwf a Ia)|apply (Hwf b Ib)|apply Hnm|apply (Hwf a Ia)|apply (Hwf b Ib)]. }
  assert (Fa : is_finite (fdiv a m) = true) by (by apply unit_finite, Hq).
  assert (Fb : is_finite (fdiv b m) = true) by (by apply unit_finite, Hq).
  destruct (is_finite s) eqn:Fs.
  - rewrite fle_val, one_fval in Hs by done. apply (fdiv_mono_l _ _ s); try done.
    by apply Qlt_le_trans with 1%Q.
  - assert (s = S754_infinity false) as -> by (by destruct s as [|[]| |]).
    revert Fa Fb. by destruct (fdiv a m), (fdiv b m).
Qed.

Theorem ValidatedWeights_spec_witness :
  ValidatedWeights_try_new [of_Z (2 ^ 1023); of_Z (2 ^ 1023)] =
    Ok [of_Z (2 ^ 1023); of_Z (2 ^ 1023)] ∧
  length (normalized [of_Z (2 ^ 1023); of_Z (2 ^ 1023)]) = 2%nat.
Proof.
  assert (Hv : Forall valid [of_Z (2 ^ 1023); of_Z (2 ^ 1023)])
    by (repeat constructor; apply of_Z_valid).
  assert (E : ValidatedWeights_try_new [of_Z (2 ^ 1023); of_Z (2 ^ 1023)] =
    Ok [of_Z (2 ^ 1023); of_Z (2 ^ 1023)]) by (vm_compute; reflexivity).
  split; [exact E|].
  destruct (ValidatedWeights_spec _ Hv) as [_ Hspec].
  destruct (Hspec _ E) as (_ & Hlen & _). exact Hlen.
Defined.

(** ** Weighted means *)

(** A finite member within a bound. *)
Definition within (b : Q) (x : f64) : Prop :=
  valid x ∧ is_finite x = true ∧ (- b <= fval x)%Q ∧ (fval x <= b)%Q.

Lemma within_rnd (b : f64) x r :
  rnd x r → valid b → is_finite b = true → (- fval b <= x)%Q → (x <= fval b)%Q →
  within (fval b) r.
Proof.
  intros Hr Vb Fb H1 H2. assert (Fn : is_finite (fneg b) = true) by (by destruct b).
  destruct (rnd_finite x r (fneg b) b Hr (fneg_valid b Vb) Fn Vb Fb) as (Fr & L1 & L2); [|done|].
  - by rewrite fval_fneg.
  - rewrite fval_fneg in L1. split_and!; [by apply (rnd_valid _ _ Hr)|done..].
Qed.

Lemma within_mono b b' x : (b <= b')%Q → within b x → within b' x.
Proof. intros Hb (V & Fx & H1 & H2). split_and!; [done..|lra|lra]. Qed.

Lemma within_eq b b' x : (b == b')%Q → within b x → within b' x.
Proof. intros E. apply within_mono. rewrite E. apply Qle_refl. Qed.

Lemma small_int n : Z.abs n ≤ 2 ^ 53 → valid (of_Z n) ∧ is_finite (of_Z n) = true ∧
  (fval (of_Z n) == inject_Z n)%Q.
Proof.
  intros Hn. destruct (of_Z_exact (F:=F64) n Hn) as [H1 H2]. split_and!; [apply of_Z_valid|done..].
Qed.

Lemma within_1_mul x y : within 1 x → within 1 y → within 1 (fmul x y).
Proof.
  intros (Vx & Fx & X1 & X2) (Vy & Fy & Y1 & Y2). apply (within_eq _ _ _ one_fval).
  apply (within_rnd one _ _ (fmul_rnd x y Vx Vy Fx Fy)); [done..| |]; rewrite one_fval; nra.
Qed.

Lemma Qdiv_bounds v d : (0 < d)%Q → (- d <= v)%Q → (v <= d)%Q → (- (1) <= v / d)%Q ∧ (v / d <= 1)%Q.
Proof. intros Hd H1 H2. split; [apply Qle_shift_div_l|apply Qle_shift_div_r]; lra. Qed.

Lemma within_ratio x d : within (fval d) x → valid d → is_finite d = true → (0 < fval d)%Q →
  within 1 (fdiv x d).
Proof.
  intros (Vx & Fx & X1 & X2) Vd Fd Pd. apply (within_eq _ _ _ one_fval).
  destruct (Qdiv_bounds _ _ Pd X1 X2).
  apply (within_rnd one _ _ (fdiv_rnd x d Vx Vd Fx Fd ltac:(lra))); [done..| |]; by rewrite one_fval.
Qed.

(** Adding a term of magnitude at most one to a sum of [n] such terms. *)
Lemma within_add n x y :
  0 ≤ n < 2 ^ 53 → within (inject_Z n) x → within 1 y → within (inject_Z (n + 1)) (fadd x y).
Proof.
  intros Hn (Vx & Fx & X1 & X2) (Vy & Fy & Y1 & Y2).
  destruct (small_int (n + 1) ltac:(lia)) as (Vb & Fb & Eb). apply (within_eq _ _ _ Eb).
  apply (within_rnd _ _ _ (fadd_rnd x y Vx Vy Fx Fy)); [done..| |];
    rewrite Eb, inject_Z_plus; change (inject_Z 1) with 1%Q; lra.
Qed.

(** Pairs whose weight counts. *)
Definition active (p : f64 * f64) : Prop := feq p.1 zero64 = false.

Definition pair_wf (p : f64 * f64) : Prop := weight_wf p.1 ∧ valid p.2.

(** The first pass. *)
Lemma find_scales_spec l scale fs :
  Forall pair_wf l → nonneg scale → is_finite scale = true → valid fs → is_finite fs = true →
  (Exists (λ p, active p ∧ is_finite p.2 = false) l ∧
   find_scales validate_feature scale fs l = Err (NonFinite "feature")) ∨
  (Forall (λ p, active p → is_finite p.2 = true) l ∧
   ∃ s g, find_scales validate_feature scale fs l = Ok (s, g) ∧
     nonneg s ∧ is_finite s = true ∧ valid g ∧ is_finite g = true ∧
     fle scale s = true ∧ fle fs g = true ∧ (s = scale ∨ ∃ p, p ∈ l ∧ s = p.1) ∧
     (g = fs ∨ ∃ p, p ∈ l ∧ active p ∧ g = fabs p.2) ∧
     Forall (λ p, fle p.1 s = true ∧ (active p → fle (fabs p.2) g = true)) l).
Proof.
  intros Hl. revert scale fs. induction Hl as [|[w v] l [[Hw Fw] Vv] Hl IH]; intros scale fs Hs Fs Vg Fg.
  { right. split; [done|]. exists scale, fs.
    split_and!; try done; [apply fle_refl; by destruct scale|apply fle_refl; by destruct fs|by left|by left]. }
  simpl in Hw, Fw, Vv. simpl find_scales.
  assert (Hmax : ∀ a b, is_finite a = true → is_finite b = true → valid a → valid b →
    (fmax a b = a ∨ fmax a b = b) ∧ fle a (fmax a b) = true ∧ fle b (fmax a b) = true).
  { intros a b Fa Fb Va Vb. unfold fmax. assert (is_nan a = false) as -> by (by destruct a).
    destruct (flt a b) eqn:E; (split; [by auto|]).
    - split; [by apply flt_fle|apply fle_refl; by destruct b].
    - split; [apply fle_refl; by destruct a|apply fle_total; [by destruct a|by destruct b|done]]. }
  destruct (Hmax scale w Fs Fw ltac:(apply Hs) ltac:(apply Hw)) as (W1 & W2 & W3).
  assert (Nw : nonneg (fmax scale w) ∧ is_finite (fmax scale w) = true)
    by (by destruct W1 as [-> | ->]).
  destruct (feq w zero64) eqn:Ea; cbn [negb res_bind].
  - destruct (IH (fmax scale w) fs (proj1 Nw) (proj2 Nw) Vg Fg) as [[H1 H2]|[H1 H2]].
    + left. split; [by right|done].
    + right. split; [constructor; [unfold active; simpl; congruence|done]|].
      destruct H2 as (s & g & -> & S1 & S2 & S3 & S4 & S5 & S6 & S7 & S8 & S9). exists s, g.
      split_and!; try done.
      * by eapply fle_trans.
      * destruct S7 as [-> |(p & Hp & ->)]; [|right; exists p; split; [by right|done]].
        destruct W1 as [-> | ->]; [by left|right; exists (w, v); split; [left|done]].
      * destruct S8 as [-> |(p & Hp & Hp')]; [by left|right; exists p; split; [by right|done]].
      * constructor; [|done]. simpl. split; [by eapply fle_trans|]. unfold active. simpl. congruence.
  - unfold validate_feature at 1 3. destruct (is_finite v) eqn:Fv; cbn [negb res_bind].
    2:{ left. split; [|done]. left. done. }
    assert (Fa : is_finite (fabs v) = true) by (by destruct v).
    assert (Va : valid (fabs v)) by (by destruct v).
    destruct (Hmax fs (fabs v) Fg Fa Vg Va) as (G1 & G2 & G3).
    assert (Ng : valid (fmax fs (fabs v)) ∧ is_finite (fmax fs (fabs v)) = true)
      by (by destruct G1 as [-> | ->]).
    destruct (IH _ _ (proj1 Nw) (proj2 Nw) (proj1 Ng) (proj2 Ng)) as [[H1 H2]|[H1 H2]].
    + left. split; [by right|done].
    + right. split; [by constructor|].
      destruct H2 as (s & g & -> & S1 & S2 & S3 & S4 & S5 & S6 & S7 & S8 & S9). exists s, g.
      split_and!; try done.
      * by eapply fle_trans.
      * by eapply fle_trans.
      * destruct S7 as [-> |(p & Hp & ->)]; [|right; exists p; split; [by right|done]].
        destruct W1 as [-> | ->]; [by left|right; exists (w, v); split; [left|done]].
      * destruct S8 as [-> |(p & Hp & Hp')]; [|right; exists p; split; [by right|done]].
        destruct G1 as [-> | ->]; [by left|right; exists (w, v); split; [left|done]].
      * constructor; [|done]. simpl. split; [by eapply fle_trans|]. intros _. by eapply fle_trans.
Qed.

Lemma fabs_bounds v : (- fval (fabs v) <= fval v)%Q ∧ (fval v <= fval (fabs v))%Q.
Proof.
  destruct v as [| | |[] m e]; simpl; try (split; lra); pose proof (fl_nonneg (Zpos m) e ltac:(lia));
    change (Zneg m) with (- Zpos m); rewrite ?fl_opp; split; lra.
Qed.

Section second_pass.
Context (s g : f64) (Vs : valid s) (Fs : is_finite s = true) (Ps : (0 < fval s)%Q).
Context (Vg : valid g) (Fg : is_finite g = true) (Pg : (1 <= fval g)%Q).

Lemma accumulate_spec l n num ws :
  Forall pair_wf l → Forall (λ p, fle p.1 s = true ∧ (active p → is_finite p.2 = true ∧ fle (fabs p.2) g = true)) l →
  0 ≤ n → n + Z.of_nat (length l) ≤ 2 ^ 53 →
  within (inject_Z n) num → within (inject_Z n) ws → nonneg ws →
  let '(num', ws') := foldl (accumulate s g) (num, ws) l in
  let n' := n + Z.of_nat (length l) in
  within (inject_Z n') num' ∧ within (inject_Z n') ws' ∧ nonneg ws' ∧ fle ws ws' = true ∧
  ((∃ p, p ∈ l ∧ active p ∧ p.1 = s) → fle one ws' = true).
Proof.
  intros Hl. revert n num ws. induction Hl as [|[w v] l [[Nw Fw] Vv] Hl IH]; intros n num ws Hb Hn Hlen Hnum Hws Nws.
  { simpl. rewrite Z.add_0_r. split_and!; try done.
    - apply fle_refl. by destruct Hws as (_ & Hf & _), ws.
    - by intros (p & Hp%elem_of_nil & _). }
  apply Forall_cons in Hb as [[Hle Hact] Hb]. simpl in Nw, Fw, Vv, Hle, Hact.
  simpl length in *. rewrite Nat2Z.inj_succ in *. simpl foldl.
  replace (n + Z.succ (Z.of_nat (length l))) with (n + 1 + Z.of_nat (length l)) by lia.
  assert (Hgrow : ∀ x, within (inject_Z n) x → within (inject_Z (n + 1)) x).
  { intros x. apply within_mono. rewrite <-Zle_Qle. lia. }
  destruct (feq w zero64) eqn:Ea.
  - specialize (IH (n + 1) num ws Hb ltac:(lia) ltac:(lia) (Hgrow _ Hnum) (Hgrow _ Hws) Nws).
    destruct (foldl _ _ l) as [num' ws']. destruct IH as (I1 & I2 & I3 & I4 & I5).
    split_and!; try done. intros (p & [-> |Hp]%elem_of_cons & Hap & Hps); [|by apply I5; eauto].
    unfold active in Hap. simpl in Hap. congruence.
  - destruct (Hact Ea) as [Fv Hv].
    rewrite fle_val in Hle by done.
    assert (Hu : unit_wf (fdiv w s)) by (by apply fdiv_ratio_unit).
    assert (Hterm : within 1 (fmul (fdiv w s) (fdiv v g))).
    { apply within_1_mul.
      - apply unit_wf_iff in Hu as (U1 & U2 & U3 & U4). split_and!; try done. lra.
      - apply within_ratio; try done; [|lra]. assert (Fa : is_finite (fabs v) = true) by (by destruct v).
        rewrite fle_val in Hv by done. destruct (fabs_bounds v). split_and!; try done; lra. }
    set (num1 := fadd num _). set (ws1 := if flt zero64 (fdiv w s) then fadd ws (fdiv w s) else ws).
    assert (Hnum1 : within (inject_Z (n + 1)) num1) by (apply within_add; [lia|done|done]).
    assert (Hws1 : within (inject_Z (n + 1)) ws1 ∧ nonneg ws1 ∧ fle ws ws1 = true ∧
      (w = s → fle one ws1 = true)).
    { pose proof (unit_nonneg _ Hu) as Nu. destruct (fadd_ge ws (fdiv w s) Nws Nu) as [G1 G2].
      unfold ws1. destruct (flt zero64 (fdiv w s)) eqn:Epos.
      - split_and!; [|by apply fadd_nonneg|done|].
        + apply within_add; [lia|done|]. apply unit_wf_iff in Hu as (U1 & U2 & U3 & U4).
          split_and!; try done. lra.
        + intros ->. eapply fle_trans; [|exact G2].
          assert (Hr : rnd (fval s / fval s) (fdiv s s)) by (apply fdiv_rnd; try done; lra).
          apply (rnd_ge _ _ one Hr); [done..|]. rewrite one_fval. apply Qle_shift_div_l; lra.
      - split_and!; [by apply Hgrow|done|apply fle_refl; by destruct Hws as (_ & Hf & _), ws|].
        intros ->. exfalso. assert (Hr : rnd (fval s / fval s) (fdiv s s)) by (apply fdiv_rnd; try done; lra).
        assert (H1 : fle one (fdiv s s) = true).
        { apply (rnd_ge _ _ one Hr); [done..|]. rewrite one_fval. apply Qle_shift_div_l; lra. }
        rewrite fle_val, one_fval in H1 by (done || by apply unit_finite).
        assert (flt zero64 (fdiv s s) = true); [|congruence].
        apply flt_val; [done|by apply unit_finite|]. change (fval zero64) with 0%Q. lra. }
    destruct Hws1 as (W1 & W2 & W3 & W4).
    specialize (IH (n + 1) num1 ws1 Hb ltac:(lia) ltac:(lia) Hnum1 W1 W2).
    destruct (foldl _ _ l) as [num' ws']. destruct IH as (I1 & I2 & I3 & I4 & I5).
    split_and!; try done; [by eapply fle_trans|].
    intros (p & [-> |Hp]%elem_of_cons & Hap & Hps); [|by apply I5; eauto].
    eapply fle_trans; [by apply W4|done].
Qed.
End second_pass.

Section mean_facts.
Context {K : Type} `{Countable K}.

Lemma declare_keys_spec (declared : gset K) (features : list (K * f64)) :
  (declare_keys declared features = Ok () ∧
   NoDup features.*1 ∧ Forall (λ k, k ∉ declared) features.*1) ∨
  (declare_keys declared features = Err DuplicateKey ∧
   ¬ (NoDup features.*1 ∧ Forall (λ k, k ∉ declared) features.*1)).
Proof.
  revert declared. induction features as [|[k v] l IH]; intros declared; simpl.
  { left. split_and!; [done|constructor|done]. }
  rewrite NoDup_cons, Forall_cons. destruct (decide (k ∈ declared)) as [Hk|Hk].
  { right. split; [done|]. by intros (_ & ? & _). }
  destruct (IH ({[k]} ∪ declared)) as [(-> & Hd & Hf)|(-> & Hn)]; rewrite ?Forall_forall in *.
  - left. split_and!; [done| |done|done|].
    + intros Hin. specialize (Hf k Hin). set_solver.
    + intros x Hx. specialize (Hf x Hx). set_solver.
  - right. split; [done|]. intros ([Hk' Hd] & _ & Hf). apply Hn. split; [done|].
    intros x Hx. specialize (Hf x Hx). assert (x ≠ k) by (by intros ->). set_solver.
Qed.

(** A keyed mean refuses repeated keys, then nonfinite values under a
    nonzero weight; otherwise it returns a finite number whose magnitude is at
    most that of the active features (or one), whatever the weights. *)
Theorem weighted_mean_spec (self : NamedWeights K) (features : list (K * f64)) :
  (∀ k w, self !! k = Some w → weight_wf w) → Forall (λ kv, valid kv.2) features →
  Z.of_nat (length features) ≤ 2 ^ 53 →
  let active_kv := λ kv : K * f64, feq (weight_of self kv.1) zero64 = false in
  (¬ NoDup features.*1 ∧ weighted_mean self features = Err DuplicateKey) ∨
  (NoDup features.*1 ∧ Exists (λ kv, active_kv kv ∧ is_finite kv.2 = false) features ∧
   weighted_mean self features = Err (NonFinite "feature")) ∨
  (NoDup features.*1 ∧ Forall (λ kv, active_kv kv → is_finite kv.2 = true) features ∧
   ∃ r, weighted_mean self features = Ok r ∧ is_finite r = true ∧
     ∀ b, (1 <= b)%Q → Forall (λ kv, active_kv kv → (- b <= fval kv.2 <= b)%Q) features →
       (- b <= fval r <= b)%Q).
Proof.
  intros Hself Hv Hlen active_kv. unfold weighted_mean.
  destruct (declare_keys_spec ∅ features) as [(-> & Hd & _)|[-> Hd]].
  2:{ left. split; [|done]. intros Hnd. apply Hd. split; [done|]. apply Forall_forall. set_solver. }
  right. cbn [res_bind]. set (l := (λ kv : K * f64, (weight_of self kv.1, kv.2)) <$> features).
  assert (Hwf : Forall pair_wf l).
  { apply Forall_fmap, Forall_forall. intros kv Hkv. rewrite Forall_forall in Hv.
    split; [|by apply Hv]. simpl. unfold weight_of. destruct (self !! kv.1) as [w|] eqn:E.
    - simpl. by eapply Hself.
    - split; [apply (nonneg_zero false)|done]. }
  unfold scaled_weighted_mean_with.
  destruct (find_scales_spec l zero64 one Hwf (nonneg_zero false) eq_refl eq_refl eq_refl)
    as [[Hex ->]|[Hall Hscales]].
  { left. split; [done|]. split; [|done]. by apply Exists_fmap in Hex. }
  right. split; [done|]. split; [by apply Forall_fmap in Hall|].
  destruct Hscales as (s & g & -> & Ns & Fs & Vg & Fg & _ & Hg1 & Hs & Hg & Hbound).
  cbn [res_bind]. destruct (feq s zero64) eqn:Es.
  { exists zero64. split; [done|]. split; [done|]. intros b Hb _. change (fval zero64) with 0%Q. lra. }
  assert (Ps : (0 < fval s)%Q).
  { apply nonneg_cases in Ns as [_ [-> |[_ Ns]]]; [done|]. apply Qle_lt_or_eq in Ns as [Ns|Ns]; [done|].
    exfalso. assert (feq s zero64 = true); [|congruence]. by apply feq_val. }
  rewrite fle_val, one_fval in Hg1 by done.
  assert (Hb : Forall (λ p, fle p.1 s = true ∧ (active p → is_finite p.2 = true ∧ fle (fabs p.2) g = true)) l).
  { rewrite Forall_forall in *. intros p Hp. destruct (Hbound p Hp) as [B1 B2].
    split; [done|]. intros Ha. split; [by apply Hall|by apply B2]. }
  assert (Hll : length l = length features) by apply length_fmap.
  pose proof (accumulate_spec s g (proj1 Ns) Fs Ps Vg Fg Hg1 l 0 zero64 zero64 Hwf Hb ltac:(done)
    ltac:(rewrite Hll; lia) ltac:(by split_and!) ltac:(by split_and!) (nonneg_zero false)) as Hacc.
  destruct (foldl _ _ l) as [num ws]. destruct Hacc as (A1 & A2 & A3 & _ & A5).
  assert (H1 : fle one ws = true).
  { apply A5. destruct Hs as [-> |(p & Hp & ->)]; [done|]. by exists p. }
  destruct A1 as (Vn & Fn & _), A2 as (Vws & Fws & _). rewrite fle_val, one_fval in H1 by done.
  pose proof (fdiv_rnd num ws Vn Vws Fn Fws ltac:(lra)) as Hr.
  destruct (rnd_valid _ _ Hr) as [Vq Nq].
  destruct (fclamp_bounds (fdiv num ws) (fneg one) one Nq eq_refl) as [C1 C2].
  set (c := fclamp _ _ _) in *.
  assert (Vc : valid c) by (unfold c, fclamp; destruct (flt _ (fneg one)), (flt one _); done).
  assert (Fc : is_finite c = true) by (by destruct c as [|[]| |]).
  rewrite fle_val, fval_fneg, one_fval in C1 by done. rewrite fle_val, one_fval in C2 by done.
  destruct (within_rnd g _ _ (fmul_rnd c g Vc Vg Fc Fg) Vg Fg) as (_ & Fr & R1 & R2); [nra..|].
  exists (fmul c g). split; [done|]. split; [done|]. intros b Hb1 Hfeat.
  assert (Hgb : (fval g <= b)%Q); [|lra].
  destruct Hg as [-> |(p & Hp & Ha & ->)]; [by rewrite one_fval|].
  apply list_elem_of_fmap in Hp as (kv & -> & Hkv). rewrite Forall_forall in Hfeat.
  destruct (Hfeat kv Hkv Ha) as [L1 L2]. simpl.
  destruct (kv.2) as [| | |[] m e]; simpl in *; try lra.
  change (Zneg m) with (- Zpos m) in *. rewrite fl_opp in *. lra.
Qed.
End mean_facts.

Theorem weighted_mean_spec_witness :
  let self : gmap nat f64 := <[1%nat := of_Z 3]> {[2%nat := of_Z 1]} in
  weighted_mean self [(1%nat, of_Z 4); (2%nat, of_Z 8); (3%nat, S754_nan)] = Ok (of_Z 5) ∧
  NoDup ([(1%nat, of_Z 4); (2%nat, of_Z 8); (3%nat, S754_nan)].*1).
Proof.
  intros self.
  assert (Hw : ∀ k w, self !! k = Some w → weight_wf w).
  { intros k w Hk. unfold self in Hk. apply lookup_insert_Some in Hk as [[_ <-]|[_ Hk]].
    - split; [split|]; vm_compute; reflexivity.
    - apply lookup_singleton_Some in Hk as [_ <-]. split; [split|]; vm_compute; reflexivity. }
  assert (E : weighted_mean self [(1%nat, of_Z 4); (2%nat, of_Z 8); (3%nat, S754_nan)] = Ok (of_Z 5))
    by (vm_compute; reflexivity).
  split; [exact E|].
  destruct (weighted_mean_spec self [(1%nat, of_Z 4); (2%nat, of_Z 8); (3%nat, S754_nan)] Hw)
    as [[_ Hbad]|[(_ & _ & Hbad)|(Hd & _)]].
  - repeat constructor; vm_compute; reflexivity.
  - vm_compute. discriminate.
  - rewrite E in Hbad. discriminate.
  - rewrite E in Hbad. discriminate.
  - exact Hd.
Defined.
