(* ===== verification/Distance.v ===== *)
(** khive-score/src/distance.rs and vector.rs, with the metrics of
    khive-types/src/vector.rs: distances to scores, cosine similarity and vector
    normalisation in single precision. *)

From Stdlib Require Import ZArith QArith Qpower Qround Lqa Lia String.
From stdpp Require Import base tactics list numbers strings.
From Stdlib Require Import SpecFloat.
From S2P Require Import Prelude Rounding Float Score UnitScore Weights.
Open Scope Z_scope.

(** ** Distances *)

Inductive DistanceMetric : Type := Cosine | Dot | L2.

(** [f32::to_bits]; the payload of a NaN is never inspected. *)
Definition f32_bits (x : f32) : Z :=
  let sign := if sign_bit x then 2 ^ 31 else 0 in
  match x with
  | S754_zero _ => sign
  | S754_infinity _ => sign + 255 * 2 ^ 23
  | S754_nan => 255 * 2 ^ 23 + 2 ^ 22
  | S754_finite _ m e =>
      if 2 ^ 23 <=? Zpos m then sign + (e + 150) * 2 ^ 23 + (Zpos m - 2 ^ 23) else sign + Zpos m
  end.

#[local] Existing Instance F64.

(** [f64] to [f32] and back. *)
Definition as_f32 (x : f64) : f32 := fcast (F := F32) x.
Definition as_f64 (x : f32) : f64 := fcast (F := F64) x.

Definition try_score_from_distance (dist : f32) (metric : DistanceMetric) :
    result DeterministicScore ScoreError :=
  if negb (is_finite dist) then Err NonFiniteDistance
  else
    let d := as_f64 dist in
    let? similarity :=
      match metric with
      | Cosine =>
          if negb (contains (of_Z (F := F32) 0) (of_Z (F := F32) 2) dist)
          then Err (InvalidDistanceRange "Cosine" (f32_bits dist))
          else Ok (fsub one d)
      | Dot => Ok (fneg d)
      | L2 =>
          if flt dist (of_Z (F := F32) 0) then Err (InvalidDistanceRange "L2" (f32_bits dist))
          else Ok (fdiv one (fadd one d))
      end in
    Ok (from_f64 similarity).

(** [8.0 * f32::EPSILON as f64] *)
Definition BOUNDARY_EPSILON : f64 := fmul (of_Z 8) (as_f64 (fdiv (F := F32) (of_Z 1) (of_Z (2 ^ 23)))).

Definition try_cosine_score_with_f32_tolerance (distance : f64) :
    result DeterministicScore ScoreError :=
  if negb (is_finite distance) then Err NonFiniteDistance
  else if negb (contains (fneg BOUNDARY_EPSILON) (fadd (of_Z 2) BOUNDARY_EPSILON) distance)
  then Err (InvalidDistanceRange "Cosine" (f32_bits (as_f32 distance)))
  else try_score_from_distance (as_f32 (fclamp distance zero64 (of_Z 2))) Cosine.

Definition score_from_distance_lossy (dist : f32) (metric : DistanceMetric) : DeterministicScore :=
  match try_score_from_distance dist metric with Ok s => s | Err _ => NEG_INF end.

(** The deprecated conversion. *)
Definition score_from_distance (dist : f32) (metric : DistanceMetric) : DeterministicScore :=
  let d := as_f64 (if is_nan dist then of_Z 0 else dist) in
  from_f64 (match metric with
            | Cosine => fsub one d
            | Dot => fneg d
            | L2 => fdiv one (fadd one (fmax d zero64))
            end).

(** ** Vectors *)

Section vectors.
#[local] Existing Instance F32.

(** [1e-8] *)
Definition NEAR_ZERO_EPSILON : f32 := fdiv (of_Z 1) (of_Z (10 ^ 8)).

(** One iteration of the loop of [cosine_similarity]. *)
Definition cosine_step (acc : f32 * f32 * f32) (p : f32 * f32) : f32 * f32 * f32 :=
  let '(dot, norm_a, norm_b) := acc in
  (fadd dot (fmul p.1 p.2), fadd norm_a (fmul p.1 p.1), fadd norm_b (fmul p.2 p.2)).

Definition cosine_similarity (a b : list f32) (clamp : bool) : f32 :=
  if negb (length a =? length b)%nat || (match a with [] => true | _ => false end) then of_Z 0
  else
    let '(dot, norm_a, norm_b) := foldl cosine_step (of_Z 0, of_Z 0, of_Z 0) (zip a b) in
    let denom := fmul (fsqrt norm_a) (fsqrt norm_b) in
    if flt denom NEAR_ZERO_EPSILON then of_Z 0
    else if clamp then fclamp (fdiv dot denom) (fneg (of_Z 1)) (of_Z 1)
    else fdiv dot denom.

(** [Iterator::sum] over floats starts from negative zero. *)
Definition fsum (l : list f32) : f32 := foldl fadd (S754_zero true) l.

(** The vector after the call. *)
Definition l2_normalize (v : list f32) : list f32 :=
  let norm := fsqrt (fsum ((λ x, fmul x x) <$> v)) in
  if flt NEAR_ZERO_EPSILON norm then (λ x, fdiv x norm) <$> v else v.
End vectors.

(** ** Casts *)

Definition valid32 (x : f32) : Prop := valid (H := F32) x.

Lemma binary_round_finite {F : Format} s p e :
  SpecFloat.emin prec emax ≤ e → Zpos (digits2_pos p) ≤ prec → Zpos (digits2_pos p) + e ≤ emax →
  let r := binary_round prec emax s p e in
  valid r ∧ is_finite r = true ∧ (fval r == fl (cond_Zopp s (Zpos p)) e)%Q.
Proof.
  intros He Hd Hm r. pose proof (binary_round_rnd s p e) as Hr. fold r in Hr.
  destruct (rep_scale s p e Hd He) as (M & E & Hrep & Es). symmetry in Es.
  split; [by apply (rnd_valid _ _ Hr)|].
  assert (Hlt : (fl (Zpos p) e < bpow emax)%Q).
  { apply Qlt_le_trans with (bpow (Zpos (digits2_pos p) + e)); [|by apply bpow_le].
    pose proof (digits_bounds p) as [_ D]. rewrite bpow_add, bpow_inject by lia. by apply fl_lt. }
  pose proof (fl_nonneg (Zpos p) e ltac:(lia)). pose proof (bpow_pos emax).
  destruct (rnd_exact _ _ _ _ _ Hr Hrep Es) as [?|[(_ & _ & Hb)|(_ & _ & Hb)]]; [done|exfalso..];
    destruct s; simpl in Hb; change (Zneg p) with (- Zpos p) in Hb; rewrite ?fl_opp in Hb; lra.
Qed.

(** Widening is exact. *)
Lemma as_f64_spec x :
  valid32 x → is_finite x = true →
  valid (as_f64 x) ∧ is_finite (as_f64 x) = true ∧ (fval (as_f64 x) == fval x)%Q.
Proof.
  intros V Hf. destruct x as [s| | |s m e]; try done.
  apply (valid_rep (F := F32)) in V as [Hrep He]. unfold as_f64, fcast.
  pose proof (rep_lt (H := F32) _ _ Hrep) as Hm. pose proof (rep_emin (H := F32) _ _ Hrep) as [|Hmin]; [done|].
  assert (Hd : Zpos (digits2_pos m) ≤ 24) by (apply digits_le; [done|exact Hm]).
  change (SpecFloat.emin (@prec F32) (@emax F32)) with (-149) in Hmin. change (@emax F32 - @prec F32) with 104 in He.
  apply (binary_round_finite (F := F64)); change (SpecFloat.emin (@prec F64) (@emax F64)) with (-1074);
    change (@prec F64) with 53; change (@emax F64) with 1024; lia.
Qed.

Lemma as_f64_mono x y :
  valid32 x → valid32 y → is_finite x = true → is_finite y = true →
  fle x y = true → fle (as_f64 x) (as_f64 y) = true.
Proof.
  intros Vx Vy Fx Fy. destruct (as_f64_spec x Vx Fx) as (_ & F1 & E1).
  destruct (as_f64_spec y Vy Fy) as (_ & F2 & E2). rewrite !fle_val by done. by rewrite E1, E2.
Qed.

(** ** Scores of distances *)

(** The similarity of an accepted distance. *)
Definition similarity (d : f64) (metric : DistanceMetric) : f64 :=
  match metric with Cosine => fsub one d | Dot => fneg d | L2 => fdiv one (fadd one d) end.

(** The distances a metric accepts. *)
Definition in_range (dist : f32) (metric : DistanceMetric) : Prop :=
  match metric with
  | Cosine => (0 <= fval dist <= 2)%Q
  | Dot => True
  | L2 => (0 <= fval dist)%Q
  end.

Lemma contains_val lo hi x :
  is_finite lo = true → is_finite hi = true → is_finite x = true →
  contains lo hi x = true ↔ (fval lo <= fval x <= fval hi)%Q.
Proof. intros F1 F2 F3. unfold contains. by rewrite andb_true_iff, !fle_val. Qed.

Lemma two32_val : (fval (of_Z (F := F32) 2) == 2)%Q.
Proof. by apply Qeq_bool_eq. Qed.

Lemma try_score_Ok dist metric s :
  valid32 dist →
  try_score_from_distance dist metric = Ok s ↔
    is_finite dist = true ∧ in_range dist metric ∧ s = from_f64 (similarity (as_f64 dist) metric).
Proof.
  intros V. unfold try_score_from_distance. destruct (is_finite dist) eqn:Fd; cbn [negb]; [|naive_solver].
  destruct metric; simpl in_range; cbn [similarity].
  - assert (Hc : contains (of_Z (F := F32) 0) (of_Z (F := F32) 2) dist = true ↔ (0 <= fval dist <= 2)%Q).
    { rewrite contains_val, two32_val by done. done. }
    destruct (contains _ _ dist); cbn [negb res_bind]; rewrite <-Hc; [|by split; [|intros (_ & ? & _)]].
    split; [by intros [= <-]|by intros (_ & _ & ->)].
  - cbn [res_bind]. split; [intros [= <-]|intros (_ & _ & ->)]; done.
  - assert (Hc : flt dist (of_Z (F := F32) 0) = false ↔ (0 <= fval dist)%Q).
    { rewrite <-not_true_iff_false, flt_val by done. split; [apply Qnot_lt_le|apply Qle_not_lt]. }
    destruct (flt dist _); cbn [res_bind]; rewrite <-Hc; [by split; [|intros (_ & ? & _)]|].
    split; [by intros [= <-]|by intros (_ & _ & ->)].
Qed.

Lemma one_valid : valid one.
Proof. done. Qed.

(** The widened distance of an accepted input. *)
Lemma accepted_widened dist metric :
  valid32 dist → is_finite dist = true →
  valid (as_f64 dist) ∧ is_finite (as_f64 dist) = true ∧
  (metric ≠ Dot → in_range dist metric → nonneg (as_f64 dist)) ∧
  (in_range dist Cosine → (fval (as_f64 dist) <= 2)%Q).
Proof.
  intros V Fd. destruct (as_f64_spec dist V Fd) as (V' & F' & E). split_and!; [done|done| |].
  - intros Hm Hr. apply nonneg_cases. split; [done|]. right. split; [done|]. rewrite E.
    destruct metric; simpl in Hr; [apply Hr|done|done].
  - intros [_ H2]. by rewrite E.
Qed.

Lemma similarity_valid d metric : valid d → valid (similarity d metric).
Proof.
  intros V. destruct metric; simpl; [by apply fsub_valid|by apply fneg_valid|].
  apply fdiv_valid; [done|by apply fadd_valid].
Qed.

Lemma similarity_anti d d' metric :
  valid d → valid d' → is_finite d = true → is_finite d' = true → fle d d' = true →
  (metric = L2 → nonneg d ∧ nonneg d') →
  fle (similarity d' metric) (similarity d metric) = true.
Proof.
  intros V V' Fd Fd' Hle Hn. destruct metric; simpl.
  - by apply fsub_anti_r.
  - assert (F1 : is_finite (fneg d) = true) by (by destruct d).
    assert (F2 : is_finite (fneg d') = true) by (by destruct d').
    rewrite fle_val, !fval_fneg by done. rewrite fle_val in Hle by done. lra.
  - destruct (Hn eq_refl) as [N N']. destruct (one_plus_ge d N) as [Va Ha].
    destruct (one_plus_ge d' N') as [Vb Hb].
    assert (Hab : fle (fadd one d) (fadd one d') = true) by (by apply fadd_mono_r).
    destruct (is_finite (fadd one d)) eqn:F1, (is_finite (fadd one d')) eqn:F2.
    + rewrite fle_val, one_fval in Ha, Hb by done. apply fdiv_anti_r; try done; lra.
    + assert (fadd one d' = S754_infinity false) as -> by (by destruct (fadd one d') as [|[]| |]).
      apply (fdiv_shrink one (fadd one d)); [by apply unit_nonneg, unit_one|done|done|done].
    + exfalso. by destruct (fadd one d) as [|[]| |], (fadd one d') as [|[]| |].
    + assert (fadd one d = S754_infinity false) as -> by (by destruct (fadd one d) as [|[]| |]).
      assert (fadd one d' = S754_infinity false) as -> by (by destruct (fadd one d') as [|[]| |]).
      done.
Qed.

Lemma similarity_range d metric :
  valid d → is_finite d = true →
  match metric with
  | Cosine => (0 <= fval d)%Q → (fval d <= 2)%Q →
      fle (fneg one) (fsub one d) = true ∧ fle (fsub one d) one = true
  | Dot => True
  | L2 => nonneg d → unit_wf (fdiv one (fadd one d))
  end.
Proof.
  intros V Fd. destruct metric; [|done|].
  - intros H0 H2. pose proof (fsub_rnd one d one_valid V eq_refl Fd) as Hr.
    split; [apply (rnd_ge _ _ (fneg one) Hr)|apply (rnd_le _ _ one Hr)]; try done;
      rewrite ?fval_fneg, one_fval; lra.
  - intros N. destruct (one_plus_ge d N) as [Va Ha]. apply fdiv_unit; [apply unit_one|done|done].
Qed.

(** A distance is converted exactly when it is finite and in the range of
    its metric; cosine scores lie in [-1, 1] and Euclidean scores in [0, 1], and
    a larger distance never scores higher. *)
Theorem try_score_from_distance_spec dist dist' metric :
  valid32 dist → valid32 dist' →
  ((∃ s, try_score_from_distance dist metric = Ok s) ↔ is_finite dist = true ∧ in_range dist metric) ∧
  (∀ s, try_score_from_distance dist metric = Ok s →
    match metric with Cosine => - 2 ^ 32 ≤ s ≤ 2 ^ 32 | Dot => True | L2 => 0 ≤ s ≤ 2 ^ 32 end) ∧
  (∀ s s', try_score_from_distance dist metric = Ok s → try_score_from_distance dist' metric = Ok s' →
    fle dist dist' = true → s' ≤ s) ∧
  (¬ (is_finite dist = true ∧ in_range dist metric) → score_from_distance_lossy dist metric = NEG_INF).
Proof.
  intros V V'. split_and!.
  - setoid_rewrite (try_score_Ok dist metric _ V). naive_solver.
  - intros s Hs. apply try_score_Ok in Hs as (Fd & Hr & ->); [|done].
    destruct (accepted_widened dist metric V Fd) as (Vd & F' & Hn & H2).
    pose proof (similarity_range (as_f64 dist) metric Vd F') as Hs.
    destruct metric; [|done|]; simpl similarity.
    + apply nonneg_cases in Hn as [_ [Hn|[_ Hn]]]; [by rewrite Hn in F'| |done|done].
      destruct (Hs Hn (H2 Hr)) as [L1 L2]. apply from_f64_le in L1; [|done|by apply fsub_valid].
      apply from_f64_le in L2; [|by apply fsub_valid|done]. split; [exact L1|exact L2].
    + destruct (Hs (Hn ltac:(done) Hr)) as (Vq & L1 & L2).
      apply from_f64_le in L1; [|done..]. apply from_f64_le in L2; [|done..].
      split; [exact L1|exact L2].
  - intros s s' Hs Hs' Hle. apply try_score_Ok in Hs as (Fd & Hr & ->); [|done].
    apply try_score_Ok in Hs' as (Fd' & Hr' & ->); [|done].
    destruct (accepted_widened dist metric V Fd) as (Vd & F1 & Hn & _).
    destruct (accepted_widened dist' metric V' Fd') as (Vd' & F2 & Hn' & _).
    apply from_f64_le; [by apply similarity_valid..|].
    apply similarity_anti; try done; [by apply as_f64_mono|]. intros ->. split; [by apply Hn|by apply Hn'].
  - intros Hd. unfold score_from_distance_lossy. destruct (try_score_from_distance dist metric) eqn:E; [|done].
    apply try_score_Ok in E as (Fd & Hr & _); [|done]. by destruct Hd.
Qed.

Theorem try_score_from_distance_spec_witness :
  try_score_from_distance (of_Z (F := F32) 1) L2 = Ok (2 ^ 31) ∧
  try_score_from_distance (of_Z (F := F32) 3) L2 = Ok (2 ^ 30) ∧ 2 ^ 30 ≤ 2 ^ 31.
Proof.
  assert (E1 : try_score_from_distance (of_Z (F := F32) 1) L2 = Ok (2 ^ 31)) by (vm_compute; reflexivity).
  assert (E2 : try_score_from_distance (of_Z (F := F32) 3) L2 = Ok (2 ^ 30)) by (vm_compute; reflexivity).
  split; [exact E1|]. split; [exact E2|].
  destruct (try_score_from_distance_spec (of_Z (F := F32) 1) (of_Z (F := F32) 3) L2) as (_ & _ & Hmono & _);
    [vm_compute; reflexivity..|].
  apply (Hmono _ _ E1 E2). vm_compute. reflexivity.
Defined.

Lemma epsilon_val : (fval BOUNDARY_EPSILON == 1 # 1048576)%Q.
Proof. by apply Qeq_bool_eq. Qed.

Lemma upper_val : (fval (fadd (of_Z 2) BOUNDARY_EPSILON) == 2 + (1 # 1048576))%Q.
Proof. by apply Qeq_bool_eq. Qed.

(** The tolerant cosine conversion accepts exactly the finite distances
    within 2^-20 of [0, 2], and its scores lie in [-1, 1]. *)
Theorem try_cosine_score_spec distance :
  valid distance →
  ((∃ s, try_cosine_score_with_f32_tolerance distance = Ok s) ↔
    is_finite distance = true ∧ (- (1 # 1048576) <= fval distance <= 2 + (1 # 1048576))%Q) ∧
  (∀ s, try_cosine_score_with_f32_tolerance distance = Ok s → - 2 ^ 32 ≤ s ≤ 2 ^ 32).
Proof.
  intros V. unfold try_cosine_score_with_f32_tolerance.
  destruct (is_finite distance) eqn:Fd; cbn [negb]; [|split; [split; [by intros []|by intros []]|done]].
  assert (Hc : contains (fneg BOUNDARY_EPSILON) (fadd (of_Z 2) BOUNDARY_EPSILON) distance = true ↔
    (- (1 # 1048576) <= fval distance <= 2 + (1 # 1048576))%Q).
  { rewrite contains_val by done. by rewrite fval_fneg, epsilon_val, upper_val. }
  destruct (contains _ _ distance); cbn [negb].
  2:{ split; [|done]. split; [by intros []|]. intros [_ Hr%Hc]. done. }
  set (c := fclamp distance zero64 (of_Z 2)).
  assert (E2 : (fval (of_Z (F := F64) 2) == 2)%Q) by (by apply Qeq_bool_eq).
  destruct (fclamp_bounds distance zero64 (of_Z 2)) as [C1 C2]; [by destruct distance|done|].
  fold c in C1, C2. assert (Fc : is_finite c = true) by (by destruct c as [|[]| |]).
  rewrite fle_val in C1, C2 by done. rewrite E2 in C2. change (fval zero64) with 0%Q in C1.
  pose proof (fcast_rnd (F := F32) c Fc) as Hr. fold (as_f32 c) in Hr.
  destruct (rnd_finite (F := F32) _ _ (of_Z (F := F32) 0) (of_Z (F := F32) 2) Hr) as (F' & L1 & L2);
    try done; [by rewrite two32_val|].
  rewrite two32_val in L2. destruct (rnd_valid (F := F32) _ _ Hr) as [V32 _].
  assert (Hok : try_score_from_distance (as_f32 c) Cosine = Ok (from_f64 (similarity (as_f64 (as_f32 c)) Cosine))).
  { apply try_score_Ok; [done|]. by split_and!. }
  split; [split; [intros _; by rewrite <-Hc|intros _; eauto]|].
  intros s Hs. rewrite Hok in Hs. injection Hs as <-.
  destruct (as_f64_spec (as_f32 c) V32 F') as (V64 & F64' & E64).
  destruct (similarity_range (as_f64 (as_f32 c)) Cosine V64 F64') as [S1 S2];
    [by rewrite E64|by rewrite E64|].
  apply from_f64_le in S1; [|done|by apply fsub_valid].
  apply from_f64_le in S2; [|by apply fsub_valid|done]. split; [exact S1|exact S2].
Qed.

Theorem try_cosine_score_spec_witness :
  try_cosine_score_with_f32_tolerance (fneg BOUNDARY_EPSILON) = Ok (2 ^ 32) ∧
  - 2 ^ 32 ≤ 2 ^ 32 ≤ 2 ^ 32.
Proof.
  assert (E : try_cosine_score_with_f32_tolerance (fneg BOUNDARY_EPSILON) = Ok (2 ^ 32))
    by (vm_compute; reflexivity).
  split; [exact E|].
  destruct (try_cosine_score_spec (fneg BOUNDARY_EPSILON)) as [_ Hb]; [vm_compute; reflexivity|].
  apply Hb, E.
Defined.

(** ** Similarity of vectors *)

Section vector_facts.
#[local] Existing Instance F32.

Lemma fmul_comm x y : fmul x y = fmul y x.
Proof.
  unfold fmul. destruct x as [s|s| |s m e], y as [s'|s'| |s' m' e']; try done; simpl;
    rewrite (xorb_comm s s'); try done. by rewrite Pos.mul_comm, (Z.add_comm e e').
Qed.

Definition swap_norms (acc : f32 * f32 * f32) : f32 * f32 * f32 :=
  let '(dot, norm_a, norm_b) := acc in (dot, norm_b, norm_a).

Lemma foldl_cosine_swap a b acc :
  foldl cosine_step (swap_norms acc) (zip b a) = swap_norms (foldl cosine_step acc (zip a b)).
Proof.
  revert b acc. induction a as [|x a IH]; intros [|y b] [[d na] nb]; simpl; try done.
  rewrite <-IH. simpl. by rewrite (fmul_comm y x).
Qed.

Lemma fsqrt_nan x : is_nan x = true → fsqrt x = S754_nan.
Proof. by destruct x. Qed.

(** Cosine similarity is symmetric to the bit, zero for empty or unequal
    vectors, and, when clamped, in [-1, 1] unless the arithmetic produced a
    NaN. *)
Theorem cosine_similarity_spec (a b : list f32) (clamp : bool) :
  cosine_similarity a b clamp = cosine_similarity b a clamp ∧
  (length a ≠ length b ∨ a = [] → cosine_similarity a b clamp = of_Z 0) ∧
  (is_nan (cosine_similarity a b true) = true ∨
   fle (fneg (of_Z 1)) (cosine_similarity a b true) = true ∧
   fle (cosine_similarity a b true) (of_Z 1) = true).
Proof.
  unfold cosine_similarity. split_and!.
  - rewrite Nat.eqb_sym. destruct (Nat.eqb_spec (length b) (length a)) as [Hl|]; [|done].
    destruct a as [|x a], b as [|y b]; try done. cbn [negb orb].
    pose proof (foldl_cosine_swap (x :: a) (y :: b) (of_Z 0, of_Z 0, of_Z 0)) as Hs.
    set (k := zip (x :: a) (y :: b)) in *. set (k' := zip (y :: b) (x :: a)) in *. clearbody k k'.
    change (swap_norms (of_Z 0, of_Z 0, of_Z 0)) with (of_Z 0, of_Z 0, of_Z 0) in Hs.
    rewrite Hs. destruct (foldl cosine_step _ k) as [[d na] nb]. unfold swap_norms.
    by rewrite (fmul_comm (fsqrt nb)).
  - intros [Hl| ->]; [by rewrite (proj2 (Nat.eqb_neq _ _) Hl)|]. by rewrite orb_true_r.
  - destruct (negb _ || _); [by right|]. destruct (foldl _ _ _) as [[d na] nb].
    destruct (flt _ NEAR_ZERO_EPSILON); [by right|].
    destruct (is_nan (fdiv d (fmul (fsqrt na) (fsqrt nb)))) eqn:E.
    + left. destruct (fdiv _ _); done.
    + right. by apply fclamp_bounds.
Qed.

Lemma l2_normalize_length v : length (l2_normalize v) = length v.
Proof. unfold l2_normalize. destruct (flt _ _); [apply length_fmap|done]. Qed.
End vector_facts.
