(* ===== verification/Fusion.v ===== *)
(** khive-fusion: rank fusion strategies with their validation, the canonical
    comparator, reciprocal rank, union and weighted fusion, and the [fuse] entry
    point.  A [HashMap] is a finite map whose iteration order is a parameter. *)

From Stdlib Require Import ZArith QArith Lqa Lia String.
From stdpp Require Import base tactics list numbers strings gmap sorting.
From Stdlib Require Import SpecFloat.
From S2P Require Import Prelude RustStr Json Rounding Float Score UnitScore.
Open Scope Z_scope.

#[local] Existing Instance F64.

(** ** Strategies *)

Definition DEFAULT_RRF_K : Z := 60.

Inductive FusionStrategyError : Type :=
| RrfKZero
| WeightNaN
| WeightInfinite
| WeightNotPositive
| CustomNameEmpty.

(** [impl fmt::Display for FusionStrategyError] *)
Definition FusionStrategyError_fmt (self : FusionStrategyError) : string :=
  match self with
  | RrfKZero => "Rrf k must be >= 1"
  | WeightNaN => "Weighted weights must not contain NaN"
  | WeightInfinite => "Weighted weights must not contain infinity"
  | WeightNotPositive => "WeightedRrf weights must be strictly positive"
  | CustomNameEmpty => "Custom strategy name must not be empty"
  end.

Inductive RawFusionStrategy : Type :=
| RawRrf (k : Z)
| RawWeighted (weights : list f64)
| RawWeightedRrf (k : Z) (weights : list f64)
| RawUnion
| RawVectorOnly
| RawKeywordOnly
| RawCustom (name : string) (params : Value).

Inductive FusionStrategy : Type :=
| Rrf (k : Z)
| Weighted (weights : list f64)
| WeightedRrf (k : Z) (weights : list f64)
| Union
| VectorOnly
| KeywordOnly
| Custom (name : string) (params : Value).

Definition FusionStrategy_default : FusionStrategy := Rrf DEFAULT_RRF_K.

Definition try_rrf (k : Z) : result FusionStrategy FusionStrategyError :=
  if k =? 0 then Err RrfKZero else Ok (Rrf k).

Definition rrf_with_k (k : Z) : FusionStrategy := Rrf (Z.max k 1).

Definition check_weight (w : f64) : result unit FusionStrategyError :=
  if is_nan w then Err WeightNaN else if is_infinite w then Err WeightInfinite else Ok ().

Definition try_weighted (weights : list f64) : result FusionStrategy FusionStrategyError :=
  check? try_each check_weight weights in Ok (Weighted weights).

(** [expect]: [None] is a panic. *)
Definition weighted (weights : list f64) : option FusionStrategy :=
  match try_weighted weights with Ok s => Some s | Err _ => None end.

Definition check_rrf_weight (weight : f64) : result unit FusionStrategyError :=
  if is_nan weight then Err WeightNaN
  else if is_infinite weight then Err WeightInfinite
  else if fle weight zero64 then Err WeightNotPositive
  else Ok ().

Definition validate_weighted_rrf_params (k : Z) (weights : list f64) : result unit FusionStrategyError :=
  if k =? 0 then Err RrfKZero else try_each check_rrf_weight weights.

Definition try_weighted_rrf (k : Z) (weights : list f64) : result FusionStrategy FusionStrategyError :=
  check? validate_weighted_rrf_params k weights in Ok (WeightedRrf k weights).

Definition weighted_rrf (k : Z) (weights : list f64) : option FusionStrategy :=
  match try_weighted_rrf k weights with Ok s => Some s | Err _ => None end.

Definition try_custom (name : string) (params : Value) : result FusionStrategy FusionStrategyError :=
  if is_empty name then Err CustomNameEmpty else Ok (Custom name params).

(** [impl TryFrom<RawFusionStrategy> for FusionStrategy] *)
Definition FusionStrategy_try_from (raw : RawFusionStrategy) : result FusionStrategy FusionStrategyError :=
  match raw with
  | RawRrf k => try_rrf k
  | RawWeighted weights => try_weighted weights
  | RawWeightedRrf k weights => try_weighted_rrf k weights
  | RawUnion => Ok Union
  | RawVectorOnly => Ok VectorOnly
  | RawKeywordOnly => Ok KeywordOnly
  | RawCustom name params => try_custom name params
  end.

(** ** Errors of [fuse] *)

Inductive FuseError : Type :=
| CustomRequiresRuntime (name : string)
| InvalidWeightedRrfStrategy (error : FusionStrategyError)
| WeightedRrfWeightCountMismatch (source_count weight_count : nat)
| WeightedRrfScoreOverflow.

(** [impl fmt::Display for FuseError] *)
Definition FuseError_fmt (self : FuseError) : string :=
  match self with
  | CustomRequiresRuntime name =>
      "custom strategy '" +:+ name +:+ "' requires runtime FusionExecutor dispatch"
  | InvalidWeightedRrfStrategy error =>
      "invalid WeightedRrf strategy: " +:+ FusionStrategyError_fmt error
  | WeightedRrfWeightCountMismatch source_count weight_count =>
      "WeightedRrf requires one weight per source slot: got " +:+ fmt_nat weight_count
      +:+ " weights for " +:+ fmt_nat source_count +:+ " sources"
  | WeightedRrfScoreOverflow => "WeightedRrf score exceeds the finite deterministic score range"
  end.

(** ** Iterating a [HashMap] *)

(** The order in which a hash map is iterated is arbitrary. *)
Class HashIter (Id : Type) `{Countable Id} := hash_iter : ∀ V, gmap Id V → list (Id * V).
Arguments hash_iter {_ _ _ _} {V} m : assert.

Class HashIterLaws (Id : Type) `{HashIter Id} := {
  hash_iter_perm {V} (m : gmap Id V) : hash_iter m ≡ₚ map_to_list m
}.

Section fusion.
Context {Id : Type} `{Countable Id, !HashIter Id, Ord Id}.

(** A ranked source. *)
Definition source : Type := list (Id * DeterministicScore).

Definition cmp_desc_then_id (a b : Id * DeterministicScore) : comparison :=
  Score.cmp_desc_then_id a.2 a.1 b.2 b.1.

(** [combined.into_iter().collect()] sorted with the comparator. *)
Definition ranked (combined : gmap Id DeterministicScore) : source :=
  sort_by cmp_desc_then_id (hash_iter combined).

(** ** Reciprocal rank fusion *)

(** The body of the inner loop: [seen_in_source] and [combined]. *)
Definition rrf_step (k : Z) (acc : gset Id * gmap Id DeterministicScore)
    (r : nat * (Id * DeterministicScore)) : gset Id * gmap Id DeterministicScore :=
  let '(seen_in_source, combined) := acc in
  let '(rank_0_indexed, (id, _)) := r in
  if decide (id ∈ seen_in_source) then (seen_in_source, combined)
  else
    let rank_1_indexed := Z.of_nat rank_0_indexed + 1 in
    let contribution := rrf_score rank_1_indexed k in
    let entry := default ZERO (combined !! id) in
    ({[id]} ∪ seen_in_source, <[id := score_add entry contribution]> combined).

Definition rrf_source (k : Z) (combined : gmap Id DeterministicScore) (results : source) :
    gmap Id DeterministicScore :=
  (foldl (rrf_step k) (∅, combined) (enumerate results)).2.

Definition reciprocal_rank_fusion (sources : list source) (k : Z) : source :=
  match sources with
  | [] => []
  | _ => ranked (foldl (rrf_source (Z.max k 1)) ∅ sources)
  end.

(** ** Union fusion *)

(** [entry(id).and_modify(..).or_insert(score)] keeping the maximum. *)
Definition keep_max (combined : gmap Id DeterministicScore) (p : Id * DeterministicScore) :
    gmap Id DeterministicScore :=
  let '(id, score) := p in
  <[id := match combined !! id with
          | Some existing => if existing <? score then score else existing
          | None => score
          end]> combined.

Definition union_fusion (sources : list source) : source :=
  match sources with
  | [] => []
  | _ => ranked (foldl (λ combined results, foldl keep_max combined results) ∅ sources)
  end.

(** ** Weighted fusion *)

Definition SCORE_SCALE : Z := 4294967296.

Definition min_max_normalize_source (source : source) : list (Id * DeterministicScore) :=
  match source with
  | [] => []
  | p :: l =>
      let min := foldl Z.min p.2 l.*2 in
      let max := foldl Z.max p.2 l.*2 in
      let span := max - min in
      if span <=? 0 then (λ q, (q.1, from_raw SCORE_SCALE)) <$> source
      else
        (λ q, let numerator := (q.2 - min) * SCORE_SCALE in
              let normalized_raw := clampZ 0 I64_MAX (Z.quot numerator span) in
              (q.1, from_raw normalized_raw)) <$> source
  end.

Definition sanitize (w : f64) : f64 := if is_finite w && flt zero64 w then w else zero64.

(** [iter().sum()] over [f64] starts from negative zero. *)
Definition fsum64 (l : list f64) : f64 := foldl fadd (S754_zero true) l.

(** The weight of every source position. *)
Definition effective_weights (source_count : nat) (weights : list f64) : list f64 :=
  let sanitized := sanitize <$> weights in
  let active_count := Nat.min source_count (length sanitized) in
  let weight_sum := fsum64 (take active_count sanitized) in
  if negb (is_finite weight_sum) || fle weight_sum zero64 then
    let fallback_count := if (active_count =? 0)%nat then source_count else active_count in
    let equal := fdiv one (of_Z (Z.of_nat fallback_count)) in
    replicate fallback_count equal ++ replicate (source_count - fallback_count) zero64
  else
    (λ i, match sanitized !! i with Some w => fdiv w weight_sum | None => zero64 end)
      <$> seq 0 source_count.

(** Add the weighted best scores of one source. *)
Definition add_weighted (weight : f64) (combined : gmap Id DeterministicScore)
    (p : Id * DeterministicScore) : gmap Id DeterministicScore :=
  let '(id, score) := p in
  match weighted_sum [score] [weight] with
  | Err _ => combined
  | Ok w => <[id := score_add (default ZERO (combined !! id)) w]> combined
  end.

Definition weighted_source (normalized : list f64) (combined : gmap Id DeterministicScore)
    (s : nat * source) : gmap Id DeterministicScore :=
  let '(source_idx, results) := s in
  let weight := default zero64 (normalized !! source_idx) in
  if feq weight zero64 then combined
  else
    let source_best := foldl keep_max ∅ (min_max_normalize_source results) in
    foldl (add_weighted weight) combined (hash_iter source_best).

Definition weighted_fusion (sources : list source) (weights : list f64) : source :=
  match sources with
  | [] => []
  | _ =>
      let normalized := effective_weights (length sources) weights in
      ranked (foldl (weighted_source normalized) ∅ (enumerate sources))
  end.

(** ** Weighted reciprocal rank fusion *)

Definition validate_weighted_rrf (k : Z) (weights : list f64) (source_count : nat) :
    result unit FuseError :=
  match validate_weighted_rrf_params k weights with
  | Err e => Err (InvalidWeightedRrfStrategy e)
  | Ok _ =>
      if negb (source_count =? length weights)%nat
      then Err (WeightedRrfWeightCountMismatch source_count (length weights)) else Ok ()
  end.

(** [i64::checked_add] *)
Definition checked_add_i64 (a b : Z) : option Z :=
  if (I64_MIN <=? a + b) && (a + b <=? I64_MAX) then Some (a + b) else None.

Definition weighted_rrf_contribution (k : Z) (weight : f64) (rank_index : nat) : result Z FuseError :=
  let contribution := fround (fmul (of_Z (rrf_score (Z.of_nat rank_index + 1) k)) weight) in
  if negb (is_finite contribution) || fle (of_Z I64_MAX) contribution
  then Err WeightedRrfScoreOverflow
  else Ok (as_i64 contribution).

Fixpoint weighted_rrf_results (k : Z) (weight : f64) (seen_in_source : gset Id)
    (combined : gmap Id Z) (results : list (nat * (Id * DeterministicScore))) :
    result (gmap Id Z) FuseError :=
  match results with
  | [] => Ok combined
  | (rank_index, (id, _)) :: results' =>
      if decide (id ∈ seen_in_source)
      then weighted_rrf_results k weight seen_in_source combined results'
      else
        let? contribution := weighted_rrf_contribution k weight rank_index in
        match checked_add_i64 (default 0 (combined !! id)) contribution with
        | None => Err WeightedRrfScoreOverflow
        | Some total =>
            if total =? I64_MAX then Err WeightedRrfScoreOverflow
            else weighted_rrf_results k weight ({[id]} ∪ seen_in_source)
                   (<[id := total]> combined) results'
        end
  end.

Fixpoint weighted_rrf_sources (k : Z) (weights : list f64) (combined : gmap Id Z)
    (sources : list (nat * source)) : result (gmap Id Z) FuseError :=
  match sources with
  | [] => Ok combined
  | (source_index, results) :: sources' =>
      let weight := default zero64 (weights !! source_index) in
      let? combined := weighted_rrf_results k weight ∅ combined (enumerate results) in
      weighted_rrf_sources k weights combined sources'
  end.

Definition weighted_rrf_fusion (sources : list source) (k : Z) (weights : list f64) :
    result source FuseError :=
  check? validate_weighted_rrf k weights (length sources) in
  let? combined := weighted_rrf_sources k weights ∅ (enumerate sources) in
  Ok (sort_by cmp_desc_then_id ((λ p, (p.1, from_raw p.2)) <$> hash_iter combined)).

(** ** The entry point *)

Definition passthrough_source (sources : list source) (source_index : nat) : source :=
  match sources with
  | [s] => s
  | _ => default [] (sources !! source_index)
  end.

Definition fuse (sources : list source) (strategy : FusionStrategy) (top_k : nat) :
    result source FuseError :=
  if (match sources with [] => true | _ => false end) || (top_k =? 0)%nat then
    match strategy with
    | WeightedRrf k weights =>
        check? validate_weighted_rrf k weights (length sources) in Ok []
    | _ => Ok []
    end
  else
    let? fused :=
      match strategy with
      | Rrf k => Ok (reciprocal_rank_fusion sources k)
      | Weighted weights => Ok (weighted_fusion sources weights)
      | WeightedRrf k weights => weighted_rrf_fusion sources k weights
      | Union => Ok (union_fusion sources)
      | VectorOnly => Ok (passthrough_source sources 0)
      | KeywordOnly => Ok (passthrough_source sources 1)
      | Custom name _ => Err (CustomRequiresRuntime name)
      end in
    Ok (take top_k fused).
End fusion.

(** ** Weight helpers *)

Definition weights_are_normalized (weights : list f64) (tolerance : f64) : bool :=
  let sum := fsum64 (filter (λ w : f64, flt zero64 w = true) weights) in
  fle (fabs (fsub sum one)) tolerance.

Definition finite_positive (w : f64) : bool := is_finite w && flt zero64 w.

Definition normalize_weights (weights : list f64) : list f64 :=
  match weights with
  | [] => []
  | _ =>
      let weight_sum := fsum64 (filter (λ w : f64, finite_positive w = true) weights) in
      if negb (is_finite weight_sum) || fle weight_sum zero64 then
        replicate (length weights) (fdiv one (of_Z (Z.of_nat (length weights))))
      else (λ w, if finite_positive w then fdiv w weight_sum else zero64) <$> weights
  end.

(** The error is the index of the first weight that is not finite. *)
Definition try_normalize_weights (weights : list f64) : result (list f64) nat :=
  check? try_each (λ iw, if negb (is_finite iw.2) then Err iw.1 else Ok ()) (enumerate weights) in
  Ok (normalize_weights weights).
