(* ===== verification/FusionFacts.v ===== *)
(** Properties of rank fusion: independence of hash-map iteration order, what
    each strategy returns, and the entry point. *)

From Stdlib Require Import ZArith QArith Lqa Lia String.
From stdpp Require Import base tactics list numbers strings gmap sorting.
From Stdlib Require Import SpecFloat.
From S2P Require Import Prelude RustStr Json Rounding Float Score UnitScore Weights Fusion.
Open Scope Z_scope.

#[local] Existing Instance F64.

(** ** Ranking a map *)

Section ranking.
Context {Id : Type} `{Countable Id, Ord Id, !OrdLaws Id}.

#[export] Instance fusion_cmp_Comparator : Comparator (@cmp_desc_then_id Id _).
Proof. exact cmp_desc_Comparator. Qed.

Lemma fusion_cmp_Eq (a b : Id * DeterministicScore) : cmp_desc_then_id a b = Eq → a = b.
Proof.
  destruct a as [i s], b as [j t]. unfold cmp_desc_then_id, Score.cmp_desc_then_id, then_cmp. simpl.
  destruct (cmp t s) eqn:E; try done. intros Hij. apply cmp_eq in E, Hij. by subst.
Qed.

(** Sorting does not depend on the order of its input. *)
Lemma ranking_unique (l l' : list (Id * DeterministicScore)) :
  l ≡ₚ l' → sort_by cmp_desc_then_id l = sort_by cmp_desc_then_id l'.
Proof.
  intros Hp. apply (sort_by_unique _ _ _ Hp). intros a b _ _. apply fusion_cmp_Eq.
Qed.

Section iter.
Context `{!HashIter Id, !HashIterLaws Id}.

Lemma ranked_spec (m : gmap Id DeterministicScore) :
  StronglySorted (le_by cmp_desc_then_id) (ranked m) ∧ NoDup (ranked m).*1 ∧
  ∀ id s, (id, s) ∈ ranked m ↔ m !! id = Some s.
Proof.
  assert (Hp : ranked m ≡ₚ map_to_list m).
  { unfold ranked. by rewrite sort_by_Permutation, hash_iter_perm. }
  split; [apply sort_by_sorted, _|]. split.
  - rewrite Hp. apply NoDup_fst_map_to_list.
  - intros id s. by rewrite Hp, elem_of_map_to_list.
Qed.
End iter.

Lemma ranked_iter_independent (I1 I2 : HashIter Id) :
  HashIterLaws (H0 := I1) Id → HashIterLaws (H0 := I2) Id →
  ∀ m, ranked (HashIter0 := I1) m = ranked (HashIter0 := I2) m.
Proof.
  intros L1 L2 m. unfold ranked. apply ranking_unique.
  by rewrite (hash_iter_perm (H0 := I1)), (hash_iter_perm (H0 := I2)).
Qed.
End ranking.

(** ** Reciprocal rank fusion *)

Section rrf.
Context {Id : Type} `{Countable Id}.

(** The first position of an identifier in a source. *)
Fixpoint first_rank (id : Id) (results : list (Id * DeterministicScore)) : option nat :=
  match results with
  | [] => None
  | (j, _) :: results' => if decide (j = id) then Some 0%nat else S <$> first_rank id results'
  end.

(** What one source contributes to an identifier. *)
Definition rrf_contribution (k : Z) (id : Id) (results : list (Id * DeterministicScore)) :
    option DeterministicScore :=
  (λ i, rrf_score (Z.of_nat i + 1) k) <$> first_rank id results.

Lemma first_rank_Some id results : is_Some (first_rank id results) ↔ id ∈ results.*1.
Proof.
  induction results as [|[j s] l IH]; simpl.
  { split; [by intros []|by intros ?%elem_of_nil]. }
  rewrite elem_of_cons. destruct (decide (j = id)) as [->|Hne].
  - split; [by left|]. intros _. by eexists.
  - rewrite fmap_is_Some, IH. split; [by right|]. by intros [E|].
Qed.

Lemma rrf_steps k results n seen (m : gmap Id DeterministicScore) id :
  (foldl (rrf_step k) (seen, m) (zip (seq n (length results)) results)).2 !! id =
  if decide (id ∈ seen) then m !! id
  else match first_rank id results with
       | Some i => Some (score_add (default ZERO (m !! id)) (rrf_score (Z.of_nat (n + i) + 1) k))
       | None => m !! id
       end.
Proof.
  revert n seen m. induction results as [|[j s] l IH]; intros n seen m.
  { simpl. by destruct (decide (id ∈ seen)). }
  simpl length. simpl seq. simpl zip. simpl foldl. simpl first_rank.
  destruct (decide (j ∈ seen)) as [Hj|Hj]; rewrite IH.
  - destruct (decide (id ∈ seen)) as [Hid|Hid]; [done|].
    rewrite decide_False by (by intros ->). destruct (first_rank id l) as [i|]; simpl; [|done].
    by rewrite Nat.add_succ_r.
  - destruct (decide (j = id)) as [->|Hne].
    + rewrite decide_True by set_solver. rewrite decide_False by done.
      rewrite lookup_insert_eq, Nat.add_0_r. done.
    + rewrite lookup_insert_ne by done. destruct (decide (id ∈ seen)) as [Hid|Hid].
      * rewrite decide_True by set_solver. done.
      * rewrite decide_False by set_solver. destruct (first_rank id l) as [i|]; simpl; [|done].
        by rewrite Nat.add_succ_r.
Qed.

Lemma rrf_source_lookup k (m : gmap Id DeterministicScore) results id :
  rrf_source k m results !! id =
  match rrf_contribution k id results with
  | Some c => Some (score_add (default ZERO (m !! id)) c)
  | None => m !! id
  end.
Proof.
  unfold rrf_source, enumerate, rrf_contribution. rewrite rrf_steps.
  rewrite decide_False by set_solver. by destruct (first_rank id results).
Qed.

(** The contributions of all sources, in their order. *)
Definition rrf_contributions (k : Z) (id : Id) (sources : list (list (Id * DeterministicScore))) :
    list DeterministicScore :=
  omap (rrf_contribution k id) sources.

(** A fold whose steps add at most one contribution to an identifier. *)
Lemma foldl_contributions {A} (step : gmap Id DeterministicScore → A → gmap Id DeterministicScore)
    (contribution : A → option DeterministicScore) id l m :
  (∀ m a, step m a !! id = match contribution a with
                           | Some c => Some (score_add (default ZERO (m !! id)) c)
                           | None => m !! id
                           end) →
  foldl step m l !! id = match omap contribution l with
                         | [] => m !! id
                         | cs => Some (foldl score_add (default ZERO (m !! id)) cs)
                         end.
Proof.
  intros Hstep. revert m. induction l as [|a l IH]; intros m; [done|].
  cbn [foldl omap list_omap]. rewrite IH, Hstep. destruct (contribution a) as [c|]; [|done].
  by destruct (omap contribution l).
Qed.

Lemma rrf_sources_lookup k sources (m : gmap Id DeterministicScore) id :
  foldl (rrf_source k) m sources !! id =
  match rrf_contributions k id sources with
  | [] => m !! id
  | cs => Some (foldl score_add (default ZERO (m !! id)) cs)
  end.
Proof. apply foldl_contributions. intros. apply rrf_source_lookup. Qed.

(** Saturating sums of nonnegative scores are clamped exact sums. *)
Lemma foldl_score_add a cs :
  0 ≤ a → Forall (λ c, 0 ≤ c) cs →
  foldl score_add (clamp_score a) cs = clamp_score (a + foldr Z.add 0 cs).
Proof.
  intros Ha Hcs. revert a Ha. induction Hcs as [|c cs Hc _ IH]; intros a Ha; simpl.
  { by rewrite Z.add_0_r. }
  assert (score_add (clamp_score a) c = clamp_score (a + c)) as ->.
  { unfold score_add. rewrite from_arithmetic_raw_clamp. unfold clamp_score, clampZ.
    assert (NEG_INF ≤ 0) by done. assert (0 ≤ MAX) by done. lia. }
  rewrite IH by lia. f_equal. lia.
Qed.

Lemma rrf_contributions_nonneg k id sources :
  0 ≤ k → Forall (λ c, 0 ≤ c) (rrf_contributions k id sources).
Proof.
  intros Hk. apply Forall_forall. intros c Hc. apply list_elem_of_omap in Hc as (src & _ & Hc).
  unfold rrf_contribution in Hc. destruct (first_rank id src) as [i|]; [|done]. injection Hc as <-.
  apply rrf_score_bounds. lia.
Qed.

Context `{Ord Id, !OrdLaws Id, !HashIter Id, !HashIterLaws Id}.

(** Ranking a map of summed nonnegative contributions. *)
Lemma ranked_contributions (m : gmap Id DeterministicScore) (cs : Id → list DeterministicScore) :
  (∀ id, m !! id = match cs id with [] => None | l => Some (foldl score_add ZERO l) end) →
  (∀ id, Forall (λ c, 0 ≤ c) (cs id)) →
  StronglySorted (le_by cmp_desc_then_id) (ranked m) ∧ NoDup (ranked m).*1 ∧
  ∀ id s, (id, s) ∈ ranked m ↔ cs id ≠ [] ∧ s = clampZ NEG_INF MAX (foldr Z.add 0 (cs id)).
Proof.
  intros Hm Hcs. destruct (ranked_spec m) as (Hs & Hd & Hin). split_and!; [done..|].
  intros id s. rewrite Hin, Hm. specialize (Hcs id). destruct (cs id) as [|c l]; [naive_solver|].
  change ZERO with (clamp_score 0). rewrite foldl_score_add by done. rewrite Z.add_0_l.
  unfold clamp_score. naive_solver.
Qed.

(** C33: reciprocal rank fusion returns every identifier of the sources once, by
    descending score then identifier; its score is the clamped sum, over the
    sources that hold it, of the reciprocal of its best rank there. *)
Theorem reciprocal_rank_fusion_spec (sources : list (list (Id * DeterministicScore))) k :
  let out := reciprocal_rank_fusion sources k in
  StronglySorted (le_by cmp_desc_then_id) out ∧ NoDup out.*1 ∧
  (∀ id, id ∈ out.*1 ↔ ∃ src, src ∈ sources ∧ id ∈ src.*1) ∧
  ∀ id s, (id, s) ∈ out → s = clampZ NEG_INF MAX (foldr Z.add 0 (rrf_contributions (Z.max k 1) id sources)).
Proof.
  intros out.
  assert (Hout : out = match sources with [] => [] | _ => ranked (foldl (rrf_source (Z.max k 1)) ∅ sources) end)
    by done.
  destruct (decide (sources = [])) as [->|Hne].
  { rewrite Hout. split_and!; [constructor|constructor| |by intros ? ? ?%elem_of_nil].
    intros id. split; [by intros ?%elem_of_nil|by intros (src & ?%elem_of_nil & _)]. }
  assert (out = ranked (foldl (rrf_source (Z.max k 1)) ∅ sources)) as ->.
  { rewrite Hout. by destruct sources. }
  clear Hout. set (m := foldl _ _ _).
  destruct (ranked_contributions m (λ id, rrf_contributions (Z.max k 1) id sources)) as (Hs & Hd & Hin).
  { intros id. unfold m. by rewrite rrf_sources_lookup, lookup_empty. }
  { intros id. apply rrf_contributions_nonneg. lia. }
  split_and!; [done|done| |].
  - intros id. rewrite list_elem_of_fmap. split.
    + intros ([id' s] & -> & [Hne' _]%Hin). simpl.
      destruct (rrf_contributions _ _ _) as [|c cs] eqn:E; [done|].
      assert (c ∈ rrf_contributions (Z.max k 1) id' sources) as Hc by (rewrite E; left).
      apply list_elem_of_omap in Hc as (src & Hsrc & Hc). exists src. split; [done|].
      apply first_rank_Some. unfold rrf_contribution in Hc. by destruct (first_rank id' src).
    + intros (src & Hsrc & Hid). eexists (id, _). split; [done|]. apply Hin. split; [|done].
      intros E. apply first_rank_Some in Hid as [i Hi].
      assert (rrf_score (Z.of_nat i + 1) (Z.max k 1) ∈ rrf_contributions (Z.max k 1) id sources) as Hc.
      { apply list_elem_of_omap. exists src. split; [done|]. unfold rrf_contribution. by rewrite Hi. }
      rewrite E in Hc. by apply elem_of_nil in Hc.
  - by intros id s [_ ->]%Hin.
Qed.

(** Reciprocal rank fusion does not depend on the order of the sources. *)
Theorem reciprocal_rank_fusion_source_order (sources sources' : list (list (Id * DeterministicScore))) k :
  sources ≡ₚ sources' → reciprocal_rank_fusion sources k = reciprocal_rank_fusion sources' k.
Proof.
  intros Hp. destruct sources as [|s l], sources' as [|s' l'];
    [done|by apply Permutation_nil_cons in Hp|by symmetry in Hp; apply Permutation_nil_cons in Hp|].
  unfold reciprocal_rank_fusion. f_equal. apply map_eq. intros id.
  rewrite !rrf_sources_lookup, lookup_empty. simpl default.
  set (k1 := Z.max k 1). assert (Hk : 0 ≤ k1) by lia.
  assert (Hc : rrf_contributions k1 id (s :: l) ≡ₚ rrf_contributions k1 id (s' :: l'))
    by (unfold rrf_contributions; by rewrite Hp).
  pose proof (rrf_contributions_nonneg k1 id (s :: l) Hk) as N1.
  pose proof (rrf_contributions_nonneg k1 id (s' :: l') Hk) as N2.
  assert (Hsum : foldr Z.add 0 (rrf_contributions k1 id (s :: l)) =
                 foldr Z.add 0 (rrf_contributions k1 id (s' :: l'))).
  { rewrite <-!sumZ_foldr. by apply sumZ_perm. }
  destruct (rrf_contributions k1 id (s :: l)) as [|c cs], (rrf_contributions k1 id (s' :: l')) as [|c' cs'];
    [done|by apply Permutation_nil_cons in Hc|by symmetry in Hc; apply Permutation_nil_cons in Hc|].
  change ZERO with (clamp_score 0). by rewrite !foldl_score_add, Hsum.
Qed.
End rrf.

(** ** Union fusion *)

Section union.
Context {Id : Type} `{Countable Id}.

Lemma keep_max_lookup (m : gmap Id DeterministicScore) i s id :
  keep_max m (i, s) !! id =
  if decide (i = id)
  then Some (match m !! id with Some e => Z.max e s | None => s end)
  else m !! id.
Proof.
  unfold keep_max. destruct (decide (i = id)) as [->|Hne]; [|by rewrite lookup_insert_ne].
  rewrite lookup_insert_eq. f_equal. destruct (m !! id) as [e|]; [|done].
  destruct (Z.ltb_spec e s); unfold DeterministicScore in *; lia.
Qed.

(** Folding [keep_max] keeps the greatest of the map's score and the list's. *)
Lemma foldl_keep_max l (m : gmap Id DeterministicScore) id s :
  foldl keep_max m l !! id = Some s ↔
    ((id, s) ∈ l ∨ m !! id = Some s) ∧
    (∀ t, (id, t) ∈ l ∨ m !! id = Some t → t ≤ s).
Proof.
  revert m s. induction l as [|[i t] l IH]; intros m s.
  { simpl. split.
    - intros Hs. split; [by right|]. intros t [?%elem_of_nil|Ht]; [done|].
      assert (t = s) as -> by congruence. reflexivity.
    - by intros [[?%elem_of_nil|Hs] _]. }
  change (foldl keep_max m ((i, t) :: l)) with (foldl keep_max (keep_max m (i, t)) l).
  rewrite IH, keep_max_lookup. destruct (decide (i = id)) as [->|Hne].
  - set (u := match m !! id with Some e => Z.max e t | None => t end).
    assert (Hu : ∀ v, Some u = Some v ↔ v = u) by naive_solver. setoid_rewrite Hu.
    assert (Hu1 : t ≤ u ∧ (∀ e, m !! id = Some e → e ≤ u) ∧ (u = t ∨ m !! id = Some u)).
    { unfold u. destruct (m !! id) as [e|]; [|split_and!; [lia|done|by left]].
      split_and!; [lia|intros ? [= <-]; lia|].
      destruct (Z.max_spec e t) as [[_ ->]|[_ ->]]; [by left|by right]. }
    clearbody u. destruct Hu1 as (U1 & U2 & U3). split.
    + intros [Hs Hle]. split.
      * destruct Hs as [Hs| ->]; [left; by right|]. destruct U3 as [-> |U3]; [left; by left|by right].
      * intros v [[[= ->]|Hv]%elem_of_cons|Hv].
        -- specialize (Hle u (or_intror eq_refl)). lia.
        -- apply Hle. by left.
        -- specialize (Hle u (or_intror eq_refl)). specialize (U2 v Hv). lia.
    + intros [Hs Hle]. assert (Hus : u ≤ s).
      { destruct U3 as [-> |U3]; apply Hle; [left; by left|by right]. }
      split.
      * destruct Hs as [[[= ->]|Hs]%elem_of_cons|Hs]; [right; lia|by left|].
        right. specialize (U2 s Hs). lia.
      * intros v [Hv| ->]; [|done]. apply Hle. left. by right.
  - assert (Hc : ∀ v, (id, v) ∈ (i, t) :: l ↔ (id, v) ∈ l).
    { intros v. rewrite elem_of_cons. split; [|by right]. by intros [[= <-]|]. }
    setoid_rewrite Hc. done.
Qed.

Lemma foldl_keep_max_concat (sources : list (list (Id * DeterministicScore))) m :
  foldl (λ c r, foldl keep_max c r) m sources = foldl keep_max m (concat sources).
Proof.
  revert m. induction sources as [|s l IH]; intros m; simpl; [done|]. by rewrite IH, foldl_app.
Qed.

Context `{Ord Id, !OrdLaws Id, !HashIter Id, !HashIterLaws Id}.

(** Union fusion returns every identifier once, with the greatest score any
    source gives it, by descending score then identifier. *)
Theorem union_fusion_spec (sources : list (list (Id * DeterministicScore))) :
  let out := union_fusion sources in
  StronglySorted (le_by cmp_desc_then_id) out ∧ NoDup out.*1 ∧
  ∀ id s, (id, s) ∈ out ↔ (id, s) ∈ concat sources ∧ ∀ t, (id, t) ∈ concat sources → t ≤ s.
Proof.
  intros out. assert (Hout : out = match sources with [] => [] | _ =>
    ranked (foldl keep_max ∅ (concat sources)) end).
  { unfold out, union_fusion. rewrite foldl_keep_max_concat. done. }
  destruct (decide (sources = [])) as [->|Hne].
  { rewrite Hout. split_and!; [constructor|constructor|]. intros id s. simpl.
    split; [by intros ?%elem_of_nil|by intros [?%elem_of_nil _]]. }
  assert (out = ranked (foldl keep_max ∅ (concat sources))) as -> by (rewrite Hout; by destruct sources).
  destruct (ranked_spec (foldl keep_max ∅ (concat sources))) as (Hs & Hd & Hin).
  split_and!; [done|done|]. intros id s. rewrite Hin, foldl_keep_max, lookup_empty. naive_solver.
Qed.
End union.

(** ** Iteration order *)

Section iteration_order.
Context {Id : Type} `{Countable Id, Ord Id, !OrdLaws Id}.

Lemma add_weighted_comm w (m : gmap Id DeterministicScore) p q :
  p.1 ≠ q.1 → add_weighted w (add_weighted w m p) q = add_weighted w (add_weighted w m q) p.
Proof.
  destruct p as [i s], q as [j t]. simpl. intros Hne. unfold add_weighted.
  destruct (weighted_sum [s] [w]) as [a|], (weighted_sum [t] [w]) as [b|]; try done.
  rewrite !lookup_insert_ne by done. apply insert_insert_ne. congruence.
Qed.

Lemma foldl_add_weighted_perm w l l' (m : gmap Id DeterministicScore) :
  l ≡ₚ l' → NoDup l.*1 → foldl (add_weighted w) m l = foldl (add_weighted w) m l'.
Proof.
  intros Hp. revert m. induction Hp as [|p l l' _ IH|p q l|l1 l2 l3 Hp1 IH1 _ IH2]; intros m Hd; simpl.
  - done.
  - apply NoDup_cons in Hd as [_ Hd]. by apply IH.
  - f_equal. apply add_weighted_comm. simpl in Hd. apply NoDup_cons in Hd as [Hn _]. set_solver.
  - rewrite IH1 by done. apply IH2. by rewrite <-Hp1.
Qed.

(** The fused ranking is the same whatever order the hash maps iterate in. *)
Theorem fuse_iteration_order (I1 I2 : HashIter Id) (L1 : HashIterLaws (H0 := I1) Id)
    (L2 : HashIterLaws (H0 := I2) Id) (sources : list (list (Id * DeterministicScore))) strategy top_k :
  fuse (HashIter0 := I1) sources strategy top_k = fuse (HashIter0 := I2) sources strategy top_k.
Proof.
  pose proof (ranked_iter_independent I1 I2 L1 L2) as Hr.
  assert (Hw : ∀ normalized m s, weighted_source (HashIter0 := I1) normalized m s =
    weighted_source (HashIter0 := I2) normalized m s).
  { intros normalized m [i results]. unfold weighted_source. destruct (feq _ zero64); [done|].
    apply foldl_add_weighted_perm.
    - by rewrite (hash_iter_perm (H0 := I1)), (hash_iter_perm (H0 := I2)).
    - rewrite (hash_iter_perm (H0 := I1)). apply NoDup_fst_map_to_list. }
  unfold fuse. destruct (_ || _); [done|]. destruct strategy as [k|ws|k ws| | | |]; try done.
  - unfold reciprocal_rank_fusion. destruct sources; [done|]. by rewrite Hr.
  - unfold weighted_fusion. destruct sources as [|s l] eqn:E; [done|]. rewrite <-E. clear E s l.
    assert (Hfold : ∀ ns l m, foldl (weighted_source (HashIter0 := I1) ns) m l =
      foldl (weighted_source (HashIter0 := I2) ns) m l).
    { intros ns l. induction l as [|s l IH]; intros m; simpl; [done|]. by rewrite Hw, IH. }
    by rewrite Hr, Hfold.
  - unfold weighted_rrf_fusion. destruct (validate_weighted_rrf _ _ _); [|done]. cbn [res_bind].
    destruct (weighted_rrf_sources _ _ _ _); [|done]. cbn [res_bind]. do 2 f_equal.
    apply ranking_unique. by rewrite (hash_iter_perm (H0 := I1)), (hash_iter_perm (H0 := I2)).
  - unfold union_fusion. destruct sources; [done|]. by rewrite Hr.
Qed.
End iteration_order.

(** ** The entry point *)

Section entry.
Context {Id : Type} `{Countable Id, !HashIter Id, Ord Id}.

(** A smaller limit returns a prefix of what a larger one returns, and no
    result exceeds its limit. *)
Theorem fuse_top_k (sources : list (list (Id * DeterministicScore))) strategy top_k top_k' out :
  (top_k ≤ top_k')%nat → fuse sources strategy top_k' = Ok out →
  fuse sources strategy top_k = Ok (take top_k out) ∧ (length out ≤ top_k')%nat.
Proof.
  intros Hle. unfold fuse. destruct sources as [|src srcs]; cbn [orb].
  { destruct strategy; cbn [res_bind]; try (intros [= <-]; rewrite take_nil; split; [done|simpl; lia]).
    intros ([] & Hv & [= <-])%res_bind_Ok. rewrite Hv, take_nil. split; [done|simpl; lia]. }
  set (sources := src :: srcs). destruct (Nat.eqb_spec top_k' 0) as [->|Hk'].
  { assert (top_k = 0)%nat as -> by lia. cbn [Nat.eqb]. intros Hout. rewrite Hout.
    assert (out = []) as ->; [|by rewrite take_nil]. destruct strategy; try congruence.
    by apply res_bind_Ok in Hout as ([] & _ & [= <-]). }
  intros (fused & Hf & [= <-])%res_bind_Ok. split; [|rewrite length_take; lia].
  destruct (Nat.eqb_spec top_k 0) as [->|Hk].
  - destruct strategy; try done. unfold weighted_rrf_fusion in Hf.
    apply res_bind_Ok in Hf as ([] & Hv & _). by rewrite Hv.
  - rewrite Hf. cbn [res_bind]. f_equal. rewrite take_take. f_equal. lia.
Qed.
End entry.

(** ** Weighted reciprocal rank fusion *)

Section weighted_rrf.
Context {Id : Type} `{Countable Id}.

(** The rounded product a source of some weight gives to a rank. *)
Definition weighted_contribution (k : Z) (weight : f64) (rank_index : nat) : Z :=
  as_i64 (fround (fmul (of_Z (rrf_score (Z.of_nat rank_index + 1) k)) weight)).

Lemma weighted_rrf_contribution_Ok k weight i c :
  weighted_rrf_contribution k weight i = Ok c → c = weighted_contribution k weight i.
Proof.
  unfold weighted_rrf_contribution, weighted_contribution. destruct (_ || _); [done|]. by intros [= <-].
Qed.

Lemma checked_add_i64_Some a b c : checked_add_i64 a b = Some c → c = a + b ∧ c ≤ I64_MAX.
Proof.
  unfold checked_add_i64. destruct (Z.leb_spec I64_MIN (a + b)); [|done].
  destruct (Z.leb_spec (a + b) I64_MAX); [|done]. by intros [= <-].
Qed.

Lemma weighted_rrf_results_lookup k weight results n seen (m m' : gmap Id Z) id :
  weighted_rrf_results k weight seen m (zip (seq n (length results)) results) = Ok m' →
  m' !! id =
    if decide (id ∈ seen) then m !! id
    else match first_rank id results with
         | Some i => Some (default 0 (m !! id) + weighted_contribution k weight (n + i))
         | None => m !! id
         end.
Proof.
  revert n seen m. induction results as [|[j s] l IH]; intros n seen m.
  { simpl. intros [= <-]. by destruct (decide (id ∈ seen)). }
  simpl length. simpl seq. simpl zip. simpl weighted_rrf_results. simpl first_rank.
  destruct (decide (j ∈ seen)) as [Hj|Hj].
  - intros Hr. rewrite (IH _ _ _ Hr). destruct (decide (id ∈ seen)) as [Hid|Hid]; [done|].
    rewrite decide_False by (by intros ->). destruct (first_rank id l) as [i|]; simpl; [|done].
    by rewrite Nat.add_succ_r.
  - intros (c & ->%weighted_rrf_contribution_Ok & Hr)%res_bind_Ok.
    destruct (checked_add_i64 _ _) as [total|] eqn:Et; [|done].
    apply checked_add_i64_Some in Et as [-> _]. destruct (_ =? I64_MAX); [done|].
    rewrite (IH _ _ _ Hr). destruct (decide (j = id)) as [->|Hne].
    + rewrite decide_True by set_solver. rewrite decide_False by done.
      by rewrite lookup_insert_eq, Nat.add_0_r.
    + rewrite lookup_insert_ne by done. destruct (decide (id ∈ seen)) as [Hid|Hid].
      * by rewrite decide_True by set_solver.
      * rewrite decide_False by set_solver. destruct (first_rank id l) as [i|]; simpl; [|done].
        by rewrite Nat.add_succ_r.
Qed.

(** No stored total is the sentinel [i64::MAX]. *)
Lemma weighted_rrf_results_bound k weight results seen (m m' : gmap Id Z) :
  (∀ id s, m !! id = Some s → s < I64_MAX) →
  weighted_rrf_results k weight seen m results = Ok m' →
  ∀ id s, m' !! id = Some s → s < I64_MAX.
Proof.
  revert seen m. induction results as [|[n [j s]] l IH]; intros seen m Hm; simpl.
  { by intros [= <-]. }
  destruct (decide (j ∈ seen)); [by apply IH|].
  intros (c & _ & Hr)%res_bind_Ok. destruct (checked_add_i64 _ _) as [total|] eqn:Et; [|done].
  apply checked_add_i64_Some in Et as [_ Ht].
  destruct (Z.eqb_spec total I64_MAX); [done|]. revert Hr. apply IH.
  intros id t. rewrite lookup_insert_Some. intros [[_ <-]|[_ Hl]]; [lia|by eapply Hm].
Qed.

(** The contributions to an identifier, source by source. *)
Definition weighted_contributions (k : Z) (weights : list f64) (id : Id) (n : nat)
    (sources : list (list (Id * DeterministicScore))) : list Z :=
  omap (λ js, weighted_contribution k (default zero64 (weights !! js.1)) <$> first_rank id js.2)
    (zip (seq n (length sources)) sources).

Lemma weighted_rrf_sources_lookup k weights sources n (m m' : gmap Id Z) :
  weighted_rrf_sources k weights m (zip (seq n (length sources)) sources) = Ok m' →
  (∀ id s, m !! id = Some s → s < I64_MAX) →
  (∀ id s, m' !! id = Some s → s < I64_MAX) ∧
  ∀ id, m' !! id = match weighted_contributions k weights id n sources with
                   | [] => m !! id
                   | cs => Some (foldl Z.add (default 0 (m !! id)) cs)
                   end.
Proof.
  revert n m. induction sources as [|src l IH]; intros n m.
  { simpl. by intros [= <-] Hm. }
  simpl length. simpl seq. simpl zip. simpl weighted_rrf_sources.
  intros (m1 & H1 & Hr)%res_bind_Ok Hm.
  pose proof (weighted_rrf_results_bound _ _ _ _ _ _ Hm H1) as Hm1.
  destruct (IH _ _ Hr Hm1) as [Hb Hl]. split; [done|]. intros id. rewrite Hl.
  unfold enumerate in H1. rewrite (weighted_rrf_results_lookup _ _ _ _ _ _ _ id H1).
  rewrite decide_False by set_solver.
  assert (Hc : weighted_contributions k weights id n (src :: l) =
    match first_rank id src with
    | Some i => weighted_contribution k (default zero64 (weights !! n)) i
                  :: weighted_contributions k weights id (S n) l
    | None => weighted_contributions k weights id (S n) l
    end).
  { unfold weighted_contributions. simpl. by destruct (first_rank id src). }
  rewrite Hc. destruct (first_rank id src) as [i|]; [|done].
  by destruct (weighted_contributions k weights id (S n) l).
Qed.

Lemma weighted_contribution_nonneg k weight i :
  0 ≤ k → valid weight → is_finite weight = true → (0 <= fval weight)%Q →
  0 ≤ weighted_contribution k weight i.
Proof.
  intros Hk V Fw Pw. unfold weighted_contribution.
  pose proof (rrf_score_bounds (Z.of_nat i + 1) k ltac:(lia)) as Hb.
  set (r := rrf_score _ k) in *. destruct (small_int r ltac:(lia)) as (Vr & Fr & Er).
  assert (Hn : nonneg (fmul (of_Z r) weight)).
  { eapply rnd_nonneg; [by apply fmul_rnd|]. rewrite Er. apply Qmult_le_0_compat; [|done].
    change 0%Q with (inject_Z 0). rewrite <-Zle_Qle. lia. }
  apply nonneg_cases in Hn as [Vm [->|[Fm Pm]]]; [done|].
  destruct (fround_exact _ Fm Vm) as [F1 E1]. destruct (Qround_away_sign (fval (fmul (of_Z r) weight))) as [S1 _].
  specialize (S1 Pm). set (n := Qround_away _) in *.
  destruct (fround (fmul (of_Z r) weight)) as [s| | |s m e]; try done.
  unfold as_i64, to_Z. rewrite (Qtrunc_inject n) by done. unfold clampZ, I64_MAX, I64_MIN. lia.
Qed.

Lemma check_rrf_weight_Ok w :
  check_rrf_weight w = Ok () ↔ is_finite w = true ∧ fle w zero64 = false.
Proof.
  unfold check_rrf_weight, is_finite. destruct (is_nan w); simpl; [naive_solver|].
  destruct (is_infinite w); simpl; [naive_solver|]. destruct (fle w zero64); naive_solver.
Qed.

Lemma validate_weighted_rrf_Ok k weights n :
  validate_weighted_rrf k weights n = Ok () ↔
  k ≠ 0 ∧ Forall (λ w, is_finite w = true ∧ fle w zero64 = false) weights ∧ n = length weights.
Proof.
  unfold validate_weighted_rrf, validate_weighted_rrf_params.
  assert (Hf : try_each check_rrf_weight weights = Ok () ↔
    Forall (λ w, is_finite w = true ∧ fle w zero64 = false) weights).
  { rewrite try_each_Ok, !Forall_forall. by setoid_rewrite check_rrf_weight_Ok. }
  destruct (Z.eqb_spec k 0); [naive_solver|]. rewrite <-Hf.
  destruct (try_each check_rrf_weight weights) as [[]|]; [|naive_solver].
  destruct (Nat.eqb_spec n (length weights)); simpl; naive_solver.
Qed.

Lemma default_weight weights j :
  Forall valid weights → Forall (λ w, is_finite w = true ∧ fle w zero64 = false) weights →
  let w := default zero64 (weights !! j) in valid w ∧ is_finite w = true ∧ (0 <= fval w)%Q.
Proof.
  intros Vw Hw w. subst w. destruct (weights !! j) as [w|] eqn:Ew; [|done].
  rewrite Forall_forall in Hw, Vw. apply list_elem_of_lookup_2 in Ew.
  destruct (Hw w Ew) as [Fw Pw]. split_and!; [by apply Vw|done|]. simpl.
  apply Qlt_le_weak, Qnot_le_lt. change 0%Q with (fval zero64). rewrite <-fle_val by done. congruence.
Qed.

Lemma from_raw_map (l : list (Id * Z)) : (λ p, (p.1, from_raw p.2)) <$> l = l.
Proof. induction l as [|[i s] l IH]; [done|]. rewrite fmap_cons, IH. done. Qed.

Context `{Ord Id, !OrdLaws Id, !HashIter Id, !HashIterLaws Id}.

(** Weighted reciprocal rank fusion succeeds only on valid parameters; it
    then ranks every identifier once, each with the exact sum of its rounded
    weighted contributions, which is nonnegative and below the infinite score. *)
Theorem weighted_rrf_fusion_spec (sources : list (list (Id * DeterministicScore))) k weights out :
  0 ≤ k → Forall valid weights → weighted_rrf_fusion sources k weights = Ok out →
  (k ≠ 0 ∧ Forall (λ w, is_finite w = true ∧ fle w zero64 = false) weights ∧
   length sources = length weights) ∧
  StronglySorted (le_by cmp_desc_then_id) out ∧ NoDup out.*1 ∧
  ∀ id s, (id, s) ∈ out ↔ weighted_contributions k weights id 0 sources ≠ [] ∧
    s = foldr Z.add 0 (weighted_contributions k weights id 0 sources) ∧ 0 ≤ s < MAX.
Proof.
  intros Hk Vw. unfold weighted_rrf_fusion.
  intros ([] & Hv%validate_weighted_rrf_Ok & Hr)%res_bind_Ok.
  apply res_bind_Ok in Hr as (m & Hm & [= <-]). split; [done|]. destruct Hv as (_ & Hw & Hlen).
  unfold enumerate in Hm. apply weighted_rrf_sources_lookup in Hm as [Hb Hl]; [|by intros ? ? ?%lookup_empty_Some].
  set (l := (λ p : Id * Z, (p.1, from_raw p.2)) <$> hash_iter m).
  assert (Hp : l ≡ₚ map_to_list m).
  { unfold l. rewrite hash_iter_perm, from_raw_map. done. }
  split; [apply sort_by_sorted, _|]. split.
  { rewrite sort_by_Permutation, Hp. apply NoDup_fst_map_to_list. }
  intros id s. rewrite elem_of_sort_by, Hp, elem_of_map_to_list, Hl, lookup_empty. simpl default.
  specialize (Hb id s). rewrite Hl, lookup_empty in Hb. simpl default in Hb.
  assert (Hnn : Forall (λ c, 0 ≤ c) (weighted_contributions k weights id 0 sources)).
  { apply Forall_forall. intros c Hc. apply list_elem_of_omap in Hc as ([j src] & _ & Hc). simpl in Hc.
    destruct (first_rank id src) as [i|]; [|done]. injection Hc as <-.
    destruct (default_weight weights j Vw Hw) as (V & F & P). by apply weighted_contribution_nonneg. }
  set (cs := weighted_contributions k weights id 0 sources) in *.
  assert (Hfold : foldl Z.add 0 cs = foldr Z.add 0 cs) by apply sumZ_foldr.
  assert (Hpos : 0 ≤ foldr Z.add 0 cs) by (clear -Hnn; clearbody cs; induction Hnn; simpl in *; lia).
  destruct cs as [|c cs']; [naive_solver|]. rewrite Hfold in *.
  split; [intros [= <-]|intros (_ & -> & _)]; [|done]. split_and!; [done..|].
  by apply Hb.
Qed.
End weighted_rrf.

(** ** Strategies *)

(** The strategy a raw one describes. *)
Definition strategy_of (raw : RawFusionStrategy) : FusionStrategy :=
  match raw with
  | RawRrf k => Rrf k
  | RawWeighted weights => Weighted weights
  | RawWeightedRrf k weights => WeightedRrf k weights
  | RawUnion => Union
  | RawVectorOnly => VectorOnly
  | RawKeywordOnly => KeywordOnly
  | RawCustom name params => Custom name params
  end.

Definition strategy_wf (s : FusionStrategy) : Prop :=
  match s with
  | Rrf k => k ≠ 0
  | Weighted weights => Forall (λ w : f64, is_finite w = true) weights
  | WeightedRrf k weights => k ≠ 0 ∧ Forall (λ w : f64, is_finite w = true ∧ (0 < fval w)%Q) weights
  | Custom name _ => name ≠ ""%string
  | _ => True
  end.

Lemma check_weight_Ok w : check_weight w = Ok () ↔ is_finite w = true.
Proof. by destruct w. Qed.

Lemma rrf_weight_positive w :
  is_finite w = true ∧ fle w zero64 = false ↔ is_finite w = true ∧ (0 < fval w)%Q.
Proof.
  split; intros [F P]; (split; [done|]).
  - apply Qnot_le_lt. change 0%Q with (fval zero64). rewrite <-fle_val by done. congruence.
  - apply not_true_iff_false. rewrite fle_val by done. change (fval zero64) with 0%Q. lra.
Qed.

Lemma validate_params_Ok k weights :
  validate_weighted_rrf_params k weights = Ok () ↔
  k ≠ 0 ∧ Forall (λ w : f64, is_finite w = true ∧ (0 < fval w)%Q) weights.
Proof.
  unfold validate_weighted_rrf_params. destruct (Z.eqb_spec k 0); [naive_solver|].
  rewrite try_each_Ok, !Forall_forall. setoid_rewrite check_rrf_weight_Ok.
  setoid_rewrite rrf_weight_positive. naive_solver.
Qed.

Lemma validate_weighted_rrf_wf k ws n e :
  strategy_wf (WeightedRrf k ws) → validate_weighted_rrf k ws n ≠ Err (InvalidWeightedRrfStrategy e).
Proof.
  intros Hs%validate_params_Ok. unfold validate_weighted_rrf. rewrite Hs. by destruct (negb _).
Qed.

Section overflow.
Context {Id : Type} `{Countable Id}.

Lemma weighted_rrf_results_Err k w l seen (m : gmap Id Z) e :
  weighted_rrf_results k w seen m l = Err e → e = WeightedRrfScoreOverflow.
Proof.
  revert seen m. induction l as [|[n [i s]] l IH]; intros seen m; simpl; [done|].
  destruct (decide (i ∈ seen)); [apply IH|].
  unfold weighted_rrf_contribution. destruct (_ || _); cbn [res_bind]; [by intros [= <-]|].
  destruct (checked_add_i64 _ _); [|by intros [= <-]].
  destruct (_ =? I64_MAX); [by intros [= <-]|]. apply IH.
Qed.

Lemma weighted_rrf_sources_Err k ws l (m : gmap Id Z) e :
  weighted_rrf_sources k ws m l = Err e → e = WeightedRrfScoreOverflow.
Proof.
  revert m. induction l as [|[n results] l IH]; intros m; simpl; [done|].
  intros [E|(m' & _ & E)]%res_bind_Err; [by eapply weighted_rrf_results_Err|by eapply IH].
Qed.

Context `{!HashIter Id, Ord Id}.

Lemma fuse_wf (sources : list (list (Id * DeterministicScore))) s top_k e :
  strategy_wf s → fuse sources s top_k ≠ Err (InvalidWeightedRrfStrategy e).
Proof.
  intros Hs. unfold fuse. destruct (_ || _).
  { destruct s as [| |k ws| | | |]; try done.
    intros [E|([] & _ & E)]%res_bind_Err; [by eapply validate_weighted_rrf_wf|done]. }
  intros [E|(out & _ & E)]%res_bind_Err; [|done]. destruct s as [| |k ws| | | |]; try done.
  unfold weighted_rrf_fusion in E. apply res_bind_Err in E as [E|([] & _ & E)].
  - by eapply validate_weighted_rrf_wf.
  - apply res_bind_Err in E as [E|(? & _ & ?)]; [|done].
    by apply weighted_rrf_sources_Err in E.
Qed.
End overflow.

(** Deserialising a strategy accepts exactly the well-formed ones, as they
    are, and [fuse] never reports an accepted strategy as invalid. *)
Theorem FusionStrategy_try_from_spec raw s :
  (FusionStrategy_try_from raw = Ok s ↔ s = strategy_of raw ∧ strategy_wf s) ∧
  (strategy_wf s → ∀ {Id} `{Countable Id, !HashIter Id, Ord Id} (sources : list (list (Id * DeterministicScore))) top_k e,
     fuse sources s top_k ≠ Err (InvalidWeightedRrfStrategy e)).
Proof.
  split.
  - destruct raw as [k|ws|k ws| | | |name params]; simpl; try naive_solver.
    + unfold try_rrf. destruct (Z.eqb_spec k 0); naive_solver.
    + unfold try_weighted. rewrite res_bind_Ok. split.
      * intros ([] & Hw%try_each_Ok & [= <-]). split; [done|].
        eapply Forall_impl; [exact Hw|]. intros w. apply check_weight_Ok.
      * intros [-> Hw]. exists (). split; [|done]. apply try_each_Ok.
        eapply Forall_impl; [exact Hw|]. intros w. apply check_weight_Ok.
    + unfold try_weighted_rrf. rewrite res_bind_Ok. split.
      * intros ([] & Hw%validate_params_Ok & [= <-]). by split.
      * intros [-> Hw%validate_params_Ok]. by exists ().
    + unfold try_custom. destruct name; simpl; naive_solver.
  - intros Hs Id E C I O sources top_k e. by apply fuse_wf.
Qed.

(** ** Witnesses *)

#[export] Instance nat_HashIter : HashIter nat := λ V m, map_to_list m.

#[export] Instance nat_HashIterLaws : HashIterLaws nat.
Proof. split. intros V m. reflexivity. Qed.

Definition sample_sources : list (list (nat * DeterministicScore)) :=
  [[(7%nat, 900); (3%nat, 500); (7%nat, 100)]; [(3%nat, 40); (5%nat, 30)]].

Theorem reciprocal_rank_fusion_spec_witness :
  (reciprocal_rank_fusion sample_sources 60).*1 = [3; 7; 5]%nat ∧
  NoDup (reciprocal_rank_fusion sample_sources 60).*1.
Proof.
  split; [vm_compute; reflexivity|].
  apply (reciprocal_rank_fusion_spec sample_sources 60).
Defined.

Theorem reciprocal_rank_fusion_source_order_witness :
  reciprocal_rank_fusion sample_sources 60 = reciprocal_rank_fusion (reverse sample_sources) 60.
Proof.
  apply (reciprocal_rank_fusion_source_order sample_sources (reverse sample_sources) 60).
  symmetry. apply reverse_Permutation.
Defined.

Theorem union_fusion_spec_witness :
  union_fusion sample_sources = [(7%nat, 900); (3%nat, 500); (5%nat, 30)] ∧
  NoDup (union_fusion sample_sources).*1.
Proof.
  split; [vm_compute; reflexivity|]. apply (union_fusion_spec sample_sources).
Defined.

Theorem fuse_iteration_order_witness :
  fuse (HashIter0 := λ V m, reverse (map_to_list m)) sample_sources (Weighted [of_Z 3; of_Z 1]) 2 =
  fuse (HashIter0 := nat_HashIter) sample_sources (Weighted [of_Z 3; of_Z 1]) 2.
Proof.
  apply (fuse_iteration_order (λ V m, reverse (map_to_list m)) nat_HashIter).
  - split. intros V m. apply reverse_Permutation.
  - exact nat_HashIterLaws.
Defined.

Theorem fuse_top_k_witness :
  fuse sample_sources Union 2 = Ok (take 2 [(7%nat, 900); (3%nat, 500); (5%nat, 30)]).
Proof.
  destruct (fuse_top_k sample_sources Union 2 3 [(7%nat, 900); (3%nat, 500); (5%nat, 30)]) as [E _];
    [lia|vm_compute; reflexivity|exact E].
Defined.

Theorem weighted_rrf_fusion_spec_witness :
  ∃ out, weighted_rrf_fusion sample_sources 1 [of_Z 1; of_Z 2] = Ok out ∧
    out.*1 = [3; 5; 7]%nat ∧ NoDup out.*1.
Proof.
  destruct (weighted_rrf_fusion sample_sources 1 [of_Z 1; of_Z 2]) as [out|] eqn:E;
    [|exfalso; vm_compute in E; discriminate].
  exists out. split; [reflexivity|]. split; [vm_compute in E; injection E as <-; reflexivity|].
  apply (weighted_rrf_fusion_spec sample_sources 1 [of_Z 1; of_Z 2] out); [lia| |exact E].
  repeat constructor; apply of_Z_valid.
Defined.

Theorem FusionStrategy_try_from_spec_witness :
  fuse sample_sources (WeightedRrf 1 [of_Z 1]) 2 = Err (WeightedRrfWeightCountMismatch 2 1) ∧
  fuse sample_sources (WeightedRrf 1 [of_Z 1]) 2 ≠ Err (InvalidWeightedRrfStrategy RrfKZero).
Proof.
  split; [vm_compute; reflexivity|].
  apply (FusionStrategy_try_from_spec (RawWeightedRrf 1 [of_Z 1]) (WeightedRrf 1 [of_Z 1])).
  split; [discriminate|]. repeat constructor; vm_compute; reflexivity.
Defined.
