(* ===== verification/WeightedFacts.v ===== *)
(** Properties of weighted fusion: the per-source normalisation, the effective
    weights, the fused scores, and the standalone weight normalisation. *)

From Stdlib Require Import ZArith QArith Lqa Lia String.
From stdpp Require Import base tactics list numbers strings gmap sorting.
From Stdlib Require Import SpecFloat.
From S2P Require Import Prelude RustStr Json Rounding Float Score UnitScore Weights Fusion FusionFacts.
Open Scope Z_scope.

#[local] Existing Instance F64.

(** ** Normalising a source *)

(** The place of a score in the range of the scores of its source. *)
Definition normalize_in (scores : list DeterministicScore) (s : DeterministicScore) :
    DeterministicScore :=
  let lo := min_score scores in
  let hi := max_score scores in
  if hi - lo <=? 0 then SCORE_SCALE else Z.quot ((s - lo) * SCORE_SCALE) (hi - lo).

Lemma normalize_in_bounds scores s :
  s ∈ scores → 0 ≤ normalize_in scores s ≤ SCORE_SCALE.
Proof.
  intros Hs. assert (Hne : scores ≠ []) by (by intros ->; apply elem_of_nil in Hs).
  destruct (score_range scores Hne) as (Hb & _). rewrite Forall_forall in Hb. specialize (Hb s Hs).
  unfold normalize_in. cbv zeta. destruct (Z.leb_spec (max_score scores - min_score scores) 0); [done|].
  apply quot_bounds; [lia|]. unfold SCORE_SCALE. nia.
Qed.

Lemma normalize_in_mono scores s t : s ≤ t → min_score scores ≤ s → normalize_in scores s ≤ normalize_in scores t.
Proof.
  intros Hst Hs. unfold normalize_in. cbv zeta.
  destruct (Z.leb_spec (max_score scores - min_score scores) 0); [done|].
  apply Z.quot_le_mono; [lia|]. unfold SCORE_SCALE. nia.
Qed.

Section weighted.
Context {Id : Type} `{Countable Id}.

Lemma min_max_normalize_source_eq (results : list (Id * DeterministicScore)) :
  min_max_normalize_source results = (λ p, (p.1, normalize_in results.*2 p.2)) <$> results.
Proof.
  assert (Hin : ∀ p, p ∈ results → 0 ≤ normalize_in results.*2 p.2 ≤ SCORE_SCALE).
  { intros p Hp. apply normalize_in_bounds. by apply list_elem_of_fmap_2. }
  destruct results as [|p l] eqn:E; [done|]. unfold min_max_normalize_source. cbv zeta.
  change (foldl Z.min p.2 l.*2) with (min_score (p :: l).*2).
  change (foldl Z.max p.2 l.*2) with (max_score (p :: l).*2). rewrite <-E in *.
  revert Hin. unfold normalize_in. cbv zeta.
  destruct (_ <=? 0); intros Hin; apply list_fmap_ext; intros i q Hq; [done|].
  apply list_elem_of_lookup_2 in Hq. rewrite clampZ_id; [done|].
  destruct (Hin q Hq) as [H1 H2]. split; [exact H1|]. by apply (Z.le_trans _ _ _ H2).
Qed.

Lemma rescored_fst (f : DeterministicScore → DeterministicScore) (l : list (Id * DeterministicScore)) :
  ((λ p, (p.1, f p.2)) <$> l).*1 = l.*1.
Proof. induction l as [|q l IH]; [done|]. rewrite !fmap_cons, IH. done. Qed.

Lemma rescored_snd (f : DeterministicScore → DeterministicScore) (l : list (Id * DeterministicScore)) :
  ((λ p, (p.1, f p.2)) <$> l).*2 = f <$> l.*2.
Proof. induction l as [|q l IH]; [done|]. rewrite !fmap_cons, IH. done. Qed.

Lemma rescored_const (c : DeterministicScore) (l : list (Id * DeterministicScore)) :
  ((λ p, (p.1, c)) <$> l).*2 = replicate (length l.*2) c.
Proof. induction l as [|q l IH]; [done|]. rewrite !fmap_cons. simpl. f_equal. exact IH. Qed.

(** The source normalisation of khive-fusion is the fixed band of
    khive-score, identifier by identifier. *)
Theorem min_max_normalize_source_band (results : list (Id * DeterministicScore)) :
  (min_max_normalize_source results).*1 = results.*1 ∧
  (min_max_normalize_source results).*2 = min_max_band_fixed results.*2.
Proof.
  split.
  - rewrite min_max_normalize_source_eq. apply rescored_fst.
  - destruct results as [|p l]; [done|]. unfold min_max_normalize_source, min_max_band_fixed.
    cbn [fmap list_fmap]. change SCALE_RAW with SCORE_SCALE. cbv zeta. destruct (_ <=? 0).
    + apply (rescored_const SCORE_SCALE (p :: l)).
    + exact (rescored_snd _ (p :: l)).
Qed.

(** The best score a source gives an identifier. *)
Definition best_score (id : Id) (results : list (Id * DeterministicScore)) : option DeterministicScore :=
  match (filter (λ p, p.1 = id) results).*2 with
  | [] => None
  | l => Some (max_score l)
  end.

Lemma best_score_spec id results s :
  best_score id results = Some s ↔ (id, s) ∈ results ∧ ∀ t, (id, t) ∈ results → t ≤ s.
Proof.
  assert (Hin : ∀ t, t ∈ (filter (λ p, p.1 = id) results).*2 ↔ (id, t) ∈ results).
  { intros t. rewrite list_elem_of_fmap. split.
    - intros ([i u] & -> & [Hi Hp]%list_elem_of_filter). simpl in *. by subst i.
    - intros Hp. exists (id, t). split; [done|]. by apply list_elem_of_filter. }
  unfold best_score. destruct ((filter (λ p, p.1 = id) results).*2) as [|x l] eqn:E.
  { split; [done|]. intros [Hs _]. apply Hin in Hs. by apply elem_of_nil in Hs. }
  destruct (foldl_max_spec l x) as [H1 H2]. rewrite Forall_forall in H1.
  change (foldl Z.max x l) with (max_score (x :: l)) in *. setoid_rewrite <-Hin. split.
  - intros [= <-]. by split.
  - intros [Hs Hle]. f_equal. apply Z.le_antisymm; [by apply Hle|by apply H1].
Qed.

Lemma min_score_le (l : list DeterministicScore) s : s ∈ l → min_score l ≤ s.
Proof.
  intros Hs. assert (Hne : l ≠ []) by (by intros ->; apply elem_of_nil in Hs).
  destruct (score_range l Hne) as (Hb & _). rewrite Forall_forall in Hb. by apply Hb.
Qed.

(** The best scores of a rescored source. *)
Lemma source_best_lookup (results : list (Id * DeterministicScore)) id :
  foldl keep_max (∅ : gmap Id DeterministicScore) (min_max_normalize_source results) !! id =
  normalize_in results.*2 <$> best_score id results.
Proof.
  rewrite min_max_normalize_source_eq. apply option_eq. intros u.
  rewrite foldl_keep_max, lookup_empty, fmap_Some. setoid_rewrite best_score_spec. split.
  - intros [[Hu|?] Hle]; [|done]. apply list_elem_of_fmap in Hu as ([i s] & [= -> ->] & Hs).
    destruct (best_score i results) as [b|] eqn:Eb.
    + apply best_score_spec in Eb as [Hb Hmax]. exists b. split; [done|]. apply Z.le_antisymm.
      * apply normalize_in_mono; [by apply Hmax|]. by apply min_score_le, (list_elem_of_fmap_2 snd _ _ Hs).
      * apply Hle. left. apply list_elem_of_fmap. by exists (i, b).
    + exfalso. assert (Hf : (i, s) ∈ filter (λ p, p.1 = i) results) by (by apply list_elem_of_filter).
      unfold best_score in Eb. destruct (filter (λ p, p.1 = i) results); [by apply elem_of_nil in Hf|done].
  - intros (b & [Hb Hmax] & ->). split.
    + left. apply list_elem_of_fmap. by exists (id, b).
    + intros t [Ht|?]; [|done]. apply list_elem_of_fmap in Ht as ([i s] & [= -> ->] & Hs).
      apply normalize_in_mono; [by apply Hmax|]. by apply min_score_le, (list_elem_of_fmap_2 snd _ _ Hs).
Qed.

Lemma source_best_bounds (results : list (Id * DeterministicScore)) id u :
  foldl keep_max (∅ : gmap Id DeterministicScore) (min_max_normalize_source results) !! id = Some u →
  0 ≤ u ≤ SCALE_RAW.
Proof.
  rewrite source_best_lookup, fmap_Some. intros (b & [Hb _]%best_score_spec & ->).
  apply normalize_in_bounds, (list_elem_of_fmap_2 snd _ _ Hb).
Qed.

(** One source, one weight: the truncated fixed-point product. *)
Definition weighted_term_of (weight : f64) (u : DeterministicScore) : Z :=
  Z.quot (u * from_f64 weight) SCALE_RAW.

Lemma from_f64_unit w : unit_wf w → 0 ≤ from_f64 w ≤ SCALE_RAW.
Proof.
  intros Hw. destruct (unit_one) as (V1 & _). pose proof Hw as (V & H0 & H1).
  pose proof (from_f64_le zero64 w eq_refl V H0) as L0. pose proof (from_f64_le w one V V1 H1) as L1.
  assert (from_f64 zero64 = 0) as E0 by (vm_compute; reflexivity).
  assert (from_f64 one = SCALE_RAW) as E1 by (vm_compute; reflexivity). lia.
Qed.

Lemma weighted_term_of_bounds w u :
  unit_wf w → 0 ≤ u ≤ SCALE_RAW → 0 ≤ weighted_term_of w u ≤ SCALE_RAW.
Proof.
  intros Hw%from_f64_unit Hu. apply quot_bounds; [done|]. set (f := from_f64 w) in *. nia.
Qed.

Lemma weighted_sum_single w u :
  unit_wf w → 0 ≤ u ≤ SCALE_RAW → weighted_sum [u] [w] = Ok (weighted_term_of w u).
Proof.
  intros Hw Hu. unfold weighted_sum. cbn [length Nat.eqb negb zip weighted_acc].
  rewrite (unit_finite w Hw). cbn [negb res_bind]. f_equal.
  apply clampZ_id. pose proof (weighted_term_of_bounds w u Hw Hu). unfold weighted_term_of in *.
  assert (NEG_INF ≤ 0) by done. assert (SCALE_RAW ≤ MAX) by done. lia.
Qed.

Lemma add_weighted_lookup w l (m : gmap Id DeterministicScore) id :
  unit_wf w → NoDup l.*1 → Forall (λ p, 0 ≤ p.2 ≤ SCALE_RAW) l →
  foldl (add_weighted w) m l !! id =
  match (list_to_map l : gmap Id DeterministicScore) !! id with
  | Some u => Some (score_add (default ZERO (m !! id)) (weighted_term_of w u))
  | None => m !! id
  end.
Proof.
  intros Hw Hd Hl. revert m Hd. induction Hl as [|[i u] l Hu Hl IH]; intros m Hd; [done|].
  apply NoDup_cons in Hd as [Hi Hd]. cbn [foldl]. rewrite IH by done.
  assert (add_weighted w m (i, u) = <[i := score_add (default ZERO (m !! i)) (weighted_term_of w u)]> m) as ->.
  { unfold add_weighted. by rewrite weighted_sum_single. }
  rewrite list_to_map_cons. destruct (decide (i = id)) as [->|Hne].
  - rewrite !lookup_insert_eq. simpl in Hi. by rewrite (not_elem_of_list_to_map_1 l id Hi).
  - by rewrite !lookup_insert_ne.
Qed.

(** What a source of some weight contributes to an identifier. *)
Definition weighted_source_term (normalized : list f64) (id : Id)
    (s : nat * list (Id * DeterministicScore)) : option DeterministicScore :=
  let weight := default zero64 (normalized !! s.1) in
  if feq weight zero64 then None
  else weighted_term_of weight ∘ normalize_in s.2.*2 <$> best_score id s.2.

Context `{Ord Id, !OrdLaws Id, !HashIter Id, !HashIterLaws Id}.

Lemma weighted_source_lookup (normalized : list f64) (m : gmap Id DeterministicScore) s id :
  Forall (λ w : f64, unit_wf w) normalized →
  weighted_source normalized m s !! id =
  match weighted_source_term normalized id s with
  | Some c => Some (score_add (default ZERO (m !! id)) c)
  | None => m !! id
  end.
Proof.
  intros Hn. destruct s as [i results]. unfold weighted_source, weighted_source_term. cbn [fst snd].
  set (w := default zero64 (normalized !! i)).
  assert (Hw : unit_wf w).
  { unfold w. destruct (normalized !! i) as [x|] eqn:E; [|done].
    rewrite Forall_forall in Hn. by eapply Hn, list_elem_of_lookup_2. }
  destruct (feq w zero64); [done|]. set (best := foldl keep_max ∅ _).
  assert (Hp : hash_iter best ≡ₚ map_to_list best) by apply hash_iter_perm.
  assert (Hd : NoDup (hash_iter best).*1) by (rewrite Hp; apply NoDup_fst_map_to_list).
  rewrite (add_weighted_lookup w) by (try done; apply Forall_forall; intros [j u];
    rewrite Hp, elem_of_map_to_list; apply source_best_bounds).
  rewrite (list_to_map_proper _ _ Hd Hp), list_to_map_to_list.
  unfold best. rewrite source_best_lookup. by destruct (best_score id results).
Qed.
End weighted.

(** ** Effective weights *)

Lemma sanitize_wf w : valid w → weight_wf (sanitize w).
Proof.
  intros V. unfold sanitize. destruct (is_finite w && flt zero64 w) eqn:E.
  - apply andb_true_iff in E as [F P]. split; [|done]. split; [done|]. by apply flt_fle.
  - by split; [apply (nonneg_zero false)|].
Qed.

Lemma fsum64_spec l :
  Forall weight_wf l → nonneg (fsum64 l) ∧ Forall (λ w, fle w (fsum64 l) = true) l.
Proof.
  intros Hl. destruct (foldl_fadd_ge (λ x : f64, x) l (S754_zero true)) as (H1 & _ & H3).
  - apply nonneg_zero.
  - eapply Forall_impl; [exact Hl|]. by intros x [].
  - by split.
Qed.

(** The test that decides whether the sum can be divided by. *)
Lemma sum_positive l :
  Forall weight_wf l → negb (is_finite (fsum64 l)) || fle (fsum64 l) zero64 = false →
  is_finite (fsum64 l) = true ∧ (0 < fval (fsum64 l))%Q.
Proof.
  intros _ E. apply orb_false_iff in E as [F%negb_false_iff P]. split; [done|].
  apply Qnot_le_lt. change 0%Q with (fval zero64). rewrite <-fle_val by done. congruence.
Qed.

Lemma share_unit w l :
  Forall weight_wf l → w ∈ l → is_finite (fsum64 l) = true → (0 < fval (fsum64 l))%Q →
  unit_wf (fdiv w (fsum64 l)).
Proof.
  intros Hl Hw F P. destruct (fsum64_spec l Hl) as [[V _] Hle]. rewrite Forall_forall in Hl, Hle.
  destruct (Hl w Hw) as [Nw Fw]. apply fdiv_ratio_unit; try done.
  rewrite <-fle_val by done. by apply Hle.
Qed.

Lemma equal_share_unit n : (0 < n)%nat → unit_wf (fdiv one (of_Z (Z.of_nat n))).
Proof.
  intros Hn. apply fdiv_unit; [apply unit_one|apply of_Z_valid|].
  apply (rnd_ge _ _ one (of_Z_rnd (F := F64) (Z.of_nat n))); [done..|]. rewrite one_fval.
  change 1%Q with (inject_Z 1). rewrite <-Zle_Qle. lia.
Qed.

Lemma unit_zero : unit_wf zero64.
Proof. by split_and!. Qed.

Lemma Forall_replicate_eq_or {A} (P : A → Prop) n x : n = 0%nat ∨ P x → Forall P (replicate n x).
Proof. intros [-> |HP]; [constructor|by apply Forall_replicate]. Qed.

(** One weight in the unit interval per source. *)
Lemma effective_weights_unit n weights :
  Forall valid weights →
  length (effective_weights n weights) = n ∧ Forall (λ w : f64, unit_wf w) (effective_weights n weights).
Proof.
  intros Hv. unfold effective_weights. set (sanitized := sanitize <$> weights).
  set (active_count := Nat.min n (length sanitized)).
  assert (Hs : Forall weight_wf (take active_count sanitized)).
  { apply Forall_take, Forall_fmap. eapply Forall_impl; [exact Hv|]. intros w. apply sanitize_wf. }
  destruct (_ || _) eqn:E.
  - set (k := if (active_count =? 0)%nat then n else active_count).
    assert (Hk : (k ≤ n)%nat ∧ (k = 0 → n = 0)%nat).
    { unfold k. destruct (Nat.eqb_spec active_count 0); lia. }
    rewrite length_app, !length_replicate. split; [lia|]. apply Forall_app. split.
    + apply Forall_replicate_eq_or. destruct (decide (k = 0)%nat); [by left|right].
      apply equal_share_unit. lia.
    + apply Forall_replicate, unit_zero.
  - rewrite length_fmap, length_seq. split; [done|]. apply Forall_fmap, Forall_forall.
    intros i Hi%elem_of_seq. simpl. destruct (sanitized !! i) as [w|] eqn:Ew; [|apply unit_zero].
    destruct (sum_positive _ Hs E) as [F P]. apply share_unit; [done| |done..].
    apply list_elem_of_lookup. exists i. rewrite lookup_take_lt; [done|].
    apply lookup_lt_Some in Ew. unfold active_count. destruct Hi. apply Nat.min_glb_lt; [done|exact Ew].
Qed.

(** ** Weighted fusion *)

Section weighted_fused.
Context {Id : Type} `{Countable Id, Ord Id, !OrdLaws Id, !HashIter Id, !HashIterLaws Id}.

(** What the sources contribute to an identifier, in their order. *)
Definition weighted_terms (weights : list f64) (id : Id)
    (sources : list (list (Id * DeterministicScore))) : list DeterministicScore :=
  omap (weighted_source_term (effective_weights (length sources) weights) id) (enumerate sources).

Lemma default_unit (normalized : list f64) i :
  Forall (λ w : f64, unit_wf w) normalized → unit_wf (default zero64 (normalized !! i)).
Proof.
  intros Hn. destruct (normalized !! i) as [x|] eqn:E; [|apply unit_zero].
  rewrite Forall_forall in Hn. by eapply Hn, list_elem_of_lookup_2.
Qed.

Lemma weighted_source_term_nonneg normalized (id : Id) s c :
  Forall (λ w : f64, unit_wf w) normalized → weighted_source_term normalized id s = Some c → 0 ≤ c.
Proof.
  intros Hn. unfold weighted_source_term. cbv zeta. destruct (feq _ _); [done|].
  intros (b & [Hb _]%best_score_spec & ->)%fmap_Some.
  apply weighted_term_of_bounds; [by apply default_unit|].
  apply normalize_in_bounds, (list_elem_of_fmap_2 snd _ _ Hb).
Qed.

(** C39: weighted fusion ranks, once each and by descending score then
    identifier, the identifiers of the sources of nonzero effective weight; a
    score is the clamped sum of the weighted places of the identifier's best
    scores in the ranges of those sources. *)
Theorem weighted_fusion_spec (sources : list (list (Id * DeterministicScore))) weights :
  Forall valid weights →
  let out := weighted_fusion sources weights in
  StronglySorted (le_by cmp_desc_then_id) out ∧ NoDup out.*1 ∧
  ∀ id s, (id, s) ∈ out ↔ weighted_terms weights id sources ≠ [] ∧
    s = clampZ NEG_INF MAX (foldr Z.add 0 (weighted_terms weights id sources)).
Proof.
  intros Hv. destruct (effective_weights_unit (length sources) weights Hv) as [_ Hn].
  unfold weighted_terms. unfold weighted_fusion.
  destruct sources as [|src srcs] eqn:E.
  { split_and!; [constructor|constructor|]. intros id s. split; [by intros ?%elem_of_nil|by intros []]. }
  rewrite <-E in *. clear E src srcs. cbv zeta. apply ranked_contributions.
  - intros id. rewrite (foldl_contributions _
      (weighted_source_term (effective_weights (length sources) weights) id)); [by rewrite lookup_empty|].
    intros m s. by apply weighted_source_lookup.
  - intros id. apply Forall_forall. intros c Hc. apply list_elem_of_omap in Hc as ([i results] & _ & Hc).
    by eapply weighted_source_term_nonneg.
Qed.
End weighted_fused.

(** ** Standalone normalisation *)

Lemma finite_positive_wf w : valid w → finite_positive w = true → weight_wf w.
Proof.
  unfold finite_positive. intros V [F P]%andb_true_iff. split; [|done]. split; [done|]. by apply flt_fle.
Qed.

Lemma filter_positive_wf weights :
  Forall valid weights → Forall weight_wf (filter (λ w : f64, finite_positive w = true) weights).
Proof.
  intros Hv. apply Forall_forall. intros w [Hp Hw]%list_elem_of_filter.
  rewrite Forall_forall in Hv. by apply finite_positive_wf; [apply Hv|].
Qed.

Lemma normalize_weights_unit weights :
  Forall valid weights → Forall (λ w : f64, unit_wf w) (normalize_weights weights).
Proof.
  intros Hv. pose proof (filter_positive_wf weights Hv) as Hf. unfold normalize_weights.
  destruct weights as [|w0 ws] eqn:E; [done|]. rewrite <-E in *. cbv zeta. destruct (_ || _) eqn:Es.
  - apply Forall_replicate, equal_share_unit. subst. simpl. lia.
  - destruct (sum_positive _ Hf Es) as [F P]. apply Forall_fmap, Forall_forall. intros w Hw.
    cbn [compose]. destruct (finite_positive w) eqn:Ep; [|apply unit_zero].
    apply share_unit; [done| |done..]. by apply list_elem_of_filter.
Qed.

Lemma normalize_weights_mono (weights : list f64) i j (a b : f64) :
  Forall valid weights → weights !! i = Some a → weights !! j = Some b →
  is_finite b = true → fle a b = true →
  ∃ x y, normalize_weights weights !! i = Some x ∧ normalize_weights weights !! j = Some y ∧ fle x y = true.
Proof.
  intros Hv Ha Hb Fb Hab. pose proof (filter_positive_wf weights Hv) as Hf.
  pose proof (list_elem_of_lookup_2 _ _ _ Ha) as Ia. pose proof (list_elem_of_lookup_2 _ _ _ Hb) as Ib.
  pose proof (normalize_weights_unit weights Hv) as Hu. revert Hu.
  unfold normalize_weights. destruct weights as [|w0 ws] eqn:E; [by apply elem_of_nil in Ia|].
  rewrite <-E in *. clear E w0 ws. cbv zeta. destruct (_ || _) eqn:Es; intros Hu.
  { set (e := fdiv one _) in *. exists e, e.
    assert (Hi : replicate (length weights) e !! i = Some e) by (apply lookup_replicate_2; by eapply lookup_lt_Some).
    assert (Hj : replicate (length weights) e !! j = Some e) by (apply lookup_replicate_2; by eapply lookup_lt_Some).
    split_and!; [done..|]. apply fle_refl. rewrite Forall_forall in Hu.
    by destruct (Hu e (list_elem_of_lookup_2 _ _ _ Hi)) as (_ & _ & [? _]%fle_not_nan). }
  rewrite Forall_fmap, Forall_forall in Hu. pose proof (Hu a Ia) as Ua. pose proof (Hu b Ib) as Ub.
  rewrite !list_lookup_fmap, Ha, Hb. eexists _, _. split; [done|]. split; [done|]. cbn [compose] in Ua, Ub.
  destruct (sum_positive _ Hf Es) as [F P]. destruct (fsum64_spec _ Hf) as [[Vs _] _].
  rewrite Forall_forall in Hv. revert Ua Ub. destruct (finite_positive a) eqn:Ea; intros Ua Ub; [|apply Ub].
  assert (Eb : finite_positive b = true).
  { unfold finite_positive in *. apply andb_true_iff in Ea as [Fa Pa]. rewrite Fb. simpl.
    rewrite flt_val in * by done. rewrite fle_val in Hab by done. lra. }
  rewrite Eb. apply andb_true_iff in Ea as [Fa _].
  apply fdiv_mono_l; [by apply Hv|by apply Hv|done..].
Qed.

Lemma first_not_finite n (weights : list f64) :
  try_each (λ iw : nat * f64, if negb (is_finite iw.2) then Err iw.1 else Ok ())
    (zip (seq n (length weights)) weights) =
  match list_find (λ w : f64, is_finite w = false) weights with
  | Some (i, _) => Err (n + i)%nat
  | None => Ok ()
  end.
Proof.
  revert n. induction weights as [|w l IH]; intros n; [done|].
  cbn [length seq zip zip_with list_find try_each fst snd].
  destruct (is_finite w) eqn:E; cbn [negb res_bind].
  - rewrite decide_False by congruence. rewrite IH.
    destruct (list_find _ l) as [[i x]|]; simpl; [|done]. by rewrite Nat.add_succ_r.
  - rewrite decide_True by done. by rewrite Nat.add_0_r.
Qed.

(** Normalised weights keep the number and the order of the finite weights
    and lie in the unit interval, even when their sum overflows; the strict
    variant refuses exactly the first weight that is not finite. *)
Theorem normalize_weights_spec (weights : list f64) :
  Forall valid weights →
  let out := normalize_weights weights in
  length out = length weights ∧ Forall (λ w : f64, unit_wf w) out ∧
  (∀ i j (a b : f64), weights !! i = Some a → weights !! j = Some b → is_finite b = true → fle a b = true →
     ∃ x y, out !! i = Some x ∧ out !! j = Some y ∧ fle x y = true) ∧
  try_normalize_weights weights =
    match list_find (λ w : f64, is_finite w = false) weights with
    | Some (i, _) => Err i
    | None => Ok out
    end.
Proof.
  intros Hv out. split_and!.
  - unfold out, normalize_weights. destruct weights as [|w l]; [done|]. cbv zeta.
    destruct (_ || _); [by rewrite length_replicate|by rewrite length_fmap].
  - by apply normalize_weights_unit.
  - intros i j a b. by apply normalize_weights_mono.
  - etransitivity;
      [exact (f_equal (λ r, res_bind r (λ _, Ok (normalize_weights weights))) (first_not_finite 0 weights))|].
    by destruct (list_find _ _) as [[]|].
Qed.

(** ** Witnesses *)

Theorem weighted_fusion_spec_witness :
  weighted_fusion sample_sources [of_Z 3; of_Z 1; of_Z 9] =
    [(7%nat, 3221225472); (3%nat, 2684354560); (5%nat, 0)] ∧
  NoDup (weighted_fusion sample_sources [of_Z 3; of_Z 1; of_Z 9]).*1.
Proof.
  split; [vm_compute; reflexivity|]. apply (weighted_fusion_spec sample_sources).
  repeat constructor; apply of_Z_valid.
Defined.

Theorem normalize_weights_spec_witness :
  try_normalize_weights [of_Z 1; S754_nan; S754_infinity false] = Err 1%nat ∧
  length (normalize_weights [of_Z 1; S754_nan; S754_infinity false]) = 3%nat.
Proof.
  split; [vm_compute; reflexivity|].
  apply (normalize_weights_spec [of_Z 1; S754_nan; S754_infinity false]).
  repeat constructor; apply of_Z_valid.
Defined.
