(* ===== verification/Archive.v ===== *)
(** The portable archive of khive-runtime (portability.rs) and the data of
    khive-merge (types.rs): records, JSON equality, conflicts and errors. *)

From Stdlib Require Import ZArith NArith QArith String.
From stdpp Require Import base tactics list numbers strings gmap.
From Stdlib Require Import SpecFloat.
From S2P Require Import Prelude Json Float EdgeOntology.
Open Scope Z_scope.

(** ** [PartialEq] of [serde_json::Value] *)

(** Numbers of different representation differ; floats compare as [f64], which
    identifies the two zeros. *)
Definition number_eqb (a b : Number) : bool :=
  match a, b with
  | PosInt x, PosInt y => x =? y
  | NegInt x, NegInt y => x =? y
  | Float x, Float y => feq x y
  | _, _ => false
  end.

Fixpoint value_eqb (a b : Value) : bool :=
  match a, b with
  | VNull, VNull => true
  | VBool x, VBool y => Bool.eqb x y
  | VNumber x, VNumber y => number_eqb x y
  | VString x, VString y => String.eqb x y
  | VArray l, VArray k =>
      (fix go l k := match l, k with
                     | [], [] => true
                     | x :: l', y :: k' => value_eqb x y && go l' k'
                     | _, _ => false
                     end) l k
  | VObject l, VObject k =>
      (fix go l k := match l, k with
                     | [], [] => true
                     | (i, x) :: l', (j, y) :: k' => String.eqb i j && value_eqb x y && go l' k'
                     | _, _ => false
                     end) l k
  | _, _ => false
  end.

(** [PartialEq] of an [Option]. *)
Definition opt_eqb {A} (eqb : A → A → bool) (a b : option A) : bool :=
  match a, b with
  | None, None => true
  | Some x, Some y => eqb x y
  | _, _ => false
  end.

Definition opt_string_eqb : option string → option string → bool := opt_eqb String.eqb.

Fixpoint strings_eqb (a b : list string) : bool :=
  match a, b with
  | [], [] => true
  | x :: a', y :: b' => String.eqb x y && strings_eqb a' b'
  | _, _ => false
  end.

(** ** The archive *)

(** A [uuid::Uuid], ordered by its 128 bits. *)
Definition Uuid : Type := N.

(** An instant, [chrono::DateTime<Utc>]: only its order is used. *)
Definition Instant : Type := Z.

Record ExportedEntity : Type := {
  id : Uuid;
  kind : string;
  entity_type : option string;
  name : string;
  description : option string;
  properties : option Value;
  tags : list string;
  created_at : Instant;
  updated_at : Instant
}.

Record ExportedEdge : Type := {
  edge_id : Uuid;
  source : Uuid;
  target : Uuid;
  relation : EdgeRelation;
  weight : f64;
  edge_properties : option Value;
  edge_created_at : Instant;
  edge_updated_at : Instant
}.

Record KgArchive : Type := {
  format : string;
  version : string;
  namespace : string;
  exported_at : Instant;
  entities : list ExportedEntity;
  edges : list ExportedEdge
}.

(** ** Strategies, conflicts, errors *)

Inductive SnapshotMergeStrategy : Type := Auto | OursStrategy | TheirsStrategy.

Inductive BranchSide : Type := Ours | Theirs.

Inductive MergeConflict : Type :=
| NameConflict (entity_id : Uuid) (ours theirs : string)
| KindConflict (entity_id : Uuid) (ours theirs : string)
| PropertyMismatch (entity_id : Uuid) (key : string) (ours theirs : Value)
| ModifyDelete (entity_id : Uuid) (modified_in deleted_in : BranchSide)
| DuplicateAddition (entity_id : Uuid) (differing_fields : list string)
| EdgeModifyDelete (source_id target_id : Uuid) (relation : string) (modified_in deleted_in : BranchSide)
| EdgeIdentityMismatch (source_id target_id : Uuid) (relation : string) (ours theirs : Uuid)
| EdgeIdentityCollision (source_id target_id : Uuid) (relation : string)
    (attempted_edge_id retained_edge_id : Uuid)
| EdgePropertyMismatch (source_id target_id : Uuid) (relation : string) (ours theirs : option Value)
| DanglingEdge (source_id target_id : Uuid) (relation : string) (missing_endpoint : Uuid).

Inductive MergeResult : Type :=
| Clean (merged : KgArchive)
| Conflicts (conflicts : list MergeConflict).

Inductive MergeError : Type :=
| NamespaceMismatch (base ours theirs : string)
| InvalidEdgeWeight (message : string)
| DuplicateEntityId (entity_id : Uuid)
| DuplicateEdgeKey (edge_source edge_target : Uuid) (edge_relation : string)
| Internal (message : string).

(** ** Semantic edge keys *)

Record EdgeKey : Type := EKey { key_source : Uuid; key_target : Uuid; key_relation : string }.

#[export] Instance EdgeKey_eq_dec : EqDecision EdgeKey.
Proof. solve_decision. Defined.

Definition key_tuple (k : EdgeKey) : Uuid * (Uuid * string) :=
  (key_source k, (key_target k, key_relation k)).

#[export] Instance EdgeKey_Countable : Countable EdgeKey.
Proof.
  apply (inj_countable' key_tuple (λ p, EKey p.1 p.2.1 p.2.2)). by intros [].
Defined.

(** The comparator the code sorts keys with. *)
#[export] Instance EdgeKey_Ord : Ord EdgeKey := λ a b,
  then_cmp (then_cmp (cmp (key_source a) (key_source b)) (cmp (key_target a) (key_target b)))
    (cmp (key_relation a) (key_relation b)).

(** [EdgeKey::from_edge] *)
Definition from_edge (e : ExportedEdge) : EdgeKey :=
  let '(s, t) := canonical_endpoints (relation e) (source e) (target e) in
  EKey s t (as_str (relation e)).

(** ** Laws *)

#[export] Instance EdgeKey_OrdLaws : OrdLaws EdgeKey.
Proof.
  assert (E : ∀ a b : EdgeKey, cmp a b = cmp (key_tuple a) (key_tuple b)).
  { intros a b. unfold cmp, EdgeKey_Ord, prod_Ord. simpl. unfold cmp. simpl.
    by destruct (N_Ord (key_source a) (key_source b)). }
  split; intros *; rewrite ?E.
  - apply cmp_refl.
  - intros Hc%cmp_eq. destruct a, b. by injection Hc as -> -> ->.
  - apply cmp_flip.
  - apply cmp_trans.
Qed.

Lemma feq_sym a b : feq a b = feq b a.
Proof.
  unfold feq. destruct a as [s|s| |s m e], b as [s'|s'| |s' m' e']; try done;
    try (by destruct s, s'); try (by destruct s); try (by destruct s').
  all: unfold fcmp; rewrite <-Qcompare_antisym; by destruct (_ ?= _)%Q.
Qed.

Lemma number_eqb_sym a b : number_eqb a b = number_eqb b a.
Proof. destruct a, b; simpl; auto using Z.eqb_sym, feq_sym. Qed.

Lemma value_eqb_sym a b : value_eqb a b = value_eqb b a.
Proof.
  revert b. induction a as [|x|x|x|l IH|l IH] using Value_ind'; intros [|y|y|y|k|k]; try done; simpl.
  - by destruct x, y.
  - apply number_eqb_sym.
  - apply String.eqb_sym.
  - revert k. induction IH as [|x l Hx _ IHl]; intros [|y k]; try done. by rewrite Hx, IHl.
  - revert k. induction IH as [|[i x] l Hx _ IHl]; intros [|[j y] k]; try done.
    simpl in Hx. by rewrite String.eqb_sym, Hx, IHl.
Qed.

Lemma opt_eqb_sym {A} (eqb : A → A → bool) a b :
  (∀ x y, eqb x y = eqb y x) → opt_eqb eqb a b = opt_eqb eqb b a.
Proof. intros Hs. destruct a, b; simpl; auto. Qed.

(** JSON holds no NaN. *)
Definition number_ok (n : Number) : Prop := match n with Float f => is_nan f = false | _ => True end.

Fixpoint json_ok (v : Value) : Prop :=
  match v with
  | VNumber n => number_ok n
  | VArray l => (fix go l := match l with [] => True | x :: l' => json_ok x ∧ go l' end) l
  | VObject m => (fix go m := match m with [] => True | kv :: m' => json_ok kv.2 ∧ go m' end) m
  | _ => True
  end.

Lemma value_eqb_refl a : json_ok a → value_eqb a a = true.
Proof.
  induction a as [|x|x|x|l IH|l IH] using Value_ind'; simpl; intros Ha; try done.
  - by destruct x.
  - destruct x as [z|z|f]; simpl in *; [apply Z.eqb_refl..|].
    destruct f as [s|[]| |s m e]; try done. unfold feq, fcmp.
    rewrite (proj1 (Qeq_alt _ _)) by reflexivity. done.
  - apply String.eqb_refl.
  - induction IH as [|x l Hx _ IHl]; [done|]. destruct Ha as [Hax Hal]. by rewrite Hx, IHl.
  - induction IH as [|[i x] l Hx _ IHl]; [done|]. destruct Ha as [Hax Hal]. simpl in *.
    by rewrite String.eqb_refl, Hx, IHl.
Qed.

Lemma string_eqb_iff a b : String.eqb a b = true ↔ a = b.
Proof. apply String.eqb_eq. Qed.

Lemma opt_string_eqb_iff a b : opt_string_eqb a b = true ↔ a = b.
Proof.
  destruct a as [a|], b as [b|]; simpl; try done. rewrite string_eqb_iff.
  split; [by intros ->|by intros [= ->]].
Qed.

Lemma strings_eqb_iff a b : strings_eqb a b = true ↔ a = b.
Proof.
  revert b. induction a as [|x a IH]; intros [|y b]; simpl; try done.
  rewrite andb_true_iff, string_eqb_iff, IH. split; [by intros [-> ->]|by intros [= -> ->]].
Qed.

Lemma feq_trans a b c : feq a b = true → feq b c = true → feq a c = true.
Proof.
  unfold feq, fcmp. destruct a as [s|[]| |s m e], b as [s'|[]| |s' m' e'], c as [s''|[]| |s'' m'' e'']; try done;
    intros H1 H2;
    destruct (_ ?= _)%Q eqn:E1 in H1; try done; destruct (_ ?= _)%Q eqn:E2 in H2; try done;
    apply Qeq_alt in E1, E2; rewrite (proj1 (Qeq_alt _ _) (Qeq_trans _ _ _ E1 E2)); done.
Qed.

Lemma number_eqb_trans a b c : number_eqb a b = true → number_eqb b c = true → number_eqb a c = true.
Proof.
  destruct a, b, c; simpl; try done; [rewrite !Z.eqb_eq; congruence..|apply feq_trans].
Qed.

Lemma value_eqb_trans a b c : value_eqb a b = true → value_eqb b c = true → value_eqb a c = true.
Proof.
  revert b c. induction a as [|x|x|x|l IH|l IH] using Value_ind';
    intros [|y|y|y|k|k] [|z|z|z|h|h]; try done; simpl.
  - by destruct x, y, z.
  - apply number_eqb_trans.
  - rewrite !String.eqb_eq. congruence.
  - revert k h. induction IH as [|x l Hx _ IHl]; intros [|y k] [|z h]; try done.
    rewrite !andb_true_iff. intros [E1 L1] [E2 L2]. split; [by eapply Hx|by eapply IHl].
  - revert k h. induction IH as [|[i x] l Hx _ IHl]; intros [|[j y] k] [|[n z] h]; try done. simpl in Hx.
    rewrite !andb_true_iff, !String.eqb_eq. intros [[-> E1] L1] [[-> E2] L2].
    split; [split; [done|by eapply Hx]|by eapply IHl].
Qed.

(** Equality of optional values: an equivalence on JSON. *)
Definition same_value (a b : option Value) : Prop := opt_eqb value_eqb a b = true.

Definition opt_ok (a : option Value) : Prop := match a with Some v => json_ok v | None => True end.

Lemma same_value_refl a : opt_ok a → same_value a a.
Proof. destruct a; [apply value_eqb_refl|done]. Qed.

#[export] Instance same_value_sym : Symmetric same_value.
Proof. intros a b. unfold same_value. by rewrite (opt_eqb_sym value_eqb a b) by apply value_eqb_sym. Qed.

#[export] Instance same_value_trans : Transitive same_value.
Proof.
  intros [a|] [b|] [c|]; unfold same_value; simpl; try done. apply value_eqb_trans.
Qed.

(** Equal objects have equal members. *)
Lemma object_eqb_member l h key :
  value_eqb (VObject l) (VObject h) = true → same_value (bm_get key l) (bm_get key h).
Proof.
  revert h. induction l as [|[i x] l IH]; intros [|[j y] h]; try done.
  change (value_eqb (VObject ((i, x) :: l)) (VObject ((j, y) :: h))) with
    (String.eqb i j && value_eqb x y && value_eqb (VObject l) (VObject h)).
  rewrite !andb_true_iff, String.eqb_eq. intros [[-> E] L]. cbn [bm_get].
  destruct (cmp key j); [exact E|done|by apply IH].
Qed.

Lemma member_ok m key : json_ok (VObject m) → opt_ok (bm_get key m).
Proof.
  induction m as [|[i x] m IH]; [done|]. intros [Hx Hm]. cbn [bm_get].
  destruct (cmp key i); [exact Hx|done|by apply IH].
Qed.
