(* ===== verification/Merge.v ===== *)
(** khive-merge: change classification (diff_local.rs), entity and edge merges
    (entity.rs, edge.rs), the last-write-wins shortcuts (strategy.rs) and the
    three-way merge (merge.rs).  Sets and maps of the code that are only looked
    up, or drained and then sorted, are finite maps and sets. *)

From Stdlib Require Import ZArith NArith String SpecFloat.
From stdpp Require Import base tactics list numbers strings gmap sorting.
From S2P Require Import Prelude Json EdgeOntology Float Archive.

Open Scope Z_scope.

#[local] Existing Instance F64.

(** ** diff_local.rs *)

(** [EntityChange] and [EdgeChange] are the two instances. *)
Inductive Change (A : Type) : Type :=
| Unchanged
| Added (branch : A)
| Deleted
| Modified (base branch : A).
Arguments Unchanged {A}.
Arguments Added {A} branch.
Arguments Deleted {A}.
Arguments Modified {A} base branch.

Definition EntityChange : Type := Change ExportedEntity.
Definition EdgeChange : Type := Change ExportedEdge.

Definition properties_equal (a b : option Value) : bool := opt_eqb value_eqb a b.

Definition EPSILON : f64 := S754_finite false 4503599627370496 (-104).

Definition weights_equal (a b : f64) : bool := flt (fabs (fsub a b)) EPSILON.

Definition edges_equal (a b : ExportedEdge) : bool :=
  N.eqb (edge_id a) (edge_id b) && weights_equal (weight a) (weight b)
  && properties_equal (edge_properties a) (edge_properties b).

Definition entities_equal (a b : ExportedEntity) : bool :=
  N.eqb (id a) (id b) && String.eqb (kind a) (kind b) && opt_string_eqb (entity_type a) (entity_type b)
  && String.eqb (name a) (name b) && opt_string_eqb (description a) (description b)
  && strings_eqb (tags a) (tags b) && properties_equal (properties a) (properties b).

Section diff.
Context {K A : Type} `{Countable K, Ord K}.
Variable key : A → K.
Variable eqb : A → A → bool.

(** [iter().map(|e| (key(e), e)).collect()]: later records overwrite. *)
Definition index_by (l : list A) : gmap K A := foldl (λ m e, <[key e := e]> m) ∅ l.

(** The match on the two lookups; [None] is the unreachable arm. *)
Definition classify (b branch : option A) : option (Change A) :=
  match b, branch with
  | None, Some x => Some (Added x)
  | Some _, None => Some Deleted
  | Some x, Some y => Some (if eqb x y then Unchanged else Modified x y)
  | None, None => None
  end.

(** The keys of two maps, sorted. *)
Definition sorted_keys {B C} (m1 : gmap K B) (m2 : gmap K C) : list K :=
  sort_by cmp (elements (dom m1 ∪ dom m2)).

Definition diff_by (base branch : list A) : gmap K (Change A) :=
  let base_map := index_by base in
  let branch_map := index_by branch in
  foldl (λ result k, match classify (base_map !! k) (branch_map !! k) with
                     | Some change => <[k := change]> result
                     | None => result
                     end) ∅ (sorted_keys base_map branch_map).
End diff.

Definition diff_entities (base branch : KgArchive) : gmap Uuid EntityChange :=
  diff_by id entities_equal (entities base) (entities branch).

Definition diff_edges (base branch : KgArchive) : gmap EdgeKey EdgeChange :=
  diff_by from_edge edges_equal (edges base) (edges branch).

(** ** entity.rs *)

(** The selected value, and whether [on_conflict] was called. *)
Definition select_property_value (base ours theirs : option Value) : option Value * bool :=
  if opt_eqb value_eqb ours theirs then (ours, false)
  else if opt_eqb value_eqb ours base then (theirs, false)
  else if opt_eqb value_eqb theirs base then (ours, false)
  else (ours, true).

Definition object_like (p : option Value) : bool :=
  match p with None | Some (VObject _) => true | _ => false end.

(** [as_ref().and_then(Value::as_object)] *)
Definition object_of (p : option Value) : option (list (string * Value)) := p ≫= as_object.

(** [object.and_then(|o| o.get(key))] *)
Definition member (o : option (list (string * Value))) (k : string) : option Value := o ≫= bm_get k.

(** The keys of the objects, sorted. *)
Definition object_keys (os : list (option (list (string * Value)))) : list string :=
  sort_by cmp (elements (list_to_set (concat ((λ o, (default [] o).*1) <$> os)) : gset string)).

(** The loop over the keys: the merged object and the keys in conflict. *)
Definition merge_objects (base ours theirs : option (list (string * Value))) :
    list (string * Value) * list string :=
  foldl (λ (acc : list (string * Value) * list string) k,
           let '(merged, conflicts) := acc in
           let '(selected, conflict) :=
             select_property_value (member base k) (member ours k) (member theirs k) in
           (match selected with Some v => bm_insert k v merged | None => merged end,
            if conflict then conflicts ++ [k] else conflicts))
    ([], []) (object_keys [base; ours; theirs]).

(** An empty result is absent when a branch had no object. *)
Definition merged_object (merged : list (string * Value)) (ours theirs : option Value) : option Value :=
  match merged, ours, theirs with
  | [], None, _ | [], _, None => None
  | _, _, _ => Some (VObject merged)
  end.

Definition merge_properties (eid : Uuid) (base ours theirs : option Value) :
    option Value * list MergeConflict :=
  if properties_equal ours theirs then (ours, [])
  else if properties_equal ours base then (theirs, [])
  else if properties_equal theirs base then (ours, [])
  else if negb (forallb object_like [base; ours; theirs]) then
    (ours, [PropertyMismatch eid "properties" (default VNull ours) (default VNull theirs)])
  else
    let '(merged, keys) := merge_objects (object_of base) (object_of ours) (object_of theirs) in
    (merged_object merged ours theirs,
     (λ k, PropertyMismatch eid k (default VNull (member (object_of ours) k))
             (default VNull (member (object_of theirs) k))) <$> keys).

(** [serde_json::json!] of an [Option<String>]. *)
Definition json_opt_string (o : option string) : Value :=
  match o with None => VNull | Some s => VString s end.

(** The tags of both, once each, sorted. *)
Definition union_tags (ours theirs : list string) : list string :=
  sort_by cmp (elements (list_to_set ours ∪ list_to_set theirs : gset string)).

Definition field_conflicts (eid : Uuid) (ours theirs : ExportedEntity) : list MergeConflict :=
  (if String.eqb (name ours) (name theirs) then [] else [NameConflict eid (name ours) (name theirs)])
  ++ (if String.eqb (kind ours) (kind theirs) then [] else [KindConflict eid (kind ours) (kind theirs)])
  ++ (if opt_string_eqb (entity_type ours) (entity_type theirs) then []
      else [PropertyMismatch eid "entity_type" (json_opt_string (entity_type ours))
              (json_opt_string (entity_type theirs))]).

(** An unequal description resolves to ours, which the result starts from. *)
Definition field_level_merge (eid : Uuid) (base ours theirs : ExportedEntity) :
    ExportedEntity * list MergeConflict :=
  let '(merged_props, prop_conflicts) :=
    merge_properties eid (properties base) (properties ours) (properties theirs) in
  ({| id := id ours; kind := kind ours; entity_type := entity_type ours; name := name ours;
      description := description ours; properties := merged_props;
      tags := union_tags (tags ours) (tags theirs);
      created_at := created_at ours; updated_at := updated_at ours |},
   field_conflicts eid ours theirs ++ prop_conflicts).

Definition detect_entity_diffs (ours theirs : ExportedEntity) : list string :=
  (if String.eqb (name ours) (name theirs) then [] else ["name"%string])
  ++ (if String.eqb (kind ours) (kind theirs) then [] else ["kind"%string])
  ++ (if opt_string_eqb (entity_type ours) (entity_type theirs) then [] else ["entity_type"%string])
  ++ (if opt_string_eqb (description ours) (description theirs) then [] else ["description"%string])
  ++ (if properties_equal (properties ours) (properties theirs) then [] else ["properties"%string])
  ++ (if strings_eqb (sort_by cmp (tags ours)) (sort_by cmp (tags theirs)) then [] else ["tags"%string]).

(** What one identifier adds to the merged entities and to the conflicts. *)
Definition merge_entity (base_map : gmap Uuid ExportedEntity) (eid : Uuid)
    (ours_change theirs_change : option EntityChange) : list ExportedEntity * list MergeConflict :=
  match ours_change, theirs_change with
  | Some Unchanged, Some Unchanged =>
      (match base_map !! eid with Some e => [e] | None => [] end, [])
  | Some (Added e), None | Some (Added e), Some Unchanged => ([e], [])
  | None, Some (Added e) | Some Unchanged, Some (Added e) => ([e], [])
  | Some (Added e_ours), Some (Added e_theirs) =>
      match detect_entity_diffs e_ours e_theirs with
      | [] => ([e_ours], [])
      | diffs => ([e_ours], [DuplicateAddition eid diffs])
      end
  | Some Deleted, Some Deleted => ([], [])
  | Some Deleted, Some Unchanged | Some Deleted, None => ([], [])
  | Some Unchanged, Some Deleted | None, Some Deleted => ([], [])
  | Some (Modified _ e_ours), Some Unchanged | Some (Modified _ e_ours), None => ([e_ours], [])
  | Some Unchanged, Some (Modified _ e_theirs) | None, Some (Modified _ e_theirs) => ([e_theirs], [])
  | Some (Modified e_base e_ours), Some (Modified _ e_theirs) =>
      let '(entity_result, field_conflicts) := field_level_merge eid e_base e_ours e_theirs in
      match field_conflicts with
      | [] => ([entity_result], [])
      | _ => ([e_ours], field_conflicts)
      end
  | Some Deleted, Some (Modified _ _) => ([], [ModifyDelete eid Theirs Ours])
  | Some (Modified _ _), Some Deleted => ([], [ModifyDelete eid Ours Theirs])
  | _, _ => ([], [])
  end.

Definition merge_entities (base ours theirs : KgArchive) : list ExportedEntity * list MergeConflict :=
  let ours_diff := diff_entities base ours in
  let theirs_diff := diff_entities base theirs in
  let base_map := index_by id (entities base) in
  foldl (λ acc eid, let '(merged, conflicts) := merge_entity base_map eid (ours_diff !! eid) (theirs_diff !! eid) in
                    (acc.1 ++ merged, acc.2 ++ conflicts))
    ([], []) (sorted_keys ours_diff theirs_diff).

(** ** edge.rs *)

(** The record with canonical endpoints. *)
Definition canonicalize_endpoints (e : ExportedEdge) : ExportedEdge :=
  let '(s, t) := canonical_endpoints (relation e) (source e) (target e) in
  {| edge_id := edge_id e; source := s; target := t; relation := relation e; weight := weight e;
     edge_properties := edge_properties e; edge_created_at := edge_created_at e;
     edge_updated_at := edge_updated_at e |}.

(** The assignments to [edge_id], [weight] and [properties] of a clone. *)
Definition with_content (e : ExportedEdge) (eid : Uuid) (w : f64) (p : option Value) : ExportedEdge :=
  {| edge_id := eid; source := source e; target := target e; relation := relation e; weight := w;
     edge_properties := p; edge_created_at := edge_created_at e; edge_updated_at := edge_updated_at e |}.

Definition edge_property_conflict (key : EdgeKey) (ours theirs : option Value) : MergeConflict :=
  EdgePropertyMismatch (key_source key) (key_target key) (key_relation key) ours theirs.

Definition merge_edge_properties (key : EdgeKey) (base ours theirs : option Value) :
    option Value * list MergeConflict :=
  if properties_equal ours theirs then (ours, [])
  else if properties_equal ours base then (theirs, [])
  else if properties_equal theirs base then (ours, [])
  else if negb (forallb object_like [base; ours; theirs]) then
    (ours, [edge_property_conflict key ours theirs])
  else
    let '(merged, keys) := merge_objects (object_of base) (object_of ours) (object_of theirs) in
    (merged_object merged ours theirs,
     match keys with [] => [] | _ => [edge_property_conflict key ours theirs] end).

Definition merge_added_edges (key : EdgeKey) (ours theirs : ExportedEdge) :
    ExportedEdge * list MergeConflict :=
  let '(properties, conflicts) :=
    merge_edge_properties key None (edge_properties ours) (edge_properties theirs) in
  (with_content ours (edge_id ours) (fmax (weight ours) (weight theirs)) properties, conflicts).

Definition merged_weight (base ours theirs : f64) : f64 :=
  match negb (weights_equal base ours), negb (weights_equal base theirs) with
  | false, false => base
  | true, false => ours
  | false, true => theirs
  | true, true => fmax ours theirs
  end.

Definition merged_identity (key : EdgeKey) (base ours theirs : Uuid) : Uuid * list MergeConflict :=
  match negb (N.eqb base ours), negb (N.eqb base theirs) with
  | false, false => (base, [])
  | true, false => (ours, [])
  | false, true => (theirs, [])
  | true, true =>
      if N.eqb ours theirs then (ours, [])
      else (ours, [EdgeIdentityMismatch (key_source key) (key_target key) (key_relation key) ours theirs])
  end.

Definition merge_modified_edges (key : EdgeKey) (base ours theirs : ExportedEdge) :
    ExportedEdge * list MergeConflict :=
  let '(properties, property_conflicts) :=
    merge_edge_properties key (edge_properties base) (edge_properties ours) (edge_properties theirs) in
  let '(eid, identity_conflicts) := merged_identity key (edge_id base) (edge_id ours) (edge_id theirs) in
  (with_content ours eid (merged_weight (weight base) (weight ours) (weight theirs)) properties,
   property_conflicts ++ identity_conflicts).

(** [base_edge_map.get(key).is_some_and(|b| b.edge_id == edge.edge_id)] *)
Definition identity_is_base (base : option ExportedEdge) (e : ExportedEdge) : bool :=
  match base with Some b => N.eqb (edge_id b) (edge_id e) | None => false end.

Definition edge_modify_delete (key : EdgeKey) (modified_in deleted_in : BranchSide) : MergeConflict :=
  EdgeModifyDelete (key_source key) (key_target key) (key_relation key) modified_in deleted_in.

(** First pass, one key: the provisional edge, whether it keeps the identity of
    base, and the conflicts. *)
Definition merge_edge (base_edge_map : gmap EdgeKey ExportedEdge) (key : EdgeKey)
    (ours_change theirs_change : option EdgeChange) :
    option (ExportedEdge * bool) * list MergeConflict :=
  match ours_change, theirs_change with
  | Some Unchanged, Some Unchanged => ((λ e, (e, true)) <$> base_edge_map !! key, [])
  | Some (Added e), None | Some (Added e), Some Unchanged => (Some (e, false), [])
  | None, Some (Added e) | Some Unchanged, Some (Added e) => (Some (e, false), [])
  | Some (Added e_ours), Some (Added e_theirs) =>
      let '(edge, edge_conflicts) := merge_added_edges key e_ours e_theirs in
      (Some (edge, false), edge_conflicts)
  | Some Deleted, Some Deleted => (None, [])
  | Some Deleted, Some Unchanged | Some Deleted, None => (None, [])
  | Some Unchanged, Some Deleted | None, Some Deleted => (None, [])
  | Some (Modified _ edge_ours), Some Unchanged | Some (Modified _ edge_ours), None =>
      (Some (edge_ours, identity_is_base (base_edge_map !! key) edge_ours), [])
  | Some Unchanged, Some (Modified _ edge_theirs) | None, Some (Modified _ edge_theirs) =>
      (Some (edge_theirs, identity_is_base (base_edge_map !! key) edge_theirs), [])
  | Some (Modified base edge_ours), Some (Modified _ edge_theirs) =>
      let '(edge, edge_conflicts) := merge_modified_edges key base edge_ours edge_theirs in
      (Some (edge, N.eqb (edge_id edge) (edge_id base)), edge_conflicts)
  | Some Deleted, Some (Modified _ _) => (None, [edge_modify_delete key Theirs Ours])
  | Some (Modified _ _), Some Deleted => (None, [edge_modify_delete key Ours Theirs])
  | _, _ => (None, [])
  end.

(** A key with its provisional edge. *)
Definition candidate : Type := EdgeKey * option (ExportedEdge * bool).

Definition edge_candidates (base_edge_map : gmap EdgeKey ExportedEdge)
    (ours_diff theirs_diff : gmap EdgeKey EdgeChange) (keys : list EdgeKey) :
    list candidate * list MergeConflict :=
  foldl (λ acc key,
           let '(c, conflicts) := merge_edge base_edge_map key (ours_diff !! key) (theirs_diff !! key) in
           (acc.1 ++ [(key, (λ p, (canonicalize_endpoints p.1, p.2)) <$> c)], acc.2 ++ conflicts))
    ([], []) keys.

(** Second pass: the identities inherited from base. *)
Definition reserved_ids (candidates : list candidate) : gset Uuid :=
  foldl (λ used (c : candidate), match c.2 with
                                 | Some (edge, true) => {[edge_id edge]} ∪ used
                                 | _ => used
                                 end) ∅ candidates.

(** Third pass: branch-chosen identities against those in use. *)
Fixpoint resolve_identities (base_edge_map : gmap EdgeKey ExportedEdge) (used : gset Uuid)
    (candidates : list candidate) : list ExportedEdge * list MergeConflict :=
  match candidates with
  | [] => ([], [])
  | (_, None) :: candidates' => resolve_identities base_edge_map used candidates'
  | (_, Some (edge, true)) :: candidates' =>
      let '(merged, conflicts) := resolve_identities base_edge_map used candidates' in
      (edge :: merged, conflicts)
  | (key, Some (edge, false)) :: candidates' =>
      if decide (edge_id edge ∈ used) then
        let collision := EdgeIdentityCollision (key_source key) (key_target key) (key_relation key)
                           (edge_id edge) in
        match base_edge_map !! key with
        | Some b =>
            if decide (edge_id b ∈ used) then
              let '(merged, conflicts) := resolve_identities base_edge_map used candidates' in
              (merged, collision (edge_id edge) :: conflicts)
            else
              let '(merged, conflicts) :=
                resolve_identities base_edge_map ({[edge_id b]} ∪ used) candidates' in
              (with_content edge (edge_id b) (weight edge) (edge_properties edge) :: merged,
               collision (edge_id b) :: conflicts)
        | None =>
            let '(merged, conflicts) := resolve_identities base_edge_map used candidates' in
            (merged, collision (edge_id edge) :: conflicts)
        end
      else
        let '(merged, conflicts) :=
          resolve_identities base_edge_map ({[edge_id edge]} ∪ used) candidates' in
        (edge :: merged, conflicts)
  end.

(** The [Result] is always [Ok]. *)
Definition merge_edges (base ours theirs : KgArchive) : list ExportedEdge * list MergeConflict :=
  let ours_diff := diff_edges base ours in
  let theirs_diff := diff_edges base theirs in
  let base_edge_map := index_by from_edge (edges base) in
  let '(candidates, conflicts) :=
    edge_candidates base_edge_map ours_diff theirs_diff (sorted_keys ours_diff theirs_diff) in
  let '(merged, collisions) := resolve_identities base_edge_map (reserved_ids candidates) candidates in
  (merged, conflicts ++ collisions).

Definition validate_dangling_edges (edges : list ExportedEdge) (entity_ids : gset Uuid) :
    list MergeConflict :=
  omap (λ edge,
    let dangling := DanglingEdge (source edge) (target edge) (as_str (relation edge)) in
    if decide (source edge ∈ entity_ids) then
      if decide (target edge ∈ entity_ids) then None else Some (dangling (target edge))
    else Some (dangling (source edge))) edges.

(** ** strategy.rs *)

(** The edges only theirs added, unless their identity is in use. *)
Fixpoint append_edges (base_keys ours_keys : gset EdgeKey) (used : gset Uuid)
    (theirs : list ExportedEdge) : list ExportedEdge * list MergeConflict :=
  match theirs with
  | [] => ([], [])
  | e :: theirs' =>
      if bool_decide (from_edge e ∈ base_keys) || bool_decide (from_edge e ∈ ours_keys)
      then append_edges base_keys ours_keys used theirs'
      else if decide (edge_id e ∈ used) then
        let '(edges, conflicts) := append_edges base_keys ours_keys used theirs' in
        (edges, EdgeIdentityCollision (source e) (target e) (as_str (relation e)) (edge_id e) (edge_id e)
                :: conflicts)
      else
        let '(edges, conflicts) := append_edges base_keys ours_keys ({[edge_id e]} ∪ used) theirs' in
        (e :: edges, conflicts)
  end.

Definition apply_ours_with_conflicts (base ours theirs : KgArchive) : KgArchive * list MergeConflict :=
  let ours_ids : gset Uuid := list_to_set (id <$> entities ours) in
  let base_ids : gset Uuid := list_to_set (id <$> entities base) in
  let ours_keys : gset EdgeKey := list_to_set (from_edge <$> edges ours) in
  let base_keys : gset EdgeKey := list_to_set (from_edge <$> edges base) in
  let '(new_edges, conflicts) :=
    append_edges base_keys ours_keys (list_to_set (edge_id <$> edges ours)) (edges theirs) in
  ({| format := format ours; version := version ours; namespace := namespace ours;
      exported_at := exported_at ours;
      entities := entities ours ++ filter (λ e, (id e ∉ base_ids) ∧ (id e ∉ ours_ids)) (entities theirs);
      edges := edges ours ++ new_edges |}, conflicts).

Definition apply_ours (base ours theirs : KgArchive) : KgArchive :=
  (apply_ours_with_conflicts base ours theirs).1.

Definition apply_theirs (base ours theirs : KgArchive) : KgArchive := apply_ours base theirs ours.

Definition apply_theirs_with_conflicts (base ours theirs : KgArchive) : KgArchive * list MergeConflict :=
  apply_ours_with_conflicts base theirs ours.

(** ** merge.rs *)

(** [impl fmt::Display for uuid::Uuid] *)
Class UuidFmt := uuid_fmt : Uuid → string.

(** [{}] of an [f64] that is not finite. *)
Definition fmt_nonfinite (w : f64) : string :=
  match w with
  | S754_infinity false => "inf"
  | S754_infinity true => "-inf"
  | _ => "NaN"
  end.

(** [for x in l { if !seen.insert(x) { return Err(..) } }] *)
Fixpoint all_unique {K E} `{Countable K} (err : K → E) (seen : gset K) (l : list K) : result unit E :=
  match l with
  | [] => Ok ()
  | x :: l' => if decide (x ∈ seen) then Err (err x) else all_unique err ({[x]} ∪ seen) l'
  end.

Section merge.
Context `{UuidFmt}.

Definition check_finite_weight (edge : ExportedEdge) : result unit MergeError :=
  if negb (is_finite (weight edge)) then
    Err (InvalidEdgeWeight ("edge (" +:+ uuid_fmt (source edge) +:+ ", " +:+ uuid_fmt (target edge) +:+ ", "
           +:+ as_str (relation edge) +:+ "): weight=" +:+ fmt_nonfinite (weight edge)))
  else Ok ().

Definition validate_archive (archive : KgArchive) : result unit MergeError :=
  check? try_each check_finite_weight (edges archive) in
  check? all_unique DuplicateEntityId ∅ (id <$> entities archive) in
  check? all_unique (λ i, Internal ("duplicate edge IDs in archive: " +:+ uuid_fmt i)) ∅
           (edge_id <$> edges archive) in
  all_unique (λ k, DuplicateEdgeKey (key_source k) (key_target k) (key_relation k)) ∅
    (from_edge <$> edges archive).

Definition validate_inputs (base ours theirs : KgArchive) : result unit MergeError :=
  if negb (String.eqb (namespace base) (namespace ours)) || negb (String.eqb (namespace base) (namespace theirs))
  then Err (NamespaceMismatch (namespace base) (namespace ours) (namespace theirs))
  else try_each validate_archive [base; ours; theirs].

Definition cmp_entities (a b : ExportedEntity) : comparison := cmp (id a) (id b).

Definition cmp_edges (a b : ExportedEdge) : comparison :=
  then_cmp (then_cmp (then_cmp (cmp (source a) (source b)) (cmp (target a) (target b)))
    (cmp (as_str (relation a)) (as_str (relation b)))) (cmp (edge_id a) (edge_id b)).

Definition sort_entities : list ExportedEntity → list ExportedEntity := sort_by cmp_entities.

Definition sort_edges : list ExportedEdge → list ExportedEdge := sort_by cmp_edges.

Definition deterministic_timestamp (ours theirs : KgArchive) : Instant :=
  Z.max (exported_at ours) (exported_at theirs).

(** An archive with sorted records and the merge's timestamp. *)
Definition finished (header : KgArchive) (es : list ExportedEntity) (ds : list ExportedEdge) (at_ : Instant) :
    KgArchive :=
  {| format := format header; version := version header; namespace := namespace header;
     exported_at := at_; entities := sort_entities es; edges := sort_edges ds |}.

Definition entity_id_set (es : list ExportedEntity) : gset Uuid := list_to_set (id <$> es).

Definition finish_shortcut_merge (merged ours theirs : KgArchive) (conflicts : list MergeConflict) :
    result MergeResult MergeError :=
  let merged := finished merged (entities merged) (edges merged) (deterministic_timestamp ours theirs) in
  check? validate_archive merged in
  let conflicts := conflicts ++ validate_dangling_edges (edges merged) (entity_id_set (entities merged)) in
  match conflicts with
  | [] => Ok (Clean merged)
  | _ => Ok (Conflicts conflicts)
  end.

Definition three_way_merge_auto (base ours theirs : KgArchive) : result MergeResult MergeError :=
  let '(merged_entities, entity_conflicts) := merge_entities base ours theirs in
  let '(merged_edges, edge_conflicts) := merge_edges base ours theirs in
  let dangling := validate_dangling_edges merged_edges (entity_id_set merged_entities) in
  match entity_conflicts ++ edge_conflicts ++ dangling with
  | [] =>
      let merged := finished ours merged_entities merged_edges (deterministic_timestamp ours theirs) in
      check? validate_archive merged in Ok (Clean merged)
  | all_conflicts => Ok (Conflicts all_conflicts)
  end.

Definition three_way_merge (base ours theirs : KgArchive) (strategy : SnapshotMergeStrategy) :
    result MergeResult MergeError :=
  check? validate_inputs base ours theirs in
  match strategy with
  | OursStrategy =>
      let '(merged, conflicts) := apply_ours_with_conflicts base ours theirs in
      finish_shortcut_merge merged ours theirs conflicts
  | TheirsStrategy =>
      let '(merged, conflicts) := apply_theirs_with_conflicts base ours theirs in
      finish_shortcut_merge merged ours theirs conflicts
  | Auto => three_way_merge_auto base ours theirs
  end.
End merge.

(** ** lca.rs *)

(** [SnapshotReader::parent_of]; the loops run with fuel. *)
Section lca.
Variable parent_of : string → option string.

Fixpoint collect_loop (fuel : nat) (set : gset string) (current : option string) : option (gset string) :=
  match current with
  | None => Some set
  | Some i =>
      if decide (i ∈ set) then Some set
      else match fuel with
           | O => None
           | S fuel' => collect_loop fuel' ({[i]} ∪ set) (parent_of i)
           end
  end.

Definition collect_ancestors (fuel : nat) (start : string) : option (gset string) :=
  collect_loop fuel {[start]} (parent_of start).

(** The walk from theirs: [Some None] when it ends without a match. *)
Fixpoint theirs_loop (fuel : nat) (ours_ancestors visited_theirs : gset string) (current : option string) :
    option (option string) :=
  match current with
  | None => Some None
  | Some i =>
      if decide (i ∈ ours_ancestors) then Some (Some i)
      else match parent_of i with
           | Some n =>
               if decide (n ∈ visited_theirs) then Some None
               else match fuel with
                    | O => None
                    | S fuel' => theirs_loop fuel' ours_ancestors ({[n]} ∪ visited_theirs) (Some n)
                    end
           | None => Some None
           end
  end.

Definition find_lca (fuel : nat) (ours_id theirs_id : string) : option (option string) :=
  if String.eqb ours_id theirs_id then Some (Some ours_id)
  else ours_ancestors ← collect_ancestors fuel ours_id;
       theirs_loop fuel ours_ancestors {[theirs_id]} (Some theirs_id).
End lca.

(** Indexing and change classification: what the maps of khive-merge hold, the
    classification of every key, and the entity merge as a per-identifier
    outcome. *)

Open Scope Z_scope.

#[local] Existing Instance F64.

(** ** Loops *)

(** A loop that appends to two vectors. *)
Lemma foldl_collect {X A B} (f : X → list A * list B) l acc :
  foldl (λ acc x, let '(a, b) := f x in (acc.1 ++ a, acc.2 ++ b)) acc l =
  (acc.1 ++ concat ((λ x, (f x).1) <$> l), acc.2 ++ concat ((λ x, (f x).2) <$> l)).
Proof.
  revert acc. induction l as [|x l IH]; intros acc; simpl.
  - rewrite !app_nil_r. by destruct acc.
  - destruct (f x) as [a b]. rewrite IH. simpl. by rewrite !app_assoc.
Qed.

Lemma concat_nil_iff {A} (ls : list (list A)) : concat ls = [] ↔ Forall (λ l, l = []) ls.
Proof.
  induction ls as [|l ls IH]; simpl; [done|]. rewrite Forall_cons, app_nil, IH. done.
Qed.

(** ** Indexing *)

Section index.
Context {K A : Type} `{Countable K} (key : A → K).

Lemma index_by_app l l' : index_by key (l ++ l') = foldl (λ m e, <[key e := e]> m) (index_by key l) l'.
Proof. unfold index_by. by rewrite foldl_app. Qed.

Lemma index_by_snoc l e : index_by key (l ++ [e]) = <[key e := e]> (index_by key l).
Proof. by rewrite index_by_app. Qed.

Lemma index_by_Some l k e : index_by key l !! k = Some e → e ∈ l ∧ key e = k.
Proof.
  induction l as [|x l IH] using rev_ind; [done|].
  rewrite index_by_snoc, lookup_insert_Some, elem_of_app, list_elem_of_singleton.
  intros [[<- <-]|[_ He]]; [by split; [right|]|]. destruct (IH He). by split; [left|].
Qed.

Lemma index_by_is_Some l k : is_Some (index_by key l !! k) ↔ k ∈ key <$> l.
Proof.
  induction l as [|x l IH] using rev_ind.
  - split; [by intros []|by intros ?%elem_of_nil].
  - rewrite index_by_snoc, lookup_insert_is_Some', fmap_app, elem_of_app, IH. set_solver.
Qed.

Lemma index_by_lookup l k e :
  NoDup (key <$> l) → index_by key l !! k = Some e ↔ e ∈ l ∧ key e = k.
Proof.
  intros Hd. split; [apply index_by_Some|]. intros [He <-].
  destruct (index_by key l !! key e) as [x|] eqn:E.
  - apply index_by_Some in E as [Hx Hk]. f_equal. by eapply (NoDup_fmap_inj key).
  - assert (is_Some (index_by key l !! key e)) as [? ?]; [|congruence].
    apply index_by_is_Some. by apply list_elem_of_fmap_2.
Qed.

(** The index does not depend on the order of records with distinct keys. *)
Lemma index_by_perm l l' : l ≡ₚ l' → NoDup (key <$> l) → index_by key l = index_by key l'.
Proof.
  intros Hp Hd. assert (Hd' : NoDup (key <$> l')) by (by rewrite <-Hp).
  apply map_eq. intros k. apply option_eq. intros e. rewrite !index_by_lookup by done. by rewrite Hp.
Qed.
End index.

(** ** Keys and classification *)

Section diff_facts.
Context {K A : Type} `{Countable K, Ord K, !OrdLaws K}.
Variable key : A → K.
Variable eqb : A → A → bool.

Lemma sorted_keys_elem {B C} (m1 : gmap K B) (m2 : gmap K C) k :
  k ∈ sorted_keys m1 m2 ↔ is_Some (m1 !! k) ∨ is_Some (m2 !! k).
Proof. unfold sorted_keys. by rewrite elem_of_sort_by, elem_of_elements, elem_of_union, !elem_of_dom. Qed.

Lemma le_by_cmp_lt (l : list K) : NoDup l → StronglySorted (le_by cmp) l → StronglySorted cmp_lt l.
Proof.
  intros Hd Hs. revert Hd. induction Hs as [|x l Hs IH Hx]; [constructor|].
  intros [Hn Hd]%NoDup_cons. constructor; [by apply IH|].
  rewrite Forall_forall in *. intros y Hy. specialize (Hx y Hy). unfold le_by, cmp_lt in *.
  destruct (cmp x y) eqn:E; [|done|done]. apply cmp_eq in E as ->. done.
Qed.

Lemma sorted_keys_sorted {B C} (m1 : gmap K B) (m2 : gmap K C) :
  StronglySorted cmp_lt (sorted_keys m1 m2).
Proof.
  unfold sorted_keys. apply le_by_cmp_lt; [|apply sort_by_sorted, _].
  rewrite sort_by_Permutation. apply NoDup_elements.
Qed.

Lemma sorted_keys_NoDup {B C} (m1 : gmap K B) (m2 : gmap K C) : NoDup (sorted_keys m1 m2).
Proof. apply cmp_sorted_NoDup, sorted_keys_sorted. Qed.

Lemma foldl_insert_lookup {B} (f : K → option B) l (m : gmap K B) k :
  foldl (λ m k, match f k with Some c => <[k := c]> m | None => m end) m l !! k =
  if decide (k ∈ l) then match f k with Some c => Some c | None => m !! k end else m !! k.
Proof.
  revert m. induction l as [|x l IH]; intros m; simpl.
  { by destruct (decide (k ∈ [])) as [?%elem_of_nil|]. }
  rewrite IH. destruct (decide (x = k)) as [->|Hne].
  - destruct (decide (k ∈ k :: l)) as [_|Hn]; [|by destruct Hn; left].
    destruct (f k) as [c|]; [rewrite lookup_insert_eq|]; by destruct (decide (k ∈ l)).
  - assert (match f x with Some c => <[x := c]> m | None => m end !! k = m !! k) as ->
      by (destruct (f x); [by rewrite lookup_insert_ne|done]).
    destruct (decide (k ∈ l)) as [Hk|Hk].
    + destruct (decide (k ∈ x :: l)) as [_|Hn]; [done|by destruct Hn; right].
    + destruct (decide (k ∈ x :: l)) as [Hn|]; [|done]. apply elem_of_cons in Hn as [Hn|Hn]; congruence.
Qed.

Lemma diff_by_lookup base branch k :
  diff_by key eqb base branch !! k = classify eqb (index_by key base !! k) (index_by key branch !! k).
Proof.
  unfold diff_by. rewrite foldl_insert_lookup, lookup_empty.
  destruct (decide (k ∈ _)) as [Hk|Hk]; [by destruct (classify _ _ _)|].
  rewrite sorted_keys_elem in Hk.
  destruct (index_by key base !! k), (index_by key branch !! k); [|..|done]; exfalso; apply Hk; eauto.
Qed.

(** The unreachable arm is not reached. *)
Lemma classify_is_Some (b x : option A) : is_Some (classify eqb b x) ↔ is_Some b ∨ is_Some x.
Proof. destruct b, x; simpl; split; eauto; intros []; eauto; naive_solver. Qed.

(** Both diffs together range over the keys of the three archives. *)
Lemma diff_keys base ours theirs k :
  k ∈ sorted_keys (diff_by key eqb base ours) (diff_by key eqb base theirs) ↔
  k ∈ key <$> base ∨ k ∈ key <$> ours ∨ k ∈ key <$> theirs.
Proof.
  rewrite sorted_keys_elem, !diff_by_lookup, !classify_is_Some, !index_by_is_Some. naive_solver.
Qed.
End diff_facts.
