(* ===== verification/MergeEntity.v ===== *)
(** The entity merge: property objects key by key, the abstract three-way
    choice each identifier follows, and its consequences. *)

From Stdlib Require Import ZArith NArith String.
From stdpp Require Import base tactics list numbers strings gmap sorting.
From Stdlib Require Import SpecFloat.
From S2P Require Import Prelude Json Float EdgeOntology Archive Merge.
Open Scope Z_scope.

#[local] Existing Instance F64.

(** ** Property objects *)

Abbreviation object := (option (list (string * Value))).

Lemma object_keys_elem (os : list object) k :
  k ∈ object_keys os ↔ ∃ o, o ∈ os ∧ k ∈ (default [] o).*1.
Proof.
  unfold object_keys. rewrite elem_of_sort_by, elem_of_elements, elem_of_list_to_set, elem_of_concat.
  split.
  - intros (l & Hk & (o & -> & Ho)%list_elem_of_fmap). by exists o.
  - intros (o & Ho & Hk). eexists. split; [exact Hk|]. apply list_elem_of_fmap. by exists o.
Qed.

Lemma object_keys_NoDup os : NoDup (object_keys os).
Proof. unfold object_keys. rewrite sort_by_Permutation. apply NoDup_elements. Qed.

Lemma member_key (o : object) k v : member o k = Some v → k ∈ (default [] o).*1.
Proof. destruct o as [m|]; [|done]. apply bm_get_Some_key. Qed.

(** The choice at one key. *)
Definition select_at (b o t : object) (k : string) : option Value * bool :=
  select_property_value (member b k) (member o k) (member t k).

Lemma select_at_absent (b o t : object) k : k ∉ object_keys [b; o; t] → select_at b o t k = (None, false).
Proof.
  rewrite object_keys_elem. intros Hk.
  assert (Hn : ∀ x, x ∈ [b; o; t] → member x k = None).
  { intros x Hx. destruct (member x k) eqn:E; [|done]. exfalso. apply Hk. exists x.
    split; [done|]. by eapply member_key. }
  unfold select_at. by rewrite !Hn by set_solver.
Qed.

Lemma merge_objects_loop (sel : string → option Value * bool) ks m cs :
  NoDup ks → bm_wf m → (∀ k, k ∈ ks → bm_get k m = None) →
  let '(m', cs') := foldl (λ (acc : list (string * Value) * list string) k,
      let '(merged, conflicts) := acc in let '(selected, conflict) := sel k in
      (match selected with Some v => bm_insert k v merged | None => merged end,
       if conflict then conflicts ++ [k] else conflicts)) (m, cs) ks in
  bm_wf m' ∧ (∀ k, bm_get k m' = if decide (k ∈ ks) then (sel k).1 else bm_get k m) ∧
  cs' = cs ++ filter (λ k, (sel k).2 = true) ks.
Proof.
  revert m cs. induction ks as [|x ks IH]; intros m cs Hd Hm Hn; cbn [foldl].
  { split; [done|]. split; [|by rewrite app_nil_r].
    intros k. by destruct (decide (k ∈ [])) as [?%elem_of_nil|]. }
  apply NoDup_cons in Hd as [Hx Hd]. destruct (sel x) as [v c] eqn:Es.
  set (m1 := match v with Some v => bm_insert x v m | None => m end).
  assert (W1 : bm_wf m1) by (unfold m1; destruct v; [by apply bm_insert_wf|done]).
  assert (G1 : ∀ k, bm_get k m1 = if decide (k = x) then v else bm_get k m).
  { intros k. unfold m1. destruct (decide (k = x)) as [->|Hne].
    - destruct v; [apply bm_get_insert_eq|]. apply Hn. by left.
    - destruct v; [by apply bm_get_insert_ne|done]. }
  specialize (IH m1 (if c then cs ++ [x] else cs) Hd W1). destruct (foldl _ _ ks) as [m' cs'].
  destruct IH as (W & G & C).
  { intros k Hk. rewrite G1, decide_False by (by intros ->). apply Hn. by right. }
  split; [done|]. split.
  - intros k. rewrite G, G1. destruct (decide (k = x)) as [->|Hne].
    + destruct (decide (x ∈ ks)); [done|]. destruct (decide (x ∈ x :: ks)) as [_|Hc]; [by rewrite Es|].
      destruct Hc. by left.
    + destruct (decide (k ∈ ks)) as [Hk|Hk], (decide (k ∈ x :: ks)) as [Hc|Hc]; try done.
      * destruct Hc. by right.
      * by apply elem_of_cons in Hc as [|].
  - rewrite C, filter_cons, Es. simpl. destruct c; simpl; [|done]. by rewrite <-app_assoc.
Qed.

(** Objects merge key by key; the keys in conflict come sorted. *)
Lemma merge_objects_spec (b o t : object) :
  let '(m, ks) := merge_objects b o t in
  bm_wf m ∧ (∀ k, bm_get k m = (select_at b o t k).1) ∧
  ks = filter (λ k, (select_at b o t k).2 = true) (object_keys [b; o; t]).
Proof.
  pose proof (merge_objects_loop (select_at b o t) (object_keys [b; o; t]) [] []
    (object_keys_NoDup _) bm_wf_nil ltac:(done)) as Hl.
  unfold merge_objects. fold (select_at b o t). unfold select_at in Hl.
  destruct (foldl _ _ _) as [m ks]. destruct Hl as (W & G & C). split; [done|]. split; [|done].
  intros k. rewrite G. destruct (decide (k ∈ _)) as [|Hk]; [done|].
  by rewrite (select_at_absent b o t k Hk).
Qed.

(** Three present or absent objects. *)
Definition all_objects (b o t : option Value) : Prop :=
  object_like b = true ∧ object_like o = true ∧ object_like t = true.

(** [o] and [t] may be swapped in the conflict test. *)
Lemma select_conflict_comm b o t : (select_property_value b o t).2 = (select_property_value b t o).2.
Proof.
  unfold select_property_value. rewrite (opt_eqb_sym value_eqb t o) by apply value_eqb_sym.
  destruct (opt_eqb value_eqb o t), (opt_eqb value_eqb o b), (opt_eqb value_eqb t b); done.
Qed.

Lemma merge_objects_conflict_iff (b o t : object) :
  (merge_objects b o t).2 = [] ↔ ∀ k, (select_at b o t k).2 = false.
Proof.
  pose proof (merge_objects_spec b o t) as Hs. destruct (merge_objects b o t) as [m ks].
  destruct Hs as (_ & _ & ->). cbn [snd].
  assert (Hk : ∀ k, k ∈ filter (λ k, (select_at b o t k).2 = true) (object_keys [b; o; t]) ↔
    (select_at b o t k).2 = true).
  { intros k. rewrite list_elem_of_filter. split; [by intros []|]. intros Hk. split; [done|].
    destruct (decide (k ∈ object_keys [b; o; t])) as [|Hn]; [done|]. by rewrite select_at_absent in Hk. }
  split.
  - intros E k. rewrite E in Hk. destruct (select_at b o t k).2 eqn:Ek; [|done].
    apply Hk in Ek. by apply elem_of_nil in Ek.
  - intros Hf. destruct (filter _ _) as [|k l]; [done|]. specialize (Hf k).
    rewrite (proj1 (Hk k)) in Hf; [done|by left].
Qed.

Lemma merge_objects_conflict_comm (b o t : object) :
  (merge_objects b o t).2 = [] ↔ (merge_objects b t o).2 = [].
Proof.
  rewrite !merge_objects_conflict_iff. unfold select_at. split; intros Hk k;
    rewrite select_conflict_comm; apply Hk.
Qed.

Lemma properties_equal_sym a b : properties_equal a b = properties_equal b a.
Proof. apply opt_eqb_sym, value_eqb_sym. Qed.

Lemma fmap_eq_nil {A B} (f : A → B) l : f <$> l = [] ↔ l = [].
Proof. by destruct l. Qed.

Lemma merge_properties_comm eid b o t :
  (merge_properties eid b o t).2 = [] ↔ (merge_properties eid b t o).2 = [].
Proof.
  unfold merge_properties. rewrite (properties_equal_sym t o).
  destruct (properties_equal o t); [done|].
  destruct (properties_equal o b) eqn:Eo, (properties_equal t b) eqn:Et; try done.
  cbn [forallb]. destruct (object_like b), (object_like o), (object_like t); try done. cbn [andb negb].
  pose proof (merge_objects_conflict_comm (object_of b) (object_of o) (object_of t)) as Hc.
  destruct (merge_objects _ (object_of o) _) as [m ks], (merge_objects _ (object_of t) _) as [m' ks'].
  cbn [snd] in *. rewrite !fmap_eq_nil. done.
Qed.

(** What a payload holds at a key. *)
Definition at_key (p : option Value) (k : string) : option Value := member (object_of p) k.

Lemma at_key_same p q k :
  object_like p = true → properties_equal p q = true → same_value (at_key p k) (at_key q k).
Proof.
  intros Hp E. destruct p as [[| | | | |l]|], q as [[| | | | |h]|]; try done. by apply object_eqb_member.
Qed.

Lemma at_key_ok p k : opt_ok p → opt_ok (at_key p k).
Proof. intros Hp. destruct p as [[| | | | |l]|]; try done. by apply (member_ok l). Qed.

Lemma at_key_merged m o t k : bm_wf m → at_key (merged_object m o t) k = bm_get k m.
Proof. intros _. by destruct m, o, t. Qed.

(** The choice, as a property of the values. *)
Lemma select_property_value_spec b o t :
  opt_ok o → opt_ok t →
  let '(v, conflict) := select_property_value b o t in
  (same_value t b → same_value v o) ∧ (same_value o b → same_value v t) ∧
  (conflict = true ↔ ¬ same_value o t ∧ ¬ same_value o b ∧ ¬ same_value t b).
Proof.
  intros Ho Ht. unfold select_property_value.
  destruct (opt_eqb value_eqb o t) eqn:E1; [|destruct (opt_eqb value_eqb o b) eqn:E2;
    [|destruct (opt_eqb value_eqb t b) eqn:E3]]; fold (same_value o t) in *; unfold not in *.
  - split_and!; intros; [by apply same_value_refl|done|]. by naive_solver.
  - split_and!; [|by intros; apply same_value_refl|by naive_solver].
    intros Htb. assert (same_value o t); [|congruence]. transitivity b; [done|by symmetry].
  - split_and!; [by intros; apply same_value_refl| |by naive_solver].
    intros Hob. by unfold same_value in Hob; rewrite Hob in E2.
  - split_and!; [by intros; apply same_value_refl| |].
    + intros Hob. by unfold same_value in Hob; rewrite Hob in E2.
    + split; [|done]. intros _. unfold same_value. by rewrite E1, E2, E3.
Qed.

(** Property objects merge key by key against the base: a key takes the
    value, or the absence, of the only branch that changed it; a mismatch is
    reported exactly for the keys both branches changed differently. *)
Theorem merge_properties_spec eid b o t :
  Forall (λ p, object_like p = true ∧ opt_ok p) [b; o; t] →
  let '(merged, conflicts) := merge_properties eid b o t in
  (∀ k, (same_value (at_key t k) (at_key b k) → same_value (at_key merged k) (at_key o k)) ∧
        (same_value (at_key o k) (at_key b k) → same_value (at_key merged k) (at_key t k))) ∧
  ∀ c, c ∈ conflicts ↔
    ∃ k, c = PropertyMismatch eid k (default VNull (at_key o k)) (default VNull (at_key t k)) ∧
      ¬ same_value (at_key o k) (at_key t k) ∧ ¬ same_value (at_key o k) (at_key b k) ∧
      ¬ same_value (at_key t k) (at_key b k).
Proof.
  rewrite !Forall_cons. intros ([Lb Ob] & [Lo Oo] & [Lt Ot] & _).
  pose proof (λ k, same_value_refl _ (at_key_ok o k Oo)) as Ro.
  pose proof (λ k, same_value_refl _ (at_key_ok t k Ot)) as Rt.
  unfold merge_properties. destruct (properties_equal o t) eqn:E1.
  { pose proof (λ k, at_key_same o t k Lo E1) as S1.
    split; [by intros k; split|]. intros c. split; [by intros ?%elem_of_nil|naive_solver]. }
  destruct (properties_equal o b) eqn:E2.
  { pose proof (λ k, at_key_same o b k Lo E2) as S2. split.
    - intros k. split; [|done]. intros Htb. transitivity (at_key b k); [done|by symmetry].
    - intros c. split; [by intros ?%elem_of_nil|naive_solver]. }
  destruct (properties_equal t b) eqn:E3.
  { pose proof (λ k, at_key_same t b k Lt E3) as S3. split.
    - intros k. split; [done|]. intros Hob. transitivity (at_key b k); [done|by symmetry].
    - intros c. split; [by intros ?%elem_of_nil|naive_solver]. }
  cbn [forallb]. rewrite Lb, Lo, Lt. cbn [andb negb].
  pose proof (merge_objects_spec (object_of b) (object_of o) (object_of t)) as Hs.
  destruct (merge_objects _ _ _) as [m ks]. destruct Hs as (W & G & ->).
  pose proof (λ k, select_property_value_spec (at_key b k) (at_key o k) (at_key t k)
    (at_key_ok o k Oo) (at_key_ok t k Ot)) as Hsel.
  split.
  - intros k. rewrite (at_key_merged m o t k W), G. specialize (Hsel k). unfold select_at.
    fold (at_key b k) (at_key o k) (at_key t k). destruct (select_property_value _ _ _) as [v c].
    split; apply Hsel.
  - intros c. rewrite list_elem_of_fmap. apply exist_proper. intros k. fold (at_key o k) (at_key t k).
    apply and_iff_compat_l. rewrite list_elem_of_filter.
    assert (Hin : (select_at (object_of b) (object_of o) (object_of t) k).2 = true →
      k ∈ object_keys [object_of b; object_of o; object_of t]).
    { intros Hc. destruct (decide (k ∈ object_keys [object_of b; object_of o; object_of t])) as [|Hn]; [done|].
      by rewrite select_at_absent in Hc. }
    specialize (Hsel k). unfold select_at in *. fold (at_key b k) (at_key o k) (at_key t k) in *.
    destruct (select_property_value _ _ _) as [v c']. cbn [snd] in *. destruct Hsel as (_ & _ & <-).
    naive_solver.
Qed.

(** ** The abstract three-way choice *)

(** A branch that left an optional record as it was in the base. *)
Definition kept {A} (eqb : A → A → bool) (base branch : option A) : bool := opt_eqb eqb base branch.

(** The only changed branch is taken whole; two changes are reconciled. *)
Definition three_way {A R} (eqb : A → A → bool) (take : option A → R)
    (reconcile : option A → option A → option A → R) (base ours theirs : option A) : R :=
  match kept eqb base ours, kept eqb base theirs with
  | true, true => take base
  | false, true => take ours
  | true, false => take theirs
  | false, false => reconcile base ours theirs
  end.

(** Two changes of one identifier. *)
Definition reconcile_entity (eid : Uuid) (base ours theirs : option ExportedEntity) :
    option ExportedEntity * list MergeConflict :=
  match base, ours, theirs with
  | None, Some o, Some t =>
      (Some o, match detect_entity_diffs o t with [] => [] | d => [DuplicateAddition eid d] end)
  | Some _, None, Some _ => (None, [ModifyDelete eid Theirs Ours])
  | Some _, Some _, None => (None, [ModifyDelete eid Ours Theirs])
  | Some b, Some o, Some t =>
      let '(e, conflicts) := field_level_merge eid b o t in
      (Some (match conflicts with [] => e | _ => o end), conflicts)
  | _, _, _ => (None, [])
  end.

Definition three_way_entity (eid : Uuid) : option ExportedEntity → option ExportedEntity →
    option ExportedEntity → option ExportedEntity * list MergeConflict :=
  three_way entities_equal (λ e, (e, [])) (reconcile_entity eid).

Lemma merge_entity_three_way (bm om tm : gmap Uuid ExportedEntity) eid :
  let '(es, cs) := merge_entity bm eid (classify entities_equal (bm !! eid) (om !! eid))
                     (classify entities_equal (bm !! eid) (tm !! eid)) in
  (es, cs) = (option_list (three_way_entity eid (bm !! eid) (om !! eid) (tm !! eid)).1,
              (three_way_entity eid (bm !! eid) (om !! eid) (tm !! eid)).2).
Proof.
  unfold three_way_entity, three_way, kept.
  destruct (bm !! eid) as [b|] eqn:Eb, (om !! eid) as [o|], (tm !! eid) as [t|]; cbn [classify opt_eqb];
    repeat match goal with |- context [entities_equal ?x ?y] => destruct (entities_equal x y) end;
    cbn [merge_entity reconcile_entity fst snd option_list]; rewrite ?Eb; try done.
  - destruct (field_level_merge eid b o t) as [e cs]. by destruct cs.
  - by destruct (detect_entity_diffs o t).
Qed.

(** The records of an outcome carry its identifier. *)
Lemma three_way_entity_id eid b o t e :
  (∀ x, b = Some x ∨ o = Some x ∨ t = Some x → id x = eid) →
  (three_way_entity eid b o t).1 = Some e → id e = eid.
Proof.
  intros Hid. unfold three_way_entity, three_way.
  destruct (kept _ b o), (kept _ b t); cbn [fst]; try (intros ->; auto).
  destruct b as [b|], o as [o|], t as [t|]; try done; cbn [reconcile_entity fst].
  - unfold field_level_merge. destruct (merge_properties _ _ _ _) as [p cs].
    destruct (_ ++ cs); intros [= <-]; simpl; auto.
  - destruct (detect_entity_diffs o t); intros [= <-]; auto.
Qed.

(** ** Concatenated outcomes *)

Section outcomes.
Context {K A : Type} `{Ord K, !OrdLaws K}.
Variable key : A → K.
Variable out : K → option A.
Hypothesis out_key : ∀ k e, out k = Some e → key e = k.

Lemma outcomes_elem ks e : e ∈ concat ((λ k, option_list (out k)) <$> ks) ↔ key e ∈ ks ∧ out (key e) = Some e.
Proof.
  rewrite elem_of_concat. split.
  - intros (l & He & (k & -> & Hk)%list_elem_of_fmap). destruct (out k) as [x|] eqn:E; [|by apply elem_of_nil in He].
    apply list_elem_of_singleton in He as ->. by rewrite (out_key k x E).
  - intros [Hk He]. exists (option_list (out (key e))). rewrite He. split; [by left|].
    apply list_elem_of_fmap. exists (key e). by rewrite He.
Qed.

Lemma outcomes_sorted ks :
  StronglySorted cmp_lt ks → StronglySorted cmp_lt (key <$> concat ((λ k, option_list (out k)) <$> ks)).
Proof.
  induction 1 as [|k ks Hs IH Hk]; [constructor|]. simpl.
  destruct (out k) as [e|] eqn:E; [|done]. simpl. constructor; [done|].
  rewrite (out_key k e E). rewrite Forall_forall in *. intros x (y & -> & Hy)%list_elem_of_fmap.
  apply outcomes_elem in Hy as [Hy _]. by apply Hk.
Qed.
End outcomes.

(** ** The merged entities *)

Section merged_entities.
Variables base ours theirs : KgArchive.

Definition base_index : gmap Uuid ExportedEntity := index_by id (entities base).
Definition ours_index : gmap Uuid ExportedEntity := index_by id (entities ours).
Definition theirs_index : gmap Uuid ExportedEntity := index_by id (entities theirs).

Lemma diff_entities_lookup branch eid :
  diff_entities base branch !! eid =
  classify entities_equal (base_index !! eid) (index_by id (entities branch) !! eid).
Proof. apply (diff_by_lookup id entities_equal). Qed.

Definition entity_result (eid : Uuid) : option ExportedEntity * list MergeConflict :=
  three_way_entity eid (base_index !! eid) (ours_index !! eid) (theirs_index !! eid).

(** The identifiers of the three archives, sorted. *)
Definition all_ids : list Uuid := sorted_keys (diff_entities base ours) (diff_entities base theirs).

Lemma all_ids_elem eid :
  eid ∈ all_ids ↔ eid ∈ id <$> (entities base ++ entities ours ++ entities theirs).
Proof.
  rewrite !fmap_app, !elem_of_app.
  apply (diff_keys id entities_equal (entities base) (entities ours) (entities theirs)).
Qed.

Lemma merge_entities_outcomes :
  merge_entities base ours theirs =
  (concat ((λ eid, option_list (entity_result eid).1) <$> all_ids),
   concat ((λ eid, (entity_result eid).2) <$> all_ids)).
Proof.
  unfold merge_entities. rewrite foldl_collect. cbn [fst snd app]. fold all_ids base_index.
  assert (E : ∀ eid, merge_entity base_index eid (diff_entities base ours !! eid)
      (diff_entities base theirs !! eid) = (option_list (entity_result eid).1, (entity_result eid).2)).
  { intros eid. rewrite !diff_entities_lookup.
    pose proof (merge_entity_three_way base_index ours_index theirs_index eid) as Hm.
    unfold base_index, ours_index, theirs_index in *. by destruct (merge_entity _ _ _ _). }
  f_equal; f_equal; apply list_fmap_ext; intros i eid _; by rewrite E.
Qed.

Lemma entity_result_id eid e : (entity_result eid).1 = Some e → id e = eid.
Proof.
  apply three_way_entity_id. intros x [Hx|[Hx|Hx]]; by apply index_by_Some in Hx as [_ Hx].
Qed.

Lemma entity_result_absent eid : eid ∉ all_ids → entity_result eid = (None, []).
Proof.
  rewrite all_ids_elem, !fmap_app, !elem_of_app. intros Hn. unfold entity_result.
  assert (Ha : ∀ l : list ExportedEntity, eid ∉ id <$> l → index_by id l !! eid = None).
  { intros l Hl. apply eq_None_not_Some. by rewrite index_by_is_Some. }
  unfold base_index, ours_index, theirs_index. by rewrite !Ha by naive_solver.
Qed.

Lemma merged_entities_elem e :
  e ∈ (merge_entities base ours theirs).1 ↔ (entity_result (id e)).1 = Some e.
Proof.
  rewrite merge_entities_outcomes. cbn [fst].
  rewrite (outcomes_elem id (λ eid, (entity_result eid).1) entity_result_id). split; [by intros []|].
  intros He. split; [|done]. destruct (decide (id e ∈ all_ids)) as [|Hn]; [done|].
  by rewrite entity_result_absent in He.
Qed.

Lemma merged_entities_sorted : StronglySorted cmp_lt (id <$> (merge_entities base ours theirs).1).
Proof.
  rewrite merge_entities_outcomes. cbn [fst].
  apply (outcomes_sorted id (λ eid, (entity_result eid).1) entity_result_id).
  apply sorted_keys_sorted.
Qed.

Lemma merged_entities_lookup eid :
  index_by id (merge_entities base ours theirs).1 !! eid = (entity_result eid).1.
Proof.
  apply option_eq. intros e.
  rewrite index_by_lookup by apply cmp_sorted_NoDup, merged_entities_sorted.
  rewrite merged_entities_elem. split; [by intros [He <-]|].
  intros He. by rewrite (entity_result_id eid e He).
Qed.

Lemma entity_conflicts_nil :
  (merge_entities base ours theirs).2 = [] ↔ ∀ eid, (entity_result eid).2 = [].
Proof.
  rewrite merge_entities_outcomes. cbn [snd]. rewrite concat_nil_iff, Forall_fmap, Forall_forall. split.
  - intros Hn eid. destruct (decide (eid ∈ all_ids)) as [Hi|Hi]; [by apply (Hn eid)|].
    by rewrite entity_result_absent.
  - intros Hn eid _. apply Hn.
Qed.

(** C13: the entity merge implements the three-way choice: every identifier of
    the three archives appears at most once, in order, with the record the
    choice gives it, and the conflicts are those of the choices. *)
Theorem merge_entities_refines :
  let '(merged, conflicts) := merge_entities base ours theirs in
  StronglySorted cmp_lt (id <$> merged) ∧
  (∀ eid, index_by id merged !! eid =
    (three_way_entity eid (index_by id (entities base) !! eid) (index_by id (entities ours) !! eid)
       (index_by id (entities theirs) !! eid)).1) ∧
  ∃ ids, StronglySorted cmp_lt ids ∧
    (∀ eid, eid ∈ ids ↔ eid ∈ id <$> (entities base ++ entities ours ++ entities theirs)) ∧
    conflicts = concat ((λ eid, (three_way_entity eid (index_by id (entities base) !! eid)
      (index_by id (entities ours) !! eid) (index_by id (entities theirs) !! eid)).2) <$> ids).
Proof.
  pose proof merged_entities_sorted as Hs. pose proof merged_entities_lookup as Hl.
  pose proof merge_entities_outcomes as E. destruct (merge_entities base ours theirs) as [m c].
  cbn [fst] in *. split; [done|]. split; [done|]. exists all_ids.
  split; [apply sorted_keys_sorted|]. split; [apply all_ids_elem|]. by injection E.
Qed.
End merged_entities.

(** ** Symmetry *)

Lemma strings_eqb_sym a b : strings_eqb a b = strings_eqb b a.
Proof. apply eq_true_iff_eq. rewrite !strings_eqb_iff. naive_solver. Qed.

Lemma opt_string_eqb_sym a b : opt_string_eqb a b = opt_string_eqb b a.
Proof. apply opt_eqb_sym, String.eqb_sym. Qed.

Lemma detect_entity_diffs_sym o t : detect_entity_diffs o t = detect_entity_diffs t o.
Proof.
  unfold detect_entity_diffs. rewrite (String.eqb_sym (name t)), (String.eqb_sym (kind t)),
    (opt_string_eqb_sym (entity_type t)), (opt_string_eqb_sym (description t)),
    (properties_equal_sym (properties t)), (strings_eqb_sym (sort_by cmp (tags t))). done.
Qed.

Lemma field_conflicts_comm eid b o t :
  (field_level_merge eid b o t).2 = [] ↔ (field_level_merge eid b t o).2 = [].
Proof.
  unfold field_level_merge. pose proof (merge_properties_comm eid (properties b) (properties o) (properties t)) as Hp.
  destruct (merge_properties _ _ (properties o) _) as [p cs], (merge_properties _ _ (properties t) _) as [p' cs'].
  cbn [snd] in *. rewrite !app_nil. rewrite Hp. unfold field_conflicts.
  rewrite (String.eqb_sym (name t)), (String.eqb_sym (kind t)), (opt_string_eqb_sym (entity_type t)).
  destruct (String.eqb (name o) _), (String.eqb (kind o) _), (opt_string_eqb (entity_type o) _); simpl; naive_solver.
Qed.

Lemma three_way_entity_comm eid b o t :
  ((three_way_entity eid b o t).2 = [] ↔ (three_way_entity eid b t o).2 = []) ∧
  (is_Some (three_way_entity eid b o t).1 ↔ is_Some (three_way_entity eid b t o).1).
Proof.
  unfold three_way_entity, three_way. destruct (kept _ b o), (kept _ b t); try done.
  destruct b as [b|], o as [o|], t as [t|]; try done; cbn [reconcile_entity fst snd].
  - pose proof (field_conflicts_comm eid b o t) as Hc.
    destruct (field_level_merge eid b o t), (field_level_merge eid b t o). cbn [fst snd] in *.
    split; [done|]. by split; eexists.
  - rewrite (detect_entity_diffs_sym t o). split; [done|]. by split; eexists.
Qed.

(** Exchanging the branches changes neither whether entities conflict nor
    which identifiers the merge keeps. *)
Theorem merge_entities_symmetric base ours theirs :
  ((merge_entities base ours theirs).2 = [] ↔ (merge_entities base theirs ours).2 = []) ∧
  id <$> (merge_entities base ours theirs).1 = id <$> (merge_entities base theirs ours).1.
Proof.
  split.
  - rewrite !entity_conflicts_nil. split; intros Hn eid; specialize (Hn eid); by apply three_way_entity_comm.
  - apply bs_unique; [apply merged_entities_sorted..|]. intros eid.
    rewrite <-!index_by_is_Some, !merged_entities_lookup. apply three_way_entity_comm.
Qed.

Theorem merge_properties_spec_witness :
  merge_properties 7%N (Some (VObject [("a"%string, VNull)])) (Some (VObject [("a"%string, VBool true)]))
    (Some (VObject [("a"%string, VBool false); ("b"%string, VNull)])) =
  (Some (VObject [("a"%string, VBool true); ("b"%string, VNull)]),
   [PropertyMismatch 7%N "a" (VBool true) (VBool false)]) ∧
  ∀ c, c ∈ [PropertyMismatch 7%N "a" (VBool true) (VBool false)] → ∃ k,
    c = PropertyMismatch 7%N k (default VNull (at_key (Some (VObject [("a"%string, VBool true)])) k))
          (default VNull (at_key (Some (VObject [("a"%string, VBool false); ("b"%string, VNull)])) k)).
Proof.
  assert (E : merge_properties 7%N (Some (VObject [("a"%string, VNull)])) (Some (VObject [("a"%string, VBool true)]))
    (Some (VObject [("a"%string, VBool false); ("b"%string, VNull)])) =
    (Some (VObject [("a"%string, VBool true); ("b"%string, VNull)]),
     [PropertyMismatch 7%N "a" (VBool true) (VBool false)])) by (vm_compute; reflexivity).
  split; [exact E|].
  pose proof (merge_properties_spec 7%N (Some (VObject [("a"%string, VNull)])) (Some (VObject [("a"%string, VBool true)]))
    (Some (VObject [("a"%string, VBool false); ("b"%string, VNull)]))) as Hs.
  rewrite E in Hs. destruct Hs as [_ Hc]; [repeat constructor|].
  intros c Hin. apply Hc in Hin as (k & Hk & _). exists k. exact Hk.
Defined.
