(* ===== verification/MergeEdge.v ===== *)
(** The edge merge: the abstract three-way choice of every semantic key, and
    the resolution of durable identities. *)

From Stdlib Require Import ZArith NArith String.
From stdpp Require Import base tactics list numbers strings gmap sorting.
From Stdlib Require Import SpecFloat.
From S2P Require Import Prelude Json Float EdgeOntology Archive Merge MergeEntity.
Open Scope Z_scope.

#[local] Existing Instance F64.

(** ** Semantic keys *)

Lemma from_edge_canonicalize e : from_edge (canonicalize_endpoints e) = from_edge e.
Proof.
  unfold from_edge, canonicalize_endpoints.
  pose proof (canonical_endpoints_idemp (relation e) (source e) (target e)) as Hi. cbv zeta in Hi.
  destruct (canonical_endpoints (relation e) (source e) (target e)) as [s t]. cbn [fst snd] in Hi.
  cbn [relation source target]. by rewrite Hi.
Qed.

Lemma from_edge_with_content e i w p : from_edge (with_content e i w p) = from_edge e.
Proof. done. Qed.

(** An edge in the canonical form of its key. *)
Definition canonical (e : ExportedEdge) : Prop :=
  source e = key_source (from_edge e) ∧ target e = key_target (from_edge e).

Lemma canonicalize_canonical e : canonical (canonicalize_endpoints e).
Proof.
  unfold canonical. rewrite from_edge_canonicalize. unfold from_edge, canonicalize_endpoints.
  by destruct (canonical_endpoints _ _ _).
Qed.

Lemma canonicalize_id e : canonical e → canonicalize_endpoints e = e.
Proof.
  unfold canonical, from_edge, canonicalize_endpoints. destruct (canonical_endpoints _ _ _) as [s t].
  cbn [key_source key_target]. intros [<- <-]. by destruct e.
Qed.

(** ** The three-way choice *)

Definition reconcile_edge (key : EdgeKey) (base ours theirs : option ExportedEdge) :
    option ExportedEdge * list MergeConflict :=
  match base, ours, theirs with
  | None, Some o, Some t => let '(e, cs) := merge_added_edges key o t in (Some e, cs)
  | Some _, None, Some _ => (None, [edge_modify_delete key Theirs Ours])
  | Some _, Some _, None => (None, [edge_modify_delete key Ours Theirs])
  | Some b, Some o, Some t => let '(e, cs) := merge_modified_edges key b o t in (Some e, cs)
  | _, _, _ => (None, [])
  end.

Definition three_way_edge (key : EdgeKey) : option ExportedEdge → option ExportedEdge →
    option ExportedEdge → option ExportedEdge * list MergeConflict :=
  three_way edges_equal (λ e, (e, [])) (reconcile_edge key).

Lemma merge_edge_three_way (bm om tm : gmap EdgeKey ExportedEdge) key :
  merge_edge bm key (classify edges_equal (bm !! key) (om !! key))
    (classify edges_equal (bm !! key) (tm !! key)) =
  ((λ e, (e, identity_is_base (bm !! key) e)) <$> (three_way_edge key (bm !! key) (om !! key) (tm !! key)).1,
   (three_way_edge key (bm !! key) (om !! key) (tm !! key)).2).
Proof.
  unfold three_way_edge, three_way, kept.
  destruct (bm !! key) as [b|] eqn:Eb, (om !! key) as [o|], (tm !! key) as [t|]; cbn [classify opt_eqb];
    repeat match goal with |- context [edges_equal ?x ?y] => destruct (edges_equal x y) end;
    cbn [merge_edge reconcile_edge fst snd fmap option_fmap option_map identity_is_base];
    rewrite ?Eb; cbn [identity_is_base fmap option_fmap option_map]; rewrite ?N.eqb_refl; try done.
  - destruct (merge_modified_edges key b o t) as [e cs]. cbn [fst snd fmap option_fmap option_map identity_is_base].
    by rewrite N.eqb_sym.
  - by destruct (merge_added_edges key o t).
Qed.

Lemma three_way_edge_key key b o t e :
  (∀ x, b = Some x ∨ o = Some x ∨ t = Some x → from_edge x = key) →
  (three_way_edge key b o t).1 = Some e → from_edge e = key.
Proof.
  intros Hk. unfold three_way_edge, three_way.
  destruct (kept _ b o), (kept _ b t); cbn [fst]; try (intros ->; auto).
  destruct b as [b|], o as [o|], t as [t|]; try done; cbn [reconcile_edge fst].
  - unfold merge_modified_edges. destruct (merge_edge_properties _ _ _ _), (merged_identity _ _ _ _).
    intros [= <-]. rewrite from_edge_with_content. auto.
  - unfold merge_added_edges. destruct (merge_edge_properties _ _ _ _).
    intros [= <-]. rewrite from_edge_with_content. auto.
Qed.

(** ** Resolving identities *)

Section resolve.
Variable base_map : gmap EdgeKey ExportedEdge.

(** The identities inherited from base. *)
Definition inherited (cs : list candidate) : list Uuid :=
  omap (λ c : candidate, match c.2 with Some (e, true) => Some (edge_id e) | _ => None end) cs.

Lemma reserved_ids_elem cs i : i ∈ reserved_ids cs ↔ i ∈ inherited cs.
Proof.
  unfold reserved_ids.
  cut (∀ used : gset Uuid, i ∈ foldl (λ (used : gset Uuid) (c : candidate), match c.2 with
      | Some (edge, true) => {[edge_id edge]} ∪ used | _ => used end) used cs ↔ i ∈ used ∨ i ∈ inherited cs).
  { intros ->. split; [by intros [?%elem_of_empty|]|by right]. }
  induction cs as [|[k [[e []]|]] cs IH]; intros used; cbn [foldl inherited omap list_omap snd].
  - split; [by left|by intros [|?%elem_of_nil]].
  - rewrite IH, elem_of_union, elem_of_singleton, elem_of_cons. naive_solver.
  - apply IH.
  - apply IH.
Qed.

(** Where the identities of the output come from. *)
Lemma resolve_identities_ids cs used :
  NoDup (inherited cs) → (∀ i, i ∈ inherited cs → i ∈ used) →
  let out := (resolve_identities base_map used cs).1 in
  NoDup (edge_id <$> out) ∧ ∀ i, i ∈ edge_id <$> out → i ∈ inherited cs ∨ i ∉ used.
Proof.
  revert used. induction cs as [|[k [[e []]|]] cs IH]; intros used Hd Hu; cbn [resolve_identities].
  - split; [constructor|by intros i ?%elem_of_nil].
  - cbn [inherited omap list_omap snd] in *. apply NoDup_cons in Hd as [Hn Hd].
    destruct (IH used Hd) as [I1 I2]; [intros i Hi; apply Hu; by right|].
    destruct (resolve_identities base_map used cs) as [m c]. cbn [fst] in *.
    assert (edge_id e ∈ used) as He by (apply Hu; by left). split.
    + rewrite fmap_cons. apply NoDup_cons. split; [|done]. intros [?|?]%I2; done.
    + intros i [->|[Hi|Hi]%I2]%elem_of_cons; [left; by left|left; by right|by right].
  - cbn [inherited omap list_omap snd] in *.
    (* a fresh identity [j] joins those in use *)
    assert (Hjoin : ∀ j x, edge_id x = j → j ∉ used →
      let out := x :: (resolve_identities base_map ({[j]} ∪ used) cs).1 in
      NoDup (edge_id <$> out) ∧ ∀ i, i ∈ edge_id <$> out → i ∈ inherited cs ∨ i ∉ used).
    { intros j x Hx Hj. destruct (IH ({[j]} ∪ used) Hd) as [I1 I2]; [set_solver|]. cbv zeta.
      rewrite fmap_cons, Hx. split.
      - apply NoDup_cons. split; [|done]. intros [Hi|Hi]%I2; [|set_solver]. by apply Hj, Hu.
      - intros i [->|[Hi|Hi]%I2]%elem_of_cons; [by right|by left|right; set_solver]. }
    specialize (IH used Hd Hu). destruct (decide (edge_id e ∈ used)) as [He|He].
    + destruct (base_map !! k) as [b|].
      * destruct (decide (edge_id b ∈ used)) as [Hb|Hb].
        -- by destruct (resolve_identities base_map used cs).
        -- specialize (Hjoin (edge_id b) (with_content e (edge_id b) (weight e) (edge_properties e)) eq_refl Hb).
           by destruct (resolve_identities base_map ({[edge_id b]} ∪ used) cs).
      * by destruct (resolve_identities base_map used cs).
    + specialize (Hjoin (edge_id e) e eq_refl He).
      by destruct (resolve_identities base_map ({[edge_id e]} ∪ used) cs).
  - by apply IH.
Qed.

(** What an output edge is made of. *)
Definition made_of (k : EdgeKey) (e0 e : ExportedEdge) : Prop :=
  e = e0 ∨ ∃ b, base_map !! k = Some b ∧ e = with_content e0 (edge_id b) (weight e0) (edge_properties e0).

Lemma resolve_identities_elem cs used e :
  e ∈ (resolve_identities base_map used cs).1 →
  ∃ k e0 flag, (k, Some (e0, flag)) ∈ cs ∧ made_of k e0 e.
Proof.
  revert used. induction cs as [|[k [[e0 []]|]] cs IH]; intros used; cbn [resolve_identities].
  - by intros ?%elem_of_nil.
  - specialize (IH used). destruct (resolve_identities base_map used cs) as [m c]. cbn [fst] in *.
    intros [->|He]%elem_of_cons; [exists k, e0, true; split; [left|by left]|].
    destruct (IH He) as (k' & e' & fl & Hin & Hm). exists k', e', fl. split; [by right|done].
  - assert (Hrec : ∀ u, e ∈ (resolve_identities base_map u cs).1 →
      ∃ k' e' fl, (k', Some (e', fl)) ∈ (k, Some (e0, false)) :: cs ∧ made_of k' e' e).
    { intros u He. destruct (IH u He) as (k' & e' & fl & Hin & Hm). exists k', e', fl. split; [by right|done]. }
    destruct (decide (edge_id e0 ∈ used)).
    + destruct (base_map !! k) as [b|] eqn:Eb.
      * destruct (decide (edge_id b ∈ used)).
        -- specialize (Hrec used). by destruct (resolve_identities base_map used cs).
        -- specialize (Hrec ({[edge_id b]} ∪ used)). destruct (resolve_identities _ _ cs). cbn [fst] in *.
           intros [->|He]%elem_of_cons; [|by apply Hrec].
           exists k, e0, false. split; [by left|]. right. by exists b.
      * specialize (Hrec used). by destruct (resolve_identities base_map used cs).
    + specialize (Hrec ({[edge_id e0]} ∪ used)). destruct (resolve_identities _ _ cs). cbn [fst] in *.
      intros [->|He]%elem_of_cons; [|by apply Hrec]. exists k, e0, false. split; [by left|by left].
  - intros He. destruct (IH used He) as (k' & e' & fl & Hin & Hm). exists k', e', fl. split; [by right|done].
Qed.

(** Candidates whose edges carry their key. *)
Definition keyed (cs : list candidate) : Prop :=
  Forall (λ c : candidate, match c.2 with Some (e, _) => from_edge e = c.1 | None => True end) cs.

Lemma resolve_identities_keys cs used :
  keyed cs → from_edge <$> (resolve_identities base_map used cs).1 `sublist_of` cs.*1.
Proof.
  intros Hk. revert used. induction Hk as [|[k [[e []]|]] cs Hc _ IH]; intros used;
    cbn [resolve_identities fst snd] in *.
  - constructor.
  - specialize (IH used). destruct (resolve_identities base_map used cs). cbn [fst] in *.
    rewrite !fmap_cons, Hc. by apply sublist_skip.
  - assert (Hskip : ∀ u, from_edge <$> (resolve_identities base_map u cs).1 `sublist_of` k :: cs.*1)
      by (intros u; by apply sublist_cons).
    destruct (decide (edge_id e ∈ used)).
    + destruct (base_map !! k) as [b|].
      * destruct (decide (edge_id b ∈ used)).
        -- specialize (Hskip used). by destruct (resolve_identities base_map used cs).
        -- specialize (IH ({[edge_id b]} ∪ used)). destruct (resolve_identities _ _ cs). cbn [fst] in *.
           rewrite !fmap_cons, from_edge_with_content, Hc. by apply sublist_skip.
      * specialize (Hskip used). by destruct (resolve_identities base_map used cs).
    + specialize (IH ({[edge_id e]} ∪ used)). destruct (resolve_identities _ _ cs). cbn [fst] in *.
      rewrite !fmap_cons, Hc. by apply sublist_skip.
  - rewrite fmap_cons. apply sublist_cons, IH.
Qed.

(** An edge that keeps the identity of base is never displaced. *)
Lemma resolve_identities_inherited cs used k e :
  (k, Some (e, true)) ∈ cs → e ∈ (resolve_identities base_map used cs).1.
Proof.
  revert used. induction cs as [|[k' [[e' []]|]] cs IH]; intros used; cbn [resolve_identities];
    [by intros ?%elem_of_nil|intros Hin..]; apply elem_of_cons in Hin as [Hin|Hin]; try done.
  - injection Hin as <- <-. destruct (resolve_identities _ _ _). by left.
  - specialize (IH used Hin). destruct (resolve_identities _ _ _). by right.
  - destruct (decide (edge_id e' ∈ used)).
    + destruct (base_map !! k') as [b|].
      * destruct (decide (edge_id b ∈ used)).
        -- specialize (IH used Hin). by destruct (resolve_identities _ _ _).
        -- specialize (IH ({[edge_id b]} ∪ used) Hin). destruct (resolve_identities _ _ _). by right.
      * specialize (IH used Hin). by destruct (resolve_identities _ _ _).
    + specialize (IH ({[edge_id e']} ∪ used) Hin). destruct (resolve_identities _ _ _). by right.
  - by apply IH.
Qed.

(** Without a collision the output is the candidates' edges. *)
Lemma resolve_identities_clean cs used :
  (resolve_identities base_map used cs).2 = [] →
  (resolve_identities base_map used cs).1 = omap (λ c : candidate, fst <$> c.2) cs.
Proof.
  revert used. induction cs as [|[k [[e []]|]] cs IH]; intros used; cbn [resolve_identities omap list_omap snd fmap option_fmap option_map fst].
  - done.
  - specialize (IH used). destruct (resolve_identities _ _ _). cbn [fst snd] in *. by intros ->%IH.
  - destruct (decide (edge_id e ∈ used)).
    + destruct (base_map !! k); [destruct (decide _)|]; by destruct (resolve_identities _ _ _).
    + specialize (IH ({[edge_id e]} ∪ used)). destruct (resolve_identities _ _ _). cbn [fst snd] in *.
      by intros ->%IH.
  - apply IH.
Qed.

(** The identities branches chose. *)
Definition chosen (cs : list candidate) : list Uuid :=
  omap (λ c : candidate, match c.2 with Some (e, false) => Some (edge_id e) | _ => None end) cs.

(** Distinct chosen identities, not in use, do not collide. *)
Lemma resolve_identities_no_collision cs used :
  NoDup (chosen cs) → (∀ i, i ∈ chosen cs → i ∉ used) → (resolve_identities base_map used cs).2 = [].
Proof.
  revert used. induction cs as [|[k [[e []]|]] cs IH]; intros used;
    cbn [resolve_identities chosen omap list_omap snd] in *; intros Hd Hu.
  - done.
  - specialize (IH used Hd Hu). by destruct (resolve_identities _ _ _).
  - apply NoDup_cons in Hd as [Hn Hd]. rewrite decide_False by (apply Hu; by left).
    specialize (IH ({[edge_id e]} ∪ used) Hd). destruct (resolve_identities _ _ _). cbn [snd] in *.
    apply IH. intros i Hi. assert (i ∉ used) by (apply Hu; by right). set_solver.
  - by apply IH.
Qed.
End resolve.

(** ** The merged edges *)

Lemma omap_of_fmap {A B C} (f : B → option C) (g : A → B) (l : list A) : omap f (g <$> l) = omap (λ x, f (g x)) l.
Proof. induction l as [|x l IH]; [done|]. rewrite fmap_cons. cbn [omap list_omap]. by rewrite <-IH. Qed.

Lemma list_omap_ext' {A B} (f g : A → option B) (l : list A) : (∀ x, f x = g x) → omap f l = omap g l.
Proof. intros Hf. induction l as [|x l IH]; [done|]. cbn [omap list_omap]. rewrite Hf. by rewrite <-IH. Qed.

Lemma NoDup_omap_inj {A B} (f : A → option B) (l : list A) :
  NoDup l → (∀ x y b, x ∈ l → y ∈ l → f x = Some b → f y = Some b → x = y) → NoDup (omap f l).
Proof.
  induction 1 as [|x l Hx Hd IH]; intros Hf; [constructor|]. cbn [omap list_omap].
  assert (NoDup (omap f l)) by (apply IH; intros y z b Hy Hz; apply Hf; by right).
  destruct (f x) as [b|] eqn:E; [|done]. apply NoDup_cons. split; [|done].
  intros (y & Hy & Ey)%list_elem_of_omap. apply Hx.
  by rewrite (Hf x y b ltac:(by left) ltac:(by right) E Ey).
Qed.

(** The invariants of an archive. *)
Record archive_wf (a : KgArchive) : Prop := {
  wf_weights : Forall (λ e, is_finite (weight e) = true) (edges a);
  wf_ids : NoDup (id <$> entities a);
  wf_edge_ids : NoDup (edge_id <$> edges a);
  wf_edge_keys : NoDup (from_edge <$> edges a)
}.

Section merged_edges.
Variables base ours theirs : KgArchive.

Definition edge_index (a : KgArchive) : gmap EdgeKey ExportedEdge := index_by from_edge (edges a).

Definition edge_result (key : EdgeKey) : option ExportedEdge * list MergeConflict :=
  three_way_edge key (edge_index base !! key) (edge_index ours !! key) (edge_index theirs !! key).

Definition all_keys : list EdgeKey := sorted_keys (diff_edges base ours) (diff_edges base theirs).

(** The candidate of a key. *)
Definition candidate_of (key : EdgeKey) : candidate :=
  (key, (λ e, (canonicalize_endpoints e, identity_is_base (edge_index base !! key) e)) <$> (edge_result key).1).

Definition merge_candidates : list candidate := candidate_of <$> all_keys.

Lemma diff_edges_lookup branch key :
  diff_edges base branch !! key =
  classify edges_equal (edge_index base !! key) (edge_index branch !! key).
Proof. apply (diff_by_lookup from_edge edges_equal). Qed.

Lemma all_keys_elem key :
  key ∈ all_keys ↔ key ∈ from_edge <$> (edges base ++ edges ours ++ edges theirs).
Proof.
  rewrite !fmap_app, !elem_of_app.
  apply (diff_keys from_edge edges_equal (edges base) (edges ours) (edges theirs)).
Qed.

Lemma all_keys_NoDup : NoDup all_keys.
Proof. apply sorted_keys_NoDup. Qed.

Lemma edge_candidates_eq :
  edge_candidates (edge_index base) (diff_edges base ours) (diff_edges base theirs) all_keys =
  (merge_candidates, concat ((λ key, (edge_result key).2) <$> all_keys)).
Proof.
  unfold edge_candidates, merge_candidates. generalize all_keys as ks. intros ks.
  cut (∀ acc, foldl (λ (acc : list candidate * list MergeConflict) key,
      let '(c, conflicts) := merge_edge (edge_index base) key (diff_edges base ours !! key)
                               (diff_edges base theirs !! key) in
      (acc.1 ++ [(key, (λ p, (canonicalize_endpoints p.1, p.2)) <$> c)], acc.2 ++ conflicts)) acc ks =
    (acc.1 ++ (candidate_of <$> ks), acc.2 ++ concat ((λ key, (edge_result key).2) <$> ks))).
  { intros Hc. exact (Hc ([], [])). }
  induction ks as [|key ks IH]; intros acc.
  { simpl. rewrite !app_nil_r. by destruct acc. }
  cbn [foldl]. rewrite !diff_edges_lookup, merge_edge_three_way. fold (edge_result key). rewrite IH.
  rewrite !fmap_cons. cbn [fst snd concat]. rewrite <-!app_assoc. unfold candidate_of at 2.
  by destruct (edge_result key) as [[e|] cs].
Qed.

Definition resolved : list ExportedEdge * list MergeConflict :=
  resolve_identities (edge_index base) (reserved_ids merge_candidates) merge_candidates.

Lemma merge_edges_eq :
  merge_edges base ours theirs =
  (resolved.1, concat ((λ key, (edge_result key).2) <$> all_keys) ++ resolved.2).
Proof.
  unfold merge_edges. fold all_keys (edge_index base). rewrite edge_candidates_eq.
  fold resolved. by destruct resolved.
Qed.

Lemma edge_result_key key e : (edge_result key).1 = Some e → from_edge e = key.
Proof. apply three_way_edge_key. intros x [Hx|[Hx|Hx]]; by apply index_by_Some in Hx as [_ Hx]. Qed.

Lemma edge_result_absent key : key ∉ all_keys → edge_result key = (None, []).
Proof.
  rewrite all_keys_elem, !fmap_app, !elem_of_app. intros Hn. unfold edge_result.
  assert (Ha : ∀ a, key ∉ from_edge <$> edges a → edge_index a !! key = None).
  { intros a Hl. apply eq_None_not_Some. unfold edge_index. by rewrite index_by_is_Some. }
  by rewrite !Ha by naive_solver.
Qed.

Lemma candidates_keyed : keyed merge_candidates.
Proof.
  unfold keyed, merge_candidates. apply Forall_fmap, Forall_forall. intros key _. simpl.
  destruct (edge_result key).1 as [e|] eqn:E; simpl; [|done].
  rewrite from_edge_canonicalize. by apply edge_result_key.
Qed.

Lemma candidate_elem key e flag :
  (key, Some (e, flag)) ∈ merge_candidates ↔
  ∃ x, (edge_result key).1 = Some x ∧ e = canonicalize_endpoints x ∧
    flag = identity_is_base (edge_index base !! key) x.
Proof.
  unfold merge_candidates. rewrite list_elem_of_fmap. split.
  - intros (k & [= <- E] & _). symmetry in E. apply fmap_Some in E as (x & Hx & [= -> ->]). by exists x.
  - intros (x & Hx & -> & ->). exists key. unfold candidate_of. rewrite Hx. split; [done|].
    destruct (decide (key ∈ all_keys)) as [|Hn]; [done|]. by rewrite edge_result_absent in Hx.
Qed.

Lemma identity_is_base_true b e : identity_is_base b e = true ↔ ∃ x, b = Some x ∧ edge_id x = edge_id e.
Proof.
  unfold identity_is_base. destruct b as [x|]; [|split; [done|by intros (? & ? & _)]].
  rewrite N.eqb_eq. naive_solver.
Qed.

Lemma candidates_inherited : archive_wf base → NoDup (inherited merge_candidates).
Proof.
  intros Hb. unfold inherited, merge_candidates. rewrite omap_of_fmap.
  apply NoDup_omap_inj; [apply all_keys_NoDup|].
  assert (Hf : ∀ k i, match (candidate_of k).2 with Some (e, true) => Some (edge_id e) | _ => None end = Some i →
    ∃ b, edge_index base !! k = Some b ∧ edge_id b = i).
  { intros k i. unfold candidate_of. cbn [snd]. destruct (edge_result k).1 as [e|]; simpl; [|done].
    destruct (identity_is_base _ e) eqn:Ei; [|done]. apply identity_is_base_true in Ei as (b & Hk & Hi).
    intros [= <-]. exists b. split; [done|]. rewrite Hi. unfold canonicalize_endpoints. by destruct (canonical_endpoints _ _ _). }
  intros x y i _ _ (b & Hx & <-)%Hf (b' & Hy & Hi)%Hf.
  apply index_by_Some in Hx as [Hb1 <-], Hy as [Hb2 <-]. f_equal.
  by apply (NoDup_fmap_inj edge_id (edges base)); [apply Hb|..].
Qed.

Lemma canonicalize_edge_id e : edge_id (canonicalize_endpoints e) = edge_id e.
Proof. unfold canonicalize_endpoints. by destruct (canonical_endpoints _ _ _). Qed.

Lemma canonicalize_weight e : weight (canonicalize_endpoints e) = weight e.
Proof. unfold canonicalize_endpoints. by destruct (canonical_endpoints _ _ _). Qed.

Lemma fmax_cases (x y : f64) : fmax x y = x ∨ fmax x y = y.
Proof. unfold fmax. destruct (is_nan x); [by right|]. destruct (flt x y); auto. Qed.

Lemma merged_weight_cases b o t :
  merged_weight b o t = b ∨ merged_weight b o t = o ∨ merged_weight b o t = t.
Proof. unfold merged_weight. destruct (fmax_cases o t), (negb _), (negb _); auto. Qed.

Lemma edge_result_weight key e :
  archive_wf base → archive_wf ours → archive_wf theirs →
  (edge_result key).1 = Some e → is_finite (weight e) = true.
Proof.
  intros Wb Wo Wt.
  assert (Hf : ∀ a x, archive_wf a → edge_index a !! key = Some x → is_finite (weight x) = true).
  { intros a x Wa [Hx _]%index_by_Some. pose proof (wf_weights a Wa) as Hw.
    rewrite Forall_forall in Hw. by apply Hw. }
  unfold edge_result, three_way_edge, three_way. destruct (kept _ _ _), (kept _ _ _); cbn [fst]; eauto.
  destruct (edge_index base !! key) as [b|] eqn:Eb, (edge_index ours !! key) as [o|] eqn:Eo,
    (edge_index theirs !! key) as [t|] eqn:Et; try done; cbn [reconcile_edge fst].
  - unfold merge_modified_edges. destruct (merge_edge_properties _ _ _ _), (merged_identity _ _ _ _).
    intros [= <-]. cbn [weight with_content].
    destruct (merged_weight_cases (weight b) (weight o) (weight t)) as [-> |[-> | ->]]; eauto.
  - unfold merge_added_edges. destruct (merge_edge_properties _ _ _ _).
    intros [= <-]. cbn [weight with_content]. destruct (fmax_cases (weight o) (weight t)) as [-> | ->]; eauto.
Qed.

Lemma resolved_elem e :
  e ∈ resolved.1 → ∃ key x, (edge_result key).1 = Some x ∧
    made_of (edge_index base) key (canonicalize_endpoints x) e.
Proof.
  intros (k & e0 & fl & (x & Hx & -> & _)%candidate_elem & Hm)%resolve_identities_elem. by exists k, x.
Qed.

Lemma resolved_keys_NoDup : NoDup (from_edge <$> resolved.1).
Proof.
  pose proof (resolve_identities_keys (edge_index base) _ (reserved_ids merge_candidates) candidates_keyed) as Hs.
  assert (merge_candidates.*1 = all_keys) as E.
  { unfold merge_candidates. generalize all_keys. intros l. induction l as [|k l IH]; [done|].
    by rewrite !fmap_cons, IH. }
  rewrite E in Hs. eapply sublist_NoDup; [apply all_keys_NoDup|exact Hs].
Qed.

Lemma resolved_ids_NoDup : archive_wf base → NoDup (edge_id <$> resolved.1).
Proof.
  intros Hb. apply resolve_identities_ids; [by apply candidates_inherited|].
  intros i. apply reserved_ids_elem.
Qed.

(** The merged edges are valid. *)
Lemma merge_edges_facts :
  archive_wf base → archive_wf ours → archive_wf theirs →
  let merged := (merge_edges base ours theirs).1 in
  NoDup (edge_id <$> merged) ∧ NoDup (from_edge <$> merged) ∧
  Forall (λ e, is_finite (weight e) = true) merged.
Proof.
  intros Wb Wo Wt. cbv zeta. rewrite merge_edges_eq. cbn [fst]. split_and!.
  - by apply resolved_ids_NoDup.
  - apply resolved_keys_NoDup.
  - apply Forall_forall. intros e (key & x & Hx & Hm)%resolved_elem.
    pose proof (edge_result_weight key x Wb Wo Wt Hx) as Hw.
    destruct Hm as [-> |(b & _ & ->)]; cbn [weight with_content]; by rewrite canonicalize_weight.
Qed.

(** Merged edges are in canonical form. *)
Lemma merged_edge_canonical e : e ∈ (merge_edges base ours theirs).1 → canonical e.
Proof.
  rewrite merge_edges_eq. cbn [fst]. intros (key & x & Hx & Hm)%resolved_elem.
  destruct Hm as [-> |(b & _ & ->)]; apply canonicalize_canonical.
Qed.

(** Whatever the branches did, the merged edges have distinct durable
    identities and distinct semantic keys, canonical endpoints and finite
    weights, and an edge whose choice keeps the identity it has in the base is
    among them as chosen. *)
Theorem merge_edges_wf :
  archive_wf base → archive_wf ours → archive_wf theirs →
  let merged := (merge_edges base ours theirs).1 in
  NoDup (edge_id <$> merged) ∧ NoDup (from_edge <$> merged) ∧
  Forall (λ e, is_finite (weight e) = true) merged ∧ Forall canonical merged ∧
  ∀ key b e, edge_index base !! key = Some b → (edge_result key).1 = Some e → edge_id e = edge_id b →
    canonicalize_endpoints e ∈ merged.
Proof.
  intros Wb Wo Wt. cbv zeta. destruct (merge_edges_facts Wb Wo Wt) as (F1 & F2 & F3).
  split_and!; [done..| |].
  { apply Forall_forall, merged_edge_canonical. }
  rewrite merge_edges_eq. cbn [fst].
  intros key b e Hb He Hid. apply (resolve_identities_inherited _ _ _ key), candidate_elem.
  exists e. split; [done|]. split; [done|]. symmetry. apply identity_is_base_true. eauto.
Qed.

(** Without collisions the merged edges are the chosen ones. *)
Lemma merged_edges_lookup :
  resolved.2 = [] → ∀ key,
  index_by from_edge (merge_edges base ours theirs).1 !! key = canonicalize_endpoints <$> (edge_result key).1.
Proof.
  intros Hc key. rewrite merge_edges_eq. cbn [fst].
  apply option_eq. intros e. rewrite index_by_lookup by apply resolved_keys_NoDup.
  unfold resolved at 1. rewrite (resolve_identities_clean _ _ _ Hc), list_elem_of_omap, fmap_Some. split.
  - intros [([k c] & Hin & Hs) <-]. cbn [snd] in Hs. apply fmap_Some in Hs as ([e' fl] & -> & ->).
    apply candidate_elem in Hin as (x & Hx & -> & _). cbn [fst]. exists x. split; [|done].
    rewrite from_edge_canonicalize. by rewrite (edge_result_key k x Hx).
  - intros (x & Hx & ->). split; [|rewrite from_edge_canonicalize; by apply edge_result_key].
    eexists (key, Some (canonicalize_endpoints x, _)). split; [|done].
    apply candidate_elem. exists x. by split_and!.
Qed.

(** *** The identities *)

(** What comes of a key: the edge merged for it and the collision reported. *)
Definition slot : Type := option ExportedEdge * option MergeConflict.

Definition collision_at (key : EdgeKey) (attempted retained : Uuid) : MergeConflict :=
  EdgeIdentityCollision (key_source key) (key_target key) (key_relation key) attempted retained.

(** Whose identity is that of the base keeps it.  Another edge keeps its own unless it
    is taken; then it falls back on the identity of the base for its key, with a
    collision, and is left out when there is none or that is taken, too. *)
Definition identity_rule (base_edge : option ExportedEdge) (taken : Uuid → Prop) (key : EdgeKey)
    (choice : option ExportedEdge) (s : slot) : Prop :=
  match choice with
  | None => s = (None, None)
  | Some e =>
      if identity_is_base base_edge e then s = (Some e, None)
      else
        (¬ taken (edge_id e) → s = (Some e, None)) ∧
        (taken (edge_id e) →
           match base_edge with
           | Some b =>
               (¬ taken (edge_id b) →
                  s = (Some (with_content e (edge_id b) (weight e) (edge_properties e)),
                       Some (collision_at key (edge_id e) (edge_id b)))) ∧
               (taken (edge_id b) → s = (None, Some (collision_at key (edge_id e) (edge_id e))))
           | None => s = (None, Some (collision_at key (edge_id e) (edge_id e)))
           end)
  end.

(** An identity is taken for a key when a choice inherits it from the base or an edge
    merged for a smaller key has it. *)
Definition taken (merged : list ExportedEdge) (key : EdgeKey) (i : Uuid) : Prop :=
  (∃ k x, (edge_result k).1 = Some x ∧ identity_is_base (edge_index base !! k) x = true ∧ edge_id x = i) ∨
  (∃ m, m ∈ merged ∧ edge_id m = i ∧ cmp_lt (from_edge m) key).

Definition claimed (reserved : list Uuid) (merged : list ExportedEdge) (key : EdgeKey) (i : Uuid) : Prop :=
  i ∈ reserved ∨ ∃ m, m ∈ merged ∧ edge_id m = i ∧ cmp_lt (from_edge m) key.

Definition flagged (b : gmap EdgeKey ExportedEdge) (c : candidate) : Prop :=
  match c.2 with Some (e, flag) => from_edge e = c.1 ∧ flag = identity_is_base (b !! c.1) e | None => True end.

(** How the slots of a list of candidates extend those of its tail. *)
Definition slotted (b : gmap EdgeKey ExportedEdge) (R : list Uuid) (M : list ExportedEdge) (cs : list candidate)
    (r : list ExportedEdge * list MergeConflict) : Prop :=
  ∃ slots : list slot, r.1 = omap fst slots ∧ r.2 = omap snd slots ∧
    Forall2 (λ c s, identity_rule (b !! c.1) (claimed R M c.1) c.1 (fst <$> c.2) s) cs slots.

Lemma slotted_cons b R M c cs r (x : option ExportedEdge) (cf : option MergeConflict) :
  identity_rule (b !! c.1) (claimed R M c.1) c.1 (fst <$> c.2) (x, cf) → slotted b R M cs r →
  slotted b R M (c :: cs) (option_list x ++ r.1, option_list cf ++ r.2).
Proof.
  intros Hr (slots & H1 & H2 & H3). exists ((x, cf) :: slots). cbn [omap list_omap fst snd].
  rewrite H1, H2. split_and!; [by destruct x|by destruct cf|by constructor].
Qed.

Lemma identity_rule_iff base_edge (P Q : Uuid → Prop) key choice s :
  (∀ i, P i ↔ Q i) → identity_rule base_edge P key choice s → identity_rule base_edge Q key choice s.
Proof.
  intros Hi. unfold identity_rule. destruct choice as [e|]; [|done]. destruct (identity_is_base base_edge e); [done|].
  destruct base_edge as [b|]; setoid_rewrite Hi; done.
Qed.

Lemma with_content_id e i w p : edge_id (with_content e i w p) = i.
Proof. done. Qed.

Lemma resolve_identities_slots b R cs used M0 :
  StronglySorted cmp_lt cs.*1 → Forall (flagged b) cs → inherited cs ⊆ R →
  (∀ i, i ∈ used ↔ i ∈ R ∨ i ∈ edge_id <$> M0) → (∀ m k, m ∈ M0 → k ∈ cs.*1 → cmp_lt (from_edge m) k) →
  let r := resolve_identities b used cs in slotted b R (M0 ++ r.1) cs r.
Proof.
  intros Hs Hf. revert used M0. induction cs as [|[k c] cs IH]; intros used M0 HR Hu Hlt; [by exists []|].
  rewrite fmap_cons in Hs, Hlt. cbn [fst] in Hs, Hlt. apply StronglySorted_inv in Hs as [Hs Hk].
  apply Forall_cons in Hf as [Hc Hf]. specialize (IH Hs Hf).
  assert (inherited cs ⊆ R) as HR'.
  { intros i Hi. apply HR. unfold inherited in *. cbn [omap list_omap snd]. destruct c as [[? []]|]; [by right|done|done]. }
  assert (keyed cs) as Hkeyed.
  { eapply Forall_impl; [exact Hf|]. intros [k' [[e fl]|]]; [by intros [? _]|done]. }
  (* An edge of the tail is of a greater key. *)
  assert (∀ u m, m ∈ (resolve_identities b u cs).1 → cmp_lt k (from_edge m)) as Hgt.
  { intros u m Hm. rewrite Forall_forall in Hk. apply Hk. pose proof (resolve_identities_keys b cs u Hkeyed) as Hsub.
    eapply elem_of_sublist; [|exact Hsub]. by apply list_elem_of_fmap_2. }
  assert (∀ M i, (∀ m, m ∈ M → ¬ cmp_lt (from_edge m) k) → i ∈ used ↔ claimed R (M0 ++ M) k i) as Hclaim.
  { intros M i HM. unfold claimed. rewrite Hu. split; (intros [?|Hi]; [by left|right]).
    - apply list_elem_of_fmap in Hi as (m & -> & Hm). exists m. split; [apply elem_of_app; by left|].
      split; [done|]. apply Hlt; [done|by left].
    - destruct Hi as (m & Hm & <- & Hmk). apply elem_of_app in Hm as [Hm|Hm]; [by apply list_elem_of_fmap_2|].
      by destruct (HM m Hm). }
  assert (∀ u m, m ∈ (resolve_identities b u cs).1 → ¬ cmp_lt (from_edge m) k) as Htail.
  { intros u m Hm%Hgt Hk'. apply (cmp_lt_irrefl k). by etrans. }
  (* The key emits no edge. *)
  assert (∀ cf, identity_rule (b !! k) (λ i, i ∈ used) k (fst <$> c) (None, cf) →
    let r := resolve_identities b used cs in slotted b R (M0 ++ r.1) ((k, c) :: cs) (r.1, option_list cf ++ r.2)) as Hskip.
  { intros cf Hrule r. apply (slotted_cons b R _ (k, c) cs r None cf); [|by apply IH; [done..|]; intros; apply Hlt; [|right]].
    eapply identity_rule_iff; [|exact Hrule]. intros i. apply Hclaim. apply Htail. }
  (* It emits an edge [x] of its own. *)
  assert (∀ x cf u, from_edge x = k → (∀ i, i ∈ u ↔ i ∈ used ∨ i = edge_id x) →
    identity_rule (b !! k) (λ i, i ∈ used) k (fst <$> c) (Some x, cf) →
    let r := resolve_identities b u cs in slotted b R (M0 ++ x :: r.1) ((k, c) :: cs) (x :: r.1, option_list cf ++ r.2)) as Hemit.
  { intros x cf u Hx Hux Hrule r. apply (slotted_cons b R _ (k, c) cs r (Some x) cf).
    - eapply identity_rule_iff; [|exact Hrule]. intros i. apply Hclaim. intros m [->|Hm]%elem_of_cons; [|by eapply Htail].
      rewrite Hx. apply cmp_lt_irrefl.
    - rewrite cons_middle, app_assoc. apply IH; [done| |].
      + intros i. rewrite Hux, Hu, fmap_app, elem_of_app. cbn [fmap list_fmap]. rewrite list_elem_of_singleton. naive_solver.
      + intros m k' [Hm|Hm%list_elem_of_singleton]%elem_of_app Hk'; [apply Hlt; [done|by right]|]. subst m. rewrite Hx.
        rewrite Forall_forall in Hk. by apply Hk. }
  destruct c as [[e fl]|]; cbn [resolve_identities]; [|exact (Hskip None eq_refl)].
  destruct Hc as [Hek Hfl]. cbn [fst snd] in Hek, Hfl. destruct fl.
  - specialize (Hemit e None used Hek). destruct (resolve_identities b used cs). apply Hemit; [|by cbn; rewrite <-Hfl].
    intros i. split; [by left|intros [?| ->]; [done|]]. apply Hu. left. apply HR. by left.
  - assert (∀ s, identity_rule (b !! k) (λ i, i ∈ used) k (Some e) s ↔
      (edge_id e ∉ used → s = (Some e, None)) ∧ (edge_id e ∈ used → match b !! k with
        | Some x => (edge_id x ∉ used → s = (Some (with_content e (edge_id x) (weight e) (edge_properties e)), Some (collision_at k (edge_id e) (edge_id x)))) ∧
                    (edge_id x ∈ used → s = (None, Some (collision_at k (edge_id e) (edge_id e))))
        | None => s = (None, Some (collision_at k (edge_id e) (edge_id e))) end)) as Hrule by (intros s; cbn; by rewrite <-Hfl).
    destruct (decide (edge_id e ∈ used)) as [He|He].
    + destruct (b !! k) as [x|] eqn:Eb; [destruct (decide (edge_id x ∈ used)) as [Hx|Hx]|].
      * specialize (Hskip (Some (collision_at k (edge_id e) (edge_id e)))). destruct (resolve_identities b used cs).
        apply Hskip, Hrule. split; [done|]. intros _. by split.
      * specialize (Hemit (with_content e (edge_id x) (weight e) (edge_properties e)) (Some (collision_at k (edge_id e) (edge_id x)))
          ({[edge_id x]} ∪ used)). destruct (resolve_identities b ({[edge_id x]} ∪ used) cs).
        apply Hemit; [by rewrite from_edge_with_content|intros i; rewrite with_content_id; set_solver|].
        apply Hrule. split; [done|]. intros _. by split.
      * specialize (Hskip (Some (collision_at k (edge_id e) (edge_id e)))). destruct (resolve_identities b used cs).
        apply Hskip, Hrule. by split.
    + specialize (Hemit e None ({[edge_id e]} ∪ used) Hek). destruct (resolve_identities b ({[edge_id e]} ∪ used) cs).
      apply Hemit; [set_solver|]. apply Hrule. by split.
Qed.

Lemma taken_claimed merged key i : claimed (inherited merge_candidates) merged key i ↔ taken merged key i.
Proof.
  unfold claimed, taken. assert (i ∈ inherited merge_candidates ↔
    ∃ k x, (edge_result k).1 = Some x ∧ identity_is_base (edge_index base !! k) x = true ∧ edge_id x = i) as ->; [|done].
  unfold inherited. rewrite list_elem_of_omap. split.
  - intros ([k [[e []]|]] & Hin & Hi); [|done..]. injection Hi as <-. apply candidate_elem in Hin as (x & Hx & -> & Hb).
    exists k, x. by rewrite canonicalize_edge_id.
  - intros (k & x & Hx & Hb & <-). exists (k, Some (canonicalize_endpoints x, true)). cbn [snd].
    rewrite canonicalize_edge_id. split; [|done]. apply candidate_elem. by exists x.
Qed.

Lemma identity_is_base_canonicalize b e : identity_is_base b (canonicalize_endpoints e) = identity_is_base b e.
Proof. unfold identity_is_base. by rewrite canonicalize_edge_id. Qed.

Lemma candidates_flagged : Forall (flagged (edge_index base)) merge_candidates.
Proof.
  apply Forall_forall. intros [k [[e fl]|]] Hin; [|done]. apply candidate_elem in Hin as (x & Hx & -> & ->).
  split; cbn [fst]; [|by rewrite identity_is_base_canonicalize]. rewrite from_edge_canonicalize. by apply edge_result_key.
Qed.

Lemma candidates_keys : merge_candidates.*1 = all_keys.
Proof. unfold merge_candidates. rewrite <-list_fmap_compose. apply list_fmap_id. Qed.

(** C37: The edge merge implements the three-way choice of every semantic key.  The
    keys of the three archives, in order, have each a slot; the merged edges are those
    of the slots, the conflicts are those of the choices followed by the collisions of
    the slots, and every slot is what the rule for identities makes of the choice of
    its key, in canonical form: a chosen edge is kept as it is, given the identity of
    the base, or left out, the latter two just when its identity is taken, and with a
    collision.  Without collisions the merge holds exactly the chosen edges. *)
Theorem merge_edges_refines :
  let '(merged, conflicts) := merge_edges base ours theirs in
  ∃ keys slots, StronglySorted cmp_lt keys ∧
    (∀ key, key ∈ keys ↔ key ∈ from_edge <$> (edges base ++ edges ours ++ edges theirs)) ∧
    merged = omap fst slots ∧
    conflicts = concat ((λ key, (edge_result key).2) <$> keys) ++ omap snd slots ∧
    Forall2 (λ key s, identity_rule (edge_index base !! key) (taken merged key) key
                        (canonicalize_endpoints <$> (edge_result key).1) s) keys slots ∧
    (omap snd slots = [] → ∀ key,
      index_by from_edge merged !! key = canonicalize_endpoints <$> (edge_result key).1).
Proof.
  pose proof merged_edges_lookup as Hl. rewrite merge_edges_eq in *. exists all_keys.
  destruct (resolve_identities_slots (edge_index base) (inherited merge_candidates) merge_candidates (reserved_ids merge_candidates) [])
    as (slots & H1 & H2 & H3).
  - rewrite candidates_keys. apply sorted_keys_sorted.
  - apply candidates_flagged.
  - done.
  - intros i. rewrite reserved_ids_elem. split; [by left|by intros [?|?%elem_of_nil]].
  - by intros m k ?%elem_of_nil.
  - fold resolved in H1, H2, H3. exists slots. split; [apply sorted_keys_sorted|]. split; [apply all_keys_elem|].
    split; [done|]. split; [by rewrite H2|]. split; [|intros Hc key; apply Hl; by rewrite H2].
    unfold merge_candidates in H3 at 2. apply Forall2_fmap_l in H3. eapply Forall2_impl; [exact H3|].
    intros key s Hr. cbn [candidate_of fst snd] in Hr. eapply identity_rule_iff; [intros i; apply taken_claimed|].
    assert (fst <$> ((λ e, (canonicalize_endpoints e, identity_is_base (edge_index base !! key) e)) <$> (edge_result key).1) =
            canonicalize_endpoints <$> (edge_result key).1) as <- by by destruct (edge_result key).1.
    exact Hr.
Qed.
End merged_edges.
