(* ===== verification/ThreeWay.v ===== *)
(** The three-way merge as a whole: validation, the guarantees of a clean
    result, fast-forward merges and the last-write-wins strategies; and the lowest common
    ancestor of two snapshots. *)

From Stdlib Require Import ZArith NArith String SpecFloat QArith Lqa.
From stdpp Require Import base tactics list numbers strings gmap sorting.
From S2P Require Import Prelude Json EdgeOntology Rounding Float Archive Merge MergeEntity MergeEdge.

Open Scope Z_scope.

#[local] Existing Instance F64.

(** ** Validation *)

Lemma all_unique_Ok {K E} `{Countable K} (err : K → E) (seen : gset K) l :
  all_unique err seen l = Ok () ↔ NoDup l ∧ Forall (λ x, x ∉ seen) l.
Proof.
  revert seen. induction l as [|x l IH]; intros seen; simpl.
  { split; [by split; constructor|done]. }
  rewrite NoDup_cons, Forall_cons. destruct (decide (x ∈ seen)) as [Hx|Hx].
  { split; [done|]. by intros [_ [? _]]. }
  rewrite IH, !Forall_forall. split.
  - intros [Hd Hl]. split; [split; [|done]|split; [done|]].
    + intros Hin. specialize (Hl x Hin). set_solver.
    + intros y Hy. specialize (Hl y Hy). set_solver.
  - intros [[Hn Hd] [_ Hl]]. split; [done|]. intros y Hy. specialize (Hl y Hy).
    rewrite elem_of_union, elem_of_singleton. intros [-> |]; [done|done].
Qed.

Lemma all_unique_empty {K E} `{Countable K} (err : K → E) l :
  all_unique err (∅ : gset K) l = Ok () ↔ NoDup l.
Proof. rewrite all_unique_Ok, Forall_forall. set_solver. Qed.

Section merge_facts.
Context `{UuidFmt}.

Lemma validate_archive_Ok a : validate_archive a = Ok () ↔ archive_wf a.
Proof.
  assert (Hw : try_each check_finite_weight (edges a) = Ok () ↔
    Forall (λ e, is_finite (weight e) = true) (edges a)).
  { rewrite try_each_Ok, !Forall_forall. unfold check_finite_weight.
    split; intros Hf e He; specialize (Hf e He); by destruct (is_finite (weight e)). }
  unfold validate_archive. split.
  - intros ([] & H1%Hw & ([] & H2%all_unique_empty & ([] & H3%all_unique_empty & H4%all_unique_empty)%res_bind_Ok)%res_bind_Ok)%res_bind_Ok.
    by split.
  - intros [W1 W2 W3 W4]. rewrite (proj2 Hw W1). cbn [res_bind].
    rewrite (proj2 (all_unique_empty _ _) W2). cbn [res_bind].
    rewrite (proj2 (all_unique_empty _ _) W3). cbn [res_bind]. by apply all_unique_empty.
Qed.

Lemma validate_inputs_Ok b o t :
  validate_inputs b o t = Ok () ↔
  (namespace b = namespace o ∧ namespace b = namespace t) ∧ archive_wf b ∧ archive_wf o ∧ archive_wf t.
Proof.
  unfold validate_inputs. destruct (String.eqb_spec (namespace b) (namespace o)) as [E1|E1];
    [|split; [done|naive_solver]].
  destruct (String.eqb_spec (namespace b) (namespace t)) as [E2|E2]; [|split; [done|naive_solver]].
  cbn [negb orb]. rewrite try_each_Ok, !Forall_cons, !validate_archive_Ok, Forall_nil. naive_solver.
Qed.

(** ** Finished archives *)

Lemma finished_wf header es ds at_ :
  NoDup (id <$> es) → NoDup (edge_id <$> ds) → NoDup (from_edge <$> ds) →
  Forall (λ e, is_finite (weight e) = true) ds → archive_wf (finished header es ds at_).
Proof.
  intros H1 H2 H3 H4. unfold finished, sort_entities, sort_edges.
  split; cbn [entities edges]; by rewrite sort_by_Permutation.
Qed.

#[export] Instance cmp_entities_Comparator : Comparator cmp_entities.
Proof. exact (key_Comparator id cmp). Qed.

#[export] Instance cmp_edges_Comparator : Comparator cmp_edges.
Proof.
  unfold cmp_edges. apply then_cmp_Comparator; [apply then_cmp_Comparator; [apply then_cmp_Comparator|]|].
  - exact (key_Comparator source cmp).
  - exact (key_Comparator target cmp).
  - exact (key_Comparator (λ e, as_str (relation e)) cmp).
  - exact (key_Comparator edge_id cmp).
Qed.

Lemma sort_entities_sorted es : NoDup (id <$> es) → StronglySorted cmp_lt (id <$> sort_entities es).
Proof.
  intros Hd. apply le_by_cmp_lt; [unfold sort_entities; by rewrite sort_by_Permutation|].
  pose proof (sort_by_sorted cmp_entities es) as Hs. unfold sort_entities.
  induction Hs as [|e l Hs IH He]; [constructor|]. rewrite fmap_cons. constructor; [done|].
  by apply Forall_fmap.
Qed.

Lemma validate_dangling_nil ds ids :
  validate_dangling_edges ds ids = [] ↔ Forall (λ e, source e ∈ ids ∧ target e ∈ ids) ds.
Proof.
  unfold validate_dangling_edges. induction ds as [|e ds IH]; [done|]. rewrite Forall_cons, <-IH. cbn [omap list_omap].
  destruct (decide (source e ∈ ids)), (decide (target e ∈ ids)); naive_solver.
Qed.

(** ** The strategies never fail on valid inputs *)

Lemma merged_wf b o t header at_ :
  archive_wf b → archive_wf o → archive_wf t →
  archive_wf (finished header (merge_entities b o t).1 (merge_edges b o t).1 at_).
Proof.
  intros Wb Wo Wt. destruct (merge_edges_facts b o t Wb Wo Wt) as (E1 & E2 & E3).
  apply finished_wf; [|done..]. apply cmp_sorted_NoDup, merged_entities_sorted.
Qed.

Lemma append_edges_spec (base_keys ours_keys : gset EdgeKey) used theirs :
  NoDup (from_edge <$> theirs) →
  let out := (append_edges base_keys ours_keys used theirs).1 in
  NoDup (edge_id <$> out) ∧ NoDup (from_edge <$> out) ∧
  Forall (λ e, e ∈ theirs ∧ (edge_id e ∉ used) ∧ (from_edge e ∉ base_keys) ∧ (from_edge e ∉ ours_keys)) out.
Proof.
  revert used. induction theirs as [|e l IH]; intros used Hd; cbn [append_edges].
  { split_and!; constructor. }
  rewrite fmap_cons in Hd. apply NoDup_cons in Hd as [Hn Hd].
  assert (Hskip : ∀ u, (∀ i, i ∈ used → i ∈ u) → let out := (append_edges base_keys ours_keys u l).1 in
    Forall (λ x, x ∈ e :: l ∧ (edge_id x ∉ used) ∧ (from_edge x ∉ base_keys) ∧ (from_edge x ∉ ours_keys)) out).
  { intros u Hu. destruct (IH u Hd) as (_ & _ & I3). eapply Forall_impl; [exact I3|].
    intros x (X1 & X2 & X3 & X4). split_and!; [by right|set_solver|done|done]. }
  destruct (bool_decide_reflect (from_edge e ∈ base_keys)) as [|Hkb]; cbn [orb].
  { destruct (IH used Hd) as (I1 & I2 & _). split_and!; [done|done|by apply Hskip]. }
  destruct (bool_decide_reflect (from_edge e ∈ ours_keys)) as [|Hko].
  { destruct (IH used Hd) as (I1 & I2 & _). split_and!; [done|done|by apply Hskip]. }
  destruct (decide (edge_id e ∈ used)) as [Hi|Hi].
  - specialize (Hskip used ltac:(done)). destruct (IH used Hd) as (I1 & I2 & _).
    destruct (append_edges _ _ used l). by split_and!.
  - specialize (Hskip ({[edge_id e]} ∪ used) ltac:(set_solver)).
    destruct (IH ({[edge_id e]} ∪ used) Hd) as (I1 & I2 & I3).
    destruct (append_edges _ _ _ l) as [out cs]. cbn [fst] in *. rewrite !fmap_cons, Forall_forall in *.
    split_and!.
    + apply NoDup_cons. split; [|done]. intros (x & Ex & Hx)%list_elem_of_fmap.
      destruct (I3 x Hx) as (_ & Hu & _). rewrite <-Ex in Hu. set_solver.
    + apply NoDup_cons. split; [|done]. intros (x & Ex & Hx)%list_elem_of_fmap.
      destruct (I3 x Hx) as (Hl & _). apply Hn. rewrite Ex. by apply list_elem_of_fmap_2.
    + intros x [->|Hx]%elem_of_cons; [split_and!; [by left|done..]|by apply Hskip].
Qed.

Lemma apply_ours_wf b o t :
  archive_wf b → archive_wf o → archive_wf t →
  archive_wf (apply_ours_with_conflicts b o t).1.
Proof.
  intros _ [O1 O2 O3 O4] [T1 T2 T3 T4]. unfold apply_ours_with_conflicts.
  pose proof (append_edges_spec (list_to_set (from_edge <$> edges b)) (list_to_set (from_edge <$> edges o))
    (list_to_set (edge_id <$> edges o)) (edges t) T4) as Ha. cbv zeta in *.
  destruct (append_edges _ _ _ _) as [new cs]. cbn [fst] in *. destruct Ha as (N1 & N2 & N3).
  rewrite Forall_forall in *. split; cbn [entities edges]; rewrite ?fmap_app.
  - apply Forall_forall. intros e [He|He]%elem_of_app; [by apply O1|]. apply T1. by apply N3.
  - apply NoDup_app. split_and!; [done| |].
    + intros i Hi (e & -> & [[_ Hn] _]%list_elem_of_filter)%list_elem_of_fmap. set_solver.
    + by apply (sublist_NoDup _ (id <$> entities t)), fmap_sublist, sublist_filter.
  - apply NoDup_app. split_and!; [done| |done].
    intros i Hi (e & -> & He)%list_elem_of_fmap. apply N3 in He as (_ & Hn & _). set_solver.
  - apply NoDup_app. split_and!; [done| |done].
    intros k Hk (e & -> & He)%list_elem_of_fmap. apply N3 in He as (_ & _ & _ & Hn). set_solver.
Qed.

Lemma finish_shortcut_Ok merged o t cs :
  archive_wf merged → ∃ r, finish_shortcut_merge merged o t cs = Ok r.
Proof.
  intros [W1 W2 W3 W4]. unfold finish_shortcut_merge. cbv zeta.
  rewrite (proj2 (validate_archive_Ok _)) by (by apply finished_wf). cbn [res_bind].
  destruct (cs ++ _); eauto.
Qed.

(** A three-way merge fails exactly when its inputs are invalid, with the
    error of their validation: on valid inputs every strategy ends in a clean
    archive or in conflicts, and the final validation never refuses. *)
Theorem three_way_merge_error b o t strategy e :
  three_way_merge b o t strategy = Err e ↔ validate_inputs b o t = Err e.
Proof.
  unfold three_way_merge. destruct (validate_inputs b o t) as [[]|e'] eqn:Ev; cbn [res_bind].
  - split; [|done]. intros He. exfalso. apply validate_inputs_Ok in Ev as (_ & Wb & Wo & Wt).
    destruct strategy.
    + unfold three_way_merge_auto in He. pose proof (merged_wf b o t o (deterministic_timestamp o t) Wb Wo Wt) as Wm.
      destruct (merge_entities b o t) as [es ecs], (merge_edges b o t) as [ds dcs]. cbn [fst] in Wm.
      cbv zeta in He. rewrite (proj2 (validate_archive_Ok _) Wm) in He. by destruct (ecs ++ _).
    + pose proof (apply_ours_wf b o t Wb Wo Wt) as Wm. destruct (apply_ours_with_conflicts b o t) as [m cs].
      destruct (finish_shortcut_Ok m o t cs Wm) as [r Hr]. congruence.
    + pose proof (apply_ours_wf b t o Wb Wt Wo) as Wm. unfold apply_theirs_with_conflicts in He.
      destruct (apply_ours_with_conflicts b t o) as [m cs].
      destruct (finish_shortcut_Ok m o t cs Wm) as [r Hr]. congruence.
  - naive_solver.
Qed.

(** What a finished merge guarantees. *)
Definition finished_merge (b o t header m : KgArchive) : Prop :=
  archive_wf m ∧ StronglySorted cmp_lt (id <$> entities m) ∧ StronglySorted (le_by cmp_edges) (edges m) ∧
  Forall (λ e, source e ∈ id <$> entities m ∧ target e ∈ id <$> entities m) (edges m) ∧
  format m = format header ∧ version m = version header ∧ namespace m = namespace b ∧
  exported_at m = Z.max (exported_at o) (exported_at t).

Lemma finished_finished b o t header es ds :
  let m := finished header es ds (deterministic_timestamp o t) in
  archive_wf m → namespace header = namespace b →
  Forall (λ e, source e ∈ id <$> es ∧ target e ∈ id <$> es) ds → finished_merge b o t header m.
Proof.
  intros m Wm Hns Hd. split; [done|]. split_and!; try done.
  - unfold m, finished. cbn [entities]. apply sort_entities_sorted. destruct Wm as [_ W _ _].
    unfold m, finished, sort_entities in W. cbn [entities] in W. by rewrite sort_by_Permutation in W.
  - apply sort_by_sorted, _.
  - unfold m, finished, sort_entities, sort_edges. cbn [entities edges]. rewrite (sort_by_Permutation cmp_edges ds).
    eapply Forall_impl; [exact Hd|]. intros e. by rewrite sort_by_Permutation.
Qed.

Lemma apply_ours_header b o t :
  let m := (apply_ours_with_conflicts b o t).1 in
  format m = format o ∧ version m = version o ∧ namespace m = namespace o.
Proof. unfold apply_ours_with_conflicts. cbv zeta. by destruct (append_edges _ _ _ _). Qed.

Lemma shortcut_clean b o t header merged cs m :
  archive_wf merged → namespace merged = namespace b → format merged = format header →
  version merged = version header →
  finish_shortcut_merge merged o t cs = Ok (Clean m) → cs = [] ∧ finished_merge b o t header m.
Proof.
  intros [W1 W2 W3 W4] Hns Hf Hv. unfold finish_shortcut_merge. cbv zeta.
  set (f := finished merged _ _ _). assert (Wf : archive_wf f) by (by apply finished_wf).
  rewrite (proj2 (validate_archive_Ok _) Wf). cbn [res_bind].
  destruct (cs ++ _) eqn:E; [|done]. intros [= <-]. apply app_nil in E as [-> Hd]. split; [done|].
  apply validate_dangling_nil in Hd.
  destruct (finished_finished b o t merged (entities merged) (edges merged)) as (F1 & F2 & F3 & F4 & F5 & F6 & F7 & F8);
    [done|done| |].
  - unfold f, finished, entity_id_set, sort_entities, sort_edges in Hd. cbn [entities edges] in Hd.
    rewrite (sort_by_Permutation cmp_edges) in Hd. eapply Forall_impl; [exact Hd|]. intros e. cbv beta.
    rewrite !elem_of_list_to_set. by rewrite sort_by_Permutation.
  - by split_and!.
Qed.

Lemma three_way_merge_finished b o t strategy m :
  three_way_merge b o t strategy = Ok (Clean m) →
  namespace o = namespace b ∧ finished_merge b o t (match strategy with TheirsStrategy => t | _ => o end) m.
Proof.
  unfold three_way_merge. intros ([] & ((No & Nt) & Wb & Wo & Wt)%validate_inputs_Ok & Hm)%res_bind_Ok.
  split; [done|]. destruct strategy.
  - unfold three_way_merge_auto in Hm. pose proof (merged_wf b o t o (deterministic_timestamp o t) Wb Wo Wt) as Wm.
    destruct (merge_entities b o t) as [es ecs], (merge_edges b o t) as [ds dcs]. cbn [fst] in Wm. cbv zeta in Hm.
    rewrite (proj2 (validate_archive_Ok _) Wm) in Hm. destruct (ecs ++ _) eqn:E; [|done].
    injection Hm as <-. apply app_nil in E as [_ [_ Hd]%app_nil]. apply validate_dangling_nil in Hd.
    apply finished_finished; [done|done|]. eapply Forall_impl; [exact Hd|]. intros e.
    unfold entity_id_set. by rewrite !elem_of_list_to_set.
  - pose proof (apply_ours_wf b o t Wb Wo Wt) as Wm. destruct (apply_ours_header b o t) as (H1 & H2 & H3).
    destruct (apply_ours_with_conflicts b o t) as [a cs]. cbn [fst] in *.
    eapply (shortcut_clean b o t o a cs); [done|congruence|done|done|exact Hm].
  - pose proof (apply_ours_wf b t o Wb Wt Wo) as Wm. destruct (apply_ours_header b t o) as (H1 & H2 & H3).
    unfold apply_theirs_with_conflicts in Hm. destruct (apply_ours_with_conflicts b t o) as [a cs]. cbn [fst] in *.
    eapply (shortcut_clean b o t t a cs); [done|congruence|done|done|exact Hm].
Qed.

(** C22: A clean merge has distinct sorted identifiers, distinct edge keys and
    identities, finite weights and no dangling edge; it keeps the namespace of ours and
    the later timestamp, and, unless the strategy prefers theirs, the format and
    version of ours. *)
Theorem three_way_merge_clean b o t strategy m :
  three_way_merge b o t strategy = Ok (Clean m) →
  archive_wf m ∧ StronglySorted cmp_lt (id <$> entities m) ∧ StronglySorted (le_by cmp_edges) (edges m) ∧
  Forall (λ e, source e ∈ id <$> entities m ∧ target e ∈ id <$> entities m) (edges m) ∧
  namespace m = namespace o ∧ exported_at m = Z.max (exported_at o) (exported_at t) ∧
  (strategy ≠ TheirsStrategy → format m = format o ∧ version m = version o).
Proof.
  intros (No & H1 & H2 & H3 & H4 & H5 & H6 & H7 & H8)%three_way_merge_finished.
  split_and!; [done..|congruence|done|]. by destruct strategy.
Qed.
End merge_facts.

(** Merges with an unchanged side: a branch that equals the base hands over to
    the other one, and the last-write-wins strategies pick records whole. *)

Open Scope Z_scope.

#[local] Existing Instance F64.

(** ** Records equal themselves *)

Lemma weights_equal_refl w : valid w → is_finite w = true → weights_equal w w = true.
Proof.
  intros V F. unfold weights_equal. pose proof (fsub_rnd w w V V F F) as Hr.
  assert (Hz : (fval w - fval w == 0)%Q) by ring.
  destruct (rnd_finite _ _ (S754_zero false) (S754_zero false) Hr) as (Fr & L1 & L2);
    [done..|rewrite Hz; apply Qle_refl|rewrite Hz; apply Qle_refl|].
  destruct (fsub w w) as [s| | |s m e]; try done. exfalso.
  apply (fval_nonzero s m e). change (fval (S754_zero false)) with 0%Q in *. lra.
Qed.

Definition entity_ok (e : ExportedEntity) : Prop := opt_ok (properties e).

Definition edge_ok (e : ExportedEdge) : Prop :=
  valid (weight e) ∧ is_finite (weight e) = true ∧ opt_ok (edge_properties e).

Lemma entities_equal_refl e : entity_ok e → entities_equal e e = true.
Proof.
  intros He. unfold entities_equal.
  rewrite N.eqb_refl, !String.eqb_refl, (proj2 (opt_string_eqb_iff _ _) eq_refl),
    (proj2 (opt_string_eqb_iff (description e) _) eq_refl), (proj2 (strings_eqb_iff _ _) eq_refl).
  exact (same_value_refl _ He).
Qed.

Lemma edges_equal_refl e : edge_ok e → edges_equal e e = true.
Proof.
  intros (V & F & P). unfold edges_equal. rewrite N.eqb_refl, weights_equal_refl by done.
  exact (same_value_refl _ P).
Qed.

(** The records of an archive hold JSON values and numbers. *)
Definition archive_ok (a : KgArchive) : Prop := Forall entity_ok (entities a) ∧ Forall edge_ok (edges a).

Lemma kept_entity_refl a eid :
  archive_ok a → kept entities_equal (index_by id (entities a) !! eid) (index_by id (entities a) !! eid) = true.
Proof.
  intros [He _]. destruct (index_by id (entities a) !! eid) as [e|] eqn:E; [|done].
  apply index_by_Some in E as [Hin _]. rewrite Forall_forall in He. by apply entities_equal_refl, He.
Qed.

Lemma kept_edge_refl a key :
  archive_ok a → kept edges_equal (edge_index a !! key) (edge_index a !! key) = true.
Proof.
  intros [_ He]. destruct (edge_index a !! key) as [e|] eqn:E; [|done].
  apply index_by_Some in E as [Hin _]. rewrite Forall_forall in He. by apply edges_equal_refl, He.
Qed.

(** ** One changed branch *)

(** What the changed branch leaves of a record. *)
Definition one_sided {A} (eqb : A → A → bool) (base x : option A) : option A :=
  if kept eqb base x then base else x.

Lemma three_way_one_sided {A R} (eqb : A → A → bool) (take : option A → R) reconcile b x o t :
  kept eqb b b = true → (o, t) = (x, b) ∨ (o, t) = (b, x) →
  three_way eqb take reconcile b o t = take (one_sided eqb b x).
Proof.
  intros Hb. unfold three_way, one_sided. intros [[= -> ->]|[= -> ->]]; rewrite Hb; by destruct (kept eqb b x).
Qed.

Lemma one_sided_is_Some {A} (eqb : A → A → bool) b x : is_Some (one_sided eqb b x) ↔ is_Some x.
Proof.
  unfold one_sided, kept. destruct b as [b|], x as [x|]; simpl; [destruct (eqb b x)|..]; split; intros [? ?]; try done; eauto.
Qed.

Section one_sided.
Variables base x : KgArchive.
Hypothesis Wb : archive_wf base.
Hypothesis Wx : archive_wf x.
Hypothesis Ob : archive_ok base.
Variables ours theirs : KgArchive.
Hypothesis sides : (ours, theirs) = (x, base) ∨ (ours, theirs) = (base, x).

Lemma one_sided_entity eid :
  entity_result base ours theirs eid =
  (one_sided entities_equal (index_by id (entities base) !! eid) (index_by id (entities x) !! eid), []).
Proof.
  unfold entity_result, three_way_entity, base_index, ours_index, theirs_index.
  apply (three_way_one_sided entities_equal (λ e, (e, []))); [by apply kept_entity_refl|].
  destruct sides as [[= -> ->]|[= -> ->]]; auto.
Qed.

Lemma one_sided_edge key :
  edge_result base ours theirs key =
  (one_sided edges_equal (edge_index base !! key) (edge_index x !! key), []).
Proof.
  unfold edge_result, three_way_edge.
  apply (three_way_one_sided edges_equal (λ e, (e, []))); [by apply kept_edge_refl|].
  destruct sides as [[= -> ->]|[= -> ->]]; auto.
Qed.

(** The identity of a result is that of the changed branch's edge. *)
Lemma one_sided_edge_id key e :
  one_sided edges_equal (edge_index base !! key) (edge_index x !! key) = Some e →
  ∃ y, edge_index x !! key = Some y ∧ edge_id y = edge_id e.
Proof.
  unfold one_sided, kept. destruct (edge_index base !! key) as [b|], (edge_index x !! key) as [y|]; cbn [opt_eqb];
    [|naive_solver..]. destruct (edges_equal b y) eqn:E; intros [= <-]; exists y; split; try done.
  unfold edges_equal in E. apply andb_true_iff in E as [[Hi%N.eqb_eq _]%andb_true_iff _]. done.
Qed.

(** Results of equal identity have equal keys. *)
Lemma one_sided_edge_inj key key' e e' :
  (edge_result base ours theirs key).1 = Some e → (edge_result base ours theirs key').1 = Some e' →
  edge_id e = edge_id e' → key = key'.
Proof.
  rewrite !one_sided_edge. cbn [fst]. intros (y & Hy & Ey)%one_sided_edge_id (y' & Hy' & Ey')%one_sided_edge_id Hi.
  apply index_by_Some in Hy as [Hy <-], Hy' as [Hy' <-]. f_equal.
  apply (NoDup_fmap_inj edge_id (edges x)); [apply Wx|done|done|congruence].
Qed.

Lemma one_sided_no_collision : (resolved base ours theirs).2 = [].
Proof.
  set (flagged := λ (fl : bool) (c : candidate), match c.2 with
    | Some (e, f) => if Bool.eqb f fl then Some (edge_id e) else None | None => None end).
  assert (Hf : ∀ fl k i, flagged fl (candidate_of base ours theirs k) = Some i →
    ∃ e, (edge_result base ours theirs k).1 = Some e ∧ edge_id e = i ∧
         identity_is_base (edge_index base !! k) e = fl).
  { intros fl k i. unfold flagged, candidate_of. cbn [snd].
    destruct (edge_result base ours theirs k).1 as [e|]; simpl; [|done].
    destruct (Bool.eqb_spec (identity_is_base (edge_index base !! k) e) fl) as [E|]; [|done].
    intros [= <-]. exists e. rewrite canonicalize_edge_id. done. }
  assert (Hc : ∀ fl, omap (flagged fl) (merge_candidates base ours theirs) =
    omap (λ k, flagged fl (candidate_of base ours theirs k)) (all_keys base ours theirs)).
  { intros fl. apply omap_of_fmap. }
  assert (C1 : chosen (merge_candidates base ours theirs) = omap (flagged false) (merge_candidates base ours theirs)).
  { unfold chosen. apply list_omap_ext'. by intros [k [[e []]|]]. }
  assert (C2 : inherited (merge_candidates base ours theirs) = omap (flagged true) (merge_candidates base ours theirs)).
  { unfold inherited. apply list_omap_ext'. by intros [k [[e []]|]]. }
  apply resolve_identities_no_collision.
  - rewrite C1, Hc. apply NoDup_omap_inj; [apply all_keys_NoDup|].
    intros k k' i _ _ (e & He & Ei & _)%Hf (e' & He' & Ei' & _)%Hf.
    apply (one_sided_edge_inj k k' e e'); [done|done|congruence].
  - intros i. rewrite reserved_ids_elem, C1, C2, !Hc, !list_elem_of_omap.
    intros (k & _ & (e & He & Ei & F1)%Hf) (k' & _ & (e' & He' & Ei' & F2)%Hf).
    assert (k = k') as <- by (apply (one_sided_edge_inj k k' e e'); [done|done|congruence]).
    assert (e = e') as -> by congruence. congruence.
Qed.

Lemma one_sided_entities_index eid :
  index_by id (merge_entities base ours theirs).1 !! eid =
  one_sided entities_equal (index_by id (entities base) !! eid) (index_by id (entities x) !! eid).
Proof. by rewrite merged_entities_lookup, one_sided_entity. Qed.

Lemma one_sided_entity_conflicts : (merge_entities base ours theirs).2 = [].
Proof. apply entity_conflicts_nil. intros eid. by rewrite one_sided_entity. Qed.

Lemma one_sided_edge_conflicts : (merge_edges base ours theirs).2 = [].
Proof.
  rewrite merge_edges_eq. cbn [snd]. rewrite one_sided_no_collision, app_nil_r.
  apply concat_nil_iff, Forall_fmap, Forall_forall. intros key _. simpl. by rewrite one_sided_edge.
Qed.

Lemma one_sided_edges_index key :
  index_by from_edge (merge_edges base ours theirs).1 !! key =
  canonicalize_endpoints <$> one_sided edges_equal (edge_index base !! key) (edge_index x !! key).
Proof.
  pose proof (merged_edges_lookup base ours theirs one_sided_no_collision key) as Hl.
  by rewrite Hl, one_sided_edge.
Qed.

(** The identifiers of the merge are those of the changed branch. *)
Lemma one_sided_ids eid : eid ∈ id <$> (merge_entities base ours theirs).1 ↔ eid ∈ id <$> entities x.
Proof. by rewrite <-!index_by_is_Some, one_sided_entities_index, one_sided_is_Some. Qed.

(** The endpoints of a canonical form are the endpoints of the edge. *)
Lemma key_endpoints_in (ids : gset Uuid) e :
  source e ∈ ids → target e ∈ ids → key_source (from_edge e) ∈ ids ∧ key_target (from_edge e) ∈ ids.
Proof.
  intros Hs Ht. unfold from_edge.
  by destruct (canonical_endpoints_cases (relation e) (source e) (target e)) as [-> |(_ & -> & _)].
Qed.

Lemma one_sided_dangling :
  Forall (λ e, source e ∈ id <$> entities x ∧ target e ∈ id <$> entities x) (edges x) →
  validate_dangling_edges (merge_edges base ours theirs).1
    (entity_id_set (merge_entities base ours theirs).1) = [].
Proof.
  intros Hx. apply validate_dangling_nil, Forall_forall. intros e He.
  assert (Hk : is_Some (edge_index x !! from_edge e)).
  { rewrite <-(one_sided_is_Some edges_equal (edge_index base !! from_edge e)).
    rewrite <-(fmap_is_Some canonicalize_endpoints), <-one_sided_edges_index, index_by_is_Some.
    by apply list_elem_of_fmap_2. }
  destruct Hk as [y Hy]. apply index_by_Some in Hy as [Hy Ek]. rewrite Forall_forall in Hx.
  destruct (Hx y Hy) as [Hs Ht].
  assert (Hin : ∀ i, i ∈ id <$> entities x → i ∈ entity_id_set (merge_entities base ours theirs).1).
  { intros i Hi. unfold entity_id_set. by rewrite elem_of_list_to_set, one_sided_ids. }
  destruct (merged_edge_canonical base ours theirs e He) as [-> ->]. rewrite <-Ek.
  apply key_endpoints_in; by apply Hin.
Qed.
End one_sided.

Section fast_forward.
Context `{UuidFmt}.

(** When one branch is the base, the automatic merge is a fast-forward: it
    ends clean, and every identifier and every semantic key holds what the
    other branch says, the base's own record where the two agree. *)
Theorem three_way_merge_fast_forward base x ours theirs :
  archive_wf base → archive_wf x → archive_ok base → namespace base = namespace x →
  Forall (λ e, source e ∈ id <$> entities x ∧ target e ∈ id <$> entities x) (edges x) →
  (ours, theirs) = (x, base) ∨ (ours, theirs) = (base, x) →
  ∃ m, three_way_merge base ours theirs Auto = Ok (Clean m) ∧
    (∀ eid, index_by id (entities m) !! eid =
      one_sided entities_equal (index_by id (entities base) !! eid) (index_by id (entities x) !! eid)) ∧
    (∀ key, index_by from_edge (edges m) !! key = canonicalize_endpoints <$>
      one_sided edges_equal (index_by from_edge (edges base) !! key) (index_by from_edge (edges x) !! key)).
Proof.
  intros Wb Wx Ob Hns Hd sides.
  assert (Hv : validate_inputs base ours theirs = Ok ()).
  { apply validate_inputs_Ok. destruct sides as [[= -> ->]|[= -> ->]]; by split_and!. }
  assert (Wot : archive_wf ours ∧ archive_wf theirs) by (by destruct sides as [[= -> ->]|[= -> ->]]).
  destruct Wot as [Wo Wt].
  pose proof (merged_wf base ours theirs ours (deterministic_timestamp ours theirs) Wb Wo Wt) as Wm.
  unfold three_way_merge. rewrite Hv. cbn [res_bind]. unfold three_way_merge_auto.
  pose proof (one_sided_entity_conflicts base x Ob ours theirs sides) as C1.
  pose proof (one_sided_edge_conflicts base x Wx Ob ours theirs sides) as C2.
  pose proof (one_sided_dangling base x Wx Ob ours theirs sides Hd) as C3.
  pose proof (one_sided_entities_index base x Ob ours theirs sides) as I1.
  pose proof (one_sided_edges_index base x Wx Ob ours theirs sides) as I2.
  pose proof (merged_entities_sorted base ours theirs) as S1.
  destruct (merge_edges_facts base ours theirs Wb Wo Wt) as (_ & S2 & _).
  destruct (merge_entities base ours theirs) as [es ecs], (merge_edges base ours theirs) as [ds dcs].
  cbn [fst snd] in *. subst ecs dcs. rewrite C3. cbn [app]. cbv zeta.
  rewrite (proj2 (validate_archive_Ok _) Wm). cbn [res_bind]. eexists. split; [done|].
  unfold finished, sort_entities, sort_edges. cbn [entities edges]. split.
  - intros eid. rewrite <-I1. f_equal. apply index_by_perm; [apply sort_by_Permutation|].
    rewrite sort_by_Permutation. by apply cmp_sorted_NoDup.
  - intros key. unfold edge_index in I2. rewrite <-I2. f_equal.
    apply index_by_perm; [apply sort_by_Permutation|]. by rewrite sort_by_Permutation.
Qed.
End fast_forward.

(** ** Last-write-wins *)

(** The preferred branch's record, else an addition of the other branch. *)
Definition preferred {A} (in_base : bool) (ours theirs : option A) : option A :=
  match ours with
  | Some e => Some e
  | None => if in_base then None else theirs
  end.

Lemma append_edges_clean (base_keys ours_keys : gset EdgeKey) used theirs :
  (append_edges base_keys ours_keys used theirs).2 = [] →
  (append_edges base_keys ours_keys used theirs).1 =
  filter (λ e, (from_edge e ∉ base_keys) ∧ (from_edge e ∉ ours_keys)) theirs.
Proof.
  revert used. induction theirs as [|e l IH]; intros used; cbn [append_edges]; [done|].
  rewrite filter_cons. destruct (bool_decide_reflect (from_edge e ∈ base_keys)); cbn [orb].
  { rewrite decide_False by (by intros []). apply IH. }
  destruct (bool_decide_reflect (from_edge e ∈ ours_keys)).
  { rewrite decide_False by (by intros []). apply IH. }
  destruct (decide ((from_edge e ∉ base_keys) ∧ (from_edge e ∉ ours_keys))) as [_|Hn]; [|by destruct Hn]. destruct (decide (edge_id e ∈ used)).
  - by destruct (append_edges _ _ used l).
  - specialize (IH ({[edge_id e]} ∪ used)). destruct (append_edges _ _ _ l). cbn [fst snd] in *.
    by intros ->%IH.
Qed.

(** Indexing ours followed by the additions of theirs. *)
Lemma index_by_additions {K A} `{Countable K} (key : A → K) (base ours theirs : list A) l k :
  NoDup (key <$> ours) → NoDup (key <$> theirs) →
  l ≡ₚ ours ++ filter (λ e, (key e ∉ (list_to_set (key <$> base) : gset K)) ∧
                            (key e ∉ (list_to_set (key <$> ours) : gset K))) theirs →
  index_by key l !! k =
  preferred (bool_decide (k ∈ key <$> base)) (index_by key ours !! k) (index_by key theirs !! k).
Proof.
  intros Do Dt Hp. set (new := filter _ theirs) in Hp.
  assert (Hnew : ∀ e, e ∈ new ↔ (key e ∉ key <$> base) ∧ (key e ∉ key <$> ours) ∧ e ∈ theirs).
  { intros e. unfold new. rewrite list_elem_of_filter, !elem_of_list_to_set. naive_solver. }
  assert (Dl : NoDup (key <$> l)).
  { rewrite Hp, fmap_app. apply NoDup_app. split_and!; [done| |].
    - intros i Hi (e & -> & (_ & Hn & _)%Hnew)%list_elem_of_fmap. done.
    - by apply (sublist_NoDup _ (key <$> theirs)), fmap_sublist, sublist_filter. }
  apply option_eq. intros e. rewrite index_by_lookup, Hp, elem_of_app, Hnew by done. unfold preferred.
  destruct (index_by key ours !! k) as [x|] eqn:Ex.
  - apply index_by_Some in Ex as [Hx <-]. split.
    + intros [[He|(_ & Hn & _)] E]; [|destruct Hn; rewrite E; by apply list_elem_of_fmap_2].
      f_equal. by apply (NoDup_fmap_inj key ours).
    + intros [= <-]. auto.
  - assert (k ∉ key <$> ours) as Hk by (rewrite <-index_by_is_Some, Ex; by intros []).
    destruct (bool_decide_reflect (k ∈ key <$> base)) as [Hb|Hb].
    + split; [|done]. intros [[He|(Hn & _)] <-]; [|done]. destruct Hk. by apply list_elem_of_fmap_2.
    + rewrite index_by_lookup by done. split.
      * intros [[He|(_ & _ & He)] <-]; [|done]. destruct Hk. by apply list_elem_of_fmap_2.
      * intros [He <-]. auto.
Qed.

Section last_write_wins.
Context `{UuidFmt}.

(** Preferring theirs is preferring ours with the branches exchanged; a
    clean last-write-wins merge holds, for every identifier and every semantic
    key, the preferred branch's record, or else what the other branch added. *)
Theorem last_write_wins_spec base ours theirs :
  validate_inputs base ours theirs = Ok () →
  three_way_merge base ours theirs TheirsStrategy = three_way_merge base theirs ours OursStrategy ∧
  ∀ m, three_way_merge base ours theirs OursStrategy = Ok (Clean m) →
    (∀ eid, index_by id (entities m) !! eid =
      preferred (bool_decide (eid ∈ id <$> entities base)) (index_by id (entities ours) !! eid)
        (index_by id (entities theirs) !! eid)) ∧
    (∀ key, index_by from_edge (edges m) !! key =
      preferred (bool_decide (key ∈ from_edge <$> edges base)) (index_by from_edge (edges ours) !! key)
        (index_by from_edge (edges theirs) !! key)).
Proof.
  intros Hv. pose proof Hv as ((No & Nt) & Wb & Wo & Wt)%validate_inputs_Ok. split.
  - assert (Hv' : validate_inputs base theirs ours = Ok ()) by (by apply validate_inputs_Ok).
    unfold three_way_merge. rewrite Hv, Hv'. cbn [res_bind]. unfold apply_theirs_with_conflicts.
    destruct (apply_ours_with_conflicts base theirs ours) as [a cs].
    unfold finish_shortcut_merge, deterministic_timestamp. by rewrite Z.max_comm.
  - intros m. unfold three_way_merge. rewrite Hv. cbn [res_bind].
    pose proof (apply_ours_wf base ours theirs Wb Wo Wt) as Wm.
    unfold apply_ours_with_conflicts in *.
    pose proof (append_edges_clean (list_to_set (from_edge <$> edges base)) (list_to_set (from_edge <$> edges ours))
      (list_to_set (edge_id <$> edges ours)) (edges theirs)) as Ha.
    destruct (append_edges _ _ _ _) as [new cs]. cbn [fst snd] in *. unfold finish_shortcut_merge. cbv zeta.
    rewrite (proj2 (validate_archive_Ok _)) by (apply finished_wf; apply Wm). cbn [res_bind].
    destruct (cs ++ _) eqn:E; [|done]. intros [= <-]. apply app_nil in E as [-> _]. rewrite Ha by done.
    unfold finished, sort_entities, sort_edges. cbn [entities edges]. split; intros k.
    + apply index_by_additions; [apply Wo|apply Wt|]. apply sort_by_Permutation.
    + apply index_by_additions; [apply Wo|apply Wt|]. apply sort_by_Permutation.
Qed.
End last_write_wins.

(** ** Witnesses *)

#[export] Instance sample_uuid_fmt : UuidFmt := λ _, "id"%string.

Definition sample_entity (i : Uuid) (n : string) : ExportedEntity :=
  {| id := i; kind := "concept"; entity_type := None; name := n; description := None; properties := None;
     tags := []; created_at := 0; updated_at := 0 |}.

Definition sample_edge (i s t : Uuid) (w : Z) : ExportedEdge :=
  {| edge_id := i; source := s; target := t; relation := CompetesWith; weight := of_Z w;
     edge_properties := None; edge_created_at := 0; edge_updated_at := 0 |}.

Definition sample_archive (at_ : Instant) (es : list ExportedEntity) (ds : list ExportedEdge) : KgArchive :=
  {| format := "khive-kg"; version := "0.1"; namespace := "n"; exported_at := at_; entities := es; edges := ds |}.

Definition sample_base : KgArchive :=
  sample_archive 1 [sample_entity 2%N "b"; sample_entity 1%N "a"] [sample_edge 10%N 1%N 2%N 1].

Definition sample_branch : KgArchive :=
  sample_archive 5 [sample_entity 1%N "a2"; sample_entity 2%N "b"; sample_entity 3%N "c"]
    [sample_edge 10%N 2%N 1%N 3; sample_edge 11%N 3%N 1%N 2].

Lemma sample_base_wf : archive_wf sample_base.
Proof. apply validate_archive_Ok. vm_compute. reflexivity. Qed.

Lemma sample_branch_wf : archive_wf sample_branch.
Proof. apply validate_archive_Ok. vm_compute. reflexivity. Qed.

Theorem merge_edges_wf_witness :
  NoDup (edge_id <$> (merge_edges sample_base sample_branch sample_base).1) ∧
  (merge_edges sample_base sample_branch sample_base).2 = [].
Proof.
  split; [|vm_compute; reflexivity].
  apply (merge_edges_wf sample_base sample_branch sample_base); apply validate_archive_Ok; vm_compute; reflexivity.
Defined.

Theorem three_way_merge_clean_witness :
  ∃ m, three_way_merge sample_base sample_branch sample_base OursStrategy = Ok (Clean m) ∧
    (exported_at m = 5)%Z ∧ format m = "khive-kg"%string ∧ archive_wf m.
Proof.
  destruct (three_way_merge sample_base sample_branch sample_base OursStrategy) as [[m|c]|e] eqn:E;
    [|exfalso; vm_compute in E; discriminate..].
  exists m. split; [reflexivity|].
  destruct (three_way_merge_clean sample_base sample_branch sample_base OursStrategy m E)
    as (H1 & H2 & H3 & H4 & H5 & H6 & H7). split; [exact H6|]. split; [|exact H1].
  destruct (H7 ltac:(discriminate)) as [Hf _]. exact Hf.
Defined.

Theorem three_way_merge_fast_forward_witness :
  ∃ m, three_way_merge sample_base sample_base sample_branch Auto = Ok (Clean m) ∧
    index_by id (entities m) !! 1%N = Some (sample_entity 1%N "a2").
Proof.
  destruct (three_way_merge_fast_forward sample_base sample_branch sample_base sample_branch)
    as (m & Hm & He & _).
  - apply sample_base_wf.
  - apply sample_branch_wf.
  - split; repeat constructor.
  - reflexivity.
  - repeat constructor; vm_compute; set_solver.
  - right. reflexivity.
  - exists m. split; [exact Hm|]. rewrite He. vm_compute. reflexivity.
Defined.

Theorem last_write_wins_spec_witness :
  three_way_merge sample_base sample_base sample_branch TheirsStrategy =
  three_way_merge sample_base sample_branch sample_base OursStrategy.
Proof.
  apply (last_write_wins_spec sample_base sample_base sample_branch). vm_compute. reflexivity.
Defined.

(** khive-merge/src/lca.rs: the walk over snapshot histories terminates on
    every finite history, cycles included, and finds the nearest ancestor. *)

Section lca.
Variable parent_of : string → option string.

(** The [n]-th ancestor. *)
Fixpoint nth_ancestor (n : nat) (i : string) : option string :=
  match n with
  | O => Some i
  | S n' => nth_ancestor n' i ≫= parent_of
  end.

Definition ancestor (i a : string) : Prop := ∃ n, nth_ancestor n i = Some a.

Lemma ancestor_refl i : ancestor i i.
Proof. by exists 0%nat. Qed.

Lemma ancestor_step i a p : ancestor i a → parent_of a = Some p → ancestor i p.
Proof. intros [n Hn] Hp. exists (S n). simpl. by rewrite Hn. Qed.

(** A set closed under parents holds all ancestors of its members. *)
Lemma ancestor_closed (P : string → Prop) i a :
  P i → (∀ x p, P x → parent_of x = Some p → P p) → ancestor i a → P a.
Proof.
  intros Hi Hc [n Hn]. revert a Hn. induction n as [|n IH]; intros a; simpl; [by intros [= <-]|].
  destruct (nth_ancestor n i) as [x|] eqn:E; [|done]. intros Hp. by eapply Hc; [apply IH|].
Qed.

(** Histories of finitely many snapshots. *)
Variable snapshots : gset string.
Hypothesis finite_history : ∀ i p, parent_of i = Some p → p ∈ snapshots.

Lemma unvisited_shrinks (seen : gset string) i :
  i ∈ snapshots → i ∉ seen → (size (snapshots ∖ ({[i]} ∪ seen)) < size (snapshots ∖ seen))%nat.
Proof. intros Hi Hn. apply subset_size. set_solver. Qed.

Lemma collect_loop_spec start fuel set current :
  (size (snapshots ∖ set) ≤ fuel)%nat →
  (∀ i, i ∈ set → ancestor start i) → start ∈ set →
  (∀ i p, i ∈ set → parent_of i = Some p → p ∈ set ∨ current = Some p) →
  (∀ c, current = Some c → ancestor start c ∧ c ∈ snapshots) →
  ∃ s, collect_loop parent_of fuel set current = Some s ∧ ∀ a, a ∈ s ↔ ancestor start a.
Proof.
  revert set current. induction fuel as [|fuel IH]; intros set current Hf Hs Hst Hc Hcur;
    (destruct current as [c|]; cbn [collect_loop];
      [destruct (decide (c ∈ set)) as [Hin|Hn]|]).
  1, 4: (exists set; split; [done|]; intros a; split; [by apply Hs|];
    apply (ancestor_closed (λ x, x ∈ set) start a); [done|]; intros x p Hx Hp; destruct (Hc x p Hx Hp) as [|[= ->]]; done).
  2, 4: (exists set; split; [done|]; intros a; split; [by apply Hs|];
    apply (ancestor_closed (λ x, x ∈ set) start a); [done|]; intros x p Hx Hp; by destruct (Hc x p Hx Hp)).
  - exfalso. destruct (Hcur c eq_refl) as [_ Hsn]. pose proof (unvisited_shrinks set c Hsn Hn). lia.
  - destruct (Hcur c eq_refl) as [Ha Hsn]. apply IH.
    + pose proof (unvisited_shrinks set c Hsn Hn). lia.
    + intros i [->%elem_of_singleton|Hi]%elem_of_union; [done|by apply Hs].
    + set_solver.
    + intros i p [->%elem_of_singleton|Hi]%elem_of_union Hp; [by right|].
      destruct (Hc i p Hi Hp) as [|[= ->]]; left; set_solver.
    + intros p Hp. split; [by eapply ancestor_step|by eapply finite_history].
Qed.

Lemma collect_ancestors_spec fuel start :
  (size snapshots ≤ fuel)%nat →
  ∃ s, collect_ancestors parent_of fuel start = Some s ∧ ∀ a, a ∈ s ↔ ancestor start a.
Proof.
  intros Hf. apply collect_loop_spec.
  - etransitivity; [|exact Hf]. apply subseteq_size. set_solver.
  - intros i ->%elem_of_singleton. apply ancestor_refl.
  - set_solver.
  - intros i p ->%elem_of_singleton Hp. by right.
  - intros c Hc. split; [by eapply ancestor_step; [apply ancestor_refl|]|by eapply finite_history].
Qed.

(** The nearest ancestor on the walk from theirs, if any. *)
Definition nearest (P : string → Prop) (theirs : string) (r : option string) : Prop :=
  match r with
  | Some a => P a ∧ ∃ n, nth_ancestor n theirs = Some a ∧
      ∀ m b, (m < n)%nat → nth_ancestor m theirs = Some b → ¬ P b
  | None => ∀ a, ancestor theirs a → ¬ P a
  end.

Lemma theirs_loop_spec (ours visited : gset string) theirs n c fuel :
  (size (snapshots ∖ visited) ≤ fuel)%nat →
  nth_ancestor n theirs = Some c →
  (∀ i, i ∈ visited ↔ ∃ m, (m ≤ n)%nat ∧ nth_ancestor m theirs = Some i) →
  (∀ m b, (m < n)%nat → nth_ancestor m theirs = Some b → b ∉ ours) →
  ∃ r, theirs_loop parent_of fuel ours visited (Some c) = Some r ∧ nearest (λ a, a ∈ ours) theirs r.
Proof.
  revert n c visited. induction fuel as [|fuel IH]; intros n c visited Hf Hc Hv Hn; cbn [theirs_loop];
    (destruct (decide (c ∈ ours)) as [Ho|Ho]; [by exists (Some c); split; [|split; [|exists n]]|]).
  all: assert (Hall : ∀ m b, (m ≤ n)%nat → nth_ancestor m theirs = Some b → b ∉ ours)
    by (intros m b Hm Hb; destruct (decide (m = n)) as [->|]; [congruence|apply (Hn m b); [lia|done]]).
  all: assert (Hend : (∀ p, parent_of c = Some p → p ∈ visited) →
    ∀ a, ancestor theirs a → a ∉ ours).
  1, 3: (intros Hp a Ha; assert (a ∈ visited) as (m & Hm & Hb)%Hv; [|by eapply Hall];
    revert Ha; apply (ancestor_closed (λ x, x ∈ visited) theirs a); [apply Hv; exists 0%nat; split; [lia|done]|];
    intros x p (m & Hm & Hx)%Hv Hxp; destruct (decide (m = n)) as [->|Hne];
    [apply Hp; congruence|apply Hv; exists (S m); split; [lia|]; simpl; by rewrite Hx]).
  all: destruct (parent_of c) as [p|] eqn:Ep; [|exists None; split; [done|exact (Hend ltac:(done))]].
  all: destruct (decide (p ∈ visited)) as [Hpv|Hpv];
    [exists None; split; [done|]; refine (Hend _); by intros ? [= <-]|].
  - exfalso. pose proof (unvisited_shrinks visited p (finite_history c p Ep) Hpv). lia.
  - apply (IH (S n)).
    + pose proof (unvisited_shrinks visited p (finite_history c p Ep) Hpv). lia.
    + simpl. by rewrite Hc.
    + intros i. rewrite elem_of_union, elem_of_singleton, Hv. split.
      * intros [->|(m & Hm & Hi)]; [exists (S n); split; [lia|]; simpl; by rewrite Hc|].
        exists m. split; [lia|done].
      * intros (m & Hm & Hi). destruct (decide (m = S n)) as [->|]; [|right; exists m; split; [lia|done]].
        simpl in Hi. rewrite Hc in Hi. simpl in Hi. left. congruence.
    + intros m b Hm Hb. apply (Hall m b); [lia|done].
Qed.

(** Over finitely many snapshots, cyclic histories included, the search
    ends with fuel for each of them; it returns the first ancestor of theirs,
    itself included, that is an ancestor of ours, and nothing exactly when the
    histories are disjoint. *)
Theorem find_lca_spec fuel ours theirs :
  (size snapshots ≤ fuel)%nat →
  ∃ r, find_lca parent_of fuel ours theirs = Some r ∧ nearest (ancestor ours) theirs r.
Proof.
  intros Hf. unfold find_lca. destruct (String.eqb_spec ours theirs) as [->|Hne].
  { exists (Some theirs). split; [done|]. split; [apply ancestor_refl|]. exists 0%nat.
    split; [done|]. intros m b Hm. lia. }
  destruct (collect_ancestors_spec fuel ours Hf) as (s & -> & Hs). simpl.
  destruct (theirs_loop_spec s {[theirs]} theirs 0 theirs fuel) as (r & Hr & Hnear).
  - etransitivity; [|exact Hf]. apply subseteq_size. set_solver.
  - done.
  - intros i. rewrite elem_of_singleton. split; [intros ->; by exists 0%nat|].
    intros (m & Hm & Hi). assert (m = 0)%nat as -> by lia. by injection Hi.
  - lia.
  - exists r. split; [done|]. destruct r as [a|]; simpl in *.
    + destruct Hnear as (Ha & n & Hn & Hm). split; [by apply Hs|]. exists n. split; [done|].
      intros m b Hmn Hb. rewrite <-Hs. by apply (Hm m b).
    + intros a Ha. rewrite <-Hs. by apply Hnear.
Qed.
End lca.

(** A fork: d and e descend from c. *)
Definition sample_parents : gmap string string :=
  {[ "d"%string := "c"%string; "e"%string := "c"%string; "c"%string := "b"%string ]}.

Theorem find_lca_spec_witness :
  find_lca (λ i, sample_parents !! i) 3 "d" "e" = Some (Some "c"%string) ∧
  ∃ r, find_lca (λ i, sample_parents !! i) 3 "d" "e" = Some r ∧
    nearest (λ i, sample_parents !! i) (ancestor (λ i, sample_parents !! i) "d") "e" r.
Proof.
  split; [vm_compute; reflexivity|].
  apply (find_lca_spec (λ i, sample_parents !! i) (map_img sample_parents)).
  - intros i p Hp. apply elem_of_map_img. exists i. exact Hp.
  - vm_compute. lia.
Defined.
