(* ===== verification/Wire.v ===== *)
(** khive-wire-protocol, data: protocol versions (version.rs), the error
    taxonomy (error.rs), opaque JSON tokens (opaque.rs), frames (frame.rs) and
    codec errors (codec.rs), with the class of the serde_json routines the
    codec calls. *)

From Stdlib Require Import String Ascii ZArith.
From stdpp Require Import base tactics list strings.
From S2P Require Import Prelude RustStr Json Archive Scan.
Open Scope Z_scope.

(** ** version.rs *)

(** A [u32]; [PV v] is [ProtocolVersion(v)]. *)
Record ProtocolVersion : Type := PV { version_get : Z }.

Definition CURRENT_VERSION : ProtocolVersion := PV 1.

Record SupportedVersions : Type := Supported { sv_min : ProtocolVersion; sv_max : ProtocolVersion }.

Inductive SupportedVersionsError : Type := MinVersionZero | InvertedRange | MaxAboveCurrent.

Definition SupportedVersions_current : SupportedVersions :=
  let max := version_get CURRENT_VERSION in
  let min := if 1 <? max then max - 1 else 1 in
  Supported (PV min) (PV max).

Definition SupportedVersions_new (min max : ProtocolVersion)
    : result SupportedVersions SupportedVersionsError :=
  if version_get min <? 1 then Err MinVersionZero
  else if version_get max <? version_get min then Err InvertedRange
  else if version_get CURRENT_VERSION <? version_get max then Err MaxAboveCurrent
  else Ok (Supported min max).

Definition SupportedVersions_contains (s : SupportedVersions) (version : ProtocolVersion) : bool :=
  (version_get (sv_min s) <=? version_get version) && (version_get version <=? version_get (sv_max s)).

(** ** error.rs *)

Inductive TerminalScope : Type := ConnectionScope | RequestScope.

Inductive WireErrorCode : Type :=
| UnsupportedVersion | IdentityRejected | MalformedFrame | FrameTooLarge
| SubscriberOverflow | SubscriptionRevoked | ContextRejected | PeerClassDenied
| SubscriptionDenied | AlreadySubscribed | CursorExpired | InFlightLimitExceeded
| DeadlineExceeded | Cancelled | ShuttingDown | Internal.

Definition WIRE_ERROR_CODES : list string :=
  ["unsupported_version"; "identity_rejected"; "malformed_frame"; "frame_too_large";
   "subscriber_overflow"; "subscription_revoked"; "context_rejected"; "peer_class_denied";
   "subscription_denied"; "already_subscribed"; "cursor_expired"; "in_flight_limit_exceeded";
   "deadline_exceeded"; "cancelled"; "shutting_down"; "internal"]%string.

Definition terminal_scope (c : WireErrorCode) : TerminalScope :=
  match c with
  | UnsupportedVersion | IdentityRejected | MalformedFrame | FrameTooLarge
  | SubscriberOverflow | SubscriptionRevoked => ConnectionScope
  | _ => RequestScope
  end.

Definition WireErrorCode_as_str (c : WireErrorCode) : string :=
  match c with
  | UnsupportedVersion => "unsupported_version"
  | IdentityRejected => "identity_rejected"
  | MalformedFrame => "malformed_frame"
  | FrameTooLarge => "frame_too_large"
  | SubscriberOverflow => "subscriber_overflow"
  | SubscriptionRevoked => "subscription_revoked"
  | ContextRejected => "context_rejected"
  | PeerClassDenied => "peer_class_denied"
  | SubscriptionDenied => "subscription_denied"
  | AlreadySubscribed => "already_subscribed"
  | CursorExpired => "cursor_expired"
  | InFlightLimitExceeded => "in_flight_limit_exceeded"
  | DeadlineExceeded => "deadline_exceeded"
  | Cancelled => "cancelled"
  | ShuttingDown => "shutting_down"
  | Internal => "internal"
  end.

Definition all_codes : list WireErrorCode :=
  [UnsupportedVersion; IdentityRejected; MalformedFrame; FrameTooLarge; SubscriberOverflow;
   SubscriptionRevoked; ContextRejected; PeerClassDenied; SubscriptionDenied; AlreadySubscribed;
   CursorExpired; InFlightLimitExceeded; DeadlineExceeded; Cancelled; ShuttingDown; Internal].

(** The variant a name selects, [#[serde(other)]] being [Internal]. *)
Definition code_of_name (s : string) : WireErrorCode :=
  default Internal (list_find (λ c, WireErrorCode_as_str c = s) all_codes ≫= λ x, Some x.2).

(** ** opaque.rs *)

(** A local [Value], or the token of a received one. *)
Inductive OpaqueValue : Type :=
| Local (value : Value)
| Received (raw : string).

Definition value_is_object (v : Value) : bool :=
  match v with VObject _ => true | _ => false end.

Definition OpaqueValue_is_object (v : OpaqueValue) : bool :=
  match v with
  | Local value => value_is_object value
  | Received raw => starts_with_byte "{"%char (to_bytes raw)
  end.

(** ** frame.rs *)

Inductive Frame : Type :=
| Handshake (version : ProtocolVersion)
| HandshakeAck (version : ProtocolVersion)
| Request (id ops : string) (deadline_ms : option Z) (namespace actor_id : option string)
    (visible_namespaces : option (list string))
| Response (id : string) (res : OpaqueValue)
| Error (id : option string) (code : WireErrorCode) (message : string)
    (unrecognized_code : option string)
| Cancel (id : string)
| Subscribe (id topic : string) (resume_cursor : option Z)
| SubscribeAck (id topic : string) (start_cursor : Z)
| Unsubscribe (id topic : string)
| UnsubscribeAck (id topic : string)
| Event (topic : string) (cursor : Z) (occurred_at : string) (payload : OpaqueValue).

Definition FRAME_KINDS : list string :=
  ["handshake"; "handshake_ack"; "request"; "response"; "error"; "cancel"; "subscribe";
   "subscribe_ack"; "unsubscribe"; "unsubscribe_ack"; "event"]%string.

Definition CLIENT_TO_SERVER_KINDS : list string :=
  ["handshake"; "request"; "cancel"; "subscribe"; "unsubscribe"]%string.

Definition Frame_kind (f : Frame) : string :=
  match f with
  | Handshake _ => "handshake"
  | HandshakeAck _ => "handshake_ack"
  | Request _ _ _ _ _ _ => "request"
  | Response _ _ => "response"
  | Error _ _ _ _ => "error"
  | Cancel _ => "cancel"
  | Subscribe _ _ _ => "subscribe"
  | SubscribeAck _ _ _ => "subscribe_ack"
  | Unsubscribe _ _ => "unsubscribe"
  | UnsubscribeAck _ _ => "unsubscribe_ack"
  | Event _ _ _ _ => "event"
  end.

(** [slice::contains] of names. *)
Definition contains (l : list string) (s : string) : bool := existsb (String.eqb s) l.
#[global] Arguments contains : simpl never.

(** [BTreeMap::remove] *)
Definition bm_remove {V} (key : string) (m : list (string * V)) : list (string * V) :=
  List.filter (λ kv, negb (String.eqb kv.1 key)) m.

(** The first entry of a key. *)
Fixpoint assoc {V} (key : string) (l : list (string * V)) : option V :=
  match l with
  | [] => None
  | (k, v) :: l' => if String.eqb k key then Some v else assoc key l'
  end.

(** ** codec.rs: errors *)

Inductive CodecError : Type :=
| TruncatedLengthPrefix (available : Z)
| TruncatedPayload (declared available : Z)
| CE_FrameTooLarge (declared max : Z)
| U32PrefixLimitExceeded (declared max : Z)
| InvalidJson (detail : string)
| MissingKind
| UnknownFrameKind (kind : string)
| InvalidFields (kind detail : string)
| InconsistentErrorScope (detail : string)
| FallbackFrameNotEncodable (code : string).

Definition wire_code (e : CodecError) : WireErrorCode :=
  match e with
  | CE_FrameTooLarge _ _ | U32PrefixLimitExceeded _ _ => FrameTooLarge
  | TruncatedLengthPrefix _ | TruncatedPayload _ _ | InvalidJson _ | MissingKind
  | UnknownFrameKind _ | InvalidFields _ _ | InconsistentErrorScope _ => MalformedFrame
  | FallbackFrameNotEncodable _ => Internal
  end.

(** ** The serde_json routines the codec calls *)

(** How the members of an object end: the closing brace, an error where a key
    is read, or an error where the value of a key is read. *)
Inductive envelope_end : Type :=
| Closed
| KeyError (e : string)
| ValueError (key e : string).

(** [envelope] lists the decoded keys and the raw value tokens a [MapAccess]
    yields for a payload; [trailing] is the error [from_slice] reports for
    characters after the value; [write_object] is the compact text of an object
    of given members.  [*_token] are the compact texts of scalars and [de_*]
    read them back; [de_variant] reads the variant name of an externally tagged
    enum.  Errors are given by their [Display] text: [custom_display] is that
    of [Error::custom] once the deserializer has placed it in its input, and
    [debug_text] the [Debug] form of a [str]. *)
Class WireSerde := {
  envelope : bytes → list (string * string) * envelope_end;
  trailing : bytes → option string;
  write_object : list (string * string) → bytes;
  string_token : string → string;
  u64_token : Z → string;
  strings_token : list string → string;
  value_token : Value → string;
  de_string : string → result string string;
  de_variant : string → result string string;
  de_u32 : string → result Z string;
  de_u64 : string → result Z string;
  de_strings : string → result (list string) string;
  raw_value : string → result Value string;
  from_slice_value : bytes → result Value string;
  unknown_field : string → list string → string;
  missing_field : string → string;
  custom_display : bytes → string → string;
  debug_text : string → string
}.

(** [OpaqueValue::to_value] and [PartialEq]. *)
Definition OpaqueValue_to_value `{WireSerde} (v : OpaqueValue) : result Value string :=
  match v with
  | Local value => Ok value
  | Received raw => raw_value raw
  end.

Definition OpaqueValue_eqb `{WireSerde} (a b : OpaqueValue) : bool :=
  match a, b with
  | Local lv, Local rv => value_eqb lv rv
  | _, _ =>
      match OpaqueValue_to_value a, OpaqueValue_to_value b with
      | Ok lv, Ok rv => value_eqb lv rv
      | Err _, Err _ => match a, b with
                        | Received lv, Received rv => String.eqb lv rv
                        | _, _ => false
                        end
      | _, _ => false
      end
  end.
