(* ===== verification/WireCodec.v ===== *)
(** khive-wire-protocol, framing: the serializer and the visitor of a frame
    (frame.rs) and the length-prefixed codec (codec.rs). *)

From Stdlib Require Import String Ascii ZArith.
From stdpp Require Import base tactics list strings sets.
From S2P Require Import Prelude RustStr Json Scan Archive Wire.

Open Scope Z_scope.

Definition LENGTH_PREFIX_BYTES : nat := 4.
Definition DEFAULT_MAX_FRAME_BYTES : Z := 8 * 1024 * 1024.
Definition U32_MAX : Z := 2 ^ 32 - 1.
Definition INCONSISTENT_SCOPE_ERROR_PREFIX : string := "error frame violates the id/scope rule: ".

(** ** Encode-side validation *)

Definition check_id (kind id : string) : result unit CodecError :=
  if is_empty id then Err (InvalidFields kind "operation id must be a non-empty string") else Ok ().

Definition check_version (kind : string) (version : ProtocolVersion) : result unit CodecError :=
  if version_get version =? 0 then Err (InvalidFields kind "protocol version 0 does not exist") else Ok ().

Definition connection_scope_detail (code : WireErrorCode) (id : string) : string :=
  "connection-terminal code " +:+ WireErrorCode_as_str code
  +:+ " must not carry an operation id, got " +:+ id.
Definition request_scope_detail (code : WireErrorCode) : string :=
  "request-terminal code " +:+ WireErrorCode_as_str code
  +:+ " must echo the operation id it terminates".

(** The id/scope rule of an error frame, as both sides check it. *)
Definition scope_mismatch (code : WireErrorCode) (id : option string) : option string :=
  match terminal_scope code, id with
  | ConnectionScope, Some i => Some (connection_scope_detail code i)
  | RequestScope, None => Some (request_scope_detail code)
  | ConnectionScope, None | RequestScope, Some _ => None
  end.

Definition validate_frame_for_wire (frame : Frame) : result unit CodecError :=
  match frame with
  | Handshake version => check_version "handshake" version
  | HandshakeAck version => check_version "handshake_ack" version
  | Event _ _ _ payload =>
      if negb (OpaqueValue_is_object payload)
      then Err (InvalidFields "event" "payload must be a JSON object") else Ok ()
  | Request id _ deadline_ms _ _ _ =>
      check? check_id "request" id in
      if decide (deadline_ms = Some 0)
      then Err (InvalidFields "request" "deadline_ms must be a positive integer") else Ok ()
  | Response id _ => check_id "response" id
  | Cancel id => check_id "cancel" id
  | Subscribe id _ _ => check_id "subscribe" id
  | SubscribeAck id _ _ => check_id "subscribe_ack" id
  | Unsubscribe id _ => check_id "unsubscribe" id
  | UnsubscribeAck id _ => check_id "unsubscribe_ack" id
  | Error id code _ unrecognized_code =>
      match unrecognized_code with
      | Some raw_code => Err (FallbackFrameNotEncodable raw_code)
      | None =>
          check? (match id with Some i => check_id "error" i | None => Ok () end) in
          match scope_mismatch code id with
          | Some detail => Err (InconsistentErrorScope detail)
          | None => Ok ()
          end
      end
  end.

(** The same rules with the texts of the direct serializer. *)
Definition serialize_check_id (kind id : string) : result unit string :=
  if is_empty id
  then Err ("frame kind " +:+ debug_plain kind +:+ ": operation id must be a non-empty string")
  else Ok ().

Definition serialize_check_version (kind : string) (version : ProtocolVersion) : result unit string :=
  if version_get version =? 0
  then Err ("frame kind " +:+ debug_plain kind +:+ ": protocol version 0 does not exist")
  else Ok ().

Section codec.
Context `{WireSerde}.

Definition validate_frame_for_serialize (frame : Frame) : result unit string :=
  match frame with
  | Handshake version => serialize_check_version "handshake" version
  | HandshakeAck version => serialize_check_version "handshake_ack" version
  | Request id _ deadline_ms _ _ _ =>
      check? serialize_check_id "request" id in
      if decide (deadline_ms = Some 0)
      then Err ("frame kind " +:+ debug_plain "request" +:+ ": deadline_ms must be a positive integer")
      else Ok ()
  | Response id _ => serialize_check_id "response" id
  | Cancel id => serialize_check_id "cancel" id
  | Subscribe id _ _ => serialize_check_id "subscribe" id
  | SubscribeAck id _ _ => serialize_check_id "subscribe_ack" id
  | Unsubscribe id _ => serialize_check_id "unsubscribe" id
  | UnsubscribeAck id _ => serialize_check_id "unsubscribe_ack" id
  | Event _ _ _ payload =>
      if negb (OpaqueValue_is_object payload)
      then Err ("frame kind " +:+ debug_plain "event" +:+ ": payload must be a JSON object") else Ok ()
  | Error id code _ unrecognized_code =>
      match unrecognized_code with
      | Some raw_code =>
          Err ("fallback error frame (unrecognized code " +:+ debug_text raw_code
               +:+ ") is not re-encodable: re-encoding would emit " +:+ debug_plain "internal"
               +:+ " and discard the newer wire code")
      | None =>
          check? (match id with Some i => serialize_check_id "error" i | None => Ok () end) in
          match scope_mismatch code id with
          | Some detail => Err (INCONSISTENT_SCOPE_ERROR_PREFIX +:+ detail)
          | None => Ok ()
          end
      end
  end.

(** ** Serialization *)

Definition opaque_token (v : OpaqueValue) : string :=
  match v with Local value => value_token value | Received raw => raw end.

(** An entry of an optional field: absent fields are skipped. *)
Definition opt_entry {A} (key : string) (token : A → string) (o : option A) : list (string * string) :=
  match o with Some a => [(key, token a)] | None => [] end.

(** The members [serialize_map] receives, in order. *)
Definition frame_entries (frame : Frame) : list (string * string) :=
  ("kind"%string, string_token (Frame_kind frame)) ::
  match frame with
  | Handshake version | HandshakeAck version => [("version"%string, u64_token (version_get version))]
  | Request id ops deadline_ms namespace actor_id visible_namespaces =>
      [("id"%string, string_token id); ("ops"%string, string_token ops)]
      ++ opt_entry "deadline_ms" u64_token deadline_ms
      ++ opt_entry "namespace" string_token namespace
      ++ opt_entry "actor_id" string_token actor_id
      ++ opt_entry "visible_namespaces" strings_token visible_namespaces
  | Response id res => [("id"%string, string_token id); ("result"%string, opaque_token res)]
  | Error id code message _ =>
      opt_entry "id" string_token id
      ++ [("code"%string, string_token (WireErrorCode_as_str code)); ("message"%string, string_token message)]
  | Cancel id => [("id"%string, string_token id)]
  | Subscribe id topic resume_cursor =>
      [("id"%string, string_token id); ("topic"%string, string_token topic)]
      ++ opt_entry "resume_cursor" u64_token resume_cursor
  | SubscribeAck id topic start_cursor =>
      [("id"%string, string_token id); ("topic"%string, string_token topic);
       ("start_cursor"%string, u64_token start_cursor)]
  | Unsubscribe id topic | UnsubscribeAck id topic =>
      [("id"%string, string_token id); ("topic"%string, string_token topic)]
  | Event topic cursor occurred_at payload =>
      [("topic"%string, string_token topic); ("cursor"%string, u64_token cursor);
       ("occurred_at"%string, string_token occurred_at); ("payload"%string, opaque_token payload)]
  end.

(** [serde_json::to_vec(frame)] *)
Definition serialize_frame (frame : Frame) : result bytes string :=
  check? validate_frame_for_serialize frame in
  Ok (write_object (frame_entries frame)).

(** ** The visitor *)

(** Reading the envelope into a [BTreeMap]: a repeated key is refused before
    its value is read. *)
Fixpoint collect_envelope (payload : bytes) (members : list (string * string)) (fin : envelope_end)
    (object : list (string * string)) : result (list (string * string)) string :=
  let duplicate key := custom_display payload ("duplicate envelope field `" +:+ key +:+ "`") in
  match members with
  | (key, value) :: rest =>
      if bm_contains key object then Err (duplicate key)
      else collect_envelope payload rest fin (bm_insert key value object)
  | [] =>
      match fin with
      | Closed => Ok object
      | KeyError e => Err e
      | ValueError key e => if bm_contains key object then Err (duplicate key) else Err e
      end
  end.

(** The types of the payload structs' fields. *)
Inductive FieldType : Type := TVersion | TId | TString | TU64 | TStrings | TOpaque | TCode.

Inductive FieldValue : Type :=
| FVInt (z : Z) | FVString (s : string) | FVStrings (l : list string)
| FVOpaque (v : OpaqueValue) | FVCode (c : WireErrorCode).

(** [OperationId]'s [Deserialize]; [p] is the text being read. *)
Definition de_operation_id (p : bytes) (token : string) : result string string :=
  let? value := de_string token in
  if is_empty value then Err (custom_display p "operation id must be a non-empty string") else Ok value.

Definition decode_token (p : bytes) (t : FieldType) (token : string) : result FieldValue string :=
  match t with
  | TVersion => res_map FVInt (de_u32 token)
  | TId => res_map FVString (de_operation_id p token)
  | TString => res_map FVString (de_string token)
  | TU64 => res_map FVInt (de_u64 token)
  | TStrings => res_map FVStrings (de_strings token)
  | TOpaque => Ok (FVOpaque (Received token))
  | TCode => res_map (λ name, FVCode (code_of_name name)) (de_variant token)
  end.

(** [deny_unknown_fields]: members are read in the order of the text; a member
    that the struct does not declare is refused. *)
Fixpoint read_fields (p : bytes) (fields : list (string * FieldType)) (members : list (string * string))
    : result (list (string * FieldValue)) string :=
  match members with
  | [] => Ok []
  | (key, token) :: rest =>
      match assoc key fields with
      | None => Err (custom_display p (unknown_field key (fields.*1)))
      | Some t =>
          let? v := decode_token p t token in
          let? vs := read_fields p fields rest in
          Ok ((key, v) :: vs)
      end
  end.

(** Required fields, reported missing in declaration order; optional fields
    have a default. *)
Definition required (p : bytes) (vs : list (string * FieldValue)) (key : string) : result FieldValue string :=
  ok_or (assoc key vs) (custom_display p (missing_field key)).

Definition as_fv_int (v : FieldValue) : Z := match v with FVInt z => z | _ => 0 end.
Definition as_fv_string (v : FieldValue) : string := match v with FVString s => s | _ => "" end.
Definition as_fv_strings (v : FieldValue) : list string := match v with FVStrings l => l | _ => [] end.
Definition as_fv_opaque (v : FieldValue) : OpaqueValue := match v with FVOpaque o => o | _ => Local VNull end.
Definition as_fv_code (v : FieldValue) : WireErrorCode := match v with FVCode c => c | _ => Internal end.

Definition HandshakePayload : list (string * FieldType) := [("version"%string, TVersion)].
Definition HandshakeAckPayload : list (string * FieldType) := [("version"%string, TVersion)].
Definition RequestPayload : list (string * FieldType) :=
  [("id", TId); ("ops", TString); ("deadline_ms", TU64); ("namespace", TString);
   ("actor_id", TString); ("visible_namespaces", TStrings)]%string.
Definition ResponsePayload : list (string * FieldType) := [("id", TId); ("result", TOpaque)]%string.
Definition ErrorPayload : list (string * FieldType) :=
  [("id", TId); ("code", TCode); ("message", TString)]%string.
Definition CancelPayload : list (string * FieldType) := [("id"%string, TId)].
Definition SubscribePayload : list (string * FieldType) :=
  [("id", TId); ("topic", TString); ("resume_cursor", TU64)]%string.
Definition SubscribeAckPayload : list (string * FieldType) :=
  [("id", TId); ("topic", TString); ("start_cursor", TU64)]%string.
Definition UnsubscribePayload : list (string * FieldType) := [("id", TId); ("topic", TString)]%string.
Definition UnsubscribeAckPayload : list (string * FieldType) := [("id", TId); ("topic", TString)]%string.
Definition EventPayload : list (string * FieldType) :=
  [("topic", TString); ("cursor", TU64); ("occurred_at", TString); ("payload", TOpaque)]%string.

(** [parse::<T>(&object)]: the members are written out and read again, and
    [build] assembles the struct. *)
Definition parse_struct {T} (fields : list (string * FieldType))
    (build : bytes → list (string * FieldValue) → result T string)
    (object : list (string * string)) : result T string :=
  let p := write_object object in
  match envelope p with
  | (members, Closed) =>
      let? vs := read_fields p fields members in
      let? t := build p vs in
      match trailing p with None => Ok t | Some e => Err e end
  | (members, KeyError e) | (members, ValueError _ e) =>
      let? _ := read_fields p fields members in Err e
  end.

Definition build_version (f : ProtocolVersion → Frame) (p : bytes) (vs : list (string * FieldValue))
    : result Frame string :=
  let? version := required p vs "version" in Ok (f (PV (as_fv_int version))).

Definition build_request (p : bytes) (vs : list (string * FieldValue)) : result Frame string :=
  let? id := required p vs "id" in
  let? ops := required p vs "ops" in
  Ok (Request (as_fv_string id) (as_fv_string ops) (as_fv_int <$> assoc "deadline_ms" vs)
        (as_fv_string <$> assoc "namespace" vs) (as_fv_string <$> assoc "actor_id" vs)
        (as_fv_strings <$> assoc "visible_namespaces" vs)).

Definition build_response (p : bytes) (vs : list (string * FieldValue)) : result Frame string :=
  let? id := required p vs "id" in
  let? res := required p vs "result" in
  Ok (Response (as_fv_string id) (as_fv_opaque res)).

Definition build_error (p : bytes) (vs : list (string * FieldValue))
    : result (option string * WireErrorCode * string) string :=
  let? code := required p vs "code" in
  let? message := required p vs "message" in
  Ok (as_fv_string <$> assoc "id" vs, as_fv_code code, as_fv_string message).

Definition build_cancel (p : bytes) (vs : list (string * FieldValue)) : result Frame string :=
  let? id := required p vs "id" in Ok (Cancel (as_fv_string id)).

Definition build_subscribe (p : bytes) (vs : list (string * FieldValue)) : result Frame string :=
  let? id := required p vs "id" in
  let? topic := required p vs "topic" in
  Ok (Subscribe (as_fv_string id) (as_fv_string topic) (as_fv_int <$> assoc "resume_cursor" vs)).

Definition build_subscribe_ack (p : bytes) (vs : list (string * FieldValue)) : result Frame string :=
  let? id := required p vs "id" in
  let? topic := required p vs "topic" in
  let? start_cursor := required p vs "start_cursor" in
  Ok (SubscribeAck (as_fv_string id) (as_fv_string topic) (as_fv_int start_cursor)).

Definition build_topic (f : string → string → Frame) (p : bytes) (vs : list (string * FieldValue))
    : result Frame string :=
  let? id := required p vs "id" in
  let? topic := required p vs "topic" in
  Ok (f (as_fv_string id) (as_fv_string topic)).

Definition build_event (p : bytes) (vs : list (string * FieldValue)) : result Frame string :=
  let? topic := required p vs "topic" in
  let? cursor := required p vs "cursor" in
  let? occurred_at := required p vs "occurred_at" in
  let? payload := required p vs "payload" in
  Ok (Event (as_fv_string topic) (as_fv_int cursor) (as_fv_string occurred_at) (as_fv_opaque payload)).

(** The [error] arm of the visitor: [custom] places an error in the payload. *)
Definition visit_error (custom : string → string) (object : list (string * string)) : result Frame string :=
  let raw_code := token ← bm_get "code"%string object;
                  match de_string token with Ok s => Some s | Err _ => None end in
  match parse_struct ErrorPayload build_error object with
  | Err e => Err (custom e)
  | Ok (id, code, message) =>
      let code_in_closed_set := match raw_code with Some c => contains WIRE_ERROR_CODES c | None => false end in
      if negb code_in_closed_set && (if id is None then true else false)
      then Err (custom (INCONSISTENT_SCOPE_ERROR_PREFIX +:+ "unknown error code requires an operation id"))
      else
        match (if code_in_closed_set then scope_mismatch code id else None) with
        | Some detail => Err (custom (INCONSISTENT_SCOPE_ERROR_PREFIX +:+ detail))
        | None => Ok (Error id code message (if code_in_closed_set then None else raw_code))
        end
  end.

Definition visit_request (custom : string → string) (object : list (string * string)) : result Frame string :=
  match parse_struct RequestPayload build_request object with
  | Err e => Err (custom e)
  | Ok (Request _ _ (Some 0) _ _ _) => Err (custom "deadline_ms must be a positive integer")
  | Ok frame => Ok frame
  end.

Definition visit_event (custom : string → string) (object : list (string * string)) : result Frame string :=
  match parse_struct EventPayload build_event object with
  | Err e => Err (custom e)
  | Ok (Event topic cursor occurred_at payload) =>
      if negb (OpaqueValue_is_object payload) then Err (custom "event payload must be a JSON object")
      else Ok (Event topic cursor occurred_at payload)
  | Ok frame => Ok frame
  end.

(** The arms without a check of their own. *)
Definition visit_plain (custom : string → string) (fields : list (string * FieldType))
    (build : bytes → list (string * FieldValue) → result Frame string)
    (object : list (string * string)) : result Frame string :=
  match parse_struct fields build object with Err e => Err (custom e) | Ok frame => Ok frame end.

(** [match kind.as_str()] *)
Definition visit_kind (custom : string → string) (kind : string)
    (object : list (string * string)) : result Frame string :=
  if String.eqb kind "handshake" then visit_plain custom HandshakePayload (build_version Handshake) object
  else if String.eqb kind "handshake_ack"
  then visit_plain custom HandshakeAckPayload (build_version HandshakeAck) object
  else if String.eqb kind "request" then visit_request custom object
  else if String.eqb kind "response" then visit_plain custom ResponsePayload build_response object
  else if String.eqb kind "error" then visit_error custom object
  else if String.eqb kind "cancel" then visit_plain custom CancelPayload build_cancel object
  else if String.eqb kind "subscribe" then visit_plain custom SubscribePayload build_subscribe object
  else if String.eqb kind "subscribe_ack"
  then visit_plain custom SubscribeAckPayload build_subscribe_ack object
  else if String.eqb kind "unsubscribe"
  then visit_plain custom UnsubscribePayload (build_topic Unsubscribe) object
  else if String.eqb kind "unsubscribe_ack"
  then visit_plain custom UnsubscribeAckPayload (build_topic UnsubscribeAck) object
  else if String.eqb kind "event" then visit_event custom object
  else Err (custom ("unknown frame kind: " +:+ debug_text kind)).

(** [visit_map] *)
Definition visit_map (payload : bytes) : result Frame string :=
  let custom := custom_display payload in
  let '(members, fin) := envelope payload in
  let? object := collect_envelope payload members fin [] in
  match bm_get "kind"%string object with
  | None => Err (custom "missing field `kind`")
  | Some kind_value =>
      match de_string kind_value with
      | Err _ => Err (custom "field `kind` must be a string")
      | Ok kind => visit_kind custom kind (bm_remove "kind"%string object)
      end
  end.

(** [serde_json::from_slice::<Frame>] *)
Definition from_slice_frame (payload : bytes) : result Frame string :=
  let? frame := visit_map payload in
  match trailing payload with None => Ok frame | Some e => Err e end.

(** ** The codec *)

Definition decode_payload (payload : bytes) : result Frame CodecError :=
  match from_slice_frame payload with
  | Ok frame => Ok frame
  | Err detail =>
      match from_slice_value payload with
      | Err e => Err (InvalidJson e)
      | Ok value =>
          match (k ← value_get "kind" value; as_str k) with
          | None => Err MissingKind
          | Some kind =>
              if negb (contains FRAME_KINDS kind) then Err (UnknownFrameKind kind)
              else Err (match strip_prefix (to_bytes INCONSISTENT_SCOPE_ERROR_PREFIX) (to_bytes detail) with
                        | Some scope_detail => InconsistentErrorScope (of_bytes scope_detail)
                        | None => InvalidFields kind detail
                        end)
          end
      end
  end.

Definition check_encode_payload_len (payload_len max_frame_bytes : Z) : result unit CodecError :=
  if max_frame_bytes <? payload_len then Err (CE_FrameTooLarge payload_len max_frame_bytes)
  else if U32_MAX <? payload_len then Err (U32PrefixLimitExceeded payload_len U32_MAX)
  else Ok ().

(** [(n as u32).to_be_bytes()] and [u32::from_be_bytes]. *)
Definition byte_of (n : Z) : ascii := ascii_of_N (Z.to_N (n mod 256)).
Definition to_be_bytes (n : Z) : bytes :=
  let n := n mod 2 ^ 32 in
  [byte_of (Z.shiftr n 24); byte_of (Z.shiftr n 16); byte_of (Z.shiftr n 8); byte_of n].
Definition from_be_bytes (l : bytes) : Z := foldl (λ acc c, 256 * acc + byte c) 0 l.

Definition len (l : bytes) : Z := Z.of_nat (length l).

Definition encode_frame_with_max (frame : Frame) (max_frame_bytes : Z)
    : result bytes CodecError :=
  check? validate_frame_for_wire frame in
  let? payload := (match serialize_frame frame with Ok b => Ok b | Err e => Err (InvalidJson e) end) in
  check? check_encode_payload_len (len payload) max_frame_bytes in
  Ok (to_be_bytes (len payload) ++ payload).

Definition encode_frame (frame : Frame) : result bytes CodecError :=
  encode_frame_with_max frame DEFAULT_MAX_FRAME_BYTES.

Definition decode_frame_with_consumed (buf : bytes) (max_frame_bytes : Z)
    : result (Frame * Z) CodecError :=
  if (length buf <? LENGTH_PREFIX_BYTES)%nat then Err (TruncatedLengthPrefix (len buf))
  else
    let declared := from_be_bytes (take LENGTH_PREFIX_BYTES buf) in
    if max_frame_bytes <? declared then Err (CE_FrameTooLarge declared max_frame_bytes)
    else
      let available := len buf - Z.of_nat LENGTH_PREFIX_BYTES in
      if available <? declared then Err (TruncatedPayload declared available)
      else
        let payload := take (Z.to_nat declared) (drop LENGTH_PREFIX_BYTES buf) in
        let? frame := decode_payload payload in
        Ok (frame, Z.of_nat LENGTH_PREFIX_BYTES + declared).

Definition decode_frame (buf : bytes) (max_frame_bytes : Z) : result Frame CodecError :=
  res_map fst (decode_frame_with_consumed buf max_frame_bytes).

(** [FrameCodec]: a configured maximum. *)
Record FrameCodec : Type := Codec { codec_max_frame_bytes : Z }.

Definition FrameCodec_default : FrameCodec := Codec DEFAULT_MAX_FRAME_BYTES.

Definition FrameCodec_encode (c : FrameCodec) (frame : Frame) : result bytes CodecError :=
  encode_frame_with_max frame (codec_max_frame_bytes c).

Definition FrameCodec_decode (c : FrameCodec) (buf : bytes) : result Frame CodecError :=
  decode_frame buf (codec_max_frame_bytes c).

Definition FrameCodec_decode_with_consumed (c : FrameCodec) (buf : bytes)
    : result (Frame * Z) CodecError :=
  decode_frame_with_consumed buf (codec_max_frame_bytes c).
End codec.

(** What the wire codec relies on of serde_json, and the abstract wire grammar:
    typed frames, and the frames the protocol allows on the wire. *)

Open Scope Z_scope.

(** Values whose numbers are integers: serde_json reads floats back only up to
    rounding. *)
Fixpoint float_free (v : Value) : bool :=
  match v with
  | VNumber (Float _) => false
  | VArray l => forallb float_free l
  | VObject m => forallb (λ kv, float_free kv.2) m
  | _ => true
  end.

(** Documented behaviour of serde_json: a written object, string, integer or
    list reads back; an enum's variant name may be a JSON string; the compact
    text of a value starts with a brace exactly for objects; typed integers stay
    in their range. [is_token] says that a text is one JSON value without
    surrounding whitespace, which a [RawValue] always is; [json_ok] that numbers
    are finite. *)
Class WireSerdeLaws `{WireSerde} := {
  is_token : string → Prop;
  envelope_write ms : Forall is_token ms.*2 → envelope (write_object ms) = (ms, Closed);
  trailing_write ms : Forall is_token ms.*2 → trailing (write_object ms) = None;
  envelope_token p : Forall is_token (envelope p).1.*2;
  string_token_ok s : is_token (string_token s);
  u64_token_ok z : is_token (u64_token z);
  strings_token_ok l : is_token (strings_token l);
  value_token_ok v : is_token (value_token v);
  de_string_token s : de_string (string_token s) = Ok s;
  de_variant_string t s : de_string t = Ok s → de_variant t = Ok s;
  de_u32_token z : 0 ≤ z < 2 ^ 32 → de_u32 (u64_token z) = Ok z;
  de_u64_token z : 0 ≤ z < 2 ^ 64 → de_u64 (u64_token z) = Ok z;
  de_strings_token l : de_strings (strings_token l) = Ok l;
  raw_value_ok t v : raw_value t = Ok v → json_ok v;
  raw_value_token v : float_free v = true → raw_value (value_token v) = Ok v;
  value_token_object v : starts_with_byte "{"%char (to_bytes (value_token v)) = value_is_object v
}.

#[export] Hint Resolve string_token_ok u64_token_ok strings_token_ok value_token_ok : khive.

Section grammar.
Context `{WireSerdeLaws}.

(** A frame as Rust types it: integers in range, raw tokens valid. *)
Definition opaque_typed (v : OpaqueValue) : Prop :=
  match v with Local _ => True | Received raw => is_token raw end.

Definition u64 (z : Z) : Prop := 0 ≤ z < 2 ^ 64.

Definition frame_typed (f : Frame) : Prop :=
  match f with
  | Handshake v | HandshakeAck v => 0 ≤ version_get v < 2 ^ 32
  | Request _ _ deadline_ms _ _ _ => from_option u64 True deadline_ms
  | Response _ res => opaque_typed res
  | Subscribe _ _ cursor => from_option u64 True cursor
  | SubscribeAck _ _ cursor => u64 cursor
  | Event _ cursor _ payload => u64 cursor ∧ opaque_typed payload
  | _ => True
  end.
End grammar.

(** The wire rules: nonempty operation ids, no version 0, positive deadlines,
    object event payloads, and error frames whose id agrees with their code. *)
Definition id_scope_ok (id : option string) (code : WireErrorCode) : Prop :=
  is_Some id ↔ terminal_scope code = RequestScope.

Definition operation_id (f : Frame) : option string :=
  match f with
  | Handshake _ | HandshakeAck _ | Event _ _ _ _ => None
  | Request id _ _ _ _ _ | Response id _ | Cancel id | Subscribe id _ _ | SubscribeAck id _ _
  | Unsubscribe id _ | UnsubscribeAck id _ => Some id
  | Error id _ _ _ => id
  end.

Definition wire_ok (f : Frame) : Prop :=
  operation_id f ≠ Some ""%string ∧
  match f with
  | Handshake v | HandshakeAck v => version_get v ≠ 0
  | Request _ _ deadline_ms _ _ _ => deadline_ms ≠ Some 0
  | Event _ _ _ payload => OpaqueValue_is_object payload = true
  | Error id code _ unrecognized_code => id_scope_ok id code ∧ unrecognized_code = None
  | _ => True
  end.

(** The frame a peer receives: opaque values become their tokens. *)
Definition received_opaque `{WireSerde} (v : OpaqueValue) : OpaqueValue := Received (opaque_token v).

Definition received `{WireSerde} (f : Frame) : Frame :=
  match f with
  | Response id res => Response id (received_opaque res)
  | Event topic cursor occurred_at payload => Event topic cursor occurred_at (received_opaque payload)
  | _ => f
  end.

Definition opaque_of (f : Frame) : option OpaqueValue :=
  match f with Response _ v | Event _ _ _ v => Some v | _ => None end.

(** ** Error codes *)

Lemma code_of_name_as_str c : code_of_name (WireErrorCode_as_str c) = c.
Proof. by destruct c. Qed.

Lemma contains_iff l s : contains l s = true ↔ s ∈ l.
Proof.
  unfold contains. rewrite existsb_exists. setoid_rewrite String.eqb_eq. setoid_rewrite <-list_elem_of_In.
  naive_solver.
Qed.

Lemma WIRE_ERROR_CODES_all : WIRE_ERROR_CODES = WireErrorCode_as_str <$> all_codes.
Proof. done. Qed.

Lemma all_codes_complete c : c ∈ all_codes.
Proof. destruct c; unfold all_codes; set_solver. Qed.

Lemma known_code s : s ∈ WIRE_ERROR_CODES ↔ WireErrorCode_as_str (code_of_name s) = s.
Proof.
  rewrite WIRE_ERROR_CODES_all, list_elem_of_fmap. split.
  - intros (c & -> & _). by rewrite code_of_name_as_str.
  - intros Hs. exists (code_of_name s). split; [done|apply all_codes_complete].
Qed.

Lemma unknown_code s : s ∉ WIRE_ERROR_CODES → code_of_name s = Internal.
Proof.
  intros Hs. unfold code_of_name. destruct (list_find _ all_codes) as [[i c]|] eqn:E; [|done].
  apply list_find_Some in E as (_ & Hc & _). destruct Hs. rewrite known_code, <-Hc.
  by rewrite code_of_name_as_str.
Qed.

Lemma scope_mismatch_None code id : scope_mismatch code id = None ↔ id_scope_ok id code.
Proof.
  unfold scope_mismatch, id_scope_ok, is_Some. destruct (terminal_scope code), id; naive_solver.
Qed.

(** ** Validation *)

Lemma check_bind_Ok {B E} (m : Prelude.result unit E) (k : Prelude.result B E) b :
  (check? m in k) = Ok b ↔ m = Ok () ∧ k = Ok b.
Proof. rewrite res_bind_Ok. split; [by intros ([] & ? & ?)|]. intros []. by exists (). Qed.

Lemma is_empty_true s : is_empty s = true ↔ s = ""%string.
Proof. by destruct s. Qed.

Lemma check_id_Ok kind id : check_id kind id = Ok () ↔ id ≠ ""%string.
Proof. unfold check_id. by destruct id. Qed.

Lemma check_version_Ok kind v : check_version kind v = Ok () ↔ version_get v ≠ 0.
Proof. unfold check_version. destruct (Z.eqb_spec (version_get v) 0); naive_solver. Qed.

Lemma validate_frame_for_wire_Ok f : validate_frame_for_wire f = Ok () ↔ wire_ok f.
Proof.
  unfold wire_ok. destruct f as [v|v|id ops d n a vs|id r|id code msg raw|id|id t c|id t c|id t|id t|t c o p]; simpl.
  3:{ rewrite check_bind_Ok, check_id_Ok. destruct (decide (d = Some 0)); naive_solver. }
  4:{ destruct raw as [raw|]; [naive_solver|]. rewrite check_bind_Ok, <-(scope_mismatch_None code id).
      destruct id as [i|]; [rewrite check_id_Ok|]; destruct (scope_mismatch _ _); naive_solver. }
  all: rewrite ?check_version_Ok, ?check_id_Ok; try naive_solver.
  destruct (OpaqueValue_is_object p); naive_solver.
Qed.

(** The two validators accept the same frames. *)
Lemma validators_agree `{WireSerde} f :
  validate_frame_for_serialize f = Ok () ↔ validate_frame_for_wire f = Ok ().
Proof.
  assert (Hi : ∀ k i, serialize_check_id k i = Ok () ↔ check_id k i = Ok ()) by (by intros k []).
  assert (Hs : ∀ k v, serialize_check_version k v = Ok () ↔ check_version k v = Ok ()).
  { intros k v. unfold serialize_check_version, check_version. by destruct (_ =? 0). }
  destruct f as [v|v|id ops d n a vs|id r|id code msg raw|id|id t c|id t c|id t|id t|t c o p]; simpl; try done.
  - rewrite !check_bind_Ok, Hi. destruct (decide (d = Some 0)); naive_solver.
  - destruct raw as [raw|]; [naive_solver|]. rewrite !check_bind_Ok.
    destruct id as [i|]; [rewrite Hi|]; destruct (scope_mismatch _ _); naive_solver.
  - by destruct (OpaqueValue_is_object p).
Qed.

Lemma serialize_frame_ok `{WireSerde} f :
  validate_frame_for_wire f = Ok () → serialize_frame f = Ok (write_object (frame_entries f)).
Proof. unfold serialize_frame. by intros ->%validators_agree. Qed.
