(* ===== verification/WireFacts.v ===== *)
(** khive-wire-protocol, framing theorems. *)

From Stdlib Require Import String Ascii ZArith.
From stdpp Require Import base tactics list sets numbers strings.
From S2P Require Import Prelude RustStr Json Archive Scan Wire WireCodec.
Open Scope Z_scope.

(** ** The length prefix *)

Lemma byte_byte_of n : byte (byte_of n) = n mod 256.
Proof.
  unfold byte, byte_of. pose proof (Z.mod_pos_bound n 256). rewrite N_ascii_embedding by lia. lia.
Qed.

Lemma from_to_be_bytes n : 0 ≤ n < 2 ^ 32 → from_be_bytes (to_be_bytes n) = n.
Proof.
  intros Hn. unfold from_be_bytes, to_be_bytes. cbn [foldl]. rewrite (Z.mod_small n (2 ^ 32)), !byte_byte_of by done.
  rewrite !Z.shiftr_div_pow2 by lia. change (2 ^ 24) with (256 * (256 * 256)).
  change (2 ^ 16) with (256 * 256). change (2 ^ 8) with 256.
  rewrite <-!Z.div_div by lia.
  pose proof (Z.div_mod n 256). pose proof (Z.div_mod (n / 256) 256).
  pose proof (Z.div_mod (n / 256 / 256) 256).
  rewrite (Z.mod_small (n / 256 / 256 / 256)); [lia|].
  rewrite !Z.div_div by lia. split; [apply Z.div_pos; lia|]. apply Z.div_lt_upper_bound; lia.
Qed.

Lemma to_be_bytes_length n : length (to_be_bytes n) = 4%nat.
Proof. done. Qed.

Lemma len_prefixed n p : len (to_be_bytes n ++ p) = 4 + len p.
Proof. unfold len. rewrite length_app, to_be_bytes_length. lia. Qed.

Lemma from_be_bytes_range l : 0 ≤ from_be_bytes l < 256 ^ len l.
Proof.
  unfold from_be_bytes, len. induction l as [|c l IH] using rev_ind; [done|].
  rewrite foldl_app, length_app. cbn [foldl length]. rewrite Nat2Z.inj_add, Z.pow_add_r by lia.
  pose proof (byte_range c). simpl Z.of_nat. lia.
Qed.

(** ** Reading back the members of a frame *)

Section facts.
Context `{WireSerdeLaws}.

(** Distinct keys are all collected. *)
Lemma collect_envelope_Ok p ms m :
  NoDup (ms.*1 ++ m.*1) → bm_wf m →
  collect_envelope p ms Closed m = Ok (foldl (λ m kv, bm_insert kv.1 kv.2 m) m ms).
Proof.
  revert m. induction ms as [|[k v] ms IH]; intros m Hd Hm; simpl; [done|].
  simpl in Hd. apply NoDup_cons in Hd as [Hk Hd].
  assert (bm_contains k m = false) as ->.
  { apply not_true_is_false. rewrite bm_contains_key by done. set_solver. }
  apply IH; [|by apply bm_insert_wf]. clear IH. rewrite NoDup_app in Hd |- *.
  setoid_rewrite bm_insert_keys. destruct Hd as (H1 & H2 & H3). split_and!; [done|set_solver|].
  apply cmp_sorted_NoDup, bm_insert_wf, Hm.
Qed.

Lemma read_fields_Ok p fields ms vs :
  Forall2 (λ kv w, w.1 = kv.1 ∧ ∃ t, assoc kv.1 fields = Some t ∧ decode_token p t kv.2 = Ok w.2) ms vs →
  read_fields p fields ms = Ok vs.
Proof.
  induction 1 as [|[k tok] [k' v] ms vs (Hk & t & Ht & Hv) _ IH]; simpl in *; [done|].
  subst. by rewrite Ht, Hv, IH.
Qed.

Lemma parse_struct_Ok {T} fields build object vs (t : T) :
  Forall is_token object.*2 →
  read_fields (write_object object) fields object = Ok vs →
  build (write_object object) vs = Ok t → parse_struct fields build object = Ok t.
Proof.
  intros Hi Hr Hb. unfold parse_struct. rewrite envelope_write by done. rewrite Hr. cbn [res_bind].
  rewrite Hb. cbn [res_bind]. by rewrite trailing_write.
Qed.

Lemma opaque_token_ok v : opaque_typed v → is_token (opaque_token v).
Proof. destruct v; simpl; auto with khive. Qed.

Lemma opt_entry_ok {A} key (token : A → string) o :
  (∀ a, is_token (token a)) → Forall is_token (opt_entry key token o).*2.
Proof. intros Ht. destruct o; simpl; auto. Qed.

Lemma frame_entries_ok f : frame_typed f → Forall is_token (frame_entries f).*2.
Proof.
  destruct f; simpl; intros Ht; rewrite ?fmap_app, ?Forall_cons, ?Forall_app; simpl;
    repeat (split || constructor); auto using opt_entry_ok with khive; try (apply opaque_token_ok; naive_solver).
Qed.

Lemma received_is_object v :
  OpaqueValue_is_object (received_opaque v) = OpaqueValue_is_object v.
Proof. destruct v; simpl; [apply value_token_object|done]. Qed.

Ltac split_opts :=
  repeat match goal with |- context [opt_entry _ _ ?o] => is_var o; destruct o end;
  cbn [opt_entry app].

Lemma frame_entries_nodup f : NoDup (frame_entries f).*1.
Proof.
  destruct f; unfold frame_entries; split_opts; (apply (bool_decide_unpack _); vm_compute; exact I).
Qed.

(** What the visitor finds in the envelope of a written frame. *)
Lemma frame_envelope f :
  frame_typed f →
  (let '(members, fin) := envelope (write_object (frame_entries f)) in
   collect_envelope (write_object (frame_entries f)) members fin []) = Ok (bm_of_list (frame_entries f)).
Proof.
  intros Ht. rewrite envelope_write by (by apply frame_entries_ok).
  apply collect_envelope_Ok; [|constructor]. rewrite app_nil_r. apply frame_entries_nodup.
Qed.

(** Each written token decodes to its value. *)
Lemma read_fields_cons p fields key token t v rest vs :
  assoc key fields = Some t → decode_token p t token = Ok v → read_fields p fields rest = Ok vs →
  read_fields p fields ((key, token) :: rest) = Ok ((key, v) :: vs).
Proof. intros Ht Hv Hr. simpl. by rewrite Ht, Hv, Hr. Qed.

Lemma decode_id p i : i ≠ ""%string → decode_token p TId (string_token i) = Ok (FVString i).
Proof. intros Hi. unfold decode_token, de_operation_id. rewrite de_string_token. by destruct i. Qed.
Lemma decode_string p i : decode_token p TString (string_token i) = Ok (FVString i).
Proof. simpl. by rewrite de_string_token. Qed.
Lemma decode_version p z : 0 ≤ z < 2 ^ 32 → decode_token p TVersion (u64_token z) = Ok (FVInt z).
Proof. intros Hz. simpl. by rewrite de_u32_token. Qed.
Lemma decode_u64 p z : u64 z → decode_token p TU64 (u64_token z) = Ok (FVInt z).
Proof. intros Hz. simpl. by rewrite de_u64_token. Qed.
Lemma decode_strings p l : decode_token p TStrings (strings_token l) = Ok (FVStrings l).
Proof. simpl. by rewrite de_strings_token. Qed.
Lemma decode_opaque p v : decode_token p TOpaque (opaque_token v) = Ok (FVOpaque (received_opaque v)).
Proof. done. Qed.
Lemma decode_code p c :
  decode_token p TCode (string_token (WireErrorCode_as_str c)) = Ok (FVCode c).
Proof. simpl. rewrite (de_variant_string _ _ (de_string_token _)). simpl. by rewrite code_of_name_as_str. Qed.

Lemma visit_plain_Ok custom fields build object f :
  parse_struct fields build object = Ok f → visit_plain custom fields build object = Ok f.
Proof. unfold visit_plain. by intros ->. Qed.

Lemma visit_request_Ok custom object id ops d n a vs :
  parse_struct RequestPayload build_request object = Ok (Request id ops d n a vs) → d ≠ Some 0 →
  visit_request custom object = Ok (Request id ops d n a vs).
Proof. unfold visit_request. intros -> Hd. by destruct d as [[]|]. Qed.

Lemma visit_event_Ok custom object t c o p :
  parse_struct EventPayload build_event object = Ok (Event t c o p) → OpaqueValue_is_object p = true →
  visit_event custom object = Ok (Event t c o p).
Proof. unfold visit_event. by intros -> ->. Qed.

Lemma visit_error_Ok custom object id code message :
  bm_get "code"%string object = Some (string_token (WireErrorCode_as_str code)) →
  parse_struct ErrorPayload build_error object = Ok (id, code, message) → id_scope_ok id code →
  visit_error custom object = Ok (Error id code message None).
Proof.
  unfold visit_error. intros -> -> Hs%scope_mismatch_None. cbn [mbind option_bind].
  rewrite de_string_token. cbn beta iota.
  assert (contains WIRE_ERROR_CODES (WireErrorCode_as_str code) = true) as ->.
  { apply contains_iff. rewrite known_code. by rewrite code_of_name_as_str. }
  cbn [negb andb]. by rewrite Hs.
Qed.

(** Compute the object of a written frame and read it field by field. *)
Ltac field_step :=
  eapply read_fields_cons; [reflexivity|first [apply decode_id; congruence|by apply decode_string|by apply decode_version
    |by apply decode_u64|by apply decode_strings|by apply decode_opaque|by apply decode_code]|].
Ltac read_object :=
  eapply parse_struct_Ok; [cbn; repeat (apply Forall_cons; split); auto using Forall_nil_2, opaque_token_ok with khive
                          |repeat field_step; reflexivity|try reflexivity].
Ltac compute_object :=
  cbv -[WireErrorCode_as_str visit_kind string_token u64_token strings_token opaque_token de_string custom_display version_get received];
  rewrite de_string_token; lazy beta iota delta [visit_kind String.eqb Ascii.eqb Bool.eqb].

Lemma visit_map_received f :
  frame_typed f → wire_ok f → visit_map (write_object (frame_entries f)) = Ok (received f).
Proof.
  intros Ht [Hi Hw]. pose proof (frame_envelope f Ht) as He. unfold visit_map.
  destruct (envelope _) as [ms fin]. rewrite He. clear He. cbn [res_bind].
  generalize (write_object (frame_entries f)) as p. intros p.
  destruct f as [v|v|id ops d n a vs|id r|id code msg raw|id|id t c|id t c|id t|id t|t c o p'];
    cbn [frame_typed operation_id] in Ht, Hi; unfold frame_entries; split_opts; compute_object.
  all: try (apply visit_plain_Ok; read_object; first [done|by destruct v]).
  all: try (by apply visit_request_Ok; [read_object|]).
  - destruct Hw as [Hs ->]. apply visit_error_Ok; [reflexivity|read_object|done].
  - destruct Hw as [Hs ->]. apply visit_error_Ok; [reflexivity|read_object|done].
  - destruct Ht as [Hc Hp]. apply visit_event_Ok; [read_object|by rewrite received_is_object].
Qed.

Lemma decode_payload_received f :
  frame_typed f → wire_ok f → decode_payload (write_object (frame_entries f)) = Ok (received f).
Proof.
  intros Ht Hw. unfold decode_payload, from_slice_frame. rewrite visit_map_received by done. cbn [res_bind].
  by rewrite trailing_write by (by apply frame_entries_ok).
Qed.

(** ** The codec *)

(** Encoding fails for exactly one of three reasons. *)
Definition encode_outcome (f : Frame) (max : Z) (r : Prelude.result bytes CodecError) : Prop :=
  let n := len (write_object (frame_entries f)) in
  match r with
  | Ok buf => wire_ok f ∧ n ≤ max ∧ n ≤ U32_MAX ∧ buf = to_be_bytes n ++ write_object (frame_entries f)
  | Err (CE_FrameTooLarge d m) => wire_ok f ∧ max < n ∧ (d, m) = (n, max)
  | Err (U32PrefixLimitExceeded d m) => wire_ok f ∧ n ≤ max ∧ U32_MAX < n ∧ (d, m) = (n, U32_MAX)
  | Err e => ¬ wire_ok f ∧ validate_frame_for_wire f = Err e ∧
             match e with
             | InvalidFields kind _ => kind = Frame_kind f ∧
                 ∀ id code msg raw, f = Error id code msg raw → id = Some ""%string ∧ raw = None
             | InconsistentErrorScope _ => ∃ id code msg, f = Error id code msg None ∧ ¬ id_scope_ok id code
             | FallbackFrameNotEncodable code => ∃ id c msg, f = Error id c msg (Some code)
             | _ => False
             end
  end.

Lemma check_id_Err kind id e :
  check_id kind id = Err e → id = ""%string ∧ ∃ d, e = InvalidFields kind d.
Proof. unfold check_id. destruct id; simpl; naive_solver. Qed.

Lemma validate_frame_for_wire_Err f e : validate_frame_for_wire f = Err e →
  match e with
  | InvalidFields kind _ => kind = Frame_kind f ∧
      ∀ id code msg raw, f = Error id code msg raw → id = Some ""%string ∧ raw = None
  | InconsistentErrorScope _ => ∃ id code msg, f = Error id code msg None ∧ ¬ id_scope_ok id code
  | FallbackFrameNotEncodable code => ∃ id c msg, f = Error id c msg (Some code)
  | _ => False
  end.
Proof.
  destruct f as [v|v|id ops d n a vs|id r|id code msg raw|id|id t c|id t c|id t|id t|t c o p]; simpl;
    try (intros [_ [? ->]]%check_id_Err; naive_solver).
  1,2: unfold check_version; case_match; naive_solver.
  - intros [[_ [? ->]]%check_id_Err|(? & _ & Hd)]%res_bind_Err; [naive_solver|]. case_decide; naive_solver.
  - destruct raw as [raw|]; [naive_solver|]. intros [Hi|(? & _ & Hd)]%res_bind_Err.
    + destruct id as [id|]; [|done]. apply check_id_Err in Hi as [-> [? ->]]. naive_solver.
    + destruct (scope_mismatch code id) eqn:E; [|done]. simplify_eq/=. exists id, code, msg.
      split; [done|]. rewrite <-scope_mismatch_None. congruence.
  - destruct (OpaqueValue_is_object p); naive_solver.
Qed.

(** Encoding a frame succeeds exactly when the frame obeys the wire rules
    and its payload fits both the configured maximum and the length prefix; every
    failure names its reason, and a refused serialization is never one. *)
Theorem encode_frame_spec f max : encode_outcome f max (encode_frame_with_max f max).
Proof.
  unfold encode_frame_with_max. destruct (validate_frame_for_wire f) as [[]|e] eqn:Ev; cbn [res_bind].
  - rewrite serialize_frame_ok by done. apply validate_frame_for_wire_Ok in Ev. cbn [res_bind].
    unfold check_encode_payload_len. set (n := len _).
    destruct (Z.ltb_spec max n); [simpl; fold n; naive_solver lia|].
    destruct (Z.ltb_spec U32_MAX n); simpl; fold n; naive_solver lia.
  - assert (Hw : ¬ wire_ok f) by (rewrite <-validate_frame_for_wire_Ok; congruence).
    pose proof (validate_frame_for_wire_Err f e Ev) as He. by destruct e.
Qed.

Lemma encode_Ok f max buf :
  encode_frame_with_max f max = Ok buf →
  let p := write_object (frame_entries f) in
  wire_ok f ∧ len p ≤ max ∧ len p ≤ U32_MAX ∧ buf = to_be_bytes (len p) ++ p.
Proof.
  intros He. unfold encode_frame_with_max in He. apply check_bind_Ok in He as [Hv He].
  rewrite serialize_frame_ok in He by done. cbn [res_bind] in He. apply check_bind_Ok in He as [Hc He].
  unfold check_encode_payload_len in Hc. apply validate_frame_for_wire_Ok in Hv. cbv zeta.
  destruct (Z.ltb_spec max (len (write_object (frame_entries f)))); [done|].
  destruct (Z.ltb_spec U32_MAX (len (write_object (frame_entries f)))); [done|]. naive_solver.
Qed.

(** Decoding a buffer that starts with a prefix and its payload. *)
Lemma decode_prefixed p rest max :
  len p ≤ max → len p ≤ U32_MAX →
  decode_frame_with_consumed (to_be_bytes (len p) ++ p ++ rest) max =
  res_map (λ f, (f, 4 + len p)) (decode_payload p).
Proof.
  intros Hm Hu. unfold decode_frame_with_consumed, LENGTH_PREFIX_BYTES.
  assert (Hn : 0 ≤ len p < 2 ^ 32) by (unfold len, U32_MAX in *; lia).
  destruct (Nat.ltb_spec (length (to_be_bytes (len p) ++ p ++ rest)) 4) as [Hl|_].
  { rewrite length_app, to_be_bytes_length in Hl. lia. }
  rewrite take_app_length', drop_app_length' by done. rewrite from_to_be_bytes by done.
  destruct (Z.ltb_spec max (len p)); [lia|].
  unfold len at 1. rewrite !length_app, to_be_bytes_length.
  destruct (Z.ltb_spec (Z.of_nat (4 + (length p + length rest)) - Z.of_nat 4) (len p)).
  { unfold len in *. lia. }
  unfold len at 1. rewrite Nat2Z.id, take_app_length.
  by destruct (decode_payload p).
Qed.

(** [PartialEq] identifies an opaque value and the token received for it. *)
Lemma received_opaque_eq v :
  match v with Local w => float_free w = true ∧ json_ok w | Received _ => True end →
  OpaqueValue_eqb v (received_opaque v) = true.
Proof.
  destruct v as [w|raw]; unfold OpaqueValue_eqb; simpl.
  - intros [Hf Hj]. rewrite raw_value_token by done. by apply value_eqb_refl.
  - intros _. destruct (raw_value raw) eqn:E; [by eapply value_eqb_refl, raw_value_ok|apply String.eqb_refl].
Qed.

Lemma encode_received f max buf :
  encode_frame_with_max f max = Ok buf → encode_frame_with_max (received f) max = Ok buf.
Proof.
  intros He. destruct (encode_Ok f max buf He) as ([Hi Hw] & Hm & Hu & ->).
  assert (Hr : wire_ok (received f)).
  { destruct f; simpl in *; split; try done. by rewrite received_is_object. }
  unfold encode_frame_with_max. rewrite (proj2 (validate_frame_for_wire_Ok _) Hr). cbn [res_bind].
  rewrite serialize_frame_ok by (by apply validate_frame_for_wire_Ok). cbn [res_bind].
  replace (frame_entries (received f)) with (frame_entries f) by (by destruct f).
  unfold check_encode_payload_len.
  destruct (Z.ltb_spec max (len (write_object (frame_entries f)))); [lia|].
  by destruct (Z.ltb_spec U32_MAX (len (write_object (frame_entries f)))); [lia|].
Qed.

End facts.
