(* ===== verification/WireDecode.v ===== *)
(** khive-wire-protocol, decoding theorems: what a decoder accepts and how it
    refuses; and a concrete serializer that satisfies the laws of the codec. *)

From Stdlib Require Import String Ascii ZArith.
From stdpp Require Import base tactics countable list sets numbers strings.
From S2P Require Import Prelude RustStr Json Archive Scan Wire WireCodec WireFacts.

Open Scope Z_scope.

Section decode.
Context `{WireSerdeLaws}.

(** ** Inversion of the struct readers *)

Lemma read_fields_inv p fields ms vs key v :
  read_fields p fields ms = Ok vs → assoc key vs = Some v →
  ∃ token t, assoc key fields = Some t ∧ decode_token p t token = Ok v ∧ (key, token) ∈ ms.
Proof.
  revert vs. induction ms as [|[k token] ms IH]; simpl; intros vs Hr Ha; [by simplify_eq|].
  destruct (assoc k fields) as [t|] eqn:Ek; [|done].
  apply res_bind_Ok in Hr as (w & Hw & Hr). apply res_bind_Ok in Hr as (ws & Hws & [= <-]).
  simpl in Ha. destruct (String.eqb_spec k key) as [->|].
  - simplify_eq. exists token, t. split_and!; [done..|left].
  - destruct (IH ws Hws Ha) as (tk & t' & ? & ? & ?). exists tk, t'. split_and!; [done..|by right].
Qed.

Lemma parse_struct_inv {T} fields build object (t : T) :
  Forall is_token object.*2 → parse_struct fields build object = Ok t →
  ∃ vs, read_fields (write_object object) fields object = Ok vs ∧ build (write_object object) vs = Ok t.
Proof.
  intros Hi. unfold parse_struct. rewrite envelope_write by done.
  intros (vs & Hv & (t' & Ht & Hr)%res_bind_Ok)%res_bind_Ok. exists vs. split; [done|].
  rewrite trailing_write in Hr by done. congruence.
Qed.

(** An [id] field that was read is a nonempty string. *)
Lemma read_id p fields ms vs v :
  read_fields p fields ms = Ok vs → assoc "id"%string fields = Some TId →
  assoc "id"%string vs = Some v → as_fv_string v ≠ ""%string.
Proof.
  intros Hr Hf Hv. destruct (read_fields_inv _ _ _ _ _ _ Hr Hv) as (token & t & Ht & Hd & _).
  rewrite Hf in Ht. injection Ht as <-. simpl in Hd. unfold de_operation_id in Hd.
  destruct (de_string token) as [s|]; [|done]. simpl in Hd. destruct (is_empty s) eqn:E; [done|].
  simplify_eq/=. by intros ->.
Qed.

Lemma required_Ok p vs key v : required p vs key = Ok v ↔ assoc key vs = Some v.
Proof. unfold required. destruct (assoc key vs); simpl; naive_solver. Qed.

Lemma collect_envelope_token p ms fin m obj :
  Forall is_token ms.*2 → Forall is_token m.*2 → collect_envelope p ms fin m = Ok obj → Forall is_token obj.*2.
Proof.
  revert m. induction ms as [|[k v] ms IH]; simpl; intros m Hms Hm Hc.
  - destruct fin as [| |]; try done; [by simplify_eq|by case_match].
  - apply Forall_cons in Hms as [Hv Hms]. destruct (bm_contains k m); [done|]. eapply IH; [done| |done].
    rewrite Forall_fmap in Hm |- *. by apply bm_insert_Forall.
Qed.

Lemma bm_remove_token key (m : list (string * string)) : Forall is_token m.*2 → Forall is_token ((bm_remove key m).*2).
Proof.
  intros Hm. unfold bm_remove. rewrite !Forall_fmap, Forall_forall in Hm |- *. intros x.
  rewrite list_elem_of_In, filter_In, <-list_elem_of_In. by intros [? _]; apply Hm.
Qed.

Lemma bm_remove_wf {V} key (m : list (string * V)) : bm_wf m → bm_wf (bm_remove key m).
Proof.
  induction m as [|[k v] m IH]; simpl; [done|]. rewrite bm_wf_cons. intros [Hk Hm].
  destruct (negb _); [|by apply IH]. apply bm_wf_cons. split; [|by apply IH].
  rewrite Forall_fmap, Forall_forall in Hk |- *. intros x Hx. apply Hk. unfold bm_remove in Hx.
  rewrite list_elem_of_In, filter_In, <-list_elem_of_In in Hx. by destruct Hx.
Qed.

Lemma bm_remove_elem {V} key (m : list (string * V)) kv : kv ∈ bm_remove key m ↔ kv ∈ m ∧ kv.1 ≠ key.
Proof.
  unfold bm_remove. rewrite !list_elem_of_In, filter_In. destruct (String.eqb_spec kv.1 key); simpl; naive_solver.
Qed.

Lemma collect_envelope_elem p ms fin m obj :
  bm_wf m → collect_envelope p ms fin m = Ok obj → bm_wf obj ∧ ∀ kv, kv ∈ obj ↔ kv ∈ ms ∨ kv ∈ m.
Proof.
  revert m. induction ms as [|[k v] ms IH]; simpl; intros m Hm Hc.
  - destruct fin as [| |]; [simplify_eq|done|by case_match]. split; [done|set_solver].
  - destruct (bm_contains k m) eqn:Ek; [done|].
    destruct (IH (bm_insert k v m)) as [Ho He]; [by apply bm_insert_wf|done|]. split; [done|].
    assert (Hk : bm_get k m = None).
    { unfold bm_contains in Ek. by destruct (bm_get k m). }
    intros [k' v']. rewrite He, elem_of_cons. rewrite (elem_of_bm_get k' v' m), (elem_of_bm_get k' v' (bm_insert k v m)) by (try apply bm_insert_wf; done).
    destruct (decide (k' = k)) as [->|Hne].
    + rewrite bm_get_insert_eq, Hk. naive_solver.
    + rewrite bm_get_insert_ne by done. naive_solver.
Qed.

(** ** The grammar of accepted frames *)

(** The [code] member of a payload, when it is written as a string. *)
Definition code_string (p : bytes) (s : string) : Prop :=
  ∃ token, ("code"%string, token) ∈ (envelope p).1 ∧ de_string token = Ok s.

(** What the visitor leaves of each kind. An [error] frame is one the protocol allows,
    or a fallback for an unknown code with an operation id, or else its code was not
    written as a string, and then it has an operation id. *)
Definition visited_ok (p : bytes) (f : Frame) : Prop :=
  operation_id f ≠ Some ""%string ∧
  match f with
  | Request _ _ deadline_ms _ _ _ => deadline_ms ≠ Some 0
  | Event _ _ _ payload => OpaqueValue_is_object payload = true
  | Error id code _ (Some raw) => is_Some id ∧ code_string p raw ∧ (raw ∉ WIRE_ERROR_CODES) ∧ code = Internal
  | Error id code _ None =>
      (code_string p (WireErrorCode_as_str code) ∧ id_scope_ok id code) ∨
      (is_Some id ∧ ∀ s, ¬ code_string p s)
  | _ => True
  end.

(** What the decoder judges: of a handshake or its acknowledgment, one that names a
    version there is; of an error, one whose code is written as a string. *)
Definition judged (p : bytes) (f : Frame) : Prop :=
  match f with
  | Handshake v | HandshakeAck v => version_get v ≠ 0
  | Error _ _ _ _ => ∃ s, code_string p s
  | _ => True
  end.

(** A judged frame is one that the encoder takes, with the code that the payload
    spells; or the fallback for a code that is spelled outside the closed set, which
    only an operation can have. *)
Definition decoded_ok (p : bytes) (f : Frame) : Prop :=
  operation_id f ≠ Some ""%string ∧
  (judged p f →
   match f with
   | Error id code _ (Some raw) => is_Some id ∧ code_string p raw ∧ (raw ∉ WIRE_ERROR_CODES) ∧ code = Internal
   | Error _ code _ None => validate_frame_for_wire f = Ok () ∧ code_string p (WireErrorCode_as_str code)
   | _ => validate_frame_for_wire f = Ok ()
   end).

Lemma visited_decoded p f : visited_ok p f → decoded_ok p f.
Proof.
  intros [Hid Hv]. split; [done|]. intros Hj.
  destruct f as [v|v|id ops d n a vs|id r|id code msg [raw|]|id|id t c|id t c|id t|id t|t c o q]; try done.
  all: try (rewrite validate_frame_for_wire_Ok; by split).
  destruct Hv as [[Hc Hs]|[_ Hn]]; [|by destruct Hj as [s Hs%Hn]].
  split; [|done]. rewrite validate_frame_for_wire_Ok. by split.
Qed.

Local Ltac inv_build :=
  repeat match goal with
  | Hb : res_bind _ _ = Ok _ |- _ => apply res_bind_Ok in Hb as (? & ?%required_Ok & Hb)
  end; simplify_eq/=.

Lemma visit_plain_inv custom fields build object f :
  Forall is_token object.*2 → visit_plain custom fields build object = Ok f →
  ∃ vs, read_fields (write_object object) fields object = Ok vs ∧ build (write_object object) vs = Ok f.
Proof.
  intros Hi. unfold visit_plain. destruct (parse_struct fields build object) eqn:E; [|done].
  intros [= <-]. by apply parse_struct_inv.
Qed.

Lemma build_error_inv p vs id code message :
  build_error p vs = Ok (id, code, message) →
  id = as_fv_string <$> assoc "id"%string vs ∧ ∃ c, assoc "code"%string vs = Some c ∧ code = as_fv_code c.
Proof. unfold build_error. intros Hb. inv_build. eauto. Qed.

(** The [error] arm. *)
Lemma visit_error_inv custom p object f :
  bm_wf object → Forall is_token object.*2 →
  (∀ token, ("code"%string, token) ∈ object ↔ ("code"%string, token) ∈ (envelope p).1) →
  visit_error custom object = Ok f → visited_ok p f.
Proof.
  intros Hwf Htok Hmem. unfold visit_error.
  destruct (parse_struct ErrorPayload build_error object) as [[[id code] message]|] eqn:E; [|done].
  apply parse_struct_inv in E as (vs & Hr & [Hid (c & Hc & ->)]%build_error_inv); [|done].
  assert (Hi : id ≠ Some ""%string).
  { destruct (assoc "id" vs) as [v|] eqn:Ev; [|by rewrite Hid].
    pose proof (read_id _ _ _ _ _ Hr eq_refl Ev). subst. simpl. congruence. }
  destruct (read_fields_inv _ _ _ _ _ _ Hr Hc) as (token & t & Ht & Hd & Hin).
  injection Ht as <-. simpl in Hd.
  assert (Hg : bm_get "code"%string object = Some token) by (by apply elem_of_bm_get).
  rewrite Hg. cbn [mbind option_bind].
  assert (Hu : ∀ s, code_string p s ↔ de_string token = Ok s).
  { intros s. split; [intros (tk & Hk%Hmem & Hs)|intros Hs; exists token; split; [by apply Hmem|done]].
    apply elem_of_bm_get in Hk; [|done]. congruence. }
  destruct (de_string token) as [s|] eqn:Es.
  - rewrite (de_variant_string _ _ Es) in Hd. injection Hd as <-. cbn [as_fv_code].
    destruct (contains WIRE_ERROR_CODES s) eqn:Ek; cbn [negb andb].
    + apply contains_iff, known_code in Ek. destruct (scope_mismatch _ _) eqn:Esc; [done|]. intros [= <-].
      apply scope_mismatch_None in Esc. split; [done|]. left.
      split; [apply Hu; congruence|done].
    + assert (Hs : s ∉ WIRE_ERROR_CODES) by (rewrite <-contains_iff; congruence).
      destruct id as [i|]; [|done]. intros [= <-]. split; [done|].
      split_and!; [by eexists|by apply Hu|done|by apply unknown_code].
  - cbn [negb andb]. destruct id as [i|]; [|done]. cbn. intros [= <-]. split; [done|]. right.
    split; [by eexists|]. intros s Hs%Hu. congruence.
Qed.

Lemma visit_error_kind custom object f : visit_error custom object = Ok f → Frame_kind f = "error"%string.
Proof. unfold visit_error. intros Hv. repeat case_match; by simplify_eq/=. Qed.

(** The arms whose payload struct starts with a required operation id. *)
Lemma visit_plain_id custom fields build object f (mk : string → Frame) :
  Forall is_token object.*2 → assoc "id"%string fields = Some TId →
  (∀ p vs g, build p vs = Ok g → ∃ v, assoc "id"%string vs = Some v ∧
     operation_id g = Some (as_fv_string v) ∧ Frame_kind g = Frame_kind (mk ""%string)) →
  visit_plain custom fields build object = Ok f →
  operation_id f ≠ Some ""%string ∧ Frame_kind f = Frame_kind (mk ""%string).
Proof.
  intros Hi Hf Hb (vs & Hr & Hg)%visit_plain_inv; [|done].
  destruct (Hb _ _ _ Hg) as (v & Hv & -> & ->). split; [|done].
  pose proof (read_id _ _ _ _ _ Hr Hf Hv). congruence.
Qed.

Lemma visit_request_inv custom object f :
  Forall is_token object.*2 → visit_request custom object = Ok f →
  ∃ id ops d n a vs, f = Request id ops d n a vs ∧ id ≠ ""%string ∧ d ≠ Some 0.
Proof.
  intros Hi. unfold visit_request. destruct (parse_struct _ _ _) as [g|] eqn:E; [|done].
  apply parse_struct_inv in E as (vs & Hr & Hb); [|done]. unfold build_request in Hb. inv_build.
  pose proof (read_id _ _ _ _ _ Hr eq_refl ltac:(eassumption)) as Hid.
  generalize (as_fv_int <$> assoc "deadline_ms" vs). intros [[]|] Hf; simplify_eq; by repeat eexists.
Qed.

Lemma visit_event_inv custom object f :
  Forall is_token object.*2 → visit_event custom object = Ok f →
  ∃ t c o p, f = Event t c o p ∧ OpaqueValue_is_object p = true.
Proof.
  intros Hi. unfold visit_event. destruct (parse_struct _ _ _) as [g|] eqn:E; [|done].
  apply parse_struct_inv in E as (vs & Hr & Hb); [|done]. unfold build_event in Hb. inv_build.
  destruct (OpaqueValue_is_object _) eqn:Eo; [|done]. intros Hf. simplify_eq/=. eauto 10.
Qed.

Local Ltac id_arm mk :=
  intros Hv; apply (visit_plain_id _ _ _ _ _ mk) in Hv as [Hi Hk];
  [split; [split; [done|by destruct (_ : Frame)]|done]|done|done|
   unfold build_response, build_cancel, build_subscribe, build_subscribe_ack, build_topic;
   intros ? ? ? Hb; inv_build; eauto].

Lemma visit_kind_inv custom p kind object f :
  bm_wf object → Forall is_token object.*2 →
  (∀ token, ("code"%string, token) ∈ object ↔ ("code"%string, token) ∈ (envelope p).1) →
  visit_kind custom kind object = Ok f → visited_ok p f ∧ Frame_kind f = kind.
Proof.
  intros Hwf Htok Hmem. unfold visit_kind.
  repeat (match goal with |- context [String.eqb kind ?k] => destruct (String.eqb_spec kind k) as [->|?] end).
  1,2: intros (vs & Hr & Hb)%visit_plain_inv; [|done]; unfold build_version in Hb; by inv_build.
  - intros (? & ? & ? & ? & ? & ? & -> & ? & ?)%visit_request_inv; [|done]. repeat split; simpl; congruence.
  - id_arm (λ i, Response i (Local VNull)).
  - intros Hv. split; [by eapply visit_error_inv|by eapply visit_error_kind].
  - id_arm Cancel.
  - id_arm (λ i, Subscribe i i None).
  - id_arm (λ i, SubscribeAck i i 0).
  - id_arm (λ i, Unsubscribe i i).
  - id_arm (λ i, UnsubscribeAck i i).
  - intros (t & c & o & q & -> & ?)%visit_event_inv; [|done]. repeat split; simpl; congruence.
  - done.
Qed.

(** An accepted payload is one object without repeated members, whose [kind]
    is the frame's. *)
Record envelope_ok (p : bytes) (f : Frame) : Prop := {
  env_closed : (envelope p).2 = Closed;
  env_unique : NoDup (envelope p).1.*1;
  env_trailing : trailing p = None;
  env_kind : ∃ token, ("kind"%string, token) ∈ (envelope p).1 ∧ de_string token = Ok (Frame_kind f)
}.

Lemma collect_envelope_unique p ms fin m obj :
  bm_wf m → collect_envelope p ms fin m = Ok obj → fin = Closed ∧ NoDup ms.*1 ∧ ∀ k, k ∈ ms.*1 → k ∉ m.*1.
Proof.
  revert m. induction ms as [|[k v] ms IH]; simpl; intros m Hm Hc.
  - destruct fin as [| |]; [split_and!; [done|constructor|set_solver]|done|by case_match].
  - destruct (bm_contains k m) eqn:Ek; [done|].
    assert (Hk : k ∉ m.*1).
    { rewrite <-bm_contains_key by done. congruence. }
    destruct (IH (bm_insert k v m)) as (Hf & Hd & Hn); [by apply bm_insert_wf|done|].
    setoid_rewrite bm_insert_keys in Hn. split_and!; [done| |set_solver].
    constructor; [|done]. intros Hin. by destruct (Hn k Hin); left.
Qed.

Lemma from_slice_frame_inv p f :
  from_slice_frame p = Ok f → visited_ok p f ∧ envelope_ok p f.
Proof.
  unfold from_slice_frame. intros (g & Hv & Ht)%res_bind_Ok.
  destruct (trailing p) eqn:Etr; [done|]. injection Ht as ->. unfold visit_map in Hv.
  pose proof (envelope_token p) as Hms. destruct (envelope p) as [ms fin] eqn:Ep. cbn [fst] in Hms.
  apply res_bind_Ok in Hv as (obj & Hc & Hv).
  destruct (collect_envelope_elem _ _ _ _ _ bm_wf_nil Hc) as [Hwf Hin].
  destruct (collect_envelope_unique _ _ _ _ _ bm_wf_nil Hc) as (Hf & Hd & _).
  pose proof (collect_envelope_token _ _ _ [] _ Hms (Forall_nil_2 _) Hc) as Htok.
  destruct (bm_get "kind" obj) as [kv|] eqn:Ek; [|done].
  destruct (de_string kv) as [kind|] eqn:Es; [|done].
  apply (visit_kind_inv _ p) in Hv as [Hok Hkind];
    [|by apply bm_remove_wf|by apply bm_remove_token|].
  - split; [done|]. split; rewrite ?Ep; [done..|]. exists kv. rewrite Hkind. split; [|done].
    rewrite <-elem_of_bm_get, Hin in Ek by done. cbn [fst]. set_solver.
  - intros token. rewrite bm_remove_elem, Hin, Ep. simpl. set_solver.
Qed.

Lemma decode_payload_Ok p f : decode_payload p = Ok f ↔ from_slice_frame p = Ok f.
Proof. unfold decode_payload. destruct (from_slice_frame p); [naive_solver|]. split; [|done]. by repeat case_match. Qed.

Lemma decode_payload_Err p e : decode_payload p = Err e →
  wire_code e = MalformedFrame ∧
  match e with
  | InvalidJson _ | MissingKind | UnknownFrameKind _ | InvalidFields _ _ | InconsistentErrorScope _ => True
  | _ => False
  end.
Proof. unfold decode_payload. repeat case_match; naive_solver. Qed.

(** ** Decoding a buffer *)

(** The length a buffer declares. *)
Definition declared (buf : bytes) : Z := from_be_bytes (take 4 buf).

Definition decode_outcome (buf : bytes) (max : Z) (r : Prelude.result (Frame * Z) CodecError) : Prop :=
  let p := take (Z.to_nat (declared buf)) (drop 4 buf) in
  match r with
  | Err (TruncatedLengthPrefix a) => a = len buf ∧ len buf < 4
  | Err (CE_FrameTooLarge d m) => 4 ≤ len buf ∧ (d, m) = (declared buf, max) ∧ max < declared buf
  | Err (TruncatedPayload d a) =>
      (d, a) = (declared buf, len buf - 4) ∧ 0 ≤ a < d ∧ declared buf ≤ max
  | Err e => 4 + declared buf ≤ len buf ∧ declared buf ≤ max ∧ decode_payload p = Err e ∧
             wire_code e = MalformedFrame
  | Ok (f, n) => n = 4 + declared buf ∧ n ≤ len buf ∧ declared buf ≤ max ∧
                 len p = declared buf ∧ decoded_ok p f ∧ envelope_ok p f
  end.

Lemma declared_range buf : 0 ≤ declared buf.
Proof. apply from_be_bytes_range. Qed.

Lemma take_drop_len buf n : 0 ≤ n → 4 + n ≤ len buf → len (take (Z.to_nat n) (drop 4 buf)) = n.
Proof. unfold len. rewrite length_take, length_drop. lia. Qed.

(** C34: Decoding a buffer answers in exactly one way: too short for a prefix, a
    declared length above the maximum, fewer bytes than declared, a payload refused as
    malformed, or a frame. It never reads past the declared length. An accepted payload
    is one JSON object with distinct members, of the frame's kind, and no operation id
    is empty. Of a handshake that names a version other than 0, an error whose code is
    a JSON string, and every other kind, the frame obeys every rule the encoder checks,
    or is the fallback for an unknown code of an operation. *)
Theorem decode_frame_spec buf max :
  decode_outcome buf max (decode_frame_with_consumed buf max) ∧
  ∀ rest, 4 ≤ len buf → declared buf ≤ len buf - 4 →
    decode_frame_with_consumed (buf ++ rest) max = decode_frame_with_consumed buf max.
Proof.
  pose proof (declared_range buf) as Hd. split.
  - unfold decode_frame_with_consumed, LENGTH_PREFIX_BYTES. fold (declared buf).
    destruct (Nat.ltb_spec (length buf) 4) as [Hl|Hl]; [simpl; unfold len; lia|].
    destruct (Z.ltb_spec max (declared buf)) as [Hm|Hm]; [simpl; unfold len; split_and!; [lia|done|lia]|].
    destruct (Z.ltb_spec (len buf - Z.of_nat 4) (declared buf)) as [Ha|Ha].
    { simpl. unfold len in *. split_and!; [done|lia..]. }
    set (p := take _ _). destruct (decode_payload p) as [f|e] eqn:Ep; cbn [res_bind].
    + apply decode_payload_Ok, from_slice_frame_inv in Ep as [Hok%visited_decoded He].
      unfold decode_outcome. fold p. split_and!; [done|lia|lia| |done|done]. apply take_drop_len; lia.
    + pose proof (decode_payload_Err p e Ep) as [Hc Hk]. unfold decode_outcome. fold p.
      destruct e; try done; split_and!; done || lia.
  - intros rest Hl Ha. unfold decode_frame_with_consumed, LENGTH_PREFIX_BYTES.
    assert (Hb : (4 ≤ length buf)%nat) by (unfold len in Hl; lia).
    rewrite take_app_le by lia. fold (declared buf).
    destruct (Nat.ltb_spec (length buf) 4); [lia|].
    destruct (Nat.ltb_spec (length (buf ++ rest)) 4) as [Hr|_]; [rewrite length_app in Hr; lia|].
    destruct (Z.ltb_spec max (declared buf)); [done|].
    assert (Hlen : len buf ≤ len (buf ++ rest)) by (unfold len; rewrite length_app; lia).
    destruct (Z.ltb_spec (len buf - Z.of_nat 4) (declared buf)); [lia|].
    destruct (Z.ltb_spec (len (buf ++ rest) - Z.of_nat 4) (declared buf)); [lia|].
    rewrite drop_app_le, take_app_le by (rewrite ?length_drop; unfold len in *; lia). done.
Qed.
End decode.

(** khive-wire-protocol: a concrete serializer that satisfies the laws of
    [WireSerdeLaws], the witnesses of the framing theorems, and the escape of an
    [error] frame whose code is not written as a string. *)

Open Scope Z_scope.

(** ** A code that is not written as a string *)

Section escape.
Context `{WireSerdeLaws}.

Lemma visit_error_unquoted custom object id code message token :
  bm_get "code"%string object = Some token → (∀ s, de_string token ≠ Ok s) →
  parse_struct ErrorPayload build_error object = Ok (Some id, code, message) →
  visit_error custom object = Ok (Error (Some id) code message None).
Proof.
  unfold visit_error. intros -> Hn ->. cbn [mbind option_bind].
  destruct (de_string token) as [s|] eqn:E; [by destruct (Hn s)|done].
Qed.

(** The id/scope rule is decided on the code read as a string. The derived
    reader of the code also takes other texts naming a variant; from such a text
    an error frame with an operation id is decoded whatever the scope of its
    code, so a connection-terminal code is accepted for one operation, which the
    encoder would refuse. *)
Theorem code_token_escape i c token message :
  i ≠ ""%string → is_token token → de_variant token = Ok (WireErrorCode_as_str c) →
  (∀ s, de_string token ≠ Ok s) → terminal_scope c = ConnectionScope →
  let f := Error (Some i) c message None in
  decode_payload (write_object [("kind", string_token "error"); ("id", string_token i);
                                ("code", token); ("message", string_token message)]%string) = Ok f ∧
  ¬ wire_ok f ∧ ∃ d, validate_frame_for_wire f = Err (InconsistentErrorScope d).
Proof.
  intros Hi Ht Hv Hn Hc f. set (ms := [("kind", _); _; _; _]%string). split; [|split].
  - assert (Hms : Forall is_token ms.*2) by (cbn; repeat (apply Forall_cons; split); auto using Forall_nil_2 with khive).
    apply decode_payload_Ok. unfold from_slice_frame, visit_map. rewrite envelope_write by done.
    rewrite collect_envelope_Ok by (try constructor; apply (bool_decide_unpack _); vm_compute; exact I).
    cbv -[WireErrorCode_as_str visit_kind string_token de_string custom_display trailing write_object f].
    rewrite de_string_token. lazy beta iota delta [visit_kind String.eqb Ascii.eqb Bool.eqb].
    rewrite (visit_error_unquoted _ _ i c message token); [| reflexivity | exact Hn |].
    + cbn [res_bind]. fold ms. by rewrite trailing_write.
    + eapply parse_struct_Ok; [by inversion_clear Hms as [|???Hms']; cbn; repeat (apply Forall_cons; split); auto using Forall_nil_2 with khive| |].
      * eapply read_fields_cons; [reflexivity|simpl; by rewrite Hv|].
        eapply read_fields_cons; [reflexivity|by apply decode_id|].
        eapply read_fields_cons; [reflexivity|apply decode_string|reflexivity].
      * simpl. by rewrite code_of_name_as_str.
  - intros [_ [Hs _]]. unfold id_scope_ok in Hs. rewrite Hc in Hs. by destruct Hs as [Hs _]; discriminate Hs; eauto.
  - cbn. destruct i; [done|]. cbn. unfold scope_mismatch. rewrite Hc. eauto.
Qed.
End escape.

(** ** Values as trees *)

Abbreviation leaf := (option bool + (bool * Z) + string)%type.

Fixpoint value_tree (v : Value) : gen_tree leaf :=
  match v with
  | VNull | VNumber (Float _) => GenLeaf (inl (inl None))
  | VBool b => GenLeaf (inl (inl (Some b)))
  | VNumber (PosInt z) => GenLeaf (inl (inr (true, z)))
  | VNumber (NegInt z) => GenLeaf (inl (inr (false, z)))
  | VString s => GenLeaf (inr s)
  | VArray l => GenNode 0 (map value_tree l)
  | VObject m => GenNode 1 (map (λ kv, GenNode 2 [GenLeaf (inr kv.1); value_tree kv.2]) m)
  end.

Fixpoint tree_value (t : gen_tree leaf) : Value :=
  match t with
  | GenLeaf (inl (inl None)) => VNull
  | GenLeaf (inl (inl (Some b))) => VBool b
  | GenLeaf (inl (inr (true, z))) => VNumber (PosInt z)
  | GenLeaf (inl (inr (false, z))) => VNumber (NegInt z)
  | GenLeaf (inr s) => VString s
  | GenNode 0 l => VArray (map tree_value l)
  | GenNode _ l =>
      VObject (map (λ t, match t with
                         | GenNode _ [GenLeaf (inr k); t'] => (k, tree_value t')
                         | _ => (""%string, VNull)
                         end) l)
  end.

Lemma tree_value_tree v : float_free v = true → tree_value (value_tree v) = v.
Proof.
  induction v as [|b|[]|s|l IH|m IH] using Value_ind'; simpl; try done; intros Hf.
  - f_equal. rewrite map_map. rewrite <-(map_id l) at 2. apply map_ext_in. intros x Hx.
    rewrite List.Forall_forall in IH. rewrite forallb_forall in Hf. auto.
  - f_equal. rewrite map_map. rewrite <-(map_id m) at 2. apply map_ext_in. intros [k x] Hx. simpl.
    rewrite List.Forall_forall in IH. rewrite forallb_forall in Hf. f_equal.
    by apply (IH (k, x)), (Hf (k, x)).
Qed.

Lemma float_free_ok v : float_free v = true → json_ok v.
Proof.
  induction v as [|b|[]|s|l IH|m IH] using Value_ind'; simpl; try done.
  - induction IH as [|x l Hx _ IHl]; simpl; [done|]. intros [? ?]%andb_true_iff. by split; [apply Hx|apply IHl].
  - induction IH as [|[k x] m Hx _ IHm]; simpl; [done|]. intros [? ?]%andb_true_iff. by split; [apply Hx|apply IHm].
Qed.

(** ** Texts *)

Fixpoint bits (p : positive) : bytes :=
  match p with xH => [] | xO p => "0"%char :: bits p | xI p => "1"%char :: bits p end.
Fixpoint unbits (l : bytes) : positive :=
  match l with [] => xH | c :: l => if eqb_byte c "1" then xI (unbits l) else xO (unbits l) end.

Lemma unbits_bits p : unbits (bits p) = p.
Proof. induction p as [p IH|p IH|]; simpl; rewrite ?eqb_byte_refl, ?IH; done. Qed.

Definition pack {A} `{Countable A} (a : A) : bytes := bits (encode a).
Definition unpack {A} `{Countable A} (b : bytes) : option A := decode (unbits b).

Lemma unpack_pack {A} `{Countable A} (a : A) : unpack (pack a) = Some a.
Proof. unfold unpack, pack. by rewrite unbits_bits, decode_encode. Qed.

#[local] Arguments pack : simpl never.
#[local] Arguments unpack : simpl never.

(** A token is a tag and a packed content; the tag of a string is followed by
    the string itself, and a variant may also be tagged as an object. *)
Definition tagged {A} `{Countable A} (tag : ascii) (a : A) : string := String tag (of_bytes (pack a)).
Definition untag {A} `{Countable A} (tag : ascii) (s : string) : Prelude.result A string :=
  match s with
  | String c rest => if eqb_byte c tag then ok_or (unpack (to_bytes rest)) "invalid value"%string
                     else Err "invalid type"%string
  | EmptyString => Err "EOF while parsing a value"%string
  end.

#[local] Arguments tagged : simpl never.
#[local] Arguments untag : simpl never.

Lemma untag_tagged {A} `{Countable A} tag (a : A) : untag tag (tagged tag a) = Ok a.
Proof. unfold untag, tagged. by rewrite eqb_byte_refl, to_of_bytes, unpack_pack. Qed.

Definition in_u (w : Z) (r : Prelude.result Z string) : Prelude.result Z string :=
  let? z := r in if (0 <=? z) && (z <? 2 ^ w) then Ok z else Err "invalid value"%string.

Definition plain_string (s : string) : Prelude.result string string :=
  match s with
  | String c rest => if eqb_byte c "s" then Ok rest else Err "invalid type"%string
  | EmptyString => Err "EOF while parsing a value"%string
  end.

Definition raw_tree (t : string) : Prelude.result (gen_tree leaf) string :=
  match t with
  | String c _ => if eqb_byte c "{" then untag "{" t else untag "v" t
  | EmptyString => Err "EOF while parsing a value"%string
  end.

Lemma raw_tree_tagged (b : bool) (t : gen_tree leaf) :
  raw_tree (tagged (if b then "{" else "v")%char t) = Ok t.
Proof. destruct b; unfold raw_tree, tagged at 1; cbn; apply untag_tagged. Qed.

#[local] Instance toy_serde : WireSerde := {
  envelope p := match unpack p with Some ms => (ms, Closed) | None => ([], KeyError "expected value") end;
  trailing p := None;
  write_object ms := pack ms;
  string_token s := String "s" s;
  u64_token z := tagged "n" z;
  strings_token l := tagged "l" l;
  value_token v := tagged (if value_is_object v then "{" else "v")%char (value_tree v);
  de_string := plain_string;
  de_variant t := match t with String "o" s => Ok s | _ => plain_string t end;
  de_u32 t := in_u 32 (untag "n" t);
  de_u64 t := in_u 64 (untag "n" t);
  de_strings t := untag "l" t;
  raw_value t := res_map tree_value (raw_tree t);
  from_slice_value p := match unpack p with Some ms => Ok (VObject ((λ kv : string * string,
    (kv.1, match plain_string kv.2 with Ok s => VString s | Err _ => VNull end)) <$> ms)) | None => Err "expected value"%string end;
  unknown_field f _ := ("unknown field " +:+ f)%string;
  missing_field f := ("missing field " +:+ f)%string;
  custom_display _ m := m;
  debug_text := debug_plain
}.

Lemma tree_value_ok t : float_free (tree_value t) = true.
Proof.
  revert t. fix IH 1. intros [[[[b|]|[[] z]]|s]|[|n] l]; try reflexivity; simpl.
  - induction l as [|t l IHl]; [done|]. simpl. by rewrite IH, IHl.
  - induction l as [|t l IHl]; [done|]. simpl. rewrite IHl, andb_true_r.
    destruct t as [|? [|[[|k]|] [|t' []]]]; try reflexivity. apply IH.
Qed.

#[local] Instance toy_serde_laws : WireSerdeLaws.
Proof.
  apply (Build_WireSerdeLaws _ (λ _, True)); try done.
  - intros ms _. simpl. by rewrite unpack_pack.
  - intros p. by apply Forall_true.
  - intros t s. simpl. destruct t as [|c t]; [done|]. simpl. unfold eqb_byte.
    destruct (Ascii.eqb_spec c "s") as [->|]; [done|done].
  - intros z [H0 H1]. unfold de_u32, de_u64, u64_token, toy_serde, in_u. rewrite untag_tagged. cbn [res_bind]. by rewrite (proj2 (Z.leb_le _ _) H0), (proj2 (Z.ltb_lt _ _) H1).
  - intros z [H0 H1]. unfold de_u32, de_u64, u64_token, toy_serde, in_u. rewrite untag_tagged. cbn [res_bind]. by rewrite (proj2 (Z.leb_le _ _) H0), (proj2 (Z.ltb_lt _ _) H1).
  - intros l. unfold de_strings, strings_token, toy_serde. by rewrite untag_tagged.
  - intros t v. simpl. intros Hv. apply float_free_ok.
    destruct (raw_tree t) as [tr|]; [|done]. simplify_eq/=. apply tree_value_ok.
  - intros v Hv. cbn [raw_value value_token toy_serde]. rewrite raw_tree_tagged. cbn [res_map].
    by rewrite tree_value_tree.
  - intros v. simpl. by destruct (value_is_object v).
Defined.

(** ** Witnesses *)

Definition sample_frame : Frame :=
  Response "op" (Local (VObject [("ok"%string, VBool true)])).

Definition sample_bytes : bytes :=
  match encode_frame sample_frame with Ok b => b | Err _ => [] end.


Theorem code_token_escape_witness :
  decode_payload (write_object [("kind", string_token "error"); ("id", string_token "op");
                                ("code", "omalformed_frame"); ("message", string_token "m")]%string) =
  Ok (Error (Some "op"%string) MalformedFrame "m" None).
Proof.
  refine (proj1 (code_token_escape "op" MalformedFrame "omalformed_frame" "m" _ I _ _ _));
    [discriminate|reflexivity|intros s Hs; discriminate Hs|reflexivity].
Defined.

Theorem decode_frame_spec_witness :
  decode_outcome sample_bytes 8 (decode_frame_with_consumed sample_bytes 8) ∧
  decode_frame_with_consumed sample_bytes 8 = Err (CE_FrameTooLarge (len sample_bytes - 4) 8).
Proof. split; [exact (proj1 (decode_frame_spec sample_bytes 8))|vm_compute; reflexivity]. Defined.
