(* ===== verification/WireGate.v ===== *)
(** khive-wire-protocol, handshake gates: the server's (handshake.rs) and the
    client's (client_handshake.rs), as functions from a state and a frame to the
    next state and the answer. *)

From Stdlib Require Import String ZArith.
From stdpp Require Import base tactics list strings sets numbers relations.
From S2P Require Import Prelude RustStr Wire WireCodec.

Open Scope Z_scope.

(** ** handshake.rs *)

Inductive CloseReason : Type :=
| UnsupportedVersionClose | NonHandshakeFirst | DuplicateHandshake | ServerOnlyKind.

Definition CloseReason_phrase (r : CloseReason) : string :=
  match r with
  | UnsupportedVersionClose => "a rejected handshake (unsupported version)"
  | NonHandshakeFirst => "a frame before the handshake"
  | DuplicateHandshake => "a duplicate handshake"
  | ServerOnlyKind => "a server-to-client frame on an inbound gate"
  end.

Inductive GateState : Type :=
| AwaitingHandshake
| GateCompleted (version : ProtocolVersion)
| GateClosed (reason : CloseReason).

Inductive HandshakeOutcome : Type :=
| Accepted (ack : Frame) (version : ProtocolVersion)
| Rejected (error : Frame)
| FrameAdmitted.

(** [HandshakeSequenceError]: the frame to send before closing. *)
Record HandshakeSequenceError : Type := SequenceError { sequence_error_frame : Frame }.

Definition malformed (message : string) : HandshakeSequenceError :=
  SequenceError (Error None MalformedFrame message None).

Record HandshakeGate : Type := Gate { gate_state : GateState; gate_supported : SupportedVersions }.

Definition HandshakeGate_new (supported : SupportedVersions) : HandshakeGate :=
  Gate AwaitingHandshake supported.

Definition HandshakeGate_is_complete (g : HandshakeGate) : bool :=
  match gate_state g with GateCompleted _ => true | _ => false end.

Definition HandshakeGate_accepted_version (g : HandshakeGate) : option ProtocolVersion :=
  match gate_state g with GateCompleted v => Some v | _ => None end.

Definition show_version (v : ProtocolVersion) : string := fmt_Z (version_get v).

Definition unsupported_error (supported : SupportedVersions) (version : ProtocolVersion) : Frame :=
  Error None UnsupportedVersion
    ("unsupported protocol version " +:+ show_version version +:+ "; server supports ["
     +:+ show_version (sv_min supported) +:+ ", " +:+ show_version (sv_max supported) +:+ "]") None.

Definition HandshakeGate_admit (g : HandshakeGate) (frame : Frame)
    : HandshakeGate * result HandshakeOutcome HandshakeSequenceError :=
  let goto s := Gate s (gate_supported g) in
  match gate_state g, frame with
  | AwaitingHandshake, Handshake version =>
      if SupportedVersions_contains (gate_supported g) version
      then (goto (GateCompleted version), Ok (Accepted (HandshakeAck version) version))
      else (goto (GateClosed UnsupportedVersionClose), Ok (Rejected (unsupported_error (gate_supported g) version)))
  | AwaitingHandshake, _ =>
      (goto (GateClosed NonHandshakeFirst),
       Err (malformed ("expected " +:+ debug_plain "handshake" +:+ " as the first frame, got "
                       +:+ debug_plain (Frame_kind frame))))
  | GateCompleted _, Handshake _ =>
      (goto (GateClosed DuplicateHandshake), Err (malformed "handshake already completed on this connection"))
  | GateCompleted _, _ =>
      if contains CLIENT_TO_SERVER_KINDS (Frame_kind frame) then (g, Ok FrameAdmitted)
      else (goto (GateClosed ServerOnlyKind),
            Err (malformed ("frame kind " +:+ debug_plain (Frame_kind frame)
                            +:+ " is server-to-client only; a server never accepts it as an inbound frame")))
  | GateClosed reason, _ =>
      (g, Err (malformed ("connection already closed by " +:+ CloseReason_phrase reason)))
  end.

(** ** client_handshake.rs *)

Inductive ClientCloseReason : Type :=
| UnsolicitedFrame | MismatchedAcknowledgment | UnexpectedDuringHandshake
| WrongDirectionOrRepeatedHandshake | InvalidErrorEnvelope | ServerTerminalError.

Definition ClientCloseReason_phrase (r : ClientCloseReason) : string :=
  match r with
  | UnsolicitedFrame => "an unsolicited frame before a handshake was sent"
  | MismatchedAcknowledgment => "an acknowledgment of a version that was not offered"
  | UnexpectedDuringHandshake => "an unexpected frame during the handshake"
  | WrongDirectionOrRepeatedHandshake => "a direction or repeated-handshake violation"
  | InvalidErrorEnvelope => "an invalid server error frame"
  | ServerTerminalError => "a connection-terminal server error"
  end.

Inductive ClientState : Type :=
| Fresh
| Outstanding (offered : ProtocolVersion)
| ClientCompleted (version : ProtocolVersion)
| ClientClosed (reason : ClientCloseReason).

Inductive ClientHandshakeStartError : Type := VersionZero | AlreadyStarted | StartClosed.

Inductive ClientHandshakeOutcome : Type :=
| HandshakeCompleted (version : ProtocolVersion)
| ClientAdmitted
| ServerTerminated.

Definition ClientHandshakeGate_new : ClientState := Fresh.

Definition record_handshake_sent (s : ClientState) (offered : ProtocolVersion)
    : ClientState * result unit ClientHandshakeStartError :=
  match s with
  | Fresh => if version_get offered =? 0 then (s, Err VersionZero) else (Outstanding offered, Ok ())
  | Outstanding _ | ClientCompleted _ => (s, Err AlreadyStarted)
  | ClientClosed _ => (s, Err StartClosed)
  end.

Definition Client_is_complete (s : ClientState) : bool :=
  match s with ClientCompleted _ => true | _ => false end.
Definition Client_offered_version (s : ClientState) : option ProtocolVersion :=
  match s with Outstanding v => Some v | _ => None end.
Definition Client_accepted_version (s : ClientState) : option ProtocolVersion :=
  match s with ClientCompleted v => Some v | _ => None end.
Definition Client_is_closed (s : ClientState) : bool :=
  match s with ClientClosed _ => true | _ => false end.

Definition client_reject (reason : ClientCloseReason) (message : string)
    : ClientState * result ClientHandshakeOutcome HandshakeSequenceError :=
  (ClientClosed reason, Err (malformed message)).

Definition is_connection (c : WireErrorCode) : bool :=
  match terminal_scope c with ConnectionScope => true | RequestScope => false end.

Definition Client_admit (s : ClientState) (frame : Frame)
    : ClientState * result ClientHandshakeOutcome HandshakeSequenceError :=
  let during_handshake :=
    client_reject UnexpectedDuringHandshake
      ("expected the offered-version acknowledgment or a connection-terminal error, got "
       +:+ debug_plain (Frame_kind frame)) in
  match s, frame with
  | Fresh, _ =>
      client_reject UnsolicitedFrame
        ("received " +:+ debug_plain (Frame_kind frame) +:+ " before the client sent a handshake")
  | Outstanding offered, HandshakeAck version =>
      if version_get version =? version_get offered
      then (ClientCompleted offered, Ok (HandshakeCompleted offered))
      else client_reject MismatchedAcknowledgment
             ("handshake acknowledgment names version " +:+ show_version version
              +:+ ", but the client offered " +:+ show_version offered)
  | ClientCompleted _, Error None _ _ (Some _) =>
      client_reject InvalidErrorEnvelope "a server error with an unrecognized code must identify an operation"
  | ClientCompleted _, Error (Some _) code _ _ =>
      if is_connection code
      then client_reject InvalidErrorEnvelope "a connection-terminal server error must not identify an operation"
      else (s, Ok ClientAdmitted)
  | ClientCompleted _, Error None code _ None =>
      if is_connection code then (ClientClosed ServerTerminalError, Ok ServerTerminated)
      else client_reject InvalidErrorEnvelope "a request-terminal server error must identify an operation"
  | Outstanding _, Error None code _ _ =>
      if is_connection code then (ClientClosed ServerTerminalError, Ok ServerTerminated)
      else during_handshake
  | Outstanding _, _ => during_handshake
  | ClientCompleted _, (Response _ _ | SubscribeAck _ _ _ | UnsubscribeAck _ _ | Event _ _ _ _) =>
      (s, Ok ClientAdmitted)
  | ClientCompleted _, _ =>
      client_reject WrongDirectionOrRepeatedHandshake
        ("frame kind " +:+ debug_plain (Frame_kind frame)
         +:+ " is not admissible at a client after handshake completion")
  | ClientClosed reason, _ =>
      (s, Err (malformed ("connection already closed by " +:+ ClientCloseReason_phrase reason)))
  end.

(** khive-wire-protocol, handshake theorems: what a gate admits over a
    connection's life, and the two gates run against each other. *)

Open Scope Z_scope.

(** ** The server's gate over a sequence of inbound frames *)

Fixpoint gate_run (g : HandshakeGate) (fs : list Frame)
    : list (result HandshakeOutcome HandshakeSequenceError) :=
  match fs with
  | [] => []
  | f :: fs' => let '(g', out) := HandshakeGate_admit g f in out :: gate_run g' fs'
  end.

(** The frames a client may send once its handshake completed. *)
Definition client_app (f : Frame) : Prop :=
  match f with
  | Request _ _ _ _ _ _ | Cancel _ | Subscribe _ _ _ | Unsubscribe _ _ => True
  | _ => False
  end.

#[export] Instance client_app_dec f : Decision (client_app f).
Proof. destruct f; simpl; apply _. Defined.

Lemma client_app_kinds f :
  client_app f ↔ contains CLIENT_TO_SERVER_KINDS (Frame_kind f) = true ∧ ∀ v, f ≠ Handshake v.
Proof. destruct f; cbn; naive_solver. Qed.

Definition malformed_answer (out : result HandshakeOutcome HandshakeSequenceError) : Prop :=
  ∃ message, out = Err (malformed message).

Lemma gate_closed_run sv r fs : Forall malformed_answer (gate_run (Gate (GateClosed r) sv) fs).
Proof. induction fs as [|f fs IH]; simpl; [constructor|]. constructor; [by eexists|done]. Qed.

Lemma admit_completed sv v f :
  HandshakeGate_admit (Gate (GateCompleted v) sv) f =
  if decide (client_app f) then (Gate (GateCompleted v) sv, Ok FrameAdmitted)
  else (HandshakeGate_admit (Gate (GateCompleted v) sv) f).
Proof. destruct (decide (client_app f)) as [Hf|]; [|done]. by destruct f. Qed.

Lemma admit_completed_bad sv v f :
  ¬ client_app f → ∃ r message,
  HandshakeGate_admit (Gate (GateCompleted v) sv) f = (Gate (GateClosed r) sv, Err (malformed message)).
Proof. destruct f; cbn; intros Hf; try (by destruct Hf); eauto. Qed.

(** After completion the outcomes are [FrameAdmitted] up to the first frame a client
    may not send, and refusals from there on. *)
Lemma gate_completed_run sv v fs :
  ∃ n bad, gate_run (Gate (GateCompleted v) sv) fs = replicate n (Ok FrameAdmitted) ++ bad ∧
    Forall malformed_answer bad ∧ Forall client_app (take n fs) ∧
    (∀ f, fs !! n = Some f → ¬ client_app f).
Proof.
  induction fs as [|f fs IH]; [by exists 0%nat, []|].
  destruct (decide (client_app f)) as [Hf|Hf].
  - destruct IH as (n & bad & Hr & Hb & Ht & Hn). exists (S n), bad.
    cbn [gate_run]. rewrite admit_completed, decide_True by done. rewrite Hr. split_and!; try done. by constructor.
  - exists 0%nat, (gate_run (Gate (GateCompleted v) sv) (f :: fs)). split_and!; [done| |constructor|naive_solver].
    destruct (admit_completed_bad sv v f Hf) as (r & m & Hm). cbn [gate_run]. rewrite Hm.
    constructor; [by eexists|apply gate_closed_run].
Qed.

(** The server's gate over all the frames of a connection: a handshake for
    a supported version is acknowledged, then exactly the frames a client may
    send are admitted up to the first violation; a handshake for another version
    is answered once; whatever follows a violation or a rejection is refused
    with an error naming no operation. *)
Theorem handshake_gate_trace sv fs :
  match fs with
  | [] => gate_run (HandshakeGate_new sv) fs = []
  | Handshake v :: rest =>
      if SupportedVersions_contains sv v then
        ∃ n bad, gate_run (HandshakeGate_new sv) fs =
            Ok (Accepted (HandshakeAck v) v) :: replicate n (Ok FrameAdmitted) ++ bad ∧
          Forall malformed_answer bad ∧ Forall client_app (take n rest) ∧
          (∀ f, rest !! n = Some f → ¬ client_app f) ∧ (n + length bad)%nat = length rest
      else ∃ bad, gate_run (HandshakeGate_new sv) fs = Ok (Rejected (unsupported_error sv v)) :: bad ∧
          Forall malformed_answer bad ∧ length bad = length rest
  | _ => Forall malformed_answer (gate_run (HandshakeGate_new sv) fs) ∧
         length (gate_run (HandshakeGate_new sv) fs) = length fs
  end.
Proof.
  assert (Hlen : ∀ g, length (gate_run g fs) = length fs ∧ length (gate_run g (tail fs)) = length (tail fs)).
  { assert (Hl : ∀ fs g, length (gate_run g fs) = length fs); [|by intros; split; apply Hl].
    clear. induction fs as [|f fs IH]; intros g; simpl; [done|].
    destruct (HandshakeGate_admit g f). simpl. by rewrite IH. }
  destruct fs as [|f rest]; [done|]. cbn [tail] in Hlen.
  assert (Hbad : ∀ m, HandshakeGate_admit (HandshakeGate_new sv) f = (Gate (GateClosed NonHandshakeFirst) sv, Err (malformed m)) →
    Forall malformed_answer (gate_run (HandshakeGate_new sv) (f :: rest)) ∧
    length (gate_run (HandshakeGate_new sv) (f :: rest)) = length (f :: rest)).
  { intros m Hm. split; [|apply Hlen]. cbn [gate_run]. rewrite Hm. constructor; [by eexists|apply gate_closed_run]. }
  destruct f; try (by eapply Hbad). clear Hbad. cbn [gate_run HandshakeGate_admit HandshakeGate_new gate_state gate_supported].
  destruct (SupportedVersions_contains sv version).
  - destruct (gate_completed_run sv version rest) as (n & bad & Hr & Hb & Ht & Hn).
    exists n, bad. rewrite Hr. split_and!; try done.
    destruct (Hlen (Gate (GateCompleted version) sv)) as [_ Hl]. rewrite Hr, length_app, length_replicate in Hl.
    done.
  - eexists. split; [done|]. split; [apply gate_closed_run|apply Hlen].
Qed.

(** khive-wire-protocol, one connection: a client and a server that drive their
    gates as the crate documentation asks, over two first-in first-out byte
    streams seen as queues of frames, with every interleaving of sends and
    deliveries. *)

Open Scope Z_scope.

(** [open] says that the server has not sent a connection-terminal error. *)
Record conn : Type := Conn {
  client : ClientState;
  server : HandshakeGate;
  open : bool;
  c2s : list Frame;
  s2c : list Frame
}.

(** What a server sends while the connection lasts, and what ends it. *)
Definition server_app (f : Frame) : Prop :=
  wire_ok f ∧
  match f with
  | Response _ _ | SubscribeAck _ _ _ | UnsubscribeAck _ _ | Event _ _ _ _ | Error (Some _) _ _ _ => True
  | _ => False
  end.

Definition terminal_frame (f : Frame) : Prop :=
  ∃ code message, f = Error None code message None ∧ terminal_scope code = ConnectionScope.

(** The server's answer to a delivered frame: what it sends, and whether it
    keeps the connection open. *)
Definition server_answer (out : result HandshakeOutcome HandshakeSequenceError) : list Frame * bool :=
  match out with
  | Ok (Accepted ack _) => ([ack], true)
  | Ok (Rejected error) => ([error], false)
  | Ok FrameAdmitted => ([], true)
  | Err e => ([sequence_error_frame e], false)
  end.

Inductive conn_step : conn → conn → Prop :=
| client_start c v :
    client c = Fresh → (record_handshake_sent Fresh v).2 = Ok () →
    conn_step c (Conn (record_handshake_sent Fresh v).1 (server c) (open c) (c2s c ++ [Handshake v]) (s2c c))
| client_send c f :
    Client_is_complete (client c) = true → client_app f →
    conn_step c (Conn (client c) (server c) (open c) (c2s c ++ [f]) (s2c c))
| server_send c f :
    HandshakeGate_is_complete (server c) = true → open c = true → server_app f →
    conn_step c (Conn (client c) (server c) true (c2s c) (s2c c ++ [f]))
| server_terminate c f :
    HandshakeGate_is_complete (server c) = true → open c = true → terminal_frame f →
    conn_step c (Conn (client c) (server c) false (c2s c) (s2c c ++ [f]))
| server_recv c f rest :
    open c = true → c2s c = f :: rest →
    conn_step c (Conn (client c) (HandshakeGate_admit (server c) f).1
                   (server_answer (HandshakeGate_admit (server c) f).2).2 rest
                   (s2c c ++ (server_answer (HandshakeGate_admit (server c) f).2).1))
| client_recv c f rest :
    Client_is_closed (client c) = false → s2c c = f :: rest →
    conn_step c (Conn (Client_admit (client c) f).1 (server c) (open c) (c2s c) rest).

Definition conn_init (sv : SupportedVersions) : conn := Conn Fresh (HandshakeGate_new sv) true [] [].

Definition reachable (sv : SupportedVersions) : conn → Prop := rtc conn_step (conn_init sv).

(** ** The invariant *)

(** The frames in flight to the client: application frames, closed by one
    terminal error once the server has closed the connection. *)
Definition server_stream (is_open : bool) (out : list Frame) : Prop :=
  if is_open then Forall server_app out
  else ∃ fs e, out = fs ++ [e] ∧ Forall server_app fs ∧ terminal_frame e.

Section invariant.
Context (sv : SupportedVersions).

Inductive conn_inv : conn → Prop :=
| inv_fresh : conn_inv (conn_init sv)
| inv_offered v :
    version_get v ≠ 0 →
    conn_inv (Conn (Outstanding v) (HandshakeGate_new sv) true [Handshake v] [])
| inv_acknowledged v is_open out :
    SupportedVersions_contains sv v = true → server_stream is_open out →
    conn_inv (Conn (Outstanding v) (Gate (GateCompleted v) sv) is_open [] (HandshakeAck v :: out))
| inv_refused v :
    SupportedVersions_contains sv v = false →
    conn_inv (Conn (Outstanding v) (Gate (GateClosed UnsupportedVersionClose) sv) false []
                [unsupported_error sv v])
| inv_completed v is_open inb out :
    SupportedVersions_contains sv v = true → Forall client_app inb → server_stream is_open out →
    conn_inv (Conn (ClientCompleted v) (Gate (GateCompleted v) sv) is_open inb out)
| inv_terminated v inb :
    SupportedVersions_contains sv v = true → Forall client_app inb →
    conn_inv (Conn (ClientClosed ServerTerminalError) (Gate (GateCompleted v) sv) false inb [])
| inv_rejected v :
    SupportedVersions_contains sv v = false →
    conn_inv (Conn (ClientClosed ServerTerminalError) (Gate (GateClosed UnsupportedVersionClose) sv) false [] []).

Lemma server_stream_send is_open out f :
  is_open = true → server_stream is_open out → server_app f → server_stream true (out ++ [f]).
Proof. intros -> Ho Hf. by apply Forall_app_2; [|apply Forall_singleton]. Qed.

Lemma server_stream_terminate is_open out f :
  is_open = true → server_stream is_open out → terminal_frame f → server_stream false (out ++ [f]).
Proof. intros -> Ho Hf. by exists out, f. Qed.

(** The client admits every application frame and is terminated by a terminal
    error, which is the last frame in flight. *)
Lemma client_admit_app v f :
  server_app f → Client_admit (ClientCompleted v) f = (ClientCompleted v, Ok ClientAdmitted).
Proof.
  intros [[_ Hw] Hf]. destruct f as [| | | |[i|] code m raw| | | | | |]; try done. cbn in *.
  destruct Hw as [Hs ->]. unfold is_connection. by rewrite (proj1 Hs) by eauto.
Qed.

Lemma client_admit_terminal v f :
  terminal_frame f → Client_admit (ClientCompleted v) f = (ClientClosed ServerTerminalError, Ok ServerTerminated).
Proof. intros (code & m & -> & Hc). cbn. unfold is_connection. by rewrite Hc. Qed.

Lemma server_stream_recv is_open f out :
  server_stream is_open (f :: out) →
  (server_app f ∧ server_stream is_open out) ∨ (terminal_frame f ∧ is_open = false ∧ out = []).
Proof.
  destruct is_open; simpl; [intros [? ?]%Forall_cons; by left|].
  intros ([|g fs] & e & Hf & Hfs & He); simplify_eq/=; [by right|].
  apply Forall_cons in Hfs as [? ?]. left. split; [done|]. by exists fs, e.
Qed.

Lemma admit_client_app v f :
  client_app f → HandshakeGate_admit (Gate (GateCompleted v) sv) f = (Gate (GateCompleted v) sv, Ok FrameAdmitted).
Proof. intros Hf. by rewrite admit_completed, decide_True. Qed.

#[local] Arguments Client_admit : simpl never.
#[local] Arguments HandshakeGate_admit : simpl never.

Lemma conn_inv_step c c' : conn_inv c → conn_step c c' → conn_inv c'.
Proof.
  intros Hi Hs. destruct Hs as [c v Hc Hv|c f Hc Hf|c f Hg Ho Hf|c f Hg Ho Hf|c f rest Ho Hq|c f rest Hc Hq];
    destruct Hi as [|v' Hv'|v' b out Hv' Hst|v' Hv'|v' b inb out Hv' Hin Hst|v' inb Hv' Hin|v' Hv'];
    simplify_eq/=.
  - unfold record_handshake_sent in *. destruct (Z.eqb_spec (version_get v) 0); [done|]. by apply inv_offered.
  - apply inv_completed; [done| |done]. by apply Forall_app_2; [|apply Forall_singleton].
  - apply (inv_acknowledged v'); [done|by eapply server_stream_send].
  - apply (inv_completed v'); [done..|by eapply server_stream_send].
  - apply (inv_acknowledged v'); [done|by eapply server_stream_terminate].
  - apply (inv_completed v'); [done..|by eapply server_stream_terminate].
  - unfold HandshakeGate_admit. cbn.
    destruct (SupportedVersions_contains sv v') eqn:Ev; cbn; [|by apply inv_refused].
    by apply (inv_acknowledged v' true []); [|constructor].
  - apply Forall_cons in Hin as [Hf Hin]. rewrite admit_client_app by done. cbn. rewrite app_nil_r.
    by apply inv_completed.
  - unfold Client_admit. rewrite Z.eqb_refl. by apply inv_completed.
  - by apply (inv_rejected v').
  - apply server_stream_recv in Hst as [[Hf Hst]|(Hf & -> & ->)].
    + rewrite client_admit_app by done. by apply inv_completed.
    + rewrite client_admit_terminal by done. by apply inv_terminated.
Qed.

Lemma reachable_inv c : reachable sv c → conn_inv c.
Proof.
  intros Hr. assert (Hg : ∀ a b, rtc conn_step a b → conn_inv a → conn_inv b).
  { induction 1; eauto using conn_inv_step. }
  by eapply Hg; [exact Hr|constructor].
Qed.
End invariant.

(** C15: two peers that follow the gates never violate the protocol, whatever
    the interleaving of their sends and of the deliveries: the client is closed
    only by a server's terminal error, the server only by an unsupported
    version, a version the client completed is the one the server accepted and
    supports, and every delivered frame is one the server's gate takes. *)
Theorem conn_agreement sv c :
  reachable sv c →
  (∀ v, client c = ClientCompleted v →
     gate_state (server c) = GateCompleted v ∧ SupportedVersions_contains sv v = true) ∧
  (∀ r, client c = ClientClosed r → r = ServerTerminalError ∧ open c = false) ∧
  (∀ r, gate_state (server c) = GateClosed r → r = UnsupportedVersionClose ∧ open c = false) ∧
  (open c = true → ∀ f rest, c2s c = f :: rest →
     ∃ out, (HandshakeGate_admit (server c) f).2 = Ok out).
Proof.
  intros Hr. destruct (reachable_inv sv c Hr) as [|v Hv|v b out Hv Hst|v Hv|v b inb out Hv Hin Hst|v inb Hv Hin|v Hv];
    cbn; split_and!; try naive_solver.
  - intros _ f rest [= <- <-]. destruct (SupportedVersions_contains sv v); eauto.
  - intros _ f rest ->. apply Forall_cons in Hin as [Hf _]. destruct f; try done; by eexists.
Qed.

(** A delivery takes the oldest frame in flight to one of the peers. *)
Definition delivery (c c' : conn) : Prop :=
  conn_step c c' ∧ ((∃ f, c2s c = f :: c2s c') ∨ (∃ f, s2c c = f :: s2c c')).

Lemma delivery_offered sv v :
  delivery (Conn (Outstanding v) (HandshakeGate_new sv) true [Handshake v] [])
    (if SupportedVersions_contains sv v
     then Conn (Outstanding v) (Gate (GateCompleted v) sv) true [] [HandshakeAck v]
     else Conn (Outstanding v) (Gate (GateClosed UnsupportedVersionClose) sv) false [] [unsupported_error sv v]).
Proof.
  pose proof (server_recv (Conn (Outstanding v) (HandshakeGate_new sv) true [Handshake v] []) _ [] eq_refl eq_refl) as Hs.
  cbn in Hs. destruct (SupportedVersions_contains sv v); (split; [exact Hs|left; by exists (Handshake v)]).
Qed.

Lemma delivery_ack v g b q out :
  delivery (Conn (Outstanding v) g b q (HandshakeAck v :: out)) (Conn (ClientCompleted v) g b q out).
Proof.
  pose proof (client_recv (Conn (Outstanding v) g b q (HandshakeAck v :: out)) _ _ eq_refl eq_refl) as Hs.
  cbn in Hs. rewrite Z.eqb_refl in Hs. split; [done|right; by exists (HandshakeAck v)].
Qed.

Lemma delivery_refused v g b q sv :
  delivery (Conn (Outstanding v) g b q [unsupported_error sv v]) (Conn (ClientClosed ServerTerminalError) g b q []).
Proof.
  pose proof (client_recv (Conn (Outstanding v) g b q [unsupported_error sv v]) _ _ eq_refl eq_refl) as Hs.
  split; [exact Hs|right; by eexists].
Qed.

(** An outstanding handshake is always resolved by the frames in flight: one
    or two deliveries complete it on both sides when the server supports the
    version, and otherwise close both sides with the server's error. *)
Theorem handshake_resolves sv c v :
  reachable sv c → client c = Outstanding v →
  ∃ n c', (1 ≤ n ≤ 2)%nat ∧ nsteps delivery n c c' ∧
    if SupportedVersions_contains sv v
    then client c' = ClientCompleted v ∧ gate_state (server c') = GateCompleted v
    else client c' = ClientClosed ServerTerminalError ∧
         gate_state (server c') = GateClosed UnsupportedVersionClose ∧ open c' = false.
Proof.
  intros Hr Hc. destruct (reachable_inv sv c Hr) as [|v' Hv|v' b out Hv Hst|v' Hv| | |]; simplify_eq/=.
  - pose proof (delivery_offered sv v) as Hd. exists 2%nat.
    destruct (SupportedVersions_contains sv v); eexists; (split; [lia|]).
    + split; [eapply nsteps_l; [exact Hd|eapply nsteps_once, delivery_ack]|done].
    + split; [eapply nsteps_l; [exact Hd|eapply nsteps_once, delivery_refused]|done].
  - rewrite Hv. exists 1%nat. eexists. split; [lia|]. split; [eapply nsteps_once, delivery_ack|done].
  - rewrite Hv. exists 1%nat. eexists. split; [lia|]. split; [eapply nsteps_once, delivery_refused|done].
Qed.

(** ** Witnesses *)

(** The connection after the client's offer of the current version. *)
Definition offered_conn : conn :=
  Conn (Outstanding CURRENT_VERSION) (HandshakeGate_new SupportedVersions_current) true
    [Handshake CURRENT_VERSION] [].

Theorem conn_agreement_witness :
  reachable SupportedVersions_current offered_conn ∧
  ∃ out, (HandshakeGate_admit (server offered_conn) (Handshake CURRENT_VERSION)).2 = Ok out.
Proof.
  assert (Hr : reachable SupportedVersions_current offered_conn).
  { apply rtc_once. exact (client_start (conn_init SupportedVersions_current) CURRENT_VERSION eq_refl eq_refl). }
  split; [exact Hr|].
  exact (proj2 (proj2 (proj2 (conn_agreement SupportedVersions_current offered_conn Hr))) eq_refl
    (Handshake CURRENT_VERSION) [] eq_refl).
Defined.

Theorem handshake_resolves_witness :
  ∃ n c', (1 ≤ n ≤ 2)%nat ∧ nsteps delivery n offered_conn c' ∧ client c' = ClientCompleted CURRENT_VERSION.
Proof.
  assert (Hr : reachable SupportedVersions_current offered_conn).
  { apply rtc_once. exact (client_start (conn_init SupportedVersions_current) CURRENT_VERSION eq_refl eq_refl). }
  destruct (handshake_resolves SupportedVersions_current offered_conn CURRENT_VERSION Hr eq_refl)
    as (n & c' & Hn & Hs & Hc & _). by exists n, c'.
Defined.
