(* ===== verification/LionVec.v ===== *)
(** Sorted vectors of khive-lion-core (src/crates/khive-lion-core/src): the
    kernel keeps its tables as [Vec<(K, V)>] sorted by an unsigned key and
    searches them with [binary_search]; unsigned machine integers with their
    checked arithmetic.  The search is modelled by its documented behaviour:
    on a sorted slice, the position of the key or the one it belongs at.  Then the data
    types of types/ (and crypto.rs). *)

From Stdlib Require Import NArith String.
From stdpp Require Import base tactics list numbers sorting sets strings pretty.
From S2P Require Import Prelude.

(** ** Unsigned integers *)

Definition U16_MAX : N := 65535.
Definition U32_MAX : N := 4294967295.
Definition U64_MAX : N := 18446744073709551615.
Definition U128_MAX : N := 340282366920938463463374607431768211455.

Definition checked_add (max a b : N) : option N :=
  if decide (a + b ≤ max)%N then Some (a + b)%N else None.
Definition saturating_add (max a b : N) : N := N.min max (a + b).
Definition saturating_mul (max a b : N) : N := N.min max (a * b).

Lemma checked_add_Some max a b c :
  checked_add max a b = Some c ↔ c = (a + b)%N ∧ (a + b ≤ max)%N.
Proof. unfold checked_add. case_decide; naive_solver. Qed.

Lemma checked_add_None max a b : checked_add max a b = None ↔ (max < a + b)%N.
Proof. unfold checked_add. case_decide; split; try done; intros; lia. Qed.

(** ** [slice::binary_search] and [Vec::insert] *)

Fixpoint binary_search (k : N) (l : list N) : result nat nat :=
  match l with
  | [] => Err 0%nat
  | x :: l' => match cmp k x with
               | Lt => Err 0%nat
               | Eq => Ok 0%nat
               | Gt => match binary_search k l' with
                       | Ok i => Ok (S i)
                       | Err i => Err (S i)
                       end
               end
  end.

Definition binary_search_by_key {V} (k : N) (l : list (N * V)) : result nat nat :=
  binary_search k l.*1.

Definition is_ok {A E} (r : result A E) : bool :=
  match r with Ok _ => true | Err _ => false end.

Definition ok {A E} (r : result A E) : option A :=
  match r with Ok a => Some a | Err _ => None end.

Definition vec_insert {A} (pos : nat) (x : A) (l : list A) : list A :=
  take pos l ++ x :: drop pos l.

(** [vec[idx].1 = f(vec[idx].1)] *)
Definition update_at {V} (f : V → V) (idx : nat) (l : list (N * V)) : list (N * V) :=
  alter (prod_map (λ k, k) f) idx l.

(** The value stored at the position found. *)
Definition vec_get {V} (k : N) (l : list (N * V)) : option V :=
  match binary_search_by_key k l with
  | Ok idx => snd <$> l !! idx
  | Err _ => None
  end.

Section vec_facts.
Context {V : Type}.
Implicit Types (l : list (N * V)) (k : N).

Lemma vec_get_bm k l : vec_get k l = bm_get k l.
Proof.
  unfold vec_get, binary_search_by_key.
  induction l as [|[k' v'] l IH]; [done|]. cbn -[cmp].
  destruct (cmp k k') eqn:E; [done..|]. rewrite <-IH.
  by destruct (binary_search k l.*1).
Qed.

Lemma vec_insert_bm k v l pos :
  binary_search_by_key k l = Err pos → vec_insert pos (k, v) l = bm_insert k v l.
Proof.
  unfold binary_search_by_key. revert pos.
  induction l as [|[k' v'] l IH]; intros pos; cbn -[cmp]; [by intros [= <-]|].
  destruct (cmp k k') eqn:E; [done|by intros [= <-]|].
  destruct (binary_search k l.*1) as [|i] eqn:Hs; [done|]. intros [= <-].
  unfold vec_insert. simpl. f_equal. by apply IH.
Qed.

Lemma search_Ok k l idx :
  binary_search_by_key k l = Ok idx → ∃ v, l !! idx = Some (k, v) ∧ bm_get k l = Some v.
Proof.
  unfold binary_search_by_key. revert idx.
  induction l as [|[k' v'] l IH]; intros idx; cbn -[cmp]; [done|].
  destruct (cmp k k') eqn:E; [|done|].
  - intros [= <-]. apply cmp_eq in E as ->. by exists v'.
  - destruct (binary_search k l.*1) as [i|] eqn:Hs; [|done]. intros [= <-]. by apply IH.
Qed.

Lemma search_Err k l idx : binary_search_by_key k l = Err idx → bm_get k l = None.
Proof. intros Hs. rewrite <-vec_get_bm. unfold vec_get. by rewrite Hs. Qed.

Lemma update_at_bm (f : V → V) k l idx :
  binary_search_by_key k l = Ok idx →
  ∃ v, bm_get k l = Some v ∧ update_at f idx l = bm_insert k (f v) l.
Proof.
  unfold binary_search_by_key, update_at. revert idx.
  induction l as [|[k' v'] l IH]; intros idx; cbn -[cmp]; [done|].
  destruct (cmp k k') eqn:E; [|done|].
  - intros [= <-]. apply cmp_eq in E as ->. by exists v'.
  - destruct (binary_search k l.*1) as [i|] eqn:Hs; [|done]. intros [= <-].
    destruct (IH i eq_refl) as (v & Hg & Hi). exists v. split; [done|]. cbn. by f_equal.
Qed.

(** A key-preserving update of all the values. *)
Lemma bm_get_map (f : N → V → V) k l :
  bm_get k (map (λ kv, (kv.1, f kv.1 kv.2)) l) = f k <$> bm_get k l.
Proof.
  induction l as [|[k' v'] l IH]; [done|]. cbn -[cmp].
  destruct (cmp k k') eqn:E; [|done|done]. by apply cmp_eq in E as ->.
Qed.

Lemma bm_wf_keys l l' : l.*1 = l'.*1 → bm_wf l → bm_wf l'.
Proof. unfold bm_wf. by intros ->. Qed.

Lemma fst_map_update (f : N → V → V) l : (map (λ kv, (kv.1, f kv.1 kv.2)) l).*1 = l.*1.
Proof. induction l as [|[k v] l IH]; [done|]. simpl. by f_equal. Qed.
Lemma bm_get_insert k k' v l :
  bm_wf l → bm_get k (bm_insert k' v l) = if decide (k = k') then Some v else bm_get k l.
Proof.
  intros Hw. case_decide as E; [subst; apply bm_get_insert_eq|by apply bm_get_insert_ne].
Qed.
End vec_facts.

(** ** Sorted vectors of keys *)

Lemma binary_search_elem k l :
  StronglySorted cmp_lt l → is_ok (binary_search k l) = true ↔ k ∈ l.
Proof.
  induction 1 as [|x l Hl IH Hx]; [set_solver|]. cbn -[cmp].
  destruct (cmp k x) eqn:E.
  - apply cmp_eq in E as ->. split; [left|done].
  - split; [done|]. intros [->|Hin]%elem_of_cons; [by rewrite cmp_refl in E|].
    rewrite Forall_forall in Hx. apply Hx in Hin. exfalso.
    apply (cmp_lt_irrefl k). by etransitivity.
  - rewrite elem_of_cons, <-IH. assert (k ≠ x) by (intros ->; by rewrite cmp_refl in E).
    destruct (binary_search k l); simpl; naive_solver.
Qed.

Lemma vec_insert_bs k l pos :
  binary_search k l = Err pos → vec_insert pos k l = bs_insert k l.
Proof.
  revert pos. induction l as [|x l IH]; intros pos; cbn -[cmp]; [by intros [= <-]|].
  destruct (cmp k x) eqn:E; [done|by intros [= <-]|].
  destruct (binary_search k l) as [|i] eqn:Hs; [done|]. intros [= <-].
  unfold vec_insert. simpl. f_equal. by apply IH.
Qed.

(** [sort_unstable] on integers. *)
Definition sort_unstable (l : list N) : list N := sort_by cmp l.

Lemma search_sorted_sort k l :
  NoDup l → is_ok (binary_search k (sort_unstable l)) = true ↔ k ∈ l.
Proof.
  intros Hnd. unfold sort_unstable. rewrite binary_search_elem; [apply elem_of_sort_by|].
  pose proof (sort_by_sorted (T:=N) cmp l) as Hs.
  assert (NoDup (sort_by cmp l)) as Hd by (by rewrite sort_by_Permutation).
  induction Hs as [|x s Hs IH Hx]; [constructor|].
  apply NoDup_cons in Hd as [Hn Hd]. constructor; [by apply IH|].
  apply Forall_forall. intros y Hy. rewrite Forall_forall in Hx. specialize (Hx y Hy).
  unfold cmp_lt. unfold le_by in Hx. destruct (cmp x y) eqn:E; [|done|done].
  by apply cmp_eq in E as ->.
Qed.

(** khive-lion-core/src/types: security levels, rights, capabilities, policies
    and the errors of the kernel. *)

(** ** types/identifiers.rs *)

Abbreviation PluginId := N (only parsing).
Abbreviation ActorId := N (only parsing).
Abbreviation ResourceId := N (only parsing).
Abbreviation CapId := N (only parsing).
Abbreviation WorkflowId := N (only parsing).
Abbreviation ThreadId := N (only parsing).
Abbreviation MemAddr := N (only parsing).
Abbreviation Size := N (only parsing).
Abbreviation Time := N (only parsing).
Abbreviation u8 := N (only parsing).

(** ** types/security.rs *)

Inductive SecurityLevel : Type := Public | Internal | Confidential | Secret.

Definition level_to_u8 (self : SecurityLevel) : N :=
  match self with Public => 0 | Internal => 1 | Confidential => 2 | Secret => 3 end.

Definition level_from_u8 (value : N) : option SecurityLevel :=
  match value with
  | 0 => Some Public
  | 1 => Some Internal
  | 2 => Some Confidential
  | 3 => Some Secret
  | _ => None
  end%N.

Definition flows_to (self other : SecurityLevel) : bool :=
  (level_to_u8 self <=? level_to_u8 other)%N.
Definition can_communicate (self other : SecurityLevel) : bool :=
  flows_to self other || flows_to other self.
Definition level_join (self other : SecurityLevel) : SecurityLevel :=
  if (level_to_u8 other <=? level_to_u8 self)%N then self else other.
Definition level_meet (self other : SecurityLevel) : SecurityLevel :=
  if (level_to_u8 self <=? level_to_u8 other)%N then self else other.
Definition level_cmp (self other : SecurityLevel) : comparison :=
  (level_to_u8 self ?= level_to_u8 other)%N.
(** [a >= b] *)
Definition level_ge (a b : SecurityLevel) : bool :=
  match level_cmp a b with Lt => false | _ => true end.

#[export] Instance SecurityLevel_EqDecision : EqDecision SecurityLevel.
Proof. solve_decision. Defined.

(** ** types/rights.rs *)

Inductive Right : Type :=
| Read | Write | Execute | Create | Delete | Send | Receive | Delegate | Revoke | Declassify.

#[export] Instance Right_EqDecision : EqDecision Right.
Proof. solve_decision. Defined.

Definition right_to_u8 (self : Right) : N :=
  match self with
  | Read => 0 | Write => 1 | Execute => 2 | Create => 3 | Delete => 4
  | Send => 5 | Receive => 6 | Delegate => 7 | Revoke => 8 | Declassify => 9
  end.

Definition Right_ALL : list Right :=
  [Read; Write; Execute; Create; Delete; Send; Receive; Delegate; Revoke; Declassify].

Definition right_from_u8 (value : N) : option Right :=
  match value with
  | 0 => Some Read | 1 => Some Write | 2 => Some Execute | 3 => Some Create
  | 4 => Some Delete | 5 => Some Send | 6 => Some Receive | 7 => Some Delegate
  | 8 => Some Revoke | 9 => Some Declassify | _ => None
  end%N.

Definition right_name (self : Right) : string :=
  match self with
  | Read => "read" | Write => "write" | Execute => "execute" | Create => "create"
  | Delete => "delete" | Send => "send" | Receive => "receive" | Delegate => "delegate"
  | Revoke => "revoke" | Declassify => "declassify"
  end.

(** [1u16 << self.to_u8()] *)
Definition as_mask (self : Right) : N := N.shiftl 1 (right_to_u8 self).

Definition ALL_RIGHTS_MASK : N := 1023.

Record Rights := { bits : N }.
#[export] Instance Rights_EqDecision : EqDecision Rights.
Proof. solve_decision. Defined.

(** [!x] on [u16]. *)
Definition not_u16 (x : N) : N := N.lxor x U16_MAX.

Definition Rights_empty : Rights := {| bits := 0 |}.
Definition Rights_all : Rights := {| bits := ALL_RIGHTS_MASK |}.
Definition singleton_right (right : Right) : Rights := {| bits := as_mask right |}.
Definition Rights_from_slice (rights : list Right) : Rights :=
  {| bits := foldl (λ acc r, N.lor acc (as_mask r)) 0%N rights |}.
Definition Rights_from_bits (b : N) : Rights := {| bits := N.land b ALL_RIGHTS_MASK |}.
Definition Rights_is_empty (self : Rights) : bool := (bits self =? 0)%N.
Definition Rights_contains (self : Rights) (right : Right) : bool :=
  negb (N.land (bits self) (as_mask right) =? 0)%N.
Definition Rights_insert (self : Rights) (right : Right) : Rights * bool :=
  let mask := as_mask right in
  ({| bits := N.lor (bits self) mask |}, (N.land (bits self) mask =? 0)%N).
Definition Rights_remove (self : Rights) (right : Right) : Rights * bool :=
  let mask := as_mask right in
  ({| bits := N.land (bits self) (not_u16 mask) |}, negb (N.land (bits self) mask =? 0)%N).
Definition is_subset_of (self other : Rights) : bool :=
  (N.land (bits self) (not_u16 (bits other)) =? 0)%N.
Definition is_superset_of (self other : Rights) : bool := is_subset_of other self.
Definition Rights_combine (self other : Rights) : Rights :=
  {| bits := N.land (bits self) (bits other) |}.
Definition intersection (self other : Rights) : Rights := Rights_combine self other.
Definition Rights_union (self other : Rights) : Rights :=
  {| bits := N.lor (bits self) (bits other) |}.
Definition Rights_difference (self other : Rights) : Rights :=
  {| bits := N.land (bits self) (not_u16 (bits other)) |}.
Definition symmetric_difference (self other : Rights) : Rights :=
  {| bits := N.lxor (bits self) (bits other) |}.
Definition Rights_complement (self : Rights) : Rights :=
  {| bits := N.land (not_u16 (bits self)) ALL_RIGHTS_MASK |}.
Definition contains_any (self other : Rights) : bool :=
  negb (N.land (bits self) (bits other) =? 0)%N.

(** [u16::trailing_zeros], of a non-zero word. *)
Fixpoint pos_trailing_zeros (p : positive) : N :=
  match p with xO p' => N.succ (pos_trailing_zeros p') | _ => 0 end.
Definition trailing_zeros (x : N) : N :=
  match x with N0 => 16 | Npos p => pos_trailing_zeros p end.

(** [u16::count_ones] *)
Fixpoint pos_count_ones (p : positive) : N :=
  match p with xH => 1 | xO p' => pos_count_ones p' | xI p' => N.succ (pos_count_ones p') end.
Definition count_ones (x : N) : N :=
  match x with N0 => 0 | Npos p => pos_count_ones p end.

Definition Rights_len (self : Rights) : N := count_ones (bits self).

(** The loop of [to_vec]: each round clears the lowest set bit, so a 16-bit
    word needs at most 16 rounds. *)
Fixpoint to_vec_loop (fuel : nat) (remaining : N) (v : list Right) : list Right :=
  match fuel with
  | O => v
  | S fuel' =>
      if (remaining =? 0)%N then v
      else to_vec_loop fuel' (N.land remaining (remaining - 1))
             (match right_from_u8 (trailing_zeros remaining) with
              | Some r => v ++ [r]
              | None => v
              end)
  end.
Definition Rights_to_vec (self : Rights) : list Right := to_vec_loop 16 (bits self) [].

(** [RightsIter::next], on the remaining bits. *)
Definition RightsIter_next (self : N) : N * option Right :=
  if (self =? 0)%N then (self, None)
  else (N.land self (self - 1), right_from_u8 (trailing_zeros self)).

(** [for right in self.iter()], which ends at the first [None]. *)
Fixpoint rights_iter (fuel : nat) (self : N) : list Right :=
  match fuel with
  | O => []
  | S fuel' => match RightsIter_next self with
               | (_, None) => []
               | (self', Some r) => r :: rights_iter fuel' self'
               end
  end.

(** [Display for Rights] *)
Definition Rights_display (self : Rights) : string :=
  "{" +:+ String.concat ", " (map right_name (rights_iter 16 (bits self))) +:+ "}".

(** ** types/capability.rs *)

(** A 32-byte array; bytes are numbers below 256. *)
Abbreviation byte_array := (list N) (only parsing).

Record Key := { key_bytes : byte_array }.
Definition Key_empty : Key := {| key_bytes := replicate 32 0%N |}.
Definition Key_is_empty (self : Key) : bool :=
  bool_decide (key_bytes self = replicate 32 0%N).

Record SealedTag := { tag_bytes : byte_array }.
#[export] Instance SealedTag_EqDecision : EqDecision SealedTag.
Proof. solve_decision. Defined.

Record CapPayload := {
  pay_holder : PluginId;
  pay_target : ResourceId;
  pay_rights : Rights;
  pay_parent : option CapId;
  pay_epoch : N
}.

Inductive CapabilityError : Type :=
| InvalidHolder | EmptyRights | InvalidSignature | Revoked | SealVerificationFailed.

Definition CapabilityError_display (e : CapabilityError) : string :=
  match e with
  | InvalidHolder => "Holder must be > 0"
  | EmptyRights => "Rights cannot be empty"
  | InvalidSignature => "Invalid capability signature"
  | Revoked => "Capability has been revoked"
  | SealVerificationFailed => "Seal verification failed"
  end.

Record Capability := {
  id : CapId;
  holder : PluginId;
  target : ResourceId;
  rights : Rights;
  parent : option CapId;
  epoch : N;
  valid : bool;
  signature : SealedTag
}.
#[export] Instance Capability_EqDecision : EqDecision Capability.
Proof. solve_decision. Defined.

Definition Capability_new (i : CapId) (h : PluginId) (t : ResourceId) (r : Rights)
    (p : option CapId) (e : N) (s : SealedTag) : result Capability CapabilityError :=
  if (h =? 0)%N then Err InvalidHolder
  else if Rights_is_empty r then Err EmptyRights
  else Ok {| id := i; holder := h; target := t; rights := r; parent := p;
             epoch := e; valid := true; signature := s |}.

Definition Capability_payload (self : Capability) : CapPayload :=
  {| pay_holder := holder self; pay_target := target self; pay_rights := rights self;
     pay_parent := parent self; pay_epoch := epoch self |}.

Definition Capability_revoke (self : Capability) : Capability :=
  {| id := id self; holder := holder self; target := target self; rights := rights self;
     parent := parent self; epoch := epoch self; valid := false; signature := signature self |}.

Definition has_right (self : Capability) (right : Right) : bool :=
  Rights_contains (rights self) right.

(** ** types/policy.rs *)

Inductive PolicyDecision : Type := Permit | Deny | Indeterminate.
#[export] Instance PolicyDecision_EqDecision : EqDecision PolicyDecision.
Proof. solve_decision. Defined.

Definition policy_combine (self other : PolicyDecision) : PolicyDecision :=
  match self, other with
  | Deny, _ | _, Deny => Deny
  | Permit, Permit => Permit
  | _, _ => Indeterminate
  end.
Definition and_policy (self other : PolicyDecision) : PolicyDecision :=
  match self, other with
  | Permit, Permit => Permit
  | Deny, _ | _, Deny => Deny
  | _, _ => Indeterminate
  end.
Definition or_policy (self other : PolicyDecision) : PolicyDecision :=
  match self, other with
  | Permit, _ | _, Permit => Permit
  | Deny, Deny => Deny
  | _, _ => Indeterminate
  end.
Definition not_policy (self : PolicyDecision) : PolicyDecision :=
  match self with Permit => Deny | Deny => Permit | Indeterminate => Indeterminate end.
Definition override_policy (self other : PolicyDecision) : PolicyDecision :=
  match self with Indeterminate => other | _ => self end.
Definition implies_policy (self other : PolicyDecision) : PolicyDecision :=
  match self with Permit => other | Deny => Permit | Indeterminate => Indeterminate end.
Definition is_permit (self : PolicyDecision) : bool :=
  match self with Permit => true | _ => false end.

Record Action := {
  subject : PluginId;
  act_target : ResourceId;
  act_rights : Rights;
  act_kind : string
}.
#[export] Instance Action_EqDecision : EqDecision Action.
Proof. solve_decision. Defined.

Inductive PolicyError : Type := InvalidAction (msg : string) | EvaluationFailed (msg : string).

Definition Action_new (s : PluginId) (t : ResourceId) (r : Rights) (k : string)
    : result Action PolicyError :=
  if decide (k = EmptyString) then Err (InvalidAction "kind cannot be empty")
  else Ok {| subject := s; act_target := t; act_rights := r; act_kind := k |}.

Record PolicyContext := { ctx_now : Time; call_origin : option PluginId }.

Inductive PolicyDecisionFn : Type :=
| DenyAll | PermitAll | Custom (decision : PolicyDecision).

Definition decision_eval (self : PolicyDecisionFn) (_action : Action) (_ctx : PolicyContext)
    : PolicyDecision :=
  match self with DenyAll => Deny | PermitAll => Permit | Custom decision => decision end.

Record PolicyState := { decide_fn : PolicyDecisionFn }.
Definition deny_all : PolicyState := {| decide_fn := DenyAll |}.
Definition permit_all : PolicyState := {| decide_fn := PermitAll |}.
Definition policy_from_decision (decision : PolicyDecision) : PolicyState :=
  {| decide_fn := match decision with
                  | Permit => PermitAll
                  | Deny => DenyAll
                  | Indeterminate => Custom Indeterminate
                  end |}.
Definition policy_eval (self : PolicyState) (action : Action) (ctx : PolicyContext)
    : PolicyDecision := decision_eval (decide_fn self) action ctx.
Definition policy_check (self : PolicyState) (action : Action) (ctx : PolicyContext)
    : PolicyDecision :=
  match policy_eval self action ctx with
  | Permit => Permit
  | Deny | Indeterminate => Deny
  end.
