(* ===== verification/LionRights.v ===== *)
(** The bit sets of types/rights.rs denote sets of rights, and the levels of
    types/security.rs form a lattice. *)

From Stdlib Require Import NArith.
From stdpp Require Import base tactics list numbers.
From S2P Require Import Prelude LionVec.

(** Well-formed rights use the ten defined bits. *)
Definition rights_wf (r : Rights) : Prop := (bits r ≤ ALL_RIGHTS_MASK)%N.
#[export] Instance rights_wf_Decision r : Decision (rights_wf r).
Proof. unfold rights_wf. apply _. Defined.

Lemma contains_testbit self r :
  Rights_contains self r = N.testbit (bits self) (right_to_u8 r).
Proof.
  unfold Rights_contains, as_mask. rewrite N.shiftl_1_l.
  destruct (N.testbit (bits self) (right_to_u8 r)) eqn:E.
  - apply negb_true_iff, N.eqb_neq. intros Hz.
    assert (N.testbit (N.land (bits self) (2 ^ right_to_u8 r)) (right_to_u8 r) = true) as Ht
      by (rewrite N.land_spec, E, N.pow2_bits_true; done).
    rewrite Hz in Ht. by rewrite N.bits_0 in Ht.
  - apply negb_false_iff, N.eqb_eq, N.bits_inj_0. intros i.
    rewrite N.land_spec, N.pow2_bits_eqb.
    destruct (N.eqb_spec (right_to_u8 r) i) as [<-|]; [by rewrite E|by rewrite andb_false_r].
Qed.

Lemma rights_bits_high r i : rights_wf r → (10 ≤ i)%N → N.testbit (bits r) i = false.
Proof.
  intros Hw Hi. destruct (decide (bits r = 0%N)) as [->|Hn]; [apply N.bits_0|].
  apply N.bits_above_log2. eapply N.lt_le_trans; [|exact Hi].
  apply N.log2_lt_pow2; [lia|]. unfold rights_wf, ALL_RIGHTS_MASK in Hw. change (2 ^ 10)%N with 1024%N. lia.
Qed.

Lemma u8_right i : (i < 10)%N → ∃ r, right_to_u8 r = i.
Proof.
  intros Hi. assert (Forall (λ i, Exists (λ r, right_to_u8 r = i) Right_ALL) (N.of_nat <$> seq 0 10)) as H.
  { by apply (bool_decide_unpack _); vm_compute. }
  rewrite Forall_forall in H. destruct (proj1 (Exists_exists _ _) (H i ltac:(
    apply list_elem_of_In, list_elem_of_fmap; exists (N.to_nat i); rewrite N2Nat.id, elem_of_seq; lia))) as (r & _ & Hr).
  by exists r.
Qed.

Lemma rights_ext a b :
  rights_wf a → rights_wf b → (∀ r, Rights_contains a r = Rights_contains b r) → a = b.
Proof.
  intros Wa Wb H. destruct a as [x], b as [y]. f_equal. apply N.bits_inj. intros i.
  destruct (N.lt_ge_cases i 10) as [Hi|Hi].
  - destruct (u8_right i Hi) as [r <-]. specialize (H r).
    by rewrite !contains_testbit in H.
  - pose proof (rights_bits_high _ _ Wa Hi). pose proof (rights_bits_high _ _ Wb Hi). simpl in *. congruence.
Qed.

Lemma right_testbit_mask m r : N.testbit (as_mask m) (right_to_u8 r) = bool_decide (m = r).
Proof. by destruct m, r. Qed.

Lemma not_u16_testbit x r :
  N.testbit (not_u16 x) (right_to_u8 r) = negb (N.testbit x (right_to_u8 r)).
Proof.
  unfold not_u16. rewrite N.lxor_spec.
  assert (N.testbit U16_MAX (right_to_u8 r) = true) as -> by (by destruct r).
  by rewrite xorb_true_r.
Qed.

Lemma from_slice_contains l r :
  Rights_contains (Rights_from_slice l) r = bool_decide (r ∈ l).
Proof.
  unfold Rights_from_slice. rewrite contains_testbit. cbn [bits].
  rewrite <-(orb_false_l (bool_decide (r ∈ l))).
  change false with (N.testbit 0 (right_to_u8 r)) at 1. generalize 0%N.
  induction l as [|m l IH]; intros acc; simpl; [by rewrite orb_false_r|].
  rewrite IH, N.lor_spec, right_testbit_mask, <-orb_assoc. f_equal.
  apply eq_true_iff_eq. rewrite orb_true_iff, !bool_decide_eq_true, elem_of_cons. naive_solver.
Qed.

(** The bitwise operations of [Rights] are the operations on the sets of
    rights they denote. *)
Theorem rights_ops_spec (a b : Rights) (m r : Right) :
  Rights_contains Rights_empty r = false ∧ Rights_contains Rights_all r = true ∧
  Rights_contains (singleton_right m) r = bool_decide (m = r) ∧
  Rights_contains (Rights_from_bits (bits a)) r = Rights_contains a r ∧
  Rights_contains (intersection a b) r = Rights_contains a r && Rights_contains b r ∧
  Rights_contains (Rights_union a b) r = Rights_contains a r || Rights_contains b r ∧
  Rights_contains (Rights_difference a b) r = Rights_contains a r && negb (Rights_contains b r) ∧
  Rights_contains (symmetric_difference a b) r = xorb (Rights_contains a r) (Rights_contains b r) ∧
  Rights_contains (Rights_complement a) r = negb (Rights_contains a r) ∧
  Rights_contains (Rights_insert a m).1 r = Rights_contains a r || bool_decide (m = r) ∧
  (Rights_insert a m).2 = negb (Rights_contains a m) ∧
  Rights_contains (Rights_remove a m).1 r = Rights_contains a r && negb (bool_decide (m = r)) ∧
  (Rights_remove a m).2 = Rights_contains a m.
Proof.
  rewrite !contains_testbit. unfold Rights_insert, Rights_remove; cbn -[as_mask right_to_u8].
  rewrite !N.land_spec, !N.lor_spec, !N.lxor_spec, !not_u16_testbit, !right_testbit_mask.
  assert (N.testbit ALL_RIGHTS_MASK (right_to_u8 r) = true) as -> by (by destruct r).
  rewrite !andb_true_r. repeat split; try done.
  - by destruct r.
  - rewrite <-contains_testbit. unfold Rights_contains. by rewrite negb_involutive.
  - by rewrite <-contains_testbit.
Qed.

Lemma is_subset_spec a b :
  rights_wf a → is_subset_of a b = true ↔ ∀ r, Rights_contains a r = true → Rights_contains b r = true.
Proof.
  intros Wa. unfold is_subset_of. rewrite N.eqb_eq. split.
  - intros Hz r. rewrite !contains_testbit. intros Ha.
    assert (N.testbit (N.land (bits a) (not_u16 (bits b))) (right_to_u8 r) = false) as Hb
      by (by rewrite Hz, N.bits_0).
    rewrite N.land_spec, not_u16_testbit, Ha in Hb. simpl in Hb.
    by apply negb_false_iff in Hb.
  - intros H. apply N.bits_inj_0. intros i. rewrite N.land_spec.
    destruct (N.lt_ge_cases i 10) as [Hi|Hi]; [|by rewrite rights_bits_high].
    destruct (u8_right i Hi) as [r <-]. specialize (H r). rewrite !contains_testbit in H.
    rewrite not_u16_testbit. destruct (N.testbit (bits a) _); [|done]. by rewrite H.
Qed.

Lemma subset_refl a : rights_wf a → is_subset_of a a = true.
Proof. intros. by apply is_subset_spec. Qed.

Lemma subset_trans a b c :
  rights_wf a → rights_wf b → is_subset_of a b = true → is_subset_of b c = true → is_subset_of a c = true.
Proof. intros Wa Wb. rewrite !is_subset_spec by done. naive_solver. Qed.

Lemma intersection_wf_r a b : rights_wf b → rights_wf (intersection a b).
Proof.
  unfold rights_wf, intersection, Rights_combine. simpl. intros Hb.
  destruct (decide (N.land (bits a) (bits b) = 0%N)) as [->|Hn]; [lia|].
  apply N.lt_succ_r. change (N.succ ALL_RIGHTS_MASK) with (2 ^ 10)%N.
  apply N.log2_lt_pow2; [lia|].
  eapply N.le_lt_trans; [apply N.log2_land|].
  eapply N.le_lt_trans; [apply N.le_min_r|].
  destruct (decide (bits b = 0%N)) as [->|]; [done|].
  apply N.log2_lt_pow2; [lia|]. unfold ALL_RIGHTS_MASK in Hb. change (2 ^ 10)%N with 1024%N. lia.
Qed.

Lemma intersection_comm a b : intersection a b = intersection b a.
Proof. unfold intersection, Rights_combine. by rewrite N.land_comm. Qed.

Lemma intersection_contains a b r :
  Rights_contains (intersection a b) r = Rights_contains a r && Rights_contains b r.
Proof. by rewrite !contains_testbit, <-N.land_spec. Qed.

Lemma intersection_subset_r a b :
  rights_wf b → is_subset_of (intersection a b) b = true.
Proof.
  intros Hb. apply is_subset_spec; [by apply intersection_wf_r|].
  intros r. rewrite intersection_contains, andb_true_iff. naive_solver.
Qed.

Lemma is_empty_spec a : rights_wf a → Rights_is_empty a = true ↔ ∀ r, Rights_contains a r = false.
Proof.
  intros Wa. unfold Rights_is_empty. rewrite N.eqb_eq. split.
  - intros Hz r. by rewrite contains_testbit, Hz, N.bits_0.
  - intros H. apply N.bits_inj_0. intros i.
    destruct (N.lt_ge_cases i 10) as [Hi|Hi]; [|by apply rights_bits_high].
    destruct (u8_right i Hi) as [r <-]. by rewrite <-contains_testbit.
Qed.

(** All 1024 sets. *)
Definition to_vec_ok (n : nat) : bool :=
  let r := {| bits := N.of_nat n |} in
  let l := filter (λ x, Rights_contains r x = true) Right_ALL in
  bool_decide (Rights_to_vec r = l) && bool_decide (rights_iter 16 (bits r) = l) &&
  (Rights_len r =? N.of_nat (length l))%N && bool_decide (bits (Rights_from_slice l) = bits r).

Lemma to_vec_all : forallb to_vec_ok (seq 0 1024) = true.
Proof. by vm_compute. Qed.

(** Enumerating a set of rights, as a vector or through its iterator, gives
    the members in discriminant order, as many as [len] says, and collecting
    them gives the set back. *)
Theorem rights_to_vec_spec (self : Rights) :
  rights_wf self →
  let l := filter (λ r, Rights_contains self r = true) Right_ALL in
  Rights_to_vec self = l ∧ rights_iter 16 (bits self) = l ∧
  Rights_len self = N.of_nat (length l) ∧ Rights_from_slice (Rights_to_vec self) = self.
Proof.
  intros Hw l. pose proof to_vec_all as H. rewrite forallb_forall in H.
  specialize (H (N.to_nat (bits self))). unfold to_vec_ok in H.
  rewrite N2Nat.id in H. unfold rights_wf, ALL_RIGHTS_MASK in Hw. destruct self as [b]. cbn [bits] in *.
  assert (In (N.to_nat b) (seq 0 1024)) as Hin by (apply in_seq; lia).
  specialize (H Hin). rewrite !andb_true_iff, !bool_decide_eq_true, N.eqb_eq in H.
  destruct H as [[[H1 H2] H3] H4]. rewrite H1 in *. repeat split; try done.
  unfold l. unfold Rights_from_slice in *. f_equal. exact H4.
Qed.

Lemma rights_to_vec_witness :
  rights_wf {| bits := 385 |} ∧
  let l := filter (λ r, Rights_contains {| bits := 385 |} r = true) Right_ALL in
  Rights_to_vec {| bits := 385 |} = l ∧ rights_iter 16 385 = l ∧
  Rights_len {| bits := 385 |} = N.of_nat (length l) ∧
  Rights_from_slice (Rights_to_vec {| bits := 385 |}) = {| bits := 385 |}.
Proof.
  assert (rights_wf {| bits := 385 |}) as Hw by (by apply (bool_decide_unpack _); vm_compute; exact I).
  split; [exact Hw|]. exact (rights_to_vec_spec {| bits := 385 |} Hw).
Defined.

(** The security levels form a lattice: [flows_to] is a total order whose
    least upper and greatest lower bounds are [join] and [meet]. *)
Theorem level_lattice (a b c : SecurityLevel) :
  flows_to a a = true ∧ (flows_to a b = true → flows_to b c = true → flows_to a c = true) ∧
  (flows_to a b = true → flows_to b a = true → a = b) ∧ can_communicate a b = true ∧
  (flows_to (level_join a b) c = flows_to a c && flows_to b c) ∧
  (flows_to c (level_meet a b) = flows_to c a && flows_to c b) ∧
  level_ge a b = flows_to b a ∧ level_from_u8 (level_to_u8 a) = Some a.
Proof. by destruct a, b, c. Qed.

(** khive-lion-core/src/crypto.rs: sealing of capability payloads.  HMAC-SHA256
    (crate hmac) is a parameter; a panic of the source is [None]. *)

(** [Hmac<Sha256>] over a key and a message. *)
Class HmacSha256 := hmac_sha256 : list N → list N → list N.

(** [to_le_bytes] of an [n]-byte integer. *)
Fixpoint to_le_bytes (n : nat) (x : N) : list N :=
  match n with
  | O => []
  | S n' => (x mod 256)%N :: to_le_bytes n' (x / 256)%N
  end.

Fixpoint from_le_bytes (l : list N) : N :=
  match l with [] => 0 | b :: l' => b + 256 * from_le_bytes l' end%N.

(** The five fields, in the order of the 64-byte layout; the parent is shifted
    by one so that zero stands for none, and the shift panics at [u128::MAX]. *)
Definition serialize_payload (payload : CapPayload) : option (list N) :=
  parent_val ← match pay_parent payload with
               | None => Some 0%N
               | Some p => checked_add U128_MAX p 1
               end;
  Some (to_le_bytes 16 (pay_holder payload) ++ to_le_bytes 16 (pay_target payload) ++
        to_le_bytes 8 (pay_epoch payload) ++ to_le_bytes 16 parent_val ++
        to_le_bytes 8 (bits (pay_rights payload))).

Definition seal_payload `{HmacSha256} (key : Key) (payload : CapPayload) : option SealedTag :=
  data ← serialize_payload payload;
  Some {| tag_bytes := hmac_sha256 (key_bytes key) data |}.

(** [constant_time_eq] *)
Definition constant_time_eq (a b : list N) : bool :=
  if decide (length a = length b) then bool_decide (a = b) else false.

Definition verify_seal `{HmacSha256} (key : Key) (payload : CapPayload) (tag : SealedTag)
    : option bool :=
  data ← serialize_payload payload;
  Some (constant_time_eq (hmac_sha256 (key_bytes key) data) (tag_bytes tag)).

(** ** Facts *)

Lemma length_to_le_bytes n x : length (to_le_bytes n x) = n.
Proof. revert x. induction n as [|n IH]; intros x; [done|]. simpl. by rewrite IH. Qed.

Lemma from_to_le_bytes n x : (x < 256 ^ N.of_nat n)%N → from_le_bytes (to_le_bytes n x) = x.
Proof.
  revert x. induction n as [|n IH]; intros x Hx; [simpl in *; lia|].
  cbn [to_le_bytes from_le_bytes]. rewrite IH.
  - rewrite N.add_comm. symmetry. apply N.div_mod. lia.
  - rewrite Nat2N.inj_succ, N.pow_succ_r' in Hx. apply N.Div0.div_lt_upper_bound. lia.
Qed.

Lemma to_le_bytes_inj n x y :
  (x < 256 ^ N.of_nat n)%N → (y < 256 ^ N.of_nat n)%N → to_le_bytes n x = to_le_bytes n y → x = y.
Proof.
  intros Hx Hy H. rewrite <-(from_to_le_bytes n x), <-(from_to_le_bytes n y) by done. by f_equal.
Qed.

Lemma constant_time_eq_spec a b : constant_time_eq a b = bool_decide (a = b).
Proof.
  unfold constant_time_eq. case_decide as E; [done|].
  symmetry. apply bool_decide_eq_false. intros ->. done.
Qed.

(** Fields within the widths of their Rust types. *)
Record payload_wf (p : CapPayload) : Prop := {
  payload_holder_wf : (pay_holder p ≤ U128_MAX)%N;
  payload_target_wf : (pay_target p ≤ U128_MAX)%N;
  payload_rights_wf : rights_wf (pay_rights p);
  payload_parent_wf : ∀ i, pay_parent p = Some i → (i ≤ U128_MAX)%N;
  payload_epoch_wf : (pay_epoch p ≤ U64_MAX)%N
}.

Lemma pow256_16 : (256 ^ N.of_nat 16 = U128_MAX + 1)%N.
Proof. done. Qed.
Lemma pow256_8 : (256 ^ N.of_nat 8 = U64_MAX + 1)%N.
Proof. done. Qed.


Lemma serialize_payload_panics p :
  payload_wf p → serialize_payload p = None ↔ pay_parent p = Some U128_MAX.
Proof.
  intros Hp. unfold serialize_payload. destruct (pay_parent p) as [i|] eqn:E; [|done].
  destruct (checked_add U128_MAX i 1) as [v|] eqn:Hc; simpl.
  - apply checked_add_Some in Hc as [-> Hle]. split; [done|]. intros [= ->]. lia.
  - apply checked_add_None in Hc. apply (payload_parent_wf _ Hp) in E. split; [|done].
    intros _. f_equal. lia.
Qed.

(** The parent field's value. *)
Definition parent_val (p : option N) : option N :=
  match p with None => Some 0%N | Some p => checked_add U128_MAX p 1 end.

Lemma parent_val_inj p q v : parent_val p = Some v → parent_val q = Some v → p = q.
Proof.
  destruct p as [i|], q as [j|]; simpl; try done.
  - intros [-> _]%checked_add_Some [H _]%checked_add_Some. f_equal. lia.
  - intros [-> _]%checked_add_Some [= H]. lia.
  - intros [= <-] [H _]%checked_add_Some. lia.
Qed.

Lemma parent_val_bound p v : parent_val p = Some v → (v < 256 ^ N.of_nat 16)%N.
Proof.
  rewrite pow256_16. destruct p as [i|]; simpl; [intros [-> ?]%checked_add_Some; lia|by intros [= <-]].
Qed.

Lemma rights_bits_u64 r : rights_wf r → (bits r < 256 ^ N.of_nat 8)%N.
Proof. unfold rights_wf, ALL_RIGHTS_MASK. rewrite pow256_8. unfold U64_MAX. lia. Qed.

Lemma serialize_payload_Some p data :
  serialize_payload p = Some data ↔
  ∃ v, parent_val (pay_parent p) = Some v ∧
    data = to_le_bytes 16 (pay_holder p) ++ to_le_bytes 16 (pay_target p) ++
           to_le_bytes 8 (pay_epoch p) ++ to_le_bytes 16 v ++ to_le_bytes 8 (bits (pay_rights p)).
Proof.
  unfold serialize_payload. fold (parent_val (pay_parent p)).
  destruct (parent_val (pay_parent p)) as [v|]; cbn -[to_le_bytes]; naive_solver.
Qed.

Ltac split_bytes H :=
  apply app_inj_1 in H as [? H]; [|by rewrite !length_to_le_bytes].

(** Payload serialization separates domains: a payload whose parent is not
    the maximal identifier serializes to 64 bytes, one whose parent is panics,
    and two payloads with the same bytes are equal. *)
Theorem serialize_payload_spec (p q : CapPayload) :
  payload_wf p → payload_wf q →
  (serialize_payload p = None ↔ pay_parent p = Some U128_MAX) ∧
  (∀ data, serialize_payload p = Some data → length data = 64%nat) ∧
  (∀ data, serialize_payload p = Some data → serialize_payload q = Some data → p = q).
Proof.
  intros Wp Wq. split; [by apply serialize_payload_panics|]. split.
  { intros data (v & _ & ->)%serialize_payload_Some. by rewrite !length_app, !length_to_le_bytes. }
  intros data (v & Hv & ->)%serialize_payload_Some (w & Hw & Hd)%serialize_payload_Some.
  do 4 split_bytes Hd.
  destruct Wp as [? ? ? ? ?], Wq as [? ? ? ? ?].
  assert (v = w) as -> by (eapply (to_le_bytes_inj 16); eauto using parent_val_bound).
  pose proof (parent_val_inj _ _ _ Hv Hw) as Ep.
  assert (pay_holder p = pay_holder q) as Eh by (apply (to_le_bytes_inj 16); rewrite ?pow256_16; [lia..|done]).
  assert (pay_target p = pay_target q) as Et by (apply (to_le_bytes_inj 16); rewrite ?pow256_16; [lia..|done]).
  assert (pay_epoch p = pay_epoch q) as Ee by (apply (to_le_bytes_inj 8); rewrite ?pow256_8; [lia..|done]).
  assert (bits (pay_rights p) = bits (pay_rights q)) as Er by (apply (to_le_bytes_inj 8); auto using rights_bits_u64).
  destruct p as [? ? [?] ? ?], q as [? ? [?] ? ?]. simpl in *. by subst.
Qed.

(** Sealing and verifying with one key agree, whatever the hash. *)
Lemma verify_seal_of_seal `{HmacSha256} key p tag :
  seal_payload key p = Some tag → verify_seal key p tag = Some true.
Proof.
  unfold seal_payload, verify_seal. destruct (serialize_payload p) as [data|]; [|done].
  intros [= <-]. cbn [mbind option_bind tag_bytes]. by rewrite constant_time_eq_spec, bool_decide_eq_true_2.
Qed.

Lemma seal_payload_is_Some `{HmacSha256} key p :
  (∀ i, pay_parent p = Some i → (i < U128_MAX)%N) → is_Some (seal_payload key p).
Proof.
  intros Hp. unfold seal_payload, serialize_payload. fold (parent_val (pay_parent p)).
  destruct (pay_parent p) as [i|]; cbn -[to_le_bytes U128_MAX]; [|by eexists].
  specialize (Hp i eq_refl). unfold checked_add. case_decide; [by eexists|lia].
Qed.

Definition witness_payload (p : option N) : CapPayload :=
  {| pay_holder := 7; pay_target := U128_MAX; pay_rights := Rights_all; pay_parent := p; pay_epoch := 3 |}.

Lemma witness_payload_wf p : (∀ i, p = Some i → (i ≤ U128_MAX)%N) → payload_wf (witness_payload p).
Proof. intros Hp. by split; simpl; auto. Qed.

Lemma serialize_payload_witness :
  let p := witness_payload None in let q := witness_payload (Some 0%N) in
  payload_wf p ∧ payload_wf q ∧
  (serialize_payload p = None ↔ pay_parent p = Some U128_MAX) ∧
  (∀ data, serialize_payload p = Some data → length data = 64%nat) ∧
  (∀ data, serialize_payload p = Some data → serialize_payload q = Some data → p = q).
Proof.
  intros p q. assert (payload_wf p) as Wp by (by apply witness_payload_wf).
  assert (payload_wf q) as Wq by (apply witness_payload_wf; by intros ? [= <-]).
  split; [done|]. split; [done|]. exact (serialize_payload_spec p q Wp Wq).
Defined.
