(* ===== verification/LionRevocation.v ===== *)
(** khive-lion-core/src/state/kernel.rs: key rotation and the capability table
    with its revocation operations.  An operation on [&mut self] returns the
    new state; a panic of the source is [None]. *)

From Stdlib Require Import NArith String.
From stdpp Require Import base tactics list numbers strings pretty gmap.
From S2P Require Import Prelude LionVec LionRights.

(** ** KeyState *)

Record KeyState := {
  current : Key;
  key_epoch : N;
  previous : option Key;
  previous_epoch : option N
}.

Definition KeyState_initial (key : Key) : KeyState :=
  {| current := key; key_epoch := 0; previous := None; previous_epoch := None |}.
Definition KeyState_empty : KeyState :=
  {| current := Key_empty; key_epoch := 0; previous := None; previous_epoch := None |}.

(** [rotate] and [rotated]; the epoch overflow panics. *)
Definition KeyState_rotate (self : KeyState) (new_key : Key) : option KeyState :=
  e ← checked_add U64_MAX (key_epoch self) 1;
  Some {| current := new_key; key_epoch := e; previous := Some (current self);
          previous_epoch := Some (key_epoch self) |}.

Definition epoch_valid (self : KeyState) (cap_epoch : N) : bool :=
  if (key_epoch self <=? cap_epoch)%N then true
  else match previous_epoch self with
       | Some prev_epoch => (prev_epoch <=? cap_epoch)%N
       | None => false
       end.

Definition KeyState_verify_seal `{HmacSha256} (self : KeyState) (payload : CapPayload)
    (tag : SealedTag) : option bool :=
  b ← verify_seal (current self) payload tag;
  if b : bool then Some true
  else match previous self with
       | Some prev_key => verify_seal prev_key payload tag
       | None => Some false
       end.

Definition verify_with_epoch `{HmacSha256} (self : KeyState) (payload : CapPayload)
    (tag : SealedTag) (cap_epoch : N) : option bool :=
  if epoch_valid self cap_epoch then KeyState_verify_seal self payload tag else Some false.

Definition clear_previous (self : KeyState) : KeyState :=
  {| current := current self; key_epoch := key_epoch self; previous := None;
     previous_epoch := None |}.

(** ** KernelError *)

Inductive KernelError : Type :=
| CapNotFound (i : CapId)
| CapIdExhausted
| CapIdCollision (i : CapId)
| InvalidCapability (msg : string)
| CounterOverflow (name : string).

Definition KernelError_display (e : KernelError) : string :=
  match e with
  | CapNotFound i => "Capability " +:+ pretty i +:+ " not found"
  | CapIdExhausted => "Capability ID space exhausted"
  | CapIdCollision i => "Capability ID " +:+ pretty i +:+ " already exists"
  | InvalidCapability msg => "Invalid capability: " +:+ msg
  | CounterOverflow name => name +:+ " counter overflow"
  end.

(** ** RevocationState *)

Abbreviation CapTable := (list (CapId * Capability)) (only parsing).
Abbreviation ChildrenIndex := (list (CapId * list CapId)) (only parsing).

Record RevocationState := {
  caps : CapTable;
  rev_epoch : N;
  children_index : ChildrenIndex
}.

Definition RevocationState_empty : RevocationState :=
  {| caps := []; rev_epoch := 0; children_index := [] |}.

Definition with_caps (self : RevocationState) (c : CapTable) : RevocationState :=
  {| caps := c; rev_epoch := rev_epoch self; children_index := children_index self |}.

Definition find_index (self : RevocationState) (cap_id : CapId) : option nat :=
  ok (binary_search_by_key cap_id (caps self)).

Definition find_insert_pos (self : RevocationState) (cap_id : CapId) : nat * bool :=
  match binary_search_by_key cap_id (caps self) with
  | Ok pos => (pos, true)
  | Err pos => (pos, false)
  end.

Definition RevocationState_get (self : RevocationState) (cap_id : CapId) : option Capability :=
  idx ← find_index self cap_id; snd <$> caps self !! idx.

Definition RevocationState_is_valid (self : RevocationState) (cap_id : CapId) : bool :=
  match RevocationState_get self cap_id with Some cap => valid cap | None => false end.

Definition RevocationState_contains (self : RevocationState) (cap_id : CapId) : bool :=
  match find_index self cap_id with Some _ => true | None => false end.

Definition RevocationState_revoke (self : RevocationState) (cap_id : CapId) : RevocationState :=
  with_caps self (map (λ kv, (kv.1, if (kv.1 =? cap_id)%N then Capability_revoke kv.2 else kv.2))
                    (caps self)).

Definition revoke_mut (self : RevocationState) (cap_id : CapId)
    : RevocationState * result unit KernelError :=
  match find_index self cap_id with
  | Some idx => (with_caps self (update_at Capability_revoke idx (caps self)), Ok ())
  | None => (self, Err (CapNotFound cap_id))
  end.

(** The fuel is the source's own argument. *)
Fixpoint has_ancestor_with_fuel (self : RevocationState) (cap_id ancestor_id : CapId) (fuel : nat)
    : bool :=
  match fuel with
  | O => false
  | S fuel' =>
      match RevocationState_get self cap_id with
      | None => false
      | Some cap =>
          match parent cap with
          | None => false
          | Some parent_id =>
              if (parent_id =? ancestor_id)%N then true
              else has_ancestor_with_fuel self parent_id ancestor_id fuel'
          end
      end
  end.

Definition has_ancestor (self : RevocationState) (cap_id ancestor_id : CapId) : bool :=
  has_ancestor_with_fuel self cap_id ancestor_id (N.to_nat cap_id).

Definition in_revoke_set (self : RevocationState) (k cap_id : CapId) : bool :=
  (k =? cap_id)%N || has_ancestor self k cap_id.

Definition revoke_transitive (self : RevocationState) (cap_id : CapId) : RevocationState :=
  with_caps self (map (λ kv, (kv.1, if in_revoke_set self kv.1 cap_id
                                    then Capability_revoke kv.2 else kv.2)) (caps self)).

Definition revoke_transitive_mut (self : RevocationState) (cap_id : CapId) : RevocationState :=
  let to_revoke :=
    omap (λ '(i, (k, _)), if in_revoke_set self k cap_id then Some i else None)
      (enumerate (caps self)) in
  with_caps self (foldl (λ c idx, update_at Capability_revoke idx c) (caps self) to_revoke).

Definition get_children (self : RevocationState) (parent_id : CapId) : list CapId :=
  match binary_search_by_key parent_id (children_index self) with
  | Ok idx => match children_index self !! idx with Some (_, l) => l | None => [] end
  | Err _ => []
  end.

Definition add_child_to_index (index : ChildrenIndex) (parent_id child_id : CapId) : ChildrenIndex :=
  match binary_search_by_key parent_id index with
  | Ok idx => update_at (λ l, l ++ [child_id]) idx index
  | Err pos => vec_insert pos (parent_id, [child_id]) index
  end.

(** [insert] and [insert_mut] *)
Definition RevocationState_insert (self : RevocationState) (cap : Capability)
    : result RevocationState KernelError :=
  let i := id cap in
  match find_insert_pos self i with
  | (_, true) => Err (CapIdCollision i)
  | (pos, false) =>
      Ok {| caps := vec_insert pos (i, cap) (caps self);
            rev_epoch := rev_epoch self;
            children_index :=
              match parent cap with
              | Some parent_id => add_child_to_index (children_index self) parent_id i
              | None => children_index self
              end |}
  end.

(** The breadth-first traversal: [queue] is a vector read through [head]. *)
Fixpoint collect_loop (self : RevocationState) (fuel : nat) (queue : list CapId) (head : nat)
    (visited : gset CapId) (collected : list CapId) : option (list CapId) :=
  match queue !! head with
  | None => Some collected
  | Some i =>
      match fuel with
      | O => None
      | S fuel' =>
          if decide (i ∈ visited) then collect_loop self fuel' queue (S head) visited collected
          else collect_loop self fuel' (queue ++ get_children self i) (S head)
                 ({[i]} ∪ visited) (collected ++ [i])
      end
  end.

(** Every entry of the index is appended to the queue at most once. *)
Definition collect_fuel (self : RevocationState) : nat :=
  S (sum_list_with (λ kv, length kv.2) (children_index self)).

Definition collect_descendants (self : RevocationState) (cap_id : CapId) : option (list CapId) :=
  collect_loop self (collect_fuel self) [cap_id] 0 ∅ [].

Definition revoke_transitive_fast (self : RevocationState) (cap_id : CapId)
    : option RevocationState :=
  to_revoke ← collect_descendants self cap_id;
  let to_revoke := sort_unstable to_revoke in
  Some (with_caps self (map (λ kv, (kv.1, if is_ok (binary_search kv.1 to_revoke)
                                          then Capability_revoke kv.2 else kv.2)) (caps self))).

Definition revoke_transitive_fast_mut (self : RevocationState) (cap_id : CapId)
    : option (RevocationState * result unit KernelError) :=
  match find_index self cap_id with
  | None => Some (self, Err (CapNotFound cap_id))
  | Some _ =>
      to_revoke ← collect_descendants self cap_id;
      Some (foldl (λ s i, match find_index s i with
                          | Some idx => with_caps s (update_at Capability_revoke idx (caps s))
                          | None => s
                          end) self (sort_unstable to_revoke), Ok ())
  end.

Definition cap_count (self : RevocationState) : nat := length (caps self).

Definition valid_caps (self : RevocationState) : CapTable :=
  filter (λ kv, valid kv.2 = true) (caps self).

Definition cap_ids (self : RevocationState) : list CapId := (caps self).*1.

Definition any_valid_targeting (self : RevocationState) (t : ResourceId) : bool :=
  existsb (λ kv, valid kv.2 && (target kv.2 =? t)%N) (caps self).
