(* ===== verification/LionRevocationFacts.v ===== *)
(** Facts about the capability table: its invariant, the traversal of the
    delegation tree, and the revocation operations. *)

From Stdlib Require Import NArith.
From stdpp Require Import base tactics list numbers sorting gmap.
From S2P Require Import Prelude LionVec LionRights LionRevocation.

(** ** The table as a map *)

Lemma get_bm self k : RevocationState_get self k = bm_get k (caps self).
Proof.
  unfold RevocationState_get, find_index. rewrite <-vec_get_bm. unfold vec_get.
  by destruct (binary_search_by_key k (caps self)).
Qed.

Lemma find_index_Some self k :
  is_Some (find_index self k) ↔ is_Some (RevocationState_get self k).
Proof.
  rewrite get_bm. unfold find_index.
  destruct (binary_search_by_key k (caps self)) as [i|i] eqn:E; simpl.
  - apply search_Ok in E as (v & _ & ->). split; intros; by eexists.
  - apply search_Err in E as ->. done.
Qed.

Lemma contains_get self k :
  RevocationState_contains self k = true ↔ is_Some (RevocationState_get self k).
Proof.
  rewrite <-find_index_Some. unfold RevocationState_contains.
  destruct (find_index self k); [by split|]. split; [done|by intros [? ?]].
Qed.

Lemma get_children_bm self p : get_children self p = default [] (bm_get p (children_index self)).
Proof.
  unfold get_children. rewrite <-vec_get_bm. unfold vec_get.
  destruct (binary_search_by_key p (children_index self)) as [i|]; [|done].
  by destruct (children_index self !! i) as [[? ?]|].
Qed.

Lemma Capability_revoke_idemp c : Capability_revoke (Capability_revoke c) = Capability_revoke c.
Proof. done. Qed.

(** ** The invariant and the delegation tree *)

Definition parent_of (self : RevocationState) (k : CapId) : option CapId :=
  RevocationState_get self k ≫= parent.

Record table_wf (self : RevocationState) : Prop := {
  caps_sorted : bm_wf (caps self);
  caps_keys : ∀ k c, RevocationState_get self k = Some c → id c = k;
  index_sorted : bm_wf (children_index self);
  index_spec : ∀ p k, k ∈ get_children self p ↔ parent_of self k = Some p
}.

(** ParentLt and ValidParentPresent of the source's invariants. *)
Definition parent_lt (self : RevocationState) : Prop :=
  ∀ k p, parent_of self k = Some p → (p < k)%N.
Definition valid_parent_present (self : RevocationState) : Prop :=
  ∀ k p, RevocationState_is_valid self k = true → parent_of self k = Some p →
         RevocationState_is_valid self p = true.

(** [derived self c k]: [k] is [c] or was delegated, in some steps, from it. *)
Inductive derived (self : RevocationState) (c : CapId) : CapId → Prop :=
| derived_refl : derived self c c
| derived_step k p : parent_of self k = Some p → derived self c p → derived self c k.

Lemma table_wf_empty : table_wf RevocationState_empty.
Proof.
  split; [constructor|done|constructor|]. intros p k.
  split; [by intros ?%not_elem_of_nil|done].
Qed.

Lemma insert_Ok self cap self' :
  table_wf self → RevocationState_insert self cap = Ok self' →
  RevocationState_get self (id cap) = None ∧
  caps self' = bm_insert (id cap) cap (caps self) ∧
  children_index self' =
    match parent cap with
    | Some p => bm_insert p (get_children self p ++ [id cap]) (children_index self)
    | None => children_index self
    end.
Proof.
  intros Hw. unfold RevocationState_insert, find_insert_pos. rewrite get_bm.
  destruct (binary_search_by_key (id cap) (caps self)) as [|pos] eqn:E; [done|].
  intros [= <-]. cbn [caps children_index]. split; [by eapply search_Err|].
  split; [by apply vec_insert_bm|]. destruct (parent cap) as [p|]; [|done].
  rewrite get_children_bm. unfold add_child_to_index.
  destruct (binary_search_by_key p (children_index self)) as [i|i] eqn:Ei.
  - destruct (update_at_bm (λ l, l ++ [id cap]) _ _ _ Ei) as (l & -> & ->). done.
  - rewrite (search_Err _ _ _ Ei). by apply vec_insert_bm.
Qed.

Lemma insert_get self cap self' k :
  table_wf self → RevocationState_insert self cap = Ok self' →
  RevocationState_get self' k = if decide (k = id cap) then Some cap else RevocationState_get self k.
Proof.
  intros Hw Hi. destruct (insert_Ok _ _ _ Hw Hi) as (_ & Hc & _).
  rewrite !get_bm, Hc, bm_get_insert; [done|]. apply Hw.
Qed.

Lemma insert_parent_of self cap self' k :
  table_wf self → RevocationState_insert self cap = Ok self' →
  parent_of self' k = if decide (k = id cap) then parent cap else parent_of self k.
Proof.
  intros Hw Hi. unfold parent_of. rewrite (insert_get _ _ _ _ Hw Hi). by case_decide.
Qed.

Lemma insert_wf self cap self' :
  table_wf self → RevocationState_insert self cap = Ok self' → table_wf self'.
Proof.
  intros Hw Hi. destruct (insert_Ok _ _ _ Hw Hi) as (Hn & Hc & Hx). split.
  - rewrite Hc. apply bm_insert_wf, Hw.
  - intros k c. rewrite (insert_get _ _ _ _ Hw Hi). case_decide as E.
    + by intros [= <-].
    + apply Hw.
  - rewrite Hx. destruct (parent cap); [apply bm_insert_wf|]; apply Hw.
  - intros p k. rewrite (insert_parent_of _ _ _ _ Hw Hi), get_children_bm, Hx.
    destruct (parent cap) as [q|] eqn:Hq.
    + rewrite bm_get_insert by apply Hw. destruct (decide (p = q)) as [->|Hpq]; simpl.
      * rewrite elem_of_app, list_elem_of_singleton, (index_spec _ Hw). case_decide as E; [|naive_solver].
        split; [done|]. by right.
      * rewrite <-get_children_bm, (index_spec _ Hw). case_decide as E; [|done]. subst k.
        unfold parent_of. rewrite Hn. split; [done|]. naive_solver.
    + rewrite <-get_children_bm, (index_spec _ Hw). case_decide as E; [|done]. subst k.
      unfold parent_of. by rewrite Hn.
Qed.

Lemma insert_fresh self cap :
  RevocationState_get self (id cap) = None → ∃ self', RevocationState_insert self cap = Ok self'.
Proof.
  intros Hn. unfold RevocationState_insert, find_insert_pos. rewrite get_bm in Hn.
  destruct (binary_search_by_key (id cap) (caps self)) as [i|pos] eqn:E; [|by eexists].
  apply search_Ok in E as (v & _ & E). congruence.
Qed.

Lemma insert_collision self cap c :
  RevocationState_get self (id cap) = Some c →
  RevocationState_insert self cap = Err (CapIdCollision (id cap)).
Proof.
  intros Hn. unfold RevocationState_insert, find_insert_pos. rewrite get_bm in Hn.
  destruct (binary_search_by_key (id cap) (caps self)) as [i|pos] eqn:E; [done|].
  apply search_Err in E. congruence.
Qed.

(** ** The traversal terminates and collects what the index reaches *)

Definition index_edge (self : RevocationState) (p k : CapId) : Prop := k ∈ get_children self p.

(** Entries of the index not yet appended to the queue. *)
Definition pending (l : list (CapId * list CapId)) (visited : gset CapId) : nat :=
  sum_list_with (λ kv, if decide (kv.1 ∈ visited) then 0%nat else length kv.2) l.

Lemma pending_mono l (v w : gset CapId) : v ⊆ w → (pending l w ≤ pending l v)%nat.
Proof.
  intros Hvw. unfold pending. induction l as [|[k x] l IH]; [done|]. cbn [sum_list_with fst snd].
  destruct (decide (k ∈ w)), (decide (k ∈ v)); simpl; lia || set_solver.
Qed.

Lemma pending_visit l (v : gset CapId) i :
  i ∉ v → (pending l ({[i]} ∪ v) + length (default [] (bm_get i l)) ≤ pending l v)%nat.
Proof.
  intros Hi. induction l as [|[k x] l IH]; [done|].
  pose proof (pending_mono l v ({[i]} ∪ v) ltac:(set_solver)) as Hm.
  unfold pending in *. cbn -[cmp] in *.
  destruct (cmp i k) eqn:E; simpl.
  - apply cmp_eq in E as ->. rewrite decide_True by set_solver. rewrite decide_False by done. lia.
  - destruct (decide (k ∈ v)), (decide (k ∈ {[i]} ∪ v)); simpl; lia || set_solver.
  - assert (k ≠ i) by (intros ->; by rewrite cmp_refl in E).
    destruct (decide (k ∈ v)), (decide (k ∈ {[i]} ∪ v)); simpl; lia || set_solver.
Qed.

Lemma collect_closed self c (visited : gset CapId) k :
  rtc (index_edge self) c k →
  c ∈ visited → (∀ i k, i ∈ visited → index_edge self i k → k ∈ visited) → k ∈ visited.
Proof. induction 1 as [|x y z Hxy _ IH]; eauto. Qed.

Lemma collect_done self c (queue : list CapId) head (visited : gset CapId) (collected : list CapId) :
  queue !! head = None → (∀ k, k ∈ visited ↔ k ∈ collected) →
  (∀ k, k ∈ queue → rtc (index_edge self) c k) →
  (∀ i k, i ∈ visited → index_edge self i k → k ∈ queue) →
  (∀ j k, (j < head)%nat → queue !! j = Some k → k ∈ visited) →
  (∀ k, k ∈ visited → k ∈ queue) → c ∈ queue →
  ∀ k, k ∈ collected ↔ rtc (index_edge self) c k.
Proof.
  intros Ei Hv Hq Hc Hh Hs Hst k. rewrite <-Hv.
  apply lookup_ge_None in Ei. split; [by auto|]. intros Hr.
  assert (∀ k, k ∈ queue → k ∈ visited) as Hall.
  { intros x [j Hj]%list_elem_of_lookup. apply (Hh j); [|done]. apply lookup_lt_Some in Hj. lia. }
  eapply (collect_closed _ _ _ _ Hr); eauto.
Qed.

Lemma descend_loop_spec self c fuel queue head visited collected :
  (length queue - head + pending (children_index self) visited ≤ fuel)%nat →
  (∀ k, k ∈ visited ↔ k ∈ collected) → NoDup collected →
  (∀ k, k ∈ queue → rtc (index_edge self) c k) →
  (∀ i k, i ∈ visited → index_edge self i k → k ∈ queue) →
  (∀ j k, (j < head)%nat → queue !! j = Some k → k ∈ visited) →
  (∀ k, k ∈ visited → k ∈ queue) → c ∈ queue →
  ∃ l, collect_loop self fuel queue head visited collected = Some l ∧ NoDup l ∧
       ∀ k, k ∈ l ↔ rtc (index_edge self) c k.
Proof.
  revert queue head visited collected.
  induction fuel as [|fuel IH]; intros queue head visited collected Hf Hv Hd Hq Hc Hh Hs Hst;
    cbn [collect_loop]; destruct (queue !! head) as [i|] eqn:Ei.
  2, 4: by eexists; split_and!; [done..|by eapply collect_done].
  - apply lookup_lt_Some in Ei. lia.
  - pose proof (lookup_lt_Some _ _ _ Ei) as Hlt.
    assert (i ∈ queue) as Hiq by (by eapply list_elem_of_lookup_2).
    destruct (decide (i ∈ visited)) as [Hin|Hnin].
    + apply IH; auto; [lia|]. intros j k Hj Hjk.
      destruct (decide (j = head)) as [->|]; [by simplify_eq|]. apply (Hh j); [lia|done].
    + pose proof (pending_visit (children_index self) visited i Hnin) as Hp.
      rewrite <-get_children_bm in Hp. apply IH.
      * rewrite length_app. lia.
      * intros k. rewrite elem_of_union, elem_of_singleton, elem_of_app, list_elem_of_singleton, Hv. naive_solver.
      * apply NoDup_app. split; [done|]. split; [|apply NoDup_singleton].
        intros k Hk ->%list_elem_of_singleton. by apply Hnin, Hv.
      * intros k [Hk|Hk]%elem_of_app; [by apply Hq|]. eapply rtc_r; [by apply Hq|done].
      * intros x k [->%elem_of_singleton|Hx]%elem_of_union Hk; apply elem_of_app; [by right|].
        left. by eapply Hc.
      * intros j k Hj Hjk. destruct (decide (j = head)) as [->|].
        -- rewrite lookup_app_l in Hjk by done. simplify_eq. set_solver.
        -- apply elem_of_union_r. apply (Hh j); [lia|]. by rewrite lookup_app_l in Hjk by lia.
      * intros k [->%elem_of_singleton|Hk]%elem_of_union; apply elem_of_app; left; auto.
      * apply elem_of_app. by left.
Qed.

Lemma collect_descendants_reach self c :
  ∃ l, collect_descendants self c = Some l ∧ NoDup l ∧ ∀ k, k ∈ l ↔ rtc (index_edge self) c k.
Proof.
  apply descend_loop_spec; try set_solver; [constructor|intros j k Hj; lia].
Qed.

(** ** Revocation *)

Lemma derived_index self c k :
  table_wf self → rtc (index_edge self) c k ↔ derived self c k.
Proof.
  intros Hw. split.
  - revert k. apply rtc_ind_r; [constructor|]. intros x k _ Hk Hd.
    eapply derived_step; [|exact Hd]. by apply (index_spec _ Hw).
  - induction 1 as [|k p Hp Hd IH]; [done|]. eapply rtc_r; [exact IH|]. by apply (index_spec _ Hw).
Qed.

Lemma collect_descendants_spec self c :
  table_wf self →
  ∃ l, collect_descendants self c = Some l ∧ NoDup l ∧ ∀ k, k ∈ l ↔ derived self c k.
Proof.
  intros Hw. destruct (collect_descendants_reach self c) as (l & Hl & Hd & Hk).
  exists l. split_and!; [done..|]. intros k. by rewrite Hk, derived_index.
Qed.

(** A revocation of the entries selected by [f]. *)
Definition revoke_where (f : CapId → bool) (self : RevocationState) : RevocationState :=
  with_caps self (map (λ kv, (kv.1, if f kv.1 then Capability_revoke kv.2 else kv.2)) (caps self)).

Lemma revoke_where_get f self k :
  RevocationState_get (revoke_where f self) k =
  (λ c, if f k then Capability_revoke c else c) <$> RevocationState_get self k.
Proof.
  rewrite !get_bm. unfold revoke_where, with_caps. cbn [caps].
  by rewrite (bm_get_map (λ k c, if f k then Capability_revoke c else c)).
Qed.

Lemma revoke_where_parent_of f self k : parent_of (revoke_where f self) k = parent_of self k.
Proof.
  unfold parent_of. rewrite revoke_where_get.
  destruct (RevocationState_get self k); [|done]. simpl. by destruct (f k).
Qed.

Lemma revoke_where_derived f self c k : derived (revoke_where f self) c k ↔ derived self c k.
Proof.
  split; (induction 1 as [|k p Hp _ IH]; [constructor|]; eapply derived_step; [|exact IH]).
  - by rewrite revoke_where_parent_of in Hp.
  - by rewrite revoke_where_parent_of.
Qed.

Lemma revoke_where_wf f self : table_wf self → table_wf (revoke_where f self).
Proof.
  intros Hw. split.
  - eapply bm_wf_keys; [|apply (caps_sorted _ Hw)]. symmetry.
    apply (fst_map_update (λ k c, if f k then Capability_revoke c else c)).
  - intros k c. rewrite revoke_where_get. intros (c' & Hc & ->)%fmap_Some.
    apply (caps_keys _ Hw) in Hc. by destruct (f k).
  - apply Hw.
  - intros p k. rewrite revoke_where_parent_of. apply (index_spec _ Hw).
Qed.

Lemma revoke_where_ext f g self :
  (∀ k, is_Some (RevocationState_get self k) → f k = g k) → table_wf self →
  revoke_where f self = revoke_where g self.
Proof.
  intros Hfg Hw. unfold revoke_where, with_caps. f_equal. apply map_ext_in.
  intros [k c] Hin. cbn [fst snd]. rewrite Hfg; [done|]. exists c. rewrite get_bm.
  apply elem_of_bm_get; [apply Hw|]. by apply list_elem_of_In.
Qed.

(** Revoking an entry found at an index is revoking one key. *)
Lemma revoke_at self i idx :
  table_wf self → find_index self i = Some idx →
  with_caps self (update_at Capability_revoke idx (caps self)) = revoke_where (N.eqb i) self.
Proof.
  intros Hw Hi. unfold find_index in Hi.
  destruct (binary_search_by_key i (caps self)) as [x|] eqn:E; simplify_eq/=.
  destruct (update_at_bm Capability_revoke _ _ _ E) as (c & Hc & ->).
  unfold revoke_where, with_caps. f_equal. apply bm_ext.
  - apply bm_insert_wf, Hw.
  - eapply bm_wf_keys; [|apply (caps_sorted _ Hw)]. symmetry.
    apply (fst_map_update (λ k c, if N.eqb i k then Capability_revoke c else c)).
  - intros k. rewrite bm_get_insert by apply Hw.
    rewrite (bm_get_map (λ k c, if N.eqb i k then Capability_revoke c else c)).
    case_decide as Ek.
    + subst. rewrite Hc. simpl. by rewrite N.eqb_refl.
    + apply N.eqb_neq in Ek. rewrite N.eqb_sym, Ek. by destruct (bm_get k (caps self)).
Qed.

Lemma revoke_where_or f g self :
  revoke_where f (revoke_where g self) = revoke_where (λ k, g k || f k) self.
Proof.
  unfold revoke_where, with_caps. cbn [caps rev_epoch children_index]. f_equal.
  rewrite map_map. apply map_ext. intros [k c]. simpl. by destruct (f k), (g k).
Qed.

Lemma revoke_where_none self :
  revoke_where (λ _, false) self = self.
Proof.
  destruct self as [c e x]. unfold revoke_where, with_caps. cbn. f_equal.
  rewrite <-(map_id c) at 2. apply map_ext. by intros [].
Qed.

(** Revoking the listed entries one by one. *)
Lemma revoke_each l self :
  table_wf self →
  foldl (λ s i, match find_index s i with
                | Some idx => with_caps s (update_at Capability_revoke idx (caps s))
                | None => s
                end) self l = revoke_where (λ k, bool_decide (k ∈ l)) self.
Proof.
  revert self. induction l as [|i l IH]; intros self Hw.
  - simpl. rewrite <-(revoke_where_none self) at 1. apply revoke_where_ext; [|done].
    done.
  - cbn [foldl]. destruct (find_index self i) as [idx|] eqn:E.
    + rewrite (revoke_at self i idx), IH by auto using revoke_where_wf.
      rewrite revoke_where_or. apply revoke_where_ext; [|done]. intros k _.
      apply eq_true_iff_eq. rewrite orb_true_iff, !bool_decide_eq_true, N.eqb_eq, elem_of_cons. naive_solver.
    + rewrite IH by done. apply revoke_where_ext; [|done]. intros k Hk.
      apply bool_decide_ext. rewrite elem_of_cons.
      split; [by right|]. intros [->|]; [|done].
      apply find_index_Some in Hk. rewrite E in Hk. by destruct Hk.
Qed.

(** The four transitive revocations of state/kernel.rs against the delegation
    tree, and their agreement. *)

(** Selecting by membership in the collected list is selecting the descendants. *)
Lemma revoke_where_derived_spec self c (l : list CapId) k :
  (∀ k, k ∈ l ↔ derived self c k) →
  (derived self c k → RevocationState_get (revoke_where (λ k, bool_decide (k ∈ l)) self) k =
     Capability_revoke <$> RevocationState_get self k) ∧
  (¬ derived self c k → RevocationState_get (revoke_where (λ k, bool_decide (k ∈ l)) self) k =
     RevocationState_get self k).
Proof.
  intros Hl. rewrite revoke_where_get, <-Hl.
  split; intros Hk; case_bool_decide; try done. by destruct (RevocationState_get self k).
Qed.

Lemma fast_where self c l :
  table_wf self → collect_descendants self c = Some l → NoDup l →
  revoke_transitive_fast self c = Some (revoke_where (λ k, bool_decide (k ∈ l)) self).
Proof.
  intros Hw Hl Hd. unfold revoke_transitive_fast. rewrite Hl. simpl. f_equal.
  apply (revoke_where_ext (λ k, is_ok (binary_search k (sort_unstable l)))); [|done]. intros k _.
  apply eq_true_iff_eq. by rewrite bool_decide_eq_true, search_sorted_sort.
Qed.

Lemma fast_mut_where self c cap l :
  table_wf self → RevocationState_get self c = Some cap →
  collect_descendants self c = Some l →
  revoke_transitive_fast_mut self c = Some (revoke_where (λ k, bool_decide (k ∈ l)) self, Ok ()).
Proof.
  intros Hw Hc Hl. unfold revoke_transitive_fast_mut.
  assert (is_Some (find_index self c)) as [idx ->] by (apply find_index_Some; by rewrite Hc).
  rewrite Hl. cbn [mbind option_bind]. rewrite revoke_each by done. do 2 f_equal.
  apply revoke_where_ext; [|done]. intros k _. apply bool_decide_ext. apply elem_of_sort_by.
Qed.

(** The outcome of a revocation: the descendants revoked, the rest untouched. *)
Definition revoked_exactly (self self' : RevocationState) (c : CapId) : Prop :=
  ∀ k, (derived self c k → RevocationState_get self' k =
                           Capability_revoke <$> RevocationState_get self k) ∧
       (¬ derived self c k → RevocationState_get self' k = RevocationState_get self k).

Lemma fast_spec self c cap :
  table_wf self → RevocationState_get self c = Some cap → ∃ self',
    revoke_transitive_fast_mut self c = Some (self', Ok ()) ∧
    revoke_transitive_fast self c = Some self' ∧ table_wf self' ∧ revoked_exactly self self' c.
Proof.
  intros Hw Hc. destruct (collect_descendants_spec self c Hw) as (l & Hl & Hd & Hk).
  eexists. split; [by eapply fast_mut_where|]. split; [by apply fast_where|].
  split; [by apply revoke_where_wf|]. intros k. by apply revoke_where_derived_spec.
Qed.

Lemma derived_em self c k : table_wf self → derived self c k ∨ ¬ derived self c k.
Proof.
  intros Hw. destruct (collect_descendants_spec self c Hw) as (l & _ & _ & Hk).
  rewrite <-Hk. destruct (decide (k ∈ l)); auto.
Qed.

(** C14: Fast transitive revocation terminates, on any well-formed table, with
    exactly the capability and everything delegated from it revoked; the table
    stays well-formed; an unknown identifier is refused without change. *)
Theorem revoke_transitive_fast_spec (self : RevocationState) (c : CapId) :
  table_wf self →
  (RevocationState_get self c = None →
     revoke_transitive_fast_mut self c = Some (self, Err (CapNotFound c))) ∧
  (∀ cap, RevocationState_get self c = Some cap → ∃ self',
     revoke_transitive_fast_mut self c = Some (self', Ok ()) ∧
     revoke_transitive_fast self c = Some self' ∧ table_wf self' ∧ revoked_exactly self self' c).
Proof.
  intros Hw. split; [|intros cap; by apply fast_spec].
  intros Hn. unfold revoke_transitive_fast_mut. destruct (find_index self c) eqn:E; [|done].
  assert (is_Some (find_index self c)) as [? Hs]%find_index_Some by (by rewrite E). congruence.
Qed.

(** ** The ancestor walk *)

(** With parents numbered below their children, the identifier is fuel enough. *)
Lemma has_ancestor_fuel self k c fuel :
  parent_lt self → (N.to_nat k ≤ fuel)%nat →
  has_ancestor_with_fuel self k c fuel = true ↔ ∃ p, parent_of self k = Some p ∧ derived self c p.
Proof.
  intros Hlt. revert k. induction fuel as [|fuel IH]; intros k Hf; cbn [has_ancestor_with_fuel].
  - split; [done|]. intros (p & Hp & _). apply Hlt in Hp. lia.
  - destruct (RevocationState_get self k) as [cap|] eqn:Ek;
      [|split; [done|]; intros (p & Hp & _); unfold parent_of in Hp; by rewrite Ek in Hp].
    destruct (parent cap) as [q|] eqn:Eq;
      [|split; [done|]; intros (p & Hp & _); unfold parent_of in Hp; rewrite Ek in Hp; simpl in Hp; congruence].
    assert (parent_of self k = Some q) as Hq by (unfold parent_of; by rewrite Ek).
    pose proof (Hlt _ _ Hq). destruct (N.eqb_spec q c) as [->|Hqc].
    + split; [|done]. intros _. exists c. split; [done|constructor].
    + rewrite IH by lia. split.
      * intros (p & Hp & Hd). exists q. split; [done|]. by eapply derived_step.
      * intros (p & Hp & Hd). simplify_eq. destruct Hd as [|? r Hr Hd]; [done|]. by exists r.
Qed.

Lemma in_revoke_set_spec self k c :
  parent_lt self → in_revoke_set self k c = true ↔ derived self c k.
Proof.
  intros Hlt. unfold in_revoke_set, has_ancestor.
  rewrite orb_true_iff, N.eqb_eq, has_ancestor_fuel by done. split.
  - intros [->|(p & Hp & Hd)]; [constructor|by eapply derived_step].
  - intros [|? p Hp Hd]; [by left|]. right. eauto.
Qed.

Lemma update_each_lookup l (c : list (CapId * Capability)) i :
  foldl (λ c idx, update_at Capability_revoke idx c) c l !! i =
  (λ kv, if decide (i ∈ l) then (kv.1, Capability_revoke kv.2) else kv) <$> c !! i.
Proof.
  revert c. induction l as [|j l IH]; intros c; cbn [foldl].
  - by destruct (c !! i).
  - rewrite IH. unfold update_at. destruct (decide (i = j)) as [->|Hij].
    + rewrite list_lookup_alter_eq. destruct (c !! j) as [[k v]|]; [|done]. simpl. f_equal.
      rewrite (decide_True (P := j ∈ j :: l)) by left. by destruct (decide (j ∈ l)).
    + rewrite list_lookup_alter_ne by done. destruct (c !! i); [|done]. simpl. f_equal.
      destruct (decide (i ∈ l)), (decide (i ∈ j :: l)); set_solver.
Qed.

Lemma elem_of_to_revoke f (c : list (CapId * Capability)) i :
  i ∈ omap (λ '(j, (k, _)), if (f : CapId → bool) k then Some j else None) (enumerate c) ↔
  ∃ kv : CapId * Capability, c !! i = Some kv ∧ f kv.1 = true.
Proof.
  rewrite list_elem_of_omap. split.
  - intros ([j [k v]] & Hj & He). apply enumerate_elem_of in Hj.
    destruct (f k) eqn:E; [|done]. injection He as ->. by exists (k, v).
  - intros ([k v] & Hi & Hf). exists (i, (k, v)). split; [by apply enumerate_elem_of|].
    simpl in *. by rewrite Hf.
Qed.

(** Revoking through the collected indices is the map over the table. *)
Lemma revoke_transitive_mut_eq self c : revoke_transitive_mut self c = revoke_transitive self c.
Proof.
  unfold revoke_transitive_mut, revoke_transitive, with_caps. f_equal.
  apply list_eq. intros i. rewrite update_each_lookup, list_lookup_fmap.
  destruct (caps self !! i) as [[k v]|] eqn:Ei; [|done]. cbn [fmap option_fmap option_map fst snd].
  f_equal. case_decide as E; rewrite elem_of_to_revoke, Ei in E.
  - destruct E as (kv & [= <-] & Es). simpl in *. by rewrite Es.
  - destruct (in_revoke_set self k c) eqn:Es; [|done]. naive_solver.
Qed.

Lemma where_transitive self c (l : list CapId) :
  table_wf self → parent_lt self → (∀ k, k ∈ l ↔ derived self c k) →
  revoke_where (λ k, bool_decide (k ∈ l)) self = revoke_transitive self c.
Proof.
  intros Hw Hlt Hk. apply (revoke_where_ext _ (λ k, in_revoke_set self k c)); [|done]. intros k _.
  apply eq_true_iff_eq. by rewrite bool_decide_eq_true, Hk, in_revoke_set_spec.
Qed.

Lemma fast_mut_transitive self c cap :
  table_wf self → parent_lt self → RevocationState_get self c = Some cap →
  revoke_transitive_fast_mut self c = Some (revoke_transitive self c, Ok ()).
Proof.
  intros Hw Hlt Hc. destruct (collect_descendants_spec self c Hw) as (l & Hl & Hd & Hk).
  rewrite <-(where_transitive self c l) by done. by eapply fast_mut_where.
Qed.

(** When every parent is numbered below its children, the ancestor walk with
    the identifier as fuel is exact and the four transitive revocations of a
    present capability agree. *)
Theorem revocations_agree (self : RevocationState) (c : CapId) (cap : Capability) :
  table_wf self → parent_lt self → RevocationState_get self c = Some cap →
  (∀ k, in_revoke_set self k c = true ↔ derived self c k) ∧
  revoke_transitive_mut self c = revoke_transitive self c ∧
  revoke_transitive_fast self c = Some (revoke_transitive self c) ∧
  revoke_transitive_fast_mut self c = Some (revoke_transitive self c, Ok ()).
Proof.
  intros Hw Hlt Hc. split; [intros k; by apply in_revoke_set_spec|].
  split; [apply revoke_transitive_mut_eq|]. split; [|by eapply fast_mut_transitive].
  destruct (collect_descendants_spec self c Hw) as (l & Hl & Hd & Hk).
  rewrite <-(where_transitive self c l) by done. by apply fast_where.
Qed.

(** ** A table of four capabilities: 1, its child 2, that one's child 3, and 5. *)

Definition table_cap (i : CapId) (p : option CapId) : Capability :=
  {| id := i; holder := 1; target := 0; rights := Rights_all; parent := p; epoch := 0; valid := true;
     signature := {| tag_bytes := [] |} |}.

Fixpoint insert_all (self : RevocationState) (l : list Capability) : result RevocationState KernelError :=
  match l with
  | [] => Ok self
  | c :: l => let? r := RevocationState_insert self c in insert_all r l
  end.

Lemma insert_all_wf l : ∀ self r, table_wf self → insert_all self l = Ok r → table_wf r.
Proof.
  induction l as [|c l IH]; intros self r Hw; cbn [insert_all]; [by intros [= <-]|].
  destruct (RevocationState_insert self c) as [r'|] eqn:E; [|done]. simpl.
  apply IH. by eapply insert_wf.
Qed.

Definition sample_table : RevocationState :=
  match insert_all RevocationState_empty
    [table_cap 1 None; table_cap 5 None; table_cap 2 (Some 1%N); table_cap 3 (Some 2%N)] with
  | Ok r => r
  | Err _ => RevocationState_empty
  end.

Lemma sample_table_wf : table_wf sample_table.
Proof.
  eapply (insert_all_wf [table_cap 1 None; table_cap 5 None; table_cap 2 (Some 1%N); table_cap 3 (Some 2%N)]
    RevocationState_empty); [apply table_wf_empty|by vm_compute].
Qed.

Lemma sample_parent_lt : parent_lt sample_table.
Proof.
  intros k p. unfold parent_of. rewrite get_bm. intros (c & Hc & Hp)%bind_Some.
  apply elem_of_bm_get in Hc; [|apply sample_table_wf].
  assert (Forall (λ kv : CapId * Capability, from_option (λ p, p < kv.1)%N True (parent kv.2)) (caps sample_table)) as H
    by (repeat constructor; by vm_compute).
  rewrite list.Forall_forall in H. specialize (H _ Hc). cbn [fst snd] in H. by rewrite Hp in H.
Qed.

Lemma revoke_transitive_fast_spec_witness :
  table_wf sample_table ∧ RevocationState_get sample_table 9 = None ∧
  (RevocationState_get sample_table 9 = None →
   revoke_transitive_fast_mut sample_table 9 = Some (sample_table, Err (CapNotFound 9))) ∧
  ∃ self', revoke_transitive_fast_mut sample_table 1 = Some (self', Ok ()) ∧
    table_wf self' ∧ revoked_exactly sample_table self' 1.
Proof.
  split; [exact sample_table_wf|]. split; [done|].
  split; [exact (proj1 (revoke_transitive_fast_spec sample_table 9 sample_table_wf))|].
  destruct (proj2 (revoke_transitive_fast_spec sample_table 1 sample_table_wf) (table_cap 1 None) eq_refl)
    as (self' & H & _ & Hw & Hr).
  by exists self'.
Defined.

Lemma revocations_agree_witness :
  table_wf sample_table ∧ parent_lt sample_table ∧
  RevocationState_get sample_table 1 = Some (table_cap 1 None) ∧
  (∀ k, in_revoke_set sample_table k 1 = true ↔ derived sample_table 1 k) ∧
  revoke_transitive_mut sample_table 1 = revoke_transitive sample_table 1 ∧
  revoke_transitive_fast sample_table 1 = Some (revoke_transitive sample_table 1) ∧
  revoke_transitive_fast_mut sample_table 1 = Some (revoke_transitive sample_table 1, Ok ()).
Proof.
  split; [exact sample_table_wf|]. split; [exact sample_parent_lt|]. split; [done|].
  exact (revocations_agree sample_table 1 (table_cap 1 None) sample_table_wf sample_parent_lt eq_refl).
Defined.
