(* ===== verification/LionMemory.v ===== *)
(** khive-lion-core/src/state/memory.rs: the paged linear memory of a plugin
    and the lifecycle of resources.  [None] is a panic, or fuel running out:
    the facts below show that the bounds-checked operations return. *)

From Stdlib Require Import NArith.
From stdpp Require Import base tactics list numbers gmap.
From S2P Require Import Prelude LionVec LionRights.

Definition PAGE_BITS : N := 12.
Definition PAGE_SIZE : nat := 4096.

Definition page_of (addr : N) : N := N.shiftr addr PAGE_BITS.
Definition offset_in_page (addr : N) : nat :=
  N.to_nat (N.land addr (N.shiftl 1 PAGE_BITS - 1)).

Inductive MemoryError : Type :=
| OutOfBounds (addr : MemAddr) (len bounds : Size)
| DoubleFree (addr : MemAddr)
| UseAfterFree (addr : MemAddr)
| NotAllocated (addr : MemAddr).

Record LinearMemory := {
  pages : gmap N (list u8);
  bounds : Size
}.

Definition LinearMemory_empty (size : Size) : LinearMemory := {| pages := ∅; bounds := size |}.

Definition addr_in_bounds (self : LinearMemory) (addr : MemAddr) (len : Size) : bool :=
  match checked_add U64_MAX addr len with
  | Some e => (e <=? bounds self)%N
  | None => false
  end.

Definition zero_page : list u8 := replicate PAGE_SIZE 0%N.
#[global] Arguments zero_page : simpl never.
#[global] Arguments PAGE_SIZE : simpl never.

Definition memory_read (self : LinearMemory) (addr : MemAddr) : u8 :=
  match pages self !! page_of addr with
  | Some page => nth (offset_in_page addr) page 0%N
  | None => 0%N
  end.

(** [entry(pg).or_insert_with(zero page)], then an update of the page. *)
Definition update_page (self : LinearMemory) (pg : N) (f : list u8 → list u8) : LinearMemory :=
  {| pages := <[pg := f (default zero_page (pages self !! pg))]> (pages self);
     bounds := bounds self |}.

Definition write_mut (self : LinearMemory) (addr : MemAddr) (val : u8) : LinearMemory :=
  update_page self (page_of addr) (<[offset_in_page addr := val]>).

Definition written_bytes (self : LinearMemory) : nat := (size (pages self) * PAGE_SIZE)%nat.

(** [page[off..off + n]] *)
Definition slice {A} (off n : nat) (l : list A) : list A := take n (drop off l).

(** [page[off..off + src.len()].copy_from_slice(src)] *)
Definition copy_from_slice {A} (off : nat) (src page : list A) : list A :=
  take off page ++ src ++ drop (off + length src) page.

(** The loop of [read_range]: each round takes at least one byte. *)
Fixpoint read_loop (self : LinearMemory) (fuel : nat) (pos e : N) (acc : list u8)
    : option (list u8) :=
  if (pos <? e)%N then
    match fuel with
    | O => None
    | S fuel' =>
        let off := offset_in_page pos in
        let page_remaining := (PAGE_SIZE - off)%nat in
        let needed := N.to_nat (e - pos) in
        let chunk := Nat.min page_remaining needed in
        let acc' := match pages self !! page_of pos with
                    | Some page => acc ++ slice off chunk page
                    | None => acc ++ replicate chunk 0%N
                    end in
        read_loop self fuel' (pos + N.of_nat chunk) e acc'
    end
  else Some acc.

Definition read_range (self : LinearMemory) (addr : MemAddr) (len : Size)
    : option (result (list u8) MemoryError) :=
  if addr_in_bounds self addr len
  then v ← read_loop self (N.to_nat len) addr (addr + len) []; Some (Ok v)
  else Some (Err (OutOfBounds addr len (bounds self))).

(** The loop of [write_range_mut] over [data[src_off..]]; the address past the
    chunk is computed in [u64]. *)
Fixpoint write_loop (self : LinearMemory) (fuel : nat) (pos : N) (data : list u8) (src_off : nat)
    : option LinearMemory :=
  if decide (src_off < length data)%nat then
    match fuel with
    | O => None
    | S fuel' =>
        let off := offset_in_page pos in
        let page_remaining := (PAGE_SIZE - off)%nat in
        let remaining_data := (length data - src_off)%nat in
        let chunk := Nat.min page_remaining remaining_data in
        let self' := update_page self (page_of pos)
                       (copy_from_slice off (slice src_off chunk data)) in
        pos' ← checked_add U64_MAX pos (N.of_nat chunk);
        write_loop self' fuel' pos' data (src_off + chunk)
    end
  else Some self.

Definition write_range_mut (self : LinearMemory) (addr : MemAddr) (data : list u8)
    : option LinearMemory := write_loop self (length data) addr data 0.

Definition write_range (self : LinearMemory) (addr : MemAddr) (data : list u8)
    : option (result LinearMemory MemoryError) :=
  let len := N.of_nat (length data) in
  if addr_in_bounds self addr len
  then m ← write_range_mut self addr data; Some (Ok m)
  else Some (Err (OutOfBounds addr len (bounds self))).

(** ** Resource lifecycle *)

Inductive ResourceStatus : Type :=
| Unallocated
| Allocated (owner : PluginId)
| Freed.

Definition is_allocated (self : ResourceStatus) : bool :=
  match self with Allocated _ => true | _ => false end.
Definition status_owner (self : ResourceStatus) : option PluginId :=
  match self with Allocated owner => Some owner | _ => None end.

Record MetaState := {
  meta_resources : gmap MemAddr ResourceStatus;
  freed_set : list MemAddr
}.

Definition MetaState_empty : MetaState := {| meta_resources := ∅; freed_set := [] |}.

Definition is_freed (self : MetaState) (addr : MemAddr) : bool :=
  is_ok (binary_search addr (freed_set self)).

Definition insert_freed_addr (freed : list MemAddr) (addr : MemAddr) : list MemAddr :=
  match binary_search addr freed with
  | Ok _ => freed
  | Err pos => vec_insert pos addr freed
  end.

Definition is_live (self : MetaState) (addr : MemAddr) : bool :=
  match meta_resources self !! addr with
  | Some (Allocated _) => negb (is_freed self addr)
  | _ => false
  end.

(** [alloc] and [alloc_mut] *)
Definition meta_alloc (self : MetaState) (addr : MemAddr) (owner : PluginId) : MetaState :=
  {| meta_resources := <[addr := Allocated owner]> (meta_resources self);
     freed_set := freed_set self |}.

Definition meta_free (self : MetaState) (addr : MemAddr) : MetaState :=
  {| meta_resources := meta_resources self; freed_set := insert_freed_addr (freed_set self) addr |}.

Definition meta_free_mut (self : MetaState) (addr : MemAddr)
    : MetaState * result unit MemoryError :=
  if is_freed self addr then (self, Err (DoubleFree addr))
  else match meta_resources self !! addr with
       | Some (Allocated _) =>
           ({| meta_resources := <[addr := Freed]> (meta_resources self);
               freed_set := insert_freed_addr (freed_set self) addr |}, Ok ())
       | Some Freed => (self, Err (DoubleFree addr))
       | _ => (self, Err (NotAllocated addr))
       end.

Definition allocated_count (self : MetaState) : nat :=
  length (filter (λ kv, is_allocated kv.2 = true) (map_to_list (meta_resources self))).
Definition freed_count (self : MetaState) : nat := length (freed_set self).
Definition resource_count (self : MetaState) : nat := size (meta_resources self).

(** The paged memory is a memory of bytes: range reads and writes across pages
    are what reading and writing the bytes one by one gives. *)

Definition memory_wf (m : LinearMemory) : Prop :=
  map_Forall (λ _ page, length page = PAGE_SIZE) (pages m) ∧ (bounds m ≤ U64_MAX)%N.

(** The addresses [a], [a + 1], … *)
Definition addresses (a : N) (n : nat) : list N := (λ i, a + N.of_nat i)%N <$> seq 0 n.

Lemma addresses_app a n m : addresses a (n + m) = addresses a n ++ addresses (a + N.of_nat n) m.
Proof.
  unfold addresses. rewrite seq_app, fmap_app. f_equal. simpl.
  apply list_eq. intros i. rewrite !list_lookup_fmap. destruct (decide (i < m)%nat).
  - rewrite !lookup_seq_lt by lia. simpl. f_equal. lia.
  - by rewrite !lookup_seq_ge by lia.
Qed.

Lemma page_of_div a : page_of a = (a / 4096)%N.
Proof. unfold page_of. by rewrite N.shiftr_div_pow2. Qed.

Lemma offset_mod a : offset_in_page a = N.to_nat (a mod 4096)%N.
Proof.
  unfold offset_in_page. f_equal. change (N.shiftl 1 PAGE_BITS - 1)%N with (N.ones 12).
  by rewrite N.land_ones.
Qed.

Lemma offset_lt a : (offset_in_page a < PAGE_SIZE)%nat.
Proof. rewrite offset_mod. unfold PAGE_SIZE. pose proof (N.mod_lt a 4096 ltac:(done)). lia. Qed.

(** Addresses of one page. *)
Lemma same_page a i :
  (offset_in_page a + i < PAGE_SIZE)%nat →
  page_of (a + N.of_nat i) = page_of a ∧ offset_in_page (a + N.of_nat i) = (offset_in_page a + i)%nat.
Proof.
  rewrite !page_of_div, !offset_mod. unfold PAGE_SIZE. intros Hi.
  pose proof (N.div_mod' a 4096). pose proof (N.mod_lt a 4096 ltac:(done)).
  assert (a + N.of_nat i = 4096 * (a / 4096) + (a mod 4096 + N.of_nat i))%N as -> by lia.
  split.
  - symmetry. eapply N.div_unique; [|reflexivity]. lia.
  - rewrite <-(N.mod_unique _ 4096 (a / 4096) (a mod 4096 + N.of_nat i)); [lia|lia|done].
Qed.

Lemma address_split a b :
  page_of a = page_of b → offset_in_page a = offset_in_page b → a = b.
Proof.
  rewrite !page_of_div, !offset_mod. intros Hp Ho.
  pose proof (N.div_mod' a 4096). pose proof (N.div_mod' b 4096). lia.
Qed.

(** ** Reading *)

Lemma read_chunk m pos n :
  memory_wf m → (offset_in_page pos + n ≤ PAGE_SIZE)%nat →
  match pages m !! page_of pos with
  | Some page => slice (offset_in_page pos) n page
  | None => replicate n 0%N
  end = memory_read m <$> addresses pos n.
Proof.
  intros [Hw _] Hn. apply list_eq. intros i. unfold addresses.
  rewrite !list_lookup_fmap. destruct (decide (i < n)%nat) as [Hi|Hi].
  - rewrite lookup_seq_lt by done. cbn [fmap option_fmap option_map]. rewrite Nat.add_0_l.
    unfold memory_read. destruct (same_page pos i) as [-> ->]; [lia|].
    destruct (pages m !! page_of pos) as [page|] eqn:Ep.
    + unfold slice. rewrite lookup_take_lt, lookup_drop by done.
      apply Hw in Ep. 
      destruct (lookup_lt_is_Some_2 page (offset_in_page pos + i)) as [x Hx]; [lia|].
      rewrite Hx. f_equal. symmetry. by apply nth_lookup_Some.
    + by rewrite lookup_replicate_2.
  - rewrite (lookup_seq_ge 0) by lia. apply lookup_ge_None.
    destruct (pages m !! page_of pos); [unfold slice; rewrite length_take|rewrite length_replicate]; lia.
Qed.

Lemma read_loop_spec m fuel pos n acc :
  memory_wf m → (n ≤ fuel)%nat →
  read_loop m fuel pos (pos + N.of_nat n) acc = Some (acc ++ (memory_read m <$> addresses pos n)).
Proof.
  intros Hw. revert pos n acc. induction fuel as [|fuel IH]; intros pos n acc Hf; cbn [read_loop].
  - replace n with 0%nat by lia. rewrite N.add_0_r, N.ltb_irrefl. by rewrite app_nil_r.
  - destruct n as [|n']; [by rewrite N.add_0_r, N.ltb_irrefl, app_nil_r|].
    set (n := S n') in *. rewrite (proj2 (N.ltb_lt _ _)) by lia.
    replace (N.to_nat (pos + N.of_nat n - pos)) with n by lia.
    pose proof (offset_lt pos). set (chunk := Nat.min (PAGE_SIZE - offset_in_page pos) n).
    assert ((1 ≤ chunk ≤ n)%nat) as Hchunk by (unfold chunk; lia).
    replace (pos + N.of_nat n)%N with (pos + N.of_nat chunk + N.of_nat (n - chunk))%N by lia.
    rewrite IH by lia. f_equal.
    assert (memory_read m <$> addresses pos n =
      (memory_read m <$> addresses pos chunk) ++
      (memory_read m <$> addresses (pos + N.of_nat chunk) (n - chunk))) as ->.
    { rewrite <-fmap_app, <-addresses_app. do 2 f_equal. lia. }
    rewrite <-(read_chunk m pos chunk) by (unfold chunk; lia || done).
    destruct (pages m !! page_of pos); by rewrite app_assoc.
Qed.

(** ** Writing *)

Lemma update_page_wf m pos src :
  memory_wf m → (offset_in_page pos + length src ≤ PAGE_SIZE)%nat →
  memory_wf (update_page m (page_of pos) (copy_from_slice (offset_in_page pos) src)).
Proof.
  intros [Hw Hb] Hs. split; [|done]. apply map_Forall_insert_2; [|done].
  unfold copy_from_slice. rewrite !length_app, length_take, length_drop.
  destruct (pages m !! page_of pos) as [page|] eqn:Ep; simpl.
  - apply Hw in Ep. lia.
  - unfold PAGE_SIZE in *. lia.
Qed.

Lemma nth_copy_from_slice off src page i :
  (off + length src ≤ length page)%nat →
  nth i (copy_from_slice off src page) 0%N =
  if decide (off ≤ i < off + length src)%nat then nth (i - off) src 0%N else nth i page 0%N.
Proof.
  intros Hl. unfold copy_from_slice. rewrite !nth_lookup. case_decide as Hi.
  - rewrite lookup_app_r by (rewrite length_take; lia). rewrite length_take.
    rewrite lookup_app_l by lia. do 2 f_equal. lia.
  - destruct (decide (i < off)%nat).
    + rewrite lookup_app_l by (rewrite length_take; lia). by rewrite lookup_take_lt.
    + rewrite lookup_app_r by (rewrite length_take; lia). rewrite length_take.
      rewrite lookup_app_r by lia. rewrite lookup_drop. do 2 f_equal. lia.
Qed.

Lemma read_default m a :
  memory_read m a = nth (offset_in_page a) (default zero_page (pages m !! page_of a)) 0%N.
Proof.
  unfold memory_read. destruct (pages m !! page_of a); [done|].
  cbn [default from_option Datatypes.id]. rewrite nth_lookup.
  destruct (zero_page !! offset_in_page a) as [x|] eqn:E; [|done].
  by apply lookup_replicate in E as [-> _].
Qed.

Lemma write_chunk_read m pos src a :
  memory_wf m → (offset_in_page pos + length src ≤ PAGE_SIZE)%nat →
  memory_read (update_page m (page_of pos) (copy_from_slice (offset_in_page pos) src)) a =
  if decide (pos ≤ a < pos + N.of_nat (length src))%N
  then nth (N.to_nat (a - pos)) src 0%N else memory_read m a.
Proof.
  intros [Hw _] Hs. rewrite !read_default. unfold update_page. cbn [pages].
  assert ((pos ≤ a < pos + N.of_nat (length src))%N → page_of a = page_of pos ∧
    offset_in_page a = (offset_in_page pos + N.to_nat (a - pos))%nat) as Hin.
  { intros Ha. replace a with (pos + N.of_nat (N.to_nat (a - pos)))%N at 1 2 by lia.
    apply same_page. lia. }
  destruct (decide (page_of a = page_of pos)) as [Ep|Ep].
  - rewrite Ep, lookup_insert_eq.
    assert (length (default zero_page (pages m !! page_of pos)) = PAGE_SIZE) as Hl.
    { destruct (pages m !! page_of pos) as [page|] eqn:E; [by apply Hw in E|].
      apply length_replicate. }
    set (page := default zero_page (pages m !! page_of pos)) in *. cbn [default from_option Datatypes.id].
    rewrite nth_copy_from_slice by (rewrite Hl; lia).
    case_decide as Hi; case_decide as Ha; try done.
    + destruct (Hin Ha) as [_ ->]. f_equal. lia.
    + exfalso. apply Ha. rewrite !page_of_div, !offset_mod in *.
      pose proof (N.div_mod' a 4096). pose proof (N.div_mod' pos 4096). lia.
    + destruct (Hin Ha) as [_ Ho]. exfalso. apply Hi. rewrite Ho. lia.
  - rewrite lookup_insert_ne by done. case_decide as Ha; [|done]. by destruct (Hin Ha).
Qed.

Lemma write_loop_spec m fuel addr data src_off :
  memory_wf m → (src_off ≤ length data)%nat → (length data - src_off ≤ fuel)%nat →
  (addr + N.of_nat (length data) ≤ U64_MAX)%N →
  ∃ m', write_loop m fuel (addr + N.of_nat src_off) data src_off = Some m' ∧
    memory_wf m' ∧ bounds m' = bounds m ∧
    ∀ a, memory_read m' a =
      if decide (addr + N.of_nat src_off ≤ a < addr + N.of_nat (length data))%N
      then nth (N.to_nat (a - addr)) data 0%N else memory_read m a.
Proof.
  intros Hw Hs Hf Hmax. revert m src_off Hw Hs Hf.
  induction fuel as [|fuel IH]; intros m src_off Hw Hs Hf; cbn [write_loop].
  - rewrite decide_False by lia. exists m. split_and!; try done. intros a.
    by rewrite decide_False by lia.
  - case_decide as Hlt; [|exists m; split_and!; try done; intros a; by rewrite decide_False by lia].
    set (pos := (addr + N.of_nat src_off)%N). pose proof (offset_lt pos).
    set (chunk := Nat.min (PAGE_SIZE - offset_in_page pos) (length data - src_off)).
    assert (1 ≤ chunk ≤ length data - src_off)%nat as Hchunk by (unfold chunk; lia).
    assert (length (slice src_off chunk data) = chunk) as Hl
      by (unfold slice; rewrite length_take, length_drop; lia).
    rewrite (proj2 (checked_add_Some _ _ _ (pos + N.of_nat chunk)%N)) by (split; [done|unfold pos; lia]).
    cbn [mbind option_bind].
    replace (pos + N.of_nat chunk)%N with (addr + N.of_nat (src_off + chunk))%N by (unfold pos; lia).
    assert (offset_in_page pos + length (slice src_off chunk data) ≤ PAGE_SIZE)%nat as Hoff
      by (rewrite Hl; unfold chunk; lia).
    destruct (IH _ (src_off + chunk)%nat (update_page_wf m pos _ Hw Hoff) ltac:(lia) ltac:(lia))
      as (m' & Hm' & Hw' & Hb & Hr).
    exists m'. split_and!; try done. intros a. rewrite Hr, write_chunk_read, Hl by done.
    repeat case_decide; try done; unfold pos in *; try lia.
    unfold slice. rewrite !nth_lookup, lookup_take_lt, lookup_drop by lia. do 2 f_equal. lia.
Qed.

Lemma in_bounds_spec m addr len :
  memory_wf m → addr_in_bounds m addr len = bool_decide (addr + len ≤ bounds m)%N.
Proof.
  intros [_ Hb]. unfold addr_in_bounds, checked_add. case_decide as H; case_bool_decide.
  - by apply N.leb_le.
  - by apply N.leb_gt, N.nle_gt.
  - lia.
  - done.
Qed.

Lemma read_range_spec m addr len :
  memory_wf m →
  read_range m addr len = Some (if decide (addr + len ≤ bounds m)%N
    then Ok (memory_read m <$> addresses addr (N.to_nat len)) else Err (OutOfBounds addr len (bounds m))).
Proof.
  intros Hw. unfold read_range. rewrite in_bounds_spec by done.
  case_bool_decide; [|by rewrite decide_False]. rewrite decide_True by done.
  replace (addr + len)%N with (addr + N.of_nat (N.to_nat len))%N by lia.
  by rewrite read_loop_spec.
Qed.

Lemma addresses_map f addr (data : list N) :
  (∀ i x, data !! i = Some x → f (addr + N.of_nat i)%N = x) →
  f <$> addresses addr (length data) = data.
Proof.
  intros Hf. apply list_eq. intros i. unfold addresses. rewrite !list_lookup_fmap.
  destruct (data !! i) as [x|] eqn:Ei.
  - rewrite lookup_seq_lt by (by eapply lookup_lt_Some). simpl. by rewrite (Hf _ _ Ei).
  - apply lookup_ge_None in Ei. by rewrite lookup_seq_ge.
Qed.

(** A bounds-checked range read or write of the paged memory always
    returns; in bounds it reads, respectively replaces, exactly the bytes of the
    range as a flat memory would, out of bounds (the end overflowing included)
    it is an error; writing then reading a range gives the data back. *)
Theorem memory_ranges_spec (m : LinearMemory) (addr len : N) (data : list u8) :
  memory_wf m →
  let flat := memory_read m in
  read_range m addr len = Some (if decide (addr + len ≤ bounds m)%N
    then Ok (flat <$> addresses addr (N.to_nat len)) else Err (OutOfBounds addr len (bounds m))) ∧
  if decide (addr + N.of_nat (length data) ≤ bounds m)%N
  then ∃ m', write_range m addr data = Some (Ok m') ∧ memory_wf m' ∧ bounds m' = bounds m ∧
    (∀ a, memory_read m' a = if decide (addr ≤ a < addr + N.of_nat (length data))%N
                             then nth (N.to_nat (a - addr)) data 0%N else flat a) ∧
    read_range m' addr (N.of_nat (length data)) = Some (Ok data)
  else write_range m addr data = Some (Err (OutOfBounds addr (N.of_nat (length data)) (bounds m))).
Proof.
  intros Hw flat. split; [by apply read_range_spec|].
  unfold write_range, write_range_mut. rewrite in_bounds_spec by done.
  case_decide as Hin; [rewrite bool_decide_eq_true_2 by done|by rewrite bool_decide_eq_false_2].
  destruct (write_loop_spec m (length data) addr data 0) as (m' & Hm & Hw' & Hb & Hr); [done|lia..| |].
  { destruct Hw as [_ Hb]. lia. }
  rewrite N.add_0_r in Hm, Hr. rewrite Hm. exists m'. split_and!; try done.
  rewrite read_range_spec, Hb, decide_True, Nat2N.id by done. do 2 f_equal.
  apply addresses_map. intros i x Hi. pose proof (lookup_lt_Some _ _ _ Hi).
  rewrite Hr, decide_True by lia. replace (N.to_nat (addr + N.of_nat i - addr)) with i by lia.
  by apply nth_lookup_Some.
Qed.

(** Three bytes written across a page boundary. *)
Definition two_pages : LinearMemory := LinearMemory_empty 8192.

Lemma two_pages_wf : memory_wf two_pages.
Proof. split; [apply map_Forall_empty|done]. Qed.

Lemma memory_ranges_witness :
  memory_wf two_pages ∧
  read_range two_pages 4094 4 = Some (Ok [0; 0; 0; 0]%N) ∧
  ∃ m', write_range two_pages 4095 [1; 2; 3]%N = Some (Ok m') ∧ memory_wf m' ∧
    read_range m' 4095 3 = Some (Ok [1; 2; 3]%N).
Proof.
  split; [apply two_pages_wf|].
  destruct (memory_ranges_spec two_pages 4095 4 [1; 2; 3]%N two_pages_wf) as [_ Hs].
  split; [by vm_compute|].
  rewrite decide_True in Hs by done. destruct Hs as (m' & H1 & H2 & _ & _ & H3). by exists m'.
Defined.
