(* ===== verification/LionWorkflow.v ===== *)
(** khive-lion-core/src/state/workflow.rs: workflow graphs and their node state
    machine.  [None] is the panic of an out-of-range index: LionWorkflowRun
    shows that well-formed instances never meet it.  Counters are [u32]. *)

From Stdlib Require Import NArith.
From stdpp Require Import base tactics list numbers sorting sets.
From S2P Require Import Prelude LionVec LionRights.

Inductive NodeState : Type := Pending | Active | Completed | Failed.
#[export] Instance NodeState_EqDecision : EqDecision NodeState.
Proof. solve_decision. Defined.

Inductive WorkflowStatus : Type := Running | Success | Failure.
#[export] Instance WorkflowStatus_EqDecision : EqDecision WorkflowStatus.
Proof. solve_decision. Defined.

Inductive WorkflowError : Type :=
| NodeNotFound (n : N)
| InvalidTransition (node : N) (from_state to_state : NodeState)
| TimedOut
| DependenciesNotSatisfied (node : N) (deps : list N).

Definition is_pending (self : NodeState) : bool := match self with Pending => true | _ => false end.
Definition is_active (self : NodeState) : bool := match self with Active => true | _ => false end.
Definition is_completed (self : NodeState) : bool :=
  match self with Completed => true | _ => false end.
Definition is_failed (self : NodeState) : bool := match self with Failed => true | _ => false end.
Definition status_is_running (self : WorkflowStatus) : bool :=
  match self with Running => true | _ => false end.

Record Edge := { source : N; edge_target : N }.

Record WorkflowDef := {
  nodes : list N;
  edges : list Edge;
  predecessors : list (list N);
  successors : list (list N);
  node_to_index : list (N * nat)
}.

Definition node_index (self : WorkflowDef) (node_id : N) : option nat :=
  vec_get node_id (node_to_index self).

(** [v[i].push(x)] *)
Definition push_at (i : nat) (x : N) (v : list (list N)) : list (list N) :=
  alter (λ l, l ++ [x]) i v.

(** The body of the loop over the edges. *)
Definition add_edge (d : WorkflowDef) (e : Edge) : WorkflowDef :=
  match node_index d (source e), node_index d (edge_target e) with
  | Some src_idx, Some tgt_idx =>
      {| nodes := nodes d; edges := edges d;
         predecessors := push_at tgt_idx (source e) (predecessors d);
         successors := push_at src_idx (edge_target e) (successors d);
         node_to_index := node_to_index d |}
  | _, _ => d
  end.

Definition build_adjacency (ns : list N) (es : list Edge) : WorkflowDef :=
  let n := length ns in
  let index := sort_by (λ a b : N * nat, cmp a.1 b.1)
                 (map (λ ix, (ix.2, ix.1)) (enumerate ns)) in
  let init := {| nodes := ns; edges := es; predecessors := replicate n [];
                 successors := replicate n []; node_to_index := index |} in
  foldl add_edge init es.

Definition WorkflowDef_new (ns : list N) (es : list Edge) : WorkflowDef := build_adjacency ns es.

(** [dedup_nodes]: drops consecutive repetitions. *)
Fixpoint dedup_nodes (l : list N) : list N :=
  match l with
  | x :: ((y :: _) as l') => if decide (x = y) then dedup_nodes l' else x :: dedup_nodes l'
  | _ => l
  end.

Definition check_edge (ns : list N) (e : Edge) : result unit WorkflowError :=
  if negb (is_ok (binary_search (source e) ns)) then Err (NodeNotFound (source e))
  else if negb (is_ok (binary_search (edge_target e) ns)) then Err (NodeNotFound (edge_target e))
  else Ok ().

Definition WorkflowDef_validated (ns : list N) (es : list Edge) : result WorkflowDef WorkflowError :=
  let ns := dedup_nodes (sort_unstable ns) in
  check? try_each (check_edge ns) es in
  Ok (build_adjacency ns es).

Definition require_node (self : WorkflowDef) (node_id : N) : result nat WorkflowError :=
  ok_or (node_index self node_id) (NodeNotFound node_id).

Definition dependencies (self : WorkflowDef) (n : N) : option (list N) :=
  match node_index self n with
  | Some idx => predecessors self !! idx
  | None => Some []
  end.
Definition dependents (self : WorkflowDef) (n : N) : option (list N) :=
  match node_index self n with
  | Some idx => successors self !! idx
  | None => Some []
  end.
Definition is_source (self : WorkflowDef) (n : N) : option bool :=
  match node_index self n with
  | Some idx => l ← predecessors self !! idx; Some (bool_decide (l = []))
  | None => Some true
  end.
Definition is_sink (self : WorkflowDef) (n : N) : option bool :=
  match node_index self n with
  | Some idx => l ← successors self !! idx; Some (bool_decide (l = []))
  | None => Some true
  end.

(** ** Instances *)

Record WorkflowInstance := {
  workflow_def : WorkflowDef;
  status : WorkflowStatus;
  node_states : list NodeState;
  retries : list N;
  timeout_at : Time;
  pending_ct : N;
  active_ct : N;
  failed_ct : N
}.

(** [as u32] and [+= 1] on [u32]. *)
Definition as_u32 (x : N) : N := (x mod (U32_MAX + 1))%N.

Definition WorkflowInstance_new (def : WorkflowDef) (timeout_at : Time) (max_retries : N)
    : WorkflowInstance :=
  let n := length (nodes def) in
  let retry_val := if (65535 <? max_retries)%N then 65535%N else max_retries in
  {| workflow_def := def; status := Running; node_states := replicate n Pending;
     retries := replicate n retry_val; timeout_at := timeout_at;
     pending_ct := as_u32 (N.of_nat n); active_ct := 0; failed_ct := 0 |}.

Definition get_node_state (self : WorkflowInstance) (n : N) : option NodeState :=
  match node_index (workflow_def self) n with
  | Some idx => node_states self !! idx
  | None => Some Pending
  end.

Definition is_terminal (self : WorkflowInstance) : bool :=
  (pending_ct self =? 0)%N && (active_ct self =? 0)%N.
Definition has_failure (self : WorkflowInstance) : bool := (0 <? failed_ct self)%N.

Definition get_retries (self : WorkflowInstance) (n : N) : option N :=
  match node_index (workflow_def self) n with
  | Some idx => retries self !! idx
  | None => Some 0%N
  end.

(** The loop over the predecessors. *)
Fixpoint all_completed (self : WorkflowInstance) (preds : list N) : option bool :=
  match preds with
  | [] => Some true
  | pred_id :: preds' =>
      match node_index (workflow_def self) pred_id with
      | Some pred_idx =>
          st ← node_states self !! pred_idx;
          if is_completed st then all_completed self preds' else Some false
      | None => all_completed self preds'
      end
  end.

Definition dependencies_satisfied (self : WorkflowInstance) (n : N) : option bool :=
  match node_index (workflow_def self) n with
  | Some idx => preds ← predecessors (workflow_def self) !! idx; all_completed self preds
  | None => Some true
  end.

(** The dependencies reported by the error. *)
Fixpoint unsatisfied (self : WorkflowInstance) (preds : list N) : option (list N) :=
  match preds with
  | [] => Some []
  | pred_id :: preds' =>
      rest ← unsatisfied self preds';
      match node_index (workflow_def self) pred_id with
      | Some pi =>
          st ← node_states self !! pi;
          Some (if is_completed st then rest else pred_id :: rest)
      | None => Some (pred_id :: rest)
      end
  end.

Definition transition (self : WorkflowInstance) (idx : nat) (new_state : NodeState)
    : option WorkflowInstance :=
  old ← node_states self !! idx;
  let dec c (s : NodeState) := if decide (old = s) then (c - 1)%N else c in
  let inc c (s : NodeState) := if decide (new_state = s) then as_u32 (c + 1) else c in
  Some {| workflow_def := workflow_def self; status := status self;
          node_states := <[idx := new_state]> (node_states self);
          retries := retries self; timeout_at := timeout_at self;
          pending_ct := inc (dec (pending_ct self) Pending) Pending;
          active_ct := inc (dec (active_ct self) Active) Active;
          failed_ct := inc (dec (failed_ct self) Failed) Failed |}.

Definition with_status (self : WorkflowInstance) (s : WorkflowStatus) : WorkflowInstance :=
  {| workflow_def := workflow_def self; status := s; node_states := node_states self;
     retries := retries self; timeout_at := timeout_at self; pending_ct := pending_ct self;
     active_ct := active_ct self; failed_ct := failed_ct self |}.
Definition with_retries (self : WorkflowInstance) (r : list N) : WorkflowInstance :=
  {| workflow_def := workflow_def self; status := status self; node_states := node_states self;
     retries := r; timeout_at := timeout_at self; pending_ct := pending_ct self;
     active_ct := active_ct self; failed_ct := failed_ct self |}.

Definition update_workflow_status (self : WorkflowInstance) : WorkflowInstance :=
  if is_terminal self
  then with_status self (if has_failure self then Failure else Success)
  else self.

Abbreviation wf_result := (option (WorkflowInstance * result unit WorkflowError)) (only parsing).

Definition start_node (self : WorkflowInstance) (n : N) : wf_result :=
  match require_node (workflow_def self) n with
  | Err e => Some (self, Err e)
  | Ok idx =>
      st ← node_states self !! idx;
      if negb (is_pending st) then Some (self, Err (InvalidTransition n st Active))
      else
        sat ← dependencies_satisfied self n;
        if negb sat then
          preds ← predecessors (workflow_def self) !! idx;
          u ← unsatisfied self preds;
          Some (self, Err (DependenciesNotSatisfied n u))
        else self' ← transition self idx Active; Some (self', Ok ())
  end.

Definition complete_node (self : WorkflowInstance) (n : N) : wf_result :=
  match require_node (workflow_def self) n with
  | Err e => Some (self, Err e)
  | Ok idx =>
      st ← node_states self !! idx;
      if negb (is_active st) then Some (self, Err (InvalidTransition n st Completed))
      else self' ← transition self idx Completed; Some (update_workflow_status self', Ok ())
  end.

Definition fail_node (self : WorkflowInstance) (n : N) : wf_result :=
  match require_node (workflow_def self) n with
  | Err e => Some (self, Err e)
  | Ok idx =>
      st ← node_states self !! idx;
      if negb (is_active st) then Some (self, Err (InvalidTransition n st Failed))
      else
        r ← retries self !! idx;
        if (0 <? r)%N then
          self' ← transition self idx Pending;
          Some (with_retries self' (<[idx := (r - 1)%N]> (retries self')), Ok ())
        else
          self' ← transition self idx Failed;
          Some (with_status self' Failure, Ok ())
  end.

Definition apply_timeout (self : WorkflowInstance) : WorkflowInstance := with_status self Failure.

Definition measure (self : WorkflowInstance) (now : Time) : N :=
  let time_left := (timeout_at self - now)%N in
  let retries_remaining := foldl (λ acc r, saturating_add U64_MAX acc r) 0%N (retries self) in
  saturating_add U64_MAX
    (saturating_add U64_MAX
       (saturating_add U64_MAX time_left (saturating_mul U64_MAX (pending_ct self) 1000))
       (saturating_mul U64_MAX (active_ct self) 100))
    (saturating_mul U64_MAX retries_remaining 1000).

(** Facts about workflow graphs and instances: validated definitions, the
    invariant of instances, the operations on nodes, termination, progress. *)

(** ** Definitions *)

Lemma sort_by_sorted_id {T} (f : T → T → comparison) l :
  StronglySorted (le_by f) l → sort_by f l = l.
Proof.
  induction 1 as [|x l Hl IH Hx]; [done|]. simpl. rewrite IH. destruct l as [|y l]; [done|].
  apply Forall_cons in Hx as [Hxy _]. unfold le_by in Hxy. simpl. by destruct (f x y).
Qed.

Lemma sorted_lt_le (l : list N) : StronglySorted cmp_lt l → StronglySorted (le_by cmp) l.
Proof.
  induction 1 as [|x l Hl IH Hx]; constructor; [done|].
  eapply Forall_impl; [exact Hx|]. unfold cmp_lt, le_by. intros y. by intros ->.
Qed.

Lemma dedup_cons x y l :
  dedup_nodes (x :: y :: l) = if decide (x = y) then dedup_nodes (y :: l) else x :: dedup_nodes (y :: l).
Proof. done. Qed.

Lemma dedup_spec l :
  StronglySorted (le_by cmp) l → StronglySorted cmp_lt (dedup_nodes l) ∧ ∀ x, x ∈ dedup_nodes l ↔ x ∈ l.
Proof.
  induction 1 as [|x l Hl [IHs IHe] Hx]; [by split; [constructor|]|].
  destruct l as [|y l]; [by split; [repeat constructor|]|].
  rewrite dedup_cons. case_decide as Hxy.
  - subst y. split; [done|]. intros z. rewrite IHe. set_solver.
  - split; [|intros z; rewrite elem_of_cons, IHe; set_solver].
    constructor; [done|]. apply Forall_forall. intros z Hz. apply IHe in Hz.
    rewrite Forall_forall in Hx. pose proof (Hx z Hz) as Hle.
    assert (x ≠ z).
    { intros <-. apply elem_of_cons in Hz as [?|Hz]; [done|].
      apply StronglySorted_cons in Hl as [Hy _]. rewrite Forall_forall in Hy.
      specialize (Hy x Hz). specialize (Hx y ltac:(by left)). unfold le_by in *.
      rewrite (cmp_flip x y) in Hy. destruct (cmp x y) eqn:E; try done. by apply cmp_eq in E. }
    unfold cmp_lt, le_by in *. destruct (cmp x z) eqn:E; try done. by apply cmp_eq in E.
Qed.

Definition index_of (ns : list N) : list (N * nat) := map (λ ix, (ix.2, ix.1)) (enumerate ns).

Lemma index_of_keys ns : (index_of ns).*1 = ns.
Proof.
  apply list_eq. intros i. unfold index_of. rewrite !list_lookup_fmap, enumerate_lookup.
  by destruct (ns !! i).
Qed.

Lemma index_of_wf ns : StronglySorted cmp_lt ns → bm_wf (index_of ns).
Proof. unfold bm_wf. by rewrite index_of_keys. Qed.

Lemma index_of_sorted ns :
  StronglySorted cmp_lt ns → sort_by (λ a b : N * nat, cmp a.1 b.1) (index_of ns) = index_of ns.
Proof.
  intros Hs. apply sort_by_sorted_id. pose proof (index_of_keys ns) as Hk. revert Hk.
  generalize (index_of ns). intros l <-. induction l as [|[k i] l IH]; [constructor|].
  rewrite fmap_cons, StronglySorted_cons in Hs. destruct Hs as [Hk Hs]. constructor; [auto|].
  rewrite Forall_fmap in Hk. eapply Forall_impl; [exact Hk|]. intros [k' i']. unfold cmp_lt, le_by. simpl.
  by intros ->.
Qed.

Lemma index_of_get ns n i :
  StronglySorted cmp_lt ns → vec_get n (index_of ns) = Some i ↔ ns !! i = Some n.
Proof.
  intros Hs. rewrite vec_get_bm, <-elem_of_bm_get by (by apply index_of_wf).
  unfold index_of. rewrite <-enumerate_elem_of. setoid_rewrite list_elem_of_fmap. split.
  - by intros ([j m] & [= -> ->] & Hj).
  - intros Hi. by exists (i, n).
Qed.

(** The sources of the edges into a node, and the targets of those out of it. *)
Definition preds_of (es : list Edge) (n : N) : list N :=
  source <$> filter (λ e, edge_target e = n) es.
Definition succs_of (es : list Edge) (n : N) : list N :=
  edge_target <$> filter (λ e, source e = n) es.

(** What validation establishes and [build_adjacency] keeps. *)
Record def_wf (d : WorkflowDef) : Prop := {
  nodes_sorted : StronglySorted cmp_lt (nodes d);
  edges_in : Forall (λ e, source e ∈ nodes d ∧ edge_target e ∈ nodes d) (edges d);
  index_spec : ∀ n i, node_index d n = Some i ↔ nodes d !! i = Some n;
  predecessors_spec : predecessors d = preds_of (edges d) <$> nodes d;
  successors_spec : successors d = succs_of (edges d) <$> nodes d
}.

Lemma push_at_fmap (f g : N → list N) (ns : list N) i n x :
  ns !! i = Some n → (∀ j m, ns !! j = Some m → g m = if decide (m = n) then f m ++ [x] else f m) →
  NoDup ns → push_at i x (f <$> ns) = g <$> ns.
Proof.
  intros Hi Hg Hd. unfold push_at. apply list_eq. intros j. rewrite list_lookup_fmap.
  destruct (decide (i = j)) as [<-|Hij].
  - rewrite list_lookup_alter_eq, list_lookup_fmap, Hi. simpl. f_equal. rewrite (Hg i n Hi).
    by rewrite decide_True.
  - rewrite list_lookup_alter_ne by done. rewrite list_lookup_fmap.
    destruct (ns !! j) as [m|] eqn:Ej; [|done]. simpl. f_equal. rewrite (Hg j m Ej).
    rewrite decide_False; [done|]. intros ->. apply Hij. by eapply NoDup_lookup.
Qed.


Lemma preds_of_snoc es e m :
  preds_of (es ++ [e]) m = if decide (m = edge_target e) then preds_of es m ++ [source e] else preds_of es m.
Proof.
  unfold preds_of. rewrite filter_app, fmap_app, filter_cons, filter_nil.
  repeat case_decide; try done; try congruence. by rewrite app_nil_r.
Qed.
Lemma succs_of_snoc es e m :
  succs_of (es ++ [e]) m = if decide (m = source e) then succs_of es m ++ [edge_target e] else succs_of es m.
Proof.
  unfold succs_of. rewrite filter_app, fmap_app, filter_cons, filter_nil.
  repeat case_decide; try done; try congruence. by rewrite app_nil_r.
Qed.

Lemma add_edges_spec ns full es :
  StronglySorted cmp_lt ns → Forall (λ e, source e ∈ ns ∧ edge_target e ∈ ns) es →
  let init := {| nodes := ns; edges := full; predecessors := replicate (length ns) [];
                 successors := replicate (length ns) []; node_to_index := index_of ns |} in
  foldl add_edge init es =
    {| nodes := ns; edges := full; predecessors := preds_of es <$> ns;
       successors := succs_of es <$> ns; node_to_index := index_of ns |}.
Proof.
  intros Hs Hes init. pose proof (cmp_sorted_NoDup _ Hs) as Hd.
  induction es as [|e es IH] using rev_ind.
  - unfold init. cbn [foldl]. f_equal; symmetry; by apply const_fmap.
  - apply Forall_app in Hes as [Hes [[[i Hi]%list_elem_of_lookup [j Hj]%list_elem_of_lookup] _]%Forall_cons].
    rewrite foldl_app, IH by done. cbn [foldl]. unfold add_edge at 1, node_index.
    cbn [node_to_index nodes edges predecessors successors].
    rewrite (proj2 (index_of_get ns _ _ Hs) Hi), (proj2 (index_of_get ns _ _ Hs) Hj). f_equal.
    + eapply push_at_fmap; [exact Hj| |done]. intros _ m _. apply preds_of_snoc.
    + eapply push_at_fmap; [exact Hi| |done]. intros _ m _. apply succs_of_snoc.
Qed.

Lemma build_adjacency_wf ns es :
  StronglySorted cmp_lt ns → Forall (λ e, source e ∈ ns ∧ edge_target e ∈ ns) es →
  def_wf (build_adjacency ns es) ∧ nodes (build_adjacency ns es) = ns ∧
  edges (build_adjacency ns es) = es.
Proof.
  intros Hs Hes. unfold build_adjacency. fold (index_of ns).
  rewrite index_of_sorted, add_edges_spec by done. split; [|done].
  split; try done. intros n i. by apply index_of_get.
Qed.

Lemma check_edge_Ok ns e :
  StronglySorted cmp_lt ns → check_edge ns e = Ok () ↔ source e ∈ ns ∧ edge_target e ∈ ns.
Proof.
  intros Hs. unfold check_edge. rewrite <-!binary_search_elem by done.
  by destruct (is_ok (binary_search (source e) ns)), (is_ok (binary_search (edge_target e) ns));
    simpl; naive_solver.
Qed.

(** A definition is accepted exactly when all edge endpoints are among the
    nodes; then its nodes are the given ones, sorted and without repetition, and
    the dependencies and dependents of a node are the sources and targets of the
    edges into and out of it, in edge order. *)
Theorem validated_spec (ns : list N) (es : list Edge) :
  (Forall (λ e, source e ∈ ns ∧ edge_target e ∈ ns) es → ∃ d,
     WorkflowDef_validated ns es = Ok d ∧ def_wf d ∧ edges d = es ∧ (∀ n, n ∈ nodes d ↔ n ∈ ns) ∧
     ∀ n, n ∈ ns → dependencies d n = Some (preds_of es n) ∧ dependents d n = Some (succs_of es n)) ∧
  (¬ Forall (λ e, source e ∈ ns ∧ edge_target e ∈ ns) es → ∃ n,
     WorkflowDef_validated ns es = Err (NodeNotFound n) ∧ n ∉ ns).
Proof.
  destruct (dedup_spec (sort_unstable ns)) as [Hs He]; [apply sort_by_sorted; apply _|].
  assert (∀ x, x ∈ dedup_nodes (sort_unstable ns) ↔ x ∈ ns) as Hin
    by (intros x; rewrite He; apply elem_of_sort_by).
  unfold WorkflowDef_validated. set (ns' := dedup_nodes (sort_unstable ns)) in *.
  assert (∀ e, check_edge ns' e = Ok () ↔ source e ∈ ns ∧ edge_target e ∈ ns) as Hck.
  { intros e. by rewrite check_edge_Ok, !Hin. }
  split.
  - intros Hes. assert (try_each (check_edge ns') es = Ok ()) as ->.
    { apply try_each_Ok. eapply Forall_impl; [exact Hes|]. intros e. apply Hck. }
    destruct (build_adjacency_wf ns' es) as (Hw & Hn & Hed); [done| |].
    { eapply Forall_impl; [exact Hes|]. intros e. by rewrite !Hin. }
    eexists. split; [done|]. rewrite Hn. split_and!; try done.
    intros n [i Hi]%Hin%list_elem_of_lookup. unfold dependencies, dependents.
    rewrite (proj2 (index_spec _ Hw n i)) by (by rewrite Hn).
    rewrite (predecessors_spec _ Hw), (successors_spec _ Hw), Hn, Hed, !list_lookup_fmap, Hi. done.
  - intros Hes. destruct (try_each (check_edge ns') es) as [[]|e] eqn:E.
    + apply try_each_Ok in E. destruct Hes. eapply Forall_impl; [exact E|]. intros e. apply Hck.
    + apply try_each_Err in E as (x & _ & Hx). unfold check_edge in Hx.
      destruct (is_ok (binary_search (source x) ns')) eqn:E1; simpl in Hx;
        [destruct (is_ok (binary_search (edge_target x) ns')) eqn:E2; simpl in Hx|]; simplify_eq;
        eexists; (split; [done|]); rewrite <-Hin, <-binary_search_elem by done; congruence.
Qed.
