(* ===== verification/LionWorkflowRun.v ===== *)
(** Workflow instances: the invariant, the operations on nodes, termination
    and progress. *)

From Stdlib Require Import NArith.
From stdpp Require Import base tactics list numbers sorting sets.
From S2P Require Import Prelude LionVec LionRights LionWorkflow.

(** The number of nodes in a state. *)
Definition state_count (s : NodeState) (l : list NodeState) : nat := length (filter (λ x, x = s) l).

(** The dense arrays cover the nodes and the counters count them. *)
Record wi_wf (w : WorkflowInstance) : Prop := {
  wi_def : def_wf (workflow_def w);
  wi_states : length (node_states w) = length (nodes (workflow_def w));
  wi_retries : length (retries w) = length (nodes (workflow_def w));
  wi_small : (N.of_nat (length (nodes (workflow_def w))) ≤ U32_MAX)%N;
  wi_retry_u16 : Forall (λ r, r ≤ U16_MAX)%N (retries w);
  wi_pending : pending_ct w = N.of_nat (state_count Pending (node_states w));
  wi_active : active_ct w = N.of_nat (state_count Active (node_states w));
  wi_failed : failed_ct w = N.of_nat (state_count Failed (node_states w))
}.

Lemma state_count_le s l : (state_count s l ≤ length l)%nat.
Proof. apply length_filter. Qed.

Lemma state_count_insert s l i old new :
  l !! i = Some old →
  (state_count s (<[i := new]> l) + (if decide (old = s) then 1 else 0) =
   state_count s l + (if decide (new = s) then 1 else 0))%nat.
Proof.
  unfold state_count. revert i. induction l as [|x l IH]; intros i Hi; [done|].
  destruct i as [|i]; simpl in Hi.
  - injection Hi as ->. simpl. rewrite !filter_cons. repeat case_decide; simpl; lia.
  - specialize (IH i Hi). simpl. rewrite !filter_cons. repeat case_decide; simpl in *; lia.
Qed.

Lemma state_count_zero s l : state_count s l = 0%nat ↔ s ∉ l.
Proof.
  unfold state_count. split.
  - intros H Hin. apply length_zero_iff_nil in H.
    assert (s ∈ filter (λ x, x = s) l) as Hf by (by apply list_elem_of_filter).
    rewrite H in Hf. by apply not_elem_of_nil in Hf.
  - intros H. apply length_zero_iff_nil. apply elem_of_nil_inv. intros x [-> Hx]%list_elem_of_filter. done.
Qed.

Lemma as_u32_small x : (x ≤ U32_MAX)%N → as_u32 x = x.
Proof. intros. unfold as_u32. apply N.mod_small. lia. Qed.

Lemma state_count_pos s l i : l !! i = Some s → (0 < state_count s l)%nat.
Proof.
  intros Hi. destruct (decide (state_count s l = 0%nat)) as [Hz|]; [|lia].
  apply state_count_zero in Hz. destruct Hz. by eapply list_elem_of_lookup_2.
Qed.

(** The counters after a transition. *)
Lemma counter_update s l idx old new c n :
  l !! idx = Some old → length l = n → (N.of_nat n ≤ U32_MAX)%N → c = N.of_nat (state_count s l) →
  (let d := if decide (old = s) then (c - 1)%N else c in
   if decide (new = s) then as_u32 (d + 1) else d) = N.of_nat (state_count s (<[idx := new]> l)).
Proof.
  intros Hi Hl Hn ->. pose proof (state_count_insert s l idx old new Hi) as Hc.
  pose proof (state_count_le s (<[idx := new]> l)) as Hle. rewrite length_insert in Hle.
  cbv zeta. destruct (decide (old = s)) as [->|], (decide (new = s)) as [->|]; try lia.
  - pose proof (state_count_pos _ _ _ Hi). rewrite as_u32_small; lia.
  - rewrite as_u32_small; lia.
Qed.

Lemma transition_spec w idx old new :
  wi_wf w → node_states w !! idx = Some old →
  ∃ w', transition w idx new = Some w' ∧ wi_wf w' ∧
    workflow_def w' = workflow_def w ∧ status w' = status w ∧ timeout_at w' = timeout_at w ∧
    retries w' = retries w ∧ node_states w' = <[idx := new]> (node_states w).
Proof.
  intros Hw Hi. destruct Hw. unfold transition. rewrite Hi. eexists. split; [done|].
  split; [|done]. split; cbn [workflow_def node_states retries pending_ct active_ct failed_ct]; try done.
  - by rewrite length_insert.
  - by eapply counter_update.
  - by eapply counter_update.
  - by eapply counter_update.
Qed.

(** ** Reading an instance by node *)

Lemma node_lookup w n idx :
  wi_wf w → node_index (workflow_def w) n = Some idx →
  nodes (workflow_def w) !! idx = Some n ∧ is_Some (node_states w !! idx) ∧ is_Some (retries w !! idx).
Proof.
  intros Hw Hi. apply (index_spec _ (wi_def _ Hw)) in Hi. pose proof (lookup_lt_Some _ _ _ Hi).
  split; [done|]. split; apply lookup_lt_is_Some; rewrite ?(wi_states _ Hw), ?(wi_retries _ Hw); done.
Qed.

Lemma node_index_None w n :
  wi_wf w → node_index (workflow_def w) n = None ↔ n ∉ nodes (workflow_def w).
Proof.
  intros Hw. split.
  - intros Hn [i Hi]%list_elem_of_lookup. apply (index_spec _ (wi_def _ Hw)) in Hi. congruence.
  - intros Hn. destruct (node_index (workflow_def w) n) as [i|] eqn:E; [|done].
    apply (index_spec _ (wi_def _ Hw)) in E. destruct Hn. by eapply list_elem_of_lookup_2.
Qed.

(** The dependencies of a node that are not completed. *)
Definition open_deps (w : WorkflowInstance) (n : N) : list N :=
  filter (λ p, get_node_state w p ≠ Some Completed) (preds_of (edges (workflow_def w)) n).

Lemma pred_in_nodes w n p :
  wi_wf w → p ∈ preds_of (edges (workflow_def w)) n → p ∈ nodes (workflow_def w).
Proof.
  intros Hw (e & -> & [_ He]%list_elem_of_filter)%list_elem_of_fmap.
  pose proof (edges_in _ (wi_def _ Hw)) as Hf. rewrite Forall_forall in Hf. by apply Hf in He as [].
Qed.

Lemma get_node_state_in w n :
  wi_wf w → n ∈ nodes (workflow_def w) →
  ∃ idx s, node_index (workflow_def w) n = Some idx ∧ node_states w !! idx = Some s ∧
    get_node_state w n = Some s.
Proof.
  intros Hw [idx Hi]%list_elem_of_lookup. apply (index_spec _ (wi_def _ Hw)) in Hi.
  destruct (node_lookup _ _ _ Hw Hi) as (_ & [s Hs] & _). exists idx, s.
  split_and!; try done. unfold get_node_state. by rewrite Hi.
Qed.

Lemma deps_loops w preds :
  wi_wf w → Forall (λ p, p ∈ nodes (workflow_def w)) preds →
  all_completed w preds =
    Some (bool_decide (filter (λ p, get_node_state w p ≠ Some Completed) preds = [])) ∧
  unsatisfied w preds = Some (filter (λ p, get_node_state w p ≠ Some Completed) preds).
Proof.
  intros Hw. induction 1 as [|p preds Hp _ [IH1 IH2]]; [done|].
  destruct (get_node_state_in w p Hw Hp) as (i & s & Hi & Hs & Hg).
  cbn [all_completed unsatisfied]. rewrite Hi, Hs, IH1, IH2, filter_cons, Hg. cbn [mbind option_bind].
  by destruct s.
Qed.

Lemma preds_lookup w n idx :
  wi_wf w → node_index (workflow_def w) n = Some idx →
  predecessors (workflow_def w) !! idx = Some (preds_of (edges (workflow_def w)) n).
Proof.
  intros Hw Hi. apply (index_spec _ (wi_def _ Hw)) in Hi.
  by rewrite (predecessors_spec _ (wi_def _ Hw)), list_lookup_fmap, Hi.
Qed.

Lemma preds_Forall w n :
  wi_wf w → Forall (λ p, p ∈ nodes (workflow_def w)) (preds_of (edges (workflow_def w)) n).
Proof. intros Hw. apply Forall_forall. intros p. by apply pred_in_nodes. Qed.

Lemma state_count_replicate s t n :
  state_count s (replicate n t) = if decide (t = s) then n else 0%nat.
Proof.
  induction n as [|n IH]; [by case_decide|]. unfold state_count in *. cbn [replicate].
  rewrite filter_cons. case_decide; simpl; [by rewrite IH|done].
Qed.

Lemma instance_new_wf d t r :
  def_wf d → (N.of_nat (length (nodes d)) ≤ U32_MAX)%N → wi_wf (WorkflowInstance_new d t r).
Proof.
  intros Hd Hn.
  split; cbn [WorkflowInstance_new workflow_def node_states retries pending_ct active_ct failed_ct];
    rewrite ?length_replicate, ?state_count_replicate; try done.
  - apply Forall_replicate. unfold U16_MAX. destruct (N.ltb_spec 65535 r); lia.
  - by rewrite as_u32_small.
Qed.

(** ** The operations *)

(** The effect of an operation on the reading of the nodes. *)
Definition node_effect (w w' : WorkflowInstance) (n : N) (s : NodeState) (r : option N) : Prop :=
  workflow_def w' = workflow_def w ∧ timeout_at w' = timeout_at w ∧
  (∀ m, get_node_state w' m = if decide (m = n) then Some s else get_node_state w m) ∧
  (∀ m, get_retries w' m = if decide (m = n) then r else get_retries w m).

Lemma node_effect_insert w w' n idx s (r : N) :
  wi_wf w → node_index (workflow_def w) n = Some idx →
  workflow_def w' = workflow_def w → timeout_at w' = timeout_at w →
  node_states w' = <[idx := s]> (node_states w) → retries w' = <[idx := r]> (retries w) →
  node_effect w w' n s (Some r).
Proof.
  intros Hw Hi Hd Ht Hs Hr. destruct (node_lookup _ _ _ Hw Hi) as (Hn & Ls & Lr).
  apply lookup_lt_is_Some in Ls, Lr.
  split; [done|]. split; [done|]. unfold get_node_state, get_retries. rewrite Hd, Hs, Hr.
  split; intros m; case_decide as Hm.
  1, 3: (subst m; rewrite Hi; by apply list_lookup_insert_eq).
  all: destruct (node_index (workflow_def w) m) as [j|] eqn:Hj; [|done];
    apply list_lookup_insert_ne; intros <-;
    apply (index_spec _ (wi_def _ Hw)) in Hj; congruence.
Qed.

(** What every operation does on an unknown node or in the wrong state. *)
Definition refused (w : WorkflowInstance) (n : N) (from to : NodeState)
    (r : option (WorkflowInstance * result unit WorkflowError)) : Prop :=
  (n ∉ nodes (workflow_def w) → r = Some (w, Err (NodeNotFound n))) ∧
  (∀ s, n ∈ nodes (workflow_def w) → get_node_state w n = Some s → s ≠ from →
        r = Some (w, Err (InvalidTransition n s to))).

Ltac known_node w n Hw :=
  let Hn := fresh "Hn" in let Hg := fresh "Hg" in
  intros Hn; destruct (get_node_state_in w n Hw Hn) as (idx & st & Hi & Hs & Hg).

Lemma start_refused w n : wi_wf w → refused w n Pending Active (start_node w n).
Proof.
  intros Hw. unfold start_node, require_node. split.
  - intros Hn%(node_index_None w n Hw). by rewrite Hn.
  - intros s. known_node w n Hw. rewrite Hi. cbn [ok_or]. rewrite Hs, Hg. intros [= ->]. by destruct s.
Qed.
Lemma complete_refused w n : wi_wf w → refused w n Active Completed (complete_node w n).
Proof.
  intros Hw. unfold complete_node, require_node. split.
  - intros Hn%(node_index_None w n Hw). by rewrite Hn.
  - intros s. known_node w n Hw. rewrite Hi. cbn [ok_or]. rewrite Hs, Hg. intros [= ->]. by destruct s.
Qed.
Lemma fail_refused w n : wi_wf w → refused w n Active Failed (fail_node w n).
Proof.
  intros Hw. unfold fail_node, require_node. split.
  - intros Hn%(node_index_None w n Hw). by rewrite Hn.
  - intros s. known_node w n Hw. rewrite Hi. cbn [ok_or]. rewrite Hs, Hg. intros [= ->]. by destruct s.
Qed.

Lemma start_accepted w n :
  wi_wf w → n ∈ nodes (workflow_def w) → get_node_state w n = Some Pending →
  if decide (open_deps w n = [])
  then ∃ w', start_node w n = Some (w', Ok ()) ∧ wi_wf w' ∧ status w' = status w ∧
             node_effect w w' n Active (get_retries w n)
  else start_node w n = Some (w, Err (DependenciesNotSatisfied n (open_deps w n))).
Proof.
  intros Hw. known_node w n Hw. rewrite Hg. intros [= ->].
  destruct (deps_loops w _ Hw (preds_Forall w n Hw)) as [Hall Huns]. fold (open_deps w n) in Hall, Huns.
  unfold start_node, require_node, dependencies_satisfied.
  rewrite Hi. cbn [ok_or]. rewrite Hs, (preds_lookup _ _ _ Hw Hi). cbn [mbind option_bind is_pending negb].
  rewrite Hall, Huns. cbn [mbind option_bind]. case_decide as Ho.
  - rewrite bool_decide_eq_true_2 by done. cbn [negb].
    destruct (transition_spec w idx Pending Active Hw Hs) as (w' & -> & Hw' & Hd & Hst & Ht & Hr & Hns).
    exists w'. split_and!; try done. destruct (node_lookup _ _ _ Hw Hi) as (_ & _ & [r Hl]).
    unfold get_retries at 1. rewrite Hi, Hl. eapply node_effect_insert; try done.
    rewrite Hr. symmetry. by apply list_insert_id.
  - by rewrite bool_decide_eq_false_2.
Qed.

Lemma is_terminal_spec w :
  wi_wf w → is_terminal w = true ↔ (Pending ∉ node_states w) ∧ (Active ∉ node_states w).
Proof.
  intros Hw. unfold is_terminal. rewrite andb_true_iff, !N.eqb_eq, (wi_pending _ Hw), (wi_active _ Hw).
  rewrite <-!state_count_zero. lia.
Qed.

Lemma has_failure_spec w : wi_wf w → has_failure w = true ↔ Failed ∈ node_states w.
Proof.
  intros Hw. unfold has_failure. rewrite N.ltb_lt, (wi_failed _ Hw).
  destruct (decide (Failed ∈ node_states w)) as [Hf|Hf].
  - split; [done|]. intros _. apply list_elem_of_lookup in Hf as [i Hi].
    apply state_count_pos in Hi. lia.
  - split; [|done]. apply state_count_zero in Hf. lia.
Qed.

Lemma with_status_wf w s : wi_wf w → wi_wf (with_status w s).
Proof. by intros []; split. Qed.

Lemma complete_accepted w n :
  wi_wf w → n ∈ nodes (workflow_def w) → get_node_state w n = Some Active →
  ∃ w', complete_node w n = Some (w', Ok ()) ∧ wi_wf w' ∧
    node_effect w w' n Completed (get_retries w n) ∧
    status w' = if decide ((Pending ∉ node_states w') ∧ (Active ∉ node_states w'))
                then if decide (Failed ∈ node_states w') then Failure else Success
                else status w.
Proof.
  intros Hw. known_node w n Hw. rewrite Hg. intros [= ->].
  unfold complete_node, require_node. rewrite Hi. cbn [ok_or]. rewrite Hs. cbn [mbind option_bind is_active negb].
  destruct (transition_spec w idx Active Completed Hw Hs) as (w' & -> & Hw' & Hd & Hst & Ht & Hr & Hns).
  cbn [mbind option_bind]. eexists. split; [done|].
  assert (node_effect w w' n Completed (get_retries w n)) as He.
  { destruct (node_lookup _ _ _ Hw Hi) as (_ & _ & [r Hl]).
    unfold get_retries at 1. rewrite Hi, Hl. eapply node_effect_insert; try done.
    rewrite Hr. symmetry. by apply list_insert_id. }
  pose proof (is_terminal_spec _ Hw') as Hterm. pose proof (has_failure_spec _ Hw') as Hfail.
  unfold update_workflow_status. destruct (is_terminal w') eqn:E.
  - split; [by apply with_status_wf|]. split; [done|]. simpl.
    rewrite decide_True by (by apply Hterm).
    destruct (has_failure w'); [by rewrite decide_True by (by apply Hfail)|].
    rewrite decide_False; [done|]. intros Hc. apply Hfail in Hc. done.
  - split; [done|]. split; [done|]. rewrite decide_False; [done|].
    intros Hc. apply Hterm in Hc. done.
Qed.

Lemma with_retries_wf w r :
  length r = length (retries w) → Forall (λ r, r ≤ U16_MAX)%N r → wi_wf w → wi_wf (with_retries w r).
Proof. intros Hl Hr []. split; simpl; congruence || done. Qed.

Lemma fail_accepted w n r :
  wi_wf w → n ∈ nodes (workflow_def w) → get_node_state w n = Some Active → get_retries w n = Some r →
  ∃ w', fail_node w n = Some (w', Ok ()) ∧ wi_wf w' ∧
    if decide (r = 0%N)
    then node_effect w w' n Failed (Some 0%N) ∧ status w' = Failure
    else node_effect w w' n Pending (Some (r - 1)%N) ∧ status w' = status w.
Proof.
  intros Hw. known_node w n Hw. rewrite Hg. intros [= ->].
  unfold get_retries at 1. rewrite Hi. intros Hr.
  unfold fail_node, require_node. rewrite Hi. cbn [ok_or]. rewrite Hs. cbn [mbind option_bind is_active negb].
  rewrite Hr. cbn [mbind option_bind].
  case_decide as Hz.
  - subst r. rewrite N.ltb_irrefl.
    destruct (transition_spec w idx Active Failed Hw Hs) as (w' & -> & Hw' & Hd & Hst & Ht & Hrt & Hns).
    eexists. split; [done|]. split; [by apply with_status_wf|]. split; [|done].
    eapply node_effect_insert; try done. simpl. rewrite Hrt. symmetry. by apply list_insert_id.
  - rewrite (proj2 (N.ltb_lt _ _)) by lia.
    destruct (transition_spec w idx Active Pending Hw Hs) as (w' & -> & Hw' & Hd & Hst & Ht & Hrt & Hns).
    eexists. split; [done|]. rewrite Hrt. split.
    + apply with_retries_wf; [by rewrite length_insert, Hrt| |done].
      pose proof (wi_retry_u16 _ Hw) as Hu. apply Forall_insert; [done|].
      rewrite Forall_lookup in Hu. specialize (Hu _ _ Hr). lia.
    + split; [|done]. by eapply node_effect_insert.
Qed.

(** On well-formed instances the node operations never panic, keep the
    instance well-formed and follow the node state machine: unknown nodes and
    wrong states are refused without change, a node starts when its
    dependencies are completed and otherwise the open ones are reported,
    completing decides the workflow when no node is left pending or active, and
    failing consumes a retry or fails the workflow. *)
Theorem workflow_ops_spec (w : WorkflowInstance) (n : N) :
  wi_wf w →
  refused w n Pending Active (start_node w n) ∧
  refused w n Active Completed (complete_node w n) ∧
  refused w n Active Failed (fail_node w n) ∧
  (n ∈ nodes (workflow_def w) → get_node_state w n = Some Pending →
    if decide (open_deps w n = [])
    then ∃ w', start_node w n = Some (w', Ok ()) ∧ wi_wf w' ∧ status w' = status w ∧
               node_effect w w' n Active (get_retries w n)
    else start_node w n = Some (w, Err (DependenciesNotSatisfied n (open_deps w n)))) ∧
  (n ∈ nodes (workflow_def w) → get_node_state w n = Some Active →
    ∃ w', complete_node w n = Some (w', Ok ()) ∧ wi_wf w' ∧
      node_effect w w' n Completed (get_retries w n) ∧
      status w' = if decide ((Pending ∉ node_states w') ∧ (Active ∉ node_states w'))
                  then if decide (Failed ∈ node_states w') then Failure else Success
                  else status w) ∧
  (∀ r, n ∈ nodes (workflow_def w) → get_node_state w n = Some Active → get_retries w n = Some r →
    ∃ w', fail_node w n = Some (w', Ok ()) ∧ wi_wf w' ∧
      if decide (r = 0%N)
      then node_effect w w' n Failed (Some 0%N) ∧ status w' = Failure
      else node_effect w w' n Pending (Some (r - 1)%N) ∧ status w' = status w).
Proof.
  intros Hw. split_and!; [by apply start_refused|by apply complete_refused|by apply fail_refused
    |intros; by apply start_accepted|intros; by apply complete_accepted|intros; by apply fail_accepted].
Qed.

(** ** Termination *)

Inductive event : Type := StartNode (n : N) | CompleteNode (n : N) | FailNode (n : N).

Definition apply_event (w : WorkflowInstance) (e : event)
    : option (WorkflowInstance * result unit WorkflowError) :=
  match e with
  | StartNode n => start_node w n
  | CompleteNode n => complete_node w n
  | FailNode n => fail_node w n
  end.

(** A run of successful operations. *)
Fixpoint wf_run (w : WorkflowInstance) (es : list event) : option WorkflowInstance :=
  match es with
  | [] => Some w
  | e :: es' =>
      match apply_event w e with
      | Some (w', Ok ()) => wf_run w' es'
      | _ => None
      end
  end.

Definition sum_retries (l : list N) : N := foldr N.add 0%N l.

(** The measure without saturation. *)
Definition exact_measure (w : WorkflowInstance) (now : Time) : N :=
  (timeout_at w - now + pending_ct w * 1000 + active_ct w * 100 + sum_retries (retries w) * 1000)%N.

Lemma fold_retries l acc :
  (acc ≤ U64_MAX)%N →
  foldl (λ acc r, saturating_add U64_MAX acc r) acc l = N.min U64_MAX (acc + sum_retries l).
Proof.
  revert acc. induction l as [|r l IH]; intros acc Ha; cbn [foldl sum_retries foldr].
  - lia.
  - rewrite IH; unfold saturating_add, sum_retries in *; lia.
Qed.

Lemma measure_exact w now : measure w now = N.min U64_MAX (exact_measure w now).
Proof.
  unfold measure. rewrite fold_retries by done. unfold exact_measure, saturating_add, saturating_mul.
  set (t := (timeout_at w - now)%N). lia.
Qed.

Lemma sum_retries_insert l i (r r' : N) :
  l !! i = Some r → (sum_retries (<[i := r']> l) + r = sum_retries l + r')%N.
Proof.
  revert i. induction l as [|x l IH]; intros i Hi; [done|].
  destruct i as [|i]; simpl in *; [injection Hi as ->; lia|]. specialize (IH i Hi). unfold sum_retries in *. lia.
Qed.

Definition state_cost (s : NodeState) : N :=
  match s with Pending => 1000 | Active => 100 | _ => 0 end.

Lemma transition_measure w idx old new now :
  wi_wf w → node_states w !! idx = Some old →
  ∃ w', transition w idx new = Some w' ∧ wi_wf w' ∧ retries w' = retries w ∧
    (exact_measure w' now + state_cost old = exact_measure w now + state_cost new)%N.
Proof.
  intros Hw Hi. destruct (transition_spec w idx old new Hw Hi) as (w' & Ht & Hw' & _ & _ & Hto & Hr & Hns).
  exists w'. split_and!; try done. unfold exact_measure.
  rewrite (wi_pending _ Hw), (wi_pending _ Hw'), (wi_active _ Hw), (wi_active _ Hw'), Hns, Hto, Hr.
  pose proof (state_count_insert Pending _ _ _ new Hi) as Hp.
  pose proof (state_count_insert Active _ _ _ new Hi) as Ha.
  destruct old, new; simpl in Hp, Ha; simpl; lia.
Qed.

Lemma update_status_measure w now :
  wi_wf w → wi_wf (update_workflow_status w) ∧
  exact_measure (update_workflow_status w) now = exact_measure w now.
Proof.
  intros Hw. unfold update_workflow_status.
  destruct (is_terminal w); [|done]. split; [by apply with_status_wf|done].
Qed.

Ltac run_transition Hw Hs new now :=
  destruct (transition_measure _ _ _ new now Hw Hs) as (w1 & Ht & Hw1 & Hr1 & Hm1);
  rewrite Ht; cbn [mbind option_bind]; intros [= <-].

Lemma start_decreases w n w' now :
  wi_wf w → start_node w n = Some (w', Ok ()) →
  wi_wf w' ∧ (exact_measure w' now + 100 ≤ exact_measure w now)%N.
Proof.
  intros Hw. unfold start_node. destruct (require_node (workflow_def w) n) as [idx|]; [|done].
  destruct (node_states w !! idx) as [s|] eqn:Hs; [|done]. cbn [mbind option_bind].
  destruct s; simpl; try done.
  destruct (dependencies_satisfied w n) as [[]|]; simpl; try done.
  - run_transition Hw Hs Active now. simpl in Hm1. split; [done|lia].
  - destruct (predecessors (workflow_def w) !! idx); [|done]. simpl.
    by destruct (unsatisfied w l).
Qed.

Lemma complete_decreases w n w' now :
  wi_wf w → complete_node w n = Some (w', Ok ()) →
  wi_wf w' ∧ (exact_measure w' now + 100 ≤ exact_measure w now)%N.
Proof.
  intros Hw. unfold complete_node. destruct (require_node (workflow_def w) n) as [idx|]; [|done].
  destruct (node_states w !! idx) as [s|] eqn:Hs; [|done]. cbn [mbind option_bind].
  destruct s; simpl; try done.
  run_transition Hw Hs Completed now. destruct (update_status_measure w1 now Hw1) as [Hw2 ->].
  simpl in Hm1. split; [done|lia].
Qed.

Lemma fail_decreases w n w' now :
  wi_wf w → fail_node w n = Some (w', Ok ()) →
  wi_wf w' ∧ (exact_measure w' now + 100 ≤ exact_measure w now)%N.
Proof.
  intros Hw. unfold fail_node. destruct (require_node (workflow_def w) n) as [idx|]; [|done].
  destruct (node_states w !! idx) as [s|] eqn:Hs; [|done]. cbn [mbind option_bind].
  destruct s; simpl; try done.
  destruct (retries w !! idx) as [r|] eqn:Hr; [|done]. cbn [mbind option_bind].
  destruct (N.ltb_spec 0 r) as [Hpos|_].
  - run_transition Hw Hs Pending now. simpl in Hm1.
    pose proof (sum_retries_insert _ _ _ (r - 1)%N Hr) as Hsum. rewrite <-Hr1 in Hsum. split.
    + apply with_retries_wf; [by rewrite length_insert| |done].
      pose proof (wi_retry_u16 _ Hw) as Hu. rewrite Hr1. apply Forall_insert; [done|].
      rewrite Forall_lookup in Hu. specialize (Hu _ _ Hr). lia.
    + unfold exact_measure in *. cbn [with_retries timeout_at pending_ct active_ct retries] in *. lia.
  - run_transition Hw Hs Failed now. simpl in Hm1. split; [by apply with_status_wf|].
    change (exact_measure (with_status w1 Failure) now) with (exact_measure w1 now). lia.
Qed.

Lemma event_decreases w e w' now :
  wi_wf w → apply_event w e = Some (w', Ok ()) →
  wi_wf w' ∧ (exact_measure w' now + 100 ≤ exact_measure w now)%N.
Proof.
  intros Hw. destruct e; simpl; eauto using start_decreases, complete_decreases, fail_decreases.
Qed.

Lemma wf_run_measure w es w' now :
  wi_wf w → wf_run w es = Some w' →
  wi_wf w' ∧ (exact_measure w' now + 100 * N.of_nat (length es) ≤ exact_measure w now)%N.
Proof.
  revert w. induction es as [|e es IH]; intros w Hw; cbn [wf_run length]; [intros [= <-]; split; [done|lia]|].
  destruct (apply_event w e) as [[w1 [[]|]]|] eqn:E; try done. intros Hrun.
  destruct (event_decreases _ _ _ now Hw E) as [Hw1 Hm].
  destruct (IH w1 Hw1 Hrun) as [Hw' Hm']. split; [done|lia].
Qed.

(** Each successful node operation decreases the measure, as long as it is
    not saturated, by at least 100; so a run of successful operations is at most
    a hundredth of the measure long. *)
Theorem workflow_terminates (w w' : WorkflowInstance) (now : Time) (es : list event) :
  wi_wf w → (measure w now < U64_MAX)%N → wf_run w es = Some w' →
  wi_wf w' ∧ (measure w' now + 100 * N.of_nat (length es) ≤ measure w now)%N.
Proof.
  intros Hw Hm Hrun. destruct (wf_run_measure _ _ _ now Hw Hrun) as [Hw' Hle].
  rewrite !measure_exact in *. split; [done|lia].
Qed.

(** ** Progress *)

Lemma minimal_pending (rank : N → nat) (l : list N) (P : N → Prop) `{∀ x, Decision (P x)} :
  (∃ n, n ∈ l ∧ P n) → ∃ n, n ∈ l ∧ P n ∧ ∀ m, m ∈ l → P m → (rank n ≤ rank m)%nat.
Proof.
  intros (n & Hn & Hp). remember (rank n) as k eqn:Ek. revert n Hn Hp Ek.
  induction (lt_wf k) as [k _ IH]; intros n Hn Hp ->.
  destruct (decide (Exists (λ m, P m ∧ (rank m < rank n)%nat) l)) as [Hex|Hno].
  - apply Exists_exists in Hex as (m & Hm & Hpm & Hlt). by apply (IH (rank m) Hlt m).
  - exists n. split_and!; try done. intros m Hm Hpm.
    destruct (decide (rank m < rank n)%nat); [|lia]. destruct Hno. apply Exists_exists. by exists m.
Qed.

Lemma node_of_state w s :
  wi_wf w → s ∈ node_states w → ∃ n, n ∈ nodes (workflow_def w) ∧ get_node_state w n = Some s.
Proof.
  intros Hw [i Hi]%list_elem_of_lookup. pose proof (lookup_lt_Some _ _ _ Hi) as Hlt.
  rewrite (wi_states _ Hw) in Hlt. apply lookup_lt_is_Some in Hlt as [n Hn].
  exists n. split; [by eapply list_elem_of_lookup_2|]. unfold get_node_state.
  by rewrite (proj2 (index_spec _ (wi_def _ Hw) n i) Hn).
Qed.

(** C35: An acyclic workflow with no failed node that is not finished can always
    proceed: some node is active and can be completed, or some pending node can
    be started. *)
Theorem workflow_progress (w : WorkflowInstance) (rank : N → nat) :
  wi_wf w → Forall (λ e, rank (source e) < rank (edge_target e))%nat (edges (workflow_def w)) →
  has_failure w = false → is_terminal w = false →
  ∃ n w', n ∈ nodes (workflow_def w) ∧
    (start_node w n = Some (w', Ok ()) ∨ complete_node w n = Some (w', Ok ())).
Proof.
  intros Hw Hrank Hf Ht. destruct (decide (Active ∈ node_states w)) as [Ha|Hna].
  { destruct (node_of_state _ _ Hw Ha) as (n & Hn & Hg).
    destruct (complete_accepted w n Hw Hn Hg) as (w' & Hc & _). exists n, w'. auto. }
  assert (Pending ∈ node_states w) as Hp.
  { destruct (decide (Pending ∈ node_states w)) as [|Hnp]; [done|].
    assert (is_terminal w = true) by (by apply is_terminal_spec). congruence. }
  destruct (node_of_state _ _ Hw Hp) as (n0 & Hn0 & Hg0).
  destruct (minimal_pending rank (nodes (workflow_def w)) (λ n, get_node_state w n = Some Pending))
    as (n & Hn & Hg & Hmin); [by exists n0|].
  pose proof (start_accepted w n Hw Hn Hg) as Hstart.
  rewrite decide_True in Hstart; [destruct Hstart as (w' & Hs & _); exists n, w'; auto|].
  apply elem_of_nil_inv. intros p [Hnc Hpp]%list_elem_of_filter.
  pose proof (pred_in_nodes _ _ _ Hw Hpp) as Hpn.
  destruct (get_node_state_in w p Hw Hpn) as (i & s & _ & Hs & Hgp).
  rewrite Hgp in Hnc. apply list_elem_of_lookup_2 in Hs as Hin. destruct s; try done.
  - apply list_elem_of_fmap in Hpp as (e & -> & [<- He]%list_elem_of_filter).
    rewrite Forall_forall in Hrank. specialize (Hrank e He). specialize (Hmin _ Hpn Hgp). lia.
  - apply (has_failure_spec _ Hw) in Hin. congruence.
Qed.

(** A timed-out workflow does not stay failed: completing its last active
    node, with no failed node, turns the status into success. *)
Theorem timeout_lost (w : WorkflowInstance) (n : N) :
  wi_wf w → n ∈ nodes (workflow_def w) → get_node_state w n = Some Active →
  (∀ m, m ∈ nodes (workflow_def w) → m ≠ n → get_node_state w m = Some Completed) →
  status (apply_timeout w) = Failure ∧
  ∃ w', complete_node (apply_timeout w) n = Some (w', Ok ()) ∧ status w' = Success.
Proof.
  intros Hw Hn Ha Hall. split; [done|].
  destruct (complete_accepted (apply_timeout w) n (with_status_wf _ _ Hw) Hn Ha)
    as (w' & Hc & Hw' & (Hd & _ & Hg & _) & Hst).
  exists w'. split; [done|]. rewrite Hst.
  assert (∀ s, s ∈ node_states w' → s = Completed) as Hcomp.
  { intros s Hs. destruct (node_of_state _ _ Hw' Hs) as (m & Hm & Hgm).
    rewrite Hg in Hgm. case_decide as Hmn; [congruence|]. rewrite Hd in Hm.
    specialize (Hall m Hm Hmn). change (get_node_state (apply_timeout w) m) with (get_node_state w m) in Hgm.
    congruence. }
  rewrite decide_True by (by split; intros ?%Hcomp).
  by rewrite decide_False by (by intros ?%Hcomp).
Qed.

(** ** Examples *)

Definition two_steps : list Edge := [{| source := 1; edge_target := 2 |}].
Definition two_step_def : WorkflowDef := WorkflowDef_new [1; 2]%N two_steps.
Definition two_step_wf : WorkflowInstance := WorkflowInstance_new two_step_def 10 1.

Lemma two_step_def_wf : def_wf two_step_def.
Proof.
  apply build_adjacency_wf.
  - repeat constructor.
  - by apply (bool_decide_unpack _); vm_compute.
Qed.

Lemma two_step_ok : wi_wf two_step_wf.
Proof. apply instance_new_wf; [apply two_step_def_wf|done]. Qed.

Lemma workflow_ops_witness :
  wi_wf two_step_wf ∧ (1 ∈ nodes (workflow_def two_step_wf))%N ∧
  get_node_state two_step_wf 1 = Some Pending ∧
  (∃ w', start_node two_step_wf 1 = Some (w', Ok ()) ∧ wi_wf w') ∧
  start_node two_step_wf 2 = Some (two_step_wf, Err (DependenciesNotSatisfied 2 [1]%N)).
Proof.
  pose proof two_step_ok as Hw.
  assert (1 ∈ nodes (workflow_def two_step_wf))%N as H1 by (by apply (bool_decide_unpack _); vm_compute).
  split; [exact Hw|]. split; [exact H1|]. split; [by vm_compute|].
  destruct (workflow_ops_spec two_step_wf 1 Hw) as (_ & _ & _ & Hs & _).
  specialize (Hs H1 eq_refl). rewrite decide_True in Hs by (by vm_compute).
  destruct Hs as (w' & Hs & Hw' & _). split; [by exists w'|]. by vm_compute.
Defined.

Definition full_run : list event :=
  [StartNode 1; FailNode 1; StartNode 1; CompleteNode 1; StartNode 2; CompleteNode 2].

Definition full_run_end : WorkflowInstance := default two_step_wf (wf_run two_step_wf full_run).

Lemma workflow_terminates_witness :
  wi_wf two_step_wf ∧ (measure two_step_wf 0 < U64_MAX)%N ∧ wf_run two_step_wf full_run = Some full_run_end ∧
  (measure full_run_end 0 + 100 * N.of_nat (length full_run) ≤ measure two_step_wf 0)%N.
Proof.
  pose proof two_step_ok as Hw.
  assert (measure two_step_wf 0 < U64_MAX)%N as Hm by (by vm_compute).
  assert (wf_run two_step_wf full_run = Some full_run_end) as Hr by (by vm_compute).
  split; [exact Hw|]. split; [exact Hm|]. split; [exact Hr|].
  exact (proj2 (workflow_terminates two_step_wf full_run_end 0 full_run Hw Hm Hr)).
Defined.

Lemma workflow_progress_witness :
  wi_wf two_step_wf ∧ has_failure two_step_wf = false ∧ is_terminal two_step_wf = false ∧
  ∃ n w', n ∈ nodes (workflow_def two_step_wf) ∧
    (start_node two_step_wf n = Some (w', Ok ()) ∨ complete_node two_step_wf n = Some (w', Ok ())).
Proof.
  pose proof two_step_ok as Hw.
  assert (Forall (λ e, N.to_nat (source e) < N.to_nat (edge_target e))%nat (edges (workflow_def two_step_wf)))
    as Hr by (by apply (bool_decide_unpack _); vm_compute).
  assert (has_failure two_step_wf = false) as Hf by (by vm_compute).
  assert (is_terminal two_step_wf = false) as Ht by (by vm_compute).
  split; [exact Hw|]. split; [exact Hf|]. split; [exact Ht|].
  exact (workflow_progress two_step_wf N.to_nat Hw Hr Hf Ht).
Defined.

(** Only the last node is active. *)
Definition last_active : WorkflowInstance :=
  default two_step_wf (wf_run two_step_wf [StartNode 1; CompleteNode 1; StartNode 2]).

Lemma timeout_lost_witness :
  wi_wf last_active ∧ get_node_state last_active 2 = Some Active ∧
  ∃ w', complete_node (apply_timeout last_active) 2 = Some (w', Ok ()) ∧ status w' = Success.
Proof.
  assert (wf_run two_step_wf [StartNode 1; CompleteNode 1; StartNode 2] = Some last_active) as Hrun
    by (by vm_compute).
  pose proof (proj1 (wf_run_measure _ _ _ 0 two_step_ok Hrun)) as Hw.
  assert (2 ∈ nodes (workflow_def last_active))%N as Hn by (by apply (bool_decide_unpack _); vm_compute).
  assert (get_node_state last_active 2 = Some Active) as Ha by (by vm_compute).
  assert (∀ m, m ∈ nodes (workflow_def last_active) → m ≠ 2%N →
    get_node_state last_active m = Some Completed) as Hall.
  { intros m Hm Hne. assert (m ∈ [1; 2]%N) as Hm' by exact Hm.
    apply elem_of_cons in Hm' as [->|Hm']; [by vm_compute|].
    apply list_elem_of_singleton in Hm'. done. }
  split; [exact Hw|]. split; [exact Ha|].
  exact (proj2 (timeout_lost last_active 2 Hw Hn Ha Hall)).
Defined.
