(* ===== verification/LionState.v ===== *)
(** khive-lion-core/src/state/plugin.rs, actor.rs, state.rs and the kernel
    state of kernel.rs: the global state of the microkernel.  Every table is a
    vector sorted by key.  An operation on [&mut self] returns the new state
    with its result; [None] is a panic or fuel running out. *)

From Stdlib Require Import NArith String.
From stdpp Require Import base tactics list numbers strings pretty gmap sorting.
From S2P Require Import Prelude LionVec LionRights LionRevocation LionRevocationFacts LionMemory LionWorkflow.

(** ** state/plugin.rs *)

Definition DEFAULT_QUOTA : N := (U64_MAX / 2)%N.

Record PluginState := {
  level : SecurityLevel;
  memory : LinearMemory;
  held_caps : list CapId;
  memory_quota : N;
  memory_used : N;
  cap_quota : N;
  ipc_queue_limit : N
}.

Definition PluginState_with_quotas (l : SecurityLevel) (mem_size : Size) (mq cq iq : N) : PluginState :=
  {| level := l; memory := LinearMemory_empty mem_size; held_caps := []; memory_quota := mq;
     memory_used := 0; cap_quota := cq; ipc_queue_limit := iq |}.
Definition PluginState_empty (l : SecurityLevel) (mem_size : Size) : PluginState :=
  {| level := l; memory := LinearMemory_empty mem_size; held_caps := [];
     memory_quota := DEFAULT_QUOTA; memory_used := 0; cap_quota := DEFAULT_QUOTA;
     ipc_queue_limit := DEFAULT_QUOTA |}.

Definition holds_cap (self : PluginState) (cap_id : CapId) : bool :=
  is_ok (binary_search cap_id (held_caps self)).

Definition insert_cap_sorted (l : list CapId) (cap_id : CapId) : list CapId :=
  match binary_search cap_id l with
  | Ok _ => l
  | Err pos => vec_insert pos cap_id l
  end.
Definition remove_cap_sorted (l : list CapId) (cap_id : CapId) : list CapId :=
  match binary_search cap_id l with
  | Ok pos => delete pos l
  | Err _ => l
  end.

Definition with_held_caps (self : PluginState) (h : list CapId) : PluginState :=
  {| level := level self; memory := memory self; held_caps := h;
     memory_quota := memory_quota self; memory_used := memory_used self;
     cap_quota := cap_quota self; ipc_queue_limit := ipc_queue_limit self |}.
Definition with_memory_used (self : PluginState) (m : N) : PluginState :=
  {| level := level self; memory := memory self; held_caps := held_caps self;
     memory_quota := memory_quota self; memory_used := m;
     cap_quota := cap_quota self; ipc_queue_limit := ipc_queue_limit self |}.
Definition with_level (self : PluginState) (l : SecurityLevel) : PluginState :=
  {| level := l; memory := memory self; held_caps := held_caps self;
     memory_quota := memory_quota self; memory_used := memory_used self;
     cap_quota := cap_quota self; ipc_queue_limit := ipc_queue_limit self |}.

(** [grant_cap] and [grant_cap_mut]; [revoke_cap] and [revoke_cap_mut]. *)
Definition grant_cap (self : PluginState) (cap_id : CapId) : PluginState :=
  with_held_caps self (insert_cap_sorted (held_caps self) cap_id).
Definition plugin_revoke_cap (self : PluginState) (cap_id : CapId) : PluginState :=
  with_held_caps self (remove_cap_sorted (held_caps self) cap_id).

Definition can_alloc_memory (self : PluginState) (size : N) : bool :=
  match checked_add U64_MAX (memory_used self) size with
  | Some total => (total <=? memory_quota self)%N
  | None => false
  end.
Definition alloc_memory (self : PluginState) (size : N) : PluginState * bool :=
  if negb (can_alloc_memory self size) then (self, false)
  else (with_memory_used self (saturating_add U64_MAX (memory_used self) size), true).
Definition free_memory (self : PluginState) (size : N) : PluginState :=
  with_memory_used self (memory_used self - size).

(** ** state/actor.rs *)

Record Message := {
  msg_id : N;
  msg_src : PluginId;
  msg_dst : PluginId;
  msg_level : SecurityLevel;
  msg_body : list u8
}.

Record ActorRuntime := {
  pending_queue : list Message;
  mailbox : list Message;
  capacity : N;
  blocked_on : option ActorId;
  pending_send : option Message
}.

Definition ActorRuntime_empty (c : N) : ActorRuntime :=
  {| pending_queue := []; mailbox := []; capacity := c; blocked_on := None; pending_send := None |}.

Definition mailbox_len (self : ActorRuntime) : N := N.of_nat (length (mailbox self)).
Definition pending_len (self : ActorRuntime) : N := N.of_nat (length (pending_queue self)).
Definition can_receive (self : ActorRuntime) : bool :=
  match mailbox self with [] => false | _ => true end.
Definition can_send (self : ActorRuntime) (target_capacity : N) : bool :=
  (pending_len self <? target_capacity)%N.
Definition mailbox_has_space (self : ActorRuntime) : bool := (mailbox_len self <? capacity self)%N.
Definition is_blocked (self : ActorRuntime) : bool :=
  match blocked_on self with Some _ => true | None => false end.

Definition with_queues (self : ActorRuntime) (p m : list Message) : ActorRuntime :=
  {| pending_queue := p; mailbox := m; capacity := capacity self; blocked_on := blocked_on self;
     pending_send := pending_send self |}.
Definition with_blocked (self : ActorRuntime) (b : option ActorId) : ActorRuntime :=
  {| pending_queue := pending_queue self; mailbox := mailbox self; capacity := capacity self;
     blocked_on := b; pending_send := pending_send self |}.

Definition enqueue_pending (self : ActorRuntime) (msg : Message) : ActorRuntime :=
  with_queues self (pending_queue self ++ [msg]) (mailbox self).

(** [deliver] *)
Definition deliver (self : ActorRuntime) : ActorRuntime :=
  match pending_queue self with
  | [] => self
  | first_msg :: rest =>
      if (capacity self <=? mailbox_len self)%N then self
      else with_queues self rest (mailbox self ++ [first_msg])
  end.

(** [deliver_mut]; [None] stands for [Err(NoMessage)]. *)
Definition deliver_mut (self : ActorRuntime) : ActorRuntime * option bool :=
  match pending_queue self with
  | [] => (self, None)
  | msg :: rest =>
      if (mailbox_len self <? capacity self)%N
      then (with_queues self rest (mailbox self ++ [msg]), Some true)
      else (self, Some false)
  end.

(** [consume] and [consume_mut] *)
Definition consume (self : ActorRuntime) : ActorRuntime * option Message :=
  match mailbox self with
  | [] => (self, None)
  | msg :: rest => (with_queues self (pending_queue self) rest, Some msg)
  end.

Definition set_blocked (self : ActorRuntime) (on : ActorId) : ActorRuntime :=
  with_blocked self (Some on).
Definition unblock (self : ActorRuntime) : ActorRuntime := with_blocked self None.

(** ** KernelState of state/kernel.rs *)

Record KernelState := {
  key_state : KeyState;
  policy : PolicyState;
  revocation : RevocationState;
  now : Time;
  next_cap_id : CapId
}.

Definition KernelState_initial (key : Key) (p : PolicyState) : KernelState :=
  {| key_state := KeyState_initial key; policy := p; revocation := RevocationState_empty;
     now := 0; next_cap_id := 0 |}.
Definition KernelState_default : KernelState :=
  {| key_state := KeyState_empty; policy := deny_all; revocation := RevocationState_empty;
     now := 0; next_cap_id := 0 |}.

Definition with_revocation (self : KernelState) (r : RevocationState) : KernelState :=
  {| key_state := key_state self; policy := policy self; revocation := r; now := now self;
     next_cap_id := next_cap_id self |}.
Definition with_next_cap_id (self : KernelState) (n : CapId) : KernelState :=
  {| key_state := key_state self; policy := policy self; revocation := revocation self;
     now := now self; next_cap_id := n |}.

(** [tick] and [tick_checked] *)
Definition KernelState_tick (self : KernelState) : result KernelState KernelError :=
  let? n := ok_or (checked_add U64_MAX (now self) 1) (CounterOverflow "time") in
  Ok {| key_state := key_state self; policy := policy self; revocation := revocation self;
        now := n; next_cap_id := next_cap_id self |}.

Definition rotate_key (self : KernelState) (new_key : Key) : option KernelState :=
  ks ← KeyState_rotate (key_state self) new_key;
  Some {| key_state := ks; policy := policy self; revocation := revocation self; now := now self;
          next_cap_id := next_cap_id self |}.

Definition verify_cap_seal `{HmacSha256} (self : KernelState) (cap : Capability) : option bool :=
  verify_with_epoch (key_state self) (Capability_payload cap) (signature cap) (epoch cap).

Definition alloc_cap_id (self : KernelState) : KernelState * result CapId KernelError :=
  let i := next_cap_id self in
  match checked_add U128_MAX (next_cap_id self) 1 with
  | Some v => (with_next_cap_id self v, Ok i)
  | None => (self, Err CapIdExhausted)
  end.

Definition cap_not_revoked (self : KernelState) (cap : Capability) : bool :=
  RevocationState_is_valid (revocation self) (id cap).

(** ** state/state.rs *)

Inductive StateError : Type :=
| PluginNotFound (i : PluginId)
| ActorNotFound (i : ActorId)
| ResourceNotFound (i : ResourceId)
| WorkflowNotFound (i : WorkflowId)
| CapabilityNotFound (i : CapId)
| CapabilityNotHeld (p : PluginId) (c : CapId)
| IsolationViolation (active affected : PluginId)
| DanglingCapability (addr : MemAddr)
| PluginExists (i : PluginId)
| ActorExists (i : ActorId)
| ResourceExists (i : ResourceId)
| WorkflowExists (i : WorkflowId)
| StateCounterOverflow (name : string).

Definition StateError_display (e : StateError) : string :=
  match e with
  | PluginNotFound i => "plugin " +:+ pretty i +:+ " not found"
  | ActorNotFound i => "actor " +:+ pretty i +:+ " not found"
  | ResourceNotFound i => "resource " +:+ pretty i +:+ " not found"
  | WorkflowNotFound i => "workflow " +:+ pretty i +:+ " not found"
  | CapabilityNotFound i => "capability " +:+ pretty i +:+ " not found"
  | CapabilityNotHeld p c =>
      "plugin " +:+ pretty p +:+ " does not hold capability " +:+ pretty c
  | IsolationViolation active affected =>
      "isolation violation: " +:+ pretty active +:+ " affects " +:+ pretty affected
  | DanglingCapability addr =>
      "freeing address " +:+ pretty addr +:+ " would create dangling capability"
  | PluginExists i => "plugin " +:+ pretty i +:+ " already exists"
  | ActorExists i => "actor " +:+ pretty i +:+ " already exists"
  | ResourceExists i => "resource " +:+ pretty i +:+ " already exists"
  | WorkflowExists i => "workflow " +:+ pretty i +:+ " already exists"
  | StateCounterOverflow name => name +:+ " counter overflow"
  end.

Record ResourceInfo := { resource_info_level : SecurityLevel }.

Record State := {
  kernel : KernelState;
  plugins : list (PluginId * PluginState);
  actors : list (ActorId * ActorRuntime);
  resources : list (ResourceId * ResourceInfo);
  workflows : list (WorkflowId * WorkflowInstance);
  ghost : MetaState
}.

Definition State_empty : State :=
  {| kernel := KernelState_default; plugins := []; actors := []; resources := [];
     workflows := []; ghost := MetaState_empty |}.

Definition with_kernel (self : State) (k : KernelState) : State :=
  {| kernel := k; plugins := plugins self; actors := actors self; resources := resources self;
     workflows := workflows self; ghost := ghost self |}.
Definition with_plugins (self : State) (p : list (PluginId * PluginState)) : State :=
  {| kernel := kernel self; plugins := p; actors := actors self; resources := resources self;
     workflows := workflows self; ghost := ghost self |}.
Definition with_actors (self : State) (a : list (ActorId * ActorRuntime)) : State :=
  {| kernel := kernel self; plugins := plugins self; actors := a; resources := resources self;
     workflows := workflows self; ghost := ghost self |}.
Definition with_ghost (self : State) (g : MetaState) : State :=
  {| kernel := kernel self; plugins := plugins self; actors := actors self;
     resources := resources self; workflows := workflows self; ghost := g |}.

Definition get_plugin (self : State) (pid : PluginId) : option PluginState :=
  vec_get pid (plugins self).
Definition get_actor (self : State) (aid : ActorId) : option ActorRuntime :=
  vec_get aid (actors self).
Definition get_resource (self : State) (rid : ResourceId) : option ResourceInfo :=
  vec_get rid (resources self).
Definition get_workflow (self : State) (wid : WorkflowId) : option WorkflowInstance :=
  vec_get wid (workflows self).

(** An update through [get_plugin_mut], when the plugin exists. *)
Definition update_plugin (self : State) (pid : PluginId) (f : PluginState → PluginState) : State :=
  match binary_search_by_key pid (plugins self) with
  | Ok idx => with_plugins self (update_at f idx (plugins self))
  | Err _ => self
  end.
Definition update_actor (self : State) (aid : ActorId) (f : ActorRuntime → ActorRuntime) : State :=
  match binary_search_by_key aid (actors self) with
  | Ok idx => with_actors self (update_at f idx (actors self))
  | Err _ => self
  end.

Definition plugin_level (self : State) (pid : PluginId) : option SecurityLevel :=
  level <$> get_plugin self pid.
Definition resource_level (self : State) (rid : ResourceId) : option SecurityLevel :=
  resource_info_level <$> get_resource self rid.
Definition get_cap (self : State) (cap_id : CapId) : option Capability :=
  RevocationState_get (revocation (kernel self)) cap_id.
Definition cap_is_valid (self : State) (cap_id : CapId) : bool :=
  RevocationState_is_valid (revocation (kernel self)) cap_id.
Definition plugin_holds (self : State) (pid : PluginId) (cap_id : CapId) : bool :=
  match get_plugin self pid with Some p => holds_cap p cap_id | None => false end.

(** [as MemAddr]: truncation to [u64]. *)
Definition as_u64 (x : N) : N := (x mod (U64_MAX + 1))%N.

(** [apply_alloc] and [apply_alloc_mut] *)
Definition apply_alloc (self : State) (owner : PluginId) (_size : Size) : State * MemAddr :=
  let addr := as_u64 (N.of_nat (resource_count (ghost self))) in
  (with_ghost self (meta_alloc (ghost self) addr owner), addr).

Definition apply_free (self : State) (addr : MemAddr) : result State StateError :=
  if any_valid_targeting (revocation (kernel self)) addr then Err (DanglingCapability addr)
  else Ok (with_ghost self (meta_free (ghost self) addr)).

Definition apply_free_mut (self : State) (addr : MemAddr) : State * result unit StateError :=
  if any_valid_targeting (revocation (kernel self)) addr then (self, Err (DanglingCapability addr))
  else match meta_free_mut (ghost self) addr with
       | (g, Ok _) => (with_ghost self g, Ok ())
       | (g, Err _) => (with_ghost self g, Err (ResourceNotFound addr))
       end.

Definition apply_revoke (self : State) (cap_id : CapId) : State :=
  with_kernel self (with_revocation (kernel self)
    (RevocationState_revoke (revocation (kernel self)) cap_id)).

Definition apply_cap_revoke (self : State) (cap_id : CapId) : State :=
  with_kernel self (with_revocation (kernel self)
    (revoke_transitive (revocation (kernel self)) cap_id)).

Definition apply_cap_revoke_mut (self : State) (cap_id : CapId)
    : option (State * result unit KernelError) :=
  '(r, res) ← revoke_transitive_fast_mut (revocation (kernel self)) cap_id;
  Some (with_kernel self (with_revocation (kernel self) r), res).

(** [apply_cap_delegate] and [apply_cap_delegate_mut] *)
Definition apply_cap_delegate (self : State) (new_cap : Capability) (t : PluginId)
    : result State KernelError :=
  let cap_id := id new_cap in
  let? new_revocation := RevocationState_insert (revocation (kernel self)) new_cap in
  Ok (update_plugin (with_kernel self (with_revocation (kernel self) new_revocation)) t
        (λ p, grant_cap p cap_id)).

Definition State_tick (self : State) : result State StateError :=
  match KernelState_tick (kernel self) with
  | Ok k => Ok (with_kernel self k)
  | Err _ => Err (StateCounterOverflow "time")
  end.

Definition insert_plugin (self : State) (pid : PluginId) (ps : PluginState)
    : State * result unit StateError :=
  match binary_search_by_key pid (plugins self) with
  | Ok _ => (self, Err (PluginExists pid))
  | Err pos => (with_plugins self (vec_insert pos (pid, ps) (plugins self)), Ok ())
  end.
Definition insert_actor (self : State) (aid : ActorId) (ar : ActorRuntime)
    : State * result unit StateError :=
  match binary_search_by_key aid (actors self) with
  | Ok _ => (self, Err (ActorExists aid))
  | Err pos => (with_actors self (vec_insert pos (aid, ar) (actors self)), Ok ())
  end.
Definition insert_resource (self : State) (rid : ResourceId) (ri : ResourceInfo)
    : State * result unit StateError :=
  match binary_search_by_key rid (resources self) with
  | Ok _ => (self, Err (ResourceExists rid))
  | Err pos =>
      ({| kernel := kernel self; plugins := plugins self; actors := actors self;
          resources := vec_insert pos (rid, ri) (resources self); workflows := workflows self;
          ghost := ghost self |}, Ok ())
  end.
Definition insert_workflow (self : State) (wid : WorkflowId) (wi : WorkflowInstance)
    : State * result unit StateError :=
  match binary_search_by_key wid (workflows self) with
  | Ok _ => (self, Err (WorkflowExists wid))
  | Err pos =>
      ({| kernel := kernel self; plugins := plugins self; actors := actors self;
          resources := resources self; workflows := vec_insert pos (wid, wi) (workflows self);
          ghost := ghost self |}, Ok ())
  end.

Definition temporal_safety (self other : State) : bool :=
  forallb (λ addr, is_freed (ghost other) addr) (freed_set (ghost self)).

(** khive-lion-core/src/kernel.rs and error.rs: the kernel interface. *)

(** The errors of the operations modelled here. *)
Inductive Error : Type :=
| ErrorCapability (e : CapabilityError)
| ErrorState (e : StateError)
| ErrorKernel (e : KernelError).

Definition Error_display (e : Error) : string :=
  match e with
  | ErrorCapability e => "capability: " +:+ CapabilityError_display e
  | ErrorState e => "state: " +:+ StateError_display e
  | ErrorKernel e => "kernel: " +:+ KernelError_display e
  end.

(** [Kernel] wraps a [State]. *)
Definition Kernel_new : State := State_empty.

Definition with_key (key_bytes : byte_array) : result State Error :=
  let key := {| key_bytes := key_bytes |} in
  if Key_is_empty key then Err (ErrorKernel (InvalidCapability "seal key must not be all zero"))
  else Ok (with_kernel State_empty (KernelState_initial key deny_all)).

Definition Kernel_tick (self : State) : State * result unit Error :=
  match State_tick self with
  | Ok s => (s, Ok ())
  | Err e => (self, Err (ErrorState e))
  end.

Definition register_plugin (self : State) (i : PluginId) (l : SecurityLevel) (mem_size : Size)
    : State * result unit Error :=
  match insert_plugin self i (PluginState_empty l mem_size) with
  | (s, Ok _) => (s, Ok ())
  | (s, Err e) => (s, Err (ErrorState e))
  end.

Definition delegate_cap `{HmacSha256} (self : State) (parent_id : CapId) (t : PluginId)
    (requested_rights : Rights) : option (State * result CapId Error) :=
  match get_cap self parent_id with
  | None => Some (self, Err (ErrorKernel (CapNotFound parent_id)))
  | Some par =>
      if negb (valid par) then Some (self, Err (ErrorCapability Revoked))
      else
        let child_rights := intersection requested_rights (rights par) in
        if Rights_is_empty child_rights then Some (self, Err (ErrorCapability EmptyRights))
        else
          match alloc_cap_id (kernel self) with
          | (_, Err e) => Some (self, Err (ErrorKernel e))
          | (k, Ok i) =>
              let self := with_kernel self k in
              let ep := key_epoch (key_state (kernel self)) in
              let payload := {| pay_holder := t; pay_target := target par;
                                pay_rights := child_rights; pay_parent := Some parent_id;
                                pay_epoch := ep |} in
              sig ← seal_payload (current (key_state (kernel self))) payload;
              match Capability_new i t (target par) child_rights (Some parent_id) ep sig with
              | Err e => Some (self, Err (ErrorCapability e))
              | Ok child =>
                  match apply_cap_delegate self child t with
                  | Ok self => Some (self, Ok i)
                  | Err e => Some (self, Err (ErrorKernel e))
                  end
              end
          end
  end.

Definition insert_cap_raw (self : State) (cap : Capability) (t : PluginId) : State * result unit Error :=
  match apply_cap_delegate self cap t with
  | Ok self => (self, Ok ())
  | Err e => (self, Err (ErrorKernel e))
  end.

Definition revoke_cap (self : State) (cap_id : CapId) : option (State * result unit Error) :=
  '(self, res) ← apply_cap_revoke_mut self cap_id;
  Some (self, match res with Ok _ => Ok () | Err e => Err (ErrorKernel e) end).

Definition Kernel_alloc (self : State) (owner : PluginId) (size : Size) : State * MemAddr :=
  apply_alloc self owner size.

Definition Kernel_free (self : State) (addr : MemAddr) : State * result unit Error :=
  match apply_free_mut self addr with
  | (s, Ok _) => (s, Ok ())
  | (s, Err e) => (s, Err (ErrorState e))
  end.

(** Facts about the tables of the global state and the kernel interface. *)

(** ** Plugins *)

Lemma get_plugin_bm self p : get_plugin self p = bm_get p (plugins self).
Proof. apply vec_get_bm. Qed.

Lemma update_plugin_eq self p f :
  update_plugin self p f =
  match get_plugin self p with
  | Some ps => with_plugins self (bm_insert p (f ps) (plugins self))
  | None => self
  end.
Proof.
  rewrite get_plugin_bm. unfold update_plugin.
  destruct (binary_search_by_key p (plugins self)) as [i|i] eqn:E.
  - destruct (update_at_bm f _ _ _ E) as (v & -> & ->). done.
  - by rewrite (search_Err _ _ _ E).
Qed.

Lemma update_plugin_get self p f q :
  bm_wf (plugins self) →
  get_plugin (update_plugin self p f) q =
  if decide (q = p) then f <$> get_plugin self p else get_plugin self q.
Proof.
  intros Hw. rewrite update_plugin_eq. destruct (get_plugin self p) as [ps|] eqn:E.
  - rewrite (get_plugin_bm _ q). cbn [with_plugins plugins]. rewrite bm_get_insert by done.
    case_decide; [done|]. by rewrite get_plugin_bm.
  - case_decide as Hq; [by subst|done].
Qed.

Lemma update_plugin_wf self p f : bm_wf (plugins self) → bm_wf (plugins (update_plugin self p f)).
Proof.
  intros Hw. rewrite update_plugin_eq. destruct (get_plugin self p); [|done]. by apply bm_insert_wf.
Qed.

Lemma update_plugin_frame self p f :
  kernel (update_plugin self p f) = kernel self ∧ actors (update_plugin self p f) = actors self ∧
  resources (update_plugin self p f) = resources self ∧
  workflows (update_plugin self p f) = workflows self ∧ ghost (update_plugin self p f) = ghost self.
Proof. rewrite update_plugin_eq. by destruct (get_plugin self p). Qed.

Lemma update_plugin_kernel self p f : kernel (update_plugin self p f) = kernel self.
Proof. apply update_plugin_frame. Qed.

Lemma insert_plugin_spec self p ps :
  bm_wf (plugins self) →
  match get_plugin self p with
  | Some _ => insert_plugin self p ps = (self, Err (PluginExists p))
  | None => ∃ self', insert_plugin self p ps = (self', Ok ()) ∧ kernel self' = kernel self ∧
      bm_wf (plugins self') ∧
      ∀ q, get_plugin self' q = if decide (q = p) then Some ps else get_plugin self q
  end.
Proof.
  intros Hw. rewrite get_plugin_bm. unfold insert_plugin.
  destruct (binary_search_by_key p (plugins self)) as [i|i] eqn:E.
  - apply search_Ok in E as (v & _ & ->). done.
  - rewrite (search_Err _ _ _ E). rewrite (vec_insert_bm _ _ _ _ E).
    eexists. split; [done|]. split; [done|]. split; [by apply bm_insert_wf|].
    intros q. rewrite !get_plugin_bm. cbn [with_plugins plugins]. by rewrite bm_get_insert.
Qed.

(** ** Held capabilities *)

Lemma insert_cap_bs l c : insert_cap_sorted l c = if is_ok (binary_search c l) then l else bs_insert c l.
Proof.
  unfold insert_cap_sorted. destruct (binary_search c l) as [|i] eqn:E; [done|].
  by apply vec_insert_bs.
Qed.

Lemma insert_cap_sorted_spec l c :
  StronglySorted cmp_lt l →
  StronglySorted cmp_lt (insert_cap_sorted l c) ∧ ∀ x, x ∈ insert_cap_sorted l c ↔ x = c ∨ x ∈ l.
Proof.
  intros Hs. rewrite insert_cap_bs. destruct (is_ok (binary_search c l)) eqn:E.
  - apply binary_search_elem in E; [|done]. split; [done|]. naive_solver.
  - split; [by apply bs_insert_sorted|]. intros x. apply elem_of_bs_insert.
Qed.

(** Plugins whose held capabilities are sorted. *)
Definition plugins_wf (self : State) : Prop :=
  bm_wf (plugins self) ∧
  ∀ p ps, get_plugin self p = Some ps → StronglySorted cmp_lt (held_caps ps).

Lemma holds_cap_spec ps c : StronglySorted cmp_lt (held_caps ps) → holds_cap ps c = true ↔ c ∈ held_caps ps.
Proof. apply binary_search_elem. Qed.

Lemma grant_plugins_wf self t c : plugins_wf self → plugins_wf (update_plugin self t (λ p, grant_cap p c)).
Proof.
  intros [Hw Hh]. split; [by apply update_plugin_wf|]. intros p ps.
  rewrite update_plugin_get by done. case_decide; [|apply Hh].
  intros (ps' & Hps & ->)%fmap_Some. apply insert_cap_sorted_spec. by eapply Hh.
Qed.

Lemma grant_holds self t c p x :
  plugins_wf self → is_Some (get_plugin self t) →
  plugin_holds (update_plugin self t (λ p, grant_cap p c)) p x =
  bool_decide (p = t ∧ x = c) || plugin_holds self p x.
Proof.
  intros [Hw Hh] [pt Ht]. unfold plugin_holds. rewrite update_plugin_get by done.
  destruct (decide (p = t)) as [->|Hp].
  - rewrite Ht. cbn [fmap option_fmap option_map]. specialize (Hh t pt Ht).
    destruct (insert_cap_sorted_spec (held_caps pt) c Hh) as [Hs He].
    apply eq_true_iff_eq. rewrite orb_true_iff, bool_decide_eq_true, !holds_cap_spec; [|done..].
    cbn [grant_cap with_held_caps held_caps]. rewrite He. naive_solver.
  - rewrite bool_decide_eq_false_2 by naive_solver. done.
Qed.

Lemma plugin_level_Some self p : is_Some (plugin_level self p) ↔ is_Some (get_plugin self p).
Proof. unfold plugin_level. by rewrite fmap_is_Some. Qed.

(** ** Delegation *)

(** The capability minted from [par] by the kernel [k]. *)
Record minted `{HmacSha256} (k : KernelState) (par : Capability) (parent_id : CapId) (t : PluginId)
    (r : Rights) (child : Capability) : Prop := {
  minted_id : id child = next_cap_id k;
  minted_holder : holder child = t;
  minted_target : target child = target par;
  minted_rights : rights child = intersection r (rights par);
  minted_parent : parent child = Some parent_id;
  minted_epoch : epoch child = key_epoch (key_state k);
  minted_valid : valid child = true;
  minted_seal : seal_payload (current (key_state k)) (Capability_payload child) = Some (signature child)
}.

Lemma delegate_cap_ok `{HmacSha256} self parent_id par t r :
  get_cap self parent_id = Some par → valid par = true →
  Rights_is_empty (intersection r (rights par)) = false →
  (next_cap_id (kernel self) < U128_MAX)%N → (parent_id < U128_MAX)%N → t ≠ 0%N →
  get_cap self (next_cap_id (kernel self)) = None →
  ∃ child rev', minted (kernel self) par parent_id t r child ∧
    RevocationState_insert (revocation (kernel self)) child = Ok rev' ∧
    delegate_cap self parent_id t r =
      Some (update_plugin (with_kernel self (with_revocation
              (with_next_cap_id (kernel self) (next_cap_id (kernel self) + 1)%N) rev')) t
              (λ p, grant_cap p (next_cap_id (kernel self))), Ok (next_cap_id (kernel self))).
Proof.
  intros Hpar Hv Hr Hn Hp Ht Hfresh. unfold delegate_cap. rewrite Hpar, Hv. cbn [negb].
  rewrite Hr. unfold alloc_cap_id.
  rewrite (proj2 (checked_add_Some U128_MAX _ 1 (next_cap_id (kernel self) + 1)%N)) by (split; [done|lia]).
  cbn [with_kernel kernel with_next_cap_id key_state]. set (payload := Build_CapPayload _ _ _ _ _).
  destruct (seal_payload_is_Some (current (key_state (kernel self))) payload) as [sig Hsig].
  { intros i [= <-]. done. }
  rewrite Hsig. cbn [mbind option_bind]. unfold Capability_new.
  rewrite (proj2 (N.eqb_neq t 0)) by done. rewrite Hr.
  set (child := Build_Capability _ _ _ _ _ _ _ _).
  destruct (insert_fresh (revocation (kernel self)) child Hfresh) as [rev' Hrev].
  exists child, rev'. split; [by split|]. split; [done|].
  unfold apply_cap_delegate. cbn [with_kernel kernel with_next_cap_id revocation]. rewrite Hrev. done.
Qed.

(** ** Fast revocation through the state *)

Lemma revoke_cap_kernel self c rev' res :
  revoke_transitive_fast_mut (revocation (kernel self)) c = Some (rev', res) →
  revoke_cap self c = Some (with_kernel self (with_revocation (kernel self) rev'),
    match res with Ok _ => Ok () | Err e => Err (ErrorKernel e) end).
Proof. intros Hr. unfold revoke_cap, apply_cap_revoke_mut. rewrite Hr. done. Qed.
