(* ===== verification/LionStep.v ===== *)
(** khive-lion-core/src/step: authorization of host calls, the host functions,
    plugin-internal and kernel operations, and the step of the state machine in
    its pure ([execute]) and in-place ([execute_mut]) forms.  An in-place form
    returns the state it leaves with its result; [None] is fuel running out in
    the revocation it calls, which LionRevocationFacts
    excludes. *)

From Stdlib Require Import NArith String.
From stdpp Require Import base tactics list numbers strings pretty gmap.
From S2P Require Import Prelude LionVec LionRights LionRevocation LionMemory LionWorkflow LionState.

(** ** Errors, of step/authorization.rs and step/mod.rs *)

Inductive AuthorizationError : Type :=
| AuthCapabilityNotFound (i : CapId)
| AuthCapabilityRevoked (i : CapId)
| HolderMismatch (expected actual : N)
| TargetMismatch (expected actual : N)
| AuthInsufficientRights
| PolicyDenied
| ResourceNotLive (addr : MemAddr)
| BibaViolation (writer_level target_level : SecurityLevel)
| AuthCapabilityNotHeld (i : CapId).

Inductive PluginPrecondition : Type :=
| Blocked (pid : PluginId) (on : option ActorId)
| PluginReadOutOfBounds (addr : MemAddr) (sz bnd : Size)
| PluginWriteOutOfBounds (addr : MemAddr) (sz bnd : Size)
| MailboxEmpty.

Inductive HostCallPrecondition : Type :=
| HostReadOutOfBounds (addr : MemAddr) (sz : Size)
| HostWriteOutOfBounds (addr : MemAddr) (sz : Size)
| NoValidCapability
| NoMessage
| SourceMismatch
| MailboxFull
| InvalidSecurityLevel (value : N)
| CannotClassifyUp
| NoAddress
| NoCapabilityId
| FreeFailed (e : StateError)
| HostNotImplemented (operation : string).

Inductive KernelOpError : Type :=
| NoPendingMessages (dst : ActorId)
| MailboxAtCapacity (dst : ActorId)
| OpWorkflowNotFound (wid : WorkflowId)
| WorkflowNotRunning (wid : WorkflowId)
| OpNotImplemented (operation : string)
| OpCounterOverflow (msg : string).

Inductive InvalidTransitionReason : Type := IncompatibleStates (expected found : string).

Inductive StepError : Type :=
| StepPluginNotFound (i : PluginId)
| StepActorNotFound (i : PluginId)
| AddressAlreadyFreed (addr : MemAddr)
| CapabilityTargetsAddress (i : CapId) (addr : MemAddr)
| StepCapabilityNotFound (i : CapId)
| AuthorizationFailed (e : AuthorizationError)
| PluginPreconditionFailed (e : PluginPrecondition)
| HostCallPreconditionFailed (e : HostCallPrecondition)
| KernelOpFailed (e : KernelOpError)
| InvalidTransition (e : InvalidTransitionReason)
| StepStateError (e : StateError)
| QuotaExceeded (kind requested cur quota : N).

(** ** step/authorization.rs *)

Definition resource_integrity (state : State) (rid : MemAddr) : SecurityLevel :=
  match meta_resources (ghost state) !! rid with
  | Some st =>
      match status_owner st with
      | Some owner => default Public (plugin_level state owner)
      | None => Public
      end
  | None => Public
  end.

Definition biba_write_ok (state : State) (action : Action) : bool :=
  if negb (Rights_contains (act_rights action) Write) then true
  else level_ge (default Public (plugin_level state (subject action)))
                (resource_integrity state (as_u64 (act_target action))).

(** The struct's private marker has no content. *)
Record Authorized := {
  auth_cap : Capability;
  auth_action : Action;
  auth_ctx : PolicyContext
}.

Section authorized.
Context (self : Authorized).

Definition check_capability (state : State) : result unit AuthorizationError :=
  let cap := auth_cap self in
  let action := auth_action self in
  if negb (holder cap =? subject action)%N then Err (HolderMismatch (subject action) (holder cap))
  else if negb (target cap =? act_target action)%N
  then Err (TargetMismatch (act_target action) (target cap))
  else if negb (is_subset_of (act_rights action) (rights cap)) then Err AuthInsufficientRights
  else if negb (plugin_holds state (subject action) (id cap)) then Err (AuthCapabilityNotHeld (id cap))
  else Ok ().

Definition check_policy (state : State) : result unit AuthorizationError :=
  if is_permit (policy_eval (policy (kernel state)) (auth_action self) (auth_ctx self))
  then Ok () else Err PolicyDenied.

Definition check_validity (state : State) : result unit AuthorizationError :=
  let rev := revocation (kernel state) in
  let? kernel_cap := ok_or (RevocationState_get rev (id (auth_cap self)))
                       (AuthCapabilityNotFound (id (auth_cap self))) in
  if negb (valid kernel_cap) then Err (AuthCapabilityRevoked (id (auth_cap self)))
  else match parent (auth_cap self) with
       | Some parent_id =>
           if negb (RevocationState_is_valid rev parent_id)
           then Err (AuthCapabilityRevoked parent_id) else Ok ()
       | None => Ok ()
       end.

Definition check_liveness (state : State) : result unit AuthorizationError :=
  let addr := as_u64 (act_target (auth_action self)) in
  if negb (is_live (ghost state) addr) then Err (ResourceNotLive addr) else Ok ().

Definition check_confinement : result unit AuthorizationError :=
  if negb (is_subset_of (act_rights (auth_action self)) (rights (auth_cap self)))
  then Err AuthInsufficientRights else Ok ().

Definition check_biba (state : State) : result unit AuthorizationError :=
  if negb (biba_write_ok state (auth_action self))
  then Err (BibaViolation (default Public (plugin_level state (subject (auth_action self))))
              (resource_integrity state (as_u64 (act_target (auth_action self)))))
  else Ok ().

Definition Authorized_validate (state : State) : result unit AuthorizationError :=
  let? _ := check_capability state in
  let? _ := check_policy state in
  let? _ := check_validity state in
  let? _ := check_liveness state in
  let? _ := check_confinement in
  check_biba state.
End authorized.

Definition validate_atomic (state : State) (cap : Capability) (action : Action) (ctx : PolicyContext)
    : result Authorized AuthorizationError :=
  let provisional := {| auth_cap := cap; auth_action := action; auth_ctx := ctx |} in
  let? _ := check_capability provisional state in
  let? _ := check_policy provisional state in
  let? _ := check_validity provisional state in
  let? _ := check_liveness provisional state in
  let? _ := check_confinement provisional in
  let? _ := check_biba provisional state in
  Ok provisional.

(** ** step/host_call.rs *)

Inductive HostFunction : Type :=
| CapCall | CapSend | KernelAlloc | HostMemFree | HostCapRevoke | Declassify_
| ThreadCreate | ThreadConfigure | ThreadResume | ThreadSuspend | ThreadDestroy.

Record HostCall := {
  caller : PluginId;
  function : HostFunction;
  args : list N;
  host_reads : list (MemAddr * Size);
  host_writes : list (MemAddr * Size)
}.

Record HostResult := { new_caps : list Capability; new_msgs : list Message }.

Definition host_err {A} (e : HostCallPrecondition) : result A StepError :=
  Err (HostCallPreconditionFailed e).

(** [.map_err(map_policy_err)] *)
Definition map_policy_err {A} (r : result A PolicyError) : result A StepError :=
  match r with Ok a => Ok a | Err _ => host_err NoCapabilityId end.

Definition required_action (self : HostCall) : result Action StepError :=
  match function self with
  | CapCall =>
      let? t := ok_or (head (args self)) (HostCallPreconditionFailed NoCapabilityId) in
      map_policy_err (Action_new (caller self) t (singleton_right Read) "cap_call")
  | KernelAlloc =>
      map_policy_err (Action_new (caller self) 0 (singleton_right Create) "kernel_alloc")
  | HostMemFree =>
      let? addr := ok_or (head (args self)) (HostCallPreconditionFailed NoAddress) in
      map_policy_err (Action_new (caller self) addr (singleton_right Delete) "mem_free")
  | HostCapRevoke =>
      let? cap_id := ok_or (head (args self)) (HostCallPreconditionFailed NoCapabilityId) in
      map_policy_err (Action_new (caller self) cap_id (singleton_right Revoke) "cap_revoke")
  | Declassify_ =>
      map_policy_err (Action_new (caller self) 0 (singleton_right Declassify) "declassify")
  | CapSend =>
      map_policy_err (Action_new (caller self) 0 (singleton_right Send) "cap_send")
  | _ => host_err (HostNotImplemented "thread operations")
  end.

(** The first region of a list out of the bounds of the plugin's memory. *)
Definition find_oob (plugin : PluginState) (regions : list (MemAddr * Size))
    : option (MemAddr * Size) :=
  find (λ r, negb (addr_in_bounds (memory plugin) r.1 r.2)) regions.

Definition host_check_preconditions (self : HostCall) (state : State) : result unit StepError :=
  let? plugin := ok_or (get_plugin state (caller self)) (StepPluginNotFound (caller self)) in
  match find_oob plugin (host_reads self) with
  | Some (addr, sz) => host_err (HostReadOutOfBounds addr sz)
  | None =>
      match find_oob plugin (host_writes self) with
      | Some (addr, sz) => host_err (HostWriteOutOfBounds addr sz)
      | None => Ok ()
      end
  end.

(** The checks the pure and in-place forms share. *)
Definition cap_call_check (state : State) (hc : HostCall) : result unit StepError :=
  let? plugin := ok_or (get_plugin state (caller hc)) (StepPluginNotFound (caller hc)) in
  if negb (existsb (λ i, RevocationState_is_valid (revocation (kernel state)) i) (held_caps plugin))
  then host_err NoValidCapability else Ok ().

Fixpoint cap_send_loop (state : State) (hc : HostCall) (msgs : list Message) : result unit StepError :=
  match msgs with
  | [] => Ok ()
  | msg :: rest =>
      if negb (msg_src msg =? caller hc)%N then host_err SourceMismatch
      else
        let? dst_actor := ok_or (get_actor state (msg_dst msg)) (StepActorNotFound (msg_dst msg)) in
        if (capacity dst_actor <=? mailbox_len dst_actor)%N then host_err MailboxFull
        else cap_send_loop state hc rest
  end.

Definition cap_send_check (state : State) (hc : HostCall) (res : HostResult) : result unit StepError :=
  match new_msgs res with
  | [] => host_err NoMessage
  | _ => cap_send_loop state hc (new_msgs res)
  end.

Definition kernel_alloc_check (state : State) (hc : HostCall) (sz : N) : result unit StepError :=
  let? plugin := ok_or (get_plugin state (caller hc)) (StepPluginNotFound (caller hc)) in
  if negb (can_alloc_memory plugin sz)
  then Err (QuotaExceeded 0 sz (memory_used plugin) (memory_quota plugin)) else Ok ().

(** [revocation().iter().find(..)] *)
Definition find_valid_targeting (state : State) (addr : MemAddr) : option CapId :=
  fst <$> find (λ kv, valid kv.2 && (target kv.2 =? addr)%N) (caps (revocation (kernel state))).

Definition mem_free_check (state : State) (addr : MemAddr) : result unit StepError :=
  if is_freed (ghost state) addr then Err (AddressAlreadyFreed addr)
  else match find_valid_targeting state addr with
       | Some cap_id => Err (CapabilityTargetsAddress cap_id addr)
       | None => Ok ()
       end.

Definition cap_revoke_check (state : State) (cap_id : CapId) : result unit StepError :=
  match RevocationState_get (revocation (kernel state)) cap_id with
  | None => Err (StepCapabilityNotFound cap_id)
  | Some _ => Ok ()
  end.

Definition declassify_check (state : State) (hc : HostCall) : result SecurityLevel StepError :=
  let new_level_val := default 0%N (head (args hc)) in
  let? new_level := ok_or (level_from_u8 new_level_val)
                      (HostCallPreconditionFailed (InvalidSecurityLevel new_level_val)) in
  let? plugin := ok_or (get_plugin state (caller hc)) (StepPluginNotFound (caller hc)) in
  match level_cmp new_level (level plugin) with
  | Gt => host_err CannotClassifyUp
  | _ => Ok new_level
  end.

Definition execute_cap_call (state : State) (hc : HostCall) : result State StepError :=
  let? _ := cap_call_check state hc in Ok state.
Definition execute_cap_send (state : State) (hc : HostCall) (res : HostResult) : result State StepError :=
  let? _ := cap_send_check state hc res in Ok state.

Definition execute_kernel_alloc (state : State) (hc : HostCall) : result State StepError :=
  let sz := default 0%N (head (args hc)) in
  let? _ := kernel_alloc_check state hc sz in
  let new_state := (apply_alloc state (caller hc) sz).1 in
  Ok (update_plugin new_state (caller hc)
        (λ p, with_memory_used p (saturating_add U64_MAX (memory_used p) sz))).

Definition host_mem_free (state : State) (hc : HostCall) : result State StepError :=
  let? addr := ok_or (head (args hc)) (HostCallPreconditionFailed NoAddress) in
  let? _ := mem_free_check state addr in
  match apply_free state addr with
  | Ok s => Ok s
  | Err e => host_err (FreeFailed e)
  end.

Definition host_cap_revoke (state : State) (hc : HostCall) : result State StepError :=
  let? cap_id := ok_or (head (args hc)) (HostCallPreconditionFailed NoCapabilityId) in
  let? _ := cap_revoke_check state cap_id in
  Ok (apply_cap_revoke state cap_id).

Definition execute_declassify (state : State) (hc : HostCall) : result State StepError :=
  let? new_level := declassify_check state hc in
  Ok (update_plugin state (caller hc) (λ p, with_level p new_level)).

Definition HostFunction_execute (self : HostFunction) (state : State) (hc : HostCall) (res : HostResult)
    : result State StepError :=
  match self with
  | CapCall => execute_cap_call state hc
  | CapSend => execute_cap_send state hc res
  | KernelAlloc => execute_kernel_alloc state hc
  | HostMemFree => host_mem_free state hc
  | HostCapRevoke => host_cap_revoke state hc
  | Declassify_ => execute_declassify state hc
  | _ => host_err (HostNotImplemented "thread operations")
  end.

(** The in-place forms. *)
Definition unchanged (state : State) (r : result unit StepError) : option (State * result unit StepError) :=
  Some (state, r).

(** Continue in place after a check that leaves the state alone. *)
Definition after {A} (state : State) (r : result A StepError)
    (k : A → option (State * result unit StepError)) : option (State * result unit StepError) :=
  match r with Ok a => k a | Err e => unchanged state (Err e) end.

Definition execute_kernel_alloc_mut (state : State) (hc : HostCall)
    : option (State * result unit StepError) :=
  let sz := default 0%N (head (args hc)) in
  after state (kernel_alloc_check state hc sz) (λ _,
    let new_state := (apply_alloc state (caller hc) sz).1 in
    Some (update_plugin new_state (caller hc)
            (λ p, with_memory_used p (saturating_add U64_MAX (memory_used p) sz)), Ok ())).

Definition host_mem_free_mut (state : State) (hc : HostCall)
    : option (State * result unit StepError) :=
  after state (ok_or (head (args hc)) (HostCallPreconditionFailed NoAddress)) (λ addr,
  after state (mem_free_check state addr) (λ _,
    match apply_free_mut state addr with
    | (s, Ok _) => Some (s, Ok ())
    | (s, Err e) => Some (s, host_err (FreeFailed e))
    end)).

Definition cap_revoke_mut (state : State) (cap_id : CapId) : option (State * result unit StepError) :=
  after state (cap_revoke_check state cap_id) (λ _,
    '(s, r) ← apply_cap_revoke_mut state cap_id;
    Some (s, match r with Ok _ => Ok () | Err _ => Err (StepCapabilityNotFound cap_id) end)).

Definition host_cap_revoke_mut (state : State) (hc : HostCall)
    : option (State * result unit StepError) :=
  after state (ok_or (head (args hc)) (HostCallPreconditionFailed NoCapabilityId)) (cap_revoke_mut state).

Definition execute_declassify_mut (state : State) (hc : HostCall)
    : option (State * result unit StepError) :=
  after state (declassify_check state hc) (λ new_level,
    Some (update_plugin state (caller hc) (λ p, with_level p new_level), Ok ())).

Definition HostFunction_execute_mut (self : HostFunction) (state : State) (hc : HostCall)
    (res : HostResult) : option (State * result unit StepError) :=
  match self with
  | CapCall => unchanged state (cap_call_check state hc)
  | CapSend => unchanged state (cap_send_check state hc res)
  | KernelAlloc => execute_kernel_alloc_mut state hc
  | HostMemFree => host_mem_free_mut state hc
  | HostCapRevoke => host_cap_revoke_mut state hc
  | Declassify_ => execute_declassify_mut state hc
  | _ => unchanged state (host_err (HostNotImplemented "thread operations"))
  end.

(** ** step/plugin_internal.rs *)

Record PluginInternal := {
  reads : list (MemAddr * Size);
  writes : list (MemAddr * Size);
  consume_mailbox : bool
}.

Definition plugin_check_preconditions (self : PluginInternal) (state : State) (pid : PluginId)
    : result unit StepError :=
  let? plugin := ok_or (get_plugin state pid) (StepPluginNotFound pid) in
  let? _ := match get_actor state pid with
            | Some actor => if is_blocked actor
                            then Err (PluginPreconditionFailed (Blocked pid (blocked_on actor)))
                            else Ok ()
            | None => Ok ()
            end in
  match find_oob plugin (reads self) with
  | Some (addr, sz) =>
      Err (PluginPreconditionFailed (PluginReadOutOfBounds addr sz (bounds (memory plugin))))
  | None =>
      match find_oob plugin (writes self) with
      | Some (addr, sz) =>
          Err (PluginPreconditionFailed (PluginWriteOutOfBounds addr sz (bounds (memory plugin))))
      | None =>
          if consume_mailbox self then
            match get_actor state pid with
            | Some actor => if negb (can_receive actor)
                            then Err (PluginPreconditionFailed MailboxEmpty) else Ok ()
            | None => Ok ()
            end
          else Ok ()
      end
  end.

(** The checks of both forms, up to the mailbox. *)
Definition plugin_internal_check (state : State) (pid : PluginId) (pi : PluginInternal)
    : result unit StepError :=
  let? plugin := ok_or (get_plugin state pid) (StepPluginNotFound pid) in
  let? _ := plugin_check_preconditions pi state pid in
  match find (λ w, negb (addr_in_bounds (memory plugin) w.1 1)) (writes pi) with
  | Some (addr, _) =>
      Err (PluginPreconditionFailed (PluginWriteOutOfBounds addr 1 (bounds (memory plugin))))
  | None => Ok ()
  end.

Definition consume_step (state : State) (pid : PluginId) (pi : PluginInternal) : State :=
  if consume_mailbox pi then update_actor state pid (λ a, (consume a).1) else state.

Definition execute_plugin_internal (state : State) (pid : PluginId) (pi : PluginInternal)
    : result State StepError :=
  let? _ := plugin_internal_check state pid pi in Ok (consume_step state pid pi).
Definition execute_plugin_internal_mut (state : State) (pid : PluginId) (pi : PluginInternal)
    : option (State * result unit StepError) :=
  after state (plugin_internal_check state pid pi) (λ _, Some (consume_step state pid pi, Ok ())).

(** ** step/kernel_op.rs *)

Inductive KernelOp : Type :=
| RouteOne (dst : ActorId)
| WorkflowTick (wid : WorkflowId)
| TimeTick
| UnblockSend (dst : ActorId)
| ThreadSwitch (from to : ThreadId).

Definition route_one_check (state : State) (dst : ActorId) : result unit StepError :=
  let? actor := ok_or (get_actor state dst) (StepActorNotFound dst) in
  if (pending_len actor =? 0)%N then Err (KernelOpFailed (NoPendingMessages dst))
  else if (capacity actor <=? mailbox_len actor)%N
  then Err (KernelOpFailed (MailboxAtCapacity dst)) else Ok ().

Definition workflow_tick_check (state : State) (wid : WorkflowId) : result unit StepError :=
  let? workflow := ok_or (get_workflow state wid) (KernelOpFailed (OpWorkflowNotFound wid)) in
  if negb (status_is_running (status workflow)) then Err (KernelOpFailed (WorkflowNotRunning wid)) else Ok ().

Definition time_tick (state : State) : result State StepError :=
  match State_tick state with
  | Ok s => Ok s
  | Err e => Err (KernelOpFailed (OpCounterOverflow (StateError_display e)))
  end.

Definition unblock_check (state : State) (dst : ActorId) : result unit StepError :=
  match get_actor state dst with None => Err (StepActorNotFound dst) | Some _ => Ok () end.

Definition KernelOp_execute (self : KernelOp) (state : State) : result State StepError :=
  match self with
  | RouteOne dst =>
      let? _ := route_one_check state dst in Ok (update_actor state dst (λ a, (deliver_mut a).1))
  | WorkflowTick wid => let? _ := workflow_tick_check state wid in Ok state
  | TimeTick => time_tick state
  | UnblockSend dst => let? _ := unblock_check state dst in Ok (update_actor state dst unblock)
  | ThreadSwitch _ _ => Err (KernelOpFailed (OpNotImplemented "thread_switch"))
  end.

Definition KernelOp_execute_mut (self : KernelOp) (state : State)
    : option (State * result unit StepError) :=
  match self with
  | RouteOne dst =>
      after state (route_one_check state dst) (λ _,
        Some (update_actor state dst (λ a, (deliver_mut a).1), Ok ()))
  | WorkflowTick wid => unchanged state (workflow_tick_check state wid)
  | TimeTick => after state (time_tick state) (λ s, Some (s, Ok ()))
  | UnblockSend dst =>
      after state (unblock_check state dst) (λ _, Some (update_actor state dst unblock, Ok ()))
  | ThreadSwitch _ _ => unchanged state (Err (KernelOpFailed (OpNotImplemented "thread_switch")))
  end.

(** ** step/mod.rs *)

Inductive Step : Type :=
| StepPluginInternal (pid : PluginId) (pi : PluginInternal)
| StepHostCall (hc : HostCall) (auth : Authorized) (res : HostResult)
| StepKernelInternal (op : KernelOp)
| StepMemFree (by_ : PluginId) (addr : MemAddr)
| StepCapRevoke (by_ : PluginId) (cap_id : CapId).

(** [?] on an [AuthorizationError] *)
Definition auth_err {A} (r : result A AuthorizationError) : result A StepError :=
  match r with Ok a => Ok a | Err e => Err (AuthorizationFailed e) end.

Definition host_call_atomic (state : State) (hc : HostCall) (cap_id : CapId) (ctx : PolicyContext)
    (res : HostResult) : result Step StepError :=
  let? cap := ok_or (get_cap state cap_id) (StepCapabilityNotFound cap_id) in
  let? action := required_action hc in
  if negb (holder cap =? caller hc)%N
  then Err (AuthorizationFailed (HolderMismatch (caller hc) (holder cap)))
  else
    let? auth := auth_err (validate_atomic state cap action ctx) in
    Ok (StepHostCall hc auth res).

Definition step_subject (self : Step) : option PluginId :=
  match self with
  | StepPluginInternal pid _ => Some pid
  | StepHostCall hc _ _ => Some (caller hc)
  | StepKernelInternal _ => None
  | StepMemFree c _ | StepCapRevoke c _ => Some c
  end.
Definition step_level (self : Step) (state : State) : SecurityLevel :=
  match step_subject self with
  | Some pid => default Public (plugin_level state pid)
  | None => Secret
  end.
Definition is_effectful (self : Step) : bool :=
  match self with StepHostCall _ _ _ => true | _ => false end.
Definition is_declassify (self : Step) : bool :=
  match self with
  | StepHostCall hc _ _ => match function hc with Declassify_ => true | _ => false end
  | _ => false
  end.

(** What a host call is checked for before its function runs. *)
Definition host_call_check (state : State) (hc : HostCall) (auth : Authorized) : result unit StepError :=
  if negb (subject (auth_action auth) =? caller hc)%N
  then Err (AuthorizationFailed (HolderMismatch (subject (auth_action auth)) (caller hc)))
  else
    let? derived := required_action hc in
    if decide (derived = auth_action auth) then
      let? _ := auth_err (Authorized_validate auth state) in
      host_check_preconditions hc state
    else Err (InvalidTransition (IncompatibleStates "authorized host call" "mismatched host call")).

Definition execute_host_call (state : State) (hc : HostCall) (auth : Authorized) (res : HostResult)
    : result State StepError :=
  let? _ := host_call_check state hc auth in HostFunction_execute (function hc) state hc res.
Definition execute_host_call_mut (state : State) (hc : HostCall) (auth : Authorized) (res : HostResult)
    : option (State * result unit StepError) :=
  after state (host_call_check state hc auth) (λ _, HostFunction_execute_mut (function hc) state hc res).

Definition execute_mem_free (state : State) (addr : MemAddr) : result State StepError :=
  let? _ := mem_free_check state addr in
  match apply_free state addr with Ok s => Ok s | Err e => Err (StepStateError e) end.
Definition execute_mem_free_mut (state : State) (addr : MemAddr)
    : option (State * result unit StepError) :=
  after state (mem_free_check state addr) (λ _,
    match apply_free_mut state addr with
    | (s, Ok _) => Some (s, Ok ())
    | (s, Err e) => Some (s, Err (StepStateError e))
    end).

Definition execute_cap_revoke (state : State) (cap_id : CapId) : result State StepError :=
  let? _ := cap_revoke_check state cap_id in Ok (apply_cap_revoke state cap_id).

Definition execute (self : Step) (state : State) : result State StepError :=
  match self with
  | StepPluginInternal pid pi => execute_plugin_internal state pid pi
  | StepHostCall hc auth res => execute_host_call state hc auth res
  | StepKernelInternal op => KernelOp_execute op state
  | StepMemFree _ addr => execute_mem_free state addr
  | StepCapRevoke _ cap_id => execute_cap_revoke state cap_id
  end.

Definition execute_mut (self : Step) (state : State) : option (State * result unit StepError) :=
  match self with
  | StepPluginInternal pid pi => execute_plugin_internal_mut state pid pi
  | StepHostCall hc auth res => execute_host_call_mut state hc auth res
  | StepKernelInternal op => KernelOp_execute_mut op state
  | StepMemFree _ addr => execute_mem_free_mut state addr
  | StepCapRevoke _ cap_id => cap_revoke_mut state cap_id
  end.

(** The loop of [reachable]. *)
Fixpoint execute_steps (current : State) (steps : list Step) : result State StepError :=
  match steps with
  | [] => Ok current
  | step :: rest => let? next := execute step current in execute_steps next rest
  end.

Definition reachable (start e : State) (steps : list Step) : result bool StepError :=
  let? current := execute_steps start steps in
  Ok (now (kernel current) =? now (kernel e))%N.
