(* ===== verification/LionStepFacts.v ===== *)
(** Facts on the steps of the microkernel: the state changes a step can make,
    the invariants they keep, and what is left alone. *)

From Stdlib Require Import NArith String.
From stdpp Require Import base tactics list numbers strings sorting gmap.
From S2P Require Import Prelude LionVec LionRights LionRevocation LionRevocationFacts LionMemory LionState LionStep.

(** ** The actor table *)

Lemma get_actor_bm self a : get_actor self a = bm_get a (actors self).
Proof. apply vec_get_bm. Qed.

Lemma update_actor_eq self a f :
  update_actor self a f =
  match get_actor self a with
  | Some x => with_actors self (bm_insert a (f x) (actors self))
  | None => self
  end.
Proof.
  rewrite get_actor_bm. unfold update_actor.
  destruct (binary_search_by_key a (actors self)) as [i|i] eqn:E.
  - destruct (update_at_bm f _ _ _ E) as (v & -> & ->). done.
  - by rewrite (search_Err _ _ _ E).
Qed.

Lemma update_actor_get self a f b :
  bm_wf (actors self) →
  get_actor (update_actor self a f) b = if decide (b = a) then f <$> get_actor self a else get_actor self b.
Proof.
  intros Hw. rewrite update_actor_eq. destruct (get_actor self a) as [x|] eqn:E.
  - rewrite get_actor_bm. cbn [with_actors actors]. rewrite bm_get_insert by done.
    case_decide; [done|]. by rewrite get_actor_bm.
  - case_decide; [by subst|done].
Qed.

Lemma update_actor_wf self a f : bm_wf (actors self) → bm_wf (actors (update_actor self a f)).
Proof.
  intros Hw. rewrite update_actor_eq. destruct (get_actor self a); [|done]. by apply bm_insert_wf.
Qed.

Lemma update_actor_frame self a f :
  kernel (update_actor self a f) = kernel self ∧ plugins (update_actor self a f) = plugins self ∧
  resources (update_actor self a f) = resources self ∧
  workflows (update_actor self a f) = workflows self ∧ ghost (update_actor self a f) = ghost self.
Proof. rewrite update_actor_eq. by destruct (get_actor self a). Qed.

(** ** The changes a step can make *)

Definition alloc_for (s : State) (c : PluginId) (sz : Size) : State :=
  update_plugin (apply_alloc s c sz).1 c
    (λ p, with_memory_used p (saturating_add U64_MAX (memory_used p) sz)).

(** [effect s st s']: the change of state [st] makes, with the part of its
    checks the change depends on. *)
Inductive effect (s : State) : Step → State → Prop :=
| effect_none st : effect s st s
| effect_consume pid pi a : get_actor s pid = Some a → is_blocked a = false → can_receive a = true →
    effect s (StepPluginInternal pid pi) (update_actor s pid (λ a, (consume a).1))
| effect_alloc hc auth res p sz : function hc = KernelAlloc → get_plugin s (caller hc) = Some p →
    can_alloc_memory p sz = true → effect s (StepHostCall hc auth res) (alloc_for s (caller hc) sz)
| effect_free st addr : is_freed (ghost s) addr = false →
    any_valid_targeting (revocation (kernel s)) addr = false →
    effect s st (with_ghost s (meta_free (ghost s) addr))
| effect_revoke st c cap : get_cap s c = Some cap → effect s st (apply_cap_revoke s c)
| effect_declassify hc auth res p l : function hc = Declassify_ → get_plugin s (caller hc) = Some p →
    level_cmp l (level p) ≠ Gt →
    effect s (StepHostCall hc auth res) (update_plugin s (caller hc) (λ p, with_level p l))
| effect_route dst a : get_actor s dst = Some a → pending_queue a ≠ [] →
    (mailbox_len a < capacity a)%N →
    effect s (StepKernelInternal (RouteOne dst)) (update_actor s dst (λ a, (deliver_mut a).1))
| effect_unblock dst a : get_actor s dst = Some a →
    effect s (StepKernelInternal (UnblockSend dst)) (update_actor s dst unblock)
| effect_tick k : KernelState_tick (kernel s) = Ok k →
    effect s (StepKernelInternal TimeTick) (with_kernel s k).

Lemma mem_free_effect s st addr s' :
  mem_free_check s addr = Ok () → apply_free s addr = Ok s' → effect s st s'.
Proof.
  unfold mem_free_check, apply_free. destruct (is_freed (ghost s) addr) eqn:Hf; [done|].
  intros _. destruct (any_valid_targeting _ addr) eqn:Ha; [done|]. intros [= <-]. by apply effect_free.
Qed.

Lemma revoke_effect s st c : cap_revoke_check s c = Ok () → effect s st (apply_cap_revoke s c).
Proof.
  unfold cap_revoke_check. destruct (RevocationState_get _ c) as [cap|] eqn:E; [|done].
  intros _. by eapply effect_revoke.
Qed.

Lemma host_effect s hc auth res s' :
  HostFunction_execute (function hc) s hc res = Ok s' → effect s (StepHostCall hc auth res) s'.
Proof.
  destruct (function hc) eqn:Ef; cbn [HostFunction_execute]; try done.
  - unfold execute_cap_call. destruct (cap_call_check s hc); [|done]. intros [= <-]. constructor.
  - unfold execute_cap_send. destruct (cap_send_check s hc res); [|done]. intros [= <-]. constructor.
  - unfold execute_kernel_alloc, kernel_alloc_check.
    destruct (get_plugin s (caller hc)) as [p|] eqn:Ep; [|done]. cbn [ok_or res_bind].
    destruct (can_alloc_memory p (default 0%N (head (args hc)))) eqn:Ec; [|done]. intros [= <-]. by eapply effect_alloc.
  - unfold host_mem_free. destruct (head (args hc)) as [addr|]; [|done]. cbn [ok_or res_bind].
    destruct (mem_free_check s addr) as [[]|] eqn:Ec; [|done]. simpl.
    destruct (apply_free s addr) eqn:Ea; [|done]. intros [= <-]. by eapply mem_free_effect.
  - unfold host_cap_revoke. destruct (head (args hc)) as [c|]; [|done]. cbn [ok_or res_bind].
    destruct (cap_revoke_check s c) as [[]|] eqn:Ec; [|done]. intros [= <-]. by apply revoke_effect.
  - unfold execute_declassify, declassify_check. destruct (level_from_u8 (default 0%N (head (args hc)))) as [l|]; [|done]. cbn [ok_or res_bind].
    destruct (get_plugin s (caller hc)) as [p|] eqn:Ep; [|done]. cbn [ok_or res_bind].
    destruct (level_cmp l (level p)) eqn:El; [| |done]; intros [= <-];
      eapply effect_declassify; by rewrite ?El.
Qed.

Lemma kernel_op_effect s op s' :
  KernelOp_execute op s = Ok s' → effect s (StepKernelInternal op) s'.
Proof.
  destruct op as [dst|wid| |dst|]; cbn [KernelOp_execute]; [| | | |done].
  - unfold route_one_check. destruct (get_actor s dst) as [a|] eqn:Ea; [|done]. cbn [ok_or res_bind].
    destruct (N.eqb_spec (pending_len a) 0) as [|Hp]; [done|].
    destruct (N.leb_spec (capacity a) (mailbox_len a)) as [|Hc]; [done|]. intros [= <-].
    eapply effect_route; [done| |done]. intros E. apply Hp. unfold pending_len. by rewrite E.
  - destruct (workflow_tick_check s wid); [|done]. intros [= <-]. constructor.
  - unfold time_tick, State_tick. destruct (KernelState_tick (kernel s)) eqn:E; [|done].
    intros [= <-]. by constructor.
  - unfold unblock_check. destruct (get_actor s dst) as [a|] eqn:Ea; [|done]. intros [= <-].
    by eapply effect_unblock.
Qed.

Lemma plugin_effect s pid pi s' :
  execute_plugin_internal s pid pi = Ok s' → effect s (StepPluginInternal pid pi) s'.
Proof.
  unfold execute_plugin_internal, plugin_internal_check, plugin_check_preconditions, consume_step.
  destruct (get_plugin s pid) as [p|]; [|done]. cbn [ok_or res_bind].
  destruct (get_actor s pid) as [a|] eqn:Ea.
  - destruct (is_blocked a) eqn:Eb; [done|]. simpl. destruct (find_oob p (reads pi)) as [[]|]; [done|].
    destruct (find_oob p (writes pi)) as [[]|]; [done|].
    destruct (consume_mailbox pi).
    + destruct (can_receive a) eqn:Er; [|done]. simpl. destruct (find _ _) as [[]|]; [done|].
      intros [= <-]. by eapply effect_consume.
    + simpl. destruct (find _ _) as [[]|]; [done|]. intros [= <-]. constructor.
  - simpl. destruct (find_oob p (reads pi)) as [[]|]; [done|].
    destruct (find_oob p (writes pi)) as [[]|]; [done|].
    rewrite update_actor_eq, Ea.
    destruct (consume_mailbox pi); simpl; (destruct (find _ _) as [[]|]; [done|]); intros [= <-]; constructor.
Qed.

Lemma execute_effect st s s' : execute st s = Ok s' → effect s st s'.
Proof.
  destruct st as [pid pi|hc auth res|op|c addr|c i]; cbn [execute].
  - apply plugin_effect.
  - unfold execute_host_call. destruct (host_call_check s hc auth); [|done]. apply host_effect.
  - apply kernel_op_effect.
  - unfold execute_mem_free. destruct (mem_free_check s addr) as [[]|] eqn:Ec; [|done]. simpl.
    destruct (apply_free s addr) eqn:Ea; [|done]. intros [= <-]. by eapply mem_free_effect.
  - unfold execute_cap_revoke. destruct (cap_revoke_check s i) as [[]|] eqn:Ec; [|done].
    intros [= <-]. by apply revoke_effect.
Qed.

(** ** The invariant *)

Lemma flows_level_cmp a b : level_cmp a b ≠ Gt ↔ flows_to a b = true.
Proof. unfold level_cmp, flows_to. by rewrite N.leb_le. Qed.

Lemma any_valid_targeting_spec r t :
  table_wf r →
  any_valid_targeting r t = true ↔
  ∃ c cap, RevocationState_get r c = Some cap ∧ valid cap = true ∧ target cap = t.
Proof.
  intros Hw. unfold any_valid_targeting. rewrite existsb_exists. split.
  - intros ([c cap] & Hin%list_elem_of_In & [Hv Ht%N.eqb_eq]%andb_true_iff). exists c, cap.
    rewrite get_bm. split; [|done]. by apply elem_of_bm_get; [apply Hw|].
  - intros (c & cap & Hc & Hv & Ht). exists (c, cap). rewrite <-list_elem_of_In. split.
    + rewrite get_bm in Hc. by apply elem_of_bm_get in Hc; [|apply Hw].
    + cbn [snd]. by rewrite Hv, Ht, N.eqb_refl.
Qed.

Lemma is_freed_free g a b :
  StronglySorted cmp_lt (freed_set g) → is_freed (meta_free g a) b = bool_decide (b = a) || is_freed g b.
Proof.
  intros Hs. destruct (insert_cap_sorted_spec (freed_set g) a Hs) as [Hs' Hin].
  apply eq_true_iff_eq. rewrite orb_true_iff, bool_decide_eq_true. unfold is_freed.
  change (freed_set (meta_free g a)) with (insert_cap_sorted (freed_set g) a).
  by rewrite !binary_search_elem, Hin by done.
Qed.

Lemma transitive_get r c k :
  RevocationState_get (revoke_transitive r c) k =
  (λ cap, if in_revoke_set r k c then Capability_revoke cap else cap) <$> RevocationState_get r k.
Proof. apply (revoke_where_get (λ k, in_revoke_set r k c)). Qed.

(** The invariant of the microkernel. Valid capabilities may be on the freed
    addresses [T] only. *)
Record safe_but (T : list MemAddr) (s : State) : Prop := {
  safe_plugins : plugins_wf s;
  safe_actors : bm_wf (actors s);
  safe_table : table_wf (revocation (kernel s));
  safe_freed : StronglySorted cmp_lt (freed_set (ghost s));
  safe_dangling : ∀ c cap, get_cap s c = Some cap → valid cap = true →
    is_freed (ghost s) (target cap) = true → target cap ∈ T;
  safe_quota : ∀ p ps, get_plugin s p = Some ps → (memory_used ps ≤ memory_quota ps)%N;
  safe_mailbox : ∀ a ar, get_actor s a = Some ar → (mailbox_len ar ≤ capacity ar)%N
}.
Arguments safe_plugins {T s} _.
Arguments safe_actors {T s} _.
Arguments safe_table {T s} _.
Arguments safe_freed {T s} _.
Arguments safe_dangling {T s} _.
Arguments safe_quota {T s} _.
Arguments safe_mailbox {T s} _.

(** No valid capability is on a freed address. *)
Abbreviation safe := (safe_but []).

Lemma safe_but_mono T T' s : T ⊆ T' → safe_but T s → safe_but T' s.
Proof. intros HT []. split; eauto. Qed.

Lemma safe_empty T : safe_but T State_empty.
Proof.
  split; try done; [by split; [constructor|]|constructor|apply table_wf_empty|constructor].
Qed.

(** An update of one actor that keeps its mailbox within its capacity. *)
Lemma safe_update_actor T s a f :
  safe_but T s → (∀ ar, get_actor s a = Some ar → (mailbox_len (f ar) ≤ capacity (f ar))%N) →
  safe_but T (update_actor s a f).
Proof.
  intros [] Hf. destruct (update_actor_frame s a f) as (Hk & Hp & _ & _ & Hg).
  split; unfold plugins_wf, get_plugin, get_cap; rewrite ?Hk, ?Hp, ?Hg; try done.
  - by apply update_actor_wf.
  - intros b ar. rewrite update_actor_get by done. case_decide as E; [|by apply safe_mailbox0].
    intros (x & Hx & ->)%fmap_Some. by apply Hf.
Qed.

(** An update of one plugin that keeps its list sorted and its quota. *)
Lemma safe_update_plugin T s p f :
  safe_but T s → (∀ ps, StronglySorted cmp_lt (held_caps ps) → StronglySorted cmp_lt (held_caps (f ps))) →
  (∀ ps, get_plugin s p = Some ps → (memory_used (f ps) ≤ memory_quota (f ps))%N) →
  safe_but T (update_plugin s p f).
Proof.
  intros [[] ] Hh Hf. destruct (update_plugin_frame s p f) as (Hk & Ha & _ & _ & Hg).
  split; unfold get_actor, get_cap; rewrite ?Hk, ?Ha, ?Hg; try done.
  - split; [by apply update_plugin_wf|]. intros q ps. rewrite update_plugin_get by done.
    case_decide; [|eauto]. intros (x & Hx & ->)%fmap_Some. eauto.
  - intros q ps. rewrite update_plugin_get by done. case_decide; [|eauto].
    intros (x & Hx & ->)%fmap_Some. by apply Hf.
Qed.

Lemma can_alloc_spec p sz :
  can_alloc_memory p sz = true → (memory_used p + sz ≤ memory_quota p)%N ∧ (memory_used p + sz ≤ U64_MAX)%N.
Proof.
  unfold can_alloc_memory, checked_add. case_decide; [|done]. rewrite N.leb_le. done.
Qed.

Lemma safe_alloc T s c p sz :
  safe_but T s → get_plugin s c = Some p → can_alloc_memory p sz = true → safe_but T (alloc_for s c sz).
Proof.
  intros Hs Hp [Hq Hm]%can_alloc_spec. apply safe_update_plugin; [|done|].
  - by destruct Hs.
  - intros ps Hps. change (get_plugin s c = Some ps) in Hps. simplify_eq. simpl.
    unfold saturating_add. lia.
Qed.

Lemma effect_safe T s st s' : effect s st s' → safe_but T s → safe_but T s'.
Proof.
  intros [|pid pi a Ha Hb Hr|hc auth res p sz Hf Hp Hc|? addr Hf Ht|? c cap Hc|hc auth res p l Hf Hp Hl
         |dst a Ha Hq Hc|dst a Ha|k Hk] Hs; [done|..].
  - apply safe_update_actor; [done|]. intros ar Har. simplify_eq.
    pose proof (safe_mailbox Hs _ _ Ha) as Hm. unfold consume, mailbox_len in *.
    destruct (mailbox a) as [|x l] eqn:E; cbn [fst with_queues mailbox capacity length] in *; [by rewrite E|lia].
  - by eapply safe_alloc.
  - destruct Hs. split; try done.
    + by apply insert_cap_sorted_spec.
    + intros c cap Hc Hv. cbn [with_ghost ghost]. rewrite is_freed_free by done.
      intros [He%bool_decide_eq_true|He]%orb_true_iff; [|eauto].
      apply not_true_iff_false in Ht. destruct Ht. apply any_valid_targeting_spec; [done|]. by exists c, cap.
  - destruct Hs. split; try done.
    + by apply (revoke_where_wf (λ k, in_revoke_set _ k c)).
    + intros k cp. unfold get_cap. simpl. rewrite transitive_get.
      intros (c0 & Hc0 & ->)%fmap_Some. destruct (in_revoke_set _ _ _); [done|]. eauto.
  - apply safe_update_plugin; [done|done|]. intros ps Hps. by apply (safe_quota Hs _ _ Hps).
  - apply safe_update_actor; [done|]. intros ar Har. simplify_eq. unfold deliver_mut.
    destruct (pending_queue a); [done|]. rewrite (proj2 (N.ltb_lt _ _)) by done.
    unfold mailbox_len in *. simpl. rewrite length_app. simpl. lia.
  - apply safe_update_actor; [done|]. intros ar Har. by apply (safe_mailbox Hs _ _ Har).
  - unfold KernelState_tick in Hk. destruct (checked_add _ _ _); [|done]. injection Hk as <-.
    by destruct Hs.
Qed.

(** ** What the steps leave alone *)

Record plugin_evolves (a b : PluginState) : Prop := {
  pe_caps : held_caps b = held_caps a;
  pe_memory : memory b = memory a;
  pe_quota : memory_quota b = memory_quota a ∧ cap_quota b = cap_quota a ∧
             ipc_queue_limit b = ipc_queue_limit a;
  pe_used : (memory_used a ≤ memory_used b)%N;
  pe_level : flows_to (level b) (level a) = true
}.

Record evolves (s s' : State) : Prop := {
  ev_time : (now (kernel s) ≤ now (kernel s'))%N;
  ev_freed : ∀ a, is_freed (ghost s) a = true → is_freed (ghost s') a = true;
  ev_frame : key_state (kernel s') = key_state (kernel s) ∧ policy (kernel s') = policy (kernel s) ∧
             next_cap_id (kernel s') = next_cap_id (kernel s) ∧ resources s' = resources s ∧
             workflows s' = workflows s;
  ev_caps : ∀ c, get_cap s' c = get_cap s c ∨ get_cap s' c = Capability_revoke <$> get_cap s c;
  ev_plugins : ∀ p, option_Forall2 plugin_evolves (get_plugin s p) (get_plugin s' p)
}.

#[export] Instance plugin_evolves_preorder : PreOrder plugin_evolves.
Proof.
  split.
  - intros a. split; try done. unfold flows_to. by apply N.leb_refl.
  - intros a b c [] []. split; [congruence|congruence|destruct_and!; split_and!; congruence|lia|].
    unfold flows_to in *. rewrite N.leb_le in *. lia.
Qed.

#[export] Instance evolves_preorder : PreOrder evolves.
Proof.
  split.
  - intros s. split; try done. by left.
  - intros s1 s2 s3 [] []. split.
    + lia.
    + eauto.
    + destruct_and!; split_and!; congruence.
    + intros c. destruct (ev_caps0 c) as [H1|H1], (ev_caps1 c) as [H2|H2]; rewrite H2, H1; auto.
      right. by destruct (get_cap s1 c).
    + intros p. etrans; [apply ev_plugins0|apply ev_plugins1].
Qed.

Lemma evolves_update_actor s a f : evolves s (update_actor s a f).
Proof.
  destruct (update_actor_frame s a f) as (Hk & Hp & Hr & Hw & Hg).
  split; unfold get_cap, get_plugin; rewrite ?Hk, ?Hp, ?Hr, ?Hw, ?Hg; try done. by left.
Qed.

Lemma evolves_update_plugin s p f :
  plugins_wf s → (∀ ps, get_plugin s p = Some ps → plugin_evolves ps (f ps)) → evolves s (update_plugin s p f).
Proof.
  intros [Hw _] Hf. destruct (update_plugin_frame s p f) as (Hk & Ha & Hr & Hww & Hg).
  split; unfold get_cap; rewrite ?Hk, ?Ha, ?Hr, ?Hww, ?Hg; try done; [by left|].
  intros q. rewrite update_plugin_get by done. case_decide; [subst|done].
  destruct (get_plugin s p) as [ps|]; [|constructor]. constructor. by apply Hf.
Qed.

Lemma effect_evolves s st s' : effect s st s' → safe s → evolves s s'.
Proof.
  intros [|pid pi a Ha Hb Hr|hc auth res p sz Hf Hp Hc|? addr Hf Ht|? c cap Hc|hc auth res p l Hf Hp Hl
         |dst a Ha Hq Hc|dst a Ha|k Hk] Hs; [done|apply evolves_update_actor|..|apply evolves_update_actor
         |apply evolves_update_actor|].
  - apply can_alloc_spec in Hc as [Hq Hm]. etrans.
    { assert (evolves s (apply_alloc s (caller hc) sz).1) as H; [|exact H]. split; try done. by left. }
    apply evolves_update_plugin; [apply Hs|]. intros ps Hps. change (get_plugin s (caller hc) = Some ps) in Hps. simplify_eq.
    split; try done; cbn [with_memory_used memory_used level].
    + unfold saturating_add. lia.
    + apply N.leb_refl.
  - split; try done; [|by left]. intros b. cbn [with_ghost ghost].
    rewrite is_freed_free by apply Hs. intros ->. apply orb_true_r.
  - split; try done. intros k. unfold get_cap. simpl. rewrite transitive_get.
    destruct (in_revoke_set _ k c); [by right|]. left. by destruct (RevocationState_get _ k).
  - apply evolves_update_plugin; [apply Hs|]. intros ps Hps. simplify_eq. split; try done.
    by apply flows_level_cmp.
  - unfold KernelState_tick in Hk. destruct (checked_add _ _ _) as [n|] eqn:E; [|done]. injection Hk as <-.
    apply checked_add_Some in E as [-> _]. split; try done; [simpl; lia|by left].
Qed.
