(* ===== verification/LionKernelFacts.v ===== *)
(** The kernel interface keeps the invariant of the microkernel; what a host call is
    checked for; and the states a kernel comes to. *)

From Stdlib Require Import NArith String.
From stdpp Require Import base tactics list numbers strings sorting gmap.
From S2P Require Import Prelude LionVec LionRights LionRevocation LionRevocationFacts LionMemory LionState LionStep LionStepFacts.

(** ** The kernel interface *)

Lemma register_plugin_safe T s p l sz s' r : safe_but T s → register_plugin s p l sz = (s', r) → safe_but T s'.
Proof.
  intros Hs. unfold register_plugin.
  pose proof (insert_plugin_spec s p (PluginState_empty l sz) (proj1 (safe_plugins Hs))) as Hi.
  destruct (get_plugin s p) eqn:Eg; [rewrite Hi; by intros [= <- <-]|].
  destruct Hi as (s1 & Hi & Hk & Hwf & Hget). rewrite Hi. intros [= <- <-].
  assert (actors s1 = actors s ∧ ghost s1 = ghost s) as [Ha Hg]
    by (unfold insert_plugin in Hi; destruct (binary_search_by_key p (plugins s)); by simplify_eq).
  destruct Hs. split; unfold get_cap, get_actor; rewrite ?Hk, ?Ha, ?Hg; try done.
  - split; [done|]. intros q ps. rewrite Hget. case_decide; [intros [= <-]; constructor|].
    by apply safe_plugins.
  - intros q ps. rewrite Hget. case_decide; [intros [= <-]; simpl; lia|eauto].
Qed.

(** The address a capability inserted as it is leaves it on when the address is freed. *)
Definition dangles (s : State) (cap : Capability) : list MemAddr :=
  if valid cap && is_freed (ghost s) (target cap) then [target cap] else [].

Lemma apply_cap_delegate_safe T s cap t s' :
  safe_but T s → apply_cap_delegate s cap t = Ok s' → safe_but (dangles s cap ++ T) s'.
Proof.
  intros Hs. unfold apply_cap_delegate.
  destruct (RevocationState_insert (revocation (kernel s)) cap) as [r|] eqn:Er; [|done].
  cbn [res_bind]. intros [= <-]. pose proof (safe_table Hs) as Ht. apply safe_update_plugin.
  - destruct Hs. split; try done; [by eapply insert_wf|].
    intros c cp. unfold get_cap. simpl. rewrite (insert_get _ _ _ _ Ht Er). unfold dangles. case_decide.
    + intros [= <-] Hv Hf. rewrite Hv, Hf. apply list_elem_of_here.
    + intros Hc Hv Hf. apply elem_of_app. right. eauto.
  - intros ps Hps. by apply insert_cap_sorted_spec.
  - intros ps Hps. by apply (safe_quota Hs t ps).
Qed.

Lemma alloc_cap_id_kernel k : ∃ n, (alloc_cap_id k).1 = with_next_cap_id k n.
Proof.
  unfold alloc_cap_id. destruct (checked_add _ _ _) as [v|]; [by exists v|].
  exists (next_cap_id k). by destruct k.
Qed.

Lemma delegate_cap_safe `{HmacSha256} T s i t r s' res :
  safe_but T s → delegate_cap s i t r = Some (s', res) → safe_but T s'.
Proof.
  intros Hs. unfold delegate_cap. destruct (get_cap s i) as [par|] eqn:Ei; [|by intros [= <- <-]].
  destruct (valid par) eqn:Hv; [|by intros [= <- <-]]. cbn [negb].
  destruct (Rights_is_empty _); [by intros [= <- <-]|].
  destruct (alloc_cap_id_kernel (kernel s)) as [n Hn].
  destruct (alloc_cap_id (kernel s)) as [k [j|e]]; [|by intros [= <- <-]]. simpl in Hn. subst k.
  assert (safe_but T (with_kernel s (with_next_cap_id (kernel s) n))) as Hs1 by (destruct Hs; by split).
  destruct (seal_payload _ _) as [sig|]; [|done]. cbn [mbind option_bind].
  destruct (Capability_new _ _ _ _ _ _ _) as [child|] eqn:Ec; [|by intros [= <- <-]].
  destruct (apply_cap_delegate _ child t) as [s2|] eqn:Ed; intros [= <- <-]; [|done].
  eapply safe_but_mono; [|by eapply (apply_cap_delegate_safe _ _ child t)].
  assert (target child = target par) as Ht
    by (unfold Capability_new in Ec; repeat (case_match; [done|]); by injection Ec as <-).
  unfold dangles. rewrite Ht. destruct (valid child && _) eqn:Hd; [|done]. apply andb_true_iff in Hd as [_ Hd].
  pose proof (safe_dangling Hs i par Ei Hv Hd). set_solver.
Qed.

Lemma apply_cap_revoke_mut_safe T s c s' r :
  safe_but T s → apply_cap_revoke_mut s c = Some (s', r) → safe_but T s'.
Proof.
  intros Hs. unfold apply_cap_revoke_mut.
  destruct (RevocationState_get (revocation (kernel s)) c) as [cap|] eqn:Ec.
  - destruct (fast_spec _ _ _ (safe_table Hs) Ec) as (r' & -> & _ & Hw & Hex). intros [= <- <-].
    destruct Hs. split; try done. intros k ck. unfold get_cap. simpl. destruct (Hex k) as [Hd Hn].
    destruct (derived_em _ c k safe_table) as [E|E]; [rewrite Hd by done|rewrite Hn by done; eauto].
    by intros (c0 & Hc0 & ->)%fmap_Some.
  - unfold revoke_transitive_fast_mut. destruct (find_index _ c) eqn:Ei.
    + assert (is_Some (find_index (revocation (kernel s)) c)) as [? Hx]%find_index_Some by (by rewrite Ei). congruence.
    + intros [= <- <-]. by destruct Hs.
Qed.

Lemma apply_free_mut_safe T s addr s' r : safe_but T s → apply_free_mut s addr = (s', r) → safe_but T s'.
Proof.
  intros Hs. unfold apply_free_mut. destruct (any_valid_targeting _ addr) eqn:Ha; [by intros [= <- <-]|].
  unfold meta_free_mut. destruct (is_freed (ghost s) addr) eqn:Hf; [intros [= <- <-]; by destruct Hs|].
  assert (safe_but T (with_ghost s (meta_free (ghost s) addr))) as Hfree
    by (eapply (effect_safe T s (StepMemFree 0 addr)); [by apply effect_free|done]).
  destruct (meta_resources (ghost s) !! addr) as [[| |]|]; intros [= <- <-]; try (by destruct Hs).
  by destruct Hfree.
Qed.

(** ** In-place steps *)

Lemma execute_mut_cases st s s' r :
  execute_mut st s = Some (s', r) →
  s' = s ∨ execute st s = Ok s' ∨ (∃ addr e, apply_free_mut s addr = (s', e)) ∨
  (∃ c e, apply_cap_revoke_mut s c = Some (s', e)).
Proof.
  assert (∀ c, cap_revoke_mut s c = Some (s', r) → s' = s ∨ ∃ c e, apply_cap_revoke_mut s c = Some (s', e)) as Hrev.
  { intros c. unfold cap_revoke_mut. destruct (cap_revoke_check s c) as [[]|]; [|intros [= <- <-]; by left].
    cbn [after]. destruct (apply_cap_revoke_mut s c) as [[s1 e]|] eqn:E; [|done]. intros [= <- <-]. eauto. }
  destruct st as [pid pi|hc auth res|op|c addr|c i]; cbn [execute execute_mut].
  - unfold execute_plugin_internal_mut, execute_plugin_internal.
    destruct (plugin_internal_check s pid pi) as [[]|]; intros [= <- <-]; auto.
  - unfold execute_host_call_mut, execute_host_call. destruct (host_call_check s hc auth) as [[]|]; cbn [after res_bind];
      [|intros [= <- <-]; auto].
    destruct (function hc); cbn [HostFunction_execute HostFunction_execute_mut]; try (intros [= <- <-]; auto; done).
    + unfold execute_kernel_alloc_mut, execute_kernel_alloc.
      destruct (kernel_alloc_check _ _ _) as [[]|]; intros [= <- <-]; auto.
    + unfold host_mem_free_mut. destruct (head (args hc)) as [addr|]; cbn [after ok_or]; [|intros [= <- <-]; auto].
      destruct (mem_free_check s addr) as [[]|]; cbn [after]; [|intros [= <- <-]; auto].
      destruct (apply_free_mut s addr) as [s1 [|]] eqn:E; intros [= <- <-]; eauto 6.
    + unfold host_cap_revoke_mut. destruct (head (args hc)) as [c|]; cbn [after ok_or]; [|intros [= <- <-]; auto].
      intros [?|?]%Hrev; auto.
    + unfold execute_declassify_mut, execute_declassify.
      destruct (declassify_check s hc) as [l|]; intros [= <- <-]; auto.
  - destruct op; cbn [KernelOp_execute KernelOp_execute_mut]; try (intros [= <- <-]; auto; done).
    + destruct (route_one_check s dst) as [[]|]; intros [= <- <-]; auto.
    + destruct (time_tick s) as [s1|]; intros [= <- <-]; auto.
    + destruct (unblock_check s dst) as [[]|]; intros [= <- <-]; auto.
  - unfold execute_mem_free_mut. destruct (mem_free_check s addr) as [[]|]; cbn [after]; [|intros [= <- <-]; auto].
    destruct (apply_free_mut s addr) as [s1 [|]] eqn:E; intros [= <- <-]; eauto 6.
  - intros [?|?]%Hrev; auto.
Qed.

(** ** The policy of a kernel *)

Lemma apply_cap_delegate_policy s cap t s' :
  apply_cap_delegate s cap t = Ok s' → policy (kernel s') = policy (kernel s).
Proof.
  unfold apply_cap_delegate. destruct (RevocationState_insert _ cap); [|done]. cbn [res_bind].
  intros [= <-]. by rewrite update_plugin_kernel.
Qed.

Lemma delegate_cap_policy `{HmacSha256} s i t r s' res :
  delegate_cap s i t r = Some (s', res) → policy (kernel s') = policy (kernel s).
Proof.
  unfold delegate_cap. destruct (get_cap s i) as [par|] eqn:Ei; [|by intros [= <- <-]].
  destruct (negb (valid par)); [by intros [= <- <-]|].
  destruct (Rights_is_empty _); [by intros [= <- <-]|].
  destruct (alloc_cap_id_kernel (kernel s)) as [n Hn].
  destruct (alloc_cap_id (kernel s)) as [k [j|e]]; [|by intros [= <- <-]]. simpl in Hn. subst k.
  destruct (seal_payload _ _) as [sig|]; [|done]. cbn [mbind option_bind].
  destruct (Capability_new _ _ _ _ _ _ _) as [child|] eqn:Ec; [|by intros [= <- <-]].
  destruct (apply_cap_delegate _ child t) as [s2|] eqn:Ed; intros [= <- <-]; [|done].
  by rewrite (apply_cap_delegate_policy _ _ _ _ Ed).
Qed.

Lemma apply_cap_revoke_mut_policy s c s' r :
  apply_cap_revoke_mut s c = Some (s', r) → policy (kernel s') = policy (kernel s).
Proof. unfold apply_cap_revoke_mut. destruct (revoke_transitive_fast_mut _ c) as [[]|]; [|done]. by intros [= <- <-]. Qed.

Lemma apply_free_mut_policy s a s' r : apply_free_mut s a = (s', r) → policy (kernel s') = policy (kernel s).
Proof.
  unfold apply_free_mut. destruct (any_valid_targeting _ a); [by intros [= <- <-]|].
  destruct (meta_free_mut (ghost s) a) as [g []]; by intros [= <- <-].
Qed.

Lemma execute_policy st s s' : execute st s = Ok s' → policy (kernel s') = policy (kernel s).
Proof.
  intros He%execute_effect. destruct He; try done; unfold alloc_for;
    rewrite ?update_plugin_kernel; try done; try by rewrite (proj1 (update_actor_frame _ _ _)).
  unfold KernelState_tick in *. destruct (checked_add U64_MAX (now (kernel s)) 1); by simplify_eq/=.
Qed.

(** ** What a host call is checked for *)

Lemma Authorized_validate_Ok auth s :
  Authorized_validate auth s = Ok () →
  let cap := auth_cap auth in let a := auth_action auth in
  holder cap = subject a ∧ target cap = act_target a ∧ is_subset_of (act_rights a) (rights cap) = true ∧
  plugin_holds s (subject a) (id cap) = true ∧
  policy_eval (policy (kernel s)) a (auth_ctx auth) = Permit ∧
  LionState.cap_is_valid s (id cap) = true ∧
  (∀ p, parent cap = Some p → LionState.cap_is_valid s p = true) ∧
  is_live (ghost s) (as_u64 (act_target a)) = true ∧ biba_write_ok s a = true.
Proof.
  unfold Authorized_validate, check_capability, check_policy, check_validity, check_liveness,
    check_confinement, check_biba, LionState.cap_is_valid, RevocationState_is_valid.
  destruct (N.eqb_spec (holder (auth_cap auth)) (subject (auth_action auth))) as [Hh|]; [|done].
  destruct (N.eqb_spec (target (auth_cap auth)) (act_target (auth_action auth))) as [Ht|]; [|done].
  destruct (is_subset_of _ _) eqn:Hr; [|done]. destruct (plugin_holds _ _ _) eqn:Hp; [|done].
  cbn [negb res_bind]. destruct (policy_eval _ _ _) eqn:Hpol; try done. cbn [is_permit res_bind].
  destruct (RevocationState_get _ (id (auth_cap auth))) as [kc|] eqn:Hk; [|done]. cbn [ok_or res_bind].
  destruct (valid kc) eqn:Hv; [|done]. cbn [negb]. intros H.
  assert ((∀ p, parent (auth_cap auth) = Some p →
    match RevocationState_get (revocation (kernel s)) p with Some cap => valid cap | None => false end = true) ∧
    (is_live (ghost s) (as_u64 (act_target (auth_action auth))) = true ∧
     biba_write_ok s (auth_action auth) = true)) as (H1 & H2 & H3); [|by split_and!].
  destruct (parent (auth_cap auth)) as [p|].
  - destruct (match RevocationState_get _ p with Some _ => _ | None => _ end) eqn:Hpv; [|done].
    split; [by intros ? [= <-]|]. destruct (is_live _ _); [|done]. by destruct (biba_write_ok _ _).
  - split; [done|]. destruct (is_live _ _); [|done]. by destruct (biba_write_ok _ _).
Qed.

(** Every action a host call derives asks for one right of its caller. *)
Lemma required_action_wf hc a :
  required_action hc = Ok a → subject a = caller hc ∧ rights_wf (act_rights a).
Proof.
  unfold required_action, Action_new. destruct (function hc); try done;
    try (destruct (head (args hc)); [|done]); by intros [= <-].
Qed.

Lemma find_oob_None p rs a n :
  find_oob p rs = None → (a, n) ∈ rs → addr_in_bounds (memory p) a n = true.
Proof.
  unfold find_oob. intros Hf Hin%list_elem_of_In. by apply negb_false_iff, (find_none _ _ Hf (a, n)).
Qed.

Lemma host_call_check_Ok s hc auth :
  host_call_check s hc auth = Ok () →
  required_action hc = Ok (auth_action auth) ∧ Authorized_validate auth s = Ok () ∧
  ∃ p, get_plugin s (caller hc) = Some p ∧ find_oob p (host_reads hc) = None ∧
       find_oob p (host_writes hc) = None.
Proof.
  unfold host_call_check. destruct (negb _); [done|].
  destruct (required_action hc) as [d|]; [|done]. cbn [res_bind]. case_decide as Hd; [|done].
  destruct (Authorized_validate auth s) as [[]|]; [|done]. cbn [auth_err res_bind].
  unfold host_check_preconditions. destruct (get_plugin s (caller hc)) as [p|]; [|done]. cbn [ok_or res_bind].
  destruct (find_oob p (host_reads hc)) as [[]|] eqn:Er; [done|].
  destruct (find_oob p (host_writes hc)) as [[]|] eqn:Ew; [done|]. intros _.
  split; [by rewrite Hd|]. split; [done|]. by exists p.
Qed.

(** Under a policy that denies no host call passes its checks. *)
Lemma host_call_denied s hc auth res :
  policy (kernel s) = deny_all →
  (∃ e, execute (StepHostCall hc auth res) s = Err e) ∧ (∃ e, execute_mut (StepHostCall hc auth res) s = Some (s, Err e)).
Proof.
  intros Hk. cbn [execute execute_mut]. unfold execute_host_call, execute_host_call_mut.
  destruct (host_call_check s hc auth) as [[]|e] eqn:Ec; [|split; by exists e].
  apply host_call_check_Ok in Ec as (_ & Hval & _).
  destruct (Authorized_validate_Ok _ _ Hval) as (_ & _ & _ & _ & Hp & _). by rewrite Hk in Hp.
Qed.

(** ** Every state a kernel comes to *)

Section reach.
Context `{HmacSha256}.

(** The states a program reaches through the kernel's interface, with the addresses
    on which it inserted a valid capability as it was after they were freed. *)
Inductive kernel_state_of : list MemAddr → State → Prop :=
| ks_new : kernel_state_of [] Kernel_new
| ks_with_key kb s : with_key kb = Ok s → kernel_state_of [] s
| ks_register T s p l sz s' r : kernel_state_of T s → register_plugin s p l sz = (s', r) → kernel_state_of T s'
| ks_insert_raw T s cap t s' r : kernel_state_of T s → insert_cap_raw s cap t = (s', r) → kernel_state_of (dangles s cap ++ T) s'
| ks_delegate T s i t rs s' r : kernel_state_of T s → delegate_cap s i t rs = Some (s', r) → kernel_state_of T s'
| ks_revoke T s c s' r : kernel_state_of T s → revoke_cap s c = Some (s', r) → kernel_state_of T s'
| ks_alloc T s o sz s' a : kernel_state_of T s → Kernel_alloc s o sz = (s', a) → kernel_state_of T s'
| ks_free T s a s' r : kernel_state_of T s → Kernel_free s a = (s', r) → kernel_state_of T s'
| ks_tick T s s' r : kernel_state_of T s → Kernel_tick s = (s', r) → kernel_state_of T s'
| ks_execute T s st s' : kernel_state_of T s → execute st s = Ok s' → kernel_state_of T s'
| ks_execute_mut T s st s' r : kernel_state_of T s → execute_mut st s = Some (s', r) → kernel_state_of T s'.

(** No operation of the interface sets a policy. *)
Lemma kernel_policy T s : kernel_state_of T s → policy (kernel s) = deny_all.
Proof.
  induction 1 as [|kb s Hk|T s p l sz s' r _ IH Hx|T s cap t s' r _ IH Hx|T s i t rs s' r _ IH Hx|T s c s' r _ IH Hx
    |T s o sz s' a _ IH Hx|T s a s' r _ IH Hx|T s s' r _ IH Hx|T s st s' _ IH Hx|T s st s' r _ IH Hx]; [done|..].
  - unfold with_key in Hk. destruct (Key_is_empty _); [done|]. by injection Hk as <-.
  - unfold register_plugin, insert_plugin in Hx. destruct (binary_search_by_key p (plugins s)); by simplify_eq.
  - unfold insert_cap_raw in Hx. destruct (apply_cap_delegate s cap t) eqn:E; simplify_eq; [|done].
    by rewrite (apply_cap_delegate_policy _ _ _ _ E).
  - by rewrite (delegate_cap_policy _ _ _ _ _ _ Hx).
  - unfold revoke_cap in Hx. destruct (apply_cap_revoke_mut s c) as [[s1 e]|] eqn:E; [|done]. simplify_eq/=.
    by rewrite (apply_cap_revoke_mut_policy _ _ _ _ E).
  - by injection Hx as <- _.
  - unfold Kernel_free in Hx. destruct (apply_free_mut s a) as [s1 e] eqn:E.
    apply apply_free_mut_policy in E. destruct e; simplify_eq; congruence.
  - unfold Kernel_tick, State_tick, KernelState_tick in Hx.
    destruct (checked_add U64_MAX (now (kernel s)) 1); by simplify_eq/=.
  - by rewrite (execute_policy _ _ _ Hx).
  - apply execute_mut_cases in Hx as [->|[Hx|[(addr & e & Hx)|(c & e & Hx)]]]; [done|..].
    + by rewrite (execute_policy _ _ _ Hx).
    + by rewrite (apply_free_mut_policy _ _ _ _ Hx).
    + by rewrite (apply_cap_revoke_mut_policy _ _ _ _ Hx).
Qed.

Lemma kernel_state_safe T s : kernel_state_of T s → safe_but T s.
Proof.
  induction 1 as [|kb s Hk|T s p l sz s' r _ IH Hx|T s cap t s' r _ IH Hx|T s i t rs s' r _ IH Hx|T s c s' r _ IH Hx
    |T s o sz s' a _ IH Hx|T s a s' r _ IH Hx|T s s' r _ IH Hx|T s st s' _ IH Hx|T s st s' r _ IH Hx].
  - apply safe_empty.
  - unfold with_key in Hk. destruct (Key_is_empty _); [done|]. injection Hk as <-.
    destruct (safe_empty []). by split.
  - by eapply register_plugin_safe.
  - unfold insert_cap_raw in Hx. destruct (apply_cap_delegate s cap t) eqn:E; simplify_eq; [by eapply apply_cap_delegate_safe|].
    eapply safe_but_mono; [|done]. set_solver.
  - by eapply delegate_cap_safe.
  - unfold revoke_cap in Hx. destruct (apply_cap_revoke_mut s c) as [[s1 e]|] eqn:E; [|done]. simplify_eq/=.
    by eapply apply_cap_revoke_mut_safe.
  - injection Hx as <- _. destruct IH. by split.
  - unfold Kernel_free in Hx. destruct (apply_free_mut s a) as [s1 e] eqn:E.
    apply (apply_free_mut_safe T) in E; [|done]. by destruct e; simplify_eq.
  - unfold Kernel_tick, State_tick in Hx. destruct (KernelState_tick (kernel s)) eqn:E; simplify_eq; [|done].
    by eapply (effect_safe T s (StepKernelInternal TimeTick)); [constructor|].
  - by eapply effect_safe; [apply execute_effect|].
  - apply execute_mut_cases in Hx as [->|[Hx|[(addr & e & Hx)|(c & e & Hx)]]]; [done|..].
    + by eapply effect_safe; [apply execute_effect|].
    + by eapply apply_free_mut_safe.
    + by eapply apply_cap_revoke_mut_safe.
Qed.

(** C10: In every state of a kernel, through any interleaving of plugin registrations,
    raw insertions of any capability, delegations, revocations, allocations, frees,
    ticks and steps, pure or in place, failing or not: the tables stay sorted and
    linked; a valid capability on a freed address is on one where the program itself
    inserted a valid capability raw after the address was freed; and since no operation
    sets a policy, every host call is refused and leaves the state as it was. *)
Theorem kernel_states_safe (T : list MemAddr) (s : State) :
  kernel_state_of T s →
  plugins_wf s ∧ table_wf (revocation (kernel s)) ∧ StronglySorted cmp_lt (freed_set (ghost s)) ∧
  (∀ c cap, get_cap s c = Some cap → valid cap = true → is_freed (ghost s) (target cap) = true → target cap ∈ T) ∧
  ∀ hc auth res,
    (∃ e, execute (StepHostCall hc auth res) s = Err e) ∧
    (∃ e, execute_mut (StepHostCall hc auth res) s = Some (s, Err e)).
Proof.
  intros Hk. destruct (kernel_state_safe _ _ Hk) as [Hp _ Ht Hf Hd _ _]. split_and!; [done..|].
  intros hc auth res. by eapply host_call_denied, kernel_policy.
Qed.
End reach.
