(* ===== verification/LionSafety.v ===== *)
(** The theorems on the steps of the microkernel: the invariant every run
    keeps, isolation, the mediation of host calls, the agreement of the pure
    and in-place forms, and where they differ. *)

From Stdlib Require Import NArith String.
From stdpp Require Import base tactics list numbers strings sorting gmap.
From S2P Require Import Prelude LionVec LionRights LionRevocation LionRevocationFacts LionMemory LionState LionStep LionStepFacts LionKernelFacts.

(** ** Runs *)

Lemma execute_safe st s s' : execute st s = Ok s' → safe s → safe s' ∧ evolves s s'.
Proof.
  intros He%execute_effect Hs. split; [by eapply effect_safe|by eapply effect_evolves].
Qed.

(** The invariant of the microkernel.  Whatever sequence of steps a state
    executes, from a safe state it reaches a safe one: tables sorted and linked,
    no valid capability on a freed address, quotas and mailbox capacities kept;
    on the way time does not go back, freed addresses stay freed, keys, policy
    and workflows are untouched, no capability is added, regained or altered
    save by revocation, no plugin gains one, and levels only go down. *)
Theorem execute_steps_safe (steps : list Step) (s s' : State) :
  safe s → execute_steps s steps = Ok s' → safe s' ∧ evolves s s'.
Proof.
  revert s. induction steps as [|st steps IH]; intros s Hs; cbn [execute_steps]; [by intros [= <-]|].
  destruct (execute st s) as [s1|] eqn:E; [|done]. cbn [res_bind]. intros H.
  destruct (execute_safe _ _ _ E Hs) as [H1 H2]. destruct (IH s1 H1 H). split; [done|by etrans].
Qed.

(** What a step may do to the record of a plugin: a declassification lowers or keeps
    the level of its subject, any other step leaves all records alone but for the
    memory counter of its subject, which grows within the quota. *)
Definition plugin_after (st : Step) (p : PluginId) (ps ps' : PluginState) : Prop :=
  ps' = ps ∨
  (step_subject st = Some p ∧
   if is_declassify st then ∃ l, level_cmp l (level ps) ≠ Gt ∧ ps' = with_level ps l
   else ∃ used, (memory_used ps ≤ used ≤ memory_quota ps)%N ∧ ps' = with_memory_used ps used).

(** C36: Isolation.  A step changes the record of no plugin but its subject's; of that
    one a declassification changes only the level, and not upwards, and any other step
    only the memory counter, upwards and within the quota.  A kernel operation changes
    no plugin, and none comes or goes. *)
Theorem execute_isolation (st : Step) (s s' : State) :
  plugins_wf s → execute st s = Ok s' →
  (∀ p, step_subject st ≠ Some p → get_plugin s' p = get_plugin s p) ∧
  (∀ p, get_plugin s p = None → get_plugin s' p = None) ∧
  (∀ p ps, get_plugin s p = Some ps → ∃ ps', get_plugin s' p = Some ps' ∧ plugin_after st p ps ps').
Proof.
  intros [Hw _] He%execute_effect.
  assert (∀ t p ps, get_plugin t p = get_plugin s p → get_plugin s p = Some ps →
    ∃ ps', get_plugin t p = Some ps' ∧ plugin_after st p ps ps') as Hid.
  { intros t p ps -> ->. exists ps. split; [done|by left]. }
  assert (∀ a f p, get_plugin (update_actor s a f) p = get_plugin s p) as Hact.
  { intros a f p. unfold get_plugin. by destruct (update_actor_frame s a f) as (_ & -> & _). }
  destruct He as [|pid pi a Ha Hb Hr|hc auth res p sz Hf Hp Hc|? addr Hf Ht|? c cap Hc|hc auth res p l Hf Hp Hl
         |dst a Ha Hq Hc|dst a Ha|k Hk].
  - split_and!; [done|done|eauto].
  - split_and!; intros; rewrite ?Hact; eauto.
  - assert (∀ q, get_plugin (alloc_for s (caller hc) sz) q =
      if decide (q = caller hc) then (λ p, with_memory_used p (saturating_add U64_MAX (memory_used p) sz)) <$> get_plugin s (caller hc)
      else get_plugin s q) as Hg.
    { intros q. unfold alloc_for. by rewrite update_plugin_get. }
    split_and!.
    + intros q Hq. rewrite Hg, decide_False; [done|]. intros ->. by apply Hq.
    + intros q Hq. rewrite Hg. destruct (decide (q = caller hc)) as [->|]; [by rewrite Hp in Hq|done].
    + intros q ps Hps. rewrite Hg. destruct (decide (q = caller hc)) as [->|]; [|exists ps; split; [done|by left]].
      rewrite Hps. eexists. split; [done|]. right. split; [done|]. cbn [is_declassify]. rewrite Hf. eexists. split; [|done].
      rewrite Hp in Hps. injection Hps as ->. apply can_alloc_spec in Hc as [Hq Hm]. unfold saturating_add. lia.
  - split_and!; [done|done|eauto].
  - split_and!; [done|done|eauto].
  - assert (∀ q, get_plugin (update_plugin s (caller hc) (λ p, with_level p l)) q =
      if decide (q = caller hc) then (λ p, with_level p l) <$> get_plugin s (caller hc) else get_plugin s q) as Hg.
    { intros q. by rewrite update_plugin_get. }
    split_and!.
    + intros q Hq. rewrite Hg, decide_False; [done|]. intros ->. by apply Hq.
    + intros q Hq. rewrite Hg. destruct (decide (q = caller hc)) as [->|]; [by rewrite Hp in Hq|done].
    + intros q ps Hps. rewrite Hg. destruct (decide (q = caller hc)) as [->|]; [|exists ps; split; [done|by left]].
      rewrite Hps. eexists. split; [done|]. right. split; [done|]. cbn [is_declassify]. rewrite Hf. exists l. split; [|done].
      rewrite Hp in Hps. by injection Hps as ->.
  - split_and!; intros; rewrite ?Hact; eauto.
  - split_and!; intros; rewrite ?Hact; eauto.
  - split_and!; [done|done|eauto].
Qed.

(** ** Mediation *)

(** C21: Complete mediation.  A host call takes effect only with a capability its
    caller holds at that moment, of which the kernel's own entry and the one of
    its parent are unrevoked, on the resource the call names and with the right
    the function needs, when policy permits it, the resource is live, a write is
    not upwards, and every region named lies in the caller's memory. *)
Theorem host_call_mediated (hc : HostCall) (auth : Authorized) (res : HostResult) (s s' : State) :
  execute (StepHostCall hc auth res) s = Ok s' →
  let cap := auth_cap auth in
  ∃ a plugin, required_action hc = Ok a ∧ auth_action auth = a ∧ subject a = caller hc ∧
    holder cap = caller hc ∧ target cap = act_target a ∧
    (∀ r, Rights_contains (act_rights a) r = true → Rights_contains (rights cap) r = true) ∧
    plugin_holds s (caller hc) (id cap) = true ∧ LionState.cap_is_valid s (id cap) = true ∧
    (∀ p, parent cap = Some p → LionState.cap_is_valid s p = true) ∧
    policy_eval (policy (kernel s)) a (auth_ctx auth) = Permit ∧
    is_live (ghost s) (as_u64 (act_target a)) = true ∧ biba_write_ok s a = true ∧
    get_plugin s (caller hc) = Some plugin ∧
    (∀ r, r ∈ host_reads hc ++ host_writes hc → addr_in_bounds (memory plugin) r.1 r.2 = true).
Proof.
  cbn [execute]. unfold execute_host_call. destruct (host_call_check s hc auth) as [[]|] eqn:Ec; [|done].
  intros _. apply host_call_check_Ok in Ec as (Ha & Hval & p & Hp & Hr & Hw).
  destruct (required_action_wf _ _ Ha) as [Hs Hrw].
  destruct (Authorized_validate_Ok _ _ Hval) as (H1 & H2 & H3 & H4 & H5 & H6 & H7 & H8 & H9).
  exists (auth_action auth), p. rewrite <-Hs. split_and!; try done.
  - by apply is_subset_spec.
  - by rewrite Hs.
  - intros [x n] [Hx|Hx]%elem_of_app; (eapply find_oob_None; [|exact Hx]; done).
Qed.

(** ** The two forms of a step *)

Definition frees (st : Step) : bool :=
  match st with
  | StepMemFree _ _ => true
  | StepHostCall hc _ _ => match function hc with HostMemFree => true | _ => false end
  | _ => false
  end.

(** The in-place outcome that a pure outcome stands for. *)
Definition in_place (s : State) (r : result State StepError) : option (State * result unit StepError) :=
  match r with Ok s' => Some (s', Ok ()) | Err e => Some (s, Err e) end.

Lemma after_in_place {A} s (r : result A StepError) k k' :
  (∀ a, r = Ok a → k a = in_place s (k' a)) → after s r k = in_place s (res_bind r k').
Proof. destruct r; simpl; auto. Qed.

Lemma unchanged_in_place s r : unchanged s r = in_place s (let? _ := r in Ok s).
Proof. by destruct r as [[]|]. Qed.

Lemma cap_revoke_in_place s c :
  table_wf (revocation (kernel s)) → parent_lt (revocation (kernel s)) →
  cap_revoke_mut s c = in_place s (execute_cap_revoke s c).
Proof.
  intros Hw Hlt. unfold cap_revoke_mut, execute_cap_revoke. apply after_in_place. intros [] Hc.
  unfold cap_revoke_check in Hc. destruct (RevocationState_get _ c) as [cap|] eqn:E; [|done].
  unfold apply_cap_revoke_mut. by rewrite (fast_mut_transitive _ _ _ Hw Hlt E).
Qed.

Lemma host_function_in_place s hc res :
  table_wf (revocation (kernel s)) → parent_lt (revocation (kernel s)) → function hc ≠ HostMemFree →
  HostFunction_execute_mut (function hc) s hc res = in_place s (HostFunction_execute (function hc) s hc res).
Proof.
  intros Hw Hlt Hf. destruct (function hc); cbn [HostFunction_execute HostFunction_execute_mut]; try done.
  - apply unchanged_in_place.
  - apply unchanged_in_place.
  - unfold execute_kernel_alloc_mut, execute_kernel_alloc. by apply after_in_place.
  - unfold host_cap_revoke_mut, host_cap_revoke. apply after_in_place. intros c _.
    by apply cap_revoke_in_place.
  - unfold execute_declassify_mut, execute_declassify. by apply after_in_place.
Qed.

(** The in-place form of a step is its pure form.  When every capability is
    numbered above its parent, every step but the freeing of memory does in
    place exactly what it does purely, failures included, which then leave the
    state as it was. *)
Theorem execute_mut_agrees (st : Step) (s : State) :
  table_wf (revocation (kernel s)) → parent_lt (revocation (kernel s)) → frees st = false →
  execute_mut st s = in_place s (execute st s).
Proof.
  intros Hw Hlt Hf. destruct st as [pid pi|hc auth res|op|c addr|c i]; cbn [execute execute_mut]; try done.
  - unfold execute_plugin_internal_mut, execute_plugin_internal. by apply after_in_place.
  - unfold execute_host_call_mut, execute_host_call. apply after_in_place. intros _ _.
    apply host_function_in_place; [done..|]. cbn [frees] in Hf. by destruct (function hc).
  - destruct op; cbn [KernelOp_execute KernelOp_execute_mut]; try done;
      try (by apply after_in_place); try apply unchanged_in_place.
  - by apply cap_revoke_in_place.
Qed.

(** ** Where they differ, and what the checks let through *)

Lemma mem_free_check_Ok s addr :
  mem_free_check s addr = Ok () → is_freed (ghost s) addr = false ∧ find_valid_targeting s addr = None.
Proof.
  unfold mem_free_check. destruct (is_freed _ _); [done|]. by destruct (find_valid_targeting s addr).
Qed.

(** The two forms of freeing differ.  Where the pure form frees an address,
    the in-place form frees it too, with the same addresses live afterwards,
    only if it was live; an address never allocated is freed by the pure form
    and refused by the in-place one. *)
Theorem mem_free_forms (c : PluginId) (addr : MemAddr) (s s' : State) :
  execute (StepMemFree c addr) s = Ok s' →
  (is_live (ghost s) addr = true → ∃ s'', execute_mut (StepMemFree c addr) s = Some (s'', Ok ()) ∧
     kernel s'' = kernel s' ∧ freed_set (ghost s'') = freed_set (ghost s')) ∧
  (is_live (ghost s) addr = false →
     execute_mut (StepMemFree c addr) s = Some (s, Err (StepStateError (ResourceNotFound addr)))).
Proof.
  cbn [execute execute_mut]. unfold execute_mem_free, execute_mem_free_mut, apply_free, apply_free_mut.
  destruct (mem_free_check s addr) as [[]|] eqn:Ec; [|done]. apply mem_free_check_Ok in Ec as [Hf _].
  cbn [res_bind after]. destruct (any_valid_targeting _ _); [done|]. intros [= <-].
  unfold is_live, meta_free_mut. rewrite Hf.
  destruct (meta_resources (ghost s) !! addr) as [[| |]|]; split; try done; intros _;
    first [by destruct s|by eexists].
Qed.

Lemma find_valid_targeting_Some s i cap :
  table_wf (revocation (kernel s)) → get_cap s i = Some cap → valid cap = true →
  is_Some (find_valid_targeting s (target cap)).
Proof.
  intros Hw Hc Hv. unfold find_valid_targeting. destruct (find _ _) as [kv|] eqn:E; [by eexists|].
  unfold get_cap in Hc. rewrite get_bm in Hc. apply elem_of_bm_get in Hc; [|apply Hw].
  apply list_elem_of_In in Hc. pose proof (find_none _ _ E _ Hc) as Hn. cbn [snd] in Hn.
  by rewrite Hv, N.eqb_refl in Hn.
Qed.

Lemma validate_atomic_Ok s cap a ctx auth :
  validate_atomic s cap a ctx = Ok auth →
  auth = {| auth_cap := cap; auth_action := a; auth_ctx := ctx |} ∧ Authorized_validate auth s = Ok ().
Proof.
  unfold validate_atomic, Authorized_validate. set (p := Build_Authorized cap a ctx).
  destruct (check_capability p s) as [[]|] eqn:E1; [|done].
  destruct (check_policy p s) as [[]|] eqn:E2; [|done].
  destruct (check_validity p s) as [[]|] eqn:E3; [|done].
  destruct (check_liveness p s) as [[]|] eqn:E4; [|done].
  destruct (check_confinement p) as [[]|] eqn:E5; [|done].
  destruct (check_biba p s) as [[]|] eqn:E6; [|done]. cbn [res_bind]. intros [= <-].
  by rewrite E1, E2, E3, E4, E5.
Qed.

(** The host call that frees memory cannot succeed.  It must present a valid
    capability on the address, and it is refused while a valid capability is on
    the address; so a call made and executed on one state always fails, and one
    that succeeds presented something else than the kernel's own capability. *)
Theorem host_mem_free_dead (s : State) (hc : HostCall) (auth : Authorized) (res : HostResult)
    (r : result State StepError) :
  table_wf (revocation (kernel s)) → function hc = HostMemFree →
  execute (StepHostCall hc auth res) s = r →
  (∀ i ctx, host_call_atomic s hc i ctx res = Ok (StepHostCall hc auth res) → ∃ e, r = Err e) ∧
  (∀ s', r = Ok s' → get_cap s (id (auth_cap auth)) ≠ Some (auth_cap auth)).
Proof.
  intros Hw Hf Hr.
  assert (∀ s', r = Ok s' → get_cap s (id (auth_cap auth)) ≠ Some (auth_cap auth)) as Hmain.
  { intros s' -> Hg. cbn [execute] in Hr. unfold execute_host_call in Hr.
    destruct (host_call_check s hc auth) as [[]|] eqn:Ec; [|done]. apply host_call_check_Ok in Ec as (Ha & Hval & _).
    destruct (Authorized_validate_Ok _ _ Hval) as (_ & Ht & _ & _ & _ & Hv & _).
    unfold LionState.cap_is_valid, RevocationState_is_valid in Hv. unfold get_cap in Hg. rewrite Hg in Hv.
    destruct (find_valid_targeting_Some s _ _ Hw Hg Hv) as [x Hx]. rewrite Ht in Hx.
    unfold required_action in Ha. rewrite Hf in Ha, Hr. cbn [HostFunction_execute] in Hr.
    unfold host_mem_free in Hr. destruct (head (args hc)) as [addr|]; [|done]. cbn [ok_or res_bind] in *.
    injection Ha as Ha. rewrite <-Ha in Hx. cbn [act_target] in Hx.
    destruct (mem_free_check s addr) as [[]|] eqn:Em; [|done]. apply mem_free_check_Ok in Em as [_ Hn]. congruence. }
  split; [|exact Hmain]. intros i ctx Hat. destruct r as [s'|e]; [|by exists e]. exfalso.
  apply (Hmain s' eq_refl). unfold host_call_atomic in Hat.
  destruct (get_cap s i) as [cap|] eqn:Ei; [|done]. cbn [ok_or res_bind] in Hat.
  destruct (required_action hc) as [a|]; [|done]. cbn [res_bind] in Hat. destruct (negb _); [done|].
  destruct (validate_atomic s cap a ctx) as [auth'|] eqn:Ev; [|done]. cbn [auth_err res_bind] in Hat.
  injection Hat as <-. apply validate_atomic_Ok in Ev as [-> _]. cbn [auth_cap].
  by rewrite (caps_keys _ Hw _ _ Ei).
Qed.

(** ** A raw root and its delegated child *)

Section diverge.
Context `{HmacSha256}.

Definition raw_cap (i : CapId) (t : ResourceId) (p : option CapId) : Capability :=
  {| id := i; holder := 1; target := t; rights := Rights_all; parent := p; epoch := 0; valid := true;
     signature := {| tag_bytes := replicate 32 0%N |} |}.

(** Register a plugin, insert the root 100 raw, delegate from it. *)
Definition raw_root_flow : option (State * result CapId Error) :=
  match with_key (replicate 32 7%N) with
  | Ok s => delegate_cap (insert_cap_raw (register_plugin s 1 Secret 4096).1 (raw_cap 100 42 None) 1).1
              100 1 (singleton_right Read)
  | Err _ => None
  end.

(** The two forms of revocation differ.  A root inserted raw under the
    identifier 100 and delegated from gets a child numbered 0.  Revoking the
    root purely, whose ancestor walk has the child's identifier as its fuel,
    leaves the child valid; revoking it in place revokes the child. *)
Theorem execute_forms_diverge :
  ∃ s s1 s2, raw_root_flow = Some (s, Ok 0%N) ∧ parent_of (revocation (kernel s)) 0 = Some 100%N ∧
    execute (StepCapRevoke 1 100) s = Ok s1 ∧ LionState.cap_is_valid s1 100 = false ∧
    LionState.cap_is_valid s1 0 = true ∧
    execute_mut (StepCapRevoke 1 100) s = Some (s2, Ok ()) ∧ LionState.cap_is_valid s2 0 = false.
Proof. do 3 eexists. by vm_compute. Qed.
End diverge.

(** ** Examples *)

Definition ex_hmac : HmacSha256 := λ key data, take 32 data.

Definition ex_new : State :=
  match with_key (replicate 32 7%N) with Ok s => s | Err _ => State_empty end.

(** A kernel state under a permitting policy: plugin 1 at level [Secret], address
    0 allocated to it, and its capability 1 on it with a child 2. *)
Definition ex_state : State :=
  let s := with_kernel State_empty (KernelState_initial {| key_bytes := replicate 32 7%N |} permit_all) in
  let s := (register_plugin s 1 Secret 4096).1 in
  let s := (Kernel_alloc s 1 64).1 in
  let s := (insert_cap_raw s (raw_cap 1 0 None) 1).1 in
  (insert_cap_raw s (raw_cap 2 0 (Some 1%N)) 1).1.

Lemma insert_cap_raw_safe s cap t :
  safe s → is_freed (ghost s) (target cap) = false → safe (insert_cap_raw s cap t).1.
Proof.
  intros Hs Hf. unfold insert_cap_raw. destruct (apply_cap_delegate s cap t) eqn:E; [|done].
  apply (apply_cap_delegate_safe _ _ _ _ _ Hs) in E. unfold dangles in E. by rewrite Hf, andb_false_r in E.
Qed.

Lemma ex_state_safe : safe ex_state.
Proof.
  unfold ex_state. apply insert_cap_raw_safe; [|by vm_compute]. apply insert_cap_raw_safe; [|by vm_compute].
  assert (safe (register_plugin (with_kernel State_empty
    (KernelState_initial {| key_bytes := replicate 32 7%N |} permit_all)) 1 Secret 4096).1) as [].
  { eapply register_plugin_safe; [|apply surjective_pairing]. destruct (safe_empty []). by split. }
  by split.
Qed.

Lemma ex_parent_lt : parent_lt (revocation (kernel ex_state)).
Proof.
  intros k p. unfold parent_of. rewrite get_bm. intros (c & Hc & Hp)%bind_Some.
  apply elem_of_bm_get in Hc; [|apply ex_state_safe].
  assert (Forall (λ kv : CapId * Capability, from_option (λ p, p < kv.1)%N True (parent kv.2))
            (caps (revocation (kernel ex_state)))) as H by (repeat constructor; by vm_compute).
  rewrite list.Forall_forall in H. specialize (H _ Hc). cbn [fst snd] in H. by rewrite Hp in H.
Qed.

Definition ex_alloc : HostCall :=
  {| caller := 1; function := KernelAlloc; args := [64%N]; host_reads := [(0, 16)]%N; host_writes := [] |}.
Definition ex_free : HostCall :=
  {| caller := 1; function := HostMemFree; args := [0%N]; host_reads := []; host_writes := [] |}.
Definition ex_ctx : PolicyContext := {| ctx_now := 0; call_origin := None |}.
Definition ex_auth (kind : string) (r : Right) : Authorized :=
  {| auth_cap := raw_cap 1 0 None;
     auth_action := {| subject := 1; act_target := 0; act_rights := singleton_right r; act_kind := kind |};
     auth_ctx := ex_ctx |}.
Definition ex_res : HostResult := {| new_caps := []; new_msgs := [] |}.
Definition ex_step : Step := StepHostCall ex_alloc (ex_auth "kernel_alloc" Create) ex_res.

Definition after_run (steps : list Step) : State :=
  match execute_steps ex_state steps with Ok s => s | Err _ => State_empty end.

Lemma execute_steps_safe_witness :
  safe ex_state ∧
  execute_steps ex_state [StepKernelInternal TimeTick; ex_step; StepCapRevoke 1 1; StepMemFree 1 0] =
    Ok (after_run [StepKernelInternal TimeTick; ex_step; StepCapRevoke 1 1; StepMemFree 1 0]) ∧
  safe (after_run [StepKernelInternal TimeTick; ex_step; StepCapRevoke 1 1; StepMemFree 1 0]) ∧
  evolves ex_state (after_run [StepKernelInternal TimeTick; ex_step; StepCapRevoke 1 1; StepMemFree 1 0]).
Proof.
  split; [exact ex_state_safe|]. split; [by vm_compute|].
  refine (execute_steps_safe [StepKernelInternal TimeTick; ex_step; StepCapRevoke 1 1; StepMemFree 1 0]
    ex_state _ ex_state_safe _). by vm_compute.
Defined.

Lemma execute_isolation_witness :
  plugins_wf ex_state ∧ execute ex_step ex_state = Ok (after_run [ex_step]) ∧
  (∀ p, step_subject ex_step ≠ Some p → get_plugin (after_run [ex_step]) p = get_plugin ex_state p) ∧
  (∀ p ps, get_plugin ex_state p = Some ps →
     ∃ ps', get_plugin (after_run [ex_step]) p = Some ps' ∧ plugin_after ex_step p ps ps').
Proof.
  split; [exact (safe_plugins ex_state_safe)|]. split; [by vm_compute|].
  destruct (execute_isolation ex_step ex_state (after_run [ex_step]) (safe_plugins ex_state_safe) ltac:(by vm_compute))
    as (H1 & _ & H2). by split.
Defined.

Lemma host_call_mediated_witness :
  execute ex_step ex_state = Ok (after_run [ex_step]) ∧
  ∃ a plugin, required_action ex_alloc = Ok a ∧ subject a = 1%N ∧
    plugin_holds ex_state 1 (id (raw_cap 1 0 None)) = true ∧ get_plugin ex_state 1 = Some plugin.
Proof.
  assert (execute ex_step ex_state = Ok (after_run [ex_step])) as He by (by vm_compute). split; [exact He|].
  destruct (host_call_mediated ex_alloc (ex_auth "kernel_alloc" Create) ex_res ex_state
    (after_run [ex_step]) He) as (a & p & H1 & H2 & H3 & _ & _ & _ & H4 & _ & _ & _ & _ & _ & H5 & _).
  by exists a, p.
Defined.

Lemma execute_mut_agrees_witness :
  table_wf (revocation (kernel ex_state)) ∧ parent_lt (revocation (kernel ex_state)) ∧
  frees (StepCapRevoke 1 1) = false ∧
  execute_mut (StepCapRevoke 1 1) ex_state = in_place ex_state (execute (StepCapRevoke 1 1) ex_state).
Proof.
  split; [exact (safe_table ex_state_safe)|]. split; [exact ex_parent_lt|]. split; [done|].
  exact (execute_mut_agrees (StepCapRevoke 1 1) ex_state (safe_table ex_state_safe) ex_parent_lt eq_refl).
Defined.

Lemma mem_free_forms_witness :
  execute (StepMemFree 1 9) ex_state = Ok (after_run [StepMemFree 1 9]) ∧
  is_live (ghost ex_state) 9 = false ∧
  execute_mut (StepMemFree 1 9) ex_state = Some (ex_state, Err (StepStateError (ResourceNotFound 9))).
Proof.
  assert (execute (StepMemFree 1 9) ex_state = Ok (after_run [StepMemFree 1 9])) as He by (by vm_compute).
  split; [exact He|]. split; [by vm_compute|].
  refine (proj2 (mem_free_forms 1 9 ex_state (after_run [StepMemFree 1 9]) He) _). by vm_compute.
Defined.

Lemma host_mem_free_dead_witness :
  table_wf (revocation (kernel ex_state)) ∧ function ex_free = HostMemFree ∧
  host_call_atomic ex_state ex_free 1 ex_ctx ex_res =
    Ok (StepHostCall ex_free (ex_auth "mem_free" Delete) ex_res) ∧
  ∃ e, execute (StepHostCall ex_free (ex_auth "mem_free" Delete) ex_res) ex_state = Err e.
Proof.
  assert (host_call_atomic ex_state ex_free 1 ex_ctx ex_res =
    Ok (StepHostCall ex_free (ex_auth "mem_free" Delete) ex_res)) as Ha by (by vm_compute).
  split; [exact (safe_table ex_state_safe)|]. split; [done|]. split; [exact Ha|].
  exact (proj1 (host_mem_free_dead ex_state ex_free (ex_auth "mem_free" Delete) ex_res _
    (safe_table ex_state_safe) eq_refl eq_refl) 1%N ex_ctx Ha).
Defined.

(** A kernel with two plugins, an allocation, a root and a delegation from it; then the
    allocation of a second address, which is freed and gets a raw capability. *)
Definition ex_delegated : State :=
  let s := (register_plugin ex_new 1 Secret 4096).1 in
  let s := (register_plugin s 2 Public 4096).1 in
  let s := (Kernel_alloc s 1 64).1 in
  let s := (insert_cap_raw s (raw_cap 100 0 None) 1).1 in
  match delegate_cap (H := ex_hmac) s 100 2 Rights_all with Some (s, _) => s | None => s end.
Definition ex_freed : State := (Kernel_free (Kernel_alloc ex_delegated 1 64).1 1).1.
Definition ex_reached : State := (insert_cap_raw ex_freed (raw_cap 101 1 None) 1).1.

Lemma ks_delegate_match `{HmacSha256} T s i t r :
  kernel_state_of T s → kernel_state_of T (match delegate_cap s i t r with Some (s', _) => s' | None => s end).
Proof. intros Hs. destruct (delegate_cap s i t r) as [[s' x]|] eqn:E; [by eapply ks_delegate|done]. Qed.

Lemma ks_insert_live `{HmacSha256} T s cap t :
  is_freed (ghost s) (target cap) = false → kernel_state_of T s → kernel_state_of T (insert_cap_raw s cap t).1.
Proof.
  intros Hf Hs. eapply (ks_insert_raw _ _ cap t) in Hs; [|apply surjective_pairing].
  unfold dangles in Hs. by rewrite Hf, andb_false_r in Hs.
Qed.

Lemma ex_reached_state : kernel_state_of (H := ex_hmac) [1%N] ex_reached.
Proof.
  change [1%N] with ([1%N] ++ []). replace [1%N] with (dangles ex_freed (raw_cap 101 1 None)) by (by vm_compute).
  eapply ks_insert_raw; [|apply surjective_pairing]. eapply ks_free; [|apply surjective_pairing].
  eapply ks_alloc; [|apply surjective_pairing]. unfold ex_delegated. apply ks_delegate_match.
  apply ks_insert_live; [by vm_compute|]. eapply ks_alloc; [|apply surjective_pairing].
  do 2 (eapply ks_register; [|apply surjective_pairing]).
  apply (ks_with_key (replicate 32 7%N)). by vm_compute.
Qed.

Lemma kernel_states_safe_witness :
  kernel_state_of (H := ex_hmac) [1%N] ex_reached ∧ plugins_wf ex_reached ∧
  get_cap ex_reached 101 = Some (raw_cap 101 1 None) ∧ is_freed (ghost ex_reached) 1 = true ∧ 1%N ∈ [1%N].
Proof.
  destruct (kernel_states_safe (H := ex_hmac) [1%N] ex_reached ex_reached_state) as (Hp & _ & _ & Hd & _).
  split; [exact ex_reached_state|]. split; [exact Hp|]. split; [by vm_compute|]. split; [by vm_compute|].
  apply (Hd 101%N (raw_cap 101 1 None)); by vm_compute.
Defined.
