(* ===== verification/CapabilityManager.v ===== *)
(** khive-capability/src: the capability manager over one kernel (capability.rs,
    namespace.rs, error.rs), the operation classes (validate.rs), request contexts (context.rs) and the actor
    registry (actor.rs).  The hash of namespaces (crate blake3) is a parameter. *)

From Stdlib Require Import NArith String.
From stdpp Require Import base tactics list numbers strings pretty gmap.
From S2P Require Import Prelude RustStr LionVec LionRights LionRevocation LionMemory LionState.

(** [blake3::hash], 32 bytes. *)
Class Blake3 := blake3_hash : string → list N.

Inductive KernelError : Type :=
| UnknownActor (s : string)
| NamespaceDenied (s : string)
| InsufficientRights (needed have : string)
| CapabilityRevoked (i : N)
| InvalidSeal (i : N)
| IdSpaceExhausted
| DelegationFailed (s : string)
| Core (s : string).

Section manager.
Context `{Hm : HmacSha256} `{Hb : Blake3}.

(** [NamespaceMap::resource_id] *)
Definition resource_id (namespace : string) : ResourceId :=
  from_le_bytes (take 16 (blake3_hash namespace)).

Definition PRIVATE_ID_START : CapId := (2 ^ 127)%N.

Record CapabilityManager := {
  mgr_kernel : State;
  anchors : gset CapId;
  next_anchor_id : CapId
}.

Definition Manager_with_key (key : list N) : result CapabilityManager KernelError :=
  match with_key key with
  | Err e => Err (Core (Error_display e))
  | Ok k => Ok {| mgr_kernel := k; anchors := ∅; next_anchor_id := (U128_MAX - 1)%N |}
  end.

Definition with_mgr_kernel (self : CapabilityManager) (k : State) : CapabilityManager :=
  {| mgr_kernel := k; anchors := anchors self; next_anchor_id := next_anchor_id self |}.

Definition register_actor (self : CapabilityManager) (plugin_id : PluginId) (l : SecurityLevel)
    : CapabilityManager * result unit KernelError :=
  if (plugin_id =? 0)%N then (self, Err (Core "actor id must be nonzero"))
  else match register_plugin (mgr_kernel self) plugin_id l 0 with
       | (k, Ok _) => (with_mgr_kernel self k, Ok ())
       | (k, Err e) => (with_mgr_kernel self k, Err (Core (Error_display e)))
       end.

Definition require_actor (self : CapabilityManager) (plugin_id : PluginId)
    : result unit KernelError :=
  if (plugin_id =? 0)%N || negb (bool_decide (is_Some (plugin_level (mgr_kernel self) plugin_id)))
  then Err (UnknownActor (pretty plugin_id)) else Ok ().

Definition ensure_grant_id_available (self : CapabilityManager) : result unit KernelError :=
  if (PRIVATE_ID_START <=? next_cap_id (kernel (mgr_kernel self)))%N
  then Err IdSpaceExhausted else Ok ().

(** [delegate_cap] with its error wrapped. *)
Definition delegate (self : CapabilityManager) (parent_id : CapId) (t : PluginId) (r : Rights)
    : option (CapabilityManager * result CapId KernelError) :=
  '(k, res) ← delegate_cap (mgr_kernel self) parent_id t r;
  Some (with_mgr_kernel self k,
        match res with
        | Ok i => Ok i
        | Err e => Err (DelegationFailed (Error_display e))
        end).

Definition mint (self : CapabilityManager) (plugin_id : PluginId) (namespace : string) (r : Rights)
    : option (CapabilityManager * result CapId KernelError) :=
  match require_actor self plugin_id with
  | Err e => Some (self, Err e)
  | Ok _ =>
      if Rights_is_empty r then Some (self, Err (DelegationFailed "rights cannot be empty"))
      else
        match ensure_grant_id_available self with
        | Err e => Some (self, Err e)
        | Ok _ =>
            let anchor_id := next_anchor_id self in
            if negb ((PRIVATE_ID_START <=? anchor_id)%N && (anchor_id <? U128_MAX)%N)
            then Some (self, Err IdSpaceExhausted)
            else
              match Capability_new anchor_id plugin_id (resource_id namespace) r None
                      (key_epoch (key_state (kernel (mgr_kernel self))))
                      {| tag_bytes := replicate 32 0%N |} with
              | Err e => Some (self, Err (Core (CapabilityError_display e)))
              | Ok anchor =>
                  match insert_cap_raw (mgr_kernel self) anchor plugin_id with
                  | (k, Err e) => Some (with_mgr_kernel self k, Err (Core (Error_display e)))
                  | (k, Ok _) =>
                      delegate {| mgr_kernel := k; anchors := {[anchor_id]} ∪ anchors self;
                                  next_anchor_id := (next_anchor_id self - 1)%N |}
                        anchor_id plugin_id r
                  end
              end
        end
  end.

(** The compatibility name of [mint]. *)
Definition bootstrap_root_capability (self : CapabilityManager) (plugin_id : PluginId)
    (namespace : string) (r : Rights) : option (CapabilityManager * result CapId KernelError) :=
  mint self plugin_id namespace r.

(** [get_cap]: private anchors are hidden. *)
Definition Manager_get_cap (self : CapabilityManager) (cap_id : CapId) : option Capability :=
  if (cap_id <? PRIVATE_ID_START)%N then get_cap (mgr_kernel self) cap_id else None.

Definition Manager_verify_seal (self : CapabilityManager) (cap : Capability) : option bool :=
  if bool_decide (parent cap = Some U128_MAX) then Some false
  else verify_cap_seal (kernel (mgr_kernel self)) cap.

(** The loop of [chain_is_live], bounded by the size of the table. *)
Fixpoint chain_loop (state : RevocationState) (ancs : gset CapId) (fuel : nat) (cur : CapId) : bool :=
  match fuel with
  | O => false
  | S fuel' =>
      match RevocationState_get state cur with
      | None => false
      | Some cap =>
          if negb (valid cap) then false
          else if bool_decide (cur ∈ ancs)
          then (PRIVATE_ID_START <=? cur)%N && negb (cur =? U128_MAX)%N && bool_decide (parent cap = None)
          else if (PRIVATE_ID_START <=? cur)%N then false
          else match parent cap with
               | Some par => chain_loop state ancs fuel' par
               | None => false
               end
      end
  end.

Definition chain_is_live (state : RevocationState) (ancs : gset CapId) (cap_id : CapId) : bool :=
  if (PRIVATE_ID_START <=? cap_id)%N then false
  else chain_loop state ancs (cap_count state) cap_id.

Definition Manager_is_live (self : CapabilityManager) (cap_id : CapId) : bool :=
  chain_is_live (revocation (kernel (mgr_kernel self))) (anchors self) cap_id.

Definition require_live_grant (self : CapabilityManager) (cap_id : CapId)
    : option (result Capability KernelError) :=
  match Manager_get_cap self cap_id with
  | None => Some (Err (CapabilityRevoked cap_id))
  | Some cap =>
      if negb (plugin_holds (mgr_kernel self) (holder cap) cap_id)
      then Some (Err (UnknownActor (pretty (holder cap))))
      else
        sealed ← Manager_verify_seal self cap;
        if negb sealed then Some (Err (InvalidSeal cap_id))
        else if negb (Manager_is_live self cap_id) then Some (Err (CapabilityRevoked cap_id))
        else Some (Ok cap)
  end.

Definition compose (self : CapabilityManager) (parent_cap_id : CapId) (target_plugin : PluginId)
    (requested_rights : Rights) : option (CapabilityManager * result CapId KernelError) :=
  live ← require_live_grant self parent_cap_id;
  match live with
  | Err e => Some (self, Err e)
  | Ok _ =>
      match require_actor self target_plugin with
      | Err e => Some (self, Err e)
      | Ok _ =>
          match ensure_grant_id_available self with
          | Err e => Some (self, Err e)
          | Ok _ => delegate self parent_cap_id target_plugin requested_rights
          end
      end
  end.

Definition validate (self : CapabilityManager) (plugin_id : PluginId) (cap_id : CapId)
    (namespace : string) (required_right : Right) : option (result unit KernelError) :=
  if negb (plugin_holds (mgr_kernel self) plugin_id cap_id)
  then Some (Err (InsufficientRights (right_name required_right) "no capability held"))
  else
    live ← require_live_grant self cap_id;
    Some (let? cap := live in
      if negb (holder cap =? plugin_id)%N
      then Err (InsufficientRights (right_name required_right) "capability belongs to another actor")
      else if negb (target cap =? resource_id namespace)%N then Err (NamespaceDenied namespace)
      else if negb (has_right cap required_right)
      then Err (InsufficientRights (right_name required_right) (Rights_display (rights cap)))
      else Ok ()).

Definition Manager_revoke (self : CapabilityManager) (cap_id : CapId)
    : option (CapabilityManager * result unit KernelError) :=
  match Manager_get_cap self cap_id with
  | None => Some (self, Err (CapabilityRevoked cap_id))
  | Some _ =>
      '(k, res) ← revoke_cap (mgr_kernel self) cap_id;
      Some (with_mgr_kernel self k,
            match res with Ok _ => Ok () | Err e => Err (Core (Error_display e)) end)
  end.

(** ** validate.rs *)

Inductive Operation : Type :=
| OpRead | OpCreate | OpUpdate | OpDelete | OpSearch | OpLink | OpTraverse | OpSend | OpRecall
| OpRemember | OpAssign | OpComplete | OpExport.

Definition required_right (self : Operation) : Right :=
  match self with
  | OpRead | OpSearch | OpTraverse | OpRecall | OpExport => Read
  | OpCreate | OpRemember | OpAssign | OpLink => Create
  | OpUpdate | OpComplete => Write
  | OpDelete => Delete
  | OpSend => Send
  end.

Definition binding_right (self : Operation) : Right :=
  match self with
  | OpRead | OpSearch | OpTraverse | OpRecall | OpExport => Read
  | OpCreate | OpRemember | OpAssign | OpLink | OpUpdate | OpComplete | OpDelete | OpSend => Write
  end.

Definition check_request (self : CapabilityManager) (plugin_id : PluginId) (cap_id : CapId)
    (namespace : string) (operation : Operation) : option (result unit KernelError) :=
  validate self plugin_id cap_id namespace (required_right operation).
End manager.

(** ** actor.rs *)

Record ActorInfo := {
  info_plugin_id : PluginId;
  session_id : string;
  info_namespace : string;
  tenant : string
}.

Record ActorRegistry := {
  registry_actors : gmap string ActorInfo;
  next_id : N
}.

Definition ActorRegistry_new : ActorRegistry := {| registry_actors := ∅; next_id := 1 |}.

(** [fetch_add] on an [AtomicU64] wraps. *)
Definition ActorRegistry_register (self : ActorRegistry) (sid ns ten : string)
    : ActorRegistry * ActorInfo :=
  let info := {| info_plugin_id := next_id self; session_id := sid; info_namespace := ns;
                 tenant := ten |} in
  ({| registry_actors := <[sid := info]> (registry_actors self);
      next_id := as_u64 (next_id self + 1) |}, info).
Definition ActorRegistry_remove (self : ActorRegistry) (sid : string)
    : ActorRegistry * option ActorInfo :=
  ({| registry_actors := delete sid (registry_actors self); next_id := next_id self |},
   registry_actors self !! sid).

Definition ActorRegistry_get (self : ActorRegistry) (sid : string) : option ActorInfo :=
  registry_actors self !! sid.
Definition active_count (self : ActorRegistry) : nat := size (registry_actors self).

(** ** context.rs *)

Inductive ScopeLevel : Type := ScopeGlobal | ScopeNamespace | ScopeSession | ScopeTask.

Record RequestContext := {
  ctx_namespace : string;
  ctx_session_id : option string;
  ctx_task_id : option string
}.

Definition RequestContext_new (ns : string) : RequestContext :=
  {| ctx_namespace := ns; ctx_session_id := None; ctx_task_id := None |}.
Definition with_session (self : RequestContext) (s : string) : RequestContext :=
  {| ctx_namespace := ctx_namespace self; ctx_session_id := Some s; ctx_task_id := ctx_task_id self |}.
Definition with_task (self : RequestContext) (t : string) : RequestContext :=
  {| ctx_namespace := ctx_namespace self; ctx_session_id := ctx_session_id self; ctx_task_id := Some t |}.
Definition scope_level (self : RequestContext) : ScopeLevel :=
  match ctx_session_id self, ctx_task_id self with
  | _, Some _ => ScopeTask
  | Some _, None => ScopeSession
  | None, None => ScopeNamespace
  end.
