(* ===== verification/CapabilitySpec.v ===== *)
(** What the capability manager of khive-capability promises: grants form a
    forest in which every grant carries at most the rights of its parent, on the
    same namespace; revoking marks one grant, and a grant is live when neither
    it nor an ancestor is marked.  No kernel, table, index or seal appears. *)

From Stdlib Require Import NArith String.
From stdpp Require Import base tactics list numbers strings pretty gmap sorting.
From S2P Require Import Prelude LionVec LionRights LionRevocation LionRevocationFacts LionMemory LionState.
From S2P Require Import LionState CapabilityManager.

Record Grant := {
  g_holder : PluginId;
  g_target : ResourceId;
  g_rights : Rights;
  g_parent : option CapId;
  g_revoked : bool
}.

(** [s_private] names the holders of the identifiers reserved by mints. *)
Record Spec := {
  s_actors : gset PluginId;
  s_grants : gmap CapId Grant;
  s_next : CapId;
  s_private : gmap CapId PluginId;
  s_next_private : CapId
}.

Definition spec_initial : Spec :=
  {| s_actors := ∅; s_grants := ∅; s_next := 0; s_private := ∅; s_next_private := (U128_MAX - 1)%N |}.

(** Parents are granted before their children, so the identifier bounds the
    length of a chain. *)
Fixpoint live_upto (fuel : nat) (s : Spec) (c : CapId) : bool :=
  match fuel with
  | O => false
  | S fuel' =>
      match s_grants s !! c with
      | None => false
      | Some g => negb (g_revoked g) &&
          match g_parent g with None => true | Some p => live_upto fuel' s p end
      end
  end.
Definition spec_live (s : Spec) (c : CapId) : bool := live_upto (S (N.to_nat c)) s c.

Definition with_grants (s : Spec) (g : gmap CapId Grant) : Spec :=
  {| s_actors := s_actors s; s_grants := g; s_next := s_next s; s_private := s_private s;
     s_next_private := s_next_private s |}.

Definition spec_register (s : Spec) (p : PluginId) : Spec * result unit KernelError :=
  if (p =? 0)%N then (s, Err (Core "actor id must be nonzero"))
  else if decide (p ∈ s_actors s)
  then (s, Err (Core ("state: plugin " +:+ pretty p +:+ " already exists")))
  else ({| s_actors := {[p]} ∪ s_actors s; s_grants := s_grants s; s_next := s_next s;
           s_private := s_private s; s_next_private := s_next_private s |}, Ok ()).

Definition spec_actor (s : Spec) (p : PluginId) : result unit KernelError :=
  if decide (p ∈ s_actors s) then Ok () else Err (UnknownActor (pretty p)).

Definition spec_id_available (s : Spec) : result unit KernelError :=
  if (s_next s <? PRIVATE_ID_START)%N then Ok () else Err IdSpaceExhausted.

(** Add a grant under the next identifier. *)
Definition add_grant (s : Spec) (g : Grant) : Spec :=
  {| s_actors := s_actors s; s_grants := <[s_next s := g]> (s_grants s);
     s_next := (s_next s + 1)%N; s_private := s_private s; s_next_private := s_next_private s |}.

Definition reserve (s : Spec) (p : PluginId) : Spec :=
  {| s_actors := s_actors s; s_grants := s_grants s; s_next := s_next s;
     s_private := <[s_next_private s := p]> (s_private s);
     s_next_private := (s_next_private s - 1)%N |}.

Definition spec_mint (s : Spec) (p : PluginId) (t : ResourceId) (r : Rights)
    : Spec * result CapId KernelError :=
  match spec_actor s p with
  | Err e => (s, Err e)
  | Ok _ =>
      if Rights_is_empty r then (s, Err (DelegationFailed "rights cannot be empty"))
      else
        match spec_id_available s with
        | Err e => (s, Err e)
        | Ok _ =>
            if (s_next_private s <? PRIVATE_ID_START)%N then (s, Err IdSpaceExhausted)
            else (add_grant (reserve s p)
                    {| g_holder := p; g_target := t; g_rights := r; g_parent := None;
                       g_revoked := false |}, Ok (s_next s))
        end
  end.

Definition spec_compose (s : Spec) (c : CapId) (p : PluginId) (r : Rights)
    : Spec * result CapId KernelError :=
  match s_grants s !! c with
  | None => (s, Err (CapabilityRevoked c))
  | Some g =>
      if negb (spec_live s c) then (s, Err (CapabilityRevoked c))
      else
        match spec_actor s p with
        | Err e => (s, Err e)
        | Ok _ =>
            match spec_id_available s with
            | Err e => (s, Err e)
            | Ok _ =>
                if Rights_is_empty (intersection r (g_rights g))
                then (s, Err (DelegationFailed "capability: Rights cannot be empty"))
                else (add_grant s
                        {| g_holder := p; g_target := g_target g;
                           g_rights := intersection r (g_rights g); g_parent := Some c;
                           g_revoked := false |}, Ok (s_next s))
            end
        end
  end.

Definition mark_revoked (g : Grant) : Grant :=
  {| g_holder := g_holder g; g_target := g_target g; g_rights := g_rights g;
     g_parent := g_parent g; g_revoked := true |}.

Definition spec_revoke (s : Spec) (c : CapId) : Spec * result unit KernelError :=
  match s_grants s !! c with
  | None => (s, Err (CapabilityRevoked c))
  | Some g => (with_grants s (<[c := mark_revoked g]> (s_grants s)), Ok ())
  end.

Definition spec_validate (s : Spec) (p : PluginId) (c : CapId) (namespace : string) (t : ResourceId)
    (r : Right) : result unit KernelError :=
  if decide (s_private s !! c = Some p) then Err (CapabilityRevoked c)
  else
    match s_grants s !! c with
    | None => Err (InsufficientRights (right_name r) "no capability held")
    | Some g =>
        if negb (g_holder g =? p)%N
        then Err (InsufficientRights (right_name r) "no capability held")
        else if negb (spec_live s c) then Err (CapabilityRevoked c)
        else if negb (g_target g =? t)%N then Err (NamespaceDenied namespace)
        else if negb (Rights_contains (g_rights g) r)
        then Err (InsufficientRights (right_name r) (Rights_display (g_rights g)))
        else Ok ()
    end.

(** ** Sequences of operations *)

Inductive ManagerOp : Type :=
| OpRegister (p : PluginId) (l : SecurityLevel)
| OpMint (p : PluginId) (namespace : string) (r : Rights)
| OpCompose (c : CapId) (p : PluginId) (r : Rights)
| OpRevoke (c : CapId)
| OpValidate (p : PluginId) (c : CapId) (namespace : string) (o : Operation).

Inductive Output : Type :=
| OutUnit (r : result unit KernelError)
| OutId (r : result CapId KernelError).

Section steps.
Context `{Hm : HmacSha256} `{Hb : Blake3}.

Definition spec_step (s : Spec) (o : ManagerOp) : Spec * Output :=
  match o with
  | OpRegister p _ => let '(s, r) := spec_register s p in (s, OutUnit r)
  | OpMint p ns r => let '(s, r) := spec_mint s p (resource_id ns) r in (s, OutId r)
  | OpCompose c p r => let '(s, r) := spec_compose s c p r in (s, OutId r)
  | OpRevoke c => let '(s, r) := spec_revoke s c in (s, OutUnit r)
  | OpValidate p c ns o =>
      (s, OutUnit (spec_validate s p c ns (resource_id ns) (required_right o)))
  end.

Definition manager_step (m : CapabilityManager) (o : ManagerOp)
    : option (CapabilityManager * Output) :=
  match o with
  | OpRegister p l => let '(m, r) := register_actor m p l in Some (m, OutUnit r)
  | OpMint p ns r => '(m, r) ← mint m p ns r; Some (m, OutId r)
  | OpCompose c p r => '(m, r) ← compose m c p r; Some (m, OutId r)
  | OpRevoke c => '(m, r) ← Manager_revoke m c; Some (m, OutUnit r)
  | OpValidate p c ns o => r ← check_request m p c ns o; Some (m, OutUnit r)
  end.

Fixpoint spec_run (s : Spec) (os : list ManagerOp) : Spec * list Output :=
  match os with
  | [] => (s, [])
  | o :: os' => let '(s, x) := spec_step s o in let '(s, xs) := spec_run s os' in (s, x :: xs)
  end.

Fixpoint manager_run (m : CapabilityManager) (os : list ManagerOp)
    : option (CapabilityManager * list Output) :=
  match os with
  | [] => Some (m, [])
  | o :: os' =>
      '(m, x) ← manager_step m o;
      '(m, xs) ← manager_run m os';
      Some (m, x :: xs)
  end.
End steps.

(** The capability manager implements its specification: the simulation
    relation between kernel states and grant forests, and its preservation. *)

(** ** Liveness in the specification *)

Definition spec_wf (s : Spec) : Prop :=
  ∀ c g p, s_grants s !! c = Some g → g_parent g = Some p → (p < c)%N ∧ is_Some (s_grants s !! p).

Lemma live_upto_enough s c f :
  spec_wf s → (N.to_nat c < f)%nat → live_upto f s c = spec_live s c.
Proof.
  intros Hw. unfold spec_live.
  assert (∀ f f' c, (N.to_nat c < f)%nat → (N.to_nat c < f')%nat → live_upto f s c = live_upto f' s c) as H.
  { clear c f. induction f as [|f IH]; intros f' c Hf Hf'; [lia|]. destruct f' as [|f']; [lia|].
    cbn [live_upto]. destruct (s_grants s !! c) as [g|] eqn:Eg; [|done]. f_equal.
    destruct (g_parent g) as [p|] eqn:Ep; [|done].
    destruct (Hw _ _ _ Eg Ep) as [Hlt _]. apply IH; lia. }
  intros Hf. apply H; lia.
Qed.

Lemma spec_live_eq s c :
  spec_wf s → spec_live s c =
  match s_grants s !! c with
  | None => false
  | Some g => negb (g_revoked g) && match g_parent g with None => true | Some p => spec_live s p end
  end.
Proof.
  intros Hw. unfold spec_live at 1. cbn [live_upto].
  destruct (s_grants s !! c) as [g|] eqn:Eg; [|done]. f_equal.
  destruct (g_parent g) as [p|] eqn:Ep; [|done]. destruct (Hw _ _ _ Eg Ep) as [Hlt _].
  apply live_upto_enough; [done|lia].
Qed.

Lemma live_same_grants s s' c : s_grants s' = s_grants s → spec_live s' c = spec_live s c.
Proof.
  intros Hg. unfold spec_live. generalize (S (N.to_nat c)). intros f. revert c.
  induction f as [|f IH]; intros c; [done|]. cbn [live_upto]. rewrite Hg.
  destruct (s_grants s !! c) as [g|]; [|done]. f_equal. by destruct (g_parent g).
Qed.

(** A grant under a fresh identifier changes the liveness of no other. *)
Lemma live_add_grant s g c :
  spec_wf s → (∀ c g, s_grants s !! c = Some g → c ≠ s_next s) → c ≠ s_next s →
  spec_live (add_grant s g) c = spec_live s c.
Proof.
  intros Hw Hids. unfold spec_live. generalize (S (N.to_nat c)). intros f. revert c.
  induction f as [|f IH]; intros c Hc; [done|]. cbn [live_upto add_grant s_grants].
  rewrite lookup_insert_ne by done. destruct (s_grants s !! c) as [g'|] eqn:Eg; [|done]. f_equal.
  destruct (g_parent g') as [p|] eqn:Ep; [|done]. apply IH.
  destruct (Hw _ _ _ Eg Ep) as [_ [gp Hgp]]. by eapply Hids.
Qed.

Lemma N_strong_ind (P : N → Prop) : (∀ n, (∀ m, (m < n)%N → P m) → P n) → ∀ n, P n.
Proof. intros H n. induction (N.lt_wf_0 n) as [n _ IH]. auto. Qed.

Lemma filter_length_lt {A} (P Q : A → Prop) `{∀ x, Decision (P x), ∀ x, Decision (Q x)} l x :
  (∀ x, P x → Q x) → x ∈ l → Q x → ¬ P x → (length (filter P l) < length (filter Q l))%nat.
Proof.
  intros HPQ Hx Hq Hp. induction l as [|y l IH]; [by apply not_elem_of_nil in Hx|].
  rewrite !filter_cons.
  assert (length (filter P l) ≤ length (filter Q l))%nat as Hle.
  { clear IH Hx. induction l as [|z l IH]; [done|]. rewrite !filter_cons.
    repeat case_decide; simpl; try lia. naive_solver. }
  apply elem_of_cons in Hx as [->|Hx].
  - rewrite decide_False, decide_True by done. simpl. lia.
  - specialize (IH Hx). repeat case_decide; simpl; try lia. naive_solver.
Qed.

Section simulation.
Context `{Hm : HmacSha256} `{Hb : Blake3} (key : Key).

Abbreviation rev_of m := (revocation (kernel (mgr_kernel m))).

(** The capability stored for a grant. *)
Record stores (s : Spec) (c : CapId) (g : Grant) (cap : Capability) : Prop := {
  st_holder : holder cap = g_holder g;
  st_target : target cap = g_target g;
  st_rights : rights cap = g_rights g;
  st_parent : match g_parent g with
              | Some p => parent cap = Some p
              | None => ∃ a, parent cap = Some a ∧ is_Some (s_private s !! a)
              end;
  st_epoch : epoch cap = 0%N;
  st_seal : seal_payload key (Capability_payload cap) = Some (signature cap);
  st_valid : valid cap = spec_live s c
}.

Lemma stores_ext s s' c g cap :
  (∀ a, is_Some (s_private s !! a) → is_Some (s_private s' !! a)) →
  spec_live s' c = spec_live s c → stores s c g cap → stores s' c g cap.
Proof.
  intros Hp Hl []. split; try done; [|congruence].
  destruct (g_parent g); [done|]. naive_solver.
Qed.

Record related (m : CapabilityManager) (s : Spec) : Prop := {
  rel_key : key_state (kernel (mgr_kernel m)) = KeyState_initial key;
  rel_plugins : plugins_wf (mgr_kernel m);
  rel_actors : ∀ p, is_Some (get_plugin (mgr_kernel m) p) ↔ p ∈ s_actors s;
  rel_zero : (0%N ∉ s_actors s);
  rel_table : table_wf (rev_of m);
  rel_next : next_cap_id (kernel (mgr_kernel m)) = s_next s;
  rel_next_low : (s_next s ≤ PRIVATE_ID_START)%N;
  rel_anchor_next : next_anchor_id m = s_next_private s;
  rel_range : (PRIVATE_ID_START ≤ s_next_private s + 1 ≤ U128_MAX)%N;
  rel_anchors : ∀ c, c ∈ anchors m ↔ is_Some (s_private s !! c);
  rel_private : ∀ c p, s_private s !! c = Some p → (s_next_private s < c < U128_MAX)%N;
  rel_spec : spec_wf s;
  rel_ids : ∀ c g, s_grants s !! c = Some g → (c < s_next s)%N ∧ g_holder g ∈ s_actors s;
  rel_grants : ∀ c g, s_grants s !! c = Some g → ∃ cap,
    RevocationState_get (rev_of m) c = Some cap ∧ stores s c g cap;
  rel_privates : ∀ c p, s_private s !! c = Some p → ∃ cap,
    RevocationState_get (rev_of m) c = Some cap ∧ valid cap = true ∧ parent cap = None;
  rel_others : ∀ c, s_grants s !! c = None → s_private s !! c = None →
    RevocationState_get (rev_of m) c = None;
  rel_holds : ∀ p c, plugin_holds (mgr_kernel m) p c = true ↔
    (∃ g, s_grants s !! c = Some g ∧ g_holder g = p) ∨ s_private s !! c = Some p
}.

Lemma related_initial kb m :
  key = {| key_bytes := kb |} → Manager_with_key kb = Ok m → related m spec_initial.
Proof.
  intros Hk H. unfold Manager_with_key, with_key in H.
  destruct (Key_is_empty {| key_bytes := kb |}); [done|]. injection H as <-.
  split; try done.
  - simpl. by rewrite Hk.
  - split; [constructor|done].
  - intros p. split; [by intros []|set_solver].
  - apply table_wf_empty.
  - intros c. split; [set_solver|by intros []].
  - intros p c. split; [done|]. intros [(g & ? & _)|?]; done.
Qed.

Section lookups.
Context (m : CapabilityManager) (s : Spec) (Hrel : related m s).

Lemma private_range c p : s_private s !! c = Some p → (PRIVATE_ID_START ≤ c < U128_MAX)%N.
Proof. intros H. apply (rel_private _ _ Hrel) in H. pose proof (rel_range _ _ Hrel). lia. Qed.

Lemma grant_range c g : s_grants s !! c = Some g → (c < PRIVATE_ID_START)%N.
Proof. intros H. apply (rel_ids _ _ Hrel) in H as [H _]. pose proof (rel_next_low _ _ Hrel). lia. Qed.

Lemma low_not_private c : (c < PRIVATE_ID_START)%N → s_private s !! c = None.
Proof. intros Hc. destruct (s_private s !! c) as [p|] eqn:E; [|done]. apply private_range in E. lia. Qed.

Lemma low_not_anchor c : (c < PRIVATE_ID_START)%N → c ∉ anchors m.
Proof. intros Hc [p H]%(rel_anchors _ _ Hrel). by rewrite low_not_private in H. Qed.

Lemma get_grant c :
  (c < PRIVATE_ID_START)%N →
  match s_grants s !! c with
  | Some g => ∃ cap, RevocationState_get (rev_of m) c = Some cap ∧ stores s c g cap
  | None => RevocationState_get (rev_of m) c = None
  end.
Proof.
  intros Hc. destruct (s_grants s !! c) as [g|] eqn:E; [by apply (rel_grants _ _ Hrel)|].
  apply (rel_others _ _ Hrel); [done|by apply low_not_private].
Qed.

(** The entries a chain from [c] can visit below the anchor. *)
Definition entries_upto (c : CapId) : nat := length (filter (λ kv, kv.1 ≤ c)%N (caps (rev_of m))).

Lemma in_table c cap : RevocationState_get (rev_of m) c = Some cap → (c, cap) ∈ caps (rev_of m).
Proof. rewrite get_bm. apply elem_of_bm_get, (rel_table _ _ Hrel). Qed.

Lemma entries_lt p c cap :
  (p < c)%N → RevocationState_get (rev_of m) c = Some cap → (entries_upto p < entries_upto c)%nat.
Proof.
  intros Hpc Hc. apply (filter_length_lt _ _ _ (c, cap)); simpl; [intros [k v]; simpl; lia| |lia|lia].
  by apply in_table.
Qed.

Lemma anchor_loop a fuel : is_Some (s_private s !! a) → (0 < fuel)%nat →
  chain_loop (rev_of m) (anchors m) fuel a = true.
Proof.
  intros [p Ha] Hf. destruct fuel as [|fuel]; [lia|]. cbn [chain_loop].
  destruct (rel_privates _ _ Hrel a p Ha) as (cap & -> & -> & Hpar).
  pose proof (private_range _ _ Ha). simpl.
  rewrite bool_decide_eq_true_2 by (by apply (rel_anchors _ _ Hrel); eexists).
  rewrite Hpar. rewrite (proj2 (N.leb_le _ _)), (proj2 (N.eqb_neq _ _)) by lia. done.
Qed.

(** The chain from a grant ends at a private anchor within the table. *)
Lemma chain_loop_live c : ∀ fuel g,
  s_grants s !! c = Some g → (entries_upto c < fuel)%nat →
  chain_loop (rev_of m) (anchors m) fuel c = spec_live s c.
Proof.
  induction c as [c IH] using N_strong_ind. intros fuel g Hg Hf.
  destruct fuel as [|fuel]; [lia|]. cbn [chain_loop].
  pose proof (grant_range _ _ Hg) as Hlow.
  destruct (rel_grants _ _ Hrel c g Hg) as (cap & Hcap & Hst). rewrite Hcap, (st_valid _ _ _ _ Hst).
  destruct (spec_live s c) eqn:Hl; [|done]. cbn [negb].
  rewrite bool_decide_eq_false_2 by (by apply low_not_anchor).
  rewrite (proj2 (N.leb_gt _ _)) by done.
  rewrite (spec_live_eq _ _ (rel_spec _ _ Hrel)), Hg in Hl. apply andb_true_iff in Hl as [_ Hl].
  pose proof (st_parent _ _ _ _ Hst) as Hpar. destruct (g_parent g) as [p|] eqn:Ep.
  - rewrite Hpar. destruct (rel_spec _ _ Hrel _ _ _ Hg Ep) as [Hlt [gp Hgp]].
    rewrite (IH p Hlt fuel gp Hgp); [done|]. pose proof (entries_lt p c cap Hlt Hcap). lia.
  - destruct Hpar as (a & -> & Ha). apply anchor_loop; [done|].
    assert (0 < entries_upto c)%nat; [|lia]. unfold entries_upto.
    assert ((c, cap) ∈ filter (λ kv, kv.1 ≤ c)%N (caps (rev_of m))) as Hin
      by (apply list_elem_of_filter; split; [simpl; lia|by apply in_table]).
    destruct (filter _ _); [by apply not_elem_of_nil in Hin|simpl; lia].
Qed.

(** Every grant has an anchor, which is not among the entries up to it. *)
Lemma has_anchor c : ∀ g, s_grants s !! c = Some g → ∃ a p, s_private s !! a = Some p.
Proof.
  induction c as [c IH] using N_strong_ind. intros g Hg.
  destruct (rel_grants _ _ Hrel c g Hg) as (cap & _ & Hst).
  pose proof (st_parent _ _ _ _ Hst) as Hpar. destruct (g_parent g) as [p|] eqn:Ep.
  - destruct (rel_spec _ _ Hrel _ _ _ Hg Ep) as [Hlt [gp Hgp]]. by eapply IH.
  - destruct Hpar as (a & _ & p & Ha). by exists a, p.
Qed.

Lemma entries_lt_count c g :
  s_grants s !! c = Some g → (entries_upto c < cap_count (rev_of m))%nat.
Proof.
  intros Hg. destruct (has_anchor c g Hg) as (a & p & Ha).
  destruct (rel_privates _ _ Hrel a p Ha) as (cap & Hcap & _).
  pose proof (private_range _ _ Ha). pose proof (grant_range _ _ Hg).
  unfold cap_count.
  assert (length (caps (rev_of m)) = length (filter (λ _ : CapId * Capability, True) (caps (rev_of m)))) as ->.
  { induction (caps (rev_of m)) as [|y l IHl]; [done|]. rewrite filter_cons, decide_True by done. simpl. by f_equal. }
  apply (filter_length_lt _ _ _ (a, cap)); [done|by apply in_table|done|simpl; lia].
Qed.

Lemma is_live_spec c : Manager_is_live m c = spec_live s c.
Proof.
  unfold Manager_is_live, chain_is_live. destruct (N.leb_spec PRIVATE_ID_START c) as [Hc|Hc].
  - rewrite (spec_live_eq _ _ (rel_spec _ _ Hrel)). destruct (s_grants s !! c) as [g|] eqn:Eg; [|done].
    apply grant_range in Eg. lia.
  - destruct (s_grants s !! c) as [g|] eqn:Eg.
    + eapply chain_loop_live; [exact Eg|]. by eapply entries_lt_count.
    + rewrite (spec_live_eq _ _ (rel_spec _ _ Hrel)), Eg.
      destruct (cap_count (rev_of m)) as [|n]; [done|]. cbn [chain_loop].
      by rewrite (rel_others _ _ Hrel) by (done || by apply low_not_private).
Qed.
Lemma grant_sealed c g cap :
  s_grants s !! c = Some g → stores s c g cap → Manager_verify_seal m cap = Some true.
Proof.
  intros Hg Hst. unfold Manager_verify_seal. rewrite bool_decide_eq_false_2.
  - unfold verify_cap_seal, verify_with_epoch. rewrite (rel_key _ _ Hrel), (st_epoch _ _ _ _ Hst).
    unfold epoch_valid. simpl. unfold KeyState_verify_seal. simpl.
    by rewrite (verify_seal_of_seal _ _ _ (st_seal _ _ _ _ Hst)).
  - pose proof (st_parent _ _ _ _ Hst) as Hpar. destruct (g_parent g) as [p|] eqn:Ep.
    + rewrite Hpar. intros [= ->]. destruct (rel_spec _ _ Hrel _ _ _ Hg Ep) as [Hlt _].
      pose proof (grant_range _ _ Hg). unfold PRIVATE_ID_START, U128_MAX in *. lia.
    + destruct Hpar as (a & -> & p & Ha). intros [= ->]. apply private_range in Ha. lia.
Qed.

Lemma Manager_get_cap_spec c :
  match s_grants s !! c with
  | Some g => ∃ cap, Manager_get_cap m c = Some cap ∧ stores s c g cap
  | None => Manager_get_cap m c = None
  end.
Proof.
  unfold Manager_get_cap, get_cap. destruct (N.ltb_spec c PRIVATE_ID_START) as [Hc|Hc].
  - by apply get_grant.
  - destruct (s_grants s !! c) as [g|] eqn:Eg; [|done]. apply grant_range in Eg. lia.
Qed.

Lemma grant_held c g : s_grants s !! c = Some g → plugin_holds (mgr_kernel m) (g_holder g) c = true.
Proof. intros Hg. apply (rel_holds _ _ Hrel). left. by exists g. Qed.

Lemma require_live_spec c :
  match s_grants s !! c with
  | Some g => ∃ cap, stores s c g cap ∧
      require_live_grant m c = Some (if spec_live s c then Ok cap else Err (CapabilityRevoked c))
  | None => require_live_grant m c = Some (Err (CapabilityRevoked c))
  end.
Proof.
  pose proof (Manager_get_cap_spec c) as Hc. unfold require_live_grant.
  destruct (s_grants s !! c) as [g|] eqn:Eg; [|by rewrite Hc].
  destruct Hc as (cap & -> & Hst). exists cap. split; [done|].
  rewrite (st_holder _ _ _ _ Hst), (grant_held _ _ Eg). cbn [negb].
  rewrite (grant_sealed _ _ _ Eg Hst). cbn [mbind option_bind negb].
  rewrite is_live_spec. by destruct (spec_live s c).
Qed.

Lemma require_actor_spec p : require_actor m p = spec_actor s p.
Proof.
  unfold require_actor, spec_actor. case_decide as Hp.
  - rewrite (proj2 (N.eqb_neq p 0)) by (intros ->; by apply (rel_zero _ _ Hrel)).
    rewrite bool_decide_eq_true_2; [done|]. by apply plugin_level_Some, (rel_actors _ _ Hrel).
  - rewrite (bool_decide_eq_false_2 (is_Some _)); [by rewrite orb_true_r|].
    by rewrite plugin_level_Some, (rel_actors _ _ Hrel).
Qed.

Lemma ensure_id_spec : ensure_grant_id_available m = spec_id_available s.
Proof.
  unfold ensure_grant_id_available, spec_id_available. rewrite (rel_next _ _ Hrel), N.leb_antisym.
  by destruct (s_next s <? PRIVATE_ID_START)%N.
Qed.

(** ** Validation *)

Lemma validate_spec p c ns r :
  validate m p c ns r = Some (spec_validate s p c ns (resource_id ns) r).
Proof.
  unfold validate, spec_validate.
  pose proof (rel_holds _ _ Hrel p c) as Hh. pose proof (require_live_spec c) as Hl.
  case_decide as Hpriv.
  - rewrite (proj2 Hh) by auto. cbn [negb].
    destruct (s_grants s !! c) as [g|] eqn:Eg; [|by rewrite Hl].
    apply grant_range in Eg. apply private_range in Hpriv. lia.
  - destruct (s_grants s !! c) as [g|] eqn:Eg.
    + destruct (N.eqb_spec (g_holder g) p) as [Hp|Hp].
      * rewrite (proj2 Hh) by eauto. cbn [negb]. destruct Hl as (cap & [] & ->).
        cbn [mbind option_bind]. unfold has_right.
        destruct (spec_live s c); simpl; [|done].
        rewrite st_holder0, st_target0, st_rights0, Hp, N.eqb_refl. simpl. done.
      * destruct (plugin_holds (mgr_kernel m) p c) eqn:E; [|done].
        destruct (proj1 Hh eq_refl) as [(g' & ? & ?)|]; simplify_eq.
    + destruct (plugin_holds (mgr_kernel m) p c) eqn:E; [|done].
      destruct (proj1 Hh eq_refl) as [(g' & ? & ?)|]; simplify_eq.
Qed.

(** ** Registration *)

Lemma register_spec p l :
  ∃ m', register_actor m p l = (m', (spec_register s p).2) ∧ related m' (spec_register s p).1.
Proof.
  unfold register_actor, spec_register. destruct (N.eqb_spec p 0) as [->|Hp0]; [by exists m|].
  unfold register_plugin.
  pose proof (insert_plugin_spec (mgr_kernel m) p (PluginState_empty l 0) (proj1 (rel_plugins _ _ Hrel))) as Hi.
  destruct (get_plugin (mgr_kernel m) p) as [ps|] eqn:Eg.
  - rewrite Hi, decide_True by (apply (rel_actors _ _ Hrel); by eexists).
    eexists. split; [done|]. by destruct m.
  - destruct Hi as (k' & -> & Hk & Hwf & Hget).
    rewrite decide_False by (by intros [? H]%(rel_actors _ _ Hrel); simplify_eq).
    eexists. split; [done|]. destruct Hrel. split; cbn [with_mgr_kernel mgr_kernel anchors next_anchor_id fst
      s_actors s_grants s_next s_private s_next_private]; rewrite ?Hk; try done.
    + split; [done|]. intros q ps. rewrite Hget. case_decide; [by intros [= <-]; constructor|].
      by apply rel_plugins0.
    + intros q. rewrite Hget. case_decide as Hq; [subst|rewrite rel_actors0; set_solver].
      split; [set_solver|by eexists].
    + set_solver.
    + intros c g Hc. destruct (rel_ids0 c g Hc). split; [done|set_solver].
    + intros c g Hg. destruct (rel_grants0 c g Hg) as (cap & Hcap & Hst). exists cap. split; [done|].
      eapply stores_ext; [| |exact Hst]; [done|]. by apply live_same_grants.
    + intros q c. etrans; [|apply rel_holds0]. unfold plugin_holds. cbn [mgr_kernel with_mgr_kernel].
      rewrite Hget. case_decide; [subst|done]. by rewrite Eg.
Qed.
(** ** Delegation *)

Lemma next_fresh : s_grants s !! s_next s = None ∧ (∀ c g, s_grants s !! c = Some g → c ≠ s_next s).
Proof.
  assert (∀ c g, s_grants s !! c = Some g → c ≠ s_next s) as H
    by (intros c g [Hc _]%(rel_ids _ _ Hrel) ->; lia).
  split; [|done]. destruct (s_grants s !! s_next s) as [g|] eqn:E; [|done]. by apply H in E.
Qed.

(** The grant a delegation from the stored [pid] adds. *)
Record delegated (pid : CapId) (par : Capability) (t : PluginId) (r : Rights) (g : Grant) : Prop := {
  dg_holder : g_holder g = t;
  dg_target : g_target g = target par;
  dg_rights : g_rights g = intersection r (rights par);
  dg_revoked : g_revoked g = false;
  dg_parent : match g_parent g with
              | Some p => p = pid ∧ is_Some (s_grants s !! p) ∧ spec_live s p = true
              | None => is_Some (s_private s !! pid)
              end
}.

Lemma add_grant_wf pid par t r g : delegated pid par t r g → spec_wf (add_grant s g).
Proof.
  intros Hg c g' p. cbn [add_grant s_grants]. destruct (decide (c = s_next s)) as [->|Hc].
  - rewrite lookup_insert_eq. intros [= <-] Hp. pose proof (dg_parent _ _ _ _ _ Hg) as Hpar.
    rewrite Hp in Hpar. destruct Hpar as (-> & [gp Hgp] & _).
    pose proof (rel_ids _ _ Hrel _ _ Hgp) as [Hlt _]. split; [lia|].
    rewrite lookup_insert_ne by lia. by eexists.
  - rewrite lookup_insert_ne by done. intros Hc' Hp.
    destruct (rel_spec _ _ Hrel _ _ _ Hc' Hp) as [Hlt [gp Hgp]]. split; [done|].
    rewrite lookup_insert_ne by (intros <-; by apply next_fresh in Hgp). by eexists.
Qed.

Lemma live_new pid par t r g : delegated pid par t r g → spec_live (add_grant s g) (s_next s) = true.
Proof.
  intros Hg. rewrite spec_live_eq by (by eapply add_grant_wf). cbn [add_grant s_grants].
  rewrite lookup_insert_eq, (dg_revoked _ _ _ _ _ Hg). simpl.
  pose proof (dg_parent _ _ _ _ _ Hg) as Hpar. destruct (g_parent g) as [p|] eqn:Ep; [|done].
  destruct Hpar as (-> & [gp Hgp] & Hl). change (spec_live (add_grant s g) pid = true).
  rewrite live_add_grant; [done|apply Hrel|apply next_fresh|by eapply next_fresh].
Qed.

Lemma delegate_spec pid par t r g :
  RevocationState_get (rev_of m) pid = Some par → valid par = true →
  Rights_is_empty (intersection r (rights par)) = false → (pid < U128_MAX)%N →
  t ∈ s_actors s → (s_next s < PRIVATE_ID_START)%N → delegated pid par t r g →
  ∃ m', delegate m pid t r = Some (m', Ok (s_next s)) ∧ related m' (add_grant s g).
Proof.
  intros Hpar Hv Hr Hpid Ht Hnext Hg. destruct next_fresh as [Hfresh Hids].
  assert (t ≠ 0%N) as Ht0 by (intros ->; by apply (rel_zero _ _ Hrel)).
  pose proof (rel_next _ _ Hrel) as Hn.
  destruct (delegate_cap_ok (mgr_kernel m) pid par t r) as (child & rev' & Hminted & Hins & Hdel);
    try done; rewrite ?Hn; [unfold PRIVATE_ID_START, U128_MAX in *; lia| |].
  { apply (rel_others _ _ Hrel); [done|by apply low_not_private]. }
  unfold delegate. rewrite Hdel. cbn [mbind option_bind]. rewrite Hn.
  eexists. split; [done|].
  pose proof (rel_table _ _ Hrel) as Htab. assert (∀ k, RevocationState_get rev' k = if decide (k = s_next s) then Some child else RevocationState_get (rev_of m) k) as Hget.
  { intros k. rewrite (insert_get _ _ _ k Htab Hins), (minted_id _ _ _ _ _ _ Hminted), Hn. done. }
  set (k1 := with_kernel (mgr_kernel m) _).
  assert (plugins_wf k1) as Hpw by apply (rel_plugins _ _ Hrel).
  assert (∀ p, get_plugin k1 p = get_plugin (mgr_kernel m) p) as Hgp by done.
  assert (stores (add_grant s g) (s_next s) g child) as Hnew.
  { destruct Hminted, Hg as [Gh Gt Gr Gv Gp]. split; try congruence.
    - destruct (g_parent g) as [p|]; [destruct Gp as [-> _]; done|]. by exists pid.
    - by rewrite minted_epoch, (rel_key _ _ Hrel).
    - by rewrite (rel_key _ _ Hrel) in minted_seal.
    - rewrite minted_valid. symmetry. by eapply live_new. }
  split; cbn [with_mgr_kernel mgr_kernel anchors next_anchor_id add_grant s_actors s_next s_private
    s_next_private]; rewrite ?update_plugin_kernel; cbn [k1 with_kernel kernel with_revocation
    with_next_cap_id key_state next_cap_id revocation]; try by apply Hrel.
  - by apply grant_plugins_wf.
  - intros p. rewrite update_plugin_get by apply Hpw. rewrite Hgp. case_decide as Hp.
    + subst. rewrite fmap_is_Some. apply Hrel.
    + apply Hrel.
  - by eapply insert_wf.
  - done.
  - lia.
  - by eapply add_grant_wf.
  - intros c g'. cbn [add_grant s_grants]. destruct (decide (c = s_next s)) as [->|Hc].
    + rewrite lookup_insert_eq. intros [= <-]. split; [lia|]. by rewrite (dg_holder _ _ _ _ _ Hg).
    + rewrite lookup_insert_ne by done. intros Hc'. destruct (rel_ids _ _ Hrel _ _ Hc'). split; [lia|done].
  - intros c g'. cbn [add_grant s_grants]. rewrite Hget. destruct (decide (c = s_next s)) as [->|Hc].
    + rewrite lookup_insert_eq. intros [= <-]. by exists child.
    + rewrite lookup_insert_ne by done. intros Hc'. destruct (rel_grants _ _ Hrel _ _ Hc') as (cap & Hcap & Hst).
      exists cap. split; [done|]. eapply stores_ext; [| |exact Hst]; [done|].
      apply live_add_grant; [apply Hrel|done|done].
  - intros c p Hc. rewrite Hget. pose proof (private_range _ _ Hc).
    rewrite decide_False by lia. by apply (rel_privates _ _ Hrel _ p).
  - intros c. cbn [add_grant s_grants]. rewrite Hget. case_decide as Hc; [subst; by rewrite lookup_insert_eq|].
    rewrite lookup_insert_ne by done. apply Hrel.
  - intros p c. rewrite grant_holds; [|done|by apply (rel_actors _ _ Hrel)].
    rewrite orb_true_iff, bool_decide_eq_true. cbn [add_grant s_grants].
    change (plugin_holds k1 p c) with (plugin_holds (mgr_kernel m) p c). rewrite (rel_holds _ _ Hrel).
    destruct (decide (c = s_next s)) as [->|Hc].
    + rewrite lookup_insert_eq, Hfresh, (low_not_private _ Hnext). pose proof (dg_holder _ _ _ _ _ Hg). naive_solver.
    + rewrite lookup_insert_ne by done. naive_solver.
Qed.
Lemma delegate_empty pid par t r :
  RevocationState_get (rev_of m) pid = Some par → valid par = true →
  Rights_is_empty (intersection r (rights par)) = true →
  delegate m pid t r = Some (m, Err (DelegationFailed "capability: Rights cannot be empty")).
Proof.
  intros Hpar Hv Hr. unfold delegate, delegate_cap, get_cap. rewrite Hpar, Hv. simpl. rewrite Hr.
  simpl. by destruct m.
Qed.

Lemma compose_spec c t r :
  ∃ m', compose m c t r = Some (m', (spec_compose s c t r).2) ∧ related m' (spec_compose s c t r).1.
Proof.
  unfold compose, spec_compose. pose proof (require_live_spec c) as Hl.
  destruct (s_grants s !! c) as [g|] eqn:Eg; [|rewrite Hl; by exists m].
  destruct Hl as (cap & _ & ->). cbn [mbind option_bind].
  destruct (spec_live s c) eqn:El; [|by exists m]. cbn [negb].
  rewrite require_actor_spec. unfold spec_actor. case_decide as Ht; [|by exists m].
  rewrite ensure_id_spec. unfold spec_id_available.
  destruct (N.ltb_spec (s_next s) PRIVATE_ID_START) as [Hn|Hn]; [|by exists m].
  destruct (rel_grants _ _ Hrel c g Eg) as (par & Hpar & Hst).
  pose proof (st_valid _ _ _ _ Hst) as Hv. rewrite El in Hv.
  pose proof (st_rights _ _ _ _ Hst) as Hr. rewrite <-Hr.
  destruct (Rights_is_empty (intersection r (rights par))) eqn:Ee.
  - exists m. split; [by eapply delegate_empty|done].
  - apply (delegate_spec c par t r); try done.
    + pose proof (grant_range _ _ Eg). unfold PRIVATE_ID_START, U128_MAX in *. lia.
    + split; cbn [g_target g_parent]; [done|by rewrite (st_target _ _ _ _ Hst)|done|done|].
      split; [done|]. split; [by eexists|done].
Qed.

(** ** Minting: the private anchor *)

Lemma reserve_live c p : spec_live (reserve s p) c = spec_live s c.
Proof. by apply live_same_grants. Qed.

Lemma intersection_idemp r : intersection r r = r.
Proof. destruct r. unfold intersection, Rights_combine. simpl. by rewrite N.land_diag. Qed.

Lemma anchor_spec p t r :
  p ∈ s_actors s → Rights_is_empty r = false → (PRIVATE_ID_START ≤ s_next_private s)%N →
  ∃ anchor k, Capability_new (next_anchor_id m) p t r None
      (key_epoch (key_state (kernel (mgr_kernel m)))) {| tag_bytes := replicate 32 0%N |} = Ok anchor ∧
    target anchor = t ∧ rights anchor = r ∧ valid anchor = true ∧
    insert_cap_raw (mgr_kernel m) anchor p = (k, Ok ()) ∧
    RevocationState_get (revocation (kernel k)) (s_next_private s) = Some anchor ∧
    related {| mgr_kernel := k; anchors := {[next_anchor_id m]} ∪ anchors m;
               next_anchor_id := (next_anchor_id m - 1)%N |} (reserve s p).
Proof.
  intros Hp Hr Hrange. assert (p ≠ 0%N) as Hp0 by (intros ->; by apply (rel_zero _ _ Hrel)).
  unfold Capability_new. rewrite (proj2 (N.eqb_neq p 0)), Hr by done.
  pose proof (rel_anchor_next _ _ Hrel) as Han. rewrite Han.
  set (anchor := Build_Capability _ _ _ _ _ _ _ _).
  assert (s_private s !! s_next_private s = None) as Hpriv.
  { destruct (s_private s !! s_next_private s) as [q|] eqn:E; [|done]. apply (rel_private _ _ Hrel) in E. lia. }
  assert (s_grants s !! s_next_private s = None) as Hgr.
  { destruct (s_grants s !! s_next_private s) as [g|] eqn:E; [|done]. apply grant_range in E. lia. }
  pose proof (rel_table _ _ Hrel) as Htab.
  destruct (insert_fresh (rev_of m) anchor) as [rev' Hins]; [by apply (rel_others _ _ Hrel)|].
  assert (∀ k, RevocationState_get rev' k =
    if decide (k = s_next_private s) then Some anchor else RevocationState_get (rev_of m) k) as Hget.
  { intros k. by rewrite (insert_get _ _ _ k Htab Hins). }
  set (k := update_plugin (with_kernel (mgr_kernel m) (with_revocation (kernel (mgr_kernel m)) rev')) p
              (λ ps, grant_cap ps (s_next_private s))).
  exists anchor, k. split_and!; try done.
  { unfold insert_cap_raw, apply_cap_delegate. by rewrite Hins. }
  { unfold k. rewrite update_plugin_kernel. cbn [with_kernel kernel with_revocation revocation].
    by rewrite Hget, decide_True. }
  set (k1 := with_kernel (mgr_kernel m) _) in k.
  assert (plugins_wf k1) as Hpw by apply (rel_plugins _ _ Hrel).
  unfold k. split; cbn [mgr_kernel anchors next_anchor_id reserve s_actors s_next s_private s_grants
    s_next_private]; rewrite ?update_plugin_kernel; cbn [k1 with_kernel kernel with_revocation
    with_next_cap_id key_state next_cap_id revocation]; try by apply Hrel.
  - by apply grant_plugins_wf.
  - intros q. rewrite update_plugin_get by apply Hpw.
    change (get_plugin k1) with (get_plugin (mgr_kernel m)). case_decide; [subst; rewrite fmap_is_Some|]; apply Hrel.
  - by eapply insert_wf.
  - pose proof (rel_range _ _ Hrel). lia.
  - pose proof (rel_range _ _ Hrel). lia.
  - intros c. rewrite elem_of_union, elem_of_singleton, (rel_anchors _ _ Hrel).
    destruct (decide (c = s_next_private s)) as [->|Hc]; [rewrite lookup_insert_eq; naive_solver|].
    rewrite lookup_insert_ne by done. naive_solver.
  - pose proof (rel_range _ _ Hrel). intros c q. destruct (decide (c = s_next_private s)) as [->|Hc].
    + assert (0 < PRIVATE_ID_START)%N by done. intros _. lia.
    + rewrite lookup_insert_ne by done. intros Hq%(rel_private _ _ Hrel). lia.
  - intros c g Hg. rewrite Hget. pose proof (grant_range _ _ Hg). rewrite decide_False by lia.
    destruct (rel_grants _ _ Hrel c g Hg) as (cap & Hcap & Hst). exists cap. split; [done|].
    eapply stores_ext; [| |exact Hst]; [|apply reserve_live]. cbn [reserve s_private].
    intros a [q Ha]. apply lookup_insert_is_Some'. right. by eexists.
  - intros c q. rewrite Hget. destruct (decide (c = s_next_private s)) as [->|Hc].
    + intros _. by exists anchor.
    + rewrite lookup_insert_ne by done. apply Hrel.
  - intros c Hg. rewrite Hget. destruct (decide (c = s_next_private s)) as [->|Hc].
    + by rewrite lookup_insert_eq.
    + rewrite lookup_insert_ne by done. by apply Hrel.
  - intros q c. rewrite grant_holds; [|done|by apply (rel_actors _ _ Hrel)].
    rewrite orb_true_iff, bool_decide_eq_true.
    change (plugin_holds k1 q c) with (plugin_holds (mgr_kernel m) q c). rewrite (rel_holds _ _ Hrel).
    destruct (decide (c = s_next_private s)) as [->|Hc].
    + rewrite lookup_insert_eq, Hpriv, Hgr. naive_solver.
    + rewrite lookup_insert_ne by done. naive_solver.
Qed.
End lookups.

Lemma mint_spec m s p ns r :
  related m s →
  ∃ m', mint m p ns r = Some (m', (spec_mint s p (resource_id ns) r).2) ∧
        related m' (spec_mint s p (resource_id ns) r).1.
Proof.
  intros Hrel. unfold mint, spec_mint. rewrite (require_actor_spec m s Hrel).
  unfold spec_actor. case_decide as Hp; [|by exists m].
  destruct (Rights_is_empty r) eqn:Hr; [by exists m|].
  rewrite (ensure_id_spec m s Hrel). unfold spec_id_available.
  destruct (N.ltb_spec (s_next s) PRIVATE_ID_START) as [Hn|Hn]; [|by exists m].
  pose proof (rel_anchor_next _ _ Hrel) as Han. pose proof (rel_range _ _ Hrel) as Hrange.
  rewrite (N.leb_antisym (next_anchor_id m)), Han.
  destruct (N.ltb_spec (s_next_private s) PRIVATE_ID_START) as [Hlow|Hlow]; [by exists m|].
  rewrite (proj2 (N.ltb_lt _ _)) by lia. cbn [negb andb].
  destruct (anchor_spec m s Hrel p (resource_id ns) r Hp Hr Hlow)
    as (anchor & k & Hnew & Ht & Hrr & Hv & Hins & Hget & Hrel').
  rewrite Han in Hnew, Hrel'. rewrite Hnew, Hins.
  apply (delegate_spec _ _ Hrel' _ anchor p r); try done.
  - by rewrite Hrr, intersection_idemp.
  - lia.
  - split; cbn [g_holder g_target g_rights g_revoked g_parent reserve s_private]; try done.
    + by rewrite Hrr, intersection_idemp.
    + rewrite lookup_insert_eq. by eexists.
Qed.

(** ** Revocation *)

Section revocation.
Context (m : CapabilityManager) (s : Spec) (Hrel : related m s).
Context (c : CapId) (g : Grant) (Hg : s_grants s !! c = Some g).

Abbreviation marked := (with_grants s (<[c := mark_revoked g]> (s_grants s))).

Lemma marked_lookup k :
  s_grants marked !! k = if decide (k = c) then Some (mark_revoked g) else s_grants s !! k.
Proof.
  cbn [with_grants s_grants]. case_decide as E; [subst; apply lookup_insert_eq|].
  by rewrite lookup_insert_ne.
Qed.

(** Marking a grant keeps everything of it but its mark. *)
Lemma marked_grant k gk :
  s_grants marked !! k = Some gk → ∃ gk0, s_grants s !! k = Some gk0 ∧
    g_holder gk = g_holder gk0 ∧ g_target gk = g_target gk0 ∧ g_rights gk = g_rights gk0 ∧
    g_parent gk = g_parent gk0 ∧ g_revoked gk = bool_decide (k = c) || g_revoked gk0.
Proof.
  rewrite marked_lookup. case_decide as E; [subst|]; intros Hk.
  - injection Hk as <-. exists g. by rewrite bool_decide_eq_true_2.
  - exists gk. by rewrite bool_decide_eq_false_2.
Qed.

Lemma marked_is_Some k : is_Some (s_grants marked !! k) ↔ is_Some (s_grants s !! k).
Proof. rewrite marked_lookup. case_decide; [subst; rewrite Hg|]; split; intros; try done; by eexists. Qed.

Lemma marked_wf : spec_wf marked.
Proof.
  intros k gk p (gk0 & Hk & _ & _ & _ & Hp & _)%marked_grant. rewrite Hp. intros Hpar.
  destruct (rel_spec _ _ Hrel _ _ _ Hk Hpar). split; [done|]. by apply marked_is_Some.
Qed.

Lemma grant_parent_of k gk :
  s_grants s !! k = Some gk →
  match g_parent gk with
  | Some p => parent_of (rev_of m) k = Some p
  | None => ∃ a, parent_of (rev_of m) k = Some a ∧ is_Some (s_private s !! a)
  end.
Proof.
  intros Hk. destruct (rel_grants _ _ Hrel k gk Hk) as (cap & Hcap & Hst). unfold parent_of.
  rewrite Hcap. pose proof (st_parent _ _ _ _ Hst). by destruct (g_parent gk).
Qed.

Lemma private_not_derived a p : s_private s !! a = Some p → ¬ derived (rev_of m) c a.
Proof.
  intros Ha Hd. destruct (rel_privates _ _ Hrel a p Ha) as (cap & Hcap & _ & Hpar).
  destruct Hd as [|k q Hq _].
  - apply (private_range _ _ Hrel) in Ha. pose proof (grant_range _ _ Hrel _ _ Hg). lia.
  - unfold parent_of in Hq. rewrite Hcap in Hq. simpl in Hq. congruence.
Qed.

(** A grant dies exactly when it was delegated, in some steps, from the marked one. *)
Lemma marked_live k : ∀ gk, s_grants s !! k = Some gk →
  (derived (rev_of m) c k → spec_live marked k = false) ∧
  (¬ derived (rev_of m) c k → spec_live marked k = spec_live s k).
Proof.
  induction k as [k IH] using N_strong_ind. intros gk Hk.
  rewrite (spec_live_eq marked) by apply marked_wf. rewrite (spec_live_eq s) by apply Hrel.
  rewrite marked_lookup, Hk. pose proof (grant_parent_of k gk Hk) as Hpar.
  destruct (decide (k = c)) as [->|Hkc]; [split; [done|]; intros []; constructor|].
  destruct (g_parent gk) as [p|] eqn:Ep.
  - destruct (rel_spec _ _ Hrel _ _ _ Hk Ep) as [Hlt [gp Hgp]].
    destruct (IH p Hlt gp Hgp) as [Hdead Hlive]. split.
    + intros Hk'. rewrite Hdead, andb_false_r; [done|]. destruct Hk' as [|? q Hq Hd]; [done|].
      rewrite Hpar in Hq. by injection Hq as ->.
    + intros Hnd. rewrite Hlive; [done|]. intros Hd. apply Hnd. by eapply derived_step.
  - destruct Hpar as (a & Ha & p & Hp). split; [|done].
    intros Hk'. exfalso. apply (private_not_derived _ _ Hp). destruct Hk' as [|? q Hq Hd]; [done|].
    rewrite Ha in Hq. by injection Hq as ->.
Qed.
End revocation.

Lemma revoke_spec m s c :
  related m s → ∃ m', Manager_revoke m c = Some (m', (spec_revoke s c).2) ∧ related m' (spec_revoke s c).1.
Proof.
  intros Hrel. unfold Manager_revoke, spec_revoke. pose proof (Manager_get_cap_spec m s Hrel c) as Hc.
  destruct (s_grants s !! c) as [g|] eqn:Hg; [|rewrite Hc; by exists m].
  destruct Hc as (cap0 & -> & _). destruct (rel_grants _ _ Hrel c g Hg) as (cap & Hcap & Hst).
  destruct (fast_spec (rev_of m) c cap (rel_table _ _ Hrel) Hcap) as (rev' & Hrev & _ & Hwf & Hex).
  rewrite (revoke_cap_kernel _ _ _ _ Hrev). cbn [mbind option_bind fst snd].
  eexists. split; [done|].
  destruct Hrel as [] eqn:HR. pose proof Hrel as Hrel'.
  split; cbn [with_mgr_kernel mgr_kernel anchors next_anchor_id with_kernel kernel with_revocation
    key_state next_cap_id revocation with_grants s_actors s_next s_private s_next_private]; try done.
  - by apply (marked_wf m).
  - intros k gk (gk0 & Hk & -> & _)%(marked_grant s c g Hg). by apply rel_ids0.
  - intros k gk (gk0 & Hk & Hh & Ht & Hr & Hp & _)%(marked_grant s c g Hg).
    destruct (rel_grants0 k gk0 Hk) as (ck & Hck & []).
    destruct (marked_live m s Hrel c g Hg k gk0 Hk) as [Hdead Hlive]. destruct (Hex k) as [Hd Hn].
    destruct (derived_em (rev_of m) c k rel_table0) as [E|E].
    + exists (Capability_revoke ck). split; [by rewrite Hd, Hck|]. rewrite <-Hp in st_parent0.
      split; try (by simpl; congruence); [done|]. by rewrite Hdead.
    + exists ck. split; [by rewrite Hn|]. rewrite <-Hp in st_parent0.
      split; try congruence; [done|]. by rewrite Hlive.
  - intros a p Ha. destruct (rel_privates0 a p Ha) as (ca & Hca & ?). exists ca. split; [|done].
    rewrite (proj2 (Hex a)); [done|]. by apply (private_not_derived m s Hrel c g Hg a p).
  - intros k Hk Hp. assert (s_grants s !! k = None) as Hk0.
    { apply eq_None_not_Some. rewrite <-(marked_is_Some s c g Hg). by apply eq_None_not_Some. }
    pose proof (rel_others0 k Hk0 Hp) as Hnone. destruct (Hex k) as [Hd Hn].
    destruct (derived_em (rev_of m) c k rel_table0) as [E|E]; [by rewrite Hd, Hnone|by rewrite Hn].
  - intros p k. change (plugin_holds _ p k) with (plugin_holds (mgr_kernel m) p k). rewrite rel_holds0.
    cbn [with_grants s_grants]. destruct (decide (k = c)) as [->|Hk].
    + rewrite lookup_insert_eq, Hg. naive_solver.
    + by rewrite lookup_insert_ne.
Qed.

(** ** Every operation, and sequences of them *)

Lemma step_refines m s o :
  related m s → ∃ m', manager_step m o = Some (m', (spec_step s o).2) ∧ related m' (spec_step s o).1.
Proof.
  intros Hrel. destruct o as [p l|p ns r|c p r|c|p c ns o]; cbn [manager_step spec_step].
  - destruct (register_spec m s Hrel p l) as (m' & -> & H). exists m'. by destruct (spec_register s p).
  - destruct (mint_spec m s p ns r Hrel) as (m' & -> & H). exists m'. by destruct (spec_mint s p _ r).
  - destruct (compose_spec m s Hrel c p r) as (m' & -> & H). exists m'. by destruct (spec_compose s c p r).
  - destruct (revoke_spec m s c Hrel) as (m' & -> & H). exists m'. by destruct (spec_revoke s c).
  - unfold check_request. rewrite (validate_spec m s Hrel). by exists m.
Qed.

Lemma run_refines os : ∀ m s,
  related m s → ∃ m', manager_run m os = Some (m', (spec_run s os).2) ∧ related m' (spec_run s os).1.
Proof.
  induction os as [|o os IH]; intros m s Hrel; cbn [manager_run spec_run]; [by exists m|].
  destruct (step_refines m s o Hrel) as (m1 & -> & H1). destruct (spec_step s o) as [s1 x].
  destruct (IH m1 s1 H1) as (m2 & Hm2 & H2). cbn [mbind option_bind snd]. rewrite Hm2.
  exists m2. cbn [mbind option_bind]. by destruct (spec_run s1 os).
Qed.
End simulation.
