(* ===== verification/CapabilityFacts.v ===== *)
(** The theorems on the capability manager: it implements its specification,
    and what validation accepts traces back, unrevoked, to a mint. *)

From Stdlib Require Import NArith String.
From stdpp Require Import base tactics list numbers strings pretty gmap.
From S2P Require Import Prelude LionVec LionRights LionRevocation LionState CapabilityManager CapabilitySpec.

(** ** Attenuation, in the specification *)

Record spec_attenuated (s : Spec) : Prop := {
  att_below : ∀ c g, s_grants s !! c = Some g → (c < s_next s)%N;
  att_parent : ∀ c g p gp, s_grants s !! c = Some g → g_parent g = Some p →
    s_grants s !! p = Some gp →
    g_target g = g_target gp ∧ ∀ r, Rights_contains (g_rights g) r = true → Rights_contains (g_rights gp) r = true;
  att_wf : spec_wf s
}.

Lemma attenuated_initial : spec_attenuated spec_initial.
Proof. by split. Qed.

Lemma attenuated_add s g :
  spec_attenuated s →
  match g_parent g with
  | Some p => ∃ gp, s_grants s !! p = Some gp ∧ g_target g = g_target gp ∧
      ∀ r, Rights_contains (g_rights g) r = true → Rights_contains (g_rights gp) r = true
  | None => True
  end → spec_attenuated (add_grant s g).
Proof.
  intros [Hb Hp Hw] Hg. split; unfold spec_wf; cbn [add_grant s_grants s_next].
  - intros c g'. destruct (decide (c = s_next s)) as [->|Hc]; [lia|].
    rewrite lookup_insert_ne by done. intros H%Hb. lia.
  - intros c g' p gp. destruct (decide (c = s_next s)) as [->|Hc].
    + rewrite lookup_insert_eq. intros [= <-] Hpar. rewrite Hpar in Hg.
      destruct Hg as (gp' & Hgp & Ht & Hr). rewrite lookup_insert_ne by (apply Hb in Hgp; lia).
      intros. by simplify_eq.
    + rewrite lookup_insert_ne by done. intros Hc' Hpar. destruct (Hw _ _ _ Hc' Hpar) as [_ [gp' Hgp]].
      rewrite lookup_insert_ne by (apply Hb in Hgp; lia). by apply Hp with c.
  - intros c g' p. destruct (decide (c = s_next s)) as [->|Hc].
    + rewrite lookup_insert_eq. intros [= <-] Hpar. rewrite Hpar in Hg.
      destruct Hg as (gp & Hgp & _). apply Hb in Hgp as Hlt. split; [done|].
      rewrite lookup_insert_ne by lia. by eexists.
    + rewrite lookup_insert_ne by done. intros Hc' Hpar. destruct (Hw _ _ _ Hc' Hpar) as [Hlt [gp Hgp]].
      split; [done|]. rewrite lookup_insert_ne by (apply Hb in Hgp; lia). by eexists.
Qed.

Lemma attenuated_revoke s c : spec_attenuated s → spec_attenuated (spec_revoke s c).1.
Proof.
  intros [Hb Hp Hw]. unfold spec_revoke. destruct (s_grants s !! c) as [g|] eqn:Hg; [|by split].
  pose proof (marked_grant s c g Hg) as Hm. cbn [fst]. split.
  - intros k gk (gk0 & Hk & _)%Hm. by eapply Hb.
  - intros k gk p gp (gk0 & Hk & _ & -> & -> & -> & _)%Hm Hpar (gp0 & Hgp & _ & -> & -> & _)%Hm. by eapply Hp.
  - intros k gk p (gk0 & Hk & _ & _ & _ & -> & _)%Hm Hpar. destruct (Hw _ _ _ Hk Hpar).
    split; [done|]. by apply (marked_is_Some s c g Hg).
Qed.

(** ** Where authority comes from *)

(** [authority s t r c root]: the grant [c] for right [r] on [t] descends through
    unrevoked grants, each with that right on that target, from the mint [root]. *)
Inductive authority (s : Spec) (t : ResourceId) (r : Right) : CapId → CapId → Prop :=
| authority_minted c g :
    s_grants s !! c = Some g → g_parent g = None → g_revoked g = false → g_target g = t →
    Rights_contains (g_rights g) r = true → authority s t r c c
| authority_delegated c g p root :
    s_grants s !! c = Some g → g_parent g = Some p → g_revoked g = false → g_target g = t →
    Rights_contains (g_rights g) r = true → authority s t r p root → authority s t r c root.

Lemma live_authority s t r c : ∀ g,
  spec_attenuated s → s_grants s !! c = Some g → spec_live s c = true → g_target g = t →
  Rights_contains (g_rights g) r = true → ∃ root, authority s t r c root.
Proof.
  induction c as [c IH] using N_strong_ind. intros g Ha Hg Hl Ht Hr.
  rewrite (spec_live_eq s c (att_wf _ Ha)), Hg in Hl. apply andb_true_iff in Hl as [Hrev%negb_true_iff Hl].
  destruct (g_parent g) as [p|] eqn:Hp.
  - destruct (att_wf _ Ha _ _ _ Hg Hp) as [Hlt [gp Hgp]].
    destruct (att_parent _ Ha _ _ _ _ Hg Hp Hgp) as [Htp Hrp].
    destruct (IH p Hlt gp Ha Hgp Hl) as [root Hroot]; [congruence|by apply Hrp|].
    exists root. by eapply authority_delegated.
  - exists c. by eapply authority_minted.
Qed.

Lemma authority_live s t r c root :
  spec_attenuated s → authority s t r c root → spec_live s c = true.
Proof.
  intros Ha. induction 1 as [c g Hg Hp Hrev _ _|c g p root Hg Hp Hrev _ _ _ IH];
    rewrite (spec_live_eq s c (att_wf _ Ha)), Hg, Hrev, Hp; done.
Qed.

Section manager.
Context `{Hm : HmacSha256} `{Hb : Blake3}.

Lemma attenuated_step s o : spec_attenuated s → spec_attenuated (spec_step s o).1.
Proof.
  intros Ha. destruct o as [p l|p ns r|c p r|c|p c ns o]; cbn [spec_step].
  - unfold spec_register. destruct (p =? 0)%N; [done|]. case_decide; [done|]. destruct Ha. by split.
  - unfold spec_mint. destruct (spec_actor s p); [|done]. destruct (Rights_is_empty r); [done|].
    destruct (spec_id_available s); [|done]. destruct (_ <? _)%N; [done|].
    apply attenuated_add; [|done]. destruct Ha. by split.
  - unfold spec_compose. destruct (s_grants s !! c) as [g|] eqn:Hg; [|done].
    destruct (negb _); [done|]. destruct (spec_actor s p); [|done].
    destruct (spec_id_available s); [|done]. destruct (Rights_is_empty _); [done|].
    apply attenuated_add; [done|]. exists g. cbn [g_target g_rights]. split_and!; [done..|].
    intros r'. rewrite intersection_contains, andb_true_iff. naive_solver.
  - pose proof (attenuated_revoke s c Ha). by destruct (spec_revoke s c).
  - done.
Qed.

Lemma attenuated_run os : ∀ s, spec_attenuated s → spec_attenuated (spec_run s os).1.
Proof.
  induction os as [|o os IH]; intros s Ha; [done|]. cbn [spec_run].
  pose proof (attenuated_step s o Ha) as H1. destruct (spec_step s o) as [s1 x].
  specialize (IH s1 H1). by destruct (spec_run s1 os).
Qed.

(** C1: The capability manager implements its specification.  From a manager
    made with any accepted key, every sequence of registrations, mints,
    compositions, revocations and checks runs without a panic and answers as
    the grant forest does, errors included. *)
Theorem manager_refines (kb : list N) (m : CapabilityManager) (os : list ManagerOp) :
  Manager_with_key kb = Ok m →
  ∃ m', manager_run m os = Some (m', (spec_run spec_initial os).2).
Proof.
  intros Hk. assert (related {| key_bytes := kb |} m spec_initial) as Hrel by (by eapply related_initial).
  destruct (run_refines _ os m spec_initial Hrel) as (m' & Hrun & _). by exists m'.
Qed.

(** C16: What a check accepts traces back to a mint.  After any operations, an
    operation of an actor on a namespace is accepted exactly when the capability
    presented is the actor's own and descends through unrevoked grants, every
    one of them with the required right on that namespace, from a minted one. *)
Theorem check_request_authority (kb : list N) (m m' : CapabilityManager) (os : list ManagerOp)
    (outs : list Output) (p : PluginId) (c : CapId) (ns : string) (o : Operation) :
  Manager_with_key kb = Ok m → manager_run m os = Some (m', outs) →
  let s := (spec_run spec_initial os).1 in
  check_request m' p c ns o = Some (Ok ()) ↔
  (∃ g root, s_grants s !! c = Some g ∧ g_holder g = p ∧
             authority s (resource_id ns) (required_right o) c root).
Proof.
  intros Hk Hrun s. assert (related {| key_bytes := kb |} m spec_initial) as Hrel by (by eapply related_initial).
  destruct (run_refines _ os m spec_initial Hrel) as (m1 & Hrun1 & Hrel1). rewrite Hrun in Hrun1.
  injection Hrun1 as <- _. fold s in Hrel1. pose proof (attenuated_run os _ attenuated_initial) as Ha. fold s in Ha.
  unfold check_request. rewrite (validate_spec _ _ _ Hrel1). unfold spec_validate. split.
  - intros H. case_decide; [done|]. destruct (s_grants s !! c) as [g|] eqn:Hg; [|done].
    destruct (N.eqb_spec (g_holder g) p) as [Hp|]; [|done]. destruct (spec_live s c) eqn:Hl; [|done].
    destruct (N.eqb_spec (g_target g) (resource_id ns)) as [Ht|]; [|done].
    destruct (Rights_contains (g_rights g) _) eqn:Hr; [|done].
    destruct (live_authority s _ _ c g Ha Hg Hl Ht Hr) as [root Hroot]. by exists g, root.
  - intros (g & root & Hg & Hp & Hauth). pose proof (authority_live _ _ _ _ _ Ha Hauth) as Hl.
    rewrite decide_False, Hg, Hp, N.eqb_refl, Hl.
    + assert (g_target g = resource_id ns ∧ Rights_contains (g_rights g) (required_right o) = true) as [-> ->]
        by (destruct Hauth; by simplify_eq).
      by rewrite N.eqb_refl.
    + intros Hpriv. apply (private_range _ _ _ Hrel1) in Hpriv. pose proof (grant_range _ _ _ Hrel1 _ _ Hg). lia.
Qed.
End manager.

(** ** A concrete run *)

Definition toy_hmac : HmacSha256 := λ key data, take 32 (map (λ b, (b + 1) mod 256)%N data).
Definition toy_blake3 : Blake3 := λ s,
  map (λ c, Ascii.N_of_ascii c) (String.list_ascii_of_string s) ++ replicate 16 0%N.

Definition sample_ops : list ManagerOp :=
  [OpRegister 1 Public; OpRegister 2 Secret; OpRegister 1 Public; OpMint 1 "notes" {| bits := 143 |};
   OpCompose 0 2 {| bits := 3 |}; OpValidate 2 1 "notes" OpRead; OpValidate 2 1 "mail" OpRead;
   OpValidate 2 1 "notes" OpDelete].

Definition sample_manager : CapabilityManager :=
  match Manager_with_key (replicate 32 7%N) with Ok m => m | Err _ => Build_CapabilityManager State_empty ∅ 0 end.

Lemma manager_refines_witness :
  Manager_with_key (replicate 32 7%N) = Ok sample_manager ∧
  (∃ m', manager_run (Hm := toy_hmac) (Hb := toy_blake3) sample_manager (sample_ops ++ [OpRevoke 0; OpValidate 2 1 "notes" OpRead]) =
    Some (m', (spec_run (Hb := toy_blake3) spec_initial (sample_ops ++ [OpRevoke 0; OpValidate 2 1 "notes" OpRead])).2)) ∧
  (spec_run (Hb := toy_blake3) spec_initial (sample_ops ++ [OpRevoke 0; OpValidate 2 1 "notes" OpRead])).2 =
    [OutUnit (Ok ()); OutUnit (Ok ()); OutUnit (Err (Core "state: plugin 1 already exists"));
     OutId (Ok 0%N); OutId (Ok 1%N); OutUnit (Ok ()); OutUnit (Err (NamespaceDenied "mail"));
     OutUnit (Err (InsufficientRights "delete" "{read, write}")); OutUnit (Ok ());
     OutUnit (Err (CapabilityRevoked 1))].
Proof.
  assert (Manager_with_key (replicate 32 7%N) = Ok sample_manager) as Hk by done.
  split; [done|]. split; [|by vm_compute].
  exact (manager_refines (Hm := toy_hmac) (Hb := toy_blake3) (replicate 32 7%N) sample_manager _ Hk).
Defined.

Lemma check_request_authority_witness :
  ∃ m' outs, Manager_with_key (replicate 32 7%N) = Ok sample_manager ∧
  manager_run (Hm := toy_hmac) (Hb := toy_blake3) sample_manager sample_ops = Some (m', outs) ∧
  let s := (spec_run (Hb := toy_blake3) spec_initial sample_ops).1 in
  (check_request (Hm := toy_hmac) (Hb := toy_blake3) m' 2 1 "notes" OpRead = Some (Ok ()) ↔
   (∃ g root, s_grants s !! 1%N = Some g ∧ g_holder g = 2%N ∧
      authority s (resource_id (Hb := toy_blake3) "notes") Read 1 root)).
Proof.
  assert (Manager_with_key (replicate 32 7%N) = Ok sample_manager) as Hk by done.
  assert (is_Some (manager_run (Hm := toy_hmac) (Hb := toy_blake3) sample_manager sample_ops)) as Hr
    by (by vm_compute; eexists).
  destruct Hr as [[m' outs] Hr]. exists m', outs. split; [done|]. split; [done|].
  exact (check_request_authority (Hm := toy_hmac) (Hb := toy_blake3) (replicate 32 7%N)
           sample_manager m' sample_ops outs 2 1 "notes" OpRead Hk Hr).
Defined.
