(* ===== verification/DurableTypes.v ===== *)
(** khive-capability/src/durable: errors and limits (mod.rs) and the data of
    permission.rs, keys.rs and envelope.rs.  [typed] states what the Rust type
    of a value guarantees: integers within their width, strings that are valid
    UTF-8, arrays of their length. *)

From Stdlib Require Import NArith ZArith Ascii String.
From stdpp Require Import base tactics list numbers strings pretty.
From S2P Require Import Prelude RustStr.

(** ** Limits and errors (durable/mod.rs) *)

Definition MAX_RECORD_BYTES : N := (2 * 1024 * 1024)%N.
Definition MAX_COLLECTION_ITEMS : N := 256.
Definition ALIAS_START : N := N.shiftl 1 126.
Definition ALIAS_END : N := N.shiftl 1 127.
Definition CARRIER_VERSION : N := 1.
(** [usize] on the supported 64-bit targets. *)
Definition USIZE_MAX : N := (2 ^ 64 - 1)%N.

Inductive UnsupportedRight : Type :=
| OrdinaryNamespace
| ClaimTimePlatformBundleInM1
| InternalProducer.

Inductive EnvelopeError : Type :=
| InvalidInput (msg : string)
| OverLimit (field : string) (measured bound : N)
| RightNotSupported (r : UnsupportedRight)
| Reject (msg : string)
| Unavailable (msg : string)
| IdSpaceExhausted
| Native (msg : string).

#[export] Instance UnsupportedRight_EqDecision : EqDecision UnsupportedRight.
Proof. solve_decision. Defined.
#[export] Instance EnvelopeError_EqDecision : EqDecision EnvelopeError.
Proof. solve_decision. Defined.

Definition UnsupportedRight_display (e : UnsupportedRight) : string :=
  match e with
  | OrdinaryNamespace => "ordinary_namespace_right_not_supported_in_m1"
  | ClaimTimePlatformBundleInM1 => "claim_time_bundle_not_supported_in_m1"
  | InternalProducer => "internal_producer_not_public_registration"
  end.

Definition EnvelopeError_display (e : EnvelopeError) : string :=
  match e with
  | InvalidInput msg => "invalid input: " +:+ msg
  | OverLimit field measured bound =>
      field +:+ " has " +:+ pretty measured +:+ " bytes/items; maximum is " +:+ pretty bound
  | RightNotSupported r =>
      "right not supported by the M1 profile: " +:+ UnsupportedRight_display r
  | Reject msg => "cryptographic or structural verification rejected: " +:+ msg
  | Unavailable msg => "verification material unavailable: " +:+ msg
  | IdSpaceExhausted => "native local identifier capacity exhausted"
  | Native msg => "native delegation failed: " +:+ msg
  end.

Definition EnvelopeResult (T : Type) : Type := result T EnvelopeError.

Definition bound (field : string) (measured maximum : N) : EnvelopeResult () :=
  if (maximum <? measured)%N then Err (OverLimit field measured maximum) else Ok ().

(** [str::len] and [slice::len] *)
Definition text_len (value : string) : N := N.of_nat (str_len value).
Definition items {T} (values : list T) : N := N.of_nat (length values).

Definition nonempty (value : string) : EnvelopeResult () :=
  if (text_len value =? 0)%N then Err (InvalidInput "empty exact text")
  else bound "text" (text_len value) MAX_RECORD_BYTES.

Definition collection {T} (values : list T) (required : bool) : EnvelopeResult () :=
  check? bound "collection" (items values) MAX_COLLECTION_ITEMS in
  if required && (items values =? 0)%N then Err (InvalidInput "empty collection") else Ok ().

(** ** Machine types *)

(** An unsigned integer of [w] bytes. *)
Definition uint (w : nat) : Type := N.
Abbreviation u8 := (uint 1).
Abbreviation u16 := (uint 2).
Abbreviation u32 := (uint 4).
Abbreviation u64 := (uint 8).
Abbreviation u128 := (uint 16).
Definition i64 : Type := Z.
(** [[u8; 32]] *)
Definition bytes32 : Type := list N.
(** [uuid::Uuid], as its 128 bits. *)
Definition Uuid : Type := N.

#[global] Typeclasses Opaque uint i64 bytes32 Uuid.
Bind Scope N_scope with uint Uuid.
Bind Scope Z_scope with i64.

#[export] Instance uint_EqDecision w : EqDecision (uint w) := N.eq_dec.
#[export] Instance i64_EqDecision : EqDecision i64 := Z.eq_dec.
#[export] Instance Uuid_EqDecision : EqDecision Uuid := N.eq_dec.
#[export] Instance bytes32_EqDecision : EqDecision bytes32 := list_eq_dec (A:=N).

Definition is_byte (x : N) : Prop := (x < 256)%N.
#[export] Instance is_byte_Decision x : Decision (is_byte x).
Proof. unfold is_byte. apply _. Defined.

(** The bytes of a [str]. *)
Definition as_bytes (s : string) : list N := N_of_ascii <$> to_bytes s.

(** *** [core::str::from_utf8] *)

Definition within (lo hi x : N) : bool := ((lo <=? x) && (x <=? hi))%N.
Definition utf8_cont (x : N) : bool := within 128 191 x.

(** Whether [b0 b1] can start a sequence of three, of four bytes. *)
Definition utf8_start3 (b0 b1 : N) : bool :=
  ((b0 =? 224)%N && within 160 191 b1) || (within 225 236 b0 && utf8_cont b1) ||
  ((b0 =? 237)%N && within 128 159 b1) || (within 238 239 b0 && utf8_cont b1).
Definition utf8_start4 (b0 b1 : N) : bool :=
  ((b0 =? 240)%N && within 144 191 b1) || (within 241 243 b0 && utf8_cont b1) ||
  ((b0 =? 244)%N && within 128 143 b1).

Fixpoint utf8_valid (b : list N) : bool :=
  match b with
  | [] => true
  | b0 :: r0 =>
      if (b0 <? 128)%N then utf8_valid r0
      else match r0 with
      | [] => false
      | b1 :: r1 =>
          if within 194 223 b0 && utf8_cont b1 then utf8_valid r1
          else match r1 with
          | [] => false
          | b2 :: r2 =>
              if utf8_start3 b0 b1 && utf8_cont b2 then utf8_valid r2
              else match r2 with
              | [] => false
              | b3 :: r3 => utf8_start4 b0 b1 && utf8_cont b2 && utf8_cont b3 && utf8_valid r3
              end
          end
      end
  end.

Definition from_utf8 (b : list N) : option string :=
  if utf8_valid b then Some (of_bytes (ascii_of_N <$> b)) else None.

(** ** The invariant of a Rust type *)

Class Typed (T : Type) := typed : T → Prop.

#[export] Instance uint_Typed w : Typed (uint w) := λ x, (x < 256 ^ N.of_nat w)%N.
#[export] Instance i64_Typed : Typed i64 := λ x, (- 2 ^ 63 ≤ x < 2 ^ 63)%Z.
#[export] Instance bytes32_Typed : Typed bytes32 := λ x, length x = 32 ∧ Forall is_byte x.
#[export] Instance Uuid_Typed : Typed Uuid := λ x, (x < 256 ^ 16)%N.
#[export] Instance bool_Typed : Typed bool := λ _, True.
#[export] Instance string_Typed : Typed string := λ s, utf8_valid (as_bytes s) = true.
#[export] Instance option_Typed {T} `{Typed T} : Typed (option T) :=
  λ o, match o with Some x => typed x | None => True end.
#[export] Instance list_Typed {T} `{Typed T} : Typed (list T) := λ l, Forall typed l.

(** ** Data (durable/permission.rs, keys.rs, envelope.rs) *)

Record Timestamp := { as_micros : u64 }.
#[export] Instance Timestamp_EqDecision : EqDecision Timestamp.
Proof. solve_decision. Defined.
#[export] Instance Timestamp_Typed : Typed Timestamp := λ x, typed (as_micros x).

Record Principal := {
  principal_kind : string;
  principal_id : string;
  principal_leg : option string
}.
#[export] Instance Principal_EqDecision : EqDecision Principal.
Proof. solve_decision. Defined.
#[export] Instance Principal_Typed : Typed Principal := λ x,
  typed (principal_kind x) ∧ typed (principal_id x) ∧ typed (principal_leg x).

Record ContractDigest := { digest_bytes : bytes32 }.
#[export] Instance ContractDigest_EqDecision : EqDecision ContractDigest.
Proof. solve_decision. Defined.
#[export] Instance ContractDigest_Typed : Typed ContractDigest := λ x, typed (digest_bytes x).

Record ContractRef := {
  contract_name : string;
  contract_version : u32;
  contract_digest : ContractDigest
}.
#[export] Instance ContractRef_EqDecision : EqDecision ContractRef.
Proof. solve_decision. Defined.
#[export] Instance ContractRef_Typed : Typed ContractRef := λ x,
  typed (contract_name x) ∧ typed (contract_version x) ∧ typed (contract_digest x).

Record ExactBytes := { exact_bytes : list N }.
#[export] Instance ExactBytes_EqDecision : EqDecision ExactBytes.
Proof. solve_decision. Defined.
#[export] Instance ExactBytes_Typed : Typed ExactBytes := λ x, Forall is_byte (exact_bytes x).

Record RepositoryIdentity := {
  forge : string;
  immutable_id : ExactBytes
}.
#[export] Instance RepositoryIdentity_EqDecision : EqDecision RepositoryIdentity.
Proof. solve_decision. Defined.
#[export] Instance RepositoryIdentity_Typed : Typed RepositoryIdentity := λ x,
  typed (forge x) ∧ typed (immutable_id x).

Record Validity := {
  not_before : Timestamp;
  expires_at : option Timestamp
}.
#[export] Instance Validity_EqDecision : EqDecision Validity.
Proof. solve_decision. Defined.
#[export] Instance Validity_Typed : Typed Validity := λ x,
  typed (not_before x) ∧ typed (expires_at x).

Record RunRef := { run_uuid : Uuid }.
#[export] Instance RunRef_EqDecision : EqDecision RunRef.
Proof. solve_decision. Defined.
#[export] Instance RunRef_Typed : Typed RunRef := λ x, typed (run_uuid x).

Record PhaseVisit := {
  visit_phase_id : string;
  round : i64
}.
#[export] Instance PhaseVisit_EqDecision : EqDecision PhaseVisit.
Proof. solve_decision. Defined.
#[export] Instance PhaseVisit_Typed : Typed PhaseVisit := λ x,
  typed (visit_phase_id x) ∧ typed (round x).

Record ActionOccurrence := {
  visit : PhaseVisit;
  occurrence_action_name : string
}.
#[export] Instance ActionOccurrence_EqDecision : EqDecision ActionOccurrence.
Proof. solve_decision. Defined.
#[export] Instance ActionOccurrence_Typed : Typed ActionOccurrence := λ x,
  typed (visit x) ∧ typed (occurrence_action_name x).

Inductive ArgumentValue : Type :=
| ArgString (v : string)
| ArgInteger (v : i64)
| ArgDuration (v : i64)
| ArgBool (v : bool)
| ArgWord (v : string).
#[export] Instance ArgumentValue_EqDecision : EqDecision ArgumentValue.
Proof. solve_decision. Defined.
#[export] Instance ArgumentValue_Typed : Typed ArgumentValue := λ x,
  match x with
  | ArgString v => typed v
  | ArgInteger v => typed v
  | ArgDuration v => typed v
  | ArgBool v => typed v
  | ArgWord v => typed v
  end.

Inductive ArgumentType : Type :=
| TypeString
| TypeInteger
| TypeDuration
| TypeBool
| TypeWord.
#[export] Instance ArgumentType_EqDecision : EqDecision ArgumentType.
Proof. solve_decision. Defined.
#[export] Instance ArgumentType_Typed : Typed ArgumentType := λ x, True.

Record ArgumentBinding := {
  arg_name : string;
  arg_value : ArgumentValue
}.
#[export] Instance ArgumentBinding_EqDecision : EqDecision ArgumentBinding.
Proof. solve_decision. Defined.
#[export] Instance ArgumentBinding_Typed : Typed ArgumentBinding := λ x,
  typed (arg_name x) ∧ typed (arg_value x).

Record ExactArguments := { exact_arguments : list ArgumentBinding }.
#[export] Instance ExactArguments_EqDecision : EqDecision ExactArguments.
Proof. solve_decision. Defined.
#[export] Instance ExactArguments_Typed : Typed ExactArguments := λ x, typed (exact_arguments x).

Record ArgumentSpec := {
  spec_name : string;
  spec_kind : ArgumentType
}.
#[export] Instance ArgumentSpec_EqDecision : EqDecision ArgumentSpec.
Proof. solve_decision. Defined.
#[export] Instance ArgumentSpec_Typed : Typed ArgumentSpec := λ x,
  typed (spec_name x) ∧ typed (spec_kind x).

Inductive ProducerClass : Type :=
| Actor
| ClassInstrument
| Platform
| System.
#[export] Instance ProducerClass_EqDecision : EqDecision ProducerClass.
Proof. solve_decision. Defined.
#[export] Instance ProducerClass_Typed : Typed ProducerClass := λ x, True.

Inductive SubmissionChannel : Type :=
| Observe
| Sample
| Internal.
#[export] Instance SubmissionChannel_EqDecision : EqDecision SubmissionChannel.
Proof. solve_decision. Defined.
#[export] Instance SubmissionChannel_Typed : Typed SubmissionChannel := λ x, True.

Inductive SubjectSelector : Type :=
| Exact (v : list ExactBytes)
| Repositories (v : list RepositoryIdentity)
| AllSubjectsOfKind.
#[export] Instance SubjectSelector_EqDecision : EqDecision SubjectSelector.
Proof. solve_decision. Defined.
#[export] Instance SubjectSelector_Typed : Typed SubjectSelector := λ x,
  match x with
  | Exact v => typed v
  | Repositories v => typed v
  | AllSubjectsOfKind => True
  end.

Record SubjectScope := {
  subject_kind : ContractRef;
  selector : SubjectSelector
}.
#[export] Instance SubjectScope_EqDecision : EqDecision SubjectScope.
Proof. solve_decision. Defined.
#[export] Instance SubjectScope_Typed : Typed SubjectScope := λ x,
  typed (subject_kind x) ∧ typed (selector x).

Record SourceBinding := {
  source_contract_ref : ContractRef;
  source_identities : list ExactBytes;
  source_arguments : list ExactArguments
}.
#[export] Instance SourceBinding_EqDecision : EqDecision SourceBinding.
Proof. solve_decision. Defined.
#[export] Instance SourceBinding_Typed : Typed SourceBinding := λ x,
  typed (source_contract_ref x) ∧ typed (source_identities x) ∧ typed (source_arguments x).

Inductive ReportingBinding : Type :=
| Role (v : string)
| Initiator (v : Principal).
#[export] Instance ReportingBinding_EqDecision : EqDecision ReportingBinding.
Proof. solve_decision. Defined.
#[export] Instance ReportingBinding_Typed : Typed ReportingBinding := λ x,
  match x with
  | Role v => typed v
  | Initiator v => typed v
  end.

Inductive SubmissionBinding : Type :=
| ActorReport (run : RunRef) (definition : ContractDigest) (role : string)
| ActionResult (run : RunRef) (definition : ContractDigest) (occurrence : ActionOccurrence)
    (reporter : ReportingBinding) (arguments : ExactArguments)
| Instrument (v : SourceBinding)
| PlatformRelay (source : SourceBinding) (response_contract : ContractRef)
| ClaimTimePlatformBundle.
#[export] Instance SubmissionBinding_EqDecision : EqDecision SubmissionBinding.
Proof. solve_decision. Defined.
#[export] Instance SubmissionBinding_Typed : Typed SubmissionBinding := λ x,
  match x with
  | ActorReport run definition role => typed run ∧ typed definition ∧ typed role
  | ActionResult run definition occurrence reporter arguments =>
      typed run ∧ typed definition ∧ typed occurrence ∧ typed reporter ∧ typed arguments
  | Instrument v => typed v
  | PlatformRelay source response_contract => typed source ∧ typed response_contract
  | ClaimTimePlatformBundle => True
  end.

Record ObservationPermission := {
  policy_domain : string;
  entry : ContractRef;
  producer_class : ProducerClass;
  channel : SubmissionChannel;
  subject : SubjectScope;
  binding : SubmissionBinding
}.
#[export] Instance ObservationPermission_EqDecision : EqDecision ObservationPermission.
Proof. solve_decision. Defined.
#[export] Instance ObservationPermission_Typed : Typed ObservationPermission := λ x,
  typed (policy_domain x) ∧ typed (entry x) ∧ typed (producer_class x) ∧ typed (channel x) ∧
  typed (subject x) ∧ typed (binding x).

Record ObservationScope := {
  permissions : list ObservationPermission
}.
#[export] Instance ObservationScope_EqDecision : EqDecision ObservationScope.
Proof. solve_decision. Defined.
#[export] Instance ObservationScope_Typed : Typed ObservationScope := λ x, typed (permissions x).

Inductive AdminTarget : Type :=
| TargetRead
| TargetCreate
| TargetWrite
| TargetDelete
| TargetSend
| TargetRecordObservation (v : ObservationScope).
#[export] Instance AdminTarget_EqDecision : EqDecision AdminTarget.
Proof. solve_decision. Defined.
#[export] Instance AdminTarget_Typed : Typed AdminTarget := λ x,
  match x with
  | TargetRead => True
  | TargetCreate => True
  | TargetWrite => True
  | TargetDelete => True
  | TargetSend => True
  | TargetRecordObservation v => typed v
  end.

Record AdminScope := {
  admin_namespace : string;
  admin_target : AdminTarget
}.
#[export] Instance AdminScope_EqDecision : EqDecision AdminScope.
Proof. solve_decision. Defined.
#[export] Instance AdminScope_Typed : Typed AdminScope := λ x,
  typed (admin_namespace x) ∧ typed (admin_target x).

Inductive RightSpec : Type :=
| RightRead
| RightCreate
| RightWrite
| RightDelete
| RightSend
| RecordObservation (v : ObservationScope)
| GrantAdmin (v : AdminScope).
#[export] Instance RightSpec_EqDecision : EqDecision RightSpec.
Proof. solve_decision. Defined.
#[export] Instance RightSpec_Typed : Typed RightSpec := λ x,
  match x with
  | RightRead => True
  | RightCreate => True
  | RightWrite => True
  | RightDelete => True
  | RightSend => True
  | RecordObservation v => typed v
  | GrantAdmin v => typed v
  end.

Record KeyRef := {
  key_id : string;
  generation : u64
}.
#[export] Instance KeyRef_EqDecision : EqDecision KeyRef.
Proof. solve_decision. Defined.
#[export] Instance KeyRef_Typed : Typed KeyRef := λ x, typed (key_id x) ∧ typed (generation x).

Inductive IssuanceAssurance : Type :=
| ConfiguredLocal.
#[export] Instance IssuanceAssurance_EqDecision : EqDecision IssuanceAssurance.
Proof. solve_decision. Defined.
#[export] Instance IssuanceAssurance_Typed : Typed IssuanceAssurance := λ x, True.

Inductive CreationOperation : Type :=
| OpGrant
| OpImport.
#[export] Instance CreationOperation_EqDecision : EqDecision CreationOperation.
Proof. solve_decision. Defined.
#[export] Instance CreationOperation_Typed : Typed CreationOperation := λ x, True.

Record EnvelopeDraft := {
  grant_id : Uuid;
  store_id : Uuid;
  epoch_id : Uuid;
  root_anchor_id : Uuid;
  issuer : Principal;
  grantee : Principal;
  grant_namespace : string;
  grant_rights : list RightSpec;
  grant_validity : Validity;
  created_at : Timestamp;
  assurance : IssuanceAssurance;
  operation : CreationOperation;
  action_id : Uuid;
  configuration_source : option string;
  issuance_id : Uuid;
  grant_key : KeyRef
}.
#[export] Instance EnvelopeDraft_EqDecision : EqDecision EnvelopeDraft.
Proof. solve_decision. Defined.
#[export] Instance EnvelopeDraft_Typed : Typed EnvelopeDraft := λ x,
  typed (grant_id x) ∧ typed (store_id x) ∧ typed (epoch_id x) ∧ typed (root_anchor_id x) ∧
  typed (issuer x) ∧ typed (grantee x) ∧ typed (grant_namespace x) ∧ typed (grant_rights x) ∧
  typed (grant_validity x) ∧ typed (created_at x) ∧ typed (assurance x) ∧ typed (operation x) ∧
  typed (action_id x) ∧ typed (configuration_source x) ∧ typed (issuance_id x) ∧
  typed (grant_key x).

Record NativeCapability := {
  native_id : u128;
  native_holder : u128;
  native_target : u128;
  native_rights : u16;
  native_parent : option u128;
  native_epoch : u64;
  native_signature : bytes32
}.
#[export] Instance NativeCapability_EqDecision : EqDecision NativeCapability.
Proof. solve_decision. Defined.
#[export] Instance NativeCapability_Typed : Typed NativeCapability := λ x,
  typed (native_id x) ∧ typed (native_holder x) ∧ typed (native_target x) ∧
  typed (native_rights x) ∧ typed (native_parent x) ∧ typed (native_epoch x) ∧
  typed (native_signature x).

Inductive ParentBinding : Type :=
| ParentGrant (parent_grant_id : Uuid) (parent_issuance_id : Uuid) (original_local_id : u128)
    (alias_id : u128) (native_digest : ContractDigest)
| BootstrapSlot (slot : string) (manifest_digest : ContractDigest) (anchor_local_id : u128).
#[export] Instance ParentBinding_EqDecision : EqDecision ParentBinding.
Proof. solve_decision. Defined.
#[export] Instance ParentBinding_Typed : Typed ParentBinding := λ x,
  match x with
  | ParentGrant parent_grant_id parent_issuance_id original_local_id alias_id native_digest =>
      typed parent_grant_id ∧ typed parent_issuance_id ∧ typed original_local_id ∧
      typed alias_id ∧ typed native_digest
  | BootstrapSlot slot manifest_digest anchor_local_id =>
      typed slot ∧ typed manifest_digest ∧ typed anchor_local_id
  end.

Record IssuanceContext := {
  context_id : Uuid;
  context_holder : u128;
  holder_principal : Principal;
  context_target : u128;
  context_namespace : string
}.
#[export] Instance IssuanceContext_EqDecision : EqDecision IssuanceContext.
Proof. solve_decision. Defined.
#[export] Instance IssuanceContext_Typed : Typed IssuanceContext := λ x,
  typed (context_id x) ∧ typed (context_holder x) ∧ typed (holder_principal x) ∧
  typed (context_target x) ∧ typed (context_namespace x).

Record GrantBody := {
  schema_version : u16;
  profile_version : u16;
  carrier_version : u16;
  grant : EnvelopeDraft;
  body_parent : ParentBinding;
  body_context : IssuanceContext;
  body_native : NativeCapability
}.
#[export] Instance GrantBody_EqDecision : EqDecision GrantBody.
Proof. solve_decision. Defined.
#[export] Instance GrantBody_Typed : Typed GrantBody := λ x,
  typed (schema_version x) ∧ typed (profile_version x) ∧ typed (carrier_version x) ∧
  typed (grant x) ∧ typed (body_parent x) ∧ typed (body_context x) ∧ typed (body_native x).

(** ** Orders: the keys of the catalog's and the key history's [BTreeMap]s *)

(** Slices are ordered lexicographically. *)
Fixpoint list_cmp (a b : list N) : comparison :=
  match a, b with
  | [], [] => Eq
  | [], _ :: _ => Lt
  | _ :: _, [] => Gt
  | x :: a', y :: b' => then_cmp (cmp x y) (list_cmp a' b')
  end.
#[export] Instance bytes_Ord : Ord (list N) := list_cmp.

#[export] Instance bytes_OrdLaws : OrdLaws (list N).
Proof.
  split.
  - intros a. induction a as [|x a IH]; [done|]. unfold cmp in *; simpl. by rewrite cmp_refl.
  - intros a. induction a as [|x a IH]; intros [|y b] E; try done.
    unfold cmp in E; simpl in E. destruct (cmp x y) eqn:Hxy; try done.
    apply cmp_eq in Hxy as ->. f_equal. by apply IH.
  - intros a. induction a as [|x a IH]; intros [|y b]; try done.
    unfold cmp in *; simpl. rewrite (cmp_flip x y), IH. by destruct (cmp x y).
  - intros a. induction a as [|x a IH]; intros [|y b] [|z c]; try done.
    change (then_cmp (cmp x y) (cmp a b) = Lt → then_cmp (cmp y z) (cmp b c) = Lt →
            then_cmp (cmp x z) (cmp a c) = Lt).
    unfold then_cmp. destruct (cmp x y) eqn:Exy; intros Hab Hbc; try done.
    + apply cmp_eq in Exy as ->. destruct (cmp y z); try done. by apply (IH b).
    + destruct (cmp y z) eqn:Eyz; try done.
      * apply cmp_eq in Eyz as <-. by rewrite Exy.
      * by rewrite (cmp_trans _ _ _ Exy Eyz).
Qed.

(** An order defined through an injective key inherits the laws. *)
Lemma ord_by {A B} `{OrdLaws B} `{Ord A} (f : A → B) :
  (∀ x y, f x = f y → x = y) → (∀ x y, cmp x y = cmp (f x) (f y)) → OrdLaws A.
Proof.
  intros Hinj E. split; intros *; rewrite !E.
  - apply cmp_refl.
  - intros ?%cmp_eq. by apply Hinj.
  - apply cmp_flip.
  - apply cmp_trans.
Qed.

(** [derive(PartialOrd, Ord)]: fields in their order. *)
#[export] Instance ContractDigest_Ord : Ord ContractDigest :=
  λ a b, cmp (T:=list N) (digest_bytes a) (digest_bytes b).
#[export] Instance ContractRef_Ord : Ord ContractRef := λ a b,
  then_cmp (cmp (contract_name a) (contract_name b))
    (then_cmp (cmp (T:=N) (contract_version a) (contract_version b))
       (cmp (contract_digest a) (contract_digest b))).
#[export] Instance RunRef_Ord : Ord RunRef := λ a b, cmp (T:=N) (run_uuid a) (run_uuid b).
#[export] Instance KeyRef_Ord : Ord KeyRef := λ a b,
  then_cmp (cmp (key_id a) (key_id b)) (cmp (T:=N) (generation a) (generation b)).
#[export] Instance ExactBytes_Ord : Ord ExactBytes := λ a b, cmp (exact_bytes a) (exact_bytes b).

#[export] Instance ContractDigest_OrdLaws : OrdLaws ContractDigest.
Proof. apply (ord_by (B:=list N) digest_bytes); [|done]. intros [] []; simpl; congruence. Qed.
#[export] Instance ContractRef_OrdLaws : OrdLaws ContractRef.
Proof.
  apply (ord_by (B:=string * (N * ContractDigest))
           (λ x, (contract_name x, (contract_version x, contract_digest x)))); [|done].
  intros [] []; simpl; congruence.
Qed.
#[export] Instance RunRef_OrdLaws : OrdLaws RunRef.
Proof. apply (ord_by (B:=N) run_uuid); [|done]. intros [] []; simpl; congruence. Qed.
#[export] Instance KeyRef_OrdLaws : OrdLaws KeyRef.
Proof.
  apply (ord_by (B:=string * N) (λ x, (key_id x, generation x))); [|done].
  intros [] []; simpl; congruence.
Qed.
#[export] Instance ExactBytes_OrdLaws : OrdLaws ExactBytes.
Proof. apply (ord_by (B:=list N) exact_bytes); [|done]. intros [] []; simpl; congruence. Qed.

(** ** Facts *)

Lemma bound_Ok field m x : bound field m x = Ok () ↔ (m ≤ x)%N.
Proof. unfold bound. destruct (N.ltb_spec x m); split; intros; [done|lia|done|done]. Qed.

Lemma as_bytes_inj s t : as_bytes s = as_bytes t → s = t.
Proof.
  intros E. apply to_bytes_inj. revert E. unfold as_bytes. generalize (to_bytes s), (to_bytes t).
  intros a. induction a as [|x a IH]; intros [|y b] E; simpl in E; simplify_eq; [done|].
  f_equal; [|by apply IH].
  by rewrite <-(ascii_N_embedding x), <-(ascii_N_embedding y), H.
Qed.

Lemma as_bytes_byte s : Forall is_byte (as_bytes s).
Proof.
  unfold as_bytes. apply Forall_fmap, Forall_true. intros c. unfold is_byte. simpl.
  apply N_ascii_bounded.
Qed.

Lemma length_as_bytes s : N.of_nat (length (as_bytes s)) = text_len s.
Proof. unfold text_len, str_len, as_bytes. by rewrite length_fmap. Qed.

Lemma from_utf8_as_bytes (s : string) : typed s → from_utf8 (as_bytes s) = Some s.
Proof.
  intros Hs. unfold from_utf8. rewrite Hs. f_equal. rewrite <-(of_to_bytes s) at 2. f_equal.
  unfold as_bytes. rewrite <-list_fmap_compose. rewrite <-(list_fmap_id (to_bytes s)) at 2.
  apply list_fmap_ext. intros ? c _. apply ascii_N_embedding.
Qed.

Lemma from_utf8_Some b (s : string) :
  Forall is_byte b → from_utf8 b = Some s → typed s ∧ as_bytes s = b.
Proof.
  intros Hb. unfold from_utf8. destruct (utf8_valid b) eqn:E; [|done]. intros [= <-].
  assert (as_bytes (of_bytes (ascii_of_N <$> b)) = b) as Hs.
  { unfold as_bytes. rewrite to_of_bytes, <-list_fmap_compose.
    rewrite <-(list_fmap_id b) at 2. apply list_fmap_ext. intros i x Hx. simpl.
    apply N_ascii_embedding. by eapply (Forall_lookup_1 is_byte). }
  split; [|done]. unfold typed, string_Typed. by rewrite Hs.
Qed.
