(* ===== verification/DurableCodec.v ===== *)
(** khive-capability/src/durable/codec.rs: the private v1 wire format.  A value
    of trait [Wire] writes itself into an [Encoder] and is read from a
    [Decoder]; the two are records, as in the source, and the instances follow
    the [impl]s and the macros [integer!], [structure!], [wrapper!] and
    [unit_enum!] field by field. *)

From Stdlib Require Import NArith ZArith String.
From stdpp Require Import base tactics list numbers strings.
From S2P Require Import Prelude RustStr LionRights DurableTypes.

(** ** Encoder and decoder *)

(** [bytes] is [None] while only the length is measured. *)
Record Encoder := { enc_bytes : option (list N); enc_length : N }.
Record Decoder := { dec_bytes : list N; cursor : N }.

Definition writer : Type := Encoder → EnvelopeResult Encoder.
Definition reader (T : Type) : Type := Decoder → EnvelopeResult (T * Decoder).

(** [a?; b] and the final [Ok(())]. *)
Definition w_then (a b : writer) : writer := λ out, let? out := a out in b out.
Infix ">>" := w_then (at level 60, right associativity) : khive_scope.
Definition done : writer := λ out, Ok out.

(** [usize::checked_add] *)
Definition usize_checked_add (a b : N) : option N :=
  if (a + b <=? USIZE_MAX)%N then Some (a + b)%N else None.

Definition put (b : list N) : writer := λ out,
  let? length := ok_or (usize_checked_add (enc_length out) (items b))
                   (OverLimit "encoded body" USIZE_MAX MAX_RECORD_BYTES) in
  Ok {| enc_bytes := (λ o, o ++ b) <$> enc_bytes out; enc_length := length |}.

(** [bytes.get(cursor..end)] with the cursor moved past it. *)
Definition dec_take (length : N) : reader (list N) := λ d,
  let? last := ok_or (usize_checked_add (cursor d) length) (Reject "wire length overflow") in
  if (last <=? items (dec_bytes d))%N then
    Ok (take (N.to_nat length) (drop (N.to_nat (cursor d)) (dec_bytes d)),
        {| dec_bytes := dec_bytes d; cursor := last |})
  else Err (Reject "truncated wire value").

(** ** The trait *)

Class Wire (T : Type) := { write : T → writer; read : reader T }.

Definition bad_tag : EnvelopeError := Reject "unknown wire tag".

Definition be_encode (w : nat) (x : N) : list N := rev (to_le_bytes w x).
Definition be_decode (l : list N) : N := from_le_bytes (rev l).

(** [integer!]; the slice taken has the width of the integer. *)
#[export] Instance uint_Wire w : Wire (uint w) := {|
  write self := put (be_encode w self);
  read d :=
    let? (b, d) := dec_take (N.of_nat w) d in
    if decide (length b = w) then Ok (be_decode b, d) else Err (Reject "integer width")
|}.

(** Two's complement. *)
Definition i64_to_u64 (z : Z) : N := Z.to_N (z mod 2 ^ 64).
Definition u64_to_i64 (n : N) : Z :=
  (if Z.of_N n <? 2 ^ 63 then Z.of_N n else Z.of_N n - 2 ^ 64)%Z.
#[export] Instance i64_Wire : Wire i64 := {|
  write self := put (be_encode 8 (i64_to_u64 self));
  read d :=
    let? (b, d) := dec_take 8 d in
    if decide (length b = 8) then Ok (u64_to_i64 (be_decode b), d)
    else Err (Reject "integer width")
|}.

(** Integers written and read at a named width. *)
Definition write_u8 (x : u8) : writer := write x.
Definition read_u8 : reader u8 := read.
Definition write_u32 (x : u32) : writer := write x.
Definition read_u32 : reader u32 := read.
(** [as u32] *)
Definition as_u32 (x : N) : N := (x mod 2 ^ 32)%N.

(** [Encoder::blob] and [Decoder::blob] *)
Definition put_blob (b : list N) : writer := λ out,
  check? bound "byte string" (items b) MAX_RECORD_BYTES in
  (write_u32 (as_u32 (items b)) >> put b) out.
Definition take_blob : reader (list N) := λ d,
  let? (length, d) := read_u32 d in
  check? bound "byte string" length MAX_RECORD_BYTES in
  dec_take length d.

#[export] Instance bool_Wire : Wire bool := {|
  write (self : bool) := write_u8 (if self then 1 else 0);
  read d :=
    let? (tag, d) := read_u8 d in
    match tag with
    | 0 => Ok (false, d)
    | 1 => Ok (true, d)
    | _ => Err bad_tag
    end%N
|}.

#[export] Instance string_Wire : Wire string := {|
  write self := put_blob (as_bytes self);
  read d :=
    let? (b, d) := take_blob d in
    let? s := ok_or (from_utf8 b) (Reject "invalid UTF-8") in
    Ok (s, d)
|}.

#[export] Instance ExactBytes_Wire : Wire ExactBytes := {|
  write self := put_blob (exact_bytes self);
  read d := let? (b, d) := take_blob d in Ok ({| exact_bytes := b |}, d)
|}.

(** [Vec<T>]: the loops of its [write] and [read]. *)
Section vec.
Context {T : Type} `{Wire T}.

Fixpoint write_items (values : list T) : writer :=
  match values with
  | [] => done
  | value :: values' => write value >> write_items values'
  end.

Fixpoint read_items (n : nat) : reader (list T) := λ d,
  match n with
  | O => Ok ([], d)
  | S n' =>
      let? (value, d) := read d in
      let? (values, d) := read_items n' d in
      Ok (value :: values, d)
  end.
End vec.

#[export] Instance list_Wire {T} `{Wire T} : Wire (list T) := {|
  write self := λ out,
    check? bound "collection" (items self) MAX_COLLECTION_ITEMS in
    (write_u32 (as_u32 (items self)) >> write_items self) out;
  read d :=
    let? (length, d) := read_u32 d in
    check? bound "collection" length MAX_COLLECTION_ITEMS in
    read_items (N.to_nat length) d
|}.

#[export] Instance option_Wire {T} `{Wire T} : Wire (option T) := {|
  write self :=
    match self with
    | None => write_u8 0
    | Some v => write_u8 1 >> write v
    end;
  read d :=
    let? (tag, d) := read_u8 d in
    match tag with
    | 0 => Ok (None, d)
    | 1 => let? (v, d) := read d in Ok (Some v, d)
    | _ => Err bad_tag
    end%N
|}.

#[export] Instance bytes32_Wire : Wire bytes32 := {|
  write self := put self;
  read d :=
    let? (b, d) := dec_take 32 d in
    if decide (length b = 32) then Ok (b, d) else Err (Reject "digest width")
|}.

(** [as_bytes] and [from_slice]: the sixteen bytes in network order. *)
#[export] Instance Uuid_Wire : Wire Uuid := {|
  write self := put (be_encode 16 self);
  read d :=
    let? (b, d) := dec_take 16 d in
    if decide (length b = 16) then Ok (be_decode b, d) else Err (Reject "UUID width")
|}.

#[export] Instance Timestamp_Wire : Wire Timestamp := {|
  write self := write (as_micros self);
  read d := let? (v, d) := read d in Ok ({| as_micros := v |}, d)
|}.

#[export] Instance ContractDigest_Wire : Wire ContractDigest := {|
  write self := write_u8 1 >> write (digest_bytes self);
  read d :=
    let? (tag, d) := read_u8 d in
    if negb (tag =? 1)%N then Err bad_tag
    else let? (b, d) := read d in Ok ({| digest_bytes := b |}, d)
|}.

#[export] Instance Principal_Wire : Wire Principal := {|
  write self :=
    write (principal_kind self) >> write (principal_id self) >> write (principal_leg self) >>
    done;
  read d :=
    let? (v_kind, d) := read d in
    let? (v_id, d) := read d in
    let? (v_leg, d) := read d in
    Ok ({| principal_kind := v_kind; principal_id := v_id; principal_leg := v_leg |}, d)
|}.

#[export] Instance ContractRef_Wire : Wire ContractRef := {|
  write self :=
    write (contract_name self) >> write (contract_version self) >>
    write (contract_digest self) >> done;
  read d :=
    let? (v_name, d) := read d in
    let? (v_version, d) := read d in
    let? (v_digest, d) := read d in
    Ok ({|
      contract_name := v_name; contract_version := v_version; contract_digest := v_digest |}, d)
|}.

#[export] Instance RepositoryIdentity_Wire : Wire RepositoryIdentity := {|
  write self :=
    write (forge self) >> write (immutable_id self) >> done;
  read d :=
    let? (v_forge, d) := read d in
    let? (v_immutable_id, d) := read d in
    Ok ({| forge := v_forge; immutable_id := v_immutable_id |}, d)
|}.

#[export] Instance Validity_Wire : Wire Validity := {|
  write self :=
    write (not_before self) >> write (expires_at self) >> done;
  read d :=
    let? (v_not_before, d) := read d in
    let? (v_expires_at, d) := read d in
    Ok ({| not_before := v_not_before; expires_at := v_expires_at |}, d)
|}.

#[export] Instance RunRef_Wire : Wire RunRef := {|
  write self := write (run_uuid self);
  read d := let? (v, d) := read d in Ok ({| run_uuid := v |}, d)
|}.

#[export] Instance PhaseVisit_Wire : Wire PhaseVisit := {|
  write self :=
    write (visit_phase_id self) >> write (round self) >> done;
  read d :=
    let? (v_phase_id, d) := read d in
    let? (v_round, d) := read d in
    Ok ({| visit_phase_id := v_phase_id; round := v_round |}, d)
|}.

#[export] Instance ActionOccurrence_Wire : Wire ActionOccurrence := {|
  write self :=
    write (visit self) >> write (occurrence_action_name self) >> done;
  read d :=
    let? (v_visit, d) := read d in
    let? (v_action_name, d) := read d in
    Ok ({| visit := v_visit; occurrence_action_name := v_action_name |}, d)
|}.

#[export] Instance ArgumentValue_Wire : Wire ArgumentValue := {|
  write self :=
    match self with
    | ArgString v => write_u8 0 >> write v
    | ArgInteger v => write_u8 1 >> write v
    | ArgDuration v => write_u8 2 >> write v
    | ArgBool v => write_u8 3 >> write v
    | ArgWord v => write_u8 4 >> write v
    end;
  read d :=
    let? (tag, d) := read_u8 d in
    match tag with
    | 0 => let? (v, d) := read d in Ok (ArgString v, d)
    | 1 => let? (v, d) := read d in Ok (ArgInteger v, d)
    | 2 => let? (v, d) := read d in Ok (ArgDuration v, d)
    | 3 => let? (v, d) := read d in Ok (ArgBool v, d)
    | 4 => let? (v, d) := read d in Ok (ArgWord v, d)
    | _ => Err bad_tag
    end%N
|}.

#[export] Instance ArgumentType_Wire : Wire ArgumentType := {|
  write self :=
    match self with
    | TypeString => write_u8 0
    | TypeInteger => write_u8 1
    | TypeDuration => write_u8 2
    | TypeBool => write_u8 3
    | TypeWord => write_u8 4
    end;
  read d :=
    let? (tag, d) := read_u8 d in
    match tag with
    | 0 => Ok (TypeString, d)
    | 1 => Ok (TypeInteger, d)
    | 2 => Ok (TypeDuration, d)
    | 3 => Ok (TypeBool, d)
    | 4 => Ok (TypeWord, d)
    | _ => Err bad_tag
    end%N
|}.

#[export] Instance ArgumentBinding_Wire : Wire ArgumentBinding := {|
  write self :=
    write (arg_name self) >> write (arg_value self) >> done;
  read d :=
    let? (v_name, d) := read d in
    let? (v_value, d) := read d in
    Ok ({| arg_name := v_name; arg_value := v_value |}, d)
|}.

#[export] Instance ExactArguments_Wire : Wire ExactArguments := {|
  write self := write (exact_arguments self);
  read d := let? (v, d) := read d in Ok ({| exact_arguments := v |}, d)
|}.

#[export] Instance ArgumentSpec_Wire : Wire ArgumentSpec := {|
  write self :=
    write (spec_name self) >> write (spec_kind self) >> done;
  read d :=
    let? (v_name, d) := read d in
    let? (v_kind, d) := read d in
    Ok ({| spec_name := v_name; spec_kind := v_kind |}, d)
|}.

#[export] Instance ProducerClass_Wire : Wire ProducerClass := {|
  write self :=
    match self with
    | Actor => write_u8 0
    | ClassInstrument => write_u8 1
    | Platform => write_u8 2
    | System => write_u8 3
    end;
  read d :=
    let? (tag, d) := read_u8 d in
    match tag with
    | 0 => Ok (Actor, d)
    | 1 => Ok (ClassInstrument, d)
    | 2 => Ok (Platform, d)
    | 3 => Ok (System, d)
    | _ => Err bad_tag
    end%N
|}.

#[export] Instance SubmissionChannel_Wire : Wire SubmissionChannel := {|
  write self :=
    match self with
    | Observe => write_u8 0
    | Sample => write_u8 1
    | Internal => write_u8 2
    end;
  read d :=
    let? (tag, d) := read_u8 d in
    match tag with
    | 0 => Ok (Observe, d)
    | 1 => Ok (Sample, d)
    | 2 => Ok (Internal, d)
    | _ => Err bad_tag
    end%N
|}.

#[export] Instance SubjectSelector_Wire : Wire SubjectSelector := {|
  write self :=
    match self with
    | Exact v => write_u8 0 >> write v
    | Repositories v => write_u8 1 >> write v
    | AllSubjectsOfKind => write_u8 2
    end;
  read d :=
    let? (tag, d) := read_u8 d in
    match tag with
    | 0 => let? (v, d) := read d in Ok (Exact v, d)
    | 1 => let? (v, d) := read d in Ok (Repositories v, d)
    | 2 => Ok (AllSubjectsOfKind, d)
    | _ => Err bad_tag
    end%N
|}.

#[export] Instance SubjectScope_Wire : Wire SubjectScope := {|
  write self :=
    write (subject_kind self) >> write (selector self) >> done;
  read d :=
    let? (v_kind, d) := read d in
    let? (v_selector, d) := read d in
    Ok ({| subject_kind := v_kind; selector := v_selector |}, d)
|}.

#[export] Instance SourceBinding_Wire : Wire SourceBinding := {|
  write self :=
    write (source_contract_ref self) >> write (source_identities self) >>
    write (source_arguments self) >> done;
  read d :=
    let? (v_contract, d) := read d in
    let? (v_identities, d) := read d in
    let? (v_arguments, d) := read d in
    Ok ({|
      source_contract_ref := v_contract; source_identities := v_identities;
      source_arguments := v_arguments |}, d)
|}.

#[export] Instance ReportingBinding_Wire : Wire ReportingBinding := {|
  write self :=
    match self with
    | Role v => write_u8 0 >> write v
    | Initiator v => write_u8 1 >> write v
    end;
  read d :=
    let? (tag, d) := read_u8 d in
    match tag with
    | 0 => let? (v, d) := read d in Ok (Role v, d)
    | 1 => let? (v, d) := read d in Ok (Initiator v, d)
    | _ => Err bad_tag
    end%N
|}.

#[export] Instance SubmissionBinding_Wire : Wire SubmissionBinding := {|
  write self :=
    match self with
    | ActorReport run definition role => write_u8 0 >> write run >> write definition >> write role
    | ActionResult run definition occurrence reporter arguments =>
        write_u8 1 >> write run >> write definition >> write occurrence >> write reporter >>
        write arguments
    | Instrument v => write_u8 2 >> write v
    | PlatformRelay source response_contract =>
        write_u8 3 >> write source >> write response_contract
    | ClaimTimePlatformBundle => write_u8 4
    end;
  read d :=
    let? (tag, d) := read_u8 d in
    match tag with
    | 0 =>
        let? (run, d) := read d in
        let? (definition, d) := read d in
        let? (role, d) := read d in
        Ok (ActorReport run definition role, d)
    | 1 =>
        let? (run, d) := read d in
        let? (definition, d) := read d in
        let? (occurrence, d) := read d in
        let? (reporter, d) := read d in
        let? (arguments, d) := read d in
        Ok (ActionResult run definition occurrence reporter arguments, d)
    | 2 => let? (v, d) := read d in Ok (Instrument v, d)
    | 3 =>
        let? (source, d) := read d in
        let? (response_contract, d) := read d in
        Ok (PlatformRelay source response_contract, d)
    | 4 => Ok (ClaimTimePlatformBundle, d)
    | _ => Err bad_tag
    end%N
|}.

#[export] Instance ObservationPermission_Wire : Wire ObservationPermission := {|
  write self :=
    write (policy_domain self) >> write (entry self) >> write (producer_class self) >>
    write (channel self) >> write (subject self) >> write (binding self) >> done;
  read d :=
    let? (v_policy_domain, d) := read d in
    let? (v_entry, d) := read d in
    let? (v_producer_class, d) := read d in
    let? (v_channel, d) := read d in
    let? (v_subject, d) := read d in
    let? (v_binding, d) := read d in
    Ok ({|
      policy_domain := v_policy_domain; entry := v_entry; producer_class := v_producer_class;
      channel := v_channel; subject := v_subject; binding := v_binding |}, d)
|}.

#[export] Instance ObservationScope_Wire : Wire ObservationScope := {|
  write self :=
    write (permissions self) >> done;
  read d :=
    let? (v_permissions, d) := read d in
    Ok ({| permissions := v_permissions |}, d)
|}.

#[export] Instance AdminTarget_Wire : Wire AdminTarget := {|
  write self :=
    match self with
    | TargetRead => write_u8 0
    | TargetCreate => write_u8 1
    | TargetWrite => write_u8 2
    | TargetDelete => write_u8 3
    | TargetSend => write_u8 4
    | TargetRecordObservation v => write_u8 5 >> write v
    end;
  read d :=
    let? (tag, d) := read_u8 d in
    match tag with
    | 0 => Ok (TargetRead, d)
    | 1 => Ok (TargetCreate, d)
    | 2 => Ok (TargetWrite, d)
    | 3 => Ok (TargetDelete, d)
    | 4 => Ok (TargetSend, d)
    | 5 => let? (v, d) := read d in Ok (TargetRecordObservation v, d)
    | _ => Err bad_tag
    end%N
|}.

#[export] Instance AdminScope_Wire : Wire AdminScope := {|
  write self :=
    write (admin_namespace self) >> write (admin_target self) >> done;
  read d :=
    let? (v_namespace, d) := read d in
    let? (v_target, d) := read d in
    Ok ({| admin_namespace := v_namespace; admin_target := v_target |}, d)
|}.

#[export] Instance RightSpec_Wire : Wire RightSpec := {|
  write self :=
    match self with
    | RightRead => write_u8 0
    | RightCreate => write_u8 1
    | RightWrite => write_u8 2
    | RightDelete => write_u8 3
    | RightSend => write_u8 4
    | RecordObservation v => write_u8 5 >> write v
    | GrantAdmin v => write_u8 6 >> write v
    end;
  read d :=
    let? (tag, d) := read_u8 d in
    match tag with
    | 0 => Ok (RightRead, d)
    | 1 => Ok (RightCreate, d)
    | 2 => Ok (RightWrite, d)
    | 3 => Ok (RightDelete, d)
    | 4 => Ok (RightSend, d)
    | 5 => let? (v, d) := read d in Ok (RecordObservation v, d)
    | 6 => let? (v, d) := read d in Ok (GrantAdmin v, d)
    | _ => Err bad_tag
    end%N
|}.

#[export] Instance KeyRef_Wire : Wire KeyRef := {|
  write self :=
    write (key_id self) >> write (generation self) >> done;
  read d :=
    let? (v_id, d) := read d in
    let? (v_generation, d) := read d in
    Ok ({| key_id := v_id; generation := v_generation |}, d)
|}.

#[export] Instance IssuanceAssurance_Wire : Wire IssuanceAssurance := {|
  write self :=
    match self with
    | ConfiguredLocal => write_u8 0
    end;
  read d :=
    let? (tag, d) := read_u8 d in
    match tag with
    | 0 => Ok (ConfiguredLocal, d)
    | _ => Err bad_tag
    end%N
|}.

#[export] Instance CreationOperation_Wire : Wire CreationOperation := {|
  write self :=
    match self with
    | OpGrant => write_u8 0
    | OpImport => write_u8 1
    end;
  read d :=
    let? (tag, d) := read_u8 d in
    match tag with
    | 0 => Ok (OpGrant, d)
    | 1 => Ok (OpImport, d)
    | _ => Err bad_tag
    end%N
|}.

#[export] Instance EnvelopeDraft_Wire : Wire EnvelopeDraft := {|
  write self :=
    write (grant_id self) >> write (store_id self) >> write (epoch_id self) >>
    write (root_anchor_id self) >> write (issuer self) >> write (grantee self) >>
    write (grant_namespace self) >> write (grant_rights self) >> write (grant_validity self) >>
    write (created_at self) >> write (assurance self) >> write (operation self) >>
    write (action_id self) >> write (configuration_source self) >> write (issuance_id self) >>
    write (grant_key self) >> done;
  read d :=
    let? (v_id, d) := read d in
    let? (v_store_id, d) := read d in
    let? (v_epoch_id, d) := read d in
    let? (v_root_anchor_id, d) := read d in
    let? (v_issuer, d) := read d in
    let? (v_grantee, d) := read d in
    let? (v_namespace, d) := read d in
    let? (v_rights, d) := read d in
    let? (v_validity, d) := read d in
    let? (v_created_at, d) := read d in
    let? (v_assurance, d) := read d in
    let? (v_operation, d) := read d in
    let? (v_action_id, d) := read d in
    let? (v_configuration_source, d) := read d in
    let? (v_issuance_id, d) := read d in
    let? (v_key, d) := read d in
    Ok ({|
      grant_id := v_id; store_id := v_store_id; epoch_id := v_epoch_id;
      root_anchor_id := v_root_anchor_id; issuer := v_issuer; grantee := v_grantee;
      grant_namespace := v_namespace; grant_rights := v_rights; grant_validity := v_validity;
      created_at := v_created_at; assurance := v_assurance; operation := v_operation;
      action_id := v_action_id; configuration_source := v_configuration_source;
      issuance_id := v_issuance_id; grant_key := v_key |}, d)
|}.

#[export] Instance NativeCapability_Wire : Wire NativeCapability := {|
  write self :=
    write (native_id self) >> write (native_holder self) >> write (native_target self) >>
    write (native_rights self) >> write (native_parent self) >> write (native_epoch self) >>
    write (native_signature self) >> done;
  read d :=
    let? (v_id, d) := read d in
    let? (v_holder, d) := read d in
    let? (v_target, d) := read d in
    let? (v_rights, d) := read d in
    let? (v_parent, d) := read d in
    let? (v_epoch, d) := read d in
    let? (v_signature, d) := read d in
    Ok ({|
      native_id := v_id; native_holder := v_holder; native_target := v_target;
      native_rights := v_rights; native_parent := v_parent; native_epoch := v_epoch;
      native_signature := v_signature |}, d)
|}.

#[export] Instance ParentBinding_Wire : Wire ParentBinding := {|
  write self :=
    match self with
    | ParentGrant parent_grant_id parent_issuance_id original_local_id alias_id native_digest =>
        write_u8 0 >> write parent_grant_id >> write parent_issuance_id >>
        write original_local_id >> write alias_id >> write native_digest
    | BootstrapSlot slot manifest_digest anchor_local_id =>
        write_u8 1 >> write slot >> write manifest_digest >> write anchor_local_id
    end;
  read d :=
    let? (tag, d) := read_u8 d in
    match tag with
    | 0 =>
        let? (parent_grant_id, d) := read d in
        let? (parent_issuance_id, d) := read d in
        let? (original_local_id, d) := read d in
        let? (alias_id, d) := read d in
        let? (native_digest, d) := read d in
        Ok (ParentGrant parent_grant_id parent_issuance_id original_local_id alias_id native_digest, d)
    | 1 =>
        let? (slot, d) := read d in
        let? (manifest_digest, d) := read d in
        let? (anchor_local_id, d) := read d in
        Ok (BootstrapSlot slot manifest_digest anchor_local_id, d)
    | _ => Err bad_tag
    end%N
|}.

#[export] Instance IssuanceContext_Wire : Wire IssuanceContext := {|
  write self :=
    write (context_id self) >> write (context_holder self) >> write (holder_principal self) >>
    write (context_target self) >> write (context_namespace self) >> done;
  read d :=
    let? (v_id, d) := read d in
    let? (v_holder, d) := read d in
    let? (v_holder_principal, d) := read d in
    let? (v_target, d) := read d in
    let? (v_namespace, d) := read d in
    Ok ({|
      context_id := v_id; context_holder := v_holder; holder_principal := v_holder_principal;
      context_target := v_target; context_namespace := v_namespace |}, d)
|}.

#[export] Instance GrantBody_Wire : Wire GrantBody := {|
  write self :=
    write (schema_version self) >> write (profile_version self) >>
    write (carrier_version self) >> write (grant self) >> write (body_parent self) >>
    write (body_context self) >> write (body_native self) >> done;
  read d :=
    let? (v_schema_version, d) := read d in
    let? (v_profile_version, d) := read d in
    let? (v_carrier_version, d) := read d in
    let? (v_grant, d) := read d in
    let? (v_parent, d) := read d in
    let? (v_context, d) := read d in
    let? (v_native, d) := read d in
    Ok ({|
      schema_version := v_schema_version; profile_version := v_profile_version;
      carrier_version := v_carrier_version; grant := v_grant; body_parent := v_parent;
      body_context := v_context; body_native := v_native |}, d)
|}.

(** ** Whole values *)

Definition encoded_len {T} `{Wire T} (value : T) : EnvelopeResult N :=
  let? out := write value {| enc_bytes := None; enc_length := 0 |} in
  Ok (enc_length out).

Definition encode {T} `{Wire T} (value : T) : EnvelopeResult (list N) :=
  let? length := encoded_len value in
  check? bound "encoded body" length MAX_RECORD_BYTES in
  let? out := write value {| enc_bytes := Some []; enc_length := 0 |} in
  ok_or (enc_bytes out) (Reject "missing encoding buffer").

Definition decode {T} `{Wire T} (b : list N) : EnvelopeResult T :=
  check? bound "encoded body" (items b) MAX_RECORD_BYTES in
  let? (value, d) := read {| dec_bytes := b; cursor := 0 |} in
  if negb (cursor d =? items b)%N then Err (Reject "trailing wire bytes") else Ok value.

(** [sorted_unique] (durable/mod.rs): strictly increasing encodings. *)
Fixpoint sorted_from {T} `{Wire T} (previous : option (list N)) (values : list T)
    : EnvelopeResult () :=
  match values with
  | [] => Ok ()
  | value :: values' =>
      let? encoded := encode value in
      if match previous with
         | Some p => match cmp p encoded with Lt => false | _ => true end
         | None => false
         end
      then Err (InvalidInput "collection must be sorted and unique")
      else sorted_from (Some encoded) values'
  end.

Definition sorted_unique {T} `{Wire T} (values : list T) (required : bool) : EnvelopeResult () :=
  check? collection values required in sorted_from None values.
