(* ===== verification/DurableCodecLaws.v ===== *)
(** The laws of the wire format of DurableCodec, as a type class: a value that
    can be written is read back, and a successful read has consumed exactly the
    bytes its value is written as.  Every instance of [Wire] has them; together
    they make [encode] and [decode] inverse partial functions. *)

From Stdlib Require Import NArith ZArith String.
From stdpp Require Import base tactics list numbers strings.
From S2P Require Import Prelude RustStr LionVec LionRights DurableTypes DurableCodec.

(** ** Integers *)

Lemma from_be_to_be w x : (x < 256 ^ N.of_nat w)%N → be_decode (be_encode w x) = x.
Proof. intros Hx. unfold be_decode, be_encode. rewrite rev_involutive. by apply from_to_le_bytes. Qed.

Lemma be_bytes_byte w x : Forall is_byte (be_encode w x).
Proof.
  unfold be_encode. apply Forall_rev. revert x. induction w as [|w IH]; intros x; simpl; [constructor|].
  constructor; [by apply N.mod_lt|apply IH].
Qed.

Lemma length_to_be w x : length (be_encode w x) = w.
Proof. unfold be_encode. by rewrite length_rev, length_to_le_bytes. Qed.

Lemma le_bytes_of b :
  Forall is_byte b →
  (from_le_bytes b < 256 ^ N.of_nat (length b))%N ∧ to_le_bytes (length b) (from_le_bytes b) = b.
Proof.
  induction 1 as [|x b Hx Hb [IH1 IH2]]; [done|]. unfold is_byte in Hx.
  cbn [length from_le_bytes to_le_bytes]. rewrite Nat2N.inj_succ, N.pow_succ_r'. split; [lia|].
  replace (x + 256 * from_le_bytes b)%N with (x + from_le_bytes b * 256)%N by lia.
  rewrite N.Div0.mod_add, N.mod_small, N.div_add, N.div_small by lia. by rewrite N.add_0_l, IH2.
Qed.

Lemma to_be_from_be b :
  Forall is_byte b →
  (be_decode b < 256 ^ N.of_nat (length b))%N ∧ be_encode (length b) (be_decode b) = b.
Proof.
  intros Hb. unfold be_decode, be_encode. rewrite <-(length_rev b).
  destruct (le_bytes_of (rev b)) as [H1 H2]; [by rewrite rev_alt, <-Forall_reverse in *; apply Forall_reverse|].
  split; [done|]. by rewrite H2, rev_involutive.
Qed.

Lemma i64_of_u64 (z : i64) : typed z → u64_to_i64 (i64_to_u64 z) = z ∧ (i64_to_u64 z < 256 ^ 8)%N.
Proof.
  unfold typed, i64_Typed, u64_to_i64, i64_to_u64. intros Hz.
  pose proof (Z.mod_pos_bound z (2 ^ 64)). rewrite Z2N.id by lia. split; [|lia].
  destruct (Z.ltb_spec (z mod 2 ^ 64) (2 ^ 63)); destruct (Z.ltb_spec z 0).
  - assert (z mod 2 ^ 64 = z + 2 ^ 64)%Z; [|lia].
    rewrite <-(Z.mod_small (z + 2 ^ 64) (2 ^ 64)) by lia. rewrite <-(Z_mod_plus_full z 1). f_equal.
  - apply Z.mod_small. lia.
  - assert (z mod 2 ^ 64 = z + 2 ^ 64)%Z; [|lia].
    rewrite <-(Z.mod_small (z + 2 ^ 64) (2 ^ 64)) by lia. rewrite <-(Z_mod_plus_full z 1). f_equal.
  - rewrite Z.mod_small in * by lia. lia.
Qed.

Lemma u64_of_i64 n : (n < 256 ^ 8)%N → typed (T:=i64) (u64_to_i64 n) ∧ i64_to_u64 (u64_to_i64 n) = n.
Proof.
  intros Hn. unfold typed, i64_Typed, u64_to_i64, i64_to_u64. change (256 ^ 8)%N with (2 ^ 64)%N in Hn.
  destruct (Z.ltb_spec (Z.of_N n) (2 ^ 63)).
  - split; [lia|]. rewrite Z.mod_small by lia. lia.
  - split; [lia|]. rewrite <-(Z_mod_plus_full _ 1), Z.mod_small by lia. lia.
Qed.

(** ** Writers *)

(** The writer's effect on every encoder is to append [b]. *)
Definition emits (w : writer) (b : list N) : Prop :=
  (items b ≤ USIZE_MAX)%N ∧ ∀ out, (enc_length out ≤ USIZE_MAX)%N → w out = put b out.

(** A writer that succeeds once always appends the same bytes. *)
Definition regular (w : writer) : Prop :=
  ∀ out out', (enc_length out ≤ USIZE_MAX)%N → w out = Ok out' →
    (enc_length out' ≤ USIZE_MAX)%N ∧ ∃ b, emits w b.

Lemma items_app (a b : list N) : items (a ++ b) = (items a + items b)%N.
Proof. unfold items. rewrite length_app. lia. Qed.
Lemma items_nil : items (T:=N) [] = 0%N.
Proof. done. Qed.

Lemma usize_add_Some a b c : usize_checked_add a b = Some c ↔ (a + b ≤ USIZE_MAX)%N ∧ c = (a + b)%N.
Proof.
  unfold usize_checked_add. destruct (N.leb_spec (a + b) USIZE_MAX); split; naive_solver lia.
Qed.

Lemma put_Ok b out out' :
  put b out = Ok out' ↔
  (enc_length out + items b ≤ USIZE_MAX)%N ∧
  out' = {| enc_bytes := (λ o, o ++ b) <$> enc_bytes out; enc_length := enc_length out + items b |}.
Proof.
  unfold put. destruct (usize_checked_add _ _) as [c|] eqn:E; simpl.
  - apply usize_add_Some in E as [? ->]. naive_solver.
  - split; [done|]. intros [Hle _]. exfalso.
    assert (usize_checked_add (enc_length out) (items b) = Some (enc_length out + items b)%N)
      by (by apply usize_add_Some). congruence.
Qed.

Lemma put_app a b : ∀ out, (put a >> put b) out = put (a ++ b) out.
Proof.
  intros [o l]. unfold w_then, put, usize_checked_add. rewrite items_app. simpl.
  destruct (N.leb_spec (l + items a) USIZE_MAX); destruct (N.leb_spec (l + (items a + items b)) USIZE_MAX);
    simpl; rewrite <-?N.add_assoc; try lia.
  - rewrite (proj2 (N.leb_le _ _)) by done. simpl. destruct o; simpl; by rewrite ?(assoc_L (++)).
  - rewrite (proj2 (N.leb_gt _ _)) by done. done.
  - done.
Qed.

Lemma emits_put b : (items b ≤ USIZE_MAX)%N → emits (put b) b.
Proof. by split. Qed.

Lemma emits_done : emits done [].
Proof.
  split; [done|]. intros [o l] Hl. symmetry. apply put_Ok. cbn in *. rewrite items_nil, N.add_0_r.
  split; [done|]. f_equal. destruct o; cbn; by rewrite ?app_nil_r.
Qed.

Lemma emits_unique w a b : emits w a → emits w b → a = b.
Proof.
  intros [La Ha] [Lb Hb]. set (o := {| enc_bytes := Some []; enc_length := 0 |}).
  assert (put a o = put b o) as E by (by rewrite <-Ha, <-Hb).
  rewrite (proj2 (put_Ok a o _)), (proj2 (put_Ok b o _)) in E by (split; [simpl; lia|done]).
  by simplify_eq/=.
Qed.

Lemma emits_then w1 w2 b1 b2 :
  emits w1 b1 → emits w2 b2 → (items (b1 ++ b2) ≤ USIZE_MAX)%N → emits (w1 >> w2) (b1 ++ b2).
Proof.
  intros [L1 H1] [L2 H2] Hl. split; [done|]. intros out Hout.
  rewrite <-put_app. unfold w_then. rewrite H1 by done.
  destruct (put b1 out) as [out'|e] eqn:E; [|done]. simpl.
  apply H2. apply put_Ok in E as [? ->]. done.
Qed.

Lemma regular_put b : regular (put b).
Proof.
  intros out out' Hout (? & ->)%put_Ok. split; [done|]. exists b. split; [lia|done].
Qed.

Lemma regular_done : regular done.
Proof. intros out out' Hout [= <-]. split; [done|]. exists []. apply emits_done. Qed.

(** A successful sequence is the concatenation of its parts. *)
Lemma then_split w1 w2 out out' :
  regular w1 → regular w2 → (enc_length out ≤ USIZE_MAX)%N → (w1 >> w2) out = Ok out' →
  ∃ b1 b2, emits w1 b1 ∧ emits w2 b2 ∧ put (b1 ++ b2) out = Ok out'.
Proof.
  intros R1 R2 Hout H. unfold w_then in H. apply res_bind_Ok in H as (o1 & H1 & H2).
  destruct (R1 _ _ Hout H1) as (Ho1 & b1 & E1). destruct (R2 _ _ Ho1 H2) as (Ho2 & b2 & E2).
  exists b1, b2. split_and!; [done..|]. rewrite <-put_app. unfold w_then.
  destruct E1 as [_ E1], E2 as [_ E2]. rewrite <-E1, H1 by done. simpl. by rewrite <-E2.
Qed.

Lemma regular_then w1 w2 : regular w1 → regular w2 → regular (w1 >> w2).
Proof.
  intros R1 R2 out out' Hout H. destruct (then_split _ _ _ _ R1 R2 Hout H) as (b1 & b2 & E1 & E2 & E).
  apply put_Ok in E as [Hl ->]. split; [done|]. exists (b1 ++ b2). apply emits_then; [done..|lia].
Qed.

Lemma emits_split w1 w2 b :
  regular w1 → regular w2 → emits (w1 >> w2) b → ∃ b1 b2, emits w1 b1 ∧ emits w2 b2 ∧ b = b1 ++ b2.
Proof.
  intros R1 R2 E. set (o := {| enc_bytes := Some []; enc_length := 0 |}).
  assert (∃ o', (w1 >> w2) o = Ok o') as [o' Ho'].
  { eexists. destruct E as [Hl ->]; [|done]. apply put_Ok. split; [simpl; lia|done]. }
  destruct (then_split w1 w2 o o' R1 R2) as (b1 & b2 & E1 & E2 & E12); [done|done|].
  exists b1, b2. split_and!; [done..|]. apply (emits_unique (w1 >> w2)); [done|].
  apply emits_then; [done..|]. apply put_Ok in E12 as [Hl _]. simpl in Hl. lia.
Qed.

(** A guard in front of a writer. *)
Lemma regular_check (c : EnvelopeResult ()) w : regular w → regular (λ out, check? c in w out).
Proof.
  intros R out out' Hout H. apply res_bind_Ok in H as ([] & -> & H).
  destruct (R _ _ Hout H) as (? & b & Hb). by eauto.
Qed.

Lemma emits_check (c : EnvelopeResult ()) w b :
  emits (λ out, check? c in w out) b ↔ c = Ok () ∧ emits w b.
Proof.
  split.
  - intros [Hl E]. destruct c as [[]|e]; [by split|]. exfalso.
    specialize (E {| enc_bytes := Some []; enc_length := 0 |}). simpl in E.
    rewrite (proj2 (put_Ok _ _ _)) in E by (split; [simpl; lia|done]). by discriminate E.
  - intros [-> E]. exact E.
Qed.

(** ** Readers *)

Record dec_ok (d : Decoder) : Prop := {
  dec_byte : Forall is_byte (dec_bytes d);
  dec_size : (items (dec_bytes d) ≤ USIZE_MAX)%N;
  dec_cursor : (cursor d ≤ items (dec_bytes d))%N
}.

Definition remaining (d : Decoder) : list N := drop (N.to_nat (cursor d)) (dec_bytes d).
Definition advanced (d : Decoder) (b : list N) : Decoder :=
  {| dec_bytes := dec_bytes d; cursor := (cursor d + items b)%N |}.

(** The unread input of [d] starts with [b]. *)
Definition ahead (d : Decoder) (b : list N) : Prop :=
  (items (dec_bytes d) ≤ USIZE_MAX)%N ∧ ∃ pre rest,
    dec_bytes d = pre ++ b ++ rest ∧ cursor d = items pre.

Lemma ahead_app d a b : ahead d (a ++ b) ↔ ahead d a ∧ ahead (advanced d a) b.
Proof.
  split.
  - intros [Hl (pre & rest & E & Hc)]. split.
    + split; [done|]. exists pre, (b ++ rest). by rewrite E, <-(assoc_L (++)).
    + split; [done|]. exists (pre ++ a), rest. simpl. by rewrite E, items_app, Hc, <-!(assoc_L (++)).
  - intros [[Hl (pre & rest & E & Hc)] [_ (pre' & rest' & E' & Hc')]]. split; [done|].
    simpl in *. exists pre, rest'. split; [|done].
    assert (pre' = pre ++ a ∧ b ++ rest' = rest) as [-> <-].
    { rewrite E in E'. rewrite (assoc_L (++)) in E'. apply app_inj_1 in E'; [naive_solver|].
      rewrite length_app. unfold items in *. lia. }
    by rewrite E, <-(assoc_L (++)).
Qed.

Lemma advanced_app d a b : advanced (advanced d a) b = advanced d (a ++ b).
Proof. unfold advanced. simpl. by rewrite items_app, N.add_assoc. Qed.
Lemma advanced_nil d : advanced d [] = d.
Proof. unfold advanced. destruct d. simpl. by rewrite items_nil, N.add_0_r. Qed.

Lemma advanced_ok d b : dec_ok d → ahead d b → dec_ok (advanced d b).
Proof.
  intros [] [_ (pre & rest & E & Hc)]. split; simpl; [done..|].
  rewrite E, Hc, !items_app. lia.
Qed.

Lemma ahead_size d b : ahead d b → (items b ≤ USIZE_MAX)%N.
Proof. intros [Hl (pre & rest & E & _)]. rewrite E, !items_app in Hl. lia. Qed.

Lemma ahead_byte d b : dec_ok d → ahead d b → Forall is_byte b.
Proof. intros [Hb _ _] [_ (pre & rest & E & _)]. rewrite E, !Forall_app in Hb. naive_solver. Qed.

(** Taking [n] bytes. *)
Lemma take_ahead d b n : ahead d b → n = items b → dec_take n d = Ok (b, advanced d b).
Proof.
  intros [Hl (pre & rest & E & Hc)] ->. unfold dec_take.
  assert (cursor d + items b ≤ items (dec_bytes d))%N as Hle by (rewrite E, Hc, !items_app; lia).
  rewrite (proj2 (usize_add_Some _ _ _)) by (split; [lia|done]). simpl.
  rewrite (proj2 (N.leb_le _ _)) by done. repeat f_equal. rewrite E, Hc. unfold items.
  rewrite !Nat2N.id. by rewrite drop_app_length, take_app_length.
Qed.

Lemma take_inv d n b d' :
  dec_ok d → dec_take n d = Ok (b, d') → ahead d b ∧ d' = advanced d b ∧ items b = n.
Proof.
  intros [Hb Hs Hc] H. unfold dec_take in H. apply res_bind_Ok in H as (x & Hx & H).
  destruct (usize_checked_add _ _) as [c|] eqn:E; simpl in Hx; simplify_eq.
  apply usize_add_Some in E as [Hle ->]. destruct (N.leb_spec (cursor d + n) (items (dec_bytes d))); [|done].
  simplify_eq. set (b := take _ _).
  assert (items b = n) as Hn. { subst b. unfold items in *. rewrite length_take, length_drop. lia. }
  split_and!; [|unfold advanced; by rewrite Hn|done]. split; [done|].
  exists (take (N.to_nat (cursor d)) (dec_bytes d)), (drop (N.to_nat n) (drop (N.to_nat (cursor d)) (dec_bytes d))).
  subst b. rewrite !take_drop. split; [done|]. unfold items in *. rewrite length_take. lia.
Qed.

(** ** The laws *)

(** [r] returns [v] from any input that starts with [b]. *)
Definition reads_back {T} (r : reader T) (v : T) (b : list N) : Prop :=
  ∀ d, ahead d b → r d = Ok (v, advanced d b).

(** What a successful read has consumed is what [w] writes for its value. *)
Definition canonical {T} (r : reader T) (w : T → writer) (P : T → Prop) : Prop :=
  ∀ d v d', dec_ok d → r d = Ok (v, d') →
    ∃ b, ahead d b ∧ d' = advanced d b ∧ P v ∧ emits (w v) b.

Class WireLaws (T : Type) `{Wire T, Typed T} := {
  write_regular (v : T) : regular (write v);
  read_write (v : T) b : typed v → emits (write v) b → reads_back read v b;
  read_canonical : canonical (T:=T) read write typed;
  write_byte (v : T) b : typed v → emits (write v) b → Forall is_byte b
}.

Lemma reads_back_bind {A B} (r : reader A) (k : A → reader B) a v b1 b2 :
  reads_back r a b1 → reads_back (k a) v b2 →
  reads_back (λ d, let? (x, d) := r d in k x d) v (b1 ++ b2).
Proof.
  intros H1 H2 d [A1 A2]%ahead_app. rewrite H1 by done. simpl. rewrite H2 by done.
  by rewrite advanced_app.
Qed.

Lemma reads_back_ret {A} (v : A) : reads_back (λ d, Ok (v, d)) v [].
Proof. intros d _. by rewrite advanced_nil. Qed.

Lemma reads_back_tag {A B} (r : reader A) (k : A → reader B) a v b :
  reads_back r a b → k a = (λ d, Ok (v, d)) → reads_back (λ d, let? (x, d) := r d in k x d) v b.
Proof. intros H Hk d Ha. rewrite H by done. simpl. by rewrite Hk. Qed.

Lemma reads_back_last {A B} (r : reader A) (f : A → B) a b :
  reads_back r a b → reads_back (λ d, let? (x, d) := r d in Ok (f x, d)) (f a) b.
Proof. intros H d Ha. by rewrite H. Qed.

(** *** Composing canonical reads *)

Section canon.
Context {T : Type} (P : Prop).

Definition reads_from (d d' : Decoder) (w : writer) : Prop :=
  ∃ b, ahead d b ∧ d' = advanced d b ∧ P ∧ emits w b.

Lemma reads_from_then d d' w1 w2 a :
  ahead d a → emits w1 a → reads_from (advanced d a) d' w2 → reads_from d d' (w1 >> w2).
Proof.
  intros Ha E1 (b & Hb & -> & HP & E2). exists (a ++ b).
  assert (ahead d (a ++ b)) as Hab by (by apply ahead_app). rewrite advanced_app.
  split_and!; [done..|]. apply emits_then; [done..|]. by eapply ahead_size.
Qed.

Lemma reads_from_done d : dec_ok d → P → reads_from d d done.
Proof.
  intros [] HP. exists []. rewrite advanced_nil. split_and!; [|done..|apply emits_done].
  split; [done|]. exists (take (N.to_nat (cursor d)) (dec_bytes d)), (remaining d). simpl.
  unfold remaining. rewrite take_drop. split; [done|]. unfold items in *. rewrite length_take. lia.
Qed.

Lemma reads_from_last d w a : ahead d a → emits w a → P → reads_from d (advanced d a) w.
Proof. intros. by exists a. Qed.
End canon.

(** *** Automation *)

#[global] Arguments typed {T _} : simpl never.

(** Open [Ht : typed v] by the instance of its type. *)
Ltac open_typed Ht := red in Ht; red in Ht; cbv beta iota in Ht; destruct_and? Ht.

(** Unfold the outermost instance of [write] or [read] in the goal or in [H]. *)
Ltac open_wire :=
  match goal with
  | |- context [@write ?T ?I ?v] =>
      let I' := eval red in I in change (@write T I v) with (@write T I' v); cbn beta iota delta [write]
  | |- context [@read ?T ?I] =>
      let I' := eval red in I in change (@read T I) with (@read T I'); cbn beta iota delta [read]
  end;
  cbv beta iota delta [write_u8 read_u8].
Ltac open_wire_in H :=
  match type of H with
  | context [@write ?T ?I ?v] =>
      let I' := eval red in I in
      change (@write T I v) with (@write T I' v) in H; cbn beta iota delta [write] in H
  | context [@read ?T ?I] =>
      let I' := eval red in I in
      change (@read T I) with (@read T I') in H; cbn beta iota delta [read] in H
  end;
  cbv beta iota delta [write_u8 read_u8] in H.

Ltac solve_regular :=
  repeat first [apply regular_done | apply write_regular | apply regular_put
               | apply regular_check | apply regular_then].

(** Split [emits (w1 >> w2 >> ...) b] into its parts. *)
Ltac split_emits :=
  repeat match goal with
  | E : emits (_ >> _) _ |- _ =>
      let b1 := fresh "b" in let b2 := fresh "b" in let E1 := fresh "E" in let E2 := fresh "E" in
      apply emits_split in E as (b1 & b2 & E1 & E2 & ->); [|solve [solve_regular]..]
  | E : emits done _ |- _ => apply (emits_unique _ _ _ emits_done) in E as <-
  end.

Ltac solve_reads_back :=
  cbv beta iota;
  first [ apply reads_back_ret
        | apply reads_back_last; apply read_write; [done|eassumption]
        | eapply reads_back_tag; [apply read_write; [|eassumption]; done|reflexivity]
        | eapply reads_back_bind; [apply read_write; [|eassumption]; done|]; solve_reads_back ].

(** Invert a successful chain of reads. *)
Ltac split_reads H :=
  repeat match type of H with
  | res_bind (read ?d) _ = Ok _ =>
      let x := fresh "x" in let d1 := fresh "d" in let R := fresh "R" in
      let b := fresh "b" in let A := fresh "A" in let t := fresh "Ht" in let E := fresh "E" in
      apply res_bind_Ok in H as ([x d1] & R & H);
      apply read_canonical in R as (b & A & -> & t & E); [|done];
      pose proof (advanced_ok _ _ ltac:(eassumption) A)
  | (match ?x with _ => _ end) = Ok _ => is_var x; destruct x
  | Err _ = Ok _ => discriminate H
  end.

Ltac solve_reads_from :=
  repeat (eapply reads_from_then; [eassumption|eassumption|]);
  first [by apply reads_from_done | by apply reads_from_last].

Ltac solve_bytes :=
  repeat (apply Forall_app; split);
  first [apply Forall_nil_2
        | match goal with E : emits (@write ?T _ ?v) ?b |- Forall is_byte ?b =>
            refine (write_byte (T:=T) v b _ E) end; done].

Ltac solve_wire :=
  split;
  [ intros v; destruct v; open_wire; solve_regular
  | intros v b Ht E; destruct v; open_typed Ht; open_wire_in E; split_emits;
    open_wire; solve_reads_back
  | intros d v d' Hd Hrd; open_wire_in Hrd; split_reads Hrd; injection Hrd as <- <-;
    open_wire; solve_reads_from
  | intros v b Ht E; destruct v; open_typed Ht; open_wire_in E; split_emits; solve_bytes ].

(** ** Instances *)

Lemma emits_put_inv a b : emits (put a) b → a = b.
Proof.
  intros [Hb E]. specialize (E {| enc_bytes := Some []; enc_length := 0 |} ltac:(simpl; lia)).
  rewrite (proj2 (put_Ok b _ _)) in E by (split; [simpl; lia|done]).
  apply put_Ok in E as [_ E]. by simplify_eq/=.
Qed.

(** A reader of [n] bytes through an inverse pair of conversions. *)
Lemma fixed_laws {T} (n : nat) (enc : T → list N) (dec : list N → T) (P : T → Prop) e :
  (∀ v, P v → length (enc v) = n ∧ dec (enc v) = v) →
  (∀ b, Forall is_byte b → length b = n → P (dec b) ∧ enc (dec b) = b) →
  let r := λ d, let? (b, d) := dec_take (N.of_nat n) d in
                if decide (length b = n) then Ok (dec b, d) else Err e in
  (∀ v b, P v → emits (put (enc v)) b → reads_back r v b) ∧ canonical r (λ v, put (enc v)) P.
Proof.
  intros Hto Hof r. split.
  - intros v b HP <-%emits_put_inv d Ha. destruct (Hto v HP) as [Hl Hv]. unfold r.
    rewrite (take_ahead _ (enc v)) by (done || (unfold items; by rewrite Hl)). simpl.
    rewrite decide_True by done. by rewrite Hv.
  - intros d v d' Hd H. unfold r in H. apply res_bind_Ok in H as ([b d1] & Ht & H).
    apply take_inv in Ht as (Ha & -> & Hn); [|done]. case_decide as Hl; [|done]. simplify_eq.
    destruct (Hof b) as [HP Hb]; [by eapply ahead_byte|done|]. exists b. split_and!; [done..|].
    rewrite Hb. apply emits_put. by eapply ahead_size.
Qed.

#[export] Instance uint_WireLaws w : WireLaws (uint w).
Proof.
  destruct (fixed_laws w (be_encode w) be_decode (typed (T:=uint w)) (Reject "integer width"))
    as [H1 H2].
  - intros v Hv. split; [apply length_to_be|by apply from_be_to_be].
  - intros b Hb <-. by apply to_be_from_be.
  - split; [intros v; apply regular_put|apply H1|apply H2|].
    intros v b Hv <-%emits_put_inv. apply be_bytes_byte.
Qed.

#[export] Instance i64_WireLaws : WireLaws i64.
Proof.
  destruct (fixed_laws 8 (λ z, be_encode 8 (i64_to_u64 z)) (λ b, u64_to_i64 (be_decode b))
              (typed (T:=i64)) (Reject "integer width")) as [H1 H2].
  - intros v [Hv Hr]%i64_of_u64. split; [apply length_to_be|]. by rewrite from_be_to_be.
  - intros b Hb Hl. destruct (to_be_from_be b Hb) as [Hr Hr']. rewrite Hl in *.
    destruct (u64_of_i64 _ Hr) as [Ht Hi]. split; [done|]. by rewrite Hi.
  - split; [intros v; apply regular_put|apply H1|apply H2|].
    intros v b Hv <-%emits_put_inv. apply be_bytes_byte.
Qed.

#[export] Instance Uuid_WireLaws : WireLaws Uuid.
Proof.
  destruct (fixed_laws 16 (be_encode 16) be_decode (typed (T:=Uuid)) (Reject "UUID width"))
    as [H1 H2].
  - intros v Hv. split; [apply length_to_be|by apply from_be_to_be].
  - intros b Hb Hl. destruct (to_be_from_be b Hb) as [Hr Hr']. by rewrite Hl in *.
  - split; [intros v; apply regular_put|apply H1|apply H2|].
    intros v b Hv <-%emits_put_inv. apply be_bytes_byte.
Qed.

#[export] Instance bytes32_WireLaws : WireLaws bytes32.
Proof.
  destruct (fixed_laws 32 (λ v, v) (λ b, b) (typed (T:=bytes32)) (Reject "digest width")) as [H1 H2].
  - intros v [Hl _]. done.
  - intros b Hb Hl. by repeat split.
  - split; [intros v; apply regular_put|apply H1|apply H2|].
    intros v b Hv <-%emits_put_inv. by destruct Hv.
Qed.

Lemma u32_typed n : (n < 2 ^ 32)%N → typed (T:=u32) n.
Proof. done. Qed.
Lemma be_u32_small n : (n < 2 ^ 32)%N → as_u32 n = n.
Proof. apply N.mod_small. Qed.

(** Length-prefixed bytes. *)
Lemma regular_blob b : regular (put_blob b).
Proof. unfold put_blob, write_u32. solve_regular. Qed.

Lemma blob_back b x : emits (put_blob b) x → reads_back take_blob b x.
Proof.
  unfold put_blob, take_blob, write_u32, read_u32. intros [Hb%bound_Ok E]%emits_check. split_emits.
  apply emits_put_inv in E1 as <-. assert (items b < 2 ^ 32)%N by (unfold MAX_RECORD_BYTES in Hb; lia).
  rewrite be_u32_small in E0 by done.
  eapply reads_back_bind; [apply read_write; [by apply u32_typed|done]|].
  intros d Ha. rewrite (proj2 (bound_Ok _ _ _)) by done. by apply take_ahead.
Qed.

Lemma blob_canonical : canonical take_blob put_blob (Forall is_byte).
Proof.
  intros d b d' Hd H. unfold take_blob, read_u32 in H. split_reads H.
  apply res_bind_Ok in H as ([] & Hb & H). apply take_inv in H as (Ha & -> & <-); [|done].
  assert (items b ≤ MAX_RECORD_BYTES)%N by (by apply bound_Ok in Hb).
  exists (b0 ++ b). rewrite advanced_app.
  assert (ahead d (b0 ++ b)) by (by apply ahead_app).
  split_and!; [done..|by eapply (ahead_byte (advanced d b0))|].
  unfold put_blob. apply emits_check. split; [done|]. unfold write_u32.
  rewrite be_u32_small by (unfold MAX_RECORD_BYTES in *; lia).
  apply emits_then; [done|apply emits_put|]; by eapply ahead_size.
Qed.

Lemma blob_byte b x : Forall is_byte b → emits (put_blob b) x → Forall is_byte x.
Proof.
  intros Hb E. unfold put_blob, write_u32 in E. apply emits_check in E as [Hl%bound_Ok E]. split_emits.
  apply Forall_app. split; [|by apply emits_put_inv in E1 as <-].
  rewrite be_u32_small in E0 by (unfold MAX_RECORD_BYTES in Hl; lia).
  eapply (write_byte (T:=u32)); [|exact E0]. apply u32_typed. unfold MAX_RECORD_BYTES in Hl; lia.
Qed.

#[export] Instance string_WireLaws : WireLaws string.
Proof.
  split.
  - intros v. apply regular_blob.
  - intros v b Ht E d Ha. simpl. rewrite (blob_back _ _ E) by done. simpl.
    by rewrite from_utf8_as_bytes.
  - intros d v d' Hd H. simpl in H. apply res_bind_Ok in H as ([b d1] & H1 & H).
    apply blob_canonical in H1 as (x & Ha & -> & Hb & E); [|done].
    destruct (from_utf8 b) as [s|] eqn:Hs; simpl in H; [|done]. simplify_eq.
    apply from_utf8_Some in Hs as [Ht <-]; [|done]. by exists x.
  - intros v b _. apply blob_byte, as_bytes_byte.
Qed.

#[export] Instance ExactBytes_WireLaws : WireLaws ExactBytes.
Proof.
  split.
  - intros v. apply regular_blob.
  - intros [v] b Ht E d Ha. simpl in *. by rewrite (blob_back _ _ E).
  - intros d v d' Hd H. simpl in H. apply res_bind_Ok in H as ([b d1] & H1 & H).
    apply blob_canonical in H1 as (x & Ha & -> & Hb & E); [|done]. simplify_eq. by exists x.
  - intros [v] b Ht. by apply blob_byte.
Qed.

#[export] Instance bool_WireLaws : WireLaws bool.
Proof. solve_wire. Qed.
#[export] Instance option_WireLaws {T} `{WireLaws T} : WireLaws (option T).
Proof. solve_wire. Qed.
#[export] Instance Timestamp_WireLaws : WireLaws Timestamp.
Proof. solve_wire. Qed.

#[export] Instance ContractDigest_WireLaws : WireLaws ContractDigest.
Proof.
  split.
  - intros v. open_wire. solve_regular.
  - intros [v] b Ht E. open_wire_in E. split_emits. open_wire.
    eapply reads_back_bind; [apply read_write; [|eassumption]; done|].
    simpl negb. cbv iota. solve_reads_back.
  - intros d v d' Hd H. open_wire_in H. split_reads H.
    destruct (N.eqb_spec x 1) as [->|]; [|done]. simpl negb in H. cbv iota in H. split_reads H.
    injection H as <- <-. open_wire. solve_reads_from.
  - intros [v] b Ht E. open_wire_in E. split_emits. solve_bytes.
Qed.

(** Collections. *)
Section list_laws.
Context {T : Type} `{WireLaws T}.

Lemma regular_items (l : list T) : regular (write_items l).
Proof. induction l as [|x l IH]; simpl; solve_regular. done. Qed.

Lemma items_back (l : list T) b :
  typed l → emits (write_items l) b → reads_back (read_items (length l)) l b.
Proof.
  intros Ht. revert b. induction Ht as [|x l Hx Hl IH]; intros b E; simpl in *.
  - apply (emits_unique _ _ _ emits_done) in E as <-. apply reads_back_ret.
  - apply emits_split in E as (b1 & b2 & E1 & E2 & ->); [|apply write_regular|apply regular_items].
    eapply reads_back_bind; [by apply read_write|]. apply reads_back_last. by apply IH.
Qed.

Lemma items_canonical n d (l : list T) d' :
  dec_ok d → read_items n d = Ok (l, d') →
  length l = n ∧ ∃ b, ahead d b ∧ d' = advanced d b ∧ typed l ∧ emits (write_items l) b.
Proof.
  revert d l. induction n as [|n IH]; intros d l Hd Hrd; simpl in Hrd.
  - simplify_eq. split; [done|]. by apply reads_from_done; [|constructor].
  - split_reads Hrd. apply res_bind_Ok in Hrd as ([l1 d1] & Hrd & Hr). simplify_eq.
    apply IH in Hrd as (Hlen & b' & A' & -> & Ht' & E'); [|done]. split; [simpl; by rewrite Hlen|].
    simpl. eapply reads_from_then; [done..|]. apply reads_from_last; [done..|]. by constructor.
Qed.

Lemma items_byte (l : list T) b : typed l → emits (write_items l) b → Forall is_byte b.
Proof.
  intros Ht. revert b. induction Ht as [|x l Hx Hl IH]; intros b E; simpl in *.
  - by apply (emits_unique _ _ _ emits_done) in E as <-.
  - apply emits_split in E as (b1 & b2 & E1 & E2 & ->); [|apply write_regular|apply regular_items].
    apply Forall_app. split; [by apply (write_byte (T:=T) x)|by apply IH].
Qed.

#[export] Instance list_WireLaws : WireLaws (list T).
Proof.
  split.
  - intros v. simpl. unfold write_u32. apply regular_check, regular_then; [apply write_regular|].
    apply regular_items.
  - intros v b Ht E. simpl in *. unfold write_u32 in E. apply emits_check in E as [Hb%bound_Ok E].
    apply emits_split in E as (b1 & b2 & E1 & E2 & ->); [|apply write_regular|apply regular_items].
    assert (items v < 2 ^ 32)%N by (unfold MAX_COLLECTION_ITEMS in Hb; lia).
    rewrite be_u32_small in E1 by done. unfold read_u32.
    eapply reads_back_bind; [apply read_write; [by apply u32_typed|done]|].
    intros d Ha. rewrite (proj2 (bound_Ok _ _ _)) by done. simpl. unfold items. rewrite Nat2N.id.
    by apply items_back.
  - intros d v d' Hd Hrd. simpl in Hrd. unfold read_u32 in Hrd. split_reads Hrd.
    apply res_bind_Ok in Hrd as ([] & Hb & Hrd). apply bound_Ok in Hb.
    apply items_canonical in Hrd as (Hlen & b' & A' & -> & Ht' & E'); [|done].
    assert (items v = x) as <- by (unfold items; rewrite Hlen; lia).
    exists (b ++ b'). rewrite advanced_app. assert (ahead d (b ++ b')) by (by apply ahead_app).
    split_and!; [done..|]. simpl. apply emits_check. split; [by apply bound_Ok|].
    unfold write_u32. rewrite be_u32_small by (unfold MAX_COLLECTION_ITEMS in *; lia).
    apply emits_then; [done..|]. by eapply ahead_size.
  - intros v b Ht E. simpl in E. unfold write_u32 in E. apply emits_check in E as [Hb%bound_Ok E].
    apply emits_split in E as (b1 & b2 & E1 & E2 & ->); [|apply write_regular|apply regular_items].
    rewrite be_u32_small in E1 by (unfold MAX_COLLECTION_ITEMS in Hb; lia).
    apply Forall_app. split; [|by eapply items_byte].
    eapply (write_byte (T:=u32)); [|exact E1]. apply u32_typed. unfold MAX_COLLECTION_ITEMS in Hb. lia.
Qed.
End list_laws.

(** *** Structures, wrappers and enumerations *)

#[export] Instance Principal_WireLaws : WireLaws Principal.
Proof. solve_wire. Qed.
#[export] Instance ContractRef_WireLaws : WireLaws ContractRef.
Proof. solve_wire. Qed.
#[export] Instance RepositoryIdentity_WireLaws : WireLaws RepositoryIdentity.
Proof. solve_wire. Qed.
#[export] Instance Validity_WireLaws : WireLaws Validity.
Proof. solve_wire. Qed.
#[export] Instance RunRef_WireLaws : WireLaws RunRef.
Proof. solve_wire. Qed.
#[export] Instance PhaseVisit_WireLaws : WireLaws PhaseVisit.
Proof. solve_wire. Qed.
#[export] Instance ActionOccurrence_WireLaws : WireLaws ActionOccurrence.
Proof. solve_wire. Qed.
#[export] Instance ArgumentValue_WireLaws : WireLaws ArgumentValue.
Proof. solve_wire. Qed.
#[export] Instance ArgumentType_WireLaws : WireLaws ArgumentType.
Proof. solve_wire. Qed.
#[export] Instance ArgumentBinding_WireLaws : WireLaws ArgumentBinding.
Proof. solve_wire. Qed.
#[export] Instance ExactArguments_WireLaws : WireLaws ExactArguments.
Proof. solve_wire. Qed.
#[export] Instance ArgumentSpec_WireLaws : WireLaws ArgumentSpec.
Proof. solve_wire. Qed.
#[export] Instance ProducerClass_WireLaws : WireLaws ProducerClass.
Proof. solve_wire. Qed.
#[export] Instance SubmissionChannel_WireLaws : WireLaws SubmissionChannel.
Proof. solve_wire. Qed.
#[export] Instance SubjectSelector_WireLaws : WireLaws SubjectSelector.
Proof. solve_wire. Qed.
#[export] Instance SubjectScope_WireLaws : WireLaws SubjectScope.
Proof. solve_wire. Qed.
#[export] Instance SourceBinding_WireLaws : WireLaws SourceBinding.
Proof. solve_wire. Qed.
#[export] Instance ReportingBinding_WireLaws : WireLaws ReportingBinding.
Proof. solve_wire. Qed.
#[export] Instance SubmissionBinding_WireLaws : WireLaws SubmissionBinding.
Proof. solve_wire. Qed.
#[export] Instance ObservationPermission_WireLaws : WireLaws ObservationPermission.
Proof. solve_wire. Qed.
#[export] Instance ObservationScope_WireLaws : WireLaws ObservationScope.
Proof. solve_wire. Qed.
#[export] Instance AdminTarget_WireLaws : WireLaws AdminTarget.
Proof. solve_wire. Qed.
#[export] Instance AdminScope_WireLaws : WireLaws AdminScope.
Proof. solve_wire. Qed.
#[export] Instance RightSpec_WireLaws : WireLaws RightSpec.
Proof. solve_wire. Qed.
#[export] Instance KeyRef_WireLaws : WireLaws KeyRef.
Proof. solve_wire. Qed.
#[export] Instance IssuanceAssurance_WireLaws : WireLaws IssuanceAssurance.
Proof. solve_wire. Qed.
#[export] Instance CreationOperation_WireLaws : WireLaws CreationOperation.
Proof. solve_wire. Qed.
#[export] Instance EnvelopeDraft_WireLaws : WireLaws EnvelopeDraft.
Proof. solve_wire. Qed.
#[export] Instance NativeCapability_WireLaws : WireLaws NativeCapability.
Proof. solve_wire. Qed.
#[export] Instance ParentBinding_WireLaws : WireLaws ParentBinding.
Proof. solve_wire. Qed.
#[export] Instance IssuanceContext_WireLaws : WireLaws IssuanceContext.
Proof. solve_wire. Qed.
#[export] Instance GrantBody_WireLaws : WireLaws GrantBody.
Proof. solve_wire. Qed.

(** ** Whole values *)

Section whole.
Context {T : Type} `{WireLaws T}.

Lemma emits_start w b o :
  emits w b → w {| enc_bytes := o; enc_length := 0 |} =
              Ok {| enc_bytes := (λ x, x ++ b) <$> o; enc_length := items b |}.
Proof. intros [Hl ->]; [|simpl; lia]. apply put_Ok. simpl. split; [lia|done]. Qed.

Lemma encoded_len_emits (v : T) b : emits (write v) b → encoded_len v = Ok (items b).
Proof. intros E. unfold encoded_len. by rewrite (emits_start _ _ None E). Qed.

Lemma encoded_len_Ok (v : T) n : encoded_len v = Ok n → ∃ b, emits (write v) b ∧ n = items b.
Proof.
  unfold encoded_len. intros (out & Hw & Hn)%res_bind_Ok.
  destruct (write_regular v _ _ (N.le_0_l USIZE_MAX : (enc_length {| enc_bytes := None; enc_length := 0 |} ≤ _)%N) Hw)
    as (_ & b & E). exists b. split; [done|].
  rewrite (emits_start _ _ None E) in Hw. by simplify_eq/=.
Qed.

Lemma encode_emits (v : T) b : encode v = Ok b ↔ emits (write v) b ∧ (items b ≤ MAX_RECORD_BYTES)%N.
Proof.
  unfold encode. split.
  - intros (n & (x & E & ->)%encoded_len_Ok & Hb)%res_bind_Ok.
    apply res_bind_Ok in Hb as ([] & Hb%bound_Ok & Hw).
    rewrite (emits_start _ _ (Some []) E) in Hw. by simplify_eq/=.
  - intros [E Hb]. rewrite (encoded_len_emits _ _ E). cbn [res_bind].
    rewrite (proj2 (bound_Ok _ _ _)) by done. cbn [res_bind]. by rewrite (emits_start _ _ (Some []) E).
Qed.

Lemma emits_encode (v : T) b : encode v = Ok b → emits (write v) b.
Proof. intros [? _]%encode_emits. done. Qed.

Lemma encode_byte (v : T) b : typed v → encode v = Ok b → Forall is_byte b.
Proof. intros Ht He. by apply (write_byte (T:=T) v b Ht), emits_encode. Qed.

Lemma start_ok b : Forall is_byte b → (items b ≤ MAX_RECORD_BYTES)%N → dec_ok {| dec_bytes := b; cursor := 0 |}.
Proof. intros Hb Hl. split; simpl; [done|unfold MAX_RECORD_BYTES, USIZE_MAX in *; lia|lia]. Qed.

Lemma decode_encode (v : T) b : typed v → encode v = Ok b → decode b = Ok v.
Proof.
  intros Ht [E Hb]%encode_emits. unfold decode. rewrite (proj2 (bound_Ok _ _ _)) by done.
  cbn [res_bind]. rewrite (read_write v b Ht E).
  - cbn [res_bind]. unfold advanced. cbn [cursor]. by rewrite N.eqb_refl.
  - split; [simpl; unfold MAX_RECORD_BYTES, USIZE_MAX in *; lia|].
    exists [], []. simpl. by rewrite app_nil_r.
Qed.

Lemma decode_canonical b (v : T) :
  Forall is_byte b → decode b = Ok v → typed v ∧ encode v = Ok b.
Proof.
  intros Hby Hd. unfold decode in Hd. apply res_bind_Ok in Hd as ([] & Hb%bound_Ok & Hd).
  apply res_bind_Ok in Hd as ([x d] & Hr & Hd).
  apply read_canonical in Hr as (c & [_ (pre & rest & Ec & Hc)] & -> & Ht & Ew); [|by apply start_ok].
  cbn [cursor advanced dec_bytes] in *. rewrite N.add_0_l in Hd.
  destruct (N.eqb_spec (items c) (items b)) as [Hn|]; [|done]. cbn [negb] in Hd. simplify_eq.
  assert (pre = []) as -> by (apply nil_length_inv; unfold items in Hc; lia). simpl in *.
  rewrite items_app in Hn. destruct rest; [|unfold items in Hn; simpl in Hn; lia].
  rewrite app_nil_r in *. split; [done|]. by apply encode_emits.
Qed.

Lemma encode_inj (v w : T) b : typed v → typed w → encode v = Ok b → encode w = Ok b → v = w.
Proof. intros Hv Hw E1 E2. apply decode_encode in E1, E2; [congruence|done..]. Qed.
End whole.

(** [encode] and [decode] are inverse partial functions on [T]: a well-typed value is
    encoded as [b] exactly when [b] decodes to it, and what is decoded is well typed
    and within the record bound. *)
Definition wire_inverse (T : Type) `{Wire T, Typed T} : Prop :=
  ∀ b, Forall is_byte b →
    (∀ v : T, typed v → encode v = Ok b ↔ decode b = Ok v) ∧
    (∀ v : T, decode b = Ok v → typed v ∧ (items b ≤ MAX_RECORD_BYTES)%N).

Lemma laws_inverse T `{WireLaws T} : wire_inverse T.
Proof.
  intros b Hb. split.
  - intros v Hv. split; [by apply decode_encode|]. intros Hd. by destruct (decode_canonical b v Hb Hd).
  - intros v Hd. destruct (decode_canonical b v Hb Hd) as [Ht E]. split; [done|].
    by apply encode_emits in E as [_ ?].
Qed.

(** The bytes are those of the parts, one after the other. *)
Definition laid_out (b : list N) (parts : list (EnvelopeResult (list N))) : Prop :=
  ∃ bs, parts = Ok <$> bs ∧ b = concat bs.

Lemma laid_out_cons {T} `{WireLaws T} (v : T) b bs parts :
  emits (write v) b → (items b ≤ MAX_RECORD_BYTES)%N → laid_out bs parts → laid_out (b ++ bs) (encode v :: parts).
Proof.
  intros E Hb (l & -> & ->). exists (b :: l). split; [|done]. by rewrite (proj2 (encode_emits v b)).
Qed.

Lemma laid_out_tag n b bs parts :
  emits (put (be_encode 1 n)) b → laid_out bs parts → laid_out (b ++ bs) (Ok (be_encode 1 n) :: parts).
Proof. intros <-%emits_put_inv (l & -> & ->). by exists (be_encode 1 n :: l). Qed.

Lemma laid_out_nil : laid_out [] [].
Proof. by exists []. Qed.

Lemma laid_out_one {T} `{WireLaws T} (v : T) b :
  emits (write v) b → (items b ≤ MAX_RECORD_BYTES)%N → laid_out b [encode v].
Proof. intros E Hb. rewrite <-(app_nil_r b). by apply laid_out_cons, laid_out_nil. Qed.

Ltac solve_layout :=
  let v := fresh "v" in let b := fresh "b" in let E := fresh "E" in let Hb := fresh "Hb" in
  intros v b [E Hb]%encode_emits; destruct v; open_wire_in E; split_emits; simpl;
  rewrite ?items_app in Hb;
  repeat first [ eapply laid_out_tag; [eassumption|] | apply laid_out_cons; [eassumption|rewrite ?items_app in Hb; lia|] | apply laid_out_one; [eassumption|lia] | apply laid_out_nil ].

(** C12: For every record of an envelope, [encode] and [decode] are inverse: a
    well-typed record is encoded as [b] exactly when [b] decodes to it, so that
    decoding rejects every other byte sequence (no trailing bytes, no second spelling
    of a value), and whatever is decoded has its Rust types.  The encoding of a grant
    body, of the draft, the native capability and the context in it is that of their
    fields, each once, in the order of their declarations; that of the parent binding
    is its tag and its fields. *)
Theorem codec_inverse :
  (wire_inverse GrantBody ∧ wire_inverse EnvelopeDraft ∧ wire_inverse NativeCapability ∧ wire_inverse IssuanceContext ∧
   wire_inverse ParentBinding ∧ wire_inverse RightSpec ∧ wire_inverse AdminScope ∧ wire_inverse ObservationScope ∧
   wire_inverse ObservationPermission ∧ wire_inverse SubmissionBinding ∧ wire_inverse ReportingBinding ∧
   wire_inverse SourceBinding ∧ wire_inverse SubjectScope ∧ wire_inverse SubjectSelector ∧ wire_inverse ArgumentSpec ∧
   wire_inverse ExactArguments ∧ wire_inverse ArgumentBinding ∧ wire_inverse ArgumentValue ∧ wire_inverse ActionOccurrence ∧
   wire_inverse PhaseVisit ∧ wire_inverse RunRef ∧ wire_inverse Validity ∧ wire_inverse RepositoryIdentity ∧
   wire_inverse ContractRef ∧ wire_inverse Principal ∧ wire_inverse KeyRef) ∧
  (∀ (v : GrantBody) b, encode v = Ok b → laid_out b
     [encode (schema_version v); encode (profile_version v); encode (carrier_version v); encode (grant v);
      encode (body_parent v); encode (body_context v); encode (body_native v)]) ∧
  (∀ (v : EnvelopeDraft) b, encode v = Ok b → laid_out b
     [encode (grant_id v); encode (store_id v); encode (epoch_id v); encode (root_anchor_id v); encode (issuer v);
      encode (grantee v); encode (grant_namespace v); encode (grant_rights v); encode (grant_validity v);
      encode (created_at v); encode (assurance v); encode (operation v); encode (action_id v);
      encode (configuration_source v); encode (issuance_id v); encode (grant_key v)]) ∧
  (∀ (v : NativeCapability) b, encode v = Ok b → laid_out b
     [encode (native_id v); encode (native_holder v); encode (native_target v); encode (native_rights v);
      encode (native_parent v); encode (native_epoch v); encode (native_signature v)]) ∧
  (∀ (v : IssuanceContext) b, encode v = Ok b → laid_out b
     [encode (context_id v); encode (context_holder v); encode (holder_principal v); encode (context_target v);
      encode (context_namespace v)]) ∧
  (∀ (v : ParentBinding) b, encode v = Ok b → laid_out b
     match v with
     | ParentGrant grant_id issuance_id local_id alias_id digest =>
         [Ok (be_encode 1 0); encode grant_id; encode issuance_id; encode local_id; encode alias_id; encode digest]
     | BootstrapSlot slot manifest_digest anchor_local_id =>
         [Ok (be_encode 1 1); encode slot; encode manifest_digest; encode anchor_local_id]
     end).
Proof.
  split; [split_and!; apply laws_inverse; apply _|].
  split_and!; solve_layout.
Qed.

(** Measuring and writing agree: [encode] fails exactly when [encoded_len]
    does or the length exceeds the record bound, never for a missing buffer, and
    the encoding has the measured length. *)
Theorem encode_len_spec {T} `{WireLaws T} (v : T) :
  match encoded_len v with
  | Err e => encode v = Err e
  | Ok n => if (MAX_RECORD_BYTES <? n)%N
            then encode v = Err (OverLimit "encoded body" n MAX_RECORD_BYTES)
            else ∃ b, encode v = Ok b ∧ items b = n
  end.
Proof.
  destruct (encoded_len v) as [n|e] eqn:En; [|unfold encode; by rewrite En].
  destruct (encoded_len_Ok _ _ En) as (b & E & ->).
  destruct (N.ltb_spec MAX_RECORD_BYTES (items b)).
  - unfold encode. rewrite En. cbn [res_bind]. unfold bound.
    by rewrite (proj2 (N.ltb_lt _ _)) by done.
  - exists b. split; [|done]. by apply encode_emits.
Qed.
