(* ===== verification/DurablePermission.v ===== *)
(** khive-capability/src/durable/permission.rs: principals, validity intervals,
    the provisioned contract catalog, the validation of the rights a grant
    carries and the coverage of requested by held rights.  Parsing and printing
    of UUIDs (crate uuid) are parameters.  A function that contains a panic
    ([unreachable!()]) returns an [option]; [None] is the panic. *)

From Stdlib Require Import NArith ZArith Ascii String.
From stdpp Require Import base tactics list numbers strings.
From S2P Require Import Prelude RustStr LionVec LionRights DurableTypes DurableCodec.

(** [Uuid::parse_str] and [Uuid::to_string] *)
Class UuidText := { uuid_parse_str : string → option N; uuid_to_string : N → string }.

(** ** Panics *)

Definition panics (A : Type) : Type := option (EnvelopeResult A).

Definition p_bind {A B} (m : panics A) (k : A → panics B) : panics B :=
  match m with
  | Some (Ok a) => k a
  | Some (Err e) => Some (Err e)
  | None => None
  end.
Notation "'let!' x ':=' m 'in' k" := (p_bind m (λ x, k))
  (at level 10, x pattern, m at level 100, k at level 200) : khive_scope.
Notation "'check!' m 'in' k" := (p_bind m (λ _ : unit, k))
  (at level 10, m at level 100, k at level 200) : khive_scope.

(** [for x in l { acc = f(acc, x)?; }] *)
Fixpoint try_fold {A T E} (f : A → T → result A E) (acc : A) (l : list T) : result A E :=
  match l with
  | [] => Ok acc
  | x :: l' => let? acc := f acc x in try_fold f acc l'
  end.

(** [slice::contains] *)
Definition contains {T} `{EqDecision T} (l : list T) (x : T) : bool := bool_decide (x ∈ l).

(** ** Principals, references and intervals *)

Definition leg_byte (b : ascii) : bool :=
  is_ascii_lowercase b || is_ascii_digit b || eqb_byte b (ascii_of_N 45).

Definition invalid_leg (b : bytes) : bool :=
  match b, last b with
  | first :: _, Some final =>
      (64 <? items b)%N || negb (is_ascii_alphanumeric first) || negb (is_ascii_alphanumeric final) ||
      existsb (λ c, negb (leg_byte c)) b
  | _, _ => true
  end.

Definition Principal_validate (self : Principal) : EnvelopeResult () :=
  check? nonempty (principal_kind self) in
  check? nonempty (principal_id self) in
  match principal_leg self with
  | Some leg =>
      if invalid_leg (to_bytes leg) then Err (InvalidInput "invalid structural leg label") else Ok ()
  | None => Ok ()
  end.

Definition Principal_parent (self : Principal) : Principal :=
  {| principal_kind := principal_kind self; principal_id := principal_id self; principal_leg := None |}.

Definition ContractRef_validate (self : ContractRef) : EnvelopeResult () := nonempty (contract_name self).

Definition ExactBytes_validate (self : ExactBytes) : EnvelopeResult () :=
  check? bound "reference bytes" (items (exact_bytes self)) MAX_RECORD_BYTES in
  match exact_bytes self with
  | [] => Err (InvalidInput "empty exact reference")
  | _ => Ok ()
  end.

Definition RepositoryIdentity_validate (self : RepositoryIdentity) : EnvelopeResult () :=
  check? nonempty (forge self) in ExactBytes_validate (immutable_id self).

(** Derived [Ord] of [Timestamp]. *)
Definition ts_leb (a b : Timestamp) : bool := (as_micros a <=? as_micros b)%N.
Definition ts_ltb (a b : Timestamp) : bool := (as_micros a <? as_micros b)%N.

Definition Validity_validate (self : Validity) : EnvelopeResult () :=
  if match expires_at self with Some e => ts_leb e (not_before self) | None => false end
  then Err (InvalidInput "expiry must follow not_before") else Ok ().

Definition Validity_contains (self : Validity) (now : Timestamp) : bool :=
  ts_leb (not_before self) now &&
  match expires_at self with Some e => ts_ltb now e | None => true end.

Definition Validity_covers (self child : Validity) : bool :=
  ts_leb (not_before self) (not_before child) &&
  match expires_at self, expires_at child with
  | None, _ => true
  | Some _, None => false
  | Some a, Some b => ts_leb b a
  end.

Definition ArgumentValue_kind (self : ArgumentValue) : ArgumentType :=
  match self with
  | ArgString _ => TypeString
  | ArgInteger _ => TypeInteger
  | ArgDuration _ => TypeDuration
  | ArgBool _ => TypeBool
  | ArgWord _ => TypeWord
  end.

(** ** Contracts *)

Inductive ReferenceFormat : Type := Opaque | CanonicalUuid.
#[export] Instance ReferenceFormat_EqDecision : EqDecision ReferenceFormat.
Proof. solve_decision. Defined.

Record SubjectContract := {
  subject_identity : ContractRef;
  subject_format : ReferenceFormat;
  repository_independent : bool;
  repositories : list RepositoryIdentity;
  membership : list (ExactBytes * RepositoryIdentity)
}.

Record SourceContract := {
  source_identity : ContractRef;
  source_format : ReferenceFormat;
  known_identities : list ExactBytes
}.

Record EntryContract := {
  entry_identity : ContractRef;
  entry_class : ProducerClass;
  entry_subject_kind : ContractRef;
  entry_source_contract : option ContractRef;
  entry_response_contract : option ContractRef;
  authority_arguments : list ArgumentSpec
}.

Record DeclaredAction := {
  action_entry : ContractRef;
  action_phase_id : string;
  declared_action_name : string;
  action_by : option string;
  phase_owner : option string
}.

Record DefinitionContract := {
  definition_digest : ContractDigest;
  reporting_roles : list (ContractRef * string);
  actions : list DeclaredAction
}.

Record RunContract := {
  run_policy_domain : string;
  run_id : RunRef;
  run_definition : ContractDigest;
  bindings : list (string * Principal);
  initiating_principal : Principal;
  run_subject_kind : ContractRef;
  run_subject : ExactBytes
}.

Record ClosedCatalog := {
  subjects : list (ContractRef * SubjectContract);
  sources : list (ContractRef * SourceContract);
  entries : list (ContractRef * EntryContract);
  definitions : list (ContractDigest * DefinitionContract);
  runs : list (RunRef * RunContract)
}.

Definition with_subjects (self : ClosedCatalog) v : ClosedCatalog :=
  {| subjects := v; sources := sources self; entries := entries self;
     definitions := definitions self; runs := runs self |}.
Definition with_sources (self : ClosedCatalog) v : ClosedCatalog :=
  {| subjects := subjects self; sources := v; entries := entries self;
     definitions := definitions self; runs := runs self |}.
Definition with_entries (self : ClosedCatalog) v : ClosedCatalog :=
  {| subjects := subjects self; sources := sources self; entries := v;
     definitions := definitions self; runs := runs self |}.
Definition with_definitions (self : ClosedCatalog) v : ClosedCatalog :=
  {| subjects := subjects self; sources := sources self; entries := entries self;
     definitions := v; runs := runs self |}.
Definition with_runs (self : ClosedCatalog) v : ClosedCatalog :=
  {| subjects := subjects self; sources := sources self; entries := entries self;
     definitions := definitions self; runs := v |}.

(** [if map.insert(k, v).is_some() { return Err(e) }] *)
Definition insert_new {K V} `{Ord K} (k : K) (v : V) (m : list (K * V)) (e : EnvelopeError)
    : EnvelopeResult (list (K * V)) :=
  if bm_contains k m then Err e else Ok (bm_insert k v m).

Section permission.
Context `{UuidText}.

Definition RunRef_parse (value : string) : EnvelopeResult RunRef :=
  let? i := ok_or (uuid_parse_str value) (InvalidInput "invalid run UUID") in
  if bool_decide (uuid_to_string i = value) then Ok {| run_uuid := i |}
  else Err (InvalidInput "noncanonical run UUID").

Definition validate_reference (reference : ExactBytes) (format : ReferenceFormat)
    : EnvelopeResult () :=
  check? ExactBytes_validate reference in
  match format with
  | CanonicalUuid =>
      let? s := ok_or (from_utf8 (exact_bytes reference)) (InvalidInput "non-UTF8 UUID reference") in
      let? _ := RunRef_parse s in Ok ()
  | Opaque => Ok ()
  end.

Fixpoint args_match (args : list ArgumentBinding) (schema : list ArgumentSpec) : EnvelopeResult () :=
  match args, schema with
  | arg :: args', expected :: schema' =>
      if negb (bool_decide (arg_name arg = spec_name expected)) ||
         negb (bool_decide (ArgumentValue_kind (arg_value arg) = spec_kind expected))
      then Err (InvalidInput "argument name or type mismatch")
      else
        check? match arg_value arg with
               | ArgString text | ArgWord text => bound "argument text" (text_len text) MAX_RECORD_BYTES
               | _ => Ok ()
               end in
        args_match args' schema'
  | _, _ => Ok ()
  end.

Definition validate_arguments (arguments : ExactArguments) (schema : list ArgumentSpec)
    : EnvelopeResult () :=
  check? collection (exact_arguments arguments) false in
  if negb (items (exact_arguments arguments) =? items schema)%N
  then Err (InvalidInput "incomplete argument tuple")
  else args_match (exact_arguments arguments) schema.

Definition resolve_role (run : RunContract) (role : string) : EnvelopeResult Principal :=
  ok_or (snd <$> List.find (λ kv, bool_decide (kv.1 = role)) (bindings run))
        (InvalidInput "explicit reporting role is unbound").

(** ** Provisioning *)

Definition add_member (subject : SubjectContract) (members : list (ExactBytes * RepositoryIdentity))
    (m : ExactBytes * RepositoryIdentity) : EnvelopeResult (list (ExactBytes * RepositoryIdentity)) :=
  check? validate_reference m.1 (subject_format subject) in
  if negb (contains (repositories subject) m.2) || bm_contains m.1 members
  then Err (InvalidInput "ambiguous or unknown repository membership")
  else Ok (bm_insert m.1 m.2 members).

Definition nil_list {T} (l : list T) : bool := match l with [] => true | _ => false end.

Definition add_subject (catalog : ClosedCatalog) (subject : SubjectContract)
    : EnvelopeResult ClosedCatalog :=
  check? ContractRef_validate (subject_identity subject) in
  check? sorted_unique (repositories subject) false in
  check? collection (membership subject) false in
  if repository_independent subject &&
     (negb (nil_list (repositories subject)) || negb (nil_list (membership subject)))
  then Err (InvalidInput "repository-independent contract has repository bindings")
  else
    check? try_each RepositoryIdentity_validate (repositories subject) in
    let? _ := try_fold (add_member subject) [] (membership subject) in
    let? m := insert_new (subject_identity subject) subject (subjects catalog)
                (InvalidInput "duplicate subject contract") in
    Ok (with_subjects catalog m).

Definition add_source (catalog : ClosedCatalog) (source : SourceContract)
    : EnvelopeResult ClosedCatalog :=
  check? ContractRef_validate (source_identity source) in
  check? sorted_unique (known_identities source) true in
  check? try_each (λ reference, validate_reference reference (source_format source))
           (known_identities source) in
  let? m := insert_new (source_identity source) source (sources catalog)
              (InvalidInput "duplicate source contract") in
  Ok (with_sources catalog m).

(** [windows(2).any(|p| p[0].name == p[1].name)] *)
Fixpoint adjacent_names (l : list ArgumentSpec) : bool :=
  match l with
  | a :: (b :: _) as l' => bool_decide (spec_name a = spec_name b) || adjacent_names l'
  | _ => false
  end.

Definition check_response (entry : EntryContract) : EnvelopeResult () :=
  if bool_decide (entry_class entry = Platform) then
    let? c := ok_or (entry_response_contract entry)
                (InvalidInput "platform entry lacks response contract") in
    ContractRef_validate c
  else match entry_response_contract entry with
       | Some _ => Err (InvalidInput "non-platform response contract")
       | None => Ok ()
       end.

Definition add_entry (catalog : ClosedCatalog) (entry : EntryContract)
    : EnvelopeResult ClosedCatalog :=
  check? ContractRef_validate (entry_identity entry) in
  check? sorted_unique (authority_arguments entry) false in
  if adjacent_names (authority_arguments entry) then Err (InvalidInput "duplicate argument name")
  else
    check? try_each (λ arg, nonempty (spec_name arg)) (authority_arguments entry) in
    if negb (bm_contains (entry_subject_kind entry) (subjects catalog))
    then Err (InvalidInput "unknown entry subject contract")
    else
      check? match entry_source_contract entry with
             | Some source => if negb (bm_contains source (sources catalog))
                              then Err (InvalidInput "unknown entry source contract") else Ok ()
             | None => Ok ()
             end in
      check? check_response entry in
      let? m := insert_new (entry_identity entry) entry (entries catalog)
                  (InvalidInput "duplicate entry contract") in
      Ok (with_entries catalog m).

Definition nonempty_opt (role : option string) : EnvelopeResult () :=
  match role with Some r => nonempty r | None => Ok () end.

Definition add_definition (catalog : ClosedCatalog) (definition : DefinitionContract)
    : EnvelopeResult ClosedCatalog :=
  check? collection (reporting_roles definition) false in
  check? collection (actions definition) false in
  check? try_each (λ er : ContractRef * string,
           if negb (bm_contains er.1 (entries catalog))
           then Err (InvalidInput "unknown reporting entry contract")
           else nonempty er.2) (reporting_roles definition) in
  check? try_each (λ action,
           if negb (bm_contains (action_entry action) (entries catalog))
           then Err (InvalidInput "unknown action entry")
           else
             check? nonempty (action_phase_id action) in
             check? nonempty (declared_action_name action) in
             check? nonempty_opt (action_by action) in
             nonempty_opt (phase_owner action)) (actions definition) in
  let? m := insert_new (definition_digest definition) definition (definitions catalog)
              (InvalidInput "duplicate definition contract") in
  Ok (with_definitions catalog m).

Definition add_role (roles : list (string * Principal)) (b : string * Principal)
    : EnvelopeResult (list (string * Principal)) :=
  check? nonempty b.1 in
  check? Principal_validate b.2 in
  insert_new b.1 b.2 roles (InvalidInput "duplicate run role").

Definition add_run (catalog : ClosedCatalog) (run : RunContract) : EnvelopeResult ClosedCatalog :=
  check? nonempty (run_policy_domain run) in
  check? collection (bindings run) false in
  check? Principal_validate (initiating_principal run) in
  if negb (bm_contains (run_definition run) (definitions catalog))
  then Err (InvalidInput "unknown run definition")
  else
    let? subject := ok_or (bm_get (run_subject_kind run) (subjects catalog))
                      (InvalidInput "unknown run subject kind") in
    check? validate_reference (run_subject run) (subject_format subject) in
    let? _ := try_fold add_role [] (bindings run) in
    let? m := insert_new (run_id run) run (runs catalog) (InvalidInput "duplicate run contract") in
    Ok (with_runs catalog m).

Definition provision (ss : list SubjectContract) (cs : list SourceContract)
    (es : list EntryContract) (ds : list DefinitionContract) (rs : list RunContract)
    : EnvelopeResult ClosedCatalog :=
  check? collection ss false in
  check? collection cs false in
  check? collection es true in
  check? collection ds false in
  check? collection rs false in
  let? c := try_fold add_subject
              {| subjects := []; sources := []; entries := []; definitions := []; runs := [] |} ss in
  let? c := try_fold add_source c cs in
  let? c := try_fold add_entry c es in
  let? c := try_fold add_definition c ds in
  try_fold add_run c rs.

(** ** Subjects *)

Definition validate_subject (self : ClosedCatalog) (scope : SubjectScope) : EnvelopeResult () :=
  let? contract := ok_or (bm_get (subject_kind scope) (subjects self))
                     (InvalidInput "unknown subject kind") in
  match selector scope with
  | Exact refs =>
      check? sorted_unique refs true in
      try_each (λ reference, validate_reference reference (subject_format contract)) refs
  | Repositories repos =>
      check? sorted_unique repos true in
      if repository_independent contract ||
         existsb (λ r, negb (contains (repositories contract) r)) repos
      then Err (InvalidInput "unknown or unsupported repository selector") else Ok ()
  | AllSubjectsOfKind =>
      if negb (repository_independent contract)
      then Err (InvalidInput "repository-bearing subject cannot use all-subjects") else Ok ()
  end.

Definition subject_contains (self : ClosedCatalog) (scope : SubjectScope) (reference : ExactBytes)
    : bool :=
  match bm_get (subject_kind scope) (subjects self) with
  | None => false
  | Some contract =>
      match selector scope with
      | Exact refs => contains refs reference
      | AllSubjectsOfKind => repository_independent contract
      | Repositories repos =>
          existsb (λ m, bool_decide (m.1 = reference) && contains repos m.2) (membership contract)
      end
  end.

Definition covers_subject (self : ClosedCatalog) (par child : SubjectScope) : bool :=
  if negb (bool_decide (subject_kind par = subject_kind child)) then false
  else match selector par, selector child with
       | _, Exact refs => forallb (subject_contains self par) refs
       | Repositories a, Repositories b => forallb (contains a) b
       | AllSubjectsOfKind, AllSubjectsOfKind =>
           match bm_get (subject_kind par) (subjects self) with
           | Some s => repository_independent s
           | None => false
           end
       | _, _ => false
       end.

(** ** Permissions *)

Definition actor_context (self : ClosedCatalog) (p : ObservationPermission) (i : RunRef)
    (digest : ContractDigest) : EnvelopeResult (RunContract * DefinitionContract) :=
  if negb (bool_decide (producer_class p = Actor))
  then Err (InvalidInput "actor binding has non-actor class")
  else
    let? run := ok_or (bm_get i (runs self)) (InvalidInput "unknown named run") in
    let? definition := ok_or (bm_get digest (definitions self))
                         (InvalidInput "unknown pinned definition") in
    if negb (bool_decide (run_policy_domain run = policy_domain p)) ||
       negb (bool_decide (run_definition run = digest)) ||
       negb (bool_decide (run_subject_kind run = subject_kind (subject p))) ||
       negb (subject_contains self (subject p) (run_subject run))
    then Err (InvalidInput "run subject or definition mismatch")
    else Ok (run, definition).

(** [grantee.is_some_and(|p| resolve_role(run, role).ok() != Some(p))] *)
Definition role_differs (run : RunContract) (role : string) (grantee : option Principal) : bool :=
  match grantee with
  | None => false
  | Some p => match resolve_role run role with
              | Ok q => negb (bool_decide (q = p))
              | Err _ => true
              end
  end.

Definition validate_source (self : ClosedCatalog) (p : ObservationPermission) (e : EntryContract)
    (class : ProducerClass) (source : SourceBinding) : EnvelopeResult () :=
  if negb (bool_decide (producer_class p = class)) ||
     negb (bool_decide (entry_source_contract e = Some (source_contract_ref source)))
  then Err (InvalidInput "source binding contract mismatch")
  else
    let? known := ok_or (bm_get (source_contract_ref source) (sources self))
                    (InvalidInput "unknown source contract") in
    check? sorted_unique (source_identities source) true in
    check? sorted_unique (source_arguments source) true in
    check? try_each (λ identity,
             check? validate_reference identity (source_format known) in
             if negb (contains (known_identities known) identity)
             then Err (InvalidInput "unknown source identity") else Ok ())
             (source_identities source) in
    try_each (λ args, validate_arguments args (authority_arguments e)) (source_arguments source).

Definition validate_actor_report (self : ClosedCatalog) (p : ObservationPermission)
    (e : EntryContract) (grantee : option Principal) (run : RunRef) (definition : ContractDigest)
    (role : string) : EnvelopeResult () :=
  let? (run, def) := actor_context self p run definition in
  let roles := filter (λ er, er.1 = entry p) (reporting_roles def) in
  if match roles with
     | [(_, r)] => negb (bool_decide (r = role)) || role_differs run role grantee
     | _ => true
     end
  then Err (InvalidInput "reporting role does not resolve to grantee")
  else
    let? _ := resolve_role run role in
    match authority_arguments e with
    | [] => Ok ()
    | _ => Err (InvalidInput "actor report lacks required argument binding")
    end.

(** The reporter an action result must name. *)
Definition expected_reporter (run : RunContract) (action : DeclaredAction)
    (grantee : option Principal) : EnvelopeResult ReportingBinding :=
  match match action_by action with Some r => Some r | None => phase_owner action end with
  | Some role =>
      if role_differs run role grantee
      then Err (InvalidInput "action reporter does not resolve to grantee")
      else let? _ := resolve_role run role in Ok (Role role)
  | None => Ok (Initiator (initiating_principal run))
  end.

Definition validate_action_result (self : ClosedCatalog) (p : ObservationPermission)
    (e : EntryContract) (grantee : option Principal) (run : RunRef) (definition : ContractDigest)
    (occurrence : ActionOccurrence) (reporter : ReportingBinding) (arguments : ExactArguments)
    : EnvelopeResult () :=
  let? (run, def) := actor_context self p run definition in
  check? nonempty (visit_phase_id (visit occurrence)) in
  check? nonempty (occurrence_action_name occurrence) in
  if (round (visit occurrence) <? 1)%Z then Err (InvalidInput "round zero is not a phase visit")
  else
    match filter (λ a, action_phase_id a = visit_phase_id (visit occurrence) ∧
                       declared_action_name a = occurrence_action_name occurrence) (actions def) with
    | [action] =>
        if negb (bool_decide (action_entry action = entry p))
        then Err (InvalidInput "action entry differs from permission")
        else
          let? expected := expected_reporter run action grantee in
          if negb (bool_decide (expected = reporter)) ||
             match expected, grantee with
             | Initiator _, Some g => negb (bool_decide (initiating_principal run = g))
             | _, _ => false
             end
          then Err (InvalidInput "action reporting binding mismatch")
          else validate_arguments arguments (authority_arguments e)
    | _ => Err (InvalidInput "ambiguous or unknown action occurrence")
    end.

Definition is_claim_time (b : SubmissionBinding) : bool :=
  match b with ClaimTimePlatformBundle => true | _ => false end.

Definition validate_permission (self : ClosedCatalog) (p : ObservationPermission)
    (grantee : option Principal) : panics () :=
  check! Some (nonempty (policy_domain p)) in
  if is_claim_time (binding p) then Some (Err (RightNotSupported ClaimTimePlatformBundleInM1))
  else if negb (bool_decide (channel p = Observe)) || bool_decide (producer_class p = System)
  then Some (Err (RightNotSupported InternalProducer))
  else
    let! e := Some (ok_or (bm_get (entry p) (entries self)) (InvalidInput "unknown entry contract")) in
    if negb (bool_decide (producer_class p = entry_class e)) ||
       negb (bool_decide (subject_kind (subject p) = entry_subject_kind e))
    then Some (Err (InvalidInput "entry class or subject contract mismatch"))
    else
      check! Some (validate_subject self (subject p)) in
      match binding p with
      | Instrument source => Some (validate_source self p e ClassInstrument source)
      | PlatformRelay source response_contract =>
          if negb (bool_decide (entry_response_contract e = Some response_contract))
          then Some (Err (InvalidInput "platform response contract mismatch"))
          else Some (validate_source self p e Platform source)
      | ActorReport run definition role =>
          Some (validate_actor_report self p e grantee run definition role)
      | ActionResult run definition occurrence reporter arguments =>
          Some (validate_action_result self p e grantee run definition occurrence reporter arguments)
      | ClaimTimePlatformBundle => None
      end.

(** The loop over a scope's permissions; [seen] is [permissions[..index]]. *)
Fixpoint validate_permissions (self : ClosedCatalog) (grantee : option Principal)
    (seen ps : list ObservationPermission) : panics () :=
  match ps with
  | [] => Some (Ok ())
  | p :: ps' =>
      if contains seen p then Some (Err (InvalidInput "duplicate observation permission"))
      else
        check! validate_permission self p grantee in
        validate_permissions self grantee (seen ++ [p]) ps'
  end.

(** [Rights::with] *)
Definition rights_with (r : Rights) (x : Right) : Rights := (Rights_insert r x).1.

(** The carrier right and the scope of one requested right. *)
Definition right_scope (right : RightSpec) (namespace : string) (grantee : Principal)
    : EnvelopeResult (Right * ObservationScope) :=
  match right with
  | RecordObservation scope => Ok (Execute, scope)
  | GrantAdmin admin =>
      if bool_decide (is_Some (principal_leg grantee))
      then Err (InvalidInput "subactor cannot hold administration")
      else if negb (bool_decide (admin_namespace admin = namespace))
      then Err (InvalidInput "admin namespace differs from grant")
      else match admin_target admin with
           | TargetRecordObservation scope => Ok (Delegate, scope)
           | _ => Err (RightNotSupported OrdinaryNamespace)
           end
  | _ => Err (RightNotSupported OrdinaryNamespace)
  end.

Definition is_record (right : RightSpec) : bool :=
  match right with RecordObservation _ => true | _ => false end.

Fixpoint validate_rights_loop (self : ClosedCatalog) (namespace : string) (grantee : Principal)
    (bind_producer : bool) (carriers : Rights) (rights : list RightSpec) : panics Rights :=
  match rights with
  | [] => Some (Ok carriers)
  | r :: rights' =>
      let! (carrier, scope) := Some (right_scope r namespace grantee) in
      check! Some (collection (permissions scope) true) in
      check! validate_permissions self
               (if bind_producer && is_record r then Some grantee else None) [] (permissions scope) in
      validate_rights_loop self namespace grantee bind_producer (rights_with carriers carrier) rights'
  end.

Definition validate_rights_inner (self : ClosedCatalog) (rights : list RightSpec)
    (namespace : string) (grantee : Principal) (bind_producer : bool) : panics Rights :=
  check! Some (nonempty namespace) in
  check! Some (Principal_validate grantee) in
  check! Some (sorted_unique rights true) in
  validate_rights_loop self namespace grantee bind_producer Rights_empty rights.

Definition validate_rights (self : ClosedCatalog) (rights : list RightSpec) (namespace : string)
    (grantee : Principal) : panics Rights :=
  validate_rights_inner self rights namespace grantee true.
Definition validate_source_rights (self : ClosedCatalog) (rights : list RightSpec)
    (namespace : string) (owner : Principal) : panics Rights :=
  validate_rights_inner self rights namespace owner false.

End permission.

(** ** Coverage *)

Definition source_covers (a b : SourceBinding) : bool :=
  bool_decide (source_contract_ref a = source_contract_ref b) &&
  forallb (contains (source_identities a)) (source_identities b) &&
  forallb (contains (source_arguments a)) (source_arguments b).

Definition binding_covers (par child : SubmissionBinding) : bool :=
  match par, child with
  | Instrument a, Instrument b => source_covers a b
  | PlatformRelay a ar, PlatformRelay b br => bool_decide (ar = br) && source_covers a b
  | _, _ => bool_decide (par = child)
  end.

Definition covers_observation_permission (self : ClosedCatalog) (held wanted : ObservationPermission)
    : bool :=
  bool_decide (policy_domain held = policy_domain wanted) &&
  bool_decide (entry held = entry wanted) &&
  bool_decide (producer_class held = producer_class wanted) &&
  bool_decide (channel held = channel wanted) &&
  covers_subject self (subject held) (subject wanted) &&
  binding_covers (binding held) (binding wanted).

Definition covers_scope (self : ClosedCatalog) (par child : ObservationScope) : bool :=
  forallb (λ wanted, existsb (λ held, covers_observation_permission self held wanted) (permissions par))
    (permissions child).

Definition covers_right (self : ClosedCatalog) (held child : RightSpec) : bool :=
  match held, child with
  | RecordObservation a, RecordObservation b => covers_scope self a b
  | GrantAdmin a, GrantAdmin b =>
      bool_decide (admin_namespace a = admin_namespace b) &&
      match admin_target a, admin_target b with
      | TargetRecordObservation a, TargetRecordObservation b => covers_scope self a b
      | _, _ => false
      end
  | _, _ => false
  end.

Definition covers_rights (self : ClosedCatalog) (par requested : list RightSpec) : bool :=
  forallb (λ child, existsb (λ held, covers_right self held child) par) requested.
