(* ===== verification/DurablePermissionFacts.v ===== *)
(** Facts of DurablePermission: intervals and coverage against what they
    permit, the invariant of a provisioned catalog, and what a validated list of
    rights guarantees. *)

From Stdlib Require Import NArith ZArith Ascii String.
From stdpp Require Import base tactics list numbers strings sorting gmap.
From S2P Require Import Prelude RustStr LionVec LionRights DurableTypes DurableCodec DurableCodecLaws DurablePermission.

(** ** Generic facts *)

Lemma slice_contains_spec {T} `{EqDecision T} (l : list T) x : contains l x = true ↔ x ∈ l.
Proof. apply bool_decide_eq_true. Qed.

Lemma p_bind_Ok {A B} (m : panics A) (k : A → panics B) b :
  p_bind m k = Some (Ok b) ↔ ∃ a, m = Some (Ok a) ∧ k a = Some (Ok b).
Proof. destruct m as [[]|]; simpl; naive_solver. Qed.

Lemma p_bind_None {A B} (m : panics A) (k : A → panics B) :
  p_bind m k = None ↔ m = None ∨ ∃ a, m = Some (Ok a) ∧ k a = None.
Proof. destruct m as [[]|]; simpl; naive_solver. Qed.

(** Invert a successful chain of panicking steps. *)
Ltac inv_panics H :=
  repeat match type of H with
  | p_bind _ _ = Some (Ok _) =>
      let a := fresh "a" in let Ha := fresh "Ha" in
      apply p_bind_Ok in H as (a & Ha & H)
  | (if ?b then _ else _) = Some (Ok _) => let E := fresh "E" in destruct b eqn:E; [discriminate H|]
  end.

Lemma try_fold_ind {A T E} (f : A → T → result A E) (P : list T → A → Prop) acc l r :
  P [] acc → (∀ done x a a', P done a → f a x = Ok a' → P (done ++ [x]) a') →
  try_fold f acc l = Ok r → P l r.
Proof.
  intros H0 Hs. assert (∀ done a, P done a → try_fold f a l = Ok r → P (done ++ l) r) as H; [|by apply (H [])].
  induction l as [|x l IH]; intros done a Ha Hf; simpl in Hf.
  - simplify_eq. by rewrite app_nil_r.
  - apply res_bind_Ok in Hf as (a' & Hx & Hf). rewrite cons_middle, (assoc_L (++)).
    eapply IH; [|done]. eauto.
Qed.

Lemma try_fold_inv {A T E} (f : A → T → result A E) (P : A → Prop) acc l r :
  P acc → (∀ x a a', P a → f a x = Ok a' → P a') → try_fold f acc l = Ok r → P r.
Proof. intros H0 Hs. apply (try_fold_ind f (λ _, P)); eauto. Qed.

Lemma insert_new_Ok {K V} `{OrdLaws K} (k : K) (v : V) m e m' :
  bm_wf m → insert_new k v m e = Ok m' →
  bm_get k m = None ∧ bm_wf m' ∧
  ∀ k' v', bm_get k' m' = Some v' ↔ (k' = k ∧ v' = v) ∨ bm_get k' m = Some v'.
Proof.
  intros Hm. unfold insert_new, bm_contains. destruct (bm_get k m) eqn:E; [done|].
  intros [= <-]. split_and!; [done|by apply bm_insert_wf|]. intros k' v'.
  assert (k' = k ∨ k' ≠ k) as [->|Hk].
  { destruct (cmp k' k) eqn:Hc; [left; by apply cmp_eq|right; intros ->; by rewrite cmp_refl in Hc..]. }
  - rewrite bm_get_insert_eq, E. naive_solver.
  - rewrite bm_get_insert_ne by done. naive_solver.
Qed.

(** ** Sorted collections *)

(** The encodings of a sorted and unique collection increase strictly. *)
Definition increasing {T} `{Wire T} (l : list T) : Prop :=
  ∃ bs, Forall2 (λ v b, encode v = Ok b) l bs ∧ StronglySorted cmp_lt bs.

Lemma sorted_from_Ok {T} `{Wire T} (prev : option (list N)) (l : list T) :
  sorted_from prev l = Ok () →
  ∃ bs, Forall2 (λ v b, encode v = Ok b) l bs ∧ StronglySorted cmp_lt bs ∧
        ∀ p, prev = Some p → Forall (cmp_lt p) bs.
Proof.
  revert prev. induction l as [|x l IH]; intros prev Hs; simpl in Hs.
  - exists []. repeat constructor.
  - apply res_bind_Ok in Hs as (b & Hb & Hs).
    destruct (match prev with Some p => _ | None => false end) eqn:E; [done|].
    apply IH in Hs as (bs & H1 & H2 & H3). specialize (H3 b eq_refl).
    exists (b :: bs). split_and!; [by constructor|by constructor|].
    intros p ->. assert (cmp_lt p b) as Hp by (unfold cmp_lt; by destruct (cmp p b)).
    constructor; [done|]. eapply Forall_impl; [exact H3|]. intros y. by apply cmp_trans.
Qed.

Lemma sorted_unique_Ok {T} `{Wire T} (l : list T) required :
  sorted_unique l required = Ok () →
  increasing l ∧ (items l ≤ MAX_COLLECTION_ITEMS)%N ∧ (required = true → l ≠ []).
Proof.
  unfold sorted_unique, collection. intros H1. apply res_bind_Ok in H1 as ([] & H1 & H2).
  apply res_bind_Ok in H1 as ([] & Hb%bound_Ok & H1).
  apply sorted_from_Ok in H2 as (bs & ? & ? & _). split_and!; [by exists bs|done|].
  intros -> ->. done.
Qed.

Lemma increasing_NoDup {T} `{Wire T} (l : list T) : increasing l → NoDup l.
Proof.
  intros (bs & Hl & Hs). apply cmp_sorted_NoDup in Hs. revert Hs.
  induction Hl as [|x b l bs Hx Hl IH]; intros Hd; [constructor|].
  apply NoDup_cons in Hd as [Hn Hd]. constructor; [|auto].
  intros Hin. apply Hn. apply list_elem_of_lookup in Hin as [i Hi].
  destruct (Forall2_lookup_l _ _ _ _ _ Hl Hi) as (b' & Hb' & Hx').
  rewrite Hx in Hx'. simplify_eq. by eapply list_elem_of_lookup_2.
Qed.

(** Between two byte strings with a common prefix, every string has it. *)
Lemma prefix_between (p x y b : list N) :
  cmp_lt (p ++ x) b → cmp_lt b (p ++ y) → ∃ z, b = p ++ z.
Proof.
  revert b. induction p as [|n p IH]; intros b H1 H2; [by exists b|].
  destruct b as [|m b]; [done|]. unfold cmp_lt in *. simpl in *.
  change (then_cmp (cmp n m) (cmp (p ++ x) b) = Lt) in H1.
  change (then_cmp (cmp m n) (cmp b (p ++ y)) = Lt) in H2.
  rewrite (cmp_flip n m) in H2. unfold then_cmp in *.
  destruct (cmp n m) eqn:E; simpl in *; try done. apply cmp_eq in E as ->.
  destruct (IH b H1 H2) as [z ->]. by exists z.
Qed.

Lemma spec_encoding (s : ArgumentSpec) b :
  encode s = Ok b →
  (text_len (spec_name s) ≤ MAX_RECORD_BYTES)%N ∧
  ∃ k, b = be_encode 4 (text_len (spec_name s)) ++ as_bytes (spec_name s) ++ k.
Proof.
  intros E%emits_encode. destruct s as [n k]. open_wire_in E. cbn [spec_name spec_kind] in *.
  apply emits_split in E as (b1 & b2 & E1 & _ & ->); [|solve [solve_regular]..].
  change (emits (put_blob (as_bytes n)) b1) in E1. unfold put_blob in E1.
  apply emits_check in E1 as [Hb%bound_Ok E1].
  apply emits_split in E1 as (b3 & b4 & E3 & E4 & ->); [|apply write_regular|apply regular_put].
  apply emits_put_inv in E4 as <-. apply emits_put_inv in E3 as <-.
  unfold items in *. rewrite length_as_bytes in *.
  rewrite be_u32_small by (unfold MAX_RECORD_BYTES in Hb; lia). split; [done|].
  exists b2. by rewrite <-(assoc_L (++)).
Qed.

(** A schema between two others of the same name has that name. *)
Lemma name_between s s' t b b' c :
  encode s = Ok b → encode s' = Ok b' → encode t = Ok c →
  cmp_lt b b' → cmp_lt b' c → spec_name s = spec_name t → spec_name s = spec_name s'.
Proof.
  intros [Ls [k ->]]%spec_encoding [Ls' [k' ->]]%spec_encoding [_ [k'' ->]]%spec_encoding H1 H2 Ht.
  rewrite <-Ht in *. rewrite !(assoc_L (++)) in H1, H2.
  destruct (prefix_between _ _ _ _ H1 H2) as [z Hz]. rewrite <-!(assoc_L (++)) in Hz.
  apply app_inj_1 in Hz as [Hlen Hz]; [|by rewrite !length_to_be].
  assert (text_len (spec_name s') = text_len (spec_name s)) as Hl.
  { apply (f_equal be_decode) in Hlen. unfold MAX_RECORD_BYTES in *.
    rewrite !from_be_to_be in Hlen by (change (256 ^ N.of_nat 4)%N with 4294967296%N; lia). done. }
  apply app_inj_1 in Hz as [Hz _]; [by apply as_bytes_inj|].
  pose proof (length_as_bytes (spec_name s')). pose proof (length_as_bytes (spec_name s)). lia.
Qed.

(** A schema sorted by encoding with no equal neighbours has distinct names. *)
Lemma schema_names (l : list ArgumentSpec) :
  increasing l → adjacent_names l = false → NoDup (spec_name <$> l).
Proof.
  intros (bs & Hl & Hs). revert Hs.
  induction Hl as [|s b l bs Hb Hl IH]; intros Hs Hadj; [constructor|].
  apply StronglySorted_cons in Hs as [Hlt Hs].
  destruct Hl as [|s' b' l bs Hb' Hl]; [by repeat constructor; set_solver|].
  cbn [adjacent_names] in Hadj. apply orb_false_iff in Hadj as [Hne%bool_decide_eq_false Hadj].
  cbn [fmap list_fmap]. constructor; [|by apply IH].
  intros Hin. apply Hne. apply elem_of_cons in Hin as [?|Hin]; [done|].
  apply list_elem_of_fmap in Hin as (t & Ht & Hin). apply list_elem_of_lookup in Hin as [i Hi].
  destruct (Forall2_lookup_l _ _ _ _ _ Hl Hi) as (c & Hc & Hct).
  apply StronglySorted_cons in Hs as [Hlt' _]. apply Forall_cons in Hlt as [Hb1 _].
  eapply (name_between s s' t); try done.
  rewrite Forall_forall in Hlt'. apply Hlt'. by eapply list_elem_of_lookup_2.
Qed.

(** ** The provisioned catalog *)

(** Every key is the identity of its contract, and every reference between
    contracts resolves. *)
Record catalog_wf (c : ClosedCatalog) : Prop := {
  subjects_wf : bm_wf (subjects c);
  sources_wf : bm_wf (sources c);
  entries_wf : bm_wf (entries c);
  definitions_wf : bm_wf (definitions c);
  runs_wf : bm_wf (runs c);
  subject_ok k s : bm_get k (subjects c) = Some s →
    subject_identity s = k ∧ NoDup (repositories s) ∧ NoDup (membership s).*1 ∧
    (∀ m, m ∈ membership s → m.2 ∈ repositories s) ∧
    (repository_independent s = true → repositories s = [] ∧ membership s = []);
  source_ok k s : bm_get k (sources c) = Some s →
    source_identity s = k ∧ NoDup (known_identities s) ∧ known_identities s ≠ [];
  entry_ok k e : bm_get k (entries c) = Some e →
    entry_identity e = k ∧ is_Some (bm_get (entry_subject_kind e) (subjects c)) ∧
    (∀ s, entry_source_contract e = Some s → is_Some (bm_get s (sources c))) ∧
    NoDup (spec_name <$> authority_arguments e) ∧
    (entry_class e = Platform ↔ is_Some (entry_response_contract e));
  definition_ok k d : bm_get k (definitions c) = Some d →
    definition_digest d = k ∧
    (∀ er, er ∈ reporting_roles d → is_Some (bm_get er.1 (entries c))) ∧
    (∀ a, a ∈ actions d → is_Some (bm_get (action_entry a) (entries c)));
  run_ok k r : bm_get k (runs c) = Some r →
    run_id r = k ∧ is_Some (bm_get (run_definition r) (definitions c)) ∧
    is_Some (bm_get (run_subject_kind r) (subjects c)) ∧ NoDup (bindings r).*1
}.

Lemma bm_contains_is_Some {K V} `{OrdLaws K} k (m : list (K * V)) :
  negb (bm_contains k m) = false → is_Some (bm_get k m).
Proof. unfold bm_contains. destruct (bm_get k m); [by eexists|done]. Qed.

(** Keys inserted one by one, none twice, are distinct. *)
Lemma distinct_keys {K V} `{OrdLaws K} (f : list (K * V) → K * V → EnvelopeResult (list (K * V))) l r :
  (∀ m x m', f m x = Ok m' → bm_get x.1 m = None ∧ m' = bm_insert x.1 x.2 m) →
  try_fold f [] l = Ok r → NoDup l.*1.
Proof.
  intros Hf Hr.
  enough (bm_wf r ∧ NoDup l.*1 ∧ ∀ k, k ∈ l.*1 → is_Some (bm_get k r)) by naive_solver.
  revert Hr. apply (try_fold_ind f (λ l r, bm_wf r ∧ NoDup l.*1 ∧ ∀ k, k ∈ l.*1 → is_Some (bm_get k r))).
  { split_and!; [constructor..|set_solver]. }
  intros done x a a' (Hw & Hd & Hk) [Hn ->]%Hf. rewrite fmap_app. split_and!.
  - by apply bm_insert_wf.
  - apply NoDup_app. split_and!; [done| |apply NoDup_singleton].
    intros k Hin ->%list_elem_of_singleton. destruct (Hk _ Hin) as [? Hs]. congruence.
  - intros k [Hin| ->%list_elem_of_singleton]%elem_of_app; [|by rewrite bm_get_insert_eq].
    destruct (cmp k x.1) eqn:E; [apply cmp_eq in E as ->; by rewrite bm_get_insert_eq|..];
      (rewrite bm_get_insert_ne; [by apply Hk|done|intros ->; by rewrite cmp_refl in E]).
Qed.

Section catalog.
Context `{UuidText}.

(** A map grown by [insert_new] keeps its old lookups. *)
Lemma grown {K V} `{OrdLaws K} (k : K) (v : V) m e m' k' :
  bm_wf m → insert_new k v m e = Ok m' → is_Some (bm_get k' m) → is_Some (bm_get k' m').
Proof. intros Hm (_ & _ & Hg)%insert_new_Ok [x Hx]; [|done]. exists x. apply Hg. by right. Qed.

(** Closing one field of the invariant after an insertion. *)
Ltac after_insert Hins :=
  apply insert_new_Ok in Hins as (? & ? & Hg); [|by eauto using subjects_wf, sources_wf,
    entries_wf, definitions_wf, runs_wf];
  let k := fresh "k" in let v := fresh "v" in
  split; cbn [subjects sources entries definitions runs with_subjects with_sources with_entries
              with_definitions with_runs]; try by eauto using subjects_wf, sources_wf, entries_wf,
    definitions_wf, runs_wf, subject_ok, source_ok, entry_ok, definition_ok, run_ok.

Lemma add_member_Ok s ms x ms' :
  add_member s ms x = Ok ms' →
  bm_get x.1 ms = None ∧ x.2 ∈ repositories s ∧ ms' = bm_insert x.1 x.2 ms.
Proof.
  unfold add_member. intros (_ & _ & Hx)%res_bind_Ok. destruct (negb _ || _) eqn:E; [done|].
  apply orb_false_iff in E as [E1%negb_false_iff%slice_contains_spec E2]. unfold bm_contains in E2.
  destruct (bm_get x.1 ms); by simplify_eq.
Qed.

Lemma add_subject_wf c s c' : catalog_wf c → add_subject c s = Ok c' → catalog_wf c'.
Proof.
  intros Hc Ha. unfold add_subject in Ha. apply res_bind_Ok in Ha as ([] & _ & Ha).
  apply res_bind_Ok in Ha as ([] & (Hrep%increasing_NoDup & _)%sorted_unique_Ok & Ha).
  apply res_bind_Ok in Ha as ([] & _ & Ha).
  destruct (repository_independent s && _) eqn:Hind; [done|].
  apply res_bind_Ok in Ha as ([] & _ & Ha). apply res_bind_Ok in Ha as (ms & Hms & Ha).
  apply res_bind_Ok in Ha as (m & Hins & Ha). simplify_eq/=.
  assert (NoDup (membership s).*1 ∧ ∀ m, m ∈ membership s → m.2 ∈ repositories s) as [Hd Hr].
  { split.
    - apply (distinct_keys (add_member s) _ ms); [|done]. intros m' x m'' Hx.
      by apply add_member_Ok in Hx as (? & ? & ->).
    - revert Hms. apply (try_fold_ind (add_member s) (λ l _, ∀ m, m ∈ l → m.2 ∈ repositories s)); [set_solver|].
      intros done x a a' IH (_ & Hx & _)%add_member_Ok m' [?| ->%list_elem_of_singleton]%elem_of_app; auto. }
  pose proof (λ k, grown _ _ _ _ _ k (subjects_wf _ Hc) Hins) as Hgr.
  after_insert Hins.
  - intros k v [[-> ->]|Hk]%Hg; [|by eapply subject_ok]. split_and!; [done..|].
    intros Hi. rewrite Hi in Hind. by destruct (repositories s), (membership s).
  - intros k e He. destruct (entry_ok _ Hc _ _ He) as (? & ? & ?). eauto.
  - intros k r Hk. destruct (run_ok _ Hc _ _ Hk) as (? & ? & ? & ?). split_and!; auto.
Qed.

Lemma add_source_wf c s c' : catalog_wf c → add_source c s = Ok c' → catalog_wf c'.
Proof.
  intros Hc Ha. unfold add_source in Ha. apply res_bind_Ok in Ha as ([] & _ & Ha).
  apply res_bind_Ok in Ha as ([] & (Hi%increasing_NoDup & _ & Hne)%sorted_unique_Ok & Ha).
  apply res_bind_Ok in Ha as ([] & _ & Ha).
  apply res_bind_Ok in Ha as (m & Hins & Ha). simplify_eq/=.
  pose proof (λ k, grown _ _ _ _ _ k (sources_wf _ Hc) Hins) as Hgr.
  after_insert Hins.
  - intros k v [[-> ->]|Hk]%Hg; [|by eapply source_ok]. auto.
  - intros k e He. destruct (entry_ok _ Hc _ _ He) as (? & ? & ? & ?). eauto 10.
Qed.

Lemma check_response_Ok e :
  check_response e = Ok () → entry_class e = Platform ↔ is_Some (entry_response_contract e).
Proof.
  unfold check_response. case_bool_decide as Hp.
  - intros (r & Hr & _)%res_bind_Ok. split; [|done]. intros _.
    destruct (entry_response_contract e); [by eexists|done].
  - destruct (entry_response_contract e); [done|]. intros _. split; [done|]. by intros [].
Qed.

Lemma add_entry_wf c e c' : catalog_wf c → add_entry c e = Ok c' → catalog_wf c'.
Proof.
  intros Hc Ha. unfold add_entry in Ha. apply res_bind_Ok in Ha as ([] & _ & Ha).
  apply res_bind_Ok in Ha as ([] & (Hi & _)%sorted_unique_Ok & Ha).
  destruct (adjacent_names _) eqn:Hadj; [done|]. apply res_bind_Ok in Ha as ([] & _ & Ha).
  destruct (negb (bm_contains (entry_subject_kind e) _)) eqn:Hs; [done|].
  apply bm_contains_is_Some in Hs. apply res_bind_Ok in Ha as ([] & Hsrc & Ha).
  apply res_bind_Ok in Ha as ([] & Hresp%check_response_Ok & Ha).
  apply res_bind_Ok in Ha as (m & Hins & Ha). simplify_eq/=.
  pose proof (λ k, grown _ _ _ _ _ k (entries_wf _ Hc) Hins) as Hgr.
  after_insert Hins.
  - intros k v [[-> ->]|Hk]%Hg; [|by eapply entry_ok]. split_and!; [done|done| |by apply schema_names|done].
    intros s Hes. rewrite Hes in Hsrc. destruct (negb _) eqn:E; [done|]. by apply bm_contains_is_Some.
  - intros k d Hd. destruct (definition_ok _ Hc _ _ Hd) as (? & ? & ?). split_and!; auto.
Qed.

Lemma add_definition_wf c d c' : catalog_wf c → add_definition c d = Ok c' → catalog_wf c'.
Proof.
  intros Hc Ha. unfold add_definition in Ha. apply res_bind_Ok in Ha as ([] & _ & Ha).
  apply res_bind_Ok in Ha as ([] & _ & Ha).
  apply res_bind_Ok in Ha as ([] & H1%try_each_Ok & Ha). apply res_bind_Ok in Ha as ([] & H2%try_each_Ok & Ha).
  apply res_bind_Ok in Ha as (m & Hins & Ha). simplify_eq/=. rewrite Forall_forall in H1. rewrite Forall_forall in H2.
  pose proof (λ k, grown _ _ _ _ _ k (definitions_wf _ Hc) Hins) as Hgr.
  after_insert Hins.
  - intros k v [[-> ->]|Hk]%Hg; [|by eapply definition_ok]. split_and!; [done|..].
    + intros er Hin. specialize (H1 er Hin). destruct (negb _) eqn:E; [done|]. by apply bm_contains_is_Some.
    + intros a Hin. specialize (H2 a Hin). destruct (negb _) eqn:E; [done|]. by apply bm_contains_is_Some.
  - intros k r Hk. destruct (run_ok _ Hc _ _ Hk) as (? & ? & ? & ?). split_and!; auto.
Qed.

Lemma add_run_wf c r c' : catalog_wf c → add_run c r = Ok c' → catalog_wf c'.
Proof.
  intros Hc Ha. unfold add_run in Ha. apply res_bind_Ok in Ha as ([] & _ & Ha).
  apply res_bind_Ok in Ha as ([] & _ & Ha). apply res_bind_Ok in Ha as ([] & _ & Ha).
  destruct (negb _) eqn:Hd; [done|]. apply bm_contains_is_Some in Hd.
  apply res_bind_Ok in Ha as (s & Hs & Ha). apply res_bind_Ok in Ha as ([] & _ & Ha).
  apply res_bind_Ok in Ha as (rs & Hr & Ha). apply res_bind_Ok in Ha as (m & Hins & Ha). simplify_eq/=.
  assert (NoDup (bindings r).*1) as Hnd.
  { apply (distinct_keys add_role _ rs); [|done]. intros m' x m'' Hx. unfold add_role, insert_new in Hx.
    apply res_bind_Ok in Hx as ([] & _ & Hx). apply res_bind_Ok in Hx as ([] & _ & Hx).
    unfold bm_contains in Hx. destruct (bm_get x.1 m'); simplify_eq. done. }
  after_insert Hins.
  intros k v [[-> ->]|Hk]%Hg; [|by eapply run_ok]. split_and!; [done|done| |done].
  destruct (bm_get (run_subject_kind r) (subjects c)); [by eexists|done].
Qed.

(** C24: A catalog that [provision] accepts is well formed: the maps are keyed by
    the contracts' identities, repository memberships are functional and within
    the declared repositories, argument names are distinct, and every subject,
    source, entry, definition and role a contract refers to is present. *)
Theorem provision_wf ss cs es ds rs c : provision ss cs es ds rs = Ok c → catalog_wf c.
Proof.
  intros Hp. unfold provision in Hp. inv_res Hp. simpl in *.
  assert (catalog_wf {| subjects := []; sources := []; entries := []; definitions := []; runs := [] |}) as H0.
  { split; simpl; by (constructor || done). }
  eapply (try_fold_inv add_subject catalog_wf) in H0; [|eauto using add_subject_wf|done].
  eapply (try_fold_inv add_run catalog_wf); [|eauto using add_run_wf|done].
  eapply (try_fold_inv add_definition catalog_wf); [|eauto using add_definition_wf|done].
  eapply (try_fold_inv add_entry catalog_wf); [|eauto using add_entry_wf|done].
  eapply (try_fold_inv add_source catalog_wf); eauto using add_source_wf.
Qed.
End catalog.

(** ** Validity intervals *)

Lemma contains_bounds v now :
  Validity_contains v now = true ↔
  (as_micros (not_before v) ≤ as_micros now)%N ∧
  ∀ e, expires_at v = Some e → (as_micros now < as_micros e)%N.
Proof.
  unfold Validity_contains, ts_leb, ts_ltb. rewrite andb_true_iff, N.leb_le.
  destruct (expires_at v) as [e|]; [rewrite N.ltb_lt|]; naive_solver.
Qed.

Lemma covers_bounds par child :
  Validity_covers par child = true ↔
  (as_micros (not_before par) ≤ as_micros (not_before child))%N ∧
  ∀ e, expires_at par = Some e →
    ∃ e', expires_at child = Some e' ∧ (as_micros e' ≤ as_micros e)%N.
Proof.
  unfold Validity_covers, ts_leb. rewrite andb_true_iff, N.leb_le.
  destruct (expires_at par), (expires_at child); rewrite ?N.leb_le; naive_solver.
Qed.

(** For a valid child interval, [covers] is inclusion of the instants the two
    intervals contain. *)
Theorem validity_covers_spec (par child : Validity) :
  typed par → typed child → Validity_validate child = Ok () →
  Validity_covers par child = true ↔
  ∀ now : Timestamp, typed now → Validity_contains child now = true → Validity_contains par now = true.
Proof.
  intros Hp Hc Hv. rewrite covers_bounds. setoid_rewrite contains_bounds.
  assert (∀ e, expires_at child = Some e → (as_micros (not_before child) < as_micros e)%N) as Hne.
  { intros e He. unfold Validity_validate, ts_leb in Hv. rewrite He in Hv.
    destruct (N.leb_spec (as_micros e) (as_micros (not_before child))); [done|lia]. }
  split.
  - intros [Hb He] now Hn [H1 H2]. split; [lia|]. intros e Hpe.
    destruct (He _ Hpe) as (e' & He' & Hle). specialize (H2 _ He'). lia.
  - intros Hsub. split.
    + destruct (Hsub (not_before child)) as [? _]; [apply Hc| |done]. split; [lia|]. by apply Hne.
    + intros e Hpe. assert (typed e) as Hte.
      { destruct Hp as [_ Hp]. unfold typed, option_Typed in Hp. by rewrite Hpe in Hp. }
      destruct (expires_at child) as [e'|] eqn:Hce.
      * exists e'. split; [done|]. apply N.le_ngt. intros Hlt.
        specialize (Hne e' eq_refl).
        destruct (Hsub {| as_micros := N.max (as_micros e) (as_micros (not_before child)) |}) as [_ H2].
        { destruct Hc as [Hc _]. unfold typed, Timestamp_Typed, typed, uint_Typed in *. simpl in *. lia. }
        { simpl. split; [lia|]. intros ? [= <-]. lia. }
        specialize (H2 _ Hpe). simpl in H2. lia.
      * exfalso. destruct (Hsub {| as_micros := N.max (as_micros e) (as_micros (not_before child)) |}) as [_ H2].
        { destruct Hc as [Hc _]. unfold typed, Timestamp_Typed, typed, uint_Typed in *. simpl in *. lia. }
        { simpl. split; [lia|done]. }
        specialize (H2 _ Hpe). simpl in H2. lia.
Qed.

Definition interval (a : u64) (b : option u64) : Validity :=
  {| not_before := {| as_micros := a |}; expires_at := (λ e, {| as_micros := e |}) <$> b |}.

Lemma validity_covers_witness :
  (Validity_covers (interval 1 (Some 9%N)) (interval 2 (Some 9%N)) = true ↔
   ∀ now : Timestamp, typed now → Validity_contains (interval 2 (Some 9%N)) now = true →
     Validity_contains (interval 1 (Some 9%N)) now = true) ∧
  Validity_covers (interval 1 (Some 9%N)) (interval 2 (Some 9%N)) = true ∧
  Validity_covers (interval 1 (Some 9%N)) (interval 2 None) = false.
Proof.
  split; [|by split]. apply (validity_covers_spec (interval 1 (Some 9%N)) (interval 2 (Some 9%N))); done.
Defined.

Lemma validity_covers_refl v : Validity_covers v v = true.
Proof. apply covers_bounds. split; [lia|]. intros e ->. by exists e. Qed.

Lemma validity_covers_trans a b c :
  Validity_covers a b = true → Validity_covers b c = true → Validity_covers a c = true.
Proof.
  rewrite !covers_bounds. intros [H1 H2] [H3 H4]. split; [lia|]. intros e He.
  destruct (H2 _ He) as (e' & He' & ?). destruct (H4 _ He') as (e'' & ? & ?). exists e''. split; [done|lia].
Qed.

(** ** Coverage *)

(** A submitted observation, as a permission is matched against it. *)
Inductive Submission : Type :=
| ByInstrument (contract : ContractRef) (identity : ExactBytes) (args : ExactArguments)
| ByRelay (contract response : ContractRef) (identity : ExactBytes) (args : ExactArguments)
| ByActor (b : SubmissionBinding).

Record Observation := {
  ob_domain : string;
  ob_entry : ContractRef;
  ob_class : ProducerClass;
  ob_channel : SubmissionChannel;
  ob_kind : ContractRef;
  ob_reference : ExactBytes;
  ob_submission : Submission
}.

Definition source_allows (s : SourceBinding) (c : ContractRef) (i : ExactBytes) (a : ExactArguments) : Prop :=
  source_contract_ref s = c ∧ i ∈ source_identities s ∧ a ∈ source_arguments s.

Definition binding_allows (b : SubmissionBinding) (s : Submission) : Prop :=
  match b, s with
  | Instrument src, ByInstrument c i a => source_allows src c i a
  | PlatformRelay src resp, ByRelay c r i a => source_allows src c i a ∧ resp = r
  | Instrument _, _ | PlatformRelay _ _, _ => False
  | _, ByActor b' => b = b'
  | _, _ => False
  end.

Definition permission_allows (c : ClosedCatalog) (p : ObservationPermission) (o : Observation) : Prop :=
  policy_domain p = ob_domain o ∧ entry p = ob_entry o ∧ producer_class p = ob_class o ∧
  channel p = ob_channel o ∧ subject_kind (subject p) = ob_kind o ∧
  subject_contains c (subject p) (ob_reference o) = true ∧ binding_allows (binding p) (ob_submission o).

(** The observations a holder may record, and those a holder may grant in a
    namespace. *)
Definition may_record (c : ClosedCatalog) (rs : list RightSpec) (o : Observation) : Prop :=
  ∃ scope p, RecordObservation scope ∈ rs ∧ p ∈ permissions scope ∧ permission_allows c p o.
Definition may_grant (c : ClosedCatalog) (rs : list RightSpec) (ns : string) (o : Observation) : Prop :=
  ∃ scope p, GrantAdmin {| admin_namespace := ns; admin_target := TargetRecordObservation scope |} ∈ rs ∧
    p ∈ permissions scope ∧ permission_allows c p o.

Section coverage.
Context (c : ClosedCatalog).

Lemma covers_subject_kind par child : covers_subject c par child = true → subject_kind par = subject_kind child.
Proof. unfold covers_subject. by case_bool_decide. Qed.

Lemma subject_contains_exact par refs :
  forallb (subject_contains c par) refs = true ↔ ∀ r, r ∈ refs → subject_contains c par r = true.
Proof. rewrite forallb_forall. setoid_rewrite list_elem_of_In. done. Qed.

Lemma forallb_contains {T} `{EqDecision T} (a b : list T) :
  forallb (contains a) b = true ↔ ∀ x, x ∈ b → x ∈ a.
Proof.
  rewrite forallb_forall. setoid_rewrite <-list_elem_of_In.
  split; intros Hs x Hx; [by apply slice_contains_spec, Hs|by apply slice_contains_spec, Hs].
Qed.

(** A covering scope contains what the covered one contains. *)
Lemma covers_subject_sound par child r :
  covers_subject c par child = true → subject_contains c child r = true →
  subject_contains c par r = true.
Proof.
  intros Hcov. pose proof (covers_subject_kind _ _ Hcov) as Hk. revert Hcov.
  unfold covers_subject. rewrite bool_decide_true by done. cbn [negb].
  destruct child as [k csel], par as [k' psel]. simpl in *. subst k'.
  destruct csel as [refs|rb|].
  - assert (forallb (subject_contains c {| subject_kind := k; selector := psel |}) refs = true →
            subject_contains c {| subject_kind := k; selector := Exact refs |} r = true →
            subject_contains c {| subject_kind := k; selector := psel |} r = true) as Hgoal.
    { intros Hcov Hr. apply subject_contains_exact with refs; [done|]. unfold subject_contains in Hr.
      simpl in Hr. destruct (bm_get k (subjects c)); [|done]. by apply slice_contains_spec. }
    by destruct psel.
  - destruct psel as [|ra|]; [done| |done]. rewrite forallb_contains. intros Hcov.
    unfold subject_contains. simpl. destruct (bm_get k (subjects c)) as [s|]; [|done].
    rewrite !existsb_exists. intros (m & Hin & [Hm Hrep]%andb_prop). exists m. split; [done|].
    rewrite Hm. simpl. apply slice_contains_spec, Hcov. by apply slice_contains_spec.
  - by destruct psel.
Qed.

Lemma covers_subject_trans a b d :
  covers_subject c a b = true → covers_subject c b d = true → covers_subject c a d = true.
Proof.
  intros Hab Hbd. pose proof (covers_subject_kind _ _ Hab) as K1. pose proof (covers_subject_kind _ _ Hbd) as K2.
  pose proof (covers_subject_sound a b) as Hs. revert Hab Hbd. unfold covers_subject.
  rewrite !bool_decide_true by congruence. cbn [negb]. intros Hab Hbd.
  destruct (selector d) as [refs|rd|].
  - assert (∀ r, r ∈ refs → subject_contains c b r = true) as Hb.
    { apply subject_contains_exact. by destruct (selector b). }
    assert (forallb (subject_contains c a) refs = true); [|by destruct (selector a)].
    apply subject_contains_exact. intros r Hr. apply Hs; [|by apply Hb].
    unfold covers_subject. by rewrite bool_decide_true by done.
  - destruct (selector b) as [|rb|]; [done| |done]. destruct (selector a) as [|ra|]; [done| |done].
    rewrite forallb_contains in *. auto.
  - destruct (selector b); [done..|]. by destruct (selector a).
Qed.

Lemma source_covers_spec a b :
  source_covers a b = true ↔
  source_contract_ref a = source_contract_ref b ∧
  (∀ i, i ∈ source_identities b → i ∈ source_identities a) ∧
  (∀ x, x ∈ source_arguments b → x ∈ source_arguments a).
Proof.
  unfold source_covers. rewrite !andb_true_iff, !forallb_contains, bool_decide_eq_true. naive_solver.
Qed.

Lemma binding_covers_refl b : binding_covers b b = true.
Proof.
  destruct b; simpl; rewrite ?bool_decide_true by done; simpl; try done; by apply source_covers_spec.
Qed.

Definition source_incl (a b : SourceBinding) : Prop :=
  source_contract_ref a = source_contract_ref b ∧
  (∀ i, i ∈ source_identities b → i ∈ source_identities a) ∧
  (∀ x, x ∈ source_arguments b → x ∈ source_arguments a).

Lemma binding_covers_spec a b :
  binding_covers a b = true ↔
  match a, b with
  | Instrument a, Instrument b => source_incl a b
  | PlatformRelay a ar, PlatformRelay b br => ar = br ∧ source_incl a b
  | _, _ => a = b
  end.
Proof.
  destruct a, b; simpl; rewrite ?andb_true_iff, ?source_covers_spec, ?bool_decide_eq_true; done.
Qed.

Lemma source_incl_trans a b d : source_incl a b → source_incl b d → source_incl a d.
Proof. intros (? & ? & ?) (? & ? & ?). split_and!; [congruence|eauto..]. Qed.

Lemma binding_covers_trans a b d :
  binding_covers a b = true → binding_covers b d = true → binding_covers a d = true.
Proof.
  rewrite !binding_covers_spec.
  destruct a, b; try done; try (intros [=]; subst; done); destruct d; try done.
  - apply source_incl_trans.
  - intros [-> ?] [-> ?]. split; [done|]. by eapply source_incl_trans.
Qed.

Lemma binding_covers_sound a b s : binding_covers a b = true → binding_allows b s → binding_allows a s.
Proof.
  rewrite binding_covers_spec. unfold binding_allows, source_allows, source_incl.
  destruct a, b; try done; try (intros E; rewrite E; tauto); destruct s; try done.
  - intros (? & ? & ?) (? & ? & ?). split_and!; [congruence|eauto..].
  - intros (? & ? & ? & ?) ((? & ? & ?) & ?). split_and!; [congruence|eauto..|congruence].
Qed.

Lemma covers_permission_spec held wanted :
  covers_observation_permission c held wanted = true ↔
  policy_domain held = policy_domain wanted ∧ entry held = entry wanted ∧
  producer_class held = producer_class wanted ∧ channel held = channel wanted ∧
  covers_subject c (subject held) (subject wanted) = true ∧
  binding_covers (binding held) (binding wanted) = true.
Proof. unfold covers_observation_permission. rewrite !andb_true_iff, !bool_decide_eq_true. naive_solver. Qed.

Lemma covers_permission_trans p q r :
  covers_observation_permission c p q = true → covers_observation_permission c q r = true →
  covers_observation_permission c p r = true.
Proof.
  rewrite !covers_permission_spec. intros (? & ? & ? & ? & ? & ?) (? & ? & ? & ? & ? & ?).
  split_and!; try congruence; eauto using covers_subject_trans, binding_covers_trans.
Qed.

Lemma covers_permission_sound held wanted o :
  covers_observation_permission c held wanted = true → permission_allows c wanted o →
  permission_allows c held o.
Proof.
  rewrite covers_permission_spec. intros (? & ? & ? & ? & Hs & Hb) (? & ? & ? & ? & ? & ? & ?).
  pose proof (covers_subject_kind _ _ Hs). unfold permission_allows.
  split_and!; try congruence; eauto using covers_subject_sound, binding_covers_sound.
Qed.

Lemma covers_scope_spec a b :
  covers_scope c a b = true ↔
  ∀ q, q ∈ permissions b → ∃ p, p ∈ permissions a ∧ covers_observation_permission c p q = true.
Proof.
  unfold covers_scope. rewrite forallb_forall. setoid_rewrite existsb_exists.
  setoid_rewrite <-list_elem_of_In. done.
Qed.

Lemma covers_scope_trans a b d :
  covers_scope c a b = true → covers_scope c b d = true → covers_scope c a d = true.
Proof.
  rewrite !covers_scope_spec. intros H1 H2 r Hr. destruct (H2 r Hr) as (q & Hq & Hqr).
  destruct (H1 q Hq) as (p & Hp & Hpq). eauto using covers_permission_trans.
Qed.

Lemma covers_right_trans a b d :
  covers_right c a b = true → covers_right c b d = true → covers_right c a d = true.
Proof.
  destruct a, b; try done; destruct d; try done; simpl; [apply covers_scope_trans|].
  rewrite !andb_true_iff, !bool_decide_eq_true. intros [-> H1] [-> H2]. split; [done|].
  destruct (admin_target v), (admin_target v0); try done. destruct (admin_target v1); try done.
  by eapply covers_scope_trans.
Qed.

Lemma covers_rights_spec a b :
  covers_rights c a b = true ↔ ∀ q, q ∈ b → ∃ p, p ∈ a ∧ covers_right c p q = true.
Proof.
  unfold covers_rights. rewrite forallb_forall. setoid_rewrite existsb_exists.
  setoid_rewrite <-list_elem_of_In. done.
Qed.

Lemma covers_rights_trans a b d :
  covers_rights c a b = true → covers_rights c b d = true → covers_rights c a d = true.
Proof.
  rewrite !covers_rights_spec. intros H1 H2 r Hr. destruct (H2 r Hr) as (q & Hq & Hqr).
  destruct (H1 q Hq) as (p & Hp & Hpq). eauto using covers_right_trans.
Qed.

Lemma covers_record held scope o p :
  covers_right c held (RecordObservation scope) = true → p ∈ permissions scope →
  permission_allows c p o → ∃ scope' p', held = RecordObservation scope' ∧ p' ∈ permissions scope' ∧
    permission_allows c p' o.
Proof.
  destruct held; try done. simpl. rewrite covers_scope_spec. intros Hs Hp Ha.
  destruct (Hs p Hp) as (q & Hq & Hc). eauto 10 using covers_permission_sound.
Qed.

Lemma covers_rights_sound a b :
  covers_rights c a b = true →
  (∀ o, may_record c b o → may_record c a o) ∧ (∀ ns o, may_grant c b ns o → may_grant c a ns o).
Proof.
  rewrite covers_rights_spec. intros Hcov. split.
  - intros o (scope & p & Hin & Hp & Ha). destruct (Hcov _ Hin) as (held & Hheld & Hc).
    destruct (covers_record _ _ _ _ Hc Hp Ha) as (s' & p' & -> & ? & ?). by exists s', p'.
  - intros ns o (scope & p & Hin & Hp & Ha). destruct (Hcov _ Hin) as (held & Hheld & Hc).
    destruct held as [| | | | | |[ns' t]]; try done. simpl in Hc.
    apply andb_true_iff in Hc as [->%bool_decide_eq_true Hc]. destruct t as [| | | | |s']; try done.
    rewrite covers_scope_spec in Hc. destruct (Hc p Hp) as (q & Hq & Hpq).
    exists s', q. eauto using covers_permission_sound.
Qed.
End coverage.
