(* ===== verification/DurableRights.v ===== *)
(** What DurablePermission's validation of a grant's rights guarantees: no
    panic, the carrier rights it returns, and the binding of every recorded
    observation to the grantee. *)

From Stdlib Require Import NArith ZArith Ascii String.
From stdpp Require Import base tactics list numbers strings sorting gmap.
From S2P Require Import Prelude RustStr LionVec LionRights DurableTypes DurableCodec DurableCodecLaws DurablePermission DurablePermissionFacts.

Section rights.
Context `{UuidText} (c : ClosedCatalog).

(** ** Panics *)

Lemma validate_permission_total p g : validate_permission c p g ≠ None.
Proof.
  unfold validate_permission. destruct (nonempty _) as [[]|]; [simpl|done].
  destruct (is_claim_time (binding p)) eqn:E; [done|]. destruct (_ || _); [done|].
  destruct (ok_or _ _); [simpl|done]. destruct (_ || _); [done|].
  destruct (validate_subject _ _) as [[]|]; [simpl|done].
  destruct (binding p); try done. by destruct (negb _).
Qed.

Lemma validate_permissions_total g seen ps : validate_permissions c g seen ps ≠ None.
Proof.
  revert seen. induction ps as [|p ps IH]; intros seen; simpl; [done|].
  destruct (contains seen p); [done|]. intros [Hp|([] & _ & Hp)]%p_bind_None.
  - by eapply validate_permission_total.
  - by eapply IH.
Qed.

Lemma validate_rights_total rs ns g b : validate_rights_inner c rs ns g b ≠ None.
Proof.
  unfold validate_rights_inner. intros [?|([] & _ & [?|([] & _ & [?|([] & _ & Hl)]%p_bind_None)]%p_bind_None)]%p_bind_None;
    [done..|]. revert Hl. generalize Rights_empty. induction rs as [|r rs IH]; intros acc; cbn [validate_rights_loop]; [done|].
  intros [?|([k s] & _ & [?|([] & _ & [Hp|([] & _ & Hl)]%p_bind_None)]%p_bind_None)]%p_bind_None; try done.
  - by eapply validate_permissions_total.
  - by eapply IH.
Qed.

(** ** Validated rights *)

Definition producer_bound (bind_producer : bool) (r : RightSpec) (g : Principal) : option Principal :=
  if bind_producer && is_record r then Some g else None.

Definition right_ok (ns : string) (g : Principal) (b : bool) (r : RightSpec) : Prop :=
  ∃ k scope, right_scope r ns g = Ok (k, scope) ∧
    permissions scope ≠ [] ∧ (items (permissions scope) ≤ MAX_COLLECTION_ITEMS)%N ∧
    NoDup (permissions scope) ∧
    ∀ p, p ∈ permissions scope → validate_permission c p (producer_bound b r g) = Some (Ok ()).

Lemma validate_permissions_Ok g seen ps :
  NoDup seen → validate_permissions c g seen ps = Some (Ok ()) →
  NoDup (seen ++ ps) ∧ ∀ p, p ∈ ps → validate_permission c p g = Some (Ok ()).
Proof.
  revert seen. induction ps as [|p ps IH]; intros seen Hd Hv; simpl in Hv.
  - rewrite app_nil_r. split; [done|set_solver].
  - destruct (contains seen p) eqn:E; [done|]. apply p_bind_Ok in Hv as ([] & Hp & Hv).
    apply IH in Hv as [H1 H2].
    + rewrite <-(assoc_L (++)) in H1. split; [done|]. intros q [->|?]%elem_of_cons; auto.
    + apply NoDup_app. split_and!; [done| |apply NoDup_singleton].
      intros q Hq ->%list_elem_of_singleton. apply slice_contains_spec in Hq. congruence.
Qed.

Lemma collection_Ok {T} (l : list T) :
  collection l true = Ok () → l ≠ [] ∧ (items l ≤ MAX_COLLECTION_ITEMS)%N.
Proof.
  unfold collection. intros ([] & Hb%bound_Ok & Hc)%res_bind_Ok. split; [|done]. by intros ->.
Qed.

Lemma rights_with_contains r k x :
  Rights_contains (rights_with r k) x = Rights_contains r x || bool_decide (k = x).
Proof.
  unfold rights_with, Rights_insert. simpl. rewrite !contains_testbit. cbn [bits].
  by rewrite N.lor_spec, right_testbit_mask.
Qed.

Lemma rights_with_wf r k : rights_wf r → rights_wf (rights_with r k).
Proof.
  unfold rights_wf, rights_with, Rights_insert. simpl. intros Hr.
  destruct (decide (N.lor (bits r) (as_mask k) = 0%N)) as [->|Hn]; [done|].
  apply N.lt_succ_r. change (N.succ ALL_RIGHTS_MASK) with (2 ^ 10)%N. apply N.log2_lt_pow2; [lia|].
  rewrite N.log2_lor. apply N.max_lub_lt; [|by destruct k].
  destruct (decide (bits r = 0%N)) as [->|]; [done|].
  apply N.log2_lt_pow2; [lia|]. unfold ALL_RIGHTS_MASK in Hr. change (2 ^ 10)%N with 1024%N. lia.
Qed.

Lemma right_scope_carrier r ns g k s :
  right_scope r ns g = Ok (k, s) → k = (if is_record r then Execute else Delegate).
Proof.
  destruct r as [| | | | |?|a]; simpl; try done; [by intros [= <- <-]|].
  case_bool_decide; [done|]. destruct (negb _); [done|]. destruct (admin_target a); try done. by intros [= <- <-].
Qed.

Lemma validate_rights_loop_Ok ns g b acc rs carriers :
  validate_rights_loop c ns g b acc rs = Some (Ok carriers) →
  Forall (right_ok ns g b) rs ∧ (rights_wf acc → rights_wf carriers) ∧
  ∀ x, Rights_contains carriers x = true ↔
    Rights_contains acc x = true ∨ ∃ r, r ∈ rs ∧ x = (if is_record r then Execute else Delegate).
Proof.
  revert acc. induction rs as [|r rs IH]; intros acc Hv; cbn [validate_rights_loop] in Hv.
  - simplify_eq. split_and!; [constructor|done|]. intros x. set_solver.
  - apply p_bind_Ok in Hv as ([k s] & Hs & Hv). apply p_bind_Ok in Hv as ([] & Hcol & Hv).
    apply p_bind_Ok in Hv as ([] & Hp & Hv). apply IH in Hv as (H1 & H2 & H3). simplify_eq.
    destruct (collection_Ok _ Hcol) as [Hne Hle].
    destruct (validate_permissions_Ok _ _ _ (NoDup_nil_2) Hp) as [Hd Hall].
    split_and!.
    + constructor; [|done]. by exists k, s.
    + intros Ha. by apply H2, rights_with_wf.
    + intros x. rewrite H3, rights_with_contains, orb_true_iff, bool_decide_eq_true.
      pose proof (right_scope_carrier _ _ _ _ _ Hs) as Hk. setoid_rewrite elem_of_cons.
      clear -Hk. naive_solver.
Qed.

Lemma validate_rights_Ok rs ns g b carriers :
  validate_rights_inner c rs ns g b = Some (Ok carriers) →
  nonempty ns = Ok () ∧ Principal_validate g = Ok () ∧ rs ≠ [] ∧ NoDup rs ∧
  (items rs ≤ MAX_COLLECTION_ITEMS)%N ∧ Forall (right_ok ns g b) rs ∧ rights_wf carriers ∧
  ∀ x, Rights_contains carriers x = true ↔ ∃ r, r ∈ rs ∧ x = (if is_record r then Execute else Delegate).
Proof.
  unfold validate_rights_inner. intros ([] & Hn & Hv)%p_bind_Ok.
  apply p_bind_Ok in Hv as ([] & Hg & Hv). apply p_bind_Ok in Hv as ([] & Hs & Hv). simplify_eq.
  destruct (sorted_unique_Ok _ _ Hs) as (Hi & Hl & Hne).
  apply validate_rights_loop_Ok in Hv as (H1 & H2 & H3).
  split_and!; [done|done|by apply Hne|by apply increasing_NoDup|done|done|by apply H2|].
  intros x. rewrite H3. assert (Rights_contains Rights_empty x = false) as -> by (by destruct x). naive_solver.
Qed.

(** ** Coverage is reflexive on validated rights *)

Lemma covers_subject_refl s : validate_subject c s = Ok () → covers_subject c s s = true.
Proof.
  unfold validate_subject, covers_subject. intros (contract & Hc & Hv)%res_bind_Ok.
  rewrite bool_decide_true by done. simpl. destruct (bm_get _ _) as [k|] eqn:E; simplify_eq/=.
  destruct (selector s) as [refs|repos|] eqn:Es.
  - apply subject_contains_exact. intros r Hr. unfold subject_contains. rewrite E, Es.
    by apply slice_contains_spec.
  - by apply forallb_contains.
  - by destruct (repository_independent contract).
Qed.

Lemma validate_permission_Ok p g :
  validate_permission c p g = Some (Ok ()) →
  channel p = Observe ∧ producer_class p ≠ System ∧ validate_subject c (subject p) = Ok () ∧
  ∃ e, bm_get (entry p) (entries c) = Some e ∧ producer_class p = entry_class e ∧
    subject_kind (subject p) = entry_subject_kind e ∧
    match binding p with
    | Instrument src => validate_source c p e ClassInstrument src = Ok ()
    | PlatformRelay src resp => entry_response_contract e = Some resp ∧ validate_source c p e Platform src = Ok ()
    | ActorReport run def role => validate_actor_report c p e g run def role = Ok ()
    | ActionResult run def occ rep args => validate_action_result c p e g run def occ rep args = Ok ()
    | ClaimTimePlatformBundle => False
    end.
Proof.
  unfold validate_permission. intros ([] & _ & Hv)%p_bind_Ok.
  destruct (is_claim_time (binding p)) eqn:Ect; [done|]. destruct (_ || _) eqn:E1; [done|].
  apply orb_false_iff in E1 as [Hch%negb_false_iff%bool_decide_eq_true Hsys%bool_decide_eq_false].
  apply p_bind_Ok in Hv as (e & He & Hv). destruct (_ || _) eqn:E2; [done|].
  apply orb_false_iff in E2 as [Hcl%negb_false_iff%bool_decide_eq_true Hk%negb_false_iff%bool_decide_eq_true].
  apply p_bind_Ok in Hv as ([] & Hs & Hv). simplify_eq. split_and!; [done..|].
  destruct (bm_get (entry p) (entries c)) as [e'|]; simplify_eq/=. exists e. split_and!; [done..|].
  destruct (binding p) as [| | |src resp|]; try (by simplify_eq).
  destruct (negb _) eqn:Er; [done|]. apply negb_false_iff, bool_decide_eq_true in Er. by simplify_eq.
Qed.

Lemma covers_permission_refl p g :
  validate_permission c p g = Some (Ok ()) → covers_observation_permission c p p = true.
Proof.
  intros (_ & _ & Hs & _)%validate_permission_Ok. apply covers_permission_spec.
  split_and!; [done..|by apply covers_subject_refl|apply binding_covers_refl].
Qed.

Lemma covers_right_refl ns g b r : right_ok ns g b r → covers_right c r r = true.
Proof.
  intros (k & s & Hs & _ & _ & _ & Hp).
  assert (covers_scope c s s = true) as Hc.
  { apply covers_scope_spec. intros p Hin. exists p. split; [done|]. by eapply covers_permission_refl, Hp. }
  destruct r as [| | | | |?|[ns' t]]; simpl in *; simplify_eq; [done|].
  rewrite bool_decide_true by done. case_bool_decide; [done|]. destruct (negb _); [done|].
  destruct t; simplify_eq. done.
Qed.

(** C32: Coverage is a preorder on validated rights, and it is sound: whoever holds
    the covering rights may record and may grant, in each namespace, every
    observation that the covered rights allow. *)
Theorem coverage_preorder (rs qs ts : list RightSpec) ns g b carriers :
  validate_rights_inner c rs ns g b = Some (Ok carriers) →
  covers_rights c rs rs = true ∧
  (covers_rights c rs qs = true → covers_rights c qs ts = true → covers_rights c rs ts = true) ∧
  (covers_rights c rs qs = true →
    (∀ o, may_record c qs o → may_record c rs o) ∧
    (∀ m o, may_grant c qs m o → may_grant c rs m o)).
Proof.
  intros (_ & _ & _ & _ & _ & Hok & _)%validate_rights_Ok. split_and!.
  - apply covers_rights_spec. intros q Hq. exists q. split; [done|].
    rewrite Forall_forall in Hok. by eapply covers_right_refl, Hok.
  - apply covers_rights_trans.
  - apply covers_rights_sound.
Qed.

(** ** What a validated right lets its grantee do *)

Definition reporter_is (run : RunContract) (rep : ReportingBinding) (g : Principal) : Prop :=
  match rep with
  | Role role => resolve_role run role = Ok g
  | Initiator p => p = g ∧ initiating_principal run = g
  end.

(** The run, the definition it pins and the subject a permission is bound to. *)
Definition bound_run (p : ObservationPermission) (run : RunRef) (def : ContractDigest)
    (r : RunContract) : Prop :=
  bm_get run (runs c) = Some r ∧ run_definition r = def ∧ is_Some (bm_get def (definitions c)) ∧
  run_policy_domain r = policy_domain p ∧ run_subject_kind r = subject_kind (subject p) ∧
  subject_contains c (subject p) (run_subject r) = true.

Lemma actor_context_Ok p run def r d :
  actor_context c p run def = Ok (r, d) →
  producer_class p = Actor ∧ bound_run p run def r ∧ bm_get def (definitions c) = Some d.
Proof.
  unfold actor_context. case_bool_decide as Ha; [simpl|done]. intros (r' & Hr & Hv)%res_bind_Ok.
  apply res_bind_Ok in Hv as (d' & Hd & Hv). destruct (_ || _) eqn:E; [done|].
  apply orb_false_iff in E as [E H4%negb_false_iff].
  apply orb_false_iff in E as [E H3%negb_false_iff%bool_decide_eq_true].
  apply orb_false_iff in E as [H1%negb_false_iff%bool_decide_eq_true H2%negb_false_iff%bool_decide_eq_true].
  destruct (bm_get run (runs c)) as [r''|] eqn:Er; [|done].
  destruct (bm_get def (definitions c)) as [d''|] eqn:Ed; [|done]. simplify_eq/=.
  split_and!; [done| |done]. unfold bound_run. rewrite Ed. by split_and!.
Qed.

Lemma role_differs_false r role g :
  role_differs r role (Some g) = false → resolve_role r role = Ok g.
Proof.
  unfold role_differs. destruct (resolve_role r role) as [q|]; [|done].
  intros ->%negb_false_iff%bool_decide_eq_true. done.
Qed.

Lemma actor_report_bound p e g run def role :
  validate_actor_report c p e (Some g) run def role = Ok () →
  producer_class p = Actor ∧ ∃ r, bound_run p run def r ∧ reporter_is r (Role role) g.
Proof.
  unfold validate_actor_report. intros ([r d] & (Ha & Hb & _)%actor_context_Ok & Hv)%res_bind_Ok.
  split; [done|]. exists r. split; [done|]. destruct (filter _ _) as [|[? q] [|]]; [done| |done].
  destruct (_ || _) eqn:E; [done|]. apply orb_false_iff in E as [_ E]. by apply role_differs_false.
Qed.

Lemma expected_reporter_bound r action g rep :
  expected_reporter r action (Some g) = Ok rep →
  match rep with
  | Role role => reporter_is r rep g ∧ (action_by action = Some role ∨ action_by action = None ∧ phase_owner action = Some role)
  | Initiator p => p = initiating_principal r ∧ action_by action = None ∧ phase_owner action = None
  end.
Proof.
  unfold expected_reporter. destruct (action_by action) as [role|] eqn:E1;
    [|destruct (phase_owner action) as [role|] eqn:E2]; [..|by intros [= <-]];
    (destruct (role_differs r role (Some g)) eqn:Hr; [done|]; intros (q & Hq & Hv)%res_bind_Ok;
     simplify_eq/=; apply role_differs_false in Hr; split; [done|auto]).
Qed.

Lemma action_result_bound p e g run def occ rep args :
  validate_action_result c p e (Some g) run def occ rep args = Ok () →
  producer_class p = Actor ∧ (1 ≤ round (visit occ))%Z ∧
  validate_arguments args (authority_arguments e) = Ok () ∧
  ∃ r, bound_run p run def r ∧ reporter_is r rep g.
Proof.
  unfold validate_action_result. intros ([r d] & (Ha & Hb & _)%actor_context_Ok & Hv)%res_bind_Ok.
  apply res_bind_Ok in Hv as ([] & _ & Hv). apply res_bind_Ok in Hv as ([] & _ & Hv).
  destruct (Z.ltb_spec (round (visit occ)) 1); [done|].
  destruct (filter _ _) as [|action [|]]; [done| |done]. destruct (negb _); [done|].
  apply res_bind_Ok in Hv as (x & Hx & Hv). apply expected_reporter_bound in Hx.
  destruct (_ || _) eqn:E; [done|]. apply orb_false_iff in E as [->%negb_false_iff%bool_decide_eq_true E].
  split_and!; [done|lia|done|]. exists r. split; [done|].
  destruct rep as [role|q]; [by destruct Hx|]. destruct Hx as [-> _].
  apply negb_false_iff, bool_decide_eq_true in E. done.
Qed.

Lemma source_bound p e class src :
  validate_source c p e class src = Ok () →
  producer_class p = class ∧ entry_source_contract e = Some (source_contract_ref src) ∧
  ∃ known, bm_get (source_contract_ref src) (sources c) = Some known ∧
    (∀ i, i ∈ source_identities src → i ∈ known_identities known) ∧
    (∀ a, a ∈ source_arguments src → validate_arguments a (authority_arguments e) = Ok ()).
Proof.
  unfold validate_source. destruct (_ || _) eqn:E; [done|].
  apply orb_false_iff in E as [H1%negb_false_iff%bool_decide_eq_true H2%negb_false_iff%bool_decide_eq_true].
  intros (known & Hk & Hv)%res_bind_Ok. apply res_bind_Ok in Hv as ([] & _ & Hv).
  apply res_bind_Ok in Hv as ([] & _ & Hv). apply res_bind_Ok in Hv as ([] & Hi%try_each_Ok & Ha%try_each_Ok).
  rewrite Forall_forall in Hi. rewrite Forall_forall in Ha. split_and!; [done..|]. exists known.
  destruct (bm_get _ (sources c)) as [k|]; simplify_eq/=. split_and!; [done| |done].
  intros i Hin. specialize (Hi i Hin). apply res_bind_Ok in Hi as ([] & _ & Hi).
  destruct (contains (known_identities known) i) eqn:Ec; [by apply slice_contains_spec|done].
Qed.

(** C20: The producer of a validated recording right is bound: on the public
    channel, for a declared entry of the permission's class and subject, an
    instrument or a relay submits only for known source identities with complete
    arguments, and an actor only for the pinned run of the permission's domain and
    subject whose reporting role or initiator is the grantee itself. *)
Theorem recording_bound rs ns g carriers scope p :
  validate_rights c rs ns g = Some (Ok carriers) →
  RecordObservation scope ∈ rs → p ∈ permissions scope →
  channel p = Observe ∧ producer_class p ≠ System ∧
  ∃ e, bm_get (entry p) (entries c) = Some e ∧ producer_class p = entry_class e ∧
    subject_kind (subject p) = entry_subject_kind e ∧
    match binding p with
    | Instrument src | PlatformRelay src _ =>
        entry_source_contract e = Some (source_contract_ref src) ∧
        ∃ known, bm_get (source_contract_ref src) (sources c) = Some known ∧
          (∀ i, i ∈ source_identities src → i ∈ known_identities known) ∧
          (∀ a, a ∈ source_arguments src → validate_arguments a (authority_arguments e) = Ok ())
    | ActorReport run def role =>
        producer_class p = Actor ∧ ∃ r, bound_run p run def r ∧ reporter_is r (Role role) g
    | ActionResult run def occ rep args =>
        producer_class p = Actor ∧ (1 ≤ round (visit occ))%Z ∧
        validate_arguments args (authority_arguments e) = Ok () ∧
        ∃ r, bound_run p run def r ∧ reporter_is r rep g
    | ClaimTimePlatformBundle => False
    end.
Proof.
  intros (_ & _ & _ & _ & _ & Hok & _)%validate_rights_Ok Hin Hp.
  rewrite Forall_forall in Hok. destruct (Hok _ Hin) as (k & s & Hs & _ & _ & _ & Hv). simplify_eq/=.
  specialize (Hv p Hp). apply validate_permission_Ok in Hv as (H1 & H2 & _ & e & He & Hcl & Hk & Hb).
  split_and!; [done..|]. exists e. split_and!; [done..|].
  destruct (binding p) as [run def role|run def occ rep args|src|src resp|]; [..|done].
  - by apply actor_report_bound in Hb.
  - by apply action_result_bound in Hb.
  - by apply source_bound in Hb as (_ & ? & ?).
  - destruct Hb as [_ Hb]. by apply source_bound in Hb as (_ & ? & ?).
Qed.

(** Accepted rights are only observation rights and their administration, in
    the grant's namespace and never held by a subactor, non-empty, free of
    duplicates and within the collection bound; the carrier rights are exactly
    [Execute] for a recording right and [Delegate] for an administrative one, and
    validation never panics. *)
Theorem validate_rights_spec rs ns g b :
  match validate_rights_inner c rs ns g b with
  | None => False
  | Some (Err _) => True
  | Some (Ok carriers) =>
      rights_wf carriers ∧ NoDup rs ∧ 1 ≤ length rs ≤ 256 ∧
      (∀ x, Rights_contains carriers x = true ↔
        (x = Execute ∧ ∃ s, RecordObservation s ∈ rs) ∨ (x = Delegate ∧ ∃ a, GrantAdmin a ∈ rs)) ∧
      ∀ r, r ∈ rs → ∃ scope, permissions scope ≠ [] ∧ NoDup (permissions scope) ∧
        (r = RecordObservation scope ∨
         principal_leg g = None ∧
         r = GrantAdmin {| admin_namespace := ns; admin_target := TargetRecordObservation scope |})
  end.
Proof.
  destruct (validate_rights_inner c rs ns g b) as [[carriers|]|] eqn:E; [|done|by eapply validate_rights_total].
  apply validate_rights_Ok in E as (_ & _ & Hne & Hd & Hl & Hok & Hw & Hc).
  assert (∀ r, r ∈ rs → ∃ scope, permissions scope ≠ [] ∧ NoDup (permissions scope) ∧
        (r = RecordObservation scope ∨ principal_leg g = None ∧
         r = GrantAdmin {| admin_namespace := ns; admin_target := TargetRecordObservation scope |})) as Hr.
  { intros r Hin. rewrite Forall_forall in Hok. destruct (Hok _ Hin) as (k & s & Hs & ? & _ & ? & _).
    exists s. split_and!; [done..|]. destruct r as [| | | | |?|[ns' t]]; simpl in Hs; simplify_eq; [by left|].
    case_bool_decide as Hleg; [done|]. destruct (negb _) eqn:En; [done|].
    apply negb_false_iff, bool_decide_eq_true in En as ->. destruct t; simplify_eq. right.
    split; [|done]. destruct (principal_leg g); [|done]. exfalso. eauto. }
  split_and!; [done|done| |unfold items, MAX_COLLECTION_ITEMS in Hl; lia| |done].
  - destruct rs; [done|simpl; lia].
  - intros x. rewrite Hc. split.
    + intros (r & Hin & ->). destruct (Hr r Hin) as (s & _ & _ & [->|[_ ->]]); simpl; eauto.
    + intros [(-> & s & ?)|(-> & a & ?)]; [by exists (RecordObservation s)|by exists (GrantAdmin a)].
Qed.
End rights.
