(* ===== verification/DurableEnvelope.v ===== *)
(** khive-capability/src/durable/keys.rs and envelope.rs: the supplied key
    history, the verification of sealed grant records and their issuance from a
    bootstrap source or from a parent record, through a scratch microkernel.
    HMAC-SHA256 and BLAKE3 are the parameters [HmacSha256] and [Blake3]. *)

From Stdlib Require Import NArith ZArith Ascii String.
From stdpp Require Import base tactics list numbers strings sorting gmap.
From S2P Require Import Prelude RustStr LionVec LionRights LionRevocation LionRevocationFacts LionMemory LionState.
From S2P Require Import LionState CapabilityManager DurableTypes DurableCodec DurableCodecLaws DurablePermission DurablePermissionFacts DurableRights.

(** ** keys.rs *)

Record ProvisionedKey := {
  key_reference : KeyRef;
  native_key : bytes32;
  extension_key : bytes32
}.

Definition zero32 : bytes32 := replicate 32 0%N.

Definition ProvisionedKey_new (reference : KeyRef) (nk ek : bytes32) : EnvelopeResult ProvisionedKey :=
  check? nonempty (key_id reference) in
  if bool_decide (nk = zero32) || bool_decide (ek = zero32) || bool_decide (nk = ek)
  then Err (Unavailable "keys must be distinct and nonzero")
  else Ok {| key_reference := reference; native_key := nk; extension_key := ek |}.

Record SuppliedKeys := { supplied : list (KeyRef * ProvisionedKey) }.

Definition SuppliedKeys_provision (keys : list ProvisionedKey) : EnvelopeResult SuppliedKeys :=
  check? collection keys true in
  let? m := try_fold (λ m key, insert_new (key_reference key) key m
                                 (Unavailable "duplicate key reference")) [] keys in
  Ok {| supplied := m |}.

Definition resolve (self : SuppliedKeys) (reference : KeyRef) : EnvelopeResult ProvisionedKey :=
  ok_or (bm_get reference (supplied self)) (Unavailable "required key generation is missing").
Definition keys_native (self : SuppliedKeys) (reference : KeyRef) : EnvelopeResult bytes32 :=
  let? k := resolve self reference in Ok (native_key k).
Definition keys_extension (self : SuppliedKeys) (reference : KeyRef) : EnvelopeResult bytes32 :=
  let? k := resolve self reference in Ok (extension_key k).

(** ** envelope.rs: records *)

(** [b"KHAE\0\x01"] and [b"khive.authority.grant-envelope\0"] *)
Definition MAGIC : list N := as_bytes "KHAE" ++ [0; 1]%N.
Definition DOMAIN : list N := as_bytes "khive.authority.grant-envelope" ++ [0%N].
Definition OUTPUT_END : N := N.shiftl 1 126.
Definition PRIVATE_ANCHOR : N := (U128_MAX - 1)%N.
Definition RECORD_OVERHEAD : N := (6 + 4 + 32)%N.

Record AuthenticatedEnvelope := { env_body : GrantBody; env_bytes : list N }.

Record BootstrapSource := {
  src_store_id : Uuid;
  src_epoch_id : Uuid;
  src_root_anchor_id : Uuid;
  src_owner : Principal;
  src_namespace : string;
  src_slot : string;
  src_manifest_digest : ContractDigest;
  src_rights : list RightSpec;
  src_validity : Validity
}.

(** [NativeCapability::from_core] and [to_core] *)
Definition from_core (cap : Capability) : NativeCapability :=
  {| native_id := id cap; native_holder := holder cap; native_target := target cap;
     native_rights := bits (rights cap); native_parent := parent cap; native_epoch := epoch cap;
     native_signature := tag_bytes (signature cap) |}.

Definition to_core (self : NativeCapability) (i : N) : EnvelopeResult Capability :=
  if bool_decide (native_parent self = Some (U128_MAX : u128)) ||
     negb (N.land (native_rights self) (not_u16 (bits Rights_all)) =? 0)%N
  then Err (Reject "invalid native parent or rights bits")
  else
    match Capability_new i (native_holder self) (native_target self)
            (Rights_from_bits (native_rights self)) (native_parent self) (native_epoch self)
            {| tag_bytes := native_signature self |} with
    | Ok c => Ok c
    | Err _ => Err (Reject "invalid native capability")
    end.

Definition issuance_alias (i : Uuid) : u128 := N.lor ALIAS_START (N.land i (N.ones 126)).

Definition check_alias (alias : N) : EnvelopeResult () :=
  if negb ((ALIAS_START <=? alias) && (alias <? ALIAS_END))%N then Err IdSpaceExhausted else Ok ().
Definition check_output_capacity (next : N) : EnvelopeResult () :=
  if (OUTPUT_END <=? next)%N then Err IdSpaceExhausted else Ok ().

Definition check_record_size (body_length : N) : EnvelopeResult N :=
  let? length := ok_or (usize_checked_add body_length RECORD_OVERHEAD)
                   (OverLimit "canonical record" USIZE_MAX MAX_RECORD_BYTES) in
  check? bound "canonical record" length MAX_RECORD_BYTES in Ok length.

Section envelope.
Context `{Hm : HmacSha256} `{Hb : Blake3} `{Hu : UuidText}.

(** [ContractDigest::blake3] *)
Definition digest_blake3 (b : list N) : ContractDigest :=
  {| digest_bytes := blake3_hash (of_bytes (ascii_of_N <$> b)) |}.

Definition canonical_digest (self : NativeCapability) : EnvelopeResult ContractDigest :=
  let? b := encode self in Ok (digest_blake3 b).

(** The finalized tag; an HMAC accepts a key of any length. *)
Definition envelope_mac (key : bytes32) (body : list N) : EnvelopeResult (list N) :=
  if (2 ^ 32 <=? items body)%N then Err (InvalidInput "body length exceeds u32")
  else Ok (hmac_sha256 key (DOMAIN ++ be_encode 2 1 ++ be_encode 4 (items body) ++ body)).

Definition seal_body (body : GrantBody) (keys : SuppliedKeys) : EnvelopeResult (list N) :=
  let? n := encoded_len body in
  let? _ := check_record_size n in
  let? encoded := encode body in
  let? key := keys_extension keys (grant_key (grant body)) in
  let? tag := envelope_mac key encoded in
  Ok (MAGIC ++ be_encode 4 (as_u32 (items encoded)) ++ encoded ++ tag).

Section with_catalog.
Context (keys : SuppliedKeys) (catalog : ClosedCatalog).

Definition validate_draft (g : EnvelopeDraft) : panics () :=
  check! Some (Principal_validate (issuer g)) in
  check! Some (Principal_validate (grantee g)) in
  check! Some (Validity_validate (grant_validity g)) in
  check! Some (nonempty (grant_namespace g)) in
  check! Some (nonempty (key_id (grant_key g))) in
  if bool_decide (is_Some (principal_leg (issuer g)))
  then Some (Err (Reject "subactor cannot issue grants"))
  else if bool_decide (is_Some (principal_leg (grantee g))) &&
          negb (bool_decide (Principal_parent (grantee g) = issuer g))
  then Some (Err (Reject "only parent can grant to its leg"))
  else
    check! Some match operation g, configuration_source g with
                | OpImport, Some source => nonempty source
                | OpGrant, None => Ok ()
                | _, _ => Err (InvalidInput "creation provenance does not match operation")
                end in
    let! _ := validate_rights catalog (grant_rights g) (grant_namespace g) (grantee g) in
    Some (Ok ()).

Definition check_parent_scope (par child : EnvelopeDraft) : EnvelopeResult () :=
  if bool_decide (grant_id par = grant_id child) ||
     bool_decide (issuance_id par = issuance_id child) ||
     negb (bool_decide (store_id par = store_id child)) ||
     negb (bool_decide (epoch_id par = epoch_id child)) ||
     negb (bool_decide (root_anchor_id par = root_anchor_id child)) ||
     negb (bool_decide (grant_namespace par = grant_namespace child)) ||
     negb (bool_decide (grantee par = issuer child)) ||
     negb (Validity_covers (grant_validity par) (grant_validity child)) ||
     negb (covers_rights catalog (grant_rights par) (grant_rights child))
  then Err (Reject "parent holder, scope or interval does not cover child")
  else Ok ().

Definition check_parent_binding (body : GrantBody) : EnvelopeResult () :=
  match body_parent body with
  | ParentGrant gid iid original alias _ =>
      check? check_alias alias in
      if bool_decide (gid = grant_id (grant body)) || bool_decide (iid = issuance_id (grant body)) ||
         (OUTPUT_END <=? original)%N ||
         negb (bool_decide (native_parent (body_native body) = Some alias))
      then Err (Reject "invalid durable parent binding") else Ok ()
  | BootstrapSlot slot _ anchor =>
      check? nonempty slot in
      if negb ((ALIAS_END <=? anchor) && (anchor <? U128_MAX))%N ||
         negb (bool_decide (native_parent (body_native body) = Some anchor))
      then Err (Reject "invalid private bootstrap parent binding") else Ok ()
  end.

Definition validate_body (body : GrantBody) (store epoch : Uuid) : panics () :=
  if negb (schema_version body =? 1)%N || negb (profile_version body =? 1)%N ||
     negb (carrier_version body =? CARRIER_VERSION)%N
  then Some (Err (Reject "unsupported envelope or carrier version"))
  else
    check! validate_draft (grant body) in
    if negb (bool_decide (store_id (grant body) = store)) ||
       negb (bool_decide (epoch_id (grant body) = epoch)) ||
       bool_decide (grant_id (grant body) = root_anchor_id (grant body))
    then Some (Err (Reject "store, epoch or record role mismatch"))
    else
      let! carriers := validate_rights catalog (grant_rights (grant body))
                         (grant_namespace (grant body)) (grantee (grant body)) in
      let native := body_native body in
      let context := body_context body in
      if negb (native_epoch native =? 0)%N || (OUTPUT_END <=? native_id native)%N ||
         negb (native_rights native =? bits carriers)%N ||
         negb (native_holder native =? 1)%N || negb (native_target native =? 1)%N ||
         negb (bool_decide (context_id context = issuance_id (grant body))) ||
         negb (context_holder context =? native_holder native)%N ||
         negb (context_target context =? native_target native)%N ||
         negb (bool_decide (holder_principal context = grantee (grant body))) ||
         negb (bool_decide (context_namespace context = grant_namespace (grant body)))
      then Some (Err (Reject "native capability or local interpretation mismatch"))
      else Some (check_parent_binding body).

(** [Kernel::with_key], its error replaced. *)
Definition scratch_kernel (key : bytes32) : EnvelopeResult State :=
  match with_key key with
  | Ok s => Ok s
  | Err _ => Err (Unavailable "native key unavailable")
  end.

Definition verify (b : list N) (store epoch : Uuid) : panics AuthenticatedEnvelope :=
  check! Some (bound "canonical record" (items b) MAX_RECORD_BYTES) in
  if (items b <? RECORD_OVERHEAD)%N || negb (bool_decide (take 6 b = MAGIC))
  then Some (Err (Reject "unknown envelope header"))
  else
    let length := be_decode (take 4 (drop 6 b)) in
    if negb (bool_decide (usize_checked_add length RECORD_OVERHEAD = Some (items b)))
    then Some (Err (Reject "record length or trailing bytes mismatch"))
    else
      let encoded := take (N.to_nat length) (drop 10 b) in
      let! body := Some (decode encoded) in
      let! key := Some (keys_extension keys (grant_key (grant body))) in
      let! mac := Some (envelope_mac key encoded) in
      if negb (bool_decide (mac = drop (10 + N.to_nat length) b))
      then Some (Err (Reject "extension MAC mismatch"))
      else
        check! validate_body body store epoch in
        let! native := Some (to_core (body_native body) (native_id (body_native body))) in
        let! nk := Some (keys_native keys (grant_key (grant body))) in
        let! k := Some (scratch_kernel nk) in
        match verify_cap_seal (kernel k) native with
        | None => None
        | Some false => Some (Err (Reject "native seal mismatch"))
        | Some true => Some (Ok {| env_body := body; env_bytes := b |})
        end.

Definition verify_delegation_link (child par : AuthenticatedEnvelope) : panics () :=
  let! c := verify (env_bytes child) (store_id (grant (env_body child)))
              (epoch_id (grant (env_body child))) in
  let c := env_body c in
  let! p := verify (env_bytes par) (store_id (grant c)) (epoch_id (grant c)) in
  let p := env_body p in
  match body_parent c with
  | BootstrapSlot _ _ _ => Some (Err (Reject "child does not name a grant parent"))
  | ParentGrant gid iid original alias native_digest =>
      (* [||] evaluates the digest only when the first comparisons agree *)
      if negb (bool_decide (gid = grant_id (grant p))) ||
         negb (bool_decide (iid = issuance_id (grant p))) ||
         negb (original =? native_id (body_native p))%N
      then Some (Err (Reject "authenticated parent alias does not match durable parent"))
      else
        let! digest := Some (canonical_digest (body_native p)) in
        if negb (bool_decide (native_digest = digest)) ||
           negb (bool_decide (native_parent (body_native c) = Some alias)) ||
           negb (native_target (body_native c) =? native_target (body_native p))%N
        then Some (Err (Reject "authenticated parent alias does not match durable parent"))
        else Some (check_parent_scope (grant p) (grant c))
  end.

(** ** Issuance *)

(** [EnvelopeIssuer::kernel]; [SecurityLevel::BOT] is [Public]. *)
Definition issuer_kernel (g : EnvelopeDraft) : EnvelopeResult State :=
  let? nk := keys_native keys (grant_key g) in
  let? k := scratch_kernel nk in
  match register_plugin k 1 Public 0 with
  | (k, Ok _) => Ok k
  | (_, Err e) => Err (Native (Error_display e))
  end.

(** The body as it is sized before minting, with the given native part. *)
Definition issued_body (g : EnvelopeDraft) (par : ParentBinding) (n : NativeCapability) : GrantBody :=
  {| schema_version := 1; profile_version := 1; carrier_version := CARRIER_VERSION;
     grant := g; body_parent := par;
     body_context := {| context_id := issuance_id g; context_holder := 1;
                        holder_principal := grantee g; context_target := 1;
                        context_namespace := grant_namespace g |};
     body_native := n |}.

Definition placeholder (r : Rights) (parent_id : N) : NativeCapability :=
  {| native_id := 0; native_holder := 1; native_target := 1; native_rights := bits r;
     native_parent := Some parent_id; native_epoch := 0; native_signature := zero32 |}.

Definition delegate_and_seal (k : State) (parent_id : N) (g : EnvelopeDraft) (par : ParentBinding)
    : panics AuthenticatedEnvelope :=
  check! Some (check_output_capacity (next_cap_id (kernel k))) in
  let! r := validate_rights catalog (grant_rights g) (grant_namespace g) (grantee g) in
  let! n := Some (encoded_len (issued_body g par (placeholder r parent_id))) in
  let! _ := Some (check_record_size n) in
  match delegate_cap k parent_id 1 r with
  | None => None
  | Some (_, Err e) => Some (Err (Native (Error_display e)))
  | Some (k, Ok i) =>
      let! cap := Some (ok_or (get_cap k i) (Reject "native delegate returned no record")) in
      if negb (bool_decide (rights cap = r))
      then Some (Err (Reject "native intersection narrowed requested authority"))
      else
        let body := issued_body g par (from_core cap) in
        let! b := Some (seal_body body keys) in
        verify b (store_id (grant body)) (epoch_id (grant body))
  end.

Definition issue_from_bootstrap (source : BootstrapSource) (g : EnvelopeDraft)
    : panics AuthenticatedEnvelope :=
  let! n := Some (encoded_len g) in
  check! Some (bound "unsigned grant" n MAX_RECORD_BYTES) in
  check! validate_draft g in
  check! Some (Principal_validate (src_owner source)) in
  check! Some (Validity_validate (src_validity source)) in
  check! Some (nonempty (src_slot source)) in
  let! source_carriers := validate_source_rights catalog (src_rights source) (src_namespace source)
                            (src_owner source) in
  if bool_decide (is_Some (principal_leg (src_owner source))) ||
     negb (bool_decide (src_owner source = issuer g)) ||
     negb (bool_decide (src_store_id source = store_id g)) ||
     negb (bool_decide (src_epoch_id source = epoch_id g)) ||
     negb (bool_decide (src_root_anchor_id source = root_anchor_id g)) ||
     negb (bool_decide (src_namespace source = grant_namespace g)) ||
     negb (Validity_covers (src_validity source) (grant_validity g)) ||
     negb (covers_rights catalog (src_rights source) (grant_rights g))
  then Some (Err (Reject "bootstrap source does not cover issued record"))
  else
    let par := BootstrapSlot (src_slot source) (src_manifest_digest source) PRIVATE_ANCHOR in
    let! k := Some (issuer_kernel g) in
    match Capability_new PRIVATE_ANCHOR 1 1 source_carriers None 0 {| tag_bytes := zero32 |} with
    | Err e => Some (Err (Native (CapabilityError_display e)))
    | Ok anchor =>
        match insert_cap_raw k anchor 1 with
        | (_, Err e) => Some (Err (Native (Error_display e)))
        | (k, Ok _) => delegate_and_seal k PRIVATE_ANCHOR g par
        end
    end.

Definition issue_delegate (par : AuthenticatedEnvelope) (g : EnvelopeDraft)
    : panics AuthenticatedEnvelope :=
  let! n := Some (encoded_len g) in
  check! Some (bound "unsigned grant" n MAX_RECORD_BYTES) in
  check! validate_draft g in
  let alias := issuance_alias (issuance_id g) in
  check! Some (check_alias alias) in
  let! par := verify (env_bytes par) (store_id g) (epoch_id g) in
  let body := env_body par in
  check! Some (check_parent_scope (grant body) g) in
  let! digest := Some (canonical_digest (body_native body)) in
  let binding := ParentGrant (grant_id (grant body)) (issuance_id (grant body))
                   (native_id (body_native body)) alias digest in
  let! k := Some (issuer_kernel g) in
  let! reconstructed := Some (to_core (body_native body) alias) in
  match insert_cap_raw k reconstructed (native_holder (body_native body)) with
  | (_, Err e) => Some (Err (Native (Error_display e)))
  | (k, Ok _) =>
      let! child := delegate_and_seal k alias g binding in
      check! verify_delegation_link child par in
      Some (Ok child)
  end.

End with_catalog.
End envelope.

(** Verification of sealed grant records: [verify] accepts a byte sequence
    exactly when it is the seal of a well-typed body that passes the structural
    checks and carries a valid native seal; it never panics.  HMAC-SHA256 and
    BLAKE3 produce 32 bytes. *)

Class HmacLaws `{HmacSha256} := {
  hmac_length key msg : length (hmac_sha256 key msg) = 32;
  hmac_byte key msg : Forall is_byte (hmac_sha256 key msg)
}.
Class Blake3Laws `{Blake3} := {
  blake3_length s : length (blake3_hash s) = 32;
  blake3_byte s : Forall is_byte (blake3_hash s)
}.

Lemma items_be w x : items (be_encode w x) = N.of_nat w.
Proof. unfold items. by rewrite length_to_be. Qed.

(** [m] never panics and succeeds with [x] exactly when [P x]. *)
Definition decides {A} (m : panics A) (P : A → Prop) : Prop :=
  m ≠ None ∧ ∀ x, m = Some (Ok x) ↔ P x.

Lemma decides_bind {A B} (m : panics A) (k : A → panics B) P :
  m ≠ None → (∀ a, m = Some (Ok a) → decides (k a) P) →
  (∀ x, P x → ∃ a, m = Some (Ok a)) → decides (p_bind m k) P.
Proof.
  intros Hn Hk Hp. destruct m as [[a|e]|]; [by apply Hk| |done]. split; [done|].
  intros x. split; [done|]. intros Hx. by destruct (Hp x Hx).
Qed.

Lemma decides_check {B} (m : EnvelopeResult ()) (k : panics B) (P : B → Prop) :
  (m = Ok () → decides k P) → (∀ x, P x → m = Ok ()) → decides (check! Some m in k) P.
Proof.
  intros Hk Hp. apply decides_bind; [done|intros [] [=]; auto|].
  intros x Hx. rewrite (Hp x Hx). by eexists.
Qed.

Lemma decides_let {A B} (m : EnvelopeResult A) (k : A → panics B) (P : B → Prop) :
  (∀ a, m = Ok a → decides (k a) P) → (∀ x, P x → ∃ a, m = Ok a) → decides (let! a := Some m in k a) P.
Proof.
  intros Hk Hp. apply decides_bind; [done|intros a [=]; auto|].
  intros x Hx. destruct (Hp x Hx) as [a ->]. by eexists.
Qed.

Lemma decides_if {B} (b : bool) e (k : panics B) (P : B → Prop) :
  (b = false → decides k P) → (∀ x, P x → b = false) → decides (if b then Some (Err e) else k) P.
Proof.
  intros Hk Hp. destruct b; [|by apply Hk]. split; [done|]. intros x. split; [done|].
  intros Hx. by specialize (Hp x Hx).
Qed.

Lemma decides_iff {A} (m : panics A) (P Q : A → Prop) :
  decides m P → (∀ x, P x ↔ Q x) → decides m Q.
Proof. intros [Hn Hx] Hpq. split; [done|]. intros x. by rewrite Hx. Qed.

(** A check that every result of [m] passes can be left out. *)
Lemma decides_keep {A} (m : panics A) (c : A → panics ()) (P : A → Prop) :
  decides m P → (∀ x, P x → c x = Some (Ok ())) →
  decides (let! x := m in check! c x in Some (Ok x)) P.
Proof.
  intros [Hn Hx] Hc. destruct m as [[a|e]|]; [|by split|done]. cbn [p_bind].
  by rewrite (Hc a) by (by apply Hx).
Qed.

(** ** The layout of a sealed record *)

Section seal.
Context `{Hm : HmacSha256} `{Hb : Blake3} `{Hu : UuidText}.
Context (keys : SuppliedKeys) (catalog : ClosedCatalog).

Definition mac_input (enc : list N) : list N :=
  DOMAIN ++ be_encode 2 1 ++ be_encode 4 (items enc) ++ enc.
Definition record_bytes (enc tag : list N) : list N :=
  MAGIC ++ be_encode 4 (items enc) ++ enc ++ tag.

Lemma check_record_size_Ok n r :
  check_record_size n = Ok r ↔ (n + RECORD_OVERHEAD ≤ MAX_RECORD_BYTES)%N ∧ r = (n + RECORD_OVERHEAD)%N.
Proof.
  unfold check_record_size. split.
  - intros (l & Hl & Hc)%res_bind_Ok. apply res_bind_Ok in Hc as ([] & Hc%bound_Ok & Hr).
    destruct (usize_checked_add n RECORD_OVERHEAD) as [x|] eqn:E; [|done]. simplify_eq/=.
    by apply usize_add_Some in E as [_ ->].
  - intros [Hle ->].
    rewrite (proj2 (usize_add_Some _ _ _)) by (split; [unfold MAX_RECORD_BYTES, USIZE_MAX in *; lia|done]).
    cbn [ok_or res_bind]. by rewrite (proj2 (bound_Ok _ _ _)).
Qed.

Lemma envelope_mac_small key enc :
  (items enc ≤ MAX_RECORD_BYTES)%N → envelope_mac key enc = Ok (hmac_sha256 key (mac_input enc)).
Proof.
  intros Hl. unfold envelope_mac.
  destruct (N.leb_spec (2 ^ 32) (items enc)); [unfold MAX_RECORD_BYTES in Hl; lia|done].
Qed.

Lemma seal_body_Ok body b :
  seal_body body keys = Ok b ↔
  ∃ enc key, encode body = Ok enc ∧ keys_extension keys (grant_key (grant body)) = Ok key ∧
    (items enc + RECORD_OVERHEAD ≤ MAX_RECORD_BYTES)%N ∧
    b = record_bytes enc (hmac_sha256 key (mac_input enc)).
Proof.
  unfold seal_body. split.
  - intros (n & Hn & H1)%res_bind_Ok. apply res_bind_Ok in H1 as (r & [Hr ->]%check_record_size_Ok & H1).
    apply res_bind_Ok in H1 as (enc & He & H1). apply res_bind_Ok in H1 as (key & Hk & H1).
    pose proof (emits_encode _ _ He) as Hem. rewrite (encoded_len_emits _ _ Hem) in Hn. simplify_eq.
    rewrite envelope_mac_small in H1 by (unfold RECORD_OVERHEAD in Hr; lia). cbn [res_bind] in H1.
    simplify_eq. exists enc, key. split_and!; [done..|]. unfold record_bytes.
    by rewrite be_u32_small by (unfold MAX_RECORD_BYTES, RECORD_OVERHEAD in *; lia).
  - intros (enc & key & He & Hk & Hr & ->). pose proof (emits_encode _ _ He) as Hem.
    rewrite (encoded_len_emits _ _ Hem). cbn [res_bind].
    rewrite (proj2 (check_record_size_Ok _ _)) by done. cbn [res_bind]. rewrite He. cbn [res_bind].
    rewrite Hk. cbn [res_bind].
    rewrite envelope_mac_small by (unfold RECORD_OVERHEAD in Hr; lia). cbn [res_bind].
    unfold record_bytes. by rewrite be_u32_small by (unfold MAX_RECORD_BYTES, RECORD_OVERHEAD in *; lia).
Qed.

Lemma record_parts enc tag :
  (items enc < 2 ^ 32)%N →
  take 6 (record_bytes enc tag) = MAGIC ∧
  be_decode (take 4 (drop 6 (record_bytes enc tag))) = items enc ∧
  take (N.to_nat (items enc)) (drop 10 (record_bytes enc tag)) = enc ∧
  drop (10 + N.to_nat (items enc)) (record_bytes enc tag) = tag ∧
  items (record_bytes enc tag) = (10 + items enc + items tag)%N.
Proof.
  intros Hl. unfold record_bytes.
  assert (length MAGIC = 6) as LM by done. pose proof (length_to_be 4 (items enc)) as L4.
  split_and!.
  - by rewrite <-LM, take_app_length.
  - rewrite <-LM, drop_app_length. rewrite <-L4 at 1. rewrite take_app_length.
    by apply from_be_to_be.
  - rewrite (assoc_L (++) MAGIC).
    replace 10 with (length (MAGIC ++ be_encode 4 (items enc))) by (by rewrite length_app, LM, L4).
    rewrite drop_app_length. unfold items. by rewrite Nat2N.id, take_app_length.
  - rewrite !(assoc_L (++)).
    replace (10 + N.to_nat (items enc))
      with (length ((MAGIC ++ be_encode 4 (items enc)) ++ enc)); [apply drop_app_length|].
    rewrite !length_app, LM, L4. unfold items. by rewrite Nat2N.id.
  - rewrite !items_app, items_be. change (items MAGIC) with 6%N. lia.
Qed.

(** ** [verify] *)

(** The native capability of the body carries a valid seal under its key. *)
Definition native_sealed (body : GrantBody) : Prop :=
  ∃ cap nk s, to_core (body_native body) (native_id (body_native body)) = Ok cap ∧
    keys_native keys (grant_key (grant body)) = Ok nk ∧ with_key nk = Ok s ∧
    verify_cap_seal (kernel s) cap = Some true.

Lemma record_of_parts b len :
  take 6 b = MAGIC → len = be_decode (take 4 (drop 6 b)) →
  (items b = len + RECORD_OVERHEAD)%N → Forall is_byte b → (len < 2 ^ 32)%N →
  b = record_bytes (take (N.to_nat len) (drop 10 b)) (drop (10 + N.to_nat len) b) ∧
  items (take (N.to_nat len) (drop 10 b)) = len.
Proof.
  intros H6 Hlen Hsz Hby Hl32.
  assert (items (take (N.to_nat len) (drop 10 b)) = len) as Hi.
  { unfold items in *. rewrite length_take, length_drop. unfold RECORD_OVERHEAD in Hsz. lia. }
  split; [|done]. unfold record_bytes. rewrite Hi.
  assert (be_encode 4 len = take 4 (drop 6 b)) as ->.
  { rewrite Hlen. assert (length (take 4 (drop 6 b)) = 4) as H4.
    { rewrite length_take, length_drop. unfold items, RECORD_OVERHEAD in Hsz. lia. }
    rewrite <-H4 at 1. apply to_be_from_be. by apply Forall_take, Forall_drop. }
  rewrite <-(drop_drop b _ 10), take_drop.
  replace (drop 10 b) with (drop 4 (drop 6 b)) by (by rewrite drop_drop).
  by rewrite take_drop, <-H6, take_drop.
Qed.

Lemma verify_Ok b st ep env :
  Forall is_byte b → verify keys catalog b st ep = Some (Ok env) →
  env_bytes env = b ∧ typed (env_body env) ∧ seal_body (env_body env) keys = Ok b ∧
  validate_body catalog (env_body env) st ep = Some (Ok ()) ∧ native_sealed (env_body env).
Proof.
  intros Hby Hv. unfold verify in Hv. apply p_bind_Ok in Hv as ([] & Hbd & Hv).
  injection Hbd as Hbd%bound_Ok.
  destruct (_ || _) eqn:E1; [done|]. apply orb_false_iff in E1 as [_ H6%negb_false_iff%bool_decide_eq_true].
  destruct (negb _) eqn:E2; [done|]. apply negb_false_iff, bool_decide_eq_true in E2.
  apply usize_add_Some in E2 as [_ E2]. set (len := be_decode _) in *.
  assert (len < 2 ^ 32)%N as Hl32 by (unfold MAX_RECORD_BYTES, RECORD_OVERHEAD in *; lia).
  destruct (record_of_parts b len H6 eq_refl E2 Hby Hl32) as [Hrec Hlen].
  set (enc := take (N.to_nat len) (drop 10 b)) in *. set (tag := drop (10 + N.to_nat len) b) in *.
  apply p_bind_Ok in Hv as (body & Hd & Hv). injection Hd as Hd.
  assert (Forall is_byte enc) as Heb by (by apply Forall_take, Forall_drop).
  destruct (decode_canonical _ _ Heb Hd) as [Ht Henc].
  apply p_bind_Ok in Hv as (key & Hk & Hv). injection Hk as Hk.
  apply p_bind_Ok in Hv as (mac & Hmac & Hv). injection Hmac as Hmac.
  rewrite envelope_mac_small in Hmac by (unfold MAX_RECORD_BYTES, RECORD_OVERHEAD in *; lia).
  destruct (negb _) eqn:E3; [done|]. apply negb_false_iff, bool_decide_eq_true in E3.
  apply p_bind_Ok in Hv as ([] & Hvb & Hv). apply p_bind_Ok in Hv as (cap & Hcap & Hv).
  injection Hcap as Hcap. apply p_bind_Ok in Hv as (nk & Hnk & Hv). injection Hnk as Hnk.
  apply p_bind_Ok in Hv as (s & Hs & Hv). unfold scratch_kernel in Hs.
  destruct (with_key nk) as [s'|] eqn:Hwk; [|done]. injection Hs as <-.
  destruct (verify_cap_seal (kernel s') cap) as [[]|] eqn:Hseal; try done. injection Hv as <-. simpl.
  split_and!; [done..| |done|by exists cap, nk, s'].
  apply seal_body_Ok. exists enc, key. split_and!; [done|done|rewrite Hlen; lia|].
  injection Hmac as <-. by rewrite Hrec at 1; rewrite E3.
Qed.

(** On the seal of a typed body, only the checks of the body remain. *)
Lemma verify_of_seal `{!HmacLaws} body b st ep :
  typed body → seal_body body keys = Ok b →
  verify keys catalog b st ep =
    (check! validate_body catalog body st ep in
     let! native := Some (to_core (body_native body) (native_id (body_native body))) in
     let! nk := Some (keys_native keys (grant_key (grant body))) in
     let! k := Some (scratch_kernel nk) in
     match verify_cap_seal (kernel k) native with
     | None => None
     | Some false => Some (Err (Reject "native seal mismatch"))
     | Some true => Some (Ok {| env_body := body; env_bytes := b |})
     end).
Proof.
  intros Ht (enc & key & He & Hk & Hr & Hb')%seal_body_Ok.
  assert (items enc < 2 ^ 32)%N as Hl32 by (unfold MAX_RECORD_BYTES, RECORD_OVERHEAD in *; lia).
  set (tag := hmac_sha256 key (mac_input enc)) in *.
  destruct (record_parts enc tag Hl32) as (P1 & P2 & P3 & P4 & P5). rewrite <-Hb' in *.
  assert (items tag = 32%N) as Htag by (unfold items, tag; by rewrite hmac_length).
  assert (items b = items enc + RECORD_OVERHEAD)%N as Hib by (rewrite P5, Htag; unfold RECORD_OVERHEAD; lia).
  unfold verify. rewrite (proj2 (bound_Ok _ _ _)) by lia. cbn [p_bind].
  rewrite (proj2 (N.ltb_ge _ _)), P1, bool_decide_true by (done || lia). cbn [orb negb].
  rewrite P2, bool_decide_true by (apply usize_add_Some; split; [unfold MAX_RECORD_BYTES, USIZE_MAX in *; lia|done]).
  cbn [negb]. rewrite P3, P4. rewrite (decode_encode _ _ Ht He). cbn [p_bind]. rewrite Hk. cbn [p_bind].
  rewrite envelope_mac_small by (unfold RECORD_OVERHEAD in Hr; lia). cbn [p_bind].
  by rewrite bool_decide_true by done.
Qed.

Lemma verify_sealed `{!HmacLaws} body b st ep :
  typed body → seal_body body keys = Ok b → validate_body catalog body st ep = Some (Ok ()) →
  native_sealed body →
  verify keys catalog b st ep = Some (Ok {| env_body := body; env_bytes := b |}).
Proof.
  intros Ht Hs Hvb (cap & nk & s & Hcap & Hnk & Hwk & Hseal). rewrite (verify_of_seal body) by done.
  rewrite Hvb. cbn [p_bind]. rewrite Hcap. cbn [p_bind]. rewrite Hnk. cbn [p_bind].
  unfold scratch_kernel. rewrite Hwk. cbn [p_bind]. by rewrite Hseal.
Qed.

(** *** Panics *)

Lemma p_bind_total {A B} (m : panics A) (k : A → panics B) :
  m ≠ None → (∀ a, k a ≠ None) → p_bind m k ≠ None.
Proof. intros Hnone Hk. destruct m as [[a|e]|]; simpl; [apply Hk|done|done]. Qed.

Lemma validate_draft_total g : validate_draft catalog g ≠ None.
Proof.
  unfold validate_draft. do 5 (apply p_bind_total; [done|intros []]).
  destruct (bool_decide _); [done|]. destruct (_ && _); [done|]. apply p_bind_total; [done|intros []].
  apply p_bind_total; [apply validate_rights_total|done].
Qed.

Lemma validate_body_total body st ep : validate_body catalog body st ep ≠ None.
Proof.
  unfold validate_body. destruct (_ || _); [done|]. apply p_bind_total; [apply validate_draft_total|intros []].
  destruct (_ || _); [done|]. apply p_bind_total; [apply validate_rights_total|]. intros r. by destruct (_ || _).
Qed.

Lemma to_core_Ok n i cap :
  to_core n i = Ok cap →
  native_parent n ≠ Some (U128_MAX : u128) ∧ N.land (native_rights n) (not_u16 (bits Rights_all)) = 0%N ∧
  native_holder n ≠ 0%N ∧ Rights_is_empty (Rights_from_bits (native_rights n)) = false ∧
  cap = {| id := i; holder := native_holder n; target := native_target n;
           rights := Rights_from_bits (native_rights n); parent := native_parent n;
           epoch := native_epoch n; valid := true;
           signature := {| tag_bytes := native_signature n |} |}.
Proof.
  unfold to_core, Capability_new. destruct (_ || _) eqn:E; [done|].
  apply orb_false_iff in E as [E1%bool_decide_eq_false E2%negb_false_iff%N.eqb_eq].
  destruct (N.eqb_spec (native_holder n) 0); [done|]. destruct (Rights_is_empty _) eqn:Er; [done|].
  intros [= <-]. done.
Qed.

(** A fresh kernel checks the seal of a capability whatever its epoch. *)
Lemma scratch_verify nk s cap :
  with_key nk = Ok s →
  verify_cap_seal (kernel s) cap = verify_seal {| key_bytes := nk |} (Capability_payload cap) (signature cap).
Proof.
  unfold with_key. destruct (Key_is_empty _); [done|]. intros [= <-].
  unfold verify_cap_seal, verify_with_epoch, epoch_valid. cbn -[verify_seal].
  rewrite (proj2 (N.leb_le 0 _)) by lia. unfold KeyState_verify_seal. cbn -[verify_seal]. by destruct (verify_seal _ _ _) as [[]|].
Qed.

Lemma verify_total b st ep : Forall is_byte b → verify keys catalog b st ep ≠ None.
Proof.
  intros Hby. unfold verify. apply p_bind_total; [done|intros []]. destruct (_ || _); [done|].
  destruct (negb _); [done|]. set (enc := take _ _).
  destruct (decode enc) as [body|e] eqn:Hd; [|done]. cbn [p_bind].
  assert (typed body) as Ht.
  { assert (Forall is_byte enc) as He by (by apply Forall_take, Forall_drop).
    by destruct (decode_canonical enc body He Hd). }
  destruct (keys_extension _ _) as [key|]; [|done]. destruct (envelope_mac _ _) as [mac|]; [|done].
  destruct (negb _); [done|]. apply p_bind_total; [apply validate_body_total|intros []].
  destruct (to_core _ _) as [cap|] eqn:Hc; [|done]. cbn [p_bind].
  destruct (keys_native _ _) as [nk|]; [|done]. unfold scratch_kernel. destruct (with_key nk) as [s|] eqn:Hk; [|done].
  cbn [p_bind]. rewrite (scratch_verify _ _ _ Hk). apply to_core_Ok in Hc as (Hp & _ & _ & _ & ->).
  assert (∃ t, seal_payload {| key_bytes := nk |} (Capability_payload {|
           id := native_id (body_native body); holder := native_holder (body_native body);
           target := native_target (body_native body);
           rights := Rights_from_bits (native_rights (body_native body));
           parent := native_parent (body_native body); epoch := native_epoch (body_native body);
           valid := true; signature := {| tag_bytes := native_signature (body_native body) |} |}) = Some t) as [t Hs].
  { apply seal_payload_is_Some. simpl. intros i Hi.
    assert (typed (native_parent (body_native body))) as Htp.
    { destruct Ht as (_ & _ & _ & _ & _ & _ & Hn). by destruct Hn as (_ & _ & _ & _ & ? & _). }
    rewrite Hi in Htp. unfold typed, option_Typed, typed, uint_Typed in Htp.
    change (256 ^ N.of_nat 16)%N with (U128_MAX + 1)%N in Htp.
    assert (i ≠ U128_MAX); [|lia]. intros ->. by rewrite Hi in Hp. }
  unfold seal_payload in Hs. unfold verify_seal. destruct (serialize_payload _); [|done].
  cbn [mbind option_bind]. by destruct (constant_time_eq _ _).
Qed.
End seal.

(** C11: A byte sequence verifies exactly when it is the seal of its body: the body
    is well typed, re-sealing it under the same keys gives the same bytes, it
    passes the structural checks for the store and the epoch, and its native
    capability is sealed.  Verification never panics. *)
Theorem verify_spec `{HmacLaws, Blake3, UuidText} (keys : SuppliedKeys) (catalog : ClosedCatalog)
    (b : list N) (store epoch : Uuid) :
  Forall is_byte b →
  decides (verify keys catalog b store epoch) (λ env,
    env_bytes env = b ∧ typed (env_body env) ∧ seal_body (env_body env) keys = Ok b ∧
    validate_body catalog (env_body env) store epoch = Some (Ok ()) ∧ native_sealed keys (env_body env)).
Proof.
  intros Hby. split; [by apply verify_total|]. intros [body b']. simpl. split.
  - intros Hv. by apply verify_Ok in Hv.
  - intros (-> & Ht & Hs & Hvb & Hn). by apply verify_sealed.
Qed.
