(* ===== verification/DurableIssue.v ===== *)
(** Issuance of sealed grant records (DurableEnvelope): what a scratch kernel
    mints and seals, when [delegate_and_seal] and [issue_from_bootstrap] succeed
    and what the record they issue contains. *)

From Stdlib Require Import NArith ZArith Ascii String.
From stdpp Require Import base tactics list numbers strings sorting gmap.
From S2P Require Import Prelude RustStr LionVec LionRights LionRevocation LionRevocationFacts LionMemory LionState CapabilityManager.
From S2P Require Import DurableTypes DurableCodec DurableCodecLaws DurablePermission DurablePermissionFacts DurableRights DurableEnvelope.

(** ** Widths *)

Lemma emits_uint w (x : uint w) : (N.of_nat w ≤ USIZE_MAX)%N → emits (write x) (be_encode w x).
Proof. intros Hw. apply emits_put. by rewrite items_be. Qed.

(** A minted native capability has a fixed width. *)
Lemma native_width (n : NativeCapability) p :
  native_parent n = Some p → length (native_signature n) = 32 →
  ∃ b, emits (write n) b ∧ items b = 107%N.
Proof.
  destruct n as [i h t r pa e sg]. cbn [native_parent native_signature]. intros -> Hsg.
  assert (emits (write (sg : bytes32)) sg) as Es by (apply emits_put; unfold items; by rewrite Hsg).
  assert (emits (write (Some p : option u128)) ([1%N] ++ be_encode 16 p)) as Ep.
  { apply emits_then; [by apply emits_uint|by apply emits_uint|by rewrite items_app, items_be]. }
  eexists (be_encode 16 i ++ be_encode 16 h ++ be_encode 16 t ++ be_encode 2 r ++
           ([1%N] ++ be_encode 16 p) ++ be_encode 8 e ++ sg ++ []).
  assert (items sg = 32%N) as Hi by (unfold items; by rewrite Hsg).
  rewrite !items_app, !items_be, Hi. split; [|done].
  open_wire. cbn [native_id native_holder native_target native_rights native_parent native_epoch native_signature].
  repeat (apply emits_then; [first [done | by apply emits_uint]| |rewrite ?items_app, ?items_be, ?Hi; done]).
  apply emits_done.
Qed.

Definition native_shape (n : NativeCapability) : Prop :=
  is_Some (native_parent n) ∧ length (native_signature n) = 32.

(** Bodies that differ in their native part only have the same length, and the
    draft's encoding is part of the body's. *)
Lemma issued_body_size g par n1 n2 len :
  native_shape n1 → native_shape n2 → encoded_len (issued_body g par n1) = Ok len →
  encoded_len (issued_body g par n2) = Ok len ∧ ∃ m, encoded_len g = Ok m ∧ (m ≤ len)%N.
Proof.
  intros [[p1 H1] S1] [[p2 H2] S2] (b & E & ->)%encoded_len_Ok.
  destruct (native_width _ _ H1 S1) as (c1 & C1 & L1). destruct (native_width _ _ H2 S2) as (c2 & C2 & L2).
  set (ctx := body_context (issued_body g par n1)).
  set (body := λ n : NativeCapability, write (1%N : u16) >> write (1%N : u16) >>
    write (CARRIER_VERSION : u16) >> write g >> write par >> write ctx >> write n >> done).
  change (emits (body n1) b) in E. pose proof (proj1 E) as Hsz.
  apply emits_split in E as (a1 & r1 & E1 & E & ->); [|solve [solve_regular]..].
  apply emits_split in E as (a2 & r2 & E2 & E & ->); [|solve [solve_regular]..].
  apply emits_split in E as (a3 & r3 & E3 & E & ->); [|solve [solve_regular]..].
  apply emits_split in E as (a4 & r4 & E4 & E & ->); [|solve [solve_regular]..].
  apply emits_split in E as (a5 & r5 & E5 & E & ->); [|solve [solve_regular]..].
  apply emits_split in E as (a6 & r6 & E6 & E & ->); [|solve [solve_regular]..].
  apply emits_split in E as (a7 & r7 & E7 & E & ->); [|solve [solve_regular]..].
  rewrite (emits_unique _ _ _ E7 C1) in *. rewrite !items_app in *. split.
  - assert (emits (body n2) (a1 ++ a2 ++ a3 ++ a4 ++ a5 ++ a6 ++ c2 ++ r7)) as Eb.
    { unfold body. repeat (apply emits_then; [done| |]); try done; rewrite !items_app in *; lia. }
    change (encoded_len (issued_body g par n2)) with
      (let? out := body n2 {| enc_bytes := None; enc_length := 0 |} in Ok (enc_length out)
       : EnvelopeResult N).
    rewrite (emits_start _ _ None Eb). cbn. f_equal. rewrite !items_app. lia.
  - exists (items a4). split; [by apply encoded_len_emits|lia].
Qed.

(** ** The scratch kernel *)

Section issue.
Context `{Hm : HmacSha256} `{Hb : Blake3} `{Hu : UuidText} `{!HmacLaws} `{!Blake3Laws}.
Context (keys : SuppliedKeys) (catalog : ClosedCatalog).

Lemma issuer_kernel_Ok g k :
  issuer_kernel keys g = Ok k ↔
  ∃ nk, keys_native keys (grant_key g) = Ok nk ∧ nk ≠ zero32 ∧
    k = (register_plugin (with_kernel State_empty (KernelState_initial {| key_bytes := nk |} deny_all)) 1 Public 0).1.
Proof.
  unfold issuer_kernel, scratch_kernel, with_key. split.
  - intros (nk & Hnk & H1)%res_bind_Ok. exists nk. split; [done|].
    unfold Key_is_empty in H1. case_bool_decide as Hz; [done|]. split; [done|].
    cbn [res_bind] in H1. by injection H1 as <-.
  - intros (nk & Hnk & Hz & ->). rewrite Hnk. cbn [res_bind]. unfold Key_is_empty.
    rewrite bool_decide_false by done. reflexivity.
Qed.

(** The state of a scratch kernel holding one capability. *)
Record scratch (k : State) (nk : bytes32) (cap : Capability) : Prop := {
  scratch_next : next_cap_id (kernel k) = 0%N;
  scratch_keys : key_state (kernel k) = KeyState_initial {| key_bytes := nk |};
  scratch_table : table_wf (revocation (kernel k));
  scratch_get i : get_cap k i = if decide (i = id cap) then Some cap else None
}.

Lemma scratch_insert g k cap :
  issuer_kernel keys g = Ok k →
  ∃ k' nk, insert_cap_raw k cap 1 = (k', Ok ()) ∧ keys_native keys (grant_key g) = Ok nk ∧
    nk ≠ zero32 ∧ scratch k' nk cap.
Proof.
  intros (nk & Hnk & Hz & ->)%issuer_kernel_Ok.
  destruct (insert_fresh RevocationState_empty cap) as [rev Hrev]; [done|].
  unfold insert_cap_raw, apply_cap_delegate.
  set (k0 := (register_plugin _ 1 Public 0).1).
  change (revocation (kernel k0)) with RevocationState_empty. rewrite Hrev. cbn [res_bind].
  eexists _, nk. split; [done|]. split; [done|]. split; [done|].
  split; rewrite ?update_plugin_kernel; cbn [with_kernel kernel with_revocation next_cap_id key_state revocation];
    [done|done|by eapply insert_wf; [apply table_wf_empty|]|].
  intros i. unfold get_cap. rewrite update_plugin_kernel. cbn [with_kernel kernel with_revocation revocation].
  rewrite (insert_get _ _ _ _ table_wf_empty Hrev). by case_decide.
Qed.

(** Delegating from the capability of a scratch kernel mints capability 0. *)
Lemma scratch_delegate k nk cap r :
  scratch k nk cap → valid cap = true → target cap = 1%N → id cap ≠ 0%N → (id cap < U128_MAX)%N →
  intersection r (rights cap) = r → Rights_is_empty r = false →
  ∃ k' child, delegate_cap k (id cap) 1 r = Some (k', Ok 0%N) ∧ get_cap k' 0 = Some child ∧
    rights child = r ∧ id child = 0%N ∧ holder child = 1%N ∧ target child = 1%N ∧
    parent child = Some (id cap) ∧ epoch child = 0%N ∧
    seal_payload {| key_bytes := nk |} (Capability_payload child) = Some (signature child).
Proof.
  intros Hs Hv Ht Hid Hmax Hint Hne.
  assert (get_cap k (id cap) = Some cap) as Hget by (by rewrite (scratch_get _ _ _ Hs), decide_True).
  assert (get_cap k (next_cap_id (kernel k)) = None) as Hfresh.
  { rewrite (scratch_get _ _ _ Hs), (scratch_next _ _ _ Hs), decide_False; [done|congruence]. }
  destruct (delegate_cap_ok k (id cap) cap 1 r Hget Hv) as (child & rev & Hmin & Hrev & Hd); try done.
  { by rewrite Hint. }
  { by rewrite (scratch_next _ _ _ Hs). }
  rewrite (scratch_next _ _ _ Hs) in Hd. eexists _, child. split; [exact Hd|]. destruct Hmin.
  rewrite (scratch_keys _ _ _ Hs), (scratch_next _ _ _ Hs), Hint, Ht in *.
  split; [|by split_and!].
  unfold get_cap. rewrite update_plugin_kernel. cbn [with_kernel kernel with_revocation revocation].
  rewrite (insert_get _ _ _ _ (scratch_table _ _ _ Hs) Hrev). rewrite decide_True by congruence. done.
Qed.

Lemma from_bits_wf r : rights_wf r → Rights_from_bits (bits r) = r.
Proof.
  intros Hr. unfold Rights_from_bits. destruct r as [x]. f_equal. simpl.
  change ALL_RIGHTS_MASK with (N.ones 10). rewrite N.land_ones. apply N.mod_small.
  unfold rights_wf, ALL_RIGHTS_MASK in Hr. simpl in Hr. change (2 ^ 10)%N with 1024%N. lia.
Qed.

Lemma wf_no_other_bits r : rights_wf r → N.land (bits r) (not_u16 (bits Rights_all)) = 0%N.
Proof.
  intros Hr. rewrite <-(from_bits_wf r Hr). simpl. rewrite <-N.land_assoc.
  change (N.land ALL_RIGHTS_MASK (not_u16 ALL_RIGHTS_MASK)) with 0%N. apply N.land_0_r.
Qed.

(** ** Sealing a minted body *)

Definition minted_payload (r : Rights) (pid : N) : CapPayload :=
  {| pay_holder := 1; pay_target := 1; pay_rights := r; pay_parent := Some pid; pay_epoch := 0 |}.

#[local] Arguments seal_payload {_} : simpl never.

(** The native part that a scratch kernel mints. *)
Definition minted_native (nk : bytes32) (r : Rights) (pid : N) : NativeCapability :=
  {| native_id := 0; native_holder := 1; native_target := 1; native_rights := bits r;
     native_parent := Some (pid : u128); native_epoch := 0;
     native_signature := match seal_payload {| key_bytes := nk |} (minted_payload r pid) with
                         | Some t => tag_bytes t
                         | None => zero32
                         end |}.

Lemma minted_seal_ok nk r pid :
  (pid < U128_MAX)%N → ∃ t, seal_payload {| key_bytes := nk |} (minted_payload r pid) = Some t ∧
    length (tag_bytes t) = 32 ∧ Forall is_byte (tag_bytes t).
Proof.
  intros Hp. destruct (seal_payload_is_Some {| key_bytes := nk |} (minted_payload r pid)) as [t Ht].
  { simpl. by intros i [= <-]. }
  exists t. split; [done|]. unfold seal_payload in Ht. destruct (serialize_payload _); simplify_eq/=.
  split; [apply hmac_length|apply hmac_byte].
Qed.

Lemma minted_shape nk r pid : (pid < U128_MAX)%N → native_shape (minted_native nk r pid).
Proof.
  intros Hp. destruct (minted_seal_ok nk r pid Hp) as (t & Ht & Hl & _). split; [by eexists|].
  simpl. by rewrite Ht.
Qed.

Lemma placeholder_shape r pid : native_shape (placeholder r pid).
Proof. split; [by eexists|done]. Qed.

Lemma minted_to_core nk r pid :
  rights_wf r → Rights_is_empty r = false → (pid < U128_MAX)%N →
  ∃ cap t, to_core (minted_native nk r pid) 0 = Ok cap ∧
    seal_payload {| key_bytes := nk |} (minted_payload r pid) = Some t ∧
    Capability_payload cap = minted_payload r pid ∧ signature cap = t.
Proof.
  intros Hw Hne Hp. destruct (minted_seal_ok nk r pid Hp) as (t & Ht & _). unfold to_core.
  rewrite bool_decide_false; [|simpl; intros [= ->]; done]. cbn [native_rights minted_native].
  rewrite wf_no_other_bits, from_bits_wf by done. cbn [orb negb N.eqb]. unfold Capability_new.
  cbn [native_holder N.eqb]. rewrite Hne. eexists _, t. split; [done|]. split; [done|].
  cbn. rewrite Ht. by destruct t.
Qed.

Lemma minted_sealed g par nk r pid :
  keys_native keys (grant_key g) = Ok nk → nk ≠ zero32 → rights_wf r → Rights_is_empty r = false →
  (pid < U128_MAX)%N → native_sealed keys (issued_body g par (minted_native nk r pid)).
Proof.
  intros Hnk Hz Hw Hne Hp. destruct (minted_to_core nk r pid Hw Hne Hp) as (cap & t & Hc & Ht & Hpay & Hsig).
  assert (∃ s, with_key nk = Ok s) as [s Hs].
  { unfold with_key, Key_is_empty. rewrite bool_decide_false by done. by eexists. }
  exists cap, nk, s. split_and!; [done..|]. rewrite (scratch_verify _ _ _ Hs), Hpay, Hsig.
  by apply verify_seal_of_seal.
Qed.

Lemma wf_rights_u16 r : rights_wf r → (bits r < 256 ^ N.of_nat 2)%N.
Proof. unfold rights_wf, ALL_RIGHTS_MASK. change (256 ^ N.of_nat 2)%N with 65536%N. lia. Qed.

Lemma issued_typed g par nk r pid :
  typed g → typed par → rights_wf r → (pid < U128_MAX)%N →
  typed (issued_body g par (minted_native nk r pid)).
Proof.
  intros Hg Hp Hw Hpid. destruct (minted_seal_ok nk r pid Hpid) as (t & Ht & Hl & Hby).
  pose proof Hg as Hg'. destruct Hg' as (_ & _ & _ & _ & _ & Hge & Hns & _ & _ & _ & _ & _ & _ & _ & Hiss & _).
  assert (typed (minted_native nk r pid)) as Hn.
  { repeat split; try done; [by apply wf_rights_u16| |simpl; by rewrite Ht..].
    unfold typed, option_Typed. simpl. unfold typed, uint_Typed.
    change (256 ^ N.of_nat 16)%N with (U128_MAX + 1)%N. lia. }
  assert (typed (body_context (issued_body g par (minted_native nk r pid)))) as Hc.
  { split_and!; done. }
  split_and!; done.
Qed.

Lemma validate_body_issued g par nk r pid :
  validate_draft catalog g = Some (Ok ()) →
  validate_rights catalog (grant_rights g) (grant_namespace g) (grantee g) = Some (Ok r) →
  validate_body catalog (issued_body g par (minted_native nk r pid)) (store_id g) (epoch_id g) =
  if bool_decide (grant_id g = root_anchor_id g)
  then Some (Err (Reject "store, epoch or record role mismatch"))
  else Some (check_parent_binding (issued_body g par (minted_native nk r pid))).
Proof.
  intros Hd Hr. unfold validate_body. cbn -[check_parent_binding validate_draft validate_rights N.leb].
  rewrite Hd. cbn [p_bind]. rewrite !bool_decide_true by done. cbn [negb orb].
  case_bool_decide; [done|]. rewrite Hr. cbn [p_bind]. rewrite N.eqb_refl, !bool_decide_true by done. done.
Qed.

Definition fits (g : EnvelopeDraft) (par : ParentBinding) (r : Rights) (pid : N) : Prop :=
  ∃ n, encoded_len (issued_body g par (placeholder r pid)) = Ok n ∧
       (n + RECORD_OVERHEAD ≤ MAX_RECORD_BYTES)%N.

Lemma keys_extension_Ok ref nk : keys_native keys ref = Ok nk → ∃ ek, keys_extension keys ref = Ok ek.
Proof. unfold keys_native, keys_extension. intros (k & -> & _)%res_bind_Ok. by eexists. Qed.

Lemma issued_seal g par nk r pid :
  keys_native keys (grant_key g) = Ok nk → (pid < U128_MAX)%N → fits g par r pid →
  ∃ b, seal_body (issued_body g par (minted_native nk r pid)) keys = Ok b.
Proof.
  intros Hnk Hp (n & Hn & Hle). destruct (keys_extension_Ok _ _ Hnk) as [ek Hek].
  destruct (issued_body_size _ _ _ _ _ (placeholder_shape r pid) (minted_shape nk r pid Hp) Hn) as [Hlen _].
  apply encoded_len_Ok in Hlen as (enc & E & ->).
  eexists. apply seal_body_Ok. exists enc, ek. split_and!; [|done..].
  apply encode_emits. split; [done|]. unfold RECORD_OVERHEAD in Hle. lia.
Qed.

(** [delegate_and_seal] on a scratch kernel whose capability covers the
    requested rights. *)
Lemma delegate_and_seal_spec k nk cap g par r :
  scratch k nk cap → valid cap = true → target cap = 1%N → id cap ≠ 0%N → (id cap < U128_MAX)%N →
  intersection r (rights cap) = r → keys_native keys (grant_key g) = Ok nk → nk ≠ zero32 →
  typed g → typed par → validate_draft catalog g = Some (Ok ()) →
  validate_rights catalog (grant_rights g) (grant_namespace g) (grantee g) = Some (Ok r) →
  let body := issued_body g par (minted_native nk r (id cap)) in
  decides (delegate_and_seal keys catalog k (id cap) g par) (λ env,
    fits g par r (id cap) ∧ grant_id g ≠ root_anchor_id g ∧ check_parent_binding body = Ok () ∧
    env_body env = body ∧ seal_body body keys = Ok (env_bytes env)).
Proof.
  intros Hs Hv Ht Hid Hmax Hint Hnk Hz Tg Tp Hd Hr body.
  destruct (validate_rights_Ok _ _ _ _ _ _ Hr) as (_ & _ & Hne & _ & _ & _ & Hw & Hc).
  assert (Rights_is_empty r = false) as Hemp.
  { destruct (Rights_is_empty r) eqn:E; [|done]. rewrite is_empty_spec in E by done.
    destruct (grant_rights g) as [|x l]; [done|]. specialize (Hc (if is_record x then Execute else Delegate)).
    rewrite E in Hc. destruct Hc as [_ Hc]. discriminate Hc. exists x. set_solver. }
  destruct (scratch_delegate k nk cap r Hs Hv Ht Hid Hmax Hint Hemp)
    as (k' & child & Hdel & Hget & Hcr & Hci & Hch & Hct & Hcp & Hce & Hcs).
  assert (from_core child = minted_native nk r (id cap)) as Hcore.
  { unfold from_core, minted_native. rewrite Hcr, Hci, Hch, Hct, Hcp, Hce. f_equal.
    unfold Capability_payload in Hcs. rewrite Hcr, Hch, Hct, Hcp, Hce in Hcs.
    unfold minted_payload. by rewrite Hcs. }
  unfold delegate_and_seal. rewrite (scratch_next _ _ _ Hs). cbn [check_output_capacity].
  change (check_output_capacity 0) with (Ok () : EnvelopeResult ()). cbn [p_bind]. rewrite Hr. cbn [p_bind].
  destruct (encoded_len (issued_body g par (placeholder r (id cap)))) as [n|e] eqn:Hn; cbn [p_bind];
    [|split; [done|]; intros env; split; [done|]; intros [(? & ? & _) _]; congruence].
  destruct (check_record_size n) as [m|e] eqn:Hm'; cbn [p_bind].
  2:{ split; [done|]. intros env. split; [done|]. intros [(n' & Hn' & Hle) _].
      assert (n' = n) as -> by congruence.
      rewrite (proj2 (check_record_size_Ok n _)) in Hm' by done. done. }
  apply check_record_size_Ok in Hm' as [Hle _].
  assert (fits g par r (id cap)) as Hfits by (by exists n).
  rewrite Hdel, Hget. cbn [ok_or p_bind]. rewrite Hcr, bool_decide_true, Hcore by done. cbn [negb].
  fold body. destruct (issued_seal g par nk r (id cap) Hnk Hmax Hfits) as [b Hseal]. fold body in Hseal.
  rewrite Hseal. cbn [p_bind].
  rewrite (verify_of_seal keys catalog body b) by (done || by apply issued_typed).
  change (store_id (grant body)) with (store_id g). change (epoch_id (grant body)) with (epoch_id g).
  assert (validate_body catalog body (store_id g) (epoch_id g) =
          if bool_decide (grant_id g = root_anchor_id g)
          then Some (Err (Reject "store, epoch or record role mismatch"))
          else Some (check_parent_binding body)) as -> by (by apply validate_body_issued).
  case_bool_decide as Hroot; cbn [p_bind]; [split; [done|]; intros env; split; [done|]; by intros (_ & ? & _)|].
  destruct (check_parent_binding body) as [[]|e] eqn:Hcb; cbn [p_bind];
    [|split; [done|]; intros env; split; [done|]; by intros (_ & _ & ? & _)].
  destruct (minted_sealed g par nk r (id cap) Hnk Hz Hw Hemp Hmax) as (c0 & nk' & s & H1 & H2 & H3 & H4).
  fold body in H1, H2. rewrite H1. cbn [p_bind]. rewrite H2. cbn [p_bind]. unfold scratch_kernel.
  rewrite H3. cbn [p_bind]. rewrite H4. split; [done|]. intros [eb ey]. simpl.
  split; [by intros [= <- <-]|]. intros (_ & _ & _ & Hbody & Hse). rewrite Hbody.
  assert (Ok b = Ok ey :> EnvelopeResult _) as [= ->] by (by rewrite <-Hseal, <-Hse). done.
Qed.

(** ** Issuing from a bootstrap source *)

(** Covered rights need no carrier that the covering ones lack. *)
Lemma carriers_covered ps ns g b pr rs ns' g' b' r :
  validate_rights_inner catalog ps ns g b = Some (Ok pr) →
  validate_rights_inner catalog rs ns' g' b' = Some (Ok r) →
  covers_rights catalog ps rs = true → intersection r pr = r.
Proof.
  intros (_ & _ & _ & _ & _ & _ & Wp & Hp)%validate_rights_Ok (_ & _ & _ & _ & _ & _ & Wr & Hr)%validate_rights_Ok Hcov.
  rewrite covers_rights_spec in Hcov.
  apply rights_ext; [by apply intersection_wf_r|done|]. intros x. rewrite intersection_contains.
  destruct (Rights_contains r x) eqn:E; [|done]. cbn [andb].
  apply Hr in E as (q & Hq & ->). destruct (Hcov q Hq) as (h & Hh & Hc). apply Hp. exists h.
  split; [done|]. by destruct h, q.
Qed.

Lemma rights_nonempty rs ns g b r :
  validate_rights_inner catalog rs ns g b = Some (Ok r) → Rights_is_empty r = false ∧ rights_wf r.
Proof.
  intros (_ & _ & Hne & _ & _ & _ & Hw & Hc)%validate_rights_Ok. split; [|done].
  destruct (Rights_is_empty r) eqn:E; [|done]. rewrite is_empty_spec in E by done.
  destruct rs as [|x l]; [done|]. specialize (Hc (if is_record x then Execute else Delegate)).
  rewrite E in Hc. destruct Hc as [_ Hc]. discriminate Hc. exists x. set_solver.
Qed.

Definition bootstrap_covers (source : BootstrapSource) (g : EnvelopeDraft) : Prop :=
  principal_leg (src_owner source) = None ∧ src_owner source = issuer g ∧
  src_store_id source = store_id g ∧ src_epoch_id source = epoch_id g ∧
  src_root_anchor_id source = root_anchor_id g ∧ src_namespace source = grant_namespace g ∧
  Validity_covers (src_validity source) (grant_validity g) = true ∧
  covers_rights catalog (src_rights source) (grant_rights g) = true.

Definition bootstrap_parent (source : BootstrapSource) : ParentBinding :=
  BootstrapSlot (src_slot source) (src_manifest_digest source) PRIVATE_ANCHOR.

Lemma fits_draft g par r pid : fits g par r pid → ∃ n, encoded_len g = Ok n ∧ (n ≤ MAX_RECORD_BYTES)%N.
Proof.
  intros (n & Hn & Hle).
  destruct (issued_body_size _ _ _ _ _ (placeholder_shape r pid) (placeholder_shape r pid) Hn) as (_ & m & Hm' & ?).
  exists m. split; [done|]. unfold RECORD_OVERHEAD in Hle. lia.
Qed.

Lemma no_leg (p : Principal) : bool_decide (is_Some (principal_leg p)) = false ↔ principal_leg p = None.
Proof.
  rewrite bool_decide_eq_false. destruct (principal_leg p); [|split; [done|by intros _ []]].
  split; [|done]. intros Hn. exfalso. apply Hn. by eexists.
Qed.

Lemma validate_draft_Ok g :
  validate_draft catalog g = Some (Ok ()) →
  principal_leg (issuer g) = None ∧
  (principal_leg (grantee g) = None ∨ Principal_parent (grantee g) = issuer g) ∧
  ∃ r, validate_rights catalog (grant_rights g) (grant_namespace g) (grantee g) = Some (Ok r).
Proof.
  unfold validate_draft. intros Hd. do 5 (apply p_bind_Ok in Hd as ([] & _ & Hd)).
  destruct (bool_decide (is_Some (principal_leg (issuer g)))) eqn:E1; [done|]. apply no_leg in E1.
  destruct (_ && _) eqn:E2; [done|]. apply p_bind_Ok in Hd as ([] & _ & Hd).
  apply p_bind_Ok in Hd as (r & Hr & _). split_and!; [done| |by exists r].
  apply andb_false_iff in E2 as [?%no_leg|?%negb_false_iff%bool_decide_eq_true]; auto.
Qed.

Lemma bootstrap_guard source g :
  bool_decide (is_Some (principal_leg (src_owner source))) ||
  negb (bool_decide (src_owner source = issuer g)) ||
  negb (bool_decide (src_store_id source = store_id g)) ||
  negb (bool_decide (src_epoch_id source = epoch_id g)) ||
  negb (bool_decide (src_root_anchor_id source = root_anchor_id g)) ||
  negb (bool_decide (src_namespace source = grant_namespace g)) ||
  negb (Validity_covers (src_validity source) (grant_validity g)) ||
  negb (covers_rights catalog (src_rights source) (grant_rights g)) = false ↔ bootstrap_covers source g.
Proof.
  unfold bootstrap_covers. rewrite !orb_false_iff, no_leg, !negb_false_iff, !bool_decide_eq_true. tauto.
Qed.

(** What an issued record is, when it was issued from a bootstrap source. *)
Definition bootstrapped (source : BootstrapSource) (g : EnvelopeDraft) (env : AuthenticatedEnvelope) : Prop :=
    validate_draft catalog g = Some (Ok ()) ∧ Principal_validate (src_owner source) = Ok () ∧
    Validity_validate (src_validity source) = Ok () ∧ nonempty (src_slot source) = Ok () ∧
    (∃ sc, validate_source_rights catalog (src_rights source) (src_namespace source) (src_owner source) =
           Some (Ok sc)) ∧
    bootstrap_covers source g ∧ grant_id g ≠ root_anchor_id g ∧
    ∃ nk r, keys_native keys (grant_key g) = Ok nk ∧ nk ≠ zero32 ∧
      validate_rights catalog (grant_rights g) (grant_namespace g) (grantee g) = Some (Ok r) ∧
      fits g (bootstrap_parent source) r PRIVATE_ANCHOR ∧
      env_body env = issued_body g (bootstrap_parent source) (minted_native nk r PRIVATE_ANCHOR) ∧
      seal_body (env_body env) keys = Ok (env_bytes env).

Lemma issue_from_bootstrap_decides source g :
  typed g → typed (src_slot source) → typed (src_manifest_digest source) →
  decides (issue_from_bootstrap keys catalog source g) (bootstrapped source g).
Proof.
  intros Tg Ts Tm. unfold issue_from_bootstrap, bootstrapped.
  apply decides_let; [intros n Hn|].
  2:{ intros env (_ & _ & _ & _ & _ & _ & _ & nk & r & _ & _ & _ & Hf & _).
      destruct (fits_draft _ _ _ _ Hf) as (n & ? & _). by exists n. }
  apply decides_check; [intros _|].
  2:{ intros env (_ & _ & _ & _ & _ & _ & _ & nk & r & _ & _ & _ & Hf & _).
      destruct (fits_draft _ _ _ _ Hf) as (n' & Hn' & Hle). apply bound_Ok.
      by assert (n' = n) as -> by congruence. }
  apply decides_bind; [apply validate_draft_total|intros [] Hd|naive_solver].
  apply decides_check; [intros Hown|naive_solver]. apply decides_check; [intros Hval|naive_solver].
  apply decides_check; [intros Hslot|naive_solver].
  apply decides_bind; [apply validate_rights_total|intros sc Hsc|naive_solver].
  apply decides_if.
  2:{ intros env (_ & _ & _ & _ & _ & Hc & _). by apply bootstrap_guard. }
  intros Hc%bootstrap_guard. pose proof Hc as (_ & _ & _ & _ & _ & _ & _ & Hcov).
  destruct (validate_draft_Ok _ Hd) as (_ & _ & r & Hr).
  apply decides_let; [intros k Hk|].
  2:{ intros env (_ & _ & _ & _ & _ & _ & _ & nk & r' & Hnk & Hz & _). eexists. apply issuer_kernel_Ok. eauto. }
  destruct (rights_nonempty _ _ _ _ _ Hsc) as [Hne Hw]. unfold Capability_new. cbn [N.eqb]. rewrite Hne.
  set (anchor := Build_Capability _ _ _ _ _ _ _ _).
  destruct (scratch_insert g k anchor Hk) as (k' & nk & -> & Hnk & Hz & Hs).
  assert (bootstrap_parent source = BootstrapSlot (src_slot source) (src_manifest_digest source) PRIVATE_ANCHOR)
    as Hpar by done. rewrite <-Hpar.
  eapply decides_iff.
  - apply (delegate_and_seal_spec k' nk anchor g (bootstrap_parent source) r); try done.
    by eapply carriers_covered.
  - intros env. change (id anchor) with PRIVATE_ANCHOR. split.
    + intros (Hf & Hroot & _ & Hbody & Hseal). split_and!; try done; [by exists sc|].
      exists nk, r. rewrite Hbody. by split_and!.
    + intros (_ & _ & _ & _ & _ & _ & Hroot & nk' & r' & Hnk' & _ & Hr' & Hf & Hbody & Hseal).
      assert (nk' = nk) as -> by congruence. assert (r' = r) as -> by congruence.
      split_and!; [done|done| |done|by rewrite <-Hbody].
      unfold check_parent_binding, bootstrap_parent, issued_body. cbn [body_parent body_native].
      rewrite Hslot. cbn [res_bind]. rewrite bool_decide_true by done. done.
Qed.

End issue.
