(* ===== verification/DurableDelegate.v ===== *)
(** Delegation of grant records (DurableEnvelope): what a verified body
    satisfies, and when [issue_delegate] succeeds. *)

From Stdlib Require Import NArith ZArith Ascii String.
From stdpp Require Import base tactics list numbers strings sorting gmap.
From S2P Require Import Prelude RustStr LionVec LionRights LionRevocation LionRevocationFacts LionMemory LionState.
From S2P Require Import LionState CapabilityManager DurableTypes DurableCodec DurableCodecLaws DurablePermission DurablePermissionFacts DurableRights DurableEnvelope.
From S2P Require Import DurableEnvelope DurableIssue.

(** ** Aliases *)

(** The alias of an issuance lies in the alias range whatever its UUID, so that
    [check_alias] accepts it. *)
Lemma issuance_alias_range i : (ALIAS_START ≤ issuance_alias i < ALIAS_END)%N.
Proof.
  unfold issuance_alias. rewrite N.land_ones.
  assert (i mod 2 ^ 126 < 2 ^ 126)%N as Hlt by (by apply N.mod_lt).
  assert (N.lor ALIAS_START (i mod 2 ^ 126) = 2 ^ 126 + i mod 2 ^ 126)%N as ->.
  { change ALIAS_START with (2 ^ 126)%N. symmetry. rewrite <-N.lxor_lor; [apply N.add_nocarry_lxor|].
    all: apply N.bits_inj_0; intros n; rewrite N.land_spec, N.pow2_bits_eqb;
      destruct (N.eqb_spec 126 n) as [<-|]; [|done]; rewrite N.mod_pow2_bits_high by done; done. }
  change ALIAS_START with (2 ^ 126)%N. change ALIAS_END with (2 ^ 126 + 2 ^ 126)%N.
  revert Hlt. generalize (2 ^ 126)%N (i mod 2 ^ 126)%N. intros; lia.
Qed.

Lemma check_alias_range a : check_alias a = Ok () ↔ (ALIAS_START ≤ a < ALIAS_END)%N.
Proof.
  unfold check_alias. destruct (N.leb_spec ALIAS_START a), (N.ltb_spec a ALIAS_END); cbn; split; try done; lia.
Qed.

Lemma alias_lt_max i : (issuance_alias i < U128_MAX)%N.
Proof.
  pose proof (issuance_alias_range i) as [_ Ha]. change ALIAS_END with (2 ^ 127)%N in Ha. unfold U128_MAX. lia.
Qed.

Section delegate.
Context `{Hm : HmacSha256} `{Hb : Blake3} `{Hu : UuidText} `{!HmacLaws} `{!Blake3Laws}.
Context (keys : SuppliedKeys) (catalog : ClosedCatalog).

(** ** What a verified body satisfies *)

Lemma validate_body_Ok body st ep :
  validate_body catalog body st ep = Some (Ok ()) →
  validate_draft catalog (grant body) = Some (Ok ()) ∧
  store_id (grant body) = st ∧ epoch_id (grant body) = ep ∧
  native_epoch (body_native body) = 0%N ∧ (native_id (body_native body) < OUTPUT_END)%N ∧
  native_holder (body_native body) = 1%N ∧ native_target (body_native body) = 1%N ∧
  check_parent_binding body = Ok () ∧
  ∃ r, validate_rights catalog (grant_rights (grant body)) (grant_namespace (grant body))
         (grantee (grant body)) = Some (Ok r) ∧ native_rights (body_native body) = bits r.
Proof.
  unfold validate_body. destruct (_ || _) eqn:E0; [done|]. intros ([] & Hd & Hv)%p_bind_Ok.
  destruct (_ || _) eqn:E1 in Hv; [done|].
  rewrite !orb_false_iff, !negb_false_iff, !bool_decide_eq_true in E1. destruct E1 as [[Hst Hep] _].
  apply p_bind_Ok in Hv as (r & Hr & Hv). destruct (_ || _) eqn:E2 in Hv; [done|].
  rewrite !orb_false_iff, !negb_false_iff, !N.eqb_eq, N.leb_gt in E2. injection Hv as Hv.
  split_and!; try tauto. exists r. tauto.
Qed.

Lemma parent_binding_parent body :
  check_parent_binding body = Ok () →
  ∃ p : u128, native_parent (body_native body) = Some p ∧ (ALIAS_START ≤ p < U128_MAX)%N.
Proof.
  unfold check_parent_binding. destruct (body_parent body) as [gid iid orig alias dig|slot dig anchor].
  - intros ([] & Ha%check_alias_range & Hv)%res_bind_Ok. destruct (_ || _) eqn:E; [done|].
    rewrite !orb_false_iff, !negb_false_iff, !bool_decide_eq_true in E. exists alias. split; [tauto|].
    change ALIAS_END with (2 ^ 127)%N in Ha. unfold U128_MAX. lia.
  - intros ([] & _ & Hv)%res_bind_Ok. destruct (_ || _) eqn:E; [done|].
    rewrite !orb_false_iff, !negb_false_iff, !bool_decide_eq_true, andb_true_iff, N.leb_le, N.ltb_lt in E.
    exists anchor. split; [tauto|]. change ALIAS_END with (2 ^ 127)%N in E. change ALIAS_START with (2 ^ 126)%N. lia.
Qed.

Lemma native_typed_shape body :
  typed body → check_parent_binding body = Ok () → native_shape (body_native body).
Proof.
  intros (_ & _ & _ & _ & _ & _ & (_ & _ & _ & _ & _ & _ & [Hsg _])) (p & Hp & _)%parent_binding_parent.
  split; [by eexists|done].
Qed.

(** The digest of a verified native capability can always be computed. *)
Lemma canonical_digest_Ok n : native_shape n → ∃ d, canonical_digest n = Ok d ∧ typed d.
Proof.
  intros [[p Hp] Hsg]. destruct (native_width n p Hp Hsg) as (b & E & Hl).
  unfold canonical_digest. rewrite (proj2 (encode_emits n b)) by (split; [done|by rewrite Hl]).
  cbn [res_bind]. eexists. split; [done|]. split; [apply blake3_length|apply blake3_byte].
Qed.

(** A record determines its body. *)
Lemma sealed_body_unique body1 body2 b :
  typed body1 → typed body2 → seal_body body1 keys = Ok b → seal_body body2 keys = Ok b → body1 = body2.
Proof.
  intros T1 T2 (e1 & k1 & E1 & _ & L1 & B1)%seal_body_Ok (e2 & k2 & E2 & _ & L2 & B2)%seal_body_Ok.
  unfold RECORD_OVERHEAD, MAX_RECORD_BYTES in L1, L2.
  destruct (record_parts e1 (hmac_sha256 k1 (mac_input e1)) ltac:(lia)) as (_ & P1 & Q1 & _).
  destruct (record_parts e2 (hmac_sha256 k2 (mac_input e2)) ltac:(lia)) as (_ & P2 & Q2 & _).
  rewrite <-B1 in *. rewrite <-B2 in *.
  assert (e1 = e2) as -> by congruence. by eapply encode_inj.
Qed.

(** ** Delegating *)

Definition delegated_parent (par : GrantBody) (g : EnvelopeDraft) (digest : ContractDigest) : ParentBinding :=
  ParentGrant (grant_id (grant par)) (issuance_id (grant par)) (native_id (body_native par))
    (issuance_alias (issuance_id g)) digest.

Lemma delegated_parent_typed par g d : typed par → typed d → typed (delegated_parent par g d).
Proof.
  intros (_ & _ & _ & (T1 & _ & _ & _ & _ & _ & _ & _ & _ & _ & _ & _ & _ & _ & T2 & _) & _ & _ & T3 & _) Td.
  split_and!; [exact T1|exact T2|exact T3| |exact Td]. unfold typed, uint_Typed.
  change (256 ^ N.of_nat 16)%N with (U128_MAX + 1)%N. pose proof (alias_lt_max (issuance_id g)). lia.
Qed.

Lemma check_parent_scope_Ok p g :
  check_parent_scope catalog p g = Ok () ↔
  grant_id p ≠ grant_id g ∧ issuance_id p ≠ issuance_id g ∧ store_id p = store_id g ∧
  epoch_id p = epoch_id g ∧ root_anchor_id p = root_anchor_id g ∧
  grant_namespace p = grant_namespace g ∧ grantee p = issuer g ∧
  Validity_covers (grant_validity p) (grant_validity g) = true ∧
  covers_rights catalog (grant_rights p) (grant_rights g) = true.
Proof.
  unfold check_parent_scope.
  match goal with |- context [if ?b then _ else _] => assert (b = false ↔
    (grant_id p ≠ grant_id g ∧ issuance_id p ≠ issuance_id g ∧ store_id p = store_id g ∧
     epoch_id p = epoch_id g ∧ root_anchor_id p = root_anchor_id g ∧
     grant_namespace p = grant_namespace g ∧ grantee p = issuer g ∧
     Validity_covers (grant_validity p) (grant_validity g) = true ∧
     covers_rights catalog (grant_rights p) (grant_rights g) = true)) as E;
    [rewrite !orb_false_iff, !negb_false_iff, !bool_decide_eq_true, !bool_decide_eq_false; tauto|destruct b] end;
  split; try done; try tauto. intros Hc. by apply E in Hc.
Qed.

Lemma delegated_binding_ok par g d nk r :
  check_parent_scope catalog (grant par) g = Ok () → (native_id (body_native par) < OUTPUT_END)%N →
  check_parent_binding (issued_body g (delegated_parent par g d)
    (minted_native nk r (issuance_alias (issuance_id g)))) = Ok ().
Proof.
  intros (H1 & H2 & _)%check_parent_scope_Ok Hid. unfold check_parent_binding, issued_body, delegated_parent.
  cbn [body_parent grant body_native].
  rewrite (proj2 (check_alias_range _)) by apply issuance_alias_range. cbn [res_bind].
  rewrite !bool_decide_false, (proj2 (N.leb_gt _ _)) by done. by rewrite bool_decide_true by done.
Qed.

(** A sealed minted body verifies. *)
Lemma issued_verifies g par nk r pid b :
  typed g → typed par → validate_draft catalog g = Some (Ok ()) →
  validate_rights catalog (grant_rights g) (grant_namespace g) (grantee g) = Some (Ok r) →
  keys_native keys (grant_key g) = Ok nk → nk ≠ zero32 → (pid < U128_MAX)%N →
  grant_id g ≠ root_anchor_id g →
  check_parent_binding (issued_body g par (minted_native nk r pid)) = Ok () →
  seal_body (issued_body g par (minted_native nk r pid)) keys = Ok b →
  verify keys catalog b (store_id g) (epoch_id g) =
    Some (Ok {| env_body := issued_body g par (minted_native nk r pid); env_bytes := b |}).
Proof.
  intros Tg Tp Hd Hr Hnk Hz Hp Hroot Hcb Hs. destruct (rights_nonempty _ _ _ _ _ _ Hr) as [Hne Hw].
  apply (verify_sealed keys catalog (issued_body g par (minted_native nk r pid)));
    [by apply issued_typed|done| |by apply minted_sealed].
  rewrite validate_body_issued by done. by rewrite bool_decide_false, Hcb by done.
Qed.

Lemma delegation_link_ok child p g d nk r :
  env_body child = issued_body g (delegated_parent (env_body p) g d) (minted_native nk r (issuance_alias (issuance_id g))) →
  verify keys catalog (env_bytes child) (store_id g) (epoch_id g) = Some (Ok child) →
  verify keys catalog (env_bytes p) (store_id g) (epoch_id g) = Some (Ok p) →
  canonical_digest (body_native (env_body p)) = Ok d → native_target (body_native (env_body p)) = 1%N →
  check_parent_scope catalog (grant (env_body p)) g = Ok () →
  verify_delegation_link keys catalog child p = Some (Ok ()).
Proof.
  intros Hbody Hvc Hvp Hd Ht Hsc. unfold verify_delegation_link. rewrite Hbody.
  change (store_id (grant (issued_body g _ _))) with (store_id g).
  change (epoch_id (grant (issued_body g _ _))) with (epoch_id g).
  rewrite Hvc. cbn [p_bind]. rewrite Hbody.
  change (store_id (grant (issued_body g _ _))) with (store_id g).
  change (epoch_id (grant (issued_body g _ _))) with (epoch_id g).
  rewrite Hvp. cbn [p_bind]. cbn [issued_body body_parent delegated_parent grant].
  rewrite !bool_decide_true, N.eqb_refl by done. cbn [negb orb]. rewrite Hd. cbn [p_bind].
  rewrite !bool_decide_true by done. cbn [body_native minted_native native_target]. rewrite Ht, N.eqb_refl.
  cbn [negb orb]. by rewrite Hsc.
Qed.

(** What an issued record is, when it was delegated from a parent record. *)
Definition delegated (par : AuthenticatedEnvelope) (g : EnvelopeDraft) (env : AuthenticatedEnvelope) : Prop :=
    validate_draft catalog g = Some (Ok ()) ∧ grant_id g ≠ root_anchor_id g ∧
    ∃ p, verify keys catalog (env_bytes par) (store_id g) (epoch_id g) = Some (Ok p) ∧
      check_parent_scope catalog (grant (env_body p)) g = Ok () ∧
    ∃ d nk r, canonical_digest (body_native (env_body p)) = Ok d ∧
      keys_native keys (grant_key g) = Ok nk ∧ nk ≠ zero32 ∧
      validate_rights catalog (grant_rights g) (grant_namespace g) (grantee g) = Some (Ok r) ∧
      fits g (delegated_parent (env_body p) g d) r (issuance_alias (issuance_id g)) ∧
      env_body env = issued_body g (delegated_parent (env_body p) g d)
                       (minted_native nk r (issuance_alias (issuance_id g))) ∧
      seal_body (env_body env) keys = Ok (env_bytes env).

Lemma issue_delegate_decides par g :
  typed g → Forall is_byte (env_bytes par) → decides (issue_delegate keys catalog par g) (delegated par g).
Proof.
  intros Tg Hby. unfold issue_delegate, delegated. set (alias := issuance_alias (issuance_id g)).
  apply decides_let; [intros n Hn|].
  2:{ intros env (_ & _ & p & _ & _ & d & nk & r & _ & _ & _ & _ & Hf & _).
      destruct (fits_draft _ _ _ _ Hf) as (n & ? & _). by exists n. }
  apply decides_check; [intros _|].
  2:{ intros env (_ & _ & p & _ & _ & d & nk & r & _ & _ & _ & _ & Hf & _).
      destruct (fits_draft _ _ _ _ Hf) as (n' & Hn' & Hle). apply bound_Ok.
      by assert (n' = n) as -> by congruence. }
  apply decides_bind; [apply validate_draft_total|intros [] Hd|naive_solver].
  apply decides_check; [intros _|intros; apply check_alias_range, issuance_alias_range].
  apply decides_bind; [by apply verify_total|intros p Hp|naive_solver].
  apply decides_check; [intros Hsc|].
  2:{ intros env (_ & _ & p' & Hp' & Hsc & _). by assert (p' = p) as -> by congruence. }
  destruct (verify_Ok _ _ _ _ _ _ Hby Hp) as (Hpb & Tp & _ & Hvb & cap & nk0 & s & Hcap & _).
  destruct (validate_body_Ok _ _ _ Hvb) as (_ & _ & _ & He0 & Hid & Hh & Ht & Hcb & pr & Hpr & Hbits).
  destruct (canonical_digest_Ok _ (native_typed_shape _ Tp Hcb)) as (d & Hdig & Td). rewrite Hdig. cbn [p_bind].
  destruct (validate_draft_Ok _ _ Hd) as (_ & _ & r & Hr).
  apply decides_let; [intros k Hk|].
  2:{ intros env (_ & _ & p' & _ & _ & d' & nk & r' & _ & Hnk & Hz & _). eexists. apply issuer_kernel_Ok. eauto. }
  pose proof Hcap as Hcap'. apply to_core_Ok in Hcap' as (Hmax & Hlow & Hh0 & Hne & _).
  destruct (to_core (body_native (env_body p)) alias) as [rec|e] eqn:Hrec.
  2:{ unfold to_core, Capability_new in Hrec. rewrite bool_decide_false, Hlow in Hrec by done.
      rewrite (proj2 (N.eqb_neq _ _) Hh0), Hne in Hrec. done. }
  cbn [p_bind]. apply to_core_Ok in Hrec as (_ & _ & _ & _ & ->). rewrite Hh.
  set (rec := Build_Capability _ _ _ _ _ _ _ _).
  destruct (scratch_insert keys g k rec Hk) as (k' & nk & -> & Hnk & Hz & Hs).
  destruct (issuance_alias_range (issuance_id g)) as [Ha1 Ha2]. fold alias in Ha1, Ha2.
  pose proof (alias_lt_max (issuance_id g)) as Halt. fold alias in Halt.
  pose proof (delegated_parent_typed _ g d Tp Td) as Tpar.
  pose proof Hsc as (_ & _ & _ & _ & _ & Hns & Hge & _ & Hcov)%check_parent_scope_Ok.
  assert (rights rec = pr) as Hrr.
  { subst rec. cbn [rights]. rewrite Hbits. apply from_bits_wf. by apply (rights_nonempty _ _ _ _ _ _ Hpr). }
  assert (intersection r (rights rec) = r) as Hint by (rewrite Hrr; by eapply carriers_covered).
  assert (alias ≠ 0%N) as Hnz by (change ALIAS_START with (2 ^ 126)%N in Ha1; lia).
  destruct (verify_Ok _ _ _ _ _ _ Hby Hp) as (Hpy & _).
  eapply decides_iff.
  - apply decides_keep.
    + apply (delegate_and_seal_spec keys catalog k' nk rec g (delegated_parent (env_body p) g d) r); done.
    + intros env (Hf & Hroot & Hcb' & Hbody & Hseal).
      eapply (delegation_link_ok env p g d nk r); [exact Hbody| |by rewrite Hpy|done|done|done].
      rewrite (issued_verifies g (delegated_parent (env_body p) g d) nk r alias (env_bytes env)); try done.
      destruct env; simpl in *. by rewrite Hbody.
  - intros env. change (id rec) with alias. split.
    + intros (Hf & Hroot & _ & Hbody & Hseal). split_and!; [done|done|]. exists p. split_and!; [done|done|].
      exists d, nk, r. rewrite Hbody. by split_and!.
    + intros (_ & Hroot & p' & Hp' & _ & d' & nk' & r' & Hd' & Hnk' & _ & Hr' & Hf & Hbody & Hseal).
      assert (p' = p) as -> by congruence. assert (d' = d) as -> by congruence.
      assert (nk' = nk) as -> by congruence. assert (r' = r) as -> by congruence.
      split_and!; [done|done|by apply delegated_binding_ok|done|by rewrite <-Hbody].
Qed.
End delegate.

(** What grant records (DurableEnvelope) guarantee together: a chain of verified
    delegation links only narrows the authority of its first record, and every
    record that can be issued from a set of bootstrap sources verifies, descends
    from one of them and carries no authority that the source lacks. *)

Section history.
Context `{Hm : HmacSha256} `{Hb : Blake3} `{Hu : UuidText} `{!HmacLaws} `{!Blake3Laws}.
Context (keys : SuppliedKeys) (catalog : ClosedCatalog).

(** The fields of an [AuthenticatedEnvelope] are private: one is only made by
    [verify]. *)
Definition authentic (e : AuthenticatedEnvelope) : Prop :=
  Forall is_byte (env_bytes e) ∧
  ∃ st ep, verify keys catalog (env_bytes e) st ep = Some (Ok e).

Lemma authentic_verify e :
  authentic e → verify keys catalog (env_bytes e) (store_id (grant (env_body e))) (epoch_id (grant (env_body e))) = Some (Ok e).
Proof.
  intros (Hby & st & ep & Hv). pose proof Hv as (_ & _ & _ & Hvb & _)%verify_Ok; [|done].
  by apply validate_body_Ok in Hvb as (_ & -> & -> & _).
Qed.

Lemma authentic_unique e1 e2 : authentic e1 → authentic e2 → env_bytes e1 = env_bytes e2 → e1 = e2.
Proof.
  intros [H1 (s1 & p1 & V1)] [H2 (s2 & p2 & V2)] Heq.
  apply verify_Ok in V1 as (_ & T1 & S1 & _); [|done]. apply verify_Ok in V2 as (_ & T2 & S2 & _); [|done].
  rewrite <-Heq in S2. destruct e1, e2. simpl in *. subst. f_equal.
  eapply (sealed_body_unique keys); [exact T1|exact T2|exact S1|exact S2].
Qed.

(** ** Authority of a record *)

(** [s] may stand behind [g]: the two share the store, the epoch, the root
    anchor and the namespace, and neither the interval nor the observations
    that [g] lets its holder record, or let others record, exceed those of [s]. *)
Record bounded_by (st ep root : Uuid) (ns : string) (v : Validity) (rs : list RightSpec)
    (g : EnvelopeDraft) : Prop := {
  bounded_store : store_id g = st;
  bounded_epoch : epoch_id g = ep;
  bounded_root : root_anchor_id g = root;
  bounded_namespace : grant_namespace g = ns;
  bounded_validity : Validity_covers v (grant_validity g) = true;
  bounded_rights : covers_rights catalog rs (grant_rights g) = true
}.

Definition narrows (s g : EnvelopeDraft) : Prop :=
  bounded_by (store_id s) (epoch_id s) (root_anchor_id s) (grant_namespace s) (grant_validity s) (grant_rights s) g.

Lemma bounded_narrows st ep root ns v rs s g :
  bounded_by st ep root ns v rs s → narrows s g → bounded_by st ep root ns v rs g.
Proof.
  intros [A1 A2 A3 A4 A5 A6] [B1 B2 B3 B4 B5 B6]. split; try congruence.
  - by eapply validity_covers_trans.
  - by eapply covers_rights_trans.
Qed.

Lemma scope_narrows p g : check_parent_scope catalog p g = Ok () → narrows p g ∧ grantee p = issuer g.
Proof. intros (_ & _ & ? & ? & ? & ? & ? & ? & ?)%check_parent_scope_Ok. split; [by split|done]. Qed.

(** What the holder may do, at which time. *)
Lemma bounded_authority st ep root ns v rs g :
  bounded_by st ep root ns v rs g → 
  (∀ now, Validity_contains (grant_validity g) now = true → Validity_contains v now = true) ∧
  (∀ o, may_record catalog (grant_rights g) o → may_record catalog rs o) ∧
  (∀ m o, may_grant catalog (grant_rights g) m o → may_grant catalog rs m o).
Proof.
  intros [_ _ _ _ Hv Hr]. apply covers_rights_sound in Hr as [H1 H2]. split_and!; [|done|done].
  intros now. rewrite !contains_bounds. apply covers_bounds in Hv as [Hnb He]. intros [Hl Hh].
  split; [lia|]. intros e Hpe. destruct (He e Hpe) as (e' & He' & Hle). specialize (Hh e' He'). lia.
Qed.

(** ** Links and issued records *)

Lemma seal_body_byte body b : typed body → seal_body body keys = Ok b → Forall is_byte b.
Proof.
  intros Ht (enc & key & He & _ & _ & ->)%seal_body_Ok. unfold record_bytes.
  apply Forall_app; split; [by apply (bool_decide_unpack _); vm_compute|].
  apply Forall_app; split; [apply be_bytes_byte|]. apply Forall_app; split; [|apply hmac_byte].
  by apply (encode_byte body).
Qed.

Lemma issued_authentic g par nk r pid env :
  typed g → typed par → validate_draft catalog g = Some (Ok ()) →
  validate_rights catalog (grant_rights g) (grant_namespace g) (grantee g) = Some (Ok r) →
  keys_native keys (grant_key g) = Ok nk → nk ≠ zero32 → (pid < U128_MAX)%N →
  grant_id g ≠ root_anchor_id g →
  env_body env = issued_body g par (minted_native nk r pid) →
  check_parent_binding (env_body env) = Ok () →
  seal_body (env_body env) keys = Ok (env_bytes env) → authentic env.
Proof.
  intros Tg Tp Hd Hr Hnk Hz Hp Hroot Hbody Hcb Hs. rewrite Hbody in Hcb, Hs.
  destruct (rights_nonempty _ _ _ _ _ _ Hr) as [_ Hw]. split.
  - eapply seal_body_byte; [|exact Hs]. by apply issued_typed.
  - exists (store_id g), (epoch_id g).
    rewrite (issued_verifies keys catalog g par nk r pid (env_bytes env)) by done.
    destruct env; simpl in *. by rewrite Hbody.
Qed.

Lemma link_Ok child par :
  authentic child → authentic par → verify_delegation_link keys catalog child par = Some (Ok ()) →
  check_parent_scope catalog (grant (env_body par)) (grant (env_body child)) = Ok () ∧
  ∃ alias d, body_parent (env_body child) =
      ParentGrant (grant_id (grant (env_body par))) (issuance_id (grant (env_body par)))
        (native_id (body_native (env_body par))) alias d ∧
    canonical_digest (body_native (env_body par)) = Ok d.
Proof.
  intros Hc Hp Hl. unfold verify_delegation_link in Hl.
  rewrite (authentic_verify child) in Hl by done. cbn [p_bind] in Hl.
  apply p_bind_Ok in Hl as (p & Hp' & Hl).
  assert (p = par) as ->.
  { pose proof Hp as [Hby _]. pose proof Hp' as (Hb' & _)%verify_Ok; [|done].
    apply authentic_unique; [|done|done]. split; [by rewrite Hb'|]. eexists _, _. by rewrite Hb'. }
  destruct (body_parent (env_body child)) as [gid iid orig alias dig|]; [|done].
  destruct (_ || _) eqn:E1; [done|]. 
  destruct (canonical_digest _) as [d|] eqn:Hd; [|done].
  destruct (_ || _) eqn:E2 in Hl; [done|]. injection Hl as Hl. split; [done|].
  rewrite !orb_false_iff, !negb_false_iff, !bool_decide_eq_true, N.eqb_eq in E1.
  rewrite !orb_false_iff, !negb_false_iff, !bool_decide_eq_true in E2.
  destruct E1 as [[-> ->] ->], E2 as [[-> _] _]. by exists alias, d.
Qed.

(** The rights of the native capability of a narrower record. *)
Lemma narrows_native p c :
  authentic p → authentic c → narrows (grant (env_body p)) (grant (env_body c)) →
  intersection (Rights_from_bits (native_rights (body_native (env_body c))))
    (Rights_from_bits (native_rights (body_native (env_body p)))) =
  Rights_from_bits (native_rights (body_native (env_body c))).
Proof.
  intros (Hyp & sp & ep & Vp) (Hyc & sc & ec & Vc) Hn.
  apply verify_Ok in Vp as (_ & _ & _ & (_ & _ & _ & _ & _ & _ & _ & _ & rp & Rp & ->)%validate_body_Ok & _); [|done].
  apply verify_Ok in Vc as (_ & _ & _ & (_ & _ & _ & _ & _ & _ & _ & _ & rc & Rc & ->)%validate_body_Ok & _); [|done].
  rewrite !from_bits_wf; [|by eapply (rights_nonempty catalog)..].
  eapply carriers_covered; [exact Rp|exact Rc|]. apply bounded_rights in Hn. done.
Qed.

(** ** Chains of links *)

Inductive chain : AuthenticatedEnvelope → AuthenticatedEnvelope → Prop :=
| chain_refl e : authentic e → chain e e
| chain_link root par child :
    chain root par → authentic child → verify_delegation_link keys catalog child par = Some (Ok ()) →
    chain root child.

Lemma narrows_refl e : authentic e → narrows (grant (env_body e)) (grant (env_body e)).
Proof.
  intros (Hy & st & ep & V). apply verify_Ok in V as (_ & _ & _ & (_ & _ & _ & _ & _ & _ & _ & _ & r & R & _)%validate_body_Ok & _); [|done].
  split; try done; [apply validity_covers_refl|]. apply covers_rights_spec. intros q Hq. exists q. split; [done|].
  apply validate_rights_Ok in R as (_ & _ & _ & _ & _ & Hok & _). rewrite Forall_forall in Hok.
  by eapply covers_right_refl, Hok.
Qed.

Lemma chain_narrows root leaf :
  chain root leaf →
  authentic root ∧ authentic leaf ∧ narrows (grant (env_body root)) (grant (env_body leaf)).
Proof.
  induction 1 as [e He|root par child Hc (Hr & Hp & Hn) Hch Hl]; [by split_and!; [..|apply narrows_refl]|].
  split_and!; [done|done|]. apply link_Ok in Hl as [Hs _]; [|done|done].
  eapply bounded_narrows; [exact Hn|]. by apply scope_narrows.
Qed.

Lemma draft_no_leg e :
  authentic e → principal_leg (issuer (grant (env_body e))) = None.
Proof.
  intros (Hy & st & ep & V).
  by apply verify_Ok in V as (_ & _ & _ & ((? & _)%validate_draft_Ok & _)%validate_body_Ok & _).
Qed.

(** C17: A record at the end of a chain of verified links holds no more than the
    record at its start: the same store, epoch, root anchor and namespace, no
    instant outside its interval, no observation it could not record or let
    others record, and no native right it lacks.  A subactor's record ends every
    chain. *)
Theorem delegation_confined root leaf :
  chain root leaf →
  let r := grant (env_body root) in let l := grant (env_body leaf) in
  (store_id l = store_id r ∧ epoch_id l = epoch_id r ∧ root_anchor_id l = root_anchor_id r ∧
   grant_namespace l = grant_namespace r) ∧
  (∀ now, Validity_contains (grant_validity l) now = true → Validity_contains (grant_validity r) now = true) ∧
  (∀ o, may_record catalog (grant_rights l) o → may_record catalog (grant_rights r) o) ∧
  (∀ m o, may_grant catalog (grant_rights l) m o → may_grant catalog (grant_rights r) m o) ∧
  (∀ x, Rights_contains (Rights_from_bits (native_rights (body_native (env_body leaf)))) x = true →
        Rights_contains (Rights_from_bits (native_rights (body_native (env_body root)))) x = true) ∧
  (principal_leg (grantee r) ≠ None → leaf = root).
Proof.
  intros Hc r l. destruct (chain_narrows _ _ Hc) as (Hr & Hl & Hn).
  pose proof (bounded_authority _ _ _ _ _ _ _ Hn) as (A1 & A2 & A3). pose proof (narrows_native _ _ Hr Hl Hn) as Hi.
  destruct Hn. split_and!; [done..| |].
  - intros x Hx. rewrite <-Hi, intersection_contains in Hx. by apply andb_true_iff in Hx as [_ ?].
  - unfold r. clear -Hc. induction Hc as [e|root par child Hc IH Hch Hl]; [done|]. intros Hleg.
    specialize (IH Hleg) as ->. destruct (chain_narrows _ _ Hc) as (_ & Hp & _).
    apply link_Ok in Hl as [[_ Hge]%scope_narrows _]; [|done|done]. exfalso. apply Hleg. rewrite Hge.
    by apply draft_no_leg.
Qed.

(** ** Issuing *)

Lemma bootstrapped_authentic source g env :
  typed g → typed (src_slot source) → typed (src_manifest_digest source) →
  bootstrapped keys catalog source g env → authentic env.
Proof.
  intros Tg Ts Tm (Hd & _ & _ & Hslot & _ & _ & Hroot & nk & r & Hnk & Hz & Hr & _ & Hbody & Hs).
  eapply (issued_authentic g (bootstrap_parent source) nk r PRIVATE_ANCHOR); try done.
  rewrite Hbody. unfold check_parent_binding, bootstrap_parent, issued_body. cbn [body_parent body_native].
  rewrite Hslot. cbn [res_bind]. by rewrite bool_decide_true by done.
Qed.

Lemma delegated_authentic par g env :
  typed g → Forall is_byte (env_bytes par) → delegated keys catalog par g env →
  authentic env ∧ ∃ p, authentic p ∧ env_bytes p = env_bytes par ∧
    verify keys catalog (env_bytes par) (store_id g) (epoch_id g) = Some (Ok p) ∧
    verify_delegation_link keys catalog env p = Some (Ok ()).
Proof.
  intros Tg Hby (Hd & Hroot & p & Hp & Hsc & d & nk & r & Hdig & Hnk & Hz & Hr & _ & Hbody & Hs).
  pose proof Hp as (Hpb & Tp & _ & Hvb & _)%verify_Ok; [|done].
  apply validate_body_Ok in Hvb as (_ & _ & _ & _ & Hid & _ & Ht & Hcb & _).
  destruct (canonical_digest_Ok _ (native_typed_shape _ Tp Hcb)) as (d' & Hdig' & Td).
  assert (d' = d) as -> by congruence.
  assert (issuance_alias (issuance_id g) < U128_MAX)%N as Ha by apply alias_lt_max.
  assert (authentic env) as He.
  { eapply (issued_authentic g (delegated_parent (env_body p) g d) nk r (issuance_alias (issuance_id g))); try done.
    - by apply delegated_parent_typed.
    - rewrite Hbody. by apply (delegated_binding_ok catalog). }
  split; [done|]. exists p. split_and!; [|done|done|].
  - split; [by rewrite Hpb|]. eexists _, _. by rewrite Hpb.
  - eapply delegation_link_ok; [exact Hbody| |by rewrite Hpb|done|done|done].
    pose proof (authentic_verify _ He) as Hv. by rewrite Hbody in Hv.
Qed.

(** C19: Issuing from a bootstrap source never panics, and it succeeds exactly
    when the source is valid and covers the draft, the draft is valid, the key is
    known and the record fits; no later step can fail, and the record issued is
    the seal of the draft with a natively minted capability under the private
    anchor, which verifies. *)
Theorem issue_from_bootstrap_spec source g :
  typed g → typed (src_slot source) → typed (src_manifest_digest source) →
  decides (issue_from_bootstrap keys catalog source g) (bootstrapped keys catalog source g) ∧
  ∀ env, issue_from_bootstrap keys catalog source g = Some (Ok env) → authentic env.
Proof.
  intros Tg Ts Tm. pose proof (issue_from_bootstrap_decides keys catalog source g Tg Ts Tm) as Hdec.
  split; [done|]. intros env He%Hdec. by eapply bootstrapped_authentic.
Qed.

(** C18: Delegating from a parent record never panics, and it succeeds exactly when
    the parent verifies for the draft's store and epoch and covers the draft, the
    draft is valid, the key is known and the record fits: the alias always lies in
    its range, minting never narrows the rights, and the record issued verifies
    and is linked to the parent. *)
Theorem issue_delegate_spec par g :
  typed g → Forall is_byte (env_bytes par) →
  decides (issue_delegate keys catalog par g) (delegated keys catalog par g) ∧
  ∀ env, issue_delegate keys catalog par g = Some (Ok env) →
    authentic env ∧ ∃ p, env_bytes p = env_bytes par ∧ verify_delegation_link keys catalog env p = Some (Ok ()).
Proof.
  intros Tg Hby. pose proof (issue_delegate_decides keys catalog par g Tg Hby) as Hdec.
  split; [done|]. intros env He%Hdec. apply delegated_authentic in He as (? & p & _ & ? & _ & ?); eauto.
Qed.

(** ** Histories *)

(** The records issued so far, from a set of bootstrap sources. *)
Inductive history (sources : list BootstrapSource) : list AuthenticatedEnvelope → Prop :=
| history_nil : history sources []
| history_bootstrap l source g env :
    history sources l → source ∈ sources → typed g → typed (src_slot source) →
    typed (src_manifest_digest source) →
    issue_from_bootstrap keys catalog source g = Some (Ok env) → history sources (env :: l)
| history_delegate l par g env :
    history sources l → par ∈ l → typed g →
    issue_delegate keys catalog par g = Some (Ok env) → history sources (env :: l).

Definition behind (source : BootstrapSource) (e : AuthenticatedEnvelope) : Prop :=
  bounded_by (src_store_id source) (src_epoch_id source) (src_root_anchor_id source)
    (src_namespace source) (src_validity source) (src_rights source) (grant (env_body e)).

Definition rooted (sources : list BootstrapSource) (l : list AuthenticatedEnvelope) (e : AuthenticatedEnvelope) : Prop :=
  ∃ source root, source ∈ sources ∧ root ∈ l ∧ body_parent (env_body root) = bootstrap_parent source ∧
    issuer (grant (env_body root)) = src_owner source ∧ behind source root ∧ chain root e.

Lemma rooted_mono S l e e' : rooted S l e → rooted S (e' :: l) e.
Proof. intros (s & r & ? & ? & ?). exists s, r. split_and!; [done|by constructor|naive_solver..]. Qed.

Lemma history_rooted S l : history S l → ∀ e, e ∈ l → authentic e ∧ rooted S l e.
Proof.
  induction 1 as [|l source g env Hl IH Hs Tg Ts Tm Hi|l par g env Hl IH Hpar Tg Hi]; intros e He; [by inversion He| |].
  - apply elem_of_cons in He as [->|He]; [|destruct (IH e He); eauto using rooted_mono].
    apply (issue_from_bootstrap_decides keys catalog source g Tg Ts Tm) in Hi as Hb'.
    pose proof (bootstrapped_authentic _ _ _ Tg Ts Tm Hb') as Ha. split; [done|].
    destruct Hb' as (_ & _ & _ & _ & _ & (_ & Hown & ? & ? & ? & ? & ? & ?) & _ & nk & r & _ & _ & _ & _ & Hbody & _).
    exists source, env. split_and!; [done|by left|by rewrite Hbody|by rewrite Hbody|by split; rewrite Hbody|by constructor].
  - apply elem_of_cons in He as [->|He]; [|destruct (IH e He); eauto using rooted_mono].
    destruct (IH par Hpar) as [Hpa (source & root & Hs & Hroot & Hbp & Hown & Hbeh & Hch)].
    pose proof Hpa as [Hby _]. apply (issue_delegate_decides keys catalog par g Tg Hby) in Hi.
    apply delegated_authentic in Hi as (Ha & p & Hpau & Hpb & _ & Hlink); [|done|done].
    assert (p = par) as -> by by apply authentic_unique.
    split; [done|]. exists source, root. split_and!; [done|by right|done..|].
    by eapply chain_link.
Qed.

(** C2: Whatever sequence of issuances produced them, every record verifies and
    is the end of a chain of verified links that starts at a record issued by the
    owner of a bootstrap source; its interval, its observations and its
    administration stay within those of that source. *)
Theorem history_confined sources l e :
  history sources l → e ∈ l →
  verify keys catalog (env_bytes e) (store_id (grant (env_body e))) (epoch_id (grant (env_body e))) = Some (Ok e) ∧
  ∃ source root, source ∈ sources ∧ root ∈ l ∧ chain root e ∧
    body_parent (env_body root) = BootstrapSlot (src_slot source) (src_manifest_digest source) PRIVATE_ANCHOR ∧
    issuer (grant (env_body root)) = src_owner source ∧
    store_id (grant (env_body e)) = src_store_id source ∧ epoch_id (grant (env_body e)) = src_epoch_id source ∧
    grant_namespace (grant (env_body e)) = src_namespace source ∧
    (∀ now, Validity_contains (grant_validity (grant (env_body e))) now = true →
            Validity_contains (src_validity source) now = true) ∧
    (∀ o, may_record catalog (grant_rights (grant (env_body e))) o → may_record catalog (src_rights source) o) ∧
    (∀ m o, may_grant catalog (grant_rights (grant (env_body e))) m o → may_grant catalog (src_rights source) m o).
Proof.
  intros Hl He. destruct (history_rooted _ _ Hl e He) as [Ha (source & root & Hs & Hr & Hbp & Hown & Hbeh & Hch)].
  split; [by apply authentic_verify|]. exists source, root. destruct (chain_narrows _ _ Hch) as (_ & _ & Hn).
  pose proof (bounded_narrows _ _ _ _ _ _ _ _ Hbeh Hn) as Hb'.
  pose proof (bounded_authority _ _ _ _ _ _ _ Hb') as (? & ? & ?). destruct Hb'. by split_and!.
Qed.
End history.
