(* ===== verification/DurableExamples.v ===== *)
(** Concrete grant records: a catalog, keys and two issued records at which
    the theorems on the durable envelopes apply.  The cryptographic parameters are
    a checksum and a length, padded to 32 bytes. *)

From Stdlib Require Import NArith ZArith Ascii String.
From stdpp Require Import base tactics list numbers strings sorting gmap.
From S2P Require Import Prelude RustStr LionVec LionRights LionRevocation LionRevocationFacts LionMemory LionState CapabilityManager.
From S2P Require Import DurableTypes DurableCodec DurableCodecLaws DurablePermission DurablePermissionFacts DurableRights DurableEnvelope DurableIssue DurableDelegate.

Definition byte_sum (l : list N) : N := (foldr N.add 0 l `mod` 256)%N.

#[local] Instance x_hmac : HmacSha256 := λ key msg, replicate 31 0%N ++ [byte_sum (key ++ msg)].
#[local] Instance x_blake : Blake3 := λ s, replicate 31 0%N ++ [N.of_nat (String.length s) `mod` 256]%N.
#[local] Instance x_uuid : UuidText := {| uuid_parse_str := λ _, None; uuid_to_string := λ _, EmptyString |}.

Lemma pad_byte x : (x < 256)%N → Forall is_byte (replicate 31 0%N ++ [x]).
Proof. intros Hx. apply Forall_app. split; [by apply (bool_decide_unpack _); vm_compute|by constructor]. Qed.

#[local] Instance x_hmac_laws : HmacLaws.
Proof. split; intros; [done|apply pad_byte; by apply N.mod_lt]. Qed.
#[local] Instance x_blake_laws : Blake3Laws.
Proof. split; intros; [done|apply pad_byte; by apply N.mod_lt]. Qed.

(** ** The catalog *)

Definition x_digest : ContractDigest := {| digest_bytes := replicate 32 7%N |}.
Definition x_ref (n : string) : ContractRef :=
  {| contract_name := n; contract_version := 1%N; contract_digest := x_digest |}.
Definition x_bytes (x : N) : ExactBytes := {| exact_bytes := [x] |}.

Definition x_subject : SubjectContract :=
  {| subject_identity := x_ref "doc"; subject_format := Opaque; repository_independent := true;
     repositories := []; membership := [] |}.
Definition x_source : SourceContract :=
  {| source_identity := x_ref "probe"; source_format := Opaque; known_identities := [x_bytes 1; x_bytes 2] |}.
Definition x_entry : EntryContract :=
  {| entry_identity := x_ref "seen"; entry_class := ClassInstrument; entry_subject_kind := x_ref "doc";
     entry_source_contract := Some (x_ref "probe"); entry_response_contract := None;
     authority_arguments := [] |}.

Definition x_catalog : ClosedCatalog :=
  {| subjects := [(x_ref "doc", x_subject)]; sources := [(x_ref "probe", x_source)];
     entries := [(x_ref "seen", x_entry)]; definitions := []; runs := [] |}.

Lemma provision_wf_witness :
  provision [x_subject] [x_source] [x_entry] [] [] = Ok x_catalog ∧ catalog_wf x_catalog.
Proof.
  split; [by vm_compute|]. apply (provision_wf [x_subject] [x_source] [x_entry] [] []). by vm_compute.
Defined.

(** ** Rights *)

Definition x_permission (sel : SubjectSelector) (ids : list ExactBytes) : ObservationPermission :=
  {| policy_domain := "ci"; entry := x_ref "seen"; producer_class := ClassInstrument; channel := Observe;
     subject := {| subject_kind := x_ref "doc"; selector := sel |};
     binding := Instrument {| source_contract_ref := x_ref "probe"; source_identities := ids;
                              source_arguments := [{| exact_arguments := [] |}] |} |}.
Definition x_scope (sel : SubjectSelector) (ids : list ExactBytes) : ObservationScope :=
  {| permissions := [x_permission sel ids] |}.

Definition x_wide : list RightSpec :=
  [RecordObservation (x_scope AllSubjectsOfKind [x_bytes 1; x_bytes 2]);
   GrantAdmin {| admin_namespace := "team";
                 admin_target := TargetRecordObservation (x_scope AllSubjectsOfKind [x_bytes 1]) |}].
Definition x_narrow : list RightSpec :=
  [RecordObservation (x_scope (Exact [x_bytes 77]) [x_bytes 1])].

Definition x_principal (n : string) (leg : option string) : Principal :=
  {| principal_kind := "actor"; principal_id := n; principal_leg := leg |}.
Definition x_interval (a : u64) (b : option u64) : Validity :=
  {| not_before := {| as_micros := a |}; expires_at := (λ e, {| as_micros := e |}) <$> b |}.

Definition x_carriers : Rights := rights_with (rights_with Rights_empty Execute) Delegate.

Lemma x_wide_valid :
  validate_rights x_catalog x_wide "team" (x_principal "ops" None) = Some (Ok x_carriers).
Proof. by vm_compute. Qed.

Lemma coverage_preorder_witness :
  covers_rights x_catalog x_wide x_narrow = true ∧ covers_rights x_catalog x_narrow x_wide = false ∧
  (∀ o, may_record x_catalog x_narrow o → may_record x_catalog x_wide o).
Proof.
  assert (covers_rights x_catalog x_wide x_narrow = true) as Hc by by vm_compute.
  split; [done|]. split; [by vm_compute|].
  by apply (coverage_preorder x_catalog x_wide x_narrow x_narrow "team" (x_principal "ops" None) true x_carriers
              x_wide_valid).
Defined.

Lemma recording_bound_witness :
  channel (x_permission (Exact [x_bytes 77]) [x_bytes 1]) = Observe ∧
  validate_rights x_catalog x_narrow "team" (x_principal "ops" (Some "a-1")) =
    Some (Ok (rights_with Rights_empty Execute)).
Proof.
  split; [|by vm_compute].
  by apply (recording_bound x_catalog x_narrow "team" (x_principal "ops" (Some "a-1"))
              (rights_with Rights_empty Execute) (x_scope (Exact [x_bytes 77]) [x_bytes 1])
              (x_permission (Exact [x_bytes 77]) [x_bytes 1]) ltac:(by vm_compute) ltac:(by left) ltac:(by left)).
Defined.

(** ** Records *)

Definition x_key : KeyRef := {| key_id := "k"; generation := 1%N |}.
Definition x_keys : SuppliedKeys :=
  {| supplied := [(x_key, {| key_reference := x_key; native_key := replicate 32 3%N;
                             extension_key := replicate 32 4%N |})] |}.

Definition x_draft (i iss : N) (a b : Principal) (rs : list RightSpec) (v : Validity) : EnvelopeDraft :=
  {| grant_id := i; store_id := 1%N; epoch_id := 2%N; root_anchor_id := 3%N; issuer := a; grantee := b;
     grant_namespace := "team"; grant_rights := rs; grant_validity := v;
     created_at := {| as_micros := 100%N |}; assurance := ConfiguredLocal; operation := OpGrant;
     action_id := 5%N; configuration_source := None; issuance_id := iss; grant_key := x_key |}.

Definition x_boot : BootstrapSource :=
  {| src_store_id := 1%N; src_epoch_id := 2%N; src_root_anchor_id := 3%N; src_owner := x_principal "root" None;
     src_namespace := "team"; src_slot := "main"; src_manifest_digest := x_digest; src_rights := x_wide;
     src_validity := x_interval 50 None |}.
Definition x_g1 : EnvelopeDraft :=
  x_draft 10 20 (x_principal "root" None) (x_principal "ops" None) x_wide (x_interval 100 (Some 900%N)).
Definition x_g2 : EnvelopeDraft :=
  x_draft 11 21 (x_principal "ops" None) (x_principal "ops" (Some "a-1")) x_narrow (x_interval 200 (Some 800%N)).

Definition from_some (m : panics AuthenticatedEnvelope) : AuthenticatedEnvelope :=
  match m with Some (Ok e) => e | _ => {| env_body := issued_body x_g1 (bootstrap_parent x_boot) (placeholder Rights_empty 0);
                                          env_bytes := [] |} end.
Definition x_e1 : AuthenticatedEnvelope := Eval vm_compute in from_some (issue_from_bootstrap x_keys x_catalog x_boot x_g1).
Definition x_e2 : AuthenticatedEnvelope := Eval vm_compute in from_some (issue_delegate x_keys x_catalog x_e1 x_g2).

Lemma x_e1_issued : issue_from_bootstrap x_keys x_catalog x_boot x_g1 = Some (Ok x_e1).
Proof. by vm_compute. Qed.
Lemma x_e2_issued : issue_delegate x_keys x_catalog x_e1 x_g2 = Some (Ok x_e2).
Proof. by vm_compute. Qed.
Lemma x_e1_byte : Forall is_byte (env_bytes x_e1).
Proof. by apply (bool_decide_unpack _); vm_compute. Qed.

Ltac solve_typed :=
  repeat lazymatch goal with
         | |- typed _ => red; red; cbv beta iota; cbn
         | |- _ ∧ _ => split
         | |- Forall _ _ => constructor
         end; done.

Lemma x_g1_typed : typed x_g1.
Proof. solve_typed. Qed.
Lemma x_g2_typed : typed x_g2.
Proof. solve_typed. Qed.
Lemma x_slot_typed : typed (src_slot x_boot).
Proof. solve_typed. Qed.
Lemma x_manifest_typed : typed (src_manifest_digest x_boot).
Proof. solve_typed. Qed.

Lemma verify_spec_witness :
  verify x_keys x_catalog (env_bytes x_e1) 1%N 2%N = Some (Ok x_e1) ∧
  seal_body (env_body x_e1) x_keys = Ok (env_bytes x_e1) ∧
  verify x_keys x_catalog (env_bytes x_e1) 1%N 9%N ≠ Some (Ok x_e1).
Proof.
  pose proof (verify_spec x_keys x_catalog (env_bytes x_e1) 1%N 2%N x_e1_byte) as [_ Hv].
  assert (verify x_keys x_catalog (env_bytes x_e1) 1%N 2%N = Some (Ok x_e1)) as Hok by by vm_compute.
  split; [exact Hok|]. split; [apply (Hv x_e1), Hok|by vm_compute].
Defined.

Lemma issue_from_bootstrap_spec_witness :
  bootstrapped x_keys x_catalog x_boot x_g1 x_e1 ∧ authentic x_keys x_catalog x_e1.
Proof.
  destruct (issue_from_bootstrap_spec x_keys x_catalog x_boot x_g1 x_g1_typed x_slot_typed x_manifest_typed)
    as [[_ Hd] Ha].
  split; [apply Hd, x_e1_issued|apply Ha, x_e1_issued].
Defined.

Lemma issue_delegate_spec_witness :
  delegated x_keys x_catalog x_e1 x_g2 x_e2 ∧
  issue_delegate x_keys x_catalog x_e2 x_g1 = Some (Err (Reject "parent holder, scope or interval does not cover child")).
Proof.
  split; [|by vm_compute].
  destruct (issue_delegate_spec x_keys x_catalog x_e1 x_g2 x_g2_typed x_e1_byte) as [[_ Hd] _].
  apply Hd, x_e2_issued.
Defined.

Lemma x_history : history x_keys x_catalog [x_boot] [x_e2; x_e1].
Proof.
  assert (x_boot ∈ [x_boot]) as Hs by by left. assert (x_e1 ∈ [x_e1]) as He by by left.
  eapply history_delegate; [|exact He|exact x_g2_typed|exact x_e2_issued].
  eapply history_bootstrap; [apply history_nil|exact Hs|exact x_g1_typed|exact x_slot_typed|
    exact x_manifest_typed|exact x_e1_issued].
Qed.

Lemma history_confined_witness :
  (∀ o, may_record x_catalog (grant_rights (grant (env_body x_e2))) o → may_record x_catalog x_wide o) ∧
  Validity_contains (grant_validity (grant (env_body x_e2))) {| as_micros := 300%N |} = true.
Proof.
  split; [|by vm_compute].
  assert (x_e2 ∈ [x_e2; x_e1]) as Hin by by left.
  destruct (history_confined x_keys x_catalog [x_boot] [x_e2; x_e1] x_e2 x_history Hin)
    as (_ & source & root & Hs & _ & _ & _ & _ & _ & _ & _ & _ & Hr & _).
  apply list_elem_of_singleton in Hs as ->. exact Hr.
Defined.

Lemma x_chain : chain x_keys x_catalog x_e1 x_e2.
Proof.
  assert (verify x_keys x_catalog (env_bytes x_e1) 1%N 2%N = Some (Ok x_e1)) as H1 by by vm_compute.
  assert (verify x_keys x_catalog (env_bytes x_e2) 1%N 2%N = Some (Ok x_e2)) as H2 by by vm_compute.
  eapply chain_link; [apply chain_refl| |by vm_compute].
  - split; [exact x_e1_byte|exists 1%N, 2%N; exact H1].
  - split; [by apply (bool_decide_unpack _); vm_compute|exists 1%N, 2%N; exact H2].
Qed.

Lemma delegation_confined_witness :
  (∀ now, Validity_contains (x_interval 200 (Some 800%N)) now = true →
          Validity_contains (x_interval 100 (Some 900%N)) now = true) ∧
  Rights_contains (Rights_from_bits (native_rights (body_native (env_body x_e2)))) Delegate = false.
Proof.
  split; [|by vm_compute]. by apply (delegation_confined x_keys x_catalog x_e1 x_e2 x_chain).
Defined.

(** The body of a record issued above: its bytes decode to it, and start with its
    schema version. *)
Lemma x_body_typed : typed (env_body x_e1).
Proof. solve_typed. Qed.

Lemma codec_inverse_witness :
  ∃ b, encode (env_body x_e1) = Ok b ∧ decode b = Ok (env_body x_e1) ∧
    (∃ rest, b = (be_encode 2 (schema_version (env_body x_e1)) ++ rest)%list).
Proof.
  destruct (encode (env_body x_e1)) as [b|e] eqn:Hb; [|exfalso; by vm_compute in Hb].
  exists b. split; [reflexivity|]. destruct codec_inverse as ((Hg & _) & Hl & _). split.
  - apply (Hg b); [by eapply encode_byte; [exact x_body_typed|]|exact x_body_typed|exact Hb].
  - destruct (Hl _ _ Hb) as (l & Hp & ->). destruct l as [|b1 l]; [by simplify_list_eq|]. exists (concat l).
    rewrite fmap_cons in Hp. apply (f_equal head) in Hp. cbn [head] in Hp. assert (encode (schema_version (env_body x_e1)) = Ok (be_encode 2 (schema_version (env_body x_e1)))) as H1 by by vm_compute.
    rewrite H1 in Hp. assert (b1 = be_encode 2 (schema_version (env_body x_e1))) as -> by congruence. reflexivity.
Defined.
