(* ===== verification/Records.v ===== *)
(** khive-types/src/timestamp.rs, header.rs, entity.rs and note.rs: timestamps,
    the substrate records, their closed kinds and statuses, and the equality of
    property values. *)

From Stdlib Require Import NArith ZArith QArith Ascii String.
From stdpp Require Import base tactics list numbers strings gmap.
From Stdlib Require Import SpecFloat.
From S2P Require Import Prelude RustStr Json Float EdgeOntology Ident.

(** ** timestamp.rs *)

(** Microseconds, a [u64]. *)
Record Timestamp := { as_micros : N }.
#[export] Instance Timestamp_EqDecision : EqDecision Timestamp.
Proof. solve_decision. Defined.

Definition U64_MAX : N := (2 ^ 64 - 1)%N.
Definition sat_add (a b : N) : N := N.min U64_MAX (a + b).
Definition sat_mul (a b : N) : N := N.min U64_MAX (a * b).

Definition from_micros (micros : N) : Timestamp := {| as_micros := micros |}.
Definition from_millis (millis : N) : Timestamp := {| as_micros := sat_mul millis 1000 |}.
Definition from_secs (secs : N) : Timestamp := {| as_micros := sat_mul secs 1000000 |}.
Definition as_millis (self : Timestamp) : N := (as_micros self / 1000)%N.
Definition as_secs (self : Timestamp) : N := (as_micros self / 1000000)%N.
Definition Timestamp_is_zero (self : Timestamp) : bool := (as_micros self =? 0)%N.
Definition saturating_add (self : Timestamp) (micros : N) : Timestamp :=
  {| as_micros := sat_add (as_micros self) micros |}.
(** Subtraction of naturals is already bounded below by zero. *)
Definition saturating_sub (self : Timestamp) (micros : N) : Timestamp :=
  {| as_micros := (as_micros self - micros)%N |}.
Definition duration_since (self earlier : Timestamp) : N := (as_micros self - as_micros earlier)%N.

(** ** Kinds and statuses *)

(** [s.trim().to_ascii_lowercase()] *)
Definition fold_name (s : string) : string := of_bytes (to_ascii_lowercase <$> trim (to_bytes s)).

(** The arms of a [match] on a string. *)
Definition find_arm {T} (arms : list (list string * T)) (s : string) : option T :=
  snd <$> List.find (λ arm, existsb (String.eqb s) arm.1) arms.

Inductive EntityKind : Type := Concept | Document | Dataset | Project | Person | Org | Artifact | Service.
#[export] Instance EntityKind_EqDecision : EqDecision EntityKind.
Proof. solve_decision. Defined.

Definition EntityKind_ALL : list EntityKind :=
  [Concept; Document; Dataset; Project; Person; Org; Artifact; Service].

Definition EntityKind_name (self : EntityKind) : string :=
  match self with
  | Concept => "concept"
  | Document => "document"
  | Dataset => "dataset"
  | Project => "project"
  | Person => "person"
  | Org => "org"
  | Artifact => "artifact"
  | Service => "service"
  end.

Definition ENTITY_KIND_VALID : list string :=
  ["concept"; "document"; "dataset"; "project"; "person"; "org"; "artifact"; "service"]%string.

Definition kind_arms : list (list string * EntityKind) :=
  [(["concept"], Concept); (["document"; "doc"; "paper"], Document);
   (["dataset"; "data"; "benchmark"], Dataset);
   (["project"; "repo"; "crate"; "library"; "lib"], Project);
   (["person"; "author"; "researcher"], Person);
   (["org"; "organization"; "organisation"; "lab"; "company"], Org);
   (["artifact"; "art"], Artifact); (["service"; "svc"], Service)]%string.

Definition EntityKind_from_str (s : string) : result EntityKind UnknownVariant :=
  ok_or (find_arm kind_arms (fold_name s))
    {| uv_domain := "entity_kind"; uv_value := fold_name s; uv_valid := ENTITY_KIND_VALID |}.

Inductive NoteStatus : Type := Active | Archived | Deleted.
#[export] Instance NoteStatus_EqDecision : EqDecision NoteStatus.
Proof. solve_decision. Defined.

Definition NoteStatus_default : NoteStatus := Active.

Definition NoteStatus_name (self : NoteStatus) : string :=
  match self with Active => "active" | Archived => "archived" | Deleted => "deleted" end.

Definition status_arms : list (list string * NoteStatus) :=
  [(["active"], Active); (["archived"], Archived); (["deleted"], Deleted)]%string.

Definition NoteStatus_from_str (s : string) : result NoteStatus UnknownVariant :=
  ok_or (find_arm status_arms (fold_name s))
    {| uv_domain := "note_status"; uv_value := fold_name s;
       uv_valid := ["active"; "archived"; "deleted"]%string |}.

(** ** Property values *)

Inductive PropertyValue : Type :=
| PString (s : string)
| PInteger (n : Z)
| PFloat (x : f64)
| PBoolean (b : bool)
| PArray (l : list PropertyValue)
| PObject (m : list (string * PropertyValue))
| PNull.

(** A [BTreeMap<String, PropertyValue>], in the order of its keys. *)
Definition Properties : Type := list (string * PropertyValue).

(** ** Records *)

Record Header := {
  h_id : Id128;
  h_namespace : Namespace;
  h_created_at : Timestamp;
  h_updated_at : Timestamp
}.

Definition Header_new (id : Id128) (namespace : Namespace) (now : Timestamp) : Header :=
  {| h_id := id; h_namespace := namespace; h_created_at := now; h_updated_at := now |}.

Record Entity := {
  e_header : Header;
  e_kind : EntityKind;
  e_entity_type : option string;
  e_name : string;
  e_description : option string;
  e_properties : Properties;
  e_tags : list string;
  e_deleted_at : option Timestamp
}.

Record Link := {
  l_id : Id128;
  l_namespace : string;
  l_source : Id128;
  l_target : Id128;
  l_relation : EdgeRelation;
  l_properties : Properties;
  l_weight : f64;
  l_created_at : Timestamp;
  l_updated_at : Timestamp;
  l_deleted_at : option Timestamp
}.

Record Note := {
  n_header : Header;
  n_kind : string;
  n_status : NoteStatus;
  n_content : string;
  n_properties : Properties;
  n_tags : list string;
  n_salience : option f64;
  n_decay_factor : option f64;
  n_expires_at : option Timestamp;
  n_deleted_at : option Timestamp
}.

(** [(0.0..=1.0).contains(&x)] *)
Definition fzero : f64 := S754_zero false.
Definition fone : f64 := of_Z (F:=F64) 1.
Definition in_unit (x : f64) : bool := fle fzero x && fle x fone.

Definition validate_edge_weight (weight : f64) : bool := is_finite weight && in_unit weight.
Definition Link_is_valid (self : Link) : bool := validate_edge_weight (l_weight self).

Definition Note_is_valid (self : Note) : bool :=
  match n_salience self with Some s => is_finite s && in_unit s | None => true end &&
  match n_decay_factor self with Some d => is_finite d && fle fzero d | None => true end.

(** ** [PartialEq] *)

(** The equality of the source's types, which on floats is that of IEEE 754. *)
Class PartialEq (A : Type) := eqb : A → A → bool.

#[export] Instance string_PartialEq : PartialEq string := String.eqb.
#[export] Instance f64_PartialEq : PartialEq f64 := feq.
#[export] Instance option_PartialEq {A} `{PartialEq A} : PartialEq (option A) := λ a b,
  match a, b with Some x, Some y => eqb x y | None, None => true | _, _ => false end.
#[export] Instance list_PartialEq {A} `{PartialEq A} : PartialEq (list A) :=
  fix go a b := match a, b with
                | [], [] => true
                | x :: a', y :: b' => eqb x y && go a' b'
                | _, _ => false
                end.
#[export] Instance pair_PartialEq {A B} `{PartialEq A, PartialEq B} : PartialEq (A * B) := λ a b,
  eqb a.1 b.1 && eqb a.2 b.2.

Definition decide_eqb {A} `{EqDecision A} : PartialEq A := λ a b, bool_decide (a = b).
#[export] Instance Id128_PartialEq : PartialEq Id128 := decide_eqb.
#[export] Instance Timestamp_PartialEq : PartialEq Timestamp := decide_eqb.
#[export] Instance EntityKind_PartialEq : PartialEq EntityKind := decide_eqb.
#[export] Instance NoteStatus_PartialEq : PartialEq NoteStatus := decide_eqb.
#[export] Instance EdgeRelation_PartialEq : PartialEq EdgeRelation := decide_eqb.

#[export] Instance PropertyValue_PartialEq : PartialEq PropertyValue :=
  fix go a b := match a, b with
                | PString x, PString y => eqb x y
                | PInteger x, PInteger y => (x =? y)%Z
                | PFloat x, PFloat y => eqb x y
                | PBoolean x, PBoolean y => Bool.eqb x y
                | PArray l, PArray k => @list_PartialEq _ go l k
                | PObject l, PObject k => @list_PartialEq _ (@pair_PartialEq _ _ string_PartialEq go) l k
                | PNull, PNull => true
                | _, _ => false
                end.

(** ** Laws of the equality *)

(** [eqb] is an equivalence on the values equal to themselves (those without a
    NaN); [canon] picks a representative of each class. *)
Class EqLaws (A : Type) `{PartialEq A} := {
  canon : A → A;
  canon_of_eqb a b : eqb a b = true → canon a = canon b;
  eqb_resp a a' b b' : canon a = canon a' → canon b = canon b' → eqb a b = true → eqb a' b' = true
}.

Section eq_laws.
Context {A : Type} `{EqLaws A}.

Lemma eqb_sym a b : eqb a b = true → eqb b a = true.
Proof. intros He. pose proof (canon_of_eqb _ _ He) as Hn. by apply (eqb_resp a b b a). Qed.

Lemma eqb_self a b : eqb a b = true → eqb a a = true.
Proof. intros He. apply (eqb_resp a a b a); [done| |done]. symmetry. by apply canon_of_eqb. Qed.
End eq_laws.

Lemma decide_EqLaws {A} `{EqDecision A} : @EqLaws A decide_eqb.
Proof.
  refine {| canon := λ a, a |}; unfold eqb, decide_eqb; [|by intros a a' b b' -> ->].
  intros a b Hab. by apply bool_decide_eq_true in Hab.
Defined.
#[export] Instance Id128_EqLaws : EqLaws Id128 := decide_EqLaws.
#[export] Instance Timestamp_EqLaws : EqLaws Timestamp := decide_EqLaws.
#[export] Instance EntityKind_EqLaws : EqLaws EntityKind := decide_EqLaws.
#[export] Instance NoteStatus_EqLaws : EqLaws NoteStatus := decide_EqLaws.
#[export] Instance EdgeRelation_EqLaws : EqLaws EdgeRelation := decide_EqLaws.

#[export] Instance string_EqLaws : EqLaws string.
Proof.
  refine {| canon := λ a, a |}; [|by intros a a' b b' -> ->].
  intros a b Hab. by apply String.eqb_eq in Hab.
Defined.

(** A float of the same value in a form that depends on the value only. *)
Definition fcanon (x : f64) : f64 :=
  match x with
  | S754_nan | S754_infinity _ => x
  | _ => let q := Qred (fval x) in
         match Qnum q with
         | Z0 => fzero
         | Zpos p => S754_finite false p (Zpos (Qden q))
         | Zneg p => S754_finite true p (Zpos (Qden q))
         end
  end.

Definition is_number (x : f64) : Prop := match x with S754_nan | S754_infinity _ => False | _ => True end.

Lemma Qred_inj p q : Qnum (Qred p) = Qnum (Qred q) → Qden (Qred p) = Qden (Qred q) → (p == q)%Q.
Proof.
  intros Hn Hd. rewrite <-(Qred_correct p), <-(Qred_correct q). destruct (Qred p), (Qred q).
  simpl in *. by subst.
Qed.

Lemma Qred_zero q : Qnum (Qred q) = 0%Z → (q == 0)%Q.
Proof. intros Hn. rewrite <-(Qred_correct q). destruct (Qred q). simpl in *. by subst. Qed.

Lemma fcanon_number x y : is_number x → is_number y → fcanon x = fcanon y ↔ (fval x == fval y)%Q.
Proof.
  intros Hx Hy. unfold fcanon. split.
  - destruct x, y; try done; intros Hc.
    all: destruct (Qnum (Qred (fval _))) eqn:E1 in Hc; destruct (Qnum (Qred (fval _))) eqn:E2 in Hc; try done.
    all: try (transitivity 0%Q; [by apply Qred_zero|symmetry; by apply Qred_zero]).
    all: apply Qred_inj; congruence.
  - intros Hq%Qred_complete. by destruct x, y; try done; rewrite Hq.
Qed.

Lemma fcanon_kind x : is_number (fcanon x) ↔ is_number x.
Proof. destruct x; try done; unfold fcanon; by destruct (Qnum _). Qed.

Lemma fcanon_other x y : ¬ is_number x → fcanon x = fcanon y → x = y.
Proof.
  intros Hx Hc. assert (¬ is_number y) as Hy by (by rewrite <-fcanon_kind, <-Hc, fcanon_kind).
  destruct x, y; simpl in *; try tauto; congruence.
Qed.

Lemma feq_canon x y : feq x y = true ↔ is_nan x = false ∧ fcanon x = fcanon y.
Proof.
  split.
  - intros He. unfold feq, fcmp in He.
    destruct x as [[]|[]| |[] m e], y as [[]|[]| |[] m' e']; try done; (split; [done|]).
    all: first [done | apply fcanon_number; [done|done|]; apply Qeq_alt; revert He; by destruct (Qcompare _ _)].
  - intros [Hn Hc]. assert (is_number x ∨ ¬ is_number x) as [Hx|Hx] by (destruct x; simpl; tauto).
    + assert (is_number y) as Hy by (by rewrite <-fcanon_kind, <-Hc, fcanon_kind).
      apply fcanon_number, Qeq_alt in Hc; [|done|done]. unfold feq, fcmp. destruct x, y; try done; by rewrite Hc.
    + apply fcanon_other in Hc as ->; [|done]. destruct y as [s|s| |]; try done; simpl in *; try tauto. by destruct s.
Qed.

#[export] Instance f64_EqLaws : EqLaws f64.
Proof.
  refine {| canon := fcanon |}; unfold eqb, f64_PartialEq.
  - by intros a b [_ ?]%feq_canon.
  - intros a a' b b' Ha Hb [Hn He]%feq_canon. apply feq_canon. split; [|congruence].
    destruct (is_nan a') eqn:E; [|done]. exfalso.
    assert (a' = a) as -> by (apply fcanon_other; [destruct a'; simpl in *; [done..|tauto|done]|done]). congruence.
Defined.

#[export] Instance option_EqLaws {A} `{EqLaws A} : EqLaws (option A).
Proof.
  refine {| canon := fmap canon |}.
  - intros [a|] [b|]; try done. intros Hab. simpl. f_equal. by apply canon_of_eqb.
  - intros [a|] [a'|] [b|] [b'|]; try done. intros [= Ha] [= Hb].
    change (eqb a b = true → eqb a' b' = true). by apply eqb_resp.
Defined.

#[export] Instance pair_EqLaws {A B} `{EqLaws A, EqLaws B} : EqLaws (A * B).
Proof.
  refine {| canon := λ ab, (canon ab.1, canon ab.2) |}.
  - intros [a b] [a' b'] [? ?]%andb_true_iff. simpl in *. f_equal; by apply canon_of_eqb.
  - intros [a b] [a' b'] [c d] [c' d'] [= ? ?] [= ? ?] [? ?]%andb_true_iff. apply andb_true_iff.
    split; by eapply eqb_resp.
Defined.

#[export] Instance list_EqLaws {A} `{EqLaws A} : EqLaws (list A).
Proof.
  refine {| canon := fmap canon |}.
  - intros a. induction a as [|x a IH]; intros [|y b]; try done. intros [? ?]%andb_true_iff.
    simpl. f_equal; [by apply canon_of_eqb|by apply IH].
  - intros a. induction a as [|x a IH]; intros [|x' a'] [|y b] [|y' b']; try done.
    simpl. intros [= ? ?] [= ? ?] [? ?]%andb_true_iff. apply andb_true_iff.
    split; [by eapply eqb_resp|by eapply IH].
Defined.

Section PropertyValue_ind'.
Variable P : PropertyValue → Prop.
Hypothesis Hstr : ∀ s, P (PString s).
Hypothesis Hint : ∀ n, P (PInteger n).
Hypothesis Hflt : ∀ x, P (PFloat x).
Hypothesis Hbool : ∀ b, P (PBoolean b).
Hypothesis Harr : ∀ l, Forall P l → P (PArray l).
Hypothesis Hobj : ∀ m, Forall (λ kv, P kv.2) m → P (PObject m).
Hypothesis Hnull : P PNull.

Fixpoint PropertyValue_ind' (v : PropertyValue) : P v :=
  match v with
  | PString s => Hstr s
  | PInteger n => Hint n
  | PFloat x => Hflt x
  | PBoolean b => Hbool b
  | PArray l => Harr l ((fix go l : Forall P l :=
      match l with
      | [] => Forall_nil_2 P
      | x :: l' => Forall_cons_2 P x l' (PropertyValue_ind' x) (go l')
      end) l)
  | PObject m => Hobj m ((fix go m : Forall (λ kv, P kv.2) m :=
      match m with
      | [] => Forall_nil_2 _
      | kv :: m' => Forall_cons_2 _ kv m' (PropertyValue_ind' kv.2) (go m')
      end) m)
  | PNull => Hnull
  end.
End PropertyValue_ind'.

Fixpoint pcanon (v : PropertyValue) : PropertyValue :=
  match v with
  | PFloat x => PFloat (canon x)
  | PArray l => PArray (pcanon <$> l)
  | PObject m => PObject ((λ kv, (kv.1, pcanon kv.2)) <$> m)
  | _ => v
  end.

Lemma pcanon_of_eqb (a b : PropertyValue) : eqb a b = true → pcanon a = pcanon b.
Proof.
  revert b. induction a as [s|n|x|b|l IH|m IH|] using PropertyValue_ind'; intros []; try done; intros He.
  - change (String.eqb s s0 = true) in He. by apply String.eqb_eq in He as ->.
  - change ((n =? n0)%Z = true) in He. by apply Z.eqb_eq in He as ->.
  - simpl. f_equal. exact (canon_of_eqb (A:=f64) x x0 He).
  - change (Bool.eqb b b0 = true) in He. by apply Bool.eqb_prop in He as ->.
  - simpl. f_equal. revert l0 He. induction IH as [|x l Hx Hl IH']; intros [|y k]; try done.
    intros [? ?]%andb_true_iff. simpl. f_equal; [by apply Hx|by apply IH'].
  - simpl. f_equal. revert m0 He. induction IH as [|[i x] m Hx Hm IH']; intros [|[j y] k]; try done.
    intros [[Hi ?]%andb_true_iff ?]%andb_true_iff. simpl in *. apply String.eqb_eq in Hi as ->.
    f_equal; [f_equal; by apply Hx|by apply IH'].
Qed.

Lemma pcanon_resp (a a' b b' : PropertyValue) :
  pcanon a = pcanon a' → pcanon b = pcanon b' → eqb a b = true → eqb a' b' = true.
Proof.
  revert a' b b'.
  induction a as [s|n|x|b0|l IH|m IH|] using PropertyValue_ind'; intros [] [] []; try done; simpl.
  all: try (by intros [= ->] [= ->]).
  - intros [= Ha] [= Hb]. by apply (eqb_resp (A:=f64)).
  - intros [= Ha] [= Hb]. revert l0 l1 l2 Ha Hb.
    induction IH as [|x l Hx Hl IH']; intros [|x' k] [|y l'] [|y' k']; try done.
    simpl. intros [= ? ?] [= ? ?] [? ?]%andb_true_iff. apply andb_true_iff.
    split; [by eapply Hx|by eapply IH'].
  - intros [= Ha] [= Hb]. revert m0 m1 m2 Ha Hb.
    induction IH as [|[i x] m Hx Hm IH']; intros [|[i' x'] k] [|[j y] l'] [|[j' y'] k']; try done.
    simpl. intros [= ? ? ?] [= ? ? ?] [[Hi ?]%andb_true_iff ?]%andb_true_iff. simpl in *. subst.
    apply andb_true_iff. split; [apply andb_true_iff; split; [done|by eapply Hx]|by eapply IH'].
Qed.

#[export] Instance PropertyValue_EqLaws : EqLaws PropertyValue :=
  {| canon := pcanon; canon_of_eqb := pcanon_of_eqb; eqb_resp := pcanon_resp |}.

(** ** Names *)

Theorem kind_names_roundtrip :
  (∀ k, EntityKind_from_str (EntityKind_name k) = Ok k) ∧ (∀ k, k ∈ EntityKind_ALL) ∧
  NoDup (EntityKind_name <$> EntityKind_ALL) ∧
  (EntityKind_name <$> EntityKind_ALL) = ENTITY_KIND_VALID ∧
  ∀ s, NoteStatus_from_str (NoteStatus_name s) = Ok s.
Proof.
  split_and!.
  - by intros [].
  - intros []; by apply (bool_decide_unpack _).
  - by apply (bool_decide_unpack _).
  - done.
  - by intros [].
Qed.

#[export] Instance sum_PartialEq {A B} `{PartialEq A, PartialEq B} : PartialEq (A + B) := λ a b,
  match a, b with inl x, inl y => eqb x y | inr x, inr y => eqb x y | _, _ => false end.
#[export] Instance sum_EqLaws {A B} `{EqLaws A, EqLaws B} : EqLaws (A + B).
Proof.
  refine {| canon := λ ab, match ab with inl a => inl (canon a) | inr b => inr (canon b) end |}.
  - intros [a|b] [a'|b']; try done; intros Hab; f_equal; by apply canon_of_eqb.
  - intros [a|b] [a'|b'] [c|d] [c'|d']; try done; intros [= ?] [= ?].
    + change (eqb a c = true → eqb a' c' = true). by apply eqb_resp.
    + change (eqb b d = true → eqb b' d' = true). by apply eqb_resp.
Defined.
