(* ===== verification/ChangeOps.v ===== *)
(** khive-changeset/src/op.rs, strict.rs, preimage.rs and envelope.rs: the six
    staged operations with the checks of their constructors and decoders, and the
    comparison of captured with live records.  The errors, formatted strings in
    the source, are their parameters here. *)

From Stdlib Require Import NArith ZArith QArith Ascii String.
From stdpp Require Import base tactics list numbers strings gmap.
From S2P Require Import Prelude RustStr EdgeOntology Ident Float Records.

(** ** Operations *)

Record EntityCreateFields := {
  ec_entity_kind : EntityKind;
  ec_entity_type : option string;
  ec_name : string;
  ec_description : option string;
  ec_properties : Properties;
  ec_tags : list string
}.

Record NoteCreateFields := {
  nc_note_kind : string;
  nc_content : string;
  nc_properties : Properties;
  nc_tags : list string;
  nc_salience : option f64;
  nc_decay_factor : option f64
}.

Inductive CreateTarget : Type :=
| CreateEntity (fields : EntityCreateFields)
| CreateNote (fields : NoteCreateFields).

Record CreateOp := { create_id : Id128; create_namespace : Namespace; create_target : CreateTarget }.

Record LinkOp := {
  link_id : Id128;
  link_namespace : Namespace;
  link_source : Id128;
  link_target : Id128;
  link_relation : EdgeRelation;
  link_weight : f64;
  link_properties : Properties
}.

(** [None]: untouched; [Some None]: cleared; [Some (Some v)]: set. *)
Record EntityPatch := {
  ep_name : option string;
  ep_description : option (option string);
  ep_properties : option Properties;
  ep_tags : option (list string);
  ep_entity_type : option (option string)
}.

Record NotePatch := {
  np_content : option string;
  np_salience : option (option f64);
  np_decay_factor : option (option f64);
  np_properties : option Properties;
  np_tags : option (list string)
}.

Record EdgePatch := { dp_relation : option EdgeRelation; dp_weight : option f64 }.

Inductive UpdatePatch : Type :=
| PatchEntity (p : EntityPatch)
| PatchNote (p : NotePatch)
| PatchEdge (p : EdgePatch).

(** The preimages have the fields of the patches. *)
Record EntityPreimage := {
  epre_name : option string;
  epre_description : option (option string);
  epre_properties : option Properties;
  epre_tags : option (list string);
  epre_entity_type : option (option string)
}.

Record NotePreimage := {
  npre_content : option string;
  npre_salience : option (option f64);
  npre_decay_factor : option (option f64);
  npre_properties : option Properties;
  npre_tags : option (list string)
}.

Record EdgePreimage := { dpre_relation : option EdgeRelation; dpre_weight : option f64 }.

Inductive UpdatePreimage : Type :=
| PreEntity (p : EntityPreimage)
| PreNote (p : NotePreimage)
| PreEdge (p : EdgePreimage).

Record UpdateOp := {
  update_target_id : Id128;
  update_patch : UpdatePatch;
  update_preimage : UpdatePreimage
}.

Inductive DeletePreimage : Type :=
| RowEntity (e : Entity)
| RowNote (n : Note)
| RowEdge (l : Link).

Record DeleteOp := { delete_target_id : Id128; delete_hard : bool; delete_preimage : DeletePreimage }.
Record RestoreOp := { restore_target_id : Id128; restore_record : DeletePreimage }.

Record MergePreimage := {
  merge_into : Entity;
  merge_from : Entity;
  merge_incident_edges : list Link
}.
Record MergeOp := { merge_into_id : Id128; merge_from_id : Id128; merge_preimage : MergePreimage }.

Inductive Op : Type :=
| OpCreate (o : CreateOp)
| OpLink (o : LinkOp)
| OpUpdate (o : UpdateOp)
| OpDelete (o : DeleteOp)
| OpRestore (o : RestoreOp)
| OpMerge (o : MergeOp).

(** ** Errors *)

Inductive OpError : Type :=
| LinkWeightFinite (w : f64)
| LinkWeightRange (w : f64)
| PatchWeightFinite (w : f64)
| PatchWeightRange (w : f64)
| PreimageMissing (field : string)
| PreimageExtra (field : string)
| PreimageSalience (s : f64)
| PreimageDecay (d : f64)
| PreimageWeight (w : f64)
| TargetDiffers (patch preimage : string)
| DeleteTarget (target record : Id128)
| RestoreTarget (target record : Id128)
| RestoreStatus
| RestoreTombstone
| RestoreNumbers
| MergeInto (id record : Id128)
| MergeFrom (id record : Id128)
| MergeEdge (edge into from : Id128)
| StrictNoteRange (id : Id128)
| StrictEdgeRange (id : Id128) (w : f64).

(** ** Checked construction *)

(** [LinkOp::try_from(LinkOpRaw)]; the raw form has the fields of the checked one. *)
Definition LinkOp_try_from (raw : LinkOp) : result LinkOp OpError :=
  if negb (is_finite (link_weight raw)) then Err (LinkWeightFinite (link_weight raw))
  else if negb (validate_edge_weight (link_weight raw)) then Err (LinkWeightRange (link_weight raw))
  else Ok raw.

Definition EdgePatch_validate_weight (self : EdgePatch) : result () OpError :=
  match dp_weight self with
  | Some w =>
      if negb (is_finite w) then Err (PatchWeightFinite w)
      else if negb (validate_edge_weight w) then Err (PatchWeightRange w)
      else Ok ()
  | None => Ok ()
  end.

Definition EdgePatch_try_from (raw : EdgePatch) : result EdgePatch OpError :=
  check? EdgePatch_validate_weight raw in Ok raw.

Definition check_touched (field : string) (patch_touched preimage_present : bool) : result () OpError :=
  match patch_touched, preimage_present with
  | true, false => Err (PreimageMissing field)
  | false, true => Err (PreimageExtra field)
  | _, _ => Ok ()
  end.

Definition is_some {A} (o : option A) : bool := match o with Some _ => true | None => false end.

Definition patch_target_name (patch : UpdatePatch) : string :=
  match patch with PatchEntity _ => "entity" | PatchNote _ => "note" | PatchEdge _ => "edge" end.
Definition preimage_target_name (preimage : UpdatePreimage) : string :=
  match preimage with PreEntity _ => "entity" | PreNote _ => "note" | PreEdge _ => "edge" end.

Definition validate_update_congruence (patch : UpdatePatch) (preimage : UpdatePreimage)
    : result () OpError :=
  match patch, preimage with
  | PatchEntity p, PreEntity pre =>
      check? check_touched "name" (is_some (ep_name p)) (is_some (epre_name pre)) in
      check? check_touched "description" (is_some (ep_description p)) (is_some (epre_description pre)) in
      check? check_touched "properties" (is_some (ep_properties p)) (is_some (epre_properties pre)) in
      check? check_touched "tags" (is_some (ep_tags p)) (is_some (epre_tags pre)) in
      check? check_touched "entity_type" (is_some (ep_entity_type p)) (is_some (epre_entity_type pre)) in
      Ok ()
  | PatchNote p, PreNote pre =>
      check? check_touched "content" (is_some (np_content p)) (is_some (npre_content pre)) in
      check? check_touched "salience" (is_some (np_salience p)) (is_some (npre_salience pre)) in
      check? check_touched "decay_factor" (is_some (np_decay_factor p)) (is_some (npre_decay_factor pre)) in
      check? check_touched "properties" (is_some (np_properties p)) (is_some (npre_properties pre)) in
      check? check_touched "tags" (is_some (np_tags p)) (is_some (npre_tags pre)) in
      check? match npre_salience pre with
             | Some (Some s) =>
                 if negb (is_finite s) || negb (in_unit s) then Err (PreimageSalience s) else Ok ()
             | _ => Ok ()
             end in
      match npre_decay_factor pre with
      | Some (Some d) => if negb (is_finite d) || flt d fzero then Err (PreimageDecay d) else Ok ()
      | _ => Ok ()
      end
  | PatchEdge p, PreEdge pre =>
      check? check_touched "relation" (is_some (dp_relation p)) (is_some (dpre_relation pre)) in
      check? check_touched "weight" (is_some (dp_weight p)) (is_some (dpre_weight pre)) in
      check? match dpre_weight pre with
             | Some w => if negb (validate_edge_weight w) then Err (PreimageWeight w) else Ok ()
             | None => Ok ()
             end in
      check? EdgePatch_validate_weight p in
      Ok ()
  | _, _ => Err (TargetDiffers (patch_target_name patch) (preimage_target_name preimage))
  end.

Definition UpdateOp_new (target_id : Id128) (patch : UpdatePatch) (preimage : UpdatePreimage)
    : result UpdateOp OpError :=
  check? validate_update_congruence patch preimage in
  Ok {| update_target_id := target_id; update_patch := patch; update_preimage := preimage |}.

Definition record_id (self : DeletePreimage) : Id128 :=
  match self with
  | RowEntity e => h_id (e_header e)
  | RowNote n => h_id (n_header n)
  | RowEdge l => l_id l
  end.

(** The check of [DeleteOp]'s decoder. *)
Definition DeleteOp_decode (target_id : Id128) (hard : bool) (preimage : DeletePreimage)
    : result DeleteOp OpError :=
  if negb (eqb target_id (record_id preimage)) then Err (DeleteTarget target_id (record_id preimage))
  else Ok {| delete_target_id := target_id; delete_hard := hard; delete_preimage := preimage |}.

Definition RestoreOp_new (target_id : Id128) (record : DeletePreimage) : result RestoreOp OpError :=
  if negb (eqb target_id (record_id record)) then Err (RestoreTarget target_id (record_id record))
  else
    check? match record with
           | RowNote row => if negb (eqb (n_status row) Active) then Err RestoreStatus else Ok ()
           | _ => Ok ()
           end in
    let '(live, valid) :=
      match record with
      | RowEntity row => (negb (is_some (e_deleted_at row)), true)
      | RowNote row => (negb (is_some (n_deleted_at row)), Note_is_valid row)
      | RowEdge row => (negb (is_some (l_deleted_at row)), Link_is_valid row)
      end in
    if negb live then Err RestoreTombstone
    else if negb valid then Err RestoreNumbers
    else Ok {| restore_target_id := target_id; restore_record := record |}.

(** The checks of [MergeOp]'s decoder. *)
Definition MergeOp_decode (into_id from_id : Id128) (preimage : MergePreimage)
    : result MergeOp OpError :=
  let into := h_id (e_header (merge_into preimage)) in
  let from := h_id (e_header (merge_from preimage)) in
  if negb (eqb into_id into) then Err (MergeInto into_id into)
  else if negb (eqb from_id from) then Err (MergeFrom from_id from)
  else
    check? try_each (λ edge,
             let touches_into := eqb (l_source edge) into_id || eqb (l_target edge) into_id in
             let touches_from := eqb (l_source edge) from_id || eqb (l_target edge) from_id in
             if negb (touches_into || touches_from) then Err (MergeEdge (l_id edge) into_id from_id)
             else Ok ()) (merge_incident_edges preimage) in
    Ok {| merge_into_id := into_id; merge_from_id := from_id; merge_preimage := preimage |}.

(** The strict mirrors have the fields of the records they convert to. *)
Definition StrictNote_try_into (n : Note) : result Note OpError :=
  if negb (Note_is_valid n) then Err (StrictNoteRange (h_id (n_header n))) else Ok n.
Definition StrictLink_try_into (l : Link) : result Link OpError :=
  if negb (Link_is_valid l) then Err (StrictEdgeRange (l_id l) (l_weight l)) else Ok l.

(** The checks of [DeletePreimage]'s and [MergePreimage]'s decoders. *)
Definition DeletePreimage_decode (raw : DeletePreimage) : result DeletePreimage OpError :=
  match raw with
  | RowEntity e => Ok (RowEntity e)
  | RowNote n => let? n := StrictNote_try_into n in Ok (RowNote n)
  | RowEdge l => let? l := StrictLink_try_into l in Ok (RowEdge l)
  end.
Definition MergePreimage_decode (raw : MergePreimage) : result MergePreimage OpError :=
  let? incident_edges := try_map StrictLink_try_into (merge_incident_edges raw) in
  Ok {| merge_into := merge_into raw; merge_from := merge_from raw;
        merge_incident_edges := incident_edges |}.

(** ** preimage.rs: comparison with the live record *)

(** The field path of a [PreimageMismatch]. *)
Record PreimageMismatch := { field_path : string }.

Definition equal {T} `{PartialEq T} (field : string) (captured live : T) : result () PreimageMismatch :=
  if eqb captured live then Ok () else Err {| field_path := field |}.

Definition touched {T} `{PartialEq T} (field : string) (captured : option T) (live : T)
    : result () PreimageMismatch :=
  match captured with
  | Some captured => equal field captured live
  | None => Ok ()
  end.

Definition check_update (op : UpdateOp) (live : DeletePreimage) : result () PreimageMismatch :=
  match update_preimage op, live with
  | PreEntity preimage, RowEntity live =>
      check? equal "id" (update_target_id op) (h_id (e_header live)) in
      check? touched "name" (epre_name preimage) (e_name live) in
      check? touched "description" (epre_description preimage) (e_description live) in
      check? touched "properties" (epre_properties preimage) (e_properties live) in
      check? touched "tags" (epre_tags preimage) (e_tags live) in
      touched "entity_type" (epre_entity_type preimage) (e_entity_type live)
  | PreNote preimage, RowNote live =>
      check? equal "id" (update_target_id op) (h_id (n_header live)) in
      check? touched "content" (npre_content preimage) (n_content live) in
      check? touched "salience" (npre_salience preimage) (n_salience live) in
      check? touched "decay_factor" (npre_decay_factor preimage) (n_decay_factor live) in
      check? touched "properties" (npre_properties preimage) (n_properties live) in
      touched "tags" (npre_tags preimage) (n_tags live)
  | PreEdge preimage, RowEdge live =>
      check? equal "id" (update_target_id op) (l_id live) in
      check? touched "relation" (dpre_relation preimage) (l_relation live) in
      touched "weight" (dpre_weight preimage) (l_weight live)
  | _, _ => Err {| field_path := "substrate" |}
  end.

Definition check_header (captured live : Header) : result () PreimageMismatch :=
  check? equal "id" (h_id captured) (h_id live) in
  check? equal (T:=string) "namespace" (h_namespace captured) (h_namespace live) in
  equal "created_at" (h_created_at captured) (h_created_at live).

Definition check_delete (op : DeleteOp) (live : DeletePreimage) : result () PreimageMismatch :=
  match delete_preimage op, live with
  | RowEntity captured, RowEntity live =>
      check? equal "id" (delete_target_id op) (h_id (e_header live)) in
      check? check_header (e_header captured) (e_header live) in
      check? equal "kind" (e_kind captured) (e_kind live) in
      check? equal "entity_type" (e_entity_type captured) (e_entity_type live) in
      check? equal "name" (e_name captured) (e_name live) in
      check? equal "description" (e_description captured) (e_description live) in
      check? equal "properties" (e_properties captured) (e_properties live) in
      check? equal "tags" (e_tags captured) (e_tags live) in
      equal "deleted_at" (e_deleted_at captured) (e_deleted_at live)
  | RowNote captured, RowNote live =>
      check? equal "id" (delete_target_id op) (h_id (n_header live)) in
      check? check_header (n_header captured) (n_header live) in
      check? equal "kind" (n_kind captured) (n_kind live) in
      check? equal "status" (n_status captured) (n_status live) in
      check? equal "content" (n_content captured) (n_content live) in
      check? equal "properties" (n_properties captured) (n_properties live) in
      check? equal "tags" (n_tags captured) (n_tags live) in
      check? equal "salience" (n_salience captured) (n_salience live) in
      check? equal "decay_factor" (n_decay_factor captured) (n_decay_factor live) in
      check? equal "expires_at" (n_expires_at captured) (n_expires_at live) in
      equal "deleted_at" (n_deleted_at captured) (n_deleted_at live)
  | RowEdge captured, RowEdge live =>
      check? equal "id" (delete_target_id op) (l_id live) in
      check? equal "id" (l_id captured) (l_id live) in
      check? equal "namespace" (l_namespace captured) (l_namespace live) in
      check? equal "source" (l_source captured) (l_source live) in
      check? equal "target" (l_target captured) (l_target live) in
      check? equal "relation" (l_relation captured) (l_relation live) in
      check? equal "properties" (l_properties captured) (l_properties live) in
      check? equal "weight" (l_weight captured) (l_weight live) in
      check? equal "created_at" (l_created_at captured) (l_created_at live) in
      equal "deleted_at" (l_deleted_at captured) (l_deleted_at live)
  | _, _ => Err {| field_path := "substrate" |}
  end.

(** ** envelope.rs and the change-set *)

Definition CURRENT_SCHEMA_VERSION : N := 2.

Record Envelope := {
  env_schema_version : N;
  env_producer : string;
  env_producer_model_family : string;
  env_staged_at : Timestamp;
  env_batch_id : option string
}.
#[export] Instance Envelope_EqDecision : EqDecision Envelope.
Proof. solve_decision. Defined.

Definition Envelope_new (producer producer_model_family : string) (staged_at : Timestamp) : Envelope :=
  {| env_schema_version := CURRENT_SCHEMA_VERSION; env_producer := producer;
     env_producer_model_family := producer_model_family; env_staged_at := staged_at;
     env_batch_id := None |}.
Definition with_batch_id (self : Envelope) (batch_id : string) : Envelope :=
  {| env_schema_version := env_schema_version self; env_producer := env_producer self;
     env_producer_model_family := env_producer_model_family self;
     env_staged_at := env_staged_at self; env_batch_id := Some batch_id |}.

Record ChangeSet := { cs_envelope : Envelope; cs_ops : list Op }.

(** khive-changeset/src/invert.rs: the inverse of a change-set, computed against
    the current records, which a private working copy rewinds operation by
    operation. *)

Record CurrentState := {
  cur_entities : gmap Id128 Entity;
  cur_notes : gmap Id128 Note;
  cur_edges : gmap Id128 Link
}.

Definition with_entities (self : CurrentState) v :=
  {| cur_entities := v; cur_notes := cur_notes self; cur_edges := cur_edges self |}.
Definition with_notes (self : CurrentState) v :=
  {| cur_entities := cur_entities self; cur_notes := v; cur_edges := cur_edges self |}.
Definition with_edges (self : CurrentState) v :=
  {| cur_entities := cur_entities self; cur_notes := cur_notes self; cur_edges := v |}.

Inductive InvertError : Type :=
| ReusedEnvelope
| NotInvertible (index : nat) (op : string)
| MissingCurrent (index : nat) (id : Id128)
| Invalidated (index : nat) (id : Id128) (field : string)
| InverseRestore (index : nat) (reason : OpError)
| InverseUpdate (index : nat) (reason : OpError).

Definition check (index : nat) (id : Id128) (field : string) (matches : bool) : result () InvertError :=
  if matches then Ok () else Err (Invalidated index id field).

Definition RecordKey : Type := N * Id128.

Definition record_key (record : DeletePreimage) : RecordKey :=
  match record with
  | RowEntity row => (0%N, h_id (e_header row))
  | RowNote row => (1%N, h_id (n_header row))
  | RowEdge row => (2%N, l_id row)
  end.

Definition is_deleted (record : DeletePreimage) : bool :=
  match record with
  | RowEntity row => is_some (e_deleted_at row)
  | RowNote row => is_some (n_deleted_at row)
  | RowEdge row => is_some (l_deleted_at row)
  end.

Definition current_record (index : nat) (id : Id128) (expected : DeletePreimage)
    (working : CurrentState) : result DeletePreimage InvertError :=
  let? record := ok_or match expected with
                       | RowEntity _ => RowEntity <$> cur_entities working !! id
                       | RowNote _ => RowNote <$> cur_notes working !! id
                       | RowEdge _ => RowEdge <$> cur_edges working !! id
                       end (MissingCurrent index id) in
  check? check index id "id" (eqb (record_key record).2 id) in
  Ok record.

Definition rewind_record (record : DeletePreimage) (working : CurrentState) : CurrentState :=
  match record with
  | RowEntity row => with_entities working (<[h_id (e_header row) := row]> (cur_entities working))
  | RowNote row => with_notes working (<[h_id (n_header row) := row]> (cur_notes working))
  | RowEdge row => with_edges working (<[l_id row := row]> (cur_edges working))
  end.

Definition check_record_content (index : nat) (id : Id128) (current expected : DeletePreimage)
    : result () InvertError :=
  let check := check index id in
  match current, expected with
  | RowEntity row, RowEntity prior =>
      check? check "kind" (eqb (e_kind row) (e_kind prior)) in
      check? check "entity_type" (eqb (e_entity_type row) (e_entity_type prior)) in
      check? check "name" (eqb (e_name row) (e_name prior)) in
      check? check "description" (eqb (e_description row) (e_description prior)) in
      check? check "properties" (eqb (e_properties row) (e_properties prior)) in
      check? check "tags" (eqb (e_tags row) (e_tags prior)) in
      check? check "namespace" (eqb (A:=string) (h_namespace (e_header row)) (h_namespace (e_header prior))) in
      check "created_at" (eqb (h_created_at (e_header row)) (h_created_at (e_header prior)))
  | RowNote row, RowNote prior =>
      check? check "kind" (eqb (n_kind row) (n_kind prior)) in
      check? check "status" (eqb (n_status row) (n_status prior)) in
      check? check "content" (eqb (n_content row) (n_content prior)) in
      check? check "properties" (eqb (n_properties row) (n_properties prior)) in
      check? check "tags" (eqb (n_tags row) (n_tags prior)) in
      check? check "salience" (eqb (n_salience row) (n_salience prior)) in
      check? check "decay_factor" (eqb (n_decay_factor row) (n_decay_factor prior)) in
      check? check "expires_at" (eqb (n_expires_at row) (n_expires_at prior)) in
      check? check "namespace" (eqb (A:=string) (h_namespace (n_header row)) (h_namespace (n_header prior))) in
      check "created_at" (eqb (h_created_at (n_header row)) (h_created_at (n_header prior)))
  | RowEdge row, RowEdge prior =>
      check? check "namespace" (eqb (l_namespace row) (l_namespace prior)) in
      check? check "source" (eqb (l_source row) (l_source prior)) in
      check? check "target" (eqb (l_target row) (l_target prior)) in
      check? check "relation" (eqb (l_relation row) (l_relation prior)) in
      check? check "weight" (eqb (l_weight row) (l_weight prior)) in
      check? check "properties" (eqb (l_properties row) (l_properties prior)) in
      check "created_at" (eqb (l_created_at row) (l_created_at prior))
  | _, _ => check "substrate" false
  end.

(** ** The inverse of each operation *)

Definition tombstones : Type := gset RecordKey.

Definition with_status (row : Note) (status : NoteStatus) : Note :=
  {| n_header := n_header row; n_kind := n_kind row; n_status := status; n_content := n_content row;
     n_properties := n_properties row; n_tags := n_tags row; n_salience := n_salience row;
     n_decay_factor := n_decay_factor row; n_expires_at := n_expires_at row;
     n_deleted_at := n_deleted_at row |}.

(** The checks of a record whose deletion is not one this inversion rewound: a
    deleted note takes the status it had. *)
Definition settle_deleted (index : nat) (id : Id128) (current prior : DeletePreimage)
    : result DeletePreimage InvertError :=
  match current, prior with
  | RowEntity row, RowEntity prior =>
      check? check index id "updated_at" (eqb (h_updated_at (e_header row)) (h_updated_at (e_header prior))) in
      Ok (RowEntity row)
  | RowNote row, RowNote prior =>
      check? check index id "updated_at" (eqb (h_updated_at (n_header row)) (h_updated_at (n_header prior))) in
      check? check index id "status" (eqb (n_status row) Deleted) in
      Ok (RowNote (with_status row (n_status prior)))
  | _, _ => Ok current
  end.

Definition invert_delete (index : nat) (delete : DeleteOp) (working : CurrentState) (tombs : tombstones)
    : result (Op * CurrentState * tombstones) InvertError :=
  let id := delete_target_id delete in
  let prior := delete_preimage delete in
  let? restore := match RestoreOp_new id prior with
                  | Ok r => Ok r
                  | Err reason => Err (InverseRestore index reason)
                  end in
  let? current := current_record index id prior working in
  let key := record_key prior in
  check? check index id "deleted_at" (is_deleted current || bool_decide (key ∈ tombs)) in
  let? current := if bool_decide (key ∈ tombs) then Ok current
                  else settle_deleted index id current prior in
  check? check_record_content index id current prior in
  Ok (OpRestore restore, rewind_record prior working, tombs ∖ {[key]}).

Definition invert_restore (index : nat) (restore : RestoreOp) (working : CurrentState) (tombs : tombstones)
    : result (Op * CurrentState * tombstones) InvertError :=
  let id := restore_target_id restore in
  let key := record_key (restore_record restore) in
  let? current := current_record index id (restore_record restore) working in
  check? check index id "deleted_at" (negb (is_deleted current) && negb (bool_decide (key ∈ tombs))) in
  check? check_record_content index id current (restore_record restore) in
  Ok (OpDelete {| delete_target_id := id; delete_hard := false; delete_preimage := current |},
      working, {[key]} ∪ tombs).

Definition invert_create (index : nat) (create : CreateOp) (working : CurrentState)
    : result (Op * CurrentState) InvertError :=
  let id := create_id create in
  let check := check index id in
  let? (preimage, working) :=
    match create_target create with
    | CreateEntity fields =>
        let? row := ok_or (cur_entities working !! id) (MissingCurrent index id) in
        check? check "id" (eqb (h_id (e_header row)) id) in
        check? check "namespace" (eqb (A:=string) (h_namespace (e_header row)) (create_namespace create)) in
        check? check "deleted_at" (negb (is_some (e_deleted_at row))) in
        check? check "kind" (eqb (e_kind row) (ec_entity_kind fields)) in
        check? check "entity_type" (eqb (e_entity_type row) (ec_entity_type fields)) in
        check? check "name" (eqb (e_name row) (ec_name fields)) in
        check? check "description" (eqb (e_description row) (ec_description fields)) in
        check? check "properties" (eqb (e_properties row) (ec_properties fields)) in
        check? check "tags" (eqb (e_tags row) (ec_tags fields)) in
        Ok (RowEntity row, with_entities working (delete id (cur_entities working)))
    | CreateNote fields =>
        let? row := ok_or (cur_notes working !! id) (MissingCurrent index id) in
        check? check "id" (eqb (h_id (n_header row)) id) in
        check? check "namespace" (eqb (A:=string) (h_namespace (n_header row)) (create_namespace create)) in
        check? check "deleted_at" (negb (is_some (n_deleted_at row))) in
        check? check "kind" (eqb (n_kind row) (nc_note_kind fields)) in
        check? check "status" (eqb (n_status row) NoteStatus_default) in
        check? check "expires_at" (negb (is_some (n_expires_at row))) in
        check? check "content" (eqb (n_content row) (nc_content fields)) in
        check? check "properties" (eqb (n_properties row) (nc_properties fields)) in
        check? check "tags" (eqb (n_tags row) (nc_tags fields)) in
        check? check "salience" (eqb (n_salience row) (nc_salience fields)) in
        check? check "decay_factor" (eqb (n_decay_factor row) (nc_decay_factor fields)) in
        Ok (RowNote row, with_notes working (delete id (cur_notes working)))
    end in
  Ok (OpDelete {| delete_target_id := id; delete_hard := false; delete_preimage := preimage |}, working).

Definition invert_link (index : nat) (link : LinkOp) (working : CurrentState)
    : result (Op * CurrentState) InvertError :=
  let id := link_id link in
  let check := check index id in
  let? row := ok_or (cur_edges working !! id) (MissingCurrent index id) in
  check? check "id" (eqb (l_id row) id) in
  check? check "namespace" (eqb (A:=string) (l_namespace row) (link_namespace link)) in
  check? check "deleted_at" (negb (is_some (l_deleted_at row))) in
  check? check "source" (eqb (l_source row) (link_source link)) in
  check? check "target" (eqb (l_target row) (link_target link)) in
  check? check "relation" (eqb (l_relation row) (link_relation link)) in
  check? check "weight" (eqb (l_weight row) (link_weight link)) in
  check? check "properties" (eqb (l_properties row) (link_properties link)) in
  Ok (OpDelete {| delete_target_id := id; delete_hard := false; delete_preimage := RowEdge row |},
      with_edges working (delete id (cur_edges working))).

Definition set_or {A} (o : option A) (old : A) : A := match o with Some v => v | None => old end.

(** A touched field must hold the value the patch gave it. *)
Definition check_field {A} `{PartialEq A} (index : nat) (id : Id128) (field : string)
    (patch : option A) (current : A) : result () InvertError :=
  match patch with
  | Some value => check index id field (eqb current value)
  | None => Ok ()
  end.

Definition swap_to_patch (preimage : UpdatePreimage) : UpdatePatch :=
  match preimage with
  | PreEntity prior =>
      PatchEntity {| ep_name := epre_name prior; ep_description := epre_description prior;
                     ep_properties := epre_properties prior; ep_tags := epre_tags prior;
                     ep_entity_type := epre_entity_type prior |}
  | PreNote prior =>
      PatchNote {| np_content := npre_content prior; np_salience := npre_salience prior;
                   np_decay_factor := npre_decay_factor prior; np_properties := npre_properties prior;
                   np_tags := npre_tags prior |}
  | PreEdge prior =>
      PatchEdge {| dp_relation := dpre_relation prior; dp_weight := dpre_weight prior |}
  end.

Definition swap_to_preimage (patch : UpdatePatch) : UpdatePreimage :=
  match patch with
  | PatchEntity p =>
      PreEntity {| epre_name := ep_name p; epre_description := ep_description p;
                   epre_properties := ep_properties p; epre_tags := ep_tags p;
                   epre_entity_type := ep_entity_type p |}
  | PatchNote p =>
      PreNote {| npre_content := np_content p; npre_salience := np_salience p;
                 npre_decay_factor := np_decay_factor p; npre_properties := np_properties p;
                 npre_tags := np_tags p |}
  | PatchEdge p =>
      PreEdge {| dpre_relation := dp_relation p; dpre_weight := dp_weight p |}
  end.

Definition swapped_update (index : nat) (update : UpdateOp) : result UpdateOp InvertError :=
  match UpdateOp_new (update_target_id update) (swap_to_patch (update_preimage update))
          (swap_to_preimage (update_patch update)) with
  | Ok u => Ok u
  | Err reason => Err (InverseUpdate index reason)
  end.

Definition rewind_entity (row : Entity) (prior : EntityPreimage) : Entity :=
  {| e_header := e_header row; e_kind := e_kind row;
     e_entity_type := set_or (epre_entity_type prior) (e_entity_type row);
     e_name := set_or (epre_name prior) (e_name row);
     e_description := set_or (epre_description prior) (e_description row);
     e_properties := set_or (epre_properties prior) (e_properties row);
     e_tags := set_or (epre_tags prior) (e_tags row); e_deleted_at := e_deleted_at row |}.

Definition rewind_note (row : Note) (prior : NotePreimage) : Note :=
  {| n_header := n_header row; n_kind := n_kind row; n_status := n_status row;
     n_content := set_or (npre_content prior) (n_content row);
     n_properties := set_or (npre_properties prior) (n_properties row);
     n_tags := set_or (npre_tags prior) (n_tags row);
     n_salience := set_or (npre_salience prior) (n_salience row);
     n_decay_factor := set_or (npre_decay_factor prior) (n_decay_factor row);
     n_expires_at := n_expires_at row; n_deleted_at := n_deleted_at row |}.

Definition rewind_edge (row : Link) (prior : EdgePreimage) : Link :=
  {| l_id := l_id row; l_namespace := l_namespace row; l_source := l_source row;
     l_target := l_target row; l_relation := set_or (dpre_relation prior) (l_relation row);
     l_properties := l_properties row; l_weight := set_or (dpre_weight prior) (l_weight row);
     l_created_at := l_created_at row; l_updated_at := l_updated_at row;
     l_deleted_at := l_deleted_at row |}.

Definition invert_update (index : nat) (update : UpdateOp) (working : CurrentState)
    : result (Op * CurrentState) InvertError :=
  let id := update_target_id update in
  match update_patch update, update_preimage update with
  | PatchEntity patch, PreEntity prior =>
      let? row := ok_or (cur_entities working !! id) (MissingCurrent index id) in
      check? check index id "id" (eqb (h_id (e_header row)) id) in
      check? check_field index id "name" (ep_name patch) (e_name row) in
      check? check_field index id "description" (ep_description patch) (e_description row) in
      check? check_field index id "entity_type" (ep_entity_type patch) (e_entity_type row) in
      check? check_field index id "properties" (ep_properties patch) (e_properties row) in
      check? check_field index id "tags" (ep_tags patch) (e_tags row) in
      let? inverse := swapped_update index update in
      Ok (OpUpdate inverse, with_entities working (<[id := rewind_entity row prior]> (cur_entities working)))
  | PatchNote patch, PreNote prior =>
      let? row := ok_or (cur_notes working !! id) (MissingCurrent index id) in
      check? check index id "id" (eqb (h_id (n_header row)) id) in
      check? check_field index id "content" (np_content patch) (n_content row) in
      check? check_field index id "salience" (np_salience patch) (n_salience row) in
      check? check_field index id "decay_factor" (np_decay_factor patch) (n_decay_factor row) in
      check? check_field index id "properties" (np_properties patch) (n_properties row) in
      check? check_field index id "tags" (np_tags patch) (n_tags row) in
      let? inverse := swapped_update index update in
      Ok (OpUpdate inverse, with_notes working (<[id := rewind_note row prior]> (cur_notes working)))
  | PatchEdge patch, PreEdge prior =>
      let? row := ok_or (cur_edges working !! id) (MissingCurrent index id) in
      check? check index id "id" (eqb (l_id row) id) in
      check? check_field index id "relation" (dp_relation patch) (l_relation row) in
      check? check_field index id "weight" (dp_weight patch) (l_weight row) in
      let? inverse := swapped_update index update in
      Ok (OpUpdate inverse, with_edges working (<[id := rewind_edge row prior]> (cur_edges working)))
  | _, _ => let? inverse := swapped_update index update in Ok (OpUpdate inverse, working)
  end.

(** ** The change-set *)

Definition create_key (create : CreateOp) : RecordKey :=
  (match create_target create with CreateEntity _ => 0%N | CreateNote _ => 1%N end, create_id create).

Definition keep_tombs (tombs : tombstones) (r : result (Op * CurrentState) InvertError)
    : result (Op * CurrentState * tombstones) InvertError :=
  let? (op, working) := r in Ok (op, working, tombs).

(** The body of the loop of [invert]. *)
Definition invert_op (index : nat) (op : Op) (working : CurrentState) (tombs : tombstones)
    : result (Op * CurrentState * tombstones) InvertError :=
  match op with
  | OpCreate create =>
      check? check index (create_id create) "deleted_at" (negb (bool_decide (create_key create ∈ tombs))) in
      keep_tombs tombs (invert_create index create working)
  | OpLink link =>
      check? check index (link_id link) "deleted_at"
               (negb (bool_decide ((2%N, link_id link) ∈ tombs))) in
      keep_tombs tombs (invert_link index link working)
  | OpUpdate update => keep_tombs tombs (invert_update index update working)
  | OpDelete delete =>
      if delete_hard delete then Err (NotInvertible index "delete")
      else invert_delete index delete working tombs
  | OpRestore restore => invert_restore index restore working tombs
  | OpMerge _ => Err (NotInvertible index "merge")
  end.

(** [for (index, op) in self.ops.iter().enumerate().rev()]: [ops] is reversed. *)
Fixpoint invert_loop (ops : list (nat * Op)) (working : CurrentState) (tombs : tombstones)
    : result (list Op) InvertError :=
  match ops with
  | [] => Ok []
  | (index, op) :: ops' =>
      let? (inverse_state, tombs) := invert_op index op working tombs in
      let? rest := invert_loop ops' inverse_state.2 tombs in
      Ok (inverse_state.1 :: rest)
  end.

Definition ChangeSet_invert (self : ChangeSet) (envelope : Envelope) (current : CurrentState)
    : result ChangeSet InvertError :=
  if bool_decide (envelope = cs_envelope self) then Err ReusedEnvelope
  else
    let? ops := invert_loop (rev (enumerate (cs_ops self))) current ∅ in
    Ok {| cs_envelope := envelope; cs_ops := ops |}.
