(* ===== verification/InvertFacts.v ===== *)
(** What the inverse of a change-set guarantees: applied to the records that the
    change-set left, in any later state of their timestamps, it applies and
    restores the live records that were there before.  The application of an
    operation is specified from the captured preimages. *)

From Stdlib Require Import NArith ZArith QArith Ascii String.
From stdpp Require Import base tactics list numbers strings gmap.
From S2P Require Import Prelude RustStr Float EdgeOntology Ident Records ChangeOps.

(** ** Records under their keys *)

Definition get_row (s : CurrentState) (key : RecordKey) : option DeletePreimage :=
  match key.1 with
  | 0 => RowEntity <$> cur_entities s !! key.2
  | 1 => RowNote <$> cur_notes s !! key.2
  | 2 => RowEdge <$> cur_edges s !! key.2
  | _ => None
  end%N.

Definition remove_row (key : RecordKey) (s : CurrentState) : CurrentState :=
  match key.1 with
  | 0 => with_entities s (delete key.2 (cur_entities s))
  | 1 => with_notes s (delete key.2 (cur_notes s))
  | 2 => with_edges s (delete key.2 (cur_edges s))
  | _ => s
  end%N.

Lemma get_rewind r s key :
  get_row (rewind_record r s) key = if decide (key = record_key r) then Some r else get_row s key.
Proof.
  destruct key as [k i], r as [e|n|l]; unfold get_row, rewind_record, record_key; simpl;
    case_decide as Hk; simplify_eq/=.
  all: try (by rewrite lookup_insert_eq).
  all: destruct k as [|[[|[]|]|[|[]|]|]]; simpl; try done; rewrite lookup_insert_ne; try done; congruence.
Qed.

Lemma get_remove key s key' :
  get_row (remove_row key s) key' = if decide (key' = key) then None else get_row s key'.
Proof.
  destruct key as [k i], key' as [k' i']; unfold get_row, remove_row; simpl; case_decide as Hk; simplify_eq/=.
  - destruct k as [|[[|[]|]|[|[]|]|]]; simpl; try done; by rewrite lookup_delete_eq.
  - destruct k as [|[[|[]|]|[|[]|]|]], k' as [|[[|[]|]|[|[]|]|]]; simpl; try done;
      rewrite lookup_delete_ne; try done; congruence.
Qed.

Definition state_wf (s : CurrentState) : Prop := ∀ key r, get_row s key = Some r → record_key r = key.

Lemma rewind_wf r s : state_wf s → state_wf (rewind_record r s).
Proof. intros Hs key r'. rewrite get_rewind. case_decide; [|apply Hs]. by intros [= <-]. Qed.
Lemma remove_wf key s : state_wf s → state_wf (remove_row key s).
Proof. intros Hs key' r'. rewrite get_remove. case_decide; [done|apply Hs]. Qed.

(** ** Contents *)

(** What the checks of a record compare: everything but the identifier, the
    tombstone and the time of the last update.  A deleted note has the status it
    is restored to. *)
Definition EntityContent : Type :=
  EntityKind * option string * string * option string * Properties * list string * string * Timestamp.
Definition NoteContent : Type :=
  string * NoteStatus * string * Properties * list string * option f64 * option f64 *
  option Timestamp * string * Timestamp.
Definition EdgeContent : Type :=
  string * Id128 * Id128 * EdgeRelation * f64 * Properties * Timestamp.

Definition entity_content (e : Entity) : EntityContent :=
  (e_kind e, e_entity_type e, e_name e, e_description e, e_properties e, e_tags e,
   h_namespace (e_header e), h_created_at (e_header e)).
Definition note_content (status : NoteStatus) (n : Note) : NoteContent :=
  (n_kind n, status, n_content n, n_properties n, n_tags n, n_salience n, n_decay_factor n,
   n_expires_at n, h_namespace (n_header n), h_created_at (n_header n)).
Definition edge_content (l : Link) : EdgeContent :=
  (l_namespace l, l_source l, l_target l, l_relation l, l_weight l, l_properties l, l_created_at l).

Definition settled_status (n : Note) : NoteStatus :=
  if is_some (n_deleted_at n) then Active else n_status n.

Definition row_content (r : DeletePreimage) : EntityContent + (NoteContent + EdgeContent) :=
  match r with
  | RowEntity e => inl (entity_content e)
  | RowNote n => inr (inl (note_content (settled_status n) n))
  | RowEdge l => inr (inr (edge_content l))
  end.

(** Two records that differ at most in identifier, tombstone and update time. *)
Definition same (a b : DeletePreimage) : Prop := canon (row_content a) = canon (row_content b).

Lemma check_Ok i id f b : check i id f b = Ok () ↔ b = true.
Proof. by destruct b. Qed.
Lemma unit_bind_Ok {E} (m k : result () E) : (check? m in k) = Ok () ↔ m = Ok () ∧ k = Ok ().
Proof. destruct m as [[]|]; simpl; naive_solver. Qed.
Lemma equal_Ok {T} `{PartialEq T} f (a b : T) : equal f a b = Ok () ↔ eqb a b = true.
Proof. unfold equal. by destruct (eqb a b). Qed.
Lemma eqb_pair {A B} `{PartialEq A, PartialEq B} (a a' : A) (b b' : B) :
  eqb (a, b) (a', b') = true ↔ eqb a a' = true ∧ eqb b b' = true.
Proof. apply andb_true_iff. Qed.

Lemma eqb_id (a b : Id128) : eqb a b = true ↔ a = b.
Proof. apply bool_decide_eq_true. Qed.
Lemma eqb_time (a b : option Timestamp) : eqb a b = true ↔ a = b.
Proof.
  destruct a as [a|], b as [b|]; try done. change (bool_decide (a = b) = true ↔ Some a = Some b).
  rewrite bool_decide_eq_true. naive_solver.
Qed.

Lemma check_header_Ok a b :
  check_header a b = Ok () ↔
  h_id a = h_id b ∧ eqb (A:=string) (h_namespace a) (h_namespace b) = true ∧
  eqb (h_created_at a) (h_created_at b) = true.
Proof. unfold check_header. rewrite !unit_bind_Ok, !equal_Ok. by rewrite eqb_id. Qed.

Lemma none_eq {A} (a b : option A) : is_some b = false → a = b ↔ is_some a = false.
Proof. destruct a, b; simpl; naive_solver. Qed.

Lemma key_eq (k : N) (a b : Id128) : (k, a) = (k, b) ↔ a = b.
Proof. naive_solver. Qed.

(** Open a comparison of contents field by field. *)
Ltac open_content :=
  unfold row_content, entity_content, note_content, edge_content;
  match goal with
  | |- context [@eqb (EntityContent + (NoteContent + EdgeContent)) _ ?x ?y] =>
      lazymatch x with
      | inl ?a => lazymatch y with inl ?b => change (@eqb _ _ x y) with (eqb a b) end
      | inr (inl ?a) => lazymatch y with inr (inl ?b) => change (@eqb _ _ x y) with (eqb a b) end
      | inr (inr ?a) => lazymatch y with inr (inr ?b) => change (@eqb _ _ x y) with (eqb a b) end
      end
  end;
  rewrite !eqb_pair.

(** A live record matches its captured preimage. *)
Lemma check_delete_Ok d r :
  is_deleted r = false →
  check_delete d r = Ok () ↔
  delete_target_id d = record_id r ∧ record_key (delete_preimage d) = record_key r ∧
  is_deleted (delete_preimage d) = false ∧ eqb (row_content (delete_preimage d)) (row_content r) = true.
Proof.
  intros Hlive. unfold check_delete. destruct d as [t h pre]. simpl.
  destruct pre as [e|n|l], r as [e'|n'|l']; simpl in *; try (split; [done|naive_solver]).
  - rewrite !unit_bind_Ok, check_header_Ok, !equal_Ok, eqb_id, eqb_time, key_eq, (none_eq _ _ Hlive).
    open_content. tauto.
  - rewrite !unit_bind_Ok, check_header_Ok, !equal_Ok, eqb_id, (eqb_time (n_deleted_at n)), key_eq, (none_eq _ _ Hlive).
    open_content. unfold settled_status. rewrite Hlive.
    destruct (is_some (n_deleted_at n)); [naive_solver|tauto].
  - rewrite !unit_bind_Ok, !equal_Ok, !eqb_id, eqb_time, key_eq, (none_eq _ _ Hlive). open_content.
    rewrite !eqb_id. tauto.
Qed.

(** ** Landing an operation *)

(** The specification of what an operation does when it lands at time [now]: the
    captured preimage must match the record. *)

Definition stamp (now : Timestamp) (r : DeletePreimage) : DeletePreimage :=
  match r with
  | RowEntity e =>
      let h := e_header e in
      RowEntity {| e_header := {| h_id := h_id h; h_namespace := h_namespace h;
                                  h_created_at := h_created_at h; h_updated_at := now |};
                   e_kind := e_kind e; e_entity_type := e_entity_type e; e_name := e_name e;
                   e_description := e_description e; e_properties := e_properties e;
                   e_tags := e_tags e; e_deleted_at := e_deleted_at e |}
  | RowNote n =>
      let h := n_header n in
      RowNote {| n_header := {| h_id := h_id h; h_namespace := h_namespace h;
                                h_created_at := h_created_at h; h_updated_at := now |};
                 n_kind := n_kind n; n_status := n_status n; n_content := n_content n;
                 n_properties := n_properties n; n_tags := n_tags n; n_salience := n_salience n;
                 n_decay_factor := n_decay_factor n; n_expires_at := n_expires_at n;
                 n_deleted_at := n_deleted_at n |}
  | RowEdge l =>
      RowEdge {| l_id := l_id l; l_namespace := l_namespace l; l_source := l_source l;
                 l_target := l_target l; l_relation := l_relation l; l_properties := l_properties l;
                 l_weight := l_weight l; l_created_at := l_created_at l; l_updated_at := now;
                 l_deleted_at := l_deleted_at l |}
  end.

Definition set_deleted (at_ : option Timestamp) (status : NoteStatus) (r : DeletePreimage) : DeletePreimage :=
  match r with
  | RowEntity e =>
      RowEntity {| e_header := e_header e; e_kind := e_kind e; e_entity_type := e_entity_type e;
                   e_name := e_name e; e_description := e_description e;
                   e_properties := e_properties e; e_tags := e_tags e; e_deleted_at := at_ |}
  | RowNote n =>
      RowNote {| n_header := n_header n; n_kind := n_kind n; n_status := status;
                 n_content := n_content n; n_properties := n_properties n; n_tags := n_tags n;
                 n_salience := n_salience n; n_decay_factor := n_decay_factor n;
                 n_expires_at := n_expires_at n; n_deleted_at := at_ |}
  | RowEdge l =>
      RowEdge {| l_id := l_id l; l_namespace := l_namespace l; l_source := l_source l;
                 l_target := l_target l; l_relation := l_relation l; l_properties := l_properties l;
                 l_weight := l_weight l; l_created_at := l_created_at l;
                 l_updated_at := l_updated_at l; l_deleted_at := at_ |}
  end.

(** A soft deletion leaves the update time of entities and notes; a restored
    record is live, active and updated. *)
Definition tombstone (now : Timestamp) (r : DeletePreimage) : DeletePreimage :=
  match r with
  | RowEdge _ => stamp now (set_deleted (Some now) Deleted r)
  | _ => set_deleted (Some now) Deleted r
  end.
Definition revive (now : Timestamp) (r : DeletePreimage) : DeletePreimage :=
  stamp now (set_deleted None Active r).

Definition patch_row (patch : UpdatePatch) (r : DeletePreimage) : option DeletePreimage :=
  match patch, r with
  | PatchEntity p, RowEntity e =>
      Some (RowEntity {| e_header := e_header e; e_kind := e_kind e;
                         e_entity_type := set_or (ep_entity_type p) (e_entity_type e);
                         e_name := set_or (ep_name p) (e_name e);
                         e_description := set_or (ep_description p) (e_description e);
                         e_properties := set_or (ep_properties p) (e_properties e);
                         e_tags := set_or (ep_tags p) (e_tags e); e_deleted_at := e_deleted_at e |})
  | PatchNote p, RowNote n =>
      Some (RowNote {| n_header := n_header n; n_kind := n_kind n; n_status := n_status n;
                       n_content := set_or (np_content p) (n_content n);
                       n_properties := set_or (np_properties p) (n_properties n);
                       n_tags := set_or (np_tags p) (n_tags n);
                       n_salience := set_or (np_salience p) (n_salience n);
                       n_decay_factor := set_or (np_decay_factor p) (n_decay_factor n);
                       n_expires_at := n_expires_at n; n_deleted_at := n_deleted_at n |})
  | PatchEdge p, RowEdge l =>
      Some (RowEdge {| l_id := l_id l; l_namespace := l_namespace l; l_source := l_source l;
                       l_target := l_target l; l_relation := set_or (dp_relation p) (l_relation l);
                       l_properties := l_properties l; l_weight := set_or (dp_weight p) (l_weight l);
                       l_created_at := l_created_at l; l_updated_at := l_updated_at l;
                       l_deleted_at := l_deleted_at l |})
  | _, _ => None
  end.

Definition created_row (now : Timestamp) (o : CreateOp) : DeletePreimage :=
  let header := Header_new (create_id o) (create_namespace o) now in
  match create_target o with
  | CreateEntity f =>
      RowEntity {| e_header := header; e_kind := ec_entity_kind f; e_entity_type := ec_entity_type f;
                   e_name := ec_name f; e_description := ec_description f;
                   e_properties := ec_properties f; e_tags := ec_tags f; e_deleted_at := None |}
  | CreateNote f =>
      RowNote {| n_header := header; n_kind := nc_note_kind f; n_status := NoteStatus_default;
                 n_content := nc_content f; n_properties := nc_properties f; n_tags := nc_tags f;
                 n_salience := nc_salience f; n_decay_factor := nc_decay_factor f;
                 n_expires_at := None; n_deleted_at := None |}
  end.

Definition linked_row (now : Timestamp) (o : LinkOp) : DeletePreimage :=
  RowEdge {| l_id := link_id o; l_namespace := link_namespace o; l_source := link_source o;
             l_target := link_target o; l_relation := link_relation o;
             l_properties := link_properties o; l_weight := link_weight o; l_created_at := now;
             l_updated_at := now; l_deleted_at := None |}.

Definition update_key (o : UpdateOp) : RecordKey :=
  (match update_preimage o with PreEntity _ => 0%N | PreNote _ => 1%N | PreEdge _ => 2%N end,
   update_target_id o).

(** Insert a row whose key is free. *)
Definition insert_new (r : DeletePreimage) (s : CurrentState) : option CurrentState :=
  match get_row s (record_key r) with Some _ => None | None => Some (rewind_record r s) end.

Definition is_Ok {A E} (r : result A E) : bool := match r with Ok _ => true | Err _ => false end.

Definition land_op (now : Timestamp) (op : Op) (s : CurrentState) : option CurrentState :=
  match op with
  | OpCreate o => insert_new (created_row now o) s
  | OpLink o => insert_new (linked_row now o) s
  | OpUpdate o =>
      r ← get_row s (update_key o);
      if negb (is_deleted r) && is_Ok (check_update o r) then
        r' ← patch_row (update_patch o) r; Some (rewind_record (stamp now r') s)
      else None
  | OpDelete o =>
      let key := record_key (delete_preimage o) in
      r ← get_row s key;
      if negb (is_deleted r) && is_Ok (check_delete o r) then
        Some (if delete_hard o then remove_row key s else rewind_record (tombstone now r) s)
      else None
  | OpRestore o =>
      r ← get_row s (record_key (restore_record o));
      let r' := revive now r in
      if is_deleted r &&
         is_Ok (check_delete {| delete_target_id := restore_target_id o; delete_hard := false;
                                delete_preimage := restore_record o |} r')
      then Some (rewind_record r' s) else None
  | OpMerge _ => None
  end.

(** The operations in order, each at its time. *)
Fixpoint land (ops : list (Timestamp * Op)) (s : CurrentState) : option CurrentState :=
  match ops with
  | [] => Some s
  | (now, op) :: ops' => s' ← land_op now op s; land ops' s'
  end.

(** ** Rows *)

Lemma set_deleted_key t st r : record_key (set_deleted t st r) = record_key r.
Proof. by destruct r. Qed.
Lemma stamp_key t r : record_key (stamp t r) = record_key r.
Proof. by destruct r. Qed.
Lemma tombstone_key t r : record_key (tombstone t r) = record_key r.
Proof. by destruct r. Qed.
Lemma revive_key t r : record_key (revive t r) = record_key r.
Proof. by destruct r. Qed.
Lemma stamp_deleted t r : is_deleted (stamp t r) = is_deleted r.
Proof. by destruct r. Qed.
Lemma tombstone_deleted t r : is_deleted (tombstone t r) = true.
Proof. by destruct r. Qed.
Lemma revive_deleted t r : is_deleted (revive t r) = false.
Proof. by destruct r. Qed.
Lemma stamp_content t r : row_content (stamp t r) = row_content r.
Proof. by destruct r. Qed.
Lemma revive_content t r : is_deleted r = true → row_content (revive t r) = row_content r.
Proof. destruct r as [|n|]; simpl; try done. intros Hd. unfold settled_status. by rewrite Hd. Qed.

(** Its status survives a deletion only when it is the one restored. *)
Definition active (r : DeletePreimage) : Prop :=
  match r with RowNote n => n_status n = Active | _ => True end.
Lemma tombstone_content t r :
  is_deleted r = false → active r → row_content (tombstone t r) = row_content r.
Proof.
  destruct r as [|n|]; simpl; try done. unfold settled_status. simpl. intros -> ->. done.
Qed.

Lemma patch_key p r r' : patch_row p r = Some r' → record_key r' = record_key r.
Proof. by destruct p, r; intros [= <-]. Qed.
Lemma patch_deleted p r r' : patch_row p r = Some r' → is_deleted r' = is_deleted r.
Proof. by destruct p, r; intros [= <-]. Qed.

Create Rewrite HintDb rows.
#[export] Hint Rewrite set_deleted_key stamp_key tombstone_key revive_key stamp_deleted
  tombstone_deleted revive_deleted stamp_content : rows.

(** ** Updates *)

Section fields.
Context {T : Type} `{EqLaws T}.
Implicit Types (o : option T) (a b : T).

Lemma touched_Ok f o a : touched f o a = Ok () ↔ ∀ v, o = Some v → eqb v a = true.
Proof. destruct o as [v|]; simpl; [rewrite equal_Ok|]; naive_solver. Qed.

Lemma touched_resp f o a b : canon a = canon b → touched f o a = Ok () → touched f o b = Ok ().
Proof. rewrite !touched_Ok. intros Hab Ht v ->. by eapply eqb_resp, Ht. Qed.

Lemma check_field_touched i id f o a : check_field i id f o a = Ok () → touched f o a = Ok ().
Proof.
  destruct o as [v|]; [|done]. simpl. rewrite check_Ok, equal_Ok. apply eqb_sym.
Qed.

Lemma touched_check_field i id f o a : touched f o a = Ok () → check_field i id f o a = Ok ().
Proof.
  destruct o as [v|]; [|done]. simpl. rewrite check_Ok, equal_Ok. apply eqb_sym.
Qed.

Lemma canon_set_or o a b : canon a = canon b → canon (set_or o a) = canon (set_or o b).
Proof. by destruct o. Qed.

(** Setting a field to its captured value undoes the patch. *)
Lemma canon_undo f o o' a :
  touched f o' a = Ok () → is_some o = is_some o' → canon (set_or o' (set_or o a)) = canon a.
Proof.
  rewrite touched_Ok. destruct o as [v|], o' as [v'|]; simpl; try done. intros Ht _.
  by apply canon_of_eqb, Ht.
Qed.

(** A value equal to a record's is equal to itself. *)
Lemma touched_value f o a b : touched f o a = Ok () → touched f o (set_or o b) = Ok ().
Proof. rewrite !touched_Ok. intros Ht v ->. simpl. by eapply eqb_self, Ht. Qed.
End fields.

(** [same], field by field. *)
Ltac pair_up :=
  unfold same; simpl; repeat first [apply (f_equal2 pair) | apply (f_equal inl) | apply (f_equal inr)].
Lemma same_entity a b : same (RowEntity a) (RowEntity b) ↔
  canon (e_kind a) = canon (e_kind b) ∧ canon (e_entity_type a) = canon (e_entity_type b) ∧
  canon (e_name a) = canon (e_name b) ∧ canon (e_description a) = canon (e_description b) ∧
  canon (e_properties a) = canon (e_properties b) ∧ canon (e_tags a) = canon (e_tags b) ∧
  canon (A:=string) (h_namespace (e_header a)) = canon (h_namespace (e_header b)) ∧
  canon (h_created_at (e_header a)) = canon (h_created_at (e_header b)).
Proof. split; [by intros [=]|]. intros (H1 & H2 & H3 & H4 & H5 & H6 & H7 & H8). by pair_up. Qed.
Lemma same_note a b : same (RowNote a) (RowNote b) ↔
  canon (n_kind a) = canon (n_kind b) ∧ canon (settled_status a) = canon (settled_status b) ∧
  canon (n_content a) = canon (n_content b) ∧ canon (n_properties a) = canon (n_properties b) ∧
  canon (n_tags a) = canon (n_tags b) ∧ canon (n_salience a) = canon (n_salience b) ∧
  canon (n_decay_factor a) = canon (n_decay_factor b) ∧
  canon (n_expires_at a) = canon (n_expires_at b) ∧
  canon (A:=string) (h_namespace (n_header a)) = canon (h_namespace (n_header b)) ∧
  canon (h_created_at (n_header a)) = canon (h_created_at (n_header b)).
Proof. split; [by intros [=]|]. intros (H1 & H2 & H3 & H4 & H5 & H6 & H7 & H8 & H9 & H10). by pair_up. Qed.
Lemma same_edge a b : same (RowEdge a) (RowEdge b) ↔
  canon (l_namespace a) = canon (l_namespace b) ∧ canon (l_source a) = canon (l_source b) ∧
  canon (l_target a) = canon (l_target b) ∧ canon (l_relation a) = canon (l_relation b) ∧
  canon (l_weight a) = canon (l_weight b) ∧ canon (l_properties a) = canon (l_properties b) ∧
  canon (l_created_at a) = canon (l_created_at b).
Proof. split; [by intros [=]|]. intros (H1 & H2 & H3 & H4 & H5 & H6 & H7). by pair_up. Qed.

Ltac same_fields :=
  rewrite ?same_entity, ?same_note, ?same_edge; unfold settled_status; simpl n_deleted_at; simpl n_status.
Ltac split_all := repeat match goal with H : _ ∧ _ |- _ => destruct H end.

Lemma check_touched_Ok f x y : check_touched f x y = Ok () ↔ x = y.
Proof. by destruct x, y. Qed.

Lemma check_update_resp op a b :
  record_key a = record_key b → same a b → check_update op a = Ok () → check_update op b = Ok ().
Proof.
  intros Hk Hs. unfold check_update. destruct (update_preimage op) as [p|p|p], a as [a|a|a], b as [b|b|b]; try done;
    injection Hk as Hk; rewrite Hk; revert Hs; same_fields; rewrite !unit_bind_Ok; intros Hs Hc;
    split_all; split_and!; try done; by (eapply touched_resp; [|eassumption]).
Qed.


(** Records that agree are patched alike. *)
Lemma patch_resp p a b a' :
  record_key a = record_key b → same a b → patch_row p a = Some a' →
  ∃ b', patch_row p b = Some b' ∧ same a' b'.
Proof.
  intros Hk Hs Hp. destruct p as [p|p|p], a as [a|a|a], b as [b|b|b]; try done; injection Hp as <-;
    (eexists; split; [reflexivity|]); revert Hs; same_fields; intros Hs; split_all; split_and!; try done;
    by apply canon_set_or.
Qed.
