(* ===== verification/InvertProof.v ===== *)
(** The inverse of a change-set lands on the records the change-set left and
    restores the records that were there before. *)

From Stdlib Require Import NArith ZArith QArith Ascii String.
From stdpp Require Import base tactics list numbers strings gmap.
From S2P Require Import Prelude RustStr Float EdgeOntology Ident Records ChangeOps InvertFacts.

(** ** What the inverse of each operation is *)

Lemma check_then_Ok {E A} (m : result () E) (k : result A E) x :
  (check? m in k) = Ok x ↔ m = Ok () ∧ k = Ok x.
Proof. destruct m as [[]|]; simpl; naive_solver. Qed.
Lemma ok_or_Ok {E A} (o : option A) (e : E) x : ok_or o e = Ok x ↔ o = Some x.
Proof. destruct o; simpl; naive_solver. Qed.
Lemma is_some_false {A} (o : option A) : is_some o = false ↔ o = None.
Proof. by destruct o. Qed.

Lemma RestoreOp_new_Ok id r o :
  RestoreOp_new id r = Ok o →
  o = {| restore_target_id := id; restore_record := r |} ∧ id = record_id r ∧ is_deleted r = false ∧ active r.
Proof.
  unfold RestoreOp_new. destruct (eqb id (record_id r)) eqn:Hid; [|done]. apply eqb_id in Hid. simpl.
  rewrite check_then_Ok. intros [Hst Hr].
  assert (is_deleted r = false ∧ o = {| restore_target_id := id; restore_record := r |}) as [Hd ->].
  { destruct r; simpl in *; repeat case_match; simplify_eq/=; repeat split;
      match goal with H : negb (negb _) = false |- _ => by apply negb_false_iff, negb_true_iff in H end. }
  repeat split; try done. destruct r as [|n|]; simpl; try done.
  destruct (eqb (n_status n) Active) eqn:Ha; [|done]. by apply bool_decide_eq_true in Ha.
Qed.

Lemma current_record_Ok i id e w r :
  current_record i id e w = Ok r → id = record_id e → get_row w (record_key e) = Some r ∧ record_key r = record_key e.
Proof.
  unfold current_record. rewrite res_bind_Ok. intros (r' & Hr & Hk) ->. apply ok_or_Ok in Hr.
  apply check_then_Ok in Hk as [Hk [= ->]]. apply check_Ok, eqb_id in Hk.
  destruct e; simpl in *; (split; [done|]); apply fmap_Some in Hr as (x & _ & ->); simpl in *; by rewrite Hk.
Qed.

Lemma invert_delete_Ok i d w T inv w' T' :
  invert_delete i d w T = Ok (inv, w', T') →
  let prior := delete_preimage d in
  inv = OpRestore {| restore_target_id := record_id prior; restore_record := prior |} ∧
  is_deleted prior = false ∧ active prior ∧ w' = rewind_record prior w ∧ T' = T ∖ {[record_key prior]}.
Proof.
  unfold invert_delete. rewrite res_bind_Ok. intros (o & Ho & Hk).
  destruct (RestoreOp_new _ _) eqn:E; [|done]. simplify_eq/=.
  apply RestoreOp_new_Ok in E as (-> & Hid & Hd & Ha). rewrite Hid in Hk.
  apply res_bind_Ok in Hk as (c & _ & Hk). apply check_then_Ok in Hk as [_ Hk].
  apply res_bind_Ok in Hk as (c' & _ & Hk). apply check_then_Ok in Hk as [_ Hk]. simplify_eq/=. done.
Qed.

Lemma check_record_content_Ok i id a b :
  check_record_content i id a b = Ok () → is_deleted a = false → is_deleted b = false →
  eqb (row_content a) (row_content b) = true.
Proof.
  unfold check_record_content. destruct a as [a|a|a], b as [b|b|b]; try done; simpl; intros Hc Ha Hb;
    revert Hc; rewrite !unit_bind_Ok, !check_Ok; open_content; unfold settled_status; rewrite ?Ha, ?Hb; tauto.
Qed.

Lemma invert_restore_Ok i o w T inv w' T' :
  invert_restore i o w T = Ok (inv, w', T') →
  restore_target_id o = record_id (restore_record o) → is_deleted (restore_record o) = false →
  let key := record_key (restore_record o) in
  ∃ r, get_row w key = Some r ∧ record_key r = key ∧ is_deleted r = false ∧ (key ∉ T) ∧
       eqb (row_content r) (row_content (restore_record o)) = true ∧
       inv = OpDelete {| delete_target_id := record_id r; delete_hard := false; delete_preimage := r |} ∧
       w' = w ∧ T' = {[key]} ∪ T.
Proof.
  unfold invert_restore. rewrite res_bind_Ok. intros (r & Hr & Hk) Hid Hlive. simpl. exists r.
  apply current_record_Ok in Hr as [Hr Hkey]; [|done].
  apply check_then_Ok in Hk as [Hd Hk]. apply check_then_Ok in Hk as [Hc Hk].
  apply check_Ok, andb_true_iff in Hd as [Hd%negb_true_iff HT%negb_true_iff%bool_decide_eq_false].
  simplify_eq/=. assert (record_id r = restore_target_id o) as ->.
  { rewrite Hid. by destruct r, (restore_record o); injection Hkey. }
  split_and!; try done. by eapply check_record_content_Ok.
Qed.

Lemma invert_create_Ok i o w inv w' :
  invert_create i o w = Ok (inv, w') →
  ∃ r, get_row w (create_key o) = Some r ∧ record_key r = create_key o ∧ is_deleted r = false ∧
       eqb (row_content r) (row_content r) = true ∧
       inv = OpDelete {| delete_target_id := record_id r; delete_hard := false; delete_preimage := r |} ∧
       w' = remove_row (create_key o) w.
Proof.
  unfold invert_create, create_key. destruct (create_target o) as [f|f]; simpl; intros Hk.
  all: apply res_bind_Ok in Hk as ([p wk] & Hk & He); apply res_bind_Ok in Hk as (r & Hr & Hk); apply ok_or_Ok in Hr.
  all: rewrite !check_then_Ok, !check_Ok in Hk; split_all; simplify_eq/=.
  all: match goal with H : eqb (h_id _) _ = true |- _ => apply eqb_id in H; rewrite <-H in * end.
  - exists (RowEntity r). unfold get_row. simpl. rewrite Hr. split_and!; try done.
    + by apply negb_true_iff.
    + open_content. split_and!; try done; first [by eapply eqb_self | by apply bool_decide_eq_true].
  - exists (RowNote r). unfold get_row. simpl. rewrite Hr.
    match goal with H : negb (is_some (n_deleted_at r)) = true |- _ => apply negb_true_iff in H; rename H into Hd end.
    split_and!; try done. open_content. unfold settled_status. rewrite Hd.
    match goal with H : negb (is_some (n_expires_at r)) = true |- _ =>
      apply negb_true_iff, is_some_false in H; rewrite H end.
    split_and!; try done; first [by eapply eqb_self | by apply bool_decide_eq_true].
Qed.

Lemma invert_link_Ok i o w inv w' :
  invert_link i o w = Ok (inv, w') →
  let key := (2%N, link_id o) in
  ∃ r, get_row w key = Some r ∧ record_key r = key ∧ is_deleted r = false ∧
       eqb (row_content r) (row_content r) = true ∧
       inv = OpDelete {| delete_target_id := record_id r; delete_hard := false; delete_preimage := r |} ∧
       w' = remove_row key w.
Proof.
  unfold invert_link. rewrite res_bind_Ok. intros (r & Hr & Hk). apply ok_or_Ok in Hr.
  rewrite !check_then_Ok, !check_Ok in Hk. split_all. simplify_eq/=.
  match goal with H : eqb (l_id _) _ = true |- _ => apply eqb_id in H; rewrite <-H in * end.
  exists (RowEdge r). unfold get_row. simpl. rewrite Hr. split_and!; try done.
  - by apply negb_true_iff.
  - open_content. split_and!; try done; first [by eapply eqb_self | by apply bool_decide_eq_true].
Qed.

(** The swapped update of [swapped_update]. *)
Definition swap_update (u : UpdateOp) : UpdateOp :=
  {| update_target_id := update_target_id u; update_patch := swap_to_patch (update_preimage u);
     update_preimage := swap_to_preimage (update_patch u) |}.

Lemma swapped_update_Ok i u u' :
  swapped_update i u = Ok u' ↔
  u' = swap_update u ∧
  validate_update_congruence (swap_to_patch (update_preimage u)) (swap_to_preimage (update_patch u)) = Ok ().
Proof.
  unfold swapped_update, UpdateOp_new. destruct (validate_update_congruence _ _) as [[]|]; simpl; naive_solver.
Qed.

(** The touched fields of the patch and of the preimage are the same. *)
Definition congruent (u : UpdateOp) : Prop :=
  match update_patch u, update_preimage u with
  | PatchEntity p, PreEntity q =>
      is_some (ep_name p) = is_some (epre_name q) ∧
      is_some (ep_description p) = is_some (epre_description q) ∧
      is_some (ep_properties p) = is_some (epre_properties q) ∧
      is_some (ep_tags p) = is_some (epre_tags q) ∧
      is_some (ep_entity_type p) = is_some (epre_entity_type q)
  | PatchNote p, PreNote q =>
      is_some (np_content p) = is_some (npre_content q) ∧
      is_some (np_salience p) = is_some (npre_salience q) ∧
      is_some (np_decay_factor p) = is_some (npre_decay_factor q) ∧
      is_some (np_properties p) = is_some (npre_properties q) ∧
      is_some (np_tags p) = is_some (npre_tags q)
  | PatchEdge p, PreEdge q =>
      is_some (dp_relation p) = is_some (dpre_relation q) ∧
      is_some (dp_weight p) = is_some (dpre_weight q)
  | _, _ => False
  end.

Lemma swapped_congruent u :
  validate_update_congruence (swap_to_patch (update_preimage u)) (swap_to_preimage (update_patch u)) = Ok () →
  congruent u.
Proof.
  unfold congruent, validate_update_congruence. destruct (update_patch u), (update_preimage u); try done; simpl;
    rewrite !unit_bind_Ok, !check_touched_Ok; naive_solver.
Qed.

Lemma invert_update_Ok i u w inv w' :
  invert_update i u w = Ok (inv, w') →
  ∃ r r', get_row w (update_key u) = Some r ∧ record_key r = update_key u ∧
    inv = OpUpdate (swap_update u) ∧ congruent u ∧ check_update (swap_update u) r = Ok () ∧
    patch_row (swap_to_patch (update_preimage u)) r = Some r' ∧ w' = rewind_record r' w.
Proof.
  unfold invert_update, update_key.
  destruct (update_patch u) as [p|p|p] eqn:Ep, (update_preimage u) as [q|q|q] eqn:Eq;
    try (rewrite res_bind_Ok; intros (x & [_ Hx%swapped_congruent]%swapped_update_Ok & _);
         unfold congruent in Hx; rewrite Ep, Eq in Hx; done).
  all: rewrite res_bind_Ok; intros (r & Hr & Hk); apply ok_or_Ok in Hr;
    rewrite !check_then_Ok, check_Ok, res_bind_Ok in Hk; split_all.
  all: match goal with H : ∃ _, _ |- _ => destruct H as (x & [-> Hc%swapped_congruent]%swapped_update_Ok & Hx) end;
    injection Hx as <- <-.
  all: match goal with H : eqb _ (update_target_id _) = true |- _ => apply eqb_id in H; rename H into Hid end.
  1: exists (RowEntity r), (RowEntity (rewind_entity r q)).
  2: exists (RowNote r), (RowNote (rewind_note r q)).
  3: exists (RowEdge r), (RowEdge (rewind_edge r q)).
  all: unfold get_row, check_update, swap_update; simpl; rewrite Hr, Ep, Hid; split_and!; try done.
  4: by rewrite <-Hid.
  all: cbn [swap_to_preimage]; rewrite !unit_bind_Ok, equal_Ok, eqb_id; split_and!; try done;
    by eapply check_field_touched.
Qed.

(** The captured values put back. *)
Lemma patch_undo u r r1 r2 :
  congruent u → check_update u r = Ok () → patch_row (update_patch u) r = Some r1 →
  patch_row (swap_to_patch (update_preimage u)) r1 = Some r2 → same r2 r.
Proof.
  unfold check_update, congruent.
  destruct (update_patch u) as [p|p|p], (update_preimage u) as [q|q|q], r as [r|r|r]; try done.
  all: rewrite !unit_bind_Ok; intros Hc Ht [= <-] [= <-]; split_all.
  all: same_fields; split_and!; try done; eapply canon_undo; eassumption.
Qed.

(** ** The two walks *)

(** The working copy of the inversion against the state of the forward walk: a
    record the inversion has undeleted only in its bookkeeping is [dead]. *)
Definition track_row (dead : bool) (w s : option DeletePreimage) : Prop :=
  match w, s with
  | Some a, Some b => same a b ∧ is_deleted b = is_deleted a || dead
  | None, None => True
  | _, _ => False
  end.
Definition tracks (w : CurrentState) (T : tombstones) (s : CurrentState) : Prop :=
  ∀ key, track_row (bool_decide (key ∈ T)) (get_row w key) (get_row s key).

(** A reverted state against the original one: the records of the original are
    there with their contents, live or deleted as they were; the others are
    deleted. *)
Definition restored_row (s a : option DeletePreimage) : Prop :=
  match s, a with
  | Some b, Some a => same a b ∧ is_deleted a = is_deleted b
  | None, Some a => is_deleted a = true
  | None, None => True
  | Some _, None => False
  end.
Definition restored (s a : CurrentState) : Prop := ∀ key, restored_row (get_row s key) (get_row a key).

(** Two states that differ at most under one key. *)
Definition agree_off (key : RecordKey) (s s' : CurrentState) : Prop :=
  ∀ key', key' ≠ key → get_row s key' = get_row s' key'.

Lemma agree_rewind r s : agree_off (record_key r) s (rewind_record r s).
Proof. intros key Hk. rewrite get_rewind. by case_decide. Qed.
Lemma agree_remove key s : agree_off key s (remove_row key s).
Proof. intros key' Hk. rewrite get_remove. by case_decide. Qed.
Lemma agree_refl key s : agree_off key s s.
Proof. by intros key' Hk. Qed.

Lemma tracks_step key w w' T T' s s' :
  agree_off key w w' → agree_off key s s' → (∀ k, k ≠ key → k ∈ T' ↔ k ∈ T) → tracks w T s' →
  track_row (bool_decide (key ∈ T')) (get_row w' key) (get_row s key) → tracks w' T' s.
Proof.
  intros Hw Hs HT Ht Hk key'. destruct (decide (key' = key)) as [->|Hne]; [done|].
  rewrite <-(Hw _ Hne), (Hs _ Hne), (bool_decide_ext _ _ (HT _ Hne)). apply Ht.
Qed.

Lemma restored_step key s s' a a' :
  agree_off key s s' → agree_off key a a' → restored s' a →
  restored_row (get_row s key) (get_row a' key) → restored s a'.
Proof.
  intros Hs Ha Hr Hk key'. destruct (decide (key' = key)) as [->|Hne]; [done|].
  rewrite <-(Ha _ Hne), (Hs _ Hne). apply Hr.
Qed.

Lemma get_rewind_eq r s : get_row (rewind_record r s) (record_key r) = Some r.
Proof. rewrite get_rewind. by case_decide. Qed.
Lemma get_rewind_at r s key : record_key r = key → get_row (rewind_record r s) key = Some r.
Proof. intros <-. apply get_rewind_eq. Qed.
Lemma get_remove_eq key s : get_row (remove_row key s) key = None.
Proof. rewrite get_remove. by case_decide. Qed.

(** What one operation and its inverse do to the two walks. *)
Definition undone (s a' : CurrentState) (inv : Op) (w' : CurrentState) (T' : tombstones) : Prop :=
  tracks w' T' s ∧ state_wf w' ∧
  ∀ now, ∃ a, land_op now inv a' = Some a ∧ restored s a ∧ state_wf a.

Lemma same_eqb r b : same r b → eqb (row_content r) (row_content r) = true →
  eqb (row_content r) (row_content b) = true.
Proof. intros Hs Hr. by apply (eqb_resp (row_content r) (row_content r) (row_content r)). Qed.

Lemma eqb_same a b : eqb (row_content a) (row_content b) = true → same a b.
Proof. apply canon_of_eqb. Qed.

Lemma same_active a b : record_key a = record_key b → same a b →
  is_deleted a = false → is_deleted b = false → active a → active b.
Proof.
  destruct a as [|n|], b as [|n'|]; simpl; try done. intros _ Hs Ha Hb. apply same_note in Hs.
  unfold settled_status in Hs. rewrite Ha, Hb in Hs. destruct Hs as (_ & Hst & _).
  simpl in Hst. by rewrite Hst.
Qed.

Definition soft_delete (r : DeletePreimage) : Op :=
  OpDelete {| delete_target_id := record_id r; delete_hard := false; delete_preimage := r |}.

Lemma key_id a b : record_key a = record_key b → record_id a = record_id b.
Proof. destruct a, b; simpl; congruence. Qed.

Lemma land_delete now r b a :
  get_row a (record_key r) = Some b → record_key b = record_key r → is_deleted r = false →
  is_deleted b = false → eqb (row_content r) (row_content b) = true →
  land_op now (soft_delete r) a = Some (rewind_record (tombstone now b) a).
Proof.
  intros Hg Hk Hr Hb He. simpl. rewrite Hg. simpl. rewrite Hb. simpl.
  assert (check_delete {| delete_target_id := record_id r; delete_hard := false; delete_preimage := r |} b = Ok ()) as ->.
  { apply check_delete_Ok; [done|]. simpl. split_and!; try done. by apply key_id. }
  done.
Qed.

(** The row of a live record in the three states. *)
Lemma rows_at key w T s a' b :
  tracks w T s → restored s a' → get_row s key = Some b →
  ∃ r d, get_row w key = Some r ∧ get_row a' key = Some d ∧ same r b ∧ same d b ∧
         is_deleted d = is_deleted b ∧ is_deleted b = is_deleted r || bool_decide (key ∈ T).
Proof.
  intros Ht Hr Hb. specialize (Ht key). specialize (Hr key). rewrite Hb in Ht, Hr.
  destruct (get_row w key) as [r|]; [|done]. destruct (get_row a' key) as [d|]; [|done].
  destruct Ht, Hr. by exists r, d.
Qed.

(** The soft deletion of the working record [r] in a reverted state: the common
    part of the inverses of creations, links and restorations. *)
Lemma undo_delete now key w T s a' r b :
  tracks w T s → restored s a' → state_wf a' → get_row s key = Some b → is_deleted b = false →
  active b → record_key b = key → get_row w key = Some r → record_key r = key → is_deleted r = false →
  eqb (row_content r) (row_content r) = true →
  ∃ d, land_op now (soft_delete r) a' = Some (rewind_record d a') ∧ record_key d = key ∧
       is_deleted d = true ∧ same d b.
Proof.
  intros Ht Hr Hwf Hb Hlive Hact Hkb Hw Hkr Hdr Hself.
  destruct (rows_at _ _ _ _ _ _ Ht Hr Hb) as (r' & d & Hr' & Hd & Hrb & Hdb & Hdd & _). simplify_eq.
  assert (record_key d = record_key b) as Hkd by (by eapply Hwf).
  exists (tombstone now d). rewrite tombstone_key, tombstone_deleted. split_and!; try done.
  - apply land_delete; try congruence. apply same_eqb; [|done]. unfold same in *. congruence.
  - unfold same in *. rewrite <-Hdb. f_equal. apply tombstone_content; [congruence|].
    eapply (same_active b); try done; congruence.
Qed.

Lemma undo_insert key c r s w T a' :
  get_row s key = None → record_key c = key → is_deleted c = false → active c →
  tracks w T (rewind_record c s) → restored (rewind_record c s) a' → state_wf w → state_wf a' →
  get_row w key = Some r → record_key r = key → is_deleted r = false →
  eqb (row_content r) (row_content r) = true →
  undone s a' (soft_delete r) (remove_row key w) T.
Proof.
  intros Hs <- Hlive Hact Ht Hr Hw Ha Hg Hk Hd Hself. split_and!.
  - eapply (tracks_step (record_key c)); [apply agree_remove|apply agree_rewind|done|done|].
    by rewrite get_remove_eq, Hs.
  - by apply remove_wf.
  - intros now. edestruct (undo_delete now (record_key c)) as (d & Hl & Hkd & Hdd & _);
      [done..|apply get_rewind_eq| | |done|done|done|done|done|]; try done.
    eexists. split; [done|]. split; [|by apply rewind_wf].
    eapply (restored_step (record_key c)); [apply agree_rewind|rewrite <-Hkd; apply agree_rewind|done|].
    by rewrite Hs, (get_rewind_at _ _ _ Hkd).
Qed.

(** ** Each operation is undone *)

Lemma insert_new_Some c s s' : insert_new c s = Some s' → get_row s (record_key c) = None ∧ s' = rewind_record c s.
Proof. unfold insert_new. destruct (get_row s _); naive_solver. Qed.

Lemma land_delete_Some now s s' o :
  delete_hard o = false → land_op now (OpDelete o) s = Some s' →
  let prior := delete_preimage o in
  ∃ b, get_row s (record_key prior) = Some b ∧ record_key b = record_key prior ∧ is_deleted b = false ∧
       eqb (row_content prior) (row_content b) = true ∧ s' = rewind_record (tombstone now b) s.
Proof.
  simpl. intros -> (b & Hg & Hb)%bind_Some. exists b.
  destruct (is_deleted b) eqn:Hd; [done|]. destruct (check_delete o b) as [[]|] eqn:Hc; [|done]. simplify_eq/=.
  apply check_delete_Ok in Hc as (_ & ? & _ & ?); [|done]. done.
Qed.

Lemma land_restore_Some now s s' o :
  land_op now (OpRestore o) s = Some s' →
  let record := restore_record o in
  ∃ b, get_row s (record_key record) = Some b ∧ record_key b = record_key record ∧ is_deleted b = true ∧
       restore_target_id o = record_id record ∧ is_deleted record = false ∧ s' = rewind_record (revive now b) s.
Proof.
  simpl. intros (b & Hg & Hb)%bind_Some. exists b.
  destruct (is_deleted b) eqn:Hd; [|done]. simpl in Hb.
  destruct (check_delete _ _) as [[]|] eqn:Hc in Hb; [|done]. simplify_eq/=.
  apply check_delete_Ok in Hc as (Hid & Hk & ? & _); [|by rewrite revive_deleted]. simpl in *.
  rewrite Hid. split_and!; try done.
  - by rewrite Hk, revive_key.
  - by apply key_id.
Qed.

Lemma land_update_Some now s s' o :
  state_wf s →
  land_op now (OpUpdate o) s = Some s' →
  ∃ b b', get_row s (update_key o) = Some b ∧ record_key b = update_key o ∧ is_deleted b = false ∧
    check_update o b = Ok () ∧ patch_row (update_patch o) b = Some b' ∧ s' = rewind_record (stamp now b') s.
Proof.
  simpl. intros Hws (b & Hg & Hb)%bind_Some. exists b.
  destruct (is_deleted b) eqn:Hd; [done|]. destruct (check_update o b) as [[]|] eqn:Hc; [|done].
  simpl in Hb. apply bind_Some in Hb as (b' & Hp & [= <-]). exists b'. split_and!; try done. by apply Hws.
Qed.

Section undo.
Variables (now : Timestamp) (i : nat) (s s' w a' : CurrentState) (T : tombstones).
Hypothesis Ht : tracks w T s'.
Hypothesis Hr : restored s' a'.
Hypothesis Hws : state_wf s.
Hypothesis Hww : state_wf w.
Hypothesis Hwa : state_wf a'.

Lemma undo_create o inv w' :
  land_op now (OpCreate o) s = Some s' → invert_create i o w = Ok (inv, w') → undone s a' inv w' T.
Proof.
  intros (Hs & ->)%insert_new_Some (r & Hg & Hk & Hd & Hself & -> & ->)%invert_create_Ok.
  assert (record_key (created_row now o) = create_key o) as Hc
    by (unfold created_row, create_key; by destruct (create_target o)).
  rewrite Hc in Hs. apply (undo_insert _ (created_row now o)); try done;
    unfold created_row; by destruct (create_target o).
Qed.

Lemma undo_link o inv w' :
  land_op now (OpLink o) s = Some s' → invert_link i o w = Ok (inv, w') → undone s a' inv w' T.
Proof.
  intros (Hs & ->)%insert_new_Some (r & Hg & Hk & Hd & Hself & -> & ->)%invert_link_Ok.
  by apply (undo_insert _ (linked_row now o)).
Qed.

Lemma undo_soft_delete o inv w' T' :
  delete_hard o = false → land_op now (OpDelete o) s = Some s' →
  invert_delete i o w T = Ok (inv, w', T') → undone s a' inv w' T'.
Proof.
  intros Hh (b & Hg & Hkb & Hdb & He & ->)%land_delete_Some; [|done].
  intros (-> & Hd & Hact & -> & ->)%invert_delete_Ok. set (prior := delete_preimage o) in *.
  assert (same prior b) as Hs by (by apply eqb_same).
  split_and!.
  - eapply (tracks_step (record_key prior)); [apply agree_rewind| | |done|].
    + rewrite <-Hkb, <-(tombstone_key now b). apply agree_rewind.
    + intros k Hk. set_solver.
    + rewrite get_rewind_eq, Hg, bool_decide_eq_false_2 by set_solver. simpl. by rewrite Hd, Hdb.
  - by apply rewind_wf.
  - intros now'. destruct (rows_at (record_key prior) _ _ _ _ (tombstone now b) Ht Hr) as (r & d & _ & Hgd & _ & Hsd & Hdd & _).
    { apply get_rewind_at. by rewrite tombstone_key. }
    rewrite tombstone_deleted in Hdd. assert (record_key d = record_key prior) as Hkd by (by eapply Hwa).
    assert (active b) as Hab by (by apply (same_active prior)).
    assert (same d b) as Hdb' by (unfold same in *; by rewrite Hsd, tombstone_content).
    assert (same prior d) as Hpd by (unfold same in *; congruence).
    exists (rewind_record (revive now' d) a'). split_and!.
    + simpl. rewrite Hgd. simpl. rewrite Hdd. simpl.
      assert (∀ o', delete_target_id o' = record_id prior → delete_preimage o' = prior →
                check_delete o' (revive now' d) = Ok ()) as Hcd.
      { intros o' Ho1 Ho2. apply check_delete_Ok; [by rewrite revive_deleted|]. rewrite Ho1, Ho2, revive_key, revive_content by done.
        split_and!; try done. { apply key_id. by rewrite revive_key. }
        by apply (eqb_resp (row_content prior) (row_content prior) (row_content b)); [|unfold same in *; congruence|]. }
      by rewrite Hcd.
    + eapply (restored_step (record_key prior)); [| |done|].
      * rewrite <-Hkb, <-(tombstone_key now b). apply agree_rewind.
      * rewrite <-Hkd, <-(revive_key now' d). apply agree_rewind.
      * rewrite Hg, get_rewind_at by (by rewrite revive_key). simpl. rewrite revive_deleted, Hdb.
        split; [|done]. unfold same in *. by rewrite revive_content.
    + by apply rewind_wf.
Qed.

Lemma undo_restore o inv w' T' :
  land_op now (OpRestore o) s = Some s' → invert_restore i o w T = Ok (inv, w', T') → undone s a' inv w' T'.
Proof.
  intros (b & Hg & Hkb & Hdb & Hid & Hlive & ->)%land_restore_Some Hi.
  apply invert_restore_Ok in Hi as (r & Hgr & Hkr & Hdr & HT & He & -> & -> & ->); [|done..].
  set (key := record_key (restore_record o)) in *.
  assert (get_row (rewind_record (revive now b) s) key = Some (revive now b)) as Hg'
    by (apply get_rewind_at; by rewrite revive_key).
  assert (same (revive now b) b) as Hs by (unfold same; by rewrite revive_content).
  split_and!.
  - eapply (tracks_step key); [apply agree_refl| | |done|].
    + rewrite <-Hkb, <-(revive_key now b). apply agree_rewind.
    + intros k Hk. set_solver.
    + rewrite Hgr, Hg, bool_decide_eq_true_2 by set_solver. simpl. rewrite orb_true_r. split; [|done].
      destruct (rows_at _ _ _ _ _ _ Ht Hr Hg') as (? & ? & ? & _ & Hrb & _). simplify_eq.
      unfold same in *. congruence.
  - done.
  - intros now'. edestruct (undo_delete now' key) as (d & Hl & Hkd & Hdd & Hsd);
      [done|done|done|exact Hg'|by rewrite revive_deleted|by destruct b|by rewrite revive_key|done|done|done|by eapply eqb_self|].
    exists (rewind_record d a'). split_and!; [done| |by apply rewind_wf].
    eapply (restored_step key); [| |done|].
    + rewrite <-Hkb, <-(revive_key now b). apply agree_rewind.
    + rewrite <-Hkd. apply agree_rewind.
    + rewrite Hg, get_rewind_at by done. simpl. split; [|congruence]. unfold same in *. congruence.
Qed.
Lemma update_key_swap o : congruent o → update_key (swap_update o) = update_key o.
Proof. unfold congruent, update_key, swap_update. by destruct (update_patch o), (update_preimage o). Qed.

Lemma undo_update o inv w' :
  land_op now (OpUpdate o) s = Some s' → invert_update i o w = Ok (inv, w') → undone s a' inv w' T.
Proof.
  intros (b & b' & Hg & Hkb & Hdb & Hcb & Hpb & ->)%land_update_Some; [|done].
  intros (r & r' & Hgr & Hkr & -> & Hcong & Hcr & Hpr & ->)%invert_update_Ok. set (key := update_key o) in *.
  assert (record_key (stamp now b') = key) as Hkb' by (by rewrite stamp_key, (patch_key _ _ _ Hpb)).
  assert (is_deleted (stamp now b') = false) as Hdb' by (by rewrite stamp_deleted, (patch_deleted _ _ _ Hpb)).
  assert (record_key r' = key) as Hkr' by (by rewrite (patch_key _ _ _ Hpr)).
  destruct (rows_at key _ _ _ _ _ Ht Hr (get_rewind_at _ _ _ Hkb'))
    as (r0 & d & Hr0 & Hgd & Hrb & Hdbs & Hdd & HT). rewrite Hgr in Hr0. injection Hr0 as <-.
  assert (record_key d = key) as Hkd by (by apply Hwa).
  assert (∀ x x', same x (stamp now b') → record_key x = key →
            patch_row (swap_to_patch (update_preimage o)) x = Some x' → same x' b) as Hundo.
  { intros x x' Hx Hkx Hpx.
    destruct (patch_resp (swap_to_patch (update_preimage o)) x b' x') as (b2 & Hp2 & Hs2); [|..|done|].
    { by rewrite Hkx, <-Hkb', stamp_key. }
    { unfold same in *. by rewrite Hx, stamp_content. }
    pose proof (patch_undo _ _ _ _ Hcong Hcb Hpb Hp2). unfold same in *. congruence. }
  assert (same r d) as Hrd by (unfold same in *; congruence).
  split_and!.
  - eapply (tracks_step key); [rewrite <-Hkr'; apply agree_rewind|rewrite <-Hkb'; apply agree_rewind|done|done|].
    rewrite get_rewind_at, Hg by done. split; [by apply (Hundo r)|].
    rewrite (patch_deleted _ _ _ Hpr). congruence.
  - by apply rewind_wf.
  - intros now'. destruct (patch_resp _ r d r' ltac:(congruence) Hrd Hpr) as (d' & Hpd & _).
    assert (record_key (stamp now' d') = key) as Hkd' by (by rewrite stamp_key, (patch_key _ _ _ Hpd)).
    exists (rewind_record (stamp now' d') a'). split_and!; [| |by apply rewind_wf].
    + cbn [land_op]. rewrite update_key_swap by done. fold key. rewrite Hgd. cbn. rewrite Hdd, Hdb'. cbn.
      assert (check_update (swap_update o) d = Ok ()) as Hcd
        by (apply (check_update_resp _ r); [congruence|done|done]).
      cbn [swap_update] in Hcd. rewrite Hcd. cbn. by rewrite Hpd.
    + eapply (restored_step key); [rewrite <-Hkb'; apply agree_rewind|rewrite <-Hkd'; apply agree_rewind|done|].
      rewrite Hg, get_rewind_at by done. simpl. rewrite stamp_deleted. split.
      * unfold same in *. rewrite stamp_content. by apply (Hundo d).
      * rewrite (patch_deleted _ _ _ Hpd). congruence.
Qed.

Lemma undo_op op inv w' T' :
  land_op now op s = Some s' → invert_op i op w T = Ok (inv, w', T') → undone s a' inv w' T'.
Proof.
  destruct op as [o|o|o|o|o|o]; cbn [invert_op]; intros Hl Hi.
  - apply check_then_Ok in Hi as [_ Hi]. apply res_bind_Ok in Hi as ([op x] & Hi & [= <- <- <-]). by eapply undo_create.
  - apply check_then_Ok in Hi as [_ Hi]. apply res_bind_Ok in Hi as ([op x] & Hi & [= <- <- <-]). by eapply undo_link.
  - apply res_bind_Ok in Hi as ([op x] & Hi & [= <- <- <-]). by eapply undo_update.
  - destruct (delete_hard o) eqn:Hh; [done|]. by eapply undo_soft_delete.
  - by eapply undo_restore.
  - done.
Qed.
End undo.

(** ** The whole walk *)

Lemma land_op_wf now op s s' : state_wf s → land_op now op s = Some s' → state_wf s'.
Proof.
  intros Hs. destruct op as [o|o|o|o|o|o]; simpl; try done.
  - intros [_ ->]%insert_new_Some. by apply rewind_wf.
  - intros [_ ->]%insert_new_Some. by apply rewind_wf.
  - intros (b & _ & Hb)%bind_Some. case_match; [|done]. apply bind_Some in Hb as (b' & _ & [= <-]). by apply rewind_wf.
  - intros (b & _ & Hb)%bind_Some. repeat case_match; simplify_eq; [by apply remove_wf|by apply rewind_wf].
  - intros (b & _ & Hb)%bind_Some. repeat case_match; simplify_eq. by apply rewind_wf.
Qed.

Lemma tracks_refl s : tracks s ∅ s.
Proof.
  intros key. destruct (get_row s key) as [r|]; [|done]. simpl. split; [done|].
  by rewrite bool_decide_eq_false_2, orb_false_r by set_solver.
Qed.
Lemma restored_refl s : restored s s.
Proof. intros key. by destruct (get_row s key). Qed.

Lemma land_app l1 l2 s : land (l1 ++ l2) s = land l1 s ≫= land l2.
Proof.
  revert s. induction l1 as [|[now op] l1 IH]; intros s; [done|]. simpl.
  destruct (land_op now op s); [apply IH|done].
Qed.

Lemma land_wf l s s' : state_wf s → land l s = Some s' → state_wf s'.
Proof.
  revert s. induction l as [|[now op] l IH]; intros s Hs; [by intros [= <-]|].
  intros (x & Hx & Hl)%bind_Some. eapply IH, Hl. by eapply land_op_wf.
Qed.

Lemma invert_loop_undoes s l timed s' w T a' inv times :
  state_wf s → timed.*2 = l.*2 → land timed s = Some s' → tracks w T s' → restored s' a' →
  state_wf w → state_wf a' → invert_loop (rev l) w T = Ok inv → length times = length inv →
  ∃ a, land (zip times inv) a' = Some a ∧ restored s a.
Proof.
  intros Hs. revert timed s' w T a' inv times.
  induction l as [|[i op] l IH] using rev_ind; intros timed s' w T a' inv times Htimed Hl Ht Hr Hw Ha Hi Hlen.
  { apply fmap_nil_inv in Htimed as ->. simplify_eq/=. exists a'. by rewrite zip_with_nil_r. }
  rewrite fmap_app in Htimed. apply fmap_app_inv in Htimed as (timed0 & last & Htimed & Hlast & ->).
  destruct last as [|[now op2] [|]]; simplify_eq/=. rewrite land_app in Hl.
  apply bind_Some in Hl as (sk & Hl & Hop). simpl in Hop. apply bind_Some in Hop as (x & Hop & [= ->]).
  rewrite rev_app_distr in Hi. simpl in Hi. apply res_bind_Ok in Hi as ([[o w'] T'] & Hi & Hrest).
  apply res_bind_Ok in Hrest as (rest & Hrest & [= <-]). destruct times as [|t times]; [done|].
  destruct (undo_op now i sk s' w a' T Ht Hr (land_wf _ _ _ Hs Hl) Hw Ha _ o w' T' Hop Hi) as (Ht' & Hw' & Hu).
  destruct (Hu t) as (a & Hla & Hra & Hwa). destruct (IH timed0 sk w' T' a rest times) as (a2 & Hl2 & Hr2); try done.
  { simpl in Hlen. lia. }
  exists a2. simpl. by rewrite Hla.
Qed.

Lemma enumerate_snd {A} (l : list A) : (enumerate l).*2 = l.
Proof. apply snd_zip. by rewrite length_seq. Qed.

Lemma ChangeSet_invert_Ok cs env cur inv :
  ChangeSet_invert cs env cur = Ok inv →
  env ≠ cs_envelope cs ∧ cs_envelope inv = env ∧
  invert_loop (rev (enumerate (cs_ops cs))) cur ∅ = Ok (cs_ops inv).
Proof.
  unfold ChangeSet_invert. case_bool_decide; [done|]. rewrite res_bind_Ok. intros (ops & ? & [= <-]). done.
Qed.

(** C4: C0. The inverse of a change-set, computed on the records it left behind,
    lands on them (each operation's captured preimage matches, whatever the times
    are) and brings back the records there were: every record has its former
    contents and is live or deleted as it was, and the records the change-set
    had created are deleted. *)
Theorem invert_undoes timed s0 s1 cs env inv times :
  state_wf s0 → land timed s0 = Some s1 → timed.*2 = cs_ops cs →
  ChangeSet_invert cs env s1 = Ok inv → length times = length (cs_ops inv) →
  ∃ s2, land (zip times (cs_ops inv)) s1 = Some s2 ∧ restored s0 s2.
Proof.
  intros Hs Hl Ho (_ & _ & Hi)%ChangeSet_invert_Ok Hlen. pose proof (land_wf _ _ _ Hs Hl).
  eapply (invert_loop_undoes s0 (enumerate (cs_ops cs)) timed); try done.
  - by rewrite enumerate_snd.
  - apply tracks_refl.
  - apply restored_refl.
Qed.
