(* ===== verification/Reinvert.v ===== *)
(** Inverting the inverse of a list of updates gives the updates back. *)

From Stdlib Require Import NArith ZArith QArith Ascii String.
From stdpp Require Import base tactics list numbers strings gmap.
From S2P Require Import Prelude RustStr Float EdgeOntology Ident Records ChangeOps InvertFacts InvertProof.

Lemma swap_swap u : swap_update (swap_update u) = u.
Proof.
  destruct u as [t p q]; unfold swap_update; simpl. f_equal; [by destruct p as [[]|[]|[]]|by destruct q as [[]|[]|[]]].
Qed.

(** A patched row holds the values of the patch. *)
Lemma patched_matches u x b b' :
  check_update (swap_update u) x = Ok () → record_key b = update_key u → congruent u →
  patch_row (update_patch u) b = Some b' → check_update (swap_update u) b' = Ok ().
Proof.
  unfold check_update, swap_update, congruent, update_key. cbn [update_preimage update_target_id].
  destruct (update_patch u) as [p|p|p], (update_preimage u) as [q|q|q], b as [b|b|b], x as [x|x|x]; try done.
  all: cbn [swap_to_preimage]; rewrite !unit_bind_Ok, !equal_Ok, !eqb_id; intros Hx [= Hk] _ [= <-]; split_all.
  all: rewrite !unit_bind_Ok, equal_Ok, eqb_id; split_and!; try done; by eapply touched_value.
Qed.

(** A working record that holds the values of the patch passes the checks. *)
Lemma invert_update_runs i u w r :
  get_row w (update_key u) = Some r → check_update (swap_update u) r = Ok () →
  UpdateOp_new (update_target_id u) (swap_to_patch (update_preimage u)) (swap_to_preimage (update_patch u)) =
    Ok (swap_update u) →
  ∃ w', invert_update i u w = Ok (OpUpdate (swap_update u), w').
Proof.
  unfold invert_update, update_key, get_row, check_update. intros Hg Hc Hn.
  assert (swapped_update i u = Ok (swap_update u)) as Hs by (unfold swapped_update; by rewrite Hn).
  destruct (update_patch u) as [p|p|p] eqn:Ep, (update_preimage u) as [q|q|q] eqn:Eq; try done.
  all: simpl in Hg; apply fmap_Some in Hg as (x & Hx & ->); rewrite Hx.
  all: cbn [swap_update update_preimage] in Hc; rewrite Ep in Hc; cbn [swap_to_preimage] in Hc.
  all: rewrite !unit_bind_Ok, equal_Ok, eqb_id in Hc; cbn [swap_update update_target_id] in Hc; split_all.
  all: match goal with H : update_target_id _ = _ |- _ => rename H into Hid end.
  all: eexists; cbn; rewrite <-Hid, (proj2 (check_Ok _ _ _ _) (proj2 (eqb_id _ _) eq_refl)).
  all: repeat (erewrite touched_check_field by eassumption; cbn); rewrite Hs; reflexivity.
Qed.

(** An update whose inverse is an update that can land on some record. *)
Definition reversible (u : UpdateOp) : Prop :=
  (∃ x, check_update (swap_update u) x = Ok ()) ∧
  UpdateOp_new (update_target_id u) (swap_to_patch (update_preimage u)) (swap_to_preimage (update_patch u)) =
    Ok (swap_update u).

Lemma reversible_congruent u : reversible u → congruent u.
Proof.
  intros [_ Hn]. apply swapped_congruent. unfold UpdateOp_new in Hn.
  by apply check_then_Ok in Hn as [Hn _].
Qed.

Lemma invert_landed_update now i u s s' w :
  state_wf s → state_wf w → tracks w ∅ s' → land_op now (OpUpdate u) s = Some s' → reversible u →
  ∃ w', invert_op i (OpUpdate u) w ∅ = Ok (OpUpdate (swap_update u), w', ∅) ∧ tracks w' ∅ s ∧ state_wf w'.
Proof.
  intros Hs Hw Ht Hl Hrev. pose proof (reversible_congruent _ Hrev) as Hcong. destruct Hrev as [[x Hx] Hn].
  pose proof (land_op_wf _ _ _ _ Hs Hl) as Hs'.
  pose proof Hl as (b & b' & Hg & Hkb & _ & Hc & Hp & Hs'')%land_update_Some; [|done].
  assert (record_key (stamp now b') = update_key u) as Hk by (by rewrite stamp_key, (patch_key _ _ _ Hp)).
  destruct (rows_at (update_key u) w ∅ s' s' (stamp now b') Ht (restored_refl s')) as (r & _ & Hr & _ & Hsame & _).
  { rewrite Hs''. by apply get_rewind_at. }
  destruct (invert_update_runs i u w r) as (w' & Hi); [done| |done|].
  { apply (check_update_resp _ b').
    - rewrite (patch_key _ _ _ Hp), Hkb. symmetry. by apply Hw.
    - unfold same in *. by rewrite Hsame, stamp_content.
    - by apply (patched_matches u x b). }
  exists w'. destruct (undo_update now i s s' w s' ∅ Ht (restored_refl s') Hs Hw Hs' u _ w' Hl Hi) as (Ht' & Hw' & _).
  simpl. by rewrite Hi.
Qed.

Lemma invert_landed_updates l : ∀ timed us s s' w,
  timed.*2 = OpUpdate <$> us → l.*2 = timed.*2 → state_wf s → state_wf w → tracks w ∅ s' →
  land timed s = Some s' → Forall reversible us →
  invert_loop (rev l) w ∅ = Ok (OpUpdate ∘ swap_update <$> rev us).
Proof.
  induction l as [|[i op] l IH] using rev_ind; intros timed us s s' w Hus Hl Hs Hw Ht Hland Hrev.
  { simpl in Hl. rewrite Hus in Hl. symmetry in Hl. by apply fmap_nil_inv in Hl as ->. }
  rewrite fmap_app in Hl. symmetry in Hl. apply fmap_app_inv in Hl as (timed0 & last & Hl0 & Hlast & ->).
  destruct last as [|[now op2] [|]]; simplify_eq/=.
  rewrite fmap_app in Hus. symmetry in Hus. apply fmap_app_inv in Hus as (us0 & lastu & Hus0 & Hlast & ->).
  destruct lastu as [|u [|]]; simplify_eq/=. apply Forall_app in Hrev as [Hrev0 Hrev]. apply Forall_cons in Hrev as [Hrev _].
  rewrite land_app in Hland. apply bind_Some in Hland as (sk & Hland & Hop).
  apply bind_Some in Hop as (x & Hop & [= ->]).
  destruct (invert_landed_update now i u sk s' w) as (w' & Hi & Ht' & Hw'); try done; [by apply (land_wf timed0 s)|].
  rewrite !rev_app_distr. cbn [rev app invert_loop].
  rewrite Hi. cbn. by rewrite (IH timed0 us0 s sk w').
Qed.

(** The inverse of a list of updates. *)
Lemma invert_loop_updates l : ∀ us w ops,
  l.*2 = OpUpdate <$> us → invert_loop l w ∅ = Ok ops → ops = OpUpdate ∘ swap_update <$> us.
Proof.
  induction l as [|[i op] l IH]; intros us w ops Hl Hi.
  { symmetry in Hl. apply fmap_nil_inv in Hl as ->. by injection Hi as <-. }
  destruct us as [|u us]; simplify_eq/=. apply res_bind_Ok in Hi as ([[o w'] T'] & Hi & Hrest).
  apply res_bind_Ok in Hi as ([op x] & Hi & [= -> -> <-]). apply res_bind_Ok in Hrest as (rest & Hrest & [= <-]).
  apply invert_update_Ok in Hi as (_ & _ & _ & _ & -> & _). f_equal. by eapply IH.
Qed.

Lemma landed_update_checked timed : ∀ s s' u,
  land timed s = Some s' → OpUpdate u ∈ timed.*2 → ∃ x, check_update u x = Ok ().
Proof.
  induction timed as [|[now op] timed IH]; intros s s' u Hl Hu; [by apply not_elem_of_nil in Hu|].
  apply bind_Some in Hl as (x & Hx & Hl). apply elem_of_cons in Hu as [Hu|Hu]; [|by eapply IH]. simpl in Hu. subst op.
  apply bind_Some in Hx as (b & _ & Hb). exists b.
  destruct (is_deleted b), (check_update u b) as [[]|]; done.
Qed.

Lemma fmap_rev {A B} (f : A → B) l : f <$> rev l = rev (f <$> l).
Proof. apply map_rev. Qed.

Lemma snd_enumerate_rev {A} (l : list A) : (rev (enumerate l)).*2 = rev l.
Proof. rewrite <-(enumerate_snd l) at 2. apply (map_rev snd (enumerate l)). Qed.

(** C29: C0. A change-set of updates is recovered from its inverse: when the updates
    (built by their constructor) have landed, their inverse has landed on the
    result, and the inverse is inverted under the original envelope, the outcome
    is the original change-set. *)
Theorem reinvert_updates timed times us s0 s1 s2 cs env inv :
  state_wf s0 → cs_ops cs = OpUpdate <$> us → timed.*2 = cs_ops cs → land timed s0 = Some s1 →
  (∀ u, u ∈ us → UpdateOp_new (update_target_id u) (update_patch u) (update_preimage u) = Ok u) →
  ChangeSet_invert cs env s1 = Ok inv →
  length times = length (cs_ops inv) → land (zip times (cs_ops inv)) s1 = Some s2 →
  ChangeSet_invert inv (cs_envelope cs) s2 = Ok cs.
Proof.
  intros Hs Hus Htimed Hl Hnew (Henv & Henv' & Hi)%ChangeSet_invert_Ok Hlen Hl2.
  assert (cs_ops inv = OpUpdate <$> (swap_update <$> rev us)) as Hinv.
  { rewrite <-list_fmap_compose. apply (invert_loop_updates (rev (enumerate (cs_ops cs))) _ s1); [|done].
    by rewrite snd_enumerate_rev, Hus, fmap_rev. }
  unfold ChangeSet_invert. rewrite Henv', bool_decide_eq_false_2 by done.
  erewrite (invert_landed_updates (enumerate (cs_ops inv)) (zip times (cs_ops inv)) (swap_update <$> rev us) s1 s2 s2).
  - cbn. destruct cs as [e ops]. simpl in *. do 2 f_equal. rewrite Hus.
    rewrite <-fmap_rev, rev_involutive, <-list_fmap_compose. apply list_fmap_ext. intros i u _. simpl. by rewrite swap_swap.
  - by rewrite snd_zip by lia.
  - by rewrite enumerate_snd, snd_zip by lia.
  - by eapply land_wf.
  - eapply land_wf, Hl2. by eapply land_wf.
  - apply tracks_refl.
  - done.
  - apply Forall_fmap, Forall_forall. intros u Hu. apply list_elem_of_In, in_rev, list_elem_of_In in Hu. unfold reversible. simpl.
    rewrite swap_swap. split.
    + eapply landed_update_checked; [exact Hl|]. rewrite Htimed, Hus. by apply list_elem_of_fmap_2.
    + assert (update_patch u = swap_to_patch (swap_to_preimage (update_patch u))) as <- by (by destruct (update_patch u) as [[]|[]|[]]).
      assert (update_preimage u = swap_to_preimage (swap_to_patch (update_preimage u))) as <- by (by destruct (update_preimage u) as [[]|[]|[]]).
      by apply Hnew.
Qed.

(** ** A change-set and its inverse *)

Module InvertExample.
Definition at_ (n : N) : Timestamp := {| as_micros := n |}.
Definition ident (n : Z) : Id128 := from_u128 n.

Definition no_records : CurrentState := {| cur_entities := ∅; cur_notes := ∅; cur_edges := ∅ |}.
Lemma no_records_wf : state_wf no_records.
Proof. intros [k i] r. unfold get_row. simpl. by repeat (case_match; simpl; rewrite ?lookup_empty; try done). Qed.

Definition alpha (name : string) (updated : N) : Entity :=
  {| e_header := {| h_id := ident 1; h_namespace := "local"; h_created_at := at_ 1; h_updated_at := at_ updated |};
     e_kind := Concept; e_entity_type := None; e_name := name; e_description := Some "first"%string;
     e_properties := [("rank"%string, PInteger 3)]; e_tags := ["x"; "y"]%string; e_deleted_at := None |}.
Definition memo (updated : N) : Note :=
  {| n_header := {| h_id := ident 2; h_namespace := "local"; h_created_at := at_ 2; h_updated_at := at_ updated |};
     n_kind := "observation"; n_status := Active; n_content := "seen"; n_properties := []; n_tags := []; n_salience := Some fone; n_decay_factor := None;
     n_expires_at := None; n_deleted_at := None |}.
Definition before : CurrentState := rewind_record (RowEntity (alpha "Alpha" 1)) (rewind_record (RowNote (memo 2)) no_records).

Definition make_beta : CreateOp :=
  {| create_id := ident 3; create_namespace := "local";
     create_target := CreateEntity {| ec_entity_kind := Project; ec_entity_type := None; ec_name := "Beta";
                                      ec_description := None; ec_properties := []; ec_tags := [] |} |}.
Definition join : LinkOp :=
  {| link_id := ident 4; link_namespace := "local"; link_source := ident 3; link_target := ident 1;
     link_relation := DependsOn; link_weight := fone; link_properties := [] |}.
Definition rename (old new : string) (was is_ : option string) : UpdateOp :=
  {| update_target_id := ident 1;
     update_patch := PatchEntity {| ep_name := Some new; ep_description := Some is_; ep_properties := None;
                                    ep_tags := None; ep_entity_type := None |};
     update_preimage := PreEntity {| epre_name := Some old; epre_description := Some was;
                                     epre_properties := None; epre_tags := None; epre_entity_type := None |} |}.

Definition mixed : list (Timestamp * Op) :=
  [(at_ 10, OpCreate make_beta); (at_ 11, OpLink join); (at_ 12, OpUpdate (rename "Alpha" "Omega" (Some "first"%string) None));
   (at_ 13, soft_delete (RowNote (memo 2)));
   (at_ 14, OpRestore {| restore_target_id := ident 2; restore_record := RowNote (memo 2) |});
   (at_ 15, soft_delete (RowNote (memo 14)))].
Definition after (timed : list (Timestamp * Op)) (s : CurrentState) : CurrentState := default s (land timed s).
Definition env (producer : string) : Envelope := Envelope_new producer "family" (at_ 9).
Definition forward (timed : list (Timestamp * Op)) : ChangeSet := {| cs_envelope := env "a"; cs_ops := timed.*2 |}.
Definition inverse (timed : list (Timestamp * Op)) : ChangeSet :=
  match ChangeSet_invert (forward timed) (env "b") (after timed before) with Ok cs => cs | Err _ => forward [] end.

Example mixed_inverse_ops :
  List.length (cs_ops (inverse mixed)) = 6%nat ∧
  ChangeSet_invert (forward mixed) (env "a") (after mixed before) = Err ReusedEnvelope ∧
  ChangeSet_invert (forward mixed) (env "b") before = Err (Invalidated 5 (ident 2) "deleted_at").
Proof. vm_compute. done. Qed.
Lemma before_wf : state_wf before.
Proof. apply rewind_wf, rewind_wf, no_records_wf. Qed.

Lemma invert_undoes_witness :
  let inv := inverse mixed in
  ∃ s2, land (zip (at_ <$> [20; 21; 22; 23; 24; 25]%N) (cs_ops inv)) (after mixed before) = Some s2 ∧
        restored before s2.
Proof.
  apply (invert_undoes mixed before (after mixed before) (forward mixed) (env "b") (inverse mixed)
           (at_ <$> [20; 21; 22; 23; 24; 25]%N)).
  - exact before_wf.
  - vm_compute. reflexivity.
  - reflexivity.
  - vm_compute. reflexivity.
  - vm_compute. reflexivity.
Defined.

Definition renames : list UpdateOp := 
  [rename "Alpha" "Beta" (Some "first"%string) None; rename "Beta" "Gamma" None (Some "third"%string)].
Definition timed_renames : list (Timestamp * Op) := zip (at_ <$> [12; 13]%N) (OpUpdate <$> renames).
Definition reverted : CurrentState :=
  after (zip (at_ <$> [20; 21]%N) (cs_ops (inverse timed_renames))) (after timed_renames before).

Lemma reinvert_updates_witness :
  ChangeSet_invert (inverse timed_renames) (env "a") reverted = Ok (forward timed_renames).
Proof.
  apply (reinvert_updates timed_renames (at_ <$> [20; 21]%N) renames before (after timed_renames before)
           reverted (forward timed_renames) (env "b") (inverse timed_renames)).
  - exact before_wf.
  - reflexivity.
  - reflexivity.
  - vm_compute. reflexivity.
  - intros u Hu. repeat (apply elem_of_cons in Hu as [->|Hu]; [vm_compute; reflexivity|]). by apply not_elem_of_nil in Hu.
  - vm_compute. reflexivity.
  - vm_compute. reflexivity.
  - vm_compute. reflexivity.
Defined.
End InvertExample.
