(* ===== verification/Ndjson.v ===== *)
(** khive-changeset/src/changeset.rs: the NDJSON form of a change-set, an envelope
    line and a line per operation.  The serializers derived for the records and
    serde_json's reader are parameters. *)

From Stdlib Require Import NArith ZArith QArith Ascii String.
From stdpp Require Import base tactics list numbers strings gmap.
From S2P Require Import Prelude RustStr Float EdgeOntology Ident Records ChangeOps.

(** What serde_json's reader hands to a visitor: a document that may break off
    with an error. *)
Inductive Doc (E : Type) : Type :=
| DScalar
| DArray (items : list (Doc E)) (broken : option E)
| DObject (members : list (string * Doc E)) (broken : option E)
| DBroken (e : E).
Arguments DScalar {E}.
Arguments DArray {E} _ _.
Arguments DObject {E} _ _.
Arguments DBroken {E} _.

Class LineSerde := {
  serde_error : Type;
  env_to_string : Envelope → result bytes serde_error;
  op_to_string : Op → result bytes serde_error;
  env_from_str : bytes → result Envelope serde_error;
  op_from_str : bytes → result Op serde_error;
  (** the document of a text, and the error of what follows it, if any *)
  document : bytes → Doc serde_error * option serde_error;
  repeats_member : serde_error
}.

Inductive ChangeSetError (E : Type) : Type :=
| CsEmpty
| MalformedLine (line : nat) (source : E)
| UnsupportedSchemaVersion (found expected : N)
| Serialize (source : E).
Arguments CsEmpty {E}.
Arguments MalformedLine {E} _ _.
Arguments UnsupportedSchemaVersion {E} _ _.
Arguments Serialize {E} _.

Section ndjson.
Context `{LineSerde}.

Definition broken_result (broken : option serde_error) : result () serde_error :=
  match broken with Some e => Err e | None => Ok () end.

(** [UniqueMembersVisitor] *)
Fixpoint unique_members (d : Doc serde_error) : result () serde_error :=
  match d with
  | DScalar => Ok ()
  | DArray items broken =>
      (fix visit_seq items := match items with
                              | [] => broken_result broken
                              | x :: items' => check? unique_members x in visit_seq items'
                              end) items
  | DObject members broken =>
      (fix visit_map seen members :=
         match members with
         | [] => broken_result broken
         | (name, x) :: members' =>
             if bool_decide (name ∈ seen) then Err repeats_member
             else check? unique_members x in visit_map ({[name]} ∪ seen) members'
         end) (∅ : gset string) members
  | DBroken e => Err e
  end.

Definition reject_repeated_members (line : bytes) : result () serde_error :=
  let '(doc, rest) := document line in
  check? unique_members doc in broken_result rest.

(** [str::lines]: a line ends at a line feed, of which a carriage return before it
    is part; the last line need not end. *)
Definition line_feed : ascii := "010".
Definition carriage_return : ascii := "013".
Definition strip_cr (line : bytes) : bytes :=
  match rev line with
  | c :: r => if Ascii.eqb c carriage_return then rev r else line
  | [] => line
  end.
Fixpoint str_lines (input line : bytes) : list bytes :=
  match input with
  | [] => match line with [] => [] | _ => [rev line] end
  | c :: input' =>
      if Ascii.eqb c line_feed then strip_cr (rev line) :: str_lines input' []
      else str_lines input' (c :: line)
  end.
Definition lines (input : bytes) : list bytes := str_lines input [].

Definition map_err {A E F} (f : E → F) (r : result A E) : result A F :=
  match r with Ok x => Ok x | Err e => Err (f e) end.

Definition to_ndjson (changeset : ChangeSet) : result bytes (ChangeSetError serde_error) :=
  let found := env_schema_version (cs_envelope changeset) in
  if negb (found =? CURRENT_SCHEMA_VERSION)%N
  then Err (UnsupportedSchemaVersion found CURRENT_SCHEMA_VERSION)
  else
    let? first := map_err Serialize (env_to_string (cs_envelope changeset)) in
    let? rest := try_map (λ op, map_err Serialize (op_to_string op)) (cs_ops changeset) in
    Ok (concat ((λ line, line ++ [line_feed]) <$> (first :: rest))).

(** A line of the input, numbered from 1. *)
Definition read_line {A} (read : bytes → result A serde_error) (number : nat) (line : bytes)
    : result A (ChangeSetError serde_error) :=
  check? map_err (MalformedLine number) (reject_repeated_members line) in
  map_err (MalformedLine number) (read line).

Definition from_ndjson (input : bytes) : result ChangeSet (ChangeSetError serde_error) :=
  match enumerate (lines input) with
  | [] => Err CsEmpty
  | (_, first_line) :: lines =>
      let? envelope := read_line env_from_str 1 first_line in
      let found := env_schema_version envelope in
      if negb (found =? CURRENT_SCHEMA_VERSION)%N
      then Err (UnsupportedSchemaVersion found CURRENT_SCHEMA_VERSION)
      else
        let? ops := try_map (λ '(idx, line), read_line op_from_str (idx + 1) line) lines in
        Ok {| cs_envelope := envelope; cs_ops := ops |}
  end.

(** ** The line format *)

Definition reads {A} (read : bytes → result A serde_error) (line : bytes) (x : A) : Prop :=
  reject_repeated_members line = Ok () ∧ read line = Ok x.
Definition fails {A} (read : bytes → result A serde_error) (line : bytes) (e : serde_error) : Prop :=
  reject_repeated_members line = Err e ∨ (reject_repeated_members line = Ok () ∧ read line = Err e).

(** A text that is one line. *)
Definition one_line (line : bytes) : Prop := (line_feed ∉ line) ∧ strip_cr line = line.

Lemma str_lines_line line rest acc :
  line_feed ∉ line →
  str_lines (line ++ line_feed :: rest) acc = strip_cr (rev acc ++ line) :: str_lines rest [].
Proof.
  revert acc. induction line as [|c line IH]; intros acc Hl.
  - by rewrite app_nil_r.
  - apply not_elem_of_cons in Hl as [Hc Hl]. cbn [app str_lines].
    destruct (Ascii.eqb_spec c line_feed) as [->|_]; [done|].
    rewrite IH by done. simpl. by rewrite <-app_assoc.
Qed.

Lemma lines_concat ls :
  Forall one_line ls → lines (concat ((λ line, line ++ [line_feed]) <$> ls)) = ls.
Proof.
  unfold lines. induction 1 as [|l ls [Hl Hs] _ IH]; [done|].
  cbn [fmap list_fmap concat]. rewrite <-app_assoc. cbn [app]. rewrite str_lines_line by done.
  simpl. by rewrite Hs, IH.
Qed.

Lemma lines_nil input : lines input = [] → input = [].
Proof.
  enough (∀ acc, str_lines input acc = [] → input = [] ∧ acc = []) as Hx by (intros Hl; by apply Hx in Hl as [-> _]).
  induction input as [|c input IH]; intros acc; simpl.
  - by destruct acc.
  - case_match; [done|]. by intros [_ ?]%IH.
Qed.

Lemma read_line_Ok {A} (read : bytes → result A serde_error) n line x :
  read_line read n line = Ok x ↔ reads read line x.
Proof.
  unfold read_line, reads. destruct (reject_repeated_members line) as [[]|]; simpl; [|by split; [|intros []]].
  destruct (read line); simpl; (split; [intros [=]; subst; done|intros [_ [=]]; by subst]).
Qed.
Lemma read_line_Err {A} (read : bytes → result A serde_error) n line e :
  read_line read n line = Err e ↔ ∃ source, e = MalformedLine n source ∧ fails read line source.
Proof.
  unfold read_line, fails. split.
  - destruct (reject_repeated_members line) as [[]|]; simpl; [destruct (read line); simpl|];
      intros [= <-]; eauto.
  - by intros (source & -> & [->|[-> ->]]).
Qed.

Lemma read_ops_Ok rest k ops :
  try_map (λ '(idx, line), read_line op_from_str (idx + 1) line) (zip (seq k (length rest)) rest) = Ok ops ↔
  Forall2 (reads op_from_str) rest ops.
Proof.
  revert k ops. induction rest as [|line rest IH]; intros k ops; simpl.
  - split; [by intros [= <-]|by intros ->%Forall2_nil_inv_l].
  - rewrite res_bind_Ok. setoid_rewrite read_line_Ok. setoid_rewrite res_bind_Ok. setoid_rewrite IH. split.
    + intros (op & Hop & ops' & Hops & [= <-]). by constructor.
    + intros (op & ops' & Hop & Hops & ->)%Forall2_cons_inv_l. exists op. split; [done|]. by exists ops'.
Qed.

Lemma read_ops_Err rest k e :
  try_map (λ '(idx, line), read_line op_from_str (idx + 1) line) (zip (seq k (length rest)) rest) = Err e →
  ∃ i line source, e = MalformedLine (k + i + 1) source ∧ rest !! i = Some line ∧
    fails op_from_str line source ∧ ∃ ops, Forall2 (reads op_from_str) (take i rest) ops.
Proof.
  revert k. induction rest as [|line rest IH]; intros k; simpl; [done|].
  intros [(source & -> & Hf)%read_line_Err|(op & Hop & Hrest)]%res_bind_Err.
  - exists 0%nat, line, source. rewrite Nat.add_0_r. split_and!; try done. by exists [].
  - apply res_bind_Err in Hrest as [Hrest|(? & _ & ?)]; [|done].
    apply IH in Hrest as (i & l & source & -> & Hl & Hf & ops & Hops). apply read_line_Ok in Hop.
    exists (S i), l, source. split_and!; try done; [f_equal; lia|]. exists (op :: ops). by constructor.
Qed.

(** C31: Decoding answers for every input, and its answer says what the input is: a
    change-set of the current version whose lines read in order, each without a
    repeated member; an empty input; the first line that does not read, counted
    from 1; or another version in the envelope. *)
Theorem from_ndjson_spec input :
  match from_ndjson input with
  | Ok cs =>
      env_schema_version (cs_envelope cs) = CURRENT_SCHEMA_VERSION ∧
      ∃ first rest, lines input = first :: rest ∧ reads env_from_str first (cs_envelope cs) ∧
                    Forall2 (reads op_from_str) rest (cs_ops cs)
  | Err CsEmpty => input = []
  | Err (MalformedLine n source) =>
      ∃ first rest, lines input = first :: rest ∧
      ((n = 1 ∧ fails env_from_str first source) ∨
       ∃ env i line, n = i + 2 ∧ reads env_from_str first env ∧
         env_schema_version env = CURRENT_SCHEMA_VERSION ∧ rest !! i = Some line ∧
         fails op_from_str line source ∧ ∃ ops, Forall2 (reads op_from_str) (take i rest) ops)
  | Err (UnsupportedSchemaVersion found expected) =>
      expected = CURRENT_SCHEMA_VERSION ∧ found ≠ expected ∧
      ∃ first rest env, lines input = first :: rest ∧ reads env_from_str first env ∧ env_schema_version env = found
  | Err (Serialize _) => False
  end%nat.
Proof.
  unfold from_ndjson, enumerate. destruct (lines input) as [|first rest] eqn:Hl; simpl; [by apply lines_nil|].
  destruct (read_line env_from_str 1 first) as [env|e] eqn:He; simpl.
  - apply read_line_Ok in He. destruct (N.eqb_spec (env_schema_version env) CURRENT_SCHEMA_VERSION) as [Hv|Hv]; simpl.
    + destruct (try_map _ _) as [ops|e] eqn:Hops; simpl.
      * apply read_ops_Ok in Hops. split; [done|]. by exists first, rest.
      * apply read_ops_Err in Hops as (i & line & source & -> & Hi & Hf & Hops).
        exists first, rest. split; [done|]. right. exists env, i, line. split_and!; try done. lia.
    + split_and!; try done. by exists first, rest, env.
  - apply read_line_Err in He as (source & -> & Hf). exists first, rest. split; [done|]. by left.
Qed.

(** A value that serializes to one line that reads back to it, and whose objects
    have distinct member names. *)
Definition writes {A} (write : A → result bytes serde_error) (read : bytes → result A serde_error) (x : A) : Prop :=
  ∃ line, write x = Ok line ∧ one_line line ∧ reads read line x.

(** C30: A change-set of the current version whose envelope and operations each
    round-trip through the serializer is encoded, and decodes to itself, its
    operations in their order. *)
Theorem ndjson_roundtrip cs :
  env_schema_version (cs_envelope cs) = CURRENT_SCHEMA_VERSION →
  writes env_to_string env_from_str (cs_envelope cs) → Forall (writes op_to_string op_from_str) (cs_ops cs) →
  ∃ text, to_ndjson cs = Ok text ∧ from_ndjson text = Ok cs.
Proof.
  intros Hv (first & Hw & Hfirst & Hr) Hops.
  assert (∃ rest, try_map (λ op, map_err Serialize (op_to_string op)) (cs_ops cs) = Ok rest ∧
            Forall one_line rest ∧ Forall2 (reads op_from_str) rest (cs_ops cs)) as (rest & Hrest & Hlines & Hreads).
  { induction Hops as [|op ops (line & Hline & Hone & Hread) _ (rest & Hrest & Hlines & Hreads)]; [by exists []|].
    exists (line :: rest). simpl. rewrite Hline. simpl. rewrite Hrest. simpl. split_and!; [done|by constructor|by constructor]. }
  exists (concat ((λ line, line ++ [line_feed]) <$> (first :: rest))). split.
  { unfold to_ndjson. rewrite Hv. simpl. rewrite Hw. simpl. by rewrite Hrest. }
  unfold from_ndjson. rewrite lines_concat by by constructor. unfold enumerate. simpl.
  rewrite (proj2 (read_line_Ok env_from_str 1 first (cs_envelope cs)) Hr). simpl. rewrite Hv. simpl.
  rewrite (proj2 (read_ops_Ok rest 1 (cs_ops cs)) Hreads). simpl. by destruct cs.
Qed.
End ndjson.

(** ** A serializer *)

Module NdjsonExample.
Definition unlink : Op :=
  OpDelete {| delete_target_id := NIL; delete_hard := false;
              delete_preimage := RowEdge {| l_id := NIL; l_namespace := "local"; l_source := NIL; l_target := NIL;
                l_relation := DependsOn; l_properties := []; l_weight := fone; l_created_at := from_secs 1;
                l_updated_at := from_secs 2; l_deleted_at := None |} |}.
Definition weigh : Op :=
  OpUpdate {| update_target_id := NIL; update_patch := PatchEdge {| dp_relation := None; dp_weight := Some fone |};
              update_preimage := PreEdge {| dpre_relation := None; dpre_weight := Some fzero |} |}.
Definition header_ : Envelope := Envelope_new "agent" "family" (from_secs 3).

(** Names for the three values. *)
#[local] Instance names : LineSerde := {|
  serde_error := string;
  env_to_string e := if bool_decide (e = header_) then Ok (to_bytes "{env}") else Err "unknown envelope"%string;
  op_to_string op := match op with
                     | OpDelete _ => Ok (to_bytes "{delete}")
                     | OpUpdate _ => Ok (to_bytes "{update}")
                     | _ => Err "unknown operation"%string
                     end;
  env_from_str line := if bool_decide (line = to_bytes "{env}") then Ok header_ else Err "bad envelope"%string;
  op_from_str line := if bool_decide (line = to_bytes "{delete}") then Ok unlink
                      else if bool_decide (line = to_bytes "{update}") then Ok weigh else Err "bad operation"%string;
  document line := (DObject [("op"%string, DScalar); ("target"%string, DArray [DScalar] None)] None,
                    if bool_decide (line = []) then Some "end of input"%string else None);
  repeats_member := "an object repeats a member name"%string
|}.

Lemma ndjson_roundtrip_witness :
  let cs := {| cs_envelope := header_; cs_ops := [unlink; weigh; unlink] |} in
  ∃ text, to_ndjson cs = Ok text ∧ from_ndjson text = Ok cs.
Proof.
  apply (ndjson_roundtrip {| cs_envelope := header_; cs_ops := [unlink; weigh; unlink] |}).
  - reflexivity.
  - exists (to_bytes "{env}"). split_and!; [reflexivity|split; [by vm_compute; repeat constructor; set_solver|reflexivity]|split; reflexivity].
  - repeat constructor;
      (eexists; split_and!; [reflexivity|split; [by apply (bool_decide_unpack _); vm_compute|reflexivity]|split; reflexivity]).
Defined.

(** A blank line and a repeated member are refused where they stand. *)
Example ndjson_refusals :
  from_ndjson [] = Err CsEmpty ∧
  from_ndjson (to_bytes "{env}" ++ [line_feed; line_feed] ++ to_bytes "{delete}") =
    Err (MalformedLine 2 "end of input"%string) ∧
  unique_members (DObject [("a"%string, DScalar); ("a"%string, DScalar)] None) = Err repeats_member ∧
  lines (to_bytes "x" ++ [carriage_return; line_feed] ++ to_bytes "y" ++ [carriage_return]) =
    [to_bytes "x"; to_bytes "y" ++ [carriage_return]].
Proof. vm_compute. done. Qed.
End NdjsonExample.
