(* ===== verification/QueryAst.v ===== *)
(** khive-query/src/ast.rs, validate.rs, language.rs (the languages), error.rs and
    parsers/lexer.rs: the shared query tree, its validation, the errors, and the
    character cursor of the two parsers.  The Unicode tables
    behind [char::is_alphanumeric], the case mappings and the like are parameters,
    with their values on ASCII as laws. *)

From Stdlib Require Import ZArith Ascii String SpecFloat.
From stdpp Require Import base tactics list numbers strings gmap.
From S2P Require Import Prelude RustStr Json EdgeOntology Rounding Float.

(** ** ast.rs *)

Inductive QueryValue : Type :=
| QNull
| QInteger (n : Z)
| QFloat (x : f64)
| QText (s : string)
| QBlob (b : bytes).

Inductive PropertyRef : Type :=
| Field (name : string)
| JsonPath (path : list string).

Inductive CompareOp : Type :=
| OpEq | OpNeq | OpGt | OpLt | OpGte | OpLte | OpLike | OpContains | OpStartsWith | OpIn
| OpIsNotNull | OpIsNull.
#[export] Instance CompareOp_EqDecision : EqDecision CompareOp.
Proof. solve_decision. Defined.

Inductive ConditionValue : Type :=
| CString (s : string)
| CInteger (n : Z)
| CNumber (x : f64)
| CBool (b : bool)
| CList (values : list ConditionValue)
| CNull.

Record Condition := {
  cond_variable : string;
  cond_property : PropertyRef;
  cond_op : CompareOp;
  cond_value : ConditionValue
}.

Inductive WhereExpr : Type :=
| WAnd (l r : WhereExpr)
| WOr (l r : WhereExpr)
| WCondition (c : Condition)
| WTrue.

(** The leaves, from left to right. *)
Fixpoint conditions (self : WhereExpr) : list Condition :=
  match self with
  | WAnd l r | WOr l r => conditions l ++ conditions r
  | WCondition c => [c]
  | WTrue => []
  end.

Inductive ReturnItem : Type :=
| RVariable (v : string)
| RProperty (v prop : string).

Definition item_variable (self : ReturnItem) : string :=
  match self with RVariable v | RProperty v _ => v end.

Inductive EdgeDirection : Type := Out | In | Both.
#[export] Instance EdgeDirection_EqDecision : EqDecision EdgeDirection.
Proof. solve_decision. Defined.

Record NodePattern := {
  np_variable : option string;
  np_kind : option string;
  np_entity_type : option string;
  np_properties : gmap string ConditionValue
}.

(** Hop counts are [usize]. *)
Record EdgePattern := {
  ep_variable : option string;
  ep_relations : list string;
  ep_direction : EdgeDirection;
  ep_min_hops : Z;
  ep_max_hops : Z
}.

Inductive PatternElement : Type :=
| PNode (n : NodePattern)
| PEdge (e : EdgePattern).

Definition MatchPattern : Type := list PatternElement.

Definition pattern_nodes (self : MatchPattern) : list NodePattern :=
  omap (λ e, match e with PNode n => Some n | PEdge _ => None end) self.
Definition pattern_edges (self : MatchPattern) : list EdgePattern :=
  omap (λ e, match e with PEdge e => Some e | PNode _ => None end) self.
Definition has_variable_length (self : MatchPattern) : bool :=
  existsb (λ e, ep_max_hops e >? 1)%Z (pattern_edges self).

Record GqlQuery := {
  q_pattern : MatchPattern;
  q_where : WhereExpr;
  q_return : list ReturnItem;
  q_offset : Z;
  q_limit : option Z
}.

(** ** language.rs *)

Inductive QueryLanguage : Type := LGql | LSparql.
#[export] Instance QueryLanguage_EqDecision : EqDecision QueryLanguage.
Proof. solve_decision. Defined.

(** ** error.rs *)

Inductive QueryError : Type :=
| QParse (position : nat) (message : string)
| QCompile (message : string)
| QValidation (message : string)
| QUnsupported (message : string)
| QInvalidInput (message : string).

(** ** Characters *)

#[local] Open Scope nat_scope.

(** A [char], as the bytes that encode it. *)
Definition char : Type := bytes.
Definition ch (c : ascii) : char := [c].
#[export] Instance char_EqDecision : EqDecision char := _.

Class CharTables := {
  is_alphabetic : char → bool;
  is_alphanumeric : char → bool;
  char_to_uppercase : char → list char;
  (** [str::to_lowercase], which also looks at the context of a sigma *)
  to_lowercase : string → string
}.

Definition to_ascii_uppercase (c : ascii) : ascii :=
  if is_ascii_lowercase c then ascii_of_N (N_of_ascii c - 32) else c.

(** On ASCII the tables are the ASCII functions. *)
Class CharLaws `{CharTables} := {
  ascii_alphabetic c : (byte c < 128)%Z → is_alphabetic [c] = is_ascii_alphabetic c;
  ascii_alphanumeric c : (byte c < 128)%Z → is_alphanumeric [c] = is_ascii_alphanumeric c;
  (** no character of several bytes begins with an ASCII byte *)
  lead_alphanumeric b c l : is_alphanumeric (b :: c :: l) = true → (128 ≤ byte b)%Z;
  ascii_uppercase c : (byte c < 128)%Z → char_to_uppercase [c] = [[to_ascii_uppercase c]];
  ascii_lowercase l : is_ascii l = true → to_lowercase (of_bytes l) = of_bytes (to_ascii_lowercase <$> l)
}.

Definition str_chars (s : string) : list char := chars (to_bytes s).
Definition chars_str (l : list char) : string := of_bytes (concat l).

(** [str::to_uppercase] maps each character. *)
Definition to_uppercase `{CharTables} (s : string) : string :=
  chars_str (concat (char_to_uppercase <$> str_chars s)).

(** ** Numbers in text *)

(** [str::parse::<i64>] on an optional ['-'] and digits. *)
Definition i64_min : Z := (- 2 ^ 63)%Z.
Definition i64_max : Z := (2 ^ 63 - 1)%Z.
Definition parse_i64 (l : bytes) : option Z :=
  let '(negative, digits) := match l with
                             | "-"%char :: rest => (true, rest)
                             | _ => (false, l)
                             end in
  match digits with
  | [] => None
  | _ => n ← parse_digits digits;
         let n := if negative then (- n)%Z else n in
         if ((i64_min <=? n) && (n <=? i64_max))%Z then Some n else None
  end.

(** [m / 10^k], correctly rounded: the division of the exact integers. *)
Definition decimal (negative : bool) (m : Z) (k : nat) : f64 :=
  match m with
  | Zpos p => fdiv (F:=F64) (S754_finite negative p 0) (S754_finite false (Z.to_pos (10 ^ Z.of_nat k)) 0)
  | _ => S754_zero negative
  end.

(** [str::parse::<f64>] on an optional ['-'], digits and dots. *)
Definition parse_f64 (l : bytes) : option f64 :=
  let '(negative, l) := match l with
                        | "-"%char :: rest => (true, rest)
                        | _ => (false, l)
                        end in
  match split_on "." l with
  | [[]] => None
  | [digits] => n ← parse_digits digits; Some (decimal negative n 0)
  | [[]; []] => None
  | [digits; frac] => n ← parse_digits (digits ++ frac); Some (decimal negative n (length frac))
  | _ => None
  end.

Example parse_f64_values :
  parse_f64 (to_bytes "0.1") = Some (S754_finite false 7205759403792794 (-56)) ∧
  parse_f64 (to_bytes "-12.50") = Some (S754_finite true 7036874417766400 (-49)) ∧
  parse_f64 (to_bytes "9007199254740993") = Some (S754_finite false 4503599627370496 1) ∧
  parse_f64 (to_bytes "1.") = Some (S754_finite false 4503599627370496 (-52)) ∧
  parse_f64 (to_bytes "1.2.3") = None ∧ parse_f64 (to_bytes "-") = None.
Proof. vm_compute. done. Qed.

(** ** lexer.rs *)

(** A computation of the parser at a position of its input: [None] when the fuel
    of a loop runs out. *)
Definition Parse (A : Type) : Type := nat → option (result (A * nat) QueryError).
Definition pret {A} (a : A) : Parse A := λ pos, Some (Ok (a, pos)).
Definition pbind {A B} (m : Parse A) (k : A → Parse B) : Parse B := λ pos,
  match m pos with
  | Some (Ok (a, pos)) => k a pos
  | Some (Err e) => Some (Err e)
  | None => None
  end.
Declare Scope query_scope.
Delimit Scope query_scope with query.
Notation "'do!' x ':=' m 'in' k" := (pbind m (λ x, k))
  (at level 10, x pattern at level 0, m at level 200, k at level 200) : query_scope.
Notation "'then!' m 'in' k" := (pbind m (λ _, k))
  (at level 10, m at level 200, k at level 200) : query_scope.
Open Scope query_scope.

Section cursor.
Context `{CharTables}.
Variable input : list char.

Definition err_at {A} (pos : nat) (msg : string) : option (result (A * nat) QueryError) :=
  Some (Err (QParse pos msg)).
Definition err {A} (msg : string) : Parse A := λ pos, err_at pos msg.
Definition throw {A} (e : QueryError) : Parse A := λ _, Some (Err e).
Definition out_of_fuel {A} : Parse A := λ _, None.

Definition peek : Parse (option char) := λ pos, Some (Ok (input !! pos, pos)).
Definition advance : Parse (option char) := λ pos,
  match input !! pos with
  | Some c => Some (Ok (Some c, S pos))
  | None => Some (Ok (None, pos))
  end.
Definition get_pos : Parse nat := λ pos, Some (Ok (pos, pos)).
Definition set_pos (start : nat) : Parse () := λ _, Some (Ok ((), start)).

(** The loops that advance while the next character satisfies a predicate. *)
Fixpoint take_while (f : char → bool) (l : list char) : list char :=
  match l with
  | c :: l' => if f c then c :: take_while f l' else []
  | [] => []
  end.
Definition skip_while (f : char → bool) : Parse () := λ pos,
  Some (Ok ((), pos + length (take_while f (drop pos input)))).
(** [self.input[start..self.pos]] *)
Definition slice (start stop : nat) : list char := take (stop - start) (drop start input).

Definition skip_whitespace : Parse () := skip_while is_whitespace.

Definition expect_char (expected : ascii) : Parse () :=
  then! skip_whitespace in
  do! c := advance in
  match c with
  | Some c => if decide (c = ch expected) then pret ()
              else err ("expected '" +:+ chars_str [ch expected] +:+ "', got '" +:+ chars_str [c] +:+ "'")
  | None => err ("expected '" +:+ chars_str [ch expected] +:+ "', got end of input")
  end.

Fixpoint match_upper (kw : list char) (pos : nat) : option nat :=
  match kw with
  | [] => Some pos
  | expected :: kw' =>
      c ← input !! pos;
      if decide (head (char_to_uppercase c) = Some expected) then match_upper kw' (S pos) else None
  end.
Definition is_ident_char (c : char) : bool := is_alphanumeric c || bool_decide (c = ch "_").

Definition try_keyword (kw : string) : Parse bool :=
  then! skip_whitespace in
  λ start,
    match match_upper (str_chars (to_uppercase kw)) start with
    | None => Some (Ok (false, start))
    | Some pos =>
        match input !! pos with
        | Some c => if is_ident_char c then Some (Ok (false, start)) else Some (Ok (true, pos))
        | None => Some (Ok (true, pos))
        end
    end.

Definition expect_keyword (kw : string) : Parse () :=
  do! found := try_keyword kw in
  if negb found then err ("expected keyword '" +:+ kw +:+ "'") else pret ().

Definition parse_ident : Parse string :=
  then! skip_whitespace in
  do! start := get_pos in
  then! skip_while is_ident_char in
  do! stop := get_pos in
  if (stop =? start)%nat then err "expected identifier" else pret (chars_str (slice start stop)).

Definition is_digit (c : char) : bool := match c with [b] => is_ascii_digit b | _ => false end.
Definition skip_ascii_digits : Parse () := skip_while is_digit.

Definition parse_number : Parse Z :=
  then! skip_whitespace in
  do! start := get_pos in
  then! skip_ascii_digits in
  do! stop := get_pos in
  if (stop =? start)%nat then err "expected number"
  else
    let s := concat (slice start stop) in
    match parse_usize s with
    | Some n => pret n
    | None => err ("invalid number: " +:+ of_bytes s)
    end.

Definition quote_char : ascii := "'".
Definition is_quote (c : char) : bool := bool_decide (c = ch quote_char) || bool_decide (c = ch dq_char).

Definition parse_string_literal : Parse string :=
  then! skip_whitespace in
  do! q := advance in
  match q with
  | Some quote =>
      if is_quote quote then
        do! start := get_pos in
        then! skip_while (λ c, negb (bool_decide (c = quote))) in
        do! stop := get_pos in
        do! c := advance in
        match c with
        | Some _ => pret (chars_str (slice start stop))
        | None => err "unterminated string literal"
        end
      else err "expected string literal"
  | None => err "expected string literal"
  end.

Definition parse_limit : Parse (option Z) :=
  do! found := try_keyword "LIMIT" in
  if (found : bool) then do! n := parse_number in pret (Some n) else pret None.

Definition expect_end : Parse () :=
  then! skip_whitespace in
  λ pos, if (pos <? length input)%nat
         then err_at pos ("unexpected trailing input: '" +:+ chars_str (drop pos input) +:+ "'")
         else Some (Ok ((), pos)).
End cursor.

(** khive-query/src/validate.rs: the shape of a pattern, the bindings of its
    variables, the hop bounds, and the normalization of relation names. *)

#[local] Open Scope nat_scope.

Definition SYNTHETIC_RELATIONS : list string :=
  ["observed_as_candidate"; "observed_as_selected"; "observed_as_target"; "observed_as_signal"]%string.
Definition MAX_DEPTH : Z := 10.

Definition validate_pattern_shape (elements : MatchPattern) : result () QueryError :=
  match elements with
  | [] => Ok ()
  | _ =>
      if length elements mod 2 =? 0
      then Err (QValidation "pattern must alternate Node, Edge, Node, … (even element count is invalid)")
      else
        try_each (λ '(i, element),
          match i mod 2, element with
          | 0, PNode _ => Ok ()
          | 1, PEdge _ => Ok ()
          | _, _ => Err (QValidation
              "pattern must alternate Node, Edge, Node, … (wrong element type at position)")
          end) (enumerate elements)
  end.

Inductive VarKind : Type := KNode | KEdge.
#[export] Instance VarKind_EqDecision : EqDecision VarKind.
Proof. solve_decision. Defined.

Section validate.
Context `{Externals}.

(** The sets of node and of edge variables seen so far. *)
Definition both_kinds (var : string) : QueryError :=
  QValidation ("variable '" +:+ var +:+ "' cannot bind both a node and an edge").

Fixpoint check_bindings (nodes edges : gset string) (elements : MatchPattern) : result () QueryError :=
  match elements with
  | [] => Ok ()
  | PNode node :: rest =>
      match np_variable node with
      | Some var =>
          if bool_decide (var ∈ edges) then Err (both_kinds var)
          else if bool_decide (var ∈ nodes) then
            Err (QUnsupported ("repeated node variable '" +:+ var +:+
              "' (cycle / self-reachability requires alias-equality predicates not yet implemented)"))
          else check_bindings ({[var]} ∪ nodes) edges rest
      | None => check_bindings nodes edges rest
      end
  | PEdge edge :: rest =>
      match ep_variable edge with
      | Some var =>
          if bool_decide (var ∈ nodes) then Err (both_kinds var)
          else if bool_decide (var ∈ edges) then
            Err (QUnsupported ("repeated edge variable '" +:+ var +:+ "' not supported"))
          else check_bindings nodes ({[var]} ∪ edges) rest
      | None => check_bindings nodes edges rest
      end
  end.

(** [EdgeRelation::from_str] and back. *)
Definition normalize_relation (s : string) : result string QueryError :=
  match from_str s with
  | Ok parsed => Ok (as_str parsed)
  | Err e => Err (QValidation (UnknownVariant_fmt e))
  end.

Definition validate_relation (relation : string) : result string QueryError :=
  if String.prefix "observed_as_" relation then
    if existsb (String.eqb relation) SYNTHETIC_RELATIONS then Ok relation
    else Err (QValidation ("unknown synthetic relation '" +:+ relation +:+
           "'; valid synthetic relations: " +:+ String.concat ", " SYNTHETIC_RELATIONS))
  else normalize_relation relation.

Definition validate_hops (min_hops max_hops : Z) : result () QueryError :=
  if (min_hops =? 0)%Z then
    Err (QUnsupported "zero-hop ranges (min_hops = 0) not yet supported; use a minimum of 1 hop")
  else if (min_hops >? max_hops)%Z then
    Err (QValidation ("invalid hop range: min " +:+ fmt_Z min_hops +:+ " > max " +:+ fmt_Z max_hops))
  else if (min_hops >? MAX_DEPTH)%Z then
    Err (QUnsupported ("minimum hop count " +:+ fmt_Z min_hops +:+ " exceeds depth cap " +:+ fmt_Z MAX_DEPTH))
  else if (max_hops >? MAX_DEPTH)%Z then
    Err (QInvalidInput ("max_hops " +:+ fmt_Z max_hops +:+ " exceeds the depth cap of " +:+ fmt_Z MAX_DEPTH
           +:+ "; reduce the range or use a smaller bound"))
  else Ok ().

Definition validate_element (element : PatternElement) : result PatternElement QueryError :=
  match element with
  | PNode node =>
      match np_properties node !! "namespace"%string with
      | Some _ => Err (QValidation "namespace is set by CompileOptions, not query text")
      | None => Ok element
      end
  | PEdge edge =>
      let? relations := try_map validate_relation (ep_relations edge) in
      check? validate_hops (ep_min_hops edge) (ep_max_hops edge) in
      Ok (PEdge {| ep_variable := ep_variable edge; ep_relations := relations;
                   ep_direction := ep_direction edge; ep_min_hops := ep_min_hops edge;
                   ep_max_hops := ep_max_hops edge |})
  end.

(** The later of two bindings of a variable stays. *)
Definition var_kinds (elements : MatchPattern) : gmap string VarKind :=
  foldl (λ kinds element,
    match element with
    | PNode n => match np_variable n with Some v => <[v := KNode]> kinds | None => kinds end
    | PEdge e => match ep_variable e with Some v => <[v := KEdge]> kinds | None => kinds end
    end) ∅ elements.

Definition with_value (c : Condition) (v : ConditionValue) : Condition :=
  {| cond_variable := cond_variable c; cond_property := cond_property c; cond_op := cond_op c; cond_value := v |}.

Definition validate_relation_value (value : ConditionValue) : result ConditionValue QueryError :=
  match value with
  | CString s => let? s := normalize_relation s in Ok (CString s)
  | CList values =>
      let? values := try_map (λ value,
        match value with
        | CString s => let? s := normalize_relation s in Ok (CString s)
        | _ => Err (QValidation "relation IN list values must be strings")
        end) values in
      Ok (CList values)
  | _ => Ok value
  end.

Definition validate_condition (is_edge : bool) (cond : Condition) : result Condition QueryError :=
  match cond_property cond with
  | Field property =>
      if String.eqb property "namespace" then
        Err (QValidation "namespace is set by CompileOptions, not query text")
      else if String.eqb property "kind" && negb is_edge then Ok cond
      else if String.eqb property "relation" && is_edge then
        match cond_op cond with
        | OpContains | OpStartsWith | OpIsNotNull | OpIsNull => Ok cond
        | _ => let? value := validate_relation_value (cond_value cond) in Ok (with_value cond value)
        end
      else Ok cond
  | JsonPath _ => Ok cond
  end.

(** [for_each_condition_mut], which stops changing the tree at the first error. *)
Fixpoint map_conditions (f : Condition → result Condition QueryError) (self : WhereExpr)
    : result WhereExpr QueryError :=
  match self with
  | WCondition c => let? c := f c in Ok (WCondition c)
  | WAnd l r => let? l := map_conditions f l in let? r := map_conditions f r in Ok (WAnd l r)
  | WOr l r => let? l := map_conditions f l in let? r := map_conditions f r in Ok (WOr l r)
  | WTrue => Ok WTrue
  end.

(** The normalized query; there are no warnings yet. *)
Definition validate_with_warnings (query : GqlQuery) : result (GqlQuery * list string) QueryError :=
  check? validate_pattern_shape (q_pattern query) in
  check? check_bindings ∅ ∅ (q_pattern query) in
  let? pattern := try_map validate_element (q_pattern query) in
  let kinds := var_kinds pattern in
  let? where_clause := map_conditions
    (λ cond, validate_condition
       (bool_decide (default KNode (kinds !! cond_variable cond) = KEdge)) cond) (q_where query) in
  Ok ({| q_pattern := pattern; q_where := where_clause; q_return := q_return query;
         q_offset := q_offset query; q_limit := q_limit query |}, []).
End validate.
