(* ===== verification/Gql.v ===== *)
(** khive-query/src/parsers/gql.rs and the constants of language.rs: the recursive
    descent parser of the GQL subset. *)

From Stdlib Require Import ZArith Ascii String SpecFloat Lia.
From stdpp Require Import base tactics list numbers strings gmap.
From S2P Require Import Prelude RustStr Rounding Float QueryAst.

Open Scope query_scope.
#[local] Open Scope nat_scope.

Definition GQL_WRITE_KEYWORDS : list string :=
  ["CREATE"; "DELETE"; "DETACH"; "SET"; "REMOVE"; "MERGE"; "INSERT"; "UPDATE"]%string.
Definition DEFAULT_HOP_CAP : Z := 5.

Definition read_only_error (constructor : string → QueryError) : QueryError :=
  constructor "the query verb is read-only; to mutate the graph use: create, update, link, merge, delete".

Section gql.
Context `{CharTables}.
Variable input : list char.

(** Loops run at most once per character. *)
Definition fuel : nat := S (length input).

Definition next_is (c : ascii) (o : option char) : bool := bool_decide (o = Some (ch c)).

Definition parse_number_value (c : char) : Parse ConditionValue :=
  do! start := get_pos in
  then! (if bool_decide (c = ch "-") then then! advance input in pret () else pret ()) in
  do! int_start := get_pos in
  then! skip_ascii_digits input in
  do! int_end := get_pos in
  if int_end =? int_start then err "expected digit after '-'"
  else
    do! c := peek input in
    do! has_frac :=
      if next_is "." c then
        then! advance input in
        do! frac_start := get_pos in
        then! skip_ascii_digits input in
        do! frac_end := get_pos in
        if frac_end =? frac_start
        then err "float literal must have digits after '.' (e.g. '1.0', not '1.')"
        else pret true
      else pret false in
    do! stop := get_pos in
    let s := concat (slice input start stop) in
    if negb has_frac then
      match parse_i64 s with
      | Some n => pret (CInteger n)
      | None => err ("integer literal '" +:+ of_bytes s +:+ "' out of supported range ("
                     +:+ fmt_Z i64_min +:+ " to " +:+ fmt_Z i64_max +:+ ")")
      end
    else
      match parse_f64 s with
      | None => err ("invalid number: " +:+ of_bytes s)
      | Some n => if negb (is_finite n) then err ("float literal '" +:+ of_bytes s +:+ "' is not finite")
                  else pret (CNumber n)
      end.

Definition parse_value : Parse ConditionValue :=
  then! skip_whitespace input in
  do! c := peek input in
  let keyword :=
    do! ident := parse_ident input in
    let lower := to_lowercase ident in
    if String.eqb lower "true" then pret (CBool true)
    else if String.eqb lower "false" then pret (CBool false)
    else err ("unexpected value: " +:+ ident) in
  match c with
  | Some c =>
      if is_quote c then do! s := parse_string_literal input in pret (CString s)
      else if is_digit c || bool_decide (c = ch "-") then parse_number_value c
      else keyword
  | None => keyword
  end.

Fixpoint props_loop (n : nat) (props : gmap string ConditionValue) : Parse (gmap string ConditionValue) :=
  match n with
  | 0 => out_of_fuel
  | S n =>
      then! skip_whitespace input in
      do! c := peek input in
      if next_is "}" c then then! advance input in pret props
      else
        then! (if bool_decide (props = ∅) then pret () else expect_char input ",") in
        do! key := parse_ident input in
        then! expect_char input ":" in
        do! val := parse_value in
        match props !! key with
        | Some _ => err ("duplicate property '" +:+ key +:+ "'")
        | None => props_loop n (<[key := val]> props)
        end
  end.
Definition parse_props : Parse (gmap string ConditionValue) :=
  then! expect_char input "{" in props_loop fuel ∅.

Fixpoint list_loop (n : nat) (values : list ConditionValue) : Parse (list ConditionValue) :=
  match n with
  | 0 => out_of_fuel
  | S n =>
      then! skip_whitespace input in
      do! c := peek input in
      if next_is "]" c then then! advance input in pret values
      else
        then! match values with [] => pret () | _ => expect_char input "," end in
        do! v := parse_value in
        list_loop n (values ++ [v])
  end.
Definition parse_list_literal : Parse (list ConditionValue) :=
  then! expect_char input "[" in list_loop fuel [].

Definition starts_ident (c : char) : bool := is_alphabetic c || bool_decide (c = ch "_").

(** The binding of a node pattern; an identifier that nothing recognised follows
    is given back. *)
Definition node_variable : Parse (option string) :=
  do! c := peek input in
  match c with
  | Some c =>
      if starts_ident c then
        do! start := get_pos in
        do! ident := parse_ident input in
        then! skip_whitespace input in
        do! c := peek input in
        if next_is ":" c || next_is ")" c || next_is "{" c then pret (Some ident)
        else then! set_pos start in pret None
      else pret None
  | None => pret None
  end.

Definition parse_node_pattern : Parse NodePattern :=
  then! expect_char input "(" in
  then! skip_whitespace input in
  do! c := peek input in
  if next_is ")" c then
    then! advance input in
    pret {| np_variable := None; np_kind := None; np_entity_type := None; np_properties := ∅ |}
  else
    do! variable := node_variable in
    then! skip_whitespace input in
    do! c := peek input in
    do! kind :=
      if next_is ":" c then
        then! advance input in
        do! k := parse_ident input in
        pret (Some (to_lowercase k))
      else pret None in
    then! skip_whitespace input in
    do! c := peek input in
    do! properties := if next_is "{" c then parse_props else pret ∅ in
    do! entity_type :=
      match properties !! "entity_type"%string with
      | Some (CString s) => pret (Some s)
      | Some _ => err "entity_type must be a string literal"
      | None => pret None
      end in
    then! expect_char input ")" in
    pret {| np_variable := variable; np_kind := kind; np_entity_type := entity_type;
            np_properties := delete "entity_type"%string properties |}.

Definition edge_variable : Parse (option string) :=
  do! c := peek input in
  if negb (next_is "]" c) && negb (next_is ":" c) && negb (next_is "*" c) then
    if negb match c with Some c => starts_ident c | None => false end
    then err "edge variable must start with a letter or '_'"
    else do! v := parse_ident input in pret (Some v)
  else pret None.

Fixpoint relations_loop (n : nat) (relations : list string) : Parse (list string) :=
  match n with
  | 0 => out_of_fuel
  | S n =>
      do! c := peek input in
      if next_is "|" c then
        then! advance input in
        do! r := parse_ident input in
        relations_loop n (relations ++ [r])
      else pret relations
  end.
Definition edge_relations : Parse (list string) :=
  do! c := peek input in
  if next_is ":" c then
    then! advance input in
    do! r := parse_ident input in
    relations_loop fuel [r]
  else pret [].

Definition edge_hops : Parse (Z * Z) :=
  do! c := peek input in
  if next_is "*" c then
    then! advance input in
    then! skip_whitespace input in
    do! c := peek input in
    if match c with Some c => is_digit c | None => false end then
      do! min_hops := parse_number input in
      then! skip_whitespace input in
      do! c := peek input in
      if next_is "." c then
        then! advance input in
        then! expect_char input "." in
        do! max_hops := parse_number input in
        pret (min_hops, max_hops)
      else pret (min_hops, min_hops)
    else pret (1%Z, DEFAULT_HOP_CAP)
  else pret (1%Z, 1%Z).

Definition parse_edge_pattern : Parse EdgePattern :=
  then! skip_whitespace input in
  do! c := peek input in
  do! direction_start :=
    if next_is "<" c then
      then! advance input in
      then! expect_char input "-" in
      pret In
    else if next_is "-" c then then! advance input in pret Out
    else err "expected edge pattern (- or <-)" in
  then! expect_char input "[" in
  then! skip_whitespace input in
  do! variable := edge_variable in
  then! skip_whitespace input in
  do! relations := edge_relations in
  then! skip_whitespace input in
  do! hops := edge_hops in
  then! expect_char input "]" in
  then! expect_char input "-" in
  do! c := peek input in
  do! direction :=
    if next_is ">" c then
      then! advance input in
      pret (if decide (direction_start = In) then Both else Out)
    else pret (if decide (direction_start = In) then In else Both) in
  pret {| ep_variable := variable; ep_relations := relations; ep_direction := direction;
          ep_min_hops := hops.1; ep_max_hops := hops.2 |}.

Fixpoint pattern_loop (n : nat) (elements : MatchPattern) : Parse MatchPattern :=
  match n with
  | 0 => out_of_fuel
  | S n =>
      then! skip_whitespace input in
      do! c := peek input in
      if next_is "-" c || next_is "<" c then
        do! e := parse_edge_pattern in
        do! nd := parse_node_pattern in
        pattern_loop n (elements ++ [PEdge e; PNode nd])
      else pret elements
  end.
Definition parse_pattern : Parse MatchPattern :=
  do! nd := parse_node_pattern in pattern_loop fuel [PNode nd].

(** An operator of one character, or of two with ['=']. *)
Definition or_equal (with_equal without : CompareOp) : Parse CompareOp :=
  then! advance input in
  do! c := peek input in
  if next_is "=" c then then! advance input in pret with_equal else pret without.

Definition parse_word_op : Parse CompareOp :=
  do! like := try_keyword input "LIKE" in
  if (like : bool) then pret OpLike else
  do! contains := try_keyword input "CONTAINS" in
  if (contains : bool) then pret OpContains else
  do! starts := try_keyword input "STARTS" in
  if (starts : bool) then then! expect_keyword input "WITH" in pret OpStartsWith else
  do! in_ := try_keyword input "IN" in
  if (in_ : bool) then pret OpIn else
  do! is_ := try_keyword input "IS" in
  if (is_ : bool) then
    do! not_ := try_keyword input "NOT" in
    if (not_ : bool) then then! expect_keyword input "NULL" in pret OpIsNotNull
    else then! expect_keyword input "NULL" in pret OpIsNull
  else err "expected comparison operator".

Definition parse_compare_op : Parse CompareOp :=
  then! skip_whitespace input in
  do! c := peek input in
  if next_is "=" c then then! advance input in pret OpEq
  else if next_is "!" c then
    then! advance input in
    then! expect_char input "=" in
    pret OpNeq
  else if next_is ">" c then or_equal OpGte OpGt
  else if next_is "<" c then or_equal OpLte OpLt
  else parse_word_op.

Fixpoint path_loop (n : nat) (path : list string) : Parse (list string) :=
  match n with
  | 0 => out_of_fuel
  | S n =>
      do! c := peek input in
      if next_is "." c then
        then! advance input in
        do! segment := parse_ident input in
        then! skip_whitespace input in
        path_loop n (path ++ [segment])
      else pret path
  end.

Definition parse_property_ref : Parse PropertyRef :=
  do! root := parse_ident input in
  then! skip_whitespace input in
  do! c := peek input in
  if negb (next_is "." c) then pret (Field root)
  else if negb (String.eqb root "properties") then
    err ("invalid WHERE property path root '" +:+ root +:+ "'; nested paths must start with 'properties'")
  else do! path := path_loop fuel [] in pret (JsonPath path).

Definition parse_condition : Parse Condition :=
  then! skip_whitespace input in
  do! variable := parse_ident input in
  then! expect_char input "." in
  do! property := parse_property_ref in
  do! op := parse_compare_op in
  do! value :=
    match op with
    | OpIn => do! values := parse_list_literal in pret (CList values)
    | OpIsNotNull | OpIsNull => pret CNull
    | OpContains | OpStartsWith =>
        do! value := parse_value in
        match value with
        | CString _ => pret value
        | _ => err "CONTAINS and STARTS WITH require a string literal"
        end
    | _ => parse_value
    end in
  pret {| cond_variable := variable; cond_property := property; cond_op := op; cond_value := value |}.

Fixpoint and_loop (n : nat) (acc : WhereExpr) : Parse WhereExpr :=
  match n with
  | 0 => out_of_fuel
  | S n =>
      then! skip_whitespace input in
      do! more := try_keyword input "AND" in
      if negb more then pret acc
      else do! rhs := parse_condition in and_loop n (WAnd acc (WCondition rhs))
  end.
Definition parse_and_expr : Parse WhereExpr :=
  do! first := parse_condition in and_loop fuel (WCondition first).

Fixpoint or_loop (n : nat) (acc : WhereExpr) : Parse WhereExpr :=
  match n with
  | 0 => out_of_fuel
  | S n =>
      then! skip_whitespace input in
      do! more := try_keyword input "OR" in
      if negb more then pret acc
      else do! rhs := parse_and_expr in or_loop n (WOr acc rhs)
  end.
Definition parse_where_expr : Parse WhereExpr :=
  do! first := parse_and_expr in or_loop fuel first.

Definition parse_return_item : Parse ReturnItem :=
  do! ident := parse_ident input in
  do! c := peek input in
  if next_is "." c then
    then! advance input in
    do! prop := parse_ident input in
    pret (RProperty ident prop)
  else pret (RVariable ident).

Fixpoint return_loop (n : nat) (items : list ReturnItem) : Parse (list ReturnItem) :=
  match n with
  | 0 => out_of_fuel
  | S n =>
      do! item := parse_return_item in
      do! as_ := try_keyword input "AS" in
      if (as_ : bool) then
        throw (QUnsupported "RETURN aliases (`AS`) are not supported; use unaliased variable or variable.property projections")
      else
        then! skip_whitespace input in
        do! c := peek input in
        if next_is "," c then then! advance input in return_loop n (items ++ [item])
        else pret (items ++ [item])
  end.
Definition parse_return_items : Parse (list ReturnItem) := return_loop fuel [].

Definition parse_query : Parse GqlQuery :=
  then! expect_keyword input "MATCH" in
  do! pattern := parse_pattern in
  then! skip_whitespace input in
  do! c := peek input in
  if next_is "," c then
    throw (QUnsupported "comma-separated MATCH patterns are not supported; use one alternating path per query; for parallel-edge audits, return a.id, e.id, e.relation, b.id and group by endpoint IDs client-side")
  else
    do! has_where := try_keyword input "WHERE" in
    do! where_clause := if (has_where : bool) then parse_where_expr else pret WTrue in
    then! expect_keyword input "RETURN" in
    do! return_items := parse_return_items in
    do! has_skip := try_keyword input "SKIP" in
    do! offset := if (has_skip : bool) then parse_number input else pret 0%Z in
    do! limit := parse_limit input in
    then! expect_end input in
    pret {| q_pattern := pattern; q_where := where_clause; q_return := return_items;
            q_offset := offset; q_limit := limit |}.
End gql.

Definition run {A} (m : Parse A) : option (result A QueryError) :=
  match m 0 with
  | Some (Ok (a, _)) => Some (Ok a)
  | Some (Err e) => Some (Err e)
  | None => None
  end.

(** [split_whitespace().next()]: the first run of characters that are not white
    space. *)
Definition first_word (l : list char) : list char :=
  take_while (λ c, negb (is_whitespace c)) (drop_while is_whitespace l).

Section parse.
Context `{CharTables}.

Definition reject_gql_write (l : list char) : result () QueryError :=
  let first := to_uppercase (chars_str (first_word l)) in
  if existsb (String.eqb first) GQL_WRITE_KEYWORDS then Err (read_only_error QUnsupported) else Ok ().

(** [parse], from the characters of the text. *)
Definition gql_parse (text : string) : option (result GqlQuery QueryError) :=
  let l := trim_chars (str_chars text) in
  match reject_gql_write l with
  | Err e => Some (Err e)
  | Ok () => run (parse_query l)
  end.
End parse.

(** ** The tables of ASCII text *)

Module AsciiTables.
Definition on_byte (f : ascii → bool) (c : char) : bool := match c with [b] => f b | _ => false end.

#[export] Instance ascii_tables : CharTables := {|
  is_alphabetic := on_byte is_ascii_alphabetic;
  is_alphanumeric := on_byte is_ascii_alphanumeric;
  char_to_uppercase c := match c with [b] => [[to_ascii_uppercase b]] | _ => [c] end;
  to_lowercase s := of_bytes (to_ascii_lowercase <$> to_bytes s)
|}.

#[export] Instance ascii_laws : CharLaws.
Proof. split; try done. intros l _. simpl. by rewrite to_of_bytes. Qed.
End AsciiTables.

Import AsciiTables.
Definition sample_text : string :=
  "match (a:Concept {name: 'x', entity_type: 'paper'})-[e:extends|part_of*1..3]->(b) where a.name = 'q' and b.properties.k.j IN [1, -2.5] or b.kind is not null return a, b.name skip 2 limit 10 ".

Example sample_parses :
  gql_parse sample_text =
  Some (Ok {|
    q_pattern :=
      [PNode {| np_variable := Some "a"; np_kind := Some "concept"; np_entity_type := Some "paper";
                np_properties := {["name" := CString "x"]} |};
       PEdge {| ep_variable := Some "e"; ep_relations := ["extends"; "part_of"]; ep_direction := Out;
                ep_min_hops := 1; ep_max_hops := 3 |};
       PNode {| np_variable := Some "b"; np_kind := None; np_entity_type := None; np_properties := ∅ |}];
    q_where :=
      WOr (WAnd (WCondition {| cond_variable := "a"; cond_property := Field "name"; cond_op := OpEq; cond_value := CString "q" |})
                (WCondition {| cond_variable := "b"; cond_property := JsonPath ["k"; "j"]; cond_op := OpIn;
                               cond_value := CList [CInteger 1; CNumber (S754_finite true 5629499534213120 (-51))] |}))
          (WCondition {| cond_variable := "b"; cond_property := Field "kind"; cond_op := OpIsNotNull; cond_value := CNull |});
    q_return := [RVariable "a"; RProperty "b" "name"]; q_offset := 2; q_limit := Some 10%Z |})%string%Z.
Proof. vm_compute. reflexivity. Qed.

(** The GQL parser answers for every text: its loops never run out of fuel, and
    what it accepts is an alternating path. *)

Open Scope query_scope.
#[local] Open Scope nat_scope.

Create HintDb good.

Section progress.
Context `{CharTables}.
Variable input : list char.
Let len := length input.

(** [m] answers at every position with fewer than [n] characters left, stays
    within the input and moves forward, strictly when [s] holds. *)
Definition good (s : bool) (n : nat) {A} (m : Parse A) : Prop := ∀ pos,
  pos ≤ len → len - pos < n →
  match m pos with
  | None => False
  | Some (Err _) => True
  | Some (Ok (_, pos')) => pos' ≤ len ∧ (if s then pos < pos' else pos ≤ pos')
  end.

Lemma good_weaken n {A} (m : Parse A) : good true n m → good false n m.
Proof.
  intros Hm pos Hp Hn. specialize (Hm pos Hp Hn). destruct (m pos) as [[[a pos']|]|]; [|done|done]. lia.
Qed.

Lemma good_any s n {A} (m : Parse A) : good s (S len) m → good s n m.
Proof. intros Hm pos Hp Hn. apply Hm; [done|lia]. Qed.

Lemma good_bind s n {A B} (m : Parse A) (k : A → Parse B) :
  good false n m → (∀ a, good s n (k a)) → good s n (pbind m k).
Proof.
  intros Hm Hk pos Hp Hn. specialize (Hm pos Hp Hn). unfold pbind.
  destruct (m pos) as [[[a pos']|]|]; [|done|done]. specialize (Hk a pos' ltac:(lia) ltac:(lia)).
  destruct (k a pos') as [[[b pos'']|]|]; [|done|done]. destruct s; lia.
Qed.

(** After a strict step, the rest has one unit of fuel less to cover. *)
Lemma good_bind_strict s n {A B} (m : Parse A) (k : A → Parse B) :
  good true (S n) m → (∀ a, good false n (k a)) → good s (S n) (pbind m k).
Proof.
  intros Hm Hk pos Hp Hn. specialize (Hm pos Hp Hn). unfold pbind.
  destruct (m pos) as [[[a pos']|]|]; [|done|done]. specialize (Hk a pos' ltac:(lia) ltac:(lia)).
  destruct (k a pos') as [[[b pos'']|]|]; [|done|done]. destruct s; lia.
Qed.

Lemma good_strict n {A B} (m : Parse A) (k : A → Parse B) :
  good true n m → (∀ a, good false n (k a)) → good true n (pbind m k).
Proof.
  intros Hm Hk pos Hp Hn. specialize (Hm pos Hp Hn). unfold pbind.
  destruct (m pos) as [[[a pos']|]|]; [|done|done]. specialize (Hk a pos' ltac:(lia) ltac:(lia)).
  destruct (k a pos') as [[[b pos'']|]|]; [|done|done]. lia.
Qed.

Lemma good_zero s {A} (m : Parse A) : good s 0 m.
Proof. intros pos Hp Hn. lia. Qed.
Lemma good_pret n {A} (a : A) : good false n (pret a).
Proof. intros pos Hp Hn. simpl. lia. Qed.
Lemma good_err s n {A} msg : good s n (err (A:=A) msg).
Proof. done. Qed.
Lemma good_throw s n {A} e : good s n (throw (A:=A) e).
Proof. done. Qed.
Lemma good_peek n : good false n (peek input).
Proof. intros pos Hp Hn. simpl. lia. Qed.
Lemma good_get_pos n : good false n get_pos.
Proof. intros pos Hp Hn. simpl. lia. Qed.
Lemma good_advance n : good false n (advance input).
Proof.
  intros pos Hp Hn. unfold advance. destruct (input !! pos) eqn:E; [|lia]. apply lookup_lt_Some in E. fold len in E. lia.
Qed.
Lemma length_take_while f l : length (take_while f l) ≤ length l.
Proof. induction l as [|c l IH]; simpl; [lia|]. destruct (f c); simpl; lia. Qed.
Lemma good_skip_while n f : good false n (skip_while input f).
Proof.
  intros pos Hp Hn. simpl. pose proof (length_take_while f (drop pos input)) as Hl. rewrite length_drop in Hl.
  fold len in Hl. lia.
Qed.
Lemma good_skip_whitespace n : good false n (skip_whitespace input).
Proof. apply good_skip_while. Qed.

#[local] Hint Resolve good_zero good_pret good_err good_throw good_peek good_get_pos good_advance good_skip_while good_skip_whitespace : good.

Lemma match_upper_bound kw pos pos' : pos ≤ len → match_upper input kw pos = Some pos' → pos ≤ pos' ≤ len.
Proof.
  revert pos. induction kw as [|c kw IH]; intros pos Hp; simpl; [intros [= ->]; lia|].
  intros (d & Hd & Hm)%bind_Some. apply lookup_lt_Some in Hd. fold len in Hd. case_decide; [|done]. apply IH in Hm; lia.
Qed.

Lemma good_try_keyword n kw : good false n (try_keyword input kw).
Proof.
  apply good_bind; [apply good_skip_while|]. intros ? pos Hp Hn. destruct (match_upper _ _ pos) as [pos'|] eqn:E; [|lia].
  apply match_upper_bound in E; [|done]. destruct (input !! pos') as [c|]; [destruct (is_ident_char c)|]; lia.
Qed.

Lemma advance_strict n {A} (k : option char → Parse A) :
  (∀ c, good false n (k (Some c))) → (∀ pos, k None pos ≠ None ∧ ∀ r, k None pos ≠ Some (Ok r)) →
  good true n (pbind (advance input) k).
Proof.
  intros Hk Hnone pos Hp Hn. unfold pbind, advance. destruct (input !! pos) as [c|] eqn:E.
  - apply lookup_lt_Some in E. fold len in E. specialize (Hk c (S pos) ltac:(lia) ltac:(lia)).
    destruct (k (Some c) (S pos)) as [[[a pos']|]|]; [|done|done]. lia.
  - pose proof (Hnone pos) as [Hn1 Hn2]. destruct (k None pos) as [[r|]|]; [|done|done]. exfalso. by apply (Hn2 r).
Qed.

Lemma good_expect_char n c : good true n (expect_char input c).
Proof.
  apply good_bind; [solve [auto with good]|]. intros ?. cbv beta. apply advance_strict.
  - intros d. case_decide; auto with good.
  - by intros pos.
Qed.

(** A token read between two positions that must differ. *)
Lemma good_token n {A} f (e : string) (k : nat → nat → Parse A) :
  (∀ start stop, good false n (k start stop)) →
  good true n (do! start := get_pos in then! skip_while input f in do! stop := get_pos in
               if stop =? start then err e else k start stop).
Proof.
  intros Hk pos Hp Hn. unfold pbind, get_pos, skip_while.
  pose proof (length_take_while f (drop pos input)) as Hl. rewrite length_drop in Hl. fold len in Hl.
  destruct (Nat.eqb_spec (pos + length (take_while f (drop pos input))) pos); [done|].
  set (stop := pos + _) in *. specialize (Hk pos stop stop ltac:(lia) ltac:(lia)).
  destruct (k pos stop stop) as [[[a pos']|]|]; [|done|done]. lia.
Qed.

Lemma good_parse_ident n : good true n (parse_ident input).
Proof. apply good_bind; [solve [auto with good]|]. intros ?. cbv beta. apply good_token. auto with good. Qed.

Lemma good_parse_number n : good true n (parse_number input).
Proof.
  apply good_bind; [solve [auto with good]|]. intros ?. cbv beta. apply (good_token n is_digit). intros start stop.
  simpl. destruct (parse_usize _); auto with good.
Qed.

Lemma good_parse_string_literal n : good true n (parse_string_literal input).
Proof.
  apply good_bind; [solve [auto with good]|]. intros ?. cbv beta. apply advance_strict; [|done].
  intros q. destruct (is_quote q); [|auto with good].
  repeat (apply good_bind; [solve [auto with good]|]; intros ?). case_match; auto with good.
Qed.
End progress.

#[export] Hint Resolve good_zero good_pret good_err good_throw good_peek good_get_pos good_advance good_skip_while good_skip_whitespace
  good_try_keyword good_expect_char good_parse_ident good_parse_number good_parse_string_literal : good.

(** Walk through a parser, splitting its branches; a loop consumes its unit of
    fuel at the first strict step. *)
Ltac good_case :=
  match goal with
  | |- good _ _ _ (match ?x with _ => _ end) => destruct x
  end.
Ltac good_walk :=
  first
    [ solve [auto with good]
    | solve [apply good_weaken; auto with good]
    | good_case; good_walk
    | apply good_strict; [solve [auto with good]|intros ?; good_walk]
    | apply good_bind; [good_walk|intros ?; good_walk] ].

Section parser.
Context `{CharTables}.
Variable input : list char.
#[local] Abbreviation good := (good input).

Lemma good_limit n : good false n (parse_limit input).
Proof. unfold parse_limit. good_walk. Qed.
Lemma good_expect_keyword n kw : good false n (expect_keyword input kw).
Proof. unfold expect_keyword. good_walk. Qed.
Lemma good_end n : good false n (expect_end input).
Proof. apply good_bind; [auto with good|]. intros ? pos Hp Hn. destruct (pos <? length input); [done|lia]. Qed.
#[local] Hint Resolve good_limit good_expect_keyword good_end : good.

Lemma good_parse_number_value n c : good true n (parse_number_value input c).
Proof.
  unfold parse_number_value, skip_ascii_digits.
  apply good_bind; [auto with good|intros start]. apply good_bind; [good_walk|intros ?].
  apply good_token. intros int_start int_end.
  apply good_bind; [auto with good|intros d]. apply good_bind; [|intros has_frac].
  - destruct (next_is "." d); [|auto with good]. apply good_bind; [auto with good|intros ?].
    apply good_weaken, good_token. auto with good.
  - cbv zeta. good_walk.
Qed.
#[local] Hint Resolve good_parse_number_value : good.

Lemma good_parse_value n : good true n (parse_value input).
Proof. unfold parse_value. cbv zeta. good_walk. Qed.
#[local] Hint Resolve good_parse_value : good.

(** A loop that spends one unit of fuel at a strict step. *)
Lemma good_loop {A X} (loop : nat → X → Parse A) :
  (∀ x, loop 0 x = out_of_fuel) →
  (∀ n, (∀ x, good false n (loop n x)) → ∀ x, good false (S n) (loop (S n) x)) →
  ∀ n x, good false n (loop (fuel input) x).
Proof.
  intros Hz Hs n x. apply good_any. unfold fuel. generalize (S (length input)). clear n. intros n.
  revert x. induction n as [|n IH]; intros x; [apply good_zero|by apply Hs].
Qed.

Ltac good_spend :=
  first
    [ solve [auto with good]
    | solve [apply good_weaken; auto with good]
    | good_case; good_spend
    | apply good_bind_strict; [solve [auto with good]|intros ?; good_walk]
    | apply good_bind; [good_walk|intros ?; good_spend] ].

Ltac good_by_loop loop :=
  apply (good_loop loop); [done|]; intros ? ? ?; simpl; good_spend.

Lemma good_parse_props n : good true n (parse_props input).
Proof.
  unfold parse_props. apply good_strict; [auto with good|]. intros ?. good_by_loop (props_loop input).
Qed.
Lemma good_parse_list_literal n : good true n (parse_list_literal input).
Proof.
  unfold parse_list_literal. apply good_strict; [auto with good|]. intros ?. good_by_loop (list_loop input).
Qed.
#[local] Hint Resolve good_parse_props good_parse_list_literal : good.

(** The only step back: to where an identifier began. *)
Lemma good_node_variable n : good false n (node_variable input).
Proof.
  apply good_bind; [auto with good|]. intros [c|]; [|auto with good].
  destruct (starts_ident c); [|auto with good]. intros pos Hp Hn. unfold pbind, get_pos.
  pose proof (good_parse_ident input n pos Hp Hn) as Hi. destruct (parse_ident input pos) as [[[ident p1]|]|]; [|done|done].
  pose proof (good_skip_whitespace input n p1 ltac:(lia) ltac:(lia)) as Hw.
  destruct (skip_whitespace input p1) as [[[[] p2]|]|]; [|done|done]. simpl.
  destruct (_ || _); simpl; lia.
Qed.
#[local] Hint Resolve good_node_variable : good.

Lemma good_parse_node_pattern n : good true n (parse_node_pattern input).
Proof. unfold parse_node_pattern. good_walk. Qed.

Lemma good_edge_variable n : good false n (edge_variable input).
Proof. unfold edge_variable. good_walk. Qed.
Lemma good_relations_loop n r : good false n (relations_loop input (fuel input) r).
Proof. good_by_loop (relations_loop input). Qed.
#[local] Hint Resolve good_relations_loop : good.
Lemma good_edge_relations n : good false n (edge_relations input).
Proof. unfold edge_relations. good_walk. Qed.
Lemma good_edge_hops n : good false n (edge_hops input).
Proof. unfold edge_hops. good_walk. Qed.
#[local] Hint Resolve good_parse_node_pattern good_edge_variable good_edge_relations good_edge_hops : good.

Lemma good_parse_edge_pattern n : good true n (parse_edge_pattern input).
Proof.
  unfold parse_edge_pattern. apply good_bind; [auto with good|intros ?]. apply good_bind; [auto with good|intros c].
  apply good_bind; [good_walk|intros d]. good_walk.
Qed.
#[local] Hint Resolve good_parse_edge_pattern : good.

Lemma good_pattern_loop n e : good false n (pattern_loop input (fuel input) e).
Proof. good_by_loop (pattern_loop input). Qed.
#[local] Hint Resolve good_pattern_loop : good.
Lemma good_parse_pattern n : good true n (parse_pattern input).
Proof. unfold parse_pattern. good_walk. Qed.

Lemma good_or_equal n a b : good false n (or_equal input a b).
Proof. unfold or_equal. good_walk. Qed.
#[local] Hint Resolve good_or_equal : good.
Lemma good_parse_word_op n : good false n (parse_word_op input).
Proof. unfold parse_word_op. good_walk. Qed.
#[local] Hint Resolve good_parse_word_op : good.
Lemma good_parse_compare_op n : good false n (parse_compare_op input).
Proof. unfold parse_compare_op. good_walk. Qed.
Lemma good_path_loop n p : good false n (path_loop input (fuel input) p).
Proof. good_by_loop (path_loop input). Qed.
#[local] Hint Resolve good_parse_compare_op good_path_loop : good.
Lemma good_parse_property_ref n : good true n (parse_property_ref input).
Proof. unfold parse_property_ref. good_walk. Qed.
#[local] Hint Resolve good_parse_property_ref : good.
Lemma good_parse_condition n : good true n (parse_condition input).
Proof. unfold parse_condition. good_walk. Qed.
#[local] Hint Resolve good_parse_condition : good.
Lemma good_and_loop n a : good false n (and_loop input (fuel input) a).
Proof. good_by_loop (and_loop input). Qed.
#[local] Hint Resolve good_and_loop : good.
Lemma good_parse_and_expr n : good true n (parse_and_expr input).
Proof. unfold parse_and_expr. good_walk. Qed.
#[local] Hint Resolve good_parse_and_expr : good.
Lemma good_or_loop n a : good false n (or_loop input (fuel input) a).
Proof. good_by_loop (or_loop input). Qed.
#[local] Hint Resolve good_or_loop : good.
Lemma good_parse_where_expr n : good true n (parse_where_expr input).
Proof. unfold parse_where_expr. good_walk. Qed.
Lemma good_parse_return_item n : good true n (parse_return_item input).
Proof. unfold parse_return_item. good_walk. Qed.
#[local] Hint Resolve good_parse_where_expr good_parse_return_item : good.
Lemma good_return_loop n l : good false n (return_loop input (fuel input) l).
Proof. good_by_loop (return_loop input). Qed.
#[local] Hint Resolve good_return_loop good_parse_pattern : good.

Lemma good_parse_query n : good false n (parse_query input).
Proof. unfold parse_query, parse_return_items. good_walk. Qed.
End parser.

(** The parser of a text answers. *)
Lemma run_good `{CharTables} {A} input (m : Parse A) : good input false (fuel input) m → ∃ r, run m = Some r.
Proof.
  intros Hm. specialize (Hm 0 ltac:(lia) ltac:(unfold fuel; lia)). unfold run.
  destruct (m 0) as [[[a pos]|e]|]; eauto. done.
Qed.

(** ** What an accepted query looks like *)

(** Every result of [m] satisfies [P]. *)
Definition yields {A} (P : A → Prop) (m : Parse A) : Prop := ∀ pos a pos', m pos = Some (Ok (a, pos')) → P a.

Lemma yields_bind {A B} (Q : A → Prop) (P : B → Prop) (m : Parse A) (k : A → Parse B) :
  yields Q m → (∀ a, Q a → yields P (k a)) → yields P (pbind m k).
Proof.
  intros Hm Hk pos b pos'. unfold pbind. destruct (m pos) as [[[a p]|]|] eqn:Ha; try done.
  intros Hb. eapply Hk; [by eapply Hm|exact Hb].
Qed.
Lemma yields_then {A B} (P : B → Prop) (m : Parse A) (k : A → Parse B) :
  (∀ a, yields P (k a)) → yields P (pbind m k).
Proof. intros Hk. apply (yields_bind (λ _, True)); [done|]. intros a _. apply Hk. Qed.
Lemma yields_ret {A} (P : A → Prop) a : P a → yields P (pret a).
Proof. intros HP pos ? pos' [= <- <-]. done. Qed.
Lemma yields_err {A} (P : A → Prop) msg : yields P (@err A msg).
Proof. by intros pos ? pos'. Qed.
Lemma yields_throw {A} (P : A → Prop) e : yields P (@throw A e).
Proof. by intros pos ? pos'. Qed.
Lemma yields_no_fuel {A} (P : A → Prop) : yields P (@out_of_fuel A).
Proof. by intros pos ? pos'. Qed.
Lemma yields_impl {A} (P Q : A → Prop) m : yields P m → (∀ a, P a → Q a) → yields Q m.
Proof. intros Hm HPQ pos a pos' Ha. by eapply HPQ, Hm. Qed.

Create HintDb yields.
#[export] Hint Resolve yields_err yields_throw yields_no_fuel : yields.

(** Walks through the steps of a parser, keeping what the hints say of their
    results. *)
Ltac yields_walk :=
  repeat first
    [ solve [eauto with yields]
    | apply yields_ret
    | eapply yields_bind; [solve [eauto with yields]|]; intros; cbv beta
    | apply yields_then; intros; cbv beta
    | match goal with |- yields _ (if ?b then _ else _) => destruct b eqn:?
                    | |- yields _ (match ?x with _ => _ end) => destruct x eqn:? end
    | progress cbv zeta ].

(** The literals of the language, and the conditions it can write. *)
Definition literal (v : ConditionValue) : Prop :=
  match v with CNumber x => is_finite x = true | CList _ | CNull => False | _ => True end.

Definition written (c : Condition) : Prop :=
  match cond_op c with
  | OpIn => ∃ l, cond_value c = CList l ∧ Forall literal l
  | OpIsNull | OpIsNotNull => cond_value c = CNull
  | OpContains | OpStartsWith => ∃ s, cond_value c = CString s
  | _ => literal (cond_value c)
  end.

Definition written_element (e : PatternElement) : Prop :=
  match e with
  | PNode np => map_Forall (λ k v, literal v ∧ k ≠ "entity_type"%string) (np_properties np)
  | PEdge ep => (0 ≤ ep_min_hops ep)%Z ∧ (0 ≤ ep_max_hops ep)%Z
  end.

(** Nodes and edges take turns, from a node to a node. *)
Inductive path_of : MatchPattern → Prop :=
| path_node np : path_of [PNode np]
| path_step es ep np : path_of es → path_of (es ++ [PEdge ep; PNode np]).

Lemma parse_digits_nonneg l acc n :
  (∀ a, acc = Some a → 0 ≤ a)%Z →
  foldl (λ acc c, n ← acc; if is_ascii_digit c then Some (n * 10 + (byte c - 48))%Z else None) acc l = Some n →
  (0 ≤ n)%Z.
Proof.
  revert acc. induction l as [|c l IH]; intros acc Hacc; simpl; [by apply Hacc|]. apply IH. intros a.
  destruct acc as [b|]; [|done]. simpl. destruct (is_ascii_digit c) eqn:Hc; [|done]. intros [= <-].
  specialize (Hacc b eq_refl). unfold is_ascii_digit, in_range in Hc. lia.
Qed.

Lemma parse_usize_nonneg s n : parse_usize s = Some n → (0 ≤ n)%Z.
Proof.
  unfold parse_usize. destruct (match s with "+"%char :: rest => rest | _ => s end) as [|c l]; [done|].
  destruct (parse_digits (c :: l)) as [m|] eqn:Hm; [|done]. cbn [mbind option_bind]. case_match; [|done].
  intros [= <-]. eapply parse_digits_nonneg, Hm. by intros a [= <-].
Qed.

Section accepted.
Context `{CharTables}.
Variable input : list char.

Lemma yields_number : yields (λ n, 0 ≤ n)%Z (parse_number input).
Proof. unfold parse_number. yields_walk. by eapply parse_usize_nonneg. Qed.
#[local] Hint Resolve yields_number : yields.

Lemma yields_value : yields literal (parse_value input).
Proof. unfold parse_value, parse_number_value. yields_walk; simpl; done || (by apply negb_false_iff). Qed.
#[local] Hint Resolve yields_value : yields.

Lemma yields_props n m :
  map_Forall (λ _ v, literal v) m → yields (map_Forall (λ _ v, literal v)) (props_loop input n m).
Proof.
  revert m. induction n as [|n IH]; intros m Hm; simpl; yields_walk; try done. apply IH. by apply map_Forall_insert_2.
Qed.

Lemma yields_list n l : Forall literal l → yields (Forall literal) (list_loop input n l).
Proof.
  revert l. induction n as [|n IH]; intros l Hl; simpl; yields_walk; try done; apply IH, Forall_app; auto.
Qed.

Lemma yields_node : yields (λ np, written_element (PNode np)) (parse_node_pattern input).
Proof.
  assert (yields (map_Forall (λ _ v, literal v)) (parse_props input)).
  { unfold parse_props. apply yields_then. intros _. by apply yields_props. }
  unfold parse_node_pattern.
  apply yields_then. intros _. apply yields_then. intros _. apply yields_then. intros c.
  destruct (next_is ")" c); [apply yields_then; intros _; apply yields_ret; by apply map_Forall_empty|].
  do 6 (apply yields_then; intros ?; cbv beta).
  apply (yields_bind (map_Forall (λ _ v, literal v))); [destruct (next_is "{" _); [done|by apply yields_ret, map_Forall_empty]|].
  intros m Hm. do 2 (apply yields_then; intros ?; cbv beta). apply yields_ret. simpl.
  intros k v [Hk Hv]%lookup_delete_Some. split; [by apply (Hm k)|done].
Qed.

Lemma yields_edge : yields (λ ep, written_element (PEdge ep)) (parse_edge_pattern input).
Proof.
  assert (yields (λ h, 0 ≤ h.1 ∧ 0 ≤ h.2)%Z (edge_hops input)) by (unfold edge_hops; yields_walk; simpl; unfold DEFAULT_HOP_CAP; lia).
  unfold parse_edge_pattern. do 9 (apply yields_then; intros ?; cbv beta).
  eapply yields_bind; [done|]. intros hops Hh. do 4 (apply yields_then; intros ?; cbv beta). by apply yields_ret.
Qed.

Lemma yields_pattern : yields (λ es, path_of es ∧ Forall written_element es) (parse_pattern input).
Proof.
  assert (∀ n es, path_of es → Forall written_element es →
    yields (λ es, path_of es ∧ Forall written_element es) (pattern_loop input n es)) as Hloop.
  { induction n as [|n IH]; intros es Hp Hes; [apply yields_no_fuel|]. simpl.
    apply yields_then. intros _. apply yields_then. intros c. destruct (_ || _); [|by apply yields_ret].
    eapply yields_bind; [apply yields_edge|]. intros e He. eapply yields_bind; [apply yields_node|]. intros np Hnp.
    apply IH; [by constructor|]. apply Forall_app. split; [done|]. by repeat (apply Forall_cons; split). }
  unfold parse_pattern. eapply yields_bind; [apply yields_node|]. intros np Hnp.
  apply Hloop; [constructor|by apply Forall_singleton].
Qed.

Lemma yields_list_literal : yields (Forall literal) (parse_list_literal input).
Proof. unfold parse_list_literal. apply yields_then. intros _. by apply yields_list. Qed.
#[local] Hint Resolve yields_list_literal : yields.

Lemma yields_condition : yields written (parse_condition input).
Proof.
  unfold parse_condition. do 5 (apply yields_then; intros ?; cbv beta).
  eapply (yields_bind (λ v, written {| cond_variable := ""; cond_property := Field ""; cond_op := a3; cond_value := v |}));
    [|intros v Hv; by apply yields_ret].
  destruct a3; unfold written; simpl; try apply yields_value; try (by apply yields_ret).
  1,2: eapply yields_bind; [apply yields_value|]; intros v Hv; destruct v; try apply yields_err; apply yields_ret; eauto.
  eapply yields_bind; [apply yields_list_literal|]. intros l Hl. apply yields_ret. eauto.
Qed.

Definition written_where (e : WhereExpr) : Prop := Forall written (conditions e).

Lemma yields_and : yields written_where (parse_and_expr input).
Proof.
  assert (∀ n e, written_where e → yields written_where (and_loop input n e)) as Hloop.
  { induction n as [|n IH]; intros e He; [apply yields_no_fuel|]. simpl.
    apply yields_then. intros _. apply yields_then. intros more. destruct (negb more); [by apply yields_ret|].
    eapply yields_bind; [apply yields_condition|]. intros c Hc. apply IH. apply Forall_app. split; [done|by apply Forall_singleton]. }
  unfold parse_and_expr. eapply yields_bind; [apply yields_condition|]. intros c Hc. apply Hloop. by apply Forall_singleton.
Qed.

Lemma yields_where : yields written_where (parse_where_expr input).
Proof.
  assert (∀ n e, written_where e → yields written_where (or_loop input n e)) as Hloop.
  { induction n as [|n IH]; intros e He; [apply yields_no_fuel|]. simpl.
    apply yields_then. intros _. apply yields_then. intros more. destruct (negb more); [by apply yields_ret|].
    eapply yields_bind; [apply yields_and|]. intros c Hc. apply IH. by apply Forall_app. }
  unfold parse_where_expr. eapply yields_bind; [apply yields_and|]. intros c Hc. by apply Hloop.
Qed.

Lemma yields_return : yields (λ l, l ≠ []) (parse_return_items input).
Proof.
  assert (∀ n l, yields (λ l, l ≠ []) (return_loop input n l)) as Hloop; [|apply Hloop].
  induction n as [|n IH]; intros l; [apply yields_no_fuel|]. simpl.
  do 2 (apply yields_then; intros ?; cbv beta). case_match; [apply yields_throw|].
  do 2 (apply yields_then; intros ?; cbv beta). case_match; [apply yields_then; intros _; apply IH|].
  apply yields_ret. by destruct l.
Qed.

(** A query as it can be written. *)
Record accepted (q : GqlQuery) : Prop := {
  accepted_path : path_of (q_pattern q);
  accepted_elements : Forall written_element (q_pattern q);
  accepted_where : written_where (q_where q);
  accepted_return : q_return q ≠ [];
  accepted_offset : (0 ≤ q_offset q)%Z;
  accepted_limit n : q_limit q = Some n → (0 ≤ n)%Z
}.

Lemma yields_query : yields accepted (parse_query input).
Proof.
  unfold parse_query. apply yields_then. intros _.
  eapply yields_bind; [apply yields_pattern|]. intros es [Hp Hes]. do 2 (apply yields_then; intros ?; cbv beta).
  case_match; [apply yields_throw|]. apply yields_then. intros w.
  apply (yields_bind written_where); [destruct w; [apply yields_where|by apply yields_ret, Forall_nil_2]|]. intros e He.
  apply yields_then. intros _. eapply yields_bind; [apply yields_return|]. intros items Hitems.
  apply yields_then. intros s.
  apply (yields_bind (λ n, 0 ≤ n)%Z); [destruct s; [apply yields_number|by apply yields_ret]|]. intros off Hoff.
  apply (yields_bind (λ o, ∀ n, o = Some n → 0 ≤ n)%Z).
  { unfold parse_limit. apply yields_then. intros f. destruct f; [|by apply yields_ret].
    eapply yields_bind; [apply yields_number|]. intros n Hn. apply yields_ret. by intros ? [= <-]. }
  intros lim Hlim. apply yields_then. intros _. by apply yields_ret.
Qed.
End accepted.

Lemma run_yields {A} (P : A → Prop) (m : Parse A) a : yields P m → run m = Some (Ok a) → P a.
Proof.
  intros Hm. unfold run. destruct (m 0) as [[[b pos]|e]|] eqn:Hb; [|done|done].
  intros [= <-]. by eapply Hm.
Qed.

Lemma gql_parse_accepted `{CharTables} text q : gql_parse text = Some (Ok q) → accepted q.
Proof. unfold gql_parse. destruct (reject_gql_write _) as [[]|]; [|done]. apply run_yields, yields_query. Qed.

Lemma gql_parse_answers `{CharTables} text : ∃ r, gql_parse text = Some r.
Proof.
  unfold gql_parse. destruct (reject_gql_write _) as [[]|]; [|eauto]. eapply run_good, good_parse_query.
Qed.
