(* ===== verification/QuerySql.v ===== *)
(** khive-query/src/compilers/sql.rs and mailbox.rs: the compilation of a query
    to parameterized SQL, a join chain or a recursive table expression. *)

From Stdlib Require Import ZArith Ascii String.
From stdpp Require Import base tactics list numbers strings gmap sorting.
From S2P Require Import Prelude RustStr Json Rounding Float EdgeOntology QueryAst Gql.
#[local] Open Scope nat_scope.

(** ** Text and parameters *)

Definition cat (pieces : list string) : string := String.concat "" pieces.
Definition join (sep : string) (pieces : list string) : string := String.concat sep pieces.

(** [?N] *)
Definition hole (index : nat) : string := "?" +:+ fmt_nat index.

(** The compilation extends the parameters or fails. *)
Definition C (A : Type) : Type := list QueryValue → result (A * list QueryValue) QueryError.
#[export] Instance C_ret : MRet C := λ A a params, Ok (a, params).
#[export] Instance C_bind : MBind C := λ A B k m params,
  match m params with Ok (a, params) => k a params | Err e => Err e end.
Definition fail {A} (e : QueryError) : C A := λ _, Err e.
Definition lift {A} (r : result A QueryError) : C A := λ params,
  match r with Ok a => Ok (a, params) | Err e => Err e end.

(** [params.push(v)] followed by [params.len()]. *)
Definition push (v : QueryValue) : C nat := λ params, Ok (S (length params), params ++ [v]).

Definition get_params : C (list QueryValue) := λ params, Ok (params, params).

Fixpoint each {A B} (f : A → C B) (l : list A) : C (list B) :=
  match l with
  | [] => mret []
  | x :: l' => y ← f x; ys ← each f l'; mret (y :: ys)
  end.

(** [s.replace(c, cc)] for one character. *)
Definition double (c : ascii) (s : string) : string :=
  of_bytes (concat ((λ b, if Ascii.eqb b c then [c; c] else [b]) <$> to_bytes s)).

Definition quote_identifier (identifier : string) : string :=
  cat [dq; double dq_char identifier; dq].

Definition escape_like_literal (input : string) : string :=
  of_bytes (concat ((λ b, if Ascii.eqb b bs_char || Ascii.eqb b "%" || Ascii.eqb b "_"
                           then [bs_char; b] else [b]) <$> to_bytes input)).

(** ** Options *)

Record QueryMailboxScope := { actor_id : string; legacy_local_scope : bool }.
Record CompileOptions := { opt_scopes : list string; max_limit : Z }.
Record TruncationCheck := { check_max_limit : Z; requested_limit : option Z }.
Record CompiledQuery := {
  cq_sql : string;
  cq_params : list QueryValue;
  cq_return_vars : list ReturnItem;
  cq_warnings : list string;
  cq_truncation_check : option TruncationCheck
}.

Definition usize_saturating_add (a b : Z) : Z := Z.min usize_max (a + b).
Definition usize_saturating_sub (a b : Z) : Z := Z.max 0 (a - b).

Definition effective_limit (requested : option Z) (offset max_limit : Z) : Z * option TruncationCheck :=
  match requested with
  | Some limit =>
      let remaining := usize_saturating_sub limit offset in
      if (remaining <=? max_limit)%Z then (remaining, None)
      else (usize_saturating_add max_limit 1,
            Some {| check_max_limit := max_limit; requested_limit := Some limit |})
  | None =>
      (usize_saturating_add max_limit 1, Some {| check_max_limit := max_limit; requested_limit := None |})
  end.

(** ** mailbox.rs *)

Record MailboxLowering := { actor_parameter : nat; legacy_local : bool }.

Definition mailbox_bind (scope : QueryMailboxScope) : C MailboxLowering :=
  i ← push (QText (actor_id scope));
  mret {| actor_parameter := i; legacy_local := legacy_local_scope scope |}.

Definition note_visible (self : MailboxLowering) (alias : string) : string :=
  let json_type key := cat ["json_type("; alias; ".properties, '$."; key; "')"] in
  let extract key := cat ["json_extract("; alias; ".properties, '$."; key; "')"] in
  let absent key := cat ["("; json_type key; " IS NULL OR "; json_type key; " = 'null')"] in
  let not_text key := cat ["ifnull("; json_type key; ", '') != 'text'"] in
  let text_is_actor key :=
    cat ["("; json_type key; " = 'text' AND "; extract key; " = "; hole (actor_parameter self); ")"] in
  let direction := extract "direction" in
  let to := text_is_actor "to_actor" in
  let from := text_is_actor "from_actor" in
  let '(inbound_legacy, outbound_legacy, unrouted) :=
    if legacy_local self then
      (cat [" OR "; absent "to_actor"], cat [" OR "; absent "from_actor"],
       cat [" OR ("; absent "direction"; " AND "; not_text "from_actor"; " AND "; not_text "to_actor"; ")"])
    else ("", "", "")%string in
  cat ["("; alias; ".kind != 'message' OR ("; direction; " = 'inbound' AND ("; to; inbound_legacy;
       ")) OR ("; direction; " = 'outbound' AND ("; from; outbound_legacy; "))"; unrouted; ")"].

Definition note_filter (self : MailboxLowering) (alias : string) : string :=
  cat [" WHERE "; note_visible self alias].

Definition endpoint_visible (self : MailboxLowering) (endpoint : string) : string :=
  cat ["NOT EXISTS (SELECT 1 FROM notes mailbox_note WHERE mailbox_note.id = "; endpoint;
       " AND mailbox_note.kind = 'message' AND COALESCE("; note_visible self "mailbox_note";
       ", 0) = 0 AND NOT EXISTS (SELECT 1 FROM entities mailbox_entity WHERE mailbox_entity.id = ";
       endpoint; "))"].

Definition edge_filter (self : MailboxLowering) (alias : string) : string :=
  cat [" WHERE "; endpoint_visible self (cat [alias; ".source_id"]); " AND ";
       endpoint_visible self (cat [alias; ".target_id"])].

(** ** Sources *)

Definition is_synthetic (rel : string) : bool := existsb (String.eqb rel) SYNTHETIC_RELATIONS.
Definition synthetic_role (rel : string) : option string :=
  if String.eqb rel "observed_as_candidate" then Some "candidate"%string
  else if String.eqb rel "observed_as_selected" then Some "selected"%string
  else if String.eqb rel "observed_as_target" then Some "target"%string
  else if String.eqb rel "observed_as_signal" then Some "signal"%string
  else None.

Section sources.
Variable mailbox : option MailboxLowering.

Definition notes_filter : string := match mailbox with Some scope => note_filter scope "notes" | None => "" end.

Definition primary_node_sql : string :=
  let edges_filter := match mailbox with Some scope => edge_filter scope "graph_edges" | None => ""%string end in
  cat
    ["SELECT id, namespace, kind, entity_type, name, description, NULL AS content, NULL AS ";
     "status, NULL AS salience, NULL AS decay_factor, properties, created_at, updated_at, ";
     "deleted_at, 'entity' AS substrate_kind FROM entities UNION ALL SELECT id, namespace, ";
     "kind, NULL AS entity_type, name, NULL AS description, content, status, salience, ";
     "decay_factor, properties, created_at, updated_at, deleted_at, 'note' AS substrate_kind ";
     "FROM notes";
     notes_filter;
     " UNION ALL SELECT id, namespace, kind, NULL AS entity_type, verb AS name, NULL AS ";
     "description, NULL AS content, NULL AS status, NULL AS salience, NULL AS decay_factor, ";
     "payload AS properties, created_at, created_at AS updated_at, NULL AS deleted_at, ";
     "'event' AS substrate_kind FROM events UNION ALL SELECT id, namespace, relation AS kind, ";
     "NULL AS entity_type, NULL AS name, NULL AS description, NULL AS content, NULL AS ";
     "status, NULL AS salience, NULL AS decay_factor, metadata AS properties, created_at, ";
     "updated_at, deleted_at, 'edge' AS substrate_kind FROM graph_edges";
     edges_filter].

Definition primary_node_source (alias : string) : string := cat ["("; primary_node_sql; ") "; alias].

Definition observation_target_sql : string :=
  cat
    ["SELECT id, namespace, kind, entity_type, name, description, NULL AS content, NULL AS ";
     "status, NULL AS salience, NULL AS decay_factor, properties, created_at, updated_at, ";
     "deleted_at, 'entity' AS referent_kind FROM entities UNION ALL SELECT id, namespace, ";
     "kind, NULL AS entity_type, name, NULL AS description, content, status, salience, ";
     "decay_factor, properties, created_at, updated_at, deleted_at, 'note' AS referent_kind ";
     "FROM notes";
     notes_filter].

Definition observation_target_source (alias : string) : string :=
  cat ["("; observation_target_sql; ") "; alias].

Definition edge_source (alias : string) : string :=
  match mailbox with
  | Some scope => cat ["(SELECT * FROM graph_edges"; edge_filter scope "graph_edges"; ") "; alias]
  | None => cat ["graph_edges "; alias]
  end.
End sources.

(** ** Predicates *)

Definition in_placeholders (indices : list nat) : string := join ", " (hole <$> indices).

(** The predicate of the namespaces in scope, without its leading [AND]; [None]
    when every namespace is. *)
Definition namespace_predicate (alias : string) (opts : CompileOptions) : C (option string) :=
  match opt_scopes opts with
  | [] => mret None
  | [scope] => i ← push (QText scope); mret (Some (cat [alias; ".namespace = "; hole i]))
  | scopes =>
      indices ← each (λ s, push (QText s)) scopes;
      mret (Some (cat [alias; ".namespace IN ("; in_placeholders indices; ")"]))
  end.
Definition namespace_filter (alias : string) (opts : CompileOptions) : C string :=
  p ← namespace_predicate alias opts;
  mret match p with Some p => cat [" AND "; p] | None => ""%string end.

Definition text_predicate (column : string) (value : string) : C string :=
  i ← push (QText value); mret (cat [column; " = "; hole i]).

Definition kind_filter_predicate (alias kind : string) : C string :=
  if existsb (String.eqb kind) ["entity"; "note"; "event"; "edge"]%string
  then text_predicate (cat [alias; ".substrate_kind"]) kind
  else text_predicate (cat [alias; ".kind"]) kind.

Definition observation_kind_filter_predicate (alias kind : string) : C string :=
  if existsb (String.eqb kind) ["entity"; "note"]%string
  then text_predicate (cat [alias; ".referent_kind"]) kind
  else text_predicate (cat [alias; ".kind"]) kind.

Definition is_string (value : ConditionValue) : bool := match value with CString _ => true | _ => false end.
Definition collate (value : ConditionValue) : string := if is_string value then " COLLATE NOCASE" else "".

(** The scalar values as parameters. *)
Definition bind_scalar (value : ConditionValue) (refusal : string) : C nat :=
  match value with
  | CString s => push (QText s)
  | CInteger n => push (QInteger n)
  | CNumber x =>
      if negb (is_finite x)
      then fail (QInvalidInput "non-finite float (NaN or Infinity) is not a valid query parameter")
      else push (QFloat x)
  | CBool b => push (QInteger (if b then 1 else 0))
  | CList _ | CNull => fail (QValidation refusal)
  end.

Definition compile_property_equality (alias key : string) (value : ConditionValue)
    (text_column : option string) : C string :=
  i ← bind_scalar value "list and null operands are not valid in inline property maps";
  mret match text_column with
       | Some col => cat [alias; "."; col; " = "; hole i; collate value]
       | None => cat ["json_extract("; alias; ".properties, '$."; double "'" key; "') = "; hole i; collate value]
       end.

Definition bind_condition_value (value : ConditionValue) : C nat :=
  bind_scalar value "operator requires a scalar value".

Definition compile_condition_predicate (col_expr : string) (cond : Condition) : C string :=
  let like pattern :=
    i ← push (QText pattern);
    mret (cat [col_expr; " LIKE "; hole i; " COLLATE NOCASE ESCAPE '\'"]) in
  let compare op_str collated :=
    i ← bind_condition_value (cond_value cond);
    mret (cat [col_expr; " "; op_str; " "; hole i; if (collated : bool) then collate (cond_value cond) else ""%string]) in
  match cond_op cond with
  | OpContains | OpStartsWith =>
      match cond_value cond with
      | CString value =>
          let escaped := escape_like_literal value in
          like (if decide (cond_op cond = OpContains) then cat ["%"; escaped; "%"] else cat [escaped; "%"])
      | _ => fail (QValidation "CONTAINS and STARTS WITH require a string literal")
      end
  | OpIn =>
      match cond_value cond with
      | CList [] => mret "0"%string
      | CList values =>
          placeholders ← each bind_condition_value values;
          mret (cat [col_expr; if existsb is_string values then " COLLATE NOCASE" else ""; " IN (";
                     in_placeholders placeholders; ")"])
      | _ => fail (QValidation "IN requires a list literal")
      end
  | OpIsNotNull =>
      match cond_value cond with
      | CNull => mret (cat [col_expr; " IS NOT NULL"])
      | _ => fail (QValidation "IS NOT NULL does not accept a value")
      end
  | OpIsNull =>
      match cond_value cond with
      | CNull => mret (cat [col_expr; " IS NULL"])
      | _ => fail (QValidation "IS NULL does not accept a value")
      end
  | OpEq => compare "=" true
  | OpNeq => compare "!=" false
  | OpGt => compare ">" false
  | OpLt => compare "<" false
  | OpGte => compare ">=" false
  | OpLte => compare "<=" false
  | OpLike => compare "LIKE" true
  end%string.

(** ** Columns *)

Inductive SqlVarKind : Type := VNode | VEventNode | VObservationTargetNode | VEdge.
#[export] Instance SqlVarKind_EqDecision : EqDecision SqlVarKind.
Proof. solve_decision. Defined.

Definition NODE_COLUMNS : list string :=
  ["id"; "name"; "kind"; "entity_type"; "namespace"; "description"; "properties"; "created_at"; "updated_at"]%string.
Definition OBSERVATION_TARGET_COLUMNS : list string :=
  ["id"; "namespace"; "kind"; "entity_type"; "status"; "name"; "content"; "salience"; "decay_factor"; "properties"; "created_at"; "updated_at"; "referent_kind"]%string.
Definition EVENT_COLUMNS : list string :=
  ["id"; "namespace"; "verb"; "substrate"; "actor"; "kind"; "outcome"; "payload"; "duration_us"; "target_id"; "session_id"; "created_at"]%string.
Definition EDGE_COLUMNS : list string :=
  ["id"; "source_id"; "target_id"; "relation"; "weight"]%string.
Definition NODE_WHERE_COLUMNS : list string :=
  ["id"; "name"; "kind"; "entity_type"; "description"; "created_at"; "updated_at"]%string.
Definition OBSERVATION_TARGET_WHERE_COLUMNS : list string :=
  ["id"; "kind"; "entity_type"; "status"; "name"; "content"; "salience"; "decay_factor"; "created_at"; "updated_at"; "referent_kind"]%string.
Definition EVENT_WHERE_COLUMNS : list string :=
  ["id"; "verb"; "substrate"; "actor"; "kind"; "outcome"; "payload"; "duration_us"; "target_id"; "session_id"; "created_at"]%string.
Definition EDGE_WHERE_COLUMNS : list string :=
  ["relation"; "weight"]%string.

Definition property_columns (kind : SqlVarKind) : list string * string :=
  match kind with
  | VNode => (NODE_COLUMNS, "node")
  | VObservationTargetNode => (OBSERVATION_TARGET_COLUMNS, "observation target")
  | VEventNode => (EVENT_COLUMNS, "event")
  | VEdge => (EDGE_COLUMNS, "edge")
  end%string.

Definition where_property_columns (kind : SqlVarKind) : list string * string :=
  match kind with
  | VNode => (NODE_WHERE_COLUMNS, "node")
  | VObservationTargetNode => (OBSERVATION_TARGET_WHERE_COLUMNS, "observation target")
  | VEventNode => (EVENT_WHERE_COLUMNS, "event")
  | VEdge => (EDGE_WHERE_COLUMNS, "edge")
  end%string.

Definition contains (l : list string) (s : string) : bool := existsb (String.eqb s) l.

Definition property_to_column (prop : string) (kind : SqlVarKind) : result string QueryError :=
  let '(valid, kind_name) := property_columns kind in
  if contains valid prop then Ok prop
  else Err (QCompile (cat ["unknown "; kind_name; " property '"; prop; "' in RETURN projection. Valid: ";
                           join ", " valid])).

Section columns.
Context `{CharTables}.

Definition is_identifier (segment : string) : bool := forallb is_ident_char (str_chars segment).

Definition where_property_expression (property : PropertyRef) (kind : SqlVarKind) (alias : string)
    : result string QueryError :=
  let '(valid, kind_name) := where_property_columns kind in
  match property with
  | Field field =>
      if contains valid field then Ok (cat [alias; "."; field])
      else if String.eqb field "properties" then
        Err (QCompile "'properties' is reserved as the JSON path root in WHERE clauses; use 'properties.<path>'")
      else Err (QCompile (cat ["unknown "; kind_name; " field '"; field; "' in WHERE clause. Valid fields: ";
             join ", " valid; "; JSON properties must use 'properties.<path>'"]))
  | JsonPath path =>
      if negb (contains (property_columns kind).1 "properties") then
        Err (QCompile (cat [kind_name; " variables do not expose JSON properties in WHERE clauses. Valid fields: ";
             join ", " valid]))
      else
        match path with
        | [] => Err (QCompile "JSON property path cannot be empty; use 'properties.<path>'")
        | _ =>
            match List.find (λ segment, String.eqb segment "" || negb (is_identifier segment)) path with
            | Some segment =>
                Err (QCompile (cat ["invalid JSON property path segment '"; segment;
                     "'; path segments must be identifiers"]))
            | None => Ok (cat ["json_extract("; alias; ".properties, '$."; join "." path; "')"])
            end
        end
  end.
End columns.

(** ** WHERE expressions *)

(** [HashMap<String, (String, VarKind)>] *)
Definition Aliases : Type := gmap string (string * SqlVarKind).

Definition and_or (sep : string * string * string) (l r : option string) : option string :=
  let '(before, op, after) := sep in
  match l, r with
  | None, None => None
  | Some s, None | None, Some s => Some s
  | Some l, Some r => Some (cat [before; l; op; r; after])
  end.

Section conditions.
Context `{CharTables}.

Definition compile_single_condition (cond : Condition) (var_to_alias : Aliases) : C string :=
  match var_to_alias !! cond_variable cond with
  | None => fail (QCompile (cat ["unknown variable '"; cond_variable cond; "' in WHERE clause"]))
  | Some (alias, kind) =>
      col_expr ← lift (where_property_expression (cond_property cond) kind alias);
      compile_condition_predicate col_expr cond
  end.

Fixpoint compile_where_expr (expr : WhereExpr) (var_to_alias : Aliases) : C (option string) :=
  match expr with
  | WTrue => mret None
  | WCondition cond => sql ← compile_single_condition cond var_to_alias; mret (Some sql)
  | WAnd l r =>
      ls ← compile_where_expr l var_to_alias;
      rs ← compile_where_expr r var_to_alias;
      mret (and_or ("", " AND ", "")%string ls rs)
  | WOr l r =>
      ls ← compile_where_expr l var_to_alias;
      rs ← compile_where_expr r var_to_alias;
      mret (and_or ("(", " OR ", ")")%string ls rs)
  end.
End conditions.

(** ** Fixed-length patterns *)

(** The indices of the nodes that are sources and targets of synthetic edges. *)
Fixpoint synthetic_endpoints (elements : MatchPattern) (node_idx : nat) (prev : option nat)
    (sources targets : gset nat) : gset nat * gset nat :=
  match elements with
  | [] => (sources, targets)
  | PNode _ :: rest => synthetic_endpoints rest (S node_idx) (Some node_idx) sources targets
  | PEdge ep :: rest =>
      match existsb is_synthetic (ep_relations ep), prev with
      | true, Some src => synthetic_endpoints rest node_idx prev ({[src]} ∪ sources) ({[node_idx]} ∪ targets)
      | _, _ => synthetic_endpoints rest node_idx prev sources targets
      end
  end.
Definition synthetic_endpoint_node_indices (elements : MatchPattern) : gset nat * gset nat :=
  synthetic_endpoints elements 0 None ∅ ∅.

(** The parts of the statement, in the order they are pushed. *)
Record Parts := {
  from_parts : list string;
  join_parts : list string;
  where_parts : list string;
  order_parts : list string;
  var_to_alias : Aliases;
  node_count : nat;
  edge_count : nat
}.
Definition no_parts : Parts :=
  {| from_parts := []; join_parts := []; where_parts := []; order_parts := []; var_to_alias := ∅;
     node_count := 0; edge_count := 0 |}.

Definition node_alias (i : nat) : string := "n" +:+ fmt_nat i.
Definition edge_alias (i : nat) : string := "e" +:+ fmt_nat i.

Definition opt_list {A} (o : option A) : list A := match o with Some x => [x] | None => [] end.

(** [if let Some(x) = o { parts.push(f(x)) }] *)
Definition when_some {A} (o : option A) (f : A → C string) : C (list string) :=
  match o with Some x => s ← f x; mret [s] | None => mret [] end.

Definition key_le (a b : string * ConditionValue) : Prop := String.leb a.1 b.1 = true.
#[export] Instance key_le_dec a b : Decision (key_le a b) := decide (String.leb a.1 b.1 = true).
(** [props.sort_by_key(|(k, _)| k.as_str())] *)
Definition sorted_props (props : gmap string ConditionValue) : list (string * ConditionValue) :=
  merge_sort key_le (map_to_list props).

Definition compile_props (alias : string) (direct : list string) (props : gmap string ConditionValue)
    : C (list string) :=
  each (λ '(key, value),
    compile_property_equality alias key value (if contains direct key then Some key else None))
    (sorted_props props).

Definition event_columns_only : QueryError :=
  QCompile "event nodes do not support inline property filters; use a WHERE clause on verb, outcome, or payload fields".

(** The filters of a node, by the table it is bound to. *)
Definition node_filters (opts : CompileOptions) (is_event_source is_observation_target : bool)
    (alias : string) (np : NodePattern) : C (list string) :=
  if is_event_source then
    ns ← namespace_predicate alias opts;
    kind ← match np_kind np with
           | Some kind => if String.eqb kind "event" then mret []
                          else (s ← text_predicate (cat [alias; ".kind"]) kind; mret [s])
           | None => mret []
           end;
    match np_entity_type np with
    | Some _ => fail (QCompile "event nodes do not have an entity_type column")
    | None =>
        if bool_decide (np_properties np = ∅)
        then mret (opt_list ns ++ kind)
        else fail event_columns_only
    end
  else
    ns ← namespace_predicate alias opts;
    kind ← when_some (np_kind np)
             (if is_observation_target then observation_kind_filter_predicate alias
              else kind_filter_predicate alias);
    et ← when_some (np_entity_type np) (text_predicate (cat [alias; ".entity_type"]));
    props ← compile_props alias (if is_observation_target then ["name"; "content"] else ["name"])%string
              (np_properties np);
    mret (cat [alias; ".deleted_at IS NULL"] :: opt_list ns ++ kind ++ et ++ props).

Section fixed.
Context `{CharTables}.
Variables (opts : CompileOptions) (mailbox : option MailboxLowering).
Variables (event_sources observation_targets : gset nat).

Definition compile_node (np : NodePattern) (self : Parts) : C Parts :=
  let i := node_count self in
  let alias := node_alias i in
  let is_event_source := bool_decide (i ∈ event_sources) in
  let is_observation_target := bool_decide (i ∈ observation_targets) in
  let order :=
    if is_event_source then [cat [alias; ".id"]]
    else if is_observation_target then [cat [alias; ".referent_kind"]; cat [alias; ".id"]]
    else [cat [alias; ".substrate_kind"]; cat [alias; ".id"]] in
  let from :=
    match i with
    | 0 => if is_event_source then [cat ["events "; alias]]
           else if is_observation_target then [] else [primary_node_source mailbox alias]
    | S _ => []
    end in
  filters ← node_filters opts is_event_source is_observation_target alias np;
  let kind := if is_event_source then VEventNode
              else if is_observation_target then VObservationTargetNode else VNode in
  mret {| from_parts := from_parts self ++ from; join_parts := join_parts self;
          where_parts := where_parts self ++ filters; order_parts := order_parts self ++ order;
          var_to_alias := match np_variable np with
                          | Some var => <[var := (alias, kind)]> (var_to_alias self)
                          | None => var_to_alias self
                          end;
          node_count := S i; edge_count := edge_count self |}.

(** [col = ?N] for one value, [col IN (…)] for several. *)
Definition text_choice (column : string) (values : list string) : C (list string) :=
  match values with
  | [] => mret []
  | [v] => s ← text_predicate column v; mret [s]
  | _ => indices ← each (λ v, push (QText v)) values;
         mret [cat [column; " IN ("; in_placeholders indices; ")"]]
  end.

Definition compile_synthetic_edge (e_alias prev_node next_alias : string) (ep : EdgePattern)
    : C (list string * list string * list string) :=
  match ep_direction ep with
  | Out =>
      roles ← text_choice (cat [e_alias; ".role"]) (omap synthetic_role (ep_relations ep));
      mret ([cat ["JOIN event_observations "; e_alias; " ON "; e_alias; ".event_id = "; prev_node; ".id"];
             cat ["JOIN "; observation_target_source mailbox next_alias; " ON "; next_alias; ".id = "; e_alias;
                  ".entity_id AND "; next_alias; ".referent_kind = "; e_alias; ".referent_kind"]],
            roles ++ [cat ["(("; e_alias; ".role IN ('candidate', 'selected') AND "; e_alias;
              ".referent_kind IN ('entity', 'note')) OR ("; e_alias; ".role = 'target' AND "; e_alias;
              ".referent_kind IN ('entity', 'note')) OR ("; e_alias; ".role = 'signal' AND "; e_alias;
              ".referent_kind IN ('entity', 'note')))"]],
            [cat [e_alias; ".event_id"]; cat [e_alias; ".role"]; cat [e_alias; ".position"]])
  | _ => fail (QCompile "synthetic observed_as_* edges are always event → entity (outbound only)")
  end.

Definition compile_canonical_edge (e_alias prev_node next_alias : string) (ep : EdgePattern)
    : C (list string * list string * list string) :=
  let source_join :=
    match ep_direction ep with
    | Out => cat [e_alias; ".source_id = "; prev_node; ".id"]
    | In => cat [e_alias; ".target_id = "; prev_node; ".id"]
    | Both => cat ["("; e_alias; ".source_id = "; prev_node; ".id OR "; e_alias; ".target_id = "; prev_node; ".id)"]
    end in
  let next_join_col :=
    match ep_direction ep with
    | Out => cat [e_alias; ".target_id"]
    | In => cat [e_alias; ".source_id"]
    | Both => cat ["CASE WHEN "; e_alias; ".source_id = "; prev_node; ".id THEN "; e_alias;
                   ".target_id ELSE "; e_alias; ".source_id END"]
    end in
  ns ← namespace_predicate e_alias opts;
  relations ← text_choice (cat [e_alias; ".relation"]) (ep_relations ep);
  mret ([cat ["JOIN "; edge_source mailbox e_alias; " ON "; source_join; " AND "; e_alias; ".deleted_at IS NULL"];
         cat ["JOIN "; primary_node_source mailbox next_alias; " ON "; next_alias; ".id = "; next_join_col]],
        opt_list ns ++ relations, [cat [e_alias; ".id"]]).

Definition compile_edge (ep : EdgePattern) (self : Parts) : C Parts :=
  let e_alias := edge_alias (edge_count self) in
  let prev_node := node_alias (pred (node_count self)) in
  let next_alias := node_alias (node_count self) in
  let has_synthetic := existsb is_synthetic (ep_relations ep) in
  let has_canonical := existsb (λ r, negb (is_synthetic r)) (ep_relations ep) in
  if has_synthetic && has_canonical then
    fail (QCompile "cannot mix synthetic observed_as_* relations with canonical edge relations in a single edge pattern")
  else
    '(joins, wheres, orders) ← (if has_synthetic then compile_synthetic_edge e_alias prev_node next_alias ep
                                else compile_canonical_edge e_alias prev_node next_alias ep);
    mret {| from_parts := from_parts self; join_parts := join_parts self ++ joins;
            where_parts := where_parts self ++ wheres; order_parts := order_parts self ++ orders;
            var_to_alias := match ep_variable ep with
                            | Some var => <[var := (e_alias, VEdge)]> (var_to_alias self)
                            | None => var_to_alias self
                            end;
            node_count := node_count self; edge_count := S (edge_count self) |}.

Fixpoint compile_elements (elements : MatchPattern) (self : Parts) : C Parts :=
  match elements with
  | [] => mret self
  | PNode np :: rest => self ← compile_node np self; compile_elements rest self
  | PEdge ep :: rest => self ← compile_edge ep self; compile_elements rest self
  end.
End fixed.

(** ** Projections *)

(** A column and the suffix of its output name. *)
Definition variable_columns (kind : SqlVarKind) : list (string * string) :=
  match kind with
  | VNode => (λ c, (c, c)) <$> ["id"; "namespace"; "kind"; "entity_type"; "name"; "properties"; "created_at"; "updated_at"]
  | VObservationTargetNode =>
      (λ c, (c, c)) <$> ["id"; "namespace"; "kind"; "entity_type"; "status"; "content"; "salience"; "properties";
                          "created_at"; "updated_at"; "referent_kind"]
  | VEventNode =>
      (λ c, (c, c)) <$> ["id"; "namespace"; "verb"; "substrate"; "actor"; "kind"; "outcome"; "payload"; "created_at"]
  | VEdge => [("id", "id"); ("source_id", "source"); ("target_id", "target"); ("relation", "relation");
              ("weight", "weight")]
  end%string.

Definition output_alias (var suffix : string) : string := quote_identifier (cat [var; "_"; suffix]).
Definition projection (table column alias : string) : string := cat [table; "."; column; " AS "; alias].

Definition unknown_return (var : string) : QueryError :=
  QCompile (cat ["unknown variable '"; var; "' in RETURN clause"]).

Definition project_item (aliases : Aliases) (item : ReturnItem) : result (list string) QueryError :=
  let var := item_variable item in
  match aliases !! var with
  | None => Err (unknown_return var)
  | Some (alias, kind) =>
      match item with
      | RProperty _ prop =>
          let? col := property_to_column prop kind in
          Ok [projection alias col (output_alias var prop)]
      | RVariable _ =>
          Ok ((λ '(column, suffix), projection alias column (output_alias var suffix)) <$> variable_columns kind)
      end
  end.

(** [i64::try_from] of a [usize] *)
Definition push_i64 (n : Z) (what : string) : C nat :=
  if (n <=? i64_max)%Z then push (QInteger n) else fail (QInvalidInput (cat [what; " exceeds i64::MAX"])).

Section compile.
Context `{CharTables}.

Definition compile_fixed_length (query : GqlQuery) (opts : CompileOptions)
    (mailbox : option QueryMailboxScope) : C CompiledQuery :=
  mailbox ← match mailbox with
            | Some scope => m ← mailbox_bind scope; mret (Some m)
            | None => mret None
            end;
  let '(event_sources, observation_targets) := synthetic_endpoint_node_indices (q_pattern query) in
  parts ← compile_elements opts mailbox event_sources observation_targets (q_pattern query) no_parts;
  where_sql ← compile_where_expr (q_where query) (var_to_alias parts);
  selects ← lift (try_map (project_item (var_to_alias parts)) (q_return query));
  offset_param ← push_i64 (q_offset query) "SKIP";
  let '(limit, truncation_check) := effective_limit (q_limit query) (q_offset query) (max_limit opts) in
  limit_param ← push_i64 limit "limit";
  params ← get_params;
  mret {| cq_sql := cat ["SELECT "; join ", " (concat selects); " FROM "; join ", " (from_parts parts); " ";
                         join " " (join_parts parts); " WHERE ";
                         join " AND " (where_parts parts ++ opt_list where_sql); " ORDER BY ";
                         join ", " (order_parts parts); " LIMIT "; hole limit_param; " OFFSET "; hole offset_param];
          cq_params := params; cq_return_vars := q_return query; cq_warnings := [];
          cq_truncation_check := truncation_check |}.

(** ** Variable-length patterns *)

Fixpoint expr_endpoint_set (expr : WhereExpr) (start_var end_var : option string) : bool * bool :=
  match expr with
  | WTrue => (false, false)
  | WCondition c => (bool_decide (start_var = Some (cond_variable c)), bool_decide (end_var = Some (cond_variable c)))
  | WAnd l r | WOr l r =>
      let '(ls, le) := expr_endpoint_set l start_var end_var in
      let '(rs, re) := expr_endpoint_set r start_var end_var in
      (ls || rs, le || re)
  end.

Fixpoint reject_or_spanning (expr : WhereExpr) (start_var end_var : option string) : result () QueryError :=
  match expr with
  | WTrue | WCondition _ => Ok ()
  | WAnd l r => check? reject_or_spanning l start_var end_var in reject_or_spanning r start_var end_var
  | WOr l r =>
      let '(l_start, l_end) := expr_endpoint_set l start_var end_var in
      let '(r_start, r_end) := expr_endpoint_set r start_var end_var in
      if (l_start || r_start) && (l_end || r_end) then
        Err (QUnsupported "WHERE clauses that span both endpoints in a variable-length pattern are not yet supported; rewrite as separate queries or restrict each OR branch to one endpoint")
      else check? reject_or_spanning l start_var end_var in reject_or_spanning r start_var end_var
  end.

(** The two tables a condition of a variable-length pattern may be about. *)
Inductive Endpoint : Type := AtStart | AtEnd.
Definition endpoint_alias (e : Endpoint) : string := match e with AtStart => "s" | AtEnd => "r" end.

Definition compile_var_len_condition (cond : Condition) (start_var end_var : option string) : C (string * Endpoint) :=
  let at_ e :=
    col_expr ← lift (where_property_expression (cond_property cond) VNode (endpoint_alias e));
    sql ← compile_condition_predicate col_expr cond;
    mret (sql, e) in
  if decide (start_var = Some (cond_variable cond)) then at_ AtStart
  else if decide (end_var = Some (cond_variable cond)) then at_ AtEnd
  else fail (QCompile (cat ["variable '"; cond_variable cond;
         "' in WHERE not supported in variable-length pattern (only start/end node variables)"])).

(** One endpoint-local expression, with its endpoint: that of the left branch. *)
Definition join_local (before op after : string) (l r : option (string * Endpoint)) : option (string * Endpoint) :=
  match l, r with
  | None, None => None
  | Some s, None | None, Some s => Some s
  | Some (l, e), Some (r, _) => Some (cat [before; l; op; r; after], e)
  end.

Fixpoint compile_where_to_sql (expr : WhereExpr) (start_var end_var : option string)
    : C (option (string * Endpoint)) :=
  match expr with
  | WTrue => mret None
  | WCondition cond => s ← compile_var_len_condition cond start_var end_var; mret (Some s)
  | WAnd l r =>
      ls ← compile_where_to_sql l start_var end_var;
      rs ← compile_where_to_sql r start_var end_var;
      mret (join_local "" " AND " "" ls rs)
  | WOr l r =>
      ls ← compile_where_to_sql l start_var end_var;
      rs ← compile_where_to_sql r start_var end_var;
      mret (join_local "(" " OR " ")" ls rs)
  end.

(** The conditions in the order they are pushed, each with its endpoint. *)
Fixpoint compile_variable_length_where (expr : WhereExpr) (start_var end_var : option string)
    : C (list (string * Endpoint)) :=
  match expr with
  | WTrue => mret []
  | WCondition cond => s ← compile_var_len_condition cond start_var end_var; mret [s]
  | WAnd l r =>
      ls ← compile_variable_length_where l start_var end_var;
      rs ← compile_variable_length_where r start_var end_var;
      mret (ls ++ rs)
  | WOr l r =>
      ls ← compile_where_to_sql l start_var end_var;
      rs ← compile_where_to_sql r start_var end_var;
      mret (opt_list (join_local "(" " OR " ")" ls rs))
  end.

Definition at_endpoint (e : Endpoint) (conditions : list (string * Endpoint)) : list string :=
  omap (λ '(s, e'), match e, e' with AtStart, AtStart | AtEnd, AtEnd => Some s | _, _ => None end) conditions.

(** The filters of an endpoint node. *)
Definition endpoint_filters (opts : CompileOptions) (alias : string) (np : NodePattern) : C (list string) :=
  ns ← namespace_predicate alias opts;
  kind ← when_some (np_kind np) (kind_filter_predicate alias);
  et ← when_some (np_entity_type np) (text_predicate (cat [alias; ".entity_type"]));
  props ← compile_props alias ["name"%string] (np_properties np);
  mret (cat [alias; ".deleted_at IS NULL"] :: opt_list ns ++ kind ++ et ++ props).

Definition relation_condition (relations : list string) : C string :=
  parts ← text_choice "e.relation" relations;
  mret match parts with [] => ""%string | _ => cat (" AND "%string :: parts) end.

(** The projection of an item and its output names; the flag says that the start
    table is needed. *)
Definition path_columns : list (string * string) :=
  [("via_edge", "id"); ("via_relation", "relation"); ("via_weight", "weight")]%string.

Definition project_path_item (start_var : option string) (kinds : gmap string SqlVarKind) (item : ReturnItem)
    : result (list (string * string) * bool) QueryError :=
  let var := item_variable item in
  let is_start := bool_decide (start_var = Some var) in
  let tbl := if is_start then "s"%string else "r"%string in
  let named table := λ '(column, suffix), let alias := output_alias var suffix in (projection table column alias, alias) in
  match kinds !! var with
  | None => Err (unknown_return var)
  | Some VNode =>
      match item with
      | RProperty _ prop =>
          let? col := property_to_column prop VNode in Ok ([named tbl (col, prop)], is_start)
      | RVariable _ => Ok (named tbl <$> variable_columns VNode, is_start)
      end
  | Some VEdge =>
      match item with
      | RProperty _ prop =>
          match List.find (λ '(_, suffix), String.eqb suffix prop) path_columns with
          | Some (column, _) => Ok ([named "t"%string (column, prop)], false)
          | None => Err (QCompile (cat ["unknown edge property '"; prop;
                      "' in RETURN projection. Valid: id, source_id, target_id, relation, weight"]))
          end
      | RVariable _ => Ok (named "t"%string <$> path_columns, false)
      end
  | Some _ => Err (QUnsupported "synthetic observed_as_* edges cannot be used in variable-length patterns; use a fixed-length edge pattern instead")
  end.

Definition direction_joins (d : EdgeDirection) : string * string * string * string :=
  match d with
  | Out => ("e.source_id = s.id", "e.target_id", "e.source_id = t.current_id", "e.target_id")
  | In => ("e.target_id = s.id", "e.source_id", "e.target_id = t.current_id", "e.source_id")
  | Both => ("(e.source_id = s.id OR e.target_id = s.id)",
             "CASE WHEN e.source_id = s.id THEN e.target_id ELSE e.source_id END",
             "(e.source_id = t.current_id OR e.target_id = t.current_id)",
             "CASE WHEN e.source_id = t.current_id THEN e.target_id ELSE e.source_id END")
  end%string.

Definition insert_some {A} (o : option string) (x : A) (m : gmap string A) : gmap string A :=
  match o with Some v => <[v := x]> m | None => m end.

Definition path_shape : QueryError :=
  QUnsupported "variable-length patterns must be a single start_node -[*N..M]-> end_node (mixed fixed/variable chains are not yet implemented)".

Definition compile_path (start : NodePattern) (edge : EdgePattern) (end_ : NodePattern) (query : GqlQuery)
    (opts : CompileOptions) (mailbox : option MailboxLowering) : C CompiledQuery :=
  if existsb is_synthetic (ep_relations edge) then
    fail (QUnsupported "synthetic observed_as_* edges cannot be variable-length; use a fixed-length edge pattern instead")
  else
    let max_depth := Z.min (ep_max_hops edge) MAX_DEPTH in
    let min_depth := ep_min_hops edge in
    start_filters ← endpoint_filters opts "s" start;
    relation_sql ← relation_condition (ep_relations edge);
    e_ns ← namespace_filter "e" opts;
    let '(seed_join, seed_next, recurse_join, recurse_next) := direction_joins (ep_direction edge) in
    next_ns ← namespace_filter "next_node" opts;
    depth_param ← push_i64 max_depth "max_depth";
    end_filters ← endpoint_filters opts "r" end_;
    _ ← lift (reject_or_spanning (q_where query) (np_variable start) (np_variable end_));
    conditions ← compile_variable_length_where (q_where query) (np_variable start) (np_variable end_);
    min_filter ← (if (min_depth >? 0)%Z
                  then (i ← push_i64 min_depth "min_depth"; mret [cat ["t.depth >= "; hole i]])
                  else mret []);
    offset_param ← push_i64 (q_offset query) "SKIP";
    let '(limit, truncation_check) := effective_limit (q_limit query) (q_offset query) (max_limit opts) in
    limit_param ← push_i64 limit "limit";
    let kinds := insert_some (ep_variable edge) VEdge
                   (insert_some (np_variable end_) VNode (insert_some (np_variable start) VNode ∅)) in
    items ← lift (try_map (project_path_item (np_variable start) kinds) (q_return query));
    let named := concat (fst <$> items) in
    let has_start := existsb snd items in
    let depth_alias := quote_identifier "_depth" in
    let total_weight_alias := quote_identifier "_total_weight" in
    let select_parts := named.*1 ++ [cat ["t.depth AS "; depth_alias]; cat ["t.total_weight AS "; total_weight_alias]] in
    let order_aliases := List.filter (λ a, negb (String.eqb a depth_alias) && negb (String.eqb a total_weight_alias))
                           (named.*2) in
    let order_suffix := match order_aliases with [] => ""%string | _ => cat [", "; join ", " order_aliases] end in
    let join_start := if has_start then "JOIN primary_nodes s ON s.id = t.start_id"%string else ""%string in
    let edges := edge_source mailbox "e" in
    let step := cat [" AND e.deleted_at IS NULL"; e_ns; relation_sql; " JOIN primary_nodes next_node ON next_node.id = ("] in
    params ← get_params;
    mret {| cq_sql :=
              cat ["WITH RECURSIVE primary_nodes AS ("; primary_node_sql mailbox;
                   "), traverse(start_id, current_id, depth, path, total_weight, via_edge, via_relation, via_weight) AS (SELECT s.id, ";
                   seed_next; ", 1, s.id || ',' || "; seed_next;
                   ", e.weight, e.id, e.relation, e.weight FROM primary_nodes s JOIN "; edges; " ON "; seed_join; step;
                   seed_next; ") AND next_node.deleted_at IS NULL"; next_ns; " WHERE ";
                   join " AND " (start_filters ++ at_endpoint AtStart conditions);
                   " UNION ALL SELECT t.start_id, "; recurse_next; ", t.depth + 1, t.path || ',' || "; recurse_next;
                   ", t.total_weight + e.weight, e.id, e.relation, e.weight FROM traverse t CROSS JOIN "; edges; " ON ";
                   recurse_join; step; recurse_next; ") AND next_node.deleted_at IS NULL"; next_ns; " WHERE t.depth < ";
                   hole depth_param; " AND (',' || t.path || ',') NOT LIKE '%,' || "; recurse_next;
                   " || ',%' ) SELECT DISTINCT "; join ", " select_parts; " FROM traverse t "; join_start;
                   " JOIN primary_nodes r ON r.id = t.current_id WHERE ";
                   join " AND " (end_filters ++ at_endpoint AtEnd conditions ++ min_filter);
                   " ORDER BY "; depth_alias; ", "; total_weight_alias; " DESC"; order_suffix;
                   " LIMIT "; hole limit_param; " OFFSET "; hole offset_param];
            cq_params := params; cq_return_vars := q_return query; cq_warnings := [];
            cq_truncation_check := truncation_check |}.

Definition compile_variable_length (query : GqlQuery) (opts : CompileOptions)
    (mailbox : option QueryMailboxScope) : C CompiledQuery :=
  mailbox ← match mailbox with
            | Some scope => m ← mailbox_bind scope; mret (Some m)
            | None => mret None
            end;
  match q_pattern query with
  | [PNode start; PEdge edge; PNode end_] => compile_path start edge end_ query opts mailbox
  | _ => fail path_shape
  end.

(** ** The entry points *)

Definition SELECT_ONLY : list string := ["SELECT"; "WITH"]%string.
Definition assert_select_only (sql : string) : result () QueryError :=
  let first := to_uppercase (chars_str (first_word (str_chars sql))) in
  if existsb (String.eqb first) SELECT_ONLY then Ok () else Err (read_only_error QCompile).

Context `{Externals}.

Definition compile_scoped (query : GqlQuery) (opts : CompileOptions) (mailbox : option QueryMailboxScope)
    : result CompiledQuery QueryError :=
  match q_pattern query with
  | [] => Err (QCompile "empty pattern")
  | _ =>
      let? (query, warnings) := validate_with_warnings query in
      let? (compiled, _) :=
        (if has_variable_length (q_pattern query)
         then compile_variable_length query opts mailbox
         else compile_fixed_length query opts mailbox) [] in
      check? assert_select_only (cq_sql compiled) in
      Ok {| cq_sql := cq_sql compiled; cq_params := cq_params compiled;
            cq_return_vars := cq_return_vars compiled; cq_warnings := cq_warnings compiled ++ warnings;
            cq_truncation_check := cq_truncation_check compiled |}
  end.

Definition compile (query : GqlQuery) (opts : CompileOptions) : result CompiledQuery QueryError :=
  compile_scoped query opts None.
Definition compile_with_mailbox (query : GqlQuery) (opts : CompileOptions) (mailbox : QueryMailboxScope)
    : result CompiledQuery QueryError := compile_scoped query opts (Some mailbox).
End compile.
