(* ===== verification/SqlText.v ===== *)
(** The lexical structure of the SQL the compiler writes: its quoted literals, its
    placeholders, and the relation of two texts that differ only in what their
    literals say. *)

From Stdlib Require Import ZArith Ascii String Lia.
From stdpp Require Import base tactics list numbers strings gmap pretty.
From S2P Require Import Prelude RustStr Rounding Float QueryAst Gql QuerySql.

#[local] Open Scope nat_scope.

(** ** Tokens *)

(** A text is read as code characters, placeholders [?N], and literals, of which
    only the quote is kept: inside a literal a doubled quote stands for itself. *)
Inductive token : Type :=
| Sym (c : ascii)
| Hole (n : N)
| Lit (quote : ascii).

Inductive lex : Type :=
| Code
| Num (n : N)
| Quoted (q : ascii)
| Closing (q : ascii).

Definition single_quote : ascii := "'".
Definition is_sql_quote (c : ascii) : bool := Ascii.eqb c single_quote || Ascii.eqb c dq_char.

Definition code_step (c : ascii) : lex * list token :=
  if is_sql_quote c then (Quoted c, [Lit c])
  else if Ascii.eqb c "?" then (Num 0, [])
  else (Code, [Sym c]).

Definition digit_value (c : ascii) : N := (N_of_ascii c - 48)%N.

Definition lex_step (st : lex) (c : ascii) : lex * list token :=
  match st with
  | Code => code_step c
  | Num n =>
      if is_ascii_digit c then (Num (10 * n + digit_value c), [])
      else let '(st, out) := code_step c in (st, Hole n :: out)
  | Quoted q => if Ascii.eqb c q then (Closing q, []) else (Quoted q, [])
  | Closing q => if Ascii.eqb c q then (Quoted q, []) else code_step c
  end.

Fixpoint run (st : lex) (s : string) : lex * list token :=
  match s with
  | EmptyString => (st, [])
  | String c s =>
      let '(st, out) := lex_step st c in
      let '(st, rest) := run st s in (st, out ++ rest)
  end.

Definition pending (st : lex) : list token := match st with Num n => [Hole n] | _ => [] end.

(** The tokens of a text; [None] when a literal is not closed. *)
Definition sql_tokens (s : string) : option (list token) :=
  let '(st, out) := run Code s in
  match st with Quoted _ => None | _ => Some (out ++ pending st) end.

Lemma run_app st s t :
  run st (s +:+ t) = let '(st1, o1) := run st s in let '(st2, o2) := run st1 t in (st2, o1 ++ o2).
Proof.
  revert st. induction s as [|c s IH]; intros st; simpl.
  - change ("" +:+ t)%string with t. by destruct (run st t).
  - destruct (lex_step st c) as [st' o]. rewrite IH. destruct (run st' s) as [st1 o1].
    destruct (run st1 t) as [st2 o2]. by rewrite <-app_assoc.
Qed.

(** ** Texts that agree outside their literals *)

Definition in_range_of (N0 : nat) (t : token) : Prop :=
  match t with Hole n => (1 ≤ n ≤ N.of_nat N0)%N | _ => True end.

(** [s] and [s'] lead from [st] to [st'] with the same tokens, their placeholders
    numbered from 1 to [N0]. *)
Definition sim (N0 : nat) (st : lex) (s s' : string) (st' : lex) : Prop :=
  ∃ out, run st s = (st', out) ∧ run st s' = (st', out) ∧ Forall (in_range_of N0) out.

Definition closed (N0 : nat) (st : lex) : Prop :=
  match st with
  | Quoted _ => False
  | Closing q => is_sql_quote q = true
  | Num n => (1 ≤ n ≤ N.of_nat N0)%N
  | Code => True
  end.

(** A part of a statement, read from code and leaving no literal open. *)
Definition part (N0 : nat) (s s' : string) : Prop := ∃ st, closed N0 st ∧ sim N0 Code s s' st.

Lemma sim_app N0 st s s' st1 t t' st2 :
  sim N0 st s s' st1 → sim N0 st1 t t' st2 → sim N0 st (s +:+ t) (s' +:+ t') st2.
Proof.
  intros (o1 & H1 & H1' & Ho1) (o2 & H2 & H2' & Ho2). exists (o1 ++ o2).
  rewrite !run_app, H1, H1', H2, H2'. split_and!; [done|done|by apply Forall_app].
Qed.

Lemma sim_const N0 st c st1 out :
  run st c = (st1, out) → Forall (in_range_of N0) out → sim N0 st c c st1.
Proof. intros Hr Ho. by exists out. Qed.

(** A constant after a closed part: its first character is neither a digit nor a
    quote. *)
Definition plain_head (s : string) : bool :=
  match s with String c _ => negb (is_ascii_digit c) && negb (is_sql_quote c) | EmptyString => false end.

Definition no_hole (t : token) : bool := match t with Hole _ => false | _ => true end.

Lemma no_holes_in_range N0 out : forallb no_hole out = true → Forall (in_range_of N0) out.
Proof. intros Ho. apply Forall_forall. intros t Ht. apply forallb_forall with (x:=t) in Ho; [by destruct t|by apply list_elem_of_In]. Qed.

Lemma sim_sep N0 st c st1 out :
  closed N0 st → plain_head c = true → run Code c = (st1, out) → forallb no_hole out = true →
  sim N0 st c c st1.
Proof.
  intros Hst Hc Hr Ho%(no_holes_in_range N0).
  destruct c as [|h c]; [done|]. simpl in Hc. apply andb_true_iff in Hc as [Hd%negb_true_iff Hq%negb_true_iff].
  exists (pending st ++ out). enough (run st (String h c) = (st1, pending st ++ out)) as ->.
  { split_and!; [done|done|]. apply Forall_app. split; [|done]. destruct st; simpl; try apply Forall_nil_2. apply Forall_singleton. done. }
  simpl in *. destruct st as [|n|q|q]; simpl; [done| |done|].
  - rewrite Hd. destruct (code_step h) as [st2 o2]. destruct (run st2 c) as [st3 o3]. by simplify_eq/=.
  - destruct (Ascii.eqb_spec h q) as [->|]; [by rewrite Hst in Hq|done].
Qed.

(** ** Placeholders *)

Lemma is_digit_char x : (x < 10)%N → is_ascii_digit (pretty_N_char x) = true ∧ digit_value (pretty_N_char x) = x.
Proof.
  intros Hx. assert (x ∈ [0; 1; 2; 3; 4; 5; 6; 7; 8; 9])%N as Hin.
  { destruct x as [|p]; [set_solver|]. do 4 (destruct p as [p|p|]; try lia; try set_solver). }
  rewrite !elem_of_cons, elem_of_nil in Hin. naive_solver.
Qed.

Lemma run_pretty x s : run (Num 0) (pretty_N_go x s) = run (Num x) s.
Proof.
  revert s. induction (N.lt_wf_0 x) as [x _ IH]. intros s. destruct (decide (x = 0)%N) as [->|Hx]; [done|].
  rewrite pretty_N_go_step by lia. rewrite IH by (apply N.div_lt; lia).
  destruct (is_digit_char (x `mod` 10)) as [Hd Hv]; [by apply N.mod_lt|]. cbn [run lex_step]. rewrite Hd, Hv.
  rewrite <-(N.div_mod' x 10). by destruct (run (Num x) s).
Qed.

Lemma run_hole i : run Code (hole i) = (Num (N.of_nat i), []).
Proof.
  unfold hole, fmt_nat.
  change (run Code ("?" +:+ pretty i)) with (let '(st, rest) := run (Num 0) (pretty (N.of_nat i)) in (st, [] ++ rest)).
  enough (run (Num 0) (pretty (N.of_nat i)) = (Num (N.of_nat i), [])) as -> by done.
  unfold pretty, pretty_N. case_decide as Hi; [by rewrite Hi|]. by rewrite run_pretty.
Qed.

Lemma part_hole N0 i : 1 ≤ i ≤ N0 → part N0 (hole i) (hole i).
Proof. intros Hi. exists (Num (N.of_nat i)). split; [simpl; lia|]. exists []. by rewrite run_hole. Qed.

(** ** Literals *)

(** The text of a literal, its quotes doubled, stays in the literal. *)
Lemma run_double q s : run (Quoted q) (double q s) = (Quoted q, []).
Proof.
  induction s as [|c s IH]; [done|]. destruct (Ascii.eqb_spec c q) as [->|Hne].
  - assert (double q (String q s) = String q (String q (double q s))) as ->
      by (unfold double; cbn; by rewrite Ascii.eqb_refl).
    cbn [run lex_step]. rewrite Ascii.eqb_refl. cbn [run lex_step]. by rewrite Ascii.eqb_refl, IH.
  - apply Ascii.eqb_neq in Hne. assert (double q (String c s) = String c (double q s)) as ->
      by (unfold double; cbn; by rewrite Hne).
    cbn [run lex_step]. by rewrite Hne, IH.
Qed.

(** ** Composition *)

(** The texts are read from [st] and leave no literal open. *)
Definition rest (N0 : nat) (st : lex) (s s' : string) : Prop := ∃ st', closed N0 st' ∧ sim N0 st s s' st'.

(** A text that may follow any part: its first character is a separator. *)
Definition tail (N0 : nat) (s s' : string) : Prop := ∀ N1 st, N0 ≤ N1 → closed N1 st → rest N1 st s s'.

Lemma part_rest N0 s s' : part N0 s s' ↔ rest N0 Code s s'.
Proof. done. Qed.

Lemma closed_mono N0 N1 st : N0 ≤ N1 → closed N0 st → closed N1 st.
Proof. destruct st; simpl; auto. lia. Qed.

Lemma part_mono N0 N1 s s' : N0 ≤ N1 → part N0 s s' → part N1 s s'.
Proof.
  intros HN (st & Hst & out & H1 & H2 & Ho). exists st. split; [by eapply closed_mono|].
  exists out. split_and!; [done..|]. eapply Forall_impl; [done|]. intros []; simpl; auto. lia.
Qed.

Lemma tail_part N0 s s' : tail N0 s s' → part N0 s s'.
Proof. intros Ht. by apply Ht. Qed.

Lemma tail_mono N0 N1 s s' : N0 ≤ N1 → tail N0 s s' → tail N1 s s'.
Proof. intros HN Ht M st HM. apply Ht. lia. Qed.

Lemma rest_app N0 st s s' t t' : rest N0 st s s' → tail N0 t t' → rest N0 st (s +:+ t) (s' +:+ t').
Proof.
  intros (st1 & Hc & Hs) Ht. destruct (Ht N0 st1 (le_n _) Hc) as (st2 & Hc2 & Hs2). exists st2. split; [done|]. by eapply sim_app.
Qed.

Lemma sim_nil N0 st : sim N0 st "" "" st.
Proof. exists []. split_and!; [done|done|]. constructor. Qed.

Lemma tail_nil N0 : tail N0 "" "".
Proof. intros N1 st HN Hst. exists st. split; [done|]. apply sim_nil. Qed.

Lemma append_empty p : p +:+ "" = p.
Proof. induction p as [|c p IH]; [done|]. change (String c (p +:+ "") = String c p). by rewrite IH. Qed.

Lemma append_assoc p q r : (p +:+ q) +:+ r = p +:+ (q +:+ r).
Proof. induction p as [|c p IH]; [done|]. change (String c ((p +:+ q) +:+ r) = String c (p +:+ (q +:+ r))). by rewrite IH. Qed.

Lemma cat_cons p ps : cat (p :: ps) = p +:+ cat ps.
Proof.
  unfold cat. destruct ps; [|done]. change (p = p +:+ ""). by rewrite append_empty.
Qed.

(** A constant without placeholders, read from code to code. *)
Definition code_to_code (c : string) : bool :=
  match run Code c with (Code, out) => forallb no_hole out | _ => false end.
(** … to the inside of a literal, and from it. *)
Definition opens (q : ascii) (c : string) : bool :=
  match run Code c with (Quoted q', out) => Ascii.eqb q' q && forallb no_hole out | _ => false end.
Definition closes (q : ascii) (c : string) : bool :=
  match run (Quoted q) c with (Code, out) => forallb no_hole out | _ => false end.
(** … ending with a literal. *)
Definition ends_closing (c : string) : bool :=
  match run Code c with (Closing q, out) => is_sql_quote q && forallb no_hole out | _ => false end.

Lemma code_to_code_run N0 c :
  code_to_code c = true → ∃ out, run Code c = (Code, out) ∧ forallb no_hole out = true ∧ sim N0 Code c c Code.
Proof.
  unfold code_to_code. destruct (run Code c) as [st out] eqn:Hr. destruct st; try done. intros Ho. exists out.
  split_and!; [done..|]. eapply sim_const; [done|by apply no_holes_in_range].
Qed.

Lemma part_cat_const N0 c ps ps' :
  code_to_code c = true → part N0 (cat ps) (cat ps') → part N0 (cat (c :: ps)) (cat (c :: ps')).
Proof.
  intros (out & _ & _ & Hc)%(code_to_code_run N0) (st & Hst & Hs). exists st. split; [done|].
  rewrite !cat_cons. by eapply sim_app.
Qed.

Lemma part_cat_part N0 p p' ps ps' :
  part N0 p p' → tail N0 (cat ps) (cat ps') → part N0 (cat (p :: ps)) (cat (p' :: ps')).
Proof. intros Hp Ht. rewrite !cat_cons. by apply rest_app. Qed.

Lemma tail_cat_tail N0 p p' ps ps' :
  tail N0 p p' → tail N0 (cat ps) (cat ps') → tail N0 (cat (p :: ps)) (cat (p' :: ps')).
Proof. intros Hp Ht N1 st HN Hst. rewrite !cat_cons. apply rest_app; [by apply Hp|by eapply tail_mono]. Qed.

Lemma tail_cat_const N0 c ps ps' :
  plain_head c && code_to_code c = true → part N0 (cat ps) (cat ps') → tail N0 (cat (c :: ps)) (cat (c :: ps')).
Proof.
  intros [Hc (out & Hr & Ho & _)%(code_to_code_run N0)]%andb_true_iff Hp N1 st HN Hst.
  destruct (part_mono _ _ _ _ HN Hp) as (st1 & Hst1 & Hs).
  exists st1. split; [done|]. rewrite !cat_cons. eapply sim_app; [by eapply sim_sep|done].
Qed.

Lemma tail_cat_closing N0 c ps ps' :
  plain_head c && ends_closing c = true → tail N0 (cat ps) (cat ps') → tail N0 (cat (c :: ps)) (cat (c :: ps')).
Proof.
  intros [Hc He]%andb_true_iff Ht. apply tail_cat_tail; [|done]. intros N1 st HN Hst. unfold ends_closing in He.
  destruct (run Code c) as [st1 out] eqn:Hr. destruct st1; try done. apply andb_true_iff in He as [Hq Ho].
  eexists. split; [|by eapply sim_sep]. done.
Qed.

(** A text that stays inside a literal. *)
Definition stays (q : ascii) (s : string) : Prop := run (Quoted q) s = (Quoted q, []).

Lemma tail_cat_quoted N0 q o b b' c ps ps' :
  plain_head o && opens q o && closes q c = true → stays q b → stays q b' → part N0 (cat ps) (cat ps') →
  tail N0 (cat (o :: b :: c :: ps)) (cat (o :: b' :: c :: ps')).
Proof.
  intros [[Hp Ho]%andb_true_iff Hc]%andb_true_iff Hb Hb' Hps N1 st HN Hst.
  destruct (part_mono _ _ _ _ HN Hps) as (st1 & Hst1 & Hs). exists st1. split; [done|].
  unfold opens in Ho. destruct (run Code o) as [st2 out] eqn:Hr. destruct st2; try done.
  apply andb_true_iff in Ho as [<-%Ascii.eqb_eq Ho].
  unfold closes in Hc. destruct (run (Quoted _) c) as [st3 out3] eqn:Hr3. destruct st3; try done.
  rewrite !cat_cons. eapply sim_app; [by eapply sim_sep|]. eapply sim_app with (st1 := Quoted _).
  { exists []. split_and!; [exact Hb|exact Hb'|constructor]. }
  eapply sim_app; [|done]. eapply sim_const; [done|by apply no_holes_in_range].
Qed.

Lemma cat_pair p q : cat [p; q] = p +:+ q.
Proof. done. Qed.

Lemma cat_app l r : cat (l ++ r) = cat l +:+ cat r.
Proof. induction l as [|p l IH]; [done|]. change ((p :: l) ++ r) with (p :: (l ++ r)). by rewrite !cat_cons, IH, append_assoc. Qed.

Lemma tail_cat_flat N0 l l' r r' :
  tail N0 (cat (l ++ r)) (cat (l' ++ r')) → tail N0 (cat (cat l :: r)) (cat (cat l' :: r')).
Proof. by rewrite !cat_app, !cat_cons. Qed.

(** The parts between separators. *)
Lemma join_cons sep p p2 ps : join sep (p :: p2 :: ps) = p +:+ (sep +:+ join sep (p2 :: ps)).
Proof. done. Qed.

Lemma part_join N0 sep l l' :
  plain_head sep && code_to_code sep = true → Forall2 (part N0) l l' → part N0 (join sep l) (join sep l').
Proof.
  intros Hsep Hl. induction Hl as [|p p' l l' Hp Hl IH]; [apply tail_part, tail_nil|].
  destruct Hl as [|p2 p2' l l' Hp2 Hl]; [done|]. rewrite !join_cons, <-!cat_pair.
  apply rest_app; [done|]. apply tail_cat_const; [done|]. apply part_cat_part; [done|apply tail_nil].
Qed.

(** A text of code characters. *)
Definition code_char (c : ascii) : bool := negb (is_sql_quote c) && negb (Ascii.eqb c "?").
Lemma run_code_chars s : forallb code_char (to_bytes s) = true → run Code s = (Code, Sym <$> to_bytes s).
Proof.
  induction s as [|c s IH]; [done|]. cbn [to_bytes list_ascii_of_string forallb].
  intros [[Hq%negb_true_iff Hh%negb_true_iff]%andb_true_iff Hs]%andb_true_iff. simpl. unfold code_step.
  rewrite Hq, Hh, (IH Hs). done.
Qed.

Lemma part_code_chars N0 s : forallb code_char (to_bytes s) = true → part N0 s s.
Proof.
  intros Hs. exists Code. split; [done|]. eapply sim_const; [by apply run_code_chars|].
  apply Forall_forall. intros t (c & -> & _)%list_elem_of_fmap. done.
Qed.

Lemma part_code N0 c : code_to_code c = true → part N0 c c.
Proof. intros (out & _ & _ & Hs)%(code_to_code_run N0). exists Code. done. Qed.

(** ** Decimal numbers *)

Lemma pretty_go_chars x s :
  forallb code_char (to_bytes s) = true → forallb code_char (to_bytes (pretty_N_go x s)) = true.
Proof.
  revert s. induction (N.lt_wf_0 x) as [x _ IH]. intros s Hs. destruct (decide (x = 0)%N) as [->|Hx]; [done|].
  rewrite pretty_N_go_step by lia. apply IH; [apply N.div_lt; lia|]. cbn. rewrite Hs, andb_true_r.
  destruct (is_digit_char (x `mod` 10)) as [Hd _]; [by apply N.mod_lt|]. revert Hd. unfold code_char, is_sql_quote.
  destruct (pretty_N_char _) as [[] [] [] [] [] [] [] []]; by vm_compute.
Qed.

Lemma fmt_nat_chars i : forallb code_char (to_bytes (fmt_nat i)) = true.
Proof.
  unfold fmt_nat, pretty. cbn. unfold pretty_nat, pretty, pretty_N. case_decide; [done|]. by apply pretty_go_chars.
Qed.

(** The text of a closed part reads to its tokens. *)
Lemma part_tokens N0 s s' : part N0 s s' → ∃ toks, sql_tokens s = Some toks ∧ sql_tokens s' = Some toks ∧ Forall (in_range_of N0) toks.
Proof.
  intros (st & Hst & out & H1 & H2 & Ho). exists (out ++ pending st). unfold sql_tokens. rewrite H1, H2.
  assert (Forall (in_range_of N0) (pending st)) by (destruct st; simpl; repeat constructor; done || apply Hst).
  destruct st; try done; (split_and!; [done|done|by apply Forall_app]).
Qed.

Lemma part_quote_identifier N0 s s' : part N0 (quote_identifier s) (quote_identifier s').
Proof.
  assert (∀ s, run Code (quote_identifier s) = (Closing dq_char, [Lit dq_char])) as Hq.
  { intros t. unfold quote_identifier. rewrite !cat_cons, run_app. change (run Code dq) with (Quoted dq_char, [Lit dq_char]).
    cbv beta iota. by rewrite run_app, run_double. }
  exists (Closing dq_char). split; [done|]. exists [Lit dq_char]. rewrite !Hq. split_and!; [done..|]. by repeat constructor.
Qed.

(** Compilations that differ only in literals: the relation of two runs of the
    compiler, and the statement parts it preserves. *)

#[local] Open Scope nat_scope.

(** ** Two runs *)

(** From [n] parameters each, two runs that succeed have pushed equally many, and
    their results are related. *)
Definition related {A B} (n : nat) (R : nat → A → B → Prop) (m : C A) (m' : C B) : Prop :=
  ∀ ps ps' a qs b qs', length ps = n → length ps' = n → m ps = Ok (a, qs) → m' ps' = Ok (b, qs') →
  n ≤ length qs ∧ length qs' = length qs ∧ R (length qs) a b.

Definition mono {A B} (R : nat → A → B → Prop) : Prop := ∀ N0 N1 a b, N0 ≤ N1 → R N0 a b → R N1 a b.

Definition idx (N0 i j : nat) : Prop := i = j ∧ 1 ≤ i ≤ N0.
Definition parts (N0 : nat) : list string → list string → Prop := Forall2 (part N0).
Definition opart (N0 : nat) : option string → option string → Prop := option_Forall2 (part N0).

Lemma mono_part : mono part.
Proof. intros ?????. by apply part_mono. Qed.
Lemma mono_idx : mono idx.
Proof. intros ????? [-> ?]. split; [done|lia]. Qed.
Lemma mono_Forall2 {A B} (R : nat → A → B → Prop) : mono R → mono (λ N0, Forall2 (R N0)).
Proof. intros HR ????? Hl. eapply Forall2_impl; [exact Hl|]. intros ??. by apply HR. Qed.
Lemma mono_parts : mono parts.
Proof. apply mono_Forall2, mono_part. Qed.
Lemma mono_opart : mono opart.
Proof. intros N0 N1 ? ? HN []; constructor. by eapply mono_part. Qed.

Section related.
Context {A B A' B' : Type}.

Lemma related_ret n (R : nat → A → A' → Prop) a a' : R n a a' → related n R (mret a) (mret a').
Proof. intros HR ps ps' ? ? ? ? Hn Hn' [= <- <-] [= <- <-]. split_and!; [lia|lia|by rewrite Hn]. Qed.

Lemma related_bind n (R : nat → A → A' → Prop) (S : nat → B → B' → Prop) m m' k k' :
  related n R m m' → (∀ N0 a b, n ≤ N0 → R N0 a b → related N0 S (k a) (k' b)) →
  related n S (m ≫= k) (m' ≫= k').
Proof.
  intros Hm Hk ps ps' b qs b' qs' Hn Hn'. unfold mbind, C_bind.
  destruct (m ps) as [[a ps1]|] eqn:H1; [|done]. destruct (m' ps') as [[a' ps1']|] eqn:H1'; [|done].
  destruct (Hm _ _ _ _ _ _ Hn Hn' H1 H1') as (Hle & Heq & HR). intros H2 H2'.
  destruct (Hk _ _ _ Hle HR _ _ _ _ _ _ eq_refl Heq H2 H2') as (? & ? & ?). split_and!; [lia|lia|done].
Qed.

Lemma related_fail_l n (R : nat → A → A' → Prop) e m' : related n R (fail e) m'.
Proof. by intros ??????. Qed.
Lemma related_fail_r n (R : nat → A → A' → Prop) e m : related n R m (fail e).
Proof. by intros ??????. Qed.

Lemma related_lift n (R : nat → A → A' → Prop) r r' :
  (∀ a b, r = Ok a → r' = Ok b → R n a b) → related n R (lift r) (lift r').
Proof.
  intros HR ps ps' a qs b qs' Hn Hn'. unfold lift. destruct r, r'; try done.
  intros [= -> ->] [= -> ->]. split_and!; [lia|lia|]. rewrite Hn. by apply HR.
Qed.

Lemma related_impl n (R S : nat → A → A' → Prop) m m' :
  related n R m m' → (∀ N0 a b, n ≤ N0 → R N0 a b → S N0 a b) → related n S m m'.
Proof. intros Hm HS ps ps' a qs b qs' Hn Hn' H1 H2. destruct (Hm _ _ _ _ _ _ Hn Hn' H1 H2) as (?&?&?). auto. Qed.
End related.

Lemma related_push n v v' : related n idx (push v) (push v').
Proof.
  intros ps ps' a qs b qs' Hn Hn' [= <- <-] [= <- <-]. rewrite !length_app. simpl. unfold idx. split_and!; lia.
Qed.

Lemma related_each {X Y A B} (P : X → Y → Prop) n (R : nat → A → B → Prop) f f' l l' :
  mono R → (∀ N0 x y, n ≤ N0 → P x y → related N0 R (f x) (f' y)) → Forall2 P l l' →
  related n (λ N0, Forall2 (R N0)) (each f l) (each f' l').
Proof.
  intros HR Hf Hl. revert n Hf. induction Hl as [|x y l l' Hxy Hl IH]; intros n Hf; [by apply related_ret|].
  eapply related_bind; [by apply Hf|]. intros N0 a b HN Hab.
  eapply related_bind; [apply IH; intros; apply Hf; [lia|done]|]. intros N1 u v HN1 Huv.
  apply related_ret. constructor; [by eapply HR|done].
Qed.

Lemma related_get n : related n (λ N0 ps ps', length ps = N0 ∧ length ps' = N0) get_params get_params.
Proof. intros ps ps' a qs b qs' Hn Hn' [= <- <-] [= <- <-]. split_and!; lia. Qed.

(** ** Automation *)

Create HintDb sql.
#[export] Hint Resolve mono_part mono_idx mono_parts mono_opart : sql.
#[export] Hint Extern 2 (part _ _ _) => eapply part_mono; [|eassumption]; lia : sql.
#[export] Hint Extern 1 (part _ (quote_identifier _) (quote_identifier _)) => apply part_quote_identifier : sql.
#[export] Hint Extern 2 (part _ _ _) => apply tail_part; assumption : sql.
#[export] Hint Extern 1 (part _ ?c ?c) => apply part_code; vm_compute; reflexivity : sql.
#[export] Hint Extern 1 (tail _ "" "") => apply tail_nil : sql.

Ltac sql_const := vm_compute; reflexivity.
Ltac sql_part :=
  lazymatch goal with
  | |- part _ (cat []) (cat []) => apply tail_part, tail_nil
  | |- part _ (cat (String _ _ :: _)) (cat _) => apply part_cat_const; [sql_const|sql_part]
  | |- part _ (cat _) (cat _) => apply part_cat_part; [sql_part|sql_tail]
  | |- _ => solve [auto with sql]
  end
with sql_tail :=
  lazymatch goal with
  | |- tail _ (cat []) (cat []) => apply tail_nil
  | |- tail _ (cat (String _ _ :: _)) (cat _) =>
      tryif (apply tail_cat_const; [sql_const|]) then sql_part
      else tryif (apply tail_cat_closing; [sql_const|]) then sql_tail
      else (apply (tail_cat_quoted _ single_quote); [sql_const|auto with sql|auto with sql|sql_part])
  | |- tail _ (cat (cat _ :: _)) (cat _) => apply tail_cat_flat; cbn [app]; sql_tail
  | |- tail _ (cat _) (cat _) => apply tail_cat_tail; [sql_tail|sql_tail]
  | |- _ => solve [auto with sql]
  end.

Lemma idx_hole N0 N1 i j : N0 ≤ N1 → idx N0 i j → part N1 (hole i) (hole j).
Proof. intros HN [-> Hi]. apply part_hole. lia. Qed.
#[export] Hint Extern 1 (part _ (hole _) (hole _)) => eapply idx_hole; [|eassumption]; lia : sql.

Lemma part_placeholders N0 N1 is_ js :
  N0 ≤ N1 → Forall2 (idx N0) is_ js → part N1 (in_placeholders is_) (in_placeholders js).
Proof.
  intros HN Hij. apply part_join; [done|]. apply Forall2_fmap. eapply Forall2_impl; [done|]. intros i j Hi.
  by eapply idx_hole.
Qed.
#[export] Hint Extern 1 (part _ (in_placeholders _) (in_placeholders _)) => eapply part_placeholders; [|eassumption]; lia : sql.

(** The aliases of tables are code. *)
Definition plain (a : string) : Prop := forallb code_char (to_bytes a) = true.
Lemma plain_part N0 a : plain a → part N0 a a.
Proof. apply part_code_chars. Qed.
#[export] Hint Extern 1 (part _ ?a ?a) => apply plain_part; assumption : sql.

Lemma plain_node_alias i : plain (node_alias i).
Proof. apply fmt_nat_chars. Qed.
Lemma plain_edge_alias i : plain (edge_alias i).
Proof. apply fmt_nat_chars. Qed.
#[export] Hint Resolve plain_node_alias plain_edge_alias : sql.

Lemma stays_double q s : stays q (double q s).
Proof. apply run_double. Qed.
#[export] Hint Resolve stays_double : sql.

(** ** Predicates *)

Lemma Forall2_any {A B} (l : list A) (l' : list B) : length l = length l' → Forall2 (λ _ _, True) l l'.
Proof. revert l'. induction l as [|x l IH]; intros [|y l'] Hl; simplify_eq/=; constructor; auto. Qed.

Lemma namespace_predicate_related n a opts opts' :
  plain a → length (opt_scopes opts) = length (opt_scopes opts') →
  related n opart (namespace_predicate a opts) (namespace_predicate a opts').
Proof.
  intros Ha Hlen. unfold namespace_predicate.
  destruct (opt_scopes opts) as [|s [|s2 l]], (opt_scopes opts') as [|s' [|s2' l']]; try done.
  - apply related_ret. constructor.
  - eapply related_bind; [apply related_push|]. intros N0 i j HN Hij. apply related_ret. constructor. sql_part.
  - eapply related_bind.
    + apply (related_each (λ _ _, True)) with (R:=idx); [apply mono_idx|intros; apply related_push|].
      by apply Forall2_any.
    + intros N0 is_ js HN Hij. cbv beta in Hij. apply related_ret. constructor. sql_part.
Qed.

Lemma namespace_filter_related n a opts opts' :
  plain a → length (opt_scopes opts) = length (opt_scopes opts') →
  related n tail (namespace_filter a opts) (namespace_filter a opts').
Proof.
  intros Ha Hlen. eapply related_bind; [by apply namespace_predicate_related|].
  intros N0 o o' HN [p p' Hp|]; apply related_ret; [sql_tail|apply tail_nil].
Qed.

Lemma text_predicate_related n c v v' :
  (∀ N0, part N0 c c) → related n part (text_predicate c v) (text_predicate c v').
Proof.
  intros Hc. eapply related_bind; [apply related_push|]. intros N0 i j HN Hij. apply related_ret.
  pose proof (Hc N0). sql_part.
Qed.

Lemma plain_column a c N0 : plain a → plain_head c && code_to_code c = true → part N0 (cat [a; c]) (cat [a; c]).
Proof. intros Ha Hc. apply part_cat_part; [by apply plain_part|]. apply tail_cat_const; [done|]. apply tail_part, tail_nil. Qed.

(** At most one predicate. *)
Definition parts_one (N0 : nat) (l l' : list string) : Prop := parts N0 l l' ∧ length l ≤ 1.

Lemma text_choice_one n c l l' :
  (∀ N0, part N0 c c) → length l = length l' → related n parts_one (text_choice c l) (text_choice c l').
Proof.
  intros Hc Hlen. destruct l as [|v [|v2 l]], l' as [|v' [|v2' l']]; try done.
  - apply related_ret. split; [constructor|simpl; lia].
  - eapply related_bind; [by apply text_predicate_related|]. intros N0 s s' HN Hs. apply related_ret.
    split; [by constructor; [done|constructor]|simpl; lia].
  - eapply related_bind.
    + apply (related_each (λ _ _, True)) with (R:=idx); [apply mono_idx|intros; apply related_push|].
      by apply Forall2_any.
    + intros N0 is_ js HN Hij. cbv beta in Hij. apply related_ret. split; [|simpl; lia]. constructor; [|constructor].
      pose proof (Hc N0). sql_part.
Qed.

Lemma text_choice_related n c l l' :
  (∀ N0, part N0 c c) → length l = length l' → related n parts (text_choice c l) (text_choice c l').
Proof. intros Hc Hlen. eapply related_impl; [by apply text_choice_one|]. by intros N0 ?? _ [? _]. Qed.

(** ** Values and conditions *)

Definition value_tag (v : ConditionValue) : nat :=
  match v with
  | CString _ => 0 | CInteger _ => 1 | CNumber _ => 2 | CBool _ => 3 | CList _ => 4 | CNull => 5
  end.

(** What the compiler sees of a value. *)
Definition value_shape (v : ConditionValue) : nat * list nat :=
  (value_tag v, match v with CList l => value_tag <$> l | _ => [] end).

Lemma same_tags l l' :
  value_tag <$> l = value_tag <$> l' → Forall2 (λ v v', value_tag v = value_tag v') l l'.
Proof. revert l'. induction l as [|v l IH]; intros [|v' l'] Hl; simplify_eq/=; constructor; auto. Qed.

Lemma tag_is_string v v' : value_tag v = value_tag v' → is_string v = is_string v'.
Proof. by destruct v, v'. Qed.

Lemma bind_scalar_related n v v' refusal :
  value_tag v = value_tag v' → related n idx (bind_scalar v refusal) (bind_scalar v' refusal).
Proof.
  destruct v, v'; try done; intros _; simpl; try apply related_push; try apply related_fail_l.
  repeat case_match; try apply related_fail_l; try apply related_fail_r. apply related_push.
Qed.

Lemma tail_collate N0 v : tail N0 (collate v) (collate v).
Proof. unfold collate. destruct (is_string v); [|apply tail_nil]. change (tail N0 (cat [" COLLATE NOCASE"]) (cat [" COLLATE NOCASE"])). sql_tail. Qed.
#[export] Hint Resolve tail_collate : sql.

Lemma collate_tag v v' : value_tag v = value_tag v' → collate v = collate v'.
Proof. intros Hv. unfold collate. by rewrite (tag_is_string v v'). Qed.

Lemma compile_condition_predicate_related n c c' cond cond' :
  (∀ N0, n ≤ N0 → part N0 c c') → cond_op cond = cond_op cond' →
  value_shape (cond_value cond) = value_shape (cond_value cond') →
  related n part (compile_condition_predicate c cond) (compile_condition_predicate c' cond').
Proof.
  intros Hc Hop [= Htag Hlist]. unfold compile_condition_predicate. rewrite <-Hop.
  assert (∀ op (b : bool), plain_head (cat [" "; op; " "]) && code_to_code (cat [" "; op; " "]) = true →
    related n part
      (i ← bind_condition_value (cond_value cond);
       mret (cat [c; " "; op; " "; hole i; if b then collate (cond_value cond) else ""%string]))
      (i ← bind_condition_value (cond_value cond');
       mret (cat [c'; " "; op; " "; hole i; if b then collate (cond_value cond') else ""%string]))) as Hcmp.
  { intros op b Hb. eapply related_bind; [by apply bind_scalar_related|]. intros N0 i j HN Hij. apply related_ret.
    pose proof (Hc N0 HN). rewrite <-(collate_tag _ _ Htag).
    assert (∀ x y z, cat [x; " "; op; " "; y; z] = cat [x; cat [" "; op; " "]; y; z])%string as Hcat
      by (intros; rewrite !cat_cons, !append_assoc; done).
    rewrite !Hcat. apply part_cat_part; [done|]. apply tail_cat_const; [done|]. apply part_cat_part; [sql_part|].
    destruct b; sql_tail. }
  assert (∀ v v', related n part
      (i ← push (QText v); mret (cat [c; " LIKE "; hole i; " COLLATE NOCASE ESCAPE '\'"]))
      (i ← push (QText v'); mret (cat [c'; " LIKE "; hole i; " COLLATE NOCASE ESCAPE '\'"]))) as Hlike.
  { intros v v'. eapply related_bind; [apply related_push|]. intros N0 i j HN Hij. apply related_ret.
    pose proof (Hc N0 HN). sql_part. }
  assert (∀ e, related n part (fail e) (fail e)) as Hfail by (intros; apply related_fail_l).
  destruct (cond_op cond);
    [exact (Hcmp "="%string true eq_refl)|exact (Hcmp "!="%string false eq_refl)|exact (Hcmp ">"%string false eq_refl)
    |exact (Hcmp "<"%string false eq_refl)|exact (Hcmp ">="%string false eq_refl)|exact (Hcmp "<="%string false eq_refl)
    |exact (Hcmp "LIKE"%string true eq_refl)|..];
    clear Hcmp; destruct (cond_value cond) as [| | | |l|], (cond_value cond') as [| | | |l'|]; try discriminate Htag;
    try exact (Hfail _); try exact (Hlike _ _).
  - destruct l as [|v l], l' as [|v' l']; try done; [apply related_ret; sql_part|].
    eapply related_bind.
    + apply (related_each (λ v v', value_tag v = value_tag v')) with (R:=idx);
        [apply mono_idx|intros; by apply bind_scalar_related|].
      by apply same_tags.
    + intros N0 is_ js HN Hij. cbv beta in Hij. apply related_ret. pose proof (Hc N0 HN).
      assert (existsb is_string (v :: l) = existsb is_string (v' :: l')) as <-.
      { apply same_tags in Hlist. clear -Hlist. induction Hlist as [|x y k k' Hxy Hk IH]; [done|].
        simpl. by rewrite IH, (tag_is_string x y). }
      destruct (existsb _ _); sql_part.
  - apply related_ret. pose proof (Hc n (le_n n)). sql_part.
  - apply related_ret. pose proof (Hc n (le_n n)). sql_part.
Qed.
