(* ===== verification/SqlAlike.v ===== *)
(** Queries that differ only in what their literals say compile to statements with
    the same tokens: the conditions, the nodes and edges, the projections. *)

From Stdlib Require Import ZArith Ascii String Lia.
From stdpp Require Import base tactics list numbers strings gmap.
From S2P Require Import Prelude RustStr Rounding Float QueryAst Gql QuerySql SqlText.

#[local] Open Scope nat_scope.

(** ** Identifiers in a JSON path *)

Lemma chars_tails l : Forall (λ g, Forall (λ c, is_continuation c = true) (List.tl g)) (chars l).
Proof.
  induction l as [|b l IH]; [constructor|]. destruct l as [|c l]; [by repeat constructor|].
  change (chars (b :: c :: l)) with
    (if is_continuation c then match chars (c :: l) with
       | g :: gs => (b :: g) :: gs | [] => [[b]] end else [b] :: chars (c :: l)).
  destruct (is_continuation c) eqn:Hc; [|by constructor].
  pose proof (concat_chars (c :: l)) as Hcat. pose proof (chars_nonempty (c :: l)) as Hne.
  destruct (chars (c :: l)) as [|g gs]; [by repeat constructor|].
  apply Forall_cons in IH as [Hg IH]. apply Forall_cons in Hne as [Hg0 _]. constructor; [|done]. simpl.
  destruct g as [|c' g]; [done|]. simpl in *. simplify_eq. by constructor.
Qed.

Definition no_quote (l : bytes) : bool := forallb (λ b, negb (Ascii.eqb b single_quote)) l.

Lemma stays_no_quote s : no_quote (to_bytes s) = true → stays single_quote s.
Proof.
  unfold stays, no_quote. induction s as [|c s IH]; [done|]. cbn [to_bytes list_ascii_of_string forallb].
  intros [Hc%negb_true_iff Hs]%andb_true_iff. cbn [run lex_step]. rewrite Hc. by rewrite (IH Hs).
Qed.

Lemma ident_char_no_quote `{CharLaws} g :
  Forall (λ c, is_continuation c = true) (List.tl g) → is_ident_char g = true → no_quote g = true.
Proof.
  intros Ht Hg. destruct g as [|b t]; [done|]. simpl in Ht.
  assert (no_quote t = true) as Hq.
  { apply forallb_forall. intros c Hc%list_elem_of_In. rewrite Forall_forall in Ht. specialize (Ht c Hc).
    apply negb_true_iff, Ascii.eqb_neq. intros ->. done. }
  unfold no_quote in *. simpl. rewrite Hq, andb_true_r. apply negb_true_iff, Ascii.eqb_neq. intros ->.
  unfold is_ident_char in Hg. apply orb_true_iff in Hg as [Hg|Hg%bool_decide_eq_true]; [|by injection Hg].
  destruct t as [|c t]; [by rewrite ascii_alphanumeric in Hg|].
  apply lead_alphanumeric in Hg. by vm_compute in Hg.
Qed.

Lemma identifier_no_quote `{CharLaws} s : is_identifier s = true → no_quote (to_bytes s) = true.
Proof.
  unfold is_identifier, str_chars. intros Hs. pose proof (concat_chars (to_bytes s)) as Hcat.
  pose proof (chars_tails (to_bytes s)) as Ht. rewrite <-Hcat. clear Hcat.
  induction (chars (to_bytes s)) as [|g gs IH]; [done|]. simpl in *. apply andb_true_iff in Hs as [Hg Hgs].
  apply Forall_cons in Ht as [Htg Ht]. unfold no_quote. rewrite forallb_app. apply andb_true_iff.
  split; [by apply ident_char_no_quote|by apply IH].
Qed.

Lemma stays_app q s t : stays q s → stays q t → stays q (s +:+ t).
Proof. unfold stays. intros Hs Ht. by rewrite run_app, Hs, Ht. Qed.

Lemma stays_path `{CharLaws} path :
  List.find (λ segment, String.eqb segment "" || negb (is_identifier segment)) path = None →
  stays single_quote (join "." path).
Proof.
  intros Hp. assert (Forall (stays single_quote) path) as Hs.
  { apply Forall_forall. intros s Hin. apply stays_no_quote, identifier_no_quote.
    by apply list_elem_of_In, (List.find_none _ _ Hp), orb_false_iff in Hin as [_ Hin%negb_false_iff]. }
  clear Hp. induction Hs as [|s path Hs Hp IH]; [done|]. destruct path as [|s2 path]; [done|].
  rewrite join_cons. by apply stays_app, stays_app.
Qed.

(** ** Conditions *)

Definition property_alike (p p' : PropertyRef) : Prop :=
  match p, p' with
  | Field f, Field f' => f = f'
  | JsonPath _, JsonPath _ => True
  | _, _ => False
  end.

Record cond_alike (c c' : Condition) : Prop := {
  alike_variable : cond_variable c = cond_variable c';
  alike_property : property_alike (cond_property c) (cond_property c');
  alike_op : cond_op c = cond_op c';
  alike_value : value_shape (cond_value c) = value_shape (cond_value c')
}.

Inductive where_alike : WhereExpr → WhereExpr → Prop :=
| and_alike l l' r r' : where_alike l l' → where_alike r r' → where_alike (WAnd l r) (WAnd l' r')
| or_alike l l' r r' : where_alike l l' → where_alike r r' → where_alike (WOr l r) (WOr l' r')
| condition_alike c c' : cond_alike c c' → where_alike (WCondition c) (WCondition c')
| true_alike : where_alike WTrue WTrue.

Lemma contains_plain l f :
  forallb (λ f, forallb code_char (to_bytes f)) l = true → contains l f = true → plain f.
Proof.
  intros Hl (g & Hg & <-%String.eqb_eq)%existsb_exists. by apply (proj1 (forallb_forall _ _) Hl).
Qed.

Lemma where_property_related `{CharLaws} n p p' kind a :
  plain a → property_alike p p' →
  related n part (lift (where_property_expression p kind a)) (lift (where_property_expression p' kind a)).
Proof.
  intros Ha Hp. apply related_lift. intros s s'. unfold where_property_expression.
  destruct (where_property_columns kind) as [valid name] eqn:Hv. destruct p as [f|path], p' as [f'|path']; try done.
  - simpl in Hp. subst f'. destruct (contains valid f) eqn:Hc; [|by case_match]. intros [= <-] [= <-].
    assert (plain f) by (eapply contains_plain; [|done]; destruct kind; simplify_eq/=; reflexivity). sql_part.
  - destruct (negb _); [done|]. destruct path as [|x path]; [done|]. destruct path' as [|x' path']; [done|].
    destruct (List.find _ (x :: path)) eqn:Hf; [done|]. destruct (List.find _ (x' :: path')) eqn:Hf'; [done|].
    intros [= <-] [= <-]. pose proof (stays_path _ Hf). pose proof (stays_path _ Hf'). sql_part.
Qed.

(** The tables the variables are bound to. *)
Definition plain_aliases (m : Aliases) : Prop := map_Forall (λ _ b, plain b.1) m.

Lemma single_condition_related `{CharLaws} n c c' m :
  plain_aliases m → cond_alike c c' →
  related n part (compile_single_condition c m) (compile_single_condition c' m).
Proof.
  intros Hm [Hv Hp Ho Hval]. unfold compile_single_condition. rewrite <-Hv.
  destruct (m !! cond_variable c) as [[a kind]|] eqn:Hl; [|apply related_fail_l].
  eapply related_bind; [apply where_property_related; [by apply (Hm _ _ Hl)|done]|].
  intros N0 s s' HN Hs. apply compile_condition_predicate_related; [|done|done]. intros. by eapply part_mono.
Qed.

(** Two expressions joined by an operator. *)
Lemma join_part N0 b o a l l' r r' :
  code_to_code b || String.eqb b "" = true → plain_head o && code_to_code o = true →
  (plain_head a && code_to_code a) || String.eqb a "" = true → part N0 l l' → part N0 r r' →
  part N0 (cat [b; l; o; r; a]) (cat [b; l'; o; r'; a]).
Proof.
  intros Hb Ho Ha Hl Hr.
  assert (part N0 (cat [l; o; r; a]) (cat [l'; o; r'; a])) as Hlr.
  { apply part_cat_part; [done|]. apply tail_cat_const; [done|]. apply part_cat_part; [done|].
    apply orb_true_iff in Ha as [Ha|Hnil%String.eqb_eq]; [|subst a; sql_tail]. apply tail_cat_const; [done|sql_part]. }
  apply orb_true_iff in Hb as [Hb|Hnil%String.eqb_eq]; [by apply part_cat_const|]. subst b. rewrite !(cat_cons "").  exact Hlr.
Qed.

Lemma where_expr_related `{CharLaws} n e e' m :
  plain_aliases m → where_alike e e' →
  related n opart (compile_where_expr e m) (compile_where_expr e' m).
Proof.
  intros Hm He. revert n. induction He as [l l' r r' Hl IHl Hr IHr|l l' r r' Hl IHl Hr IHr|c c' Hc|]; intros n; simpl.
  3: { eapply related_bind; [by apply single_condition_related|]. intros. apply related_ret. by constructor. }
  3: { apply related_ret. constructor. }
  all: eapply related_bind; [apply IHl|]; intros N0 o o' HN Ho.
  all: eapply related_bind; [apply IHr|]; intros N1 p p' HN1 Hp; apply related_ret.
  all: apply (mono_opart _ N1) in Ho; [|done].
  all: destruct Ho, Hp; constructor; try done; by apply join_part.
Qed.

(** ** Nodes and edges *)

(** The label of a substrate, which selects a column. *)
Definition kind_class (kind : string) : option string :=
  if existsb (String.eqb kind) ["entity"; "note"; "event"; "edge"]%string then Some kind else None.

Definition direct_key (key : string) : bool := contains ["name"; "content"]%string key.

Definition prop_alike (p p' : string * ConditionValue) : Prop :=
  value_shape p.2 = value_shape p'.2 ∧ direct_key p.1 = direct_key p'.1 ∧ (direct_key p.1 = true → p.1 = p'.1).

Record node_alike (np np' : NodePattern) : Prop := {
  node_variable : np_variable np = np_variable np';
  node_kind : option_Forall2 (λ k k', kind_class k = kind_class k') (np_kind np) (np_kind np');
  node_entity_type : option_Forall2 (λ _ _, True) (np_entity_type np) (np_entity_type np');
  node_props : Forall2 prop_alike (sorted_props (np_properties np)) (sorted_props (np_properties np'))
}.

Record edge_alike (ep ep' : EdgePattern) : Prop := {
  edge_variable : ep_variable ep = ep_variable ep';
  edge_relations : Forall2 (λ r r', is_synthetic r = is_synthetic r') (ep_relations ep) (ep_relations ep');
  edge_direction : ep_direction ep = ep_direction ep';
  edge_variable_length : (ep_max_hops ep >? 1)%Z = (ep_max_hops ep' >? 1)%Z
}.

Inductive element_alike : PatternElement → PatternElement → Prop :=
| nodes_alike np np' : node_alike np np' → element_alike (PNode np) (PNode np')
| edges_alike ep ep' : edge_alike ep ep' → element_alike (PEdge ep) (PEdge ep').

Lemma when_some_related {A B} n (P : A → B → Prop) o o' f f' :
  option_Forall2 P o o' → (∀ x y, P x y → related n part (f x) (f' y)) →
  related n parts (when_some o f) (when_some o' f').
Proof.
  intros [x y Hxy|] Hf; simpl; [|apply related_ret; constructor].
  eapply related_bind; [by apply Hf|]. intros. apply related_ret. by repeat constructor.
Qed.

Lemma opt_parts N0 o o' : opart N0 o o' → parts N0 (opt_list o) (opt_list o').
Proof. intros []; repeat constructor; done. Qed.

Lemma kind_class_eq k k' l :
  kind_class k = kind_class k' → forallb (contains ["entity"; "note"; "event"; "edge"]%string) l = true →
  existsb (String.eqb k) l = existsb (String.eqb k') l.
Proof.
  unfold kind_class. destruct (existsb _ _) eqn:Hk; destruct (existsb (String.eqb k') _) eqn:Hk'; try done.
  { by intros [= ->]. }
  intros _ Hl. apply eq_bool_prop_intro. rewrite !Is_true_true. split; intros (x & Hx & <-%String.eqb_eq)%existsb_exists;
    apply (proj1 (forallb_forall _ _) Hl) in Hx; unfold contains in Hx; congruence.
Qed.

Lemma kind_filter_related n a k k' :
  plain a → kind_class k = kind_class k' → related n part (kind_filter_predicate a k) (kind_filter_predicate a k').
Proof.
  intros Ha Hk. unfold kind_filter_predicate. rewrite (kind_class_eq k k') by done.
  destruct (existsb _ _); apply text_predicate_related; intros; sql_part.
Qed.

Lemma observation_kind_related n a k k' :
  plain a → kind_class k = kind_class k' →
  related n part (observation_kind_filter_predicate a k) (observation_kind_filter_predicate a k').
Proof.
  intros Ha Hk. unfold observation_kind_filter_predicate. rewrite (kind_class_eq k k') by done.
  destruct (existsb _ _); apply text_predicate_related; intros; sql_part.
Qed.

Lemma property_equality_related n a p p' direct :
  plain a → prop_alike p p' → forallb direct_key direct = true →
  related n part
    (compile_property_equality a p.1 p.2 (if contains direct p.1 then Some p.1 else None))
    (compile_property_equality a p'.1 p'.2 (if contains direct p'.1 then Some p'.1 else None)).
Proof.
  intros Ha ([= Htag _] & Hdk & Hkey) Hdirect. destruct p as [k v], p' as [k' v']. simpl in *.
  assert (∀ k, contains direct k = true → direct_key k = true) as Hin.
  { intros x (y & Hy & <-%String.eqb_eq)%existsb_exists. by apply (proj1 (forallb_forall _ _) Hdirect). }
  eapply related_bind; [by apply bind_scalar_related|]. intros N0 i j HN Hij. apply related_ret.
  rewrite <-(collate_tag _ _ Htag).
  destruct (contains direct k) eqn:Hc.
  - rewrite <-(Hkey (Hin _ Hc)), Hc. assert (plain k).
    { eapply (contains_plain ["name"; "content"]%string); [done|by apply Hin]. }
    sql_part.
  - destruct (contains direct k') eqn:Hc'; [|sql_part].
    pose proof (Hin _ Hc') as Hd. rewrite <-Hdk in Hd. rewrite <-(Hkey Hd) in Hc'. congruence.
Qed.

Lemma props_related n a direct m m' :
  plain a → forallb direct_key direct = true → Forall2 prop_alike (sorted_props m) (sorted_props m') →
  related n parts (compile_props a direct m) (compile_props a direct m').
Proof.
  intros Ha Hd Hp. unfold compile_props. apply (related_each prop_alike); [apply mono_part| |done].
  intros N0 [k v] [k' v'] _ Hkv. by apply (property_equality_related _ _ (k, v) (k', v')).
Qed.

Lemma parts_app N0 N1 l l' r r' : N0 ≤ N1 → parts N0 l l' → parts N1 r r' → parts N1 (l ++ r) (l' ++ r').
Proof. intros HN Hl Hr. apply Forall2_app; [by eapply mono_parts|done]. Qed.

Lemma text_filters_related n opts opts' a direct (fk fk' : string → C string) np np' :
  plain a → length (opt_scopes opts) = length (opt_scopes opts') → forallb direct_key direct = true →
  node_alike np np' →
  (∀ N0 k k', kind_class k = kind_class k' → related N0 part (fk k) (fk' k')) →
  related n parts
    (ns ← namespace_predicate a opts; kind ← when_some (np_kind np) fk;
     et ← when_some (np_entity_type np) (text_predicate (cat [a; ".entity_type"]));
     props ← compile_props a direct (np_properties np);
     mret (cat [a; ".deleted_at IS NULL"] :: opt_list ns ++ kind ++ et ++ props))
    (ns ← namespace_predicate a opts'; kind ← when_some (np_kind np') fk';
     et ← when_some (np_entity_type np') (text_predicate (cat [a; ".entity_type"]));
     props ← compile_props a direct (np_properties np');
     mret (cat [a; ".deleted_at IS NULL"] :: opt_list ns ++ kind ++ et ++ props)).
Proof.
  intros Ha Hlen Hd [Hv Hk Het Hp] Hfk.
  eapply related_bind; [by apply namespace_predicate_related|]. intros N0 ns ns' HN Hns%opt_parts.
  eapply related_bind; [eapply when_some_related; [done|]; auto|]. intros N1 kind kind' HN1 Hkind.
  eapply related_bind; [eapply when_some_related; [done|]; intros; apply text_predicate_related; intros; sql_part|].
  intros N2 et et' HN2 Het'. eapply related_bind; [by apply props_related|]. intros N3 props props' HN3 Hprops.
  apply related_ret. constructor; [sql_part|]. apply (parts_app N0); [lia|done|]. apply (parts_app N1); [lia|done|].
  by apply (parts_app N2).
Qed.

Lemma node_filters_related n opts opts' es ot a np np' :
  plain a → length (opt_scopes opts) = length (opt_scopes opts') → node_alike np np' →
  related n parts (node_filters opts es ot a np) (node_filters opts' es ot a np').
Proof.
  intros Ha Hlen Hnp. unfold node_filters. destruct es.
  - destruct Hnp as [_ Hk Het _]. eapply related_bind; [by apply namespace_predicate_related|]. intros N0 ns ns' HN Hns%opt_parts.
    eapply related_bind.
    + instantiate (1 := parts). destruct Hk as [k k' Hk|]; [|apply related_ret; constructor].
      pose proof (kind_class_eq k k' ["event"]%string Hk eq_refl) as He. simpl in He. rewrite !orb_false_r in He. rewrite He.
      destruct (String.eqb k' "event"); [apply related_ret; constructor|].
      eapply related_bind; [apply text_predicate_related; intros; sql_part|]. intros. apply related_ret. by repeat constructor.
    + intros N1 kind kind' HN1 Hkind. destruct Het; [apply related_fail_l|].
      case_bool_decide; [|apply related_fail_l]. case_bool_decide; [|apply related_fail_r].
      apply related_ret. by apply (parts_app N0).
  - apply text_filters_related; [done|done|by destruct ot|done|]. intros.
    destruct ot; [by apply observation_kind_related|by apply kind_filter_related].
Qed.

(** The tables a statement selects from, with the visibility of mailbox notes: their
    text is the same whatever the actor is called. *)

#[local] Open Scope nat_scope.

Definition mailbox_ok (N0 : nat) (m : option MailboxLowering) : Prop :=
  match m with Some m => 1 ≤ actor_parameter m ≤ N0 | None => True end.

Lemma mailbox_ok_mono N0 N1 m : N0 ≤ N1 → mailbox_ok N0 m → mailbox_ok N1 m.
Proof. destruct m; simpl; [lia|done]. Qed.

Lemma part_actor N0 m : 1 ≤ actor_parameter m ≤ N0 → part N0 (hole (actor_parameter m)) (hole (actor_parameter m)).
Proof. apply part_hole. Qed.

Ltac sql_mailbox Hm :=
  pose proof (part_actor _ _ Hm);
  match goal with m : MailboxLowering |- _ => destruct m as [i []]; simpl in *; sql_part end.

#[export] Hint Extern 1 (stays _ _) => vm_compute; reflexivity : sql.

Lemma note_visible_part N0 m a :
  plain a → 1 ≤ actor_parameter m ≤ N0 → part N0 (note_visible m a) (note_visible m a).
Proof. intros Ha Hm. unfold note_visible. sql_mailbox Hm. Qed.

Lemma note_filter_tail N0 m a :
  plain a → 1 ≤ actor_parameter m ≤ N0 → tail N0 (note_filter m a) (note_filter m a).
Proof. intros Ha Hm. unfold note_filter. pose proof (note_visible_part N0 m a Ha Hm). sql_tail. Qed.

Lemma endpoint_visible_part N0 m e :
  part N0 e e → 1 ≤ actor_parameter m ≤ N0 → part N0 (endpoint_visible m e) (endpoint_visible m e).
Proof.
  intros He Hm. unfold endpoint_visible. pose proof (note_visible_part N0 m "mailbox_note" eq_refl Hm). sql_part.
Qed.

Lemma edge_filter_tail N0 m a :
  plain a → 1 ≤ actor_parameter m ≤ N0 → tail N0 (edge_filter m a) (edge_filter m a).
Proof.
  intros Ha Hm. unfold edge_filter.
  pose proof (endpoint_visible_part N0 m (cat [a; ".source_id"]) ltac:(sql_part) Hm).
  pose proof (endpoint_visible_part N0 m (cat [a; ".target_id"]) ltac:(sql_part) Hm). sql_tail.
Qed.

Section sources.
Variables (N0 : nat) (mailbox : option MailboxLowering).
Hypothesis Hmailbox : mailbox_ok N0 mailbox.

Lemma notes_filter_tail : tail N0 (notes_filter mailbox) (notes_filter mailbox).
Proof. unfold notes_filter. destruct mailbox; [by apply note_filter_tail|apply tail_nil]. Qed.

Lemma primary_node_sql_part : part N0 (primary_node_sql mailbox) (primary_node_sql mailbox).
Proof using Hmailbox.
  pose proof notes_filter_tail. unfold primary_node_sql.
  assert (tail N0 match mailbox with Some scope => edge_filter scope "graph_edges" | None => "" end
            match mailbox with Some scope => edge_filter scope "graph_edges" | None => "" end)%string
    by (destruct mailbox; [by apply edge_filter_tail|apply tail_nil]).
  cbv zeta. sql_part.
Qed.

Lemma primary_node_source_part a : plain a → part N0 (primary_node_source mailbox a) (primary_node_source mailbox a).
Proof using Hmailbox. intros Ha. pose proof primary_node_sql_part. unfold primary_node_source. sql_part. Qed.

Lemma observation_target_source_part a :
  plain a → part N0 (observation_target_source mailbox a) (observation_target_source mailbox a).
Proof using Hmailbox.
  intros Ha. pose proof notes_filter_tail. unfold observation_target_source.
  assert (part N0 (observation_target_sql mailbox) (observation_target_sql mailbox))
    by (unfold observation_target_sql; sql_part). sql_part.
Qed.

Lemma edge_source_part a : plain a → part N0 (edge_source mailbox a) (edge_source mailbox a).
Proof using Hmailbox.
  intros Ha. unfold edge_source. destruct mailbox as [m|]; [|sql_part].
  pose proof (edge_filter_tail N0 m "graph_edges" eq_refl Hmailbox). sql_part.
Qed.
End sources.
