(* ===== verification/SqlSafety.v ===== *)
(** The statements of alike queries have the same tokens: patterns of fixed and of
    variable length, and the entry points. *)

From Stdlib Require Import ZArith Ascii String Lia.
From stdpp Require Import base tactics list numbers strings gmap.
From S2P Require Import Prelude RustStr Json Rounding Float EdgeOntology QueryAst Gql QuerySql SqlText.
From S2P Require Import SqlText SqlAlike.
#[local] Open Scope nat_scope.

(** ** Patterns of fixed length *)

Record parts_alike (N0 : nat) (p p' : Parts) : Prop := {
  alike_from : parts N0 (from_parts p) (from_parts p');
  alike_join : parts N0 (join_parts p) (join_parts p');
  alike_where : parts N0 (where_parts p) (where_parts p');
  alike_order : parts N0 (order_parts p) (order_parts p');
  alike_aliases : var_to_alias p = var_to_alias p';
  alike_plain : plain_aliases (var_to_alias p);
  alike_nodes : node_count p = node_count p';
  alike_edges : edge_count p = edge_count p'
}.

Lemma no_parts_alike N0 : parts_alike N0 no_parts no_parts.
Proof. split; try apply Forall2_nil_2; try done; apply map_Forall_empty. Qed.

Lemma plain_insert v a k m : plain a → plain_aliases m → plain_aliases (<[v := (a, k)]> m).
Proof. intros Ha Hm. by apply map_Forall_insert_2. Qed.

Lemma parts_sql N0 l : Forall (λ s, part N0 s s) l → parts N0 l l.
Proof. induction 1; constructor; auto. Qed.

Lemma synthetic_exists l l' :
  Forall2 (λ r r', is_synthetic r = is_synthetic r') l l' →
  existsb is_synthetic l = existsb is_synthetic l' ∧
  existsb (λ r, negb (is_synthetic r)) l = existsb (λ r, negb (is_synthetic r)) l'.
Proof. induction 1 as [|r r' l l' Hr Hl [IH1 IH2]]; [done|]. simpl. by rewrite Hr, IH1, IH2. Qed.

Lemma synthetic_has_role r : is_synthetic r = true → is_Some (synthetic_role r).
Proof.
  unfold is_synthetic, SYNTHETIC_RELATIONS, synthetic_role. simpl. repeat case_match; try done; by simplify_eq/=.
Qed.

Lemma roles_length l :
  existsb (λ r, negb (is_synthetic r)) l = false → length (omap synthetic_role l) = length l.
Proof.
  induction l as [|r l IH]; [done|]. simpl. intros [Hr%negb_false_iff Hl]%orb_false_iff.
  destruct (synthetic_has_role r Hr) as [role ->]. simpl. f_equal. by apply IH.
Qed.

Section fixed.
Context `{CharLaws}.
Variables (opts opts' : CompileOptions) (mailbox : option MailboxLowering).
Hypothesis Hscopes : length (opt_scopes opts) = length (opt_scopes opts').

Definition triple_alike (N0 : nat) (t t' : list string * list string * list string) : Prop :=
  parts N0 t.1.1 t'.1.1 ∧ parts N0 t.1.2 t'.1.2 ∧ parts N0 t.2 t'.2.

Lemma synthetic_edge_related n e p x ep ep' :
  plain e → plain p → plain x → mailbox_ok n mailbox → edge_alike ep ep' →
  existsb (λ r, negb (is_synthetic r)) (ep_relations ep) = false →
  related n triple_alike (compile_synthetic_edge mailbox e p x ep) (compile_synthetic_edge mailbox e p x ep').
Proof.
  intros He Hp Hx Hm [_ Hr Hdir _] Hcan. unfold compile_synthetic_edge. rewrite <-Hdir.
  destruct (ep_direction ep); try apply related_fail_l.
  eapply related_bind.
  { apply text_choice_related; [intros; sql_part|]. destruct (synthetic_exists _ _ Hr) as [_ Hex].
    rewrite !roles_length by congruence. by eapply Forall2_length. }
  intros N0 roles roles' HN Hroles. apply related_ret.
  pose proof (observation_target_source_part N0 mailbox (mailbox_ok_mono _ _ _ HN Hm) x Hx).
  unfold triple_alike. simpl. split_and!.
  - constructor; [sql_part|]. constructor; [sql_part|constructor].
  - apply (parts_app N0); [done|done|]. constructor; [sql_part|constructor].
  - repeat (constructor; [sql_part|]). constructor.
Qed.

Lemma canonical_edge_related n e p x ep ep' :
  plain e → plain p → plain x → mailbox_ok n mailbox → edge_alike ep ep' →
  related n triple_alike (compile_canonical_edge opts mailbox e p x ep) (compile_canonical_edge opts' mailbox e p x ep').
Proof using Hscopes.
  intros He Hp Hx Hm [_ Hr Hdir _]. unfold compile_canonical_edge. rewrite <-Hdir.
  eapply related_bind; [by apply namespace_predicate_related|]. intros N0 ns ns' HN Hns%opt_parts.
  eapply related_bind; [apply text_choice_related; [intros; sql_part|by eapply Forall2_length]|].
  intros N1 rels rels' HN1 Hrels. apply related_ret.
  assert (mailbox_ok N1 mailbox) as Hm1 by (eapply mailbox_ok_mono, Hm; lia).
  pose proof (primary_node_source_part N1 mailbox Hm1 x Hx). pose proof (edge_source_part N1 mailbox Hm1 e He).
  unfold triple_alike. simpl. split_and!.
  - destruct (ep_direction ep); (constructor; [sql_part|]); (constructor; [sql_part|constructor]).
  - by apply (parts_app N0).
  - constructor; [sql_part|constructor].
Qed.

Lemma edge_related n ep ep' p p' :
  mailbox_ok n mailbox → edge_alike ep ep' → parts_alike n p p' →
  related n parts_alike (compile_edge opts mailbox ep p) (compile_edge opts' mailbox ep' p').
Proof using Hscopes.
  intros Hm Hep [Hf Hj Hw Ho Ha Hpl Hn He]. unfold compile_edge. rewrite <-Hn, <-He.
  destruct (synthetic_exists _ _ (edge_relations _ _ Hep)) as [<- <-].
  destruct (existsb is_synthetic _ && existsb _ _) eqn:Hmix; [apply related_fail_l|].
  eapply related_bind with (R := triple_alike).
  { destruct (existsb is_synthetic _); [apply synthetic_edge_related|apply canonical_edge_related]; auto with sql. }
  intros N0 [[j w] o] [[j' w'] o'] HN (Hj1 & Hw1 & Ho1). apply related_ret. simpl in *.
  split; simpl; try (by apply (parts_app n)); try (by eapply mono_parts); try done; try congruence.
  - rewrite <-(edge_variable _ _ Hep), Ha. done.
  - destruct (ep_variable ep); [apply plain_insert; auto with sql|done].
Qed.

Variables (event_sources observation_targets : gset nat).

Lemma node_related n np np' p p' :
  mailbox_ok n mailbox → node_alike np np' → parts_alike n p p' →
  related n parts_alike (compile_node opts mailbox event_sources observation_targets np p)
    (compile_node opts' mailbox event_sources observation_targets np' p').
Proof using Hscopes.
  intros Hm Hnp [Hf Hj Hw Ho Ha Hpl Hn He]. unfold compile_node. rewrite <-Hn.
  pose proof (plain_node_alias (node_count p)) as Hal.
  eapply related_bind; [apply node_filters_related; [apply plain_node_alias|done|done]|].
  intros N0 fs fs' HN Hfs. apply related_ret.
  assert (mailbox_ok N0 mailbox) as Hm0 by by eapply mailbox_ok_mono.
  pose proof (primary_node_source_part N0 mailbox Hm0 _ Hal).
  split; simpl; try (by eapply mono_parts); try done.
  - apply (parts_app n); [done|done|]. apply parts_sql. destruct (node_count p); [|done].
    repeat case_bool_decide; repeat (constructor; [sql_part|]); constructor.
  - by apply (parts_app n).
  - apply (parts_app n); [done|done|]. apply parts_sql.
    repeat case_bool_decide; repeat (constructor; [sql_part|]); constructor.
  - rewrite <-(node_variable _ _ Hnp), Ha. done.
  - destruct (np_variable np); [by apply plain_insert|done].
Qed.

Lemma elements_related n es es' p p' :
  mailbox_ok n mailbox → Forall2 element_alike es es' → parts_alike n p p' →
  related n parts_alike (compile_elements opts mailbox event_sources observation_targets es p)
    (compile_elements opts' mailbox event_sources observation_targets es' p').
Proof using Hscopes.
  intros Hm Hes. revert n p p' Hm. induction Hes as [|e e' es es' He Hes IH]; intros n p p' Hm Hp; [by apply related_ret|].
  destruct He as [np np' Hnp|ep ep' Hep]; simpl.
  all: eapply related_bind; [by apply node_related || by apply edge_related|].
  all: intros N0 q q' HN Hq; apply IH; [by eapply mailbox_ok_mono|done].
Qed.
End fixed.

Lemma synthetic_endpoints_alike es es' i prev s t :
  Forall2 element_alike es es' → synthetic_endpoints es i prev s t = synthetic_endpoints es' i prev s t.
Proof.
  intros Hes. revert i prev s t. induction Hes as [|e e' es es' He Hes IH]; intros i prev s t; [done|].
  destruct He as [np np' Hnp|ep ep' Hep]; simpl; [apply IH|].
  destruct (synthetic_exists _ _ (edge_relations _ _ Hep)) as [<- _].
  destruct (existsb is_synthetic _), prev; apply IH.
Qed.

(** ** Projections *)


Lemma projection_part N0 t c s s' :
  plain t → plain c → part N0 (projection t c (quote_identifier s)) (projection t c (quote_identifier s')).
Proof. intros Ht Hc. unfold projection. sql_part. Qed.

Definition plain_columns (l : list (string * string)) : bool :=
  forallb (λ cs, forallb code_char (to_bytes cs.1)) l.

Lemma property_to_column_plain prop kind col : property_to_column prop kind = Ok col → plain col.
Proof.
  unfold property_to_column. destruct (property_columns kind) as [valid name] eqn:Hv.
  destruct (contains valid prop) eqn:Hc; [|done]. intros [= <-]. eapply contains_plain; [|done].
  destruct kind; simplify_eq/=; reflexivity.
Qed.

Lemma project_item_parts N0 m item l : plain_aliases m → project_item m item = Ok l → parts N0 l l.
Proof.
  intros Hm. unfold project_item. destruct (m !! item_variable item) as [[a kind]|] eqn:Hl; [|done].
  apply Hm in Hl. simpl in Hl. destruct item as [v|v prop].
  - intros [= <-]. apply parts_sql, Forall_forall. intros s (cs & -> & Hcs)%list_elem_of_fmap.
    assert (plain_columns (variable_columns kind) = true) as Hcols by (destruct kind; reflexivity).
    destruct cs as [c suffix]. apply projection_part; [done|].
    by apply (proj1 (forallb_forall _ _) Hcols (c, suffix)), list_elem_of_In.
  - destruct (property_to_column prop kind) as [col|] eqn:Hcol; [|done]. intros [= <-].
    constructor; [|constructor]. apply projection_part; [done|]. by eapply property_to_column_plain.
Qed.

Lemma try_map_Forall {A B E} (f : A → result B E) (P : B → Prop) l l' :
  (∀ x y, f x = Ok y → P y) → try_map f l = Ok l' → Forall P l'.
Proof.
  intros HP. revert l'. induction l as [|x l IH]; intros l' Hl; simplify_eq/=; [constructor|].
  destruct (f x) as [y|] eqn:Hy; [|done]. simpl in Hl. destruct (try_map f l) as [ys|]; [|done].
  simplify_eq/=. constructor; [by eapply HP|by apply IH].
Qed.

Lemma parts_concat N0 ls : Forall (λ l, parts N0 l l) ls → parts N0 (concat ls) (concat ls).
Proof. induction 1; simpl; [constructor|by apply Forall2_app]. Qed.

(** ** Patterns of variable length *)

Definition conditions_alike (N0 : nat) : list (string * Endpoint) → list (string * Endpoint) → Prop :=
  Forall2 (λ s s', part N0 s.1 s'.1 ∧ s.2 = s'.2).
Definition local_alike (N0 : nat) : option (string * Endpoint) → option (string * Endpoint) → Prop :=
  option_Forall2 (λ s s', part N0 s.1 s'.1 ∧ s.2 = s'.2).

Lemma mono_conditions : mono conditions_alike.
Proof. intros N0 N1 l l' HN Hl. eapply Forall2_impl; [exact Hl|]. intros ?? [??]. split; [by eapply part_mono|done]. Qed.
Lemma mono_local : mono local_alike.
Proof. intros N0 N1 ? ? HN [?? [??]|]; constructor. split; [by eapply part_mono|done]. Qed.

Lemma at_endpoint_parts N0 e l l' : conditions_alike N0 l l' → parts N0 (at_endpoint e l) (at_endpoint e l').
Proof.
  induction 1 as [|[s e1] [s' e1'] l l' [Hs He] Hl IH]; [constructor|]. simpl in *. subst e1'.
  destruct e, e1; simpl; try exact IH; by constructor.
Qed.

Lemma local_conditions N0 o o' : local_alike N0 o o' → conditions_alike N0 (opt_list o) (opt_list o').
Proof. intros []; repeat constructor; naive_solver. Qed.

Lemma join_local_alike N0 b o a l l' r r' :
  code_to_code b || String.eqb b "" = true → plain_head o && code_to_code o = true →
  (plain_head a && code_to_code a) || String.eqb a "" = true → local_alike N0 l l' → local_alike N0 r r' →
  local_alike N0 (join_local b o a l r) (join_local b o a l' r').
Proof.
  intros Hb Ho Ha Hl Hr.
  destruct Hl as [[s e] [s' e'] [Hs He]|], Hr as [[t f] [t' f'] [Ht Hf]|]; simpl; constructor; try done.
  split; [by apply join_part|done].
Qed.

Section path_conditions.
Context `{CharLaws}.
Variables (start_var end_var : option string).

Lemma var_len_condition_related n c c' :
  cond_alike c c' →
  related n (λ N0 s s', part N0 s.1 s'.1 ∧ s.2 = s'.2)
    (compile_var_len_condition c start_var end_var) (compile_var_len_condition c' start_var end_var).
Proof.
  intros [Hv Hp Ho Hval].
  assert (∀ e, related n (λ N0 s s', part N0 s.1 s'.1 ∧ s.2 = s'.2)
    (col_expr ← lift (where_property_expression (cond_property c) VNode (endpoint_alias e));
     sql ← compile_condition_predicate col_expr c; mret (sql, e))
    (col_expr ← lift (where_property_expression (cond_property c') VNode (endpoint_alias e));
     sql ← compile_condition_predicate col_expr c'; mret (sql, e))) as Hat.
  { intros e. eapply related_bind; [apply where_property_related; [by destruct e|done]|]. intros N0 s s' HN Hs.
    eapply related_bind; [apply compile_condition_predicate_related; [|done|done]; intros; by eapply part_mono|].
    intros N1 t t' HN1 Ht. by apply related_ret. }
  unfold compile_var_len_condition. rewrite <-Hv. repeat case_decide; [apply Hat|apply Hat|apply related_fail_l].
Qed.

Lemma where_to_sql_related n e e' :
  where_alike e e' →
  related n local_alike (compile_where_to_sql e start_var end_var) (compile_where_to_sql e' start_var end_var).
Proof.
  intros He. revert n. induction He as [l l' r r' Hl IHl Hr IHr|l l' r r' Hl IHl Hr IHr|c c' Hc|]; intros n; simpl.
  3: { eapply related_bind; [by apply var_len_condition_related|]. intros N0 s s' HN Hs. apply related_ret. by constructor. }
  3: { apply related_ret. constructor. }
  all: eapply related_bind; [apply IHl|]; intros N0 o o' HN Ho.
  all: eapply related_bind; [apply IHr|]; intros N1 p p' HN1 Hp; apply related_ret.
  all: apply (mono_local _ N1) in Ho; [|done]; by apply join_local_alike.
Qed.

Lemma variable_length_where_related n e e' :
  where_alike e e' →
  related n conditions_alike (compile_variable_length_where e start_var end_var)
    (compile_variable_length_where e' start_var end_var).
Proof.
  intros He. revert n. induction He as [l l' r r' Hl IHl Hr IHr|l l' r r' Hl _ Hr _|c c' Hc|]; intros n; simpl.
  - eapply related_bind; [apply IHl|]; intros N0 o o' HN Ho.
    eapply related_bind; [apply IHr|]; intros N1 p p' HN1 Hp; apply related_ret.
    apply Forall2_app; [by apply (mono_conditions N0)|done].
  - eapply related_bind; [by apply where_to_sql_related|]; intros N0 o o' HN Ho.
    eapply related_bind; [by apply where_to_sql_related|]; intros N1 p p' HN1 Hp; apply related_ret.
    apply local_conditions. apply (mono_local _ N1) in Ho; [|done]. by apply join_local_alike.
  - eapply related_bind; [by apply var_len_condition_related|]. intros N0 s s' HN Hs. apply related_ret.
    constructor; [done|constructor].
  - apply related_ret. constructor.
Qed.
End path_conditions.

Lemma endpoint_filters_related n opts opts' a np np' :
  plain a → length (opt_scopes opts) = length (opt_scopes opts') → node_alike np np' →
  related n parts (endpoint_filters opts a np) (endpoint_filters opts' a np').
Proof.
  intros Ha Hlen Hnp. apply text_filters_related; [done|done|done|done|]. intros. by apply kind_filter_related.
Qed.

Lemma relation_condition_related n l l' :
  length l = length l' → related n tail (relation_condition l) (relation_condition l').
Proof.
  intros Hlen. eapply related_bind; [apply text_choice_one; [intros; by apply part_code|done]|].
  intros N0 r r' HN [Hr Hone]. apply related_ret.
  destruct Hr as [|p p' r r' Hp Hr]; [apply tail_nil|]. destruct Hr; [|simpl in Hone; lia]. sql_tail.
Qed.

(** A projected item: its column and its output name. *)
Lemma project_path_item_parts N0 start kinds item r :
  project_path_item start kinds item = Ok r → parts N0 r.1.*1 r.1.*1 ∧ parts N0 r.1.*2 r.1.*2.
Proof.
  assert (∀ b : bool, plain (if b then "s" else "r")%string) as Htbl by by intros [].
  assert (∀ tbl l, plain tbl → plain_columns l = true →
    let named := (λ '(column, suffix),
        let alias := output_alias (item_variable item) suffix in (projection tbl column alias, alias)) <$> l in
    parts N0 named.*1 named.*1 ∧ parts N0 named.*2 named.*2) as Hnamed.
  { intros tbl l Ht Hl. simpl. rewrite <-!list_fmap_compose.
    split; apply parts_sql, Forall_forall; intros s (cs & -> & Hcs)%list_elem_of_fmap; destruct cs as [c suffix]; simpl.
    - apply projection_part; [done|]. by apply (proj1 (forallb_forall _ _) Hl (c, suffix)), list_elem_of_In.
    - apply part_quote_identifier. }
  assert (∀ tbl c sfx, plain tbl → plain c →
    let named := [(projection tbl c (output_alias (item_variable item) sfx), output_alias (item_variable item) sfx)] in
    parts N0 named.*1 named.*1 ∧ parts N0 named.*2 named.*2) as Hone.
  { intros tbl c sfx Ht Hc. apply (Hnamed tbl [(c, sfx)] Ht). unfold plain_columns. simpl. by rewrite Hc. }
  unfold project_path_item. destruct (kinds !! _) as [[]|]; try done; destruct item as [v|v prop].
  - intros [= <-]. exact (Hnamed _ (variable_columns VNode) (Htbl _) eq_refl).
  - destruct (property_to_column prop VNode) as [col|] eqn:Hcol; [|done]. intros [= <-].
    apply (Hone _ col prop); [done|by eapply property_to_column_plain].
  - intros [= <-]. exact (Hnamed "t"%string path_columns eq_refl eq_refl).
  - destruct (List.find _ path_columns) as [[c sfx]|] eqn:Hf; [|done]. intros [= <-]. apply (Hone "t"%string c prop); [done|].
    apply List.find_some in Hf as [Hin _]. by apply (proj1 (forallb_forall _ path_columns) (eq_refl : plain_columns path_columns = true) _ Hin).
Qed.

(** ** The statements *)

Definition compiled_alike (N0 : nat) (c c' : CompiledQuery) : Prop :=
  part N0 (cq_sql c) (cq_sql c') ∧ length (cq_params c) = N0 ∧ length (cq_params c') = N0.

Record query_alike (q q' : GqlQuery) : Prop := {
  alike_pattern : Forall2 element_alike (q_pattern q) (q_pattern q');
  alike_expr : where_alike (q_where q) (q_where q');
  alike_return : q_return q = q_return q'
}.

Definition scope_alike : option QueryMailboxScope → option QueryMailboxScope → Prop :=
  option_Forall2 (λ m m', legacy_local_scope m = legacy_local_scope m').

Lemma mailbox_related n m m' :
  scope_alike m m' →
  related n (λ N0 a b, a = b ∧ mailbox_ok N0 a)
    (match m with Some scope => m ← mailbox_bind scope; mret (Some m) | None => mret None end)
    (match m' with Some scope => m ← mailbox_bind scope; mret (Some m) | None => mret None end).
Proof.
  intros [s s' Hs|]; [|by apply related_ret].
  eapply related_bind with (R := λ N0 a b, a = b ∧ 1 ≤ actor_parameter a ≤ N0).
  - eapply related_bind; [apply related_push|]. intros N0 i j HN [-> Hi]. apply related_ret. simpl. by rewrite Hs.
  - intros N0 a b HN [-> Ha]. by apply related_ret.
Qed.

Lemma push_i64_related n x x' what : related n idx (push_i64 x what) (push_i64 x' what).
Proof.
  unfold push_i64. destruct (x <=? i64_max)%Z; [|apply related_fail_l].
  destruct (x' <=? i64_max)%Z; [apply related_push|apply related_fail_r].
Qed.

Section statements.
Context `{Tables : CharTables} {Laws : CharLaws}.
Variables (opts opts' : CompileOptions).
Hypothesis Hscopes : length (opt_scopes opts) = length (opt_scopes opts').

Lemma fixed_length_related q q' mb mb' :
  query_alike q q' → scope_alike mb mb' →
  related 0 compiled_alike (compile_fixed_length q opts mb) (compile_fixed_length q' opts' mb').
Proof using Laws Hscopes.
  intros [Hp Hw Hr] Hmb. unfold compile_fixed_length. rewrite <-Hr.
  eapply related_bind; [by apply mailbox_related|]. intros N0 m m' HN [-> Hm]. clear Hmb.
  unfold synthetic_endpoint_node_indices. rewrite (synthetic_endpoints_alike _ _ _ _ _ _ Hp).
  destruct (synthetic_endpoints _ _ _ _ _) as [es ot].
  eapply related_bind; [by apply elements_related, no_parts_alike|]. intros N1 p p' HN1 [Hf Hj Hwp Ho Ha Hpl _ _].
  rewrite <-Ha. eapply related_bind; [by apply where_expr_related|]. intros N2 w w' HN2 Hws%opt_parts.
  eapply related_bind with (R := λ N0 l l', l = l' ∧ ∀ M, parts M (concat l) (concat l)).
  { apply related_lift. intros l l' Hl Hl'. split; [congruence|]. intros M. apply parts_concat.
    eapply try_map_Forall; [|exact Hl]. intros item cols. by apply project_item_parts. }
  intros N3 l ? HN3 [<- Hl]. specialize (Hl N3).
  eapply related_bind; [apply push_i64_related|]. intros N4 o o' HN4 Hoff.
  destruct (effective_limit _ _ _) as [lim tc], (effective_limit _ _ _) as [lim' tc'].
  eapply related_bind; [apply push_i64_related|]. intros N5 i i' HN5 Hlim.
  eapply related_bind; [apply related_get|]. intros N6 ps ps' HN6 Hps. apply related_ret.
  split; [|done]. cbn [cq_sql].
  assert (∀ sep a b, plain_head sep && code_to_code sep = true → parts N1 a b → part N6 (join sep a) (join sep b)) as Hjoin.
  { intros sep a b Hsep Hab. apply part_join; [done|]. eapply mono_parts; [|exact Hab]. lia. }
  pose proof (Hjoin ", "%string _ _ eq_refl Hf). pose proof (Hjoin " "%string _ _ eq_refl Hj).
  pose proof (Hjoin ", "%string _ _ eq_refl Ho). clear Hjoin.
  pose proof (part_join N3 ", " _ _ eq_refl Hl).
  pose proof (part_join N2 " AND " _ _ eq_refl (parts_app N1 N2 _ _ _ _ HN2 Hwp Hws)).
  sql_part.
Qed.

(** The projected items of a path. *)
Lemma path_items_parts N0 start kinds items l :
  try_map (project_path_item start kinds) items = Ok l →
  parts N0 (concat (fst <$> l)).*1 (concat (fst <$> l)).*1 ∧ parts N0 (concat (fst <$> l)).*2 (concat (fst <$> l)).*2.
Proof.
  intros Hl. apply (try_map_Forall _ (λ r, parts N0 r.1.*1 r.1.*1 ∧ parts N0 r.1.*2 r.1.*2)) in Hl.
  - clear -Hl. induction Hl as [|r l [H1 H2] Hl [IH1 IH2]]; [split; constructor|].
    change (concat (fst <$> r :: l)) with (r.1 ++ concat (fst <$> l)). rewrite !fmap_app. split; by apply Forall2_app.
  - intros item r. apply project_path_item_parts.
Qed.

Lemma filter_parts N0 f l : parts N0 l l → parts N0 (List.filter f l) (List.filter f l).
Proof.
  intros Hl. apply parts_sql. apply Forall_forall. intros s (Hin & _)%list_elem_of_In%List.filter_In.
  apply list_elem_of_In in Hin. apply list_elem_of_lookup in Hin as [i Hi]. by eapply Forall2_lookup_lr.
Qed.

Lemma select_parts_part N0 l :
  parts N0 l l →
  let s := join ", " (l ++ [cat ["t.depth AS "; quote_identifier "_depth"];
                            cat ["t.total_weight AS "; quote_identifier "_total_weight"]]) in
  part N0 s s.
Proof.
  intros Hl. apply part_join; [done|]. apply Forall2_app; [done|].
  constructor; [sql_part|]. constructor; [sql_part|constructor].
Qed.

Lemma order_suffix_tail N0 l :
  parts N0 l l →
  let s := match List.filter (λ a, negb (String.eqb a (quote_identifier "_depth")) &&
                                   negb (String.eqb a (quote_identifier "_total_weight"))) l with
           | [] => ""%string
           | _ :: _ => cat [", "; join ", " (List.filter (λ a, negb (String.eqb a (quote_identifier "_depth")) &&
                                   negb (String.eqb a (quote_identifier "_total_weight"))) l)]
           end in
  tail N0 s s.
Proof.
  intros Hl. cbv zeta. pose proof (filter_parts N0 (λ a, negb (String.eqb a (quote_identifier "_depth")) &&
    negb (String.eqb a (quote_identifier "_total_weight"))) l Hl) as Hf.
  destruct (List.filter _ l) as [|a k] eqn:Hk; [apply tail_nil|]. pose proof (part_join N0 ", " _ _ eq_refl Hf). sql_tail.
Qed.

Lemma direction_parts N0 d :
  let '(a, b, c, e) := direction_joins d in part N0 a a ∧ part N0 b b ∧ part N0 c c ∧ part N0 e e.
Proof. destruct d; split_and!; by apply part_code. Qed.

Lemma path_related start start' e e' end_ end_' q q' mb :
  query_alike q q' → node_alike start start' → edge_alike e e' → node_alike end_ end_' →
  (1 ≤ ep_min_hops e)%Z → (1 ≤ ep_min_hops e')%Z → 
  ∀ n, mailbox_ok n mb →
  related n compiled_alike (compile_path start e end_ q opts mb) (compile_path start' e' end_' q' opts' mb).
Proof using Laws Hscopes.
  intros [_ Hw Hr] Hs He Hend Hmin Hmin' n Hmb. unfold compile_path. rewrite <-Hr.
  destruct (synthetic_exists _ _ (edge_relations _ _ He)) as [<- _].
  destruct (existsb is_synthetic _); [apply related_fail_l|]. cbv zeta.
  rewrite <-(edge_direction _ _ He), <-(edge_variable _ _ He), <-(node_variable _ _ Hs), <-(node_variable _ _ Hend).
  eapply related_bind; [by apply endpoint_filters_related|]. intros N0 sf sf' HN0 Hsf.
  eapply related_bind; [apply relation_condition_related; by eapply Forall2_length, edge_relations|].
  intros N1 rc rc' HN1 Hrc.
  eapply related_bind; [by apply namespace_filter_related|]. intros N2 en en' HN2 Hen.
  destruct (direction_joins (ep_direction e)) as [[[sj sn] rj] rn] eqn:Hdir.
  eapply related_bind; [by apply namespace_filter_related|]. intros N3 nn nn' HN3 Hnn.
  eapply related_bind; [apply push_i64_related|]. intros N4 d d' HN4 Hd.
  eapply related_bind; [by apply endpoint_filters_related|]. intros N5 ef ef' HN5 Hef.
  eapply related_bind with (R := λ _ _ _, True); [by apply related_lift|]. intros N6 _ _ HN6 _.
  eapply related_bind; [by apply variable_length_where_related|]. intros N7 cs cs' HN7 Hcs.
  replace (ep_min_hops e >? 0)%Z with true by lia. replace (ep_min_hops e' >? 0)%Z with true by lia.
  eapply related_bind with (R := parts).
  { eapply related_bind; [apply push_i64_related|]. intros M i i' HM Hi. apply related_ret.
    constructor; [sql_part|constructor]. }
  intros N8 mf mf' HN8 Hmf.
  eapply related_bind; [apply push_i64_related|]. intros N9 o o' HN9 Hoff.
  destruct (effective_limit _ _ _) as [lim tc], (effective_limit _ _ _) as [lim' tc'].
  eapply related_bind; [apply push_i64_related|]. intros N10 li li' HN10 Hlim.
  eapply related_bind with (R := λ N0 l l', l = l' ∧ ∀ M,
    parts M (concat (fst <$> l)).*1 (concat (fst <$> l)).*1 ∧ parts M (concat (fst <$> l)).*2 (concat (fst <$> l)).*2).
  { apply related_lift. intros l l' Hl Hl'. split; [congruence|]. intros M. by eapply path_items_parts. }
  intros N11 l ? HN11 [<- Hl]. specialize (Hl N11) as [Hl1 Hl2].
  eapply related_bind; [apply related_get|]. intros N12 ps ps' HN12 Hps. apply related_ret. split; [|done]. cbn [cq_sql].
  pose proof (direction_parts N12 (ep_direction e)) as Hjoins. rewrite Hdir in Hjoins. destruct Hjoins as (Hsj & Hsn & Hrj & Hrn).
  assert (mailbox_ok N12 mb) as Hm12 by (eapply mailbox_ok_mono, Hmb; lia).
  pose proof (primary_node_sql_part N12 mb Hm12). pose proof (edge_source_part N12 mb Hm12 "e" eq_refl).
  assert (tail N12 en en') by (eapply tail_mono, Hen; lia). assert (tail N12 nn nn') by (eapply tail_mono, Hnn; lia).
  assert (tail N12 rc rc') by (eapply tail_mono, Hrc; lia).
  pose proof (part_join N7 " AND " _ _ eq_refl
    (parts_app N0 N7 _ _ _ _ ltac:(lia) Hsf (at_endpoint_parts N7 AtStart _ _ Hcs))).
  pose proof (part_join N8 " AND " _ _ eq_refl
    (parts_app N5 N8 _ _ _ _ ltac:(lia) Hef (parts_app N7 N8 _ _ _ _ HN8 (at_endpoint_parts N7 AtEnd _ _ Hcs) Hmf))).
  pose proof (select_parts_part N11 _ Hl1). pose proof (order_suffix_tail N12 _ (mono_parts _ N12 _ _ HN12 Hl2)).
  destruct (existsb snd l); sql_part.
Qed.
End statements.

(** ** Validation *)

Section validated.
Context `{Externals}.

Lemma validate_relation_synthetic r r' : validate_relation r = Ok r' → is_synthetic r' = is_synthetic r.
Proof.
  unfold validate_relation, normalize_relation. destruct (String.prefix "observed_as_" r) eqn:Hp.
  - destruct (existsb _ _); [by intros [= <-]|done].
  - destruct (from_str r) as [parsed|]; [|done]. intros [= <-].
    assert (is_synthetic r = false) as ->; [|by destruct parsed].
    unfold is_synthetic, SYNTHETIC_RELATIONS. simpl.
    repeat match goal with |- context [String.eqb r ?s] => destruct (String.eqb_spec r s) as [->|]; [discriminate Hp|] end.
    done.
Qed.

(** Two lists mapped pointwise keep a relation. *)
Lemma try_map_related {A B E} (f : A → result B E) (P : A → A → Prop) (Q : B → B → Prop) l l' k k' :
  (∀ x x' y y', P x x' → f x = Ok y → f x' = Ok y' → Q y y') →
  Forall2 P l l' → try_map f l = Ok k → try_map f l' = Ok k' → Forall2 Q k k'.
Proof.
  intros HPQ Hl Hk%try_map_Forall2 Hk'%try_map_Forall2. revert k k' Hk Hk'.
  induction Hl as [|x x' l l' Hx Hl IH]; intros k k' Hk Hk'; inversion Hk; inversion Hk'; simplify_eq; constructor; eauto.
Qed.

(** The hop bounds of a validated edge. *)
Definition hops_ok (e : PatternElement) : Prop :=
  match e with PNode _ => True | PEdge ep => (1 ≤ ep_min_hops ep ≤ ep_max_hops ep)%Z ∧ (ep_max_hops ep ≤ MAX_DEPTH)%Z end.

Lemma validate_hops_ok a b : (0 ≤ a)%Z → validate_hops a b = Ok () → (1 ≤ a ≤ b)%Z ∧ (b ≤ MAX_DEPTH)%Z.
Proof. unfold validate_hops. repeat case_match; intros; simplify_eq; lia. Qed.

Lemma validate_edge_ok ep v :
  validate_element (PEdge ep) = Ok v →
  ∃ relations, try_map validate_relation (ep_relations ep) = Ok relations ∧
    validate_hops (ep_min_hops ep) (ep_max_hops ep) = Ok () ∧
    v = PEdge {| ep_variable := ep_variable ep; ep_relations := relations; ep_direction := ep_direction ep;
                 ep_min_hops := ep_min_hops ep; ep_max_hops := ep_max_hops ep |}.
Proof.
  simpl. intros (rs & Hrs & Hv)%res_bind_Ok. apply res_bind_Ok in Hv as ([] & Hh & [= <-]). by exists rs.
Qed.

Lemma validate_node_ok np v : validate_element (PNode np) = Ok v → v = PNode np.
Proof. simpl. case_match; [done|]. by intros [= <-]. Qed.

Lemma validate_element_alike e e' v v' :
  element_alike e e' → validate_element e = Ok v → validate_element e' = Ok v' → element_alike v v'.
Proof.
  intros [np np' Hnp|ep ep' [Hv Hr Hd Hm]].
  - intros ->%validate_node_ok ->%validate_node_ok. by constructor.
  - intros (rs & Hrs & _ & ->)%validate_edge_ok (rs' & Hrs' & _ & ->)%validate_edge_ok. constructor.
    split; simpl; try done. eapply try_map_related; [|exact Hr|done|done]. simpl.
    intros x x' y y' Hxx' Hx Hx'. by rewrite (validate_relation_synthetic _ _ Hx), (validate_relation_synthetic _ _ Hx').
Qed.

Lemma var_kinds_alike es es' : Forall2 element_alike es es' → var_kinds es = var_kinds es'.
Proof.
  intros Hes. unfold var_kinds. generalize (∅ : gmap string VarKind).
  induction Hes as [|e e' es es' He Hes IH]; intros m; [done|]. simpl.
  destruct He as [np np' Hnp|ep ep' Hep]; [rewrite <-(node_variable _ _ Hnp)|rewrite <-(edge_variable _ _ Hep)]; apply IH.
Qed.

Lemma validate_value_shape v v' : validate_relation_value v = Ok v' → value_shape v' = value_shape v.
Proof.
  destruct v as [s| | | |l|]; simpl; try by intros [= <-].
  - intros (t & _ & [= <-])%res_bind_Ok. done.
  - intros (k & Hk%try_map_Forall2 & [= <-])%res_bind_Ok. unfold value_shape. simpl. f_equal.
    induction Hk as [|x y l k Hxy Hk IH]; [done|]. simpl. f_equal; [|exact IH].
    destruct x; try done. apply res_bind_Ok in Hxy as (t & _ & [= <-]). done.
Qed.

Lemma validate_condition_shape b c v :
  validate_condition b c = Ok v →
  cond_variable v = cond_variable c ∧ cond_property v = cond_property c ∧ cond_op v = cond_op c ∧
  value_shape (cond_value v) = value_shape (cond_value c).
Proof.
  assert (∀ x, (let? value := validate_relation_value (cond_value c) in Ok (with_value c value)) = Ok x →
    cond_variable x = cond_variable c ∧ cond_property x = cond_property c ∧ cond_op x = cond_op c ∧
    value_shape (cond_value x) = value_shape (cond_value c)) as Hval.
  { intros x (w & Hw & [= <-])%res_bind_Ok. simpl. split_and!; [done..|]. by apply validate_value_shape. }
  unfold validate_condition. repeat case_match; try done; try (by intros [= <-]); apply Hval.
Qed.

Lemma map_conditions_alike f e e' v v' :
  (∀ c c' d d', cond_alike c c' → f c = Ok d → f c' = Ok d' → cond_alike d d') →
  where_alike e e' → map_conditions f e = Ok v → map_conditions f e' = Ok v' → where_alike v v'.
Proof.
  intros Hf He. revert v v'. induction He as [l l' r r' Hl IHl Hr IHr|l l' r r' Hl IHl Hr IHr|c c' Hc|]; intros v v'; simpl.
  1,2: intros (a & Ha & (b & Hb & [= <-])%res_bind_Ok)%res_bind_Ok (a' & Ha' & (b' & Hb' & [= <-])%res_bind_Ok)%res_bind_Ok;
    constructor; auto.
  - intros (a & Ha & [= <-])%res_bind_Ok (a' & Ha' & [= <-])%res_bind_Ok. constructor. eauto.
  - intros [= <-] [= <-]. constructor.
Qed.

Lemma validate_ok q v w :
  validate_with_warnings q = Ok (v, w) →
  try_map validate_element (q_pattern q) = Ok (q_pattern v) ∧
  map_conditions (λ cond, validate_condition
    (bool_decide (default KNode (var_kinds (q_pattern v) !! cond_variable cond) = KEdge)) cond) (q_where q) = Ok (q_where v) ∧
  q_return v = q_return q ∧ q_offset v = q_offset q ∧ q_limit v = q_limit q ∧ w = [].
Proof.
  unfold validate_with_warnings. intros ([] & _ & Hv)%res_bind_Ok.
  apply res_bind_Ok in Hv as ([] & _ & Hv). apply res_bind_Ok in Hv as (p & Hp & Hv).
  apply res_bind_Ok in Hv as (e & He & [= <- <-]). done.
Qed.

Lemma validate_alike q q' v v' w w' :
  query_alike q q' → validate_with_warnings q = Ok (v, w) → validate_with_warnings q' = Ok (v', w') → query_alike v v'.
Proof.
  intros [Hp Hw Hr] (Hp1 & Hw1 & Hr1 & _)%validate_ok (Hp2 & Hw2 & Hr2 & _)%validate_ok.
  assert (Forall2 element_alike (q_pattern v) (q_pattern v')) as Hpat.
  { eapply try_map_related; [|exact Hp|done|done]. intros. by eapply validate_element_alike. }
  split; [done| |congruence]. rewrite <-(var_kinds_alike _ _ Hpat) in Hw2.
  eapply map_conditions_alike; [|exact Hw|exact Hw1|exact Hw2].
  intros c c' d d' [Hv Hprop Ho Hval] Hd Hd'. simpl in Hd, Hd'.
  apply validate_condition_shape in Hd as (Hd0 & Hd1 & Hd2 & Hd3).
  apply validate_condition_shape in Hd' as (Hd0' & Hd1' & Hd2' & Hd3').
  split; [congruence|by rewrite Hd1, Hd1'|congruence|congruence].
Qed.

(** What validation guarantees of the hops, for a query with [usize] hop counts. *)
Definition hops_usize (q : GqlQuery) : Prop := Forall (λ e, match e with PNode _ => True | PEdge ep => (0 ≤ ep_min_hops ep)%Z end) (q_pattern q).

Lemma validated_hops q v w : hops_usize q → validate_with_warnings q = Ok (v, w) → Forall hops_ok (q_pattern v).
Proof.
  intros Hq (Hp%try_map_Forall2 & _)%validate_ok. unfold hops_usize in Hq. clear w. revert Hq.
  induction Hp as [|e e' es es' He Hes IH]; [constructor|]. intros [Hq0 Hq]%Forall_cons. constructor; [|by apply IH].
  destruct e as [np|ep]; [by apply validate_node_ok in He as ->|].
  apply validate_edge_ok in He as (rs & _ & Hh & ->). by apply validate_hops_ok.
Qed.
End validated.

(** ** The entry points *)

Lemma variable_length_alike es es' :
  Forall2 element_alike es es' → has_variable_length es = has_variable_length es'.
Proof.
  unfold has_variable_length, pattern_edges. induction 1 as [|e e' es es' He Hes IH]; [done|].
  destruct He as [np np' Hnp|ep ep' Hep]; simpl; [exact IH|]. rewrite (edge_variable_length _ _ Hep). f_equal. exact IH.
Qed.

Section entry.
Context `{Tables : CharTables} {Laws : CharLaws} `{Externals}.
Variables (opts opts' : CompileOptions).
Hypothesis Hscopes : length (opt_scopes opts) = length (opt_scopes opts').

Lemma variable_length_related q q' mb mb' :
  query_alike q q' → scope_alike mb mb' → Forall hops_ok (q_pattern q) → Forall hops_ok (q_pattern q') →
  related 0 compiled_alike (compile_variable_length q opts mb) (compile_variable_length q' opts' mb').
Proof using Laws Hscopes.
  intros Hq Hmb Hh Hh'. unfold compile_variable_length.
  eapply related_bind; [by apply mailbox_related|]. intros N0 m m' HN [-> Hm].
  pose proof (alike_pattern _ _ Hq) as Hp. 
  destruct Hp as [|e1 e1' es es' He1 Hp]; [apply related_fail_l|].
  destruct Hp as [|e2 e2' es es' He2 Hp]; [destruct He1; apply related_fail_l|].
  destruct Hp as [|e3 e3' es es' He3 Hp]; [destruct He1, He2; apply related_fail_l|].
  destruct He1 as [s s' Hs|? ? _], He2 as [? ? _|f f' Hf], He3 as [t t' Ht|? ? _]; try apply related_fail_l.
  destruct Hp; [|apply related_fail_l].
  apply Forall_cons in Hh as [_ [Hh _]%Forall_cons]. apply Forall_cons in Hh' as [_ [Hh' _]%Forall_cons].
  simpl in Hh, Hh'. apply path_related; try done; lia.
Qed.

Lemma compile_alike q q' mb mb' c c' :
  query_alike q q' → scope_alike mb mb' → hops_usize q → hops_usize q' →
  compile_scoped q opts mb = Ok c → compile_scoped q' opts' mb' = Ok c' →
  compiled_alike (length (cq_params c)) c c'.
Proof using Laws Hscopes.
  intros Hq Hmb Hu Hu'. unfold compile_scoped. destruct (q_pattern q) as [|e es]; [done|]. destruct (q_pattern q') as [|e' es']; [done|].
  intros ([v w] & Hv & ([r ps] & Hr & ([] & _ & [= <-])%res_bind_Ok)%res_bind_Ok)%res_bind_Ok.
  intros ([v' w'] & Hv' & ([r' ps'] & Hr' & ([] & _ & [= <-])%res_bind_Ok)%res_bind_Ok)%res_bind_Ok. simpl.
  pose proof (validate_alike _ _ _ _ _ _ Hq Hv Hv') as Hvv.
  pose proof (validated_hops _ _ _ Hu Hv) as Hh. pose proof (validated_hops _ _ _ Hu' Hv') as Hh'.
  rewrite <-(variable_length_alike _ _ (alike_pattern _ _ Hvv)) in Hr'.
  assert (compiled_alike (length ps) r r') as (Hsql & Hl & Hl').
  { destruct (has_variable_length _).
    - by eapply (variable_length_related v v' mb mb' Hvv Hmb Hh Hh' [] []).
    - by eapply (fixed_length_related opts opts' Hscopes v v' mb mb' Hvv Hmb [] []). }
  split; simpl; [by rewrite Hl|lia].
Qed.
End entry.
