(* ===== verification/SqlClauses.v ===== *)
(** The clauses of a statement of khive-query/src/compilers/sql.rs: the words of the
    text outside its literals and its parentheses. A piece without the words that end
    a clause or bind looser than [AND] is one conjunct, wherever it is joined by
    [AND], and the pieces of the [WHERE] clause are such pieces. *)

From Stdlib Require Import ZArith Ascii String Lia.
From stdpp Require Import base tactics list numbers strings gmap pretty.
From S2P Require Import Prelude RustStr Json Rounding Float EdgeOntology QueryAst Gql QuerySql SqlText.
From S2P Require Import SqlAlike SqlSafety.
#[local] Open Scope nat_scope.

(** ** The words outside parentheses *)

(** Between literals, at a depth of parentheses, after the letters of a word; or in a
    literal. A doubled quote closes a literal and opens it again. *)
Inductive place : Type :=
| Outside (depth : nat) (word : string)
| Inside (quote : ascii) (depth : nat).

Definition word_char (c : ascii) : bool := is_ascii_alphabetic c || Ascii.eqb c "_".
Definition upper (c : ascii) : ascii :=
  if is_ascii_lowercase c then ascii_of_N (Z.to_N (byte c - 32)) else c.

(** What ends a statement, or starts a comment or a name in other quotes. *)
Definition refused (c : ascii) : bool := existsb (Ascii.eqb c) [";"; "-"; "/"; "["; "`"]%char.

Definition flush (word : string) : list string := match word with EmptyString => [] | _ => [word] end.

Definition walk_char (st : place) (c : ascii) : option (place * list string) :=
  match st with
  | Inside q d => Some (if Ascii.eqb c q then Outside d "" else Inside q d, [])
  | Outside d w =>
      if is_sql_quote c then Some (Inside c d, flush w)
      else if refused c then None
      else if Ascii.eqb c "(" then Some (Outside (S d) "", flush w)
      else if Ascii.eqb c ")" then match d with O => None | S d => Some (Outside d "", flush w) end
      else if (d =? 0) && word_char c then Some (Outside d (w +:+ String (upper c) ""), [])
      else Some (Outside d "", flush w)
  end.

Fixpoint walk (st : place) (s : string) : option (place * list string) :=
  match s with
  | EmptyString => Some (st, [])
  | String c s =>
      '(st, out) ← walk_char st c; '(st, rest) ← walk st s; Some (st, out ++ rest)
  end.

(** The words of a text outside its parentheses, in capitals; [None] when a literal
    or a parenthesis is not closed. *)
Definition top_words (s : string) : option (list string) :=
  match walk (Outside 0 "") s with Some (Outside 0 w, out) => Some (out ++ flush w) | _ => None end.

Definition good (bad l : list string) : bool := forallb (λ w, negb (existsb (String.eqb w) bad)) l.

(** The text is closed and none of its words outside parentheses is [bad]. *)
Definition avoids (bad : list string) (s : string) : bool :=
  match top_words s with Some ws => good bad ws | None => false end.

(** The words that end a clause of a [SELECT] statement. *)
Definition clause_words : list string :=
  ["WHERE"; "GROUP"; "HAVING"; "WINDOW"; "UNION"; "EXCEPT"; "INTERSECT"; "ORDER"; "LIMIT"; "OFFSET"]%string.
(** … and those that do not leave an [AND] after them to join two conjuncts. *)
Definition conjunct_words : list string := ["OR"; "BETWEEN"; "CASE"; "WHEN"]%string ++ clause_words.

(** ** Composition *)

Lemma good_app bad l k : good bad (l ++ k) = good bad l && good bad k.
Proof. apply forallb_app. Qed.

Lemma walk_app st s t :
  walk st (s +:+ t) = '(st1, o1) ← walk st s; '(st2, o2) ← walk st1 t; Some (st2, o1 ++ o2).
Proof.
  revert st. induction s as [|c s IH]; intros st; simpl.
  - change ("" +:+ t)%string with t. by destruct (walk st t) as [[]|].
  - destruct (walk_char st c) as [[st' o]|]; [|done]. simpl. rewrite IH. destruct (walk st' s) as [[st1 o1]|]; [|done].
    simpl. destruct (walk st1 t) as [[st2 o2]|]; [|done]. simpl. by rewrite <-app_assoc.
Qed.

(** [s] leads from [st] to [st'] without a bad word. *)
Definition leads (bad : list string) (st : place) (s : string) (st' : place) : Prop :=
  ∃ out, walk st s = Some (st', out) ∧ good bad out = true.

Lemma leads_app bad st s st1 t st2 : leads bad st s st1 → leads bad st1 t st2 → leads bad st (s +:+ t) st2.
Proof.
  intros (o1 & H1 & G1) (o2 & H2 & G2). exists (o1 ++ o2). rewrite walk_app, H1. simpl. rewrite H2. simpl.
  by rewrite good_app, G1, G2.
Qed.

(** Between literals, outside parentheses, after a good word. *)
Definition rests (bad : list string) (st : place) : Prop := ∃ w, st = Outside 0 w ∧ good bad (flush w) = true.

Definition piece (bad : list string) (s : string) : Prop := ∃ st, leads bad (Outside 0 "") s st ∧ rests bad st.

Lemma piece_avoids bad s : piece bad s ↔ avoids bad s = true.
Proof.
  unfold piece, leads, avoids, top_words. split.
  - intros (st & (out & Hw & Ho) & w & -> & Hg). by rewrite Hw, good_app, Ho, Hg.
  - destruct (walk _ s) as [[[[|d] w|] out]|]; try done. rewrite good_app. intros [Ho Hg]%andb_true_iff.
    eexists. split; [by exists out|by exists w].
Qed.

Lemma good_subset bad bad' l : bad' ⊆ bad → good bad l = true → good bad' l = true.
Proof.
  intros Hs Hl. apply forallb_forall. intros w Hw. apply negb_true_iff. destruct (existsb _ bad') eqn:He; [|done].
  apply existsb_exists in He as (x & Hx%list_elem_of_In%Hs & Hwx).
  apply (proj1 (forallb_forall _ _) Hl) in Hw. apply negb_true_iff in Hw.
  assert (existsb (String.eqb w) bad = true) as Hb by (apply existsb_exists; exists x; by rewrite <-list_elem_of_In).
  congruence.
Qed.

Lemma piece_subset bad bad' s : bad' ⊆ bad → piece bad s → piece bad' s.
Proof.
  intros Hs (st & (out & Hw & Ho) & w & -> & Hg). exists (Outside 0 w). split; [exists out|exists w]; eauto using good_subset.
Qed.

Definition raise (k : nat) (st : place) : place :=
  match st with Outside d w => Outside (d + S k) "" | Inside q d => Inside q (d + S k) end.

(** In parentheses, a closed text says nothing. *)
Lemma walk_raise k st s st' out :
  walk st s = Some (st', out) → walk (raise k st) s = Some (raise k st', []).
Proof.
  revert st out. induction s as [|c s IH]; intros st out; simpl; [by intros [= <- <-]|].
  destruct (walk_char st c) as [[st1 o1]|] eqn:Hc; [|done]. simpl.
  destruct (walk st1 s) as [[st2 o2]|] eqn:Hs; [|done]. simpl. intros [= -> <-].
  assert (walk_char (raise k st) c = Some (raise k st1, [])) as ->; [|simpl; by rewrite (IH _ _ Hs)].
  destruct st as [d w|q d]; simpl in *; [|destruct (Ascii.eqb c q); by simplify_eq/=].
  destruct (is_sql_quote c); [by simplify_eq/=|]. destruct (refused c); [done|].
  destruct (Ascii.eqb c "("); [by simplify_eq/=|]. replace (d + S k =? 0) with false by (symmetry; apply Nat.eqb_neq; lia).
  destruct (Ascii.eqb c ")"); [destruct d; by simplify_eq/=|]. simpl. destruct (_ && _); by simplify_eq/=.
Qed.

Lemma piece_nested bad bad' k s : piece bad s → leads bad' (Outside (S k) "") s (Outside (S k) "").
Proof. intros (st & (out & Hw & _) & w & -> & _). exists []. by apply (walk_raise k) in Hw. Qed.

(** A text that starts a new word. *)
Definition sep_head (s : string) : bool := match s with String c _ => negb (word_char c) | EmptyString => false end.

Lemma leads_flush bad w c st :
  sep_head c = true → good bad (flush w) = true → leads bad (Outside 0 "") c st → leads bad (Outside 0 w) c st.
Proof.
  destruct c as [|c s]; [done|]. intros Hc%negb_true_iff Hw (out & Hr & Ho). exists (flush w ++ out).
  rewrite good_app, Hw. split; [|done]. revert Hr. cbn [walk walk_char]. rewrite Hc, andb_false_r.
  destruct (is_sql_quote c), (refused c), (Ascii.eqb c "("), (Ascii.eqb c ")"); try done; simpl;
    (destruct (walk _ s) as [[]|]; [|done]); simpl; by intros [= -> ->].
Qed.

(** ** Checked concatenations *)

(** A constant, a piece, a closed text in parentheses, the text of a literal. *)
Inductive seg : Type :=
| K (s : string)
| P (s : string)
| B (s : string)
| L (q : ascii) (s : string).

Definition seg_text (g : seg) : string := match g with K s | P s | B s | L _ s => s end.
Definition inside (q : ascii) (s : string) : Prop := ∀ d, walk (Inside q d) s = Some (Inside q d, []).
Definition seg_ok (bad : list string) (g : seg) : Prop :=
  match g with K _ => True | P s => piece bad s | B s => piece [] s | L q s => inside q s end.

(** A known place, or one after a piece. *)
Inductive stop : Type := At (st : place) | After.

Definition at_stop (bad : list string) (a : stop) (st : place) : Prop :=
  match a with At st' => st = st' | After => rests bad st end.

Fixpoint checked (bad : list string) (a : stop) (l : list seg) : bool :=
  match l with
  | [] => match a with At (Outside 0 w) => good bad (flush w) | After => true | _ => false end
  | K c :: l =>
      let read st := match walk st c with Some (st, out) => good bad out && checked bad (At st) l | None => false end in
      match a with
      | At st => read st
      | After => if String.eqb c "" then checked bad After l else sep_head c && read (Outside 0 "")
      end
  | P _ :: l =>
      match a with
      | At (Outside 0 EmptyString) => checked bad After l
      | At (Outside (S d) EmptyString) => checked bad (At (Outside (S d) "")) l
      | _ => false
      end
  | B _ :: l => match a with At (Outside (S d) EmptyString) => checked bad (At (Outside (S d) "")) l | _ => false end
  | L q _ :: l => match a with At (Inside q' d) => Ascii.eqb q q' && checked bad a l | _ => false end
  end.

Lemma checked_leads bad a l st :
  checked bad a l = true → Forall (seg_ok bad) l → at_stop bad a st →
  ∃ st', leads bad st (cat (seg_text <$> l)) st' ∧ rests bad st'.
Proof.
  revert a st. induction l as [|g l IH]; intros a st.
  - intros Hc _ Ha. exists st. split; [by exists []|]. destruct a as [st0|]; [|done]. simpl in Ha. subst.
    destruct st0 as [[|d] w|]; try done. by exists w.
  - intros Hc [Hg Hl]%Forall_cons Ha. rewrite fmap_cons, cat_cons.
    enough (∃ a' st1, leads bad st (seg_text g) st1 ∧ checked bad a' l = true ∧ at_stop bad a' st1) as (a' & st1 & H1 & H2 & H3).
    { destruct (IH a' st1 H2 Hl H3) as (st2 & H4 & H5). exists st2. split; [by eapply leads_app|done]. }
    destruct g as [c|s|s|q s]; simpl in Hc, Hg |- *.
    + destruct a as [st0|]; simpl in Ha.
      * subst. destruct (walk st0 c) as [[st1 out]|] eqn:Hw; [|done]. apply andb_true_iff in Hc as [Ho Hc].
        exists (At st1), st1. split_and!; [by exists out|done|done].
      * destruct (String.eqb_spec c "") as [->|_]; [exists After, st; split_and!; [by exists []|done..]|].
        apply andb_true_iff in Hc as [Hsep Hc]. destruct (walk (Outside 0 "") c) as [[st1 out]|] eqn:Hw; [|done].
        apply andb_true_iff in Hc as [Ho Hc]. destruct Ha as (w & -> & Hgw).
        exists (At st1), st1. split_and!; [|done|done]. apply leads_flush; [done|done|by exists out].
    + destruct a as [[[|d] [|??]|]|]; try done; simpl in Ha; subst.
      * destruct Hg as (st1 & H1 & H2). by exists After, st1.
      * exists (At (Outside (S d) "")), (Outside (S d) ""). split_and!; [by eapply piece_nested|done|done].
    + destruct a as [[[|d] [|??]|]|]; try done; simpl in Ha; subst.
      exists (At (Outside (S d) "")), (Outside (S d) ""). split_and!; [by eapply piece_nested|done|done].
    + destruct a as [[|q' d]|]; try done. simpl in Ha. subst. apply andb_true_iff in Hc as [<-%Ascii.eqb_eq Hc].
      exists (At (Inside q d)), (Inside q d). split_and!; [exists []; by rewrite Hg|done|done].
Qed.

Lemma checked_piece bad l :
  checked bad (At (Outside 0 "")) l = true → Forall (seg_ok bad) l → piece bad (cat (seg_text <$> l)).
Proof. intros Hc Hl. by eapply checked_leads. Qed.

Lemma piece_const bad s : avoids bad s = true → piece bad s.
Proof. apply piece_avoids. Qed.

Lemma piece_join bad sep l :
  checked bad After [K sep; P ""] = true → Forall (piece bad) l → piece bad (join sep l).
Proof.
  intros Hsep Hl. induction Hl as [|s l Hs Hl IH]; [by apply piece_const|]. destruct Hl as [|s2 l Hs2 Hl]; [done|].
  rewrite join_cons. apply (checked_piece bad [P s; K sep; P (join sep (s2 :: l))]); [|by repeat constructor].
  exact Hsep.
Qed.

(** ** Names, placeholders and literals *)

(** Conjuncts, and closed texts within a clause. *)
Abbreviation conjunct := (piece conjunct_words).
Abbreviation in_clause := (piece clause_words).

Lemma conjunct_in_clause s : conjunct s → in_clause s.
Proof. apply piece_subset. intros x. unfold conjunct_words. set_solver. Qed.

(** Digits are between words. *)
Definition digits (s : string) : bool := forallb is_ascii_digit (to_bytes s).

Lemma pretty_go_digits x s : digits s = true → digits (pretty_N_go x s) = true.
Proof.
  revert s. induction (N.lt_wf_0 x) as [x _ IH]. intros s Hs. destruct (decide (x = 0)%N) as [->|Hx]; [done|].
  rewrite pretty_N_go_step by lia. apply IH; [apply N.div_lt; lia|].
  unfold digits in *. cbn. rewrite Hs, andb_true_r. by destruct (is_digit_char (x `mod` 10)) as [Hd _]; [apply N.mod_lt|].
Qed.

Lemma fmt_nat_digits i : digits (fmt_nat i) = true.
Proof.
  unfold fmt_nat, pretty. cbn. unfold pretty_nat, pretty, pretty_N. case_decide; [done|]. by apply pretty_go_digits.
Qed.

Lemma walk_digits s : digits s = true → walk (Outside 0 "") s = Some (Outside 0 "", []).
Proof.
  unfold digits. induction s as [|c s IH]; [done|]. cbn [to_bytes list_ascii_of_string forallb].
  intros [Hc Hs]%andb_true_iff. cbn [walk].
  assert (walk_char (Outside 0 "") c = Some (Outside 0 "", [])) as ->; [|simpl; by rewrite IH].
  revert Hc. destruct c as [[] [] [] [] [] [] [] []]; vm_compute; congruence.
Qed.

Lemma digits_piece bad i : piece bad (fmt_nat i).
Proof.
  exists (Outside 0 ""). split; [|by exists ""%string]. exists []. split; [|done]. apply walk_digits, fmt_nat_digits.
Qed.

Create HintDb clauses.
Ltac sql_pieces :=
  repeat first [apply Forall_nil_2 | apply Forall_cons_2; [cbn [seg_ok]; first [exact I | solve [auto with clauses] | idtac]|]].
(** The text as the constants, pieces and literals of the list. *)
Ltac by_segs l :=
  lazymatch goal with
  | |- piece ?bad ?s =>
      change s with (cat (seg_text <$> l)); apply (checked_piece bad l); [vm_compute; reflexivity|sql_pieces]
  end.

Lemma hole_piece bad i : piece bad (hole i).
Proof. by_segs [K "?"; P (fmt_nat i)]. apply digits_piece. Qed.

(** The aliases of tables. *)
Lemma alias_piece bad c i :
  word_char c && good bad [String (upper c) ""] && negb (is_sql_quote c) && negb (refused c) = true →
  negb (Ascii.eqb c "(") && negb (Ascii.eqb c ")") = true → piece bad (String c (fmt_nat i)).
Proof.
  intros [[[Hw Hg]%andb_true_iff Hq%negb_true_iff]%andb_true_iff Hr%negb_true_iff]%andb_true_iff.
  intros [Ho%negb_true_iff Hc%negb_true_iff]%andb_true_iff.
  change (String c (fmt_nat i)) with (String c "" +:+ fmt_nat i).
  assert (leads bad (Outside 0 "") (String c "") (Outside 0 (String (upper c) ""))) as H1.
  { exists []. split; [|done]. cbn [walk walk_char]. rewrite Hq, Hr, Ho, Hc, Hw. done. }
  pose proof (fmt_nat_digits i) as Hd. pose proof (walk_digits _ Hd) as Hw2.
  destruct (fmt_nat i) as [|d s] eqn:Hs.
  - exists (Outside 0 (String (upper c) "")). split; [by eapply leads_app; [exact H1|exists []]|by eexists].
  - exists (Outside 0 ""). split; [|by exists ""%string]. eapply leads_app; [exact H1|]. apply leads_flush; [|done|by exists []].
    unfold digits in Hd. cbn in Hd. apply andb_true_iff in Hd as [Hd _]. simpl. revert Hd.
    destruct d as [[] [] [] [] [] [] [] []]; vm_compute; congruence.
Qed.

Lemma node_alias_piece i : conjunct (node_alias i).
Proof. by apply alias_piece. Qed.
Lemma edge_alias_piece i : conjunct (edge_alias i).
Proof. by apply alias_piece. Qed.

(** The content of literals. *)
Lemma double_inside q s : is_sql_quote q = true → inside q (double q s).
Proof.
  intros Hq d. induction s as [|c s IH]; [done|]. destruct (Ascii.eqb_spec c q) as [->|Hne].
  - assert (double q (String q s) = String q (String q (double q s))) as -> by (unfold double; cbn; by rewrite Ascii.eqb_refl).
    cbn [walk walk_char]. rewrite Ascii.eqb_refl. cbn [mbind option_bind walk_char]. rewrite Hq.
    cbn [mbind option_bind flush]. by rewrite IH.
  - apply Ascii.eqb_neq in Hne. assert (double q (String c s) = String c (double q s)) as -> by (unfold double; cbn; by rewrite Hne).
    cbn [walk walk_char]. rewrite Hne. cbn [mbind option_bind]. by rewrite IH.
Qed.

Lemma no_quote_inside s : no_quote (to_bytes s) = true → inside single_quote s.
Proof.
  intros Hs d. induction s as [|c s IH]; [done|]. unfold no_quote in Hs. cbn [to_bytes list_ascii_of_string forallb] in Hs.
  apply andb_true_iff in Hs as [Hc%negb_true_iff Hs]. cbn [walk walk_char]. rewrite Hc. cbn [mbind option_bind]. by rewrite IH.
Qed.

Lemma inside_app q s t : inside q s → inside q t → inside q (s +:+ t).
Proof. intros Hs Ht d. rewrite walk_app, Hs. simpl. by rewrite Ht. Qed.

Lemma path_inside `{CharLaws} path :
  List.find (λ segment, String.eqb segment "" || negb (is_identifier segment)) path = None →
  inside single_quote (join "." path).
Proof.
  intros Hp. assert (Forall (inside single_quote) path) as Hs.
  { apply Forall_forall. intros s Hin. apply no_quote_inside, identifier_no_quote.
    by apply list_elem_of_In, (List.find_none _ _ Hp), orb_false_iff in Hin as [_ Hin%negb_false_iff]. }
  clear Hp. induction Hs as [|s path Hs Hp IH]; [done|]. destruct path as [|s2 path]; [done|].
  rewrite join_cons. by apply inside_app, inside_app.
Qed.

Lemma quote_identifier_piece bad s : piece bad (quote_identifier s).
Proof.
  by_segs [K dq; L dq_char (double dq_char s); K dq]. by apply double_inside.
Qed.

#[export] Hint Resolve hole_piece node_alias_piece edge_alias_piece quote_identifier_piece conjunct_in_clause : clauses.
#[export] Hint Resolve Forall_nil_2 : clauses.

Lemma placeholders_piece bad l : checked bad After [K ", "; P ""] = true → piece bad (in_placeholders l).
Proof. intros Hb. apply piece_join; [done|]. apply Forall_fmap, Forall_true. intros i. apply hole_piece. Qed.

(** ** The compiled predicates *)

(** What a run of the compiler gives when it succeeds. *)
Definition gives {A} (Q : A → Prop) (m : C A) : Prop := ∀ ps a qs, m ps = Ok (a, qs) → Q a.

Lemma gives_ret {A} (Q : A → Prop) a : Q a → gives Q (mret a).
Proof. by intros HQ ps b qs [= <- <-]. Qed.
Lemma gives_fail {A} (Q : A → Prop) e : gives Q (fail e).
Proof. done. Qed.
Lemma gives_any {A} (m : C A) : gives (λ _, True) m.
Proof. done. Qed.
Lemma gives_lift {A} (Q : A → Prop) r : (∀ a, r = Ok a → Q a) → gives Q (lift r).
Proof. intros HQ ps a qs. unfold lift. destruct r; [|done]. intros [= <- <-]. by apply HQ. Qed.
Lemma gives_bind {A B} (Q : A → Prop) (R : B → Prop) (m : C A) k :
  gives Q m → (∀ a, Q a → gives R (k a)) → gives R (m ≫= k).
Proof.
  intros Hm Hk ps b qs. unfold mbind, C_bind. destruct (m ps) as [[a rs]|] eqn:Ha; [|done]. intros Hb.
  eapply Hk; [by eapply Hm|done].
Qed.
Lemma gives_then {A B} (R : B → Prop) (m : C A) k : (∀ a, gives R (k a)) → gives R (m ≫= k).
Proof. intros Hk. eapply gives_bind; [apply gives_any|auto]. Qed.
Lemma gives_each {A B} (Q : B → Prop) (f : A → C B) l : (∀ x, gives Q (f x)) → gives (Forall Q) (each f l).
Proof.
  intros Hf. induction l as [|x l IH]; [by apply gives_ret|]. eapply gives_bind; [apply Hf|]. intros y Hy.
  eapply gives_bind; [exact IH|]. intros ys Hys. apply gives_ret. by constructor.
Qed.
Lemma gives_when_some {A} (Q : string → Prop) (o : option A) f : (∀ x, gives Q (f x)) → gives (Forall Q) (when_some o f).
Proof.
  intros Hf. destruct o as [x|]; [|by apply gives_ret]. eapply gives_bind; [apply Hf|]. intros s Hs. apply gives_ret.
  by constructor.
Qed.

Lemma namespace_predicate_clause a opts : conjunct a → gives (λ o, Forall conjunct (opt_list o)) (namespace_predicate a opts).
Proof.
  intros Ha. unfold namespace_predicate. destruct (opt_scopes opts) as [|s [|s2 l]]; [by apply gives_ret|..]; apply gives_then.
  - intros i. apply gives_ret. constructor; [|constructor]. by_segs [P a; K ".namespace = "; P (hole i)].
  - intros is_. apply gives_ret. constructor; [|constructor].
    by_segs [P a; K ".namespace IN ("; P (in_placeholders is_); K ")"]. by apply placeholders_piece.
Qed.

Lemma text_predicate_clause c v : conjunct c → gives conjunct (text_predicate c v).
Proof. intros Hc. apply gives_then. intros i. apply gives_ret. by_segs [P c; K " = "; P (hole i)]. Qed.

Lemma text_choice_clause c l : conjunct c → gives (Forall conjunct) (text_choice c l).
Proof.
  intros Hc. unfold text_choice. destruct l as [|v [|v2 l]]; [by apply gives_ret|..].
  - eapply gives_bind; [by apply text_predicate_clause|]. intros s Hs. apply gives_ret. by constructor.
  - apply gives_then. intros is_. apply gives_ret. constructor; [|constructor].
    by_segs [P c; K " IN ("; P (in_placeholders is_); K ")"]. by apply placeholders_piece.
Qed.

Lemma kind_filter_clause a k : conjunct a → gives conjunct (kind_filter_predicate a k).
Proof.
  intros Ha. unfold kind_filter_predicate. case_match; apply text_predicate_clause;
    [by_segs [P a; K ".substrate_kind"]|by_segs [P a; K ".kind"]].
Qed.
Lemma observation_kind_clause a k : conjunct a → gives conjunct (observation_kind_filter_predicate a k).
Proof.
  intros Ha. unfold observation_kind_filter_predicate. case_match; apply text_predicate_clause;
    [by_segs [P a; K ".referent_kind"]|by_segs [P a; K ".kind"]].
Qed.

Lemma compare_clause c op i (collated : bool) v :
  conjunct c → checked conjunct_words After [K (cat [" "; op; " "]); P ""; K " COLLATE NOCASE"] = true →
  conjunct (cat [c; " "; op; " "; hole i; if collated then collate v else ""]).
Proof.
  intros Hc Hop.
  assert (∀ x, cat [c; " "; op; " "; hole i; x] = cat [c; cat [" "; op; " "]; hole i; x])%string as Hcat
    by (intros; rewrite !cat_cons, !append_assoc; done).
  rewrite Hcat. unfold collate.
  assert (∀ x, x = " COLLATE NOCASE"%string ∨ x = ""%string → conjunct (cat [c; cat [" "; op; " "]; hole i; x])) as Hx.
  { intros x Hx. change (conjunct (cat (seg_text <$> [P c; K (cat [" "; op; " "]); P (hole i); K x]))).
    apply checked_piece; [|sql_pieces; done]. destruct Hx as [->| ->]; [exact Hop|].
    cbn [checked] in Hop |- *. destruct (String.eqb _ _); [done|]. destruct (sep_head _); [|done]. cbn [andb] in Hop |- *.
    destruct (walk _ _) as [[st out]|]; [|done]. destruct (good _ _); [|done]. cbn [andb] in Hop |- *.
    destruct st as [[|d] [|??]|]; done. }
  apply Hx. destruct collated; [destruct (is_string v)|]; auto.
Qed.

Lemma condition_predicate_clause c cond : conjunct c → gives conjunct (compile_condition_predicate c cond).
Proof.
  intros Hc. unfold compile_condition_predicate.
  assert (∀ op (b : bool), checked conjunct_words After [K (cat [" "; op; " "]); P ""; K " COLLATE NOCASE"] = true →
    gives conjunct (i ← bind_condition_value (cond_value cond);
       mret (cat [c; " "; op; " "; hole i; if b then collate (cond_value cond) else ""%string]))) as Hcmp.
  { intros op b Hop. apply gives_then. intros i. apply gives_ret. by apply compare_clause. }
  destruct (cond_op cond);
    [exact (Hcmp "="%string true eq_refl)|exact (Hcmp "!="%string false eq_refl)|exact (Hcmp ">"%string false eq_refl)
    |exact (Hcmp "<"%string false eq_refl)|exact (Hcmp ">="%string false eq_refl)|exact (Hcmp "<="%string false eq_refl)
    |exact (Hcmp "LIKE"%string true eq_refl)|..]; clear Hcmp; destruct (cond_value cond) as [| | | |l|]; try exact (gives_fail _ _).
  1,2: apply gives_then; intros i; apply gives_ret; by_segs [P c; K " LIKE "; P (hole i); K " COLLATE NOCASE ESCAPE '\'"].
  - destruct l as [|v l]; [apply gives_ret; by apply piece_const|]. apply gives_then. intros is_. apply gives_ret.
    assert (conjunct (in_placeholders is_)) by by apply placeholders_piece.
    destruct (existsb is_string _); [by_segs [P c; K " COLLATE NOCASE"; K " IN ("; P (in_placeholders is_); K ")"]
                                    |by_segs [P c; K ""; K " IN ("; P (in_placeholders is_); K ")"]].
  - apply gives_ret. by_segs [P c; K " IS NOT NULL"].
  - apply gives_ret. by_segs [P c; K " IS NULL"].
Qed.

Lemma columns_clause a f l :
  forallb (λ f, checked conjunct_words After [K "."; K f]) l = true → contains l f = true → conjunct a →
  conjunct (cat [a; "."; f]).
Proof.
  intros Hl (g & Hg & <-%String.eqb_eq)%existsb_exists Ha. apply (proj1 (forallb_forall _ _) Hl) in Hg.
  change (conjunct (cat (seg_text <$> [P a; K "."; K f]))). apply checked_piece; [exact Hg|sql_pieces].
Qed.

Lemma json_extract_clause a k : conjunct a → inside single_quote k → conjunct (cat ["json_extract("; a; ".properties, '$."; k; "')"]).
Proof. intros Ha Hk. by_segs [K "json_extract("; P a; K ".properties, '$."; L single_quote k; K "')"]. Qed.

Lemma property_equality_clause a k v t :
  conjunct a → (∀ col, t = Some col → contains ["name"; "content"]%string col = true) →
  gives conjunct (compile_property_equality a k v t).
Proof.
  intros Ha Ht. apply gives_then. intros i. apply gives_ret. unfold collate. destruct t as [col|].
  - pose proof (columns_clause a col ["name"; "content"]%string eq_refl (Ht _ eq_refl) Ha) as Hc.
    assert (∀ x, cat [a; "."; col; " = "; hole i; x] = cat [cat [a; "."; col]; " = "; hole i; x]) as Hcat
      by (intros; rewrite !cat_cons, !append_assoc; done).
    rewrite Hcat. destruct (is_string v); [by_segs [P (cat [a; "."; col]); K " = "; P (hole i); K " COLLATE NOCASE"]
                                          |by_segs [P (cat [a; "."; col]); K " = "; P (hole i); K ""]].
  - assert (inside single_quote (double "'" k)) by by apply double_inside.
    destruct (is_string v);
      [by_segs [K "json_extract("; P a; K ".properties, '$."; L single_quote (double "'" k); K "') = "; P (hole i); K " COLLATE NOCASE"]
      |by_segs [K "json_extract("; P a; K ".properties, '$."; L single_quote (double "'" k); K "') = "; P (hole i); K ""]].
Qed.

Lemma props_clause a direct m :
  conjunct a → forallb direct_key direct = true → gives (Forall conjunct) (compile_props a direct m).
Proof.
  intros Ha Hd. apply gives_each. intros [k v]. apply property_equality_clause; [done|]. intros col.
  destruct (contains direct k) eqn:Hk; [|done]. intros [= <-]. apply existsb_exists in Hk as (y & Hy & <-%String.eqb_eq).
  by apply (proj1 (forallb_forall _ _) Hd).
Qed.

(** ** Conditions *)

Section expressions.
Context `{CharLaws}.

Lemma where_property_clause p kind a s : conjunct a → where_property_expression p kind a = Ok s → conjunct s.
Proof.
  intros Ha. unfold where_property_expression.
  destruct (where_property_columns kind) as [valid name] eqn:Hv. destruct p as [f|path].
  - destruct (contains valid f) eqn:Hc; [|by case_match]. intros [= <-].
    apply (columns_clause a f valid); [destruct kind; simplify_eq/=; reflexivity|done|done].
  - destruct (negb _); [done|]. destruct path as [|x path]; [done|]. destruct (List.find _ (x :: path)) eqn:Hf; [done|].
    intros [= <-]. apply json_extract_clause; [done|]. exact (path_inside (x :: path) Hf).
Qed.

(** The tables the variables are bound to. *)
Definition aliases_ok (m : Aliases) : Prop := map_Forall (λ _ b, conjunct b.1) m.

Lemma where_expr_clause e m : aliases_ok m → gives (λ o, Forall conjunct (opt_list o)) (compile_where_expr e m).
Proof.
  intros Hm. induction e as [l IHl r IHr|l IHl r IHr|c|]; simpl.
  3: { eapply gives_bind with (Q := conjunct); [|intros s Hs; apply gives_ret; by constructor].
       unfold compile_single_condition. destruct (m !! cond_variable c) as [[a kind]|] eqn:Hl; [|apply gives_fail].
       eapply gives_bind with (Q := conjunct); [|intros s Hs; by apply condition_predicate_clause].
       apply gives_lift. intros s. apply where_property_clause. by apply (Hm _ _ Hl). }
  3: by apply gives_ret.
  all: eapply gives_bind; [exact IHl|]; intros ls Hls; eapply gives_bind; [exact IHr|]; intros rs Hrs; apply gives_ret.
  all: destruct ls as [ls|], rs as [rs|]; simpl in *; try done; apply List.Forall_inv in Hls, Hrs; apply Forall_singleton.
  - by_segs [K ""; P ls; K " AND "; P rs; K ""].
  - by_segs [K "("; P ls; K " OR "; P rs; K ")"].
Qed.
End expressions.

(** ** Nodes and edges *)

Lemma gives_app {A} (Q : A → Prop) l k : Forall Q l → Forall Q k → Forall Q (l ++ k).
Proof. intros. by apply Forall_app. Qed.
#[export] Hint Resolve gives_app : clauses.

Lemma node_filters_clause opts es ot a np : conjunct a → gives (Forall conjunct) (node_filters opts es ot a np).
Proof.
  intros Ha. unfold node_filters. destruct es.
  - eapply gives_bind; [by apply namespace_predicate_clause|]. intros ns Hns.
    eapply gives_bind with (Q := Forall conjunct).
    + destruct (np_kind np) as [k|]; [|by apply gives_ret]. destruct (String.eqb k "event"); [by apply gives_ret|].
      eapply gives_bind; [apply text_predicate_clause; by_segs [P a; K ".kind"]|]. intros s Hs. apply gives_ret. by constructor.
    + intros kind Hk. destruct (np_entity_type np); [apply gives_fail|]. case_bool_decide; [|apply gives_fail].
      apply gives_ret. by apply Forall_app.
  - eapply gives_bind; [by apply namespace_predicate_clause|]. intros ns Hns.
    eapply gives_bind; [apply gives_when_some; intros; destruct ot; [by apply observation_kind_clause|by apply kind_filter_clause]|].
    intros kind Hk.
    eapply gives_bind; [apply gives_when_some; intros; apply text_predicate_clause; by_segs [P a; K ".entity_type"]|]. intros et Het.
    eapply gives_bind; [apply props_clause; [done|by destruct ot]|]. intros props Hprops. apply gives_ret.
    constructor; [by_segs [P a; K ".deleted_at IS NULL"]|]. auto with clauses.
Qed.

(** What a subquery in parentheses says is of no account, but that it is closed. *)
Abbreviation closed_text := (piece []).
Lemma closed_conjunct s : conjunct s → closed_text s.
Proof. apply piece_subset. set_solver. Qed.
#[export] Hint Resolve closed_conjunct : clauses.

Section sources.
Variable mailbox : option MailboxLowering.

Lemma note_visible_closed m a : closed_text a → closed_text (note_visible m a).
Proof.
  intros Ha. pose proof (hole_piece [] (actor_parameter m)) as Hh. unfold note_visible.
  destruct m as [i lg]; cbn [legacy_local actor_parameter] in *. cbv zeta.
  set (json_type := λ key, cat ["json_type("; a; ".properties, '$."; key; "')"]).
  set (extract := λ key, cat ["json_extract("; a; ".properties, '$."; key; "')"]).
  set (absent := λ key, cat ["("; json_type key; " IS NULL OR "; json_type key; " = 'null')"]).
  set (not_text := λ key, cat ["ifnull("; json_type key; ", '') != 'text'"]).
  set (actor := λ key, cat ["("; json_type key; " = 'text' AND "; extract key; " = "; hole i; ")"]).
  assert (∀ k, inside single_quote k → closed_text (json_type k)) as Hj.
  { intros k Hk. unfold json_type. by_segs [K "json_type("; P a; K ".properties, '$."; L single_quote k; K "')"]. }
  assert (∀ k, inside single_quote k → closed_text (extract k)) as He.
  { intros k Hk. unfold extract. by_segs [K "json_extract("; P a; K ".properties, '$."; L single_quote k; K "')"]. }
  assert (∀ k, inside single_quote k → closed_text (absent k)) as Hab.
  { intros k Hk%Hj. unfold absent. by_segs [K "("; P (json_type k); K " IS NULL OR "; P (json_type k); K " = 'null')"]. }
  assert (∀ k, inside single_quote k → closed_text (not_text k)) as Hnt.
  { intros k Hk%Hj. unfold not_text. by_segs [K "ifnull("; P (json_type k); K ", '') != 'text'"]. }
  assert (∀ k, inside single_quote k → closed_text (actor k)) as Hac.
  { intros k Hk. pose proof (Hj _ Hk). pose proof (He _ Hk). unfold actor.
    by_segs [K "("; P (json_type k); K " = 'text' AND "; P (extract k); K " = "; P (hole i); K ")"]. }
  assert (∀ k, no_quote (to_bytes k) = true → inside single_quote k) as Hk by apply no_quote_inside.
  pose proof (He _ (Hk "direction"%string eq_refl)). pose proof (Hac _ (Hk "to_actor"%string eq_refl)).
  pose proof (Hac _ (Hk "from_actor"%string eq_refl)). pose proof (Hab _ (Hk "to_actor"%string eq_refl)).
  pose proof (Hab _ (Hk "from_actor"%string eq_refl)). pose proof (Hab _ (Hk "direction"%string eq_refl)).
  pose proof (Hnt _ (Hk "to_actor"%string eq_refl)). pose proof (Hnt _ (Hk "from_actor"%string eq_refl)).
  assert (∀ il ol un, closed_text il → closed_text ol → closed_text un →
    closed_text (cat ["("; a; ".kind != 'message' OR ("; extract "direction"; " = 'inbound' AND ("; actor "to_actor"; il;
      ")) OR ("; extract "direction"; " = 'outbound' AND ("; actor "from_actor"; ol; "))"; un; ")"]%string)) as Hall.
  { intros il ol un Hi Ho Hu.
    by_segs [K "("; P a; K ".kind != 'message' OR ("; P (extract "direction"); K " = 'inbound' AND ("; P (actor "to_actor"); P il;
      K ")) OR ("; P (extract "direction"); K " = 'outbound' AND ("; P (actor "from_actor"); P ol; K "))"; P un; K ")"]%string. }
  destruct lg; apply Hall; try by apply piece_const.
  - by_segs [K " OR "; P (absent "to_actor")]%string.
  - by_segs [K " OR "; P (absent "from_actor")]%string.
  - by_segs [K " OR ("; P (absent "direction"); K " AND "; P (not_text "from_actor"); K " AND "; P (not_text "to_actor"); K ")"]%string.
Qed.

Lemma endpoint_visible_closed m e : closed_text e → closed_text (endpoint_visible m e).
Proof.
  intros He. unfold endpoint_visible. pose proof (note_visible_closed m "mailbox_note" ltac:(by apply piece_const)).
  by_segs [K "NOT EXISTS (SELECT 1 FROM notes mailbox_note WHERE mailbox_note.id = "; P e;
       K " AND mailbox_note.kind = 'message' AND COALESCE("; P (note_visible m "mailbox_note");
       K ", 0) = 0 AND NOT EXISTS (SELECT 1 FROM entities mailbox_entity WHERE mailbox_entity.id = "; P e; K "))"]%string.
Qed.

Lemma edge_filter_closed m a : closed_text a → closed_text (edge_filter m a).
Proof.
  intros Ha. unfold edge_filter.
  pose proof (endpoint_visible_closed m (cat [a; ".source_id"]) ltac:(by_segs [P a; K ".source_id"])).
  pose proof (endpoint_visible_closed m (cat [a; ".target_id"]) ltac:(by_segs [P a; K ".target_id"])).
  by_segs [K " WHERE "; P (endpoint_visible m (cat [a; ".source_id"])); K " AND ";
           P (endpoint_visible m (cat [a; ".target_id"]))].
Qed.

Lemma primary_node_closed : closed_text (primary_node_sql mailbox).
Proof.
  unfold primary_node_sql, notes_filter. destruct mailbox as [m|]; [|by apply piece_const]. cbv zeta.
  pose proof (note_visible_closed m "notes" ltac:(by apply piece_const)) as Hn.
  pose proof (endpoint_visible_closed m "graph_edges.source_id" ltac:(by apply piece_const)) as Hs.
  pose proof (endpoint_visible_closed m "graph_edges.target_id" ltac:(by apply piece_const)) as Ht.
  unfold note_filter, edge_filter.
  change (cat ["graph_edges"; ".source_id"])%string with "graph_edges.source_id"%string.
  change (cat ["graph_edges"; ".target_id"])%string with "graph_edges.target_id"%string.
  set (n := note_visible m "notes") in *. set (es := endpoint_visible m "graph_edges.source_id") in *.
  set (et := endpoint_visible m "graph_edges.target_id") in *.
  lazymatch goal with |- piece _ (cat [?a; ?b; ?c; ?d; ?f; ?f2; _; ?g; ?h; ?i; ?j; ?k; ?l; ?o; _]) =>
    by_segs [K a; K b; K c; K d; K f; K f2; K " WHERE "; P n; K g; K h; K i; K j; K k; K l; K o; K " WHERE "; P es; K " AND "; P et]%string
  end.
Qed.

Lemma observation_target_closed : closed_text (observation_target_sql mailbox).
Proof.
  unfold observation_target_sql, notes_filter. destruct mailbox as [m|]; [|by apply piece_const].
  pose proof (note_visible_closed m "notes" ltac:(by apply piece_const)) as Hn. unfold note_filter.
  set (n := note_visible m "notes") in *.
  lazymatch goal with |- piece _ (cat [?a; ?b; ?c; ?d; ?f; ?f2; _]) =>
    by_segs [K a; K b; K c; K d; K f; K f2; K " WHERE "; P n]%string
  end.
Qed.

Lemma primary_node_source_clause a : in_clause a → in_clause (primary_node_source mailbox a).
Proof. intros Ha. pose proof primary_node_closed. unfold primary_node_source. by_segs [K "("; B (primary_node_sql mailbox); K ") "; P a]. Qed.

Lemma observation_target_source_clause a : in_clause a → in_clause (observation_target_source mailbox a).
Proof.
  intros Ha. pose proof observation_target_closed. unfold observation_target_source.
  by_segs [K "("; B (observation_target_sql mailbox); K ") "; P a].
Qed.

Lemma edge_source_clause a : in_clause a → in_clause (edge_source mailbox a).
Proof.
  intros Ha. unfold edge_source. destruct mailbox as [m|]; [|by_segs [K "graph_edges "; P a]].
  pose proof (edge_filter_closed m "graph_edges" ltac:(by apply piece_const)).
  by_segs [K "(SELECT * FROM graph_edges"; B (edge_filter m "graph_edges"); K ") "; P a].
Qed.

Definition edge_clauses (t : list string * list string * list string) : Prop :=
  Forall in_clause t.1.1 ∧ Forall conjunct t.1.2 ∧ Forall in_clause t.2.

Lemma synthetic_edge_clause e p x ep :
  conjunct e → conjunct p → conjunct x → gives edge_clauses (compile_synthetic_edge mailbox e p x ep).
Proof.
  intros He Hp Hx. unfold compile_synthetic_edge. destruct (ep_direction ep); try apply gives_fail.
  eapply gives_bind; [apply text_choice_clause; by_segs [P e; K ".role"]|]. intros roles Hroles. apply gives_ret.
  pose proof (observation_target_source_clause x ltac:(auto with clauses)).
  unfold edge_clauses. cbn [fst snd]. split_and!; [| |repeat constructor].
  - constructor; [by_segs [K "JOIN event_observations "; P e; K " ON "; P e; K ".event_id = "; P p; K ".id"]|].
    constructor; [|constructor].
    by_segs [K "JOIN "; P (observation_target_source mailbox x); K " ON "; P x; K ".id = "; P e; K ".entity_id AND "; P x;
             K ".referent_kind = "; P e; K ".referent_kind"].
  - apply gives_app; [done|]. constructor; [|constructor].
    by_segs [K "(("; P e; K ".role IN ('candidate', 'selected') AND "; P e;
      K ".referent_kind IN ('entity', 'note')) OR ("; P e; K ".role = 'target' AND "; P e;
      K ".referent_kind IN ('entity', 'note')) OR ("; P e; K ".role = 'signal' AND "; P e;
      K ".referent_kind IN ('entity', 'note')))"].
  - by_segs [P e; K ".event_id"].
  - by_segs [P e; K ".role"].
  - by_segs [P e; K ".position"].
Qed.

Lemma canonical_edge_clause opts e p x ep :
  conjunct e → conjunct p → conjunct x → gives edge_clauses (compile_canonical_edge opts mailbox e p x ep).
Proof.
  intros He Hp Hx. unfold compile_canonical_edge.
  eapply gives_bind; [by apply namespace_predicate_clause|]. intros ns Hns.
  eapply gives_bind; [apply text_choice_clause; by_segs [P e; K ".relation"]|]. intros rels Hrels. apply gives_ret.
  pose proof (primary_node_source_clause x ltac:(auto with clauses)) as Hps.
  pose proof (edge_source_clause e ltac:(auto with clauses)) as Hes.
  set (ps := primary_node_source mailbox x) in *. set (es := edge_source mailbox e) in *.
  unfold edge_clauses. cbn [fst snd]. split_and!; [|by apply gives_app|repeat constructor; by_segs [P e; K ".id"]].
  assert (∀ sj nj, in_clause sj → in_clause nj →
    Forall in_clause [cat ["JOIN "; es; " ON "; sj; " AND "; e; ".deleted_at IS NULL"]; cat ["JOIN "; ps; " ON "; x; ".id = "; nj]]) as Hall.
  { intros sj nj Hsj Hnj. constructor; [by_segs [K "JOIN "; P es; K " ON "; P sj; K " AND "; P e; K ".deleted_at IS NULL"]|].
    constructor; [by_segs [K "JOIN "; P ps; K " ON "; P x; K ".id = "; P nj]|constructor]. }
  destruct (ep_direction ep); apply Hall.
  - by_segs [P e; K ".source_id = "; P p; K ".id"].
  - by_segs [P e; K ".target_id"].
  - by_segs [P e; K ".target_id = "; P p; K ".id"].
  - by_segs [P e; K ".source_id"].
  - by_segs [K "("; P e; K ".source_id = "; P p; K ".id OR "; P e; K ".target_id = "; P p; K ".id)"].
  - by_segs [K "CASE WHEN "; P e; K ".source_id = "; P p; K ".id THEN "; P e; K ".target_id ELSE "; P e; K ".source_id END"].
Qed.
End sources.

(** ** The parts of a statement *)

Record parts_ok (p : Parts) : Prop := {
  from_ok : Forall in_clause (from_parts p);
  join_ok : Forall in_clause (join_parts p);
  where_ok : Forall conjunct (where_parts p);
  order_ok : Forall in_clause (order_parts p);
  aliases_clause : aliases_ok (var_to_alias p)
}.

Lemma alias_insert v a k m : conjunct a → aliases_ok m → aliases_ok (<[v := (a, k)]> m).
Proof. intros Ha Hm. by apply map_Forall_insert_2. Qed.
#[export] Hint Resolve alias_insert : clauses.

Section fixed.
Variables (opts : CompileOptions) (mailbox : option MailboxLowering) (event_sources observation_targets : gset nat).

Lemma compile_node_ok np p :
  parts_ok p → gives parts_ok (compile_node opts mailbox event_sources observation_targets np p).
Proof.
  intros [Hf Hj Hw Ho Ha]. unfold compile_node. pose proof (node_alias_piece (node_count p)) as Hal.
  set (a := node_alias (node_count p)) in *.
  eapply gives_bind; [by apply node_filters_clause|]. intros fs Hfs. apply gives_ret.
  pose proof (primary_node_source_clause mailbox a ltac:(auto with clauses)).
  split; cbn [from_parts join_parts where_parts order_parts var_to_alias]; auto with clauses.
  - apply gives_app; [done|]. destruct (node_count p); [|constructor].
    repeat case_bool_decide; repeat constructor; [by_segs [K "events "; P a]|done].
  - apply gives_app; [done|]. repeat case_bool_decide; repeat constructor; 
      first [by_segs [P a; K ".id"]|by_segs [P a; K ".referent_kind"]|by_segs [P a; K ".substrate_kind"]].
  - destruct (np_variable np); auto with clauses.
Qed.

Lemma compile_edge_ok ep p : parts_ok p → gives parts_ok (compile_edge opts mailbox ep p).
Proof.
  intros [Hf Hj Hw Ho Ha]. unfold compile_edge. destruct (_ && _); [apply gives_fail|].
  eapply gives_bind with (Q := edge_clauses).
  { destruct (existsb is_synthetic _); [apply synthetic_edge_clause|apply canonical_edge_clause]; auto with clauses. }
  intros [[j w] o] (Hj' & Hw' & Ho'). apply gives_ret. cbn [fst snd] in *.
  split; cbn [from_parts join_parts where_parts order_parts var_to_alias]; auto with clauses.
  destruct (ep_variable ep); auto with clauses.
Qed.

Lemma compile_elements_ok es p :
  parts_ok p → gives parts_ok (compile_elements opts mailbox event_sources observation_targets es p).
Proof.
  revert p. induction es as [|[np|ep] es IH]; intros p Hp; simpl; [by apply gives_ret|..].
  all: eapply gives_bind; [by apply compile_node_ok || by apply compile_edge_ok|exact IH].
Qed.
End fixed.

Lemma no_parts_ok : parts_ok no_parts.
Proof. split; try constructor. apply map_Forall_empty. Qed.

Lemma projection_clause t c s :
  conjunct t → checked clause_words After [K "."; K c; K " AS "; P ""] = true → in_clause (projection t c (quote_identifier s)).
Proof.
  intros Ht Hc. unfold projection. change (in_clause (cat (seg_text <$> [P t; K "."; K c; K " AS "; P (quote_identifier s)]))).
  apply checked_piece; [exact Hc|sql_pieces].
Qed.

Lemma project_item_clause m item l : aliases_ok m → project_item m item = Ok l → Forall in_clause l.
Proof.
  intros Hm. unfold project_item. destruct (m !! item_variable item) as [[a kind]|] eqn:Hl; [|done].
  apply Hm in Hl. simpl in Hl. destruct item as [v|v prop].
  - intros [= <-]. apply Forall_forall. intros s ([c suffix] & -> & Hcs)%list_elem_of_fmap. apply projection_clause; [done|].
    assert (forallb (λ cs, checked clause_words After [K "."; K cs.1; K " AS "; P ""]) (variable_columns kind) = true) as Hall
      by (destruct kind; reflexivity).
    by apply (proj1 (forallb_forall _ _) Hall (c, suffix)), list_elem_of_In.
  - unfold property_to_column. destruct (property_columns kind) as [valid name] eqn:Hv.
    destruct (contains valid prop) eqn:Hc; [|done]. intros [= <-]. constructor; [|constructor]. apply projection_clause; [done|].
    apply existsb_exists in Hc as (y & Hy & <-%String.eqb_eq).
    assert (forallb (λ c, checked clause_words After [K "."; K c; K " AS "; P ""]) valid = true) as Hall
      by (destruct kind; simplify_eq/=; reflexivity).
    by apply (proj1 (forallb_forall _ _) Hall).
Qed.
