(* ===== verification/QueryPage.v ===== *)
(** khive-runtime/src/operations/edge_query.rs: the page cut from the rows of a
    compiled query, and the pages that following the continuation visits. After it, what
    the query compiler promises about its statements: injection, namespaces, and what
    the parser accepts. *)

From Stdlib Require Import ZArith Ascii String Lia.
From stdpp Require Import base tactics list numbers strings gmap sorting.
From S2P Require Import Prelude RustStr Json EdgeOntology Rounding Float QueryAst Gql QuerySql SqlText.
From S2P Require Import SqlAlike SqlSafety SqlClauses.

#[local] Open Scope Z_scope.

Section page.
Context {Row : Type}.

(** The rows and metadata of a [QueryResult]. *)
Record Page := {
  page_rows : list Row; page_offset : Z; page_size : Z; has_more : bool; next_offset : option Z; truncated : bool
}.

(** The refusals of a page, in the order they are met. *)
Inductive PageError := PageSizeZero | SkipExceedsI64 | LimitExceedsI64 | NextOffsetUsize | PageDidNotAdvance | NextOffsetI64.

(** Where a query of the language continues after [rows] at [offset]: only GQL can. *)
Definition continuation (language : QueryLanguage) (truncated : bool) (rows : nat) (offset : Z) : result (option Z) PageError :=
  if truncated && bool_decide (language = LGql) then
    let next := offset + Z.of_nat rows in
    if next >? usize_max then Err NextOffsetUsize
    else if next =? offset then Err PageDidNotAdvance
    else if next >? i64_max then Err NextOffsetI64
    else Ok (Some next)
  else Ok None.

(** The rows beyond the sentinel's bound are cut, and the offset of the page after
    it computed. *)
Definition cut_page (language : QueryLanguage) (rows : list Row) (check : option TruncationCheck) (offset page_size : Z)
    : result Page PageError :=
  let '(rows, truncated) :=
    match check with
    | Some check =>
        if Z.of_nat (length rows) >? check_max_limit check
        then (take (Z.to_nat (check_max_limit check)) rows, true) else (rows, false)
    | None => (rows, false)
    end in
  let? next_offset := continuation language truncated (length rows) offset in
  Ok {| page_rows := rows; page_offset := offset; page_size := page_size; has_more := truncated;
        next_offset := next_offset; truncated := truncated |}.

(** The rows a statement with [LIMIT limit OFFSET offset] selects from the ordered
    matches. *)
Definition select_rows (matches : list Row) (limit offset : Z) : list Row :=
  take (Z.to_nat limit) (drop (Z.to_nat offset) matches).

(** The page of a query with this [LIMIT] and [SKIP]: a page size of zero is refused,
    then by the compiler an offset and a limit that are not an [i64]. *)
Definition query_page (language : QueryLanguage) (matches : list Row) (requested : option Z) (max_limit offset : Z)
    : result Page PageError :=
  if max_limit =? 0 then Err PageSizeZero
  else if offset >? i64_max then Err SkipExceedsI64
  else
    let '(limit, check) := effective_limit requested offset max_limit in
    if limit >? i64_max then Err LimitExceedsI64
    else cut_page language (select_rows matches limit offset) check offset (Z.min (default max_limit requested) max_limit).

(** The rows a client sees that follows [next_offset] from page to page. *)
Fixpoint follow (language : QueryLanguage) (fuel : nat) (matches : list Row) (requested : option Z) (max_limit offset : Z)
    : option (result (list Row) PageError) :=
  match fuel with
  | O => None
  | S fuel =>
      match query_page language matches requested max_limit offset with
      | Err e => Some (Err e)
      | Ok page =>
          match next_offset page with
          | None => Some (Ok (page_rows page))
          | Some next =>
              match follow language fuel matches requested max_limit next with
              | Some (Ok rest) => Some (Ok (page_rows page ++ rest))
              | r => r
              end
          end
      end
  end.

(** The matches within the query's own limit. *)
Definition within (matches : list Row) (requested : option Z) : list Row :=
  match requested with Some limit => take (Z.to_nat limit) matches | None => matches end.

(** The first page of the rows that are left at an offset. *)
Definition first_page (language : QueryLanguage) (rest : list Row) (max_limit offset page_size : Z) : Page :=
  let more := Z.of_nat (length rest) >? max_limit in
  {| page_rows := take (Z.to_nat max_limit) rest; page_offset := offset; page_size := page_size; has_more := more;
     next_offset := if more && bool_decide (language = LGql) then Some (offset + max_limit) else None;
     truncated := more |}.

Lemma cut_sentinel language l m r offset size :
  0 ≤ offset → 1 ≤ m → (Z.of_nat (length l) > m → offset + Z.of_nat (length l) ≤ i64_max) →
  cut_page language (take (Z.to_nat (m + 1)) l) (Some {| check_max_limit := m; requested_limit := r |}) offset size =
  Ok (first_page language l m offset size).
Proof.
  intros Hoff Hm Hb. unfold cut_page, first_page. cbn [check_max_limit]. rewrite length_take, !Z.gtb_ltb.
  assert ((m <? Z.of_nat (Z.to_nat (m + 1) `min` length l)) = (m <? Z.of_nat (length l))) as ->
    by (apply eq_true_iff_eq; rewrite !Z.ltb_lt; lia).
  destruct (m <? Z.of_nat (length l)) eqn:Hg.
  - rewrite take_take, length_take. replace (Z.to_nat m `min` Z.to_nat (m + 1))%nat with (Z.to_nat m) by lia.
    unfold continuation. destruct language; [|done]. simpl.
    replace (offset + Z.of_nat (Z.to_nat m `min` length l)) with (offset + m) by lia.
    assert (i64_max < usize_max) by done.
    rewrite !Z.gtb_ltb. replace (usize_max <? offset + m) with false by lia.
    replace (offset + m =? offset) with false by lia. by replace (i64_max <? offset + m) with false by lia.
  - rewrite !take_ge by lia. done.
Qed.

Lemma query_page_spec language matches requested max_limit offset :
  0 ≤ offset ≤ i64_max → 1 ≤ max_limit < i64_max → Z.of_nat (length matches) ≤ i64_max →
  query_page language matches requested max_limit offset =
  Ok (first_page language (drop (Z.to_nat offset) (within matches requested)) max_limit offset
        (Z.min (default max_limit requested) max_limit)).
Proof.
  intros Hoff Hmax Hlen. unfold query_page, effective_limit, select_rows, usize_saturating_sub.
  assert (i64_max < usize_max) by done. generalize (Z.min (default max_limit requested) max_limit). intros size.
  rewrite !Z.gtb_ltb. replace (max_limit =? 0) with false by lia. replace (i64_max <? offset) with false by lia.
  replace (usize_saturating_add max_limit 1) with (max_limit + 1) by (unfold usize_saturating_add; lia).
  destruct requested as [n|]; simpl.
  - rewrite skipn_firstn_comm. destruct (Z.max 0 (n - offset) <=? max_limit) eqn:Hr.
    + apply Z.leb_le in Hr. rewrite Z.gtb_ltb. replace (i64_max <? Z.max 0 (n - offset)) with false by lia.
      unfold cut_page, first_page. replace (Z.to_nat (Z.max 0 (n - offset))) with (Z.to_nat n - Z.to_nat offset)%nat by lia.
      set (rest := take _ _). assert (Z.of_nat (length rest) ≤ max_limit) by (unfold rest; rewrite length_take; lia).
      rewrite Z.gtb_ltb. replace (max_limit <? Z.of_nat (length rest)) with false by lia. by rewrite take_ge by lia.
    + apply Z.leb_gt in Hr. rewrite Z.gtb_ltb. replace (i64_max <? max_limit + 1) with false by lia.
      rewrite cut_sentinel; [|lia|lia|rewrite length_drop; lia]. unfold first_page.
      rewrite length_take, length_drop, take_take, !Z.gtb_ltb.
      replace (max_limit <? Z.of_nat ((Z.to_nat n - Z.to_nat offset) `min` (length matches - Z.to_nat offset)))
        with (max_limit <? Z.of_nat (length matches - Z.to_nat offset))
        by (apply eq_true_iff_eq; rewrite !Z.ltb_lt; lia).
      by replace (Z.to_nat max_limit `min` (Z.to_nat n - Z.to_nat offset))%nat with (Z.to_nat max_limit) by lia.
  - rewrite Z.gtb_ltb. replace (i64_max <? max_limit + 1) with false by lia.
    rewrite cut_sentinel; [done|lia|lia|rewrite length_drop; lia].
Qed.

Lemma follow_spec fuel matches requested max_limit offset :
  0 ≤ offset ≤ i64_max → 1 ≤ max_limit < i64_max → Z.of_nat (length matches) ≤ i64_max →
  (length (drop (Z.to_nat offset) (within matches requested)) < fuel)%nat →
  follow LGql fuel matches requested max_limit offset = Some (Ok (drop (Z.to_nat offset) (within matches requested))).
Proof.
  revert offset. induction fuel as [|fuel IH]; intros offset Hoff Hmax Hlen Hf; [lia|]. simpl.
  rewrite query_page_spec by done. unfold first_page. cbn [next_offset page_rows]. rewrite Z.gtb_ltb, andb_true_r.
  assert (length (within matches requested) ≤ length matches)%nat
    by (destruct requested; simpl; [rewrite length_take|]; lia).
  destruct (max_limit <? _) eqn:Hg; [apply Z.ltb_lt in Hg|apply Z.ltb_ge in Hg; by rewrite take_ge by lia].
  rewrite length_drop in Hg. rewrite IH; [|lia|done|done|rewrite length_drop in Hf |- *; lia].
  replace (Z.to_nat (offset + max_limit)) with (Z.to_nat offset + Z.to_nat max_limit)%nat by lia.
  by rewrite <-drop_drop, take_drop.
Qed.

(** C9: A GQL client that starts without [SKIP] and follows [next_offset] sees every
    match within the query's own [LIMIT] exactly once and in order, after as many pages
    as the page size asks for, and no page fails or repeats. A SPARQL query gets the
    first page of those matches: it says whether there are more and names no offset. *)
Theorem pages_cover_matches (matches : list Row) requested max_limit :
  1 ≤ max_limit < i64_max → Z.of_nat (length matches) ≤ i64_max →
  follow LGql (S (length matches)) matches requested max_limit 0 = Some (Ok (within matches requested)) ∧
  ∃ page, query_page LSparql matches requested max_limit 0 = Ok page ∧
    page_rows page = take (Z.to_nat max_limit) (within matches requested) ∧ next_offset page = None ∧
    (has_more page = true ↔ page_rows page ≠ within matches requested).
Proof.
  intros Hmax Hlen. split.
  - rewrite follow_spec; [done|done|done|done|]. rewrite drop_0. destruct requested; simpl; [rewrite length_take|]; lia.
  - eexists. rewrite query_page_spec by done. split; [done|]. unfold first_page. cbn [page_rows next_offset has_more].
    rewrite drop_0, andb_false_r, Z.gtb_gt. split_and!; [done|done|].
    rewrite Z.gt_lt_iff. split.
    + intros Hl Heq. apply (f_equal length) in Heq. rewrite length_take in Heq. lia.
    + intros Hne. apply Z.lt_nge. intros Hge. apply Hne. by rewrite take_ge by lia.
Qed.
End page.

Example pages_cover_matches_witness :
  follow LGql 8 [1; 2; 3; 4; 5; 6; 7] (Some 6) 2 0 = Some (Ok [1; 2; 3; 4; 5; 6]).
Proof. apply (pages_cover_matches [1; 2; 3; 4; 5; 6; 7] (Some 6) 2); [split; [done|reflexivity]|discriminate]. Defined.

(** What the query compiler promises: literals never reach the text of a statement,
    every table is filtered to the namespaces in scope, a page is cut where its
    truncation check says, and what the parser accepts the compiler can filter by. *)

#[local] Open Scope nat_scope.

(** ** Parameters only grow *)

Definition grows {A} (m : C A) : Prop := ∀ ps a qs, m ps = Ok (a, qs) → ps `prefix_of` qs.

Lemma grows_elim {A} (m : C A) ps a qs : m ps = Ok (a, qs) → grows m → ps `prefix_of` qs.
Proof. intros Hm Hg. by eapply Hg. Qed.

Lemma grows_ret {A} (a : A) : grows (mret a).
Proof. by intros ps b qs [= <- <-]. Qed.
Lemma grows_fail {A} e : grows (A:=A) (fail e).
Proof. done. Qed.
Lemma grows_lift {A} (r : result A QueryError) : grows (lift r).
Proof. intros ps a qs. unfold lift. destruct r; [|done]. by intros [= <- <-]. Qed.
Lemma grows_push v : grows (push v).
Proof. intros ps a qs [= <- <-]. by apply prefix_app_r. Qed.
Lemma grows_get : grows get_params.
Proof. by intros ps a qs [= <- <-]. Qed.
Lemma C_bind_Ok {A B} (m : C A) (k : A → C B) ps b qs :
  (m ≫= k) ps = Ok (b, qs) ↔ ∃ a rs, m ps = Ok (a, rs) ∧ k a rs = Ok (b, qs).
Proof.
  unfold mbind, C_bind. destruct (m ps) as [[a rs]|e]; split; [eauto|by intros (? & ? & [= <- <-] & ?)|done|].
  by intros (? & ? & ? & ?).
Qed.
Lemma grows_bind {A B} (m : C A) (k : A → C B) : grows m → (∀ a, grows (k a)) → grows (m ≫= k).
Proof. intros Hm Hk ps b qs (a & rs & Ha & Hb)%C_bind_Ok. etrans; [by eapply Hm|by eapply Hk]. Qed.
Lemma grows_each {A B} (f : A → C B) l : (∀ x, grows (f x)) → grows (each f l).
Proof.
  intros Hf. induction l as [|x l IH]; simpl; [apply grows_ret|].
  apply grows_bind; [done|]. intros y. apply grows_bind; [done|]. intros ys. apply grows_ret.
Qed.

Create HintDb grows.
#[export] Hint Resolve grows_ret grows_fail grows_lift grows_push grows_get : grows.
Ltac grow :=
  repeat first
    [ solve [eauto with grows]
    | apply grows_bind; intros; cbv beta
    | apply grows_each; intros
    | case_match ].

Lemma grows_namespace a opts : grows (namespace_predicate a opts).
Proof. unfold namespace_predicate. grow. Qed.
Lemma grows_text c v : grows (text_predicate c v).
Proof. unfold text_predicate. grow. Qed.
#[export] Hint Resolve grows_namespace grows_text : grows.
Lemma grows_choice c l : grows (text_choice c l).
Proof. unfold text_choice. grow. Qed.
Lemma grows_scalar v r : grows (bind_scalar v r).
Proof. unfold bind_scalar. grow. Qed.
#[export] Hint Resolve grows_choice grows_scalar : grows.
Lemma grows_condition c cond : grows (compile_condition_predicate c cond).
Proof. unfold compile_condition_predicate, bind_condition_value. grow. Qed.
Lemma grows_props a d m : grows (compile_props a d m).
Proof. unfold compile_props, compile_property_equality. grow. Qed.
Lemma grows_kind a k : grows (kind_filter_predicate a k).
Proof. unfold kind_filter_predicate. grow. Qed.
Lemma grows_observation_kind a k : grows (observation_kind_filter_predicate a k).
Proof. unfold observation_kind_filter_predicate. grow. Qed.
Lemma grows_i64 n what : grows (push_i64 n what).
Proof. unfold push_i64. grow. Qed.
#[export] Hint Resolve grows_condition grows_props grows_kind grows_observation_kind grows_i64 : grows.
Lemma grows_where `{CharTables} e m : grows (compile_where_expr e m).
Proof. induction e; simpl; unfold compile_single_condition; grow. Qed.
#[export] Hint Resolve grows_where : grows.

(** ** Namespaces *)

(** The predicate that keeps a table to the namespaces bound at the placeholders. *)
Definition scope_text (a : string) (indices : list nat) : string :=
  match indices with
  | [i] => cat [a; ".namespace = "; hole i]
  | _ => cat [a; ".namespace IN ("; in_placeholders indices; ")"]
  end.

(** Placeholder [i] stands for the text [s]. *)
Definition bound (params : list QueryValue) (i : nat) (s : string) : Prop :=
  1 ≤ i ∧ params !! pred i = Some (QText s).

(** One of the conjuncts keeps [a] to the namespaces in scope. *)
Definition scoped (opts : CompileOptions) (params : list QueryValue) (conjuncts : list string) (a : string) : Prop :=
  ∃ indices, Forall2 (bound params) indices (opt_scopes opts) ∧ scope_text a indices ∈ conjuncts.

Lemma bound_grows ps qs i s : ps `prefix_of` qs → bound ps i s → bound qs i s.
Proof. intros Hp [Hi Hs]. split; [done|]. by eapply prefix_lookup_Some. Qed.

Lemma bounds_grow ps qs is_ l : ps `prefix_of` qs → Forall2 (bound ps) is_ l → Forall2 (bound qs) is_ l.
Proof. intros Hp Hl. eapply Forall2_impl; [exact Hl|]. intros ??. by apply bound_grows. Qed.

Lemma scoped_grows opts ps qs l k a : ps `prefix_of` qs → l ⊆ k → scoped opts ps l a → scoped opts qs k a.
Proof. intros Hp Hl (is_ & Hb & Hin). exists is_. split; [by eapply bounds_grow|by apply Hl]. Qed.

Lemma push_bound s ps i qs : push (QText s) ps = Ok (i, qs) → bound qs i s.
Proof. intros [= <- <-]. split; [lia|]. by rewrite lookup_app_r, Nat.sub_diag by (simpl; lia). Qed.

Lemma each_push_bound l ps is_ qs : each (λ s, push (QText s)) l ps = Ok (is_, qs) → Forall2 (bound qs) is_ l.
Proof.
  revert ps is_. induction l as [|s l IH]; intros ps is_; simpl; [by intros [= <- <-]|].
  intros (i & rs & Hi & (js & ts & Hjs & [= <- <-])%C_bind_Ok)%C_bind_Ok. constructor; [|by eapply IH].
  eapply bound_grows; [|by eapply push_bound]. apply (grows_elim _ _ _ _ Hjs). grow.
Qed.

Lemma namespace_predicate_scoped opts a ps o qs :
  opt_scopes opts ≠ [] → namespace_predicate a opts ps = Ok (o, qs) → scoped opts qs (opt_list o) a.
Proof.
  unfold namespace_predicate, scoped. destruct (opt_scopes opts) as [|s [|s2 l]]; [done|intros _|intros _].
  - intros (i & rs & Hi & [= <- <-])%C_bind_Ok. exists [i]. split; [|by apply list_elem_of_singleton].
    constructor; [by eapply push_bound|constructor].
  - intros (is_ & rs & Hi & [= <- <-])%C_bind_Ok. apply each_push_bound in Hi. exists is_. split; [done|].
    destruct is_ as [|i [|j is_]]; [by inversion Hi|by apply Forall2_length in Hi|]. by apply list_elem_of_singleton.
Qed.

Section fixed.
Context `{CharTables}.
Variables (opts : CompileOptions) (mailbox : option MailboxLowering).
Hypothesis Hscopes : opt_scopes opts ≠ [].

Lemma node_filters_scoped es ot a np ps fs qs :
  node_filters opts es ot a np ps = Ok (fs, qs) → scoped opts qs fs a.
Proof using Hscopes.
  unfold node_filters. destruct es.
  - intros (ns & rs & Hns & (kind & ts & Hk & Hfs)%C_bind_Ok)%C_bind_Ok.
    apply namespace_predicate_scoped in Hns; [|done].
    assert (rs `prefix_of` ts) as Hrt by (apply (grows_elim _ _ _ _ Hk); grow).
    destruct (np_entity_type np); [done|]. case_bool_decide; [|done]. injection Hfs as <- <-.
    eapply scoped_grows; [done| |done]. set_solver.
  - intros (ns & rs & Hns & Hfs)%C_bind_Ok. apply namespace_predicate_scoped in Hns; [|done].
    destruct (opt_list ns) as [|p l] eqn:Hp; [destruct Hns as (? & _ & []%not_elem_of_nil)|].
    apply C_bind_Ok in Hfs as (k & ts & Hk & Hfs). apply C_bind_Ok in Hfs as (et & us & Het & Hfs).
    apply C_bind_Ok in Hfs as (pr & vs & Hpr & [= <- <-]).
    assert (rs `prefix_of` ts) as H1 by (apply (grows_elim _ _ _ _ Hk); unfold when_some; destruct ot; grow).
    assert (ts `prefix_of` us) as H2 by (apply (grows_elim _ _ _ _ Het); unfold when_some; grow).
    assert (us `prefix_of` vs) as H3 by (apply (grows_elim _ _ _ _ Hpr), grows_props).
    eapply scoped_grows; [etrans; [exact H1|etrans; [exact H2|exact H3]]| |done]. set_solver.
Qed.

Lemma compile_edge_scoped ep p ps p' qs :
  compile_edge opts mailbox ep p ps = Ok (p', qs) →
  ps `prefix_of` qs ∧ where_parts p ⊆ where_parts p' ∧ node_count p' = node_count p ∧ edge_count p' = S (edge_count p) ∧
  (existsb is_synthetic (ep_relations ep) = false → scoped opts qs (where_parts p') (edge_alias (edge_count p))).
Proof using Hscopes.
  unfold compile_edge. destruct (existsb is_synthetic _ && _); [done|].
  intros ([[j w] o] & rs & Hc & [= <- <-])%C_bind_Ok. simpl. split_and!; [|set_solver|done|done|].
  - apply (grows_elim _ _ _ _ Hc). destruct (existsb _ _); unfold compile_synthetic_edge, compile_canonical_edge; grow.
  - intros Hs. rewrite Hs in Hc. unfold compile_canonical_edge in Hc.
    apply C_bind_Ok in Hc as (ns & ts & Hns & Hc). apply C_bind_Ok in Hc as (r & us & Hr & [= <- <- <- <-]).
    apply namespace_predicate_scoped in Hns; [|done]. eapply scoped_grows; [| |done]; [apply (grows_elim _ _ _ _ Hr), grows_choice|set_solver].
Qed.

Variables (event_sources observation_targets : gset nat).

Lemma compile_node_scoped np p ps p' qs :
  compile_node opts mailbox event_sources observation_targets np p ps = Ok (p', qs) →
  ps `prefix_of` qs ∧ where_parts p ⊆ where_parts p' ∧ node_count p' = S (node_count p) ∧ edge_count p' = edge_count p ∧
  scoped opts qs (where_parts p') (node_alias (node_count p)).
Proof using Hscopes.
  unfold compile_node. intros (fs & rs & Hf & [= <- <-])%C_bind_Ok. simpl. split_and!; [|set_solver|done|done|].
  - apply (grows_elim _ _ _ _ Hf). unfold node_filters, when_some. grow.
  - eapply scoped_grows; [done| |by eapply node_filters_scoped]. set_solver.
Qed.

Lemma compile_elements_scoped es p ps p' qs :
  compile_elements opts mailbox event_sources observation_targets es p ps = Ok (p', qs) →
  ps `prefix_of` qs ∧ where_parts p ⊆ where_parts p' ∧
  (∀ i, i < length (pattern_nodes es) → scoped opts qs (where_parts p') (node_alias (node_count p + i))) ∧
  (∀ j ep, pattern_edges es !! j = Some ep → existsb is_synthetic (ep_relations ep) = false →
     scoped opts qs (where_parts p') (edge_alias (edge_count p + j))).
Proof using Hscopes.
  revert p ps. induction es as [|[np|ep] es IH]; intros p ps; simpl.
  - intros [= <- <-]. split_and!; [done|done|simpl; lia|done].
  - intros (p1 & rs & (Hp & Hw & Hn & He & Hs)%compile_node_scoped & (Hp' & Hw' & Hns & Hes)%IH)%C_bind_Ok.
    split_and!; [by etrans|by etrans| |].
    + intros [|i] Hi.
      * rewrite Nat.add_0_r. by eapply scoped_grows.
      * replace (node_count p + S i) with (node_count p1 + i) by lia. apply Hns, Nat.succ_lt_mono. exact Hi.
    + intros j ep Hj. rewrite <-He. by apply Hes.
  - intros (p1 & rs & (Hp & Hw & Hn & He & Hs)%compile_edge_scoped & (Hp' & Hw' & Hns & Hes)%IH)%C_bind_Ok.
    split_and!; [by etrans|by etrans| |].
    + intros i Hi. rewrite <-Hn. by apply Hns.
    + intros [|j] ep' Hj Hsyn.
      * injection Hj as ->. rewrite Nat.add_0_r. eapply scoped_grows; [done|done|]. by apply Hs.
      * replace (edge_count p + S j) with (edge_count p1 + j) by lia. by apply (Hes j ep').
Qed.
End fixed.

(** ** Validation keeps the shape of a pattern *)

Section shape.
Context `{Externals}.

Lemma validated_edge e v :
  validate_element e = Ok v →
  match e, v with
  | PNode np, PNode np' => np' = np
  | PEdge ep, PEdge ep' =>
      existsb is_synthetic (ep_relations ep') = existsb is_synthetic (ep_relations ep) ∧ ep_max_hops ep' = ep_max_hops ep
  | _, _ => False
  end.
Proof.
  destruct e as [np|ep]; [by intros ->%validate_node_ok|].
  intros (rs & Hrs%try_map_Forall2 & _ & ->)%validate_edge_ok. simpl. split; [|done].
  induction Hrs as [|r r' l l' Hr Hl IH]; [done|]. simpl. by rewrite (validate_relation_synthetic _ _ Hr), IH.
Qed.

Lemma validated_pattern es vs :
  try_map validate_element es = Ok vs →
  length (pattern_nodes vs) = length (pattern_nodes es) ∧ has_variable_length vs = has_variable_length es ∧
  Forall2 (λ ep ep', existsb is_synthetic (ep_relations ep') = existsb is_synthetic (ep_relations ep))
    (pattern_edges es) (pattern_edges vs).
Proof.
  intros Hes%try_map_Forall2. unfold has_variable_length. induction Hes as [|e v es vs Hev Hes (IH1 & IH2 & IH3)]; [done|].
  apply validated_edge in Hev. destruct e as [np|ep], v as [np'|ep']; try done.
  - split_and!; [by apply (f_equal S)|exact IH2|exact IH3].
  - destruct Hev as [Hs Hm]. split_and!; [exact IH1| |by constructor].
    change (pattern_edges (PEdge ?e :: ?l)) with (e :: pattern_edges l). simpl. by rewrite Hm, IH2.
Qed.
End shape.

Section entry.
Context `{Tables : CharTables} {Laws : CharLaws} `{Externals}.

(** The [WHERE] clause of the statement is the conjunction of [conjuncts]: outside
    literals and parentheses no text before it or after it starts another clause, and
    no conjunct has a word there that ends the clause or binds looser than [AND]. *)
Definition where_conjuncts (sql : string) (conjuncts : list string) : Prop :=
  ∃ select order limit offset,
    sql = cat [select; " WHERE "; join " AND " conjuncts; " ORDER BY "; order; " LIMIT "; hole limit; " OFFSET "; hole offset] ∧
    avoids clause_words select = true ∧ avoids clause_words order = true ∧
    Forall (λ s, avoids conjunct_words s = true) conjuncts.

(** Every node of a path of fixed length, and every edge that is stored in a
    namespace, has its own conjunct in the [WHERE] clause. *)
Definition namespaces_kept (opts : CompileOptions) (pattern : MatchPattern) (c : CompiledQuery) : Prop :=
  ∃ conjuncts, where_conjuncts (cq_sql c) conjuncts ∧
  (∀ i, i < length (pattern_nodes pattern) → scoped opts (cq_params c) conjuncts (node_alias i)) ∧
  (∀ j ep, pattern_edges pattern !! j = Some ep → existsb is_synthetic (ep_relations ep) = false →
     scoped opts (cq_params c) conjuncts (edge_alias j)).

(** The statement of a path of fixed length, from its parts. *)
Lemma fixed_statement items p w selects limit offset :
  parts_ok p → Forall conjunct (opt_list w) → try_map (project_item (var_to_alias p)) items = Ok selects →
  where_conjuncts (cat ["SELECT "; join ", " (concat selects); " FROM "; join ", " (from_parts p); " ";
      join " " (join_parts p); " WHERE "; join " AND " (where_parts p ++ opt_list w); " ORDER BY ";
      join ", " (order_parts p); " LIMIT "; hole limit; " OFFSET "; hole offset]) (where_parts p ++ opt_list w).
Proof.
  intros [Hf Hj Hw Ho Ha] Hws Hsel.
  exists (cat ["SELECT "; join ", " (concat selects); " FROM "; join ", " (from_parts p); " "; join " " (join_parts p)]),
    (join ", " (order_parts p)), limit, offset. split_and!.
  - by rewrite !cat_cons, !append_assoc.
  - apply piece_avoids.
    assert (Forall in_clause (concat selects)) as Hc.
    { apply (try_map_Forall _ (Forall in_clause)) in Hsel; [|intros item l; by apply project_item_clause].
      clear -Hsel. induction Hsel; simpl; [constructor|by apply Forall_app]. }
    pose proof (piece_join clause_words ", " _ eq_refl Hc). pose proof (piece_join clause_words ", " _ eq_refl Hf).
    pose proof (piece_join clause_words " " _ eq_refl Hj).
    by_segs [K "SELECT "; P (join ", " (concat selects)); K " FROM "; P (join ", " (from_parts p)); K " "; P (join " " (join_parts p))].
  - apply piece_avoids. by apply piece_join.
  - eapply Forall_impl; [by apply gives_app|]. intros s. apply piece_avoids.
Qed.

Lemma fixed_length_kept q opts mb ps c qs :
  opt_scopes opts ≠ [] → compile_fixed_length q opts mb ps = Ok (c, qs) → namespaces_kept opts (q_pattern q) c.
Proof using Laws.
  intros Hne. unfold compile_fixed_length. intros (m & ps1 & _ & Hc)%C_bind_Ok.
  destruct (synthetic_endpoint_node_indices _) as [es ot].
  apply C_bind_Ok in Hc as (p & ps2 & Hp & Hc). pose proof (compile_elements_ok _ _ _ _ _ _ no_parts_ok _ _ _ Hp) as Hok.
  apply compile_elements_scoped in Hp as (_ & _ & Hn & He); [|done].
  apply C_bind_Ok in Hc as (w & ps3 & Hw & Hc). pose proof (where_expr_clause _ _ (aliases_clause _ Hok) _ _ _ Hw) as Hws.
  apply C_bind_Ok in Hc as (s & ps4 & Hs & Hc). apply C_bind_Ok in Hc as (o & ps5 & Ho & Hc).
  destruct (effective_limit _ _ _) as [l t]. apply C_bind_Ok in Hc as (k & ps6 & Hk & Hc).
  apply C_bind_Ok in Hc as (g & ps7 & Hg & [= <- <-]). injection Hg as <- <-.
  assert (ps2 `prefix_of` ps6) as Hgrow.
  { etrans; [apply (grows_elim _ _ _ _ Hw); apply grows_where|]. etrans; [apply (grows_elim _ _ _ _ Hs); apply grows_lift|].
    etrans; [apply (grows_elim _ _ _ _ Ho); apply grows_i64|]. apply (grows_elim _ _ _ _ Hk); apply grows_i64. }
  unfold lift in Hs. destruct (try_map _ _) as [sel|] eqn:Hsel; [|done]. injection Hs as <- <-.
  exists (where_parts p ++ opt_list w). cbn [cq_sql cq_params]. split_and!; [by eapply fixed_statement| |].
  - intros i Hi. eapply scoped_grows; [done| |by apply Hn]. set_solver.
  - intros j ep Hj Hsyn. eapply scoped_grows; [done| |by eapply He]. set_solver.
Qed.

Lemma compile_scoped_fixed q opts mb c :
  has_variable_length (q_pattern q) = false → opt_scopes opts ≠ [] → compile_scoped q opts mb = Ok c →
  namespaces_kept opts (q_pattern q) c.
Proof using Laws.
  intros Hfix Hne. unfold compile_scoped. destruct (q_pattern q) as [|e es] eqn:Hq; [done|]. rewrite <-Hq in *. clear Hq.
  intros ([v w] & (Hp & _)%validate_ok & ([r ps] & Hr & ([] & _ & [= <-])%res_bind_Ok)%res_bind_Ok)%res_bind_Ok.
  apply validated_pattern in Hp as (Hn & Hv & He). rewrite Hv, Hfix in Hr.
  apply fixed_length_kept in Hr as (cs & Hsql & Hns & Hes); [|done].
  exists cs. simpl. split_and!; [done|intros i Hi; apply Hns; lia|].
  intros j ep Hj Hs. destruct (Forall2_lookup_l _ _ _ _ _ He Hj) as (ep' & Hj' & Hs'). apply (Hes j ep'); [done|congruence].
Qed.
End entry.

(** ** What the parser accepts can be filtered by *)

Definition succeeds {A} (m : C A) : Prop := ∀ ps, ∃ a qs, m ps = Ok (a, qs).

Lemma succeeds_ret {A} (a : A) : succeeds (mret a).
Proof. intros ps. by eexists _, _. Qed.
Lemma succeeds_push v : succeeds (push v).
Proof. intros ps. by eexists _, _. Qed.
Lemma succeeds_bind {A B} (m : C A) (k : A → C B) : succeeds m → (∀ a, succeeds (k a)) → succeeds (m ≫= k).
Proof.
  intros Hm Hk ps. destruct (Hm ps) as (a & rs & Ha). destruct (Hk a rs) as (b & qs & Hb). exists b, qs.
  apply C_bind_Ok. eauto.
Qed.
Lemma succeeds_each {A B} (f : A → C B) (P : A → Prop) l : (∀ x, P x → succeeds (f x)) → Forall P l → succeeds (each f l).
Proof.
  intros Hf Hl. induction Hl as [|x l Hx Hl IH]; simpl; [apply succeeds_ret|].
  apply succeeds_bind; [by apply Hf|]. intros y. apply succeeds_bind; [done|]. intros ys. apply succeeds_ret.
Qed.

Lemma literal_succeeds v r : literal v → succeeds (bind_scalar v r).
Proof. destruct v; simpl; try done; intros Hv; try apply succeeds_push. rewrite Hv. apply succeeds_push. Qed.

Lemma written_succeeds col c : written c → succeeds (compile_condition_predicate col c).
Proof.
  unfold written, compile_condition_predicate. destruct (cond_op c).
  all: try (intros Hc; apply succeeds_bind; [by apply literal_succeeds|intros; apply succeeds_ret]).
  all: try (intros [s ->]; apply succeeds_bind; [apply succeeds_push|intros; apply succeeds_ret]).
  all: try (intros ->; apply succeeds_ret).
  intros (l & -> & Hl). destruct l as [|v l]; [apply succeeds_ret|].
  apply succeeds_bind; [|intros; apply succeeds_ret]. eapply succeeds_each; [|exact Hl].
  intros x. apply literal_succeeds.
Qed.

Lemma props_succeed a direct m : map_Forall (λ k v, literal v ∧ k ≠ "entity_type"%string) m → succeeds (compile_props a direct m).
Proof.
  intros Hm. apply (succeeds_each _ (λ kv, literal kv.2)).
  - intros [k v] Hv. apply succeeds_bind; [by apply literal_succeeds|]. intros. apply succeeds_ret.
  - apply Forall_forall. intros [k v] Hin. unfold sorted_props in Hin. rewrite merge_sort_Permutation in Hin.
    apply elem_of_map_to_list in Hin. by apply (Hm k v).
Qed.

Section accepted.
Context `{CharTables} `{Externals}.

Lemma validated_literals l k :
  Forall literal l →
  try_map (λ value, match value with
                    | CString s => let? s := normalize_relation s in Ok (CString s)
                    | _ => Err (QValidation "relation IN list values must be strings")
                    end) l = Ok k → Forall literal k.
Proof.
  intros _. apply try_map_Forall. intros x y. destruct x; try done. by intros (t & _ & [= <-])%res_bind_Ok.
Qed.

Lemma written_validated b c d : written c → validate_condition b c = Ok d → written d.
Proof.
  intros Hc. unfold validate_condition. destruct (cond_property c); [|by intros [= <-]].
  destruct (String.eqb _ _); [done|]. destruct (_ && _); [by intros [= <-]|]. destruct (_ && _); [|by intros [= <-]].
  unfold written in Hc |- *.
  destruct (cond_op c) eqn:Hop; try (intros [= <-]; by rewrite Hop); intros (w & Hw & [= <-])%res_bind_Ok; simpl; rewrite Hop.
  all: try (destruct (cond_value c); try done; simpl in Hw;
            [apply res_bind_Ok in Hw as (t & _ & [= <-])|injection Hw as <-..]; done).
  destruct Hc as (l & Hl & Hlit). rewrite Hl in Hw. apply res_bind_Ok in Hw as (k & Hk & [= <-]).
  exists k. split; [done|]. by eapply validated_literals.
Qed.

Lemma conditions_validated f e v :
  (∀ c d, f c = Ok d → written c → written d) → map_conditions f e = Ok v → written_where e → written_where v.
Proof.
  intros Hf. unfold written_where. revert v. induction e as [l IHl r IHr|l IHl r IHr|c|]; intros v; simpl.
  1,2: intros (a & Ha & (b & Hb & [= <-])%res_bind_Ok)%res_bind_Ok [Hl Hr]%Forall_app; apply Forall_app; auto.
  - intros (d & Hd & [= <-])%res_bind_Ok [Hc _]%Forall_cons. apply Forall_singleton. by eapply Hf.
  - by intros [= <-].
Qed.

Lemma validated_written q v w :
  accepted q → validate_with_warnings q = Ok (v, w) →
  Forall written (conditions (q_where v)) ∧
  Forall (λ np, map_Forall (λ k v, literal v ∧ k ≠ "entity_type"%string) (np_properties np)) (pattern_nodes (q_pattern v)).
Proof.
  intros [_ Hel Hw _ _ _] (Hp%try_map_Forall2 & Hc & _)%validate_ok. split.
  - eapply conditions_validated; [|exact Hc|exact Hw]. intros c d Hd Hcw. eapply written_validated; [exact Hcw|exact Hd].
  - clear Hc. revert Hel. induction Hp as [|e e' es es' He Hes IH]; [constructor|]. intros [He1 Hel]%Forall_cons.
    apply validated_edge in He. destruct e as [np|ep], e' as [np'|ep']; try done; [subst np'|exact (IH Hel)].
    change (pattern_nodes (PNode np :: es')) with (np :: pattern_nodes es'). constructor; [exact He1|exact (IH Hel)].
Qed.
End accepted.

(** An alternating path passes the shape check. *)
Definition alternates (es : MatchPattern) : Prop :=
  length es mod 2 = 1 ∧
  ∀ i e, es !! i = Some e → match e with PNode _ => i mod 2 = 0 | PEdge _ => i mod 2 = 1 end.

Lemma path_alternates es : path_of es → alternates es.
Proof.
  induction 1 as [np|es ep np Hes [Hlen Hi]].
  - split; [done|]. intros [|i] e; [by intros [= <-]|done].
  - split; [rewrite length_app; change (length [_; _]) with (1 * 2); by rewrite Nat.Div0.mod_add|].
    intros i e [He|[Hge He]]%lookup_app_Some; [by apply Hi|].
    destruct (i - length es) as [|[|k]] eqn:Hk; simpl in He; [injection He as <-..|done].
    + by replace i with (length es) by lia.
    + replace i with (0 + S (length es / 2) * 2) by (pose proof (Nat.div_mod_eq (length es) 2); lia).
      by rewrite Nat.Div0.mod_add.
Qed.

Lemma alternates_valid es : alternates es → validate_pattern_shape es = Ok ().
Proof.
  intros [Hlen Hi]. unfold validate_pattern_shape. destruct es as [|e es]; [done|]. rewrite Hlen. simpl (1 =? 0).
  cbv iota. apply try_each_Ok, Forall_forall. intros [i x] Hx%enumerate_elem_of%Hi. by destruct x; rewrite Hx.
Qed.

(** ** The properties *)

Section theorems.
Context `{Tables : CharTables} {Laws : CharLaws} `{Externals}.

(** C7: Literals never reach the text of a statement: two queries, namespace scopes and
    actors that differ only in what their literals, property names, JSON paths and
    names of relations and kinds say compile to statements with the same tokens, in
    which every literal is closed and every placeholder has its parameter. *)
Theorem compile_injection_safe q q' opts opts' mb mb' c c' :
  query_alike q q' → scope_alike mb mb' → length (opt_scopes opts) = length (opt_scopes opts') →
  hops_usize q → hops_usize q' →
  compile_scoped q opts mb = Ok c → compile_scoped q' opts' mb' = Ok c' →
  ∃ toks, sql_tokens (cq_sql c) = Some toks ∧ sql_tokens (cq_sql c') = Some toks ∧
    length (cq_params c') = length (cq_params c) ∧ Forall (in_range_of (length (cq_params c))) toks.
Proof using Laws.
  intros Hq Hmb Hs Hu Hu' Hc Hc'. destruct (compile_alike _ _ Hs _ _ _ _ _ _ Hq Hmb Hu Hu' Hc Hc') as (Hsql & _ & Hl).
  destruct (part_tokens _ _ _ Hsql) as (toks & H1 & H2 & Hr). by exists toks.
Qed.

(** C8: A statement for a path of fixed length, compiled for some namespaces, keeps to
    them every table it binds to a node and every edge table. Outside literals and
    parentheses it has one [WHERE] clause, which is a conjunction: no conjunct has
    there an [OR], a word that takes the [AND] after it, or the start of another
    clause. Each of those tables has its own conjunct, whose placeholders stand for
    exactly those namespaces. *)
Theorem compile_keeps_namespaces q opts mb c :
  has_variable_length (q_pattern q) = false → opt_scopes opts ≠ [] → compile_scoped q opts mb = Ok c →
  namespaces_kept opts (q_pattern q) c.
Proof using Tables Laws. apply compile_scoped_fixed. Qed.

(** C25: A query the parser accepts passes the shape check of the validator, and after
    validation every one of its conditions, on whatever column, and every one of its
    inline property maps compiles. *)
Theorem parsed_query_compiles text q :
  gql_parse text = Some (Ok q) →
  validate_pattern_shape (q_pattern q) = Ok () ∧
  ∀ v w, validate_with_warnings q = Ok (v, w) →
    Forall (λ c, ∀ col, succeeds (compile_condition_predicate col c)) (conditions (q_where v)) ∧
    Forall (λ np, ∀ a direct, succeeds (compile_props a direct (np_properties np))) (pattern_nodes (q_pattern v)).
Proof using Tables.
  intros Hq%gql_parse_accepted. split; [by apply alternates_valid, path_alternates, accepted_path|].
  intros v w Hv. destruct (validated_written _ _ _ Hq Hv) as [Hc Hp]. split.
  - eapply Forall_impl; [exact Hc|]. intros c Hw col. by apply written_succeeds.
  - eapply Forall_impl; [exact Hp|]. intros np Hm a direct. by apply props_succeed.
Qed.
End theorems.

Module Sample.
Import AsciiTables.
#[export] Instance no_externals : Externals := {|
  Json.from_str _ := Ok VNull; from_str_string _ := Ok ""%string; value_display _ := ""%string; debug_escapes _ := false
|}.

Definition node (v : string) : NodePattern :=
  {| np_variable := Some v; np_kind := None; np_entity_type := None; np_properties := ∅ |}.
Definition query (lit : string) (path : list string) : GqlQuery :=
  {| q_pattern := [PNode (node "a"); PEdge {| ep_variable := Some "e"%string; ep_relations := ["extends"%string];
       ep_direction := Out; ep_min_hops := 1; ep_max_hops := 1 |}; PNode (node "b")];
     q_where := WAnd (WCondition {| cond_variable := "a"; cond_property := Field "name"; cond_op := OpEq; cond_value := CString lit |})
                     (WCondition {| cond_variable := "b"; cond_property := JsonPath path; cond_op := OpContains; cond_value := CString lit |});
     q_return := [RVariable "a"; RProperty "b" "name"]; q_offset := 0; q_limit := None |}.
Definition options (s : string) : CompileOptions := {| opt_scopes := [s; s]; max_limit := 10 |}.
Definition actor (s : string) : option QueryMailboxScope := Some {| actor_id := s; legacy_local_scope := true |}.
Definition attack : string := "x'; DROP TABLE entities; --".

Lemma query_alike_lits lit lit' path path' : query_alike (query lit path) (query lit' path').
Proof.
  assert (∀ v, node_alike (node v) (node v)) as Hn by (intros v; split; [done|constructor..]).
  split; [|by repeat constructor|done]. repeat constructor; simpl; apply Hn || (repeat constructor).
Qed.

Definition compiled (lit : string) (path : list string) : result CompiledQuery QueryError :=
  compile_scoped (query lit path) (options lit) (actor lit).

Lemma compiles_ok : ∀ r, r = compiled "x" ["k"]%string ∨ r = compiled attack ["k"; "l"]%string → ∃ c, r = Ok c.
Proof. intros r [->| ->]; [destruct (compiled "x" _) eqn:Hc|destruct (compiled attack _) eqn:Hc]; eauto; by vm_compute in Hc. Qed.

Lemma compile_injection_safe_witness :
  ∃ c c' toks, compiled "x" ["k"]%string = Ok c ∧ compiled attack ["k"; "l"]%string = Ok c' ∧
    sql_tokens (cq_sql c) = Some toks ∧ sql_tokens (cq_sql c') = Some toks.
Proof.
  destruct (compiles_ok _ (or_introl eq_refl)) as [c Hc]. destruct (compiles_ok _ (or_intror eq_refl)) as [c' Hc'].
  destruct (compile_injection_safe (query "x" ["k"]%string) (query attack ["k"; "l"]%string) (options "x") (options attack)
    (actor "x") (actor attack) c c' (query_alike_lits _ _ _ _)) as (toks & H1 & H2 & _);
    [by constructor|done|by repeat constructor|by repeat constructor|exact Hc|exact Hc'|].
  exists c, c', toks. exact (conj Hc (conj Hc' (conj H1 H2))).
Defined.

Lemma compile_keeps_namespaces_witness : ∃ c, compiled "x" ["k"]%string = Ok c ∧ namespaces_kept (options "x") (q_pattern (query "x" ["k"]%string)) c.
Proof.
  destruct (compiles_ok _ (or_introl eq_refl)) as [c Hc]. exists c. split; [exact Hc|].
  apply (compile_keeps_namespaces (query "x" ["k"]%string) (options "x") (actor "x") c); [reflexivity|discriminate|exact Hc].
Defined.

Lemma parsed_query_compiles_witness :
  ∃ q, gql_parse sample_text = Some (Ok q) ∧ validate_pattern_shape (q_pattern q) = Ok ().
Proof.
  eexists. split; [exact sample_parses|]. apply (parsed_query_compiles sample_text). exact sample_parses.
Defined.

(** The source of a synthetic edge takes the columns of an event even where the
    path reached it over a stored edge: the statement reads [n1.verb], while [n1] is
    a table of nodes, which has no such column. *)
Definition mid_path : GqlQuery :=
  {| q_pattern := [PNode (node "a"); PEdge {| ep_variable := None; ep_relations := ["extends"%string];
       ep_direction := Out; ep_min_hops := 1; ep_max_hops := 1 |}; PNode (node "b");
       PEdge {| ep_variable := None; ep_relations := ["observed_as_target"%string];
       ep_direction := Out; ep_min_hops := 1; ep_max_hops := 1 |}; PNode (node "c")];
     q_where := WTrue; q_return := [RProperty "b" "verb"]; q_offset := 0; q_limit := None |}.

Example mid_path_event :
  match compile mid_path {| opt_scopes := []; max_limit := 10 |} with
  | Ok c => String.prefix "SELECT n1.verb AS" (cq_sql c) = true ∧
            is_Some (String.index 0 (cat ["JOIN "; primary_node_source None "n1"; " ON"]) (cq_sql c))
  | Err _ => False
  end.
Proof. vm_compute. by split; [|eexists]. Qed.
End Sample.
