(* ===== verification/Sparql.v ===== *)
(** khive-query/src/parsers/sparql.rs and language.rs: the SPARQL subset, the
    single path its triples are put together to, and the choice of the language of
    a text. *)

From Stdlib Require Import ZArith Ascii String Lia.
From stdpp Require Import base tactics list numbers strings gmap sorting.
From S2P Require Import Prelude RustStr Rounding Float QueryAst Gql.
Open Scope query_scope.
#[local] Open Scope nat_scope.

Definition SPARQL_WRITE_KEYWORDS : list string :=
  ["INSERT"; "DELETE"; "WITH"; "LOAD"; "CLEAR"; "CREATE"; "DROP"; "COPY"; "MOVE"; "ADD"]%string.

(** ** Triples *)

Inductive Predicate : Type :=
| PType
| PRelation (name : string) (min_hops max_hops : Z).

Inductive Object : Type :=
| OVariable (v : string)
| OKind (k : string)
| OStringLiteral (s : string)
| ONumberLiteral (v : ConditionValue).

Record Triple := { subject : string; predicate : Predicate; object : Object }.

Section parser.
Context `{CharTables}.
Variable input : list char.
#[local] Abbreviation fuel := (fuel input).

Definition parse_var : Parse string :=
  then! skip_whitespace input in
  then! expect_char input "?" in
  parse_ident input.

Definition sparql_hops : Parse (Z * Z) :=
  do! c := peek input in
  if next_is "+" c then then! advance input in pret (1%Z, DEFAULT_HOP_CAP)
  else if next_is "*" c then
    throw (QUnsupported "SPARQL '*' (zero-or-more hops) not yet supported; use '+' or '{min,max}'")
  else if next_is "{" c then
    then! advance input in
    do! min := parse_number input in
    then! expect_char input "," in
    do! max := parse_number input in
    then! expect_char input "}" in
    pret (min, max)
  else pret (1%Z, 1%Z).

Definition relation_predicate : Parse Predicate :=
  then! expect_char input ":" in
  do! name := parse_ident input in
  then! skip_whitespace input in
  do! hops := sparql_hops in
  pret (PRelation name hops.1 hops.2).

Definition parse_predicate : Parse Predicate :=
  then! skip_whitespace input in
  do! c := peek input in
  do! is_type :=
    if next_is "a" c then
      do! start := get_pos in
      then! advance input in
      do! c := peek input in
      match c with
      | Some c => if is_ident_char c then then! set_pos start in pret false else pret true
      | None => pret true
      end
    else pret false in
  if (is_type : bool) then pret PType else relation_predicate.

(** The digits and dots of a number, kept exact as an [i64] where they are one. *)
Definition number_object (c : char) : Parse Object :=
  do! start := get_pos in
  then! (if bool_decide (c = ch "-") then then! advance input in pret () else pret ()) in
  then! skip_while input (λ c, is_digit c || bool_decide (c = ch ".")) in
  do! stop := get_pos in
  let s := concat (slice input start stop) in
  match (if existsb (Ascii.eqb ".") s then None else parse_i64 s) with
  | Some n => pret (ONumberLiteral (CInteger n))
  | None =>
      match parse_f64 s with
      | None => err ("invalid number: " +:+ of_bytes s)
      | Some n => if negb (is_finite n) then err ("float literal '" +:+ of_bytes s +:+ "' is not finite")
                  else pret (ONumberLiteral (CNumber n))
      end
  end.

Definition parse_object : Parse Object :=
  then! skip_whitespace input in
  do! c := peek input in
  let other := err "expected variable (?x), kind (:concept), string, or number" in
  match c with
  | Some c =>
      if decide (c = ch "?") then do! v := parse_var in pret (OVariable v)
      else if decide (c = ch ":") then
        then! advance input in
        do! k := parse_ident input in
        pret (OKind (to_lowercase k))
      else if is_quote c then do! s := parse_string_literal input in pret (OStringLiteral s)
      else if is_digit c || bool_decide (c = ch "-") then number_object c
      else other
  | None => other
  end.

Definition parse_triple : Parse Triple :=
  do! s := parse_var in
  do! p := parse_predicate in
  do! o := parse_object in
  pret {| subject := s; predicate := p; object := o |}.

Fixpoint select_loop (n : nat) (items : list string) : Parse (list string) :=
  match n with
  | 0 => out_of_fuel
  | S n =>
      then! skip_whitespace input in
      do! c := peek input in
      if next_is "?" c then do! v := parse_var in select_loop n (items ++ [v]) else pret items
  end.

Fixpoint triples_loop (n : nat) (triples : list Triple) : Parse (list Triple) :=
  match n with
  | 0 => out_of_fuel
  | S n =>
      then! skip_whitespace input in
      do! c := peek input in
      if next_is "}" c then then! advance input in pret triples
      else
        do! ended :=
          match triples with
          | [] => pret false
          | _ =>
              then! skip_whitespace input in
              do! c := peek input in
              if next_is "." c then
                then! advance input in
                then! skip_whitespace input in
                do! c := peek input in
                if next_is "}" c then then! advance input in pret true else pret false
              else pret false
          end in
        if (ended : bool) then pret triples
        else do! t := parse_triple in triples_loop n (triples ++ [t])
  end.

(** [parse_query] up to the reconstruction of the path. *)
Definition sparql_query : Parse (list Triple * list string * option Z) :=
  then! expect_keyword input "SELECT" in
  do! items := select_loop fuel [] in
  match items with
  | [] => err "SELECT requires at least one variable"
  | _ =>
      then! expect_keyword input "WHERE" in
      then! expect_char input "{" in
      do! triples := triples_loop fuel [] in
      do! limit := parse_limit input in
      then! expect_end input in
      pret (triples, items, limit)
  end.
End parser.

(** ** From triples to a path *)

Record TripleEdge := { te_src : string; te_tgt : string; te_rel : string; te_min : Z; te_max : Z }.

(** What the triples have said so far. *)
Record Gathered := {
  substrate_kinds : gmap string string;
  granular_kinds : gmap string string;
  node_props : gmap string (gmap string ConditionValue);
  t_edges : list TripleEdge;
  where_conds : list Condition
}.
Definition nothing : Gathered :=
  {| substrate_kinds := ∅; granular_kinds := ∅; node_props := ∅; t_edges := []; where_conds := [] |}.

Definition parse_error (message : string) : QueryError := QParse 0 message.

Definition eq_ignore_ascii_case (s t : string) : bool :=
  bool_decide (to_ascii_lowercase <$> to_bytes s = to_ascii_lowercase <$> to_bytes t).

(** Two values of one property agree. *)
Definition agrees (name : string) (existing : ConditionValue) (value : string) : bool :=
  match existing with
  | CString held => if String.eqb name "entity_type" then String.eqb held value else eq_ignore_ascii_case held value
  | _ => false
  end.

Definition insert_string_property_constraint (props : gmap string (gmap string ConditionValue))
    (subject name value : string) : result (gmap string (gmap string ConditionValue)) QueryError :=
  let own := default ∅ (props !! subject) in
  match own !! name with
  | Some existing =>
      if negb (agrees name existing value)
      then Err (parse_error ("conflicting constraints on '?" +:+ subject +:+ " :" +:+ name
                  +:+ "'; repeated predicates must agree"))
      else Ok (<[subject := own]> props)
  | None => Ok (<[subject := <[name := CString value]> own]> props)
  end.

Definition is_substrate (kind : string) : bool := existsb (String.eqb kind) ["entity"; "note"; "event"; "edge"]%string.

Definition insert_kind (kinds : gmap string string) (subject kind : string) : result (gmap string string) QueryError :=
  match kinds !! subject with
  | Some existing =>
      if negb (String.eqb existing kind)
      then Err (parse_error ("conflicting kind constraints on '?" +:+ subject +:+ "'; repeated kinds must agree"))
      else Ok kinds
  | None => Ok (<[subject := kind]> kinds)
  end.

Definition number_condition (subject name : string) (v : ConditionValue) : Condition :=
  {| cond_variable := subject; cond_property := JsonPath [name]; cond_op := OpEq; cond_value := v |}.

Definition with_props (g : Gathered) (p : gmap string (gmap string ConditionValue)) : Gathered :=
  {| substrate_kinds := substrate_kinds g; granular_kinds := granular_kinds g; node_props := p;
     t_edges := t_edges g; where_conds := where_conds g |}.

Definition gather_triple (g : Gathered) (t : Triple) : result Gathered QueryError :=
  match predicate t with
  | PType =>
      match object t with
      | OKind kind =>
          if is_substrate kind
          then let? kinds := insert_kind (substrate_kinds g) (subject t) kind in
               Ok {| substrate_kinds := kinds; granular_kinds := granular_kinds g; node_props := node_props g;
                     t_edges := t_edges g; where_conds := where_conds g |}
          else let? kinds := insert_kind (granular_kinds g) (subject t) kind in
               Ok {| substrate_kinds := substrate_kinds g; granular_kinds := kinds; node_props := node_props g;
                     t_edges := t_edges g; where_conds := where_conds g |}
      | _ => Err (parse_error "'a' predicate requires a kind object (:concept, :paper, etc.)")
      end
  | PRelation name min_hops max_hops =>
      match object t with
      | OVariable target =>
          Ok {| substrate_kinds := substrate_kinds g; granular_kinds := granular_kinds g; node_props := node_props g;
                t_edges := t_edges g ++ [{| te_src := subject t; te_tgt := target; te_rel := name;
                                            te_min := min_hops; te_max := max_hops |}];
                where_conds := where_conds g |}
      | o =>
          if negb (min_hops =? 1)%Z || negb (max_hops =? 1)%Z then
            Err (QUnsupported "SPARQL property predicates require one-hop bounds (1,1); use a variable object for path traversal")
          else
            match o with
            | ONumberLiteral v =>
                Ok {| substrate_kinds := substrate_kinds g; granular_kinds := granular_kinds g;
                      node_props := node_props g; t_edges := t_edges g;
                      where_conds := where_conds g ++ [number_condition (subject t) name v] |}
            | OStringLiteral v | OKind v =>
                let? p := insert_string_property_constraint (node_props g) (subject t) name v in
                Ok (with_props g p)
            | OVariable _ => Ok g
            end
      end
  end.

Fixpoint gather (g : Gathered) (triples : list Triple) : result Gathered QueryError :=
  match triples with
  | [] => Ok g
  | t :: rest => let? g := gather_triple g t in gather g rest
  end.

(** A [BTreeMap] in the order of its keys. *)
Definition entry_le {A} (a b : string * A) : Prop := String.leb a.1 b.1 = true.
#[export] Instance entry_le_dec {A} (a b : string * A) : Decision (entry_le a b) := decide (String.leb a.1 b.1 = true).
Definition entries {A} (m : gmap string A) : list (string * A) := merge_sort entry_le (map_to_list m).

Definition kind_condition (variable kind : string) : Condition :=
  {| cond_variable := variable; cond_property := Field "kind"; cond_op := OpEq; cond_value := CString kind |}.

(** The granular kinds join the substrates, or become conditions beside them. *)
Fixpoint merge_kinds (granular : list (string * string)) (kinds : gmap string string) (conds : list Condition)
    : gmap string string * list Condition :=
  match granular with
  | [] => (kinds, conds)
  | (variable, kind) :: rest =>
      match kinds !! variable with
      | Some _ => merge_kinds rest kinds (conds ++ [kind_condition variable kind])
      | None => merge_kinds rest (<[variable := kind]> kinds) conds
      end
  end.

Definition fold_conditions (conds : list Condition) : WhereExpr :=
  foldl (λ acc cond, match acc with
                     | WTrue => WCondition cond
                     | other => WAnd other (WCondition cond)
                     end) WTrue conds.

(** The first edge from [current], and the others. *)
Fixpoint take_edge (current : string) (edges : list TripleEdge) : option (TripleEdge * list TripleEdge) :=
  match edges with
  | [] => None
  | e :: rest =>
      if String.eqb (te_src e) current then Some (e, rest)
      else match take_edge current rest with Some (f, rest) => Some (f, e :: rest) | None => None end
  end.

(** The edges in the order of the path from [current], and those not used. *)
Fixpoint chain (n : nat) (current : string) (edges : list TripleEdge) : list TripleEdge * list TripleEdge :=
  match n with
  | 0 => ([], edges)
  | S n =>
      match take_edge current edges with
      | Some (e, rest) => let '(ordered, unused) := chain n (te_tgt e) rest in (e :: ordered, unused)
      | None => ([], edges)
      end
  end.

Definition extract_entity_type (props : gmap string ConditionValue)
    : result (option string * gmap string ConditionValue) QueryError :=
  match props !! "entity_type"%string with
  | Some (CString s) => Ok (Some s, delete "entity_type"%string props)
  | Some _ => Err (parse_error "entity_type must be a string literal")
  | None => Ok (None, delete "entity_type"%string props)
  end.

Definition unconnected (var : string) : QueryError :=
  QUnsupported ("SPARQL variable '?" +:+ var +:+ "' has constraints (kind/property) but is not connected to the edge path; disconnected node constraints are not supported").

Definition path_node (kinds : gmap string string) (props : gmap string (gmap string ConditionValue)) (var : string)
    : result PatternElement QueryError :=
  let? (entity_type, own) := extract_entity_type (default ∅ (props !! var)) in
  Ok (PNode {| np_variable := Some var; np_kind := kinds !! var; np_entity_type := entity_type; np_properties := own |}).

Definition path_edge (e : TripleEdge) : PatternElement :=
  PEdge {| ep_variable := None; ep_relations := [te_rel e]; ep_direction := Out;
           ep_min_hops := te_min e; ep_max_hops := te_max e |}.

Fixpoint path_elements (kinds : gmap string string) (props : gmap string (gmap string ConditionValue))
    (edges : list TripleEdge) : result MatchPattern QueryError :=
  match edges with
  | [] => Ok []
  | e :: rest =>
      let? node := path_node kinds props (te_tgt e) in
      let? elements := path_elements kinds props rest in
      Ok (path_edge e :: node :: elements)
  end.

Section triples.
(** The keys of a [HashMap], in its iteration order. *)
Variable keys : gmap string (gmap string ConditionValue) → list string.

Definition triples_to_ast (triples : list Triple) (return_items : list string) (limit : option Z)
    : result GqlQuery QueryError :=
  let? g := gather nothing triples in
  let '(node_kinds, conds) := merge_kinds (entries (granular_kinds g)) (substrate_kinds g) (where_conds g) in
  match t_edges g with
  | [] => Err (parse_error "no edge patterns found — need at least one :relation between variables")
  | first :: _ =>
      let targets : gset string := list_to_set (te_tgt <$> t_edges g) in
      let sources : gset string := list_to_set (te_src <$> t_edges g) in
      let? start :=
        match elements (sources ∖ targets) with
        | [start] => Ok start
        | [] => Ok (te_src first)
        | _ => Err (QUnsupported "SPARQL WHERE block has multiple disconnected components; only single-path patterns are supported")
        end in
      let '(ordered, unused) := chain (length (t_edges g)) start (t_edges g) in
      match unused, ordered with
      | _ :: _, _ => Err (QUnsupported "SPARQL WHERE block is branched or disconnected; only single-path patterns are supported")
      | [], [] => Err (parse_error "could not chain edge patterns into a path")
      | [], e0 :: _ =>
          let path_vars : gset string := list_to_set (te_src <$> ordered) ∪ list_to_set (te_tgt <$> ordered) in
          let outside := List.find (λ var, negb (bool_decide (var ∈ path_vars))) in
          match outside ((entries node_kinds).*1) with
          | Some var => Err (unconnected var)
          | None =>
              match outside (keys (node_props g)) with
              | Some var => Err (unconnected var)
              | None =>
                  let? node := path_node node_kinds (node_props g) (te_src e0) in
                  let? rest := path_elements node_kinds (node_props g) ordered in
                  Ok {| q_pattern := node :: rest; q_where := fold_conditions conds;
                        q_return := RVariable <$> return_items; q_offset := 0; q_limit := limit |}
              end
          end
      end
  end.
End triples.

(** ** language.rs *)

(** The text after the first [c]. *)
Fixpoint after_char (c : char) (l : list char) : option (list char) :=
  match l with
  | [] => None
  | d :: l => if decide (d = c) then Some l else after_char c l
  end.

(** [&rest[n..]], by bytes: [None] is the panic inside a character or past the end. *)
Fixpoint drop_bytes (n : nat) (l : list char) {struct l} : option (list char) :=
  match n, l with
  | 0, _ => Some l
  | _, [] => None
  | _, c :: l => if length c <=? n then drop_bytes (n - length c) l else None
  end.

Definition starts_with (prefix : string) (l : list char) : bool := bool_decide (str_chars prefix `prefix_of` l).

Definition newline : char := [ascii_of_nat 10].

Section language.
Context `{CharTables}.

(** [None] when the fuel runs out or a slice panics. *)
Fixpoint leading_loop (n : nat) (rest : list char) : option string :=
  match n with
  | 0 => None
  | S n =>
      let rest := drop_while is_whitespace rest in
      if next_is "#" (head rest) then leading_loop n (default [] (after_char newline rest))
      else
        let upper := concat (char_to_uppercase <$> take 6 rest) in
        if starts_with "PREFIX" upper || starts_with "BASE" upper then
          rest ← drop_bytes (if starts_with "PREFIX" upper then 6 else 4) rest;
          leading_loop n (default rest (after_char (ch ">") rest))
        else Some (to_uppercase (chars_str (first_word rest)))
  end.
Definition leading_keyword (input : list char) : option string := leading_loop (S (length input)) input.

Definition reject_write_keyword (words : list string) (keyword : string) : result () QueryError :=
  if existsb (String.eqb keyword) words then Err (read_only_error QUnsupported) else Ok ().

Definition reject_sparql_write (input : list char) : option (result () QueryError) :=
  keyword ← leading_keyword input; Some (reject_write_keyword SPARQL_WRITE_KEYWORDS keyword).
Definition reject_write (input : list char) : option (result () QueryError) :=
  keyword ← leading_keyword input;
  Some (reject_write_keyword (GQL_WRITE_KEYWORDS ++ SPARQL_WRITE_KEYWORDS) keyword).

Variable keys : gmap string (gmap string ConditionValue) → list string.

Definition sparql_parse (text : string) : option (result GqlQuery QueryError) :=
  let l := trim_chars (str_chars text) in
  rejected ← reject_sparql_write l;
  match rejected with
  | Err e => Some (Err e)
  | Ok () =>
      r ← run (sparql_query l);
      Some (let? (triples_items, limit) := r in
            let '(triples, items) := (triples_items : list Triple * list string) in
            triples_to_ast keys triples items limit)
  end.

Definition language_parse (language : QueryLanguage) (text : string) : option (result GqlQuery QueryError) :=
  match language with LGql => gql_parse text | LSparql => sparql_parse text end.

Definition detect_language (trimmed : bytes) : QueryLanguage :=
  if bool_decide (to_ascii_lowercase <$> take 6 trimmed = to_bytes "select") then LSparql else LGql.

Definition parse_auto_with_language (text : string) : option (result (QueryLanguage * GqlQuery) QueryError) :=
  let l := trim_chars (str_chars text) in
  rejected ← reject_write l;
  match rejected with
  | Err e => Some (Err e)
  | Ok () =>
      let language := detect_language (concat l) in
      r ← language_parse language (chars_str l);
      Some (let? query := r in Ok (language, query))
  end.
Definition parse_auto (text : string) : option (result GqlQuery QueryError) :=
  r ← parse_auto_with_language text; Some (let? (language, query) := r in Ok query).
End language.

(** ** No conjunct is dropped *)

(** What a triple asks of a query: a kind on its node or a condition, an edge (see
    [sparql_path]), a property of its node, or a condition. *)
Definition node_where (q : GqlQuery) (v : string) (P : NodePattern → Prop) : Prop :=
  ∃ np, np ∈ pattern_nodes (q_pattern q) ∧ np_variable np = Some v ∧ P np.

Definition property_held (np : NodePattern) (name value : string) : Prop :=
  if String.eqb name "entity_type" then np_entity_type np = Some value
  else ∃ held, np_properties np !! name = Some (CString held) ∧ eq_ignore_ascii_case held value = true.

Definition conjunct_kept (q : GqlQuery) (conds : list Condition) (t : Triple) : Prop :=
  match predicate t, object t with
  | PType, OKind kind => node_where q (subject t) (λ np, np_kind np = Some kind) ∨ kind_condition (subject t) kind ∈ conds
  | PType, _ => False
  | PRelation _ _ _, OVariable _ => True
  | PRelation name _ _, ONumberLiteral v => number_condition (subject t) name v ∈ conds
  | PRelation name _ _, (OStringLiteral v | OKind v) => node_where q (subject t) (λ np, property_held np name v)
  end.

Definition triple_edges (triples : list Triple) : list TripleEdge :=
  omap (λ t, match predicate t, object t with
             | PRelation name min_hops max_hops, OVariable target =>
                 Some {| te_src := subject t; te_tgt := target; te_rel := name; te_min := min_hops; te_max := max_hops |}
             | _, _ => None
             end) triples.

(** Edges in the order of a path: each starts where the one before it ends. *)
Fixpoint chained (current : string) (edges : list TripleEdge) : Prop :=
  match edges with [] => True | e :: rest => te_src e = current ∧ chained (te_tgt e) rest end.

Lemma take_edge_spec current edges e rest :
  take_edge current edges = Some (e, rest) → te_src e = current ∧ edges ≡ₚ e :: rest.
Proof.
  revert rest. induction edges as [|f edges IH]; intros rest; [done|]. simpl.
  destruct (String.eqb_spec (te_src f) current) as [Hf|_]; [by intros [= <- <-]|].
  destruct (take_edge current edges) as [[g r]|]; [|done]. intros [= -> <-].
  destruct (IH r eq_refl) as [Hg Hp]. split; [done|]. rewrite Hp. apply Permutation_swap.
Qed.

Lemma chain_spec n current edges ordered unused :
  chain n current edges = (ordered, unused) → chained current ordered ∧ edges ≡ₚ ordered ++ unused.
Proof.
  revert current edges ordered. induction n as [|n IH]; intros current edges ordered; simpl; [by intros [= <- <-]|].
  destruct (take_edge current edges) as [[e rest]|] eqn:He; [|by intros [= <- <-]].
  destruct (chain n (te_tgt e) rest) as [o u] eqn:Ho. intros [= <- <-].
  apply take_edge_spec in He as [Hsrc Hp]. apply IH in Ho as [Hc Hr]. split; [done|]. by rewrite Hp, Hr.
Qed.

(** What the gathered tables hold of a triple. *)
Definition gathered (g : Gathered) (t : Triple) : Prop :=
  match predicate t, object t with
  | PType, OKind kind =>
      if is_substrate kind then substrate_kinds g !! subject t = Some kind else granular_kinds g !! subject t = Some kind
  | PType, _ => False
  | PRelation _ _ _, OVariable _ => True
  | PRelation name _ _, ONumberLiteral v => number_condition (subject t) name v ∈ where_conds g
  | PRelation name _ _, (OStringLiteral v | OKind v) =>
      ∃ own held, node_props g !! subject t = Some own ∧ own !! name = Some (CString held) ∧
        agrees name (CString held) v = true
  end.

Definition props_grow (p p' : gmap string (gmap string ConditionValue)) : Prop :=
  ∀ v own, p !! v = Some own → ∃ own', p' !! v = Some own' ∧ own ⊆ own'.

(** Later triples only add. *)
Definition gathers (g g' : Gathered) : Prop :=
  substrate_kinds g ⊆ substrate_kinds g' ∧ granular_kinds g ⊆ granular_kinds g' ∧
  props_grow (node_props g) (node_props g') ∧ where_conds g ⊆ where_conds g'.

Lemma props_grow_refl p : props_grow p p.
Proof. intros v own Hv. eauto. Qed.

#[export] Instance gathers_preorder : PreOrder gathers.
Proof.
  split.
  - intros g. split_and!; [done|done|apply props_grow_refl|done].
  - intros g1 g2 g3 (H1 & H2 & H3 & H4) (H1' & H2' & H3' & H4'). split_and!; [by etrans|by etrans| |by etrans].
    intros v own Hv. destruct (H3 v own Hv) as (own2 & Hv2 & Hs). destruct (H3' v own2 Hv2) as (own3 & Hv3 & Hs').
    exists own3. split; [done|]. by etrans.
Qed.

Lemma gathered_grows g g' t : gathers g g' → gathered g t → gathered g' t.
Proof.
  intros (Hs & Hg & Hp & Hw). unfold gathered. destruct (predicate t) as [|name lo hi], (object t) as [v|k|s|n]; try done.
  - destruct (is_substrate k); intros Hk; by eapply lookup_weaken.
  - intros (own & held & Ho & Hn & Ha). destruct (Hp _ _ Ho) as (own' & Ho' & Hsub).
    exists own', held. split_and!; [done|by eapply lookup_weaken|done].
  - intros (own & held & Ho & Hn & Ha). destruct (Hp _ _ Ho) as (own' & Ho' & Hsub).
    exists own', held. split_and!; [done|by eapply lookup_weaken|done].
  - intros Hin. by apply Hw.
Qed.

Lemma insert_kind_spec kinds s k kinds' :
  insert_kind kinds s k = Ok kinds' → kinds ⊆ kinds' ∧ kinds' !! s = Some k.
Proof.
  unfold insert_kind. destruct (kinds !! s) as [e|] eqn:Hs.
  - destruct (String.eqb_spec e k) as [->|]; [|done]. by intros [= <-].
  - intros [= <-]. split; [by apply insert_subseteq|apply lookup_insert_eq].
Qed.

Lemma insert_property_spec p s name v p' :
  insert_string_property_constraint p s name v = Ok p' →
  props_grow p p' ∧ ∃ own held, p' !! s = Some own ∧ own !! name = Some (CString held) ∧ agrees name (CString held) v = true.
Proof.
  unfold insert_string_property_constraint. destruct (default ∅ (p !! s) !! name) as [e|] eqn:He.
  - destruct (agrees name e v) eqn:Ha; [|done]. intros [= <-]. split.
    + intros w own Hw. destruct (decide (w = s)) as [->|Hne]; [|rewrite lookup_insert_ne by done; eauto].
      rewrite lookup_insert_eq. rewrite Hw. eauto.
    + destruct e as [held| | | | |]; try done. eexists _, held. split_and!; [apply lookup_insert_eq|done|done].
  - intros [= <-]. split.
    + intros w own Hw. destruct (decide (w = s)) as [->|Hne]; [|rewrite lookup_insert_ne by done; eauto].
      rewrite lookup_insert_eq. rewrite Hw in He |- *. simpl in *. eexists. split; [done|]. by apply insert_subseteq.
    + eexists _, v. split_and!; [apply lookup_insert_eq|apply lookup_insert_eq|].
      unfold agrees. destruct (String.eqb name "entity_type"); [apply String.eqb_refl|].
      unfold eq_ignore_ascii_case. by apply bool_decide_eq_true.
Qed.

Lemma gather_triple_spec g t g' :
  gather_triple g t = Ok g' → gathers g g' ∧ gathered g' t ∧ t_edges g' = t_edges g ++ triple_edges [t].
Proof.
  unfold gather_triple, gathered, triple_edges, gathers. simpl.
  destruct (predicate t) as [|name lo hi], (object t) as [v|k|s|n]; try done.
  - destruct (is_substrate k); intros (kinds & [Hk Hs]%insert_kind_spec & [= <-])%res_bind_Ok; simpl;
      (split; [split_and!; try done; apply props_grow_refl|split; [done|by rewrite app_nil_r]]).
  - intros [= <-]. simpl. split; [split_and!; try done; apply props_grow_refl|done].
  - case_match; [done|]. intros (p & [Hp Hs]%insert_property_spec & [= <-])%res_bind_Ok. simpl.
    split; [split_and!; done|split; [done|by rewrite app_nil_r]].
  - case_match; [done|]. intros (p & [Hp Hs]%insert_property_spec & [= <-])%res_bind_Ok. simpl.
    split; [split_and!; done|split; [done|by rewrite app_nil_r]].
  - case_match; [done|]. intros [= <-]. simpl.
    split; [split_and!; [done|done|apply props_grow_refl|set_solver]|split; [set_solver|by rewrite app_nil_r]].
Qed.

Lemma gather_spec triples g g' :
  gather g triples = Ok g' →
  gathers g g' ∧ Forall (gathered g') triples ∧ t_edges g' = t_edges g ++ triple_edges triples.
Proof.
  revert g. induction triples as [|t triples IH]; intros g; simpl.
  - intros [= <-]. split; [done|]. split; [constructor|by rewrite app_nil_r].
  - intros (g1 & (H1 & Ht & He)%gather_triple_spec & (H2 & Hts & Hes)%IH)%res_bind_Ok.
    split; [by etrans|]. split; [constructor; [by eapply gathered_grows|done]|].
    rewrite Hes, He, <-app_assoc. f_equal. unfold triple_edges. simpl. repeat case_match; done.
Qed.

Lemma merge_kinds_spec granular kinds conds kinds' conds' :
  merge_kinds granular kinds conds = (kinds', conds') →
  kinds ⊆ kinds' ∧ conds ⊆ conds' ∧
  ∀ v k, (v, k) ∈ granular → kinds' !! v = Some k ∨ kind_condition v k ∈ conds'.
Proof.
  revert kinds conds. induction granular as [|[v k] granular IH]; intros kinds conds; simpl.
  - intros [= <- <-]. split_and!; [done|done|]. intros v k []%not_elem_of_nil.
  - destruct (kinds !! v) as [e|] eqn:Hv; intros (Hk & Hc & Hin)%IH.
    + split_and!; [done|set_solver|]. intros v' k' [[= -> ->]|Hr]%elem_of_cons; [right; set_solver|by apply Hin].
    + split_and!; [|done|].
      * etrans; [by apply (insert_subseteq kinds v k)|done].
      * intros v' k' [[= -> ->]|Hr]%elem_of_cons; [left|by apply Hin].
        eapply lookup_weaken; [apply lookup_insert_eq|done].
Qed.

Lemma elem_of_entries {A} (m : gmap string A) v a : (v, a) ∈ entries m ↔ m !! v = Some a.
Proof. unfold entries. rewrite merge_sort_Permutation. apply elem_of_map_to_list. Qed.

(** The edges of a path, in the order of its pattern. *)
Definition path_pattern_edges (edges : list TripleEdge) : list EdgePattern :=
  (λ e, {| ep_variable := None; ep_relations := [te_rel e]; ep_direction := Out;
           ep_min_hops := te_min e; ep_max_hops := te_max e |}) <$> edges.

(** The node of a variable. *)
Definition node_of (kinds : gmap string string) (props : gmap string (gmap string ConditionValue)) (v : string)
    (np : NodePattern) : Prop :=
  np_variable np = Some v ∧ np_kind np = kinds !! v ∧
  ∀ own, props !! v = Some own → np_properties np = delete "entity_type"%string own ∧
    ∀ s, own !! "entity_type"%string = Some (CString s) → np_entity_type np = Some s.

Lemma path_node_spec kinds props v e : path_node kinds props v = Ok e → ∃ np, e = PNode np ∧ node_of kinds props v np.
Proof.
  unfold path_node. intros ([et own] & He & [= <-])%res_bind_Ok. eexists. split; [done|]. split_and!; [done|done|].
  simpl. intros own' Hv. rewrite Hv in He. simpl in He. unfold extract_entity_type in He.
  destruct (own' !! "entity_type"%string) as [[]|] eqn:Ht; simplify_eq; split; naive_solver.
Qed.

Lemma path_elements_spec kinds props edges es :
  path_elements kinds props edges = Ok es →
  pattern_edges es = path_pattern_edges edges ∧
  Forall2 (λ e np, node_of kinds props (te_tgt e) np) edges (pattern_nodes es) ∧ length es = 2 * length edges.
Proof.
  revert es. induction edges as [|e edges IH]; intros es; simpl; [intros [= <-]; by split_and!|].
  intros (n & (np & -> & Hn)%path_node_spec & (rest & (H1 & H2 & H3)%IH & [= <-])%res_bind_Ok)%res_bind_Ok.
  split_and!.
  - unfold pattern_edges in *. simpl. f_equal. exact H1.
  - constructor; [exact Hn|exact H2].
  - simpl. rewrite H3. lia.
Qed.

Lemma node_holds kinds props v np t g :
  node_of kinds props v np → props = node_props g → subject t = v →
  match predicate t, object t with
  | PRelation name _ _, (OStringLiteral s | OKind s) => gathered g t → property_held np name s
  | _, _ => True
  end.
Proof.
  intros (Hv & Hk & Hp) -> Hs. unfold gathered, property_held.
  destruct (predicate t) as [|name lo hi], (object t) as [x|k|s|n]; try done; rewrite Hs.
  all: intros (own & held & Ho & Hn & Ha); destruct (Hp own Ho) as [Hprops Het]; unfold agrees in Ha.
  all: destruct (String.eqb_spec name "entity_type") as [->|Hne].
  1,3: apply String.eqb_eq in Ha as ->; by apply Het.
  all: exists held; split; [|done]; rewrite Hprops; by rewrite lookup_delete_ne.
Qed.

Lemma chained_sources start edges e : chained start edges → e ∈ edges → te_src e ∈ start :: (te_tgt <$> edges).
Proof.
  revert start. induction edges as [|f edges IH]; intros start; simpl; [by intros _ []%not_elem_of_nil|].
  intros [Hf Hc] [->|Hin]%elem_of_cons; [rewrite Hf; apply elem_of_cons; by left|].
  apply elem_of_cons. right. by apply IH.
Qed.

Lemma none_outside (vars : gset string) l :
  List.find (λ v, negb (bool_decide (v ∈ vars))) l = None → ∀ v, v ∈ l → v ∈ vars.
Proof.
  intros Hf v Hv. apply list_elem_of_In, (List.find_none _ _ Hf), negb_false_iff in Hv.
  by eapply bool_decide_eq_true.
Qed.

Section path.
Variable keys : gmap string (gmap string ConditionValue) → list string.
Hypothesis keys_all : ∀ m v, is_Some (m !! v) → v ∈ keys m.

Lemma triples_to_ast_spec triples items limit q :
  triples_to_ast keys triples items limit = Ok q →
  ∃ ordered start conds,
    ordered ≡ₚ triple_edges triples ∧ chained start ordered ∧ ordered ≠ [] ∧
    pattern_edges (q_pattern q) = path_pattern_edges ordered ∧
    np_variable <$> pattern_nodes (q_pattern q) = Some <$> (start :: (te_tgt <$> ordered)) ∧
    q_where q = fold_conditions conds ∧ Forall (conjunct_kept q conds) triples ∧
    q_return q = RVariable <$> items ∧ q_offset q = 0%Z ∧ q_limit q = limit.
Proof using keys_all.
  unfold triples_to_ast. intros (g & (_ & Hg & He)%gather_spec & Hq)%res_bind_Ok. simpl in He.
  destruct (merge_kinds _ _ _) as [kinds conds] eqn:Hm. apply merge_kinds_spec in Hm as (Hkinds & Hconds & Hgran).
  destruct (t_edges g) as [|first es] eqn:Hes; [done|]. rewrite <-Hes in *. clear Hes es.
  apply res_bind_Ok in Hq as (start & _ & Hq).
  destruct (chain _ start _) as [ordered unused] eqn:Hchain. apply chain_spec in Hchain as [Hchained Hperm].
  destruct unused; [|done]. rewrite app_nil_r in Hperm. destruct ordered as [|e0 es] eqn:Ho; [done|].
  rewrite <-Ho in *.
  destruct (List.find _ (entries kinds).*1) as [?|] eqn:Hk; [done|].
  destruct (List.find _ (keys (node_props g))) as [?|] eqn:Hp; [done|].
  apply res_bind_Ok in Hq as (n & (np & -> & Hnp)%path_node_spec & Hq).
  apply res_bind_Ok in Hq as (rest & (H1 & H2 & H3)%path_elements_spec & [= <-]). simpl.
  assert (te_src e0 = start) as Hsrc by (rewrite Ho in Hchained; apply Hchained). rewrite Hsrc in Hnp.
  (* every variable of the path has its node *)
  assert (∀ v, v ∈ start :: (te_tgt <$> ordered) → ∃ np', np' ∈ np :: pattern_nodes rest ∧ node_of kinds (node_props g) v np') as Hnode.
  { intros v [->|Hv]%elem_of_cons; [exists np; split; [apply elem_of_cons; by left|done]|].
    apply list_elem_of_fmap in Hv as (e & -> & Hin). apply list_elem_of_lookup in Hin as [i Hi].
    destruct (Forall2_lookup_l _ _ _ _ _ H2 Hi) as (np' & Hi' & Hn). exists np'. split; [|done].
    apply elem_of_cons. right. by eapply list_elem_of_lookup_2. }
  assert (∀ v, v ∈ (list_to_set (te_src <$> ordered) ∪ list_to_set (te_tgt <$> ordered) : gset string) →
    v ∈ start :: (te_tgt <$> ordered)) as Hpath.
  { intros v [Hv|Hv]%elem_of_union; apply elem_of_list_to_set in Hv.
    - apply list_elem_of_fmap in Hv as (e & -> & Hin). by apply chained_sources.
    - apply elem_of_cons. by right. }
  assert (∀ v k, kinds !! v = Some k → v ∈ start :: (te_tgt <$> ordered)) as Hkp.
  { intros v k Hv. apply Hpath, (none_outside _ _ Hk).
    apply list_elem_of_fmap. exists (v, k). split; [done|]. by apply elem_of_entries. }
  assert (∀ v own, node_props g !! v = Some own → v ∈ start :: (te_tgt <$> ordered)) as Hpp.
  { intros v own Hv. apply Hpath, (none_outside _ _ Hp), keys_all. by exists own. }
  exists ordered, start, conds. split_and!; try done.
  - by rewrite <-Hperm, He.
  - by rewrite Ho.
  - f_equal; [apply Hnp|]. clear -H2. induction H2 as [|e n es ns Hn Hns IH]; [done|]. simpl. f_equal; [apply Hn|exact IH].
  - eapply Forall_impl; [exact Hg|]. intros t Ht. pose proof Ht as Hheld. unfold conjunct_kept, gathered in *.
    assert (∀ own, node_props g !! subject t = Some own → ∃ np', np' ∈ np :: pattern_nodes rest ∧
      node_of kinds (node_props g) (subject t) np') as Hown by (intros own Hv; by eapply Hnode, Hpp).
    destruct (predicate t) as [|name lo hi] eqn:Hpt, (object t) as [v|k|s|n] eqn:Hot; try done; simpl.
    + assert (kinds !! subject t = Some k ∨ kind_condition (subject t) k ∈ conds) as [Hkind|?]; [|left|by right].
      { destruct (is_substrate k); [left; by eapply lookup_weaken|]. by apply Hgran, elem_of_entries. }
      destruct (Hnode _ (Hkp _ _ Hkind)) as (np' & Hin & Hv & Hk' & _). exists np'. split_and!; [done|done|congruence].
    + destruct Ht as (own & _ & Hv & _). destruct (Hown _ Hv) as (np' & Hin & Hn). exists np'.
      split_and!; [done|apply Hn|]. pose proof (node_holds _ _ _ _ t g Hn eq_refl eq_refl) as Hh.
      rewrite Hpt, Hot in Hh. apply Hh. unfold gathered. by rewrite Hpt, Hot.
    + destruct Ht as (own & _ & Hv & _). destruct (Hown _ Hv) as (np' & Hin & Hn). exists np'.
      split_and!; [done|apply Hn|]. pose proof (node_holds _ _ _ _ t g Hn eq_refl eq_refl) as Hh.
      rewrite Hpt, Hot in Hh. apply Hh. unfold gathered. by rewrite Hpt, Hot.
    + by apply Hconds.
Qed.
End path.

(** ** The parser answers *)

Ltac triples_spend :=
  first
    [ solve [auto with good]
    | solve [apply good_weaken; auto with good]
    | good_case; triples_spend
    | apply good_bind_strict; [solve [auto with good]|intros ?; good_walk]
    | apply good_bind; [good_walk|intros ?; triples_spend] ].

Section answers.
Context `{CharTables}.
Variable input : list char.
#[local] Abbreviation good := (good input).

Lemma good_parse_var n : good true n (parse_var input).
Proof. unfold parse_var. good_walk. Qed.
#[local] Hint Resolve good_parse_var good_expect_keyword good_limit good_end : good.

Lemma good_sparql_hops n : good false n (sparql_hops input).
Proof. unfold sparql_hops. good_walk. Qed.
#[local] Hint Resolve good_sparql_hops : good.
Lemma good_relation_predicate n : good true n (relation_predicate input).
Proof. unfold relation_predicate. good_walk. Qed.
#[local] Hint Resolve good_relation_predicate : good.

(** The look ahead past [a] gives its character back unless it stood alone. *)
Lemma good_parse_predicate n : good false n (parse_predicate input).
Proof.
  unfold parse_predicate. apply good_bind; [auto with good|intros ?]. apply good_bind; [auto with good|intros c].
  apply good_bind; [|intros []; good_walk]. destruct (next_is "a" c); [|auto with good].
  intros pos Hp Hn. unfold pbind, get_pos.
  pose proof (good_advance input n pos Hp Hn) as Ha. destruct (advance input pos) as [[[d p1]|]|]; [|done|done].
  unfold peek. cbn. destruct (input !! p1) as [d'|]; [|unfold pret; lia].
  destruct (is_ident_char d'); unfold set_pos, pret; cbn; lia.
Qed.

Lemma good_number_object n c : good false n (number_object input c).
Proof.
  unfold number_object. apply good_bind; [auto with good|intros start]. apply good_bind; [good_walk|intros ?].
  apply good_bind; [auto with good|intros ?]. apply good_bind; [auto with good|intros stop]. cbv zeta.
  destruct (if existsb _ _ then None else parse_i64 _); [auto with good|]. good_walk.
Qed.
#[local] Hint Resolve good_parse_predicate good_number_object : good.

Lemma good_parse_object n : good false n (parse_object input).
Proof. unfold parse_object. cbv zeta. good_walk. Qed.
#[local] Hint Resolve good_parse_object : good.
Lemma good_parse_triple n : good true n (parse_triple input).
Proof. unfold parse_triple. good_walk. Qed.
#[local] Hint Resolve good_parse_triple : good.
Lemma good_select_loop n l : good false n (select_loop input (fuel input) l).
Proof. apply (good_loop input (select_loop input)); [done|]. intros ? ? ?. simpl. triples_spend. Qed.
Lemma good_triples_loop n l : good false n (triples_loop input (fuel input) l).
Proof. apply (good_loop input (triples_loop input)); [done|]. intros ? ? ?. simpl. triples_spend. Qed.
#[local] Hint Resolve good_select_loop good_triples_loop : good.
Lemma good_sparql_query n : good false n (sparql_query input).
Proof. unfold sparql_query. good_walk. Qed.
End answers.

(** *** The prologue *)

Definition ascii_char (c : char) : Prop := ∃ b, c = [b] ∧ (byte b < 128)%Z.

Section prologue.
Context `{Tables : CharTables} {Laws : CharLaws}.

Lemma after_char_suffix c l rest : after_char c l = Some rest → rest `suffix_of` l.
Proof.
  induction l as [|d l IH]; simpl; [done|]. case_decide; [intros [= <-]; by apply suffix_cons_r|].
  intros Hr. by apply suffix_cons_r, IH.
Qed.
Lemma drop_while_suffix {A} (f : A → bool) l : drop_while f l `suffix_of` l.
Proof. induction l as [|a l IH]; simpl; [done|]. destruct (f a); [by apply suffix_cons_r|done]. Qed.

Lemma ascii_suffix l l' : l' `suffix_of` l → Forall ascii_char l → Forall ascii_char l'.
Proof. intros [k ->]. by intros [_ H]%Forall_app. Qed.

Lemma drop_bytes_ascii n l : Forall ascii_char l → n ≤ length l → drop_bytes n l = Some (drop n l).
Proof.
  intros Hl. revert n. induction Hl as [|c l (b & -> & _) _ IH]; intros [|n]; simpl; intros Hn; try done; [lia|].
  rewrite Nat.sub_0_r. apply IH. lia.
Qed.

Lemma upper_ascii_length l : Forall ascii_char l → length (concat (char_to_uppercase <$> l)) = length l.
Proof using Laws.
  induction 1 as [|c l (b & -> & Hb) _ IH]; [done|].
  rewrite fmap_cons, (ascii_uppercase b Hb). cbn [List.concat]. rewrite length_app, IH. done.
Qed.

(** A prologue word that is there can be skipped. *)
Lemma starts_with_long prefix l :
  Forall ascii_char l → starts_with prefix (concat (char_to_uppercase <$> take 6 l)) = true →
  length (str_chars prefix) ≤ length l.
Proof using Laws.
  intros Hl [k Hk]%bool_decide_eq_true. apply (f_equal length) in Hk.
  rewrite upper_ascii_length, length_app, length_take in Hk by by apply Forall_take. lia.
Qed.

Lemma leading_loop_total n l : Forall ascii_char l → length l < n → is_Some (leading_loop n l).
Proof using Laws.
  revert l. induction n as [|n IH]; intros l Hl Hn; [lia|]. simpl.
  pose proof (drop_while_suffix is_whitespace l) as Hs. generalize dependent (drop_while is_whitespace l). intros rest Hs.
  pose proof (ascii_suffix _ _ Hs Hl) as Hr. apply suffix_length in Hs.
  destruct (next_is "#" (head rest)) eqn:Hc.
  - apply IH; destruct (after_char newline rest) as [r|] eqn:Ha; simpl; [|constructor| |].
    + apply after_char_suffix in Ha. by eapply ascii_suffix.
    + destruct rest as [|d rest]; [done|]. simpl in Ha. case_decide as Hd.
      * injection Ha as <-. unfold char in *. simpl in Hs. lia.
      * apply after_char_suffix, suffix_length in Ha. unfold char in *. simpl in Hs. lia.
    + destruct rest; [done|unfold char in *; simpl in Hs; lia].
  - assert (∀ k, 0 < k → k ≤ length rest →
      is_Some (rest ← drop_bytes k rest; leading_loop n (default rest (after_char (ch ">") rest)))) as Hskip.
    { intros k Hk Hlen. rewrite drop_bytes_ascii by done. simpl. unfold char in *.
      assert (drop k rest `suffix_of` rest) as Hd by (exists (take k rest); by rewrite take_drop).
      destruct (after_char (ch ">") (drop k rest)) as [r|] eqn:Ha; simpl.
      - apply after_char_suffix in Ha. apply IH; [apply (ascii_suffix rest); [transitivity (drop k rest)|]; done|].
        apply suffix_length in Ha. rewrite length_drop in Ha. unfold char in *. lia.
      - apply IH; [by eapply ascii_suffix|]. rewrite length_drop. unfold char in *. lia. }
    destruct (starts_with "PREFIX" _) eqn:Hp; simpl.
    + apply Hskip; [lia|]. by apply (starts_with_long "PREFIX") in Hp.
    + destruct (starts_with "BASE" _) eqn:Hb; [|done]. apply Hskip; [lia|]. by apply (starts_with_long "BASE") in Hb.
Qed.

Lemma leading_keyword_total l : Forall ascii_char l → ∃ w, leading_keyword l = Some w.
Proof using Laws. intros Hl. destruct (leading_loop_total (S (length l)) l Hl) as [w Hw]; [lia|]. by exists w. Qed.

Lemma ascii_trimmed text : is_ascii (to_bytes text) = true → Forall ascii_char (trim_chars (str_chars text)).
Proof.
  intros Ha. unfold trim_chars, str_chars. apply Forall_rev.
  eapply ascii_suffix; [apply drop_while_suffix|]. apply Forall_rev.
  eapply ascii_suffix; [apply drop_while_suffix|]. rewrite chars_ascii by done.
  apply Forall_fmap. unfold is_ascii in Ha. 
  apply List.Forall_forall. intros b Hb. rewrite forallb_forall in Ha. exists b. split; [done|]. by apply Z.ltb_lt, Ha.
Qed.

Variable keys : gmap string (gmap string ConditionValue) → list string.

Lemma sparql_parse_total text : is_ascii (to_bytes text) = true → ∃ r, sparql_parse keys text = Some r.
Proof using Laws.
  intros Ha%ascii_trimmed. unfold sparql_parse, reject_sparql_write. destruct (leading_keyword_total _ Ha) as [w ->].
  simpl. destruct (reject_write_keyword _ _) as [[]|]; [|eauto].
  destruct (run_good _ _ (good_sparql_query (trim_chars (str_chars text)) _)) as [r ->]. simpl. eauto.
Qed.
End prologue.

(** ** The claims *)

(** A query whose pattern is one path through the edge triples, each used once, whose
    nodes and conditions hold every other triple. *)
Definition sparql_path (triples : list Triple) (q : GqlQuery) : Prop :=
  ∃ ordered start conds,
    ordered ≡ₚ triple_edges triples ∧ ordered ≠ [] ∧ chained start ordered ∧
    pattern_edges (q_pattern q) = path_pattern_edges ordered ∧
    np_variable <$> pattern_nodes (q_pattern q) = Some <$> (start :: (te_tgt <$> ordered)) ∧
    q_where q = fold_conditions conds ∧ Forall (conjunct_kept q conds) triples.

Section claims.
Context `{Tables : CharTables} {Laws : CharLaws}.
Variable keys : gmap string (gmap string ConditionValue) → list string.

(** C26: An accepted SPARQL text is not an update, and no conjunct of its WHERE block is
    dropped: its triples between variables are the edges of one path, each exactly
    once with its relation and hop bounds, and every kind, string and number it asks
    of a variable is a constraint of that variable's node or a condition of the
    query. *)
Theorem sparql_keeps_conjuncts text q :
  (∀ m v, is_Some (m !! v) → v ∈ keys m) →
  sparql_parse keys text = Some (Ok q) →
  ∃ triples items limit word,
    leading_keyword (trim_chars (str_chars text)) = Some word ∧ (word ∉ SPARQL_WRITE_KEYWORDS) ∧
    run (sparql_query (trim_chars (str_chars text))) = Some (Ok (triples, items, limit)) ∧
    sparql_path triples q ∧ q_return q = RVariable <$> items ∧ q_limit q = limit ∧ q_offset q = 0%Z.
Proof.
  intros Hkeys. unfold sparql_parse, reject_sparql_write.
  destruct (leading_keyword _) as [word|] eqn:Hw; [|done]. simpl. unfold reject_write_keyword.
  destruct (existsb _ _) eqn:Hx; [done|]. destruct (run _) as [[[[triples items] limit]|]|] eqn:Hr; [|done..].
  simpl. intros [= Hq]. apply triples_to_ast_spec in Hq; [|exact Hkeys].
  destruct Hq as (ordered & start & conds & Hp & Hc & Hne & He & Hn & Hwh & Hf & Hret & Hoff & Hlim).
  exists triples, items, limit, word. split_and!; try done; [|by exists ordered, start, conds].
  intros Hin. apply not_true_iff_false in Hx. apply Hx, existsb_exists. exists word.
  split; [by apply list_elem_of_In|apply String.eqb_refl].
Qed.

Lemma ascii_trimmed_text text :
  is_ascii (to_bytes text) = true → is_ascii (to_bytes (chars_str (trim_chars (str_chars text)))) = true.
Proof.
  intros Ha%ascii_trimmed. unfold chars_str. rewrite to_of_bytes. apply forallb_forall.
  intros b (c & Hc & Hb)%List.in_concat. rewrite List.Forall_forall in Ha.
  apply Ha in Hc as (b' & -> & Hlt). destruct Hb as [<-|[]]. by apply Z.ltb_lt.
Qed.

(** C27: The GQL parser answers for every text, and for ASCII text so do the SPARQL
    parser, its prologue skipping included, and the detection of the language: a
    query or an error, never a loop and never a slice past the end. *)
Theorem parsers_total text :
  (∃ r, gql_parse text = Some r) ∧
  (is_ascii (to_bytes text) = true →
   (∃ r, sparql_parse keys text = Some r) ∧ ∃ r, parse_auto_with_language keys text = Some r).
Proof using Laws.
  assert (∀ t, ∃ r, gql_parse t = Some r) as Hg by apply gql_parse_answers.
  split; [apply Hg|]. intros Ha. split; [by apply sparql_parse_total|].
  unfold parse_auto_with_language, reject_write. destruct (leading_keyword_total _ (ascii_trimmed _ Ha)) as [w ->].
  simpl. destruct (reject_write_keyword _ _) as [[]|]; [|eauto].
  assert (∃ r, language_parse keys (detect_language (concat (trim_chars (str_chars text))))
                 (chars_str (trim_chars (str_chars text))) = Some r) as [r ->]; [|simpl; eauto].
  destruct (detect_language _); [apply Hg|]. by apply sparql_parse_total, ascii_trimmed_text.
Qed.
End claims.

(** A path written back to front, with a property, an entity type and a number. *)
Module SparqlSample.
Import AsciiTables.
Definition no_order (m : gmap string (gmap string ConditionValue)) : list string := (map_to_list m).*1.

Definition sparql_sample : string :=
  "select ?a ?c where { ?b :part_of{1,3} ?c . ?a a :entity . ?a a :concept . ?a :extends ?b . ?c :entity_type 'paper' . ?c :year -7 . } limit 5".

Definition sample_query : GqlQuery := {|
  q_pattern :=
    [PNode {| np_variable := Some "a"; np_kind := Some "entity"; np_entity_type := None; np_properties := ∅ |};
     PEdge {| ep_variable := None; ep_relations := ["extends"]; ep_direction := Out; ep_min_hops := 1; ep_max_hops := 1 |};
     PNode {| np_variable := Some "b"; np_kind := None; np_entity_type := None; np_properties := ∅ |};
     PEdge {| ep_variable := None; ep_relations := ["part_of"]; ep_direction := Out; ep_min_hops := 1; ep_max_hops := 3 |};
     PNode {| np_variable := Some "c"; np_kind := None; np_entity_type := Some "paper"; np_properties := ∅ |}];
  q_where :=
    WAnd (WCondition {| cond_variable := "c"; cond_property := JsonPath ["year"]; cond_op := OpEq; cond_value := CInteger (-7) |})
         (WCondition {| cond_variable := "a"; cond_property := Field "kind"; cond_op := OpEq; cond_value := CString "concept" |});
  q_return := [RVariable "a"; RVariable "c"]; q_offset := 0; q_limit := Some 5%Z
|}%string%Z.

Example sparql_sample_parses : sparql_parse no_order sparql_sample = Some (Ok sample_query).
Proof. vm_compute. reflexivity. Qed.

(** Any text but a bare SELECT is refused: an update behind a prologue as an update,
    a branch and a node off the path as what the path cannot hold. *)
Example sparql_refusals :
  parse_auto_with_language no_order "PREFIX x: <http://a> delete where" = Some (Err (read_only_error QUnsupported)) ∧
  sparql_parse no_order "PREFIX x: <http://a> select ?a where { ?a :r ?b }" = Some (Err (QParse 0 "expected keyword 'SELECT'")) ∧
  (∃ why, sparql_parse no_order "select ?a where { ?a :r ?b . ?a :r ?c }" = Some (Err (QUnsupported why))) ∧
  (∃ why, sparql_parse no_order "select ?a where { ?a :r ?b . ?c a :concept }" = Some (Err (QUnsupported why))) ∧
  (∃ why, sparql_parse no_order "select ?a where { ?a :r* ?b }" = Some (Err (QUnsupported why))).
Proof. split_and!; try (by vm_compute); eexists; vm_compute; reflexivity. Qed.

Lemma sparql_keeps_conjuncts_witness :
  ∃ triples items limit word,
    leading_keyword (trim_chars (str_chars sparql_sample)) = Some word ∧ (word ∉ SPARQL_WRITE_KEYWORDS) ∧
    run (sparql_query (trim_chars (str_chars sparql_sample))) = Some (Ok (triples, items, limit)) ∧
    sparql_path triples sample_query ∧ q_return sample_query = RVariable <$> items ∧
    q_limit sample_query = limit ∧ q_offset sample_query = 0%Z.
Proof.
  apply (sparql_keeps_conjuncts no_order sparql_sample sample_query); [|vm_compute; reflexivity].
  intros m v [x Hx]. apply list_elem_of_fmap. exists (v, x). split; [done|by apply elem_of_map_to_list].
Defined.

Lemma parsers_total_witness :
  (∃ r, sparql_parse no_order sparql_sample = Some r) ∧ ∃ r, parse_auto_with_language no_order sparql_sample = Some r.
Proof. destruct (parsers_total no_order sparql_sample) as [_ Hs]. apply Hs. vm_compute. reflexivity. Defined.
End SparqlSample.
