(* ===== verification/Fold.v ===== *)
(** khive-fold/src/error.rs, context.rs, result.rs, fold.rs and compose.rs: folds of
    logs of entries, those the crate provides and those it composes.

    A fold is an instance of [Fold]; [reduce] is [None] where the code panics. Its
    context carries a time of chrono's, whose type is a parameter. *)

From Stdlib Require Import ZArith String.
From stdpp Require Import base tactics list numbers strings.
From S2P Require Import Prelude Json Archive Float Score.
#[local] Open Scope Z_scope.

(** ** error.rs *)

Inductive FoldError : Type :=
| EntryNotFound (entry : Uuid)
| InvalidEntryType (expected actual : string)
| InvalidContext (message : string)
| Serialization (error : serde_error)
| Storage (message : string)
| LockPoisoned (message : string)
| InvalidInput (message : string)
| BudgetExhausted (needed budget : N)
| AnchorNotFound (anchor : string)
| ComponentMissing (component : string)
| IntegrityMismatch (checkpoint stored computed : string)
| CheckpointNotFound (checkpoint : string).

(** ** context.rs and result.rs *)

Record FoldContext (DateTime : Type) := {
  as_of : DateTime;
  correlation_id : option Uuid;
  extra : Value
}.
Arguments Build_FoldContext {DateTime}.
Arguments as_of {DateTime} _.
Arguments correlation_id {DateTime} _.
Arguments extra {DateTime} _.

Record FoldOutcome (S : Type) := { state : S; entries_processed : nat }.
Arguments Build_FoldOutcome {S}.
Arguments state {S} _.
Arguments entries_processed {S} _.

Definition FoldOutcome_map {S T} (f : S → T) (self : FoldOutcome S) : FoldOutcome T :=
  {| state := f (state self); entries_processed := entries_processed self |}.

Section contexts.
Context {DateTime : Type} (epoch : DateTime).
Abbreviation FoldContext := (FoldContext DateTime).

Definition FoldContext_new : FoldContext := {| as_of := epoch; correlation_id := None; extra := VNull |}.
Definition FoldContext_at (t : DateTime) : FoldContext := {| as_of := t; correlation_id := None; extra := VNull |}.
Definition with_correlation_id (self : FoldContext) (i : Uuid) : FoldContext :=
  {| as_of := as_of self; correlation_id := Some i; extra := extra self |}.
Definition FoldContext_with_extra (self : FoldContext) (v : Value) : FoldContext :=
  {| as_of := as_of self; correlation_id := correlation_id self; extra := v |}.
End contexts.

(** ** fold.rs *)

Class Fold (C F L S : Type) := {
  init : F → C → S;
  reduce : F → S → L → C → option S;
  finalize : F → S → C → S
}.

Inductive FoldFailure : Type := StateMismatch (expected actual : string).

(** [TryFold: Fold] *)
Class TryFold (C F L S : Type) `{Fold C F L S} := try_step : F → S → L → C → result S FoldFailure.

Inductive CountFold (L : Type) : Type := Counting.
Record FilterCountFold (L : Type) := { count_predicate : L → bool }.
Record SumI64Fold (L : Type) := { project : L → Z }.
Record AnyFold (L : Type) := { any_predicate : L → bool }.

Inductive CommonFold (L : Type) : Type :=
| Count (inner : CountFold L)
| FilterCount (inner : FilterCountFold L)
| SumI64 (inner : SumI64Fold L)
| Any (inner : AnyFold L).
Arguments Count {L} inner.
Arguments FilterCount {L} inner.
Arguments SumI64 {L} inner.
Arguments Any {L} inner.

Record FnFold (C L S : Type) := {
  initial_fn : C → S;
  step_fn : S → L → C → S;
  finalize_fn : S → C → S
}.
Arguments Build_FnFold {C L S}.
Arguments initial_fn {C L S} _.
Arguments step_fn {C L S} _.
Arguments finalize_fn {C L S} _.
Section folds.
Context {C : Type}.

Section derive.
Context {F L S : Type} `{Fold C F L S}.

Fixpoint derive_loop (self : F) (context : C) (entries : list L) (st : S) (count : nat) : option (S * nat) :=
  match entries with
  | [] => Some (st, count)
  | entry :: entries => st ← reduce self st entry context; derive_loop self context entries st (count + 1)
  end.

Definition derive (self : F) (entries : list L) (context : C) : option (FoldOutcome S) :=
  '(st, count) ← derive_loop self context entries (init self context) 0;
  Some {| state := finalize self st context; entries_processed := count |}.

Fixpoint derive_filtered_loop (self : F) (context : C) (filter : L → bool) (entries : list L) (st : S) (count : nat)
    : option (S * nat) :=
  match entries with
  | [] => Some (st, count)
  | entry :: entries =>
      if filter entry then st ← reduce self st entry context; derive_filtered_loop self context filter entries st (count + 1)
      else derive_filtered_loop self context filter entries st count
  end.

Definition derive_filtered (self : F) (entries : list L) (context : C) (filter : L → bool) : option (FoldOutcome S) :=
  '(st, count) ← derive_filtered_loop self context filter entries (init self context) 0;
  Some {| state := finalize self st context; entries_processed := count |}.
End derive.

#[export] Instance FnFold_Fold {L S} : Fold C (FnFold C L S) L S := {
  init := initial_fn;
  reduce self st entry context := Some (step_fn self st entry context);
  finalize := finalize_fn
}.
#[export] Instance FnFold_TryFold {L S} : TryFold C (FnFold C L S) L S :=
  λ self st entry context, Ok (step_fn self st entry context).
Definition fold_fn {L S} (initial : C → S) (step : S → L → C → S) : FnFold C L S :=
  {| initial_fn := initial; step_fn := step; finalize_fn := λ s _, s |}.

(** [usize::saturating_add] and [i64::saturating_add] *)
Definition usize_saturating_add (a b : Z) : Z := Z.min USIZE_MAX (a + b).
Definition i64_saturating_add (a b : Z) : Z := clampZ I64_MIN I64_MAX (a + b).

#[export] Instance CountFold_Fold {L} : Fold C (CountFold L) L Z := {
  init _ _ := 0;
  reduce _ st _ _ := Some (usize_saturating_add st 1);
  finalize _ st _ := st
}.
#[export] Instance FilterCountFold_Fold {L} : Fold C (FilterCountFold L) L Z := {
  init _ _ := 0;
  reduce self st entry _ := Some (if count_predicate L self entry then usize_saturating_add st 1 else st);
  finalize _ st _ := st
}.
#[export] Instance SumI64Fold_Fold {L} : Fold C (SumI64Fold L) L Z := {
  init _ _ := 0;
  reduce self st entry _ := Some (i64_saturating_add st (project L self entry));
  finalize _ st _ := st
}.
#[export] Instance AnyFold_Fold {L} : Fold C (AnyFold L) L bool := {
  init _ _ := false;
  reduce self st entry _ := Some (st || any_predicate L self entry);
  finalize _ st _ := st
}.

Inductive CommonFoldState : Type := SCount (count : Z) | SSumI64 (sum : Z) | SAny (any : bool).

Definition CommonFoldState_kind (self : CommonFoldState) : string :=
  match self with SCount _ => "Count" | SSumI64 _ => "SumI64" | SAny _ => "Any" end.

Section common.
Context {L : Type}.

Definition expected_state_kind (self : CommonFold L) : string :=
  match self with Count _ | FilterCount _ => "Count" | SumI64 _ => "SumI64" | Any _ => "Any" end.

(** An inner fold that panics would be [None]; those of [CommonFold] do not. *)
Definition CommonFold_try_step (self : CommonFold L) (st : CommonFoldState) (entry : L) (context : C)
    : option (result CommonFoldState FoldFailure) :=
  match self, st with
  | Count inner, SCount n => n ← reduce inner n entry context; Some (Ok (SCount n))
  | FilterCount inner, SCount n => n ← reduce inner n entry context; Some (Ok (SCount n))
  | SumI64 inner, SSumI64 n => n ← reduce inner n entry context; Some (Ok (SSumI64 n))
  | Any inner, SAny b => b ← reduce inner b entry context; Some (Ok (SAny b))
  | kind, st => Some (Err (StateMismatch (expected_state_kind kind) (CommonFoldState_kind st)))
  end.

(** [unwrap_or_else(|err| panic!("{err}"))] *)
#[export] Instance CommonFold_Fold : Fold C (CommonFold L) L CommonFoldState := {
  init self _ := match self with Count _ | FilterCount _ => SCount 0 | SumI64 _ => SSumI64 0 | Any _ => SAny false end;
  reduce self st entry context :=
    r ← CommonFold_try_step self st entry context;
    match r with Ok st => Some st | Err _ => None end;
  finalize _ st _ := st
}.
End common.

(** ** compose.rs *)

Record SequentialFold (F1 F2 S1 : Type) := { seq_first : F1; seq_second : F2; context_mapper : S1 → C → C }.
Record DualFold (F1 F2 : Type) := { dual_fold1 : F1; dual_fold2 : F2 }.
Record FilterFold (F L : Type) := { filter_inner : F; filter_predicate : L → bool }.
Record MapFold (F L1 L2 : Type) := { map_inner : F; map_mapper : L1 → L2 }.

Definition SequentialFold_execute {F1 F2 L S1 S2} `{Fold C F1 L S1} `{Fold C F2 L S2} (self : SequentialFold F1 F2 S1)
    (entries : list L) (context : C) : option (FoldOutcome S1 * FoldOutcome S2) :=
  result1 ← derive (seq_first _ _ _ self) entries context;
  let context2 := context_mapper _ _ _ self (state result1) context in
  result2 ← derive (seq_second _ _ _ self) entries context2;
  Some (result1, result2).

Definition DualFold_execute {F1 F2 L S1 S2} `{Fold C F1 L S1} `{Fold C F2 L S2} (self : DualFold F1 F2)
    (entries : list L) (context : C) : option (FoldOutcome S1 * FoldOutcome S2) :=
  result1 ← derive (dual_fold1 _ _ self) entries context;
  result2 ← derive (dual_fold2 _ _ self) entries context;
  Some (result1, result2).

#[export] Instance FilterFold_Fold {F L S} `{Fold C F L S} : Fold C (FilterFold F L) L S := {
  init self := init (filter_inner _ _ self);
  reduce self st entry context :=
    if filter_predicate _ _ self entry then reduce (filter_inner _ _ self) st entry context else Some st;
  finalize self := finalize (filter_inner _ _ self)
}.

#[export] Instance MapFold_Fold {F L1 L2 S} `{Fold C F L2 S} : Fold C (MapFold F L1 L2) L1 S := {
  init self := init (map_inner _ _ _ self);
  reduce self st entry context := reduce (map_inner _ _ _ self) st (map_mapper _ _ _ self entry) context;
  finalize self := finalize (map_inner _ _ _ self)
}.
End folds.

(** ** Facts *)

Lemma derive_loop_count {C F L S} `{Fold C F L S} (self : F) (context : C) (entries : list L) st n (s : S) m :
  derive_loop self context entries st n = Some (s, m) → m = (n + length entries)%nat.
Proof.
  revert st n. induction entries as [|x l IH]; intros st n; simpl; [intros [= <- <-]; lia|].
  destruct (reduce self st x context) as [s'|]; simpl; [|done]. intros ->%IH. lia.
Qed.

Section fold_facts.
Context {C F L S : Type} `{Fold C F L S}.
Implicit Types (self : F) (context : C) (entries : list L) (st : S).

(** A run can stop after any entry and go on from the state it reached. *)
Lemma derive_loop_app self context xs ys st n :
  derive_loop self context (xs ++ ys) st n = '(st, n) ← derive_loop self context xs st n; derive_loop self context ys st n.
Proof.
  revert st n. induction xs as [|x xs IH]; intros st n; [done|]. simpl.
  destruct (reduce self st x context) as [s|]; simpl; [apply IH|done].
Qed.

Lemma derive_filtered_loop_filter self context f entries st n :
  derive_filtered_loop self context f entries st n = derive_loop self context (List.filter f entries) st n.
Proof.
  revert st n. induction entries as [|x l IH]; intros st n; simpl; [done|].
  destruct (f x); [|apply IH]. simpl. destruct (reduce self st x context) as [s|]; [apply IH|done].
Qed.

Lemma derive_filtered_filter self context f entries :
  derive_filtered self entries context f = derive self (List.filter f entries) context.
Proof. unfold derive_filtered, derive. by rewrite derive_filtered_loop_filter. Qed.

(** A filtering fold counts the entries it passes over, too. *)
Lemma FilterFold_loop (self : FilterFold F L) context entries st n k :
  fst <$> derive_loop self context entries st n =
  fst <$> derive_loop (filter_inner _ _ self) context (List.filter (filter_predicate _ _ self) entries) st k.
Proof.
  revert st n k. induction entries as [|x l IH]; intros st n k; [done|]. simpl.
  destruct (filter_predicate _ _ self x); simpl; [|apply IH].
  destruct (reduce (filter_inner _ _ self) st x context) as [s|]; [apply IH|done].
Qed.

Lemma FilterFold_derive (self : FilterFold F L) context entries :
  derive self entries context =
  (λ o, {| state := state o; entries_processed := length entries |}) <$>
    derive (filter_inner _ _ self) (List.filter (filter_predicate _ _ self) entries) context.
Proof.
  unfold derive. pose proof (FilterFold_loop self context entries (init (filter_inner _ _ self) context) 0 0) as E.
  change (init self context) with (init (filter_inner _ _ self) context).
  destruct (derive_loop self context entries _ 0) as [[s n]|] eqn:Hn,
    (derive_loop (filter_inner _ _ self) context _ _ 0) as [[s' n']|]; simpl in E |- *; try done.
  apply derive_loop_count in Hn. injection E as <-. by rewrite Hn.
Qed.

Lemma MapFold_loop {L1} (self : MapFold F L1 L) context (entries : list L1) st n :
  derive_loop self context entries st n =
  derive_loop (map_inner _ _ _ self) context (map_mapper _ _ _ self <$> entries) st n.
Proof.
  revert st n. induction entries as [|x l IH]; intros st n; simpl; [done|].
  destruct (reduce _ st _ context); [apply IH|done].
Qed.

Lemma MapFold_derive {L1} (self : MapFold F L1 L) context (entries : list L1) :
  derive self entries context = derive (map_inner _ _ _ self) (map_mapper _ _ _ self <$> entries) context.
Proof. unfold derive. by rewrite MapFold_loop. Qed.
End fold_facts.

(** What a common fold computes: counts up to [usize::MAX], sums clamped at every
    step, and a disjunction. *)
Definition common_result {L} (self : CommonFold L) (entries : list L) : CommonFoldState :=
  match self with
  | Count _ => SCount (Z.min USIZE_MAX (Z.of_nat (length entries)))
  | FilterCount f => SCount (Z.min USIZE_MAX (Z.of_nat (length (List.filter (count_predicate _ f) entries))))
  | SumI64 f => SSumI64 (foldl (λ s x, i64_saturating_add s (project _ f x)) 0 entries)
  | Any f => SAny (existsb (any_predicate _ f) entries)
  end.

(** Every sum of a prefix is an [i64]. *)
Definition prefix_sums_fit (l : list Z) : Prop := ∀ k, i64 (sumZ (take k l)).

Lemma common_result_snoc {L} (self : CommonFold L) entries x :
  common_result self (entries ++ [x]) =
  match self, common_result self entries with
  | Count _, SCount n => SCount (usize_saturating_add n 1)
  | FilterCount f, SCount n => SCount (if count_predicate _ f x then usize_saturating_add n 1 else n)
  | SumI64 f, SSumI64 n => SSumI64 (i64_saturating_add n (project _ f x))
  | Any f, SAny b => SAny (b || any_predicate _ f x)
  | _, r => r
  end.
Proof.
  destruct self as [[]|f|f|f]; simpl; unfold usize_saturating_add.
  - rewrite length_app. simpl. f_equal. lia.
  - rewrite List.filter_app, length_app. simpl. destruct (count_predicate _ f x); simpl; f_equal; lia.
  - by rewrite foldl_app.
  - rewrite existsb_app. simpl. by rewrite orb_false_r.
Qed.

Lemma saturated_sum_exact (l : list Z) : prefix_sums_fit l → foldl i64_saturating_add 0 l = sumZ l.
Proof.
  induction l as [|x l IH] using rev_ind; intros Hl; [done|].
  assert (prefix_sums_fit l) as Hp.
  { intros k. destruct (decide (k ≤ length l)%nat) as [Hk|Hk].
    - specialize (Hl k). by rewrite take_app_le in Hl.
    - specialize (Hl (length l)). rewrite take_app_length in Hl. by rewrite take_ge by lia. }
  rewrite foldl_app. simpl. rewrite IH by done. unfold i64_saturating_add, sumZ. rewrite foldl_app. simpl.
  apply clampZ_id. specialize (Hl (length (l ++ [x]))). rewrite firstn_all in Hl. unfold sumZ in Hl.
  by rewrite foldl_app in Hl.
Qed.

Section common_facts.
Context {C L : Type}.
Implicit Types (self : CommonFold L) (context : C) (entries : list L).

Lemma common_loop self context xs ys n :
  derive_loop self context ys (common_result self xs) n = Some (common_result self (xs ++ ys), n + length ys)%nat.
Proof.
  revert xs n. induction ys as [|y ys IH]; intros xs n; [by rewrite app_nil_r, Nat.add_0_r|].
  assert (reduce self (common_result self xs) y context = Some (common_result self (xs ++ [y]))) as Hr.
  { rewrite common_result_snoc. by destruct self as [[]|f|f|f]. }
  cbn [derive_loop]. rewrite Hr. cbn [mbind option_bind]. rewrite IH, <-app_assoc. simpl. do 2 f_equal. lia.
Qed.

(** The folds the crate provides never meet a state of another kind, which would
    panic, and give what their names say. *)
Lemma common_derive self context entries :
  derive self entries context = Some {| state := common_result self entries; entries_processed := length entries |}.
Proof.
  unfold derive. assert (init self context = common_result self []) as -> by by destruct self as [[]|f|f|f].
  by rewrite common_loop.
Qed.

Lemma common_sum_exact (f : SumI64Fold L) context entries :
  prefix_sums_fit (project _ f <$> entries) →
  derive (SumI64 f) entries context = Some {| state := SSumI64 (sumZ (project _ f <$> entries)); entries_processed := length entries |}.
Proof.
  intros Hf. rewrite common_derive. simpl. rewrite <-saturated_sum_exact by done. do 3 f_equal.
  clear. generalize 0. induction entries as [|x l IH]; intros z; [done|]. simpl. apply IH.
Qed.
End common_facts.
