(* ===== verification/Anchor.v ===== *)
(** khive-fold/src/anchor.rs: anchors of a graph and the breadth-first search that
    traces what is downstream of one ([trace]) and credits what is upstream
    ([credit]).

    A [HashMap] is a [gmap], a [HashSet] a [gset], a [VecDeque] a list; exhausted fuel
    is [None]. How an identifier is printed is a parameter. *)

From Stdlib Require Import ZArith QArith Qpower String SpecFloat Lia.
From stdpp Require Import base tactics list numbers strings gmap sets sorting.
From S2P Require Import Prelude Rounding Float Score Fold.
#[local] Open Scope nat_scope.

(** A [uuid::Uuid], by its 128 bits. *)
Abbreviation Uuid := N.

Record AnchorRef := { anchor_id : Uuid; anchor_kind : string; stable_id : option string }.

Record AnchorGraph := { nodes : list AnchorRef; edges : list (Uuid * Uuid * string) }.

Definition AnchorGraph_new : AnchorGraph := {| nodes := []; edges := [] |}.
Definition add_node (self : AnchorGraph) (anchor : AnchorRef) : AnchorGraph :=
  {| nodes := nodes self ++ [anchor]; edges := edges self |}.
Definition add_edge (self : AnchorGraph) (from to : Uuid) (relation : string) : AnchorGraph :=
  {| nodes := nodes self; edges := edges self ++ [(from, to, relation)] |}.
Definition find_node (self : AnchorGraph) (i : Uuid) : option AnchorRef :=
  List.find (λ n, N.eqb (anchor_id n) i) (nodes self).
Definition outgoing (self : AnchorGraph) (from : Uuid) : list (Uuid * string) :=
  (λ '(_, to, rel), (to, rel)) <$> List.filter (λ '(f, _, _), N.eqb f from) (edges self).
Definition incoming (self : AnchorGraph) (to : Uuid) : list (Uuid * string) :=
  (λ '(from, _, rel), (from, rel)) <$> List.filter (λ '(_, t, _), N.eqb t to) (edges self).

(** ** The index of a traversal *)

Record TraversalIndex := { index_nodes : gmap Uuid AnchorRef; index_neighbors : gmap Uuid (list Uuid) }.

(** [nodes.entry(node.id).or_insert(node)] *)
Definition or_insert (m : gmap Uuid AnchorRef) (node : AnchorRef) : gmap Uuid AnchorRef :=
  match m !! anchor_id node with Some _ => m | None => <[anchor_id node := node]> m end.
(** [neighbors.entry(key).or_default().push(neighbor)] *)
Definition push_neighbor (reverse : bool) (m : gmap Uuid (list Uuid)) (edge : Uuid * Uuid * string)
    : gmap Uuid (list Uuid) :=
  let '(from, to, _) := edge in
  let '(key, neighbor) := if reverse then (to, from) else (from, to) in
  <[key := default [] (m !! key) ++ [neighbor]]> m.

Definition TraversalIndex_new (graph : AnchorGraph) (reverse : bool) : TraversalIndex :=
  {| index_nodes := foldl or_insert ∅ (nodes graph);
     index_neighbors := foldl (push_neighbor reverse) ∅ (edges graph) |}.

Definition index_find (self : TraversalIndex) (i : Uuid) : option AnchorRef := index_nodes self !! i.
Definition neighbors (self : TraversalIndex) (i : Uuid) : list Uuid := default [] (index_neighbors self !! i).

(** ** BfsAnchor *)

(** [for next_id in .. { if visited.insert(next_id) { queue.push_back(..) } }]: what is
    pushed for each of the new identifiers, and what is then visited. *)
Fixpoint visit_new (ids : list Uuid) (visited : gset Uuid) : list Uuid * gset Uuid :=
  match ids with
  | [] => ([], visited)
  | i :: ids =>
      if decide (i ∈ visited) then visit_new ids visited
      else let '(fresh, visited) := visit_new ids ({[i]} ∪ visited) in (i :: fresh, visited)
  end.

Section anchors.
Variable uuid_to_string : Uuid → string.
Variable max_depth : nat.

Fixpoint trace_loop (n : nat) (index : TraversalIndex) (start : Uuid) (visited : gset Uuid) (queue : list (Uuid * nat))
    (result : list AnchorRef) : option (list AnchorRef) :=
  match n with
  | 0 => None
  | S n =>
      match queue with
      | [] => Some result
      | (current, depth) :: queue =>
          match index_find index current with
          | Some node =>
              let result := if decide (current = start) then result else result ++ [node] in
              let '(fresh, visited) :=
                if depth <? max_depth then visit_new (neighbors index current) visited else ([], visited) in
              trace_loop n index start visited (queue ++ ((λ next, (next, depth + 1)) <$> fresh)) result
          | None => trace_loop n index start visited queue result
          end
      end
  end.

(** Each identifier is queued at most once, and only when an edge names it. *)
Definition traversal_fuel (graph : AnchorGraph) : nat := length (edges graph) + 2.

Definition trace (graph : AnchorGraph) (start : AnchorRef) : option (result (list AnchorRef) FoldError) :=
  match find_node graph (anchor_id start) with
  | None => Some (Err (AnchorNotFound (uuid_to_string (anchor_id start))))
  | Some _ =>
      if max_depth =? 0 then Some (Ok [])
      else
        Ok <$> trace_loop (traversal_fuel graph) (TraversalIndex_new graph false) (anchor_id start) {[anchor_id start]}
                 [(anchor_id start, 0)] []
  end.

Definition half_weight : f64 := fdiv (F:=F64) (of_Z (F:=F64) 1) (of_Z (F:=F64) 2).

Fixpoint credit_loop (n : nat) (index : TraversalIndex) (outcome : Uuid) (visited : gset Uuid)
    (queue : list (Uuid * nat * f64)) (result : list (AnchorRef * f64)) : option (list (AnchorRef * f64)) :=
  match n with
  | 0 => None
  | S n =>
      match queue with
      | [] => Some result
      | (current, depth, weight) :: queue =>
          let result :=
            if decide (current = outcome) then result
            else match index_find index current with Some node => result ++ [(node, weight)] | None => result end in
          let '(fresh, visited) :=
            if depth <? max_depth then visit_new (neighbors index current) visited else ([], visited) in
          let predecessors := (λ i, (i, fmul (F:=F64) weight half_weight)) <$> fresh in
          credit_loop n index outcome visited (queue ++ ((λ '(pred, pred_weight), (pred, depth + 1, pred_weight)) <$> predecessors))
            result
      end
  end.

Definition credit (graph : AnchorGraph) (outcome : AnchorRef) : option (result (list (AnchorRef * f64)) FoldError) :=
  match find_node graph (anchor_id outcome) with
  | None => Some (Err (AnchorNotFound (uuid_to_string (anchor_id outcome))))
  | Some _ =>
      if max_depth =? 0 then Some (Ok [])
      else
        Ok <$> credit_loop (traversal_fuel graph) (TraversalIndex_new graph true) (anchor_id outcome) {[anchor_id outcome]}
                 [(anchor_id outcome, 0, of_Z (F:=F64) 1)] []
  end.
End anchors.

(** ** The index *)

Definition edge_key (reverse : bool) (e : Uuid * Uuid * string) : Uuid := if reverse then e.1.2 else e.1.1.
Definition edge_end (reverse : bool) (e : Uuid * Uuid * string) : Uuid := if reverse then e.1.1 else e.1.2.

Lemma or_insert_lookup l m i :
  foldl or_insert m l !! i = match m !! i with Some n => Some n | None => List.find (λ n, N.eqb (anchor_id n) i) l end.
Proof.
  revert m. induction l as [|n l IH]; intros m; simpl; [by destruct (m !! i)|]. rewrite IH. unfold or_insert.
  destruct (N.eqb_spec (anchor_id n) i) as [<-|Hne]; [destruct (m !! anchor_id n) eqn:E|].
  - simpl. by rewrite E.
  - simpl. by rewrite lookup_insert_eq.
  - destruct (m !! anchor_id n); [done|]. by rewrite lookup_insert_ne.
Qed.

Lemma index_find_spec graph reverse i : index_find (TraversalIndex_new graph reverse) i = find_node graph i.
Proof. unfold index_find. simpl. by rewrite or_insert_lookup, lookup_empty. Qed.

Lemma push_neighbor_lookup reverse l m i :
  default [] (foldl (push_neighbor reverse) m l !! i) =
  default [] (m !! i) ++ (edge_end reverse <$> List.filter (λ e, N.eqb (edge_key reverse e) i) l).
Proof.
  revert m. induction l as [|[[a b] r] l IH]; intros m; [simpl; by rewrite app_nil_r|]. cbn [foldl List.filter]. rewrite IH.
  assert (push_neighbor reverse m (a, b, r) =
    <[edge_key reverse (a, b, r) := default [] (m !! edge_key reverse (a, b, r)) ++ [edge_end reverse (a, b, r)]]> m) as ->
    by by destruct reverse.
  destruct (N.eqb_spec (edge_key reverse (a, b, r)) i) as [<-|Hne].
  - rewrite lookup_insert_eq. simpl. by rewrite <-app_assoc.
  - by rewrite lookup_insert_ne.
Qed.

Lemma neighbors_spec graph reverse i y :
  y ∈ neighbors (TraversalIndex_new graph reverse) i ↔
  ∃ e, e ∈ edges graph ∧ edge_key reverse e = i ∧ edge_end reverse e = y.
Proof.
  unfold neighbors. simpl. rewrite push_neighbor_lookup, lookup_empty. simpl.
  rewrite list_elem_of_fmap. setoid_rewrite list_elem_of_In. setoid_rewrite List.filter_In.
  setoid_rewrite N.eqb_eq. naive_solver.
Qed.

(** ** The search *)

Lemma visit_new_spec ids visited :
  let '(fresh, visited') := visit_new ids visited in
  NoDup fresh ∧ (∀ y, y ∈ fresh ↔ y ∈ ids ∧ y ∉ visited) ∧ (∀ y, y ∈ visited' ↔ y ∈ visited ∨ y ∈ ids).
Proof.
  revert visited. induction ids as [|i ids IH]; intros visited; simpl; [split_and!; [constructor|set_solver..]|].
  destruct (decide (i ∈ visited)) as [Hi|Hi].
  - specialize (IH visited). destruct (visit_new ids visited) as [fresh visited']. destruct IH as (H1 & H2 & H3).
    split_and!; [done|set_solver..].
  - specialize (IH ({[i]} ∪ visited)). destruct (visit_new ids ({[i]} ∪ visited)) as [fresh visited'].
    destruct IH as (H1 & H2 & H3). split_and!.
    + constructor; [|done]. rewrite H2. set_solver.
    + intros y. rewrite !elem_of_cons, H2. destruct (decide (y = i)); set_solver.
    + intros y. rewrite H3. set_solver.
Qed.

Section search.
(** The identifiers an identifier leads to, all among [ids]. *)
Variable next : N → list N.
Variable ids : list N.
Hypothesis next_ids : ∀ x y, y ∈ next x → y ∈ ids.
Variable start : N.
Variable max_depth : nat.

(** A path of [n] edges from [start]. *)
Inductive path : nat → N → Prop :=
| path_start : path 0 start
| path_step n x y : path n x → y ∈ next x → path (S n) y.

Definition distance (x : N) (d : nat) : Prop := path d x ∧ ∀ n, path n x → d ≤ n.

(** What both traversals do to their queues, with the entries they have popped. *)
Fixpoint search (n : nat) (visited : gset N) (queue popped : list (N * nat)) : option (list (N * nat)) :=
  match n with
  | 0 => None
  | S n =>
      match queue with
      | [] => Some popped
      | (x, d) :: queue =>
          let '(fresh, visited) := if d <? max_depth then visit_new (next x) visited else ([], visited) in
          search n visited (queue ++ ((λ y, (y, d + 1)) <$> fresh)) (popped ++ [(x, d)])
      end
  end.

Record searching (visited : gset N) (queue popped : list (N * nat)) : Prop := {
  all_visited : ∀ x, x ∈ visited ↔ x ∈ (popped ++ queue).*1;
  all_distinct : NoDup (popped ++ queue).*1;
  all_named : ∀ x, x ∈ (popped ++ queue).*1 → x = start ∨ x ∈ ids;
  all_paths : ∀ x d, (x, d) ∈ popped ++ queue → path d x ∧ d ≤ max_depth;
  from_start : (start, 0) ∈ popped ++ queue;
  in_layers : StronglySorted le (popped ++ queue).*2;
  one_layer : ∀ x d y e, head queue = Some (x, d) → (y, e) ∈ queue → e ≤ d + 1;
  popped_expanded : ∀ x d y, (x, d) ∈ popped → d < max_depth → y ∈ next x → ∃ e, (y, e) ∈ popped ++ queue ∧ e ≤ d + 1
}.

Lemma searching_start : searching {[start]} [(start, 0)] [].
Proof.
  assert (∀ (P : Prop) x d, (x, d) ∈ [(start, 0)] → (x = start → d = 0 → P) → P) as Hone.
  { intros P x d Hx HP. apply list_elem_of_singleton in Hx as [= -> ->]. by apply HP. }
  split; simpl.
  - set_solver.
  - apply NoDup_singleton.
  - set_solver.
  - intros x d Hx. apply (Hone _ _ _ Hx). intros -> ->. split; [constructor|lia].
  - set_solver.
  - repeat constructor.
  - intros x d y e [= <- <-] Hy. apply (Hone _ _ _ Hy). lia.
  - intros x d y Hx. by apply not_elem_of_nil in Hx.
Qed.

Lemma sorted_app_le (l k : list nat) m :
  StronglySorted le l → Forall (λ x, x ≤ m) l → Forall (λ x, x = m) k → StronglySorted le (l ++ k).
Proof.
  intros Hl Hm Hk. induction Hl as [|x l Hl IH Hx]; simpl.
  - clear Hm. induction Hk as [|y k -> Hk IHk]; constructor; [done|]. eapply Forall_impl; [exact Hk|]. intros ? ->. done.
  - apply Forall_cons in Hm as [Hxm Hm]. constructor; [by apply IH|]. apply Forall_app. split; [done|].
    eapply Forall_impl; [exact Hk|]. simpl. lia.
Qed.

Lemma popped_assoc {A} (l q f : list A) x : (l ++ [x]) ++ q ++ f = (l ++ x :: q) ++ f.
Proof. by rewrite <-!app_assoc. Qed.

Lemma fmap_pair_elem (fresh : list N) (k : nat) y e : (y, e) ∈ (λ y, (y, k)) <$> fresh ↔ y ∈ fresh ∧ e = k.
Proof. rewrite list_elem_of_fmap. naive_solver. Qed.

Lemma fmap_pair_fst (fresh : list N) (k : nat) : ((λ y, (y, k)) <$> fresh).*1 = fresh.
Proof. rewrite <-list_fmap_compose. apply list_fmap_id. Qed.

(** All the depths there are up to one layer beyond that of the entry popped. *)
Lemma depths_bound visited x d queue popped y e :
  searching visited ((x, d) :: queue) popped → (y, e) ∈ popped ++ (x, d) :: queue → e ≤ d + 1.
Proof.
  intros H. rewrite elem_of_app. intros [Hy|Hy]; [|by eapply (one_layer _ _ _ H)].
  pose proof (in_layers _ _ _ H) as Hs. rewrite fmap_app in Hs.
  enough (e ≤ d) by lia. eapply StronglySorted_app_1_elem_of; [exact Hs| |by left].
  by apply (list_elem_of_fmap_2 snd _ (y, e)).
Qed.

Lemma searching_step visited x d queue popped fresh visited' :
  searching visited ((x, d) :: queue) popped →
  NoDup fresh → (∀ y, y ∈ fresh ↔ d < max_depth ∧ y ∈ next x ∧ y ∉ visited) →
  (∀ y, y ∈ visited' ↔ y ∈ visited ∨ y ∈ fresh) →
  searching visited' (queue ++ ((λ y, (y, d + 1)) <$> fresh)) (popped ++ [(x, d)]).
Proof.
  intros H Hnd Hf Hv. pose proof (λ y e, depths_bound _ _ _ _ _ y e H) as Hb.
  destruct H as [Hav Had Han Hap Hs Hl Ho Hpe]. split; rewrite ?popped_assoc.
  - intros y. rewrite fmap_app, fmap_pair_fst, elem_of_app, <-Hav. apply Hv.
  - rewrite fmap_app, fmap_pair_fst. apply NoDup_app. split_and!; [done| |done]. intros y Hy Hy'.
    apply Hf in Hy' as (_ & _ & Hn). by apply Hn, Hav.
  - intros y. rewrite fmap_app, fmap_pair_fst, elem_of_app. intros [Hy|Hy]; [by apply Han|right].
    apply Hf in Hy as (_ & Hy & _). by eapply next_ids.
  - intros y e. rewrite elem_of_app, fmap_pair_elem. intros [Hy|[Hy ->]]; [by apply Hap|].
    apply Hf in Hy as (Hd & Hy & _). destruct (Hap x d) as [Hp _]; [set_solver|].
    rewrite Nat.add_1_r. split; [by econstructor|lia].
  - apply elem_of_app. by left.
  - rewrite fmap_app. apply (sorted_app_le _ _ (d + 1)); [done| |].
    + apply Forall_forall. intros e [[y e'] [-> Hy]]%list_elem_of_fmap. by eapply Hb.
    + rewrite <-list_fmap_compose. apply Forall_forall. intros e [y [-> Hy]]%list_elem_of_fmap. done.
  - intros y e z k Hh Hz. apply elem_of_app in Hz as [Hz|Hz]; cycle 1.
    + apply fmap_pair_elem in Hz as [Hz ->]. enough (d ≤ e) by lia.
      destruct queue as [|[y' e'] queue]; simpl in Hh.
      * destruct fresh; simpl in Hh; [done|]. injection Hh as _ <-. lia.
      * injection Hh as -> ->. rewrite fmap_app in Hl. apply StronglySorted_app_1_r in Hl. simpl in Hl.
        apply StronglySorted_inv in Hl as [_ Hl]. by apply Forall_cons in Hl as [? _].
    + destruct queue as [|[y' e'] queue]; [by apply not_elem_of_nil in Hz|]. injection Hh as -> ->.
      rewrite fmap_app in Hl. apply StronglySorted_app_1_r in Hl. simpl in Hl.
      apply StronglySorted_inv in Hl as [_ Hl]. apply Forall_cons in Hl as [? _].
      specialize (Ho x d z k eq_refl ltac:(by right)). lia.
  - intros y e z Hy He Hz. apply elem_of_app in Hy as [Hy|Hy].
    + destruct (Hpe y e z Hy He Hz) as (k & Hk & ?). exists k. split; [|done]. apply elem_of_app. by left.
    + apply list_elem_of_singleton in Hy as [= -> ->]. destruct (decide (z ∈ visited)) as [Hzv|Hzv].
      * apply Hav in Hzv as [[z' k] [Hzk Hk]]%list_elem_of_fmap. simpl in Hzk. subst z'. exists k.
        split; [apply elem_of_app; by left|by eapply Hb].
      * exists (d + 1). split; [|done]. apply elem_of_app. right. apply fmap_pair_elem. split; [|done]. by apply Hf.
Qed.

Lemma search_ok n visited queue popped :
  searching visited queue popped → length ids + 1 < n + length popped →
  ∃ visited' l, search n visited queue popped = Some l ∧ searching visited' [] l.
Proof.
  revert visited queue popped. induction n as [|n IH]; intros visited queue popped H Hn.
  - exfalso. pose proof (all_distinct _ _ _ H) as Hnd. rewrite fmap_app in Hnd. apply NoDup_app in Hnd as (Hnd & _).
    assert (popped.*1 ⊆ start :: ids) as Hsub.
    { intros x Hx. destruct (all_named _ _ _ H x) as [->|?]; [|by left|by right]. rewrite fmap_app. apply elem_of_app. by left. }
    pose proof (submseteq_length _ _ (NoDup_submseteq _ _ Hnd Hsub)) as Hlen. rewrite length_fmap in Hlen. simpl in *. lia.
  - destruct queue as [|[x d] queue]; [by exists visited, popped|]. simpl.
    destruct (d <? max_depth) eqn:Hd.
    + pose proof (visit_new_spec (next x) visited) as Hv. destruct (visit_new (next x) visited) as [fresh visited'].
      destruct Hv as (Hnd & Hf & Hv). apply IH; [|rewrite length_app; simpl; lia].
      apply Nat.ltb_lt in Hd. apply (searching_step visited); [done..| |].
      * intros y. rewrite Hf. naive_solver.
      * intros y. rewrite Hv, Hf. destruct (decide (y ∈ visited)); naive_solver.
    + apply IH; [|rewrite length_app; simpl; lia]. apply Nat.ltb_ge in Hd.
      apply (searching_step visited _ _ _ _ []); [done|constructor|set_solver by lia|set_solver].
Qed.

(** Every identifier within the depth is popped, at its distance. *)
Lemma popped_within visited l x n :
  searching visited [] l → path n x → n ≤ max_depth → ∃ d, (x, d) ∈ l ∧ d ≤ n.
Proof.
  intros [Hav Had Han Hap Hs Hl Ho Hpe] Hp. rewrite app_nil_r in *. induction Hp as [|n x y Hp IH Hy]; intros Hn.
  - exists 0. split; [done|lia].
  - destruct IH as (d & Hd & Hdn); [lia|]. destruct (Hpe x d y Hd ltac:(lia) Hy) as (e & He & ?).
    exists e. split; [done|lia].
Qed.

Lemma popped_distance visited l x d : searching visited [] l → (x, d) ∈ l → distance x d ∧ d ≤ max_depth.
Proof.
  intros H Hx. destruct (all_paths _ _ _ H x d) as [Hp Hd]; [by rewrite app_nil_r|]. split; [|done]. split; [done|].
  intros n Hn. destruct (decide (n ≤ max_depth)) as [Hnm|]; [|lia].
  destruct (popped_within _ _ _ _ H Hn Hnm) as (e & He & Hen).
  pose proof (all_distinct _ _ _ H) as Hnd. rewrite app_nil_r in Hnd.
  assert ((x, d) = (x, e)) as [= ->]; [|done]. by apply (NoDup_fmap_inj fst l).
Qed.

(** The search from [start] in one list: each identifier within the depth once, with
    its distance, nearer ones first. *)
Definition found (l : list (N * nat)) : Prop :=
  NoDup l.*1 ∧ StronglySorted le l.*2 ∧ (∀ x d, (x, d) ∈ l → distance x d ∧ d ≤ max_depth) ∧
  (∀ x n, path n x → n ≤ max_depth → x ∈ l.*1).

Lemma search_found n :
  length ids + 1 < n → ∃ l, search n {[start]} [(start, 0)] [] = Some l ∧ found l.
Proof.
  intros Hn. destruct (search_ok n _ _ _ searching_start) as (v & l & Hl & H); [simpl; lia|].
  exists l. split; [done|]. pose proof (all_distinct _ _ _ H) as Hnd. pose proof (in_layers _ _ _ H) as Hs.
  rewrite app_nil_r in Hnd, Hs. split; [done|]. split; [done|]. split.
  - intros x d. by eapply popped_distance.
  - intros x m Hp Hm. destruct (popped_within _ _ _ _ H Hp Hm) as (d & Hd & _).
    by apply (list_elem_of_fmap_2 fst _ (x, d)).
Qed.
End search.

(** ** The traversals as searches *)

Definition successors (graph : AnchorGraph) (reverse : bool) (x : N) : list N :=
  edge_end reverse <$> List.filter (λ e, N.eqb (edge_key reverse e) x) (edges graph).

(** [trace] goes on only from identifiers that have a node, [credit] from all. *)
Definition downstream (graph : AnchorGraph) (x : N) : list N :=
  match find_node graph x with Some _ => successors graph false x | None => [] end.
Definition upstream (graph : AnchorGraph) : N → list N := successors graph true.

(** The weight of a predecessor at distance [d]. *)
Definition weight_at (d : nat) : f64 := Nat.iter d (λ w, fmul (F:=F64) w half_weight) (of_Z (F:=F64) 1).

Lemma neighbors_successors graph reverse x : neighbors (TraversalIndex_new graph reverse) x = successors graph reverse x.
Proof. unfold neighbors. simpl. by rewrite push_neighbor_lookup, lookup_empty. Qed.

Lemma successors_named graph reverse x y : y ∈ successors graph reverse x → y ∈ edge_end reverse <$> edges graph.
Proof.
  intros (e & -> & [He _]%list_elem_of_In%List.filter_In)%list_elem_of_fmap.
  by apply list_elem_of_fmap_2, list_elem_of_In.
Qed.

Section traversals.
Variable graph : AnchorGraph.
Variable start : N.
Variable max_depth : nat.
Implicit Types queue popped : list (N * nat).

Definition traced (entry : N * nat) : option AnchorRef :=
  if decide (entry.1 = start) then None else find_node graph entry.1.
Definition credited (entry : N * nat) : option (AnchorRef * f64) :=
  if decide (entry.1 = start) then None else (λ n, (n, weight_at entry.2)) <$> find_node graph entry.1.
Definition traced_nodes (l : list (N * nat)) : list AnchorRef := omap traced l.
Definition credited_nodes (l : list (N * nat)) : list (AnchorRef * f64) := omap credited l.
Definition weighed (entry : N * nat) : N * nat * f64 := (entry, weight_at entry.2).

Lemma omap_snoc {A B} (f : A → option B) (l : list A) x :
  omap f (l ++ [x]) = match f x with Some y => omap f l ++ [y] | None => omap f l end.
Proof. rewrite omap_app. simpl. destruct (f x); [done|apply app_nil_r]. Qed.

Lemma trace_loop_search n visited queue popped :
  trace_loop max_depth n (TraversalIndex_new graph false) start visited queue (traced_nodes popped) =
  traced_nodes <$> search (downstream graph) max_depth n visited queue popped.
Proof.
  revert visited queue popped. induction n as [|n IH]; intros visited queue popped; [done|].
  destruct queue as [|[x d] queue]; [done|]. cbn [trace_loop search].
  assert (traced_nodes (popped ++ [(x, d)]) =
    match find_node graph x with
    | Some node => if decide (x = start) then traced_nodes popped else traced_nodes popped ++ [node]
    | None => traced_nodes popped
    end) as Hsnoc.
  { unfold traced_nodes. rewrite omap_snoc. unfold traced. simpl. destruct (find_node graph x), (decide (x = start)); done. }
  rewrite index_find_spec, neighbors_successors. unfold downstream at 1.
  destruct (find_node graph x) as [node|]; rewrite <-Hsnoc.
  - destruct (if d <? max_depth then _ else _) as [fresh visited']. apply IH.
  - simpl visit_new. destruct (d <? max_depth); rewrite app_nil_r; apply IH.
Qed.

Lemma credit_loop_search n visited queue popped :
  credit_loop max_depth n (TraversalIndex_new graph true) start visited (weighed <$> queue) (credited_nodes popped) =
  credited_nodes <$> search (upstream graph) max_depth n visited queue popped.
Proof.
  revert visited queue popped. induction n as [|n IH]; intros visited queue popped; [done|].
  destruct queue as [|[x d] queue]; [done|]. cbn [credit_loop search fmap list_fmap weighed fst snd].
  assert (credited_nodes (popped ++ [(x, d)]) =
    if decide (x = start) then credited_nodes popped
    else match find_node graph x with Some node => credited_nodes popped ++ [(node, weight_at d)] | None => credited_nodes popped end)
    as Hsnoc.
  { unfold credited_nodes. rewrite omap_snoc. unfold credited. simpl. destruct (find_node graph x), (decide (x = start)); done. }
  rewrite index_find_spec, neighbors_successors, <-Hsnoc. unfold upstream at 1.
  destruct (if d <? max_depth then _ else _) as [fresh visited']. rewrite <-IH, fmap_app. do 2 f_equal.
  rewrite <-!list_fmap_compose. apply list_fmap_ext. intros _ y _. unfold weighed, compose. simpl. by rewrite Nat.add_1_r.
Qed.
End traversals.

(** ** What the anchors answer *)

(** The nodes within [max_depth] of [start] other than [start] itself, each the first
    of its identifier and listed once, with their distances, nearer ones first. *)
Definition reached (graph : AnchorGraph) (next : N → list N) (start : N) (max_depth : nat) (l : list AnchorRef)
    (ds : list nat) : Prop :=
  Forall2 (λ n d, find_node graph (anchor_id n) = Some n ∧ distance next start (anchor_id n) d ∧ 0 < d ≤ max_depth) l ds ∧
  StronglySorted le ds ∧ NoDup (anchor_id <$> l) ∧
  (∀ x k, path next start k x → k ≤ max_depth → x ≠ start → is_Some (find_node graph x) → x ∈ anchor_id <$> l).

Lemma sublist_sorted (l k : list nat) : l `sublist_of` k → StronglySorted le k → StronglySorted le l.
Proof.
  induction 1 as [|x l k Hl IH|x l k Hl IH]; intros Hk; [constructor| |]; apply StronglySorted_inv in Hk as [Hk Hx].
  - constructor; [by apply IH|]. rewrite Forall_forall in Hx |- *. intros y Hy. apply Hx. by eapply elem_of_sublist.
  - by apply IH.
Qed.

Lemma find_node_id graph x n : find_node graph x = Some n → anchor_id n = x.
Proof. intros [_ E%N.eqb_eq]%List.find_some. done. Qed.

Lemma path_0 next start x : path next start 0 x → x = start.
Proof. by inversion 1. Qed.

Lemma reached_0 graph next start : reached graph next start 0 [] [].
Proof.
  split_and!; [constructor..|]. intros x k Hp Hk Hx. assert (k = 0) as -> by lia. by apply path_0 in Hp.
Qed.

(** The nodes of a list of entries, without [start]. *)
Record nodes_of (graph : AnchorGraph) (start : N) (l : list (N * nat)) (ds : list nat) : Prop := {
  of_entries : Forall2 (λ n d, find_node graph (anchor_id n) = Some n ∧ anchor_id n ≠ start ∧ (anchor_id n, d) ∈ l)
                 (traced_nodes graph start l) ds;
  of_weights : Forall2 (λ nw d, nw.2 = weight_at d) (credited_nodes graph start l) ds;
  of_same : (credited_nodes graph start l).*1 = traced_nodes graph start l;
  of_depths : ds `sublist_of` l.*2;
  of_ids : (anchor_id <$> traced_nodes graph start l) `sublist_of` l.*1;
  of_all : ∀ x, x ∈ l.*1 → x ≠ start → is_Some (find_node graph x) → x ∈ anchor_id <$> traced_nodes graph start l
}.

Lemma traced_cons graph start x d l :
  traced_nodes graph start ((x, d) :: l) =
  if decide (x = start) then traced_nodes graph start l
  else match find_node graph x with Some n => n :: traced_nodes graph start l | None => traced_nodes graph start l end.
Proof. unfold traced_nodes. simpl. unfold traced at 1. simpl. by destruct (decide (x = start)), (find_node graph x). Qed.

Lemma credited_cons graph start x d l :
  credited_nodes graph start ((x, d) :: l) =
  if decide (x = start) then credited_nodes graph start l
  else match find_node graph x with
       | Some n => (n, weight_at d) :: credited_nodes graph start l
       | None => credited_nodes graph start l
       end.
Proof. unfold credited_nodes. simpl. unfold credited at 1. simpl. by destruct (decide (x = start)), (find_node graph x). Qed.

Lemma nodes_of_entries graph start l : ∃ ds, nodes_of graph start l ds.
Proof.
  induction l as [|[x d] l (ds & [H1 H2 H3 H4 H5 H6])].
  - exists []. split; try constructor. intros x Hx. by apply not_elem_of_nil in Hx.
  - assert (Forall2 (λ n e, find_node graph (anchor_id n) = Some n ∧ anchor_id n ≠ start ∧ (anchor_id n, e) ∈ (x, d) :: l)
      (traced_nodes graph start l) ds) as H1'.
    { eapply Forall2_impl; [exact H1|]. intros n e (? & ? & ?). split_and!; [done..|by right]. }
    pose proof (traced_cons graph start x d l) as Ht. pose proof (credited_cons graph start x d l) as Hc.
    destruct (decide (x = start)) as [->|Hx]; [|destruct (find_node graph x) as [n|] eqn:Hn].
    + exists ds. split; rewrite ?Ht, ?Hc; [done..|by constructor|by constructor|].
      intros y [->|Hy]%elem_of_cons ? ?; [done|by apply H6].
    + pose proof (find_node_id _ _ _ Hn) as Hid. exists (d :: ds). split; rewrite ?Ht, ?Hc; simpl; rewrite ?Hid.
      * constructor; [|done]. rewrite Hid. split_and!; [done..|by left].
      * by constructor.
      * f_equal. exact H3.
      * by constructor.
      * by constructor.
      * intros y [->|Hy]%elem_of_cons ? ?; [by left|right; by apply H6].
    + exists ds. split; rewrite ?Ht, ?Hc; [done..|by constructor|by constructor|].
      intros y [->|Hy]%elem_of_cons ? Hs; [simpl in Hs; rewrite Hn in Hs; by destruct Hs|by apply H6].
Qed.

Lemma found_reached graph next start max_depth l :
  found next start max_depth l →
  ∃ ds, reached graph next start max_depth (traced_nodes graph start l) ds ∧
    Forall2 (λ nw d, nw.2 = weight_at d) (credited_nodes graph start l) ds ∧
    (credited_nodes graph start l).*1 = traced_nodes graph start l.
Proof.
  intros (Hnd & Hs & Hd & Hall). destruct (nodes_of_entries graph start l) as (ds & [H1 H2 H3 H4 H5 H6]).
  exists ds. split; [|done]. split_and!.
  - eapply Forall2_impl; [exact H1|]. intros n d (Hn & Hne & Hin). destruct (Hd _ _ Hin) as [Hdist Hmax].
    split_and!; [done|apply Hdist..| |done]. destruct d; [|lia]. by destruct Hdist as [Hp%path_0 _].
  - by eapply sublist_sorted.
  - by eapply sublist_NoDup.
  - intros x k Hp Hk Hx Hn. apply H6; [|done..]. by eapply Hall.
Qed.

(** Halving is exact down to the least positive number, 2^-1074. *)
Lemma weight_exact d : (d ≤ 1074)%nat → valid (H:=F64) (weight_at d) ∧ is_finite (weight_at d) = true ∧
  (fval (weight_at d) == bpow (- Z.of_nat d))%Q.
Proof.
  induction d as [|d IH]; intros Hd; [done|]. destruct IH as (Hv & Hf & He); [lia|].
  assert (valid (H:=F64) half_weight ∧ is_finite half_weight = true ∧ (fval half_weight == bpow (-1))%Q) as (Hhv & Hhf & Hhe) by done.
  change (weight_at (S d)) with (fmul (F:=F64) (weight_at d) half_weight).
  pose proof (fmul_rnd (F:=F64) _ _ Hv Hhv Hf Hhf) as Hr. split; [by apply fmul_valid|].
  assert (fval (weight_at d) * fval half_weight == bpow (- Z.of_nat (S d)))%Q as Hx.
  { rewrite He, Hhe, <-bpow_add. by replace (- Z.of_nat d + -1)%Z with (- Z.of_nat (S d))%Z by lia. }
  destruct (rep_scale (F:=F64) false 1 (- Z.of_nat (S d))) as (M & E & Hrep & HM); [done|change (-1074 ≤ - Z.of_nat (S d))%Z; lia|].
  assert (bpow (- Z.of_nat (S d)) == fl 1 (- Z.of_nat (S d)))%Q as Hfl by (unfold fl; ring).
  destruct (rnd_exact _ _ false M E Hr Hrep) as [[? Hval]|[(_ & _ & Hbig)|(Hneg & _)]].
  - by rewrite Hx, HM.
  - split; [done|]. by rewrite Hval.
  - exfalso. rewrite Hx in Hbig. apply Qle_not_lt in Hbig. apply Hbig, bpow_lt. change (- Z.of_nat (S d) < 1024)%Z. lia.
  - exfalso. rewrite Hx in Hneg. pose proof (bpow_pos (- Z.of_nat (S d))). by apply (Qlt_irrefl 0), (Qlt_trans _ (bpow (- Z.of_nat (S d)))).
Qed.

Section answers.
Variable uuid_to_string : Uuid → string.
Variable max_depth : nat.

Lemma traversal_found graph next start reverse :
  (∀ x y, y ∈ next x → y ∈ edge_end reverse <$> edges graph) →
  ∃ l, search next max_depth (traversal_fuel graph) {[start]} [(start, 0)] [] = Some l ∧ found next start max_depth l.
Proof.
  intros H. apply (search_found _ (edge_end reverse <$> edges graph)); [done|].
  rewrite length_fmap. unfold traversal_fuel. lia.
Qed.

(** Tracing from an anchor that is no node of the graph is an error. From one that
    is, the search ends and answers the nodes that at most [max_depth] edges lead to,
    through nodes of the graph: each once, under the first node of its identifier,
    nearest first, and without the anchor itself. *)
Theorem trace_spec graph start :
  match find_node graph (anchor_id start) with
  | None => trace uuid_to_string max_depth graph start = Some (Err (AnchorNotFound (uuid_to_string (anchor_id start))))
  | Some _ => ∃ l ds, trace uuid_to_string max_depth graph start = Some (Ok l) ∧
      reached graph (downstream graph) (anchor_id start) max_depth l ds
  end.
Proof.
  unfold trace. destruct (find_node graph (anchor_id start)) as [node|]; [|done].
  destruct (Nat.eqb_spec max_depth 0) as [->|_]; [exists [], []; split; [done|apply reached_0]|].
  destruct (traversal_found graph (downstream graph) (anchor_id start) false) as (l & Hl & Hf).
  { intros x y. unfold downstream. destruct (find_node graph x); [apply successors_named|by intros ?%not_elem_of_nil]. }
  destruct (found_reached graph _ _ _ _ Hf) as (ds & Hr & _).
  exists (traced_nodes graph (anchor_id start) l), ds. split; [|done].
  pose proof (trace_loop_search graph (anchor_id start) max_depth (traversal_fuel graph) {[anchor_id start]} [(anchor_id start, 0)] []) as E.
  change (traced_nodes graph (anchor_id start) []) with (@nil AnchorRef) in E. by rewrite E, Hl.
Qed.

(** Credit from an outcome that is no node of the graph is an error. From one that
    is, the search ends and answers the nodes from which at most [max_depth] edges lead
    to the outcome, identifiers without a node included in between: each once, nearest
    first, with the weight that halves with every edge of the shortest such path, which
    is exactly [2^-d] up to a distance [d] of 1074. *)
Theorem credit_spec graph outcome :
  match find_node graph (anchor_id outcome) with
  | None => credit uuid_to_string max_depth graph outcome = Some (Err (AnchorNotFound (uuid_to_string (anchor_id outcome))))
  | Some _ => ∃ l ds, credit uuid_to_string max_depth graph outcome = Some (Ok l) ∧
      reached graph (upstream graph) (anchor_id outcome) max_depth l.*1 ds ∧
      Forall2 (λ nw d, nw.2 = weight_at d ∧ (d ≤ 1074 → (fval nw.2 == bpow (- Z.of_nat d))%Q)) l ds
  end.
Proof.
  unfold credit. destruct (find_node graph (anchor_id outcome)) as [node|]; [|done].
  destruct (Nat.eqb_spec max_depth 0) as [->|_]; [exists [], []; split; [done|split; [apply reached_0|constructor]]|].
  destruct (traversal_found graph (upstream graph) (anchor_id outcome) true) as (l & Hl & Hf); [apply successors_named|].
  destruct (found_reached graph _ _ _ _ Hf) as (ds & Hr & Hw & Hs).
  exists (credited_nodes graph (anchor_id outcome) l), ds. split_and!; [|by rewrite Hs|].
  - pose proof (credit_loop_search graph (anchor_id outcome) max_depth (traversal_fuel graph) {[anchor_id outcome]}
      [(anchor_id outcome, 0)] []) as E.
    change (credited_nodes graph (anchor_id outcome) []) with (@nil (AnchorRef * f64)) in E.
    change (weighed <$> [(anchor_id outcome, 0)]) with [(anchor_id outcome, 0, of_Z (F:=F64) 1)] in E. by rewrite E, Hl.
  - eapply Forall2_impl; [exact Hw|]. intros [n w] d ->. split; [done|]. intros Hd. by apply weight_exact.
Qed.
End answers.

(** The two differ on identifiers that edges name and no node has: credit passes
    through them, a trace does not. *)
Example missing_node_between :
  let anchor i := {| anchor_id := i; anchor_kind := "k"; stable_id := None |} in
  let graph := {| nodes := [anchor 1%N; anchor 3%N]; edges := [(1%N, 2%N, "r"); (2%N, 3%N, "r")] |} in
  trace (λ _, "") 5 graph (anchor 1%N) = Some (Ok []) ∧
  (λ r, match r with Ok l => l.*1 | Err _ => [] end) <$> credit (λ _, "") 5 graph (anchor 3%N) = Some [anchor 1%N].
Proof. split; vm_compute; reflexivity. Qed.
