(* ===== verification/Selector.v ===== *)
(** khive-fold/src/selector.rs and selector/diversity.rs: the greedy packer of
    candidates into a budget, with the indexed search of its diversity path (a
    segment tree per category, a heap of category winners with stale entries), and
    the reference selector of selector_tests/diversity_reference.rs, which scans.

    In [diversity] an index out of range, an [expect] on [None] and exhausted fuel
    are [None]. *)

From Stdlib Require Import ZArith String SpecFloat.
From stdpp Require Import base tactics list numbers strings.
From S2P Require Import Prelude Rounding Float Score Fold.
#[local] Open Scope nat_scope.

(** ** Orders *)

(** [std::cmp::Reverse] *)
Inductive Reverse (A : Type) : Type := Rev (a : A).
Arguments Rev {A} a.
#[export] Instance Reverse_Ord {A} `{Ord A} : Ord (Reverse A) :=
  λ a b, match a, b with Rev a, Rev b => cmp b a end.

(** [Option<T>]: [None] first. *)
#[export] Instance option_Ord {A} `{Ord A} : Ord (option A) :=
  λ a b, match a, b with
         | None, None => Eq
         | None, Some _ => Lt
         | Some _, None => Gt
         | Some a, Some b => cmp a b
         end.

(** ** selector.rs *)

Record SelectorInput (T : Type) := {
  input_id : string;
  content : T;
  size : N;
  input_score : f32;
  category : option string;
  information_gain : option f32;
  rank_score : option f64
}.
Arguments Build_SelectorInput {T}.
Arguments input_id {T} _.
Arguments content {T} _.
Arguments size {T} _.
Arguments input_score {T} _.
Arguments category {T} _.
Arguments information_gain {T} _.
Arguments rank_score {T} _.

Record SelectorOutput (T : Type) := { out_selected : list (SelectorInput T); total_size : N; out_budget : N }.
Arguments Build_SelectorOutput {T}.
Arguments out_selected {T} _.
Arguments total_size {T} _.
Arguments out_budget {T} _.

Record SelectorWeights := {
  category_weights : list (string * f32);
  min_score : f32;
  diversity_bias : f32;
  epistemic_weight : f32
}.

Definition f0 : float := S754_zero false.
Definition f1 : f64 := of_Z (F:=F64) 1.

Definition must_be_finite (what : string) (x : float) : result unit FoldError :=
  if negb (is_finite x) then Err (InvalidInput (what +:+ " must be finite")) else Ok ().

Definition validate_selector_weights (weights : SelectorWeights) : result unit FoldError :=
  check? must_be_finite "SelectorWeights.min_score" (min_score weights) in
  check? must_be_finite "SelectorWeights.diversity_bias" (diversity_bias weights) in
  check? (if negb (fle f0 (diversity_bias weights) && fle (diversity_bias weights) (of_Z (F:=F32) 1))
          then Err (InvalidInput "SelectorWeights.diversity_bias must be within [0.0, 1.0]") else Ok ()) in
  check? must_be_finite "SelectorWeights.epistemic_weight" (epistemic_weight weights) in
  try_each (λ '(cat, weight), must_be_finite ("SelectorWeights.category_weights['" +:+ cat +:+ "']") weight)
    (category_weights weights).

Section selector.
Context {T : Type}.
Abbreviation Input := (SelectorInput T).

Definition rank_base (item : Input) : f64 := default (fcast (F:=F64) (input_score item)) (rank_score item).

Definition pragmatic_plus_epistemic (item : Input) (epistemic_weight : f32) : f64 :=
  let base := rank_base item in
  if feq epistemic_weight f0 then base
  else fadd (F:=F64) base (fmul (F:=F64) (fcast (F:=F64) epistemic_weight)
                             (fcast (F:=F64) (default f0 (information_gain item)))).

Definition validate_input (item : Input) : result unit FoldError :=
  check? (match information_gain item with
          | Some gain => must_be_finite ("information_gain for '" +:+ input_id item +:+ "'") gain
          | None => Ok ()
          end) in
  match rank_score item with
  | Some r => must_be_finite ("rank_score for '" +:+ input_id item +:+ "'") r
  | None => Ok ()
  end.

(** [inputs.retain(..)] *)
Definition retained (weights : SelectorWeights) (inputs : list Input) : list Input :=
  List.filter (λ i, is_finite (input_score i) && fle (min_score weights) (input_score i)) inputs.

Definition reweigh (weights : SelectorWeights) (item : Input) : Input :=
  match category item with
  | Some cat =>
      match bm_get cat (category_weights weights) with
      | Some w =>
          let w := fmax w f0 in
          {| input_id := input_id item; content := content item; size := size item;
             input_score := fmul (F:=F32) (input_score item) w; category := category item;
             information_gain := information_gain item;
             rank_score := (λ r, fmul (F:=F64) r (fcast (F:=F64) w)) <$> rank_score item |}
      | None => item
      end
  | None => item
  end.

Definition eligible (weights : SelectorWeights) (inputs : list Input) : list Input :=
  let inputs := retained weights inputs in
  match category_weights weights with
  | [] => inputs
  | _ => retained weights (reweigh weights <$> inputs)
  end.

Definition rank (weights : SelectorWeights) (item : Input) : result (Input * DeterministicScore) FoldError :=
  let effective := pragmatic_plus_epistemic item (epistemic_weight weights) in
  check? must_be_finite ("effective score for '" +:+ input_id item +:+ "'") effective in
  Ok (item, from_f64 effective).

Definition ranked_cmp (a b : Input * DeterministicScore) : comparison :=
  then_cmp (cmp b.2 a.2) (then_cmp (cmp (size a.1) (size b.1)) (cmp (input_id a.1) (input_id b.1))).

(** The common beginning of the two selectors: validate, filter, weigh, rank. *)
Definition prepare (inputs : list Input) (weights : SelectorWeights) : result (list Input) FoldError :=
  check? validate_selector_weights weights in
  check? try_each validate_input inputs in
  let? ranked := try_map (rank weights) (eligible weights inputs) in
  Ok ((sort_by ranked_cmp ranked).*1).

(** The single pass without a diversity bias. *)
Fixpoint pack_loop (inputs : list Input) (budget total : N) (selected : list Input) : list Input * N :=
  match inputs with
  | [] => (selected, total)
  | i :: inputs =>
      if (size i <=? budget - total)%N then pack_loop inputs budget (total + size i)%N (selected ++ [i])
      else pack_loop inputs budget total selected
  end.
End selector.

(** ** selector/diversity.rs *)

Record Key := { base : f64; ksize : N; kid : nat; position : nat }.

Definition tie (k : Key) : N * (nat * Reverse nat) := (ksize k, (kid k, Rev (position k))).
Definition kscore (k : Key) (factor : f64) : DeterministicScore := from_f64 (fmul (F:=F64) (base k) factor).

Record Category := {
  order : list nat;
  tree : list (option nat);
  leaves : nat;
  count : nat;
  penalized : bool;
  epoch : nat
}.

Record Winner := {
  w_score : DeterministicScore;
  w_size : N;
  w_id : nat;
  w_position : nat;
  w_category : nat;
  w_epoch : nat;
  w_index : nat
}.

(** [#[derive(Ord)]], over the fields in their order. *)
Definition winner_key (w : Winner) : Z * (Reverse N * (Reverse nat * (nat * (nat * (nat * nat))))) :=
  (w_score w, (Rev (w_size w), (Rev (w_id w), (w_position w, (w_category w, (w_epoch w, w_index w)))))).
Definition winner_cmp (a b : Winner) : comparison := cmp (winner_key a) (winner_key b).

(** [BinaryHeap::pop]: a greatest element, and the others. *)
Fixpoint heap_pop (heap : list Winner) : option (Winner * list Winner) :=
  match heap with
  | [] => None
  | w :: rest =>
      match heap_pop rest with
      | None => Some (w, [])
      | Some (m, others) =>
          match winner_cmp w m with
          | Gt => Some (w, rest)
          | _ => Some (m, w :: others)
          end
      end
  end.

(** [usize::next_power_of_two] *)
Definition next_power_of_two (n : nat) : nat := 2 ^ Nat.log2_up n.

(** [Vec::swap_remove] *)
Definition swap_remove {A} (i : nat) (l : list A) : option (A * list A) :=
  x ← l !! i; y ← last l; Some (x, take (length l - 1) (<[i := y]> l)).

(** [v[i] = x] *)
Definition set_at {A} (i : nat) (x : A) (l : list A) : option (list A) :=
  _ ← l !! i; Some (<[i := x]> l).

(** [partition_point]: how many elements come before the first that fails. *)
Fixpoint partition_point {A} (f : A → bool) (l : list A) : nat :=
  match l with [] => 0 | x :: l => if f x then S (partition_point f l) else 0 end.

Section trees.
Variable keys : list Key.

Definition better (a b : option nat) : option (option nat) :=
  match a, b with
  | Some a, Some b =>
      ka ← keys !! a; kb ← keys !! b;
      Some (Some (match cmp (tie ka) (tie kb) with Gt => b | _ => a end))
  | Some a, None | None, Some a => Some (Some a)
  | None, None => Some None
  end.

(** [tree[node] = better(tree[2 * node], tree[2 * node + 1], keys)] *)
Definition pull (tree : list (option nat)) (node : nat) : option (list (option nat)) :=
  l ← tree !! (2 * node); r ← tree !! (2 * node + 1); b ← better l r; set_at node b tree.

(** [for node in (1..=n).rev()] *)
Fixpoint pull_down (n : nat) (tree : list (option nat)) : option (list (option nat)) :=
  match n with
  | 0 => Some tree
  | S m => tree ← pull tree n; pull_down m tree
  end.

Fixpoint plant (leaves : nat) (slots : list (nat * nat)) (tree : list (option nat)) : option (list (option nat)) :=
  match slots with
  | [] => Some tree
  | (slot, index) :: slots => tree ← set_at (leaves + slot) (Some index) tree; plant leaves slots tree
  end.

Definition Category_new (order : list nat) (penalized : bool) : option Category :=
  based ← mapM (λ i, k ← keys !! i; Some (i, base k)) order;
  let order := (sort_by (λ a b : nat * f64, total_cmp b.2 a.2) based).*1 in
  let leaves := next_power_of_two (length order) in
  tree ← plant leaves (enumerate order) (replicate (2 * leaves) None);
  tree ← pull_down (leaves - 1) tree;
  Some {| order := order; tree := tree; leaves := leaves; count := 0; penalized := penalized; epoch := 0 |}.

(** [while node > 1]: one unit of fuel for each level. *)
Fixpoint climb (n node : nat) (tree : list (option nat)) : option (list (option nat)) :=
  match n with
  | 0 => None
  | S n => if 1 <? node then tree ← pull tree (node / 2); climb n (node / 2) tree else Some tree
  end.

Definition update (cat : Category) (slot : nat) (value : option nat) : option Category :=
  let node := leaves cat + slot in
  tree ← set_at node value (tree cat);
  tree ← climb (S node) node tree;
  Some {| order := order cat; tree := tree; leaves := leaves cat; count := count cat;
          penalized := penalized cat; epoch := epoch cat |}.

(** Whether a node has no candidate within the budget. *)
Definition none_fits (budget : N) (node : option nat) : option bool :=
  match node with
  | None => Some true
  | Some i => k ← keys !! i; Some (budget <? ksize k)%N
  end.

Fixpoint descend (n : nat) (cat : Category) (budget : N) (node : nat) : option nat :=
  match n with
  | 0 => None
  | S n =>
      if node <? leaves cat then
        t ← tree cat !! (2 * node); right ← none_fits budget t;
        descend n cat budget (if (right : bool) then 2 * node + 1 else 2 * node)
      else Some (node - leaves cat)
  end.

Definition first_fit (cat : Category) (budget : N) : option (option nat) :=
  root ← tree cat !! 1;
  unfit ← none_fits budget root;
  if (unfit : bool) then Some None else slot ← descend (S (leaves cat)) cat budget 1; Some (Some slot).

Fixpoint range_loop (n : nat) (tree : list (option nat)) (left right : nat) (best : option nat) : option (option nat) :=
  match n with
  | 0 => None
  | S n =>
      if left <? right then
        '(best, left) ← (if Nat.odd left then t ← tree !! left; b ← better best t; Some (b, S left) else Some (best, left));
        '(best, right) ← (if Nat.odd right then t ← tree !! (right - 1); b ← better best t; Some (b, right - 1)
                          else Some (best, right));
        range_loop n tree (left / 2) (right / 2) best
      else Some best
  end.

Definition range_best (cat : Category) (start stop : nat) : option nat :=
  best ← range_loop (S (leaves cat + stop)) (tree cat) (leaves cat + start) (leaves cat + stop) None;
  best.

(** [1.0 - bias as f64 * count / (count + 1.0)] *)
Definition diversity_factor (bias : f32) (count : nat) : f64 :=
  let count := of_Z (F:=F64) (Z.of_nat count) in
  fsub (F:=F64) f1 (fdiv (F:=F64) (fmul (F:=F64) (fcast (F:=F64) bias) count) (fadd (F:=F64) count f1)).

Definition category_best (cat : Category) (budget : N) (bias : f32) : option (option (nat * DeterministicScore)) :=
  first ← first_fit cat budget;
  match first with
  | None => Some None
  | Some first =>
      let factor := diversity_factor bias (count cat) in
      leader ← order cat !! first; k ← keys !! leader;
      let score := kscore k factor in
      ks ← mapM (keys !!.) (order cat);
      let stop := partition_point (λ k, (score <=? kscore k factor)%Z) ks in
      index ← range_best cat first stop;
      Some (Some (index, score))
  end.

Definition refresh (c : nat) (categories : list Category) (heap : list Winner) (budget : N) (bias : f32)
    : option (list Category * list Winner) :=
  bucket ← categories !! c;
  let bucket := {| order := order bucket; tree := tree bucket; leaves := leaves bucket; count := count bucket;
                   penalized := penalized bucket; epoch := S (epoch bucket) |} in
  best ← category_best bucket budget bias;
  heap ← match best with
         | Some (index, score) =>
             k ← keys !! index;
             Some ({| w_score := score; w_size := ksize k; w_id := kid k; w_position := position k;
                      w_category := c; w_epoch := epoch bucket; w_index := index |} :: heap)
         | None => Some heap
         end;
  Some (<[c := bucket]> categories, heap).

Fixpoint refresh_all (cs : list nat) (categories : list Category) (heap : list Winner) (budget : N) (bias : f32)
    : option (list Category * list Winner) :=
  match cs with
  | [] => Some (categories, heap)
  | c :: cs => '(categories, heap) ← refresh c categories heap budget bias; refresh_all cs categories heap budget bias
  end.
End trees.

Record Selecting := {
  s_keys : list Key;
  s_categories : list Category;
  s_heap : list Winner;
  s_remaining : list nat;
  s_selected : list nat;
  s_available : N
}.

Definition with_position (p : nat) (k : Key) : Key :=
  {| base := base k; ksize := ksize k; kid := kid k; position := p |}.

Definition counted (cat : Category) : Category :=
  {| order := order cat; tree := tree cat; leaves := leaves cat;
     count := if penalized cat then S (count cat) else count cat; penalized := penalized cat; epoch := epoch cat |}.

Section selecting.
Variable locations : list (nat * nat).
Variable bias : f32.

(** A candidate leaves its slot and the remaining ones; the last of these, when it
    moves to its position, is placed anew in its own category. *)
Definition vacate (keys : list Key) (categories : list Category) (remaining : list nat) (index c slot : nat)
    : option (list Key * list Category * list nat * option nat) :=
  k ← keys !! index;
  let p := position k in
  bucket ← categories !! c;
  bucket ← update keys bucket slot None;
  let categories := <[c := bucket]> categories in
  '(removed, remaining) ← swap_remove p remaining;
  _ ← guard (removed = index);
  match remaining !! p with
  | Some moved =>
      km ← keys !! moved;
      let keys := <[moved := with_position p km]> keys in
      '(moved_category, moved_slot) ← locations !! moved;
      bucket ← categories !! moved_category;
      bucket ← update keys bucket moved_slot (Some moved);
      Some (keys, <[moved_category := bucket]> categories, remaining, Some moved_category)
  | None => Some (keys, categories, remaining, None)
  end.

(** What follows a winner that fits. *)
Definition take_winner (st : Selecting) (winner : Winner) (heap : list Winner) : option Selecting :=
  let index := w_index winner in
  '(c, slot) ← locations !! index;
  k ← s_keys st !! index;
  '(keys, categories, remaining, moved_category) ← vacate (s_keys st) (s_categories st) (s_remaining st) index c slot;
  let available := (s_available st - ksize k)%N in
  bucket ← categories !! c;
  let categories := <[c := counted bucket]> categories in
  '(categories, heap) ← refresh keys c categories heap available bias;
  '(categories, heap) ←
    match moved_category with
    | Some m => if decide (m = c) then Some (categories, heap) else refresh keys m categories heap available bias
    | None => Some (categories, heap)
    end;
  Some {| s_keys := keys; s_categories := categories; s_heap := heap; s_remaining := remaining;
          s_selected := s_selected st ++ [index]; s_available := available |}.

(** [while let Some(winner) = heap.pop()] *)
Fixpoint select_winners (n : nat) (st : Selecting) : option (list nat) :=
  match n with
  | 0 => None
  | S n =>
      match heap_pop (s_heap st) with
      | None => Some (s_selected st)
      | Some (winner, heap) =>
          bucket ← s_categories st !! w_category winner;
          if decide (w_epoch winner ≠ epoch bucket) then
            select_winners n {| s_keys := s_keys st; s_categories := s_categories st; s_heap := heap;
                               s_remaining := s_remaining st; s_selected := s_selected st; s_available := s_available st |}
          else
            k ← s_keys st !! w_index winner;
            if (s_available st <? ksize k)%N then
              '(categories, heap) ← refresh (s_keys st) (w_category winner) (s_categories st) heap (s_available st) bias;
              select_winners n {| s_keys := s_keys st; s_categories := categories; s_heap := heap;
                                 s_remaining := s_remaining st; s_selected := s_selected st; s_available := s_available st |}
            else
              st ← take_winner st winner heap; select_winners n st
      end
  end.
End selecting.

Section diversity.
Context {T : Type}.
Abbreviation Input := (SelectorInput T).

(** The ranks of the identifiers in their order. *)
Definition distinct_ids (inputs : list Input) : list (string * nat) :=
  foldl (λ ids input, match bm_get (input_id input) ids with Some _ => ids | None => bm_insert (input_id input) 0 ids end)
    [] inputs.
Definition id_ranks (inputs : list Input) : list (string * nat) :=
  (λ '(r, (id, _)), (id, r)) <$> enumerate (distinct_ids inputs).

(** [groups.entry(category).or_default().push(index)] *)
Definition group (groups : list (option string * list nat)) (entry : nat * Input) : list (option string * list nat) :=
  let c := category entry.2 in bm_insert c (default [] (bm_get c groups) ++ [entry.1]) groups.
Definition groups_of (inputs : list Input) : list (option string * list nat) := foldl group [] (enumerate inputs).

Definition make_keys (inputs : list Input) (weights : SelectorWeights) : option (list Key) :=
  mapM (λ '(p, input), id ← bm_get (input_id input) (id_ranks inputs);
                       Some {| base := pragmatic_plus_epistemic input (epistemic_weight weights); ksize := size input;
                               kid := id; position := p |})
    (enumerate inputs).

Fixpoint place (c : nat) (slots : list (nat * nat)) (locations : list (nat * nat)) : option (list (nat * nat)) :=
  match slots with
  | [] => Some locations
  | (slot, index) :: slots => locations ← set_at index (c, slot) locations; place c slots locations
  end.
Fixpoint place_all (categories : list (nat * Category)) (locations : list (nat * nat)) : option (list (nat * nat)) :=
  match categories with
  | [] => Some locations
  | (c, bucket) :: categories => locations ← place c (enumerate (order bucket)) locations; place_all categories locations
  end.

(** Enough fuel: each of [n] selections leaves at most two more entries in the heap,
    and between two selections each category is refreshed at most once. *)
Definition pops (n categories : nat) : nat := S (n * (categories + 2) + 2 * categories).

Definition diversity_select (inputs : list Input) (budget : N) (weights : SelectorWeights) : option (list nat) :=
  keys ← make_keys inputs weights;
  categories ← mapM (λ '(name, order), Category_new keys order (match name with Some _ => true | None => false end))
                 (groups_of inputs);
  locations ← place_all (enumerate categories) (replicate (length inputs) (0, 0));
  '(categories, heap) ← refresh_all keys (seq 0 (length categories)) categories [] budget (diversity_bias weights);
  select_winners locations (diversity_bias weights) (pops (length inputs) (length categories))
    {| s_keys := keys; s_categories := categories; s_heap := heap; s_remaining := seq 0 (length inputs);
       s_selected := []; s_available := budget |}.

(** [inputs[index].take().expect("selected once")] *)
Fixpoint take_all (inputs : list (option Input)) (indices : list nat) (total : N) (selected : list Input)
    : option (list Input * N) :=
  match indices with
  | [] => Some (selected, total)
  | index :: indices =>
      slot ← inputs !! index; input ← slot;
      take_all (<[index := None]> inputs) indices (total + size input)%N (selected ++ [input])
  end.

(** [GreedySelector::select] *)
Definition greedy_select (inputs : list Input) (budget : N) (weights : SelectorWeights)
    : option (result (SelectorOutput T) FoldError) :=
  match prepare inputs weights with
  | Err e => Some (Err e)
  | Ok inputs =>
      '(selected, total) ←
        (if feq (diversity_bias weights) f0 then Some (pack_loop inputs budget 0 [])
         else indices ← diversity_select inputs budget weights; take_all (Some <$> inputs) indices 0 []);
      Some (Ok {| out_selected := selected; total_size := total; out_budget := budget |})
  end.

(** ** selector_tests/diversity_reference.rs *)

Definition effective_score (item : Input) (counts : list (string * nat)) (bias epistemic_weight : f32) : f64 :=
  let base := pragmatic_plus_epistemic item epistemic_weight in
  if feq bias f0 then base
  else
    let count := of_Z (F:=F64) (Z.of_nat (default 0 (c ← category item; bm_get c counts))) in
    fmul (F:=F64) base (fsub (F:=F64) f1 (fdiv (F:=F64) (fmul (F:=F64) (fcast (F:=F64) bias) count)
                                             (fadd (F:=F64) count f1))).

(** The candidates within the budget, with their positions and scores. *)
Fixpoint candidates (weights : SelectorWeights) (counts : list (string * nat)) (budget total : N)
    (remaining : list (nat * Input)) : result (list (nat * Input * DeterministicScore)) FoldError :=
  match remaining with
  | [] => Ok []
  | (i, item) :: remaining =>
      if (budget - total <? size item)%N then candidates weights counts budget total remaining
      else
        let eff := effective_score item counts (diversity_bias weights) (epistemic_weight weights) in
        check? must_be_finite ("effective score for '" +:+ input_id item +:+ "'") eff in
        let? rest := candidates weights counts budget total remaining in
        Ok ((i, item, from_f64 eff) :: rest)
  end.

Definition candidate_cmp (a b : nat * Input * DeterministicScore) : comparison :=
  then_cmp (cmp a.2 b.2) (then_cmp (cmp (size b.1.2) (size a.1.2)) (cmp (input_id b.1.2) (input_id a.1.2))).

(** [Iterator::max_by]: the last of the greatest elements. *)
Definition max_by {A} (f : A → A → comparison) (l : list A) : option A :=
  match l with
  | [] => None
  | x :: l => Some (foldl (λ m y, match f m y with Gt => m | _ => y end) x l)
  end.

Fixpoint reference_loop (n : nat) (weights : SelectorWeights) (budget : N) (remaining : list Input)
    (counts : list (string * nat)) (total : N) (selected : list Input) : option (result (list Input * N) FoldError) :=
  match n with
  | 0 => None
  | S n =>
      match remaining with
      | [] => Some (Ok (selected, total))
      | _ =>
          match candidates weights counts budget total (enumerate remaining) with
          | Err e => Some (Err e)
          | Ok l =>
              match max_by candidate_cmp l with
              | None => Some (Ok (selected, total))
              | Some (idx, _, _) =>
                  '(item, remaining) ← swap_remove idx remaining;
                  let counts := match category item with
                                | Some cat => bm_insert cat (S (default 0 (bm_get cat counts))) counts
                                | None => counts
                                end in
                  reference_loop n weights budget remaining counts (total + size item)%N (selected ++ [item])
              end
          end
      end
  end.

(** [ReferenceSelector::select] *)
Definition reference_select (inputs : list Input) (budget : N) (weights : SelectorWeights)
    : option (result (SelectorOutput T) FoldError) :=
  match prepare inputs weights with
  | Err e => Some (Err e)
  | Ok inputs =>
      r ← (if feq (diversity_bias weights) f0 then Some (Ok (pack_loop inputs budget 0 []))
           else reference_loop (S (length inputs)) weights budget inputs [] 0 []);
      Some (let? (selected, total) := r in
            Ok {| out_selected := selected; total_size := total; out_budget := budget |})
  end.
End diversity.
