(* ===== verification/SelectorTree.v ===== *)
(** The segment trees of the diversity selector: every node holds the least
    candidate, by size, identifier and position, of the leaves below it. *)

From Stdlib Require Import ZArith Lia String SpecFloat.
From stdpp Require Import base tactics list numbers strings.
From S2P Require Import Prelude Rounding Float Score Fold Selector.
#[local] Open Scope nat_scope.

(** ** Orders *)

#[export] Instance Reverse_OrdLaws {A} `{OrdLaws A} : OrdLaws (Reverse A).
Proof.
  split; unfold cmp, Reverse_Ord.
  - intros [a]. apply cmp_refl.
  - intros [a] [b] Hc%cmp_eq. congruence.
  - intros [a] [b]. apply cmp_flip.
  - intros [a] [b] [c] H1 H2. by eapply cmp_trans.
Qed.

#[export] Instance option_OrdLaws {A} `{OrdLaws A} : OrdLaws (option A).
Proof.
  split; unfold cmp, option_Ord.
  - intros [a|]; [apply cmp_refl|done].
  - intros [a|] [b|]; try done. by intros ->%cmp_eq.
  - intros [a|] [b|]; try done. apply cmp_flip.
  - intros [a|] [b|] [c|]; try done. apply cmp_trans.
Qed.

(** At most, in an order. *)
Definition cmp_le {A} `{Ord A} (a b : A) : Prop := cmp a b ≠ Gt.

Lemma cmp_le_refl {A} `{OrdLaws A} (a : A) : cmp_le a a.
Proof. unfold cmp_le. by rewrite cmp_refl. Qed.

Lemma cmp_le_trans {A} `{OrdLaws A} (a b c : A) : cmp_le a b → cmp_le b c → cmp_le a c.
Proof. apply comparator_trans, _. Qed.

Lemma cmp_le_total {A} `{OrdLaws A} (a b : A) : cmp a b = Gt → cmp_le b a.
Proof. unfold cmp_le. rewrite (cmp_flip a b). by intros ->. Qed.

Lemma cmp_le_lt {A} `{OrdLaws A} (a b : A) : cmp_le a b → a ≠ b → cmp a b = Lt.
Proof. unfold cmp_le. destruct (cmp a b) eqn:E; [|done|done]. by apply cmp_eq in E. Qed.

(** ** Least candidates *)

Section least.
Variable keys : list Key.

Definition tie_le (i j : nat) : Prop :=
  ∃ a b, keys !! i = Some a ∧ keys !! j = Some b ∧ cmp_le (tie a) (tie b).

Definition least (P : nat → Prop) (b : option nat) : Prop :=
  match b with None => ∀ i, ¬ P i | Some i => P i ∧ ∀ j, P j → tie_le i j end.

Lemma least_iff P Q b : (∀ i, P i ↔ Q i) → least P b → least Q b.
Proof. intros Hpq. destruct b; simpl; intros Hl; [destruct Hl as [? Hl]; split|]; naive_solver. Qed.

Lemma tie_le_trans i j l : tie_le i j → tie_le j l → tie_le i l.
Proof.
  intros (a & b & Ha & Hb & Hab) (b' & c & Hb' & Hc & Hbc). simplify_eq.
  exists a, c. split_and!; [done..|]. by eapply cmp_le_trans.
Qed.

Lemma better_least P Q l r :
  least P l → least Q r → ∃ b, better keys l r = Some b ∧ least (λ i, P i ∨ Q i) b.
Proof.
  unfold better. destruct l as [i|], r as [j|]; simpl; intros Hl Hr.
  - destruct Hl as [Pi Hi], Hr as [Qj Hj]. destruct (Hi i Pi) as (a & _ & Ha & _). destruct (Hj j Qj) as (b & _ & Hb & _).
    rewrite Ha, Hb. simpl. eexists. split; [done|]. destruct (cmp (tie a) (tie b)) eqn:E; simpl.
    1,2: assert (tie_le i j) as Hij by (exists a, b; unfold cmp_le; by rewrite E).
    1,2: split; [by left|]; intros x [Hx|Hx]; [by apply Hi|by eapply tie_le_trans, Hj].
    assert (tie_le j i) as Hji by (exists b, a; split_and!; [done..|by apply cmp_le_total]).
    split; [by right|]. intros x [Hx|Hx]; [by eapply tie_le_trans, Hi|by apply Hj].
  - eexists. split; [done|]. split; [left; apply Hl|]. intros x [Hx|Hx]; [by apply Hl|by apply Hr in Hx].
  - eexists. split; [done|]. split; [right; apply Hr|]. intros x [Hx|Hx]; [by apply Hl in Hx|by apply Hr].
  - eexists. split; [done|]. intros x [Hx|Hx]; naive_solver.
Qed.
End least.

(** ** Trees of [2 ^ d] leaves *)

Section tree.
Variable d : nat.

Definition is_leaf (m : nat) : Prop := 2 ^ d ≤ m < 2 * 2 ^ d.
(** How far a node is above its leaves. *)
Definition height (n : nat) : nat := d - Nat.log2 n.
Definition is_node (n : nat) : Prop := 1 ≤ n < 2 * 2 ^ d.

(** A leaf below node [n] at height [h] holds [i]. *)
Definition under (t : list (option nat)) (h n i : nat) : Prop :=
  ∃ m, is_leaf m ∧ m / 2 ^ h = n ∧ t !! m = Some (Some i).

Definition node_ok (keys : list Key) (t : list (option nat)) (n : nat) : Prop :=
  ∃ b, t !! n = Some b ∧ least keys (under t (height n) n) b.

Lemma pow_pos n : 1 ≤ 2 ^ n.
Proof. induction n; simpl; lia. Qed.

Lemma div_pow_succ m h : m / 2 ^ S h = m / 2 ^ h / 2.
Proof. rewrite Nat.Div0.div_div. f_equal. simpl. lia. Qed.

Lemma half_cases x n : x / 2 = n ↔ x = 2 * n ∨ x = 2 * n + 1.
Proof.
  pose proof (Nat.div_mod_eq x 2). pose proof (Nat.mod_upper_bound x 2). split; [lia|].
  intros [->| ->]; symmetry; [apply (Nat.div_unique _ _ _ 0)|apply (Nat.div_unique _ _ _ 1)]; lia.
Qed.

Lemma node_log n : is_node n → Nat.log2 n ≤ d.
Proof.
  intros [H1 H2]. apply Nat.lt_succ_r, Nat.log2_lt_pow2; [lia|]. by simpl; lia.
Qed.

Lemma inner_log n : 1 ≤ n < 2 ^ d → Nat.log2 n < d.
Proof. intros [H1 H2]. apply Nat.log2_lt_pow2; lia. Qed.

Lemma inner_height n : 1 ≤ n < 2 ^ d →
  height n = S (height (2 * n)) ∧ height (2 * n + 1) = height (2 * n).
Proof.
  intros Hn. pose proof (inner_log n Hn). unfold height.
  rewrite Nat.log2_double, Nat.log2_succ_double by lia. lia.
Qed.

Lemma child_height p c : 1 ≤ p < 2 ^ d → c = 2 * p ∨ c = 2 * p + 1 → height c = height (2 * p).
Proof. intros Hp [->| ->]; [done|by apply inner_height]. Qed.

Lemma leaf_log m : is_leaf m → Nat.log2 m = d.
Proof. intros [H1 H2]. apply Nat.log2_unique; simpl; lia. Qed.
Lemma leaf_height m : is_leaf m → height m = 0.
Proof. intros Hm. unfold height. rewrite leaf_log by done. lia. Qed.

Lemma under_split t h n i : under t (S h) n i ↔ under t h (2 * n) i ∨ under t h (2 * n + 1) i.
Proof.
  unfold under. setoid_rewrite div_pow_succ. setoid_rewrite half_cases. naive_solver.
Qed.

Lemma under_leaf t m i : is_leaf m → under t 0 m i ↔ t !! m = Some (Some i).
Proof.
  intros Hm. unfold under. rewrite Nat.pow_0_r. setoid_rewrite Nat.div_1_r.
  split; [intros (? & _ & -> & ?); done|]. intros Ht. by exists m.
Qed.

Lemma node_leaf_ok keys t m :
  is_leaf m → length t = 2 * 2 ^ d → (∀ i, t !! m = Some (Some i) → is_Some (keys !! i)) → node_ok keys t m.
Proof.
  intros Hm Hl Hk. destruct (lookup_lt_is_Some_2 t m) as [b Hb]; [unfold is_leaf in Hm; lia|].
  exists b. split; [done|]. rewrite leaf_height by done.
  eapply least_iff; [intros i; symmetry; by apply under_leaf|]. rewrite Hb. destruct b as [i|]; simpl; [|naive_solver].
  split; [done|]. intros j [= <-]. destruct (Hk i Hb) as [a Ha]. exists a, a. split_and!; [done..|apply cmp_le_refl].
Qed.

(** Writing an inner node leaves the leaves alone. *)
Lemma under_insert t n b h n' i : n < 2 ^ d → under (<[n:=b]> t) h n' i ↔ under t h n' i.
Proof.
  intros Hn. unfold under. split; intros (m & Hm & Hd & Ht); exists m; split_and!; try done; unfold is_leaf in Hm.
  - by rewrite list_lookup_insert_ne in Ht by lia.
  - by rewrite list_lookup_insert_ne by lia.
Qed.

Lemma node_ok_insert keys t n b n' : n < 2 ^ d → n' ≠ n → node_ok keys t n' → node_ok keys (<[n:=b]> t) n'.
Proof.
  intros Hn Hne (c & Hc & Hl). exists c. split; [by rewrite list_lookup_insert_ne by done|].
  eapply least_iff; [|exact Hl]. intros i. symmetry. by apply under_insert.
Qed.

Lemma set_at_Some {A} i (x : A) l : i < length l → set_at i x l = Some (<[i:=x]> l).
Proof. intros [y Hy]%lookup_lt_is_Some_2. unfold set_at. by rewrite Hy. Qed.

Lemma pull_ok keys t n :
  length t = 2 * 2 ^ d → 1 ≤ n < 2 ^ d → node_ok keys t (2 * n) → node_ok keys t (2 * n + 1) →
  ∃ b, pull keys t n = Some (<[n:=b]> t) ∧ node_ok keys (<[n:=b]> t) n.
Proof.
  intros Hl Hn (l & Hlk & Hll) (r & Hrk & Hrr). destruct (inner_height n Hn) as [Hh Hh'].
  rewrite Hh' in Hrr. destruct (better_least _ _ _ _ _ Hll Hrr) as (b & Hb & Hlb). exists b. split.
  - unfold pull. rewrite Hlk, Hrk. simpl. rewrite Hb. simpl. apply set_at_Some. lia.
  - exists b. split; [by rewrite list_lookup_insert_eq by lia|]. rewrite Hh.
    eapply least_iff; [|exact Hlb]. intros i. simpl. rewrite under_insert by lia. symmetry. apply under_split.
Qed.

(** The leaves of two trees are the same. *)
Definition same_leaves (t t' : list (option nat)) : Prop := length t' = length t ∧ ∀ m, 2 ^ d ≤ m → t' !! m = t !! m.

Lemma same_leaves_insert t n b : n < 2 ^ d → same_leaves t (<[n:=b]> t).
Proof. intros Hn. split; [apply length_insert|]. intros m Hm. rewrite list_lookup_insert_ne; [done|lia]. Qed.

#[export] Instance same_leaves_preorder : PreOrder same_leaves.
Proof.
  split; [by intros t|]. intros t1 t2 t3 [H1 H2] [H3 H4]. split; [congruence|].
  intros m Hm. by rewrite H4, H2.
Qed.

Definition tree_ok (keys : list Key) (t : list (option nat)) : Prop :=
  length t = 2 * 2 ^ d ∧ ∀ n, is_node n → node_ok keys t n.

Lemma pull_down_ok keys n t :
  length t = 2 * 2 ^ d → n < 2 ^ d → (∀ m, n < m < 2 * 2 ^ d → node_ok keys t m) →
  ∃ t', pull_down keys n t = Some t' ∧ same_leaves t t' ∧ tree_ok keys t'.
Proof.
  revert t. induction n as [|n IH]; intros t Hl Hn Hok.
  - exists t. split_and!; [done|done|split; [done|]]. intros m Hm. apply Hok. unfold is_node in Hm. lia.
  - destruct (pull_ok keys t (S n)) as (b & Hp & Hb); [done|lia|apply Hok; lia..|].
    destruct (IH (<[S n:=b]> t)) as (t' & Ht' & Hs & Hto).
    + by rewrite length_insert.
    + lia.
    + intros m Hm. destruct (decide (m = S n)) as [->|Hne]; [done|]. apply node_ok_insert; [lia|done|apply Hok; lia].
    + exists t'. split_and!; [|etrans; [apply (same_leaves_insert _ (S n) b); lia|done]|done].
      change (pull_down keys (S n) t) with (t ← pull keys t (S n); pull_down keys n t). by rewrite Hp.
Qed.

(** *** The path of a leaf to the root *)

Definition above (m n : nat) : Prop := m / 2 ^ height n = n.
#[export] Instance above_dec m n : Decision (above m n) := decide (m / 2 ^ height n = n).

Lemma above_half m n : 1 < n → is_node n → above m n → above m (n / 2) ∧ 1 ≤ n / 2 < 2 ^ d.
Proof.
  unfold above. intros H1 Hn Ha. pose proof (Nat.div_mod_eq n 2). pose proof (Nat.mod_upper_bound n 2).
  assert (1 ≤ n / 2 < 2 ^ d) as Hp by (unfold is_node in Hn; lia). split; [|done].
  destruct (inner_height _ Hp) as [Hh Hh'].
  assert (height n = height (2 * (n / 2))) as Hhn by (apply child_height; lia).
  by rewrite Hh, div_pow_succ, <-Hhn, Ha.
Qed.

Lemma above_between m n p :
  1 < n → is_node n → is_node p → above m n → above m p → n / 2 < p → n ≤ p.
Proof.
  unfold above. intros H1 Hn Hp Ha Hb Hlt. destruct (Nat.le_gt_cases n p) as [?|Hpn]; [done|]. exfalso.
  pose proof (node_log n Hn). pose proof (node_log p Hp).
  assert (Nat.log2 p ≤ Nat.log2 n) as Hle by (apply Nat.log2_le_mono; lia).
  unfold height in *. destruct (Nat.eq_dec (Nat.log2 p) (Nat.log2 n)) as [E|Hne].
  - rewrite E in Hb. lia.
  - assert (m / 2 ^ (d - Nat.log2 p) ≤ m / 2 ^ S (d - Nat.log2 n)).
    { apply Nat.div_le_compat_l. split; [pose proof (pow_pos (S (d - Nat.log2 n))); lia|]. apply Nat.pow_le_mono_r; lia. }
    rewrite div_pow_succ, Ha in *. lia.
Qed.

Lemma climb_ok keys m n node t :
  node < n → length t = 2 * 2 ^ d → is_node node → above m node →
  (∀ p, is_node p → ¬ above m p ∨ node ≤ p → node_ok keys t p) →
  ∃ t', climb keys n node t = Some t' ∧ same_leaves t t' ∧ tree_ok keys t'.
Proof.
  revert node t. induction n as [|n IH]; intros node t Hf Hl Hn Ha Hok; [lia|].
  change (climb keys (S n) node t) with (if 1 <? node then t ← pull keys t (node / 2); climb keys n (node / 2) t else Some t).
  destruct (Nat.ltb_spec 1 node) as [H1|H1].
  2: { exists t. split_and!; [done|done|split; [done|]]. intros p Hp. apply Hok; [done|]. right. unfold is_node in *. lia. }
  destruct (above_half m node H1 Hn Ha) as [Hap Hp].
  pose proof (Nat.div_mod_eq node 2). pose proof (Nat.mod_upper_bound node 2).
  destruct (inner_height _ Hp) as [Hh Hh'].
  assert (∀ c, c = 2 * (node / 2) ∨ c = 2 * (node / 2) + 1 → node_ok keys t c) as Hc.
  { intros c Hc. apply Hok; [unfold is_node; lia|]. destruct (decide (c = node)) as [->|Hne]; [right; lia|left].
    intros Hac. apply Hne. unfold above in Hac, Ha.
    assert (height c = height node) as Heq; [|rewrite Heq in Hac; congruence].
    transitivity (height (2 * (node / 2))); [|symmetry]; apply child_height; lia. }
  destruct (pull_ok keys t (node / 2)) as (b & Hb & Hbok); [done|lia|apply Hc; lia..|].
  rewrite Hb. change (Some (<[node / 2:=b]> t) ≫= climb keys n (node / 2)) with (climb keys n (node / 2) (<[node / 2:=b]> t)).
  destruct (IH (node / 2) (<[node / 2:=b]> t)) as (t' & Ht' & Hs & Hto).
  - lia.
  - by rewrite length_insert.
  - unfold is_node. lia.
  - done.
  - intros p Hpn Hor. destruct (decide (p = node / 2)) as [->|Hne]; [done|]. apply node_ok_insert; [lia|done|].
    apply Hok; [done|]. destruct Hor as [?|Hle]; [by left|].
    destruct (decide (above m p)) as [Hab|?]; [right|by left].
    apply (above_between m node p); try done. lia.
  - exists t'. split_and!; [done| |done]. etrans; [apply (same_leaves_insert _ (node / 2) b); lia|done].
Qed.

(** A leaf is written and the path above it repaired; the candidates of the other
    leaves keep their keys. *)
Lemma least_keys keys keys' P b :
  (∀ i, P i → keys' !! i = keys !! i) → least keys P b → least keys' P b.
Proof.
  intros Hk. destruct b as [i|]; [|done]. intros [Hi Hl]. split; [done|]. intros j Hj.
  destruct (Hl j Hj) as (a & c & Ha & Hc & Hle). exists a, c. by rewrite !Hk.
Qed.

Lemma repair_ok keys keys' t m v :
  tree_ok keys t → is_leaf m → (∀ i, v = Some i → is_Some (keys' !! i)) →
  (∀ l i, is_leaf l → l ≠ m → t !! l = Some (Some i) → keys' !! i = keys !! i) →
  ∃ t', (t ← set_at m v t; climb keys' (S m) m t) = Some t' ∧ same_leaves (<[m:=v]> t) t' ∧ tree_ok keys' t'.
Proof.
  intros [Hl Ht] Hm Hv Hk. pose proof Hm as [Hm1 Hm2]. rewrite set_at_Some by lia. cbn [mbind option_bind].
  pose proof (pow_pos d). apply (climb_ok keys' m); [lia|by rewrite length_insert|unfold is_node; lia| |].
  { unfold above. by rewrite leaf_height, Nat.pow_0_r, Nat.div_1_r. }
  intros p Hp Hor. destruct (decide (p = m)) as [->|Hne].
  { apply node_leaf_ok; [done|by rewrite length_insert|]. intros i. rewrite list_lookup_insert_eq by lia. intros [= ->]. by apply Hv. }
  assert (¬ above m p) as Hna.
  { destruct Hor as [?|Hle]; [done|]. assert (is_leaf p) as Hlp by (unfold is_leaf, is_node in *; lia).
    unfold above. rewrite leaf_height, Nat.pow_0_r, Nat.div_1_r by done. done. }
  destruct (Ht p Hp) as (b & Hb & Hlb). exists b. split; [by rewrite list_lookup_insert_ne by done|].
  assert (∀ l, l / 2 ^ height p = p → l ≠ m) as Hlm by (intros l Hlp ->; done).
  eapply least_iff; [|eapply least_keys; [|exact Hlb]].
  - intros i. unfold under. split; intros (l & Hlf & Hlp & Htl); exists l; split_and!; try done.
    + rewrite list_lookup_insert_ne; [done|]. symmetry. by apply Hlm.
    + rewrite list_lookup_insert_ne in Htl; [done|]. symmetry. by apply Hlm.
  - intros i (l & Hlf & Hlp & Htl). by apply (Hk l); [..|apply Hlm|].
Qed.

(** *** The first candidate that fits *)

Section search.
Variable keys : list Key.
Variable t : list (option nat).
Hypothesis Ht : tree_ok keys t.

Definition fits (budget : N) (i : nat) : Prop := ∃ k, keys !! i = Some k ∧ (ksize k ≤ budget)%N.

Lemma none_fits_spec budget n :
  is_node n → ∃ b r, t !! n = Some b ∧ none_fits keys budget b = Some r ∧
    if r then ∀ i, under t (height n) n i → ¬ fits budget i
    else ∃ i, under t (height n) n i ∧ fits budget i.
Proof using Ht.
  intros Hn. destruct (proj2 Ht n Hn) as (b & Hb & Hl). exists b. destruct b as [i|]; simpl.
  - destruct Hl as [Hi Hl]. destruct (Hl i Hi) as (a & _ & Ha & _). rewrite Ha. simpl. eexists. split_and!; [done..|].
    destruct (N.ltb_spec budget (ksize a)) as [Hlt|Hle]; [|exists i; split; [done|by exists a]].
    intros j Hj (k & Hk & Hle). destruct (Hl j Hj) as (a' & k' & Ha' & Hk' & Hc).
    rewrite Ha in Ha'. rewrite Hk in Hk'. injection Ha' as <-. injection Hk' as <-.
    unfold cmp_le, cmp, tie, prod_Ord, then_cmp, cmp, N_Ord in Hc. simpl in Hc.
    destruct (N.compare_spec (ksize a) (ksize k)); [lia|lia|done].
  - exists true. split_and!; [done..|]. intros i Hi. by apply Hl in Hi.
Qed.

Lemma descend_ok cat budget n node :
  tree cat = t → leaves cat = 2 ^ d → is_node node → height node < n →
  (∃ i, under t (height node) node i ∧ fits budget i) →
  (∀ m i, is_leaf m → t !! m = Some (Some i) → fits budget i → node ≤ m / 2 ^ height node) →
  ∃ slot i, descend keys n cat budget node = Some slot ∧ slot < 2 ^ d ∧
    t !! (2 ^ d + slot) = Some (Some i) ∧ fits budget i ∧
    ∀ s j, s < 2 ^ d → t !! (2 ^ d + s) = Some (Some j) → fits budget j → slot ≤ s.
Proof using Ht.
  intros Hct Hcl. revert node. induction n as [|n IH]; intros node Hn Hf (i & Hu & Hi) Hfirst; [lia|].
  change (descend keys (S n) cat budget node) with
    (if node <? leaves cat then t ← tree cat !! (2 * node); right ← none_fits keys budget t;
        descend keys n cat budget (if (right : bool) then 2 * node + 1 else 2 * node)
      else Some (node - leaves cat)).
  rewrite Hct, Hcl. destruct (Nat.ltb_spec node (2 ^ d)) as [Hlt|Hge].
  - assert (1 ≤ node < 2 ^ d) as Hin by (unfold is_node in Hn; lia). destruct (inner_height _ Hin) as [Hh Hh'].
    destruct (none_fits_spec budget (2 * node)) as (b & r & -> & Hr & Hs); [unfold is_node; lia|].
    cbn [mbind option_bind]. rewrite Hr. cbn [mbind option_bind]. rewrite Hh in Hu, Hfirst.
    setoid_rewrite div_pow_succ in Hfirst. apply under_split in Hu. destruct r.
    + destruct Hu as [Hu|Hu]; [by destruct (Hs i Hu)|]. rewrite <-Hh' in Hu. apply IH; [unfold is_node; lia|lia|by exists i|].
      intros m j Hm Hmt Hj. rewrite Hh'. specialize (Hfirst m j Hm Hmt Hj).
      assert (m / 2 ^ height (2 * node) ≠ 2 * node) as Hne by (intros Hmn; apply (Hs j); [by exists m|done]).
      pose proof (Nat.div_mod_eq (m / 2 ^ height (2 * node)) 2).
      pose proof (Nat.mod_upper_bound (m / 2 ^ height (2 * node)) 2). lia.
    + apply IH; [unfold is_node; lia|lia|exact Hs|]. intros m j Hm Hmt Hj. specialize (Hfirst m j Hm Hmt Hj).
      pose proof (Nat.div_mod_eq (m / 2 ^ height (2 * node)) 2). lia.
  - assert (is_leaf node) as Hleaf by (unfold is_leaf, is_node in *; lia). rewrite leaf_height in Hu, Hfirst by done.
    apply under_leaf in Hu; [|done]. assert (2 ^ d + (node - 2 ^ d) = node) as Hnode by lia.
    exists (node - 2 ^ d), i. split_and!; [done|unfold is_leaf in Hleaf; lia|by rewrite Hnode|done|].
    intros s j Hs Hsj Hj. specialize (Hfirst (2 ^ d + s) j ltac:(unfold is_leaf; lia) Hsj Hj).
    rewrite Nat.pow_0_r, Nat.div_1_r in Hfirst. lia.
Qed.

(** *** The least candidate of a range *)

Definition within (h left right i : nat) : Prop :=
  ∃ m, is_leaf m ∧ left ≤ m / 2 ^ h < right ∧ t !! m = Some (Some i).

Lemma within_left h left right i :
  left < right → within h left right i ↔ under t h left i ∨ within h (S left) right i.
Proof.
  intros Hlt. unfold within, under. split.
  - intros (m & Hm & Hr & Htm). destruct (decide (m / 2 ^ h = left)) as [?|?]; [left|right]; exists m; split_and!; (done || lia).
  - intros [(m & Hm & Hr & Htm)|(m & Hm & Hr & Htm)]; exists m; split_and!; (done || lia).
Qed.
Lemma within_right h left right i :
  left < right → within h left right i ↔ under t h (right - 1) i ∨ within h left (right - 1) i.
Proof.
  intros Hlt. unfold within, under. split.
  - intros (m & Hm & Hr & Htm). destruct (decide (m / 2 ^ h = right - 1)) as [?|?]; [left|right]; exists m; split_and!; (done || lia).
  - intros [(m & Hm & Hr & Htm)|(m & Hm & Hr & Htm)]; exists m; split_and!; (done || lia).
Qed.
Lemma within_half h left right i :
  Nat.odd left = false → Nat.odd right = false → within h left right i ↔ within (S h) (left / 2) (right / 2) i.
Proof.
  intros Hl Hr. assert (∀ x, Nat.odd x = false → x = 2 * (x / 2)) as Heven.
  { intros x Hx. rewrite <-Nat.negb_even, negb_false_iff, Nat.even_spec in Hx. destruct Hx as [y ->].
    f_equal. symmetry. apply half_cases. by left. }
  apply Heven in Hl, Hr. unfold within. setoid_rewrite div_pow_succ.
  split; intros (m & Hm & Hr' & Htm); exists m; split_and!; try done;
    pose proof (Nat.div_mod_eq (m / 2 ^ h) 2); pose proof (Nat.mod_upper_bound (m / 2 ^ h) 2); lia.
Qed.
Lemma within_empty h left right i : right ≤ left → ¬ within h left right i.
Proof. intros Hle (m & _ & Hr & _). lia. Qed.

Definition take_left (left : nat) (best : option nat) : option (option nat * nat) :=
  if Nat.odd left then t ← t !! left; b ← better keys best t; Some (b, S left) else Some (best, left).
Definition take_right (right : nat) (best : option nat) : option (option nat * nat) :=
  if Nat.odd right then t ← t !! (right - 1); b ← better keys best t; Some (b, right - 1) else Some (best, right).

Lemma take_left_ok e h left right best P :
  h + e = d → 2 ^ e ≤ left → right ≤ 2 * 2 ^ e → left < right → least keys P best →
  ∃ best' left' P', take_left left best = Some (best', left') ∧ least keys P' best' ∧ Nat.odd left' = false ∧
    left ≤ left' ≤ S left ∧ left' ≤ right ∧ ∀ i, P i ∨ within h left right i ↔ P' i ∨ within h left' right i.
Proof using Ht.
  intros He Hl Hr Hlt Hb. unfold take_left. destruct (Nat.odd left) eqn:Ho.
  2: { exists best, left, P. split_and!; [done..|lia|lia|lia|done]. }
  assert (is_node left ∧ height left = h) as [Hn Hh].
  { assert (Nat.log2 left = e) as Hlog by (apply Nat.log2_unique; simpl; lia).
    split; [|unfold height; rewrite Hlog; lia]. pose proof (pow_pos e). unfold is_node. rewrite <-He, Nat.pow_add_r.
    pose proof (pow_pos h). nia. }
  destruct (proj2 Ht left Hn) as (b & -> & Hlb). simpl. destruct (better_least _ _ _ _ _ Hb Hlb) as (b' & -> & Hb').
  simpl. rewrite Hh in Hb'. eexists _, _, _. split_and!; [done|exact Hb'|by rewrite Nat.odd_succ, <-Nat.negb_odd, Ho|lia..|].
  intros i. rewrite (within_left h left right) by done. tauto.
Qed.

Lemma take_right_ok e h left right best P :
  h + e = d → 2 ^ e ≤ left → right ≤ 2 * 2 ^ e → left ≤ right → Nat.odd left = false → least keys P best →
  ∃ best' right' P', take_right right best = Some (best', right') ∧ least keys P' best' ∧ Nat.odd right' = false ∧
    right' ≤ right ∧ left ≤ right' ∧ ∀ i, P i ∨ within h left right i ↔ P' i ∨ within h left right' i.
Proof using Ht.
  intros He Hl Hr Hle Hol Hb. unfold take_right. destruct (Nat.odd right) eqn:Ho.
  2: { exists best, right, P. split_and!; [done..|lia|lia|done]. }
  assert (left < right) as Hlt by (destruct (decide (left = right)) as [->|]; [congruence|lia]).
  assert (is_node (right - 1) ∧ height (right - 1) = h) as [Hn Hh].
  { assert (Nat.log2 (right - 1) = e) as Hlog by (apply Nat.log2_unique; simpl; lia).
    split; [|unfold height; rewrite Hlog; lia]. pose proof (pow_pos e). unfold is_node. rewrite <-He, Nat.pow_add_r.
    pose proof (pow_pos h). nia. }
  destruct (proj2 Ht _ Hn) as (b & -> & Hlb). simpl. destruct (better_least _ _ _ _ _ Hb Hlb) as (b' & -> & Hb').
  simpl. rewrite Hh in Hb'. eexists _, _, _. split_and!; [done|exact Hb'| |lia..|].
  - assert (right = S (right - 1)) as Hs by lia. rewrite Hs, Nat.odd_succ, <-Nat.negb_odd in Ho. by apply negb_true_iff.
  - intros i. rewrite (within_right h left right) by done. tauto.
Qed.

Lemma range_loop_ok e h n left right best P :
  e + 2 ≤ n → h + e = d → 2 ^ e ≤ left → right ≤ 2 * 2 ^ e → least keys P best →
  ∃ best', range_loop keys n t left right best = Some best' ∧ least keys (λ i, P i ∨ within h left right i) best'.
Proof using Ht.
  revert h n left right best P. induction e as [|e IH]; intros h n left right best P Hn He Hl Hr Hb;
    (destruct n as [|n]; [lia|]).
  all: change (range_loop keys (S n) t left right best) with
    (if left <? right then
        p ← take_left left best; let '(b, l) := p in q ← take_right right b; let '(b, r) := q in
        range_loop keys n t (l / 2) (r / 2) b
      else Some best).
  all: destruct (Nat.ltb_spec left right) as [Hlt|Hge];
    [|exists best; split; [done|]; eapply least_iff; [|exact Hb]; intros i; split; [by left|];
      by intros [?|Hw%within_empty]].
  all: destruct (take_left_ok _ h left right best P He Hl Hr Hlt Hb) as (best1 & left1 & P1 & -> & Hb1 & Ho1 & Hle1 & Hlr & Hi1).
  all: destruct (take_right_ok _ h left1 right best1 P1 He ltac:(lia) Hr Hlr Ho1 Hb1)
      as (best2 & right2 & P2 & Htr & Hb2 & Ho2 & Hle2 & Hlr2 & Hi2).
  all: cbn [mbind option_bind]; rewrite Htr; cbn [mbind option_bind].
  - simpl in Hl, Hr. assert (left1 = 2 ∧ right2 = 2) as [-> ->].
    { assert (left = 1) as -> by lia. destruct (decide (left1 = 1)) as [->|]; [done|lia]. }
    destruct n as [|n]; [lia|]. simpl. exists best2. split; [done|]. eapply least_iff; [|exact Hb2].
    intros i. rewrite Hi1, Hi2. split; [by left|]. by intros [?|[]%within_empty].
  - simpl in Hl, Hr. pose proof (Nat.div_mod_eq left1 2). pose proof (Nat.mod_upper_bound left1 2).
    pose proof (Nat.div_mod_eq right2 2).
    destruct (IH (S h) n (left1 / 2) (right2 / 2) best2 P2) as (best' & Hl' & Hb'); [lia..|done|].
    exists best'. split; [done|]. eapply least_iff; [|exact Hb']. intros i. simpl. rewrite Hi1, Hi2.
    by rewrite (within_half h left1 right2) by done.
Qed.

(** From one slot to another. *)
Lemma range_best_ok cat start stop i :
  tree cat = t → leaves cat = 2 ^ d → stop ≤ 2 ^ d →
  (∃ s, start ≤ s < stop ∧ t !! (2 ^ d + s) = Some (Some i)) →
  ∃ best s, range_best keys cat start stop = Some best ∧ start ≤ s < stop ∧ t !! (2 ^ d + s) = Some (Some best) ∧
    ∀ s j, start ≤ s < stop → t !! (2 ^ d + s) = Some (Some j) → tie_le keys best j.
Proof using Ht.
  intros Hct Hcl Hstop (s0 & Hs0 & Hi). unfold range_best. rewrite Hct, Hcl.
  assert (∀ j, within 0 (2 ^ d + start) (2 ^ d + stop) j ↔ ∃ s, start ≤ s < stop ∧ t !! (2 ^ d + s) = Some (Some j)) as Hw.
  { intros j. unfold within. rewrite Nat.pow_0_r. setoid_rewrite Nat.div_1_r. split.
    - intros (m & Hm & Hr & Htm). exists (m - 2 ^ d). unfold is_leaf in Hm.
      assert (2 ^ d + (m - 2 ^ d) = m) as -> by lia. split; [lia|done].
    - intros (s & Hs & Hts). exists (2 ^ d + s). split_and!; [unfold is_leaf; lia..|done]. }
  destruct (range_loop_ok d 0 (S (2 ^ d + stop)) (2 ^ d + start) (2 ^ d + stop) None (λ _, False)) as (b & -> & Hb);
    [|lia..|by intros ? []|].
  { pose proof (Nat.pow_gt_lin_r 2 d). lia. }
  simpl in Hb. destruct b as [b|]; simpl.
  - destruct Hb as [[[]|Hbw] Hl]. apply Hw in Hbw as (s & Hs & Hts). exists b, s. split_and!; [done|lia..|done|].
    intros s' j Hs' Hj. apply Hl. right. apply Hw. by exists s'.
  - destruct (Hb i). right. apply Hw. by exists s0.
Qed.
End search.
End tree.
