(* ===== verification/SelectorCategory.v ===== *)
(** What the diversity selector computes from its parts: the diversity factor, the
    best candidate of a category and its upkeep, the greatest winner of the heap, and
    on the side of the reference the ranks of identifiers and the last greatest
    candidate of a scan. *)

From Stdlib Require Import ZArith QArith Lqa Lia String SpecFloat.
From stdpp Require Import base tactics list numbers strings sorting.
From S2P Require Import Prelude Rounding Float Score Fold Selector SelectorTree.
#[local] Open Scope nat_scope.

#[local] Existing Instance F64.

(** ** The diversity factor *)

Definition unit_interval (x : f64) : Prop := valid x ∧ is_finite x = true ∧ (0 <= fval x)%Q ∧ (fval x <= 1)%Q.

Definition bias_ok (bias : f32) : Prop :=
  valid (H:=F32) bias ∧ is_finite bias = true ∧ fle f0 bias = true ∧ fle bias (of_Z (F:=F32) 1) = true.

Lemma bias_cast bias : bias_ok bias → unit_interval (fcast bias).
Proof.
  intros (Hv & Hf & H0 & H1). pose proof (fcast_rnd bias Hf) as Hr. destruct of_Z_1 as [F1 V1].
  apply fle_val in H0; [|done..]. apply fle_val in H1; [|done|done].
  assert (fval (of_Z (F:=F32) 1) == 1)%Q as E1 by reflexivity. rewrite E1 in H1.
  destruct (rnd_finite _ _ f0 (of_Z 1) Hr) as (Hfin & Hlo & Hhi); [done..|apply of_Z_valid|done|done|by rewrite V1|].
  split_and!; [by apply (rnd_valid _ _ Hr)|done|done|by rewrite <-V1].
Qed.

Lemma count_float n :
  (Z.of_nat n ≤ USIZE_MAX)%Z → valid (of_Z (Z.of_nat n)) ∧ is_finite (of_Z (Z.of_nat n)) = true ∧ (0 <= fval (of_Z (Z.of_nat n)))%Q.
Proof.
  intros Hn. pose proof (of_Z_rnd (Z.of_nat n)) as Hr.
  destruct (rnd_finite _ _ f0 (of_Z (2 ^ 64)) Hr) as (Hf & Hlo & _); [done|done|apply of_Z_valid|done| | |].
  - change (0 <= inject_Z (Z.of_nat n))%Q. rewrite <-inject_Z_0, <-Zle_Qle. lia.
  - rewrite (fval_const (2 ^ 64) (inject_Z (2 ^ 64)) ltac:(vm_compute; reflexivity)), <-Zle_Qle. unfold USIZE_MAX in Hn. lia.
  - split_and!; [apply of_Z_valid|done|done].
Qed.

Lemma factor_ok bias n : bias_ok bias → (Z.of_nat n ≤ USIZE_MAX)%Z → unit_interval (diversity_factor bias n).
Proof.
  intros Hb Hn. destruct (bias_cast bias Hb) as (Vb & Fb & Lb & Ub). destruct (count_float n Hn) as (Vc & Fc & Lc).
  destruct of_Z_1 as [F1 V1]. unfold diversity_factor, f1. set (c := of_Z (Z.of_nat n)) in *. set (b := fcast bias) in *.
  assert (valid (of_Z 1)) as Vo by apply of_Z_valid.
  (* bias * count is at most count *)
  pose proof (fmul_rnd b c Vb Vc Fb Fc) as Hm.
  destruct (rnd_finite _ _ f0 c Hm) as (Fm & Lm & Um); [done..|simpl; nra|nra|].
  (* count + 1 is at least count and 1 *)
  assert (nonneg c) as Nc by (split; [done|by apply fle_val]).
  assert (nonneg (of_Z 1)) as N1 by (split; [done|apply fle_val; [done..|rewrite V1; done]]).
  destruct (fadd_ge c (of_Z 1) Nc N1) as [Hc1 Ho1]. pose proof (fadd_valid c (of_Z 1) Vc Vo) as Va.
  assert (is_finite (fadd c (of_Z 1)) = true) as Fa.
  { destruct (rnd_finite _ _ f0 (of_Z (2 ^ 65)) (fadd_rnd c (of_Z 1) Vc Vo Fc F1)) as (Hf & _ & _); [done|done|apply of_Z_valid|done| | |done].
    - rewrite V1. simpl. lra.
    - rewrite V1, (fval_const (2 ^ 65) (inject_Z (2 ^ 65)) ltac:(vm_compute; reflexivity)).
      destruct (rnd_finite _ _ f0 (of_Z (2 ^ 64)) (of_Z_rnd (Z.of_nat n))) as (_ & _ & Hhi); [done|done|apply of_Z_valid|done| | |].
      + change (0 <= inject_Z (Z.of_nat n))%Q. rewrite <-inject_Z_0, <-Zle_Qle. lia.
      + rewrite (fval_const (2 ^ 64) (inject_Z (2 ^ 64)) ltac:(vm_compute; reflexivity)), <-Zle_Qle. unfold USIZE_MAX in Hn. lia.
      + rewrite (fval_const (2 ^ 64) (inject_Z (2 ^ 64)) ltac:(vm_compute; reflexivity)) in Hhi. fold c in Hhi.
        change (inject_Z (2 ^ 65)) with (36893488147419103232 # 1). change (inject_Z (2 ^ 64)) with (18446744073709551616 # 1) in Hhi. lra. }
  apply fle_val in Hc1; [|done..]. apply fle_val in Ho1; [|done..]. rewrite V1 in Ho1.
  assert (valid (fmul b c)) as Vm by by apply fmul_valid.
  pose proof (fdiv_rnd (fmul b c) (fadd c (of_Z 1)) Vm Va Fm Fa ltac:(lra)) as Hd.
  destruct (rnd_finite _ _ f0 (of_Z 1) Hd) as (Fd & Ld & Ud); [done|done|done|done| | |].
  - simpl. apply Qle_shift_div_l; [lra|]. simpl in Lm. lra.
  - rewrite V1. apply Qle_shift_div_r; [lra|]. lra.
  - rewrite V1 in Ud. assert (valid (fdiv (fmul b c) (fadd c (of_Z 1)))) as Vd by by apply fdiv_valid.
    pose proof (fsub_rnd (of_Z 1) _ Vo Vd F1 Fd) as Hs.
    destruct (rnd_finite _ _ f0 (of_Z 1) Hs) as (Fs & Ls & Us); [done..| | |].
    + rewrite V1. simpl. lra.
    + rewrite V1. simpl in Ld. lra.
    + rewrite V1 in Us. split_and!; [by apply fsub_valid|done|done|done].
Qed.

(** A penalised score stays finite, and keeps the order of the bases. *)
Lemma scaled_finite x f : valid x → is_finite x = true → unit_interval f → is_finite (fmul x f) = true.
Proof.
  intros Vx Fx (Vf & Ff & Lf & Uf). pose proof (fmul_rnd x f Vx Vf Fx Ff) as Hr.
  destruct (Qlt_le_dec (fval x) 0) as [Hneg|Hpos].
  - by destruct (rnd_finite _ _ x f0 Hr) as (? & _ & _); [done..|nra|simpl; nra|].
  - by destruct (rnd_finite _ _ f0 x Hr) as (? & _ & _); [done..|simpl; nra|nra|].
Qed.

Lemma kscore_mono k k' f :
  valid (base k) → valid (base k') → is_finite (base k) = true → is_finite (base k') = true → unit_interval f →
  fle (base k) (base k') = true → (kscore k f ≤ kscore k' f)%Z.
Proof.
  intros V V' F F' (Vf & Ff & Lf & _) Hle. unfold kscore. apply from_f64_le; [by apply fmul_valid..|].
  by apply fmul_mono_l.
Qed.

(** ** The best candidate of a category *)

(** What a winner is compared by: its score, then the tie-break in reverse. *)
Definition pref (s : DeterministicScore) (k : Key) : Z * Reverse (N * (nat * Reverse nat)) := (s, Rev (tie k)).

Lemma pref_position s s' k k' : pref s k = pref s' k' → position k = position k'.
Proof. by intros [= _ _ _ ?]. Qed.

Record cat_ok (keys : list Key) (alive : nat → Prop) (cat : Category) : Prop := {
  co_tree : ∃ d, leaves cat = 2 ^ d ∧ tree_ok d keys (tree cat) ∧ length (order cat) ≤ 2 ^ d ∧
    ∀ s i, s < 2 ^ d → tree cat !! (2 ^ d + s) = Some (Some i) ↔ order cat !! s = Some i ∧ alive i;
  co_nodup : NoDup (order cat);
  co_keys : ∀ i, i ∈ order cat → ∃ k, keys !! i = Some k ∧ valid (base k) ∧ is_finite (base k) = true;
  co_sorted : ∀ s s' i i' k k', s ≤ s' → order cat !! s = Some i → order cat !! s' = Some i' →
    keys !! i = Some k → keys !! i' = Some k' → fle (base k') (base k) = true
}.

Lemma partition_point_spec {A} (f : A → bool) l :
  (∀ s s' x y, s ≤ s' → l !! s = Some x → l !! s' = Some y → f y = true → f x = true) →
  partition_point f l ≤ length l ∧ ∀ s x, l !! s = Some x → f x = true ↔ s < partition_point f l.
Proof.
  induction l as [|x l IH]; intros Hf; simpl; [done|].
  destruct IH as [Hle IH]; [intros s s' y z Hs Hy Hz; apply (Hf (S s) (S s')); [lia|done..]|].
  destruct (f x) eqn:Hx; (split; [lia|]); intros [|s] y Hy; simpl in Hy; simplify_eq/=.
  - split; [lia|done].
  - rewrite (IH s y Hy). lia.
  - rewrite Hx. split; [done|lia].
  - split; [|lia]. intros Hfy. assert (f x = true); [|congruence]. apply (Hf 0 (S s) x y); [lia|done..].
Qed.

Definition distinct_positions (keys : list Key) (alive : nat → Prop) : Prop :=
  ∀ i j ki kj, alive i → alive j → keys !! i = Some ki → keys !! j = Some kj → position ki = position kj → i = j.

(** [i] is the best of the candidates within the budget. *)
Definition best_of (keys : list Key) (P : nat → Prop) (budget : N) (factor : f64) (i : nat) : Prop :=
  P i ∧ fits keys budget i ∧
  ∀ k j kj, keys !! i = Some k → P j → fits keys budget j → j ≠ i → keys !! j = Some kj →
    cmp (pref (kscore kj factor) kj) (pref (kscore k factor) k) = Lt.

Section category.
Variable keys : list Key.
Variable alive : nat → Prop.
Variable cat : Category.
Variable bias : f32.
Hypothesis Hcat : cat_ok keys alive cat.
Hypothesis Hpos : distinct_positions keys alive.
Hypothesis Hfactor : unit_interval (diversity_factor bias (count cat)).

Definition in_category (i : nat) : Prop := i ∈ order cat ∧ alive i.

Lemma first_fit_ok budget :
  ∃ r, first_fit keys cat budget = Some r ∧
    match r with
    | None => ∀ i, in_category i → ¬ fits keys budget i
    | Some s => ∃ i, order cat !! s = Some i ∧ alive i ∧ fits keys budget i ∧
        ∀ s' j, order cat !! s' = Some j → alive j → fits keys budget j → s ≤ s'
    end.
Proof using Hcat.
  destruct (co_tree _ _ _ Hcat) as (d & Hl & Ht & Hlen & Hleaf).
  assert (is_node d 1) as H1 by (pose proof (pow_pos d); unfold is_node; lia).
  assert (height d 1 = d) as Hh by (unfold height; rewrite Nat.log2_1; lia).
  assert (∀ i, in_category i ↔ under d (tree cat) (height d 1) 1 i) as Hm.
  { intros i. rewrite Hh. unfold in_category, under. split.
    - intros [[s Hs]%list_elem_of_lookup Ha]. pose proof (lookup_lt_Some _ _ _ Hs).
      exists (2 ^ d + s). split_and!; [unfold is_leaf; lia..| |apply Hleaf; [lia|done]].
      symmetry. apply (Nat.div_unique _ _ _ s); lia.
    - intros (m & Hm & _ & Htm). unfold is_leaf in Hm.
      assert (m = 2 ^ d + (m - 2 ^ d)) as Hms by lia. rewrite Hms in Htm. apply Hleaf in Htm as [Ho Ha]; [|lia].
      split; [by eapply list_elem_of_lookup_2|done]. }
  destruct (none_fits_spec d keys (tree cat) Ht budget 1 H1) as (b & r & Hb & Hr & Hs).
  unfold first_fit. rewrite Hb. cbn [mbind option_bind]. rewrite Hr. cbn [mbind option_bind]. destruct r.
  - exists None. split; [done|]. intros i Hi. apply Hs. by apply Hm.
  - destruct (descend_ok d keys (tree cat) Ht cat budget (S (leaves cat)) 1 eq_refl Hl H1) as (s & i & Hd & Hsl & Hi & Hf & Hfst).
    + rewrite Hh, Hl. pose proof (Nat.pow_gt_lin_r 2 d). lia.
    + done.
    + intros m i Hm' _ _. rewrite Hh. unfold is_leaf in Hm'. apply Nat.div_le_lower_bound; lia.
    + rewrite Hd. cbn [mbind option_bind]. exists (Some s). split; [done|]. apply Hleaf in Hi as [Ho Ha]; [|done]. exists i. split_and!; try done.
      intros s' j Hj Haj Hfj. pose proof (lookup_lt_Some _ _ _ Hj). apply (Hfst s' j); [lia| |done]. by apply Hleaf; [lia|].
Qed.

Lemma order_keys : ∃ ks, mapM (keys !!.) (order cat) = Some ks ∧
  ∀ s i, order cat !! s = Some i → ks !! s = keys !! i.
Proof using Hcat.
  destruct (mapM (keys !!.) (order cat)) as [ks|] eqn:Hm.
  - exists ks. split; [done|]. apply mapM_Some in Hm. intros s i Hi.
    destruct (Forall2_lookup_l _ _ _ _ _ Hm Hi) as (k & Hk & Hki). by rewrite Hk.
  - apply mapM_None in Hm. apply Exists_exists in Hm as (i & Hi & Hn).
    destruct (co_keys _ _ _ Hcat i Hi) as (k & Hk & _). simpl in Hn. congruence.
Qed.

Lemma order_scores s s' i i' k k' :
  s ≤ s' → order cat !! s = Some i → order cat !! s' = Some i' → keys !! i = Some k → keys !! i' = Some k' →
  (kscore k' (diversity_factor bias (count cat)) ≤ kscore k (diversity_factor bias (count cat)))%Z.
Proof using Hcat Hfactor.
  intros Hs Hi Hi' Hk Hk'.
  destruct (co_keys _ _ _ Hcat i) as (k1 & Hk1 & V & F); [by eapply list_elem_of_lookup_2|].
  destruct (co_keys _ _ _ Hcat i') as (k2 & Hk2 & V' & F'); [by eapply list_elem_of_lookup_2|].
  rewrite Hk in Hk1. rewrite Hk' in Hk2. injection Hk1 as <-. injection Hk2 as <-.
  apply kscore_mono; try done. by eapply co_sorted.
Qed.

Lemma category_best_ok budget :
  ∃ r, category_best keys cat budget bias = Some r ∧
    match r with
    | None => ∀ i, in_category i → ¬ fits keys budget i
    | Some (i, sc) => best_of keys in_category budget (diversity_factor bias (count cat)) i ∧
        ∃ k, keys !! i = Some k ∧ sc = kscore k (diversity_factor bias (count cat))
    end.
Proof using Hcat Hpos Hfactor.
  destruct (first_fit_ok budget) as (r & Hr & Hfirst). unfold category_best. rewrite Hr. simpl.
  destruct r as [first|]; [|by exists None]. destruct Hfirst as (i0 & Hi0 & Ha0 & Hf0 & Hfirst). rewrite Hi0. simpl.
  destruct Hf0 as (k0 & Hk0 & Hsz0). rewrite Hk0. simpl.
  destruct order_keys as (ks & Hks & Hlk). rewrite Hks. simpl.
  set (factor := diversity_factor bias (count cat)) in *. set (score := kscore k0 factor).
  destruct (partition_point_spec (λ k, (score <=? kscore k factor)%Z) ks) as [Hpl Hpp].
  { intros s s' x y Hs Hx Hy Hfy. apply Z.leb_le. apply Z.leb_le in Hfy. etrans; [exact Hfy|].
    pose proof (lookup_lt_Some _ _ _ Hy) as Hlt. assert (length ks = length (order cat)) as Hleq by (by symmetry; eapply length_mapM).
    destruct (lookup_lt_is_Some_2 (order cat) s) as [i Hi]; [lia|]. destruct (lookup_lt_is_Some_2 (order cat) s') as [i' Hi']; [lia|].
    apply (order_scores s s' i i'); [done..|by rewrite <-(Hlk _ _ Hi)|by rewrite <-(Hlk _ _ Hi')]. }
  assert (length ks = length (order cat)) as Hleq by (by symmetry; eapply length_mapM).
  set (stop := partition_point _ ks) in *.
  assert (first < stop) as Hfs.
  { apply (Hpp first k0); [by rewrite (Hlk _ _ Hi0)|]. apply Z.leb_le. done. }
  destruct (co_tree _ _ _ Hcat) as (d & Hl & Ht & Hlen & Hleaf).
  destruct (range_best_ok d keys (tree cat) Ht cat first stop i0 eq_refl Hl) as (b & sb & Hb & Hsb & Hlb & Hmin).
  { lia. }
  { exists first. split; [lia|]. apply Hleaf; [|done]. apply lookup_lt_Some in Hi0. lia. }
  rewrite Hb. simpl. apply Hleaf in Hlb as [Hob Hab]; [|lia]. exists (Some (b, score)). split; [done|].
  (* the winner has the score of the leader and its size *)
  assert (first < 2 ^ d) as Hfd by (apply lookup_lt_Some in Hi0; lia).
  destruct (Hmin first i0) as (kb & k0' & Hkb & Hk0' & Htie); [lia|by apply Hleaf|].
  rewrite Hk0 in Hk0'. injection Hk0' as <-.
  assert (∀ s j kj, order cat !! s = Some j → keys !! j = Some kj → first ≤ s < stop → kscore kj factor = score) as Hplat.
  { intros s j kj Hj Hkj Hs. apply Z.le_antisymm; [apply (order_scores first s i0 j); [lia|done..]|].
    apply Z.leb_le, (Hpp s kj); [by rewrite (Hlk _ _ Hj)|lia]. }
  assert (kscore kb factor = score) as Hscb by (by apply (Hplat sb b)).
  split; [|exists kb; by rewrite Hscb]. split_and!; [split; [by eapply list_elem_of_lookup_2|done]| |].
  - exists kb. split; [done|]. unfold cmp_le, cmp, tie, prod_Ord, then_cmp, cmp, N_Ord in Htie. simpl in Htie.
    destruct (N.compare_spec (ksize kb) (ksize k0)); [lia|lia|done].
  - intros kb' j kj Hkb' [Hoj Haj] Hfj Hne Hkj. rewrite Hkb in Hkb'. injection Hkb' as <-.
    apply list_elem_of_lookup in Hoj as [s Hs]. pose proof (Hfirst s j Hs Haj Hfj) as Hsf.
    apply cmp_le_lt; [|intros Heq%pref_position; by apply Hne, (Hpos j b kj kb)].
    unfold cmp_le, pref, cmp, prod_Ord, then_cmp. cbn [fst snd]. rewrite Hscb.
    destruct (decide (s < stop)) as [Hlt|Hge].
    + rewrite (Hplat s j kj) by (done || lia). rewrite cmp_refl.
      destruct (Hmin s j) as (kb1 & kj1 & Hkb1 & Hkj1 & Hc); [lia|apply Hleaf; [lia|done]|].
      rewrite Hkb in Hkb1. rewrite Hkj in Hkj1. injection Hkb1 as <-. injection Hkj1 as <-. exact Hc.
    + assert (kscore kj factor < score)%Z as Hlt.
      2: { match goal with |- context [@cmp ?A ?I ?x ?y] => assert (@cmp A I x y = Lt) as -> by (by apply Z.compare_lt_iff) end. done. }
      apply Z.leb_gt. apply not_true_iff_false. rewrite (Hpp s kj); [lia|by rewrite (Hlk _ _ Hs)].
Qed.
End category.

(** *** A category when its candidates change *)

(** The same category but for its tree. *)
Definition same_shape (a b : Category) : Prop :=
  order b = order a ∧ count b = count a ∧ penalized b = penalized a ∧ epoch b = epoch a.

Lemma cat_ok_alive keys alive alive' cat :
  (∀ i, i ∈ order cat → alive i ↔ alive' i) → cat_ok keys alive cat → cat_ok keys alive' cat.
Proof.
  intros Ha [(d & Hl & Ht & Hlen & Hleaf) Hn Hk Hs]. split; [|done..]. exists d. split_and!; try done.
  intros s i Hsd. rewrite Hleaf by done. split; intros [Ho Hi]; (split; [done|]); apply (Ha i); try done;
    by eapply list_elem_of_lookup_2.
Qed.

Lemma cat_ok_keys keys keys' alive cat :
  (∀ i, i ∈ order cat → keys' !! i = keys !! i) → cat_ok keys alive cat → cat_ok keys' alive cat.
Proof.
  intros Hk [(d & Hl & [Hlt Ht] & Hlen & Hleaf) Hn Hks Hs].
  assert (∀ m i, is_leaf d m → tree cat !! m = Some (Some i) → i ∈ order cat) as Hin.
  { intros m i [Hm1 Hm2] Hmi. assert (m = 2 ^ d + (m - 2 ^ d)) as Hms by lia. rewrite Hms in Hmi.
    apply Hleaf in Hmi as [Ho _]; [|lia]. by eapply list_elem_of_lookup_2. }
  split; [|done|..].
  - exists d. split_and!; try done. split; [done|]. intros p Hp. destruct (Ht p Hp) as (b & Hb & Hlb). exists b. split; [done|].
    eapply least_keys; [|exact Hlb]. intros i (m & Hm & _ & Hmi). by apply Hk, (Hin m).
  - intros i Hi. rewrite Hk by done. by apply Hks.
  - intros s s' i i' k k' Hss Hi Hi'. rewrite !Hk by (by eapply list_elem_of_lookup_2). by eapply Hs.
Qed.

Lemma update_ok keys keys' (alive alive' : nat → Prop) cat slot i v :
  cat_ok keys alive cat → order cat !! slot = Some i →
  (v = Some i ∧ alive' i ∨ v = None ∧ ¬ alive' i) →
  (∀ j, j ∈ order cat → j ≠ i → keys' !! j = keys !! j ∧ (alive' j ↔ alive j)) →
  (∃ k k', keys !! i = Some k ∧ keys' !! i = Some k' ∧ base k' = base k) →
  ∃ cat', update keys' cat slot v = Some cat' ∧ cat_ok keys' alive' cat' ∧ same_shape cat cat'.
Proof.
  intros [(d & Hl & Ht & Hlen & Hleaf) Hn Hk Hs] Hslot Hv Hother (k & k' & Hki & Hki' & Hbase).
  pose proof (lookup_lt_Some _ _ _ Hslot) as Hsl. pose proof (proj1 Ht) as Htl.
  assert (is_leaf d (2 ^ d + slot)) as Hm by (unfold is_leaf; lia).
  destruct (repair_ok d keys keys' (tree cat) (2 ^ d + slot) v Ht Hm) as (t' & Ht' & [Hsl1 Hsl2] & Hto).
  { intros j Hj. destruct Hv as [[-> _]|[-> _]]; simplify_eq. by exists k'. }
  { intros l j [Hl1 Hl2] Hne Hlj. assert (l = 2 ^ d + (l - 2 ^ d)) as Hls by lia. rewrite Hls in Hlj.
    apply Hleaf in Hlj as [Hj _]; [|lia]. apply Hother; [by eapply list_elem_of_lookup_2|]. intros ->.
    pose proof (NoDup_lookup _ _ _ _ Hn Hj Hslot). lia. }
  unfold update. rewrite Hl. cbv zeta.
  assert (∀ A (o : option (list (option nat))) (f : list (option nat) → option (list (option nat))) (g : list (option nat) → option A),
    (t ← o; t ← f t; g t) = ((t ← o; f t) ≫= g)) as Hassoc by (by intros A [x|] f g).
  rewrite Hassoc, Ht'. cbn [mbind option_bind]. eexists. split; [done|]. split; [|by split_and!].
  assert (∀ j kj', keys' !! j = Some kj' → j ∈ order cat → ∃ kj, keys !! j = Some kj ∧ base kj' = base kj) as Hbases.
  { intros j kj' Hj Hin. destruct (decide (j = i)) as [->|Hne]; [exists k; split; [done|congruence]|].
    exists kj'. by rewrite <-(proj1 (Hother j Hin Hne)). }
  split; simpl.
  - exists d. split_and!; try done. intros s j Hsd. rewrite Hsl2 by lia.
    destruct (decide (s = slot)) as [->|Hne].
    + rewrite list_lookup_insert_eq by lia. rewrite Hslot. destruct Hv as [[-> Ha]|[-> Ha]]; naive_solver.
    + rewrite list_lookup_insert_ne by lia. rewrite Hleaf by done.
      split; intros [Hj Ha]; (split; [done|]); (apply Hother; [by eapply list_elem_of_lookup_2| |done]);
        intros ->; by pose proof (NoDup_lookup _ _ _ _ Hn Hj Hslot).
  - done.
  - intros j Hj. destruct (Hk j Hj) as (kj & Hkj & V & F). destruct (decide (j = i)) as [->|Hne].
    + exists k'. rewrite Hki in Hkj. injection Hkj as <-. by rewrite Hbase.
    + exists kj. by rewrite (proj1 (Hother j Hj Hne)).
  - intros s s' j j' kj kj' Hss Hj Hj' Hkj Hkj'.
    destruct (Hbases j kj Hkj) as (k1 & H1 & ->); [by eapply list_elem_of_lookup_2|].
    destruct (Hbases j' kj' Hkj') as (k2 & H2 & ->); [by eapply list_elem_of_lookup_2|]. by eapply Hs.
Qed.

(** ** The heap *)

Definition wpref (w : Winner) : Z * Reverse (N * (nat * Reverse nat)) :=
  (w_score w, Rev (w_size w, (w_id w, Rev (w_position w)))).

Lemma winner_cmp_pref w w' : cmp_le (winner_key w) (winner_key w') → cmp_le (wpref w) (wpref w').
Proof.
  unfold cmp_le, winner_key, wpref, cmp, prod_Ord, then_cmp. cbn [fst snd].
  unfold cmp, Reverse_Ord, cmp, prod_Ord, then_cmp, cmp. cbn [fst snd].
  by repeat case_match.
Qed.

Lemma heap_pop_spec heap :
  match heap_pop heap with
  | None => heap = []
  | Some (w, rest) => heap ≡ₚ w :: rest ∧ ∀ w', w' ∈ rest → cmp_le (winner_key w') (winner_key w)
  end.
Proof.
  induction heap as [|w heap IH]; [done|]. simpl. destruct (heap_pop heap) as [[m others]|].
  - destruct IH as [Hp Hm]. unfold winner_cmp.
    assert (cmp_le (winner_key w) (winner_key m) →
      w :: heap ≡ₚ m :: w :: others ∧ ∀ w', w' ∈ w :: others → cmp_le (winner_key w') (winner_key m)) as Hle.
    { intros Hle. split; [rewrite Hp; apply Permutation_swap|]. intros w' [->|Hin]%elem_of_cons; [done|by apply Hm]. }
    destruct (cmp (winner_key w) (winner_key m)) eqn:E; [apply Hle; unfold cmp_le; congruence..|].
    split; [done|]. intros w'. rewrite Hp. intros [->|Hin]%elem_of_cons; [by apply cmp_le_total|].
    eapply cmp_le_trans; [by apply Hm|by apply cmp_le_total].
  - rewrite IH. split; [done|]. by intros w' []%not_elem_of_nil.
Qed.

(** ** [swap_remove] *)

Lemma swap_remove_spec {A} p (l : list A) x :
  l !! p = Some x →
  ∃ l', swap_remove p l = Some (x, l') ∧ l ≡ₚ x :: l' ∧ ∀ q j, l' !! q = Some j → q ≠ p → l !! q = Some j.
Proof.
  intros Hp. unfold swap_remove. rewrite Hp. cbn [mbind option_bind].
  destruct (last l) as [y|] eqn:Hy; [|by apply last_None in Hy; subst]. cbn [mbind option_bind].
  eexists. split; [done|]. apply last_Some in Hy as [k ->]. rewrite length_app. simpl.
  assert (length k + 1 - 1 = length k) as -> by lia. split.
  - destruct (decide (p = length k)) as [->|Hne].
    + rewrite list_lookup_middle in Hp by done. injection Hp as <-.
      rewrite insert_app_r_alt, Nat.sub_diag, take_app_length by lia. by rewrite Permutation_app_comm.
    + assert (p < length k) as Hlt by (apply lookup_lt_Some in Hp; rewrite length_app in Hp; simpl in Hp; lia).
      rewrite lookup_app_l in Hp by done. rewrite insert_app_l by done.
      rewrite take_app_length' by (by rewrite length_insert).
      rewrite insert_take_drop by done. rewrite <-(take_drop_middle k p x) at 1 by done. solve_Permutation.
  - intros q j Hq Hne. apply lookup_take_Some in Hq as [Hq _]. by rewrite list_lookup_insert_ne in Hq.
Qed.

Lemma swap_remove_Forall2 {A B} (R : A → B → Prop) p l k x l' :
  Forall2 R l k → swap_remove p l = Some (x, l') → ∃ y k', swap_remove p k = Some (y, k') ∧ R x y ∧ Forall2 R l' k'.
Proof.
  intros Hlk. unfold swap_remove. destruct (l !! p) as [a|] eqn:Ha; [|done]. cbn [mbind option_bind].
  destruct (last l) as [b|] eqn:Hb; [|done]. cbn [mbind option_bind]. intros [= <- <-].
  destruct (Forall2_lookup_l _ _ _ _ _ Hlk Ha) as (y & Hy & Hxy). rewrite Hy. cbn [mbind option_bind].
  rewrite last_lookup in Hb. destruct (Forall2_lookup_l _ _ _ _ _ Hlk Hb) as (z & Hz & Hbz).
  pose proof (Forall2_length _ _ _ Hlk) as Hlen. rewrite last_lookup, <-Hlen, Hz. cbn [mbind option_bind].
  eexists _, _. split; [done|]. split; [done|]. by apply Forall2_take, Forall2_insert.
Qed.

(** ** Identifiers and their ranks *)

Lemma sorted_lookup {A} (R : A → A → Prop) l i j x y :
  StronglySorted R l → l !! i = Some x → l !! j = Some y → i < j → R x y.
Proof.
  intros Hs. revert i j. induction Hs as [|z l Hs IH Hz]; intros i j Hi Hj Hlt; [done|].
  destruct j as [|j]; [lia|]. destruct i as [|i]; simpl in *; [|by apply (IH i j); [..|lia]].
  injection Hi as ->. rewrite Forall_forall in Hz. by apply Hz, (list_elem_of_lookup_2 _ j).
Qed.

Section ids.
Context {T : Type}.
Implicit Types inputs : list (SelectorInput T).

Lemma distinct_ids_spec inputs :
  bm_wf (distinct_ids inputs) ∧ ∀ x, x ∈ inputs → input_id x ∈ (distinct_ids inputs).*1.
Proof.
  unfold distinct_ids.
  assert (∀ ids : list (string * nat), bm_wf ids →
    let ids' := foldl (λ ids input, match bm_get (input_id input) ids with
                                    | Some _ => ids | None => bm_insert (input_id input) 0 ids end) ids inputs in
    bm_wf ids' ∧ (∀ s, s ∈ ids.*1 → s ∈ ids'.*1) ∧ ∀ x, x ∈ inputs → input_id x ∈ ids'.*1) as Hg.
  { induction inputs as [|x inputs IH]; intros ids Hw; simpl; [split_and!; [done..|by intros x []%not_elem_of_nil]|].
    destruct (bm_get (input_id x) ids) eqn:Hx.
    - destruct (IH ids Hw) as (H1 & H2 & H3). split_and!; [done..|]. intros y [->|Hy]%elem_of_cons; [|by apply H3].
      apply H2. by eapply bm_get_Some_key.
    - destruct (IH (bm_insert (input_id x) 0 ids)) as (H1 & H2 & H3); [by apply bm_insert_wf|].
      split_and!; [done|intros s Hs; apply H2, bm_insert_keys; by right|].
      intros y [->|Hy]%elem_of_cons; [apply H2, bm_insert_keys; by left|by apply H3]. }
  destruct (Hg []) as (H1 & _ & H3); [apply bm_wf_nil|done].
Qed.

Lemma id_ranks_keys inputs : (id_ranks inputs).*1 = (distinct_ids inputs).*1.
Proof.
  unfold id_ranks. apply list_eq. intros i. rewrite !list_lookup_fmap, enumerate_lookup.
  by destruct (distinct_ids inputs !! i) as [[s n]|].
Qed.

Lemma id_ranks_wf inputs : bm_wf (id_ranks inputs).
Proof. unfold bm_wf. rewrite id_ranks_keys. apply distinct_ids_spec. Qed.

Lemma id_rank_lookup inputs s r :
  bm_get s (id_ranks inputs) = Some r → (distinct_ids inputs).*1 !! r = Some s.
Proof.
  intros Hg. apply elem_of_bm_get in Hg; [|apply id_ranks_wf].
  unfold id_ranks in Hg. apply list_elem_of_fmap in Hg as ([r' [s' n]] & [= -> ->] & Hin).
  apply enumerate_elem_of in Hin. by rewrite list_lookup_fmap, Hin.
Qed.

Lemma id_rank_cmp inputs s s' r r' :
  bm_get s (id_ranks inputs) = Some r → bm_get s' (id_ranks inputs) = Some r' → cmp r r' = cmp s s'.
Proof.
  intros Hr%id_rank_lookup Hr'%id_rank_lookup. destruct (distinct_ids_spec inputs) as [Hw _].
  destruct (lt_eq_lt_dec r r') as [[Hlt| ->]|Hlt].
  - pose proof (sorted_lookup _ _ _ _ _ _ Hw Hr Hr' Hlt) as Hc. unfold cmp_lt in Hc. rewrite Hc. by apply Nat.compare_lt_iff.
  - assert (s = s') as -> by congruence. by rewrite !cmp_refl.
  - pose proof (sorted_lookup _ _ _ _ _ _ Hw Hr' Hr Hlt) as Hc. unfold cmp_lt in Hc.
    rewrite (cmp_flip s' s), Hc. by apply Nat.compare_gt_iff.
Qed.

Lemma id_rank_some inputs x : x ∈ inputs → is_Some (bm_get (input_id x) (id_ranks inputs)).
Proof.
  intros Hx%(proj2 (distinct_ids_spec inputs)). rewrite <-id_ranks_keys in Hx.
  apply list_elem_of_fmap in Hx as ([s r] & Hs & Hin). simpl in Hs. subst s. exists r.
  by apply elem_of_bm_get; [apply id_ranks_wf|].
Qed.
End ids.

(** ** [max_by] over candidates in the order of their positions *)

Lemma max_by_last {A} (f : A → A → comparison) `{!Comparator f} l m :
  max_by f l = Some m → ∃ l1 l2, l = l1 ++ m :: l2 ∧ (∀ y, y ∈ l1 → le_by f y m) ∧ ∀ y, y ∈ l2 → f m y = Gt.
Proof.
  destruct l as [|x l]; [done|]. simpl. intros [= <-]. induction l as [|y l IH] using rev_ind.
  - exists [], []. split_and!; [done|by intros y []%not_elem_of_nil..].
  - rewrite foldl_snoc. destruct IH as (l1 & l2 & Hl & H1 & H2). set (m := foldl _ x l) in *.
    assert (le_by f m y → ∀ z, z ∈ l1 ++ m :: l2 → le_by f z y) as Hle.
    { intros Hmy z [Hz|[->|Hz]%elem_of_cons]%elem_of_app; [|done|].
      - by apply (comparator_trans f z m y); [apply H1|].
      - apply (comparator_trans f z m y); [|done]. unfold le_by. rewrite (comparator_flip f m z), H2 by done. done. }
    destruct (f m y) eqn:E.
    1,2: exists (l1 ++ m :: l2), []; split_and!; [by rewrite <-Hl|apply Hle; unfold le_by; congruence|by intros z []%not_elem_of_nil].
    exists l1, (l2 ++ [y]). split_and!; [by rewrite app_comm_cons, Hl, <-app_assoc|done|].
    intros z [Hz| ->%list_elem_of_singleton]%elem_of_app; [by apply H2|done].
Qed.

Section candidates.
Context {T : Type}.
Implicit Types x : SelectorInput T.
Variable weights : SelectorWeights.
Variable counts : list (string * nat).
Variable budget total : N.
#[local] Abbreviation eff x := (effective_score x counts (diversity_bias weights) (epistemic_weight weights)).

Definition fitting (e : nat * SelectorInput T) : bool := negb (budget - total <? size e.2)%N.
Definition scored (e : nat * SelectorInput T) : nat * SelectorInput T * DeterministicScore := (e, from_f64 (eff e.2)).

Lemma candidates_Ok l :
  (∀ e, e ∈ l → is_finite (eff e.2) = true) →
  candidates weights counts budget total l = Ok (scored <$> List.filter fitting l).
Proof.
  induction l as [|[p x] l IH]; intros Hf; [done|]. cbn [candidates List.filter]. unfold fitting at 1. cbn [snd].
  rewrite IH by (intros e He; apply Hf, elem_of_cons; by right).
  destruct (budget - total <? size x)%N; [done|]. unfold must_be_finite.
  specialize (Hf (p, x) ltac:(apply elem_of_cons; by left)). simpl in Hf. by rewrite Hf.
Qed.

Lemma candidate_Comparator : Comparator (@candidate_cmp T).
Proof.
  unfold candidate_cmp. apply then_cmp_Comparator; [apply (key_Comparator snd cmp)|].
  apply then_cmp_Comparator; eapply @reverse_Comparator.
  - apply (key_Comparator (λ e : nat * SelectorInput T * DeterministicScore, size e.1.2) cmp).
  - apply (key_Comparator (λ e : nat * SelectorInput T * DeterministicScore, input_id e.1.2) cmp).
Qed.

Lemma enumerated_sorted (xs : list (SelectorInput T)) :
  StronglySorted (λ a b, a.1.1 < b.1.1) (scored <$> List.filter fitting (enumerate xs)).
Proof.
  unfold enumerate. generalize 0. induction xs as [|x xs IH]; intros a; [constructor|].
  change (zip (seq a (length (x :: xs))) (x :: xs)) with ((a, x) :: zip (seq (S a) (length xs)) xs).
  cbn [List.filter]. destruct (fitting (a, x)); [|apply IH]. rewrite fmap_cons. constructor; [apply IH|].
  apply Forall_fmap, List.Forall_forall. intros [p y] [Hin%list_elem_of_In _]%List.filter_In. simpl.
  apply elem_of_zip_l in Hin. apply elem_of_seq in Hin. lia.
Qed.

(** The element that outranks every other is the last greatest. *)
Lemma max_by_best xs p x :
  (p, x) ∈ enumerate xs → fitting (p, x) = true →
  (∀ e, e ∈ enumerate xs → fitting e = true → e.1 ≠ p →
    candidate_cmp (scored e) (scored (p, x)) ≠ Gt ∧ (candidate_cmp (scored e) (scored (p, x)) = Eq → e.1 < p)) →
  max_by candidate_cmp (scored <$> List.filter fitting (enumerate xs)) = Some (scored (p, x)).
Proof.
  intros Hin Hfit Hbest. set (l := scored <$> _).
  assert (scored (p, x) ∈ l) as Hl.
  { apply list_elem_of_fmap. exists (p, x). split; [done|]. apply list_elem_of_In, List.filter_In. by rewrite <-list_elem_of_In. }
  destruct (max_by candidate_cmp l) as [m|] eqn:Hm.
  2: { destruct l; [by apply not_elem_of_nil in Hl|done]. }
  f_equal. pose proof (enumerated_sorted xs) as Hsort. fold l in Hsort.
  apply (max_by_last _ (Comparator0:=candidate_Comparator)) in Hm as (l1 & l2 & Heq & H1 & H2).
  assert (m ∈ l) as Hml by (rewrite Heq; apply elem_of_app; right; apply elem_of_cons; by left).
  apply list_elem_of_fmap in Hml as ([q y] & -> & Hy). apply list_elem_of_In, List.filter_In in Hy as [Hy%list_elem_of_In Hfy].
  destruct (decide (q = p)) as [->|Hne].
  { apply enumerate_elem_of in Hin, Hy. rewrite Hin in Hy. by injection Hy as ->. }
  destruct (Hbest _ Hy Hfy Hne) as [Hng Heqq].
  rewrite Heq in Hl, Hsort. apply elem_of_app in Hl as [Hl|[Hl|Hl]%elem_of_cons].
  - exfalso. pose proof (H1 _ Hl) as Hle. unfold le_by in Hle.
    rewrite (comparator_flip _ (Comparator:=candidate_Comparator) (scored (q, y)) (scored (p, x))) in Hle.
    destruct (candidate_cmp (scored (q, y)) (scored (p, x))) eqn:E; [|done|done]. specialize (Heqq eq_refl).
    apply StronglySorted_app in Hsort as (Hs & _ & _). simpl in *.
    specialize (Hs _ (scored (q, y)) Hl ltac:(apply elem_of_cons; by left)). simpl in Hs. lia.
  - exfalso. apply Hne. by injection Hl as <- <-.
  - exfalso. apply Hng. by apply H2.
Qed.
End candidates.

(** ** How many elements satisfy a test *)

Lemma filter_length {A} (f : A → bool) l : length (List.filter f l) ≤ length l.
Proof. induction l as [|a l IH]; simpl; [done|]. destruct (f a); simpl; lia. Qed.

Lemma filter_mono {A} (f g : A → bool) l :
  (∀ a, a ∈ l → g a = true → f a = true) → length (List.filter g l) ≤ length (List.filter f l).
Proof.
  induction l as [|a l IH]; intros Hgf; simpl; [done|].
  specialize (IH ltac:(intros b Hb; apply Hgf, elem_of_cons; by right)). pose proof (Hgf a ltac:(apply elem_of_cons; by left)) as Ha.
  destruct (g a), (f a); simpl; try lia; by specialize (Ha eq_refl).
Qed.

Lemma filter_less {A} (f g : A → bool) l a :
  (∀ a, a ∈ l → g a = true → f a = true) → a ∈ l → f a = true → g a = false →
  length (List.filter g l) < length (List.filter f l).
Proof.
  intros Hgf Hin Hf Hg. apply list_elem_of_split in Hin as (l1 & l2 & ->). rewrite !List.filter_app, !length_app. simpl.
  rewrite Hf, Hg. simpl.
  pose proof (filter_mono f g l1 ltac:(intros b Hb; apply Hgf, elem_of_app; by left)).
  pose proof (filter_mono f g l2 ltac:(intros b Hb; apply Hgf, elem_of_app; right; apply elem_of_cons; by right)). lia.
Qed.

(** The order of the winners is the order of the scan, then of the positions. *)
Lemma pref_candidate {T} (inputs : list (SelectorInput T)) (x y : SelectorInput T) k l s t p q :
  ksize k = size x → ksize l = size y →
  bm_get (input_id x) (id_ranks inputs) = Some (kid k) → bm_get (input_id y) (id_ranks inputs) = Some (kid l) →
  cmp (pref t l) (pref s k) = Lt →
  candidate_cmp (q, y, t) (p, x, s) ≠ Gt ∧ (candidate_cmp (q, y, t) (p, x, s) = Eq → position l < position k).
Proof.
  intros Hk Hl Hik Hil.
  change (cmp (pref t l) (pref s k)) with (then_cmp (@cmp Z _ t s) (then_cmp (cmp (ksize k) (ksize l))
    (then_cmp (cmp (kid k) (kid l)) (cmp (position l) (position k))))).
  change (candidate_cmp (q, y, t) (p, x, s)) with (then_cmp (@cmp Z _ t s) (then_cmp (cmp (size x) (size y))
    (cmp (input_id x) (input_id y)))).
  rewrite Hk, Hl, (id_rank_cmp _ _ _ _ _ Hik Hil). unfold then_cmp.
  destruct (@cmp Z _ t s), (cmp (size x) (size y)), (cmp (input_id x) (input_id y)); try done.
  intros Hp. split; [done|]. intros _. by apply Nat.compare_lt_iff.
Qed.
