(* ===== verification/SelectorFacts.v ===== *)
(** The diversity selector chooses what the reference selector chooses: the state
    keeps every candidate at its position and in its category's tree, the entries of
    the heap are right or stale, the winner popped is the best of all, and the pops
    that choose nothing are bounded. *)

From Stdlib Require Import ZArith QArith Lia String SpecFloat.
From stdpp Require Import base tactics list numbers strings sorting.
From S2P Require Import Prelude Rounding Float Score Fold Selector SelectorTree SelectorCategory.
#[local] Open Scope nat_scope.

#[local] Existing Instance F64.

(** ** The state of the selection *)

Section selection.
Context {T : Type}.
Implicit Types x : SelectorInput T.
Variable inputs : list (SelectorInput T).
Variable weights : SelectorWeights.
(** The name and the candidates of each category. *)
Variable shape : list (option string * list nat).
Variable locations : list (nat * nat).
#[local] Abbreviation bias := (diversity_bias weights).
#[local] Abbreviation base_of x := (pragmatic_plus_epistemic x (epistemic_weight weights)).

Hypothesis shape_members : ∀ c name o i, shape !! c = Some (name, o) →
  i ∈ o ↔ ∃ x, inputs !! i = Some x ∧ category x = name.
Hypothesis shape_names : NoDup shape.*1.
Hypothesis locations_ok : ∀ i x, inputs !! i = Some x →
  ∃ c slot name o, locations !! i = Some (c, slot) ∧ shape !! c = Some (name, o) ∧ o !! slot = Some i.
Hypothesis bases_ok : ∀ i x, inputs !! i = Some x → valid (base_of x) ∧ is_finite (base_of x) = true.
Hypothesis inputs_bound : (Z.of_nat (length inputs) ≤ USIZE_MAX)%Z.
Hypothesis bias_valid : bias_ok bias.

(** The key of a candidate, wherever it is. *)
Definition key_of (i : nat) (x : SelectorInput T) (k : Key) : Prop :=
  base k = base_of x ∧ ksize k = size x ∧ bm_get (input_id x) (id_ranks inputs) = Some (kid k).

Definition cat_of (counts : option string → nat) (entry : option string * list nat) (cat : Category) : Prop :=
  order cat = entry.2 ∧ penalized cat = (match entry.1 with Some _ => true | None => false end) ∧ count cat = counts entry.1.

Record Core (keys : list Key) (cats : list Category) (remaining : list nat) (counts : option string → nat) : Prop := {
  core_keys : ∀ i x, inputs !! i = Some x → ∃ k, keys !! i = Some k ∧ key_of i x k;
  core_nodup : NoDup remaining;
  core_in : ∀ i, i ∈ remaining → is_Some (inputs !! i);
  core_pos : ∀ p i k, remaining !! p = Some i → keys !! i = Some k → position k = p;
  core_shape : Forall2 (cat_of counts) shape cats;
  core_cats : ∀ c cat, cats !! c = Some cat → cat_ok keys (.∈ remaining) cat;
  core_counts : ∀ name, counts name + length remaining ≤ length inputs;
  core_unnamed : counts None = 0
}.

Lemma core_distinct keys cats remaining counts : Core keys cats remaining counts → distinct_positions keys (.∈ remaining).
Proof.
  intros Hc i j ki kj [p Hp]%list_elem_of_lookup [q Hq]%list_elem_of_lookup Hki Hkj Hpos.
  pose proof (core_pos _ _ _ _ Hc p i ki Hp Hki). pose proof (core_pos _ _ _ _ Hc q j kj Hq Hkj).
  assert (p = q) as -> by congruence. congruence.
Qed.

Lemma core_cat keys cats remaining counts c cat :
  Core keys cats remaining counts → cats !! c = Some cat →
  ∃ name, shape !! c = Some (name, order cat) ∧ cat_of counts (name, order cat) cat ∧
    unit_interval (diversity_factor bias (count cat)).
Proof using inputs_bound bias_valid.
  intros Hc Hcat. destruct (Forall2_lookup_r _ _ _ _ _ (core_shape _ _ _ _ Hc) Hcat) as ([name o] & Hs & Ho & Hp & Hn).
  simpl in *. subst o. exists name. split_and!; [done..|]. apply factor_ok; [done|]. rewrite Hn.
  pose proof (core_counts _ _ _ _ Hc name). lia.
Qed.

(** What an entry of the heap says of its category, which had [budget] when it was
    pushed. *)
Definition describes (keys : list Key) (remaining : list nat) (cat : Category) (budget : N) (w : Winner) : Prop :=
  best_of keys (λ i, i ∈ order cat ∧ i ∈ remaining) budget (diversity_factor bias (count cat)) (w_index w) ∧
  ∃ k, keys !! w_index w = Some k ∧ wpref w = pref (kscore k (diversity_factor bias (count cat))) k.

Definition current (c : nat) (cat : Category) (w : Winner) : Prop := w_category w = c ∧ w_epoch w = epoch cat.

(** The entries of the categories that are [ready] are right. *)
Record Heap (ready : nat → Prop) (keys : list Key) (cats : list Category) (remaining : list nat)
    (heap : list Winner) (available : N) : Prop := {
  heap_epoch : ∀ w, w ∈ heap → ∃ cat, cats !! w_category w = Some cat ∧ w_epoch w ≤ epoch cat;
  heap_current : ∀ w c cat, w ∈ heap → cats !! c = Some cat → ready c → current c cat w →
    ∃ budget, (available ≤ budget)%N ∧ describes keys remaining cat budget w;
  heap_ready : ∀ c cat, cats !! c = Some cat → ready c →
    (∃ w, w ∈ heap ∧ current c cat w) ∨ ∀ i, i ∈ order cat → i ∈ remaining → ¬ fits keys available i
}.

Lemma fits_mono keys b b' i : (b ≤ b')%N → fits keys b i → fits keys b' i.
Proof. intros Hb (k & Hk & Hs). exists k. split; [done|lia]. Qed.

Definition next_epoch (cat : Category) : Category :=
  {| order := order cat; tree := tree cat; leaves := leaves cat; count := count cat; penalized := penalized cat;
     epoch := S (epoch cat) |}.

Lemma refresh_ok ready keys cats remaining counts heap available c cat :
  Core keys cats remaining counts → Heap ready keys cats remaining heap available → cats !! c = Some cat →
  ∃ pushed, refresh keys c cats heap available bias = Some (<[c := next_epoch cat]> cats, pushed ++ heap) ∧
    length pushed ≤ 1 ∧ Forall (λ w, current c (next_epoch cat) w ∧ (w_size w ≤ available)%N) pushed ∧
    Core keys (<[c := next_epoch cat]> cats) remaining counts ∧
    Heap (λ c', ready c' ∨ c' = c) keys (<[c := next_epoch cat]> cats) remaining (pushed ++ heap) available.
Proof using inputs_bound bias_valid.
  intros Hc Hh Hcat. destruct (core_cat _ _ _ _ _ _ Hc Hcat) as (name & Hs & Hof & Hfac).
  pose proof (core_cats _ _ _ _ Hc c cat Hcat) as Hok.
  assert (cat_ok keys (.∈ remaining) (next_epoch cat)) as Hok' by (destruct Hok; by split).
  pose proof (lookup_lt_Some _ _ _ Hcat) as Hlt.
  destruct (category_best_ok keys (.∈ remaining) (next_epoch cat) bias Hok' (core_distinct _ _ _ _ Hc) Hfac available)
    as (r & Hr & Hspec).
  assert (Core keys (<[c := next_epoch cat]> cats) remaining counts) as Hcore.
  { destruct Hc as [C1 C2 C3 C4 C5 C6 C7 C8]. split; try done.
    - rewrite <-(list_insert_id shape c (name, order cat)) by done. apply Forall2_insert; [done|]. exact Hof.
    - intros c' cat' [(<- & <- & _)|[Hne Hc']]%list_lookup_insert_Some; [done|by apply (C6 c')]. }
  assert (∀ pushed, (∀ w, w ∈ pushed → current c (next_epoch cat) w ∧
      (∃ budget, (available ≤ budget)%N ∧ describes keys remaining (next_epoch cat) budget w)) →
    (pushed = [] → ∀ i, i ∈ order cat → i ∈ remaining → ¬ fits keys available i) →
    Heap (λ c', ready c' ∨ c' = c) keys (<[c := next_epoch cat]> cats) remaining (pushed ++ heap) available) as Hheap.
  { intros pushed Hnew Hnone. destruct Hh as [H1 H2 H3]. split.
    - intros w [Hw|Hw]%elem_of_app.
      + destruct (Hnew w Hw) as [[-> Hep] _]. exists (next_epoch cat). rewrite list_lookup_insert_eq by done. split; [done|lia].
      + destruct (H1 w Hw) as (cat' & Hc' & Hle). destruct (decide (w_category w = c)) as [Heq|Hne].
        * rewrite Heq in Hc' |- *. rewrite Hcat in Hc'. injection Hc' as <-. exists (next_epoch cat).
          rewrite list_lookup_insert_eq by done. split; [done|simpl; lia].
        * exists cat'. by rewrite list_lookup_insert_ne.
    - intros w c' cat' [Hw|Hw]%elem_of_app Hc' Hready Hcur.
      + destruct (Hnew w Hw) as [[Hcw Hew] Hd]. destruct Hcur as [<- _]. rewrite Hcw in Hc'.
        rewrite list_lookup_insert_eq in Hc' by done. by simplify_eq.
      + apply list_lookup_insert_Some in Hc' as [(<- & <- & _)|[Hne Hc']].
        * destruct (H1 w Hw) as (cat' & Hc' & Hle). destruct Hcur as [Hcw Hew]. rewrite Hcw, Hcat in Hc'. simplify_eq. simpl in Hew. lia.
        * destruct Hready as [Hready| ->]; [|done]. by eapply H2.
    - intros c' cat' [(<- & <- & _)|[Hne Hc']]%list_lookup_insert_Some Hready.
      + destruct pushed as [|w pushed]; [right; by apply Hnone|]. left. exists w.
        split; [apply elem_of_app; left; apply elem_of_cons; by left|]. apply Hnew, elem_of_cons. by left.
      + destruct Hready as [Hready| ->]; [|done]. destruct (H3 c' cat' Hc' Hready) as [(w & Hw & Hcur)|Hn]; [|by right].
        left. exists w. split; [apply elem_of_app; by right|done]. }
  unfold refresh. rewrite Hcat. cbn [mbind option_bind]. change (Build_Category _ _ _ _ _ _) with (next_epoch cat).
  rewrite Hr. cbn [mbind option_bind]. destruct r as [[i sc]|].
  - destruct Hspec as [Hbest (k & Hk & ->)]. rewrite Hk. cbn [mbind option_bind].
    set (w := Build_Winner _ _ _ _ _ _ _). exists [w]. split_and!; [done|done| |done|].
    + constructor; [|done]. split; [done|]. destruct Hbest as (_ & (k' & Hk' & Hle) & _). simplify_eq. done.
    + apply Hheap; [|done]. intros w' ->%list_elem_of_singleton. split; [done|]. exists available. split; [lia|].
      split; [exact Hbest|]. by exists k.
  - exists []. split_and!; [done|simpl; lia|done|done|]. apply Hheap; [by intros w []%not_elem_of_nil|].
    intros _ i Hi Hr'. by apply Hspec.
Qed.

Lemma shape_unique c c' name name' o o' i :
  shape !! c = Some (name, o) → shape !! c' = Some (name', o') → i ∈ o → i ∈ o' → c = c'.
Proof using shape_members shape_names.
  intros Hc Hc' Hi Hi'. apply (shape_members c name o i Hc) in Hi as (x & Hx & Hn).
  apply (shape_members c' name' o' i Hc') in Hi' as (x' & Hx' & Hn').
  assert (name = name') as <- by congruence.
  apply (NoDup_lookup shape.*1 c c' name); [done|rewrite list_lookup_fmap, Hc; done|rewrite list_lookup_fmap, Hc'; done].
Qed.

(** One candidate changes: the tree of its category is repaired, the others do not
    hold it. *)
Lemma cats_update keys keys' (alive alive' : nat → Prop) cats counts i c slot name o v :
  Forall2 (cat_of counts) shape cats → (∀ c cat, cats !! c = Some cat → cat_ok keys alive cat) →
  shape !! c = Some (name, o) → o !! slot = Some i →
  (v = Some i ∧ alive' i ∨ v = None ∧ ¬ alive' i) →
  (∀ j, j ≠ i → keys' !! j = keys !! j ∧ (alive' j ↔ alive j)) →
  (∃ k k', keys !! i = Some k ∧ keys' !! i = Some k' ∧ base k' = base k) →
  ∃ cat cat', cats !! c = Some cat ∧ update keys' cat slot v = Some cat' ∧ same_shape cat cat' ∧
    (∀ c0 cat0, <[c := cat']> cats !! c0 = Some cat0 → cat_ok keys' alive' cat0) ∧
    Forall2 (cat_of counts) shape (<[c := cat']> cats).
Proof using shape_members shape_names.
  intros Hshape Hcats Hc Hslot Hv Hother Hk.
  destruct (Forall2_lookup_l _ _ _ _ _ Hshape Hc) as (cat & Hcat & Ho & Hp & Hn). simpl in *. subst o.
  destruct (update_ok keys keys' alive alive' cat slot i v (Hcats c cat Hcat) Hslot Hv) as (cat' & Hu & Hok & Hsame);
    [intros j _ Hne; by apply Hother|done|].
  exists cat, cat'. split_and!; [done..| |].
  - intros c0 cat0 [(<- & <- & _)|[Hne Hc0]]%list_lookup_insert_Some; [done|].
    destruct (Forall2_lookup_r _ _ _ _ _ Hshape Hc0) as ([name0 o0] & Hs0 & Ho0 & _). simpl in Ho0.
    assert (∀ j, j ∈ order cat0 → j ≠ i) as Hni.
    { intros j Hj ->. apply Hne. apply (shape_unique c c0 name name0 (order cat) o0 i); try done; [|by rewrite <-Ho0].
      by eapply list_elem_of_lookup_2. }
    apply (cat_ok_alive _ alive); [intros j Hj; symmetry; by apply Hother, Hni|].
    apply (cat_ok_keys keys); [intros j Hj; by apply Hother, Hni|by apply (Hcats c0)].
  - rewrite <-(list_insert_id shape c (name, order cat)) by done. apply Forall2_insert; [done|].
    destruct Hsame as (E1 & E2 & E3 & _). split_and!; simpl; congruence.
Qed.

Lemma core_vacate keys cats remaining counts i k c slot name o :
  Core keys cats remaining counts → keys !! i = Some k → remaining !! position k = Some i →
  locations !! i = Some (c, slot) → shape !! c = Some (name, o) → o !! slot = Some i →
  ∃ keys' cats' rem' mv,
    vacate locations keys cats remaining i c slot = Some (keys', cats', rem', mv) ∧
    swap_remove (position k) remaining = Some (i, rem') ∧ remaining ≡ₚ i :: rem' ∧
    Core keys' cats' rem' counts ∧ length cats' = length cats ∧
    (∀ c' cat', cats' !! c' = Some cat' → ∃ cat, cats !! c' = Some cat ∧ same_shape cat cat') ∧
    (∀ m, mv = Some m → m < length cats) ∧
    (∀ c' cat' j, c' ≠ c → mv ≠ Some c' → cats !! c' = Some cat' → j ∈ order cat' → keys' !! j = keys !! j).
Proof using shape_members shape_names locations_ok.
  intros Hcore Hk Hp Hloc Hshape Hslot. set (p := position k) in *.
  pose proof Hcore as [C1 C2 C3 C4 C5 C6 C7 C8].
  destruct (swap_remove_spec p remaining i Hp) as (rem' & Hsw & Hperm & Hq).
  assert ((i ∉ rem') ∧ NoDup rem') as [Hni Hnd] by (by rewrite Hperm, NoDup_cons in C2).
  assert (∀ j, j ≠ i → j ∈ rem' ↔ j ∈ remaining) as Hin.
  { intros j Hne. rewrite Hperm, elem_of_cons. split; [by right|by intros [?|?]]. }
  destruct (cats_update keys keys (.∈ remaining) (.∈ rem') cats counts i c slot name o None)
    as (cat & cat1 & Hcat & Hu & Hsame & Hoks & Hsh); [done..|by right|intros j Hne; split; [done|by apply Hin]|by exists k, k|].
  assert (length remaining = S (length rem')) as Hlen by (by rewrite Hperm).
  assert (∀ keys' cats' : _, (∀ j x, inputs !! j = Some x → ∃ k, keys' !! j = Some k ∧ key_of j x k) →
    (∀ q j kj, rem' !! q = Some j → keys' !! j = Some kj → position kj = q) → Forall2 (cat_of counts) shape cats' →
    (∀ c cat, cats' !! c = Some cat → cat_ok keys' (.∈ rem') cat) → Core keys' cats' rem' counts) as Hmk.
  { intros keys' cats' H1 H2 H3 H4. split; try done; [|intros nm; specialize (C7 nm); lia].
    intros j Hj. apply C3. rewrite Hperm. apply elem_of_cons. by right. }
  unfold vacate. rewrite Hk. cbn [mbind option_bind]. rewrite Hcat. cbn [mbind option_bind]. rewrite Hu. cbn [mbind option_bind].
  fold p. rewrite Hsw. cbn [mbind option_bind]. rewrite option_guard_True by done. cbn [mbind option_bind].
  assert (∀ c' cat', <[c := cat1]> cats !! c' = Some cat' → ∃ cat0, cats !! c' = Some cat0 ∧ same_shape cat0 cat') as Hss1.
  { intros c' cat' [(<- & <- & _)|[_ Hc']]%list_lookup_insert_Some; [by exists cat|]. exists cat'. by split_and!. }
  destruct (rem' !! p) as [moved|] eqn:Hmv.
  2: { exists keys, (<[c := cat1]> cats), rem', None. split_and!; try done; [|by rewrite length_insert].
       apply Hmk; try done. intros q j kj Hqj Hkj. destruct (decide (q = p)) as [->|Hne]; [congruence|].
       by apply (C4 q j kj); [apply Hq|]. }
  assert (moved ∈ rem') as Hmin by (by eapply list_elem_of_lookup_2).
  assert (moved ≠ i) as Hmne by (by intros ->).
  destruct (C3 moved) as [xm Hxm]; [by apply Hin|]. destruct (C1 moved xm Hxm) as (km & Hkm & Hkey).
  destruct (locations_ok moved xm Hxm) as (m & ms & mname & mo & Hml & Hms & Hmo).
  set (keys2 := <[moved := with_position p km]> keys).
  pose proof (lookup_lt_Some _ _ _ Hkm) as Hmlt.
  destruct (cats_update keys keys2 (.∈ rem') (.∈ rem') (<[c := cat1]> cats) counts moved m ms mname mo (Some moved))
    as (cat2 & cat3 & Hcat2 & Hu2 & Hsame2 & Hoks2 & Hsh2); try done; [by left| |..].
  { intros j Hne. unfold keys2. by rewrite list_lookup_insert_ne. }
  { exists km, (with_position p km). unfold keys2. by rewrite list_lookup_insert_eq. }
  rewrite Hkm. cbn [mbind option_bind]. rewrite Hml. cbn [mbind option_bind]. rewrite Hcat2. cbn [mbind option_bind].
  fold keys2. rewrite Hu2. cbn [mbind option_bind].
  exists keys2, (<[m := cat3]> (<[c := cat1]> cats)), rem', (Some m). split_and!; try done.
  - apply Hmk; try done.
    + intros j x Hj. unfold keys2. destruct (decide (j = moved)) as [->|Hne].
      * exists (with_position p km). rewrite list_lookup_insert_eq by done. split; [done|]. by rewrite Hxm in Hj; injection Hj as <-.
      * rewrite list_lookup_insert_ne by done. by apply C1.
    + intros q j kj Hqj. unfold keys2. destruct (decide (j = moved)) as [->|Hne].
      * rewrite list_lookup_insert_eq by done. intros [= <-]. simpl. by apply (NoDup_lookup rem' p q moved).
      * rewrite list_lookup_insert_ne by done. intros Hkj. apply (C4 q j kj); [|done]. apply Hq; [done|]. intros ->. congruence.
  - by rewrite !length_insert.
  - intros c' cat' [(<- & <- & _)|[_ Hc']]%list_lookup_insert_Some; [|by apply Hss1].
    destruct (Hss1 m cat2 Hcat2) as (cat0 & Hc0 & Hs0). exists cat0. split; [done|].
    destruct Hs0 as (?&?&?&?), Hsame2 as (?&?&?&?). split_and!; congruence.
  - intros m' [= <-]. apply lookup_lt_Some in Hcat2. by rewrite length_insert in Hcat2.
  - intros c' cat' j Hne Hne' Hc' Hj. unfold keys2. rewrite list_lookup_insert_ne; [done|]. intros <-. apply Hne'. f_equal.
    destruct (Forall2_lookup_r _ _ _ _ _ C5 Hc') as ([name0 o0] & Hs0 & Ho0 & _). simpl in Ho0. subst o0.
    apply (shape_unique m c' mname name0 mo (order cat') moved); try done. by eapply list_elem_of_lookup_2.
Qed.

(** *** Taking a winner *)

Definition bump (name : option string) (counts : option string → nat) (n : option string) : nat :=
  if decide (n = name) then match name with Some _ => S (counts n) | None => counts n end else counts n.

Lemma core_counted keys cats remaining counts c cat name o :
  Core keys cats remaining counts → (∀ n, counts n + S (length remaining) ≤ length inputs) →
  cats !! c = Some cat → shape !! c = Some (name, o) → Core keys (<[c := counted cat]> cats) remaining (bump name counts).
Proof using shape_names.
  intros [C1 C2 C3 C4 C5 C6 C7 C8] Hslack Hcat Hshape. split; try done.
  - apply Forall2_same_length_lookup_2; [rewrite length_insert; by eapply Forall2_length|].
    intros c' [name' o'] cat' Hs' [(<- & <- & _)|[Hne Hc']]%list_lookup_insert_Some.
    + destruct (Forall2_lookup_lr _ _ _ _ _ _ C5 Hs' Hcat) as (Ho & Hp & Hn). rewrite Hshape in Hs'. injection Hs' as <- <-.
      split_and!; [done|done|]. simpl in *. unfold bump. rewrite decide_True, Hp, Hn by done. by destruct name.
    + destruct (Forall2_lookup_lr _ _ _ _ _ _ C5 Hs' Hc') as (Ho & Hp & Hn). split_and!; [done..|]. simpl in *.
      unfold bump. rewrite decide_False; [done|]. intros ->. apply Hne.
      apply (NoDup_lookup shape.*1 c c' name); [done|rewrite list_lookup_fmap, Hshape; done|rewrite list_lookup_fmap, Hs'; done].
  - intros c' cat' [(<- & <- & _)|[_ Hc']]%list_lookup_insert_Some; [|by eapply C6]. destruct (C6 c cat Hcat). by split.
  - intros n. specialize (Hslack n). unfold bump. case_decide; [|lia]. destruct name; lia.
  - unfold bump. case_decide as Hn; [|done]. by rewrite <-Hn.
Qed.

Definition Inv (st : Selecting) (counts : option string → nat) : Prop :=
  Core (s_keys st) (s_categories st) (s_remaining st) counts ∧
  Heap (λ _, True) (s_keys st) (s_categories st) (s_remaining st) (s_heap st) (s_available st).

(** The entry popped, when it is current, is the best of all the candidates. *)
Lemma winner_best st counts w rest cat :
  Inv st counts → s_heap st ≡ₚ w :: rest → (∀ w', w' ∈ rest → cmp_le (winner_key w') (winner_key w)) →
  s_categories st !! w_category w = Some cat → w_epoch w = epoch cat →
  ∃ k, s_keys st !! w_index w = Some k ∧ w_index w ∈ s_remaining st ∧ w_index w ∈ order cat ∧ w_size w = ksize k ∧
    ((ksize k ≤ s_available st)%N →
     ∀ c cat' j kj, s_categories st !! c = Some cat' → j ∈ order cat' → j ∈ s_remaining st →
       fits (s_keys st) (s_available st) j → j ≠ w_index w → s_keys st !! j = Some kj →
       cmp (pref (kscore kj (diversity_factor bias (count cat'))) kj)
           (pref (kscore k (diversity_factor bias (count cat))) k) = Lt).
Proof.
  intros [Hc Hh] Hperm Hmax Hcat Hcur.
  assert (w ∈ s_heap st) as Hw by (rewrite Hperm; apply elem_of_cons; by left).
  destruct (heap_current _ _ _ _ _ _ Hh w _ cat Hw Hcat I (conj eq_refl Hcur)) as (b & Hb & (([Ho Hr] & Hf & Hbest) & k & Hk & Hpref)).
  exists k. split_and!; [done..|by injection Hpref|]. intros Hfit c cat' j kj Hcat' Hj Hrj Hfj Hne Hkj.
  apply cmp_le_lt; [|intros Heq%pref_position; by apply Hne, (core_distinct _ _ _ _ Hc j (w_index w) kj k)]. rewrite <-Hpref.
  destruct (heap_ready _ _ _ _ _ _ Hh c cat' Hcat' I) as [(w' & Hw' & Hcur')|Hn]; [|by destruct (Hn j)].
  destruct (heap_current _ _ _ _ _ _ Hh w' c cat' Hw' Hcat' I Hcur') as (b' & Hb' & (([Ho' Hr'] & Hf' & Hbest') & k' & Hk' & Hpref')).
  assert (cmp_le (wpref w') (wpref w)) as Hle.
  { rewrite Hperm in Hw'. apply elem_of_cons in Hw' as [->|Hin]; [apply cmp_le_refl|]. by apply winner_cmp_pref, Hmax. }
  eapply cmp_le_trans; [|exact Hle]. rewrite Hpref'. destruct (decide (j = w_index w')) as [->|Hne'].
  - assert (kj = k') as -> by congruence. apply cmp_le_refl.
  - unfold cmp_le. rewrite (Hbest' k' j kj Hk'); [done|done|by eapply fits_mono|done|done].
Qed.

(** The entries of the other categories stay right while the budget shrinks. *)
Lemma heap_after keys keys' cats cats' remaining rem' heap w rest available available' c mv :
  Heap (λ _, True) keys cats remaining heap available → heap ≡ₚ w :: rest → w_category w = c →
  (available' ≤ available)%N →
  (∀ c' cat', cats' !! c' = Some cat' → ∃ cat, cats !! c' = Some cat ∧ epoch cat' = epoch cat ∧
     (c' ≠ c → mv ≠ Some c' → order cat' = order cat ∧ count cat' = count cat ∧
       ∀ j, j ∈ order cat → keys' !! j = keys !! j ∧ (j ∈ rem' ↔ j ∈ remaining))) →
  length cats' = length cats →
  Heap (λ c', c' ≠ c ∧ mv ≠ Some c') keys' cats' rem' rest available'.
Proof.
  intros [H1 H2 H3] Hperm Hwc Hav Hcats Hlen.
  assert (∀ w', w' ∈ rest → w' ∈ heap) as Hrest by (intros w' Hw'; rewrite Hperm; apply elem_of_cons; by right).
  split.
  - intros w' Hw'. destruct (H1 w' (Hrest w' Hw')) as (cat & Hcat & Hle). apply lookup_lt_Some in Hcat as Hlt.
    destruct (lookup_lt_is_Some_2 cats' (w_category w')) as [cat' Hcat']; [lia|]. exists cat'. split; [done|].
    destruct (Hcats _ _ Hcat') as (cat0 & Hc0 & He & _). rewrite Hcat in Hc0. injection Hc0 as <-. lia.
  - intros w' c' cat' Hw' Hcat' [Hne Hne'] [Hcw Hew]. destruct (Hcats c' cat' Hcat') as (cat & Hcat & He & Hsame).
    destruct (Hsame Hne Hne') as (Ho & Hn & Hj). rewrite He in Hew.
    destruct (H2 w' c' cat (Hrest w' Hw') Hcat I (conj Hcw Hew)) as (b & Hb & (([Ho1 Hr1] & (kf & Hkf & Hsz) & Hbest) & k & Hk & Hpref)).
    exists b. split; [lia|]. unfold describes. rewrite Ho, Hn. destruct (Hj _ Ho1) as [Hk1 Hin1].
    split; [|exists k; by rewrite Hk1]. split_and!; [done|by apply Hin1|exists kf; by rewrite Hk1|].
    intros k0 j kj Hk0 [Hoj Hrj] (kfj & Hkfj & Hszj) Hnej Hkj. destruct (Hj j Hoj) as [Hkj' Hinj]. rewrite Hk1 in Hk0. rewrite Hkj' in Hkj, Hkfj.
    apply (Hbest k0 j kj); try done; [by split; [|apply Hinj]|by exists kfj].
  - intros c' cat' Hcat' [Hne Hne']. destruct (Hcats c' cat' Hcat') as (cat & Hcat & He & Hsame).
    destruct (Hsame Hne Hne') as (Ho & Hn & Hj). rewrite Ho.
    destruct (H3 c' cat Hcat I) as [(w' & Hw' & [Hcw Hew])|Hnone].
    + left. exists w'. split; [|split; [done|congruence]]. rewrite Hperm in Hw'. apply elem_of_cons in Hw' as [->|?]; [congruence|done].
    + right. intros i Hi Hri (k & Hk & Hsz). destruct (Hj i Hi) as [Hk1 Hin1]. rewrite Hk1 in Hk.
      apply (Hnone i Hi); [by apply Hin1|]. exists k. split; [done|lia].
Qed.

Lemma heap_weaken (ready ready' : nat → Prop) keys cats remaining heap available :
  (∀ c, c < length cats → ready' c → ready c) → Heap ready keys cats remaining heap available → Heap ready' keys cats remaining heap available.
Proof.
  intros Hr [H1 H2 H3]. split; [done|..].
  - intros w c cat Hw Hc Hready. apply (H2 w c cat Hw Hc). apply Hr; [by eapply lookup_lt_Some|done].
  - intros c cat Hc Hready. apply (H3 c cat Hc). apply Hr; [by eapply lookup_lt_Some|done].
Qed.

Lemma take_winner_ok st counts w rest cat k x :
  Inv st counts → s_heap st ≡ₚ w :: rest → s_categories st !! w_category w = Some cat →
  s_keys st !! w_index w = Some k → inputs !! w_index w = Some x → w_index w ∈ s_remaining st → w_index w ∈ order cat →
  (ksize k ≤ s_available st)%N →
  ∃ st', take_winner locations bias st w rest = Some st' ∧
    swap_remove (position k) (s_remaining st) = Some (w_index w, s_remaining st') ∧
    Inv st' (bump (category x) counts) ∧ s_available st' = (s_available st - size x)%N ∧
    s_selected st' = s_selected st ++ [w_index w] ∧ length (s_heap st') ≤ length rest + 2 ∧
    length (s_categories st') = length (s_categories st) ∧ S (length (s_remaining st')) = length (s_remaining st).
Proof using shape_members shape_names locations_ok inputs_bound bias_valid.
  intros [Hc Hh] Hperm Hcat Hk Hx Hrem Hord Hfit.
  assert (s_remaining st !! position k = Some (w_index w)) as Hp.
  { apply list_elem_of_lookup in Hrem as [p Hp]. by rewrite (core_pos _ _ _ _ Hc p (w_index w) k Hp Hk). }
  destruct (locations_ok _ x Hx) as (c & slot & name & o & Hloc & Hshape & Hslot).
  destruct (core_cat _ _ _ _ _ _ Hc Hcat) as (name' & Hshape' & _).
  assert (c = w_category w) as ->.
  { apply (shape_unique c _ name name' o (order cat) (w_index w)); try done. by eapply list_elem_of_lookup_2. }
  rewrite Hshape in Hshape'. injection Hshape' as <- ->.
  assert (category x = name) as Hname.
  { apply list_elem_of_lookup_2 in Hslot. apply (shape_members _ _ _ _ Hshape) in Hslot as (x' & Hx' & <-). congruence. }
  destruct (core_keys _ _ _ _ Hc _ x Hx) as (k' & Hk' & _ & Hsize & _). rewrite Hk in Hk'. injection Hk' as <-.
  destruct (core_vacate _ _ _ _ _ _ _ _ _ _ Hc Hk Hp Hloc Hshape Hslot)
    as (keys' & cats' & rem' & mv & Hv & Hsw & Hpr & Hc' & Hlen & Hsame & Hmv & Hkeys).
  set (c := w_category w) in *. set (i := w_index w) in *.
  destruct (lookup_lt_is_Some_2 cats' c) as [bucket Hbucket]; [rewrite Hlen; by eapply lookup_lt_Some|].
  assert (length (s_remaining st) = S (length rem')) as Hlr by (by rewrite Hpr).
  assert (∀ n, counts n + S (length rem') ≤ length inputs) as Hslack.
  { intros n. pose proof (core_counts _ _ _ _ Hc n). lia. }
  pose proof (core_counted _ _ _ _ _ _ _ _ Hc' Hslack Hbucket Hshape) as Hc2. rewrite <-Hname in Hc2.
  set (cats2 := <[c := counted bucket]> cats') in *. set (avail := (s_available st - ksize k)%N).
  assert (Heap (λ c', c' ≠ c ∧ mv ≠ Some c') keys' cats2 rem' rest avail) as Hh2.
  { eapply (heap_after _ keys' _ cats2 _ rem' _ w rest _ avail c mv Hh Hperm eq_refl); [unfold avail; lia| |].
    - assert (∀ c' cat0, cats' !! c' = Some cat0 → ∃ cat, s_categories st !! c' = Some cat ∧ epoch cat0 = epoch cat ∧
        (c' ≠ c → mv ≠ Some c' → order cat0 = order cat ∧ count cat0 = count cat ∧
          ∀ j, j ∈ order cat → keys' !! j = s_keys st !! j ∧ (j ∈ rem' ↔ j ∈ s_remaining st))) as Hall.
      { intros c' cat0 Hc0. destruct (Hsame c' cat0 Hc0) as (cat1 & Hc1 & E1 & E2 & E3 & E4). exists cat1. split_and!; [done..|].
        intros Hne Hne'. split_and!; [done..|]. intros j Hj. split; [by eapply Hkeys|].
        rewrite Hpr, elem_of_cons. split; [by right|]. intros [->|?]; [|done]. exfalso. apply Hne.
        destruct (core_cat _ _ _ _ _ _ Hc Hc1) as (name1 & Hs1 & _).
        by apply (shape_unique c' c name1 name (order cat1) (order cat) i). }
      unfold cats2. intros c' cat0 [(<- & <- & _)|[_ Hc0]]%list_lookup_insert_Some; [|by apply Hall].
      destruct (Hall c bucket Hbucket) as (cat1 & Hc1 & He & _). exists cat1. split_and!; [done..|]. done.
    - unfold cats2. by rewrite length_insert. }
  assert (cats2 !! c = Some (counted bucket)) as Hb2.
  { unfold cats2. rewrite list_lookup_insert_eq; [done|by eapply lookup_lt_Some]. }
  destruct (refresh_ok _ _ _ _ _ _ _ _ _ Hc2 Hh2 Hb2) as (new1 & Hr1 & Hl1 & _ & Hc3 & Hh3).
  unfold take_winner. fold i. rewrite Hloc. cbn [mbind option_bind]. rewrite Hk. cbn [mbind option_bind].
  rewrite Hv. cbn [mbind option_bind]. rewrite Hbucket. cbn [mbind option_bind]. fold cats2 avail.
  rewrite Hr1. cbn [mbind option_bind]. set (cats3 := <[c := next_epoch (counted bucket)]> cats2) in *.
  assert (length cats3 = length (s_categories st)) as Hl3 by (unfold cats3, cats2; by rewrite !length_insert).
  assert (∀ cats4 heap4, Core keys' cats4 rem' (bump (category x) counts) → length cats4 = length (s_categories st) →
    Heap (λ _, True) keys' cats4 rem' heap4 avail → length heap4 ≤ length rest + 2 →
    ∃ st' : Selecting, Some {| s_keys := keys'; s_categories := cats4; s_heap := heap4; s_remaining := rem';
            s_selected := s_selected st ++ [i]; s_available := avail |} = Some st' ∧
      swap_remove (position k) (s_remaining st) = Some (i, s_remaining st') ∧
      Inv st' (bump (category x) counts) ∧ s_available st' = (s_available st - size x)%N ∧
      s_selected st' = s_selected st ++ [i] ∧ length (s_heap st') ≤ length rest + 2 ∧
      length (s_categories st') = length (s_categories st) ∧ S (length (s_remaining st')) = length (s_remaining st)) as Hfinish.
  { intros cats4 heap4 Hc4 Hl4 Hh4 Hlh. eexists. split; [done|]. simpl. split_and!; try done. unfold avail. by rewrite Hsize. }
  destruct mv as [m|].
  - case_decide as Hmc.
    + subst m. apply Hfinish; [done|done| |rewrite length_app; lia]. eapply heap_weaken; [|exact Hh3].
      intros c' _ _. destruct (decide (c' = c)) as [->|Hne]; [by right|left]. split; [done|]. by intros [= ->].
    + destruct (lookup_lt_is_Some_2 cats3 m) as [bm Hbm]; [rewrite Hl3; by apply Hmv|].
      destruct (refresh_ok _ _ _ _ _ _ _ _ _ Hc3 Hh3 Hbm) as (new2 & Hr2 & Hl2 & _ & Hc4 & Hh4).
      rewrite Hr2. cbn [mbind option_bind]. apply Hfinish; [done|by rewrite length_insert| |rewrite !length_app; lia].
      eapply heap_weaken; [|exact Hh4]. intros c' _ _. destruct (decide (c' = m)) as [->|Hne]; [by right|left].
      destruct (decide (c' = c)) as [->|Hne']; [by right|left]. split; [done|]. by intros [= ->].
  - apply Hfinish; [done|done| |rewrite length_app; lia]. eapply heap_weaken; [|exact Hh3].
    intros c' _ _. destruct (decide (c' = c)) as [->|Hne]; [by right|left]. done.
Qed.

(** *** The two loops *)

Definition is_input (i : nat) (x : SelectorInput T) : Prop := inputs !! i = Some x.
#[local] Abbreviation rel := (Forall2 is_input).

Definition counted_as (cs : list (string * nat)) (counts : option string → nat) : Prop :=
  bm_wf cs ∧ ∀ name, default 0 (bm_get name cs) = counts (Some name).

Definition count_category (x : SelectorInput T) (cs : list (string * nat)) : list (string * nat) :=
  match category x with Some cat => bm_insert cat (S (default 0 (bm_get cat cs))) cs | None => cs end.

Lemma counted_bump x cs counts : counted_as cs counts → counted_as (count_category x cs) (bump (category x) counts).
Proof.
  intros [Hw Hc]. unfold count_category. destruct (category x) as [cat|].
  - split; [by apply bm_insert_wf|]. intros name. unfold bump. destruct (decide (name = cat)) as [->|Hne].
    + rewrite bm_get_insert_eq, decide_True by done. simpl. by rewrite Hc.
    + rewrite bm_get_insert_ne, decide_False by congruence. apply Hc.
  - split; [done|]. intros name. unfold bump. by rewrite decide_False.
Qed.

Hypothesis biased : feq bias f0 = false.

Lemma effective_factor x cs counts :
  counted_as cs counts → counts None = 0 →
  effective_score x cs bias (epistemic_weight weights) = fmul (base_of x) (diversity_factor bias (counts (category x))).
Proof using biased.
  intros [_ Hc] Hn. unfold effective_score. rewrite biased.
  assert (default 0 (c ← category x; bm_get c cs) = counts (category x)) as ->; [|done].
  destruct (category x) as [cat|]; simpl; [apply Hc|by rewrite Hn].
Qed.

Lemma counts_factor keys cats remaining counts name :
  Core keys cats remaining counts → unit_interval (diversity_factor bias (counts name)).
Proof using inputs_bound bias_valid. intros Hc. apply factor_ok; [done|]. pose proof (core_counts _ _ _ _ Hc name). lia. Qed.

Lemma effective_finite st counts cs x i :
  Inv st counts → counted_as cs counts → is_input i x →
  is_finite (effective_score x cs bias (epistemic_weight weights)) = true.
Proof using bases_ok inputs_bound bias_valid biased.
  intros [Hc _] Hcs Hx. erewrite effective_factor; [|done|by eapply core_unnamed].
  destruct (bases_ok i x Hx). apply scaled_finite; [done..|]. by eapply counts_factor.
Qed.

(** Where a candidate is. *)
Lemma candidate_place st counts i x :
  Inv st counts → is_input i x →
  ∃ c cat k, s_categories st !! c = Some cat ∧ i ∈ order cat ∧ s_keys st !! i = Some k ∧ key_of i x k ∧
    count cat = counts (category x) ∧ ∀ b, fits (s_keys st) b i ↔ (size x ≤ b)%N.
Proof using shape_members locations_ok.
  intros [Hc _] Hx. destruct (locations_ok i x Hx) as (c & slot & name & o & _ & Hs & Ho).
  destruct (Forall2_lookup_l _ _ _ _ _ (core_shape _ _ _ _ Hc) Hs) as (cat & Hcat & Hor & Hp & Hn). simpl in *.
  destruct (core_keys _ _ _ _ Hc i x Hx) as (k & Hk & Hkey). exists c, cat, k. apply list_elem_of_lookup_2 in Ho.
  split_and!; try done; [by rewrite Hor| |].
  - rewrite Hn. f_equal. apply (shape_members _ _ _ _ Hs) in Ho as (x' & Hx' & <-). unfold is_input in Hx. congruence.
  - intros b. destruct Hkey as (_ & <- & _). unfold fits. rewrite Hk. split; [by intros (? & [= <-] & ?)|by exists k].
Qed.

Lemma rel_enumerate l xs p x : rel l xs → (p, x) ∈ enumerate xs → ∃ i, l !! p = Some i ∧ is_input i x.
Proof.
  intros Hrel Hin%enumerate_elem_of. destruct (Forall2_lookup_r _ _ _ _ _ Hrel Hin) as (i & Hi & Hx). by exists i.
Qed.

(** Nothing in the heap: the scan finds no candidate. *)
Lemma nothing_fits st counts cs xs budget total :
  Inv st counts → counted_as cs counts → rel (s_remaining st) xs → s_heap st = [] → s_available st = (budget - total)%N →
  candidates weights cs budget total (enumerate xs) = Ok [].
Proof using shape_members locations_ok bases_ok inputs_bound bias_valid biased.
  intros Hinv Hcs Hrel Hheap Hav. rewrite candidates_Ok.
  - assert (List.filter (fitting budget total) (enumerate xs) = []) as ->; [|done].
    destruct (List.filter _ _) as [|[p x] l] eqn:Hf; [done|]. exfalso.
    assert ((p, x) ∈ List.filter (fitting budget total) (enumerate xs)) as Hin by (rewrite Hf; apply elem_of_cons; by left).
    apply list_elem_of_In, List.filter_In in Hin as [Hin%list_elem_of_In Hfit].
    destruct (rel_enumerate _ _ _ _ Hrel Hin) as (i & Hi & Hx).
    destruct (candidate_place _ _ _ _ Hinv Hx) as (c & cat & k & Hcat & Ho & Hk & _ & _ & Hfits).
    destruct (heap_ready _ _ _ _ _ _ (proj2 Hinv) c cat Hcat I) as [(w & Hw & _)|Hn].
    + rewrite Hheap in Hw. by apply not_elem_of_nil in Hw.
    + apply (Hn i Ho); [by eapply list_elem_of_lookup_2|]. apply Hfits. rewrite Hav.
      apply negb_true_iff, N.ltb_ge in Hfit. exact Hfit.
  - intros [p x] Hin. destruct (rel_enumerate _ _ _ _ Hrel Hin) as (i & _ & Hx). by eapply effective_finite.
Qed.

(** The best candidate is the one the scan returns. *)
Lemma scan_finds st counts cs xs budget total i x k c cat :
  Inv st counts → counted_as cs counts → rel (s_remaining st) xs → s_available st = (budget - total)%N →
  s_keys st !! i = Some k → is_input i x → s_remaining st !! position k = Some i →
  s_categories st !! c = Some cat → i ∈ order cat → (ksize k ≤ s_available st)%N →
  (∀ c' cat' j kj, s_categories st !! c' = Some cat' → j ∈ order cat' → j ∈ s_remaining st →
       fits (s_keys st) (s_available st) j → j ≠ i → s_keys st !! j = Some kj →
       cmp (pref (kscore kj (diversity_factor bias (count cat'))) kj)
           (pref (kscore k (diversity_factor bias (count cat))) k) = Lt) →
  ∃ l sc, candidates weights cs budget total (enumerate xs) = Ok l ∧ max_by candidate_cmp l = Some (position k, x, sc).
Proof using shape_members shape_names locations_ok bases_ok inputs_bound bias_valid biased.
  intros Hinv Hcs Hrel Hav Hk Hx Hp Hcat Ho Hfit Hbest. pose proof (core_unnamed _ _ _ _ (proj1 Hinv)) as Hn0.
  destruct (core_keys _ _ _ _ (proj1 Hinv) i x Hx) as (k' & Hk' & Hbase & Hsize & Hid). rewrite Hk in Hk'. injection Hk' as <-.
  destruct (candidate_place _ _ _ _ Hinv Hx) as (c0 & cat0 & k0 & Hcat0 & Ho0 & _ & _ & Hn & _).
  assert (c0 = c) as ->.
  { destruct (core_cat _ _ _ _ _ _ (proj1 Hinv) Hcat) as (nm & Hs & _).
    destruct (core_cat _ _ _ _ _ _ (proj1 Hinv) Hcat0) as (nm0 & Hs0 & _). by apply (shape_unique c0 c nm0 nm (order cat0) (order cat) i). }
  rewrite Hcat in Hcat0. injection Hcat0 as <-. rewrite Hn in Hbest.
  eexists _, _. split.
  { apply candidates_Ok. intros [p y] Hin. destruct (rel_enumerate _ _ _ _ Hrel Hin) as (j & _ & Hy). by eapply effective_finite. }
  apply max_by_best.
  - apply enumerate_elem_of. destruct (Forall2_lookup_l _ _ _ _ _ Hrel Hp) as (x' & Hx' & Hi'). unfold is_input in *. congruence.
  - apply negb_true_iff, N.ltb_ge. simpl. rewrite <-Hsize, <-Hav. done.
  - intros [q y] Hin Hfq Hne. simpl in Hne. destruct (rel_enumerate _ _ _ _ Hrel Hin) as (j & Hj & Hy).
    destruct (candidate_place _ _ _ _ Hinv Hy) as (c' & cat' & kj & Hcat' & Hoj & Hkj & (Hbj & Hsj & Hij) & Hnj & Hfits).
    assert (position kj = q) as Hq by (by eapply (core_pos _ _ _ _ (proj1 Hinv))).
    assert (j ≠ i) as Hji by (intros ->; apply Hne; congruence).
    assert (fits (s_keys st) (s_available st) j) as Hfj.
    { apply Hfits. rewrite Hav. apply negb_true_iff, N.ltb_ge in Hfq. exact Hfq. }
    specialize (Hbest c' cat' j kj Hcat' Hoj (list_elem_of_lookup_2 _ _ _ Hj) Hfj Hji Hkj). rewrite Hnj in Hbest.
    unfold scored. cbn [fst snd]. rewrite !(effective_factor _ _ _ Hcs Hn0).
    unfold kscore in Hbest. rewrite Hbase, Hbj in Hbest. rewrite <-Hq.
    by apply (pref_candidate inputs x y k kj).
Qed.

(** *** Termination: what the pops use up *)

(** A category whose current entry does not fit any more. *)
Definition oversized (st : Selecting) (c : nat) : bool :=
  existsb (λ w, (w_category w =? c) && (match s_categories st !! c with Some cat => w_epoch w =? epoch cat | None => false end)
                && (s_available st <? w_size w)%N) (s_heap st).

Definition measure (st : Selecting) : nat :=
  length (s_remaining st) * (length (s_categories st) + 2) + length (s_heap st) +
  length (List.filter (oversized st) (seq 0 (length (s_categories st)))).

Lemma oversized_true st c :
  oversized st c = true ↔
  ∃ w cat, w ∈ s_heap st ∧ s_categories st !! c = Some cat ∧ current c cat w ∧ (s_available st < w_size w)%N.
Proof.
  unfold oversized. rewrite existsb_exists. setoid_rewrite <-list_elem_of_In. unfold current.
  destruct (s_categories st !! c) as [cat|]; split.
  - intros (w & Hw & [[Hc%Nat.eqb_eq He%Nat.eqb_eq]%andb_prop Hs%N.ltb_lt]%andb_prop). by exists w, cat.
  - intros (w & ? & Hw & [= <-] & [Hc He] & Hs). exists w. split; [done|].
    by rewrite (proj2 (Nat.eqb_eq _ _) Hc), (proj2 (Nat.eqb_eq _ _) He), (proj2 (N.ltb_lt _ _) Hs).
  - intros (w & Hw & [[_ ?]%andb_prop _]%andb_prop). done.
  - by intros (w & cat & _ & ? & _).
Qed.

Definition popped (st : Selecting) (heap : list Winner) : Selecting :=
  {| s_keys := s_keys st; s_categories := s_categories st; s_heap := heap; s_remaining := s_remaining st;
     s_selected := s_selected st; s_available := s_available st |}.

(** A stale entry is dropped. *)
Lemma stale_ok st counts w rest cat :
  Inv st counts → s_heap st ≡ₚ w :: rest → s_categories st !! w_category w = Some cat → w_epoch w ≠ epoch cat →
  Inv (popped st rest) counts ∧ measure (popped st rest) < measure st.
Proof.
  intros [Hc [H1 H2 H3]] Hperm Hcat Hstale.
  assert (∀ w', w' ∈ rest → w' ∈ s_heap st) as Hrest by (intros w' Hw'; rewrite Hperm; apply elem_of_cons; by right).
  split; [split; [done|]; split|].
  - intros w' Hw'. by apply H1, Hrest.
  - intros w' c cat' Hw'. by apply H2, Hrest.
  - intros c cat' Hcat' _. destruct (H3 c cat' Hcat' I) as [(w' & Hw' & Hcur)|?]; [left|by right]. exists w'. split; [|done].
    rewrite Hperm in Hw'. apply elem_of_cons in Hw' as [->|?]; [|done]. destruct Hcur as [Hcw Hew]. simpl in Hcat'. congruence.
  - unfold measure. simpl. assert (length (s_heap st) = S (length rest)) as -> by (by rewrite Hperm).
    pose proof (filter_mono (oversized st) (oversized (popped st rest)) (seq 0 (length (s_categories st)))) as Hm.
    assert (∀ c, oversized (popped st rest) c = true → oversized st c = true) as Ho; [|specialize (Hm ltac:(by intros; apply Ho)); lia].
    intros c. rewrite !oversized_true. intros (w' & cat' & Hw' & Hrest'). exists w', cat'. split; [by apply Hrest|done].
Qed.

(** An entry that does not fit any more is replaced by one that does. *)
Lemma oversize_ok st counts w rest cat :
  Inv st counts → s_heap st ≡ₚ w :: rest → s_categories st !! w_category w = Some cat → w_epoch w = epoch cat →
  (s_available st < w_size w)%N →
  ∃ cats heap, refresh (s_keys st) (w_category w) (s_categories st) rest (s_available st) bias = Some (cats, heap) ∧
    let st' := {| s_keys := s_keys st; s_categories := cats; s_heap := heap; s_remaining := s_remaining st;
                  s_selected := s_selected st; s_available := s_available st |} in
    Inv st' counts ∧ measure st' < measure st.
Proof using inputs_bound bias_valid.
  intros [Hc Hh] Hperm Hcat Hcur Hover. set (c := w_category w) in *.
  assert (Heap (λ c', c' ≠ c ∧ (None : option nat) ≠ Some c') (s_keys st) (s_categories st) (s_remaining st) rest (s_available st)) as Hh1.
  { eapply (heap_after _ _ _ _ _ _ _ w rest _ _ c None Hh Hperm eq_refl); [lia| |done].
    intros c' cat' Hcat'. exists cat'. split_and!; [done..|]. intros _ _. split_and!; done. }
  destruct (refresh_ok _ _ _ _ _ _ _ _ _ Hc Hh1 Hcat) as (new & Hr & Hl & Hnew & Hc' & Hh').
  exists (<[c := next_epoch cat]> (s_categories st)), (new ++ rest). split; [exact Hr|]. intros st'.
  pose proof (lookup_lt_Some _ _ _ Hcat) as Hlt. split.
  { split; [done|]. eapply heap_weaken; [|exact Hh']. intros c' _ _. destruct (decide (c' = c)); [by right|by left]. }
  unfold measure. simpl. rewrite length_insert, length_app.
  assert (length (s_heap st) = S (length rest)) as -> by (by rewrite Hperm).
  pose proof (filter_less (oversized st) (oversized st') (seq 0 (length (s_categories st))) c) as Hm.
  assert (∀ c', oversized st' c' = true → oversized st c' = true ∧ c' ≠ c) as Ho.
  { intros c'. rewrite !oversized_true. intros (w' & cat' & Hw' & Hcat' & Hcur' & Hov). simpl in *.
    apply elem_of_app in Hw' as [Hw'|Hw'].
    { rewrite Forall_forall in Hnew. destruct (Hnew w' Hw') as [_ Hle]. lia. }
    assert (c' ≠ c) as Hne.
    { intros ->. rewrite list_lookup_insert_eq in Hcat' by done. injection Hcat' as <-. destruct Hcur' as [Hcw Hew].
      destruct (heap_epoch _ _ _ _ _ _ Hh1 w' Hw') as (cat' & Hc2 & Hle). rewrite Hcw, Hcat in Hc2. injection Hc2 as <-. simpl in Hew. lia. }
    split; [|done]. rewrite list_lookup_insert_ne in Hcat' by done. exists w', cat'. split_and!; try done.
    rewrite Hperm. apply elem_of_cons. by right. }
  assert (oversized st c = true) as Hoc.
  { apply oversized_true. exists w, cat. split_and!; [|done..]. rewrite Hperm. apply elem_of_cons. by left. }
  specialize (Hm ltac:(intros c' _ Hc1; by apply Ho) ltac:(apply elem_of_seq; lia) Hoc).
  destruct (oversized st' c) eqn:Hoc'; [by apply Ho in Hoc' as [_ []]|]. specialize (Hm eq_refl). lia.
Qed.

(** *** The loops agree *)

Definition sizes (xs : list (SelectorInput T)) : N := foldr (λ x n, size x + n)%N 0%N xs.
Lemma sizes_snoc xs x : sizes (xs ++ [x]) = (sizes xs + size x)%N.
Proof. induction xs as [|y xs IH]; simpl; lia. Qed.

Lemma loops_agree budget n st counts xs cs sel m :
  measure st < n → length xs < m → Inv st counts → counted_as cs counts → rel (s_remaining st) xs → rel (s_selected st) sel →
  s_available st = (budget - sizes sel)%N → (sizes sel ≤ budget)%N →
  s_selected st ++ s_remaining st ≡ₚ seq 0 (length inputs) →
  ∃ out sel', select_winners locations bias n st = Some out ∧
    reference_loop m weights budget xs cs (sizes sel) sel = Some (Ok (sel', sizes sel')) ∧ rel out sel' ∧ NoDup out.
Proof using shape_members shape_names locations_ok bases_ok inputs_bound bias_valid biased.
  revert st counts xs cs sel m. induction n as [|n IH]; intros st counts xs cs sel m Hn Hm Hinv Hcs Hrel Hsel Hav Hle Hperm; [lia|].
  destruct m as [|m]; [lia|]. cbn [select_winners]. pose proof (heap_pop_spec (s_heap st)) as Hpop.
  destruct (heap_pop (s_heap st)) as [[w rest]|].
  - destruct Hpop as [Hheap Hmax].
    assert (w ∈ s_heap st) as Hw by (rewrite Hheap; apply elem_of_cons; by left).
    destruct (heap_epoch _ _ _ _ _ _ (proj2 Hinv) w Hw) as (cat & Hcat & _). rewrite Hcat. cbn [mbind option_bind].
    destruct (decide (w_epoch w ≠ epoch cat)) as [Hstale|Hcur%dec_stable].
    { destruct (stale_ok _ _ _ _ _ Hinv Hheap Hcat Hstale) as [Hinv' Hmeas]. by apply (IH (popped st rest) counts xs cs sel (S m)); [lia|..]. }
    destruct (winner_best _ _ _ _ _ Hinv Hheap Hmax Hcat Hcur) as (k & Hk & Hrem & Hord & Hsz & Hbest). rewrite Hk. cbn [mbind option_bind].
    destruct (N.ltb_spec (s_available st) (ksize k)) as [Hover|Hfit].
    + rewrite <-Hsz in Hover. destruct (oversize_ok _ _ _ _ _ Hinv Hheap Hcat Hcur Hover) as (cats & heap & Hr & Hinv' & Hmeas).
      rewrite Hr. cbn [mbind option_bind]. apply (IH _ counts xs cs sel (S m)); simpl; try done. lia.
    + destruct (core_in _ _ _ _ (proj1 Hinv) _ Hrem) as [x Hx]. specialize (Hbest Hfit).
      destruct (take_winner_ok _ _ _ _ _ _ _ Hinv Hheap Hcat Hk Hx Hrem Hord Hfit)
        as (st' & Ht & Hsw & Hinv' & Hav' & Hsel' & Hhl & Hcl & Hrl).
      rewrite Ht. cbn [mbind option_bind].
      assert (s_remaining st !! position k = Some (w_index w)) as Hp.
      { apply list_elem_of_lookup in Hrem as [p Hp]. by rewrite (core_pos _ _ _ _ (proj1 Hinv) p _ k Hp Hk). }
      destruct (scan_finds _ _ _ _ _ _ _ _ _ _ _ Hinv Hcs Hrel Hav Hk Hx Hp Hcat Hord Hfit Hbest) as (l & sc & Hl & Hmaxl).
      destruct (swap_remove_Forall2 _ _ _ _ _ _ Hrel Hsw) as (x' & xs' & Hswx & Hx' & Hrel').
      assert (x' = x) as -> by (unfold is_input in Hx'; congruence).
      destruct (core_keys _ _ _ _ (proj1 Hinv) _ x Hx) as (k' & Hk' & _ & Hsize & _). rewrite Hk in Hk'. injection Hk' as <-.
      destruct xs as [|x0 xs0] eqn:Hxs; [by apply Forall2_nil_inv_r in Hrel; rewrite Hrel in Hp|]. rewrite <-Hxs in *.
      assert (reference_loop (S m) weights budget xs cs (sizes sel) sel =
        reference_loop m weights budget xs' (count_category x cs) (sizes (sel ++ [x])) (sel ++ [x])) as ->.
      { cbn [reference_loop]. rewrite Hxs at 1. rewrite Hl, Hmaxl, Hswx. cbn [mbind option_bind]. by rewrite sizes_snoc. }
      pose proof (Forall2_length _ _ _ Hrel) as Hlen. pose proof (Forall2_length _ _ _ Hrel') as Hlen'.
      apply (IH st' (bump (category x) counts)); try done.
      * unfold measure in *. rewrite Hcl.
        pose proof (filter_length (oversized st') (seq 0 (length (s_categories st)))) as Hfl. rewrite length_seq in Hfl.
        assert (length (s_heap st) = S (length rest)) as Hhp by (by rewrite Hheap). nia.
      * lia.
      * by apply counted_bump.
      * rewrite Hsel'. apply Forall2_app; [done|]. by repeat constructor.
      * rewrite Hav', Hav, sizes_snoc. lia.
      * rewrite sizes_snoc. rewrite Hsize, Hav in Hfit. lia.
      * rewrite Hsel', <-Hperm. destruct (swap_remove_spec _ _ _ Hp) as (l' & Hsw' & Hp' & _). rewrite Hsw in Hsw'. injection Hsw' as <-.
        rewrite Hp'. rewrite <-app_assoc. simpl. done.
  - exists (s_selected st), sel. split_and!; [done| |done|].
    + cbn [reference_loop]. destruct xs as [|x0 xs0] eqn:Hxs; [done|]. rewrite <-Hxs in *.
      rewrite (nothing_fits st counts) by done. done.
    + assert (NoDup (s_selected st ++ s_remaining st)) as Hnd by (rewrite Hperm; apply NoDup_seq). by apply NoDup_app in Hnd as [? _].
Qed.
End selection.
