(* ===== verification/SelectorRun.v ===== *)
(** The diversity selector from its start: the keys, the categories and where their
    candidates stand, then the claims about the selector as a whole. *)

From Stdlib Require Import ZArith QArith Lia String SpecFloat.
From stdpp Require Import base tactics list numbers strings sorting.
From S2P Require Import Prelude Rounding Float Score Fold Selector SelectorTree SelectorCategory SelectorFacts.
#[local] Open Scope nat_scope.

#[local] Existing Instance F64.

(** ** A category at its start *)

Lemma insert_by_ext {A} (f g : A → A → comparison) x l :
  (∀ y, y ∈ l → f x y = g x y) → insert_by f x l = insert_by g x l.
Proof.
  induction l as [|y l IH]; intros Hfg; [done|]. simpl. rewrite Hfg by (apply elem_of_cons; by left).
  rewrite IH; [done|]. intros z Hz. apply Hfg, elem_of_cons. by right.
Qed.

Lemma sort_by_ext {A} (f g : A → A → comparison) l :
  (∀ x y, x ∈ l → y ∈ l → f x y = g x y) → sort_by f l = sort_by g l.
Proof.
  induction l as [|x l IH]; intros Hfg; [done|].
  change (insert_by f x (sort_by f l) = insert_by g x (sort_by g l)).
  rewrite IH by (intros y z Hy Hz; apply Hfg; apply elem_of_cons; by right).
  apply insert_by_ext. intros y Hy%elem_of_sort_by. apply Hfg; apply elem_of_cons; [by left|by right].
Qed.

(** Descending total order of finite bases. *)
Definition base_cmp (a b : nat * f64) : comparison :=
  then_cmp (Qcompare (fval b.2) (fval a.2)) (cmp (sign_key b.2) (sign_key a.2)).

Lemma base_Comparator : Comparator base_cmp.
Proof.
  unfold base_cmp. apply then_cmp_Comparator; eapply @reverse_Comparator.
  - apply (@key_Comparator _ _ (λ a : nat * f64, fval a.2) Qcompare Qcompare_Comparator).
  - apply (key_Comparator (λ a : nat * f64, sign_key a.2) cmp).
Qed.

Lemma total_cmp_finite x y :
  is_finite x = true → is_finite y = true →
  total_cmp x y = then_cmp (Qcompare (fval x) (fval y)) (cmp (sign_key x) (sign_key y)).
Proof.
  intros Fx Fy. unfold total_cmp. rewrite fcmp_finite by done. unfold sign_key. simpl.
  by destruct (sign_bit x), (sign_bit y).
Qed.

Lemma zip_seq_lookup {A} a (l : list A) s i : (s, i) ∈ zip (seq a (length l)) l ↔ a ≤ s ∧ l !! (s - a) = Some i.
Proof.
  rewrite list_elem_of_lookup. setoid_rewrite lookup_zip_Some. setoid_rewrite lookup_seq. split.
  - intros (j & [-> Hj] & Hi). simpl in *. split; [lia|]. by replace (a + j - a) with j by lia.
  - intros [Hs Hi]. exists (s - a). simpl. apply lookup_lt_Some in Hi as Hlt. split; [lia|done].
Qed.

Lemma plant_ok n o a t :
  n + a + length o ≤ length t →
  ∃ t', plant n (zip (seq a (length o)) o) t = Some t' ∧ length t' = length t ∧
    ∀ m, t' !! m = if decide (n + a ≤ m < n + a + length o) then Some (o !! (m - n - a)) else t !! m.
Proof.
  revert a t. induction o as [|i o IH]; intros a t Hl; simpl in *.
  - exists t. split_and!; [done..|]. intros m. by rewrite decide_False by lia.
  - rewrite set_at_Some by lia. cbn [mbind option_bind].
    destruct (IH (S a) (<[n + a := Some i]> t)) as (t' & Ht & Hlen & Hlk); [rewrite length_insert; lia|].
    exists t'. split_and!; [done|by rewrite Hlen, length_insert|]. intros m. rewrite Hlk.
    destruct (decide (m = n + a)) as [->|Hne].
    + rewrite decide_False, decide_True, list_lookup_insert_eq by lia. by replace (n + a - n - a) with 0 by lia.
    + rewrite list_lookup_insert_ne by done. destruct (decide (n + S a ≤ m < _)) as [Hin|Hout].
      * rewrite decide_True by lia. by replace (m - n - a) with (S (m - n - S a)) by lia.
      * by rewrite decide_False by lia.
Qed.

Lemma log2_up_bound n : n ≤ 2 ^ Nat.log2_up n.
Proof.
  destruct (decide (n ≤ 1)) as [Hle|Hgt]; [pose proof (pow_pos (Nat.log2_up n)); lia|].
  apply Nat.log2_up_spec. lia.
Qed.

Lemma Category_new_ok keys (alive : nat → Prop) o pen :
  NoDup o → (∀ i, i ∈ o → alive i ∧ ∃ k, keys !! i = Some k ∧ valid (base k) ∧ is_finite (base k) = true) →
  ∃ cat, Category_new keys o pen = Some cat ∧ order cat ≡ₚ o ∧ count cat = 0 ∧ penalized cat = pen ∧ cat_ok keys alive cat.
Proof.
  intros Hnd Hok. unfold Category_new.
  destruct (mapM _ o) as [based|] eqn:Hm.
  2: { exfalso. apply mapM_None, Exists_exists in Hm as (i & Hi & Hn). destruct (Hok i Hi) as (_ & k & Hk & _).
       by rewrite Hk in Hn. }
  cbn [mbind option_bind]. apply mapM_Some in Hm.
  assert (∀ p, p ∈ based → ∃ k, keys !! p.1 = Some k ∧ p.2 = base k ∧ valid (base k) ∧ is_finite (base k) = true) as Hbased.
  { intros p [s Hs]%list_elem_of_lookup. destruct (Forall2_lookup_r _ _ _ _ _ Hm Hs) as (i & Hi & Hp).
    destruct (Hok i) as (_ & k & Hk & V & F); [by eapply list_elem_of_lookup_2|]. rewrite Hk in Hp. simpl in Hp. injection Hp as <-.
    by exists k. }
  assert (based.*1 = o) as Hfst.
  { clear -Hm. induction Hm as [|i p o based Hp Hm IH]; [done|]. rewrite fmap_cons, IH. f_equal.
    destruct (keys !! i); simpl in Hp; [by injection Hp as <-|done]. }
  set (o' := (sort_by _ based).*1).
  assert (o' ≡ₚ o) as Hperm by (unfold o'; rewrite <-Hfst; by rewrite sort_by_Permutation).
  set (d := Nat.log2_up (length o')). unfold next_power_of_two. fold d.
  assert (length o' ≤ 2 ^ d) as Hlen by apply log2_up_bound.
  destruct (plant_ok (2 ^ d) o' 0 (replicate (2 * 2 ^ d) None)) as (t & Ht & Htl & Htk); [rewrite length_replicate; lia|].
  unfold enumerate. rewrite Ht. cbn [mbind option_bind]. rewrite length_replicate in Htl.
  assert (∀ m, 2 ^ d ≤ m < 2 * 2 ^ d → t !! m = Some (o' !! (m - 2 ^ d))) as Hleaf.
  { intros m Hmd. rewrite Htk. replace (m - 2 ^ d - 0) with (m - 2 ^ d) by lia. case_decide as Hr; [done|].
    rewrite lookup_replicate_2 by lia. by rewrite (proj2 (lookup_ge_None o' (m - 2 ^ d))) by lia. }
  destruct (pull_down_ok d keys (2 ^ d - 1) t) as (t' & Ht' & [Hsl1 Hsl2] & Hto); [done|pose proof (pow_pos d); lia| |].
  { intros m Hmd. assert (is_leaf d m) as Hlf by (unfold is_leaf; lia). apply node_leaf_ok; [done|done|]. intros i.
    rewrite Hleaf by lia. intros [= Hi]. apply list_elem_of_lookup_2 in Hi. rewrite Hperm in Hi.
    destruct (Hok i Hi) as (_ & k & Hk & _). by exists k. }
  rewrite Ht'. cbn [mbind option_bind]. eexists. split; [done|]. split_and!; [exact Hperm|done|done|]. split; simpl.
  - exists d. split_and!; try done. intros s i Hs. rewrite Hsl2, Hleaf by lia. replace (2 ^ d + s - 2 ^ d) with s by lia. split.
    + intros [= Hi]. split; [done|]. apply list_elem_of_lookup_2 in Hi. rewrite Hperm in Hi. by apply Hok.
    + by intros [-> _].
  - by rewrite Hperm.
  - intros i Hi. rewrite Hperm in Hi. by apply Hok.
  - intros s s' i i' k k' Hss Hi Hi' Hk Hk'. unfold o' in Hi, Hi'.
    rewrite (sort_by_ext _ base_cmp) in Hi, Hi'.
    2,3: intros x y Hx Hy; destruct (Hbased x Hx) as (kx & _ & Hbx & _ & Fx); destruct (Hbased y Hy) as (ky & _ & Hby & _ & Fy);
         apply total_cmp_finite; congruence.
    rewrite list_lookup_fmap in Hi, Hi'. apply fmap_Some in Hi as (p & Hp & ->), Hi' as (p' & Hp' & ->).
    destruct (Hbased p) as (kp & Hkp & Hbp & Vp & Fp); [apply (elem_of_sort_by base_cmp); by eapply list_elem_of_lookup_2|].
    destruct (Hbased p') as (kp' & Hkp' & Hbp' & Vp' & Fp'); [apply (elem_of_sort_by base_cmp); by eapply list_elem_of_lookup_2|].
    assert (k = kp) as -> by congruence. assert (k' = kp') as -> by congruence.
    destruct (decide (s = s')) as [->|Hne].
    + assert (p = p') as -> by congruence. assert (kp = kp') as -> by congruence. apply fle_refl. by destruct (base kp').
    + pose proof (sorted_lookup _ _ _ _ _ _ (sort_by_sorted base_cmp (H:=base_Comparator) based) Hp Hp' ltac:(lia)) as Hle.
      apply fle_val; [done..|]. unfold le_by, base_cmp in Hle. rewrite Hbp, Hbp' in Hle.
      apply Qle_alt. intros Hgt. apply Hle. by rewrite Hgt.
Qed.

(** ** The keys and the groups *)

Section start.
Context {T : Type}.
Variable inputs : list (SelectorInput T).
Variable weights : SelectorWeights.
#[local] Abbreviation base_of x := (pragmatic_plus_epistemic x (epistemic_weight weights)).

Lemma make_keys_ok :
  ∃ keys, make_keys inputs weights = Some keys ∧
    ∀ i x, inputs !! i = Some x → ∃ k, keys !! i = Some k ∧ key_of inputs weights i x k ∧ position k = i.
Proof.
  unfold make_keys. destruct (mapM _ (enumerate inputs)) as [keys|] eqn:Hm.
  - exists keys. split; [done|]. apply mapM_Some in Hm. intros i x Hx.
    assert (enumerate inputs !! i = Some (i, x)) as He by (by rewrite enumerate_lookup, Hx).
    destruct (Forall2_lookup_l _ _ _ _ _ Hm He) as (k & Hk & Hf). exists k. split; [done|].
    destruct (bm_get (input_id x) (id_ranks inputs)) as [r|] eqn:Hr; [|done]. simpl in Hf. injection Hf as <-. by split_and!.
  - exfalso. apply mapM_None, Exists_exists in Hm as ([i x] & Hi & Hn). apply enumerate_elem_of in Hi.
    destruct (id_rank_some inputs x) as [r Hr]; [by eapply list_elem_of_lookup_2|]. by rewrite Hr in Hn.
Qed.

Definition in_category (name : option string) (e : nat * SelectorInput T) : bool := bool_decide (category e.2 = name).

Lemma groups_spec :
  bm_wf (groups_of inputs) ∧
  ∀ name, default [] (bm_get name (groups_of inputs)) = (List.filter (in_category name) (enumerate inputs)).*1.
Proof.
  unfold groups_of. generalize (enumerate inputs). intros l. induction l as [|e l IH] using rev_ind; [split; [constructor|done]|].
  rewrite foldl_snoc. destruct IH as [Hw Hg]. unfold group at 1 3. split; [by apply bm_insert_wf|].
  intros name. rewrite List.filter_app, fmap_app. simpl. unfold in_category at 2.
  destruct (decide (name = category e.2)) as [->|Hne].
  - rewrite bm_get_insert_eq, bool_decide_true by done. simpl. by rewrite Hg.
  - rewrite bm_get_insert_ne, bool_decide_false by congruence. rewrite Hg. simpl. by rewrite app_nil_r.
Qed.

Lemma group_members name o :
  (name, o) ∈ groups_of inputs →
  NoDup o ∧ ∀ i, i ∈ o ↔ ∃ x, inputs !! i = Some x ∧ category x = name.
Proof.
  destruct groups_spec as [Hw Hg]. intros Hin. apply elem_of_bm_get in Hin; [|done]. specialize (Hg name). rewrite Hin in Hg. simpl in Hg.
  subst o. split.
  - assert (NoDup (enumerate inputs).*1) as Hnd.
    { unfold enumerate. rewrite fst_zip by (by rewrite length_seq). apply NoDup_seq. }
    revert Hnd. generalize (enumerate inputs). intros l. induction l as [|e l IH]; [done|]. rewrite fmap_cons, NoDup_cons. intros [Hn Hd].
    simpl. destruct (in_category name e); [|by apply IH]. rewrite fmap_cons. constructor; [|by apply IH].
    intros Hi. apply Hn. apply list_elem_of_fmap in Hi as (e' & -> & He'). apply list_elem_of_fmap. exists e'. split; [done|].
    apply list_elem_of_In, List.filter_In in He' as [He' _]. by apply list_elem_of_In.
  - intros i. rewrite list_elem_of_fmap. split.
    + intros ([i' x] & -> & He). apply list_elem_of_In, List.filter_In in He as [He%list_elem_of_In Hc%bool_decide_eq_true].
      apply enumerate_elem_of in He. by exists x.
    + intros (x & Hx & Hc). exists (i, x). split; [done|]. apply list_elem_of_In, List.filter_In.
      split; [by apply list_elem_of_In, enumerate_elem_of|by apply bool_decide_eq_true].
Qed.

Lemma group_exists i x : inputs !! i = Some x → ∃ o, (category x, o) ∈ groups_of inputs.
Proof.
  intros Hx. destruct groups_spec as [Hw Hg]. destruct (bm_get (category x) (groups_of inputs)) as [o|] eqn:Ho.
  - exists o. by apply elem_of_bm_get.
  - specialize (Hg (category x)). rewrite Ho in Hg. simpl in Hg. exfalso.
    assert (i ∈ (List.filter (in_category (category x)) (enumerate inputs)).*1) as Hi; [|rewrite <-Hg in Hi; by apply not_elem_of_nil in Hi].
    apply list_elem_of_fmap. exists (i, x). split; [done|]. apply list_elem_of_In, List.filter_In.
    split; [by apply list_elem_of_In, enumerate_elem_of|by apply bool_decide_eq_true].
Qed.
End start.

(** ** The places of the candidates *)

Lemma place_ok c slots loc :
  (∀ s i, (s, i) ∈ slots → i < length loc) → NoDup slots.*2 →
  ∃ loc', place c slots loc = Some loc' ∧ length loc' = length loc ∧
    (∀ i, i ∉ slots.*2 → loc' !! i = loc !! i) ∧ ∀ s i, (s, i) ∈ slots → loc' !! i = Some (c, s).
Proof.
  revert loc. induction slots as [|[s i] slots IH]; intros loc Hb Hnd; simpl.
  - exists loc. split_and!; [done..|]. by intros s i []%not_elem_of_nil.
  - rewrite set_at_Some by (apply (Hb s i), elem_of_cons; by left). cbn [mbind option_bind].
    rewrite fmap_cons, NoDup_cons in Hnd. destruct Hnd as [Hni Hnd].
    assert (i < length loc) as Hil by (apply (Hb s i), elem_of_cons; by left).
    destruct (IH (<[i := (c, s)]> loc)) as (loc' & Hl & Hlen & Hout & Hin); [|done|].
    { intros s' i' Hin. rewrite length_insert. apply (Hb s' i'), elem_of_cons. by right. }
    exists loc'. split_and!; [done|by rewrite Hlen, length_insert| |].
    + intros j [Hj1 Hj2]%not_elem_of_cons. rewrite Hout by done. by rewrite list_lookup_insert_ne.
    + intros s' j [[= -> ->]|Hj]%elem_of_cons; [|by apply Hin]. rewrite Hout by done. by rewrite list_lookup_insert_eq.
Qed.

Lemma place_all_ok cats loc a :
  (∀ c cat, cats !! c = Some cat → NoDup (order cat) ∧ ∀ i, i ∈ order cat → i < length loc) →
  (∀ c c' cat cat' i, cats !! c = Some cat → cats !! c' = Some cat' → i ∈ order cat → i ∈ order cat' → c = c') →
  ∃ loc', place_all (zip (seq a (length cats)) cats) loc = Some loc' ∧
    (∀ i, (∀ cat, cat ∈ cats → i ∉ order cat) → loc' !! i = loc !! i) ∧
    ∀ c cat s i, cats !! c = Some cat → order cat !! s = Some i → loc' !! i = Some (a + c, s).
Proof.
  revert loc a. induction cats as [|cat cats IH]; intros loc a Hok Hdisj; simpl.
  - exists loc. split_and!; [done..|]. by intros c cat s i Hc.
  - destruct (Hok 0 cat eq_refl) as [Hnd Hb].
    assert ((enumerate (order cat)).*2 = order cat) as Hsnd by (unfold enumerate; apply snd_zip; by rewrite length_seq).
    destruct (place_ok a (enumerate (order cat)) loc) as (loc1 & Hl1 & Hlen1 & Hout1 & Hin1).
    { intros s i Hs. apply Hb. apply enumerate_elem_of in Hs. by eapply list_elem_of_lookup_2. }
    { by rewrite Hsnd. }
    rewrite Hl1. cbn [mbind option_bind].
    destruct (IH loc1 (S a)) as (loc' & Hl & Hout & Hin).
    { intros c cat' Hc. rewrite Hlen1. by apply (Hok (S c)). }
    { intros c c' cat1 cat2 i Hc Hc' Hi Hi'. by injection (Hdisj (S c) (S c') cat1 cat2 i Hc Hc' Hi Hi'). }
    exists loc'. split_and!; [done| |].
    + intros i Hi. rewrite Hout by (intros cat' Hcat'; apply Hi, elem_of_cons; by right).
      apply Hout1. rewrite Hsnd. apply Hi, elem_of_cons. by left.
    + intros [|c] cat' s i Hc Hs; simpl in Hc.
      * injection Hc as <-. rewrite Hout.
        { replace (a + 0) with a by lia. by apply Hin1, enumerate_elem_of. }
        intros cat' Hcat' Hi. apply list_elem_of_lookup in Hcat' as [c' Hc'].
        discriminate (Hdisj 0 (S c') cat cat' i eq_refl Hc' (list_elem_of_lookup_2 _ _ _ Hs) Hi).
      * replace (a + S c) with (S a + c) by lia. by apply (Hin c cat').
Qed.

(** ** From the start to the end *)

Lemma mapM_exists {A B} (f : A → option B) (P : A → B → Prop) l :
  (∀ x, x ∈ l → ∃ y, f x = Some y ∧ P x y) → ∃ ys, mapM f l = Some ys ∧ Forall2 P l ys.
Proof.
  induction l as [|x l IH]; intros Hf; [by exists []|]. destruct (Hf x) as (y & Hy & Hp); [apply elem_of_cons; by left|].
  destruct IH as (ys & Hys & Hps); [intros z Hz; apply Hf, elem_of_cons; by right|]. exists (y :: ys).
  simpl. rewrite Hy. simpl. rewrite Hys. split; [done|by constructor].
Qed.

Section run.
Context {T : Type}.
Variable inputs : list (SelectorInput T).
Variable weights : SelectorWeights.
#[local] Abbreviation bias := (diversity_bias weights).
Hypothesis bases_ok : ∀ i x, inputs !! i = Some x →
  valid (pragmatic_plus_epistemic x (epistemic_weight weights)) ∧
  is_finite (pragmatic_plus_epistemic x (epistemic_weight weights)) = true.
Hypothesis inputs_bound : (Z.of_nat (length inputs) ≤ USIZE_MAX)%Z.
Hypothesis bias_valid : bias_ok bias.

Lemma refresh_all_ok shape keys remaining counts available cs ready cats heap :
  Core inputs weights shape keys cats remaining counts → Heap weights ready keys cats remaining heap available →
  (∀ c, c ∈ cs → c < length cats) →
  ∃ cats' heap', refresh_all keys cs cats heap available bias = Some (cats', heap') ∧
    Core inputs weights shape keys cats' remaining counts ∧
    Heap weights (λ c, ready c ∨ c ∈ cs) keys cats' remaining heap' available ∧
    length cats' = length cats ∧ length heap' ≤ length heap + length cs.
Proof using inputs_bound bias_valid.
  revert ready cats heap. induction cs as [|c cs IH]; intros ready cats heap Hc Hh Hcs; simpl.
  - exists cats, heap. split_and!; [done..| |done|lia]. eapply heap_weaken; [|exact Hh].
    intros c _ [?|?%not_elem_of_nil]; done.
  - destruct (lookup_lt_is_Some_2 cats c) as [cat Hcat]; [apply Hcs, elem_of_cons; by left|].
    destruct (refresh_ok _ _ _ inputs_bound bias_valid _ _ _ _ _ _ _ _ _ Hc Hh Hcat) as (new & Hr & Hl & _ & Hc' & Hh').
    rewrite Hr. cbn [mbind option_bind].
    destruct (IH _ _ _ Hc' Hh') as (cats' & heap' & Hr' & Hc2 & Hh2 & Hl1 & Hl2).
    { intros c' Hc''. rewrite length_insert. apply Hcs, elem_of_cons. by right. }
    exists cats', heap'. split_and!; [done..| |by rewrite Hl1, length_insert|rewrite length_app in Hl2; lia].
    eapply heap_weaken; [|exact Hh2]. intros c' _. rewrite elem_of_cons. tauto.
Qed.

Lemma diversity_ok budget :
  feq bias f0 = false →
  ∃ out sel, diversity_select inputs budget weights = Some out ∧
    reference_loop (S (length inputs)) weights budget inputs [] 0 [] = Some (Ok (sel, sizes sel)) ∧
    Forall2 (is_input inputs) out sel ∧ NoDup out.
Proof using bases_ok inputs_bound bias_valid.
  intros Hbias. unfold diversity_select.
  destruct (make_keys_ok inputs weights) as (keys & Hk & Hkeys). rewrite Hk. cbn [mbind option_bind].
  set (n := length inputs).
  destruct (mapM_exists (λ '(name, order), Category_new keys order (match name with Some _ => true | None => false end))
    (λ g cat, order cat ≡ₚ g.2 ∧ count cat = 0 ∧ penalized cat = (match g.1 with Some _ => true | None => false end) ∧
       cat_ok keys (.∈ seq 0 n) cat) (groups_of inputs)) as (cats & Hcats & Hgc).
  { intros [name o] Hin. destruct (group_members inputs name o Hin) as [Hnd Hm]. apply Category_new_ok; [done|].
    intros i Hi. apply Hm in Hi as (x & Hx & _). split; [apply elem_of_seq; apply lookup_lt_Some in Hx; unfold n; lia|].
    destruct (Hkeys i x Hx) as (k & Hki & (Hb & _) & _). exists k. rewrite Hb. split; [done|by apply (bases_ok i)]. }
  rewrite Hcats. cbn [mbind option_bind].
  pose proof (Forall2_length _ _ _ Hgc) as Hlen.
  set (shape := zip (groups_of inputs).*1 (order <$> cats)).
  assert (∀ c name o', shape !! c = Some (name, o') ↔ ∃ o cat, groups_of inputs !! c = Some (name, o) ∧ cats !! c = Some cat ∧ o' = order cat) as Hshape.
  { intros c name o'. unfold shape. rewrite lookup_zip_Some, !list_lookup_fmap, !fmap_Some. split.
    - intros [([name' o] & Hg & ->) (cat & Hcat & ->)]. by exists o, cat.
    - intros (o & cat & Hg & Hcat & ->). split; [by exists (name, o)|by exists cat]. }
  assert (∀ c name o i, shape !! c = Some (name, o) → i ∈ o ↔ ∃ x, inputs !! i = Some x ∧ category x = name) as Hmembers.
  { intros c name o' i (o & cat & Hg & Hcat & ->)%Hshape. destruct (Forall2_lookup_lr _ _ _ _ _ _ Hgc Hg Hcat) as (Hp & _).
    rewrite Hp. simpl. apply (group_members inputs name o). by eapply list_elem_of_lookup_2. }
  assert (NoDup shape.*1) as Hnames.
  { unfold shape. rewrite fst_zip by (rewrite !length_fmap; lia). apply cmp_sorted_NoDup. apply groups_spec. }
  assert (∀ c c' cat cat' i, cats !! c = Some cat → cats !! c' = Some cat' → i ∈ order cat → i ∈ order cat' → c = c') as Hdisj.
  { intros c c' cat cat' i Hc Hc' Hi Hi'.
    destruct (Forall2_lookup_r _ _ _ _ _ Hgc Hc) as ([nm o] & Hg & _). destruct (Forall2_lookup_r _ _ _ _ _ Hgc Hc') as ([nm' o'] & Hg' & _).
    apply (shape_unique inputs shape Hmembers Hnames c c' nm nm' (order cat) (order cat') i); [apply Hshape; eauto..|done|done]. }
  destruct (place_all_ok cats (replicate n (0, 0)) 0) as (loc & Hloc & _ & Hplaces).
  { intros c cat Hc. destruct (Forall2_lookup_r _ _ _ _ _ Hgc Hc) as ([nm o] & Hg & Hp & _ & _ & Hok). split; [by apply (co_nodup _ _ _ Hok)|].
    intros i Hi. rewrite length_replicate. rewrite Hp in Hi. apply (group_members inputs nm o) in Hi as (x & Hx & _); [by eapply lookup_lt_Some|].
    by eapply list_elem_of_lookup_2. }
  { done. }
  unfold enumerate at 1. fold n. rewrite Hloc. cbn [mbind option_bind].
  assert (∀ i x, inputs !! i = Some x → ∃ c slot name o, loc !! i = Some (c, slot) ∧ shape !! c = Some (name, o) ∧ o !! slot = Some i) as Hlocs.
  { intros i x Hx. destruct (group_exists inputs i x Hx) as [o [c Hc]%list_elem_of_lookup].
    destruct (Forall2_lookup_l _ _ _ _ _ Hgc Hc) as (cat & Hcat & Hp & _). simpl in Hp.
    assert (i ∈ order cat) as [s Hs]%list_elem_of_lookup.
    { rewrite Hp. apply (group_members inputs (category x) o); [by eapply list_elem_of_lookup_2|by exists x]. }
    exists c, s, (category x), (order cat). split_and!; [by apply (Hplaces c cat)|apply Hshape; eauto|done]. }
  assert (Core inputs weights shape keys cats (seq 0 n) (λ _, 0)) as Hcore.
  { split.
    - intros i x Hx. destruct (Hkeys i x Hx) as (k & ? & ? & _). by exists k.
    - apply NoDup_seq.
    - intros i Hi%elem_of_seq. apply lookup_lt_is_Some_2. unfold n in Hi. lia.
    - intros p i k [-> Hp]%lookup_seq Hki. simpl in Hki. destruct (lookup_lt_is_Some_2 inputs p) as [x Hx]; [unfold n in Hp; lia|].
      destruct (Hkeys p x Hx) as (k' & Hk' & _ & Hpos). congruence.
    - apply Forall2_same_length_lookup_2; [unfold shape; rewrite length_zip_with, !length_fmap; lia|].
      intros c [nm o'] cat (o & cat' & Hg & Hc' & ->)%Hshape Hc. rewrite Hc in Hc'. injection Hc' as <-.
      destruct (Forall2_lookup_lr _ _ _ _ _ _ Hgc Hg Hc) as (_ & Hn & Hpen & _). by split_and!.
    - intros c cat Hc. destruct (Forall2_lookup_r _ _ _ _ _ Hgc Hc) as (g & _ & _ & _ & _ & Hok). exact Hok.
    - intros _. rewrite length_seq. unfold n. lia.
    - done. }
  assert (Heap weights (λ _, False) keys cats (seq 0 n) [] budget) as Hheap.
  { split; [by intros w []%not_elem_of_nil|by intros w c cat []%not_elem_of_nil|by intros c cat _ []]. }
  destruct (refresh_all_ok _ _ _ _ _ (seq 0 (length cats)) _ _ _ Hcore Hheap) as (cats' & heap' & Hr & Hcore' & Hheap' & Hl1 & Hl2).
  { intros c Hc%elem_of_seq. lia. }
  rewrite Hr. cbn [mbind option_bind]. rewrite length_seq in Hl2. simpl in Hl2.
  destruct (loops_agree inputs weights shape loc Hmembers Hnames Hlocs bases_ok inputs_bound bias_valid Hbias budget
    (pops n (length cats)) {| s_keys := keys; s_categories := cats'; s_heap := heap'; s_remaining := seq 0 n;
       s_selected := []; s_available := budget |} (λ _, 0) inputs [] [] (S n)) as (out & sel & Ho & Href & Hrel & Hnd).
  - unfold measure, pops. simpl. rewrite length_seq, Hl1.
    match goal with |- context [length (List.filter ?f ?l)] => pose proof (filter_length f l) as Hf end. rewrite length_seq in Hf. lia.
  - unfold n. lia.
  - split; [done|]. eapply heap_weaken; [|exact Hheap']. intros c Hc _. simpl in Hc. right. apply elem_of_seq. lia.
  - split; [apply bm_wf_nil|done].
  - apply Forall2_same_length_lookup_2; [by apply length_seq|]. intros i j x [-> _]%lookup_seq Hx. exact Hx.
  - constructor.
  - simpl. lia.
  - simpl. lia.
  - done.
  - rewrite Hl1 in *. exists out, sel. by split_and!.
Qed.
End run.

(** ** What a prepared list is *)

Lemma must_be_finite_Ok what x : must_be_finite what x = Ok () ↔ is_finite x = true.
Proof. unfold must_be_finite. by destruct (is_finite x). Qed.

Lemma validated_bias weights :
  valid (H:=F32) (diversity_bias weights) → validate_selector_weights weights = Ok () → bias_ok (diversity_bias weights).
Proof.
  intros Hv H. unfold validate_selector_weights in H. inv_res H. destruct a0, a1.
  apply must_be_finite_Ok in Ha0.
  destruct (fle f0 (diversity_bias weights)) eqn:E0, (fle (diversity_bias weights) (of_Z 1)) eqn:E1; try done.
Qed.

Section claims.
Context {T : Type}.
Implicit Types x : SelectorInput T.

(** A double is a value of its format. *)
Definition representable x : Prop := ∀ r, rank_score x = Some r → valid r.

Lemma representable_reweigh weights x : representable x → representable (reweigh weights x).
Proof.
  intros Hx. unfold reweigh. destruct (category x); [|done]. destruct (bm_get _ _); [|done].
  intros r. simpl. destruct (rank_score x) as [r'|] eqn:Hr; [|done]. simpl. intros [= <-].
  apply fmul_valid; [by apply Hx|apply fcast_valid].
Qed.

Lemma base_valid x ew : representable x → valid (pragmatic_plus_epistemic x ew).
Proof.
  intros Hx. assert (valid (rank_base x)) as Hb.
  { unfold rank_base. destruct (rank_score x) as [r|] eqn:Hr; [by apply Hx|apply fcast_valid]. }
  unfold pragmatic_plus_epistemic. destruct (feq ew f0); [done|]. apply fadd_valid; [done|]. apply fmul_valid; apply fcast_valid.
Qed.

Lemma eligible_spec weights (inputs : list (SelectorInput T)) :
  length (eligible weights inputs) ≤ length inputs ∧
  (Forall representable inputs → Forall representable (eligible weights inputs)).
Proof.
  assert (∀ l : list (SelectorInput T), length (retained weights l) ≤ length l ∧ (Forall representable l → Forall representable (retained weights l))) as Hr.
  { intros l. split; [apply filter_length|]. rewrite !List.Forall_forall. intros Hl x [Hx _]%List.filter_In. by apply Hl. }
  unfold eligible. destruct (category_weights weights); [apply Hr|]. destruct (Hr inputs) as [H1 H2].
  destruct (Hr (reweigh weights <$> retained weights inputs)) as [H3 H4]. rewrite length_fmap in H3. split; [lia|].
  intros Hl. apply H4. rewrite Forall_fmap. eapply Forall_impl; [by apply H2|]. intros x. apply representable_reweigh.
Qed.

Lemma prepare_spec inputs weights l :
  prepare inputs weights = Ok l →
  validate_selector_weights weights = Ok () ∧ l ≡ₚ eligible weights inputs ∧
  Forall (λ x, is_finite (pragmatic_plus_epistemic x (epistemic_weight weights)) = true) l.
Proof.
  unfold prepare. intros H. inv_res H. destruct a, a0. injection H as <-. apply try_map_Forall2 in Ha1.
  assert (a1.*1 = eligible weights inputs ∧
    Forall (λ x, is_finite (pragmatic_plus_epistemic x (epistemic_weight weights)) = true) a1.*1) as [Hfst Hfin].
  { clear -Ha1. induction Ha1 as [|x p l ps Hp Hps IH]; [done|]. unfold rank in Hp. inv_res Hp. injection Hp as <-. destruct a.
    destruct IH as [IH1 IH2]. rewrite fmap_cons, IH1. rewrite IH1 in IH2. split; [done|].
    constructor; [by apply must_be_finite_Ok in Ha|done]. }
  split_and!; [done|by rewrite sort_by_Permutation, Hfst|].
  by rewrite sort_by_Permutation.
Qed.

Lemma take_all_ok (inputs : list (SelectorInput T)) out sel total selected :
  Forall2 (is_input inputs) out sel → NoDup out →
  take_all (Some <$> inputs) out total selected = Some (selected ++ sel, (total + sizes sel)%N).
Proof.
  intros Hrel. assert (∀ i x, i ∈ out → inputs !! i = Some x → (Some <$> inputs) !! i = Some (Some x)) as Hopts.
  { intros i x _ Hx. by rewrite list_lookup_fmap, Hx. }
  revert total selected Hopts. generalize (Some <$> inputs). induction Hrel as [|i x out sel Hi Hrel IH]; intros opts total selected Hopts Hnd.
  - simpl. by rewrite app_nil_r, N.add_0_r.
  - apply NoDup_cons in Hnd as [Hni Hnd]. simpl. rewrite (Hopts i x) by (done || (apply elem_of_cons; by left)). simpl.
    rewrite IH; [by rewrite <-app_assoc, N.add_assoc| |done]. intros j y Hj Hy. rewrite list_lookup_insert_ne by (by intros ->).
    apply Hopts; [apply elem_of_cons; by right|done].
Qed.

(** *** Filling the budget *)

(** [taken] and what is left make up [l]; nothing left fits beside it. *)
Definition fills (budget total : N) (l taken rest : list (SelectorInput T)) : Prop :=
  l ≡ₚ taken ++ rest ∧ (total + sizes taken ≤ budget)%N ∧ Forall (λ x, (budget - (total + sizes taken) < size x)%N) rest.

Lemma fills_cons budget total l l' x taken rest :
  l ≡ₚ x :: l' → fills budget (total + size x) l' taken rest → fills budget total l (x :: taken) rest.
Proof.
  intros Hl (Hp & Hle & Hr). unfold fills. simpl. rewrite N.add_assoc. split_and!; [by rewrite Hl, Hp|done|done].
Qed.

Lemma pack_loop_fills (l : list (SelectorInput T)) budget total selected :
  (total ≤ budget)%N →
  ∃ taken rest, pack_loop l budget total selected = (selected ++ taken, (total + sizes taken)%N) ∧ fills budget total l taken rest.
Proof.
  revert total selected. induction l as [|x l IH]; intros total selected Hle; simpl.
  - exists [], []. simpl. rewrite app_nil_r, N.add_0_r. split; [done|]. split_and!; [done|simpl; lia|constructor].
  - destruct (N.leb_spec (size x) (budget - total)) as [Hfit|Hover].
    + destruct (IH (total + size x)%N (selected ++ [x])) as (taken & rest & Heq & Hf); [lia|].
      exists (x :: taken), rest. rewrite Heq, <-app_assoc. simpl. rewrite N.add_assoc. split; [done|]. by eapply fills_cons.
    + destruct (IH total selected Hle) as (taken & rest & Heq & Hp & Hle' & Hr). exists taken, (x :: rest). split; [done|].
      split_and!; [rewrite Hp; apply Permutation_middle|done|]. constructor; [lia|done].
Qed.

Lemma candidates_fit weights counts budget total l k :
  candidates (T:=T) weights counts budget total l = Ok k →
  (∀ i x sc, (i, x, sc) ∈ k → (i, x) ∈ l ∧ (size x ≤ budget - total)%N) ∧
  (k = [] → ∀ i x, (i, x) ∈ l → (budget - total < size x)%N).
Proof.
  revert k. induction l as [|[i x] l IH]; intros k H; simpl in H.
  - injection H as <-. split; [by intros i x sc []%not_elem_of_nil|by intros _ i x []%not_elem_of_nil].
  - destruct (N.ltb_spec (budget - total) (size x)) as [Hover|Hfit].
    + destruct (IH k H) as [H1 H2]. split.
      * intros j y sc Hin. destruct (H1 j y sc Hin). split; [apply elem_of_cons; by right|done].
      * intros Hk j y [[= -> ->]|Hin]%elem_of_cons; [done|by apply (H2 Hk j)].
    + inv_res H. injection H as <-. destruct (IH a0 Ha0) as [H1 H2]. split; [|done].
      intros j y sc [[= -> -> ->]|Hin]%elem_of_cons; [split; [apply elem_of_cons; by left|done]|].
      destruct (H1 j y sc Hin). split; [apply elem_of_cons; by right|done].
Qed.

Lemma reference_loop_fills n weights budget l counts total selected sel' total' :
  (total ≤ budget)%N → reference_loop n weights budget l counts total selected = Some (Ok (sel', total')) →
  ∃ taken rest, sel' = selected ++ taken ∧ total' = (total + sizes taken)%N ∧ fills budget total l taken rest.
Proof.
  revert l counts total selected. induction n as [|n IH]; intros l counts total selected Hle H; [done|].
  assert (Forall (λ x, (budget - total < size x)%N) l →
    Some (Ok (E:=FoldError) (selected, total)) = Some (Ok (sel', total')) →
    ∃ taken rest, sel' = selected ++ taken ∧ total' = (total + sizes taken)%N ∧ fills budget total l taken rest) as Hend.
  { intros Hr [= <- <-]. exists [], l. unfold fills. simpl. rewrite app_nil_r, !N.add_0_r. by split_and!. }
  destruct l as [|x0 l0] eqn:Hl; [by apply Hend|]. rewrite <-Hl in *. cbn [reference_loop] in H. rewrite Hl in H at 1.
  destruct (candidates _ _ _ _ _) as [k|e] eqn:Hk; [|done]. destruct (candidates_fit _ _ _ _ _ _ Hk) as [Hin Hnone].
  destruct (max_by candidate_cmp k) as [[[idx x] sc]|] eqn:Hm.
  - assert ((idx, x, sc) ∈ k) as Hmk.
    { apply (max_by_last _ (Comparator0:=candidate_Comparator)) in Hm as (l1 & l2 & -> & _). apply elem_of_app. right. apply elem_of_cons. by left. }
    destruct (Hin _ _ _ Hmk) as [Hx Hsz]. apply enumerate_elem_of in Hx.
    destruct (swap_remove_spec idx l x Hx) as (l' & Hsw & Hp & _). rewrite Hsw in H. cbn [mbind option_bind] in H.
    apply IH in H as (taken & rest & -> & -> & Hf); [|lia]. exists (x :: taken), rest. rewrite <-app_assoc. simpl.
    split_and!; [done|lia|]. by eapply fills_cons.
  - apply Hend; [|done]. apply Forall_forall. intros x [i Hx]%list_elem_of_lookup. apply (Hnone ltac:(by destruct k) i).
    by apply enumerate_elem_of.
Qed.

(** *** The claims *)

Section greedy.
Variable inputs : list (SelectorInput T).
Variable budget : N.
Variable weights : SelectorWeights.
(** Floats are values of their formats, and a vector is no longer than [usize]. *)
Hypothesis inputs_valid : Forall representable inputs.
Hypothesis bias_valid : valid (H:=F32) (diversity_bias weights).
Hypothesis inputs_bound : (Z.of_nat (length inputs) ≤ USIZE_MAX)%Z.

Lemma prepared_diversity l :
  prepare inputs weights = Ok l → feq (diversity_bias weights) f0 = false →
  ∃ sel, (indices ← diversity_select l budget weights; take_all (Some <$> l) indices 0 []) = Some (sel, sizes sel) ∧
    reference_loop (S (length l)) weights budget l [] 0 [] = Some (Ok (sel, sizes sel)).
Proof using inputs_valid bias_valid inputs_bound.
  intros (Hw & Hperm & Hfin)%prepare_spec Hbias. destruct (eligible_spec weights inputs) as [Hlen Hrep].
  assert (Forall representable l) as Hl by (rewrite Hperm; by apply Hrep).
  destruct (diversity_ok l weights) with (budget := budget) as (out & sel & Ho & Hr & Hrel & Hnd).
  - intros i x Hx%list_elem_of_lookup_2. rewrite Forall_forall in Hl, Hfin. split; [by apply base_valid, Hl|by apply Hfin].
  - rewrite Hperm. lia.
  - by apply validated_bias.
  - done.
  - exists sel. rewrite Ho. cbn [mbind option_bind]. rewrite (take_all_ok _ _ _ _ _ Hrel Hnd). by split.
Qed.

Lemma greedy_reference :
  greedy_select inputs budget weights = reference_select inputs budget weights ∧
  is_Some (greedy_select inputs budget weights).
Proof using inputs_valid bias_valid inputs_bound.
  unfold greedy_select, reference_select. destruct (prepare inputs weights) as [l|e] eqn:Hp; [|by split].
  destruct (feq (diversity_bias weights) f0) eqn:Hb; [destruct (pack_loop _ _ _ _); by split|].
  destruct (prepared_diversity l Hp Hb) as (sel & Hd & Hr). rewrite Hd, Hr. by split.
Qed.

(** C5: The selector with its index of segment trees and its heap of category winners
    answers, without an index out of range or an [expect] that fails, and answers
    exactly what the reference does that scans all the remaining candidates for each
    choice: the same candidates in the same order, ties and quantised scores
    included, or the same error. *)
Theorem greedy_select_reference :
  greedy_select inputs budget weights = reference_select inputs budget weights ∧
  ∃ r, greedy_select inputs budget weights = Some r.
Proof using inputs_valid bias_valid inputs_bound. apply greedy_reference. Qed.

(** C28: What the selector returns, with or without a diversity bias, fills the budget
    with eligible candidates: none is chosen twice, the total is the sum of their
    sizes and within the budget, and no eligible candidate left out fits beside them. *)
Theorem greedy_select_fills out :
  greedy_select inputs budget weights = Some (Ok out) →
  out_budget out = budget ∧ total_size out = sizes (out_selected out) ∧
  ∃ rest, fills budget 0 (eligible weights inputs) (out_selected out) rest.
Proof using inputs_valid bias_valid inputs_bound.
  rewrite (proj1 greedy_reference). unfold reference_select.
  destruct (prepare inputs weights) as [l|e] eqn:Hp; [|done]. apply prepare_spec in Hp as (_ & Hp & _).
  assert (∀ taken rest, fills budget 0 l taken rest → fills budget 0 (eligible weights inputs) taken rest) as Hl.
  { intros taken rest (H1 & H2 & H3). split_and!; [by rewrite <-Hp|done|done]. }
  destruct (feq (diversity_bias weights) f0).
  - destruct (pack_loop_fills l budget 0 []) as (taken & rest & Heq & Hf); [lia|]. rewrite Heq. cbn. intros [= <-].
    split_and!; [done|done|]. exists rest. by apply Hl.
  - destruct (reference_loop _ _ _ _ _ _ _) as [[[sel total]|e]|] eqn:Hr; [|done..]. cbn. intros [= <-].
    apply reference_loop_fills in Hr as (taken & rest & -> & -> & Hf); [|lia]. split_and!; [done|done|]. exists rest. by apply Hl.
Qed.
End greedy.
End claims.

(** ** A small selection *)

Module SelectorSample.
Definition single (n d : Z) : f32 := fdiv (F:=F32) (of_Z (F:=F32) n) (of_Z (F:=F32) d).
Definition sample_candidate (id : string) (cat : option string) (sz : N) (n d : Z) : SelectorInput nat :=
  {| input_id := id; content := 0; size := sz; input_score := single n d; category := cat;
     information_gain := Some (single 1 4); rank_score := None |}.
Definition sample_inputs : list (SelectorInput nat) :=
  [sample_candidate "a" (Some "x") 3 9 10; sample_candidate "b" (Some "x") 2 8 10; sample_candidate "a" None 3 5 10; sample_candidate "c" (Some "y") 1 7 10;
   sample_candidate "a" (Some "x") 2 8 10; sample_candidate "b" (Some "x") 2 8 10; sample_candidate "e" (Some "y") 4 8 10; sample_candidate "f" (Some "z") 20 9 10]%string.
Definition sample_weights : SelectorWeights :=
  {| category_weights := [("x", single 9 10)]%string; min_score := single 1 2; diversity_bias := single 1 2; epistemic_weight := single 1 8 |}.

Lemma sample_representable : Forall representable sample_inputs.
Proof. repeat constructor; intros r [=]. Qed.

(** Categories alternate while they are penalised; what is too large is passed over. *)
Example sample_selected :
  match greedy_select sample_inputs 10 sample_weights with
  | Some (Ok out) => ((λ x, (input_id x, category x)) <$> out_selected out, total_size out) =
      ([("a", Some "x"); ("e", Some "y"); ("a", Some "x"); ("c", Some "y")]%string, 10%N)
  | _ => False
  end.
Proof. vm_compute. reflexivity. Qed.

Lemma greedy_select_reference_witness :
  greedy_select sample_inputs 10 sample_weights = reference_select sample_inputs 10 sample_weights ∧
  ∃ r, greedy_select sample_inputs 10 sample_weights = Some r.
Proof.
  apply (greedy_select_reference sample_inputs 10 sample_weights); [exact sample_representable|vm_compute; reflexivity|vm_compute; done].
Defined.

Lemma greedy_select_fills_witness :
  ∃ out, greedy_select sample_inputs 10 sample_weights = Some (Ok out) ∧ total_size out = 10%N ∧
    ∃ rest, fills 10 0 (eligible sample_weights sample_inputs) (out_selected out) rest.
Proof.
  destruct (greedy_select sample_inputs 10 sample_weights) as [[out|e]|] eqn:Ho; [|exfalso; vm_compute in Ho; discriminate..].
  destruct (greedy_select_fills sample_inputs 10 sample_weights sample_representable ltac:(vm_compute; reflexivity)
    ltac:(vm_compute; done) out Ho) as (_ & _ & Hf).
  exists out. split; [reflexivity|]. split; [|exact Hf]. vm_compute in Ho. injection Ho as <-. reflexivity.
Defined.
End SelectorSample.
