(* ===== verification/Objective.v ===== *)
(** khive-fold/src/objective/ (context.rs, error.rs, selection.rs, traits.rs,
    builtin.rs, compose.rs), ordering/scored_entry.rs and pipeline.rs: objectives that
    score candidates, the selection of the best of them, and the pipeline that scores
    candidates for a selector.

    An objective is the record of the methods of the trait that its implementations
    override; [None] is an [expect] or [assert] that fails. A time of chrono's, the
    seconds between two of them, [ln] and the reading of a JSON number as a float are
    parameters. *)

From Stdlib Require Import ZArith String SpecFloat Lia.
From stdpp Require Import base tactics list numbers strings sorting.
From S2P Require Import Prelude Json Float Score UnitScore Fold Selector SelectorRun.

#[local] Open Scope nat_scope.

(** ** Contexts, errors and selections *)

Record ObjectiveContext (DateTime : Type) := {
  ctx_as_of : DateTime;
  max_candidates : option nat;
  ctx_min_score : option f64;
  ctx_extra : Value
}.
Arguments Build_ObjectiveContext {DateTime}.
Arguments ctx_as_of {DateTime} _.
Arguments max_candidates {DateTime} _.
Arguments ctx_min_score {DateTime} _.
Arguments ctx_extra {DateTime} _.

Inductive ObjectiveError : Type :=
| NoCandidates
| NoMatch (criteria : string)
| InvalidConfig (message : string)
| NotFound (objective : string)
| Scoring (message : string)
| Folding (error : FoldError).

Record Selection (T : Type) := {
  sel_item : T;
  sel_score : f64;
  sel_precision : f64;
  sel_index : nat;
  sel_considered : nat;
  sel_passed : nat;
  sel_reason : option string
}.
Arguments Build_Selection {T}.
Arguments sel_item {T} _.
Arguments sel_score {T} _.
Arguments sel_precision {T} _.
Arguments sel_index {T} _.
Arguments sel_considered {T} _.
Arguments sel_passed {T} _.
Arguments sel_reason {T} _.

Definition Selection_new {T} (item : T) (score : f64) (index : nat) : Selection T :=
  {| sel_item := item; sel_score := score; sel_precision := f1; sel_index := index; sel_considered := 1; sel_passed := 1;
     sel_reason := None |}.
Definition with_precision {T} (self : Selection T) (p : f64) : Selection T :=
  {| sel_item := sel_item self; sel_score := sel_score self; sel_precision := p; sel_index := sel_index self;
     sel_considered := sel_considered self; sel_passed := sel_passed self; sel_reason := sel_reason self |}.
(** [.with_considered(n).with_passed(m)] *)
Definition with_counts {T} (n m : nat) (self : Selection T) : Selection T :=
  {| sel_item := sel_item self; sel_score := sel_score self; sel_precision := sel_precision self; sel_index := sel_index self;
     sel_considered := n; sel_passed := m; sel_reason := sel_reason self |}.

(** ** The best of a sequence of entries *)

Section top.
Context {E : Type} (ecmp : E → E → comparison).

(** [a <= b] *)
Definition entry_le (a b : E) : bool := match ecmp a b with Gt => false | _ => true end.

(** [Vec::insert] *)
Definition insert_at (i : nat) (x : E) (l : list E) : list E := take i l ++ x :: drop i l.

(** One entry for the sorted vector of at most [n] (the loop for a small [n]). *)
Definition keep_sorted (n : nat) (entry : E) (top : list E) : option (list E) :=
  skip ← (if length top =? n then worst ← last top; Some (entry_le entry worst) else Some false);
  if (skip : bool) then Some top
  else
    let pos := partition_point (λ existing, entry_le entry existing) top in
    if pos <? n then
      let top := insert_at pos entry top in
      Some (if n <? length top then take (length top - 1) top else top)
    else Some top.

(** [BinaryHeap::peek_mut] of the heap of reversed entries: a least entry, and the others. *)
Fixpoint peek_worst (heap : list E) : option (E * list E) :=
  match heap with
  | [] => None
  | e :: rest =>
      match peek_worst rest with
      | None => Some (e, [])
      | Some (w, others) => if entry_le e w then Some (e, rest) else Some (w, e :: others)
      end
  end.

(** One entry for the heap of at most [n] (the loop for a large [n]). *)
Definition keep_heap (n : nat) (entry : E) (heap : list E) : list E :=
  if length heap <? n then entry :: heap
  else match peek_worst heap with
       | Some (worst, others) => if entry_le entry worst then heap else entry :: others
       | None => heap
       end.

Definition SMALL_TOP_N : nat := 96.
End top.

(** ** traits.rs *)

Record Objective (T DateTime : Type) := {
  obj_score : T → ObjectiveContext DateTime → f64;
  obj_precision : T → ObjectiveContext DateTime → f64;
  obj_passes_score : f64 → ObjectiveContext DateTime → bool
}.
Arguments Build_Objective {T DateTime}.
Arguments obj_score {T DateTime} _.
Arguments obj_precision {T DateTime} _.
Arguments obj_passes_score {T DateTime} _.

Record RankedIndex := { ri_score : f64; ri_det : DeterministicScore; ri_index : nat }.
Definition RankedIndex_new (score : f64) (index : nat) : RankedIndex :=
  {| ri_score := score; ri_det := from_f64 score; ri_index := index |}.
Definition RankedIndex_cmp (a b : RankedIndex) : comparison :=
  then_cmp (cmp (ri_det a) (ri_det b)) (cmp (ri_index b) (ri_index a)).

(** [HasId] *)
Class HasId (T : Type) := has_id : T → N.

Record ScoredEntry (T : Type) := {
  se_candidate : T;
  se_score : f64;
  se_id : N;
  se_index : nat;
  se_det : DeterministicScore
}.
Arguments Build_ScoredEntry {T}.
Arguments se_candidate {T} _.
Arguments se_score {T} _.
Arguments se_id {T} _.
Arguments se_index {T} _.
Arguments se_det {T} _.
Definition ScoredEntry_new {T} `{HasId T} (candidate : T) (score : f64) (index : nat) : ScoredEntry T :=
  {| se_candidate := candidate; se_score := score; se_id := has_id candidate; se_index := index; se_det := from_f64 score |}.
Definition ScoredEntry_cmp {T} (a b : ScoredEntry T) : comparison :=
  then_cmp (cmp (se_det a) (se_det b)) (cmp (se_id b) (se_id a)).

Section traits.
Context {T DateTime : Type}.
Abbreviation Context' := (ObjectiveContext DateTime).
Implicit Types (self : Objective T DateTime) (candidates : list T) (context : Context').

Definition considered_limit (len : nat) context : nat := Nat.min (default len (max_candidates context)) len.

(** The methods the trait defines. *)
Definition default_precision (candidate : T) context : f64 := f1.
Definition default_passes_score (score : f64) context : bool :=
  is_finite score && match ctx_min_score context with Some min => fle min score | None => true end.

Definition passes self (candidate : T) context : bool := obj_passes_score self (obj_score self candidate context) context.

Definition batch_score self candidates context : list (nat * f64) :=
  List.filter (λ '(_, score), obj_passes_score self score context)
    ((λ '(index, candidate), (index, obj_score self candidate context)) <$> enumerate candidates).

(** [score * if precision.is_finite() { precision } else { 1.0 }] *)
Definition effective_of (score precision : f64) : f64 :=
  fmul (F:=F64) score (if is_finite precision then precision else f1).

(** The loop over the candidates, with what an entry that passes does to the accumulator. *)
Fixpoint top_loop {E A} self context (entry : T → f64 → nat → E) (keep : E → A → option A) (l : list (nat * T))
    (considered passed : nat) (acc : A) : option (A * nat * nat) :=
  match l with
  | [] => Some (acc, considered, passed)
  | (index, candidate) :: l =>
      let considered := S considered in
      let score := obj_score self candidate context in
      if negb (obj_passes_score self score context) then top_loop self context entry keep l considered passed acc
      else
        let passed := S passed in
        let effective := effective_of score (obj_precision self candidate context) in
        acc ← keep (entry candidate effective index) acc;
        top_loop self context entry keep l considered passed acc
  end.

(** The two ways of keeping the best [n] entries, in descending order. *)
Definition top_entries {E} (ecmp : E → E → comparison) (entry : T → f64 → nat → E) self (n : nat) (l : list (nat * T)) context
    : option (list E * nat * nat) :=
  if n <=? SMALL_TOP_N then top_loop self context entry (keep_sorted ecmp n) l 0 0 []
  else
    '(heap, considered, passed) ← top_loop self context entry (λ e heap, Some (keep_heap ecmp n e heap)) l 0 0 [];
    Some (sort_by (λ a b, ecmp b a) heap, considered, passed).

Definition select_top self candidates (n : nat) context : option (list (Selection T)) :=
  if decide (n = 0 ∨ candidates = []) then Some []
  else
    '(top, considered, passed) ←
      top_entries RankedIndex_cmp (λ _, RankedIndex_new) self n
        (take (considered_limit (length candidates) context) (enumerate candidates)) context;
    mapM (λ e, candidate ← candidates !! ri_index e;
               Some (with_counts considered passed (Selection_new candidate (ri_score e) (ri_index e)))) top.

Definition select self candidates context : option (list (Selection T)) :=
  match candidates with
  | [] => Some []
  | _ => select_top self candidates (considered_limit (length candidates) context) context
  end.

(** ** [DeterministicObjective] *)

Context `{HasId T}.

Record Best := { best_index : nat; best_score : f64; best_precision : f64; best_det : DeterministicScore; best_id : N }.

Definition best_keep self context (index : nat) (candidate : T) (best : option Best) : option Best :=
  let score := obj_score self candidate context in
  let precision := obj_precision self candidate context in
  let det := from_f64 (effective_of score precision) in
  let this := {| best_index := index; best_score := score; best_precision := precision; best_det := det; best_id := has_id candidate |} in
  match best with
  | None => Some this
  | Some b =>
      if ((best_det b <? det)%Z || ((det =? best_det b)%Z && (has_id candidate <? best_id b)%N)) then Some this else best
  end.

Fixpoint best_loop self context (l : list (nat * T)) (considered passed : nat) (best : option Best) : nat * nat * option Best :=
  match l with
  | [] => (considered, passed, best)
  | (index, candidate) :: l =>
      if negb (obj_passes_score self (obj_score self candidate context) context)
      then best_loop self context l (S considered) passed best
      else best_loop self context l (S considered) (S passed) (best_keep self context index candidate best)
  end.

Definition select_deterministic self candidates context : option (result (Selection T) ObjectiveError) :=
  match candidates with
  | [] => Some (Err NoCandidates)
  | _ =>
      let '(considered, passed, best) :=
        best_loop self context (take (considered_limit (length candidates) context) (enumerate candidates)) 0 0 None in
      match best with
      | Some b =>
          candidate ← candidates !! best_index b;
          Some (Ok (with_counts considered passed
                      (with_precision (Selection_new candidate (best_score b) (best_index b)) (best_precision b))))
      | None => Some (Err (NoMatch "No candidate passed"))
      end
  end.

Definition select_top_deterministic self candidates (n : nat) context : option (list (Selection T)) :=
  if decide (n = 0 ∨ candidates = []) then Some []
  else if n =? 1 then
    match select_deterministic self candidates context with
    | Some (Ok s) => Some [s]
    | Some (Err _) => Some []
    | None => None
    end
  else
    '(top, considered, passed) ←
      top_entries (E:=ScoredEntry T) ScoredEntry_cmp ScoredEntry_new self n
        (take (considered_limit (length candidates) context) (enumerate candidates)) context;
    Some (map (λ e, with_counts considered passed (Selection_new (se_candidate e) (se_score e) (se_index e))) top).
End traits.

(** ** builtin.rs *)

Definition objective_fn {T DateTime} (f : T → ObjectiveContext DateTime → f64) : Objective T DateTime :=
  {| obj_score := f; obj_precision := default_precision; obj_passes_score := default_passes_score |}.

Definition MaxScoreObjective {T DateTime} (scorer : T → f64) : Objective T DateTime := objective_fn (λ c _, scorer c).

Definition ThresholdObjective {T DateTime} (scorer : T → f64) (threshold : f64) : Objective T DateTime :=
  {| obj_score c _ := scorer c; obj_precision := default_precision;
     obj_passes_score score context :=
       is_finite score && (fle threshold score && match ctx_min_score context with Some min => fle min score | None => true end) |}.

Definition FirstMatchObjective {T DateTime} (predicate : T → bool) : Objective T DateTime :=
  objective_fn (λ c _, if predicate c then f1 else f0).

Section first_match.
Context {T DateTime : Type} (predicate : T → bool).

(** [FirstMatchObjective::select] *)
Fixpoint first_match_loop (l : list (nat * T)) (context : ObjectiveContext DateTime) : list (Selection T) :=
  match l with
  | [] => []
  | (i, candidate) :: l =>
      if predicate candidate then
        if negb (default_passes_score f1 context) then []
        else [with_counts (i + 1) 1 (Selection_new candidate f1 i)]
      else first_match_loop l context
  end.
Definition first_match_select (candidates : list T) (context : ObjectiveContext DateTime) : list (Selection T) :=
  first_match_loop (take (considered_limit (length candidates) context) (enumerate candidates)) context.
End first_match.

Class HasTimestamp (T DateTime : Type) := timestamp : T → DateTime.
Class HasSalience (T : Type) := salience : T → f64.

Section builtin.
Context {DateTime : Type} (num_seconds : DateTime → DateTime → Z).
(** [Value::as_f64] *)
Variable as_f64 : Value → option f64.
Context `{Libm} {T : Type}.

Definition MIN_HALF_LIFE : f64 := f1.

(** [assert!] fails on [None]. *)
Definition RecencyObjective_new (half_life_seconds : f64) : option Decay :=
  if is_finite half_life_seconds && flt f0 half_life_seconds then
    match HalfLife_try_new (fmax half_life_seconds MIN_HALF_LIFE) with
    | Ok half_life => Some (Exponential (HalfLifeOf half_life))
    | Err _ => None
    end
  else None.

Definition recency_score `{HasTimestamp T DateTime} (decay : Decay) (candidate : T) (context : ObjectiveContext DateTime)
    : option f64 :=
  let age_seconds := of_Z (F:=F64) (Z.max (num_seconds (ctx_as_of context) (timestamp candidate)) 0) in
  match Decay_factor decay age_seconds with Ok f => Some f | Err _ => None end.

Definition SalienceObjective `{HasSalience T} (min_salience : f64) : Objective T DateTime :=
  objective_fn (λ c _, if fle min_salience (salience c) then salience c else f0).

Record RelevanceObjective := { recency_weight : f64; salience_weight : f64; recency : Decay }.

Definition RelevanceObjective_new (recency_half_life recency_weight salience_weight : f64) : option RelevanceObjective :=
  if is_finite recency_weight && fle f0 recency_weight && (is_finite salience_weight && fle f0 salience_weight) then
    decay ← RecencyObjective_new recency_half_life;
    Some {| recency_weight := recency_weight; salience_weight := salience_weight; recency := decay |}
  else None.

Definition relevance_score `{HasTimestamp T DateTime} `{HasSalience T} (self : RelevanceObjective) (candidate : T)
    (context : ObjectiveContext DateTime) : option f64 :=
  match value_get "relevance_score" (ctx_extra context) ≫= as_f64 with
  | Some v => Some v
  | None =>
      recency_score ← recency_score (recency self) candidate context;
      let salience_score := salience candidate in
      let total_weight := fadd (F:=F64) (recency_weight self) (salience_weight self) in
      Some (if flt f0 total_weight
            then fdiv (F:=F64) (fadd (F:=F64) (fmul (F:=F64) (recency_weight self) recency_score)
                                              (fmul (F:=F64) (salience_weight self) salience_score)) total_weight
            else f0)
  end.
End builtin.

(** ** compose.rs *)

Section compose.
Context {T DateTime : Type} (ln : f64 → f64) `{Libm}.
Implicit Types (candidate : T) (context : ObjectiveContext DateTime).

Fixpoint weighted_loop (objectives : list (Objective T DateTime * f64)) candidate context (sum weights : f64) : f64 * f64 :=
  match objectives with
  | [] => (sum, weights)
  | (objective, w) :: objectives =>
      if negb (is_finite w) || fle w f0 then weighted_loop objectives candidate context sum weights
      else
        let score := obj_score objective candidate context in
        if negb (is_finite score) then weighted_loop objectives candidate context sum weights
        else weighted_loop objectives candidate context (fadd (F:=F64) sum (fmul (F:=F64) score w)) (fadd (F:=F64) weights w)
  end.

Definition WeightedObjective (objectives : list (Objective T DateTime * f64)) : Objective T DateTime :=
  objective_fn (λ c context,
    let '(sum, weights) := weighted_loop objectives c context f0 f0 in
    if flt f0 weights then fdiv (F:=F64) sum weights else f0).

Fixpoint priority_loop (objectives : list (Objective T DateTime * f64)) (fallback : f64) candidate context : f64 :=
  match objectives with
  | [] => fallback
  | (objective, threshold) :: objectives =>
      let score := obj_score objective candidate context in
      if is_finite score && fle threshold score then score else priority_loop objectives fallback candidate context
  end.

Definition PriorityObjective (objectives : list (Objective T DateTime * f64)) (fallback : f64) : Objective T DateTime :=
  objective_fn (priority_loop objectives fallback).

(** [None] where the loop returns 0 early. *)
Fixpoint consensus_loop (objectives : list (Objective T DateTime)) (threshold : f64) candidate context (log_sum : f64) : option f64 :=
  match objectives with
  | [] => Some log_sum
  | objective :: objectives =>
      let score := obj_score objective candidate context in
      if negb (is_finite score) || flt score threshold then None
      else if fle score f0 then None
      else consensus_loop objectives threshold candidate context (fadd (F:=F64) log_sum (ln score))
  end.

Definition ConsensusObjective (objectives : list (Objective T DateTime)) (threshold : f64) : Objective T DateTime :=
  objective_fn (λ c context,
    match objectives with
    | [] => f0
    | _ =>
        match consensus_loop objectives threshold c context f0 with
        | None => f0
        | Some log_sum => exp (fdiv (F:=F64) log_sum (of_Z (F:=F64) (Z.of_nat (length objectives))))
        end
    end).

Definition UnionObjective (objectives : list (Objective T DateTime)) : Objective T DateTime :=
  objective_fn (λ c context,
    foldl fmax f0 (List.filter is_finite ((λ obj, obj_score obj c context) <$> objectives))).

Definition NegateObjective (inner : Objective T DateTime) : Objective T DateTime :=
  objective_fn (λ c context, fsub (F:=F64) f1 (obj_score inner c context)).

Definition ScaleObjective (inner : Objective T DateTime) (factor : f64) : Objective T DateTime :=
  objective_fn (λ c context, fmul (F:=F64) (obj_score inner c context) factor).
End compose.

(** ** pipeline.rs *)

(** [f32::MAX as f64] *)
Definition F32_MAX : f64 := fcast (F:=F64) (S754_finite false 16777215 104).

(** [Selector<T>] *)
Class SelectorOps (T : Type) :=
  selector_select : list (SelectorInput T) → N → SelectorWeights → option (result (SelectorOutput T) FoldError).
#[export] Instance GreedySelector {T} : SelectorOps T := greedy_select.

Section pipeline.
Context {T DateTime : Type}.

Definition scored_as (candidate : SelectorInput T) (effective : f64) : SelectorInput T :=
  {| input_id := input_id candidate; content := content candidate; size := size candidate;
     input_score := fcast (F:=F32) effective; category := category candidate;
     information_gain := information_gain candidate; rank_score := Some effective |}.

Fixpoint score_candidates (objective : Objective T DateTime) (context : ObjectiveContext DateTime)
    (candidates : list (SelectorInput T)) : result (list (SelectorInput T)) FoldError :=
  match candidates with
  | [] => Ok []
  | candidate :: candidates =>
      let score := obj_score objective (content candidate) context in
      if negb (obj_passes_score objective score context) then score_candidates objective context candidates
      else
        let effective := effective_of score (obj_precision objective (content candidate) context) in
        if negb (is_finite effective) || flt effective (fneg F32_MAX) || flt F32_MAX effective
        then Err (InvalidInput ("objective effective score for '" +:+ input_id candidate +:+ "' is outside finite f32 range"))
        else let? scored := score_candidates objective context candidates in Ok (scored_as candidate effective :: scored)
  end.

Definition ComposePipeline_execute `{SelectorOps T} (objective : Objective T DateTime) (candidates : list (SelectorInput T))
    (budget : N) (weights : SelectorWeights) (context : ObjectiveContext DateTime)
    : option (result (SelectorOutput T) FoldError) :=
  let considered := considered_limit (length candidates) context in
  match score_candidates objective context (take considered candidates) with
  | Err e => Some (Err e)
  | Ok scored => selector_select scored budget weights
  end.
End pipeline.

(** The selections of objective/traits.rs: the sorted vector and the heap keep the same
    best entries, those at the front of the sorted list of all that pass. *)

#[local] Open Scope nat_scope.

(** ** Keeping the best entries *)

Lemma partition_point_take {A} (f : A → bool) n l :
  partition_point f (take n l) = Nat.min n (partition_point f l).
Proof.
  revert l. induction n as [|n IH]; intros [|x l]; simpl; [done..|]. rewrite IH. by destruct (f x).
Qed.

Lemma partition_point_le {A} (f : A → bool) l : partition_point f l ≤ length l.
Proof. induction l as [|x l IH]; simpl; [done|]. destruct (f x); lia. Qed.

Section keeping.
Context {E : Type} (ecmp : E → E → comparison) `{!Comparator ecmp}.
Abbreviation desc := (λ a b : E, ecmp b a).
Abbreviation point e l := (partition_point (λ existing, entry_le ecmp e existing) l).

#[local] Instance desc_Comparator : Comparator desc := reverse_Comparator ecmp.

(** Entries that compare equal are one entry. *)
Definition no_ties (l : list E) : Prop := ∀ a b, a ∈ l → b ∈ l → ecmp a b = Eq → a = b.

Definition best_of_all (n : nat) (l : list E) : list E := take n (sort_by desc l).

Lemma entry_le_iff a b : entry_le ecmp a b = true ↔ le_by ecmp a b.
Proof. unfold entry_le, le_by. by destruct (ecmp a b). Qed.

Lemma entry_le_false a b : entry_le ecmp a b = false → le_by ecmp b a ∧ ecmp a b = Gt.
Proof.
  unfold entry_le, le_by. rewrite (comparator_flip ecmp a b). by destruct (ecmp a b).
Qed.

Lemma comparator_refl a : le_by ecmp a a.
Proof. unfold le_by. pose proof (comparator_flip ecmp a a) as H. by destruct (ecmp a a). Qed.

Lemma insert_at_cons e y l :
  insert_at (point e (y :: l)) e (y :: l) =
  if entry_le ecmp e y then y :: insert_at (point e l) e l else e :: y :: l.
Proof. simpl. by destruct (entry_le ecmp e y). Qed.

Lemma insert_at_Permutation e i (l : list E) : insert_at i e l ≡ₚ e :: l.
Proof. unfold insert_at. rewrite <-Permutation_middle. by rewrite take_drop. Qed.

Lemma insert_at_sorted e l :
  StronglySorted (le_by desc) l → StronglySorted (le_by desc) (insert_at (point e l) e l).
Proof.
  induction 1 as [|y l Hl IH Hy]; [repeat constructor|]. rewrite insert_at_cons.
  destruct (entry_le ecmp e y) eqn:He.
  - constructor; [done|]. rewrite Forall_forall in Hy |- *. intros z. rewrite insert_at_Permutation, elem_of_cons.
    intros [->|Hz]; [by apply entry_le_iff|by apply Hy].
  - apply entry_le_false in He as [He _]. constructor; [by constructor|]. constructor; [done|].
    eapply Forall_impl; [exact Hy|]. intros z Hz. by apply (comparator_trans desc) with y.
Qed.

Lemma sort_unique l k :
  no_ties l → l ≡ₚ k → StronglySorted (le_by desc) k → sort_by desc l = k.
Proof.
  intros Hn Hp Hk. apply (StronglySorted_unique_strong (le_by desc)); [|apply (sort_by_sorted desc)|done|].
  - intros a b Ha Hb Hab Hba. rewrite elem_of_sort_by in Ha. rewrite <-Hp in Hb. apply Hn; [done..|].
    unfold le_by in *. rewrite (comparator_flip ecmp a b) in Hab. by destruct (ecmp a b).
  - by rewrite sort_by_Permutation.
Qed.

Lemma sort_snoc l e :
  no_ties (l ++ [e]) → sort_by desc (l ++ [e]) = insert_at (point e (sort_by desc l)) e (sort_by desc l).
Proof.
  intros Hn. apply sort_unique; [done| |apply insert_at_sorted, (sort_by_sorted desc)].
  by rewrite insert_at_Permutation, sort_by_Permutation, Permutation_app_comm.
Qed.

Lemma no_ties_app l k : no_ties (l ++ k) → no_ties l.
Proof. intros H a b Ha Hb. apply H; apply elem_of_app; by left. Qed.

(** What one entry does to the best [n] of the sorted list [s]. *)
Lemma take_insert_at n e p (s : list E) :
  p ≤ length s → take n (insert_at p e s) =
  if p <? n then take p s ++ e :: take (n - p - 1) (drop p s) else take n s.
Proof.
  intros Hp. unfold insert_at. destruct (Nat.ltb_spec p n) as [Hlt|Hge].
  - rewrite take_app, length_take, Nat.min_l by done. rewrite take_take, Nat.min_r by lia. f_equal.
    destruct (n - p) as [|m] eqn:Hm; [lia|]. simpl. by rewrite Nat.sub_0_r.
  - rewrite take_app_le by (rewrite length_take; lia). rewrite take_take. by rewrite Nat.min_l.
Qed.

Lemma point_sorted e s : StronglySorted (le_by desc) s →
  ∀ i x, s !! i = Some x → entry_le ecmp e x = true ↔ i < point e s.
Proof.
  induction 1 as [|y l Hl IH Hy]; intros i x Hx; [done|]. simpl. destruct (entry_le ecmp e y) eqn:He.
  - destruct i as [|i]; simpl in Hx; [injection Hx as ->; split; [lia|done]|]. rewrite (IH i x Hx). lia.
  - split; [|lia]. intros Hle. exfalso. apply entry_le_false in He as [_ He]. apply entry_le_iff in Hle.
    assert (le_by ecmp x y) as Hxy.
    { destruct i as [|i]; simpl in Hx; [injection Hx as <-; apply comparator_refl|].
      rewrite Forall_forall in Hy. apply (Hy x). by eapply list_elem_of_lookup_2. }
    assert (le_by ecmp e y) as Hey by by apply (comparator_trans ecmp) with x. unfold le_by in Hey. by rewrite He in Hey.
Qed.

Lemma point_le e s : point e s ≤ length s.
Proof. apply partition_point_le. Qed.

Lemma point_take n e s : point e (take n s) = Nat.min n (point e s).
Proof. apply partition_point_take. Qed.

Lemma best_snoc n l e :
  no_ties (l ++ [e]) →
  best_of_all n (l ++ [e]) =
    let s := sort_by desc l in
    if point e s <? n then take (point e s) s ++ e :: take (n - point e s - 1) (drop (point e s) s) else take n s.
Proof. intros Hn. unfold best_of_all. rewrite sort_snoc by done. apply take_insert_at, point_le. Qed.

Lemma keep_sorted_ok n l e :
  0 < n → no_ties (l ++ [e]) → keep_sorted ecmp n e (best_of_all n l) = Some (best_of_all n (l ++ [e])).
Proof.
  intros Hpos Hn. rewrite best_snoc by done. cbv zeta. unfold best_of_all, keep_sorted.
  pose proof (sort_by_sorted desc l) as Hs. set (s := sort_by desc l) in *.
  pose proof (point_le e s) as Hp. rewrite point_take.
  destruct (Nat.eqb_spec (length (take n s)) n) as [Hl|Hl]; rewrite length_take in Hl.
  - destruct (lookup_lt_is_Some_2 s (n - 1)) as [worst Hw]; [lia|].
    assert (last (take n s) = Some worst) as ->.
    { rewrite last_lookup, length_take, Nat.min_l by lia. rewrite lookup_take_lt by lia. by rewrite <-Nat.sub_1_r. }
    pose proof (point_sorted e s Hs _ _ Hw) as Hle. cbn [mbind option_bind].
    destruct (entry_le ecmp e worst).
    + destruct Hle as [Hle _]. specialize (Hle eq_refl). by rewrite (proj2 (Nat.ltb_ge _ _)) by lia.
    + assert (point e s < n) as Hlt. { apply Nat.nle_gt. intros Hge'. destruct Hle as [_ Hle]. by specialize (Hle ltac:(lia)). }
      rewrite Nat.min_r by lia. rewrite (proj2 (Nat.ltb_lt _ _) Hlt).
      rewrite insert_at_Permutation at 1. simpl length. rewrite length_take, Nat.min_l by lia.
      rewrite (proj2 (Nat.ltb_lt n (S n))) by lia. rewrite insert_at_Permutation at 1. simpl length.
      rewrite length_take, Nat.min_l by lia. replace (S n - 1) with n by lia. f_equal.
      rewrite take_insert_at by (rewrite length_take; lia). rewrite (proj2 (Nat.ltb_lt _ _) Hlt).
      rewrite take_take, Nat.min_l by lia. do 2 f_equal. rewrite skipn_firstn_comm, take_take. f_equal. lia.
  - cbn [mbind option_bind]. rewrite Nat.min_r by lia. rewrite (proj2 (Nat.ltb_lt (point e s) n)) by lia.
    rewrite take_ge by lia. rewrite insert_at_Permutation at 1. simpl length.
    rewrite (proj2 (Nat.ltb_ge n (S (length s)))) by lia. f_equal. unfold insert_at. do 2 f_equal.
    rewrite take_ge; [done|]. rewrite length_drop. lia.
Qed.

Lemma peek_worst_spec (heap : list E) :
  match peek_worst ecmp heap with
  | Some (w, others) => heap ≡ₚ w :: others ∧ ∀ x, x ∈ heap → le_by ecmp w x
  | None => heap = []
  end.
Proof.
  induction heap as [|e heap IH]; [done|]. simpl. destruct (peek_worst ecmp heap) as [[w others]|].
  - destruct IH as [Hp Hw]. destruct (entry_le ecmp e w) eqn:He.
    + split; [done|]. apply entry_le_iff in He. intros x [->|Hx]%elem_of_cons; [apply comparator_refl|].
      apply (comparator_trans ecmp) with w; [done|by apply Hw].
    + apply entry_le_false in He as [He _]. split; [rewrite Hp; apply Permutation_swap|].
      intros x [->|Hx]%elem_of_cons; [done|by apply Hw].
  - subst heap. split; [done|]. intros x Hx%list_elem_of_singleton. subst. apply comparator_refl.
Qed.

Lemma keep_heap_ok n l e heap :
  0 < n → no_ties (l ++ [e]) → heap ≡ₚ best_of_all n l → keep_heap ecmp n e heap ≡ₚ best_of_all n (l ++ [e]).
Proof.
  intros Hpos Hn Hh. rewrite best_snoc by done. cbv zeta. unfold keep_heap.
  pose proof (sort_by_sorted desc l) as Hs. assert (no_ties (sort_by desc l)) as Hts.
  { intros a b. rewrite !elem_of_sort_by. intros Ha Hb. apply Hn; apply elem_of_app; by left. }
  unfold best_of_all in Hh. set (s := sort_by desc l) in *. pose proof (point_le e s) as Hp.
  assert (length heap = Nat.min n (length s)) as Hlen by by rewrite Hh, length_take.
  destruct (Nat.ltb_spec (length heap) n) as [Hlt|Hge].
  - rewrite (proj2 (Nat.ltb_lt (point e s) n)) by lia. rewrite take_ge in Hh by lia.
    rewrite (take_ge (drop _ _)) by (rewrite length_drop; lia). by rewrite <-Permutation_middle, take_drop, Hh.
  - pose proof (peek_worst_spec heap) as Hw. destruct (peek_worst ecmp heap) as [[w others]|]; [|subst heap; simpl in *; lia].
    destruct Hw as [Hwp Hwle]. destruct (lookup_lt_is_Some_2 s (n - 1)) as [worst Hworst]; [lia|].
    assert (take n s = take (n - 1) s ++ [worst]) as Htake.
    { replace n with (S (n - 1)) at 1 by lia. by apply take_S_r. }
    assert (w = worst) as ->.
    { assert (w ∈ take n s) as Hwin by (rewrite <-Hh, Hwp; by left).
      assert (worst ∈ take n s) as Hwoin by (rewrite Htake; apply elem_of_app; right; by left).
      assert (le_by ecmp w worst) as H1 by (apply Hwle; by rewrite Hh).
      assert (le_by ecmp worst w) as H2.
      { rewrite Htake in Hwin. apply elem_of_app in Hwin as [Hwin|Hwin%list_elem_of_singleton]; [|subst; apply comparator_refl].
        pose proof Hs as Hs'. rewrite <-(take_drop n s), Htake, <-app_assoc in Hs'.
        eapply (StronglySorted_app_1_elem_of (le_by desc)) in Hs'; [exact Hs'|exact Hwin|by left]. }
      apply Hts; [by eapply subseteq_take..|]. unfold le_by in *. rewrite (comparator_flip ecmp w worst) in H2. by destruct (ecmp w worst). }
    pose proof (point_sorted e s Hs _ _ Hworst) as Hle. destruct (entry_le ecmp e worst).
    + destruct Hle as [Hle _]. specialize (Hle eq_refl). by rewrite (proj2 (Nat.ltb_ge _ _)) by lia.
    + assert (point e s < n) as Hlt. { apply Nat.nle_gt. intros Hge'. destruct Hle as [_ Hle]. by specialize (Hle ltac:(lia)). }
      rewrite (proj2 (Nat.ltb_lt _ _) Hlt). rewrite <-Permutation_middle. constructor.
      assert (others ≡ₚ take (n - 1) s) as ->.
      { apply (Permutation_cons_inv (a := worst)). by rewrite <-Hwp, Hh, Htake, Permutation_app_comm. }
      replace (n - 1) with (point e s + (n - point e s - 1)) by lia. by rewrite take_take_drop.
Qed.
End keeping.

(** ** The loops *)

Section selections.
Context {T DateTime : Type}.
Implicit Types (self : Objective T DateTime) (context : ObjectiveContext DateTime) (l : list (nat * T)).

(** The entry of a candidate, when it passes. *)
Definition entry_of {E} self context (entry : T → f64 → nat → E) (c : nat * T) : option E :=
  let score := obj_score self c.2 context in
  if obj_passes_score self score context
  then Some (entry c.2 (effective_of score (obj_precision self c.2 context)) c.1) else None.
Definition entries {E} self context (entry : T → f64 → nat → E) l : list E := omap (entry_of self context entry) l.

(** The candidates considered: those before [max_candidates], with their indices. *)
Definition considered_candidates (candidates : list T) context : list (nat * T) :=
  take (considered_limit (length candidates) context) (enumerate candidates).

Fixpoint keep_all {E A} (keep : E → A → option A) (es : list E) (acc : A) : option A :=
  match es with [] => Some acc | e :: es => acc ← keep e acc; keep_all keep es acc end.

Lemma entries_cons {E} self context (entry : T → f64 → nat → E) c l :
  entries self context entry (c :: l) =
  match entry_of self context entry c with
  | Some e => e :: entries self context entry l
  | None => entries self context entry l
  end.
Proof. done. Qed.

Lemma top_loop_spec {E A} self context (entry : T → f64 → nat → E) (keep : E → A → option A) l n m acc :
  top_loop self context entry keep l n m acc =
  acc ← keep_all keep (entries self context entry l) acc; Some (acc, n + length l, m + length (entries self context entry l)).
Proof.
  revert n m acc. induction l as [|[i c] l IH]; intros n m acc; [simpl; by rewrite !Nat.add_0_r|].
  rewrite entries_cons. unfold entry_of. cbn [top_loop fst snd].
  destruct (obj_passes_score self (obj_score self c context) context); cbn [negb keep_all length].
  - destruct (keep _ acc) as [acc'|]; simpl; [|done]. rewrite IH. destruct (keep_all _ _ acc'); simpl; [|done].
    do 2 f_equal; [f_equal|]; lia.
  - rewrite IH. destruct (keep_all _ _ acc); simpl; [|done]. do 3 f_equal. lia.
Qed.

Section entries.
Context {E : Type} (ecmp : E → E → comparison) `{!Comparator ecmp} (entry : T → f64 → nat → E).
#[local] Existing Instance desc_Comparator.

Lemma keep_all_sorted n (seen es : list E) :
  0 < n → no_ties ecmp (seen ++ es) → keep_all (keep_sorted ecmp n) es (best_of_all ecmp n seen) = Some (best_of_all ecmp n (seen ++ es)).
Proof.
  intros Hn. revert seen. induction es as [|e es IH]; intros seen Ht; [by rewrite app_nil_r|]. simpl.
  rewrite cons_middle, app_assoc in Ht |- *.
  rewrite keep_sorted_ok by (done || by apply (no_ties_app ecmp _ es)). simpl. by apply IH.
Qed.

Lemma keep_all_heap n (seen es heap : list E) :
  0 < n → no_ties ecmp (seen ++ es) → heap ≡ₚ best_of_all ecmp n seen →
  ∃ heap', keep_all (λ e heap, Some (keep_heap ecmp n e heap)) es heap = Some heap' ∧ heap' ≡ₚ best_of_all ecmp n (seen ++ es).
Proof.
  intros Hn. revert seen heap. induction es as [|e es IH]; intros seen heap Ht Hh; [exists heap; by rewrite app_nil_r|]. simpl.
  rewrite cons_middle, app_assoc in Ht |- *. apply IH; [done|]. apply (keep_heap_ok ecmp); [done|by apply (no_ties_app ecmp _ es)|done].
Qed.

(** Whichever way is taken, the best entries in descending order. *)
Lemma top_entries_spec self context n l :
  0 < n → no_ties ecmp (entries self context entry l) →
  top_entries ecmp entry self n l context =
  Some (best_of_all ecmp n (entries self context entry l), length l, length (entries self context entry l)).
Proof.
  intros Hn Ht. unfold top_entries. destruct (n <=? SMALL_TOP_N); rewrite top_loop_spec.
  - pose proof (keep_all_sorted n [] (entries self context entry l) Hn Ht) as Hk. unfold best_of_all in Hk at 1.
    simpl in Hk. rewrite take_nil in Hk. by rewrite Hk.
  - destruct (keep_all_heap n [] (entries self context entry l) [] Hn Ht) as (heap & -> & Hh); [by destruct n|]. simpl.
    do 3 f_equal. simpl in Hh. set (es := entries self context entry l) in *.
    apply sort_unique; [done| |done|].
    + intros a b Ha Hb. rewrite Hh in Ha, Hb. apply Ht; by eapply elem_of_sort_by, subseteq_take.
    + unfold best_of_all. pose proof (sort_by_sorted (λ a b, ecmp b a) es) as Hs.
      rewrite <-(take_drop n (sort_by _ es)) in Hs. by apply StronglySorted_app_1_l in Hs.
Qed.
End entries.

#[export] Instance RankedIndex_Comparator : Comparator RankedIndex_cmp.
Proof.
  pose proof (key_Comparator ri_det (@cmp DeterministicScore _)) as Hdet.
  pose proof (key_Comparator ri_index (@cmp nat _)) as Hindex. pose proof (reverse_Comparator _ (Comparator0 := Hindex)) as Hrev.
  exact (then_cmp_Comparator _ _ (Comparator0 := Hdet) (Comparator1 := Hrev)).
Qed.

#[export] Instance ScoredEntry_Comparator : Comparator (@ScoredEntry_cmp T).
Proof.
  pose proof (key_Comparator (@se_det T) (@cmp DeterministicScore _)) as Hdet.
  pose proof (key_Comparator (@se_id T) (@cmp N _)) as Hid. pose proof (reverse_Comparator _ (Comparator0 := Hid)) as Hrev.
  exact (then_cmp_Comparator _ _ (Comparator0 := Hdet) (Comparator1 := Hrev)).
Qed.

Lemma then_cmp_Eq a b : then_cmp a b = Eq → a = Eq ∧ b = Eq.
Proof. by destruct a. Qed.

Lemma considered_lookup candidates context i c :
  (i, c) ∈ considered_candidates candidates context → candidates !! i = Some c.
Proof. intros Hc%subseteq_take. by apply enumerate_elem_of. Qed.

Lemma elem_of_top_entries {E} self context (entry : T → f64 → nat → E) l e :
  e ∈ entries self context entry l ↔ ∃ i c, (i, c) ∈ l ∧ entry_of self context entry (i, c) = Some e.
Proof. unfold entries. rewrite list_elem_of_omap. split; [intros ([i c] & ? & ?); eauto|intros (i & c & ? & ?); eauto]. Qed.

Lemma entry_of_Some {E} self context (entry : T → f64 → nat → E) i c e :
  entry_of self context entry (i, c) = Some e →
  obj_passes_score self (obj_score self c context) context = true ∧
  e = entry c (effective_of (obj_score self c context) (obj_precision self c context)) i.
Proof. unfold entry_of. simpl. destruct (obj_passes_score _ _ _); [|done]. by intros [= <-]. Qed.

(** The position decides between equal scores. *)
Lemma ranked_no_ties self context candidates :
  no_ties RankedIndex_cmp (entries self context (λ _, RankedIndex_new) (considered_candidates candidates context)).
Proof.
  intros a b (i & c & Hc & [_ ->]%entry_of_Some)%elem_of_top_entries (j & d & Hd & [_ ->]%entry_of_Some)%elem_of_top_entries
    [_ E%cmp_eq]%then_cmp_Eq. simpl in E. subst j.
  apply considered_lookup in Hc. apply considered_lookup in Hd. rewrite Hc in Hd. by injection Hd as ->.
Qed.

Lemma considered_length candidates context :
  length (considered_candidates candidates context) = considered_limit (length candidates) context.
Proof.
  unfold considered_candidates. rewrite length_take. unfold enumerate. rewrite length_zip_with_l_eq by (by rewrite length_seq). rewrite length_seq. unfold considered_limit. lia.
Qed.

Lemma considered_nil context : considered_candidates [] context = [].
Proof. unfold considered_candidates. apply take_nil. Qed.

(** The counts of every selection of a call, and the candidate it names. *)
Definition selects (candidates : list T) context (passing : nat) (s : Selection T) : Prop :=
  candidates !! sel_index s = Some (sel_item s) ∧ sel_considered s = considered_limit (length candidates) context ∧
  sel_passed s = passing.

Lemma best_of_all_elem {E} (ecmp : E → E → comparison) n (es : list E) e : e ∈ best_of_all ecmp n es → e ∈ es.
Proof. intros H%subseteq_take. by apply elem_of_sort_by in H. Qed.

End selections.
